(* ===== verification/_CoqProject ===== *)
-Q . S2P
Prelude.v
OrdMap.v
KeyRange.v
Types.v
Keyspace.v
Bits.v
SeqTracker.v
RowCodec.v
Iter.v
Block.v
BlockIter.v
BlockIterV2.v
MergeIter.v
MergeOperator.v
Retention.v
Transactions.v
Segments.v
MemTable.v
WriteBatch.v
Wal.v
Views.v
Manifest.v
CompactionState.v
Compactor.v
SizeTiered.v
CompactionSafety.v
SchedulerSafety.v
LsmProtocol.v
GarbageCollector.v
GcSafety.v
WritePath.v
Recovery.v
RecoveryInv.v
RecoverySafety.v
RecoveryProgress.v
ObjectStore.v
TxnStore.v
TxnStoreSpec.v
TxnObject.v
TxnProtocol.v
TxnMem.v
TxnClients.v
TxnLiveness.v
SstFilter.v
SstFormat.v
SstRoundtrip.v
DbCache.v
TableStore.v
SstIter.v
SortedRunIter.v
ReadSources.v
DbIter.v
DbReads.v
DbSeek.v
