(* ===== verification/Prelude.v ===== *)
(** * SlateDB: a verification library

    Root file: header to be completed below. *)

From Stdlib Require Export ZArith Lia.
From stdpp Require Export base list gmap option numbers sorting.

(** ** Outcomes of Rust computations

    A Rust function of type [Result<A, E>] either returns a value, returns an
    error, or panics (a failed [assert!], an [expect] on [None], an index out
    of bounds, a subtraction that underflows).  [OutOfFuel] is the model's own
    outcome for loops whose termination depends on an iterator the loop does
    not control; theorems about such loops give the fuel that is enough. *)

Inductive outcome (E A : Type) : Type :=
| Ok (a : A)
| Err (e : E)
| Panic
| OutOfFuel.
Arguments Ok {E A} a.
Arguments Err {E A} e.
Arguments Panic {E A}.
Arguments OutOfFuel {E A}.

Global Instance outcome_eq_dec {E A} `{EqDecision E, EqDecision A} : EqDecision (outcome E A).
Proof. solve_decision. Defined.

Global Instance outcome_ret {E} : MRet (outcome E) := λ A a, Ok a.
Global Instance outcome_bind {E} : MBind (outcome E) := λ A B k c,
  match c with
  | Ok a => k a
  | Err e => Err e
  | Panic => Panic
  | OutOfFuel => OutOfFuel
  end.

Definition is_ok {E A} (c : outcome E A) : bool :=
  match c with Ok _ => true | _ => false end.

(** [assert!(b)] *)
Definition rust_assert {E} (b : bool) : outcome E unit := if b then Ok tt else Panic.

(** [o.expect(..)] *)
Definition expect {E A} (o : option A) : outcome E A :=
  match o with Some a => Ok a | None => Panic end.

(** [o.ok_or(e)?] *)
Definition ok_or {E A} (e : E) (o : option A) : outcome E A :=
  match o with Some a => Ok a | None => Err e end.

(** [map_err] / the [From] conversion of the [?] operator. *)
Definition map_err {E F A} (f : E → F) (c : outcome E A) : outcome F A :=
  match c with
  | Ok a => Ok a
  | Err e => Err (f e)
  | Panic => Panic
  | OutOfFuel => OutOfFuel
  end.

Lemma bind_Ok_inv {E A B} (c : outcome E A) (k : A → outcome E B) (b : B) :
  c ≫= k = Ok b → ∃ a, c = Ok a ∧ k a = Ok b.
Proof. destruct c; simpl; intros H; try discriminate. eauto. Qed.

Lemma rust_assert_true {E B} (b : bool) (k : unit → outcome E B) :
  b = true → (rust_assert b ≫= k) = k tt.
Proof. by intros ->. Qed.

Lemma rust_assert_inv {E} (b : bool) u : @rust_assert E b = Ok u → b = true.
Proof. by destruct b. Qed.

(** Split every successful bind of a hypothesis. *)
Ltac inv_bind :=
  repeat match goal with
  | H : _ ≫= _ = Ok _ |- _ =>
      let a := fresh "x" in let Ha := fresh "Hx" in
      apply bind_Ok_inv in H as (a & Ha & H)
  | H : rust_assert _ = Ok _ |- _ => apply rust_assert_inv in H
  | H : Ok _ = Ok _ |- _ => injection H as H; subst
  | H : mret _ = Ok _ |- _ => injection H as H; subst
  | H : Err _ = Ok _ |- _ => discriminate H
  | H : Panic = Ok _ |- _ => discriminate H
  | H : OutOfFuel = Ok _ |- _ => discriminate H
  end.

Section run_laws.
  Context {E A B : Type}.
  Implicit Types (f : A → outcome E B) (x : A) (e : E).

Lemma bind_Ok x f : (Ok x ≫= f) = f x.
Proof. reflexivity. Qed.
Lemma bind_ret x f : (mret (M:=outcome E) x ≫= f) = f x.
Proof. reflexivity. Qed.
Lemma bind_Err e f : (Err e ≫= f) = Err e.
Proof. reflexivity. Qed.
Lemma bind_Panic f : (Panic ≫= f) = Panic.
Proof. reflexivity. Qed.
Lemma ret_Ok x : mret (M:=outcome E) x = Ok x.
Proof. reflexivity. Qed.
Lemma ok_or_Some e x : ok_or e (Some x) = Ok x.
Proof. reflexivity. Qed.
Lemma ok_or_None e : ok_or e (@None A) = Err e.
Proof. reflexivity. Qed.
Lemma expect_Some x : expect (E:=E) (Some x) = Ok x.
Proof. reflexivity. Qed.
Lemma expect_None : expect (E:=E) (@None A) = Panic.
Proof. reflexivity. Qed.
Lemma assert_true : rust_assert (E:=E) true = Ok tt.
Proof. reflexivity. Qed.
Lemma assert_false : rust_assert (E:=E) false = Panic.
Proof. reflexivity. Qed.
Lemma map_err_Ok {F} (g : E → F) x : map_err g (Ok x) = Ok x.
Proof. reflexivity. Qed.
Lemma map_err_Err {F} (g : E → F) e : map_err g (Err e) = Err (A:=A) (g e).
Proof. reflexivity. Qed.
End run_laws.

Create HintDb outcome.
#[export] Hint Rewrite @bind_Ok @bind_ret @bind_Err @bind_Panic @ok_or_Some @ok_or_None
  @expect_Some @expect_None @assert_true @assert_false @map_err_Ok @map_err_Err : outcome.

(** Run the binds whose first computation is known.  Each step is a rewrite, so
    that no conversion problem over the rest of the computation is left behind. *)
Ltac run_step :=
  match goal with
  | |- context [mbind ?f (Ok ?x)] => rewrite (bind_Ok x f)
  | |- context [mbind ?f (mret ?x)] => rewrite (bind_ret x f)
  | |- context [mbind ?f (Err ?e)] => rewrite (bind_Err e f)
  | |- context [mbind ?f Panic] => rewrite (bind_Panic f)
  | |- context [ok_or ?e (Some ?x)] => rewrite (ok_or_Some e x)
  | |- context [ok_or ?e (@None ?A)] => rewrite (ok_or_None (A:=A) e)
  | |- context [@expect ?E _ (Some ?x)] => rewrite (expect_Some (E:=E) x)
  | |- context [@expect ?E _ (@None ?A)] => rewrite (expect_None (E:=E) (A:=A))
  | |- context [@rust_assert ?E true] => rewrite (assert_true (E:=E))
  | |- context [@rust_assert ?E false] => rewrite (assert_false (E:=E))
  | |- context [map_err ?g (Ok ?x)] => rewrite (map_err_Ok g x)
  | |- context [@map_err _ _ ?A ?g (Err ?e)] => rewrite (map_err_Err (A:=A) g e)
  end.
Ltac run := repeat (run_step; cbv beta iota zeta); rewrite ?ret_Ok.

(** ** Rust's [Ord]

    [Ord] is the trait's comparison function, [OrdLaws] what an implementation
    of the trait promises (a total order whose [Equal] is equality). *)

Class Ord (T : Type) := cmp : T → T → comparison.

Class OrdLaws (T : Type) `{Ord T} : Prop := {
  cmp_eq (a b : T) : cmp a b = Eq ↔ a = b;
  cmp_opp (a b : T) : cmp b a = CompOpp (cmp a b);
  cmp_lt_trans (a b c : T) : cmp a b = Lt → cmp b c = Lt → cmp a c = Lt;
}.

Declare Scope ord_scope.
Delimit Scope ord_scope with ord.

Definition ord_lt {T} `{Ord T} (a b : T) : Prop := cmp a b = Lt.
Definition ord_le {T} `{Ord T} (a b : T) : Prop := cmp a b ≠ Gt.
Definition ord_ltb {T} `{Ord T} (a b : T) : bool :=
  match cmp a b with Lt => true | _ => false end.
Definition ord_leb {T} `{Ord T} (a b : T) : bool :=
  match cmp a b with Gt => false | _ => true end.
Definition ord_eqb {T} `{Ord T} (a b : T) : bool :=
  match cmp a b with Eq => true | _ => false end.

(** [std::cmp::max] returns its second argument on a tie, [min] its first. *)
Definition ord_max {T} `{Ord T} (a b : T) : T := if ord_ltb b a then a else b.
Definition ord_min {T} `{Ord T} (a b : T) : T := if ord_ltb b a then b else a.

Arguments ord_lt : simpl never.
Arguments ord_le : simpl never.
Arguments ord_ltb : simpl never.
Arguments ord_leb : simpl never.
Arguments ord_eqb : simpl never.

Infix "≺" := ord_lt (at level 70, no associativity) : ord_scope.
Infix "≼" := ord_le (at level 70, no associativity) : ord_scope.
Open Scope ord_scope.

Section ord_lemmas.
  Context {T : Type} `{OrdLaws T}.
  Implicit Types a b c : T.

Lemma cmp_refl a : cmp a a = Eq.
Proof. by apply cmp_eq. Qed.

Lemma ord_lt_irrefl a : ¬ a ≺ a.
Proof. unfold ord_lt. rewrite cmp_refl. done. Qed.

Lemma ord_lt_trans a b c : a ≺ b → b ≺ c → a ≺ c.
Proof. apply cmp_lt_trans. Qed.

Lemma ord_le_alt a b : a ≼ b ↔ a ≺ b ∨ a = b.
Proof.
  unfold ord_le, ord_lt. rewrite <- (cmp_eq a b).
  destruct (cmp a b); naive_solver.
Qed.

Lemma ord_le_refl a : a ≼ a.
Proof. apply ord_le_alt. by right. Qed.

Lemma ord_lt_le a b : a ≺ b → a ≼ b.
Proof. intros. apply ord_le_alt. by left. Qed.

Lemma ord_not_lt a b : ¬ a ≺ b ↔ b ≼ a.
Proof. unfold ord_le, ord_lt. rewrite (cmp_opp a b). by destruct (cmp a b). Qed.

Lemma ord_not_le a b : ¬ a ≼ b ↔ b ≺ a.
Proof.
  unfold ord_le, ord_lt. rewrite (cmp_opp a b).
  destruct (cmp a b); simpl; naive_solver.
Qed.

Lemma ord_le_lt_trans a b c : a ≼ b → b ≺ c → a ≺ c.
Proof. intros [?| ->]%ord_le_alt ?; [by eapply ord_lt_trans|done]. Qed.

Lemma ord_lt_le_trans a b c : a ≺ b → b ≼ c → a ≺ c.
Proof. intros ? [?| <-]%ord_le_alt; [by eapply ord_lt_trans|done]. Qed.

Lemma ord_le_trans a b c : a ≼ b → b ≼ c → a ≼ c.
Proof. intros [?| ->]%ord_le_alt ?; [|done]. by eapply ord_lt_le, ord_lt_le_trans. Qed.

Lemma ord_le_antisym a b : a ≼ b → b ≼ a → a = b.
Proof. intros [Hlt|]%ord_le_alt Hle; [|done]. by apply ord_not_lt in Hle. Qed.

Lemma ord_lt_total a b : a ≺ b ∨ a = b ∨ b ≺ a.
Proof.
  unfold ord_lt. rewrite (cmp_opp a b), <- (cmp_eq a b). destruct (cmp a b); simpl; auto.
Qed.

Lemma ord_ltb_true a b : ord_ltb a b = true ↔ a ≺ b.
Proof. unfold ord_ltb, ord_lt. by destruct (cmp a b). Qed.

Lemma ord_ltb_false a b : ord_ltb a b = false ↔ b ≼ a.
Proof. rewrite <- ord_not_lt, <- ord_ltb_true. by destruct (ord_ltb a b). Qed.

Lemma ord_leb_true a b : ord_leb a b = true ↔ a ≼ b.
Proof. unfold ord_leb, ord_le. destruct (cmp a b); naive_solver. Qed.

Lemma ord_leb_false a b : ord_leb a b = false ↔ b ≺ a.
Proof. rewrite <- ord_not_le, <- ord_leb_true. by destruct (ord_leb a b). Qed.

Lemma ord_eqb_true a b : ord_eqb a b = true ↔ a = b.
Proof. rewrite <- cmp_eq. unfold ord_eqb. by destruct (cmp a b). Qed.

Lemma ord_eqb_false a b : ord_eqb a b = false ↔ a ≠ b.
Proof. rewrite <- ord_eqb_true. by destruct (ord_eqb a b). Qed.

Lemma cmp_Gt a b : cmp a b = Gt ↔ b ≺ a.
Proof. unfold ord_lt. rewrite (cmp_opp a b). by destruct (cmp a b). Qed.

Lemma cmp_Lt a b : cmp a b = Lt ↔ a ≺ b.
Proof. done. Qed.

Global Instance ord_lt_dec a b : Decision (a ≺ b).
Proof. unfold ord_lt. apply _. Defined.
Global Instance ord_le_dec a b : Decision (a ≼ b).
Proof. unfold ord_le. apply _. Defined.
End ord_lemmas.

(** [ord] closes goals that follow from order facts among the hypotheses: it
    normalises negations and boolean tests, saturates by transitivity and looks
    for a contradiction. *)
Ltac ord_norm :=
  repeat match goal with
  | H : ¬ ord_lt _ _ |- _ => apply ord_not_lt in H
  | H : ¬ ord_le _ _ |- _ => apply ord_not_le in H
  | H : ord_ltb _ _ = true |- _ => apply ord_ltb_true in H
  | H : ord_ltb _ _ = false |- _ => apply ord_ltb_false in H
  | H : ord_leb _ _ = true |- _ => apply ord_leb_true in H
  | H : ord_leb _ _ = false |- _ => apply ord_leb_false in H
  | H : ord_eqb _ _ = true |- _ => apply ord_eqb_true in H
  | H : ord_eqb _ _ = false |- _ => apply ord_eqb_false in H
  | H : cmp _ _ = Eq |- _ => apply cmp_eq in H
  | H : cmp _ _ = Gt |- _ => apply cmp_Gt in H
  | H : cmp ?a ?b = Lt |- _ => change (ord_lt a b) in H
  end; subst.

Ltac ord_sat :=
  repeat match goal with
  | H1 : ord_lt ?a ?b, H2 : ord_lt ?b ?c |- _ =>
      lazymatch goal with
      | _ : ord_lt a c |- _ => fail
      | _ => pose proof (ord_lt_trans _ _ _ H1 H2)
      end
  | H1 : ord_le ?a ?b, H2 : ord_lt ?b ?c |- _ =>
      lazymatch goal with
      | _ : ord_lt a c |- _ => fail
      | _ => pose proof (ord_le_lt_trans _ _ _ H1 H2)
      end
  | H1 : ord_lt ?a ?b, H2 : ord_le ?b ?c |- _ =>
      lazymatch goal with
      | _ : ord_lt a c |- _ => fail
      | _ => pose proof (ord_lt_le_trans _ _ _ H1 H2)
      end
  | H1 : ord_le ?a ?b, H2 : ord_le ?b ?c |- _ =>
      lazymatch goal with
      | _ : ord_le a c |- _ => fail
      | _ : ord_lt a c |- _ => fail
      | _ => pose proof (ord_le_trans _ _ _ H1 H2)
      end
  end.

Ltac ord_close :=
  match goal with
  | H : ord_lt ?a ?a |- _ => by apply ord_lt_irrefl in H
  | H : ?a ≠ ?a |- _ => by destruct H
  | H : ord_lt ?a ?b |- ord_lt ?a ?b => exact H
  | H : ord_le ?a ?b |- ord_le ?a ?b => exact H
  | H : ord_lt ?a ?b |- ord_le ?a ?b => exact (ord_lt_le _ _ H)
  | |- ord_le ?a ?a => apply ord_le_refl
  | H1 : ord_le ?a ?b, H2 : ord_le ?b ?a |- ?a = ?b => exact (ord_le_antisym _ _ H1 H2)
  | H1 : ord_le ?a ?b, H2 : ord_le ?b ?a |- ?b = ?a => exact (ord_le_antisym _ _ H2 H1)
  | H : ?a ≠ ?b, H1 : ord_le ?a ?b, H2 : ord_le ?b ?a |- _ =>
      destruct H; exact (ord_le_antisym _ _ H1 H2)
  | H : ?a ≠ ?b, H1 : ord_le ?b ?a, H2 : ord_le ?a ?b |- _ =>
      destruct H; exact (ord_le_antisym _ _ H2 H1)
  end.

Ltac ord_goal :=
  match goal with
  | |- ord_lt ?a ?b => destruct (decide (ord_lt a b)); [assumption|exfalso]
  | |- ord_le ?a ?b => destruct (decide (ord_le a b)); [assumption|exfalso]
  | |- ord_ltb _ _ = true => apply ord_ltb_true; ord_goal
  | |- ord_ltb _ _ = false => apply ord_ltb_false; ord_goal
  | |- ord_leb _ _ = true => apply ord_leb_true; ord_goal
  | |- ord_leb _ _ = false => apply ord_leb_false; ord_goal
  | |- ord_eqb _ _ = true => apply ord_eqb_true
  | |- ¬ _ => intros ?
  | |- _ ≠ _ => intros ?
  | |- _ => idtac
  end.

Ltac ord := intros; cbv beta in *; ord_norm; ord_goal; ord_norm; ord_sat; first [done | ord_close].

(** Instances: integers, and slices compared lexicographically. *)
Global Instance Z_ord : Ord Z := Z.compare.
Global Instance Z_ord_laws : OrdLaws Z.
Proof.
  split; unfold cmp, Z_ord.
  - intros. apply Z.compare_eq_iff.
  - intros. apply Z.compare_antisym.
  - intros a b c. rewrite !Z.compare_lt_iff. lia.
Qed.

Fixpoint list_cmp {T} `{Ord T} (l k : list T) : comparison :=
  match l, k with
  | [], [] => Eq
  | [], _ :: _ => Lt
  | _ :: _, [] => Gt
  | x :: l', y :: k' =>
      match cmp x y with
      | Eq => list_cmp l' k'
      | c => c
      end
  end.

Global Instance list_ord {T} `{Ord T} : Ord (list T) := list_cmp.
Global Instance list_ord_laws {T} `{OrdLaws T} : OrdLaws (list T).
Proof.
  split; unfold cmp, list_ord.
  - intros l. induction l as [|x l IH]; intros [|y k]; simpl; try done.
    destruct (cmp x y) eqn:E.
    + apply cmp_eq in E as ->. rewrite IH. naive_solver.
    + split; [done|]. intros [= -> ->]. by rewrite cmp_refl in E.
    + split; [done|]. intros [= -> ->]. by rewrite cmp_refl in E.
  - intros l. induction l as [|x l IH]; intros [|y k]; simpl; try done.
    rewrite (cmp_opp x y). destruct (cmp x y); simpl; auto.
  - intros l. induction l as [|x l IH]; intros [|y k] [|z m]; simpl; try done.
    destruct (cmp x y) eqn:Exy; [apply cmp_eq in Exy as ->| |done].
    + destruct (cmp y z); [|done..]. apply IH.
    + intros _. destruct (cmp y z) eqn:Eyz; [apply cmp_eq in Eyz as ->| |done].
      * by rewrite Exy.
      * by rewrite (cmp_lt_trans _ _ _ Exy Eyz).
Qed.

(** ** Machine integers

    Unsigned [w]-bit values are the integers of [0, 2^w); signed ones those of
    [-2^(w-1), 2^(w-1)).  A cast [as uw] is [wrap w]; a cast [as iw] is
    [to_signed w]. *)

Definition wrap (w z : Z) : Z := (z mod 2 ^ w)%Z.
Definition to_signed (w z : Z) : Z :=
  let m := (z mod 2 ^ w)%Z in if decide (m < 2 ^ (w - 1))%Z then m else (m - 2 ^ w)%Z.

Definition u8_max : Z := 255.
Definition u16_max : Z := 65535.
Definition u32_max : Z := 4294967295.
Definition u64_max : Z := 18446744073709551615.

Definition is_u8 (z : Z) : Prop := (0 ≤ z < 2 ^ 8)%Z.
Definition is_u16 (z : Z) : Prop := (0 ≤ z < 2 ^ 16)%Z.
Definition is_u32 (z : Z) : Prop := (0 ≤ z < 2 ^ 32)%Z.
Definition is_u64 (z : Z) : Prop := (0 ≤ z < 2 ^ 64)%Z.
Definition is_i64 (z : Z) : Prop := (- 2 ^ 63 ≤ z < 2 ^ 63)%Z.

Lemma wrap_small w z : (0 ≤ z < 2 ^ w)%Z → wrap w z = z.
Proof. apply Z.mod_small. Qed.

Lemma wrap_range w z : (0 ≤ w)%Z → (0 ≤ wrap w z < 2 ^ w)%Z.
Proof. intros. apply Z.mod_pos_bound. lia. Qed.

Lemma wrap_wrap w z : wrap w (wrap w z) = wrap w z.
Proof. apply Zmod_mod. Qed.

Lemma to_signed_wrap w z : to_signed w (wrap w z) = to_signed w z.
Proof. unfold to_signed, wrap. by rewrite Zmod_mod. Qed.

Lemma pow2_half w : (0 < w)%Z → (2 ^ w = 2 * 2 ^ (w - 1))%Z.
Proof. intros. rewrite <- Z.pow_succ_r by lia. f_equal. lia. Qed.

Lemma to_signed_small w z :
  (0 < w)%Z → (- 2 ^ (w - 1) ≤ z < 2 ^ (w - 1))%Z → to_signed w z = z.
Proof.
  intros Hw Hz. unfold to_signed. rewrite (pow2_half w Hw) in *.
  destruct (decide (0 ≤ z)%Z).
  - rewrite Z.mod_small by lia. case_decide; lia.
  - replace (z mod (2 * 2 ^ (w - 1)))%Z with (z + 2 * 2 ^ (w - 1))%Z.
    + case_decide; lia.
    + apply (Z.mod_unique _ _ (-1)); lia.
Qed.

Lemma wrap_to_signed w z : (0 < w)%Z → wrap w (to_signed w z) = wrap w z.
Proof.
  intros Hw. unfold to_signed, wrap. case_decide; [apply Zmod_mod|].
  rewrite Zminus_mod, Z_mod_same_full, Z.sub_0_r, !Zmod_mod. done.
Qed.

Lemma to_signed_congr w x y : wrap w x = wrap w y → to_signed w x = to_signed w y.
Proof. unfold to_signed, wrap. by intros ->. Qed.

Lemma to_signed_range w z : (0 < w)%Z → (- 2 ^ (w - 1) ≤ to_signed w z < 2 ^ (w - 1))%Z.
Proof.
  intros Hw. unfold to_signed. rewrite (pow2_half w Hw).
  pose proof (Z.mod_pos_bound z (2 * 2 ^ (w - 1)) ltac:(lia)). case_decide; lia.
Qed.

(** ** Byte strings: [Bytes], [Vec<u8>], [&[u8]] *)

Notation bytes := (list Z).

Definition is_bytes (b : bytes) : Prop := Forall is_u8 b.

(** [put_uw(z)] of the [bytes] crate: [n] bytes, most significant first. *)
Fixpoint put_be (n : nat) (z : Z) : bytes :=
  match n with
  | O => []
  | S n' => wrap 8 (Z.shiftr z (8 * Z.of_nat n')) :: put_be n' z
  end.

(** The value of a big-endian byte string. *)
Definition be_val (b : bytes) : Z := foldl (λ acc x, acc * 256 + x)%Z 0%Z b.

(** [buf.get_uw()]: reads [n] bytes and advances; panics when fewer remain. *)
Definition get_be {E} (n : nat) (buf : bytes) : outcome E (Z * bytes) :=
  if decide (n ≤ length buf) then Ok (be_val (take n buf), drop n buf) else Panic.

Lemma length_put_be n z : length (put_be n z) = n.
Proof. induction n; simpl; auto. Qed.

Lemma be_val_acc b acc :
  foldl (λ acc x, acc * 256 + x)%Z acc b = (acc * 256 ^ Z.of_nat (length b) + be_val b)%Z.
Proof.
  unfold be_val. revert acc. induction b as [|x b IH]; intros acc.
  { simpl. lia. }
  cbn [foldl length]. rewrite IH, (IH (0 * 256 + x)%Z), Nat2Z.inj_succ, Z.pow_succ_r by lia. lia.
Qed.

Lemma be_val_cons x b : be_val (x :: b) = (x * 256 ^ Z.of_nat (length b) + be_val b)%Z.
Proof. unfold be_val at 1. cbn [foldl]. rewrite be_val_acc. lia. Qed.

Lemma be_val_put_be n z : be_val (put_be n z) = wrap (8 * Z.of_nat n) z.
Proof.
  induction n as [|n IH]; [unfold wrap; by rewrite Z.mod_1_r|].
  cbn [put_be]. rewrite be_val_cons, IH, length_put_be.
  unfold wrap. rewrite Z.shiftr_div_pow2 by lia.
  replace (8 * Z.of_nat (S n))%Z with (8 * Z.of_nat n + 8)%Z by lia.
  rewrite Z.pow_add_r by lia.
  replace (256 ^ Z.of_nat n)%Z with (2 ^ (8 * Z.of_nat n))%Z
    by (by rewrite Z.pow_mul_r by lia).
  rewrite (Z.rem_mul_r z (2 ^ (8 * Z.of_nat n)) (2 ^ 8)) by lia. lia.
Qed.

Lemma put_be_bytes n z : is_bytes (put_be n z).
Proof. induction n; constructor; [|done]. by apply wrap_range. Qed.

Lemma get_put_be {E} n z rest :
  get_be (E:=E) n (put_be n z ++ rest) = Ok (wrap (8 * Z.of_nat n) z, rest).
Proof.
  unfold get_be. rewrite length_app, length_put_be. rewrite decide_True by lia.
  rewrite take_app_length', drop_app_length' by (by rewrite length_put_be).
  by rewrite be_val_put_be.
Qed.

(** [buf.slice(..n)] / [buf[..n]]: panics past the end. *)
Definition slice_to {E} (n : nat) (b : bytes) : outcome E bytes :=
  if decide (n ≤ length b) then Ok (take n b) else Panic.
(** [buf.slice(n..)] / [buf[n..]] / [buf.advance(n)]. *)
Definition slice_from {E} (n : nat) (b : bytes) : outcome E bytes :=
  if decide (n ≤ length b) then Ok (drop n b) else Panic.

Lemma slice_to_app {E} (b rest : bytes) : slice_to (E:=E) (length b) (b ++ rest) = Ok b.
Proof.
  unfold slice_to. rewrite length_app, decide_True by lia. by rewrite take_app_length.
Qed.

Lemma slice_from_app {E} (b rest : bytes) : slice_from (E:=E) (length b) (b ++ rest) = Ok rest.
Proof.
  unfold slice_from. rewrite length_app, decide_True by lia. by rewrite drop_app_length.
Qed.

Lemma slice_from_app' {E} (b rest : bytes) n :
  n = length b → slice_from (E:=E) n (b ++ rest) = Ok rest.
Proof. intros ->. apply slice_from_app. Qed.

Lemma slice_to_app' {E} (b rest : bytes) n : n = length b → slice_to (E:=E) n (b ++ rest) = Ok b.
Proof. intros ->. apply slice_to_app. Qed.

(** Indexing [v[i]]. *)
Definition index {E A} (l : list A) (i : nat) : outcome E A := expect (l !! i).

(** ** Lists of lists *)

Lemma elem_of_concat {A} (x : A) (ll : list (list A)) : x ∈ concat ll ↔ ∃ l, x ∈ l ∧ l ∈ ll.
Proof.
  induction ll as [|l ll IH]; cbn; [set_solver|]. rewrite elem_of_app, IH. split.
  - intros [Hx|(l' & Hx & Hl)]; [exists l|exists l']; set_solver.
  - intros (l' & Hx & Hl). apply elem_of_cons in Hl as [->|Hl]; [by left|right]. by exists l'.
Qed.

(** ** Filters, sublists and sorted lists *)

Lemma list_filter_all {A} (P : A → Prop) `{∀ x, Decision (P x)} l : Forall P l → filter P l = l.
Proof. induction 1 as [|x l Hx Hl IH]; [done|]. rewrite filter_cons_True by done. by rewrite IH. Qed.

Lemma list_filter_none {A} (P : A → Prop) `{∀ x, Decision (P x)} l :
  Forall (λ x, ¬ P x) l → filter P l = [].
Proof. induction 1 as [|x l Hx Hl IH]; [done|]. by rewrite filter_cons_False. Qed.

Lemma StronglySorted_weaken {A} (R1 R2 : A → A → Prop) l :
  (∀ x y, R1 x y → R2 x y) → StronglySorted R1 l → StronglySorted R2 l.
Proof. intros HR. induction 1; constructor; [done|]. eapply Forall_impl; eauto. Qed.

Lemma Forall_sublist_of {A} (P : A → Prop) l k : l `sublist_of` k → Forall P k → Forall P l.
Proof.
  intros Hsub. induction Hsub as [|x l k Hsub IH|x l k Hsub IH]; [done|..];
    rewrite ?Forall_cons; naive_solver.
Qed.

Lemma StronglySorted_sublist {A} (R : A → A → Prop) l k :
  l `sublist_of` k → StronglySorted R k → StronglySorted R l.
Proof.
  intros Hsub. induction Hsub as [|x l k Hsub IH|x l k Hsub IH]; [done|..];
    rewrite StronglySorted_cons; intros [Hx Hk]; [|by apply IH].
  rewrite StronglySorted_cons. split; [|by apply IH]. by eapply Forall_sublist_of.
Qed.

(** In a sorted list the elements of an upward-closed predicate form a suffix. *)
Lemma filter_suffix {A} (R : A → A → Prop) (P : A → Prop) `{∀ x, Decision (P x)} l :
  StronglySorted R l → (∀ x y, R x y → P x → P y) → ∃ a, l = a ++ filter P l.
Proof.
  intros Hs HP. induction Hs as [|x l Hs [a Ha] HF]; [by exists []|].
  rewrite filter_cons. destruct (decide (P x)) as [Hx|Hx].
  - exists []. cbn. f_equal. symmetry. apply list_filter_all. eapply Forall_impl; [exact HF|]. cbn. eauto.
  - exists (x :: a). cbn. by rewrite <-Ha.
Qed.

Lemma StronglySorted_weaken_Forall {A} (R S : A → A → Prop) (P : A → Prop) l :
  StronglySorted R l → Forall P l → (∀ x y, P x → P y → R x y → S x y) → StronglySorted S l.
Proof.
  intros Hs HP HRS. induction Hs as [|x l Hs IH HF]; [constructor|].
  apply Forall_cons in HP as [Hx HP]. constructor; [by apply IH|].
  rewrite Forall_forall in *. intros y Hy. apply HRS; [done|by apply HP|by apply HF].
Qed.

(** [iter.max()] *)
Definition max_opt (l : list Z) : option Z := match l with [] => None | x :: l => Some (foldl Z.max x l) end.

Lemma foldl_max_spec l x : (x ≤ foldl Z.max x l)%Z ∧ Forall (λ y, (y ≤ foldl Z.max x l)%Z) l.
Proof.
  revert x. induction l as [|y l IH]; intros x; cbn; [split; [lia|done]|].
  destruct (IH (x `max` y)%Z) as (H1 & H2). split; [lia|constructor; [cbn; lia|done]].
Qed.

Lemma foldl_max_elem l x : foldl Z.max x l ∈ x :: l.
Proof.
  revert x. induction l as [|y l IH]; intros x; cbn; [by left|]. specialize (IH (x `max` y)%Z).
  apply elem_of_cons in IH as [->|IH]; [|by do 2 right]. destruct (Z.max_spec x y) as [[_ ->]|[_ ->]]; [right; left|left].
Qed.

Lemma max_opt_spec ids i : i ∈ ids → ∃ m, max_opt ids = Some m ∧ (i ≤ m)%Z.
Proof.
  unfold max_opt. destruct ids as [|x l]; [set_solver|]. intros Hi. eexists. split; [done|]. destruct (foldl_max_spec l x) as [H1 H2].
  rewrite Forall_forall in H2. apply elem_of_cons in Hi as [->|Hi]; [done|by apply H2].
Qed.

Lemma max_opt_elem ids m : max_opt ids = Some m → m ∈ ids.
Proof. destruct ids as [|x l]; [done|]. cbn. intros E. injection E as <-. apply foldl_max_elem. Qed.

(** The least element, as [Iterator::min] finds it. *)
Definition min_opt (l : list Z) : option Z := match l with [] => None | x :: l => Some (foldl Z.min x l) end.

Lemma foldl_min_spec l x : (foldl Z.min x l ≤ x)%Z ∧ Forall (λ y, (foldl Z.min x l ≤ y)%Z) l ∧ (foldl Z.min x l = x ∨ foldl Z.min x l ∈ l).
Proof.
  revert x. induction l as [|y l IH]; intros x; cbn; [split_and!; [lia|done|by left]|].
  destruct (IH (x `min` y)%Z) as (H1 & H2 & H3). split_and!; [lia|constructor; [cbn; lia|done]|].
  destruct H3 as [->|H3]; [|right; set_solver]. destruct (Z.min_spec x y) as [[_ ->]|[_ ->]]; [by left|right; set_solver].
Qed.

Lemma min_opt_spec ids i : i ∈ ids → ∃ m, min_opt ids = Some m ∧ (m ≤ i)%Z.
Proof.
  unfold min_opt. destruct ids as [|x l]; [set_solver|]. intros Hi. eexists. split; [done|]. destruct (foldl_min_spec l x) as (H1 & H2 & _).
  rewrite Forall_forall in H2. apply elem_of_cons in Hi as [->|Hi]; [done|by apply H2].
Qed.
