(* ===== verification/OrdMap.v ===== *)
(** * Ordered maps

    [std::collections::BTreeMap] as the sorted list of its bindings, [std::cmp::Reverse],
    and the laws the components use: every operation keeps the bindings sorted, and
    lookups see the last insertion. *)

From S2P Require Export Prelude.

Record Reverse (T : Type) := mkReverse { unreverse : T }.
Arguments mkReverse {T} _.
Arguments unreverse {T} _.

Global Instance reverse_ord {T} `{Ord T} : Ord (Reverse T) := λ a b, cmp (unreverse b) (unreverse a).

Global Instance reverse_ord_laws {T} `{OrdLaws T} : OrdLaws (Reverse T).
Proof.
  split.
  - intros [a] [b]. unfold cmp, reverse_ord; cbn. rewrite cmp_eq. naive_solver.
  - intros [a] [b]. unfold cmp at 1 2, reverse_ord; cbn. apply cmp_opp.
  - intros [a] [b] [c]. unfold cmp at 1 2 3, reverse_ord; cbn. intros Hab Hbc. by eapply cmp_lt_trans.
Qed.

Notation BTreeMap K V := (list (K * V)) (only parsing).

Section btree.
  Context {K V : Type} `{OrdLaws K}.
  Implicit Types (m : BTreeMap K V) (k : K) (v : V).

Fixpoint bm_get k m : option V :=
  match m with
  | [] => None
  | (k', v) :: m => match cmp k k' with Eq => Some v | Lt => None | Gt => bm_get k m end
  end.

Fixpoint bm_insert k v m : BTreeMap K V :=
  match m with
  | [] => [(k, v)]
  | (k', v') :: m =>
      match cmp k k' with
      | Lt => (k, v) :: (k', v') :: m
      | Eq => (k, v) :: m
      | Gt => (k', v') :: bm_insert k v m
      end
  end.

Fixpoint bm_remove k m : BTreeMap K V :=
  match m with
  | [] => []
  | (k', v') :: m =>
      match cmp k k' with
      | Lt => (k', v') :: m
      | Eq => m
      | Gt => (k', v') :: bm_remove k m
      end
  end.

Definition bm_values m : list V := m.*2.

Definition bm_pop_first m : option (K * V) * BTreeMap K V :=
  match m with [] => (None, []) | b :: m => (Some b, m) end.

Definition bm_ok m : Prop := StronglySorted (λ a b, a.1 ≺ b.1) m.

Lemma bm_insert_elem k v m k' v' :
  (k', v') ∈ bm_insert k v m → (k', v') = (k, v) ∨ (k', v') ∈ m.
Proof.
  induction m as [|[k1 v1] m IH]; cbn; [set_solver|]. destruct (cmp k k1); set_solver.
Qed.

Lemma bm_remove_sublist k m : bm_remove k m `sublist_of` m.
Proof.
  induction m as [|[k1 v1] m IH]; cbn; [done|]. destruct (cmp k k1); [by apply sublist_cons|done|by apply sublist_skip].
Qed.

Lemma bm_insert_ok k v m : bm_ok m → bm_ok (bm_insert k v m).
Proof.
  unfold bm_ok. induction m as [|[k1 v1] m IH]; intros Hs; cbn; [by repeat constructor|].
  apply StronglySorted_inv in Hs as [Hs HF]. destruct (cmp k k1) eqn:Hc.
  - apply cmp_eq in Hc as ->. by constructor.
  - constructor; [by constructor|]. constructor; [exact Hc|].
    eapply Forall_impl; [exact HF|]. intros [k2 v2]; cbn. intros Hlt. by eapply ord_lt_trans.
  - constructor; [by apply IH|]. apply Forall_forall. intros [k2 v2] Hin. cbn.
    apply bm_insert_elem in Hin as [[= -> ->]|Hin].
    + unfold ord_lt. by rewrite cmp_opp, Hc.
    + rewrite Forall_forall in HF. by apply (HF _ Hin).
Qed.

Lemma bm_remove_ok k m : bm_ok m → bm_ok (bm_remove k m).
Proof. intros. eapply StronglySorted_sublist; [apply bm_remove_sublist|done]. Qed.

Lemma bm_get_insert k v m : bm_get k (bm_insert k v m) = Some v.
Proof.
  induction m as [|[k1 v1] m IH]; cbn; [by rewrite cmp_refl|].
  destruct (cmp k k1) eqn:Hc; cbn; rewrite ?cmp_refl, ?Hc; done.
Qed.

Lemma bm_get_insert_ne k k' v m : k ≠ k' → bm_get k' (bm_insert k v m) = bm_get k' m.
Proof.
  intros Hne. assert (cmp k' k ≠ Eq) as Hne' by (intros E; apply cmp_eq in E; congruence).
  induction m as [|[k1 v1] m IH]; cbn; [by destruct (cmp k' k)|].
  destruct (cmp k k1) eqn:Hc; cbn.
  - apply cmp_eq in Hc as <-. by destruct (cmp k' k) eqn:Hc'.
  - destruct (cmp k' k) eqn:Hc'; [done| |done].
    by rewrite (ord_lt_trans k' k k1 Hc' Hc).
  - by destruct (cmp k' k1).
Qed.

Lemma bm_get_lt k m : Forall (λ b, k ≺ b.1) m → bm_get k m = None.
Proof. destruct 1 as [|[k1 v1] m Hlt]; [done|]. cbn in *. by rewrite Hlt. Qed.

Lemma bm_get_remove k m : bm_ok m → bm_get k (bm_remove k m) = None.
Proof.
  unfold bm_ok. induction m as [|[k1 v1] m IH]; intros Hs; cbn; [done|].
  apply StronglySorted_inv in Hs as [Hs HF]. destruct (cmp k k1) eqn:Hc; cbn; rewrite ?Hc; [|done|by apply IH].
  apply cmp_eq in Hc as ->. by apply bm_get_lt.
Qed.

Lemma bm_get_remove_ne k k' m : bm_ok m → k ≠ k' → bm_get k' (bm_remove k m) = bm_get k' m.
Proof.
  intros Hok Hne. unfold bm_ok in *. induction m as [|[k1 v1] m IH]; cbn; [done|].
  apply StronglySorted_inv in Hok as [Hs HF]. destruct (cmp k k1) eqn:Hc; cbn; [|done|].
  - apply cmp_eq in Hc as <-. destruct (cmp k' k) eqn:Hc'; [apply cmp_eq in Hc'; congruence| |done].
    apply bm_get_lt. eapply Forall_impl; [exact HF|]. intros [k2 v2]; cbn. by apply ord_lt_trans.
  - destruct (cmp k' k1); [done..|]. by apply IH.
Qed.

Lemma bm_get_Some k v m : bm_ok m → bm_get k m = Some v ↔ (k, v) ∈ m.
Proof.
  unfold bm_ok. induction m as [|[k1 v1] m IH]; intros Hs; cbn; [set_solver|].
  apply StronglySorted_inv in Hs as [Hs HF]. rewrite elem_of_cons. rewrite Forall_forall in HF.
  destruct (cmp k k1) eqn:Hc.
  - apply cmp_eq in Hc as ->. split; [intros [= ->]; by left|].
    intros [[= ->]|Hin]; [done|]. apply HF in Hin. cbn in Hin. by apply ord_lt_irrefl in Hin.
  - split; [done|]. intros [[= -> ->]|Hin]; [by rewrite cmp_refl in Hc|].
    apply HF in Hin. cbn in Hin. exfalso. apply (ord_lt_irrefl k). by eapply ord_lt_trans.
  - rewrite IH by done. split; [by right|]. intros [[= -> ->]|?]; [by rewrite cmp_refl in Hc|done].
Qed.

(** Inserting above every key appends. *)
Lemma bm_insert_last k v m : Forall (λ b, b.1 ≺ k) m → bm_insert k v m = m ++ [(k, v)].
Proof.
  induction 1 as [|[k1 v1] m Hlt HF IH]; [done|]. cbn in *.
  rewrite (cmp_opp k1 k), Hlt. cbn. by rewrite IH.
Qed.

(** Where an insertion and a removal take place. *)
Lemma bm_insert_split k v m :
  bm_ok m →
  ∃ a b, (m = a ++ b ∨ ∃ v', m = a ++ (k, v') :: b) ∧ bm_insert k v m = a ++ (k, v) :: b ∧
    Forall (λ x, x.1 ≺ k) a ∧ Forall (λ x, k ≺ x.1) b.
Proof.
  unfold bm_ok. induction m as [|[k1 v1] m IH]; intros Hs; cbn.
  { exists [], []. split_and!; [by left|done..]. }
  apply StronglySorted_inv in Hs as [Hs HF]. destruct (cmp k k1) eqn:Hc.
  - apply cmp_eq in Hc as <-. exists [], m. split_and!; [right; by exists v1|done..].
  - exists [], ((k1, v1) :: m). split_and!; [by left|done|done|]. constructor; [done|].
    eapply Forall_impl; [exact HF|]. intros [k2 v2]; cbn. by apply ord_lt_trans.
  - destruct (IH Hs) as (a & b & Hm & -> & Ha & Hb). exists ((k1, v1) :: a), b.
    split_and!; [|done| |done].
    + destruct Hm as [->|[v' ->]]; [by left|right; by exists v'].
    + constructor; [|done]. cbn. unfold ord_lt. by rewrite cmp_opp, Hc.
Qed.

Lemma bm_remove_split k v a b :
  Forall (λ x, x.1 ≺ k) a → bm_remove k (a ++ (k, v) :: b) = a ++ b.
Proof.
  induction 1 as [|[k1 v1] a Hlt Ha IH]; cbn in *; [by rewrite cmp_refl|].
  rewrite (cmp_opp k1 k), Hlt. cbn. by rewrite IH.
Qed.
End btree.

(** ** Ordered sets: [std::collections::BTreeSet] as its sorted elements *)

Notation BTreeSet K := (list K) (only parsing).

Section btree_set.
  Context {K : Type} `{OrdLaws K}.
  Implicit Types (s : BTreeSet K) (k : K).

Fixpoint bs_insert k s : BTreeSet K :=
  match s with
  | [] => [k]
  | k' :: s' => match cmp k k' with Lt => k :: s | Eq => k :: s' | Gt => k' :: bs_insert k s' end
  end.

Definition bs_extend s (ks : list K) : BTreeSet K := foldl (λ s k, bs_insert k s) s ks.

Definition bs_ok s : Prop := StronglySorted ord_lt s.

(** [range(..=k).next_back()] and [range((Excluded(k), Unbounded)).next()] *)
Definition bs_floor k s : option K := last (filter (λ x, x ≼ k) s).
Definition bs_above k s : option K := head (filter (λ x, k ≺ x) s).

Lemma bs_elem_insert k s x : x ∈ bs_insert k s ↔ x = k ∨ x ∈ s.
Proof.
  induction s as [|k' s IH]; cbn; [set_solver|]. destruct (cmp k k') eqn:Hc.
  - apply cmp_eq in Hc as ->. set_solver.
  - set_solver.
  - rewrite !elem_of_cons, IH. tauto.
Qed.

Lemma bs_insert_ok k s : bs_ok s → bs_ok (bs_insert k s).
Proof.
  unfold bs_ok. induction s as [|k' s IH]; intros Hs; cbn; [by repeat constructor|].
  apply StronglySorted_inv in Hs as [Hs HF]. destruct (cmp k k') eqn:Hc.
  - apply cmp_eq in Hc as ->. by constructor.
  - constructor; [by constructor|]. constructor; [exact Hc|].
    eapply Forall_impl; [exact HF|]. intros x Hx. by eapply ord_lt_trans.
  - constructor; [by apply IH|]. apply Forall_forall. intros x [->|Hx]%bs_elem_insert.
    + unfold ord_lt. by rewrite cmp_opp, Hc.
    + rewrite Forall_forall in HF. by apply HF.
Qed.

Lemma bs_elem_extend ks s x : x ∈ bs_extend s ks ↔ x ∈ s ∨ x ∈ ks.
Proof.
  unfold bs_extend. revert s. induction ks as [|k ks IH]; intros s; cbn; [set_solver|].
  rewrite IH, bs_elem_insert, elem_of_cons. tauto.
Qed.

Lemma bs_extend_ok ks s : bs_ok s → bs_ok (bs_extend s ks).
Proof.
  unfold bs_extend. revert s. induction ks as [|k ks IH]; intros s Hs; cbn; [done|].
  by apply IH, bs_insert_ok.
Qed.

Lemma sorted_last_greatest s x y : bs_ok s → last s = Some x → y ∈ s → y ≼ x.
Proof.
  unfold bs_ok. induction s as [|a s IH]; [done|]. intros Hs Hl. apply StronglySorted_inv in Hs as [Hs HF].
  destruct s as [|b s]; cbn in Hl.
  - simplify_eq. intros ->%list_elem_of_singleton. apply ord_le_refl.
  - intros [->|Hy]%elem_of_cons; [|by apply IH].
    rewrite Forall_forall in HF. apply ord_lt_le, HF. apply last_Some in Hl as [l' Hl]. rewrite Hl. set_solver.
Qed.

Lemma bs_floor_spec k s :
  bs_ok s →
  match bs_floor k s with
  | Some x => x ∈ s ∧ x ≼ k ∧ ∀ y, y ∈ s → y ≼ k → y ≼ x
  | None => ∀ y, y ∈ s → k ≺ y
  end.
Proof.
  intros Hs. unfold bs_floor. destruct (last (filter (λ x, x ≼ k) s)) as [x|] eqn:Hl.
  - assert (x ∈ filter (λ x, x ≼ k) s) as Hx by (apply last_Some in Hl as [l' ->]; set_solver).
    apply list_elem_of_filter in Hx as [Hle Hx]. split; [done|]. split; [done|]. intros y Hy Hyk.
    eapply (sorted_last_greatest (filter (λ x, x ≼ k) s)); [|done|by apply list_elem_of_filter].
    eapply StronglySorted_sublist; [apply sublist_filter|done].
  - apply last_None in Hl. intros y Hy. apply ord_not_le. intros Hle.
    assert (y ∈ filter (λ x, x ≼ k) s) as Hin by by apply list_elem_of_filter. rewrite Hl in Hin. set_solver.
Qed.

Lemma bs_above_spec k s :
  bs_ok s →
  match bs_above k s with
  | Some x => x ∈ s ∧ k ≺ x ∧ ∀ y, y ∈ s → k ≺ y → x ≼ y
  | None => ∀ y, y ∈ s → y ≼ k
  end.
Proof.
  intros Hs. unfold bs_above. destruct (filter (λ x, k ≺ x) s) as [|x l] eqn:Hf; cbn.
  - intros y Hy. apply ord_not_lt. intros Hlt.
    assert (y ∈ filter (λ x, k ≺ x) s) as Hin by by apply list_elem_of_filter. rewrite Hf in Hin. set_solver.
  - assert (x ∈ filter (λ x, k ≺ x) s) as Hx by (rewrite Hf; by left).
    apply list_elem_of_filter in Hx as [Hlt Hx]. split; [done|]. split; [done|]. intros y Hy Hky.
    assert (y ∈ x :: l) as Hin by (rewrite <-Hf; by apply list_elem_of_filter).
    assert (StronglySorted ord_lt (x :: l)) as Hsl.
    { rewrite <-Hf. eapply StronglySorted_sublist; [apply sublist_filter|done]. }
    apply StronglySorted_inv in Hsl as [_ HF]. apply elem_of_cons in Hin as [->|Hin]; [apply ord_le_refl|].
    rewrite Forall_forall in HF. by apply ord_lt_le, HF.
Qed.
End btree_set.

(** ** [slice::binary_search_by] *)

Section binary_search_by.
  Context {A : Type} (f : A → comparison).
  Implicit Types l : list A.

Fixpoint search_loop (fuel : nat) l (base size : nat) : nat :=
  match fuel with
  | O => base
  | S fuel =>
      if decide (1 < size) then
        let half := size / 2 in
        let mid := base + half in
        let base := match l !! mid with
                    | Some m => match f m with Gt => base | _ => mid end
                    | None => base
                    end in
        search_loop fuel l base (size - half)
      else base
  end.

(** [inl i]: [Ok(i)]; [inr i]: [Err(i)]. *)
Definition binary_search_by l : nat + nat :=
  let base := search_loop (length l) l 0 (length l) in
  match l !! base with
  | None => inr 0
  | Some m => match f m with Eq => inl base | Lt => inr (S base) | Gt => inr base end
  end.

(** The elements compare as less, then as equal, then as greater. *)
Definition partitioned l : Prop :=
  ∀ i j x y, i < j → l !! i = Some x → l !! j = Some y → (f x = Gt → f y = Gt) ∧ (f y = Lt → f x = Lt).

Lemma search_loop_spec fuel l base size :
  partitioned l → size ≤ S fuel → 1 ≤ size → base + size ≤ length l →
  (base = 0 ∨ ∃ m, l !! base = Some m ∧ f m ≠ Gt) →
  (∀ j y, base + size ≤ j → l !! j = Some y → f y = Gt) →
  let b := search_loop fuel l base size in
  b < length l ∧ (b = 0 ∨ ∃ m, l !! b = Some m ∧ f m ≠ Gt) ∧ ∀ j y, b < j → l !! j = Some y → f y = Gt.
Proof.
  intros Hp. revert base size. induction fuel as [|fuel IH]; intros base size Hf Hs Hb Hlow Hhigh.
  - replace size with 1 in * by lia. cbn. split; [lia|]. split; [done|]. intros j y Hj. apply Hhigh. lia.
  - cbn [search_loop]. destruct (decide (1 < size)) as [H1|H1].
    + assert (0 < size / 2 < size) as Hhalf by (split; [apply Nat.div_str_pos|apply Nat.div_lt]; lia).
      destruct (lookup_lt_is_Some_2 l (base + size / 2)) as [m Hm]; [lia|]. rewrite Hm.
      assert (f m ≠ Gt → let b := search_loop fuel l (base + size / 2) (size - size / 2) in
        b < length l ∧ (b = 0 ∨ ∃ m, l !! b = Some m ∧ f m ≠ Gt) ∧ ∀ j y, b < j → l !! j = Some y → f y = Gt) as Hmid.
      { intros Hne. apply IH; [lia..| |]; [right; by exists m|]. intros j y Hj. apply Hhigh. lia. }
      destruct (f m) eqn:Hfm; [by apply Hmid|by apply Hmid|]. apply IH; [lia..|done|]. intros j y Hj Hy.
      assert (2 * (size / 2) ≤ size) by apply Nat.Div0.mul_div_le.
      destruct (decide (j = base + size / 2)) as [->|]; [congruence|].
      by apply (Hp (base + size / 2) j m y ltac:(lia) Hm Hy).
    + replace size with 1 in * by lia. split; [lia|]. split; [done|]. intros j y Hj. apply Hhigh. lia.
Qed.

Lemma binary_search_by_spec l :
  partitioned l →
  match binary_search_by l with
  | inl i => ∃ x, l !! i = Some x ∧ f x = Eq
  | inr i => i ≤ length l ∧ (∀ j y, j < i → l !! j = Some y → f y = Lt) ∧
             (∀ j y, i ≤ j → l !! j = Some y → f y = Gt)
  end.
Proof.
  intros Hp. unfold binary_search_by. destruct (decide (l = [])) as [->|Hne].
  { cbn. split; [lia|]. split; [lia|]. intros j y _ Hy. by destruct j. }
  assert (1 ≤ length l) by (destruct l; cbn; [done|lia]).
  destruct (search_loop_spec (length l) l 0 (length l) Hp) as (Hb & Hlow & Hhigh);
    [lia..|by left|intros j y Hj Hy; apply lookup_lt_Some in Hy; lia|].
  set (b := search_loop _ _ _ _) in *. destruct (lookup_lt_is_Some_2 l b Hb) as [m Hm]. rewrite Hm.
  destruct (f m) eqn:Hfm.
  - by exists m.
  - split; [lia|]. split; [|intros j y Hj; apply Hhigh; lia].
    intros j y Hj Hy. destruct (decide (j = b)) as [->|]; [congruence|].
    by apply (Hp j b y m ltac:(lia) Hy Hm).
  - assert (b = 0) as -> by (destruct Hlow as [|(? & ? & ?)]; [done|congruence]).
    split; [lia|]. split; [lia|]. intros j y Hj Hy. destruct (decide (j = 0)) as [->|]; [congruence|].
    apply (Hhigh j y); [lia|done].
Qed.
End binary_search_by.

Lemma sorted_partitioned {K} `{OrdLaws K} (l : list K) k : bs_ok l → partitioned (λ x, cmp x k) l.
Proof.
  intros Hs i j x y Hij Hx Hy. assert (x ≺ y) as Hxy.
  { revert i j Hij Hx Hy. induction Hs as [|a l Hs IH HF]; intros [|i] [|j] Hij Hx Hy; cbn in *; try done; try lia.
    - simplify_eq. rewrite Forall_forall in HF. apply HF. by eapply list_elem_of_lookup_2.
    - apply (IH i j); [lia|done..]. }
  split; intros Hc.
  - destruct (cmp y k) eqn:Hy'; [|exfalso|done].
    + apply cmp_eq in Hy' as ->. unfold ord_lt in Hxy. congruence.
    + pose proof (ord_lt_trans _ _ _ Hxy Hy') as Ht. unfold ord_lt in Ht. congruence.
  - by eapply ord_lt_trans.
Qed.
