(* ===== verification/KeyRange.v ===== *)
(** * Key ranges ([comparable_range.rs], [bytes_range.rs])

    [ComparableRange] is generic in the ordered type of its endpoints, as in the
    source; [BytesRange] is the instance at byte strings, the type of every scan,
    of every transaction's read set and of every SST's visible range. *)

From S2P Require Export Prelude.

(** ** Bounds *)

Inductive Bound (T : Type) :=
| Included (x : T)
| Excluded (x : T)
| Unbounded.
Arguments Included {T} x.
Arguments Excluded {T} x.
Arguments Unbounded {T}.

Global Instance Bound_eq_dec {T} `{EqDecision T} : EqDecision (Bound T).
Proof. solve_decision. Defined.

(** [Bound::map] *)
Definition bound_map {A B} (f : A → B) (b : Bound A) : Bound B :=
  match b with
  | Included x => Included (f x)
  | Excluded x => Excluded (f x)
  | Unbounded => Unbounded
  end.

Section ranges.
  Context {T : Type} `{OrdLaws T}.
  Implicit Types x y k : T.

(** [cmp_bound] *)
Definition cmp_bound (a b : Bound T) (start : bool) : comparison :=
  match a, b with
  | Included a, Included b | Excluded a, Excluded b => cmp a b
  | Included a, Excluded b =>
      match cmp a b with Eq => if start then Lt else Gt | other => other end
  | Excluded a, Included b =>
      match cmp a b with Eq => if start then Gt else Lt | other => other end
  | Unbounded, Unbounded => Eq
  | Unbounded, _ => if start then Lt else Gt
  | _, Unbounded => if start then Gt else Lt
  end.

Lemma cmp_bound_eq a b start : cmp_bound a b start = Eq ↔ a = b.
Proof.
  destruct a as [a|a|], b as [b|b|]; simpl; try (destruct start; done);
    try (rewrite cmp_eq; naive_solver);
    destruct (cmp a b) eqn:E; destruct start; naive_solver.
Qed.

Lemma cmp_bound_opp a b start : cmp_bound b a start = CompOpp (cmp_bound a b start).
Proof.
  destruct a as [a|a|], b as [b|b|]; simpl; try (destruct start; done);
    rewrite (cmp_opp a b); try done; destruct (cmp a b), start; done.
Qed.

Lemma cmp_bound_trans a b c start :
  cmp_bound a b start = Lt → cmp_bound b c start = Lt → cmp_bound a c start = Lt.
Proof.
  destruct a as [a|a|], b as [b|b|], c as [c|c|]; simpl; try (destruct start; done);
    repeat match goal with |- context [cmp ?x ?y] => destruct (cmp x y) eqn:? end;
    destruct start; try done; intros _ _; exfalso; ord.
Qed.
End ranges.

(** [StartBound] and [EndBound]: wrappers that differ only in their order. *)
Record StartBound (T : Type) := mkStart { start_inner : Bound T }.
Record EndBound (T : Type) := mkEnd { end_inner : Bound T }.
Arguments mkStart {T} _.
Arguments mkEnd {T} _.
Arguments start_inner {T} _.
Arguments end_inner {T} _.

Global Instance StartBound_ord {T} `{Ord T} : Ord (StartBound T) :=
  λ a b, cmp_bound (start_inner a) (start_inner b) true.
Global Instance EndBound_ord {T} `{Ord T} : Ord (EndBound T) :=
  λ a b, cmp_bound (end_inner a) (end_inner b) false.

Global Instance StartBound_ord_laws {T} `{OrdLaws T} : OrdLaws (StartBound T).
Proof.
  split; unfold cmp, StartBound_ord.
  - intros [a] [b]. rewrite cmp_bound_eq. naive_solver.
  - intros. apply cmp_bound_opp.
  - intros a b c. apply cmp_bound_trans.
Qed.

Global Instance EndBound_ord_laws {T} `{OrdLaws T} : OrdLaws (EndBound T).
Proof.
  split; unfold cmp, EndBound_ord.
  - intros [a] [b]. rewrite cmp_bound_eq. naive_solver.
  - intros. apply cmp_bound_opp.
  - intros a b c. apply cmp_bound_trans.
Qed.

Record ComparableRange (T : Type) := mkRange {
  range_start : StartBound T;
  range_end : EndBound T;
}.
Arguments mkRange {T} _ _.
Arguments range_start {T} _.
Arguments range_end {T} _.

(** The derived [Ord]: fields in order. *)
Global Instance ComparableRange_ord {T} `{Ord T} : Ord (ComparableRange T) := λ a b,
  match cmp (range_start a) (range_start b) with
  | Eq => cmp (range_end a) (range_end b)
  | c => c
  end.

Section comparable_range.
  Context {T : Type} `{OrdLaws T}.
  Implicit Types (x y k : T) (r : ComparableRange T).

(** [ComparableRange::new] *)
Definition range_new (s e : Bound T) : ComparableRange T := mkRange (mkStart s) (mkEnd e).

(** [ComparableRange::non_empty] *)
Definition range_non_empty (r : ComparableRange T) : bool :=
  match start_inner (range_start r), end_inner (range_end r) with
  | Included a, Included b => ord_leb a b
  | Included a, Excluded b => ord_ltb a b
  | Excluded a, Excluded b => ord_ltb a b
  | Excluded a, Included b => ord_ltb a b
  | Unbounded, _ => true
  | _, Unbounded => true
  end.

(** [ComparableRange::intersect] *)
Definition range_intersect (self other : ComparableRange T) : option (ComparableRange T) :=
  let max_start := ord_max (range_start self) (range_start other) in
  let min_end := ord_min (range_end self) (range_end other) in
  let intersection := mkRange max_start min_end in
  if range_non_empty intersection then Some intersection else None.

(** [ComparableRange::are_adjacent] *)
Definition are_adjacent (self other : ComparableRange T) : bool :=
  match end_inner (range_end self), start_inner (range_start other) with
  | Included a, Excluded b => ord_eqb a b
  | Excluded a, Included b => ord_eqb a b
  | _, _ => false
  end.

(** [ComparableRange::union] *)
Definition range_union (self other : ComparableRange T) : option (ComparableRange T) :=
  let '(first, second) := if ord_ltb self other then (self, other) else (other, self) in
  if match range_intersect first second with None => true | Some _ => false end
     && negb (are_adjacent first second)
  then None
  else Some (mkRange (ord_min (range_start first) (range_start other))
                     (ord_max (range_end first) (range_end second))).

(** [RangeBounds::contains] of the standard library. *)
Definition start_admits (s : StartBound T) k : bool :=
  match start_inner s with
  | Included a => ord_leb a k
  | Excluded a => ord_ltb a k
  | Unbounded => true
  end.
Definition end_admits (e : EndBound T) k : bool :=
  match end_inner e with
  | Included b => ord_leb k b
  | Excluded b => ord_ltb k b
  | Unbounded => true
  end.
Definition range_contains r k : bool :=
  start_admits (range_start r) k && end_admits (range_end r) k.

(** ** What bounds admit *)

Lemma start_admits_mono (s s' : StartBound T) k :
  s ≼ s' → start_admits s' k = true → start_admits s k = true.
Proof.
  rewrite ord_le_alt. intros [Hlt | ->]; [|done].
  destruct s as [[a|a|]], s' as [[b|b|]]; unfold ord_lt, cmp, StartBound_ord, start_admits in *;
    simpl in *; try done; intros; destruct (cmp a b) eqn:?; try discriminate; ord.
Qed.

Lemma end_admits_mono (e e' : EndBound T) k :
  e ≼ e' → end_admits e k = true → end_admits e' k = true.
Proof.
  rewrite ord_le_alt. intros [Hlt | ->]; [|done].
  destruct e as [[a|a|]], e' as [[b|b|]]; unfold ord_lt, cmp, EndBound_ord, end_admits in *;
    simpl in *; try done; intros; destruct (cmp a b) eqn:?; try discriminate; ord.
Qed.

Lemma start_admits_max (s s' : StartBound T) k :
  start_admits (ord_max s s') k = start_admits s k && start_admits s' k.
Proof.
  unfold ord_max. destruct (ord_ltb s' s) eqn:E; ord_norm; [apply ord_lt_le in E|];
    pose proof (start_admits_mono _ _ k E); destruct (start_admits s k), (start_admits s' k); naive_solver.
Qed.

Lemma end_admits_min (e e' : EndBound T) k :
  end_admits (ord_min e e') k = end_admits e k && end_admits e' k.
Proof.
  unfold ord_min. destruct (ord_ltb e' e) eqn:E; ord_norm; [apply ord_lt_le in E|];
    pose proof (end_admits_mono _ _ k E); destruct (end_admits e k), (end_admits e' k); naive_solver.
Qed.

Lemma start_admits_min (s s' : StartBound T) k :
  start_admits (ord_min s s') k = start_admits s k || start_admits s' k.
Proof.
  unfold ord_min. destruct (ord_ltb s' s) eqn:E; ord_norm; [apply ord_lt_le in E|];
    pose proof (start_admits_mono _ _ k E); destruct (start_admits s k), (start_admits s' k); naive_solver.
Qed.

Lemma end_admits_max (e e' : EndBound T) k :
  end_admits (ord_max e e') k = end_admits e k || end_admits e' k.
Proof.
  unfold ord_max. destruct (ord_ltb e' e) eqn:E; ord_norm; [apply ord_lt_le in E|];
    pose proof (end_admits_mono _ _ k E); destruct (end_admits e k), (end_admits e' k); naive_solver.
Qed.

Lemma contains_non_empty r k : range_contains r k = true → range_non_empty r = true.
Proof.
  destruct r as [[[a|a|]] [[b|b|]]]; unfold range_contains, range_non_empty, start_admits,
    end_admits; simpl; try done; rewrite andb_true_iff; intros [? ?]; ord.
Qed.

(** ** Intersection and union *)

(** A key lies in both ranges exactly when [intersect] returns a range that has it. *)
Lemma intersect_contains r1 r2 k :
  range_contains r1 k && range_contains r2 k =
  match range_intersect r1 r2 with Some r => range_contains r k | None => false end.
Proof.
  unfold range_intersect.
  set (r := mkRange _ _).
  assert (range_contains r k = range_contains r1 k && range_contains r2 k) as Hr.
  { unfold range_contains, r; simpl. rewrite start_admits_max, end_admits_min.
    destruct (start_admits (range_start r1) k), (start_admits (range_start r2) k),
      (end_admits (range_end r1) k), (end_admits (range_end r2) k); done. }
  rewrite <- Hr. destruct (range_non_empty r) eqn:E; [done|].
  destruct (range_contains r k) eqn:Hc; [|done].
  apply contains_non_empty in Hc. congruence.
Qed.

Lemma ord_pick r1 r2 :
  let '(first, second) := if ord_ltb r1 r2 then (r1, r2) else (r2, r1) in
  range_start first ≼ range_start second.
Proof.
  destruct r1 as [s1 e1], r2 as [s2 e2].
  destruct (ord_ltb _ _) eqn:E; simpl; unfold ord_ltb, cmp, ComparableRange_ord in E; simpl in E;
    destruct (cmp s1 s2) eqn:?; try discriminate; ord.
Qed.

(** Two ranges without a gap between them: what lies beyond the end of the
    first and within the end of the second is admitted by the second. *)
Lemma no_gap first second k :
  range_start first ≼ range_start second →
  (is_Some (range_intersect first second) ∨ are_adjacent first second = true) →
  end_admits (range_end first) k = false → end_admits (range_end second) k = true →
  start_admits (range_start second) k = true.
Proof.
  intros Hle [[r Hr]|Hadj] H1 H2.
  - unfold range_intersect in Hr. case_match eqn:Hne; [|done].
    unfold ord_max, ord_min in Hne.
    destruct (ord_ltb (range_start second) (range_start first)) eqn:Es; [ord|].
    destruct (ord_ltb (range_end second) (range_end first)) eqn:Ee; ord_norm.
    { pose proof (end_admits_mono _ _ k (ord_lt_le _ _ Ee) H2). congruence. }
    destruct first as [sf [[a|a|]]], second as [[[b|b|]] se];
      unfold range_non_empty, end_admits, start_admits in *; simpl in *; try done; ord.
  - destruct first as [sf [[a|a|]]], second as [[[b|b|]] se];
      unfold are_adjacent, end_admits, start_admits in *; simpl in *; try done; ord.
Qed.

Lemma union_bounds r1 r2 r :
  range_union r1 r2 = Some r →
  ∃ first second, ((first, second) = (r1, r2) ∨ (first, second) = (r2, r1))
    ∧ range_start first ≼ range_start second
    ∧ (is_Some (range_intersect first second) ∨ are_adjacent first second = true)
    ∧ r = mkRange (range_start first) (ord_max (range_end first) (range_end second)).
Proof.
  unfold range_union. pose proof (ord_pick r1 r2) as Hle.
  destruct (ord_ltb r1 r2) eqn:E; simpl in *.
  - case_match eqn:Hc; [done|]. intros [= <-]. exists r1, r2.
    repeat split; auto.
    + destruct (range_intersect r1 r2); [by left|]. right. by destruct (are_adjacent r1 r2).
    + f_equal. unfold ord_min. destruct (ord_ltb (range_start r2) (range_start r1)) eqn:Es; [|done]. ord.
  - case_match eqn:Hc; [done|]. intros [= <-]. exists r2, r1.
    repeat split; auto.
    + destruct (range_intersect r2 r1); [by left|]. right. by destruct (are_adjacent r2 r1).
    + unfold ord_min. by destruct (ord_ltb (range_start r2) (range_start r2)).
Qed.

(** The union, when there is one, has exactly the keys of the two ranges. *)
Lemma union_contains r1 r2 r k :
  range_union r1 r2 = Some r →
  range_contains r k = range_contains r1 k || range_contains r2 k.
Proof.
  intros (f & s & Hfs & Hle & Hgap & ->)%union_bounds.
  assert (range_contains r1 k || range_contains r2 k = range_contains f k || range_contains s k) as ->.
  { destruct Hfs as [[= -> ->]|[= -> ->]]; [done|]. apply orb_comm. }
  unfold range_contains; simpl. rewrite end_admits_max.
  pose proof (start_admits_mono _ _ k Hle) as Hs. pose proof (no_gap f s k Hle Hgap) as Hg.
  destruct (start_admits (range_start f) k), (start_admits (range_start s) k),
    (end_admits (range_end f) k), (end_admits (range_end s) k); naive_solver.
Qed.

Lemma range_ltb_asym r1 r2 : ord_ltb r1 r2 = true → ord_ltb r2 r1 = false.
Proof.
  destruct r1 as [s1 e1], r2 as [s2 e2]. unfold ord_ltb, cmp, ComparableRange_ord; simpl.
  rewrite (cmp_opp s1 s2), (cmp_opp e1 e2). by destruct (cmp s1 s2), (cmp e1 e2).
Qed.

Lemma range_ltb_total r1 r2 :
  ord_ltb r1 r2 = false → ord_ltb r2 r1 = false → r1 = r2.
Proof.
  destruct r1 as [s1 e1], r2 as [s2 e2]. unfold ord_ltb, cmp, ComparableRange_ord; simpl.
  rewrite (cmp_opp s1 s2), (cmp_opp e1 e2).
  destruct (cmp s1 s2) eqn:Es, (cmp e1 e2) eqn:Ee; simpl; try discriminate; ord_norm; done.
Qed.

(** Sorting the ranges first makes [union] commutative. *)
Lemma union_sym r1 r2 : range_union r1 r2 = range_union r2 r1.
Proof.
  unfold range_union. pose proof (ord_pick r1 r2) as H12. pose proof (ord_pick r2 r1) as H21.
  assert (∀ s : StartBound T, ord_min s s = s) as Hid.
  { intros s. unfold ord_min. by destruct (ord_ltb s s). }
  destruct (ord_ltb r1 r2) eqn:E1, (ord_ltb r2 r1) eqn:E2; simpl in *.
  - apply range_ltb_asym in E1. congruence.
  - case_match; [done|]. rewrite Hid. unfold ord_min.
    destruct (ord_ltb (range_start r2) (range_start r1)) eqn:?; [|done]. exfalso; ord.
  - case_match; [done|]. rewrite Hid. unfold ord_min.
    destruct (ord_ltb (range_start r1) (range_start r2)) eqn:?; [|done]. exfalso; ord.
  - by rewrite (range_ltb_total r1 r2).
Qed.

End comparable_range.

(** ** Byte strings in lexicographic order *)

Section lexicographic.
  Implicit Types p q k : bytes.

Lemma cmp_app_l p k1 k2 : cmp (p ++ k1) (p ++ k2) = cmp k1 k2.
Proof.
  induction p as [|x p IH]; [done|]. unfold cmp, list_ord in *; simpl. by rewrite cmp_refl.
Qed.

Lemma ord_leb_app p k1 k2 : ord_leb (p ++ k1) (p ++ k2) = ord_leb k1 k2.
Proof. unfold ord_leb. by rewrite cmp_app_l. Qed.

Lemma ord_ltb_app p k1 k2 : ord_ltb (p ++ k1) (p ++ k2) = ord_ltb k1 k2.
Proof. unfold ord_ltb. by rewrite cmp_app_l. Qed.

Lemma nil_le k : [] ≼ k.
Proof. by destruct k. Qed.

Lemma not_lt_nil k : ¬ k ≺ [].
Proof. by destruct k. Qed.

Lemma prefix_le p k : p ≼ p ++ k.
Proof.
  unfold ord_le. rewrite <- (app_nil_r p) at 1. rewrite cmp_app_l. apply nil_le.
Qed.

Lemma cons_le x y p k : x :: p ≼ y :: k ↔ (x < y)%Z ∨ (x = y ∧ p ≼ k).
Proof.
  unfold ord_le, cmp at 1, list_ord; simpl. unfold cmp at 1, Z_ord.
  destruct (Z.compare_spec x y); simpl; unfold cmp; naive_solver lia.
Qed.

Lemma cons_lt x y p k : x :: p ≺ y :: k ↔ (x < y)%Z ∨ (x = y ∧ p ≺ k).
Proof.
  unfold ord_lt, cmp at 1, list_ord; simpl. unfold cmp at 1, Z_ord.
  destruct (Z.compare_spec x y); simpl; unfold cmp; naive_solver lia.
Qed.

(** What lies between a string and one of its extensions extends it. *)
Lemma sandwich_app p e k : p ≼ k → k ≼ p ++ e → p `prefix_of` k.
Proof.
  revert k. induction p as [|x p IH]; intros k Hl Hr; [apply prefix_nil|].
  destruct k as [|y k]; [by destruct Hl|].
  apply cons_le in Hl. apply cons_le in Hr.
  destruct Hl as [?|[-> Hl]], Hr as [?|[? Hr]]; try lia.
  by apply prefix_cons, IH.
Qed.

(** What lies between [q ++ b :: m] and [q ++ [b + 1]] extends [q ++ [b]]. *)
Lemma sandwich_incr q b m k :
  q ++ b :: m ≼ k → k ≺ q ++ [(b + 1)%Z] → ∃ k', k = q ++ b :: k' ∧ m ≼ k'.
Proof.
  revert k. induction q as [|x q IH]; intros [|y k] Hl Hr; try (by destruct Hl); simpl in *.
  - apply cons_le in Hl. apply cons_lt in Hr.
    destruct Hr as [Hr|[_ Hr]]; [|by apply not_lt_nil in Hr].
    destruct Hl as [?|[-> Hl]]; [lia|]. eauto.
  - apply cons_le in Hl. apply cons_lt in Hr.
    destruct Hl as [?|[-> Hl]], Hr as [?|[? Hr]]; try lia.
    destruct (IH k Hl Hr) as (k' & -> & ?). eauto.
Qed.

Lemma replicate_max_le n k :
  is_bytes k → replicate n u8_max ≼ k → replicate n u8_max `prefix_of` k.
Proof.
  revert k. induction n as [|n IH]; intros k Hk Hle; [apply prefix_nil|].
  destruct k as [|y k]; [by destruct Hle|]. simpl in *. apply cons_le in Hle.
  apply Forall_cons in Hk as [Hy Hk]. unfold is_u8, u8_max in *.
  destruct Hle as [?|[<- Hle]]; [lia|]. by apply prefix_cons, IH.
Qed.
End lexicographic.

(** ** [BytesRange] *)

Module BytesRange.

Record t := mk { inner : ComparableRange bytes }.

(** [BytesRange::new] panics on a range its test calls empty. *)
Definition new {E} (s e : Bound bytes) : outcome E t :=
  let r := range_new s e in
  _ ← rust_assert (range_non_empty r);
  mret (mk r).

(** [BytesRange::try_new] *)
Definition try_new (s e : Bound bytes) : option t :=
  let r := range_new s e in
  if range_non_empty r then Some (mk r) else None.

(** [BytesRange::unbounded] *)
Definition unbounded {E} : outcome E t := new Unbounded Unbounded.

(** [BytesRange::new_empty] *)
Definition new_empty : t := mk (range_new (Excluded [0%Z]) (Excluded [0%Z])).

Fixpoint increment_loop (i : nat) (upper_bound : bytes) : option bytes :=
  match i with
  | O => None
  | S j =>
      match upper_bound !! j with
      | Some b =>
          if decide (b ≠ u8_max)
          then Some (take (S j) (<[j := (b + 1)%Z]> upper_bound))
          else increment_loop j upper_bound
      | None => None
      end
  end.

(** [BytesRange::increment_prefix]: scans from the last byte. *)
Definition increment_prefix (prefix : bytes) : option bytes :=
  increment_loop (length prefix) prefix.

Definition excluded_or_unbounded (o : option bytes) : Bound bytes :=
  match o with Some u => Excluded u | None => Unbounded end.

(** [BytesRange::from_prefix] *)
Definition from_prefix {E} (prefix : bytes) : outcome E t :=
  if decide (prefix = []) then new Unbounded Unbounded
  else new (Included prefix) (excluded_or_unbounded (increment_prefix prefix)).

(** [BytesRange::from_prefix_and_subrange]; the subrange is given by its bounds. *)
Definition from_prefix_and_subrange {E} (prefix : bytes) (sub_start sub_end : Bound bytes)
    : outcome E t :=
  let concat suffix := prefix ++ suffix in
  let s := match sub_start with
           | Included s => Included (concat s)
           | Excluded s => Excluded (concat s)
           | Unbounded => if decide (prefix = []) then Unbounded else Included prefix
           end in
  let e := match sub_end with
           | Included e => Included (concat e)
           | Excluded e => Excluded (concat e)
           | Unbounded => excluded_or_unbounded (increment_prefix prefix)
           end in
  new s e.

(** [BytesRange::intersect] *)
Definition intersect (self other : t) : option t :=
  mk <$> range_intersect (inner self) (inner other).

(** [BytesRange::is_start_bound_included_or_unbounded] *)
Definition is_start_bound_included_or_unbounded (self : t) : bool :=
  match start_inner (range_start (inner self)) with Excluded _ => false | _ => true end.

(** [BytesRange::non_empty] *)
Definition non_empty (self : t) : bool := range_non_empty (inner self).

(** [BytesRange::as_point] *)
Definition as_point (self : t) : option bytes :=
  match start_inner (range_start (inner self)), end_inner (range_end (inner self)) with
  | Included s, Included e => if decide (s = e) then Some s else None
  | _, _ => None
  end.

(** [RangeBounds::contains] through the [RangeBounds<Bytes>] instance. *)
Definition contains (self : t) (k : bytes) : bool := range_contains (inner self) k.

(** ** Prefix ranges *)

Lemma increment_loop_spec i p :
  i ≤ length p → drop i p = replicate (length p - i) u8_max →
  (∃ q b n, p = q ++ b :: replicate n u8_max ∧ b ≠ u8_max
     ∧ increment_loop i p = Some (q ++ [(b + 1)%Z]))
  ∨ (p = replicate (length p) u8_max ∧ increment_loop i p = None).
Proof.
  induction i as [|i IH]; intros Hi Hd; simpl.
  { right. rewrite drop_0, Nat.sub_0_r in Hd. auto. }
  destruct (lookup_lt_is_Some_2 p i) as [b Hb]; [lia|]. rewrite Hb.
  case_decide as Hne.
  - left. exists (take i p), b, (length p - S i). split_and!; [|done|].
    + rewrite <- Hd. symmetry. by apply take_drop_middle.
    + f_equal. rewrite insert_take_drop by (by eapply lookup_lt_Some).
      rewrite cons_middle, app_assoc. apply take_app_length'.
      rewrite length_app, length_take. simpl. lia.
  - apply IH; [lia|].
    rewrite (drop_S p b i Hb), Hd.
    replace (length p - i) with (S (length p - S i)) by lia. simpl. f_equal.
    destruct (decide (b = u8_max)); [done|]. by destruct Hne.
Qed.

Lemma increment_prefix_cases p :
  (∃ q b n, p = q ++ b :: replicate n u8_max ∧ b ≠ u8_max
     ∧ increment_prefix p = Some (q ++ [(b + 1)%Z]))
  ∨ (p = replicate (length p) u8_max ∧ increment_prefix p = None).
Proof.
  apply increment_loop_spec; [done|]. rewrite drop_all, Nat.sub_diag. done.
Qed.

(** Every extension of the prefix lies below the incremented prefix. *)
Lemma extension_lt_increment p u k : increment_prefix p = Some u → p ++ k ≺ u.
Proof.
  destruct (increment_prefix_cases p) as [(q & b & n & -> & _ & ->)|[_ ->]]; [|done].
  intros [= <-]. rewrite <- app_assoc. unfold ord_lt. rewrite cmp_app_l.
  simpl. apply cons_lt. lia.
Qed.

(** Between the prefix and the incremented prefix there is nothing else. *)
Lemma between_is_extension p k :
  is_bytes k → p ≼ k →
  match increment_prefix p with Some u => k ≺ u | None => True end →
  p `prefix_of` k.
Proof.
  intros Hk Hle. destruct (increment_prefix_cases p) as [(q & b & n & -> & _ & ->)|[Hp ->]].
  - intros Hlt. destruct (sandwich_incr _ _ _ _ Hle Hlt) as (k' & -> & Hk').
    apply Forall_app in Hk as [_ [_ Hk]%Forall_cons].
    destruct (replicate_max_le n k' Hk Hk') as [r ->]. exists r. by rewrite <- app_assoc.
  - intros _. generalize dependent (length p). intros n ->. by apply replicate_max_le.
Qed.

Lemma new_Ok {E} s e r : @new E s e = Ok r → range_non_empty (range_new s e) = true ∧ inner r = range_new s e.
Proof. unfold new. intros. inv_bind. done. Qed.

Lemma from_prefix_contains {E} p r k :
  is_bytes k → @from_prefix E p = Ok r → contains r k = true ↔ p `prefix_of` k.
Proof.
  intros Hk. unfold from_prefix. case_decide as Hp.
  { subst. intros [_ Hr]%new_Ok. unfold contains. rewrite Hr. split; [|done]. intros. apply prefix_nil. }
  intros [_ Hr]%new_Ok. unfold contains. rewrite Hr.
  unfold range_contains, start_admits, end_admits; simpl. rewrite andb_true_iff, ord_leb_true.
  split.
  - intros [Hle He]. apply between_is_extension; [done..|].
    destruct (increment_prefix p); simpl in *; [by apply ord_ltb_true|done].
  - intros [k' ->]. split; [apply prefix_le|].
    destruct (increment_prefix p) as [u|] eqn:Hu; simpl; [|done].
    apply ord_ltb_true. by apply extension_lt_increment.
Qed.

Lemma from_prefix_total {E} p : ∃ r, @from_prefix E p = Ok r.
Proof.
  unfold from_prefix, new. case_decide; [by eexists|].
  unfold range_non_empty; simpl. destruct (increment_prefix p) as [u|] eqn:Hu; simpl; [|by eexists].
  pose proof (extension_lt_increment p u [] Hu) as Hlt. rewrite app_nil_r in Hlt.
  apply ord_ltb_true in Hlt. rewrite Hlt. by eexists.
Qed.

(** A start bound of the subrange, moved under the prefix, still lies above it. *)
Lemma prefixed_start_le p s k :
  start_admits (mkStart (match s with
    | Included s => Included (p ++ s)
    | Excluded s => Excluded (p ++ s)
    | Unbounded => if decide (p = []) then Unbounded else Included p
    end)) k = true → p ≼ k.
Proof.
  unfold start_admits; simpl. destruct s as [s|s|]; intros Hs; ord_norm.
  - eapply ord_le_trans; [apply prefix_le|done].
  - eapply ord_le_trans; [apply prefix_le|by apply ord_lt_le].
  - case_decide as Hp; simpl in Hs; [|by apply ord_leb_true]. subst. apply nil_le.
Qed.

Lemma subrange_contains {E} p s e r k :
  is_bytes k → @from_prefix_and_subrange E p s e = Ok r →
  contains r k = true ↔ ∃ k', k = p ++ k' ∧ range_contains (range_new s e) k' = true.
Proof.
  intros Hk [_ Hr]%new_Ok. unfold contains. rewrite Hr. clear Hr.
  unfold range_contains; cbn [range_start range_end range_new]. rewrite andb_true_iff. split.
  - intros [Hs He].
    assert (p `prefix_of` k) as [k' ->].
    { pose proof (prefixed_start_le _ _ _ Hs) as Hle. unfold end_admits in He; simpl in He.
      destruct e as [e|e|]; ord_norm.
      - by eapply sandwich_app.
      - eapply sandwich_app; [done|]. by apply ord_lt_le.
      - apply between_is_extension; [done..|].
        destruct (increment_prefix p); simpl in *; [by apply ord_ltb_true|done]. }
    exists k'. split; [done|]. unfold start_admits, end_admits in *; simpl in *.
    apply andb_true_iff. split.
    + destruct s; rewrite ?ord_leb_app, ?ord_ltb_app in Hs; done.
    + destruct e; rewrite ?ord_leb_app, ?ord_ltb_app in He; done.
  - intros (k' & -> & [Hs He]%andb_true_iff). unfold start_admits, end_admits in *; simpl in *.
    split.
    + destruct s; rewrite ?ord_leb_app, ?ord_ltb_app; try done.
      case_decide; simpl; [done|]. apply ord_leb_true, prefix_le.
    + destruct e; rewrite ?ord_leb_app, ?ord_ltb_app; try done.
      destruct (increment_prefix p) as [u|] eqn:Hu; simpl; [|done].
      by apply ord_ltb_true, extension_lt_increment.
Qed.

(** ** Emptiness *)

Lemma lt_snoc_zero (a b : bytes) : is_bytes b → a ≺ b → a ++ [0%Z] ≼ b.
Proof.
  revert b. induction a as [|x a IH]; intros [|y b] Hb Hlt;
    try (by apply not_lt_nil in Hlt); simpl.
  - apply Forall_cons in Hb as [Hy _]. unfold is_u8 in Hy. apply cons_le.
    destruct (decide (y = 0)%Z) as [->|]; [right; split; [done|apply nil_le]|lia].
  - apply Forall_cons in Hb as [_ Hb]. apply cons_lt in Hlt. apply cons_le.
    destruct Hlt as [?|[-> Hlt]]; [lia|]. right. auto.
Qed.

Lemma lt_snoc (a : bytes) x : a ≺ a ++ [x].
Proof.
  unfold ord_lt. rewrite <- (app_nil_r a) at 1. by rewrite cmp_app_l.
Qed.

(** The two forms of a range that [non_empty] accepts although no key lies in it. *)
Definition vacuous (r : ComparableRange bytes) : Prop :=
  (∃ a, r = range_new (Excluded a) (Excluded (a ++ [0%Z]))) ∨ r = range_new Unbounded (Excluded []).

Definition bound_bytes (b : Bound bytes) : Prop :=
  match b with Included k | Excluded k => is_bytes k | Unbounded => True end.

Lemma vacuous_contains_nothing r k : is_bytes k → vacuous r → range_contains r k = false.
Proof.
  intros Hk [[a ->]| ->]; unfold range_contains, start_admits, end_admits; simpl.
  - destruct (ord_ltb a k) eqn:E1, (ord_ltb k (a ++ [0%Z])) eqn:E2; try done. ord_norm.
    apply lt_snoc_zero in E1; [|done]. exfalso. ord.
  - apply ord_ltb_false, nil_le.
Qed.

Lemma non_empty_witness s e :
  bound_bytes s → bound_bytes e → range_non_empty (range_new s e) = true →
  vacuous (range_new s e) ∨ ∃ k, is_bytes k ∧ range_contains (range_new s e) k = true.
Proof.
  unfold range_non_empty, range_contains, start_admits, end_admits, vacuous; simpl.
  destruct s as [a|a|], e as [b|b|]; simpl; intros Ha Hb Hne.
  - right. exists a. split; [done|]. rewrite Hne. apply andb_true_iff. split; [|done]. by ord.
  - right. exists a. split; [done|]. rewrite Hne. apply andb_true_iff. split; [|done]. by ord.
  - right. exists a. split; [done|]. apply andb_true_iff. split; [by ord|done].
  - right. exists b. split; [done|]. rewrite Hne. apply andb_true_iff. split; [done|by ord].
  - destruct (decide (b = a ++ [0%Z])) as [->|Hb0]; [left; eauto|].
    right. exists (a ++ [0%Z]). split; [apply Forall_app; repeat constructor; done|].
    apply ord_ltb_true in Hne. apply lt_snoc_zero in Hne; [|done].
    apply andb_true_iff. split; apply ord_ltb_true; [apply lt_snoc|]. by ord.
  - right. exists (a ++ [0%Z]). split; [apply Forall_app; repeat constructor; done|].
    apply andb_true_iff. split; [|done]. apply ord_ltb_true, lt_snoc.
  - right. exists b. split; [done|]. by ord.
  - destruct b as [|y b]; [by left; right|]. right. exists []. split; [constructor|done].
  - right. exists []. split; [constructor|done].
Qed.
End BytesRange.

(** ** Properties *)

(** [ComparableRange::intersect] and [union] compute exactly the set
    intersection and (for ranges that meet) the set union of the keys two ranges
    contain, [intersect] returns [None] only when no key lies in both, and
    [union] is commutative. *)
Theorem range_algebra {T} `{OrdLaws T} (r1 r2 : ComparableRange T) :
  (∀ k, (range_contains r1 k = true ∧ range_contains r2 k = true) ↔
        ∃ r, range_intersect r1 r2 = Some r ∧ range_contains r k = true) ∧
  (∀ r k, range_union r1 r2 = Some r →
        (range_contains r k = true ↔ range_contains r1 k = true ∨ range_contains r2 k = true)) ∧
  (range_union r1 r2 = None → ∀ k, ¬ (range_contains r1 k = true ∧ range_contains r2 k = true)) ∧
  range_union r1 r2 = range_union r2 r1.
Proof.
  split_and!.
  - intros k. rewrite <- andb_true_iff, intersect_contains.
    destruct (range_intersect r1 r2); naive_solver.
  - intros r k Hu. rewrite (union_contains _ _ _ _ Hu). apply orb_true_iff.
  - intros Hu k. rewrite <- andb_true_iff. unfold range_union in Hu.
    destruct (ord_ltb r1 r2); simpl in Hu; case_match eqn:Hc; try done;
      [|rewrite andb_comm]; rewrite intersect_contains; by case_match.
  - apply union_sym.
Qed.

Lemma range_algebra_witness :
  range_union (range_new (Included 1%Z) (Excluded 5%Z)) (range_new (Included 3%Z) (Included 9%Z))
    = range_union (range_new (Included 3%Z) (Included 9%Z)) (range_new (Included 1%Z) (Excluded 5%Z)).
Proof.
  apply (range_algebra (range_new (Included 1%Z) (Excluded 5%Z)) (range_new (Included 3%Z) (Included 9%Z))).
Defined.

(** [BytesRange::from_prefix] never panics and the range it builds holds
    exactly the keys that start with the prefix, also when trailing bytes are
    [0xff]; [increment_prefix] is the least string above all of them. *)
Theorem prefix_range_exact (p : bytes) :
  (∃ r, @BytesRange.from_prefix unit p = Ok r ∧
     ∀ k, is_bytes k → BytesRange.contains r k = true ↔ p `prefix_of` k) ∧
  (∀ u, BytesRange.increment_prefix p = Some u →
     (∀ k, p ++ k ≺ u) ∧
     (∀ v, is_bytes v → (∀ k, is_bytes k → p ++ k ≺ v) → u ≼ v)) ∧
  (BytesRange.increment_prefix p = None ↔ p = replicate (length p) u8_max).
Proof.
  split_and!.
  - destruct (@BytesRange.from_prefix_total unit p) as [r Hr].
    eauto using BytesRange.from_prefix_contains.
  - intros u Hu. split; [intros k; by apply BytesRange.extension_lt_increment|].
    intros v Hv Hall. destruct (decide (u ≼ v)); [done|]. exfalso.
    apply ord_not_le in n.
    assert (p `prefix_of` v) as [k ->].
    { apply BytesRange.between_is_extension; [done| |by rewrite Hu].
      apply ord_lt_le. rewrite <- (app_nil_r p). apply Hall. constructor. }
    apply (ord_lt_irrefl (p ++ k)), Hall. by apply Forall_app in Hv as [_ ?].
  - destruct (BytesRange.increment_prefix_cases p) as [(q & b & n & Hp & Hb & ->)|[Hp ->]]; [|done].
    split; [done|]. intros Hrep. destruct Hb.
    assert (b ∈ replicate (length p) u8_max) as Hin.
    { rewrite <- Hrep, Hp. set_solver. }
    by apply elem_of_replicate in Hin as [-> _].
Qed.

(** [BytesRange::from_prefix_and_subrange]: the range, when it is built,
    holds exactly the keys [prefix ++ suffix] whose suffix lies in the subrange. *)
Theorem prefix_subrange_exact (p : bytes) s e r k :
  is_bytes k → @BytesRange.from_prefix_and_subrange unit p s e = Ok r →
  BytesRange.contains r k = true ↔
  ∃ suffix, k = p ++ suffix ∧ range_contains (range_new s e) suffix = true.
Proof. apply BytesRange.subrange_contains. Qed.

Lemma prefix_subrange_exact_witness :
  ∃ r, @BytesRange.from_prefix_and_subrange unit [7%Z] (Included [1%Z]) Unbounded = Ok r ∧
  (BytesRange.contains r [7%Z; 2%Z] = true ↔
   ∃ suffix, [7%Z; 2%Z] = [7%Z] ++ suffix ∧
     range_contains (range_new (Included [1%Z]) Unbounded) suffix = true).
Proof.
  eexists. split; [reflexivity|].
  apply (prefix_subrange_exact [7%Z] (Included [1%Z]) Unbounded); [|reflexivity].
  repeat constructor; done.
Defined.

(** [BytesRange::try_new] rejects only intervals without keys, and every
    interval it accepts has a key, with two exceptions that it accepts although
    no key lies in them: [(a, a ++ [0])] and [(.., "")]. *)
Theorem try_new_emptiness s e :
  BytesRange.bound_bytes s → BytesRange.bound_bytes e →
  (BytesRange.try_new s e = None → ∀ k, range_contains (range_new s e) k = false) ∧
  (∀ r, BytesRange.try_new s e = Some r →
     BytesRange.vacuous (range_new s e) ∨ ∃ k, is_bytes k ∧ BytesRange.contains r k = true) ∧
  (BytesRange.vacuous (range_new s e) →
     is_Some (BytesRange.try_new s e) ∧
     ∀ k, is_bytes k → range_contains (range_new s e) k = false).
Proof.
  intros Hs He. unfold BytesRange.try_new. split_and!.
  - case_match eqn:Hne; [done|]. intros _ k.
    destruct (range_contains _ k) eqn:Hc; [|done]. apply contains_non_empty in Hc. congruence.
  - intros r. case_match eqn:Hne; [|done]. intros [= <-].
    by apply BytesRange.non_empty_witness.
  - intros Hv. split; [|intros k Hk; by apply BytesRange.vacuous_contains_nothing].
    destruct Hv as [[a [= -> ->]]|[= -> ->]]; unfold range_non_empty; simpl; [|done].
    rewrite (proj2 (ord_ltb_true _ _) (BytesRange.lt_snoc a 0%Z)). done.
Qed.

Lemma try_new_emptiness_witness :
  is_Some (BytesRange.try_new (Excluded [5%Z]) (Excluded [5%Z; 0%Z])) ∧
  ∀ k, is_bytes k → range_contains (range_new (Excluded [5%Z]) (Excluded [5%Z; 0%Z])) k = false.
Proof.
  apply (try_new_emptiness (Excluded [5%Z]) (Excluded [5%Z; 0%Z]));
    [repeat constructor; done..|]. left. exists [5%Z]. reflexivity.
Defined.

Global Instance StartBound_eq_dec {T} `{EqDecision T} : EqDecision (StartBound T).
Proof. solve_decision. Defined.
Global Instance EndBound_eq_dec {T} `{EqDecision T} : EqDecision (EndBound T).
Proof. solve_decision. Defined.
Global Instance ComparableRange_eq_dec {T} `{EqDecision T} : EqDecision (ComparableRange T).
Proof. solve_decision. Defined.
Global Instance BytesRange_eq_dec : EqDecision BytesRange.t.
Proof. solve_decision. Defined.
