(* ===== verification/Types.v ===== *)
(** * Rows, values and errors ([types.rs], [error.rs])

    The data every other file works on: a row of the LSM tree, the value it
    carries, the key-value pair handed to a user, and the variants of
    [SlateDBError] that the modelled operations raise. *)

From stdpp Require Export strings.
From S2P Require Export Prelude KeyRange.

(** [merge_operator.rs]: the error of a user-supplied merge operator. *)
Inductive MergeOperatorError :=
| MergeEmptyBatch
| MergeCallback (message : string).

(** [error.rs]: the variants raised by the modelled code. *)
Inductive SlateDBError :=
| BackgroundTaskPanic (task : Z)
| BlockCompressionError
| BlockDecompressionError
| BlockTransformError
| CheckpointMissing (id : Z)
| ChecksumMismatch
| Closed
| EmptyBlock
| EmptyBlockMeta
| EmptySSTable
| EmptyKey
| EmptyBatch
| EmptySegmentPrefix (key : bytes)
| Fenced
| InvalidConfiguration (reason : string)
| InvalidDBState
| InvalidFilterBlock
| InvalidFlatbuffer
| InvalidCompaction
| InvalidDeletion
| InvalidClockTick (last_tick next_tick : Z)
| InvalidRowFlags (encoded_bits known_bits : Z)
| InvalidSegmentPrefix (prefix conflict : bytes)
| InvalidVersion (actual_version : Z)
| IteratorNotInitialized
| LatestTransactionalObjectVersionMissing
| InvalidSequenceOrder (current_seq next_seq : Z)
| InvalidSequenceNumber (provided current : Z)
| IncompatibleMergeTtls (key : bytes) (previous_expire_ts current_expire_ts : option Z)
| MergeError (e : MergeOperatorError)
| MergeOperatorMissing
| SeekNotSupportedForDescendingScan
| SeekKeyLessThanLastReturnedKey
| SeekKeyOutOfKeyRange (key : bytes) (start_key end_key : Bound bytes)
| SeekKeyOutOfRange (key : bytes) (range : BytesRange.t)
| TransactionConflict
| UnexpectedTombstone
| RecencyScanPrefixSpansMultipleSegments
| WalDataError
| WalInternalError
| WalStoreReconfigurationError
| WalTruncated (wal_id : Z)
| WalUnavailable
| SegmentExtractorMismatch (persisted configured : option string)
| SegmentPrefixNotRecognized (prefix : bytes) (extractor : string)
| InvalidProjection (prefix : bytes) (reason : string)
| InvalidUnion (reason : string).

Global Instance MergeOperatorError_eq_dec : EqDecision MergeOperatorError.
Proof. solve_decision. Defined.
Global Instance SlateDBError_eq_dec : EqDecision SlateDBError.
Proof. solve_decision. Defined.

(** A fallible operation of the code base. *)
Notation result := (outcome SlateDBError).

Inductive ValueDeletable :=
| Value (v : bytes)
| Merge (v : bytes)
| Tombstone.

Record RowEntry := mkRow {
  key : bytes;
  value : ValueDeletable;
  seq : Z;
  create_ts : option Z;
  expire_ts : option Z;
}.

Record KeyValue := mkKeyValue {
  kv_key : bytes;
  kv_value : bytes;
  kv_seq : Z;
  kv_create_ts : Z;
  kv_expire_ts : option Z;
}.

Global Instance ValueDeletable_eq_dec : EqDecision ValueDeletable.
Proof. solve_decision. Defined.
Global Instance RowEntry_eq_dec : EqDecision RowEntry.
Proof. solve_decision. Defined.

(** [ValueDeletable::len] *)
Definition value_len (v : ValueDeletable) : nat :=
  match v with
  | Value b | Merge b => length b
  | Tombstone => 0
  end.

(** [ValueDeletable::is_tombstone] *)
Definition is_tombstone (v : ValueDeletable) : bool :=
  match v with Tombstone => true | _ => false end.

(** [matches!(v, ValueDeletable::Merge(_))], the test used all over the code. *)
Definition is_merge (v : ValueDeletable) : bool :=
  match v with Merge _ => true | _ => false end.

(** [ValueDeletable::as_bytes] *)
Definition as_bytes (v : ValueDeletable) : option bytes :=
  match v with
  | Value b | Merge b => Some b
  | Tombstone => None
  end.

Definition opt_size (o : option Z) (n : nat) : nat :=
  match o with Some _ => n | None => 0 end.

(** [RowEntry::estimated_size] *)
Definition estimated_size (e : RowEntry) : nat :=
  length (key e) + value_len (value e) + 8 + opt_size (create_ts e) 8 + opt_size (expire_ts e) 8.

(** [RowEntry::encoded_size]; the first subtraction underflows when the prefix
    is longer than the key. *)
Definition encoded_size (e : RowEntry) (key_prefix_len : nat) : result nat :=
  if decide (key_prefix_len ≤ length (key e)) then
    let key_suffix_len := length (key e) - key_prefix_len in
    Ok (2 + 2 + key_suffix_len + 8 + 1
        + opt_size (expire_ts e) 8 + opt_size (create_ts e) 8
        + (if is_tombstone (value e) then 0 else 4 + value_len (value e)))
  else Panic.

(** [From<RowEntry> for KeyValue] *)
Definition key_value_from (e : RowEntry) : result KeyValue :=
  v ← expect (as_bytes (value e));
  mret (mkKeyValue (key e) v (seq e) (default 0%Z (create_ts e)) (expire_ts e)).

(** The machine-width well-formedness of a row: what the Rust types enforce. *)
Definition is_opt_i64 (o : option Z) : Prop := match o with Some z => is_i64 z | None => True end.

Record row_wf (e : RowEntry) : Prop := {
  row_wf_seq : is_u64 (seq e);
  row_wf_create : is_opt_i64 (create_ts e);
  row_wf_expire : is_opt_i64 (expire_ts e);
}.
