(* ===== verification/Keyspace.v ===== *)
(** * Partitioned key spaces and block index keys ([partitioned_keyspace.rs], [utils.rs])

    An SST's block index and a sorted run are both key spaces split into
    partitions, each known only by a lower bound of its keys.  This file models
    the binary searches that map keys and key ranges to partitions, and the
    function that computes the lower bound the SST writer stores per block. *)

From S2P Require Export Types KeyRange.

(** The trait: what a key space offers to the searches. *)
Class RangePartitionedKeySpace (T : Type) := {
  partitions : T → nat;
  partition_first_key : T → nat → result bytes;
}.

(** What an implementation promises: its first keys, in ascending order.  An
    index past the last partition panics, as the slices behind it do. *)
Class KeySpaceOf {T} `{RangePartitionedKeySpace T} (t : T) (ks : list bytes) : Prop := {
  keyspace_partitions : partitions t = length ks;
  keyspace_first_key i : partition_first_key t i = index ks i;
  keyspace_sorted i j a b : i ≤ j → ks !! i = Some a → ks !! j = Some b → a ≼ b;
}.

(** The slice of first keys itself is a key space. *)
Global Instance list_keyspace : RangePartitionedKeySpace (list bytes) := {
  partitions := length;
  partition_first_key := index;
}.

Section searches.
  Context {T : Type} `{RangePartitionedKeySpace T}.

(** The [while low <= high] loop of [partition_point]. *)
Fixpoint partition_point_loop (fuel : nat) (t : T) (pred : bytes → bool)
    (low high part_point : nat) : result nat :=
  match fuel with
  | O => OutOfFuel
  | S fuel =>
      if decide (low ≤ high) then
        let mid := low + (high - low) / 2 in
        mid_part_first_key ← partition_first_key t mid;
        if pred mid_part_first_key then
          partition_point_loop fuel t pred (mid + 1) high (mid + 1)
        else if decide (low < mid) then
          partition_point_loop fuel t pred low (mid - 1) part_point
        else mret part_point
      else mret part_point
  end.

(** [partition_point]; one more unit of fuel than there are partitions. *)
Definition partition_point (t : T) (pred : bytes → bool) : result nat :=
  if decide (partitions t = 0) then mret 0
  else partition_point_loop (S (partitions t)) t pred 0 (partitions t - 1) 0.

(** [first_partition_including_key] *)
Definition first_partition_including_key (t : T) (k : bytes) : result (option nat) :=
  part_point ← partition_point t (λ first_key, ord_ltb first_key k);
  if decide (0 < part_point) then mret (Some (part_point - 1))
  else
    first ← partition_first_key t 0;
    if decide (first = k) then mret (Some 0) else mret None.

(** [first_partition_including_or_after_key] *)
Definition first_partition_including_or_after_key (t : T) (k : bytes) : result nat :=
  o ← first_partition_including_key t k;
  mret (default 0 o).

(** [last_partition_including_key] *)
Definition last_partition_including_key (t : T) (k : bytes) : result (option nat) :=
  part_point ← partition_point t (λ first_key, ord_leb first_key k);
  if decide (part_point = 0) then mret None else mret (Some (part_point - 1)).

(** [partitions_covering_bounds] *)
Definition partitions_covering_bounds (t : T) (s e : Bound bytes) : result (nat * nat) :=
  start_idx ← match s with
              | Included k | Excluded k => first_partition_including_or_after_key t k
              | Unbounded => mret 0
              end;
  end_idx_exclusive ←
    match e with
    | Included k =>
        o ← last_partition_including_key t k;
        mret (default start_idx ((λ p, p + 1) <$> o))
    | Excluded k =>
        o ← last_partition_including_key t k;
        match o with
        | None => mret start_idx
        | Some p =>
            first ← partition_first_key t p;
            if decide (k = first) then mret p else mret (p + 1)
        end
    | Unbounded => mret (partitions t)
    end;
  mret (start_idx, end_idx_exclusive).

(** The [while] loop of [partitions_covering_key]. *)
Fixpoint step_back_equal (t : T) (k : bytes) (first_equal : nat) : result nat :=
  match first_equal with
  | O => mret 0
  | S p =>
      first ← partition_first_key t p;
      if decide (first = k) then step_back_equal t k p else mret first_equal
  end.

(** [partitions_covering_key] *)
Definition partitions_covering_key (t : T) (k : bytes) : result (nat * nat) :=
  end_ ← partition_point t (λ first_key, ord_leb first_key k);
  first_equal ← step_back_equal t k end_;
  mret (first_equal - 1, end_).

(** [partitions_covering_range] *)
Definition partitions_covering_range (t : T) (s e : Bound bytes) : result (nat * nat) :=
  match s, e with
  | Included a, Included b =>
      if decide (a = b) then partitions_covering_key t a else partitions_covering_bounds t s e
  | _, _ => partitions_covering_bounds t s e
  end.
End searches.

(** ** Reference definitions *)

(** Number of leading first keys that satisfy a predicate. *)
Fixpoint leading (pred : bytes → bool) (ks : list bytes) : nat :=
  match ks with
  | [] => 0
  | k :: ks => if pred k then S (leading pred ks) else 0
  end.

(** Partition [i] may hold [k]: its keys lie between its own first key and the
    first key of the next partition, both inclusive (the space is a multiset). *)
Definition may_include (ks : list bytes) (i : nat) (k : bytes) : Prop :=
  (∃ a, ks !! i = Some a ∧ a ≼ k) ∧ ∀ b, ks !! (S i) = Some b → k ≼ b.

Lemma leading_le pred ks : leading pred ks ≤ length ks.
Proof. induction ks as [|a ks IH]; simpl; [done|]. destruct (pred a); lia. Qed.

Lemma leading_true pred ks i a : i < leading pred ks → ks !! i = Some a → pred a = true.
Proof.
  revert i. induction ks as [|b ks IH]; intros i Hi Ha; [done|]. simpl in Hi.
  destruct (pred b) eqn:Hb; [|lia]. destruct i as [|i]; [by injection Ha as ->|].
  apply (IH i); [lia|done].
Qed.

Lemma leading_false pred ks a : ks !! leading pred ks = Some a → pred a = false.
Proof.
  induction ks as [|b ks IH]; [done|]. simpl. destruct (pred b) eqn:Hb; [apply IH|].
  by intros [= ->].
Qed.

(** [leading] is where a predicate that is true up to [n] and false at [n] flips. *)
Lemma leading_unique pred ks n :
  n ≤ length ks →
  (∀ i a, i < n → ks !! i = Some a → pred a = true) →
  (∀ a, ks !! n = Some a → pred a = false) →
  leading pred ks = n.
Proof.
  intros Hn Ht Hf. destruct (Nat.lt_trichotomy (leading pred ks) n) as [Hlt|[?|Hgt]]; [|done|].
  - destruct (lookup_lt_is_Some_2 ks (leading pred ks)) as [a Ha]; [lia|].
    pose proof (leading_false _ _ _ Ha). rewrite (Ht _ _ Hlt Ha) in *. done.
  - pose proof (leading_le pred ks).
    destruct (lookup_lt_is_Some_2 ks n) as [a Ha]; [lia|].
    pose proof (leading_true _ _ _ _ Hgt Ha). rewrite (Hf _ Ha) in *. done.
Qed.

(** ** The searches against the reference *)

Section search_lemmas.
  Context {T : Type} `{RangePartitionedKeySpace T} (t : T) (ks : list bytes).
  Context `{Hks : !KeySpaceOf t ks}.
  Implicit Types (pred : bytes → bool) (k : bytes).

(** A predicate true on a prefix of every ascending sequence. *)
Definition downward pred : Prop := ∀ a b : bytes, a ≼ b → pred b = true → pred a = true.

Lemma downward_ltb k : downward (λ a, ord_ltb a k).
Proof. intros a b. ord. Qed.
Lemma downward_leb k : downward (λ a, ord_leb a k).
Proof. intros a b. ord. Qed.

Lemma partition_point_loop_ok fuel pred low high :
  downward pred → S high - low < fuel → low ≤ S high → high < length ks →
  (∀ i a, i < low → ks !! i = Some a → pred a = true) →
  (∀ i a, high < i → ks !! i = Some a → pred a = false) →
  partition_point_loop fuel t pred low high low = Ok (leading pred ks).
Proof.
  intros Hdown. revert low high.
  induction fuel as [|fuel IH]; intros low high Hfuel Hlh Hhigh Hlow Habove; [lia|].
  cbn [partition_point_loop]. case_decide as Hle.
  2:{ assert (leading pred ks = low) as ->; [|done].
      apply leading_unique; [lia|done|]. intros a. apply Habove. lia. }
  set (mid := low + (high - low) / 2).
  assert (low ≤ mid ≤ high) as Hmid.
  { subst mid. pose proof (Nat.Div0.div_le_mono (high - low) (2 * (high - low)) 2 ltac:(lia)).
    rewrite Nat.mul_comm, Nat.div_mul in * by lia. lia. }
  destruct (lookup_lt_is_Some_2 ks mid) as [m Hm]; [lia|].
  rewrite keyspace_first_key. unfold index. rewrite Hm. cbn [expect mbind outcome_bind].
  destruct (pred m) eqn:Hp.
  - apply IH; [lia..| |done]. intros i a Hi Ha. apply (Hdown a m); [|done].
    eapply (keyspace_sorted i mid); [lia|done..].
  - assert (∀ i a, mid ≤ i → ks !! i = Some a → pred a = false) as Hfrom.
    { intros i a Hi Ha. destruct (pred a) eqn:Hpa; [|done].
      rewrite (Hdown m a) in Hp; [done| |done]. eapply (keyspace_sorted mid i); [lia|done..]. }
    case_decide as Hlm.
    + apply IH; [lia..|done|]. intros i a Hi. apply Hfrom. lia.
    + assert (leading pred ks = low) as ->; [|done].
      apply leading_unique; [lia|done|]. intros a. apply Hfrom. lia.
Qed.

Lemma partition_point_ok pred : downward pred → partition_point t pred = Ok (leading pred ks).
Proof.
  intros Hdown. unfold partition_point. rewrite keyspace_partitions. case_decide as Hn.
  { apply nil_length_inv in Hn. by subst ks. }
  apply partition_point_loop_ok; [done|lia..| |].
  - intros i a Hi. lia.
  - intros i a Hi Ha%lookup_lt_Some. lia.
Qed.

Lemma leading_spec pred i a :
  downward pred → ks !! i = Some a → pred a = true ↔ i < leading pred ks.
Proof.
  intros Hdown Ha. split; [|intros; by eapply leading_true].
  intros Hp. destruct (decide (i < leading pred ks)) as [|Hge]; [done|].
  destruct (lookup_lt_is_Some_2 ks (leading pred ks)) as [b Hb].
  { apply lookup_lt_Some in Ha. lia. }
  apply leading_false in Hb as Hf. rewrite (Hdown b a) in Hf; [done| |done].
  eapply (keyspace_sorted (leading pred ks) i); [lia|done..].
Qed.

Lemma leading_ltb_le_leb k :
  leading (λ a, ord_ltb a k) ks ≤ leading (λ a, ord_leb a k) ks.
Proof.
  destruct (decide (leading (λ a, ord_ltb a k) ks = 0)); [lia|].
  destruct (lookup_lt_is_Some_2 ks (leading (λ a, ord_ltb a k) ks - 1)) as [a Ha].
  { pose proof (leading_le (λ a, ord_ltb a k) ks). lia. }
  assert (ord_ltb a k = true) as Hlt by (eapply (leading_true (λ a, ord_ltb a k)); [|done]; lia).
  enough (leading (λ a, ord_ltb a k) ks - 1 < leading (λ a, ord_leb a k) ks) by lia.
  eapply leading_spec; [apply downward_leb|done|]. ord.
Qed.

Lemma first_partition_ok k :
  ks ≠ [] →
  first_partition_including_or_after_key t k = Ok (leading (λ a, ord_ltb a k) ks - 1).
Proof.
  intros Hne. unfold first_partition_including_or_after_key, first_partition_including_key.
  rewrite partition_point_ok by apply downward_ltb. cbn [mbind outcome_bind].
  case_decide as Hpos; [done|]. rewrite keyspace_first_key.
  destruct ks as [|a ks']; [done|]. cbn [index expect lookup list_lookup mbind outcome_bind].
  case_decide; cbn -[leading]; f_equal; lia.
Qed.

Lemma last_partition_ok k :
  last_partition_including_key t k =
  Ok (if decide (leading (λ a, ord_leb a k) ks = 0) then None
      else Some (leading (λ a, ord_leb a k) ks - 1)).
Proof.
  unfold last_partition_including_key. rewrite partition_point_ok by apply downward_leb.
  cbn [mbind outcome_bind]. by case_decide.
Qed.

(** Stepping back over the partitions that start with the key ends where the
    first search ends. *)
Lemma step_back_ok k n :
  leading (λ a, ord_ltb a k) ks ≤ n ≤ leading (λ a, ord_leb a k) ks →
  step_back_equal t k n = Ok (leading (λ a, ord_ltb a k) ks).
Proof.
  pose proof (leading_le (λ a, ord_leb a k) ks).
  induction n as [|n IH]; intros Hn; cbn [step_back_equal]; [f_equal; lia|].
  destruct (lookup_lt_is_Some_2 ks n) as [a Ha]; [lia|].
  rewrite keyspace_first_key. unfold index. rewrite Ha. cbn [expect mbind outcome_bind].
  pose proof (leading_spec _ n a (downward_ltb k) Ha) as Hlt.
  pose proof (leading_spec _ n a (downward_leb k) Ha) as Hle.
  case_decide as Heq.
  - apply IH. subst a. assert (¬ n < leading (λ a, ord_ltb a k) ks); [|lia].
    rewrite <- Hlt. ord.
  - assert (n < leading (λ a, ord_ltb a k) ks); [|f_equal; lia].
    apply Hlt. apply ord_ltb_true. assert (a ≼ k); [|by ord].
    apply ord_leb_true, Hle. lia.
Qed.

Lemma may_include_iff k i :
  may_include ks i k ↔
  leading (λ a, ord_ltb a k) ks - 1 ≤ i < leading (λ a, ord_leb a k) ks.
Proof.
  pose proof (leading_le (λ a, ord_leb a k) ks) as Hlen.
  pose proof (leading_ltb_le_leb k) as Hlele. split.
  - intros [(a & Ha & Hle) Hnext]. apply ord_leb_true in Hle.
    apply (leading_spec (λ a, ord_leb a k) i a (downward_leb k) Ha) in Hle. split; [|done].
    destruct (decide (S i < leading (λ a, ord_ltb a k) ks)) as [Hlt|]; [|lia]. exfalso.
    destruct (lookup_lt_is_Some_2 ks (S i)) as [b Hb]; [lia|].
    pose proof (leading_true _ _ _ _ Hlt Hb). specialize (Hnext b Hb). ord.
  - intros [Hlo Hhi]. split.
    + destruct (lookup_lt_is_Some_2 ks i) as [a Ha]; [lia|]. exists a. split; [done|].
      apply ord_leb_true. by eapply (leading_true (λ a, ord_leb a k)).
    + intros b Hb. apply ord_not_lt. intros Hlt%ord_ltb_true.
      apply (leading_spec (λ a, ord_ltb a k) _ _ (downward_ltb k) Hb) in Hlt. lia.
Qed.

Lemma covering_key_ok k :
  partitions_covering_key t k =
  Ok (leading (λ a, ord_ltb a k) ks - 1, leading (λ a, ord_leb a k) ks).
Proof.
  unfold partitions_covering_key. rewrite partition_point_ok by apply downward_leb.
  cbn [mbind outcome_bind]. rewrite step_back_ok; [done|].
  split; [apply leading_ltb_le_leb|done].
Qed.
End search_lemmas.

(** ** Index keys of SST blocks ([utils.rs]) *)

(** The [for i in 0..prev.len()] loop of [compute_lower_bound]: the first
    mismatch, where [this_block_first_key[i]] panics past its end. *)
Fixpoint lower_bound_loop (n i : nat) (prev this : bytes) : result (option nat) :=
  match n with
  | O => mret None
  | S n =>
      a ← index prev i;
      b ← index this i;
      if decide (a ≠ b) then mret (Some i) else lower_bound_loop n (S i) prev this
  end.

(** [compute_lower_bound] *)
Definition compute_lower_bound (prev this : bytes) : result bytes :=
  _ ← rust_assert (bool_decide (prev ≠ []) && bool_decide (this ≠ []));
  mismatch ← lower_bound_loop (length prev) 0 prev this;
  match mismatch with
  | Some i => slice_to (i + 1) this
  | None =>
      if decide (length prev = length this) then mret this
      else slice_to (length prev + 1) this
  end.

(** [compute_index_key] *)
Definition compute_index_key (prev_block_last_key : option bytes) (this_block_first_key : bytes)
    : result bytes :=
  match prev_block_last_key with
  | Some prev_key => compute_lower_bound prev_key this_block_first_key
  | None => mret []
  end.

(** The loop from a common prefix [c]: the mismatch found is the first one. *)
Lemma lower_bound_loop_app c p q :
  p ≼ q →
  (∃ r, q = p ++ r ∧ lower_bound_loop (length p) (length c) (c ++ p) (c ++ q) = Ok None) ∨
  (∃ d x y p' q', p = d ++ x :: p' ∧ q = d ++ y :: q' ∧ (x < y)%Z ∧
     lower_bound_loop (length p) (length c) (c ++ p) (c ++ q) = Ok (Some (length c + length d))).
Proof.
  revert c q. induction p as [|x p IH]; intros c q Hle; [left; by exists q|].
  destruct q as [|y q]; [by destruct Hle|]. cbn [length lower_bound_loop].
  unfold index. rewrite !list_lookup_middle by done. cbn [expect mbind outcome_bind].
  apply cons_le in Hle. case_decide as Hne.
  - right. exists [], x, y, p, q. rewrite Nat.add_0_r.
    split_and!; [done..| |done]. destruct Hle as [?|[? _]]; [done|]. by destruct Hne.
  - assert (x = y) as -> by (destruct (decide (x = y)); [done|by destruct Hne]).
    destruct Hle as [?|[_ Hle]]; [lia|].
    specialize (IH (c ++ [y]) q Hle). rewrite <- !app_assoc, length_app in IH. cbn in IH.
    rewrite Nat.add_1_r in IH.
    destruct IH as [(r & -> & ->)|(d & a & b & p' & q' & -> & -> & ? & ->)].
    + left. by exists r.
    + right. exists (y :: d), a, b, p', q'. split_and!; [done..|]. f_equal. f_equal. simpl. lia.
Qed.

Lemma prefix_lt_mismatch (d p q : bytes) x y : (x < y)%Z → d ++ x :: p ≺ d ++ y :: q.
Proof. intros. unfold ord_lt. rewrite cmp_app_l. apply cons_lt. by left. Qed.

(** The two cases of [compute_lower_bound] on keys in order. *)
Lemma compute_lower_bound_cases prev this :
  prev ≠ [] → this ≠ [] → prev ≼ this →
  (prev = this ∧ compute_lower_bound prev this = Ok this) ∨
  (∃ d y rest, this = (d ++ [y]) ++ rest ∧ d `prefix_of` prev ∧ prev ≺ d ++ [y] ∧
     compute_lower_bound prev this = Ok (d ++ [y])).
Proof.
  intros Hp Ht Hle. unfold compute_lower_bound.
  rewrite !bool_decide_eq_true_2 by done. cbn [andb rust_assert mbind outcome_bind].
  destruct (lower_bound_loop_app [] prev this Hle)
    as [(r & -> & Hl)|(d & x & y & p' & q' & -> & -> & Hxy & Hl)];
    cbn [app length] in Hl; rewrite Hl; cbn [mbind outcome_bind]; clear Hl.
  - destruct r as [|y r].
    + rewrite app_nil_r in *. left. rewrite decide_True by done. done.
    + right. exists prev, y, r. rewrite <- app_assoc. split_and!; [done..| |].
      * rewrite <- (app_nil_r prev) at 1. unfold ord_lt. by rewrite cmp_app_l.
      * rewrite length_app, decide_False by (simpl; lia).
        unfold slice_to. rewrite length_app, decide_True by (simpl; lia).
        rewrite cons_middle, app_assoc, take_app_length'; [done|]. rewrite length_app. done.
  - right. exists d, y, q'. rewrite <- app_assoc. split_and!; [done|by eexists| |].
    + by apply prefix_lt_mismatch.
    + unfold slice_to. rewrite length_app, decide_True by (simpl; lia).
      cbn [app]. rewrite cons_middle, app_assoc, take_app_length'; [done|].
      rewrite length_app. simpl. lia.
Qed.

(** ** Properties *)

(** [partitions_covering_key], the single-search fast path for a point range,
    returns exactly the partitions that may hold the key, and on a non-empty key
    space agrees with the general two-search path it replaces. *)
Theorem covering_key_exact {T} `{RangePartitionedKeySpace T} (t : T) ks (k : bytes) :
  KeySpaceOf t ks →
  ∃ lo hi, partitions_covering_key t k = Ok (lo, hi) ∧
    (∀ i, lo ≤ i < hi ↔ may_include ks i k) ∧
    (ks ≠ [] → partitions_covering_bounds t (Included k) (Included k) = Ok (lo, hi)).
Proof.
  intros Hks. do 2 eexists. split; [by apply covering_key_ok|]. split.
  { intros i. symmetry. by eapply may_include_iff. }
  intros Hne. unfold partitions_covering_bounds.
  erewrite first_partition_ok by done. erewrite last_partition_ok by done.
  cbn [mbind outcome_bind].
  pose proof (leading_ltb_le_leb t ks k). case_decide; cbn -[leading]; do 2 f_equal; lia.
Qed.

Lemma covering_key_exact_witness :
  ∃ lo hi, partitions_covering_key (T := list bytes) [[1%Z]; [3%Z]; [3%Z]; [9%Z]] [3%Z] = Ok (lo, hi) ∧
    (∀ i, lo ≤ i < hi ↔ may_include [[1%Z]; [3%Z]; [3%Z]; [9%Z]] i [3%Z]) ∧
    ([[1%Z]; [3%Z]; [3%Z]; [9%Z]] ≠ [] →
     partitions_covering_bounds (T := list bytes) [[1%Z]; [3%Z]; [3%Z]; [9%Z]]
       (Included [3%Z]) (Included [3%Z]) = Ok (lo, hi)).
Proof.
  apply (covering_key_exact (T := list bytes) [[1%Z]; [3%Z]; [3%Z]; [9%Z]]
           [[1%Z]; [3%Z]; [3%Z]; [9%Z]] [3%Z]).
  split; [reflexivity|reflexivity|].
  intros [|[|[|[|i]]]] [|[|[|[|j]]]] a b Hij Ha Hb; simpl in *; simplify_eq; try lia; done.
Defined.

(** The start of the covering range, on every bound. *)
Definition start_lower (ks : list bytes) (s : Bound bytes) : nat :=
  match s with
  | Included k | Excluded k => leading (λ a, ord_ltb a k) ks - 1
  | Unbounded => 0
  end.

Lemma start_lower_le {T} `{RangePartitionedKeySpace T} (t : T) ks `{!KeySpaceOf t ks} s k i :
  start_admits (mkStart s) k = true → may_include ks i k → start_lower ks s ≤ i.
Proof.
  intros Hs Hin. destruct (may_include_iff t ks k i) as [Hb _]. specialize (Hb Hin).
  assert (∀ a : bytes, a ≼ k → leading (λ x, ord_ltb x a) ks ≤ leading (λ x, ord_ltb x k) ks) as Hmono.
  { intros a Hak. destruct (decide (leading (λ x, ord_ltb x a) ks = 0)); [lia|].
    pose proof (leading_le (λ x, ord_ltb x a) ks).
    destruct (lookup_lt_is_Some_2 ks (leading (λ x, ord_ltb x a) ks - 1)) as [b Hb']; [lia|].
    enough (leading (λ x, ord_ltb x a) ks - 1 < leading (λ x, ord_ltb x k) ks) by lia.
    eapply (leading_spec t ks (λ x, ord_ltb x k)); [apply downward_ltb|done|].
    assert (ord_ltb b a = true) by (eapply (leading_true (λ x, ord_ltb x a)); [|done]; lia). ord. }
  unfold start_admits in Hs; destruct s as [a|a|]; simpl in *; [| |lia];
    assert (a ≼ k) as Hak by ord; specialize (Hmono a Hak); lia.
Qed.

Lemma covering_bounds_start {T} `{RangePartitionedKeySpace T} (t : T) ks `{!KeySpaceOf t ks} s :
  ks ≠ [] →
  match s with
  | Included k | Excluded k => first_partition_including_or_after_key t k
  | Unbounded => mret 0
  end = Ok (start_lower ks s).
Proof. intros Hne. destruct s; simpl; [by apply first_partition_ok..|done]. Qed.

(** The end of the covering range, on every bound. *)
Definition end_upper (ks : list bytes) (lo : nat) (e : Bound bytes) : nat :=
  match e with
  | Included k =>
      let n := leading (λ a, ord_leb a k) ks in if decide (n = 0) then lo else n
  | Excluded k =>
      let n := leading (λ a, ord_leb a k) ks in
      if decide (n = 0) then lo else if decide (ks !! (n - 1) = Some k) then n - 1 else n
  | Unbounded => length ks
  end.

Lemma covering_bounds_ok {T} `{RangePartitionedKeySpace T} (t : T) ks `{!KeySpaceOf t ks} s e :
  ks ≠ [] →
  partitions_covering_bounds t s e =
  Ok (start_lower ks s, end_upper ks (start_lower ks s) e).
Proof.
  intros Hne. unfold partitions_covering_bounds. rewrite (covering_bounds_start t ks) by done.
  cbn [mbind outcome_bind]. set (lo := start_lower ks s).
  destruct e as [k|k|]; cbn [end_upper].
  - erewrite last_partition_ok by done. cbn [mbind outcome_bind].
    case_decide; cbn -[leading]; [done|]. do 2 f_equal. lia.
  - erewrite last_partition_ok by done. cbn [mbind outcome_bind].
    case_decide as Hn; cbn -[leading]; [done|]. rewrite keyspace_first_key.
    pose proof (leading_le (λ a, ord_leb a k) ks).
    destruct (lookup_lt_is_Some_2 ks (leading (λ a, ord_leb a k) ks - 1)) as [a Ha]; [lia|].
    unfold index. rewrite Ha. cbn -[leading].
    destruct (decide (k = a)) as [->|Hka]; cbn -[leading].
    + by rewrite decide_True by done.
    + rewrite decide_False by naive_solver. do 2 f_equal. lia.
  - cbn -[leading]. by rewrite keyspace_partitions.
Qed.

Lemma end_upper_gt {T} `{RangePartitionedKeySpace T} (t : T) ks `{!KeySpaceOf t ks} lo e k i :
  end_admits (mkEnd e) k = true → may_include ks i k → i < end_upper ks lo e.
Proof.
  intros He [(a & Ha & Hak) _]. unfold end_admits in He.
  destruct e as [b|b|]; simpl in *; [| |by eapply lookup_lt_Some].
  - assert (i < leading (λ x, ord_leb x b) ks).
    { eapply (leading_spec t ks); [apply downward_leb|done|]. ord. }
    rewrite decide_False by lia. done.
  - assert (a ≺ b) as Hab by ord.
    assert (i < leading (λ x, ord_leb x b) ks).
    { eapply (leading_spec t ks); [apply downward_leb|done|]. ord. }
    rewrite decide_False by lia. case_decide as Hlast; [|done].
    destruct (decide (i = leading (λ x, ord_leb x b) ks - 1)) as [->|]; [|lia].
    rewrite Ha in Hlast. injection Hlast as ->. exfalso. ord.
Qed.

Lemma start_lower_len ks s : start_lower ks s ≤ length ks.
Proof. destruct s as [k|k|]; cbn -[leading]; try lia; pose proof (leading_le (λ a, ord_ltb a k) ks); lia. Qed.

Lemma end_upper_le ks lo e : lo ≤ length ks → end_upper ks lo e ≤ length ks.
Proof.
  intros Hlo. destruct e as [k|k|]; cbn -[leading]; try done; pose proof (leading_le (λ a, ord_leb a k) ks);
    pose proof (leading_le (λ a, ord_ltb a k) ks); repeat case_decide; try lia.
Qed.

(** A larger predicate leads further. *)
Lemma leading_mono (p q : bytes → bool) ks : (∀ a, p a = true → q a = true) → leading p ks ≤ leading q ks.
Proof.
  intros Hpq. induction ks as [|a ks IH]; [done|]. cbn. destruct (p a) eqn:Hp; [|lia]. rewrite (Hpq a Hp). lia.
Qed.

(** The partition that may hold the first keys at or after [k] is at most the end of a range that
    admits [k], or that ends at or after [k]. *)
Lemma end_upper_ge ks lo e k :
  match e with Included b => k ≼ b | Excluded b => k ≼ b | Unbounded => True end →
  leading (λ a, ord_ltb a k) ks - 1 ≤ end_upper ks lo e.
Proof.
  intros Hk. destruct e as [b|b|]; cbn -[leading].
  - pose proof (leading_mono (λ a, ord_ltb a k) (λ a, ord_leb a b) ks ltac:(intros a; ord)). case_decide; lia.
  - pose proof (leading_mono (λ a, ord_ltb a k) (λ a, ord_leb a b) ks ltac:(intros a; ord)). repeat case_decide; lia.
  - pose proof (leading_le (λ a, ord_ltb a k) ks). lia.
Qed.

(** [partitions_covering_range] in general. *)
Lemma covering_range_ok {T} `{RangePartitionedKeySpace T} (t : T) ks `{!KeySpaceOf t ks} s e :
  ks ≠ [] →
  ∃ lo hi, partitions_covering_range t s e = Ok (lo, hi) ∧ hi ≤ length ks ∧
    (∀ i k, range_contains (range_new s e) k = true → may_include ks i k → lo ≤ i < hi) ∧
    (∀ k, range_contains (range_new s e) k = true → lo ≤ leading (λ a, ord_ltb a k) ks - 1 ≤ hi) ∧
    (range_non_empty (range_new s e) = true → lo ≤ hi).
Proof.
  intros Hne.
  assert (∃ lo hi, partitions_covering_bounds t s e = Ok (lo, hi) ∧ hi ≤ length ks ∧
    (∀ i k, range_contains (range_new s e) k = true → may_include ks i k → lo ≤ i < hi) ∧
    (∀ k, range_contains (range_new s e) k = true → lo ≤ leading (λ a, ord_ltb a k) ks - 1 ≤ hi) ∧
    (range_non_empty (range_new s e) = true → lo ≤ hi)) as Hgen.
  { do 2 eexists. split; [by apply covering_bounds_ok|]. split; [apply end_upper_le, start_lower_len|]. split; [|split].
    - intros i k [Hs He]%andb_true_iff Hin. split.
      + by eapply start_lower_le.
      + by eapply end_upper_gt.
    - intros k [Hs He]%andb_true_iff. split.
      + destruct s as [a|a|]; cbn -[leading] in *; [| |lia];
          pose proof (leading_mono (λ x, ord_ltb x a) (λ x, ord_ltb x k) ks) as Hm; unfold start_admits in Hs; cbn in Hs;
          enough (leading (λ x, ord_ltb x a) ks ≤ leading (λ x, ord_ltb x k) ks) by lia; apply Hm; intros x; ord.
      + apply end_upper_ge. unfold end_admits in He. destruct e as [b|b|]; cbn in *; [ord|ord|done].
    - intros Hr. unfold range_non_empty in Hr. cbn in Hr. destruct s as [a|a|]; cbn -[leading end_upper]; [| |lia];
        apply end_upper_ge; destruct e as [b|b|]; try done; ord. }
  unfold partitions_covering_range. destruct s as [a|a|], e as [b|b|]; try exact Hgen.
  case_decide as Hab; [|exact Hgen]. subst b.
  do 2 eexists. split; [by apply covering_key_ok|]. split; [apply leading_le|].
  pose proof (leading_mono (λ x, ord_ltb x a) (λ x, ord_leb x a) ks ltac:(intros x; ord)).
  assert (∀ k, range_contains (range_new (Included a) (Included a)) k = true → k = a) as Hka.
  { intros k [Hs He]%andb_true_iff. unfold start_admits, end_admits in *; simpl in *. ord. }
  split; [|split; [|lia]].
  - intros i k ->%Hka Hin. by apply (may_include_iff t).
  - intros k ->%Hka. lia.
Qed.

(** [partitions_covering_range] never panics on a non-empty key space and
    misses no partition: every partition that may hold a key of the range is
    returned, whatever the kinds of its bounds. *)
Theorem covering_range_complete {T} `{RangePartitionedKeySpace T} (t : T) ks s e :
  KeySpaceOf t ks → ks ≠ [] →
  ∃ lo hi, partitions_covering_range t s e = Ok (lo, hi) ∧
    ∀ i k, range_contains (range_new s e) k = true → may_include ks i k → lo ≤ i < hi.
Proof.
  intros Hks Hne. destruct (covering_range_ok t ks s e Hne) as (lo & hi & Hc & _ & Hin & _). by exists lo, hi.
Qed.

Lemma covering_range_complete_witness :
  ∃ lo hi, partitions_covering_range (T := list bytes) [[1%Z]; [3%Z]; [9%Z]] (Included [2%Z]) (Excluded [9%Z])
             = Ok (lo, hi) ∧
    ∀ i k, range_contains (range_new (Included [2%Z]) (Excluded [9%Z])) k = true →
      may_include [[1%Z]; [3%Z]; [9%Z]] i k → lo ≤ i < hi.
Proof.
  apply (covering_range_complete (T := list bytes) [[1%Z]; [3%Z]; [9%Z]] [[1%Z]; [3%Z]; [9%Z]]);
    [|discriminate].
  split; [reflexivity|reflexivity|].
  intros [|[|[|i]]] [|[|[|j]]] a b Hij Ha Hb; simpl in *; simplify_eq; try lia; done.
Defined.

(** [compute_index_key] on consecutive blocks in key order does not panic;
    the stored key is a prefix of the block's first key, hence at most all keys
    of the block, it is above every key of the previous block when the blocks do
    not share a key, and then it is the shortest prefix that is. *)
Theorem index_key_separates (prev this : bytes) :
  prev ≠ [] → this ≠ [] → prev ≼ this →
  ∃ idx, compute_index_key (Some prev) this = Ok idx ∧
    idx `prefix_of` this ∧ (∀ k, this ≼ k → idx ≼ k) ∧
    (prev ≺ this → (∀ k, k ≼ prev → k ≺ idx) ∧
       ∀ p, p `prefix_of` this → prev ≺ p → length idx ≤ length p) ∧
    (prev = this → idx = this).
Proof.
  intros Hp Ht Hle. simpl.
  destruct (compute_lower_bound_cases prev this Hp Ht Hle)
    as [[-> ->]|(d & y & rest & -> & [d' ->] & Hlt & ->)]; eexists; split; try reflexivity.
  - split_and!; [done|done| |done]. intros Hlt. by apply ord_lt_irrefl in Hlt.
  - split_and!; [by eexists| | |].
    + intros k Hk. eapply ord_le_trans; [apply prefix_le|exact Hk].
    + intros _. split; [intros k Hk; by eapply ord_le_lt_trans|].
      intros p [r Hr] Hdp. rewrite length_app. simpl.
      destruct (decide (length d < length p)); [lia|]. exfalso.
      assert (p `prefix_of` d) as [r' ->].
      { destruct (prefix_weak_total p d (d ++ [y] ++ rest)) as [?|Hd]; [| |done|].
        - exists r. by rewrite <- Hr, <- app_assoc.
        - by eexists.
        - by rewrite (prefix_length_eq _ _ Hd) by lia. }
      apply (ord_lt_irrefl p). eapply ord_le_lt_trans; [|exact Hdp].
      rewrite <- app_assoc. apply prefix_le.
    + intros Heq. rewrite Heq in Hlt. exfalso.
      apply (ord_lt_irrefl (d ++ [y])). eapply ord_le_lt_trans; [|exact Hlt]. apply prefix_le.
Qed.

Lemma index_key_separates_witness :
  ∃ idx, compute_index_key (Some [1%Z; 2%Z]) [1%Z; 5%Z; 6%Z] = Ok idx ∧
    idx `prefix_of` [1%Z; 5%Z; 6%Z] ∧ (∀ k, [1%Z; 5%Z; 6%Z] ≼ k → idx ≼ k) ∧
    ([1%Z; 2%Z] ≺ [1%Z; 5%Z; 6%Z] → (∀ k, k ≼ [1%Z; 2%Z] → k ≺ idx) ∧
       ∀ p, p `prefix_of` [1%Z; 5%Z; 6%Z] → [1%Z; 2%Z] ≺ p → length idx ≤ length p) ∧
    ([1%Z; 2%Z] = [1%Z; 5%Z; 6%Z] → idx = [1%Z; 5%Z; 6%Z]).
Proof. apply (index_key_separates [1%Z; 2%Z] [1%Z; 5%Z; 6%Z]); done. Defined.
