(* ===== verification/Bits.v ===== *)
(** * Bit streams and variable-length integers ([utils.rs])

    [BitWriter] packs bits into bytes, most significant bit first; [BitReader]
    reads them back.  Both are related to the plain list of bits they stand for,
    and every client works on that list.  [encode_varint] and [decode_varint] are
    the LEB128 codec of the V2 row format. *)

From S2P Require Export Types.

(** ** Lists of bits *)

(** The low [k] bits of [v], most significant first. *)
Fixpoint bits_of (k : nat) (v : Z) : list bool :=
  match k with
  | O => []
  | S k => Z.testbit v (Z.of_nat k) :: bits_of k v
  end.

Definition bit_step (acc : Z) (b : bool) : Z := (2 * acc + Z.b2z b)%Z.
Definition bits_val (l : list bool) : Z := foldl bit_step 0%Z l.

Notation byte_bits := (bits_of 8).

Lemma length_bits_of k v : length (bits_of k v) = k.
Proof. induction k; simpl; auto. Qed.

Lemma bits_val_acc l acc : foldl bit_step acc l = (acc * 2 ^ Z.of_nat (length l) + bits_val l)%Z.
Proof.
  unfold bits_val. revert acc. induction l as [|b l IH]; intros acc; [simpl; lia|].
  cbn [foldl length]. rewrite IH, (IH (bit_step 0 b)), Nat2Z.inj_succ, Z.pow_succ_r by lia.
  unfold bit_step. lia.
Qed.

Lemma bits_val_cons b l :
  bits_val (b :: l) = (Z.b2z b * 2 ^ Z.of_nat (length l) + bits_val l)%Z.
Proof. unfold bits_val at 1. cbn [foldl]. rewrite bits_val_acc. unfold bit_step. lia. Qed.

Lemma bits_val_range l : (0 ≤ bits_val l < 2 ^ Z.of_nat (length l))%Z.
Proof.
  induction l as [|b l IH]; [done|]. rewrite bits_val_cons. cbn [length].
  rewrite Nat2Z.inj_succ, Z.pow_succ_r by lia. destruct b; simpl; lia.
Qed.

Lemma bits_val_bits_of k v : bits_val (bits_of k v) = wrap (Z.of_nat k) v.
Proof.
  induction k as [|k IH]; [unfold wrap; by rewrite Z.mod_1_r|].
  cbn [bits_of]. rewrite bits_val_cons, IH, length_bits_of. unfold wrap.
  rewrite Nat2Z.inj_succ, Z.pow_succ_r by lia.
  rewrite (Z.mul_comm 2), (Z.rem_mul_r v (2 ^ Z.of_nat k) 2) by lia.
  rewrite Z.testbit_spec' by lia. lia.
Qed.

Lemma bits_of_wrap k w v : (Z.of_nat k ≤ w)%Z → bits_of k (wrap w v) = bits_of k v.
Proof.
  intros Hk. induction k as [|k IH]; [done|]. cbn [bits_of]. rewrite IH by lia. f_equal.
  unfold wrap. rewrite Z.mod_pow2_bits_low by lia. done.
Qed.

(** ** [BitWriter] *)

Module BitWriter.

Record t := mk { buf : bytes; cur : Z; n : nat }.

(** [BitWriter::new] *)
Definition new : t := mk [] 0 0.

(** [BitWriter::flush_byte] *)
Definition flush_byte (w : t) : t := mk (buf w ++ [cur w]) 0 0.

(** [BitWriter::push] *)
Definition push (w : t) (bit : bool) : t :=
  let cur := if bit then Z.lor (cur w) (Z.shiftl 1 (7 - Z.of_nat (n w))) else cur w in
  let w := mk (buf w) cur (S (n w)) in
  if decide (n w = 8) then flush_byte w else w.

(** The loop [for i in (0..bits).rev()] shared by [push32] and [push64]. *)
Fixpoint push_loop (bits : nat) (w : t) (value : Z) : t :=
  match bits with
  | O => w
  | S i => push_loop i (push w (negb (Z.land (Z.shiftr value (Z.of_nat i)) 1 =? 0)%Z)) value
  end.

(** [BitWriter::push32], [BitWriter::push64]: the same loop on two widths. *)
Definition push32 (w : t) (value : Z) (bits : nat) : t := push_loop bits w value.
Definition push64 (w : t) (value : Z) (bits : nat) : t := push_loop bits w value.

(** [BitWriter::finish] *)
Definition finish (w : t) : bytes := if decide (0 < n w) then buf w ++ [cur w] else buf w.

(** The bits a writer holds. *)
Definition holds (w : t) (l : list bool) : Prop :=
  n w < 8 ∧ ∃ tail, l = concat (byte_bits <$> buf w) ++ tail ∧ length tail = n w ∧
    byte_bits (cur w) = tail ++ replicate (8 - n w) false.

Lemma shift_test v i : negb (Z.land (Z.shiftr v (Z.of_nat i)) 1 =? 0)%Z = Z.testbit v (Z.of_nat i).
Proof.
  change 1%Z with (Z.ones 1). rewrite Z.land_ones by lia. change (2 ^ 1)%Z with 2%Z.
  rewrite <- Z.bit0_mod, Z.shiftr_spec by lia. rewrite Z.add_0_l.
  by destruct (Z.testbit v (Z.of_nat i)).
Qed.

Lemma bits_of_lookup k v i : i < k → bits_of k v !! i = Some (Z.testbit v (Z.of_nat (k - 1 - i))).
Proof.
  revert i. induction k as [|k IH]; intros i Hi; [lia|]. cbn [bits_of].
  destruct i as [|i]; cbn; [do 3 f_equal; lia|]. rewrite IH by lia. do 3 f_equal. lia.
Qed.

Lemma byte_bits_set c tail m :
  byte_bits c = tail ++ replicate (S m) false → length tail = 7 - m → m ≤ 7 →
  byte_bits (Z.lor c (Z.shiftl 1 (7 - Z.of_nat (length tail)))) = tail ++ true :: replicate m false.
Proof.
  intros Hc Hlen Hm. apply list_eq_same_length with (n := 8).
  { rewrite length_app. cbn [length]. rewrite length_replicate. lia. }
  { apply length_bits_of. }
  intros i x y Hi Hx Hy.
  rewrite bits_of_lookup in Hx by lia. injection Hx as <-.
  assert (byte_bits c !! i = Some (Z.testbit c (Z.of_nat (8 - 1 - i)))) as Hci
    by (apply bits_of_lookup; lia).
  rewrite Hc in Hci.
  rewrite Z.lor_spec, Z.shiftl_spec by lia.
  destruct (Nat.lt_trichotomy i (length tail)) as [Hlt|[->|Hgt]].
  - rewrite lookup_app_l in Hy, Hci by done. simplify_eq.
    rewrite (Z.bits_above_log2 1) by (simpl; lia). by rewrite orb_false_r.
  - rewrite list_lookup_middle in Hy by done. injection Hy as <-.
    replace (Z.of_nat (7 - length tail) - (7 - Z.of_nat (length tail)))%Z with 0%Z by lia.
    change (Z.testbit 1 0) with true. by rewrite orb_true_r.
  - rewrite lookup_app_r in Hy, Hci by lia.
    rewrite lookup_replicate_2 in Hci by lia. injection Hci as <-.
    rewrite (Z.testbit_neg_r 1) by lia.
    destruct (i - length tail) as [|j] eqn:Hj; [lia|].
    change (replicate m false !! j = Some y) in Hy.
    rewrite lookup_replicate_2 in Hy by lia. by injection Hy as <-.
Qed.

Lemma holds_new : holds new [].
Proof. split; [cbn; lia|]. by exists []. Qed.

Lemma holds_push w l b : holds w l → holds (push w b) (l ++ [b]).
Proof.
  intros (Hn & tail & -> & Htail & Hcur). unfold push; cbn [cur n buf].
  set (c := if b then _ else _).
  assert (byte_bits c = tail ++ b :: replicate (7 - n w) false) as Hc.
  { replace (8 - n w) with (S (7 - n w)) in Hcur by lia. subst c. destruct b; [|done].
    rewrite <- Htail in *. apply byte_bits_set; [done|lia..]. }
  case_decide as H8.
  - split; [cbn; lia|]. exists []. cbn [flush_byte buf cur n]. split_and!; [|done|done].
    rewrite app_nil_r, fmap_app, concat_app. cbn [fmap list_fmap concat]. rewrite Hc, app_nil_r.
    replace (7 - n w) with 0 by lia. by rewrite app_assoc.
  - split; [cbn; lia|]. exists (tail ++ [b]). cbn [buf cur n]. split_and!.
    + by rewrite app_assoc.
    + rewrite length_app. cbn. lia.
    + rewrite Hc, <- app_assoc. cbn. do 2 f_equal; lia.
Qed.

Lemma holds_push_loop k w l v : holds w l → holds (push_loop k w v) (l ++ bits_of k v).
Proof.
  revert w l. induction k as [|k IH]; intros w l Hw; cbn; [by rewrite app_nil_r|].
  rewrite shift_test, cons_middle, app_assoc. by apply IH, holds_push.
Qed.

(** The finished buffer holds the bits pushed, padded with zeros to a byte. *)
Lemma holds_finish w l :
  holds w l → ∃ pad, concat (byte_bits <$> finish w) = l ++ replicate pad false ∧
    length l + pad = 8 * length (finish w) ∧ pad < 8.
Proof.
  intros (Hn & tail & -> & Htail & Hcur). unfold finish.
  assert (∀ b : bytes, length (concat (byte_bits <$> b)) = 8 * length b) as Hlen.
  { induction b as [|x b IH]; [done|]. rewrite fmap_cons. cbn [concat length].
    rewrite length_app, length_bits_of, IH. lia. }
  case_decide.
  - exists (8 - n w). rewrite fmap_app, concat_app. cbn [fmap list_fmap concat].
    rewrite Hcur, app_nil_r, <- app_assoc. split_and!; [done| |lia].
    rewrite !length_app, Hlen. cbn. lia.
  - exists 0. assert (tail = []) as -> by (apply nil_length_inv; lia). rewrite !app_nil_r.
    split_and!; [done| |lia]. rewrite Hlen. lia.
Qed.
End BitWriter.

(** ** [BitReader] *)

Module BitReader.

Record t := mk { buf : bytes; byte_pos : nat; bit_pos : nat }.

(** [BitReader::new] *)
Definition new (b : bytes) : t := mk b 0 0.

(** [BitReader::read_bit] *)
Definition read_bit (r : t) : option (bool * t) :=
  match buf r !! byte_pos r with
  | None => None
  | Some byte =>
      let bit := negb (Z.land (Z.shiftr byte (Z.of_nat (7 - bit_pos r))) 1 =? 0)%Z in
      Some (bit, if decide (S (bit_pos r) = 8) then mk (buf r) (S (byte_pos r)) 0
                 else mk (buf r) (byte_pos r) (S (bit_pos r)))
  end.

(** The loop of [read32] and [read64]; the shift drops bits above the width. *)
Fixpoint read_loop (w : Z) (bits : nat) (r : t) (val : Z) : option (Z * t) :=
  match bits with
  | O => Some (val, r)
  | S bits =>
      let val := wrap w (Z.shiftl val 1) in
      match read_bit r with
      | Some (true, r) => read_loop w bits r (Z.lor val 1)
      | Some (false, r) => read_loop w bits r val
      | None => None
      end
  end.

(** [BitReader::read32], [BitReader::read64] *)
Definition read32 (r : t) (bits : nat) : option (Z * t) := read_loop 32 bits r 0.
Definition read64 (r : t) (bits : nat) : option (Z * t) := read_loop 64 bits r 0.

(** The bits still to be read. *)
Definition pending (r : t) (l : list bool) : Prop :=
  bit_pos r < 8 ∧ l = drop (bit_pos r) (concat (byte_bits <$> drop (byte_pos r) (buf r))).

Lemma pending_new b : pending (new b) (concat (byte_bits <$> b)).
Proof. split; [cbn; lia|]. cbn. by rewrite !drop_0. Qed.

Lemma read_bit_cons r b l :
  pending r (b :: l) → ∃ r', read_bit r = Some (b, r') ∧ pending r' l.
Proof.
  intros [Hpos Hl]. unfold read_bit.
  destruct (buf r !! byte_pos r) as [x|] eqn:Hx.
  2:{ apply lookup_ge_None in Hx. rewrite (drop_ge (buf r)) in Hl by done. cbn [fmap list_fmap concat] in Hl.
      by rewrite drop_nil in Hl. }
  rewrite (drop_S _ _ _ Hx), fmap_cons in Hl. cbn [concat] in Hl.
  assert (byte_bits x !! bit_pos r = Some (Z.testbit x (Z.of_nat (7 - bit_pos r)))) as Hbit.
  { rewrite BitWriter.bits_of_lookup by lia. do 3 f_equal; lia. }
  pose proof (length_bits_of 8 x) as Hlen.
  remember (byte_bits x) as B eqn:HB.
  rewrite drop_app_le, (drop_S _ _ _ Hbit) in Hl by lia.
  injection Hl as -> ->. rewrite BitWriter.shift_test.
  eexists. split; [done|]. case_decide as H8.
  - split; [cbn; lia|]. cbn [buf byte_pos bit_pos]. rewrite H8, drop_0.
    by rewrite (drop_ge B) by lia.
  - split; [cbn; lia|]. cbn [buf byte_pos bit_pos].
    rewrite (drop_S _ _ _ Hx), fmap_cons. cbn [concat]. rewrite <- HB.
    by rewrite drop_app_le by lia.
Qed.

Lemma read_bit_nil r : pending r [] → read_bit r = None.
Proof.
  intros [Hpos Hl]. unfold read_bit. destruct (buf r !! byte_pos r) as [x|] eqn:Hx; [|done].
  rewrite (drop_S _ _ _ Hx), fmap_cons in Hl. cbn [concat] in Hl.
  apply (f_equal length) in Hl. rewrite length_drop, length_app, length_bits_of in Hl.
  cbn in Hl. lia.
Qed.

Lemma read_loop_ok w l rest r val :
  pending r (l ++ rest) → (0 ≤ w)%Z → (0 ≤ val)%Z →
  (val * 2 ^ Z.of_nat (length l) + 2 ^ Z.of_nat (length l) ≤ 2 ^ w)%Z →
  ∃ r', read_loop w (length l) r val = Some (foldl bit_step val l, r') ∧ pending r' rest.
Proof.
  revert r val. induction l as [|b l IH]; intros r val Hr Hw Hval Hb; [by exists r|].
  cbn [length read_loop app] in *. destruct (read_bit_cons _ _ _ Hr) as (r' & -> & Hr').
  rewrite Nat2Z.inj_succ, Z.pow_succ_r in Hb by lia.
  pose proof (Z.pow_pos_nonneg 2 (Z.of_nat (length l)) ltac:(lia) ltac:(lia)) as Hp.
  assert (wrap w (Z.shiftl val 1) = (2 * val)%Z) as ->.
  { rewrite Z.shiftl_mul_pow2 by lia. rewrite wrap_small; [lia|]. split; [lia|]. nia. }
  assert (Z.lor (2 * val) 1 = 2 * val + 1)%Z as Hlor.
  { rewrite Z.lor_comm. symmetry. by destruct val. }
  destruct b; cbn [foldl].
  - rewrite Hlor. change (2 * val + 1)%Z with (bit_step val true).
    apply IH; [done..| |]; unfold bit_step; cbn [Z.b2z]; nia.
  - replace (2 * val)%Z with (bit_step val false) by (unfold bit_step; simpl; lia).
    apply IH; [done..| |]; unfold bit_step; cbn [Z.b2z]; nia.
Qed.

Lemma read_bits w k v rest r :
  pending r (bits_of k v ++ rest) → (Z.of_nat k ≤ w)%Z →
  ∃ r', read_loop w k r 0 = Some (wrap (Z.of_nat k) v, r') ∧ pending r' rest.
Proof.
  intros Hr Hw.
  destruct (read_loop_ok w (bits_of k v) rest r 0 Hr) as (r' & Hl & Hr'); [lia|lia| |].
  { rewrite length_bits_of. rewrite Z.mul_0_l, Z.add_0_l. apply Z.pow_le_mono_r; lia. }
  rewrite length_bits_of in Hl. exists r'. split; [|done].
  rewrite Hl. do 2 f_equal. apply bits_val_bits_of.
Qed.
End BitReader.

(** ** [sign_extend] *)

(** [((val << shift) as i32) >> shift] with [shift = 32 - bits]. *)
Definition sign_extend (val : Z) (bits : Z) : Z :=
  let shift := (32 - bits)%Z in
  Z.shiftr (to_signed 32 (wrap 32 (Z.shiftl val shift))) shift.

Lemma sign_extend_ok d bits :
  (1 ≤ bits ≤ 32)%Z → (- 2 ^ (bits - 1) ≤ d < 2 ^ (bits - 1))%Z →
  sign_extend (wrap bits d) bits = d.
Proof.
  intros Hb Hd. unfold sign_extend.
  rewrite Z.shiftl_mul_pow2, Z.shiftr_div_pow2 by lia.
  assert (wrap 32 (wrap bits d * 2 ^ (32 - bits)) = wrap 32 (d * 2 ^ (32 - bits)))%Z as ->.
  { unfold wrap. replace (2 ^ 32)%Z with (2 ^ bits * 2 ^ (32 - bits))%Z.
    - rewrite !Zmult_mod_distr_r. by rewrite Zmod_mod.
    - rewrite <- Z.pow_add_r by lia. f_equal. lia. }
  rewrite to_signed_wrap, to_signed_small.
  - apply Z.div_mul. lia.
  - lia.
  - replace (2 ^ (32 - 1))%Z with (2 ^ (bits - 1) * 2 ^ (32 - bits))%Z.
    + nia.
    + rewrite <- Z.pow_add_r by lia. f_equal. lia.
Qed.

(** ** LEB128 ([encode_varint], [decode_varint], [varint_len]) *)

(** The [while value >= 0x80] loop.  A [u32] has at most five groups of seven
    bits, so five units of fuel are enough ([varint_roundtrip]). *)
Fixpoint encode_varint_loop (fuel : nat) (value : Z) : bytes :=
  match fuel with
  | O => []
  | S fuel =>
      if (128 <=? value)%Z
      then Z.lor (wrap 8 value) 128 :: encode_varint_loop fuel (Z.shiftr value 7)
      else [wrap 8 value]
  end.

(** [encode_varint]: appends to the output buffer. *)
Definition encode_varint (buf : bytes) (value : Z) : bytes := buf ++ encode_varint_loop 5 value.

(** The [loop] of [decode_varint]: [get_u8] panics on an empty buffer, and a
    shift by 32 or more is an arithmetic overflow. *)
Fixpoint decode_varint_loop (buf : bytes) (acc shift : Z) : result (Z * bytes) :=
  match buf with
  | [] => Panic
  | byte :: rest =>
      if (32 <=? shift)%Z then Panic
      else
        let acc := Z.lor acc (wrap 32 (Z.shiftl (Z.land byte 127) shift)) in
        if (Z.land byte 128 =? 0)%Z then mret (acc, rest)
        else decode_varint_loop rest acc (shift + 7)
  end.

(** [decode_varint] *)
Definition decode_varint (buf : bytes) : result (Z * bytes) := decode_varint_loop buf 0 0.

Fixpoint varint_len_loop (fuel : nat) (value : Z) (len : nat) : nat :=
  match fuel with
  | O => len
  | S fuel =>
      if (128 <=? value)%Z then varint_len_loop fuel (Z.shiftr value 7) (S len) else len
  end.

(** [varint_len] *)
Definition varint_len (value : Z) : nat := varint_len_loop 5 value 1.

Lemma land_shiftl_0 a x s : (0 ≤ s)%Z → (0 ≤ a < 2 ^ s)%Z → Z.land a (Z.shiftl x s) = 0%Z.
Proof.
  intros Hs Ha. apply Z.bits_inj'. intros i Hi. rewrite Z.land_spec, Z.bits_0.
  destruct (Z_lt_le_dec i s).
  - rewrite Z.shiftl_spec_low by done. apply andb_false_r.
  - rewrite <- (Z.mod_small a (2 ^ s)) by done.
    by rewrite Z.mod_pow2_bits_high by lia.
Qed.

Lemma lor_shiftl_add a x s :
  (0 ≤ s)%Z → (0 ≤ a < 2 ^ s)%Z → Z.lor a (Z.shiftl x s) = (a + x * 2 ^ s)%Z.
Proof.
  intros Hs Ha. pose proof (land_shiftl_0 a x s Hs Ha) as H0.
  rewrite <- Z.lxor_lor, <- Z.add_nocarry_lxor by done. by rewrite Z.shiftl_mul_pow2 by done.
Qed.

Lemma continued_byte v :
  Z.land (Z.lor (wrap 8 v) 128) 127 = (v mod 128)%Z ∧ Z.land (Z.lor (wrap 8 v) 128) 128 ≠ 0%Z.
Proof.
  split.
  - rewrite Z.land_lor_distr_l. change (Z.land 128 127) with 0%Z. rewrite Z.lor_0_r.
    change 127%Z with (Z.ones 7). rewrite Z.land_ones by lia. unfold wrap.
    change (2 ^ 8)%Z with (128 * 2)%Z. change (2 ^ 7)%Z with 128%Z.
    rewrite Z.rem_mul_r, Z.mul_comm, Z_mod_plus_full by lia. apply Zmod_mod.
  - rewrite Z.land_lor_distr_l, Z.land_diag, Z.lor_eq_0_iff. lia.
Qed.

Lemma final_byte v :
  (0 ≤ v < 128)%Z → wrap 8 v = v ∧ Z.land v 127 = v ∧ Z.land v 128 = 0%Z.
Proof.
  intros Hv. split_and!.
  - apply wrap_small. lia.
  - change 127%Z with (Z.ones 7). rewrite Z.land_ones by lia. apply Z.mod_small. lia.
  - change 128%Z with (Z.shiftl 1 7). apply land_shiftl_0; lia.
Qed.

Lemma decode_encode_varint fuel v acc rest :
  let shift := (35 - 7 * Z.of_nat fuel)%Z in
  1 ≤ fuel ≤ 5 → (0 ≤ v < 2 ^ (32 - shift))%Z → (0 ≤ acc < 2 ^ shift)%Z →
  decode_varint_loop (encode_varint_loop fuel v ++ rest) acc shift = Ok ((acc + v * 2 ^ shift)%Z, rest).
Proof.
  intros shift. revert v acc shift. induction fuel as [|fuel IH]; intros v acc shift Hf Hv Hacc; [lia|].
  cbn [encode_varint_loop]. subst shift.
  set (shift := (35 - 7 * Z.of_nat (S fuel))%Z) in *.
  assert (0 ≤ shift ≤ 28)%Z as Hs by lia.
  assert (∀ x, (0 ≤ x < 2 ^ (32 - shift))%Z → wrap 32 (Z.shiftl x shift) = Z.shiftl x shift) as Hwrap.
  { intros x Hx. apply wrap_small. rewrite Z.shiftl_mul_pow2 by lia.
    replace (2 ^ 32)%Z with (2 ^ (32 - shift) * 2 ^ shift)%Z; [nia|].
    rewrite <- Z.pow_add_r by lia. f_equal. lia. }
  destruct (Z.leb_spec 128 v) as [Hge|Hlt].
  - destruct (continued_byte v) as [Hlow Hcont]. pose proof (Z.mod_pos_bound v 128 ltac:(lia)) as Hm.
    pose proof (Z.mod_le v 128 ltac:(lia) ltac:(lia)) as Hmle.
    cbn [app decode_varint_loop]. rewrite Hlow.
    destruct (Z.leb_spec 32 shift); [lia|].
    destruct (Z.eqb_spec (Z.land (Z.lor (wrap 8 v) 128) 128) 0); [done|].
    rewrite Hwrap, lor_shiftl_add by lia.
    destruct fuel as [|fuel]; [cbn in shift; subst shift; cbn in Hv; lia|].
    assert (shift + 7 = 35 - 7 * Z.of_nat (S fuel))%Z as Hs7 by lia.
    rewrite Hs7. rewrite IH; [|lia| |].
    + rewrite <- Hs7, Z.pow_add_r by lia. rewrite Z.shiftr_div_pow2 by lia.
      change (2 ^ 7)%Z with 128%Z. do 2 f_equal.
      rewrite (Z.div_mod v 128) at 3 by lia. ring.
    + rewrite <- Hs7. rewrite Z.shiftr_div_pow2 by lia. split; [apply Z.div_pos; lia|].
      apply Z.div_lt_upper_bound; [lia|]. rewrite <- Z.pow_add_r by lia.
      replace (7 + (32 - (shift + 7)))%Z with (32 - shift)%Z by lia. lia.
    + rewrite <- Hs7, Z.pow_add_r by lia. change (2 ^ 7)%Z with 128%Z. nia.
  - destruct (final_byte v ltac:(lia)) as (-> & Hlow & Hfin).
    cbn [app decode_varint_loop]. rewrite Hlow, Hfin.
    destruct (Z.leb_spec 32 shift); [lia|]. cbn.
    rewrite Hwrap, lor_shiftl_add by lia. done.
Qed.

Lemma varint_len_loop_ok fuel v len :
  (0 ≤ v)%Z → (v < 2 ^ (7 * Z.of_nat fuel))%Z → 1 ≤ fuel →
  S (varint_len_loop fuel v len) = length (encode_varint_loop fuel v) + len.
Proof.
  revert v len. induction fuel as [|fuel IH]; intros v len Hv Hb Hf; [lia|].
  cbn [varint_len_loop encode_varint_loop]. destruct (Z.leb_spec 128 v); [|cbn; lia].
  destruct fuel as [|fuel]; [cbn in Hb; lia|].
  rewrite IH; [cbn; lia| | |lia].
  - rewrite Z.shiftr_div_pow2 by lia. apply Z.div_pos; lia.
  - rewrite Z.shiftr_div_pow2 by lia. apply Z.div_lt_upper_bound; [lia|].
    rewrite <- Z.pow_add_r by lia.
    replace (7 + 7 * Z.of_nat (S fuel))%Z with (7 * Z.of_nat (S (S fuel)))%Z by lia. done.
Qed.

Lemma varint_bytes fuel v : (0 ≤ v)%Z → is_bytes (encode_varint_loop fuel v).
Proof.
  revert v. induction fuel as [|fuel IH]; intros v Hv; [constructor|]. cbn.
  pose proof (wrap_range 8 v ltac:(lia)) as Hr.
  destruct (Z.leb_spec 128 v); [constructor|by apply Forall_singleton].
  - unfold is_u8. split; [apply Z.lor_nonneg; lia|].
    destruct (Z.eq_dec (Z.lor (wrap 8 v) 128) 0%Z) as [->|Hne]; [done|].
    apply Z.log2_lt_pow2; [pose proof (Z.lor_nonneg (wrap 8 v) 128); lia|].
    rewrite Z.log2_lor by lia. apply Z.max_lub_lt; [|done].
    destruct (Z.eq_dec (wrap 8 v) 0%Z) as [->|]; [done|]. apply Z.log2_lt_pow2; lia.
  - apply IH. by apply Z.shiftr_nonneg.
Qed.

Lemma decode_varint_app v rest :
  is_u32 v → decode_varint (encode_varint_loop 5 v ++ rest) = Ok (v, rest).
Proof.
  intros Hv. unfold decode_varint.
  change 0%Z with (35 - 7 * Z.of_nat 5)%Z at 2. rewrite decode_encode_varint; [|lia|done..].
  do 2 f_equal. cbn. lia.
Qed.

Lemma varint_len_ok v : is_u32 v → varint_len v = length (encode_varint_loop 5 v).
Proof.
  intros Hv. unfold is_u32 in Hv. unfold varint_len.
  pose proof (varint_len_loop_ok 5 v 1 ltac:(lia) ltac:(cbn; lia) ltac:(lia)). lia.
Qed.

(** ** Properties *)

(** A [u32] written by [encode_varint] is read back by [decode_varint] with
    the bytes that follow it untouched; the encoding takes [varint_len] bytes,
    between one and five. *)
Theorem varint_roundtrip (v : Z) (buf rest : bytes) :
  is_u32 v →
  ∃ enc, encode_varint buf v = buf ++ enc ∧ decode_varint (enc ++ rest) = Ok (v, rest) ∧
    varint_len v = length enc ∧ 1 ≤ length enc ≤ 5 ∧ is_bytes enc.
Proof.
  intros Hv. eexists. split; [reflexivity|]. split; [by apply decode_varint_app|].
  split; [by apply varint_len_ok|]. split; [|apply varint_bytes; apply Hv].
  cbn. repeat match goal with |- context [if ?b then _ else _] => destruct b end; cbn; lia.
Qed.

Lemma varint_roundtrip_witness :
  ∃ enc, encode_varint [] 300 = [] ++ enc ∧ decode_varint (enc ++ [9%Z]) = Ok (300%Z, [9%Z]) ∧
    varint_len 300 = length enc ∧ 1 ≤ length enc ≤ 5 ∧ is_bytes enc.
Proof. apply (varint_roundtrip 300 [] [9%Z]). split; reflexivity || discriminate. Defined.

