(* ===== verification/SeqTracker.v ===== *)
(** * The sequence tracker ([seq_tracker.rs])

    A bounded table that relates sequence numbers to wall-clock timestamps, kept
    in the manifest in a Gorilla (delta-of-delta) encoding.  The retention
    iterator uses its lookups to decide which row versions are old enough to drop. *)

From S2P Require Export Bits.

(** ** The clock type

    [chrono::DateTime<Utc>] is third-party code: an abstract type with the three
    functions the tracker uses.  [from_timestamp] fails outside chrono's range;
    what it builds has the seconds it was given. *)

Class Chrono := {
  DateTime : Type;
  timestamp : DateTime → Z;
  timestamp_millis : DateTime → Z;
  from_timestamp : Z → option DateTime;
  timestamp_from s d : from_timestamp s = Some d → timestamp d = s;
}.

(** A concrete clock: whole seconds. *)
Definition seconds_chrono : Chrono := {|
  DateTime := Z;
  timestamp := id;
  timestamp_millis s := (s * 1000)%Z;
  from_timestamp := Some;
  timestamp_from s d H := match H in _ = o return match o with Some d => d = s | None => True end
                          with eq_refl => eq_refl end;
|}.

(** ** State *)

Definition DEFAULT_CAPACITY : Z := 8192.
Definition DEFAULT_INTERVAL_SECS : Z := 60.
Definition SERIALIZATION_VERSION_V1 : Z := 1.
Definition SERIALIZATION_VERSION_V2 : Z := 2.

Inductive FindOption := RoundUp | RoundDown.

Record SequenceTracker := mkTracker {
  sequence_numbers : list Z;
  timestamps : list Z;
  capacity : Z;
  interval_secs : Z;
  last_recorded_ts : option Z;
}.

(** [SequenceTracker::with_config], [SequenceTracker::new] *)
Definition tracker_with_config (capacity interval_secs : Z) : SequenceTracker :=
  mkTracker [] [] capacity interval_secs None.
Definition tracker_new : SequenceTracker :=
  tracker_with_config DEFAULT_CAPACITY DEFAULT_INTERVAL_SECS.

(** The loop [(0..len).step_by(2)]: elements at even positions. *)
Fixpoint every_other {A} (l : list A) : list A :=
  match l with
  | [] => []
  | [x] => [x]
  | x :: _ :: l => x :: every_other l
  end.

(** [SequenceTracker::downsample] *)
Definition downsample (t : SequenceTracker) : SequenceTracker :=
  mkTracker (every_other (sequence_numbers t)) (every_other (timestamps t))
    (capacity t) (interval_secs t) (last_recorded_ts t).

(** [i64::wrapping_sub], [i64::wrapping_add] *)
Definition wrapping_sub (a b : Z) : Z := to_signed 64 (a - b).
Definition wrapping_add (a b : Z) : Z := to_signed 64 (a + b).

Definition at_least_last (l : list Z) (x : Z) : bool :=
  match last l with Some y => bool_decide (y ≤ x)%Z | None => true end.

(** [SequenceTracker::insert], on the seconds of the timestamp.  The subtraction
    wraps, as it does in a release build. *)
Definition insert_secs {E} (t : SequenceTracker) (s ts_secs : Z) : outcome E SequenceTracker :=
  if match last_recorded_ts t with
     | Some last_ts => bool_decide (wrapping_sub ts_secs last_ts < to_signed 64 (interval_secs t))%Z
     | None => false
     end
  then mret t
  else
    _ ← rust_assert (at_least_last (sequence_numbers t) s);
    _ ← rust_assert (at_least_last (timestamps t) ts_secs);
    let t := mkTracker (sequence_numbers t ++ [s]) (timestamps t ++ [ts_secs])
               (capacity t) (interval_secs t) (Some ts_secs) in
    mret (if decide (capacity t < Z.of_nat (length (sequence_numbers t)))%Z
          then downsample t else t).

(** [slice::binary_search] of the standard library: the probe loop keeps
    [base] at an element that is not above the target. *)
Fixpoint binary_search_loop (fuel : nat) (l : list Z) (x : Z) (base size : nat) : nat :=
  match fuel with
  | O => base
  | S fuel =>
      if decide (1 < size) then
        let half := size / 2 in
        let mid := base + half in
        let base := match l !! mid with
                    | Some m => if (x <? m)%Z then base else mid
                    | None => base
                    end in
        binary_search_loop fuel l x base (size - half)
      else base
  end.

Inductive search_result := Found (i : nat) | NotFound (i : nat).

Definition binary_search (l : list Z) (x : Z) : search_result :=
  let base := binary_search_loop (length l) l x 0 (length l) in
  match l !! base with
  | None => NotFound 0
  | Some m =>
      if (m =? x)%Z then Found base else NotFound (if (m <? x)%Z then S base else base)
  end.

Section with_chrono.
  Context `{Chrono}.

(** [SequenceTracker::insert] *)
Definition insert {E} (t : SequenceTracker) (s : Z) (ts : DateTime) : outcome E SequenceTracker :=
  insert_secs t s (timestamp ts).

Fixpoint extend_loop {E} (t : SequenceTracker) (entries : list (Z * Z)) : outcome E SequenceTracker :=
  match entries with
  | [] => mret t
  | (s, ts_secs) :: entries =>
      t ← match from_timestamp ts_secs with
          | Some ts => insert t s ts
          | None => mret t
          end;
      extend_loop t entries
  end.

(** [SequenceTracker::extend_from] *)
Definition extend_from {E} (t other : SequenceTracker) : outcome E SequenceTracker :=
  if decide (sequence_numbers other = []) then mret t
  else extend_loop t (zip (sequence_numbers other) (timestamps other)).

(** [SequenceTracker::find_ts]; an index past the end panics. *)
Definition find_ts {E} (t : SequenceTracker) (s : Z) (opt : FindOption) : outcome E (option DateTime) :=
  if decide (sequence_numbers t = []) then mret None
  else
    match binary_search (sequence_numbers t) s with
    | Found idx => ts ← index (timestamps t) idx; mret (from_timestamp ts)
    | NotFound idx =>
        match opt with
        | RoundUp =>
            if decide (idx < length (sequence_numbers t))
            then ts ← index (timestamps t) idx; mret (from_timestamp ts)
            else mret None
        | RoundDown =>
            if decide (0 < idx)
            then ts ← index (timestamps t) (idx - 1); mret (from_timestamp ts)
            else mret None
        end
    end.

(** [SequenceTracker::find_seq] *)
Definition find_seq {E} (t : SequenceTracker) (ts : DateTime) (opt : FindOption) : outcome E (option Z) :=
  if decide (timestamps t = []) then mret None
  else
    match binary_search (timestamps t) (timestamp ts) with
    | Found idx => s ← index (sequence_numbers t) idx; mret (Some s)
    | NotFound idx =>
        match opt with
        | RoundUp =>
            if decide (idx < length (timestamps t))
            then s ← index (sequence_numbers t) idx; mret (Some s)
            else mret None
        | RoundDown =>
            if decide (0 < idx)
            then s ← index (sequence_numbers t) (idx - 1); mret (Some s)
            else mret None
        end
    end.
End with_chrono.

(** ** Gorilla encoding *)

(** [i32::try_from(dod).is_err()] *)
Definition outside_i32 (z : Z) : bool := negb ((-2147483648 <=? z)%Z && (z <=? 2147483647)%Z).

Record DeltaSeries := mkSeries {
  first : option Z;
  dods : list Z;
  needs_wide_fallback : bool;
}.

Fixpoint series_loop (values : list Z) (prev_val prev_delta : Z) (dods : list Z) (wide : bool)
    : list Z * bool :=
  match values with
  | [] => (dods, wide)
  | val :: values =>
      let delta := wrapping_sub val prev_val in
      let dod := wrapping_sub delta prev_delta in
      series_loop values val delta (dods ++ [dod]) (wide || outside_i32 dod)
  end.

(** [DeltaSeries::new] *)
Definition series_new (values : list Z) : DeltaSeries :=
  match values with
  | [] => mkSeries None [] false
  | first :: values =>
      let '(dods, wide) := series_loop values first 0 [] false in
      mkSeries (Some first) dods wide
  end.

(** [DeltaSeries::len] *)
Definition series_len (s : DeltaSeries) : nat :=
  length (dods s) + match first s with Some _ => 1 | None => 0 end.

(** One arm of the match in [encode_gorilla_i64]. *)
Definition encode_dod {E} (w : BitWriter.t) (wide : bool) (dod : Z) : outcome E BitWriter.t :=
  if (dod =? 0)%Z then mret (BitWriter.push w false)
  else if (-63 <=? dod)%Z && (dod <=? 63)%Z then
    mret (BitWriter.push32 (BitWriter.push32 w 2 2) (Z.land (wrap 32 dod) 127) 7)
  else if (-255 <=? dod)%Z && (dod <=? 255)%Z then
    mret (BitWriter.push32 (BitWriter.push32 w 6 3) (Z.land (wrap 32 dod) 511) 9)
  else if (-2047 <=? dod)%Z && (dod <=? 2047)%Z then
    mret (BitWriter.push32 (BitWriter.push32 w 14 4) (Z.land (wrap 32 dod) 4095) 12)
  else if wide then
    mret (BitWriter.push64 (BitWriter.push32 w 15 4) (wrap 64 dod) 64)
  else
    _ ← rust_assert (negb (outside_i32 dod));
    mret (BitWriter.push32 (BitWriter.push32 w 15 4) (wrap 32 dod) 32).

Fixpoint encode_dods {E} (w : BitWriter.t) (wide : bool) (dods : list Z) : outcome E BitWriter.t :=
  match dods with
  | [] => mret w
  | dod :: dods => w ← encode_dod w wide dod; encode_dods w wide dods
  end.

(** [encode_gorilla_i64] *)
Definition encode_gorilla_i64 {E} (series : DeltaSeries) (wide : bool) : outcome E bytes :=
  let w := BitWriter.push32 BitWriter.new (wrap 32 (Z.of_nat (series_len series))) 32 in
  w ← match first series with
      | Some first => encode_dods (BitWriter.push64 w (wrap 64 first) 64) wide (dods series)
      | None => mret w
      end;
  mret (BitWriter.finish w).

(** [u32::to_le_bytes] *)
Definition to_le_bytes (n : nat) (z : Z) : bytes := reverse (put_be n z).

(** [encode_sequence_tracker]; the sequence numbers are cast to [i64]. *)
Definition encode_sequence_tracker {E} (t : SequenceTracker) : outcome E bytes :=
  let sequences := series_new (to_signed 64 <$> sequence_numbers t) in
  let tss := series_new (timestamps t) in
  let wide := needs_wide_fallback sequences || needs_wide_fallback tss in
  let version := if wide then SERIALIZATION_VERSION_V2 else SERIALIZATION_VERSION_V1 in
  let len := wrap 32 (Z.of_nat (length (sequence_numbers t))) in
  enc_seq ← encode_gorilla_i64 sequences wide;
  enc_ts ← encode_gorilla_i64 tss wide;
  mret ([version] ++ to_le_bytes 4 len ++ enc_seq ++ enc_ts).

(** ** Gorilla decoding *)

(** The error strings of the decoder. *)
Inductive DecodeError :=
| EmptyBuffer
| UnsupportedVersion (version : Z)
| BufferTooSmallForLength
| CountMismatch (expected got : nat)
| ExpectedCountFirst
| UnexpectedEof.

Definition GORILLA_PREFIX_BYTES : list nat := [0; 7; 9; 12; 32].
Definition GORILLA_FALLBACK_PREFIX : nat := 4.

(** The [while count < 4] loop; three units of fuel are exactly enough. *)
Fixpoint read_prefix (fuel : nat) (r : BitReader.t) (count bits_read : nat)
    : outcome DecodeError (nat * nat * BitReader.t) :=
  match fuel with
  | O => mret (count, bits_read, r)
  | S fuel =>
      match BitReader.read_bit r with
      | Some (true, r) => read_prefix fuel r (S count) (S bits_read)
      | Some (false, r) => mret (count, S bits_read, r)
      | None => Err UnexpectedEof
      end
  end.

(** The payload of a delta-of-delta after [count] prefix ones. *)
Definition decode_payload (r : BitReader.t) (wide : bool) (count bits_read : nat)
    : outcome DecodeError (Z * nat * BitReader.t) :=
  if bool_decide (count = GORILLA_FALLBACK_PREFIX) && wide then
    '(raw, r) ← ok_or UnexpectedEof (BitReader.read64 r 64);
    mret (to_signed 64 raw, bits_read + 64, r)
  else
    bits ← index GORILLA_PREFIX_BYTES count;
    '(raw, r) ← ok_or UnexpectedEof (BitReader.read32 r bits);
    mret (sign_extend raw (Z.of_nat bits), bits_read + bits, r).

(** The body that reads one delta-of-delta. *)
Definition decode_dod (r : BitReader.t) (wide : bool) (bits_read : nat)
    : outcome DecodeError (Z * nat * BitReader.t) :=
  '(prefix, r) ← ok_or UnexpectedEof (BitReader.read_bit r);
  let bits_read := S bits_read in
  if negb prefix then mret (0%Z, bits_read, r)
  else
    '(count, bits_read, r) ← read_prefix 3 r 1 bits_read;
    decode_payload r wide count bits_read.

(** The [while remaining > 0] loop. *)
Fixpoint decode_loop (remaining : nat) (r : BitReader.t) (wide : bool) (bits_read : nat)
    (prev_val prev_delta : Z) (values : list Z) : outcome DecodeError (nat * list Z) :=
  match remaining with
  | O => mret (bits_read, values)
  | S remaining =>
      '(dod, bits_read, r) ← decode_dod r wide bits_read;
      let delta := wrapping_add prev_delta dod in
      let val := wrapping_add prev_val delta in
      decode_loop remaining r wide bits_read val delta (values ++ [val])
  end.

Definition div_ceil (a b : nat) : nat := (a + (b - 1)) / b.

(** [decode_gorilla_i64_with_length] *)
Definition decode_gorilla_i64_with_length (buf : bytes) (wide : bool)
    : outcome DecodeError (nat * list Z) :=
  '(remaining, r) ← ok_or ExpectedCountFirst (BitReader.read32 (BitReader.new buf) 32);
  '(bits_read, values) ←
    (if decide (0 < remaining)%Z then
      '(first_bits, r) ← ok_or UnexpectedEof (BitReader.read64 r 64);
      let first := to_signed 64 first_bits in
      decode_loop (Z.to_nat (remaining - 1)) r wide (32 + 64) first 0 [first]
    else mret (32, []));
  mret (div_ceil bits_read 8, values).

(** [decode_sequence_numbers_with_length], [decode_timestamps] *)
Definition decode_sequence_numbers_with_length (buf : bytes) (wide : bool)
    : outcome DecodeError (nat * list Z) :=
  '(consumed, values) ← decode_gorilla_i64_with_length buf wide;
  mret (consumed, wrap 64 <$> (values : list Z)).
Definition decode_timestamps (buf : bytes) (wide : bool) : outcome DecodeError (list Z) :=
  '(_, values) ← decode_gorilla_i64_with_length buf wide; mret values.

Definition decode_version (version : Z) : outcome DecodeError bool :=
  if (version =? SERIALIZATION_VERSION_V1)%Z then mret false
  else if (version =? SERIALIZATION_VERSION_V2)%Z then mret true
  else Err (UnsupportedVersion version).

(** [decode_sequence_tracker] *)
Definition decode_sequence_tracker (buf : bytes) : outcome DecodeError SequenceTracker :=
  if decide (buf = []) then Err EmptyBuffer
  else
    version ← index buf 0;
    wide ← decode_version version;
    if decide (length buf < 1 + 4) then Err BufferTooSmallForLength
    else
      let len := Z.to_nat (be_val (reverse (take 4 (drop 1 buf)))) in
      buf ← slice_from 5 buf;
      '(encoded_seq_len, seqs) ← decode_sequence_numbers_with_length buf wide;
      if decide (length seqs ≠ len) then Err (CountMismatch len (length seqs))
      else
        buf ← slice_from encoded_seq_len buf;
        tss ← decode_timestamps buf wide;
        if decide (length tss ≠ len) then Err (CountMismatch len (length tss))
        else mret (mkTracker seqs tss DEFAULT_CAPACITY DEFAULT_INTERVAL_SECS (last tss)).

(** ** The codec is exact *)

Lemma wrapping_add_sub a b : is_i64 b → wrapping_add a (wrapping_sub b a) = b.
Proof.
  intros Hb. unfold wrapping_add, wrapping_sub.
  rewrite <- (to_signed_small 64 b) at 2 by (done || lia). apply to_signed_congr.
  assert (∀ x y, wrap 64 (x + to_signed 64 y) = wrap 64 (x + y)) as Hadd.
  { intros x y. unfold wrap. rewrite Zplus_mod. fold (wrap 64 (to_signed 64 y)).
    rewrite wrap_to_signed by lia. unfold wrap. by rewrite <- Zplus_mod. }
  rewrite Hadd. f_equal. lia.
Qed.

Lemma wrapping_sub_i64 a b : is_i64 (wrapping_sub a b).
Proof. apply (to_signed_range 64). lia. Qed.

Section dod_codec.
  Context (wide : bool).

(** The bits of one delta-of-delta. *)
Definition dod_bits (d : Z) : list bool :=
  if (d =? 0)%Z then [false]
  else if (-63 <=? d)%Z && (d <=? 63)%Z then [true; false] ++ bits_of 7 d
  else if (-255 <=? d)%Z && (d <=? 255)%Z then [true; true; false] ++ bits_of 9 d
  else if (-2047 <=? d)%Z && (d <=? 2047)%Z then [true; true; true; false] ++ bits_of 12 d
  else if wide then [true; true; true; true] ++ bits_of 64 d
  else [true; true; true; true] ++ bits_of 32 d.

Definition encodable (d : Z) : Prop := is_i64 d ∧ (wide = false → outside_i32 d = false).

Lemma bits_of_mask (k : nat) d :
  k ≤ 32 → bits_of k (Z.land (wrap 32 d) (Z.ones (Z.of_nat k))) = bits_of k d.
Proof.
  intros Hk. rewrite Z.land_ones by lia. change (wrap 32 d mod 2 ^ Z.of_nat k)%Z
    with (wrap (Z.of_nat k) (wrap 32 d)). rewrite !bits_of_wrap by lia. done.
Qed.

Lemma encode_dod_holds {E} w l d :
  BitWriter.holds w l → encodable d →
  ∃ w', encode_dod (E:=E) w wide d = Ok w' ∧ BitWriter.holds w' (l ++ dod_bits d).
Proof.
  intros Hw [_ Hd]. unfold encode_dod, dod_bits, BitWriter.push32, BitWriter.push64.
  assert (∀ p k v j, BitWriter.holds (BitWriter.push_loop j (BitWriter.push_loop k w p) v)
            (l ++ bits_of k p ++ bits_of j v)) as Hpush.
  { intros. rewrite app_assoc. by apply BitWriter.holds_push_loop, BitWriter.holds_push_loop. }
  destruct (d =? 0)%Z; [eexists; split; [done|]; by apply BitWriter.holds_push|].
  destruct (_ && _); [eexists; split; [done|]|].
  { rewrite <- (bits_of_mask 7 d) by lia. exact (Hpush 2%Z 2 _ 7). }
  destruct (_ && _); [eexists; split; [done|]|].
  { rewrite <- (bits_of_mask 9 d) by lia. exact (Hpush 6%Z 3 _ 9). }
  destruct (_ && _); [eexists; split; [done|]|].
  { rewrite <- (bits_of_mask 12 d) by lia. exact (Hpush 14%Z 4 _ 12). }
  destruct wide; [eexists; split; [done|]|].
  { rewrite <- (bits_of_wrap 64 64 d) by lia. exact (Hpush 15%Z 4 _ 64). }
  rewrite Hd by done. cbn [negb rust_assert mbind outcome_bind]. eexists. split; [done|].
  rewrite <- (bits_of_wrap 32 32 d) by lia. exact (Hpush 15%Z 4 _ 32).
Qed.

Lemma read_prefix_stop j fuel r count n rest :
  j < fuel → BitReader.pending r (replicate j true ++ false :: rest) →
  ∃ r', read_prefix fuel r count n = Ok (count + j, n + S j, r') ∧ BitReader.pending r' rest.
Proof.
  revert fuel r count n. induction j as [|j IH]; intros [|fuel] r count n Hj Hr; try lia;
    destruct (BitReader.read_bit_cons _ _ _ Hr) as (r1 & Hbit & Hr1);
    cbn [read_prefix]; rewrite Hbit.
  - eexists. split; [|exact Hr1]. unfold mret, outcome_ret. do 3 f_equal; lia.
  - destruct (IH fuel r1 (S count) (S n)) as (r2 & -> & Hr2); [lia|exact Hr1|].
    eexists. split; [|exact Hr2]. do 3 f_equal; lia.
Qed.

Lemma read_prefix_full fuel r count n rest :
  BitReader.pending r (replicate fuel true ++ rest) →
  ∃ r', read_prefix fuel r count n = Ok (count + fuel, n + fuel, r') ∧ BitReader.pending r' rest.
Proof.
  revert r count n. induction fuel as [|fuel IH]; intros r count n Hr; cbn [read_prefix].
  - eexists. split; [|exact Hr]. unfold mret, outcome_ret. do 3 f_equal; lia.
  - destruct (BitReader.read_bit_cons _ _ _ Hr) as (r1 & -> & Hr1).
    destruct (IH r1 (S count) (S n) Hr1) as (r2 & -> & Hr2).
    eexists. split; [|exact Hr2]. do 3 f_equal; lia.
Qed.

(** A reader that, at the payload [P], returns [raw] and leaves what follows. *)
Definition reads (read : BitReader.t → option (Z * BitReader.t)) (P : list bool) (raw : Z) : Prop :=
  ∀ r rest, BitReader.pending r (P ++ rest) →
    ∃ r', read r = Some (raw, r') ∧ BitReader.pending r' rest.

Lemma decode_payload_small b r count k raw r' n :
  bool_decide (count = GORILLA_FALLBACK_PREFIX) && b = false →
  index (E:=DecodeError) GORILLA_PREFIX_BYTES count = Ok k →
  BitReader.read32 r k = Some (raw, r') →
  decode_payload r b count n = Ok (sign_extend raw (Z.of_nat k), n + k, r').
Proof.
  intros Hc Hk Hread. unfold decode_payload. rewrite Hc, Hk. run. by rewrite Hread.
Qed.

Lemma decode_payload_wide r raw r' n :
  BitReader.read64 r 64 = Some (raw, r') →
  decode_payload r true 4 n = Ok (to_signed 64 raw, n + 64, r').
Proof.
  intros Hread. unfold decode_payload.
  rewrite bool_decide_eq_true_2 by reflexivity. cbn [andb]. by rewrite Hread.
Qed.

Lemma decode_dod_small j k P raw r rest n :
  j < 3 → index (E:=DecodeError) GORILLA_PREFIX_BYTES (S j) = Ok k →
  reads (λ r, BitReader.read32 r k) P raw →
  BitReader.pending r (true :: replicate j true ++ false :: P ++ rest) →
  ∃ r', decode_dod r wide n = Ok (sign_extend raw (Z.of_nat k), n + (j + 2 + k), r') ∧
    BitReader.pending r' rest.
Proof.
  intros Hj Hk HP Hr. unfold decode_dod.
  destruct (BitReader.read_bit_cons _ _ _ Hr) as (r1 & -> & Hr1). run. cbn [negb].
  destruct (read_prefix_stop j 3 r1 1 (S n) _ Hj Hr1) as (r2 & -> & Hr2). run.
  destruct (HP _ _ Hr2) as (r3 & Hread & Hr3). exists r3. split; [|exact Hr3].
  rewrite (decode_payload_small _ _ (1 + j) k raw r3); [do 3 f_equal; lia| |done..].
  rewrite bool_decide_eq_false_2; [done|unfold GORILLA_FALLBACK_PREFIX; lia].
Qed.

Lemma decode_dod_large r rest n :
  BitReader.pending r (true :: true :: true :: true :: rest) →
  ∃ r', decode_dod r wide n = decode_payload r' wide 4 (n + 4) ∧ BitReader.pending r' rest.
Proof.
  intros Hr. unfold decode_dod.
  destruct (BitReader.read_bit_cons _ _ _ Hr) as (r1 & -> & Hr1). run. cbn [negb].
  destruct (read_prefix_full 3 r1 1 (S n) _ Hr1) as (r2 & -> & Hr2). run.
  exists r2. split; [|exact Hr2]. f_equal. lia.
Qed.

Lemma reads_bits32 k d : k ≤ 32 →
  reads (λ r, BitReader.read32 r k) (bits_of k d) (wrap (Z.of_nat k) d).
Proof. intros Hk r rest Hr. apply (BitReader.read_bits 32 k d rest r Hr). lia. Qed.

Lemma reads_bits64 d : reads (λ r, BitReader.read64 r 64) (bits_of 64 d) (wrap 64 d).
Proof. intros r rest Hr. apply (BitReader.read_bits 64 64 d rest r Hr). lia. Qed.

Lemma decode_dod_ok r d rest n :
  encodable d → BitReader.pending r (dod_bits d ++ rest) →
  ∃ r', decode_dod r wide n = Ok (d, n + length (dod_bits d), r') ∧ BitReader.pending r' rest.
Proof.
  intros [Hi64 Hd]. unfold dod_bits.
  destruct (Z.eqb_spec d 0) as [->|H0].
  { intros Hr. destruct (BitReader.read_bit_cons _ _ _ Hr) as (r1 & Hbit & Hr1).
    exists r1. split; [|exact Hr1]. unfold decode_dod. rewrite Hbit. run. cbn [negb length].
    do 3 f_equal. lia. }
  destruct ((-63 <=? d)%Z && (d <=? 63)%Z) eqn:H1;
    [|destruct ((-255 <=? d)%Z && (d <=? 255)%Z) eqn:H2;
      [|destruct ((-2047 <=? d)%Z && (d <=? 2047)%Z) eqn:H3]].
  - rewrite length_app, length_bits_of, <- app_assoc. intros Hr.
    destruct (decode_dod_small 0 7 _ _ r rest n ltac:(lia) eq_refl (reads_bits32 7 d ltac:(lia)) Hr)
      as (r' & -> & Hr').
    exists r'. rewrite sign_extend_ok by lia. done.
  - rewrite length_app, length_bits_of, <- app_assoc. intros Hr.
    destruct (decode_dod_small 1 9 _ _ r rest n ltac:(lia) eq_refl (reads_bits32 9 d ltac:(lia)) Hr)
      as (r' & -> & Hr').
    exists r'. rewrite sign_extend_ok by lia. done.
  - rewrite length_app, length_bits_of, <- app_assoc. intros Hr.
    destruct (decode_dod_small 2 12 _ _ r rest n ltac:(lia) eq_refl (reads_bits32 12 d ltac:(lia)) Hr)
      as (r' & -> & Hr').
    exists r'. rewrite sign_extend_ok by lia. done.
  - clear H0 H1 H2 H3. destruct wide eqn:Hwide;
      rewrite length_app, length_bits_of, <- app_assoc; intros Hr;
      destruct (decode_dod_large r _ n Hr) as (r1 & Hdec & Hr1); rewrite Hwide in Hdec;
      rewrite Hdec; cbn [length].
    + destruct (reads_bits64 d r1 rest Hr1) as (r2 & Hread & Hr2). exists r2. split; [|exact Hr2].
      rewrite (decode_payload_wide _ _ _ _ Hread), to_signed_wrap, to_signed_small by (done || lia).
      do 3 f_equal. lia.
    + destruct (reads_bits32 32 d ltac:(lia) r1 rest Hr1) as (r2 & Hread & Hr2).
      exists r2. split; [|exact Hr2].
      specialize (Hd eq_refl). apply negb_false_iff in Hd. rewrite andb_true_iff, !Z.leb_le in Hd.
      rewrite (decode_payload_small false r1 4 32 _ r2 _ (andb_false_r _) eq_refl Hread), sign_extend_ok by lia.
      do 3 f_equal. lia.
Qed.

(** The deltas of deltas of a series, without the accumulators of the loop. *)
Fixpoint dods_of (prev_val prev_delta : Z) (values : list Z) : list Z :=
  match values with
  | [] => []
  | val :: values =>
      let delta := wrapping_sub val prev_val in
      wrapping_sub delta prev_delta :: dods_of val delta values
  end.

Lemma series_loop_spec values p d acc w :
  series_loop values p d acc w =
    (acc ++ dods_of p d values, w || existsb outside_i32 (dods_of p d values)).
Proof.
  revert p d acc w. induction values as [|v values IH]; intros p d acc w; cbn [series_loop dods_of].
  - by rewrite app_nil_r, orb_false_r.
  - rewrite IH. cbn [existsb]. by rewrite <- app_assoc, orb_assoc.
Qed.

Lemma dods_of_i64 values p d : Forall is_i64 (dods_of p d values).
Proof.
  revert p d. induction values as [|v values IH]; intros p d; cbn [dods_of]; constructor;
    [apply wrapping_sub_i64|apply IH].
Qed.

Lemma length_dods_of values p d : length (dods_of p d values) = length values.
Proof. revert p d. induction values as [|v values IH]; intros p d; cbn; auto. Qed.

Lemma encodable_dods l :
  Forall is_i64 l → (wide = false → existsb outside_i32 l = false) → Forall encodable l.
Proof.
  induction 1 as [|d l Hd Hl IH]; intros Hw; constructor.
  - split; [done|]. intros Hf. specialize (Hw Hf). cbn in Hw. by apply orb_false_iff in Hw as [].
  - apply IH. intros Hf. specialize (Hw Hf). cbn in Hw. by apply orb_false_iff in Hw as [].
Qed.

Lemma encode_dods_holds {E} w l ds :
  BitWriter.holds w l → Forall encodable ds →
  ∃ w', encode_dods (E:=E) w wide ds = Ok w' ∧ BitWriter.holds w' (l ++ concat (dod_bits <$> ds)).
Proof.
  intros Hw Hds. revert w l Hw. induction Hds as [|d ds Hd Hds IH]; intros w l Hw.
  - exists w. split; [done|]. by rewrite fmap_nil, app_nil_r.
  - destruct (encode_dod_holds (E:=E) w l d Hw Hd) as (w1 & Hw1 & Hh1).
    destruct (IH _ _ Hh1) as (w2 & Hw2 & Hh2). exists w2. cbn [encode_dods]. rewrite Hw1. run.
    split; [done|]. rewrite fmap_cons. cbn [concat]. by rewrite app_assoc.
Qed.

Lemma decode_loop_ok values r rest n p d acc :
  Forall is_i64 values → is_i64 p → is_i64 d → Forall encodable (dods_of p d values) →
  BitReader.pending r (concat (dod_bits <$> dods_of p d values) ++ rest) →
  decode_loop (length values) r wide n p d acc =
    Ok (n + length (concat (dod_bits <$> dods_of p d values)), acc ++ values).
Proof.
  revert r n p d acc. induction values as [|v values IH]; intros r n p d acc Hv Hp Hd Henc Hr.
  - cbn. unfold mret, outcome_ret. rewrite app_nil_r. do 2 f_equal. lia.
  - cbn [dods_of] in Henc, Hr |- *. rewrite fmap_cons in Hr |- *.
    cbn [concat length decode_loop] in Hr |- *.
    apply Forall_cons in Hv as [Hv Hvs]. apply Forall_cons in Henc as [Hdod Henc].
    rewrite <- app_assoc in Hr.
    destruct (decode_dod_ok r _ _ n Hdod Hr) as (r' & -> & Hr'). run.
    rewrite wrapping_add_sub by apply wrapping_sub_i64. rewrite wrapping_add_sub by done.
    rewrite IH; [|done..|apply wrapping_sub_i64|done|done].
    rewrite length_app, <- app_assoc. do 2 f_equal. lia.
Qed.

(** The bit string of a whole series: the count, the first value, the deltas. *)
Definition series_bits (values : list Z) : list bool :=
  bits_of 32 (Z.of_nat (length values)) ++
  match values with
  | [] => []
  | v :: values => bits_of 64 v ++ concat (dod_bits <$> dods_of v 0 values)
  end.

Definition fits_narrow (values : list Z) : Prop :=
  wide = false → needs_wide_fallback (series_new values) = false.

Lemma series_len_new values : series_len (series_new values) = length values.
Proof.
  destruct values as [|v values]; [done|]. unfold series_new. rewrite series_loop_spec.
  unfold series_len. cbn [dods first length app]. rewrite length_dods_of. lia.
Qed.

Lemma fits_narrow_encodable v values :
  fits_narrow (v :: values) → Forall encodable (dods_of v 0 values).
Proof.
  unfold fits_narrow, series_new. rewrite series_loop_spec. cbn [needs_wide_fallback orb].
  apply encodable_dods, dods_of_i64.
Qed.

Lemma encode_gorilla_holds {E} values :
  fits_narrow values →
  ∃ w, encode_gorilla_i64 (E:=E) (series_new values) wide = Ok (BitWriter.finish w) ∧
    BitWriter.holds w (series_bits values).
Proof.
  intros Hn. unfold encode_gorilla_i64, series_bits. rewrite series_len_new.
  pose proof (BitWriter.holds_push_loop 32 _ _
    (wrap 32 (Z.of_nat (length values))) BitWriter.holds_new) as Hw.
  rewrite bits_of_wrap in Hw by lia. cbn [app] in Hw. fold (BitWriter.push32 BitWriter.new) in Hw.
  destruct values as [|v values].
  { eexists. split; [reflexivity|]. by rewrite app_nil_r. }
  pose proof (BitWriter.holds_push_loop 64 _ _ (wrap 64 v) Hw) as Hw2.
  rewrite bits_of_wrap in Hw2 by lia.
  destruct (encode_dods_holds (E:=E) _ _ (dods_of v 0 values) Hw2) as (w' & Hw' & Hh);
    [by apply fits_narrow_encodable|].
  exists w'. rewrite <- app_assoc in Hh. split; [|exact Hh].
  unfold series_new. rewrite series_loop_spec. cbn [first dods app].
  unfold BitWriter.push64, BitWriter.push32. rewrite Hw'. done.
Qed.

Lemma div_ceil_pad n pad m : n + pad = 8 * m → pad < 8 → div_ceil n 8 = m.
Proof.
  intros Hn Hpad. unfold div_ceil.
  symmetry. apply (Nat.div_unique _ _ _ (7 - pad)); lia.
Qed.

Lemma decode_gorilla_pending buf values rest :
  concat (byte_bits <$> buf) = series_bits values ++ rest →
  fits_narrow values → Forall is_i64 values → (Z.of_nat (length values) ≤ u32_max)%Z →
  decode_gorilla_i64_with_length buf wide =
    Ok (div_ceil (length (series_bits values)) 8, values).
Proof.
  intros Hbuf Hn Hv Hlen. unfold decode_gorilla_i64_with_length.
  pose proof (BitReader.pending_new buf) as Hr. rewrite Hbuf in Hr. unfold series_bits in Hr.
  rewrite <- app_assoc in Hr.
  destruct (reads_bits32 32 _ (le_n _) _ _ Hr) as (r1 & -> & Hr1). run.
  rewrite wrap_small by (unfold u32_max in Hlen; lia).
  unfold series_bits. rewrite length_app, length_bits_of.
  destruct values as [|v values]; [done|].
  rewrite decide_True by (cbn [length]; lia).
  rewrite <- app_assoc in Hr1. destruct (reads_bits64 _ _ _ Hr1) as (r2 & -> & Hr2). run.
  apply Forall_cons in Hv as [Hv Hvs].
  rewrite to_signed_wrap, to_signed_small by (done || lia).
  replace (Z.to_nat (Z.of_nat (length (v :: values)) - 1)) with (length values)
    by (cbn [length]; lia).
  rewrite (decode_loop_ok values r2 rest); [|done|done|done|by apply fits_narrow_encodable|done].
  run. rewrite length_app, length_bits_of. cbn [app]. do 3 f_equal; lia.
Qed.

Lemma gorilla_roundtrip {E} values :
  fits_narrow values → Forall is_i64 values → (Z.of_nat (length values) ≤ u32_max)%Z →
  ∃ enc, encode_gorilla_i64 (E:=E) (series_new values) wide = Ok enc ∧
    ∀ tail, decode_gorilla_i64_with_length (enc ++ tail) wide = Ok (length enc, values).
Proof.
  intros Hn Hv Hlen. destruct (encode_gorilla_holds (E:=E) values Hn) as (w & Hw & Hh).
  exists (BitWriter.finish w). split; [exact Hw|]. intros tail.
  destruct (BitWriter.holds_finish _ _ Hh) as (pad & Hbits & Hpad & Hlt).
  rewrite (decode_gorilla_pending _ values
    (replicate pad false ++ concat (byte_bits <$> tail))); [|..|done|done|done].
  - by rewrite (div_ceil_pad _ _ _ Hpad Hlt).
  - by rewrite fmap_app, concat_app, Hbits, <- app_assoc.
Qed.
End dod_codec.

Lemma to_signed_u64 l : Forall is_u64 l → wrap 64 <$> (to_signed 64 <$> l) = l.
Proof.
  induction 1 as [|z l Hz Hl IH]; [done|]. rewrite !fmap_cons, IH. f_equal.
  rewrite wrap_to_signed by lia. apply wrap_small. exact Hz.
Qed.

Lemma to_signed_i64 l : Forall is_i64 (to_signed 64 <$> l).
Proof. apply Forall_fmap, Forall_true. intros z. apply (to_signed_range 64). lia. Qed.

Lemma le_bytes_val n z : be_val (reverse (to_le_bytes n z)) = wrap (8 * Z.of_nat n) z.
Proof. unfold to_le_bytes. by rewrite reverse_involutive, be_val_put_be. Qed.

Lemma length_le_bytes n z : length (to_le_bytes n z) = n.
Proof. unfold to_le_bytes. by rewrite length_reverse, length_put_be. Qed.

Lemma decode_tracker_parts wide v (lb es et : bytes) (svals seqs tss : list Z) :
  decode_version v = Ok wide → length lb = 4 →
  be_val (reverse lb) = Z.of_nat (length seqs) → length tss = length seqs →
  wrap 64 <$> svals = seqs →
  decode_gorilla_i64_with_length (es ++ et) wide = Ok (length es, svals) →
  decode_gorilla_i64_with_length et wide = Ok (length et, tss) →
  decode_sequence_tracker (v :: lb ++ es ++ et) =
    Ok (mkTracker seqs tss DEFAULT_CAPACITY DEFAULT_INTERVAL_SECS (last tss)).
Proof.
  intros Hver Hlb Hval Hlen Hsv Hds Hdt. unfold decode_sequence_tracker.
  rewrite decide_False by done.
  assert (index (E:=DecodeError) (v :: lb ++ es ++ et) 0 = Ok v) as -> by done. run.
  rewrite Hver. run. rewrite decide_False by (cbn [length]; rewrite !length_app; lia).
  assert (∀ (v : Z) l, drop 1 (v :: l) = l) as Hdrop by done.
  rewrite !Hdrop, take_app_length', Hval, Nat2Z.id by done.
  rewrite app_comm_cons, slice_from_app' by (cbn [length]; lia). run.
  unfold decode_sequence_numbers_with_length, decode_timestamps. rewrite Hds. run.
  rewrite Hsv. rewrite decide_False by naive_solver.
  rewrite slice_from_app. run. rewrite Hdt. run.
  rewrite decide_False by naive_solver. done.
Qed.

(** C38: [SequenceTracker::from_bytes (to_bytes t)] gives back the sequence numbers and
    timestamps of [t], whichever of the two formats the encoder chooses, with the default
    capacity and interval; the encoder never reaches its [expect]. *)
Theorem tracker_codec_roundtrip (t : SequenceTracker) :
  Forall is_u64 (sequence_numbers t) → Forall is_i64 (timestamps t) →
  length (timestamps t) = length (sequence_numbers t) →
  (Z.of_nat (length (sequence_numbers t)) ≤ u32_max)%Z →
  ∃ buf, encode_sequence_tracker (E:=DecodeError) t = Ok buf ∧
    decode_sequence_tracker buf = Ok (mkTracker (sequence_numbers t) (timestamps t)
      DEFAULT_CAPACITY DEFAULT_INTERVAL_SECS (last (timestamps t))).
Proof.
  intros Hs Ht Hlen Hmax. unfold encode_sequence_tracker.
  set (wide := needs_wide_fallback _ || _).
  assert (fits_narrow wide (to_signed 64 <$> sequence_numbers t) ∧ fits_narrow wide (timestamps t))
    as [Hns Hnt].
  { split; intros Hw; subst wide; by apply orb_false_iff in Hw as []. }
  clearbody wide.
  destruct (gorilla_roundtrip wide (E:=DecodeError) _ Hns (to_signed_i64 _)) as (es & -> & Hds);
    [by rewrite length_fmap|].
  destruct (gorilla_roundtrip wide (E:=DecodeError) _ Hnt Ht) as (et & -> & Hdt); [by rewrite Hlen|].
  run. eexists. split; [reflexivity|].
  apply (decode_tracker_parts wide _ (to_le_bytes 4 _) es et (to_signed 64 <$> sequence_numbers t));
    [by destruct wide|apply length_le_bytes| |done|by apply to_signed_u64|done|].
  - rewrite le_bytes_val. unfold u32_max in Hmax.
    rewrite (wrap_small (8 * Z.of_nat 4)); rewrite wrap_small; lia.
  - specialize (Hdt []). by rewrite app_nil_r in Hdt.
Qed.

Lemma tracker_codec_roundtrip_witness :
  ∃ buf, encode_sequence_tracker (E:=DecodeError)
      (mkTracker [0; 5; 5000000000]%Z [100; 160; 9000]%Z 4 60 (Some 9000%Z)) = Ok buf ∧
    decode_sequence_tracker buf = Ok (mkTracker [0; 5; 5000000000]%Z [100; 160; 9000]%Z
      DEFAULT_CAPACITY DEFAULT_INTERVAL_SECS (Some 9000%Z)).
Proof.
  apply (tracker_codec_roundtrip (mkTracker [0; 5; 5000000000]%Z [100; 160; 9000]%Z 4 60 _)).
  - cbn. repeat constructor; lia.
  - cbn. repeat constructor; lia.
  - reflexivity.
  - cbn. unfold u32_max. lia.
Defined.

(** ** The tracker's invariant *)

(** Seconds far from the ends of [i64]; chrono's dates are within them. *)
Definition date_secs (z : Z) : Prop := (- 2 ^ 62 < z < 2 ^ 62)%Z.

Record tracker_inv (t : SequenceTracker) : Prop := {
  inv_lengths : length (timestamps t) = length (sequence_numbers t);
  inv_seqs : StronglySorted Z.le (sequence_numbers t);
  inv_tss : StronglySorted Z.le (timestamps t);
  inv_capacity : (1 ≤ capacity t)%Z ∧ (Z.of_nat (length (sequence_numbers t)) ≤ capacity t)%Z;
  inv_interval : (0 ≤ interval_secs t < 2 ^ 63)%Z;
  inv_last : match last_recorded_ts t with
             | Some l => date_secs l ∧ Forall (λ x, x ≤ l)%Z (timestamps t)
             | None => timestamps t = []
             end;
}.

Lemma every_other_sublist {A} (l : list A) : every_other l `sublist_of` l.
Proof.
  enough (every_other l `sublist_of` l ∧ ∀ x, every_other (x :: l) `sublist_of` x :: l) as [] by done.
  induction l as [|y l [IH1 IH2]]; [split; [done|]; intros x; by do 2 constructor|].
  split; [apply IH2|]. intros x. cbn. by do 2 constructor.
Qed.

Lemma length_every_other {A B} (l : list A) (k : list B) :
  length l = length k → length (every_other l) = length (every_other k).
Proof.
  enough (∀ n (l : list A) (k : list B), length l ≤ n →
    length l = length k → length (every_other l) = length (every_other k)) by eauto.
  intros n. induction n as [|n IH]; intros [|x [|x' l']] [|y [|y' k']] Hn Hl;
    cbn in *; try lia. f_equal. apply IH; lia.
Qed.

Lemma every_other_half {A} (l : list A) : 2 * length (every_other l) ≤ length l + 1.
Proof.
  enough (2 * length (every_other l) ≤ length l + 1 ∧
    ∀ x, 2 * length (every_other (x :: l)) ≤ length (x :: l) + 1) as [] by done.
  induction l as [|y l [IH1 IH2]]; [split; [|intros x]; cbn; lia|].
  split; [apply IH2|]. intros x. cbn in *. lia.
Qed.

Lemma at_least_last_Forall l x :
  StronglySorted Z.le l → at_least_last l x = true ↔ Forall (λ y, y ≤ x)%Z l.
Proof.
  unfold at_least_last. destruct l as [|y l _] using rev_ind; [by split|].
  intros [Hle _]%StronglySorted_app. rewrite last_snoc, bool_decide_eq_true.
  rewrite Forall_app, Forall_singleton. split; [|by intros []].
  intros Hyx. split; [|done]. apply Forall_forall. intros z Hz.
  specialize (Hle z y Hz ltac:(set_solver)). lia.
Qed.

Lemma sorted_snoc l x :
  StronglySorted Z.le l → Forall (λ y, y ≤ x)%Z l → StronglySorted Z.le (l ++ [x]).
Proof.
  intros Hl Hx. apply StronglySorted_app. split; [|split; [done|repeat constructor]].
  intros a b Ha Hb%list_elem_of_singleton. subst. rewrite Forall_forall in Hx. auto.
Qed.

Lemma downsample_inv t :
  length (timestamps t) = length (sequence_numbers t) →
  StronglySorted Z.le (sequence_numbers t) → StronglySorted Z.le (timestamps t) →
  (1 ≤ capacity t)%Z → (Z.of_nat (length (sequence_numbers t)) ≤ capacity t + 1)%Z →
  (0 ≤ interval_secs t < 2 ^ 63)%Z →
  (∃ l, last_recorded_ts t = Some l ∧ date_secs l ∧ Forall (λ x, x ≤ l)%Z (timestamps t)) →
  tracker_inv (downsample t).
Proof.
  intros Hl Hs Ht Hc1 Hc2 Hi (l & Hlast & Hd & Hall). split; cbn.
  - by apply length_every_other.
  - eapply StronglySorted_sublist; [apply every_other_sublist|done].
  - eapply StronglySorted_sublist; [apply every_other_sublist|done].
  - split; [done|]. pose proof (every_other_half (sequence_numbers t)). lia.
  - done.
  - rewrite Hlast. split; [done|]. eapply Forall_sublist_of; [apply every_other_sublist|done].
Qed.

Lemma head_every_other {A} (l : list A) : head (every_other l) = head l.
Proof. by destruct l as [|x [|y l]]. Qed.

Lemma wrapping_sub_date a b : date_secs a → date_secs b → wrapping_sub a b = (a - b)%Z.
Proof. unfold date_secs. intros Ha Hb. apply (to_signed_small 64); lia. Qed.

(** The entry is recorded: it is appended, then the table is thinned if it is full. *)
Lemma insert_recorded {E} t s ts t' :
  insert_secs (E:=E) t s ts = Ok t' → tracker_inv t → date_secs ts →
  (t' = t ∧ ∃ l, last_recorded_ts t = Some l ∧ (ts - l < interval_secs t)%Z) ∨
  Forall (λ y, y ≤ s)%Z (sequence_numbers t) ∧ Forall (λ y, y ≤ ts)%Z (timestamps t) ∧
  let t1 := mkTracker (sequence_numbers t ++ [s]) (timestamps t ++ [ts])
              (capacity t) (interval_secs t) (Some ts) in
  t' = if decide (capacity t < Z.of_nat (length (sequence_numbers t1)))%Z
       then downsample t1 else t1.
Proof.
  intros Hins Hinv Hts. unfold insert_secs in Hins.
  assert (to_signed 64 (interval_secs t) = interval_secs t) as Hiv
    by (apply (to_signed_small 64); pose proof (inv_interval t Hinv); lia).
  destruct (match last_recorded_ts t with Some _ => _ | None => _ end) eqn:Hskip.
  - left. injection Hins as <-. split; [done|].
    destruct (last_recorded_ts t) as [l|] eqn:Hl; [|done].
    pose proof (inv_last t Hinv) as Hi. rewrite Hl in Hi. destruct Hi as [Hd _].
    exists l. split; [done|]. apply bool_decide_eq_true in Hskip.
    rewrite wrapping_sub_date, Hiv in Hskip by done. done.
  - right. inv_bind.
    rewrite at_least_last_Forall in Hx, Hx0 by apply Hinv. done.
Qed.

(** [SequenceTracker::insert] keeps the table well formed: the two columns have the same
    length and are sorted, the table stays within its capacity, and the oldest entry is never
    lost to downsampling. *)
Theorem tracker_insert_inv {E} t s ts t' :
  tracker_inv t → date_secs ts → insert_secs (E:=E) t s ts = Ok t' →
  tracker_inv t' ∧
  (sequence_numbers t ≠ [] → head (sequence_numbers t') = head (sequence_numbers t) ∧
                             head (timestamps t') = head (timestamps t)).
Proof.
  intros Hinv Hts Hins.
  destruct (insert_recorded _ _ _ _ Hins Hinv Hts) as [[-> _]|(Hs & Ht & ->)]; [done|].
  destruct Hinv as [Hlen Hss Hst [Hc1 Hc2] Hi Hlast]. cbn [sequence_numbers].
  assert (∀ (l : list Z) x, l ≠ [] → head (l ++ [x]) = head l) as Hhead by by intros [].
  assert (Forall (λ y, y ≤ ts)%Z (timestamps t ++ [ts])) as Hall
    by (apply Forall_app; split; [done|repeat constructor; lia]).
  assert (sequence_numbers t ≠ [] → timestamps t ≠ []) as Hne
    by (destruct (sequence_numbers t), (timestamps t); done).
  destruct (decide (capacity t < Z.of_nat (length (sequence_numbers t ++ [s])))%Z) as [Hfull|Hfull];
    rewrite length_app in Hfull; cbn [length] in Hfull; split.
  - apply downsample_inv; cbn; try done; rewrite ?length_app; cbn; try lia;
      [by apply sorted_snoc..|]. eauto.
  - cbn. rewrite !head_every_other. auto.
  - split; cbn; try done; rewrite ?length_app; cbn; try lia; by apply sorted_snoc.
  - cbn. auto.
Qed.

Lemma tracker_insert_inv_witness :
  tracker_inv (mkTracker [10; 40]%Z [60; 180]%Z 2 60 (Some 180%Z)) ∧
  [10; 40]%Z ≠ [].
Proof.
  assert (tracker_inv (mkTracker [10; 30]%Z [60; 120]%Z 2 60 (Some 120%Z))) as Hinv.
  { split; cbn; [done|repeat constructor; lia..|lia|lia|].
    split; [unfold date_secs; lia|repeat constructor; lia]. }
  destruct (tracker_insert_inv (E:=unit) (mkTracker [10; 30]%Z [60; 120]%Z 2 60 (Some 120%Z)) 40 180
    (mkTracker [10; 40]%Z [60; 180]%Z 2 60 (Some 180%Z)) Hinv) as [H _];
    [unfold date_secs; lia|reflexivity|]. split; [exact H|discriminate].
Defined.

(** [SequenceTracker::insert] does not panic when the sequence numbers offered do not go
    backwards: whatever the clock does, an entry with an older timestamp is skipped rather
    than tripping the assertion on timestamps. *)
Theorem tracker_insert_total {E} t s ts :
  tracker_inv t → date_secs ts → Forall (λ y, y ≤ s)%Z (sequence_numbers t) →
  ∃ t', insert_secs (E:=E) t s ts = Ok t'.
Proof.
  intros Hinv Hts Hs. unfold insert_secs.
  destruct (match last_recorded_ts t with Some _ => _ | None => _ end) eqn:Hskip; [by eexists|].
  assert (Forall (λ y, y ≤ ts)%Z (timestamps t)) as Ht.
  { pose proof (inv_last t Hinv) as Hl. pose proof (inv_interval t Hinv) as Hi.
    destruct (last_recorded_ts t) as [l|]; [|rewrite Hl; constructor].
    destruct Hl as [Hd Hl]. apply bool_decide_eq_false in Hskip.
    rewrite wrapping_sub_date in Hskip by done. rewrite to_signed_small in Hskip by lia.
    eapply Forall_impl; [exact Hl|]. cbn. intros y. lia. }
  rewrite <- at_least_last_Forall in Hs, Ht by apply Hinv. rewrite Hs, Ht. run. by eexists.
Qed.

Lemma tracker_insert_total_witness :
  ∃ t', insert_secs (E:=unit) (mkTracker [10; 30]%Z [60; 120]%Z 2 60 (Some 120%Z)) 40 30 = Ok t'.
Proof.
  apply (tracker_insert_total (mkTracker [10; 30]%Z [60; 120]%Z 2 60 (Some 120%Z)) 40 30).
  - split; cbn; [done|repeat constructor; lia..|lia|lia|].
    split; [unfold date_secs; lia|repeat constructor; lia].
  - unfold date_secs; lia.
  - cbn. repeat constructor; lia.
Defined.

(** ** Lookups *)

Lemma StronglySorted_lookup l i j x y :
  StronglySorted Z.le l → i ≤ j → l !! i = Some x → l !! j = Some y → (x ≤ y)%Z.
Proof.
  intros Hl. revert i j. induction Hl as [|z l Hl IH Hz]; intros [|i] [|j] Hij Hi Hj; cbn in *;
    try done; simplify_eq; try lia.
  - rewrite Forall_forall in Hz. apply Hz. by eapply list_elem_of_lookup_2.
  - apply (IH i j); [lia|done..].
Qed.

Lemma binary_search_loop_spec fuel l x base size :
  StronglySorted Z.le l → size ≤ S fuel → 1 ≤ size → base + size ≤ length l →
  (base = 0 ∨ ∃ m, l !! base = Some m ∧ (m ≤ x)%Z) →
  (∀ j y, base + size ≤ j → l !! j = Some y → (x < y)%Z) →
  let b := binary_search_loop fuel l x base size in
  b < length l ∧ (b = 0 ∨ ∃ m, l !! b = Some m ∧ (m ≤ x)%Z) ∧
  ∀ j y, b < j → l !! j = Some y → (x < y)%Z.
Proof.
  intros Hl. revert base size. induction fuel as [|fuel IH]; intros base size Hf Hs Hb Hlow Hhigh.
  - replace size with 1 in * by lia. cbn. split; [lia|]. split; [done|].
    intros j y Hj. apply Hhigh. lia.
  - cbn [binary_search_loop]. destruct (decide (1 < size)) as [H1|H1].
    + assert (0 < size / 2 < size) as Hhalf by (split; [apply Nat.div_str_pos|apply Nat.div_lt]; lia).
      destruct (lookup_lt_is_Some_2 l (base + size / 2)) as [m Hm]; [lia|]. rewrite Hm.
      destruct (x <? m)%Z eqn:Hxm.
      * apply IH; [lia..|done|]. intros j y Hj Hy. apply Z.ltb_lt in Hxm.
        assert (2 * (size / 2) ≤ size) by apply Nat.Div0.mul_div_le.
        destruct (decide (base + size / 2 ≤ j)).
        { pose proof (StronglySorted_lookup l (base + size / 2) j m y Hl). naive_solver lia. }
        exfalso. lia.
      * apply IH; [lia..| |]; [right; exists m; split; [done|]; lia|].
        intros j y Hj. apply Hhigh. lia.
    + replace size with 1 in * by lia. split; [lia|]. split; [done|].
      intros j y Hj. apply Hhigh. lia.
Qed.

Lemma binary_search_spec l x :
  StronglySorted Z.le l → l ≠ [] →
  match binary_search l x with
  | Found i => l !! i = Some x
  | NotFound i => i ≤ length l ∧ (∀ j y, j < i → l !! j = Some y → (y < x)%Z) ∧
                  (∀ j y, i ≤ j → l !! j = Some y → (x < y)%Z)
  end.
Proof.
  intros Hl Hne. unfold binary_search.
  assert (1 ≤ length l) by (destruct l; cbn; [done|lia]).
  destruct (binary_search_loop_spec (length l) l x 0 (length l) Hl) as (Hb & Hlow & Hhigh);
    [lia..|by left|intros j y Hj Hy; apply lookup_lt_Some in Hy; lia|].
  set (b := binary_search_loop _ _ _ _ _) in *.
  destruct (lookup_lt_is_Some_2 l b Hb) as [m Hm]. rewrite Hm.
  destruct (Z.eqb_spec m x) as [->|Hmx]; [done|].
  destruct (m <? x)%Z eqn:Hlt.
  - split; [lia|]. split; [|intros j y Hj; apply Hhigh; lia].
    intros j y Hj Hy. pose proof (StronglySorted_lookup l j b y m Hl ltac:(lia) Hy Hm). lia.
  - assert (b = 0) as -> by (destruct Hlow as [|(? & ? & ?)]; [done|simplify_eq; lia]).
    split; [lia|]. split; [lia|]. intros j y Hj Hy.
    pose proof (StronglySorted_lookup l 0 j m y Hl ltac:(lia) Hm Hy). lia.
Qed.

(** What a lookup of [x] in the sorted column [l] selects: with [RoundUp] an entry equal to the
    least value that is at least [x], with [RoundDown] one equal to the greatest value at most
    [x]; nothing when there is no such entry. *)
Definition selects (opt : FindOption) (l : list Z) (x : Z) (i : option nat) : Prop :=
  let beyond y := match opt with RoundUp => (x ≤ y)%Z | RoundDown => (y ≤ x)%Z end in
  let closer y z := match opt with RoundUp => (y ≤ z)%Z | RoundDown => (z ≤ y)%Z end in
  match i with
  | Some i => ∃ y, l !! i = Some y ∧ beyond y ∧ ∀ z, z ∈ l → beyond z → closer y z
  | None => ∀ z, z ∈ l → ¬ beyond z
  end.

Definition search_pick (opt : FindOption) (l : list Z) (x : Z) : option nat :=
  match binary_search l x with
  | Found i => Some i
  | NotFound i =>
      match opt with
      | RoundUp => if decide (i < length l) then Some i else None
      | RoundDown => if decide (0 < i) then Some (i - 1) else None
      end
  end.

Lemma search_pick_selects opt l x :
  StronglySorted Z.le l → l ≠ [] → selects opt l x (search_pick opt l x).
Proof.
  intros Hl Hne. pose proof (binary_search_spec l x Hl Hne) as Hs. unfold search_pick, selects.
  destruct (binary_search l x) as [i|i].
  { exists x. split; [done|]. destruct opt; split; try lia; auto. }
  destruct Hs as (Hi & Hlow & Hhigh). destruct opt.
  - destruct (decide (i < length l)) as [Hlt|Hge].
    + destruct (lookup_lt_is_Some_2 l i Hlt) as [y Hy]. exists y. split; [done|].
      split; [specialize (Hhigh i y ltac:(lia) Hy); lia|].
      intros z [j Hz]%list_elem_of_lookup_1 Hxz. destruct (decide (i ≤ j)).
      * by apply (StronglySorted_lookup l i j).
      * specialize (Hlow j z ltac:(lia) Hz). lia.
    + intros z [j Hz]%list_elem_of_lookup_1. pose proof (lookup_lt_Some _ _ _ Hz).
      specialize (Hlow j z ltac:(lia) Hz). lia.
  - destruct (decide (0 < i)) as [Hlt|Hge].
    + destruct (lookup_lt_is_Some_2 l (i - 1)) as [y Hy]; [lia|]. exists y. split; [done|].
      split; [specialize (Hlow (i - 1) y ltac:(lia) Hy); lia|].
      intros z [j Hz]%list_elem_of_lookup_1 Hxz. destruct (decide (i ≤ j)).
      * specialize (Hhigh j z ltac:(lia) Hz). lia.
      * apply (StronglySorted_lookup l j (i - 1)); [done|lia|done..].
    + intros z [j Hz]%list_elem_of_lookup_1. specialize (Hhigh j z ltac:(lia) Hz). lia.
Qed.

(** Reading the other column at the position the search picked. *)
Lemma pick_column {E B} opt l x (column : list Z) (k : Z → option B) :
  length column = length l → StronglySorted Z.le l → l ≠ [] →
  match binary_search l x with
  | Found idx => ts ← index column idx; mret (k ts)
  | NotFound idx =>
      match opt with
      | RoundUp =>
          if decide (idx < length l) then ts ← index column idx; mret (k ts) else mret None
      | RoundDown =>
          if decide (0 < idx) then ts ← index column (idx - 1); mret (k ts) else mret None
      end
  end = Ok (E:=E) (i ← search_pick opt l x; ts ← column !! i; k ts).
Proof.
  intros Hlen Hl Hne. pose proof (binary_search_spec l x Hl Hne) as Hs. unfold search_pick.
  assert (∀ i, i < length l → (ts ← index column i; mret (k ts)) =
    Ok (E:=E) (ts ← column !! i; k ts)) as Hindex.
  { intros i Hi. unfold index. destruct (lookup_lt_is_Some_2 column i) as [y ->]; [lia|]. done. }
  destruct (binary_search l x) as [i|i].
  - rewrite Hindex by by eapply lookup_lt_Some. done.
  - destruct Hs as [Hi _], opt.
    + destruct (decide (i < length l)); [|done]. by rewrite Hindex.
    + destruct (decide (0 < i)); [|done]. rewrite Hindex by lia. done.
Qed.

Lemma find_ts_total `{Chrono} {E} (t : SequenceTracker) s opt :
  tracker_inv t → ∃ o, find_ts (E:=E) t s opt = Ok o.
Proof.
  intros Hinv. unfold find_ts. destruct (decide (sequence_numbers t = [])) as [Hnil|Hne]; [by eexists|].
  eexists. apply (pick_column opt _ s _ from_timestamp); [apply Hinv|apply Hinv|done].
Qed.

(** On a well-formed tracker both lookups return, and what they return is the other column's
    value at the entry nearest to the query on the requested side; [None] only when no entry
    lies on that side (or, for [find_ts], when the seconds are outside the clock's range). *)
Theorem tracker_lookup_nearest `{Chrono} {E} (t : SequenceTracker) (opt : FindOption) :
  tracker_inv t →
  (∀ s, ∃ i, selects opt (sequence_numbers t) s i ∧
     find_ts (E:=E) t s opt = Ok (i ← i; ts ← timestamps t !! i; from_timestamp ts)) ∧
  (∀ ts, ∃ i, selects opt (timestamps t) (timestamp ts) i ∧
     find_seq (E:=E) t ts opt = Ok (i ← i; sequence_numbers t !! i)).
Proof.
  intros Hinv. pose proof (inv_lengths t Hinv) as Hlen. split.
  - intros s. unfold find_ts. destruct (decide (sequence_numbers t = [])) as [Hnil|Hne].
    + exists None. split; [|done]. rewrite Hnil. cbn. set_solver.
    + exists (search_pick opt (sequence_numbers t) s).
      split; [by apply search_pick_selects, Hne; apply Hinv|].
      apply (pick_column opt _ s _ from_timestamp); [done|apply Hinv|done].
  - intros ts. unfold find_seq. destruct (decide (timestamps t = [])) as [Hnil|Hne].
    + exists None. split; [|done]. rewrite Hnil. cbn. set_solver.
    + exists (search_pick opt (timestamps t) (timestamp ts)).
      split; [by apply search_pick_selects, Hne; apply Hinv|].
      rewrite (pick_column opt _ (timestamp ts) _ Some); [|done|apply Hinv|done].
      f_equal. destruct (search_pick _ _ _) as [i|]; [|done]. cbn. by destruct (_ !! i).
Qed.

Lemma tracker_lookup_nearest_witness :
  ∃ i, selects RoundUp [10; 30]%Z 11 i ∧
    find_ts (H:=seconds_chrono) (E:=unit) (mkTracker [10; 30]%Z [60; 120]%Z 2 60 (Some 120%Z)) 11 RoundUp
      = Ok (i ← i; ts ← [60; 120]%Z !! i; Some ts).
Proof.
  apply (tracker_lookup_nearest (H:=seconds_chrono)
    (mkTracker [10; 30]%Z [60; 120]%Z 2 60 (Some 120%Z)) RoundUp).
  split; cbn; [done|repeat constructor; lia..|lia|lia|].
  split; [unfold date_secs; lia|repeat constructor; lia].
Defined.
