(* ===== verification/RowCodec.v ===== *)
(** * Row codecs ([format/row.rs], [format/row_codec_v2.rs])

    The two on-disk encodings of a row.  V0 stores a key as a suffix relative to
    the first key of its block with fixed-width lengths, V2 as a suffix relative
    to the previous key with varint lengths. *)

From S2P Require Export Types Bits.

(** ** Row flags *)

Definition TOMBSTONE : Z := 1.
Definition HAS_EXPIRE_TS : Z := 2.
Definition HAS_CREATE_TS : Z := 4.
Definition MERGE_OPERAND : Z := 8.

(** [RowFlags::all().bits()] *)
Definition ALL_FLAGS : Z := 15.

(** [RowFlags::contains] *)
Definition contains (flags other : Z) : bool := (Z.land flags other =? other)%Z.

(** [RowFlags::from_bits]: [None] when an unknown bit is set. *)
Definition from_bits (bits : Z) : option Z :=
  if (Z.land bits (Z.lnot ALL_FLAGS) =? 0)%Z then Some bits else None.

(** [SstRowEntry::flags], [SstRowEntryV2::flags] *)
Definition row_flags (v : ValueDeletable) (expire_ts create_ts : option Z) : Z :=
  let flags := match v with Value _ => 0 | Merge _ => MERGE_OPERAND | Tombstone => TOMBSTONE end%Z in
  let flags := if expire_ts is Some _ then Z.lor flags HAS_EXPIRE_TS else flags in
  if create_ts is Some _ then Z.lor flags HAS_CREATE_TS else flags.

(** [decode_flags] of both codecs. *)
Definition decode_flags (flags : Z) : result Z :=
  parsed ← ok_or (InvalidRowFlags flags ALL_FLAGS) (from_bits flags);
  if contains parsed (Z.lor TOMBSTONE MERGE_OPERAND)
  then Err (InvalidRowFlags parsed ALL_FLAGS)
  else mret parsed.

(** ** Fixed-width fields *)

(** [u16::try_from(n).expect(..)], [u32::try_from(n).expect(..)] *)
Definition to_u16 (n : nat) : result Z :=
  if decide (Z.of_nat n ≤ u16_max)%Z then Ok (Z.of_nat n) else Panic.
Definition to_u32 (n : nat) : result Z :=
  if decide (Z.of_nat n ≤ u32_max)%Z then Ok (Z.of_nat n) else Panic.

Definition put_i64 (z : Z) : bytes := put_be 8 z.
Definition get_i64 (data : bytes) : result (Z * bytes) :=
  '(z, data) ← get_be 8 data; mret (to_signed 64 z, data).

(** [copy_to_bytes(n)], and [slice(..n)] followed by [advance(n)]. *)
Definition split_to (n : nat) (data : bytes) : result (bytes * bytes) :=
  if decide (n ≤ length data) then Ok (take n data, drop n data) else Panic.

(** The timestamps, present as the flags say. *)
Definition encode_ts (flags : Z) (expire_ts create_ts : option Z) : result bytes :=
  e ← (if contains flags HAS_EXPIRE_TS then ts ← expect expire_ts; mret (put_i64 ts) else mret []);
  c ← (if contains flags HAS_CREATE_TS then ts ← expect create_ts; mret (put_i64 ts) else mret []);
  mret (e ++ c).

Definition decode_ts (flags : Z) (data : bytes) : result (option Z * option Z * bytes) :=
  if contains flags (Z.lor HAS_EXPIRE_TS HAS_CREATE_TS) then
    '(e, data) ← get_i64 data; '(c, data) ← get_i64 data; mret (Some e, Some c, data)
  else if contains flags HAS_EXPIRE_TS then
    '(e, data) ← get_i64 data; mret (Some e, None, data)
  else if contains flags HAS_CREATE_TS then
    '(c, data) ← get_i64 data; mret (None, Some c, data)
  else mret (None, None, data).

(** ** V0 *)

Record SstRowEntry := mkSstRow {
  key_prefix_len : nat;
  key_suffix : bytes;
  sst_seq : Z;
  sst_expire_ts : option Z;
  sst_create_ts : option Z;
  sst_value : ValueDeletable;
}.

(** [SstRowEntry::new] *)
Definition sst_row_new (key_prefix_len : nat) (key_suffix : bytes) (seq : Z) (value : ValueDeletable)
    (create_ts expire_ts : option Z) : result SstRowEntry :=
  _ ← rust_assert (bool_decide (Z.of_nat key_prefix_len ≤ u16_max)%Z);
  _ ← rust_assert (bool_decide (Z.of_nat (length key_suffix) ≤ u16_max)%Z);
  _ ← rust_assert (bool_decide (Z.of_nat (key_prefix_len + length key_suffix) ≤ u16_max)%Z);
  _ ← rust_assert (bool_decide (Z.of_nat (value_len value) ≤ u32_max)%Z);
  mret (mkSstRow key_prefix_len key_suffix seq expire_ts create_ts value).

(** [SstRowEntry::restore_full_key] *)
Definition restore_full_key (r : SstRowEntry) (prefix : bytes) : result bytes :=
  p ← slice_to (key_prefix_len r) prefix;
  mret (p ++ key_suffix r).

(** [SstRowCodecV0::estimate_encoded_size] *)
Definition estimate_encoded_size (entry_num estimated_entries_size : nat) : nat :=
  estimated_entries_size + (2 + 2 + 4 + 1) * entry_num.

(** [SstRowCodecV0::encode] *)
Definition encode_v0 (output : bytes) (r : SstRowEntry) : result bytes :=
  prefix_len ← to_u16 (key_prefix_len r);
  suffix_len ← to_u16 (length (key_suffix r));
  let flags := row_flags (sst_value r) (sst_expire_ts r) (sst_create_ts r) in
  ts ← encode_ts flags (sst_expire_ts r) (sst_create_ts r);
  val ← match sst_value r with
        | Value v | Merge v => len ← to_u32 (length v); mret (put_be 4 len ++ v)
        | Tombstone => mret []
        end;
  mret (output ++ put_be 2 prefix_len ++ put_be 2 suffix_len ++ key_suffix r
          ++ put_be 8 (sst_seq r) ++ put_be 1 flags ++ ts ++ val).

(** [SstRowCodecV0::decode]; the value is sliced without being consumed. *)
Definition decode_v0 (data : bytes) : result (SstRowEntry * bytes) :=
  '(key_prefix_len, data) ← get_be 2 data;
  '(key_suffix_len, data) ← get_be 2 data;
  '(key_suffix, data) ← split_to (Z.to_nat key_suffix_len) data;
  '(seq, data) ← get_be 8 data;
  '(bits, data) ← get_be 1 data;
  flags ← decode_flags bits;
  '(expire_ts, create_ts, data) ← decode_ts flags data;
  if contains flags TOMBSTONE then
    r ← sst_row_new (Z.to_nat key_prefix_len) key_suffix seq Tombstone create_ts None;
    mret (r, data)
  else
    '(value_len, data) ← get_be 4 data;
    value ← slice_to (Z.to_nat value_len) data;
    mret (mkSstRow (Z.to_nat key_prefix_len) key_suffix seq expire_ts create_ts
            (if contains flags MERGE_OPERAND then Merge value else Value value), data).

(** ** V2 *)

Record SstRowEntryV2 := mkSstRowV2 {
  shared_bytes : Z;
  v2_key_suffix : bytes;
  v2_seq : Z;
  v2_expire_ts : option Z;
  v2_create_ts : option Z;
  v2_value : ValueDeletable;
}.

(** [SstRowEntryV2::restore_full_key] *)
Definition restore_full_key_v2 (r : SstRowEntryV2) (previous_key : bytes) : result bytes :=
  p ← slice_to (Z.to_nat (shared_bytes r)) previous_key;
  mret (p ++ v2_key_suffix r).

(** The cast [n as u32]. *)
Definition as_u32 (n : nat) : Z := wrap 32 (Z.of_nat n).

(** [SstRowEntryV2::encoded_size] *)
Definition encoded_size_v2 (r : SstRowEntryV2) : nat :=
  let value_len := value_len (v2_value r) in
  varint_len (shared_bytes r) + varint_len (as_u32 (length (v2_key_suffix r)))
  + varint_len (as_u32 value_len) + length (v2_key_suffix r) + value_len + 8 + 1
  + opt_size (v2_expire_ts r) 8 + opt_size (v2_create_ts r) 8.

(** [SstRowCodecV2::encode] *)
Definition encode_v2 (output : bytes) (r : SstRowEntryV2) : result bytes :=
  let output := encode_varint output (shared_bytes r) in
  let output := encode_varint output (as_u32 (length (v2_key_suffix r))) in
  let value_len := match v2_value r with Value v | Merge v => length v | Tombstone => 0 end in
  let output := encode_varint output (as_u32 value_len) in
  let output := output ++ v2_key_suffix r in
  let output := output ++ match v2_value r with Value v | Merge v => v | Tombstone => [] end in
  let flags := row_flags (v2_value r) (v2_expire_ts r) (v2_create_ts r) in
  let output := output ++ put_be 8 (v2_seq r) ++ put_be 1 flags in
  ts ← encode_ts flags (v2_expire_ts r) (v2_create_ts r);
  mret (output ++ ts).

(** [SstRowCodecV2::decode] *)
Definition decode_v2 (data : bytes) : result (SstRowEntryV2 * bytes) :=
  '(shared_bytes, data) ← decode_varint data;
  '(unshared_bytes, data) ← decode_varint data;
  '(value_len, data) ← decode_varint data;
  '(key_suffix, data) ← split_to (Z.to_nat unshared_bytes) data;
  '(value_bytes, data) ←
    (if decide (0 < value_len)%Z
     then '(v, data) ← split_to (Z.to_nat value_len) data; mret (Some v, data)
     else mret (None, data));
  '(seq, data) ← get_be 8 data;
  '(bits, data) ← get_be 1 data;
  flags ← decode_flags bits;
  '(expire_ts, create_ts, data) ← decode_ts flags data;
  let value := if contains flags TOMBSTONE then Tombstone
               else if contains flags MERGE_OPERAND then Merge (default [] value_bytes)
               else Value (default [] value_bytes) in
  mret (mkSstRowV2 shared_bytes key_suffix seq expire_ts create_ts value, data).

(** [SstRowCodecV2::decode_key_only] *)
Definition decode_key_only (data : bytes) : result (Z * bytes) :=
  '(shared_bytes, data) ← decode_varint data;
  '(unshared_bytes, data) ← decode_varint data;
  '(_, data) ← decode_varint data;
  '(key_suffix, _) ← split_to (Z.to_nat unshared_bytes) data;
  mret (shared_bytes, key_suffix).

(** ** The flags *)

Lemma decode_row_flags v e c : decode_flags (row_flags v e c) = Ok (row_flags v e c).
Proof. by destruct v, e, c. Qed.

Lemma row_flags_tombstone v e c : contains (row_flags v e c) TOMBSTONE = is_tombstone v.
Proof. by destruct v, e, c. Qed.

Lemma row_flags_merge v e c : contains (row_flags v e c) MERGE_OPERAND = is_merge v.
Proof. by destruct v, e, c. Qed.

Lemma row_flags_wrap v e c : wrap (8 * Z.of_nat 1) (row_flags v e c) = row_flags v e c.
Proof. by destruct v, e, c. Qed.

(** Reading the flags byte of a row: it is accepted exactly when no unknown bit is set and
    tombstone and merge operand are not both set; otherwise the error names the byte. *)
Theorem decode_flags_exact (b : Z) :
  is_u8 b →
  decode_flags b =
    if bool_decide (b ≤ 15)%Z && negb (bool_decide (b = 9 ∨ b = 11 ∨ b = 13 ∨ b = 15)%Z)
    then Ok b else Err (InvalidRowFlags b ALL_FLAGS).
Proof.
  intros Hb. assert (b ∈ seqZ 0 256) as Hin by (apply elem_of_seqZ; unfold is_u8 in Hb; lia).
  clear Hb. revert b Hin. apply Forall_forall. by vm_compute; repeat constructor.
Qed.

Lemma decode_flags_exact_witness : decode_flags 11 = Err (InvalidRowFlags 11 ALL_FLAGS).
Proof. apply (decode_flags_exact 11). unfold is_u8. lia. Defined.

(** ** The timestamps *)

Definition ts_bytes (e c : option Z) : bytes :=
  from_option put_i64 [] e ++ from_option put_i64 [] c.

Lemma length_ts_bytes e c : length (ts_bytes e c) = opt_size e 8 + opt_size c 8.
Proof. by destruct e, c. Qed.

Lemma encode_ts_ok v e c : encode_ts (row_flags v e c) e c = Ok (ts_bytes e c).
Proof. by destruct v, e, c. Qed.

Lemma get_put_i64 z rest : is_i64 z → get_i64 (put_i64 z ++ rest) = Ok (z, rest).
Proof.
  intros Hz. unfold get_i64, put_i64. rewrite get_put_be. run.
  by rewrite to_signed_wrap, to_signed_small by (done || lia).
Qed.

Lemma decode_ts_ok v e c rest :
  is_opt_i64 e → is_opt_i64 c →
  decode_ts (row_flags v e c) (ts_bytes e c ++ rest) = Ok (e, c, rest).
Proof.
  intros He Hc. unfold decode_ts.
  assert (contains (row_flags v e c) HAS_EXPIRE_TS = bool_decide (is_Some e)) as ->
    by by destruct v, e, c.
  assert (contains (row_flags v e c) HAS_CREATE_TS = bool_decide (is_Some c)) as ->
    by by destruct v, e, c.
  assert (contains (row_flags v e c) (Z.lor HAS_EXPIRE_TS HAS_CREATE_TS)
          = bool_decide (is_Some e) && bool_decide (is_Some c)) as -> by by destruct v, e, c.
  unfold ts_bytes. destruct e as [e|], c as [c|]; cbn [from_option app is_opt_i64] in *;
    rewrite ?app_nil_r; rewrite <- ?app_assoc;
    repeat (rewrite bool_decide_eq_true_2 by eauto || rewrite bool_decide_eq_false_2 by by intros []);
    cbn [andb]; repeat (rewrite get_put_i64 by done; run); done.
Qed.

Lemma split_to_app (a rest : bytes) n : n = length a → split_to n (a ++ rest) = Ok (a, rest).
Proof.
  intros ->. unfold split_to. rewrite length_app, decide_True by lia.
  by rewrite take_app_length, drop_app_length.
Qed.

(** ** V0 round trip *)

(** What the constructor and the Rust types guarantee of a row. *)
Record sst_row_wf (r : SstRowEntry) : Prop := {
  sst_wf_key : (Z.of_nat (key_prefix_len r + length (key_suffix r)) ≤ u16_max)%Z;
  sst_wf_value : (Z.of_nat (value_len (sst_value r)) ≤ u32_max)%Z;
  sst_wf_seq : is_u64 (sst_seq r);
  sst_wf_expire : is_opt_i64 (sst_expire_ts r);
  sst_wf_create : is_opt_i64 (sst_create_ts r);
}.

Lemma sst_row_new_ok r :
  sst_row_wf r →
  sst_row_new (key_prefix_len r) (key_suffix r) (sst_seq r) (sst_value r)
    (sst_create_ts r) (sst_expire_ts r) = Ok r.
Proof.
  intros [Hk Hv _ _ _]. unfold sst_row_new. rewrite !bool_decide_eq_true_2 by lia. run.
  by destruct r.
Qed.

(** The V0 decoder forgets the expiry of a tombstone. *)
Definition forget_expiry (r : SstRowEntry) : SstRowEntry :=
  if is_tombstone (sst_value r)
  then mkSstRow (key_prefix_len r) (key_suffix r) (sst_seq r) None (sst_create_ts r) Tombstone
  else r.

Definition value_bytes_v0 (v : ValueDeletable) : bytes :=
  match v with
  | Value v | Merge v => put_be 4 (Z.of_nat (length v)) ++ v
  | Tombstone => []
  end.

Definition row_bytes_v0 (r : SstRowEntry) : bytes :=
  put_be 2 (Z.of_nat (key_prefix_len r)) ++ put_be 2 (Z.of_nat (length (key_suffix r)))
  ++ key_suffix r ++ put_be 8 (sst_seq r)
  ++ put_be 1 (row_flags (sst_value r) (sst_expire_ts r) (sst_create_ts r))
  ++ ts_bytes (sst_expire_ts r) (sst_create_ts r) ++ value_bytes_v0 (sst_value r).

Lemma encode_v0_ok output r : sst_row_wf r → encode_v0 output r = Ok (output ++ row_bytes_v0 r).
Proof.
  intros [Hk Hv _ _ _]. unfold encode_v0, to_u16. rewrite !decide_True by lia. run.
  rewrite encode_ts_ok. run. unfold row_bytes_v0, value_bytes_v0, to_u32, value_len in *.
  destruct (sst_value r); [rewrite decide_True by done; by run..|by run].
Qed.

Lemma length_row_bytes_v0 r :
  length (row_bytes_v0 r) = 2 + 2 + length (key_suffix r) + 8 + 1
    + opt_size (sst_expire_ts r) 8 + opt_size (sst_create_ts r) 8
    + (if is_tombstone (sst_value r) then 0 else 4 + value_len (sst_value r)).
Proof.
  unfold row_bytes_v0, value_bytes_v0. rewrite !length_app, !length_put_be, length_ts_bytes.
  destruct (sst_value r); cbn [value_len is_tombstone]; rewrite ?length_app, ?length_put_be; cbn; lia.
Qed.

Lemma get_put_nat n k rest :
  (Z.of_nat k < 2 ^ (8 * Z.of_nat n))%Z →
  get_be (E:=SlateDBError) n (put_be n (Z.of_nat k) ++ rest) = Ok (Z.of_nat k, rest).
Proof. intros Hk. rewrite get_put_be, wrap_small by lia. done. Qed.

Lemma decode_v0_ok r tail :
  sst_row_wf r → ∃ rest, decode_v0 (row_bytes_v0 r ++ tail) = Ok (forget_expiry r, rest).
Proof.
  intros [Hk Hv Hs He Hc]. unfold decode_v0, row_bytes_v0, u16_max, u32_max, is_u64 in *.
  rewrite <- !app_assoc. rewrite get_put_nat by lia. run. rewrite get_put_nat by lia. run.
  rewrite split_to_app by lia. run. rewrite get_put_be, wrap_small by lia. run.
  rewrite get_put_be, row_flags_wrap. run. rewrite decode_row_flags. run.
  rewrite decode_ts_ok by done. run. rewrite row_flags_tombstone, row_flags_merge, Nat2Z.id.
  unfold forget_expiry. destruct r as [p k s e c v]; cbn in *.
  destruct v as [v|v|]; cbn [is_tombstone is_merge value_bytes_v0 value_len] in *; rewrite <- ?app_assoc.
  1, 2: rewrite get_put_nat by lia; run; rewrite slice_to_app' by lia; run; by eexists.
  unfold sst_row_new, u16_max, u32_max. rewrite !bool_decide_eq_true_2 by (cbn; lia). run.
  by eexists.
Qed.

(** The V0 codec round-trips every row the constructor accepts, whatever follows it in the
    block: the encoder appends exactly [encoded_size] bytes and never panics, and the decoder
    gives the row back, except that the expiry of a tombstone is not restored. *)
Theorem row_v0_roundtrip (e : RowEntry) (key_prefix_len : nat) (output tail : bytes) :
  row_wf e → key_prefix_len ≤ length (key e) → (Z.of_nat (length (key e)) ≤ u16_max)%Z →
  (Z.of_nat (value_len (value e)) ≤ u32_max)%Z →
  ∃ r enc rest,
    sst_row_new key_prefix_len (drop key_prefix_len (key e)) (seq e) (value e)
      (create_ts e) (expire_ts e) = Ok r ∧
    encode_v0 output r = Ok (output ++ enc) ∧
    encoded_size e key_prefix_len = Ok (length enc) ∧
    decode_v0 (enc ++ tail) = Ok (forget_expiry r, rest) ∧
    restore_full_key r (key e) = Ok (key e).
Proof.
  intros [Hs Hc He] Hp Hk Hv.
  set (r := mkSstRow key_prefix_len (drop key_prefix_len (key e)) (seq e) (expire_ts e)
              (create_ts e) (value e)).
  assert (sst_row_wf r) as Hwf by (split; cbn; rewrite ?length_drop; done || lia).
  destruct (decode_v0_ok r tail Hwf) as [rest Hdec].
  exists r, (row_bytes_v0 r), rest. split_and!; [..|done|].
  - apply (sst_row_new_ok r Hwf).
  - by apply encode_v0_ok.
  - unfold encoded_size. rewrite decide_True by done. rewrite length_row_bytes_v0.
    cbn. rewrite length_drop. done.
  - unfold restore_full_key, slice_to. cbn. rewrite decide_True by done. run.
    by rewrite take_drop.
Qed.

Lemma row_v0_roundtrip_witness :
  ∃ r enc rest,
    sst_row_new 1 [98%Z] 7 Tombstone None (Some 5%Z) = Ok r ∧
    encode_v0 [9%Z] r = Ok ([9%Z] ++ enc) ∧
    encoded_size (mkRow [97; 98]%Z Tombstone 7 None (Some 5%Z)) 1 = Ok (length enc) ∧
    decode_v0 (enc ++ [1%Z]) = Ok (forget_expiry r, rest) ∧
    restore_full_key r [97; 98]%Z = Ok [97; 98]%Z.
Proof.
  apply (row_v0_roundtrip (mkRow [97; 98]%Z Tombstone 7 None (Some 5%Z)) 1 [9%Z] [1%Z]).
  - split; cbn; unfold is_u64, is_i64; done || lia.
  - cbn. lia.
  - cbn. unfold u16_max. lia.
  - cbn. unfold u32_max. lia.
Defined.

(** ** V2 round trip *)

Record sst_row_v2_wf (r : SstRowEntryV2) : Prop := {
  v2_wf_shared : is_u32 (shared_bytes r);
  v2_wf_key : (Z.of_nat (length (v2_key_suffix r)) ≤ u32_max)%Z;
  v2_wf_value : (Z.of_nat (value_len (v2_value r)) ≤ u32_max)%Z;
  v2_wf_seq : is_u64 (v2_seq r);
  v2_wf_expire : is_opt_i64 (v2_expire_ts r);
  v2_wf_create : is_opt_i64 (v2_create_ts r);
}.

Definition value_payload (v : ValueDeletable) : bytes :=
  match v with Value v | Merge v => v | Tombstone => [] end.

Lemma length_value_payload v : length (value_payload v) = value_len v.
Proof. by destruct v. Qed.

Lemma as_u32_small n : (Z.of_nat n ≤ u32_max)%Z → as_u32 n = Z.of_nat n ∧ is_u32 (as_u32 n).
Proof.
  intros Hn. unfold as_u32, u32_max, is_u32 in *. rewrite wrap_small by lia. lia.
Qed.

Definition varint (z : Z) : bytes := encode_varint [] z.

Definition row_bytes_v2 (r : SstRowEntryV2) : bytes :=
  varint (shared_bytes r) ++ varint (as_u32 (length (v2_key_suffix r)))
  ++ varint (as_u32 (value_len (v2_value r))) ++ v2_key_suffix r ++ value_payload (v2_value r)
  ++ put_be 8 (v2_seq r) ++ put_be 1 (row_flags (v2_value r) (v2_expire_ts r) (v2_create_ts r))
  ++ ts_bytes (v2_expire_ts r) (v2_create_ts r).

Lemma encode_v2_ok output r : encode_v2 output r = Ok (output ++ row_bytes_v2 r).
Proof.
  unfold encode_v2. rewrite encode_ts_ok. run.
  change (match v2_value r with Value v | Merge v => length v | Tombstone => 0 end)
    with (value_len (v2_value r)).
  change (match v2_value r with Value v | Merge v => v | Tombstone => [] end)
    with (value_payload (v2_value r)).
  unfold row_bytes_v2, varint, encode_varint. by rewrite <- !app_assoc.
Qed.

Lemma decode_varint_ok v rest : is_u32 v → decode_varint (varint v ++ rest) = Ok (v, rest).
Proof. intros Hv. by apply decode_varint_app. Qed.

Lemma length_varint v : is_u32 v → length (varint v) = varint_len v.
Proof. intros Hv. symmetry. by apply varint_len_ok. Qed.

Lemma length_row_bytes_v2 r : sst_row_v2_wf r → length (row_bytes_v2 r) = encoded_size_v2 r.
Proof.
  intros [Hsh Hk Hv Hs He Hc]. unfold row_bytes_v2, encoded_size_v2.
  rewrite !length_app, !length_put_be, length_ts_bytes, length_value_payload.
  rewrite !length_varint; [|apply as_u32_small; done..|done]. cbn zeta. lia.
Qed.

Lemma decode_v2_ok r tail :
  sst_row_v2_wf r → decode_v2 (row_bytes_v2 r ++ tail) = Ok (r, tail).
Proof.
  intros [Hsh Hk Hv Hs He Hc]. unfold decode_v2, row_bytes_v2. rewrite <- !app_assoc.
  destruct (as_u32_small _ Hk) as [Hk1 Hk2], (as_u32_small _ Hv) as [Hv1 Hv2].
  rewrite decode_varint_ok by done. run. rewrite decode_varint_ok by done. run.
  rewrite decode_varint_ok by done. run. rewrite Hk1, Hv1.
  rewrite split_to_app by lia. run.
  match goal with |- context [mbind ?k (if decide (0 < ?n)%Z then ?a else ?b)] =>
    assert ((if decide (0 < n)%Z then a else b) =
      Ok (if decide (0 < n)%Z then Some (value_payload (v2_value r)) else None,
          put_be 8 (v2_seq r) ++ put_be 1 (row_flags (v2_value r) (v2_expire_ts r) (v2_create_ts r))
            ++ ts_bytes (v2_expire_ts r) (v2_create_ts r) ++ tail)) as -> end.
  { destruct (decide _) as [Hpos|Hz].
    - rewrite split_to_app by (rewrite length_value_payload; lia). by run.
    - assert (value_payload (v2_value r) = []) as ->; [|done].
      apply nil_length_inv. rewrite length_value_payload. lia. }
  run. unfold is_u64 in Hs. rewrite get_put_be, wrap_small by lia. run.
  rewrite get_put_be, row_flags_wrap. run. rewrite decode_row_flags. run.
  rewrite decode_ts_ok by done. run. rewrite row_flags_tombstone, row_flags_merge.
  assert (∀ v, (if decide (0 < Z.of_nat (value_len v))%Z then Some (value_payload v) else None)
    = match value_payload v with [] => None | p => Some p end) as Hopt.
  { intros v. rewrite <- length_value_payload. by destruct (value_payload v). }
  rewrite Hopt. destruct r as [sh k s e c v]; cbn in *.
  by destruct v as [[|x v]|[|x v]|].
Qed.

Lemma decode_key_only_ok r tail :
  sst_row_v2_wf r →
  decode_key_only (row_bytes_v2 r ++ tail) = Ok (shared_bytes r, v2_key_suffix r).
Proof.
  intros [Hsh Hk Hv Hs He Hc]. unfold decode_key_only, row_bytes_v2. rewrite <- !app_assoc.
  destruct (as_u32_small _ Hk) as [Hk1 Hk2], (as_u32_small _ Hv) as [Hv1 Hv2].
  rewrite decode_varint_ok by done. run. rewrite decode_varint_ok by done. run.
  rewrite decode_varint_ok by done. run. rewrite Hk1. rewrite split_to_app by lia. by run.
Qed.

(** C39: The V2 codec round-trips every row, tombstones with an expiry and empty values
    included: the encoder appends exactly [encoded_size] bytes, the decoder consumes exactly
    those, and [decode_key_only] agrees with the full decoder on the key. *)
Theorem row_v2_roundtrip (r : SstRowEntryV2) (output tail : bytes) :
  sst_row_v2_wf r →
  ∃ enc, encode_v2 output r = Ok (output ++ enc) ∧ length enc = encoded_size_v2 r ∧
    decode_v2 (enc ++ tail) = Ok (r, tail) ∧
    decode_key_only (enc ++ tail) = Ok (shared_bytes r, v2_key_suffix r).
Proof.
  intros Hwf. exists (row_bytes_v2 r).
  split_and!; [apply encode_v2_ok|by apply length_row_bytes_v2|by apply decode_v2_ok|].
  by apply decode_key_only_ok.
Qed.

Lemma row_v2_roundtrip_witness :
  ∃ enc, encode_v2 [] (mkSstRowV2 3 [98%Z] 7 (Some 5%Z) None Tombstone) = Ok ([] ++ enc) ∧
    length enc = encoded_size_v2 (mkSstRowV2 3 [98%Z] 7 (Some 5%Z) None Tombstone) ∧
    decode_v2 (enc ++ [1%Z]) = Ok (mkSstRowV2 3 [98%Z] 7 (Some 5%Z) None Tombstone, [1%Z]) ∧
    decode_key_only (enc ++ [1%Z]) = Ok (3%Z, [98%Z]).
Proof.
  apply (row_v2_roundtrip (mkSstRowV2 3 [98%Z] 7 (Some 5%Z) None Tombstone) [] [1%Z]).
  split; cbn; unfold is_u32, is_u64, is_i64, u32_max; done || lia.
Defined.
