(* ===== verification/Iter.v ===== *)
(** * Row iterators ([iter.rs])

    The trait every iterator of the read and compaction paths implements, and what
    it means for an iterator to yield a list of rows.  Clients are proved against
    [yields], implementations discharge it. *)

From S2P Require Export Types KeyRange.

Inductive IterationOrder := Ascending | Descending.

(** [RowEntryIterator]; an [async] method is its result and the iterator after it. *)
Class RowEntryIterator (I : Type) := {
  it_init : I → result I;
  it_next : I → result (option RowEntry * I);
  it_seek : bytes → I → result I;
}.

(** [EmptyIterator] *)
Inductive EmptyIterator := mkEmpty.

Global Instance empty_iterator : RowEntryIterator EmptyIterator := {
  it_init i := mret i;
  it_next i := mret (None, i);
  it_seek _ i := mret i;
}.

Section iterators.
  Context {I : Type} `{RowEntryIterator I}.
  Implicit Types (it : I) (l : list RowEntry).

(** The iterator returns the rows of [l] in order, then [None]. *)
Fixpoint yields it l : Prop :=
  match l with
  | [] => ∃ it', it_next it = Ok (None, it')
  | e :: l => ∃ it', it_next it = Ok (Some e, it') ∧ yields it' l
  end.

(** The loop [while let Some(e) = it.next()?]. *)
Fixpoint collect (fuel : nat) it : result (list RowEntry) :=
  match fuel with
  | O => OutOfFuel
  | S fuel =>
      '(o, it) ← it_next it;
      match o with
      | None => mret []
      | Some e => l ← collect fuel it; mret (e :: l)
      end
  end.

Lemma collect_yields fuel it l :
  length l < fuel → yields it l → collect fuel it = Ok l.
Proof.
  revert fuel it. induction l as [|e l IH]; intros [|fuel] it Hlen Hy; cbn in Hlen; try lia.
  - destruct Hy as [it' Hn]. cbn [collect]. rewrite Hn. by run.
  - destruct Hy as (it' & Hn & Hy). cbn [collect]. rewrite Hn. run.
    rewrite (IH fuel it') by (done || lia). by run.
Qed.

Lemma yields_collect fuel it l : collect fuel it = Ok l → yields it l.
Proof.
  revert it l. induction fuel as [|fuel IH]; intros it l; cbn [collect]; [done|].
  intros Hc. inv_bind. destruct x as [[e|] it'].
  - inv_bind. cbn. exists it'. eauto.
  - inv_bind. by exists it'.
Qed.

Lemma yields_det it l1 l2 : yields it l1 → yields it l2 → l1 = l2.
Proof.
  intros H1 H2.
  pose proof (collect_yields (S (length l1 + length l2)) it l1 ltac:(lia) H1) as E1.
  pose proof (collect_yields (S (length l1 + length l2)) it l2 ltac:(lia) H2) as E2.
  congruence.
Qed.
End iterators.

(** ** Iterators as scans

    [rel it returned rows]: [it] has returned (or skipped) [returned] and is about to
    return [rows].  [Scan] is what [next] promises, [ScanSeek] what a forward [seek]
    promises: it skips exactly the rows below the key. *)
Class Scan {I : Type} `{RowEntryIterator I} (rel : I → list RowEntry → list RowEntry → Prop) : Prop :=
  scan_next it returned l :
    rel it returned l →
    match l with
    | [] => ∃ it', it_next it = Ok (None, it') ∧ rel it' returned []
    | e :: l => ∃ it', it_next it = Ok (Some e, it') ∧ rel it' (returned ++ [e]) l
    end.

Class ScanSeek {I : Type} `{RowEntryIterator I} (rel : I → list RowEntry → list RowEntry → Prop) : Prop :=
  scan_seek it returned l k :
    rel it returned l → Forall (λ e, key e ≺ k) returned →
    ∃ it' returned', it_seek k it = Ok it' ∧
      rel it' returned' (filter (λ e, ord_ltb (key e) k = false) l) ∧
      Forall (λ e, key e ≺ k) returned'.

(** What is promised of a [seek] right after a row was returned, to a key beyond it: an iterator over part
    of the key space refuses keys before that part, and one that skips rows may have read further than
    it has returned. *)
Class ScanAdvance {I : Type} `{RowEntryIterator I} (rel : I → list RowEntry → list RowEntry → Prop) : Prop :=
  scan_advance it0 it returned e l k :
    rel it0 returned (e :: l) → it_next it0 = Ok (Some e, it) → Forall (λ e, key e ≺ k) (returned ++ [e]) →
    ∃ it' returned', it_seek k it = Ok it' ∧
      rel it' returned' (filter (λ e, ord_ltb (key e) k = false) l) ∧
      Forall (λ e, key e ≺ k) returned'.

Lemma scan_next_rel {I} `{RowEntryIterator I} rel `{!Scan rel} (it0 it : I) returned e l :
  rel it0 returned (e :: l) → it_next it0 = Ok (Some e, it) → rel it (returned ++ [e]) l.
Proof. intros Hrel Hn. pose proof (scan_next it0 returned _ Hrel) as (it' & Hn' & Hrel'). rewrite Hn in Hn'. by injection Hn' as <-. Qed.

Global Instance scan_seek_advance {I} `{RowEntryIterator I} rel `{!Scan rel, !ScanSeek rel} : ScanAdvance rel.
Proof. intros it0 it returned e l k Hrel Hn. apply scan_seek. by eapply scan_next_rel. Qed.

Lemma scan_yields {I} `{RowEntryIterator I} rel `{!Scan rel} (it : I) returned l :
  rel it returned l → yields it l.
Proof.
  revert it returned. induction l as [|e l IH]; intros it returned Hrel;
    pose proof (scan_next it returned _ Hrel) as Hn; cbn in Hn.
  - destruct Hn as (it' & Hn & _). by exists it'.
  - destruct Hn as (it' & Hn & Hrel'). exists it'. eauto.
Qed.

(** A plain list as an iterator: the rows left to return. *)
Record ListIterator := mkListIter { rows_left : list RowEntry }.

Global Instance list_iterator : RowEntryIterator ListIterator := {
  it_init i := mret i;
  it_next i := match rows_left i with
               | [] => mret (None, i)
               | e :: l => mret (Some e, mkListIter l)
               end;
  it_seek k i := mret (mkListIter (filter (λ e, ord_ltb (key e) k = false) (rows_left i)));
}.

Definition list_scan (i : ListIterator) (returned l : list RowEntry) : Prop := rows_left i = l.

Global Instance list_scan_next : Scan list_scan.
Proof. intros [[|e l]] returned ? <-; cbn; by eexists. Qed.

Global Instance list_scan_seek : ScanSeek list_scan.
Proof. intros i returned l k <- Hr. by exists (mkListIter (filter (λ e, ord_ltb (key e) k = false) (rows_left i))), returned. Qed.
