(* ===== verification/Block.v ===== *)
(** * Data blocks ([format/block.rs], [format/block_v2.rs])

    A block is a run of encoded rows followed by 16-bit offsets.  The V1 builder
    compresses keys against the block's first key and records the offset of every
    row; the V2 builder compresses against the previous key and records the offset
    of every sixteenth row (a restart point), whose key is stored in full. *)

From S2P Require Export RowCodec.

(** ** Common prefixes *)

(** [slice::chunks_exact] *)
Fixpoint chunks_exact (fuel n : nat) (l : bytes) : list bytes :=
  match fuel with
  | O => []
  | S fuel => if decide (n ≤ length l) then take n l :: chunks_exact fuel n (drop n l) else []
  end.

(** [zip(a, b).take_while(|(a, b)| a == b).count()] *)
Fixpoint count_equal {A} `{EqDecision A} (a b : list A) : nat :=
  match a, b with
  | x :: a, y :: b => if decide (x = y) then S (count_equal a b) else 0
  | _, _ => 0
  end.

(** [compute_prefix_chunks::<N>] *)
Definition compute_prefix_chunks (N : nat) (lhs rhs : bytes) : nat :=
  let off := count_equal (chunks_exact (length lhs) N lhs) (chunks_exact (length rhs) N rhs) * N in
  off + count_equal (drop off lhs) (drop off rhs).

(** [compute_prefix] *)
Definition compute_prefix (lhs rhs : bytes) : nat := compute_prefix_chunks 128 lhs rhs.

(** ** Blocks *)

Record Block := mkBlock { data : bytes; offsets : list Z }.

(** [Block::encode] *)
Definition block_encode (b : Block) : bytes :=
  data b ++ concat (put_be 2 <$> offsets b) ++ put_be 2 (wrap 16 (Z.of_nat (length (offsets b)))).

(** [raw.chunks(2).map(get_u16)] *)
Fixpoint get_u16s (n : nat) (raw : bytes) : result (list Z) :=
  match n with
  | O => mret []
  | S n => '(z, raw) ← get_be 2 raw; zs ← get_u16s n raw; mret (z :: zs)
  end.

(** [Block::decode]; the subtractions panic when the buffer is too short. *)
Definition block_decode (bytes : bytes) : result Block :=
  if decide (2 ≤ length bytes) then
    '(entry_offsets_len, _) ← get_be 2 (drop (length bytes - 2) bytes);
    let n := Z.to_nat entry_offsets_len in
    if decide (2 + n * 2 ≤ length bytes) then
      let data_end := length bytes - 2 - n * 2 in
      offsets ← get_u16s n (take (n * 2) (drop data_end bytes));
      mret (mkBlock (take data_end bytes) offsets)
    else Panic
  else Panic.

(** [Block::size] *)
Definition block_size_of (b : Block) : nat := length (data b) + length (offsets b) * 2 + 2.

(** [usize::div_ceil], [usize::next_multiple_of] *)
Definition nat_div_ceil (a b : nat) : nat := (a + (b - 1)) / b.
Definition next_multiple_of (a b : nat) : nat := nat_div_ceil a b * b.

Definition OFFSET_SIZE : nat := 2.
Definition CHECKSUM_SIZE : nat := 4.

(** [Block::estimate_size_in_sst] *)
Definition estimate_size_in_sst (entry_num entries_size_encoded number_of_blocks block_size : nat)
    (block_alignment : bool) : nat :=
  let encoded_size :=
    entries_size_encoded + OFFSET_SIZE * entry_num + CHECKSUM_SIZE * number_of_blocks in
  if negb block_alignment then encoded_size
  else
    let average_block_size := nat_div_ceil encoded_size (Nat.max number_of_blocks 1) in
    number_of_blocks * next_multiple_of average_block_size block_size.

(** ** The V1 builder *)

Module BuilderV1.

Record t := mk {
  offsets : list Z;
  data : bytes;
  block_size : nat;
  first_key : bytes;
}.

(** [BlockBuilderV1::new] *)
Definition new (block_size : nat) : t := mk [] [] block_size [].

(** [BlockBuilderV1::size] *)
Definition size (b : t) : nat := 2 + length (offsets b) * 2 + length (data b).

(** [BlockBuilderV1::is_empty] *)
Definition is_empty (b : t) : bool := bool_decide (offsets b = []).

(** [BlockBuilderV1::would_fit] *)
Definition would_fit (b : t) (entry : RowEntry) : result bool :=
  if is_empty b then mret true
  else
    enc ← encoded_size entry (compute_prefix (first_key b) (key entry));
    mret (bool_decide (size b + enc ≤ block_size b)).

(** [BlockBuilderV1::add]; reserving capacity is not modelled. *)
Definition add (b : t) (entry : RowEntry) : result (bool * t) :=
  if bool_decide (key entry = []) then Err EmptyKey
  else
    fits ← would_fit b entry;
    if negb fits then mret (false, b)
    else
      let key_prefix_len := compute_prefix (first_key b) (key entry) in
      key_suffix ← slice_from key_prefix_len (key entry);
      row ← sst_row_new key_prefix_len key_suffix (seq entry) (value entry)
              (create_ts entry) (expire_ts entry);
      let offsets := offsets b ++ [wrap 16 (Z.of_nat (length (data b)))] in
      data ← encode_v0 (data b) row;
      let first_key := if bool_decide (first_key b = []) then key entry else first_key b in
      mret (true, mk offsets data (block_size b) first_key).

(** [BlockBuilderV1::build] *)
Definition build (b : t) : result Block :=
  if is_empty b then Err EmptyBlock else mret (mkBlock (data b) (offsets b)).

End BuilderV1.

(** ** The V2 builder *)

Definition DEFAULT_RESTART_INTERVAL : nat := 16.

Module BuilderV2.

Record t := mk {
  data : bytes;
  restarts : list Z;
  block_size : nat;
  restart_interval : nat;
  counter : nat;
  last_key : bytes;
}.

(** [BlockBuilderV2::new_with_restart_interval], [BlockBuilderV2::new] *)
Definition new_with_restart_interval (block_size restart_interval : nat) : t :=
  mk [] [] block_size restart_interval 0 [].
Definition new (block_size : nat) : t := new_with_restart_interval block_size DEFAULT_RESTART_INTERVAL.

(** [BlockBuilderV2::current_size] *)
Definition current_size (b : t) : nat := length (data b) + length (restarts b) * 2 + 2.

(** [BlockBuilderV2::is_restart_point]; [is_multiple_of(0)] holds of 0 only. *)
Definition is_restart_point (b : t) : bool :=
  match restart_interval b with
  | O => bool_decide (counter b = 0)
  | n => bool_decide (counter b mod n = 0)
  end.

Definition is_empty (b : t) : bool := bool_decide (counter b = 0).

(** The row [add] would encode. *)
Definition row_for (b : t) (entry : RowEntry) : result SstRowEntryV2 :=
  let shared_bytes := if is_restart_point b then 0%Z
                      else as_u32 (compute_prefix (last_key b) (key entry)) in
  key_suffix ← slice_from (Z.to_nat shared_bytes) (key entry);
  mret (mkSstRowV2 shared_bytes key_suffix (seq entry) (expire_ts entry) (create_ts entry) (value entry)).

(** [BlockBuilderV2::entry_encoded_size] *)
Definition entry_encoded_size (b : t) (entry : RowEntry) : result nat :=
  r ← row_for b entry; mret (encoded_size_v2 r).

(** [BlockBuilderV2::would_fit] *)
Definition would_fit (b : t) (entry : RowEntry) : result bool :=
  if is_empty b then mret true
  else
    entry_size ← entry_encoded_size b entry;
    let restart_overhead := if is_restart_point b then 2 else 0 in
    mret (bool_decide (current_size b + entry_size + restart_overhead ≤ block_size b)).

(** [BlockBuilderV2::add] *)
Definition add (b : t) (entry : RowEntry) : result (bool * t) :=
  if bool_decide (key entry = []) then Err EmptyKey
  else
    fits ← would_fit b entry;
    if negb fits then mret (false, b)
    else
      restarts ← (if is_restart_point b then
                    _ ← rust_assert (bool_decide (Z.of_nat (length (data b)) ≤ u16_max)%Z);
                    mret (restarts b ++ [wrap 16 (Z.of_nat (length (data b)))])
                  else mret (restarts b));
      row ← row_for b entry;
      data ← encode_v2 (data b) row;
      mret (true, mk data restarts (block_size b) (restart_interval b) (S (counter b)) (key entry)).

(** [BlockBuilderV2::build] *)
Definition build (b : t) : result Block :=
  if is_empty b then Err EmptyBlock else mret (mkBlock (data b) (restarts b)).

End BuilderV2.

(** ** The chunked comparison computes the common prefix *)

Lemma count_equal_app (p l r : bytes) : count_equal (p ++ l) (p ++ r) = length p + count_equal l r.
Proof. induction p as [|x p IH]; cbn; [done|]. rewrite decide_True by done. by rewrite IH. Qed.

Lemma count_equal_split (off : nat) (l r : bytes) :
  take off l = take off r → off ≤ length l →
  off + count_equal (drop off l) (drop off r) = count_equal l r.
Proof.
  intros Heq Hl. rewrite <- (take_drop off l) at 2. rewrite <- (take_drop off r) at 2.
  rewrite <- Heq, count_equal_app, length_take. lia.
Qed.

Lemma chunks_agree N f1 f2 (l r : bytes) :
  let off := count_equal (chunks_exact f1 N l) (chunks_exact f2 N r) * N in
  take off l = take off r ∧ off ≤ length l.
Proof.
  revert f2 l r. induction f1 as [|f1 IH]; intros f2 l r; cbn [chunks_exact].
  { split; [done|]. cbn. lia. }
  destruct (decide (N ≤ length l)) as [Hl|]; [|split; [done|]; cbn; lia].
  destruct f2 as [|f2]; cbn [chunks_exact]; [split; [done|]; cbn; lia|].
  destruct (decide (N ≤ length r)) as [Hr|]; [|split; [done|]; cbn; lia].
  cbn [count_equal]. destruct (decide (take N l = take N r)) as [Heq|]; [|split; [done|]; cbn; lia].
  destruct (IH f2 (drop N l) (drop N r)) as [Htake Hlen]. rewrite length_drop in Hlen.
  set (c := count_equal _ _) in *. cbv zeta. replace (S c * N) with (N + c * N) by lia.
  split; [|lia].
  rewrite <- (take_drop N l), <- (take_drop N r), Heq.
  rewrite !take_app_add' by (rewrite length_take; lia). by rewrite Htake.
Qed.

Lemma compute_prefix_chunks_eq N lhs rhs : compute_prefix_chunks N lhs rhs = count_equal lhs rhs.
Proof.
  unfold compute_prefix_chunks.
  destruct (chunks_agree N (length lhs) (length rhs) lhs rhs) as [Htake Hlen].
  by apply count_equal_split.
Qed.

Lemma compute_prefix_eq lhs rhs : compute_prefix lhs rhs = count_equal lhs rhs.
Proof. apply compute_prefix_chunks_eq. Qed.

Lemma count_equal_spec (l r : bytes) :
  let n := count_equal l r in
  n ≤ length l ∧ n ≤ length r ∧ take n l = take n r ∧
  (∀ x y, l !! n = Some x → r !! n = Some y → x ≠ y).
Proof.
  revert r. induction l as [|x l IH]; intros [|y r]; cbn; try (split_and!; [lia..|done|done]).
  destruct (decide (x = y)) as [->|Hne].
  - destruct (IH r) as (H1 & H2 & H3 & H4). split_and!; [lia..| |done]. cbn. by rewrite H3.
  - split_and!; [lia..|done|]. intros; by simplify_eq/=.
Qed.

(** The chunked comparison returns the length of the longest common prefix: the bytes
    before it agree and, unless one string ends there, the next bytes differ; for every chunk
    size, in particular the 128 the builders use. *)
Theorem compute_prefix_longest (N : nat) (lhs rhs : bytes) :
  let n := compute_prefix_chunks N lhs rhs in
  n = compute_prefix lhs rhs ∧ n ≤ length lhs ∧ n ≤ length rhs ∧ take n lhs = take n rhs ∧
  (∀ x y, lhs !! n = Some x → rhs !! n = Some y → x ≠ y).
Proof.
  cbv zeta. rewrite compute_prefix_eq, !compute_prefix_chunks_eq.
  split; [done|]. apply count_equal_spec.
Qed.

(** ** Blocks round-trip *)

Lemma get_u16s_ok zs :
  Forall is_u16 zs → get_u16s (length zs) (concat (put_be 2 <$> zs)) = Ok zs.
Proof.
  induction 1 as [|z zs Hz Hzs IH]; [done|]. rewrite fmap_cons. cbn [length get_u16s concat].
  unfold is_u16 in Hz. rewrite get_put_be, wrap_small by lia. run. rewrite IH. by run.
Qed.

Lemma length_put_u16s zs : length (concat (put_be 2 <$> zs)) = length zs * 2.
Proof.
  induction zs as [|z zs IH]; [done|]. rewrite fmap_cons. cbn [concat length].
  rewrite length_app, length_put_be, IH. lia.
Qed.

Lemma length_block_encode b : length (block_encode b) = block_size_of b.
Proof.
  unfold block_encode, block_size_of. rewrite !length_app, length_put_u16s, length_put_be. lia.
Qed.

Lemma block_decode_encode b :
  Forall is_u16 (offsets b) → (Z.of_nat (length (offsets b)) ≤ u16_max)%Z →
  block_decode (block_encode b) = Ok b.
Proof.
  intros Hoff Hn. unfold u16_max in Hn.
  unfold block_decode. rewrite length_block_encode. unfold block_size_of. rewrite decide_True by lia.
  assert (drop (length (data b) + length (offsets b) * 2 + 2 - 2) (block_encode b)
    = put_be 2 (wrap 16 (Z.of_nat (length (offsets b)))) ++ []) as ->.
  { unfold block_encode. rewrite app_assoc, drop_app_length', app_nil_r; [done|].
    rewrite length_app, length_put_u16s. lia. }
  rewrite get_put_be. run.
  rewrite (wrap_small (8 * Z.of_nat 2)) by (rewrite wrap_small; lia). rewrite wrap_small by lia.
  rewrite Nat2Z.id, decide_True by lia.
  replace (length (data b) + length (offsets b) * 2 + 2 - 2 - length (offsets b) * 2)
    with (length (data b)) by lia.
  unfold block_encode. rewrite drop_app_length, take_app_length.
  rewrite (take_app_length' (concat _)) by by rewrite length_put_u16s.
  rewrite get_u16s_ok by done. run. by destruct b.
Qed.

(** [Block::decode] inverts [Block::encode], and [Block::size] is the encoded length, for
    every block whose offsets and number of offsets fit in 16 bits. *)
Theorem block_roundtrip (b : Block) :
  Forall is_u16 (offsets b) → (Z.of_nat (length (offsets b)) ≤ u16_max)%Z →
  block_decode (block_encode b) = Ok b ∧ length (block_encode b) = block_size_of b.
Proof.
  intros Hoff Hn. split; [by apply block_decode_encode|apply length_block_encode].
Qed.

Lemma block_roundtrip_witness :
  block_decode (block_encode (mkBlock [1; 2; 3]%Z [0; 2]%Z)) = Ok (mkBlock [1; 2; 3]%Z [0; 2]%Z) ∧
  length (block_encode (mkBlock [1; 2; 3]%Z [0; 2]%Z)) = block_size_of (mkBlock [1; 2; 3]%Z [0; 2]%Z).
Proof.
  apply (block_roundtrip (mkBlock [1; 2; 3]%Z [0; 2]%Z)).
  - cbn. repeat constructor; lia.
  - cbn. unfold u16_max. lia.
Defined.

(** ** Layout of a run of encoded rows *)

(** Start positions of consecutive chunks. *)
Fixpoint starts (pos : nat) (chunks : list bytes) : list nat :=
  match chunks with
  | [] => []
  | c :: chunks => pos :: starts (pos + length c) chunks
  end.

Lemma starts_snoc pos cs c :
  starts pos (cs ++ [c]) = starts pos cs ++ [pos + length (concat cs)].
Proof.
  revert pos. induction cs as [|c' cs IH]; intros pos; cbn; [by rewrite Nat.add_0_r|].
  rewrite IH, length_app. do 3 f_equal. lia.
Qed.

Lemma length_starts pos cs : length (starts pos cs) = length cs.
Proof. revert pos. induction cs as [|c cs IH]; intros pos; cbn; auto. Qed.

Lemma starts_lookup pos cs i c :
  cs !! i = Some c →
  ∃ o, starts pos cs !! i = Some (pos + o) ∧ o + length c ≤ length (concat cs) ∧
    drop o (concat cs) = c ++ concat (drop (S i) cs).
Proof.
  revert pos i. induction cs as [|c' cs IH]; intros pos [|i] Hi; simplify_eq/=.
  - exists 0. split_and!; [by rewrite Nat.add_0_r|rewrite length_app; lia|done].
  - destruct (IH (pos + length c') i Hi) as (o & Ho & Hle & Hd).
    exists (length c' + o). split_and!; [rewrite Ho; f_equal; lia|rewrite length_app; lia|].
    rewrite drop_app_add, Hd. done.
Qed.

(** The limits a row must respect to be stored. *)
Record storable (e : RowEntry) : Prop := {
  storable_row : row_wf e;
  storable_key : key e ≠ [];
  storable_key_len : (Z.of_nat (length (key e)) ≤ u16_max)%Z;
  storable_value_len : (Z.of_nat (value_len (value e)) ≤ u32_max)%Z;
}.

(** ** What the V1 builder has stored *)

Section builder_v1.
  Import BuilderV1.

(** The row stored for [e] in a block whose first key is [fk]. *)
Definition v1_row (fk : bytes) (e : RowEntry) : SstRowEntry :=
  let p := count_equal fk (key e) in
  mkSstRow p (drop p (key e)) (seq e) (expire_ts e) (create_ts e) (value e).

Definition first_key_of (es : list RowEntry) : bytes := from_option key [] (head es).

Definition v1_rows (es : list RowEntry) : list SstRowEntry :=
  match es with
  | [] => []
  | e :: es => v1_row [] e :: (v1_row (key e) <$> es)
  end.

Definition v1_chunks (es : list RowEntry) : list bytes := row_bytes_v0 <$> v1_rows es.

Lemma v1_chunks_snoc es e :
  v1_chunks (es ++ [e]) = v1_chunks es ++ [row_bytes_v0 (v1_row (first_key_of es) e)].
Proof.
  unfold v1_chunks. destruct es as [|e0 es]; [done|]. cbn. by rewrite !fmap_app.
Qed.

Lemma length_v1_chunks es : length (v1_chunks es) = length es.
Proof. unfold v1_chunks. rewrite length_fmap. destruct es; cbn; rewrite ?length_fmap; done. Qed.

(** The builder [b] holds exactly the rows [es]. *)
Record v1_builds (b : t) (es : list RowEntry) : Prop := {
  v1_data : data b = concat (v1_chunks es);
  v1_offsets : offsets b = Z.of_nat <$> starts 0 (v1_chunks es);
  v1_first : first_key b = first_key_of es;
  v1_storable : Forall storable es;
  v1_size : length es ≤ 1 ∨ size b ≤ block_size b + 2;
}.

Lemma v1_row_wf fk e : storable e → sst_row_wf (v1_row fk e).
Proof.
  intros [[Hs Hc He] _ Hk Hv]. destruct (count_equal_spec fk (key e)) as (_ & Hle & _).
  split; cbn; rewrite ?length_drop; done || lia.
Qed.

Lemma v1_encoded_size fk e :
  encoded_size e (count_equal fk (key e)) = Ok (length (row_bytes_v0 (v1_row fk e))).
Proof.
  destruct (count_equal_spec fk (key e)) as (_ & Hle & _).
  unfold encoded_size. rewrite decide_True by done. rewrite length_row_bytes_v0.
  cbn. by rewrite length_drop.
Qed.

Lemma v1_builds_new n : v1_builds (new n) [].
Proof. split; try done. cbn. lia. Qed.

Lemma v1_is_empty b es : v1_builds b es → is_empty b = bool_decide (es = []).
Proof.
  intros Hb. unfold is_empty. rewrite (v1_offsets b es Hb).
  destruct es; [done|]. by rewrite !bool_decide_eq_false_2.
Qed.

Lemma v1_would_fit b es e :
  v1_builds b es →
  would_fit b e = Ok (bool_decide (es = []) || bool_decide
    (size b + length (row_bytes_v0 (v1_row (first_key_of es) e)) ≤ block_size b)).
Proof.
  intros Hb. unfold would_fit. rewrite (v1_is_empty b es Hb).
  destruct (bool_decide (es = [])); [done|].
  rewrite compute_prefix_eq, (v1_first b es Hb), v1_encoded_size. by run.
Qed.

Lemma v1_size_eq b es : v1_builds b es → size b = 2 + length es * 2 + length (concat (v1_chunks es)).
Proof.
  intros Hb. unfold size.
  by rewrite (v1_offsets b es Hb), (v1_data b es Hb), length_fmap, length_starts, length_v1_chunks.
Qed.

Lemma v1_first_snoc es e :
  Forall storable es → storable e →
  (if bool_decide (first_key_of es = []) then key e else first_key_of es) = first_key_of (es ++ [e]).
Proof.
  intros Hes He. destruct es as [|e0 es]; [done|]. cbn.
  apply Forall_cons in Hes as [[_ Hne _ _] _]. by rewrite bool_decide_eq_false_2.
Qed.

(** Adding a row to a builder that holds [es]. *)
Lemma v1_add b es e :
  v1_builds b es → storable e → (Z.of_nat (block_size b) ≤ 65536)%Z →
  if bool_decide (es = []) || bool_decide
       (size b + length (row_bytes_v0 (v1_row (first_key_of es) e)) ≤ block_size b)
  then ∃ b', add b e = Ok (true, b') ∧ v1_builds b' (es ++ [e]) ∧ block_size b' = block_size b
  else add b e = Ok (false, b).
Proof.
  intros Hb He Hbs. unfold add. rewrite (bool_decide_eq_false_2 (key e = [])) by apply He.
  rewrite (v1_would_fit b es e Hb). run.
  destruct (_ || _) eqn:Hfit; cbn [negb]; [|done].
  rewrite compute_prefix_eq, (v1_first b es Hb).
  destruct (count_equal_spec (first_key_of es) (key e)) as (_ & Hle & _).
  pose proof (v1_row_wf (first_key_of es) e He) as Hwf.
  unfold slice_from. rewrite decide_True by done. run.
  pose proof (sst_row_new_ok (v1_row (first_key_of es) e) Hwf) as Hnew. cbn in Hnew.
  rewrite Hnew. run.
  rewrite (encode_v0_ok (data b) (v1_row (first_key_of es) e) Hwf). run.
  assert (Z.of_nat (length (data b)) < 65536)%Z as Hpos.
  { pose proof (v1_size_eq b es Hb) as Hsz. rewrite (v1_data b es Hb).
    apply orb_true_iff in Hfit as [Hf|Hf]; apply bool_decide_eq_true in Hf; [subst es; cbn; lia|].
    destruct es; cbn in *; lia. }
  eexists. split; [done|]. split; [|done].
  split; cbn [BuilderV1.data BuilderV1.offsets BuilderV1.first_key BuilderV1.block_size].
  - rewrite v1_chunks_snoc, concat_app, (v1_data b es Hb). cbn [concat]. by rewrite app_nil_r.
  - rewrite v1_chunks_snoc, starts_snoc, fmap_app, (v1_offsets b es Hb), (v1_data b es Hb) in *.
    rewrite wrap_small by lia. done.
  - by apply v1_first_snoc; [apply Hb|].
  - apply Forall_app. split; [apply Hb|]. by apply Forall_singleton.
  - apply orb_true_iff in Hfit as [Hf|Hf]; apply bool_decide_eq_true in Hf; [subst es; left; cbn; lia|].
    right. unfold size in *.
    cbn [BuilderV1.data BuilderV1.offsets BuilderV1.block_size]. rewrite !length_app. cbn [length]. lia.
Qed.
End builder_v1.

(** ** Positions in a run of chunks *)

Definition pos (chunks : list bytes) (i : nat) : nat := length (concat (take i chunks)).

Section positions.
  Implicit Types cs : list bytes.

Lemma pos_S cs i c : cs !! i = Some c → pos cs (S i) = pos cs i + length c.
Proof.
  intros Hi. unfold pos. rewrite (take_S_r _ _ _ Hi), concat_app, length_app. cbn.
  by rewrite app_nil_r.
Qed.

Lemma pos_full cs i : length cs ≤ i → pos cs i = length (concat cs).
Proof. intros Hi. unfold pos. by rewrite take_ge. Qed.

Lemma pos_mono cs i j : i ≤ j → pos cs i ≤ pos cs j.
Proof.
  induction 1 as [|j Hij IH]; [done|]. destruct (cs !! j) as [c|] eqn:Hj.
  - rewrite (pos_S _ _ _ Hj). lia.
  - apply lookup_ge_None in Hj. rewrite (pos_full cs (S j)), <- (pos_full cs j) by lia. done.
Qed.

Lemma pos_le cs i : pos cs i ≤ length (concat cs).
Proof. rewrite <- (pos_full cs (i + length cs)) by lia. apply pos_mono. lia. Qed.

Lemma pos_lt cs i j : Forall (λ c, c ≠ []) cs → i < j → i < length cs → pos cs i < pos cs j.
Proof.
  intros Hne Hij Hi. destruct (lookup_lt_is_Some_2 cs i Hi) as [c Hc].
  pose proof (pos_mono cs (S i) j ltac:(lia)) as Hm. rewrite (pos_S _ _ _ Hc) in Hm.
  rewrite Forall_lookup in Hne. pose proof (Hne i c Hc). destruct c; cbn in *; [done|lia].
Qed.

Lemma pos_lt_iff cs i j :
  Forall (λ c, c ≠ []) cs → i ≤ length cs → j ≤ length cs → pos cs i < pos cs j ↔ i < j.
Proof.
  intros Hne Hi Hj. split; [|intros; apply pos_lt; done || lia].
  intros Hlt. destruct (decide (i < j)); [done|]. pose proof (pos_mono cs j i ltac:(lia)). lia.
Qed.

Lemma drop_pos cs i : drop (pos cs i) (concat cs) = concat (drop i cs).
Proof.
  rewrite <- (take_drop i cs) at 2. rewrite concat_app. unfold pos. by rewrite drop_app_length.
Qed.

Lemma pos_snoc cs c i : i ≤ length cs → pos (cs ++ [c]) i = pos cs i.
Proof. intros Hi. unfold pos. by rewrite take_app_le. Qed.
End positions.

(** ** What the V2 builder has stored *)

(** Every [R]-th row is a restart point; [num_restarts R n] of [n] rows are. *)
Definition at_restart (R i : nat) : bool := bool_decide (i mod R = 0).
Definition num_restarts (R n : nat) : nat := (n + (R - 1)) / R.

Lemma num_restarts_S R n :
  1 ≤ R → num_restarts R (S n) = num_restarts R n + (if at_restart R n then 1 else 0).
Proof.
  intros HR. unfold num_restarts, at_restart. pose proof (Nat.div_mod n R ltac:(lia)) as Hn.
  pose proof (Nat.mod_upper_bound n R ltac:(lia)) as Hr.
  set (q := n / R) in *. set (r := n mod R) in *. case_bool_decide as H0.
  - rewrite <- (Nat.div_unique (S n + (R - 1)) R (q + 1) 0) by nia.
    rewrite <- (Nat.div_unique (n + (R - 1)) R q (R - 1)) by nia. lia.
  - rewrite <- (Nat.div_unique (S n + (R - 1)) R (q + 1) r) by nia.
    rewrite <- (Nat.div_unique (n + (R - 1)) R (q + 1) (r - 1)) by nia. lia.
Qed.

Lemma num_restarts_at R n : 1 ≤ R → at_restart R n = true → num_restarts R n * R = n.
Proof.
  intros HR Hr. unfold at_restart in Hr. apply bool_decide_eq_true in Hr. unfold num_restarts.
  pose proof (Nat.div_mod n R ltac:(lia)) as Hn.
  rewrite <- (Nat.div_unique (n + (R - 1)) R (n / R) (R - 1)) by nia. nia.
Qed.

Lemma num_restarts_lt R n j : 1 ≤ R → j < num_restarts R n ↔ j * R < n.
Proof.
  intros HR. unfold num_restarts. pose proof (Nat.div_mod (n + (R - 1)) R ltac:(lia)) as Hn.
  pose proof (Nat.mod_upper_bound (n + (R - 1)) R ltac:(lia)) as Hr. split; nia.
Qed.

Lemma at_restart_mul R j : 1 ≤ R → at_restart R (j * R) = true.
Proof. intros HR. apply bool_decide_eq_true. apply Nat.Div0.mod_mul. Qed.

Section builder_v2.
  Import BuilderV2.

(** The row stored for [e] after a row with key [prev]. *)
Definition v2_row (restart : bool) (prev : bytes) (e : RowEntry) : SstRowEntryV2 :=
  let p := if restart then 0 else count_equal prev (key e) in
  mkSstRowV2 (Z.of_nat p) (drop p (key e)) (seq e) (expire_ts e) (create_ts e) (value e).

Fixpoint v2_rows (R n : nat) (prev : bytes) (es : list RowEntry) : list SstRowEntryV2 :=
  match es with
  | [] => []
  | e :: es => v2_row (at_restart R n) prev e :: v2_rows R (S n) (key e) es
  end.

Definition v2_chunks (R : nat) (es : list RowEntry) : list bytes := row_bytes_v2 <$> v2_rows R 0 [] es.

Definition last_key_of (es : list RowEntry) : bytes := from_option key [] (last es).

Lemma v2_rows_snoc R n prev es e :
  v2_rows R n prev (es ++ [e]) =
    v2_rows R n prev es ++ [v2_row (at_restart R (n + length es)) (from_option key prev (last es)) e].
Proof.
  revert n prev. induction es as [|e0 es IH]; intros n prev; cbn [v2_rows app length last].
  { by rewrite Nat.add_0_r. }
  rewrite IH. cbn. f_equal. f_equal. f_equal. f_equal; [f_equal; lia|].
  destruct es as [|e1 es]; [done|]. cbn. by destruct (last (e1 :: es)) eqn:Hl; [|apply last_None in Hl].
Qed.

Lemma v2_chunks_snoc R es e :
  v2_chunks R (es ++ [e]) =
    v2_chunks R es ++ [row_bytes_v2 (v2_row (at_restart R (length es)) (last_key_of es) e)].
Proof. unfold v2_chunks. rewrite v2_rows_snoc, fmap_app. done. Qed.

Lemma length_v2_rows R n prev es : length (v2_rows R n prev es) = length es.
Proof. revert n prev. induction es as [|e es IH]; intros n prev; cbn; auto. Qed.

Lemma length_v2_chunks R es : length (v2_chunks R es) = length es.
Proof. unfold v2_chunks. by rewrite length_fmap, length_v2_rows. Qed.

Lemma v2_rows_lookup R n prev es i e :
  es !! i = Some e →
  v2_rows R n prev es !! i = Some (v2_row (at_restart R (n + i))
    (match i with O => prev | S i' => from_option key [] (es !! i') end) e).
Proof.
  revert n prev i. induction es as [|e0 es IH]; intros n prev [|i] Hi; simplify_eq/=.
  - by rewrite Nat.add_0_r.
  - rewrite (IH (S n) (key e0) i Hi). do 2 f_equal; [f_equal; lia|]. by destruct i.
Qed.

Lemma row_bytes_v2_nonempty r : row_bytes_v2 r ≠ [].
Proof.
  intros Hr. apply (f_equal length) in Hr. unfold row_bytes_v2 in Hr.
  rewrite !length_app, !length_put_be in Hr. cbn [length] in Hr. lia.
Qed.

Lemma v2_chunks_nonempty R es : Forall (λ c, c ≠ []) (v2_chunks R es).
Proof. apply Forall_fmap, Forall_true. intros r. apply row_bytes_v2_nonempty. Qed.

Lemma v2_row_wf restart prev e : storable e → sst_row_v2_wf (v2_row restart prev e).
Proof.
  intros [[Hs Hc He] _ Hk Hv]. destruct (count_equal_spec prev (key e)) as (_ & Hle & _).
  unfold u16_max in Hk. split; cbn; unfold is_u32, u32_max; try done;
    destruct restart; rewrite ?length_drop; lia.
Qed.

(** Offsets of the restart points. *)
Definition restart_offsets (R : nat) (es : list RowEntry) : list Z :=
  (λ j, Z.of_nat (pos (v2_chunks R es) (j * R))) <$> List.seq 0 (num_restarts R (length es)).

(** The builder [b] holds exactly the rows [es]. *)
Record v2_builds (b : t) (es : list RowEntry) : Prop := {
  v2_interval : 1 ≤ restart_interval b;
  v2_data : data b = concat (v2_chunks (restart_interval b) es);
  v2_restarts : restarts b = restart_offsets (restart_interval b) es;
  v2_counter : counter b = length es;
  v2_last : last_key b = last_key_of es;
  v2_storable : Forall storable es;
  v2_size : length es ≤ 1 ∨ current_size b ≤ block_size b;
}.

Lemma v2_builds_new n R : 1 ≤ R → v2_builds (new_with_restart_interval n R) [].
Proof.
  intros HR. split; try done; cbn; [|lia]. unfold restart_offsets, num_restarts. cbn.
  by rewrite Nat.div_small by lia.
Qed.

Section with_builder.
  Context (b : t) (es : list RowEntry) (Hb : v2_builds b es).
Let R := restart_interval b.

Lemma v2_is_restart : is_restart_point b = at_restart R (length es).
Proof.
  unfold is_restart_point, at_restart, R. rewrite (v2_counter b es Hb).
  pose proof (v2_interval b es Hb). destruct (restart_interval b); [lia|done].
Qed.

Definition v2_new_row (e : RowEntry) : SstRowEntryV2 :=
  v2_row (at_restart R (length es)) (last_key_of es) e.

Lemma v2_row_for e : storable e → row_for b e = Ok (v2_new_row e).
Proof.
  intros He. unfold row_for, v2_new_row, v2_row. rewrite v2_is_restart, (v2_last b es Hb).
  destruct (count_equal_spec (last_key_of es) (key e)) as (_ & Hle & _).
  destruct He as [_ _ Hk _]. unfold u16_max in Hk. rewrite compute_prefix_eq.
  destruct (at_restart R (length es)).
  - unfold slice_from. rewrite decide_True by (cbn; lia). by run.
  - destruct (as_u32_small (count_equal (last_key_of es) (key e))) as [-> _]; [unfold u32_max; lia|].
    unfold slice_from. rewrite Nat2Z.id, decide_True by done. by run.
Qed.

Definition v2_fits (e : RowEntry) : bool :=
  bool_decide (es = []) || bool_decide
    (current_size b + length (row_bytes_v2 (v2_new_row e))
      + (if at_restart R (length es) then 2 else 0) ≤ block_size b).

Lemma v2_is_empty : is_empty b = bool_decide (es = []).
Proof. unfold is_empty. rewrite (v2_counter b es Hb). by destruct es. Qed.

Lemma v2_would_fit e : storable e → would_fit b e = Ok (v2_fits e).
Proof.
  intros He. unfold would_fit, v2_fits. rewrite v2_is_empty, v2_is_restart.
  destruct (bool_decide (es = [])); [done|].
  unfold entry_encoded_size. rewrite v2_row_for by done. run.
  by rewrite length_row_bytes_v2 by by apply v2_row_wf.
Qed.

Lemma v2_data_small e :
  v2_fits e = true → (Z.of_nat (block_size b) ≤ 65536)%Z → (Z.of_nat (length (data b)) ≤ u16_max)%Z.
Proof.
  unfold v2_fits, u16_max. intros Hf Hbs.
  apply orb_true_iff in Hf as [Hf|Hf]; apply bool_decide_eq_true in Hf.
  - subst es. rewrite (v2_data b [] Hb). cbn. lia.
  - unfold current_size in Hf. lia.
Qed.

Lemma restart_offsets_snoc e :
  restart_offsets R (es ++ [e]) =
    restart_offsets R es ++ (if at_restart R (length es)
                             then [Z.of_nat (length (concat (v2_chunks R es)))] else []).
Proof.
  pose proof (v2_interval b es Hb) as HR. unfold restart_offsets.
  rewrite length_app. cbn [length]. rewrite Nat.add_1_r, num_restarts_S by done.
  rewrite seq_app, fmap_app, v2_chunks_snoc. f_equal.
  - apply list_fmap_ext. intros i j Hij. apply lookup_seq in Hij as [-> Hlt].
    rewrite pos_snoc; [done|]. rewrite length_v2_chunks. apply num_restarts_lt in Hlt; lia.
  - destruct (at_restart R (length es)) eqn:Hr; [|done].
    cbn [List.seq]. rewrite list_fmap_singleton, Nat.add_0_l, num_restarts_at by done. do 2 f_equal. rewrite pos_snoc by by rewrite length_v2_chunks.
    by rewrite pos_full by by rewrite length_v2_chunks.
Qed.

(** Adding a row to a builder that holds [es]. *)
Lemma v2_add e :
  storable e → (Z.of_nat (block_size b) ≤ 65536)%Z →
  if v2_fits e
  then ∃ b', add b e = Ok (true, b') ∧ v2_builds b' (es ++ [e]) ∧
         block_size b' = block_size b ∧ restart_interval b' = R
  else add b e = Ok (false, b).
Proof.
  intros He Hbs. unfold add. rewrite bool_decide_eq_false_2 by apply He.
  rewrite v2_would_fit by done. run. destruct (v2_fits e) eqn:Hfit; cbn [negb]; [|done].
  pose proof (v2_data_small e Hfit Hbs) as Hdata. rewrite v2_is_restart.
  assert ((if at_restart R (length es) then
      _ ← rust_assert (bool_decide (Z.of_nat (length (data b)) ≤ u16_max)%Z);
      Ok (restarts b ++ [wrap 16 (Z.of_nat (length (data b)))])
    else Ok (restarts b)) = Ok (E:=SlateDBError) (restart_offsets R (es ++ [e]))) as ->.
  { rewrite restart_offsets_snoc, (v2_restarts b es Hb). fold R.
    rewrite bool_decide_eq_true_2 by done. unfold u16_max in Hdata.
    rewrite wrap_small, (v2_data b es Hb) by lia. fold R.
    destruct (at_restart R (length es)); run; [done|]. by rewrite app_nil_r. }
  run. rewrite v2_row_for by done. run. rewrite encode_v2_ok. run.
  eexists. split; [done|]. split; [|done]. pose proof (v2_interval b es Hb) as HR.
  split; cbn [BuilderV2.data BuilderV2.restarts BuilderV2.restart_interval BuilderV2.counter
    BuilderV2.last_key BuilderV2.block_size]; fold R.
  - done.
  - rewrite v2_chunks_snoc, concat_app, (v2_data b es Hb). cbn [concat]. by rewrite app_nil_r.
  - done.
  - rewrite length_app, (v2_counter b es Hb). cbn. lia.
  - unfold last_key_of. by rewrite last_snoc.
  - apply Forall_app. split; [apply Hb|]. by apply Forall_singleton.
  - unfold v2_fits in Hfit.
    apply orb_true_iff in Hfit as [Hf|Hf]; apply bool_decide_eq_true in Hf; [left; rewrite Hf; cbn; lia|].
    right. unfold current_size in *. rewrite (v2_restarts b es Hb) in Hf.
    cbn [BuilderV2.data BuilderV2.restarts BuilderV2.block_size].
    rewrite length_app, restart_offsets_snoc, length_app. fold R in Hf |- *.
    destruct (at_restart R (length es)); cbn [length]; lia.
Qed.
End with_builder.
End builder_v2.
