(* ===== verification/BlockIter.v ===== *)
(** * The V1 block iterator ([block_iterator.rs])

    Reads the rows of a V1 block by their offsets, in either order, and seeks by
    binary search on the keys. *)

From S2P Require Export Keyspace Iter Block Types.

(** ** Binary search over indices

    The loop shared by the seeks: [while low < high], halving around [mid]; [below mid]
    moves [low] past [mid]. *)
Fixpoint bisect (fuel : nat) (below : nat → result bool) (low high : nat) : result nat :=
  match fuel with
  | O => OutOfFuel
  | S fuel =>
      if decide (low < high) then
        let mid := low + (high - low) / 2 in
        b ← below mid;
        if (b : bool) then bisect fuel below (mid + 1) high else bisect fuel below low mid
      else mret low
  end.

Notation keys_sorted ks := (StronglySorted (λ a b : bytes, a ≼ b) ks).

Lemma keys_sorted_lookup (ks : list bytes) i j a b :
  keys_sorted ks → i ≤ j → ks !! i = Some a → ks !! j = Some b → a ≼ b.
Proof.
  intros Hl. revert i j. induction Hl as [|z l Hl IH Hz]; intros [|i] [|j] Hij Hi Hj; cbn in *;
    try done; simplify_eq; try lia.
  - ord.
  - rewrite Forall_forall in Hz. apply Hz. by eapply list_elem_of_lookup_2.
  - apply (IH i j); [lia|done..].
Qed.

Lemma bisect_ok fuel below pred ks low high :
  keys_sorted ks → downward pred → high - low < fuel → low ≤ high ≤ length ks →
  (∀ i a, low ≤ i < high → ks !! i = Some a → below i = Ok (pred a)) →
  (∀ i a, i < low → ks !! i = Some a → pred a = true) →
  (∀ i a, high ≤ i → ks !! i = Some a → pred a = false) →
  bisect fuel below low high = Ok (leading pred ks).
Proof.
  intros Hs Hd. revert low high. induction fuel as [|fuel IH]; intros low high Hf Hlh Hb Hlo Hhi; [lia|].
  cbn [bisect]. destruct (decide (low < high)) as [Hlt|Hge].
  2:{ assert (leading pred ks = low) as ->; [|done].
      apply leading_unique; [lia|done|]. intros a. apply Hhi. lia. }
  assert (low ≤ low + (high - low) / 2 < high) as Hmid.
  { pose proof (Nat.div_lt (high - low) 2). lia. }
  set (mid := low + (high - low) / 2) in *.
  destruct (lookup_lt_is_Some_2 ks mid) as [m Hm]; [lia|].
  rewrite (Hb mid m) by (done || lia). run. destruct (pred m) eqn:Hp.
  - apply IH; [lia..| | |done].
    + intros i a Hi. apply Hb. lia.
    + intros i a Hi Ha. apply (Hd a m); [|done].
      apply (keys_sorted_lookup ks i mid); [done|lia|done..].
  - apply IH; [lia..| |done|].
    + intros i a Hi. apply Hb. lia.
    + intros i a Hi Ha. destruct (pred a) eqn:Hpa; [|done].
      rewrite (Hd m a) in Hp; [done| |done].
      apply (keys_sorted_lookup ks mid i); [done|lia|done..].
Qed.

(** What follows (precedes) the partition point of a sorted list of rows. *)
Lemma drop_leading pred (l : list RowEntry) :
  downward pred → keys_sorted (key <$> l) →
  drop (leading pred (key <$> l)) l = filter (λ e, pred (key e) = false) l.
Proof.
  intros Hd. induction l as [|e l IH]; intros Hs; [done|].
  rewrite fmap_cons in Hs |- *. apply StronglySorted_cons in Hs as [Hall Hs]. cbn [leading].
  destruct (pred (key e)) eqn:Hp.
  - rewrite filter_cons_False by congruence. by rewrite <- IH.
  - rewrite filter_cons_True by done. cbn. f_equal. symmetry. apply list_filter_all.
    rewrite Forall_fmap in Hall. eapply Forall_impl; [exact Hall|]. cbn. intros e' He'.
    destruct (pred (key e')) eqn:Hp'; [|done]. by rewrite (Hd _ _ He' Hp') in Hp.
Qed.

Lemma take_leading pred (l : list RowEntry) :
  downward pred → keys_sorted (key <$> l) →
  take (leading pred (key <$> l)) l = filter (λ e, pred (key e) = true) l.
Proof.
  intros Hd. induction l as [|e l IH]; intros Hs; [done|].
  rewrite fmap_cons in Hs |- *. apply StronglySorted_cons in Hs as [Hall Hs]. cbn [leading].
  destruct (pred (key e)) eqn:Hp.
  - rewrite filter_cons_True by done. cbn. f_equal. by apply IH.
  - rewrite filter_cons_False by congruence. cbn. symmetry. apply list_filter_none.
    rewrite Forall_fmap in Hall. eapply Forall_impl; [exact Hall|]. cbn. intros e' He' Hp'.
    by rewrite (Hd _ _ He' Hp') in Hp.
Qed.

(** ** The iterator *)

Module BlockIterator.

Record t := mk {
  block : Block;
  off_off : nat;
  first_key : bytes;
  ordering : IterationOrder;
}.

(** [BlockIterator::decode_first_key] *)
Definition decode_first_key (block : Block) : result bytes :=
  '(overlap_len, buf) ← get_be 2 (data block);
  _ ← rust_assert (overlap_len =? 0)%Z;
  '(key_len, buf) ← get_be 2 buf;
  slice_to (Z.to_nat key_len) buf.

(** [BlockIterator::new] *)
Definition new (block : Block) (ordering : IterationOrder) : result t :=
  first_key ← decode_first_key block;
  mret (mk block 0 first_key ordering).

(** [BlockIterator::is_empty] *)
Definition is_empty (it : t) : bool := bool_decide (length (offsets (block it)) ≤ off_off it).

(** [BlockIterator::load_at_current_off] *)
Definition load_at_current_off (it : t) : result (option RowEntry) :=
  if is_empty it then mret None
  else
    let off_off := match ordering it with
                   | Ascending => off_off it
                   | Descending => length (offsets (block it)) - 1 - off_off it
                   end in
    off ← index (offsets (block it)) off_off;
    cursor ← slice_from (Z.to_nat off) (data (block it));
    '(row, _) ← decode_v0 cursor;
    k ← restore_full_key row (first_key it);
    mret (Some (mkRow k (sst_value row) (sst_seq row) (sst_create_ts row) (sst_expire_ts row))).

(** [BlockIterator::next] *)
Definition next (it : t) : result (option RowEntry * t) :=
  r ← load_at_current_off it;
  match r with
  | None => mret (None, it)
  | Some e => mret (Some e, mk (block it) (S (off_off it)) (first_key it) (ordering it))
  end.

(** [BlockIterator::decode_key_at_index] *)
Definition decode_key_at_index (it : t) (i : nat) : result bytes :=
  off ← index (offsets (block it)) i;
  cursor ← slice_from (Z.to_nat off) (data (block it));
  '(key_prefix_len, cursor) ← get_be 2 cursor;
  '(key_suffix_len, cursor) ← get_be 2 cursor;
  key_suffix ← slice_to (Z.to_nat key_suffix_len) cursor;
  prefix ← slice_to (Z.to_nat key_prefix_len) (first_key it);
  mret (prefix ++ key_suffix).

(** [BlockIterator::seek]; the loops take at most as many steps as there are rows. *)
Definition seek (next_key : bytes) (it : t) : result t :=
  let num_entries := length (offsets (block it)) in
  if decide (num_entries = 0) then mret it
  else
    match ordering it with
    | Ascending =>
        low ← bisect (S num_entries)
                (λ mid, mid_key ← decode_key_at_index it mid; mret (ord_ltb mid_key next_key))
                0 num_entries;
        mret (mk (block it) low (first_key it) (ordering it))
    | Descending =>
        low ← bisect (S num_entries)
                (λ mid, mid_key ← decode_key_at_index it mid; mret (ord_leb mid_key next_key))
                0 num_entries;
        let off_off := if decide (0 < low) then num_entries - 1 - (low - 1) else num_entries in
        mret (mk (block it) off_off (first_key it) (ordering it))
    end.

Global Instance iterator : RowEntryIterator t := {
  it_init it := mret it;
  it_next := next;
  it_seek := seek;
}.

End BlockIterator.

(** ** What the iterator reads

    [v1_block blk es]: the bytes of [blk] are the V1 layout of the rows [es]. *)
Record v1_block (blk : Block) (es : list RowEntry) : Prop := {
  v1b_data : data blk = concat (v1_chunks es);
  v1b_offsets : offsets blk = Z.of_nat <$> starts 0 (v1_chunks es);
  v1b_storable : Forall storable es;
  v1b_nonempty : es ≠ [];
}.

(** The V0 row format drops the expiry of a tombstone. *)
Definition stored_v0 (e : RowEntry) : RowEntry :=
  if is_tombstone (value e) then mkRow (key e) (value e) (seq e) (create_ts e) None else e.

Definition in_order {A} (o : IterationOrder) (l : list A) : list A :=
  match o with Ascending => l | Descending => reverse l end.

(** The rows at or after [k] in the direction of the scan. *)
Definition from_key (o : IterationOrder) (k : bytes) (l : list RowEntry) : list RowEntry :=
  match o with
  | Ascending => filter (λ e, ord_ltb (key e) k = false) l
  | Descending => reverse (filter (λ e, ord_leb (key e) k = true) l)
  end.

Lemma key_stored_v0 e : key (stored_v0 e) = key e.
Proof. unfold stored_v0. by destruct (is_tombstone _). Qed.

Lemma keys_stored_v0 (es : list RowEntry) : key <$> (stored_v0 <$> es) = key <$> es.
Proof. rewrite <- list_fmap_compose. apply list_fmap_ext. intros ? ? _. apply key_stored_v0. Qed.

Section v1_iteration.
  Context (blk : Block) (es : list RowEntry).
  Context (Hblk : v1_block blk es).
  Import BlockIterator.

(** An iterator over [blk] with [n] rows already returned. *)
Definition v1_at (o : IterationOrder) (n : nat) : t := mk blk n (first_key_of es) o.

Lemma v1_num : length (offsets blk) = length es.
Proof. rewrite (v1b_offsets _ _ Hblk). by rewrite length_fmap, length_starts, length_v1_chunks. Qed.

(** Each row's bytes are at its offset, with a prefix it shares with the first key. *)
Lemma v1_row_at i e :
  es !! i = Some e →
  ∃ off r tail, index (E:=SlateDBError) (offsets blk) i = Ok off ∧
    slice_from (E:=SlateDBError) (Z.to_nat off) (data blk) = Ok (row_bytes_v0 r ++ tail) ∧
    sst_row_wf r ∧ (∃ fk, r = v1_row fk e) ∧ restore_full_key r (first_key_of es) = Ok (key e).
Proof.
  intros Hi. pose proof (v1b_storable _ _ Hblk) as Hst.
  assert (∃ fk, v1_rows es !! i = Some (v1_row fk e) ∧
    take (count_equal fk (key e)) (first_key_of es) = take (count_equal fk (key e)) (key e) ∧
    count_equal fk (key e) ≤ length (first_key_of es)) as (fk & Hrow & Htake & Hle).
  { destruct es as [|e0 es']; [done|]. destruct i as [|i]; cbn in Hi.
    - simplify_eq. exists []. split_and!; [done..|cbn; lia].
    - exists (key e0). change (v1_rows (e0 :: es') !! S i) with ((v1_row (key e0) <$> es') !! i).
      rewrite (list_lookup_fmap_Some_2 _ es' i e) by exact Hi.
      destruct (count_equal_spec (key e0) (key e)) as (H1 & _ & H3 & _). done. }
  assert (v1_chunks es !! i = Some (row_bytes_v0 (v1_row fk e))) as Hc
    by (unfold v1_chunks; by rewrite list_lookup_fmap, Hrow).
  destruct (starts_lookup 0 _ _ _ Hc) as (o & Ho & Hlen & Hd).
  exists (Z.of_nat o), (v1_row fk e), (concat (drop (S i) (v1_chunks es))). split_and!.
  - unfold index. rewrite (v1b_offsets _ _ Hblk), list_lookup_fmap, Ho. done.
  - unfold slice_from. rewrite Nat2Z.id, (v1b_data _ _ Hblk), decide_True by lia. by rewrite Hd.
  - apply v1_row_wf. rewrite Forall_lookup in Hst. eauto.
  - by exists fk.
  - unfold restore_full_key, slice_to. cbn. rewrite decide_True by done. run.
    by rewrite Htake, take_drop.
Qed.

Lemma v1_key_at o n i e :
  es !! i = Some e → decode_key_at_index (v1_at o n) i = Ok (key e).
Proof.
  intros Hi. destruct (v1_row_at i e Hi) as (off & r & tail & Hidx & Hsl & Hwf & _ & Hrest).
  unfold decode_key_at_index. cbn [block first_key v1_at]. rewrite Hidx. run. rewrite Hsl. run.
  destruct Hwf as [Hk _ _ _ _]. unfold u16_max in Hk. unfold row_bytes_v0. rewrite <- !app_assoc.
  rewrite get_put_nat by lia. run. rewrite get_put_nat by lia. run.
  rewrite slice_to_app' by lia. run. by rewrite Nat2Z.id.
Qed.

Lemma v1_load o n i e :
  i = match o with Ascending => n | Descending => length es - 1 - n end → n < length es →
  es !! i = Some e → load_at_current_off (v1_at o n) = Ok (Some (stored_v0 e)).
Proof.
  intros Hin Hn Hi. destruct (v1_row_at i e Hi) as (off & r & tail & Hidx & Hsl & Hwf & [fk ->] & Hrest).
  unfold load_at_current_off, is_empty. cbn [block off_off first_key ordering v1_at].
  rewrite v1_num, bool_decide_eq_false_2 by lia. rewrite <- Hin, Hidx. run. rewrite Hsl. run.
  destruct (decode_v0_ok _ tail Hwf) as [rest ->]. run.
  assert (restore_full_key (forget_expiry (v1_row fk e)) (first_key_of es) = Ok (key e)) as ->.
  { unfold forget_expiry. by destruct (is_tombstone _). }
  run. unfold stored_v0, forget_expiry. cbn.
  destruct e as [k v s c x]. cbn. by destruct v.
Qed.

Lemma v1_next o n e l :
  drop n (in_order o es) = e :: l →
  next (v1_at o n) = Ok (Some (stored_v0 e), v1_at o (S n)).
Proof.
  intros Hd. assert (in_order o es !! n = Some e) as Hl.
  { rewrite <- (Nat.add_0_r n), <- lookup_drop, Hd. done. }
  assert (n < length es) as Hn.
  { apply lookup_lt_Some in Hl. destruct o; cbn in Hl; [done|by rewrite length_reverse in Hl]. }
  unfold next. destruct o; cbn in Hl.
  - rewrite (v1_load Ascending n n e) by done. by run.
  - rewrite reverse_lookup in Hl by done.
    rewrite (v1_load Descending n (length es - 1 - n) e); [by run|done..|].
    rewrite <- Hl. f_equal. lia.
Qed.

Lemma v1_next_end o n :
  drop n (in_order o es) = [] → next (v1_at o n) = Ok (None, v1_at o n).
Proof.
  intros Hl. unfold next, load_at_current_off, is_empty.
  cbn [block off_off v1_at]. rewrite v1_num, bool_decide_eq_true_2; [by run|].
  apply (f_equal length) in Hl. rewrite length_drop in Hl.
  destruct o; cbn in Hl; rewrite ?length_reverse in Hl; lia.
Qed.

Lemma v1_yields o n :
  yields (v1_at o n) (stored_v0 <$> drop n (in_order o es)).
Proof.
  remember (drop n (in_order o es)) as l eqn:Hl. revert n Hl.
  induction l as [|e l IH]; intros n Hl.
  - exists (v1_at o n). by apply v1_next_end.
  - rewrite fmap_cons. exists (v1_at o (S n)). split; [by eapply v1_next|]. apply IH.
    by rewrite <- Nat.add_1_r, <- drop_drop, <- Hl.
Qed.

Lemma v1_keys_below o n (pred : bytes → bool) i a :
  (key <$> es) !! i = Some a →
  (mid_key ← decode_key_at_index (v1_at o n) i; mret (pred mid_key)) = Ok (pred a).
Proof.
  rewrite list_lookup_fmap, fmap_Some. intros (e & Hi & ->). rewrite (v1_key_at o n i e Hi). by run.
Qed.

Lemma v1_bisect o n (pred : bytes → bool) :
  keys_sorted (key <$> es) → downward pred →
  bisect (S (length es)) (λ i, k ← decode_key_at_index (v1_at o n) i; mret (pred k)) 0 (length es)
    = Ok (leading pred (key <$> es)).
Proof.
  intros Hs Hd. apply bisect_ok; [done|done|lia|rewrite length_fmap; lia|..].
  - intros i a _ Ha. by apply v1_keys_below.
  - intros i a Hi. lia.
  - intros i a Hi Ha%lookup_lt_Some. rewrite length_fmap in Ha. lia.
Qed.

Lemma v1_seek o n k :
  keys_sorted (key <$> es) →
  ∃ m, seek k (v1_at o n) = Ok (v1_at o m) ∧ m ≤ length es ∧ drop m (in_order o es) = from_key o k es.
Proof.
  intros Hs. pose proof (v1b_nonempty _ _ Hblk) as Hne.
  unfold seek. cbn [block ordering first_key v1_at]. rewrite v1_num, decide_False
    by (destruct es; cbn; [done|lia]).
  destruct o; rewrite v1_bisect by (done || apply downward_ltb || apply downward_leb); run.
  - eexists. split; [done|]. split; [etrans; [apply leading_le|by rewrite length_fmap]|].
    cbn. apply (drop_leading (λ a, ord_ltb a k)); [apply downward_ltb|done].
  - eexists. split; [done|]. split; [destruct (decide _); lia|]. cbn.
    rewrite <- (take_leading (λ a, ord_leb a k)) by (done || apply downward_leb).
    pose proof (leading_le (λ a, ord_leb a k) (key <$> es)) as Hle. rewrite length_fmap in Hle.
    set (m := leading _ _) in *.
    replace (if decide (0 < m) then _ else _) with (length es - m) by (destruct (decide _); lia).
    assert (reverse es = reverse (drop m es) ++ reverse (take m es)) as ->
      by by rewrite <- reverse_app, take_drop.
    rewrite drop_app_length'; [done|]. rewrite length_reverse, length_drop. lia.
Qed.

Lemma v1_new o : new blk o = Ok (v1_at o 0).
Proof.
  destruct es as [|e0 es'] eqn:Hes; [by destruct (v1b_nonempty _ _ Hblk)|].
  pose proof (v1b_storable _ _ Hblk) as Hst. apply Forall_cons in Hst as [[_ _ Hk _] _].
  unfold u16_max in Hk. unfold new, decode_first_key. rewrite (v1b_data _ _ Hblk).
  unfold v1_chunks. cbn [v1_rows]. rewrite fmap_cons. cbn [concat].
  unfold row_bytes_v0 at 1. rewrite <- !app_assoc. cbn [key_prefix_len v1_row count_equal].
  assert (key_suffix (v1_row [] e0) = key e0) as -> by done.
  rewrite get_put_nat by lia. run. change (Z.of_nat 0 =? 0)%Z with true. run.
  rewrite get_put_nat by lia. run. rewrite slice_to_app' by lia. run.
  unfold v1_at. by rewrite Hes.
Qed.
End v1_iteration.

Lemma from_key_stored o k (es : list RowEntry) :
  from_key o k (stored_v0 <$> es) = stored_v0 <$> from_key o k es.
Proof.
  assert (∀ (p : bytes → bool) b,
    filter (λ e, p (key e) = b) (stored_v0 <$> es) = stored_v0 <$> filter (λ e, p (key e) = b) es) as Hf.
  { intros p b. induction es as [|e es IH]; [done|]. rewrite fmap_cons, !filter_cons, key_stored_v0.
    destruct (decide (p (key e) = b)); rewrite ?fmap_cons; by rewrite IH. }
  destruct o; cbn; [apply (Hf (λ a, ord_ltb a k))|].
  rewrite fmap_reverse. f_equal. apply (Hf (λ a, ord_leb a k)).
Qed.

(** ** The iterator as a scan *)

(** A position from which the rows at or above [k] start has only rows below [k] before it. *)
Lemma below_position m k (es : list RowEntry) :
  drop m es = from_key Ascending k es → Forall (λ e, key e ≺ k) (take m es).
Proof.
  cbn. intros Hd. assert (filter (λ e, ord_ltb (key e) k = false) (take m es) = []) as Hnil.
  { assert (filter (λ e, ord_ltb (key e) k = false) (drop m es) = drop m es) as Hall.
    { apply list_filter_all. rewrite Hd. apply Forall_forall. intros e He.
      by apply list_elem_of_filter in He as []. }
    pose proof (filter_app (λ e, ord_ltb (key e) k = false) (take m es) (drop m es)) as Happ.
    rewrite take_drop, Hall, <- Hd in Happ. apply (f_equal length) in Happ. rewrite length_app in Happ.
    apply nil_length_inv. lia. }
  apply Forall_forall. intros e He. destruct (ord_ltb (key e) k) eqn:Hk; [revert Hk; ord|].
  assert (e ∈ filter (λ e, ord_ltb (key e) k = false) (take m es)) as Hin by by apply list_elem_of_filter.
  rewrite Hnil in Hin. by apply not_elem_of_nil in Hin.
Qed.

Lemma from_key_drop n k (es : list RowEntry) :
  Forall (λ e, key e ≺ k) (take n es) → from_key Ascending k es = from_key Ascending k (drop n es).
Proof.
  intros Hn. cbn. rewrite <- (take_drop n es) at 1. rewrite filter_app, list_filter_none; [done|].
  eapply Forall_impl; [exact Hn|]. cbn. intros e He. ord.
Qed.

Definition v1_scan (it : BlockIterator.t) (returned l : list RowEntry) : Prop :=
  ∃ blk es n, v1_block blk es ∧ keys_sorted (key <$> es) ∧ it = v1_at blk es Ascending n ∧
    returned = stored_v0 <$> take n es ∧ l = stored_v0 <$> drop n es.

Global Instance v1_scan_next : Scan v1_scan.
Proof.
  intros it returned l (blk & es & n & Hblk & Hs & -> & -> & ->).
  destruct (drop n es) as [|e l] eqn:Hd; cbn [fmap list_fmap].
  - exists (v1_at blk es Ascending n). split; [by apply v1_next_end|].
    exists blk, es, n. split_and!; try done. by rewrite Hd.
  - exists (v1_at blk es Ascending (S n)). split; [by eapply v1_next|].
    assert (es !! n = Some e) as He by (rewrite <- (Nat.add_0_r n), <- lookup_drop, Hd; done).
    exists blk, es, (S n). split_and!; try done.
    + by rewrite (take_S_r _ _ _ He), fmap_app.
    + rewrite (drop_S _ _ _ He) in Hd. by simplify_eq.
Qed.

Global Instance v1_scan_seek : ScanSeek v1_scan.
Proof.
  intros it returned l k (blk & es & n & Hblk & Hs & -> & -> & ->) Hret.
  destruct (v1_seek blk es Hblk Ascending n k Hs) as (m & Hseek & _ & Hm).
  pose proof (below_position m k es Hm) as Hbelow. cbn [in_order] in Hm.
  assert (∀ l : list RowEntry, Forall (λ e, key e ≺ k) (stored_v0 <$> l) ↔ Forall (λ e, key e ≺ k) l) as Hst.
  { intros l. rewrite Forall_fmap. apply Forall_iff. intros e. unfold compose. by rewrite key_stored_v0. }
  exists (v1_at blk es Ascending m), (stored_v0 <$> take m es). split; [done|]. split; [|by apply Hst].
  exists blk, es, m. split_and!; try done. rewrite Hm.
  rewrite (from_key_drop n k es) by by apply Hst. apply (from_key_stored Ascending k).
Qed.

(** ** The V1 builder and iterator together *)

(** Adding rows one after the other; [None] when one does not fit. *)
Fixpoint add_all_v1 (b : BuilderV1.t) (es : list RowEntry) : result (option BuilderV1.t) :=
  match es with
  | [] => mret (Some b)
  | e :: es =>
      '(added, b) ← BuilderV1.add b e;
      if (added : bool) then add_all_v1 b es else mret None
  end.

Lemma add_all_v1_builds b b' done_ es :
  v1_builds b done_ → (Z.of_nat (BuilderV1.block_size b) ≤ 65536)%Z → Forall storable es →
  add_all_v1 b es = Ok (Some b') →
  v1_builds b' (done_ ++ es) ∧ BuilderV1.block_size b' = BuilderV1.block_size b.
Proof.
  intros Hb Hbs Hes. revert b done_ Hb Hbs. induction Hes as [|e es He Hes IH]; intros b done_ Hb Hbs Hadd.
  - cbn in Hadd. inv_bind. by rewrite app_nil_r.
  - cbn [add_all_v1] in Hadd. pose proof (v1_add b done_ e Hb He Hbs) as Hv.
    destruct (_ || _).
    + destruct Hv as (b1 & Hv & Hb1 & Hsz). rewrite Hv in Hadd.
      rewrite (bind_Ok (true, b1)) in Hadd. rewrite cons_middle, app_assoc, <- Hsz.
      apply (IH b1); [done|by rewrite Hsz|done].
    + rewrite Hv in Hadd. rewrite (bind_Ok (false, b)) in Hadd. done.
Qed.

Lemma v1_builds_block b es :
  v1_builds b es → es ≠ [] → ∃ blk, BuilderV1.build b = Ok blk ∧ v1_block blk es.
Proof.
  intros Hb Hne. exists (mkBlock (BuilderV1.data b) (BuilderV1.offsets b)).
  unfold BuilderV1.build. rewrite (v1_is_empty b es Hb), bool_decide_eq_false_2 by done.
  split; [done|]. split; cbn; [apply Hb..|done].
Qed.

Lemma v1_block_decodes b es blk :
  v1_builds b es → (Z.of_nat (BuilderV1.block_size b) ≤ 65536)%Z → BuilderV1.build b = Ok blk →
  block_decode (block_encode blk) = Ok blk.
Proof.
  intros Hb Hbs Hbuild. unfold BuilderV1.build in Hbuild.
  rewrite (v1_is_empty b es Hb) in Hbuild. destruct (bool_decide_reflect (es = [])) as [|Hne]; [done|].
  injection Hbuild as <-. pose proof (v1_size_eq b es Hb) as Hsz.
  assert (length es ≤ 1 ∨ (Z.of_nat (length (concat (v1_chunks es))) + 2 * Z.of_nat (length es) ≤ 65536)%Z)
    as Hbound by (destruct (v1_size b es Hb); [by left|right; lia]).
  apply block_decode_encode; cbn; rewrite (v1_offsets b es Hb).
  - apply Forall_fmap, Forall_lookup. intros i o Hi. unfold compose, is_u16.
    assert (i < length (v1_chunks es)) as Hlt by (apply lookup_lt_Some in Hi; by rewrite length_starts in Hi).
    destruct (lookup_lt_is_Some_2 _ _ Hlt) as [c Hc]. rewrite length_v1_chunks in Hlt.
    destruct (starts_lookup 0 _ _ _ Hc) as (o' & Ho & Hle & _). rewrite Ho in Hi. simplify_eq/=.
    destruct Hbound as [H1|H1]; [|lia].
    destruct i as [|i]; [|lia]. unfold v1_chunks in Ho. destruct es; [done|].
    cbn in Ho. simplify_eq. lia.
  - rewrite length_fmap, length_starts, length_v1_chunks. unfold u16_max. lia.
Qed.

(** Every block the V1 builder produces from rows added in key order, with one of the
    supported block sizes, survives encoding and decoding and is read back exactly: the iterator
    yields the rows in the order asked for, and a seek leaves exactly the rows at or beyond the
    key (several versions of one key included).  Tombstones come back without their expiry. *)
Theorem block_v1_reads_back (block_size : nat) (es : list RowEntry) (b : BuilderV1.t) :
  (Z.of_nat block_size ≤ 65536)%Z → Forall storable es → es ≠ [] → keys_sorted (key <$> es) →
  add_all_v1 (BuilderV1.new block_size) es = Ok (Some b) →
  ∃ blk, BuilderV1.build b = Ok blk ∧ block_decode (block_encode blk) = Ok blk ∧
    ∀ o, ∃ it, BlockIterator.new blk o = Ok it ∧
      yields it (in_order o (stored_v0 <$> es)) ∧
      ∀ k, ∃ it', it_seek k it = Ok it' ∧ yields it' (from_key o k (stored_v0 <$> es)).
Proof.
  intros Hbs Hst Hne Hs Hadd.
  pose proof (add_all_v1_builds _ _ _ _ (v1_builds_new block_size) Hbs Hst Hadd) as [Hb Hsz].
  destruct (v1_builds_block b es Hb Hne) as (blk & Hbuild & Hblk).
  exists blk. split; [done|]. split; [by apply (v1_block_decodes b es blk); [|rewrite Hsz|]|].
  intros o. exists (v1_at blk es o 0). split; [by apply v1_new|]. split.
  - pose proof (v1_yields blk es Hblk o 0) as Hy. rewrite drop_0 in Hy.
    destruct o; cbn in *; [done|]. by rewrite fmap_reverse in Hy.
  - intros k. destruct (v1_seek blk es Hblk o 0 k Hs) as (n & Hseek & _ & Hn).
    exists (v1_at blk es o n). split; [done|]. rewrite from_key_stored, <- Hn. by apply v1_yields.
Qed.

Lemma block_v1_reads_back_witness :
  let e1 := mkRow [97%Z] (Value [1%Z]) 5 None None in
  let e2 := mkRow [97%Z] Tombstone 4 None (Some 9%Z) in
  ∃ b blk, add_all_v1 (BuilderV1.new 4096) [e1; e2] = Ok (Some b) ∧
    BuilderV1.build b = Ok blk ∧ block_decode (block_encode blk) = Ok blk.
Proof.
  intros e1 e2.
  destruct (add_all_v1 (BuilderV1.new 4096) [e1; e2]) as [[b|]| | |] eqn:Hadd;
    try (vm_compute in Hadd; discriminate Hadd).
  destruct (block_v1_reads_back 4096 [e1; e2] b) as (blk & Hb & Hd & _); [lia| |done| |done|].
  - repeat constructor; cbn; unfold is_u64, is_i64, u16_max, u32_max; (lia || done).
  - cbn. repeat constructor; vm_compute; discriminate.
  - exists b, blk. exact (conj eq_refl (conj Hb Hd)).
Defined.

(** A V1 block of more than one row exceeds [block_size] by at most the two bytes of one
    offset, and that excess does occur: [would_fit] does not count the offset of the row it is
    asked about. *)
Theorem block_v1_size_bound :
  (∀ (block_size : nat) (es : list RowEntry) (b : BuilderV1.t) (blk : Block),
     (Z.of_nat block_size ≤ 65536)%Z → Forall storable es →
     add_all_v1 (BuilderV1.new block_size) es = Ok (Some b) → BuilderV1.build b = Ok blk →
     length es ≤ 1 ∨ length (block_encode blk) ≤ block_size + 2) ∧
  (∃ b blk, add_all_v1 (BuilderV1.new 40) [mkRow [97%Z] (Value []) 2 None None;
                                           mkRow [98%Z] (Value []) 1 None None] = Ok (Some b) ∧
     BuilderV1.build b = Ok blk ∧ length (block_encode blk) = 40 + 2).
Proof.
  split.
  - intros block_size es b blk Hbs Hst Hadd Hbuild.
    pose proof (add_all_v1_builds _ _ _ _ (v1_builds_new block_size) Hbs Hst Hadd) as [Hb Hsz].
    destruct (v1_size b es Hb) as [|Hle]; [by left|right]. cbn in Hsz. rewrite Hsz in Hle.
    unfold BuilderV1.build in Hbuild. destruct (BuilderV1.is_empty b); [done|].
    injection Hbuild as <-. rewrite length_block_encode.
    unfold block_size_of, BuilderV1.size in *. cbn [data offsets]. lia.
  - eexists _, _. split; [vm_compute; reflexivity|]. split; [vm_compute; reflexivity|].
    vm_compute. reflexivity.
Qed.
