(* ===== verification/BlockIterV2.v ===== *)
(** * The V2 block iterator ([block_iterator_v2.rs])

    Rows are decoded relative to the previous key, so the ascending iterator
    carries that key along and a seek starts from a restart point; the descending
    iterator decodes one restart region at a time into a cache. *)

From S2P Require Export BlockIter.

(** ** The ascending iterator *)

Record AscendingState := mkAsc {
  block : Block;
  current_restart_idx : nat;
  offset_in_block : nat;
  entries_since_restart : nat;
  current_key : bytes;
  exhausted : bool;
}.

(** [BlockIteratorV2::decode_first_key_at_restart] *)
Definition decode_first_key_at_restart (blk : Block) (restart_idx : nat) : result bytes :=
  restart_offset ← index (offsets blk) restart_idx;
  data ← slice_from (Z.to_nat restart_offset) (data blk);
  '(shared_bytes, key_suffix) ← decode_key_only data;
  _ ← rust_assert (shared_bytes =? 0)%Z;
  mret key_suffix.

Definition initial_key (blk : Block) : result bytes :=
  if decide (offsets blk = []) then mret [] else decode_first_key_at_restart blk 0.

(** [BlockIteratorV2::new], ascending. *)
Definition asc_new (blk : Block) : result AscendingState :=
  k ← initial_key blk; mret (mkAsc blk 0 0 0 k false).

(** [AscendingState::seek_to_restart] *)
Definition seek_to_restart (st : AscendingState) (restart_idx : nat) : result AscendingState :=
  if decide (length (offsets (block st)) ≤ restart_idx)
  then mret (mkAsc (block st) (current_restart_idx st) (offset_in_block st)
               (entries_since_restart st) (current_key st) true)
  else
    off ← index (offsets (block st)) restart_idx;
    k ← decode_first_key_at_restart (block st) restart_idx;
    mret (mkAsc (block st) restart_idx (Z.to_nat off) 0 k false).

(** [AscendingState::decode_entry_at_current_offset] *)
Definition decode_entry_at_current_offset (st : AscendingState) : result (RowEntry * nat) :=
  cursor ← slice_from (offset_in_block st) (data (block st));
  '(row, cursor) ← decode_v2 cursor;
  let bytes_consumed := length (data (block st)) - offset_in_block st - length cursor in
  let new_offset := offset_in_block st + bytes_consumed in
  full_key ← restore_full_key_v2 row (current_key st);
  mret (mkRow full_key (v2_value row) (v2_seq row) (v2_create_ts row) (v2_expire_ts row), new_offset).

(** [AscendingState::decode_key_at_offset] *)
Definition decode_key_at_offset (st : AscendingState) (offset : nat) (prev_key : bytes) : result bytes :=
  cursor ← slice_from offset (data (block st));
  '(shared_bytes, key_suffix) ← decode_key_only cursor;
  prefix ← slice_to (Z.to_nat shared_bytes) prev_key;
  mret (prefix ++ key_suffix).

(** [AscendingState::is_empty] *)
Definition asc_is_empty (st : AscendingState) : bool :=
  exhausted st || bool_decide (length (data (block st)) ≤ offset_in_block st).

(** [AscendingState::binary_search_restarts] *)
Definition binary_search_restarts (st : AscendingState) (target : bytes) : result nat :=
  let n := length (offsets (block st)) in
  bisect (S n)
    (λ mid, restart_key ← decode_first_key_at_restart (block st) mid;
            mret (ord_ltb restart_key target)) 0 n.

(** [AscendingState::find_restart_for_key_ascending]; [saturating_sub] is [nat] subtraction. *)
Definition find_restart_for_key_ascending (st : AscendingState) (target : bytes) : result nat :=
  if decide (offsets (block st) = []) then mret 0
  else
    low ← binary_search_restarts st target;
    if decide (low < length (offsets (block st))) then
      restart_key ← decode_first_key_at_restart (block st) low;
      if ord_eqb restart_key target then mret (low - 1) else mret (low - 1)
    else mret (low - 1).

(** The forward scan over restarts with the same first key. *)
Fixpoint last_equal_restart (fuel : nat) (blk : Block) (target : bytes) (last : nat) : result nat :=
  match fuel with
  | O => OutOfFuel
  | S fuel =>
      if decide (last + 1 < length (offsets blk)) then
        next_key ← decode_first_key_at_restart blk (last + 1);
        if ord_eqb next_key target then last_equal_restart fuel blk target (last + 1) else mret last
      else mret last
  end.

(** [AscendingState::find_restart_for_key_descending] *)
Definition find_restart_for_key_descending (st : AscendingState) (target : bytes) : result nat :=
  if decide (offsets (block st) = []) then mret 0
  else
    low ← binary_search_restarts st target;
    if decide (low < length (offsets (block st))) then
      restart_key ← decode_first_key_at_restart (block st) low;
      if ord_eqb restart_key target
      then last_equal_restart (length (offsets (block st))) (block st) target low
      else mret (low - 1)
    else mret (low - 1).

(** [AscendingState::restart_region_end] *)
Definition restart_region_end (st : AscendingState) (restart_idx : nat) : nat :=
  match offsets (block st) !! (restart_idx + 1) with
  | Some off => Z.to_nat off
  | None => length (data (block st))
  end.

(** [AscendingState::advance_past_current_entry] *)
Definition advance_past_current_entry (st : AscendingState) : result AscendingState :=
  cursor ← slice_from (offset_in_block st) (data (block st));
  '(_, cursor) ← decode_v2 cursor;
  let bytes_consumed := length (data (block st)) - offset_in_block st - length cursor in
  mret (mkAsc (block st) (current_restart_idx st) (offset_in_block st + bytes_consumed)
          (S (entries_since_restart st)) (current_key st) (exhausted st)).

Definition set_key (st : AscendingState) (k : bytes) : AscendingState :=
  mkAsc (block st) (current_restart_idx st) (offset_in_block st) (entries_since_restart st) k (exhausted st).

(** [BlockIteratorV2::next], ascending. *)
Definition asc_next (st : AscendingState) : result (option RowEntry * AscendingState) :=
  if asc_is_empty st then mret (None, st)
  else
    '(entry, new_offset) ← decode_entry_at_current_offset st;
    let '(idx, since) :=
      match offsets (block st) !! (current_restart_idx st + 1) with
      | Some next_restart_offset =>
          if decide (Z.to_nat next_restart_offset ≤ new_offset)
          then (S (current_restart_idx st), 0)
          else (current_restart_idx st, S (entries_since_restart st))
      | None => (current_restart_idx st, S (entries_since_restart st))
      end in
    let ex := if decide (length (data (block st)) ≤ new_offset) then true else exhausted st in
    mret (Some entry, mkAsc (block st) idx new_offset since (key entry) ex).

(** The scan of one restart region in the ascending [seek]; true when it stopped at a row. *)
Fixpoint scan_region (fuel : nat) (st : AscendingState) (region_end : nat) (prev_key next_key : bytes)
    : result (bool * AscendingState) :=
  match fuel with
  | O => OutOfFuel
  | S fuel =>
      if decide (offset_in_block st < region_end ∧ offset_in_block st < length (data (block st))) then
        k ← decode_key_at_offset st (offset_in_block st) prev_key;
        if ord_leb next_key k then mret (true, set_key st prev_key)
        else
          st ← advance_past_current_entry st;
          scan_region fuel (set_key st k) region_end k next_key
      else mret (false, st)
  end.

(** The loop over restart regions, [remaining] of them from [restart_idx] on. *)
Fixpoint seek_regions (remaining restart_idx : nat) (st : AscendingState) (next_key : bytes)
    : result AscendingState :=
  match remaining with
  | O => mret (mkAsc (block st) (current_restart_idx st) (offset_in_block st)
                 (entries_since_restart st) (current_key st) true)
  | S remaining =>
      st ← seek_to_restart st restart_idx;
      if exhausted st || ord_leb next_key (current_key st) then mret st
      else
        let region_end := restart_region_end st restart_idx in
        '(found, st) ← scan_region (S (length (data (block st)))) st region_end (current_key st) next_key;
        if (found : bool) then mret st else seek_regions remaining (S restart_idx) st next_key
  end.

(** [BlockIteratorV2::seek], ascending. *)
Definition asc_seek (next_key : bytes) (st : AscendingState) : result AscendingState :=
  if decide (offsets (block st) = [])
  then mret (mkAsc (block st) (current_restart_idx st) (offset_in_block st)
               (entries_since_restart st) (current_key st) true)
  else
    start ← find_restart_for_key_ascending st next_key;
    seek_regions (length (offsets (block st)) - start) start st next_key.

(** ** The descending iterator *)

Record DescendingState := mkDesc {
  ascending : AscendingState;
  desc_restart_idx : Z;
  cached_entries : list RowEntry;
  cache_idx : Z;
  desc_exhausted : bool;
  initialized : bool;
}.

(** [DescendingBlockIteratorV2::new] *)
Definition desc_new (blk : Block) : result DescendingState :=
  k ← initial_key blk;
  let n := length (offsets blk) in
  mret (mkDesc (mkAsc blk 0 0 0 k false) (Z.of_nat n - 1) [] (-1) (bool_decide (n = 0)) false).

(** The loop of [load_restart_region]. *)
Fixpoint load_loop (fuel : nat) (st : AscendingState) (region_end : nat) (cached : list RowEntry)
    : result (AscendingState * list RowEntry) :=
  match fuel with
  | O => OutOfFuel
  | S fuel =>
      if bool_decide (offset_in_block st < region_end) && negb (asc_is_empty st) then
        '(entry, new_offset) ← decode_entry_at_current_offset st;
        load_loop fuel (mkAsc (block st) (current_restart_idx st) new_offset
          (S (entries_since_restart st)) (key entry) (exhausted st)) region_end (cached ++ [entry])
      else mret (st, cached)
  end.

(** [DescendingBlockIteratorV2::load_restart_region] *)
Definition load_restart_region (d : DescendingState) (restart_idx : nat) : result DescendingState :=
  if decide (length (offsets (block (ascending d))) ≤ restart_idx)
  then mret (mkDesc (ascending d) (desc_restart_idx d) [] (-1) (desc_exhausted d) (initialized d))
  else
    st ← seek_to_restart (ascending d) restart_idx;
    let region_end := restart_region_end st restart_idx in
    '(st, cached) ← load_loop (S (length (data (block st)))) st region_end [];
    mret (mkDesc st (desc_restart_idx d) cached (Z.of_nat (length cached) - 1)
            (desc_exhausted d) (initialized d)).

(** [DescendingBlockIteratorV2::move_to_previous_region] *)
Definition move_to_previous_region (d : DescendingState) : result DescendingState :=
  let idx := (desc_restart_idx d - 1)%Z in
  if decide (idx < 0)%Z
  then mret (mkDesc (ascending d) idx [] (-1) true (initialized d))
  else load_restart_region
         (mkDesc (ascending d) idx (cached_entries d) (cache_idx d) (desc_exhausted d) (initialized d))
         (Z.to_nat idx).

(** [DescendingBlockIteratorV2::init] *)
Definition desc_init (d : DescendingState) : result DescendingState :=
  if negb (initialized d) && negb (desc_exhausted d) then
    d ← load_restart_region d (Z.to_nat (desc_restart_idx d));
    mret (mkDesc (ascending d) (desc_restart_idx d) (cached_entries d) (cache_idx d) (desc_exhausted d) true)
  else mret d.

(** Return the cached entry and step back. *)
Definition desc_take (d : DescendingState) : result (option RowEntry * DescendingState) :=
  entry ← index (cached_entries d) (Z.to_nat (cache_idx d));
  mret (Some entry, mkDesc (ascending d) (desc_restart_idx d) (cached_entries d)
          (cache_idx d - 1) (desc_exhausted d) (initialized d)).

(** [DescendingBlockIteratorV2::next] *)
Definition desc_next (d : DescendingState) : result (option RowEntry * DescendingState) :=
  d ← (if negb (initialized d) then desc_init d else mret d);
  if desc_exhausted d then mret (None, d)
  else if decide (0 ≤ cache_idx d)%Z then desc_take d
  else
    d ← move_to_previous_region d;
    if desc_exhausted d || bool_decide (cache_idx d < 0)%Z
    then mret (None, mkDesc (ascending d) (desc_restart_idx d) (cached_entries d) (cache_idx d) true (initialized d))
    else desc_take d.

(** [position(|entry| entry.key > next_key)] *)
Fixpoint first_greater (l : list RowEntry) (k : bytes) : option nat :=
  match l with
  | [] => None
  | e :: l => if ord_ltb k (key e) then Some 0 else S <$> first_greater l k
  end.

(** The position of the largest key at most [next_key] in a region. *)
Definition found_idx (cached : list RowEntry) (next_key : bytes) : option nat :=
  match first_greater cached next_key with
  | Some O => None
  | Some i => Some (i - 1)
  | None => if decide (cached = []) then None else Some (length cached - 1)
  end.

(** The loop [for restart_idx in (0..=start).rev()]; [n] regions are left, the next is [n - 1]. *)
Fixpoint desc_seek_regions (n : nat) (d : DescendingState) (next_key : bytes) : result DescendingState :=
  match n with
  | O => mret (mkDesc (ascending d) (desc_restart_idx d) (cached_entries d) (cache_idx d) true (initialized d))
  | S n =>
      d ← load_restart_region
            (mkDesc (ascending d) (Z.of_nat n) (cached_entries d) (cache_idx d) (desc_exhausted d) (initialized d)) n;
      match found_idx (cached_entries d) next_key with
      | Some idx => mret (mkDesc (ascending d) (desc_restart_idx d) (cached_entries d) (Z.of_nat idx) false (initialized d))
      | None => desc_seek_regions n d next_key
      end
  end.

(** [DescendingBlockIteratorV2::seek] *)
Definition desc_seek (next_key : bytes) (d : DescendingState) : result DescendingState :=
  let d := mkDesc (ascending d) (desc_restart_idx d) (cached_entries d) (cache_idx d) (desc_exhausted d) true in
  if decide (offsets (block (ascending d)) = [])
  then mret (mkDesc (ascending d) (desc_restart_idx d) (cached_entries d) (cache_idx d) true true)
  else
    start ← find_restart_for_key_descending (ascending d) next_key;
    desc_seek_regions (S start) d next_key.

(** ** The iterator *)

Inductive BlockIteratorV2 := AscIt (st : AscendingState) | DescIt (d : DescendingState).

(** [BlockIteratorV2::new] *)
Definition v2_new (blk : Block) (ordering : IterationOrder) : result BlockIteratorV2 :=
  match ordering with
  | Ascending => st ← asc_new blk; mret (AscIt st)
  | Descending => d ← desc_new blk; mret (DescIt d)
  end.

(** [BlockIteratorV2::is_empty] *)
Definition v2_iter_is_empty (it : BlockIteratorV2) : bool :=
  match it with AscIt st => asc_is_empty st | DescIt d => desc_exhausted d end.

Global Instance v2_iterator : RowEntryIterator BlockIteratorV2 := {
  it_init it := mret it;
  it_next it := match it with
    | AscIt st => '(o, st) ← asc_next st; mret (o, AscIt st)
    | DescIt d => '(o, d) ← desc_next d; mret (o, DescIt d)
    end;
  it_seek k it := match it with
    | AscIt st => st ← asc_seek k st; mret (AscIt st)
    | DescIt d => d ← desc_seek k d; mret (DescIt d)
    end;
}.

(** ** What the iterator reads *)

(** The bytes of [blk] are the V2 layout of the rows [es] with restart interval [R]. *)
Record v2_block (blk : Block) (R : nat) (es : list RowEntry) : Prop := {
  v2b_interval : 1 ≤ R;
  v2b_data : data blk = concat (v2_chunks R es);
  v2b_offsets : offsets blk = restart_offsets R es;
  v2b_storable : Forall storable es;
  v2b_nonempty : es ≠ [];
}.

Lemma length_concat_nonempty (cs : list bytes) :
  Forall (λ c, c ≠ []) cs → length cs ≤ length (concat cs).
Proof.
  induction 1 as [|c cs Hc Hcs IH]; [done|]. cbn. rewrite length_app.
  destruct c; [done|]. cbn. lia.
Qed.

Section v2_iteration.
  Context (blk : Block) (R : nat) (es : list RowEntry) (Hblk : v2_block blk R es).
Let n := length es.
Let P := pos (v2_chunks R es).

Lemma v2_R : 1 ≤ R.
Proof. apply Hblk. Qed.

Lemma v2_n_pos : 0 < n.
Proof. unfold n. pose proof (v2b_nonempty _ _ _ Hblk). destruct es; [done|]. cbn. lia. Qed.

Lemma P_lt i j : i ≤ n → j ≤ n → P i < P j ↔ i < j.
Proof.
  intros Hi Hj. apply pos_lt_iff; [apply v2_chunks_nonempty|rewrite length_v2_chunks; done..].
Qed.

Lemma P_n : length (data blk) = P n.
Proof. rewrite (v2b_data _ _ _ Hblk). symmetry. apply pos_full. by rewrite length_v2_chunks. Qed.

Lemma n_le_data : n ≤ length (data blk).
Proof.
  rewrite (v2b_data _ _ _ Hblk). unfold n. rewrite <- (length_v2_chunks R es).
  apply length_concat_nonempty, v2_chunks_nonempty.
Qed.

Lemma v2_num : length (offsets blk) = num_restarts R n.
Proof. rewrite (v2b_offsets _ _ _ Hblk). unfold restart_offsets. by rewrite length_fmap, length_seq. Qed.

Lemma v2_offsets_ne : offsets blk ≠ [].
Proof.
  intros Hnil. pose proof v2_num as Hn. rewrite Hnil in Hn. cbn in Hn.
  assert (0 < num_restarts R n) by (apply num_restarts_lt; [apply v2_R|pose proof v2_n_pos; lia]). lia.
Qed.

Lemma v2_offset j : j * R < n → offsets blk !! j = Some (Z.of_nat (P (j * R))).
Proof.
  intros Hj. rewrite (v2b_offsets _ _ _ Hblk). unfold restart_offsets.
  rewrite list_lookup_fmap, lookup_seq_lt by (apply num_restarts_lt; [apply v2_R|done]). done.
Qed.

Lemma v2_offset_none j : n ≤ j * R → offsets blk !! j = None.
Proof.
  intros Hj. apply lookup_ge_None. rewrite v2_num.
  destruct (decide (num_restarts R n ≤ j)) as [|Hlt]; [done|].
  assert (j * R < n) by (apply num_restarts_lt; [apply v2_R|lia]). lia.
Qed.

(** The key the row at position [i] is compressed against. *)
Definition prev_of (i : nat) : bytes :=
  match i with O => [] | S i' => from_option key [] (es !! i') end.

Definition good_prev (i : nat) (k : bytes) : Prop := at_restart R i = true ∨ k = prev_of i.

Lemma v2_row_at i e :
  es !! i = Some e →
  let r := v2_row (at_restart R i) (prev_of i) e in
  sst_row_v2_wf r ∧
  slice_from (E:=SlateDBError) (P i) (data blk) =
    Ok (row_bytes_v2 r ++ concat (drop (S i) (v2_chunks R es))) ∧
  length (concat (drop (S i) (v2_chunks R es))) = length (data blk) - P (S i) ∧
  ∀ k, good_prev i k → restore_full_key_v2 r k = Ok (key e).
Proof.
  intros Hi r. pose proof (v2b_storable _ _ _ Hblk) as Hst. rewrite Forall_lookup in Hst.
  assert (v2_chunks R es !! i = Some (row_bytes_v2 r)) as Hc.
  { unfold v2_chunks. rewrite list_lookup_fmap, (v2_rows_lookup R 0 [] es i e Hi). done. }
  split_and!.
  - apply v2_row_wf. eauto.
  - unfold slice_from. rewrite decide_True by (rewrite (v2b_data _ _ _ Hblk); apply pos_le).
    f_equal. rewrite (v2b_data _ _ _ Hblk). unfold P. rewrite drop_pos.
    by rewrite (drop_S _ _ _ Hc).
  - rewrite <- drop_pos, length_drop, (v2b_data _ _ _ Hblk). done.
  - intros k Hk. unfold restore_full_key_v2, r, v2_row. cbn. rewrite Nat2Z.id.
    destruct (at_restart R i) eqn:Hr; [by unfold slice_to; run|].
    destruct Hk as [?| ->]; [congruence|].
    destruct (count_equal_spec (prev_of i) (key e)) as (Hl & _ & Htake & _).
    unfold slice_to. rewrite decide_True by done. run. by rewrite Htake, take_drop.
Qed.

Lemma v2_key_at_restart j e :
  es !! (j * R) = Some e → decode_first_key_at_restart blk j = Ok (key e).
Proof.
  intros He. pose proof (lookup_lt_Some _ _ _ He) as Hlt.
  unfold decode_first_key_at_restart, index. rewrite (v2_offset j Hlt). run. rewrite Nat2Z.id.
  destruct (v2_row_at _ _ He) as (Hwf & Hsl & _ & _). rewrite Hsl. run.
  rewrite decode_key_only_ok by done. run.
  unfold v2_row. rewrite at_restart_mul by apply v2_R. cbn. by run.
Qed.

Lemma v2_decode_entry st i e :
  es !! i = Some e → block st = blk → offset_in_block st = P i → good_prev i (current_key st) →
  decode_entry_at_current_offset st = Ok (e, P (S i)).
Proof.
  intros He Hb Ho Hk. unfold decode_entry_at_current_offset. rewrite Hb, Ho.
  destruct (v2_row_at _ _ He) as (Hwf & Hsl & Hlen & Hrest). rewrite Hsl. run.
  rewrite decode_v2_ok by done. run. rewrite (Hrest _ Hk). run.
  assert (P i ≤ P (S i) ≤ length (data blk)) as Hle.
  { rewrite (v2b_data _ _ _ Hblk). split; [apply pos_mono; lia|apply pos_le]. }
  rewrite Hlen. cbn. destruct e. cbn. do 2 f_equal. lia.
Qed.

Lemma v2_decode_key st i e k :
  es !! i = Some e → block st = blk → good_prev i k →
  decode_key_at_offset st (P i) k = Ok (key e).
Proof.
  intros He Hb Hk. unfold decode_key_at_offset. rewrite Hb.
  destruct (v2_row_at _ _ He) as (Hwf & Hsl & _ & Hrest). rewrite Hsl. run.
  rewrite decode_key_only_ok by done. run. apply (Hrest k Hk).
Qed.

Lemma v2_advance st i e :
  es !! i = Some e → block st = blk → offset_in_block st = P i →
  advance_past_current_entry st = Ok (mkAsc blk (current_restart_idx st) (P (S i))
    (S (entries_since_restart st)) (current_key st) (exhausted st)).
Proof.
  intros He Hb Ho. unfold advance_past_current_entry. rewrite Hb, Ho.
  destruct (v2_row_at _ _ He) as (Hwf & Hsl & Hlen & _). rewrite Hsl. run.
  rewrite decode_v2_ok by done. run.
  assert (P i ≤ P (S i) ≤ length (data blk)) as Hle.
  { rewrite (v2b_data _ _ _ Hblk). split; [apply pos_mono; lia|apply pos_le]. }
  rewrite Hlen. do 2 f_equal. lia.
Qed.

(** ** Ascending iteration *)

(** The state [st] is about to return the row at position [i]. *)
Definition asc_at (st : AscendingState) (i : nat) : Prop :=
  block st = blk ∧ i ≤ n ∧
  ((exhausted st = true ∧ i = n) ∨
   (exhausted st = false ∧ offset_in_block st = P i ∧ good_prev i (current_key st))).

Lemma asc_at_empty st i : asc_at st i → asc_is_empty st = bool_decide (i = n).
Proof.
  intros (Hb & Hi & [[Hex ->]|(Hex & Ho & _)]); unfold asc_is_empty; rewrite Hex; cbn.
  - by rewrite bool_decide_eq_true_2.
  - rewrite Hb, Ho, P_n. apply bool_decide_ext. pose proof (P_lt i n Hi ltac:(done)). lia.
Qed.

Lemma asc_next_ok st i :
  asc_at st i →
  match es !! i with
  | Some e => ∃ st', asc_next st = Ok (Some e, st') ∧ asc_at st' (S i)
  | None => asc_next st = Ok (None, st)
  end.
Proof.
  intros Hat. unfold asc_next. rewrite (asc_at_empty st i Hat).
  destruct (es !! i) as [e|] eqn:He.
  2:{ apply lookup_ge_None in He. destruct Hat as (_ & Hi & _).
      rewrite bool_decide_eq_true_2; [done|]. unfold n in *. lia. }
  pose proof (lookup_lt_Some _ _ _ He) as Hlt. fold n in Hlt.
  rewrite bool_decide_eq_false_2 by lia.
  destruct Hat as (Hb & Hi & [[_ ?]|(Hex & Ho & Hk)]); [lia|].
  rewrite (v2_decode_entry st i e) by done. run. destruct (match _ !! _ with Some _ => _ | None => _ end).
  eexists. split; [done|]. split; [done|]. split; [lia|]. cbn. rewrite Hex, Hb, P_n.
  pose proof (P_lt (S i) n ltac:(lia) ltac:(done)).
  destruct (decide (P n ≤ P (S i))) as [Hle|Hle].
  - left. split; [done|]. lia.
  - right. split_and!; [done..|]. right. cbn. by rewrite He.
Qed.

Lemma asc_yields st i : asc_at st i → yields (AscIt st) (drop i es).
Proof.
  remember (drop i es) as l eqn:Hl. revert st i Hl. induction l as [|e l IH]; intros st i Hl Hat.
  - pose proof (asc_next_ok st i Hat) as Hn. rewrite lookup_ge_None_2 in Hn.
    2:{ symmetry in Hl. apply (f_equal length) in Hl. rewrite length_drop in Hl. cbn in Hl. lia. }
    exists (AscIt st). cbn. rewrite Hn. by run.
  - pose proof (asc_next_ok st i Hat) as Hn.
    assert (es !! i = Some e) as He by (rewrite <- (Nat.add_0_r i), <- lookup_drop, <- Hl; done).
    rewrite He in Hn. destruct Hn as (st' & Hn & Hat'). exists (AscIt st'). split.
    + cbn. rewrite Hn. by run.
    + apply (IH st' (S i)); [|done]. by rewrite (drop_S _ _ _ He) in Hl; simplify_eq.
Qed.

Lemma asc_new_ok : ∃ st, asc_new blk = Ok st ∧ asc_at st 0.
Proof.
  destruct (lookup_lt_is_Some_2 es 0 v2_n_pos) as [e He].
  unfold asc_new, initial_key. rewrite decide_False by apply v2_offsets_ne.
  rewrite (v2_key_at_restart 0 e He). run. eexists. split; [done|].
  split; [done|]. split; [lia|]. right. split_and!; [done..|]. left. apply bool_decide_eq_true, Nat.Div0.mod_0_l.
Qed.

(** ** Seeks *)

Context (Hsorted : keys_sorted (key <$> es)).

Lemma v2_sorted i j a b : i ≤ j → es !! i = Some a → es !! j = Some b → key a ≼ key b.
Proof.
  intros Hij Ha Hb. apply (keys_sorted_lookup (key <$> es) i j); [done..| |];
    by apply list_lookup_fmap_Some_2.
Qed.

(** The first keys of the restart regions. *)
Definition restart_keys : list bytes :=
  (λ j, from_option key [] (es !! (j * R))) <$> List.seq 0 (num_restarts R n).

Lemma restart_keys_lookup j e :
  es !! (j * R) = Some e → restart_keys !! j = Some (key e).
Proof.
  intros He. unfold restart_keys. rewrite list_lookup_fmap, lookup_seq_lt.
  - cbn. by rewrite He.
  - apply num_restarts_lt; [apply v2_R|]. by eapply lookup_lt_Some.
Qed.

Lemma restart_keys_lookup_inv j a :
  restart_keys !! j = Some a → ∃ e, es !! (j * R) = Some e ∧ a = key e.
Proof.
  intros Hj. pose proof (lookup_lt_Some _ _ _ Hj) as Hlt.
  unfold restart_keys in Hlt. rewrite length_fmap, length_seq in Hlt.
  apply num_restarts_lt in Hlt; [|apply v2_R].
  destruct (lookup_lt_is_Some_2 es (j * R) Hlt) as [e He]. exists e. split; [done|].
  apply restart_keys_lookup in He. congruence.
Qed.

Lemma restart_keys_sorted : keys_sorted restart_keys.
Proof.
  unfold restart_keys. apply (StronglySorted_fmap _ (λ i j, i < j ∧ j < num_restarts R n)).
  - intros i j [Hij Hj]. apply num_restarts_lt in Hj as Hj'; [|apply v2_R].
    assert (i * R < n) as Hi' by (apply num_restarts_lt; [apply v2_R|lia]).
    destruct (lookup_lt_is_Some_2 es (i * R) Hi') as [a Ha].
    destruct (lookup_lt_is_Some_2 es (j * R) Hj') as [b Hb]. rewrite Ha, Hb. cbn.
    apply (v2_sorted (i * R) (j * R)); [nia|done..].
  - generalize (num_restarts R n) as m. intros m.
    enough (∀ k, StronglySorted (λ i j, i < j ∧ j < k + m) (List.seq k m)) as H by exact (H 0).
    induction m as [|m IH]; intros k; cbn [List.seq]; constructor.
    + eapply StronglySorted_weaken; [|apply (IH (S k))]. cbn. intros; lia.
    + apply Forall_forall. intros x [H1 H2]%elem_of_seq. lia.
Qed.

Lemma v2_search st t :
  block st = blk → binary_search_restarts st t = Ok (leading (λ a, ord_ltb a t) restart_keys).
Proof.
  intros Hb. unfold binary_search_restarts. rewrite Hb, v2_num.
  apply bisect_ok; [apply restart_keys_sorted|apply downward_ltb|lia|..].
  - unfold restart_keys. rewrite length_fmap, length_seq. lia.
  - intros i a _ Ha. destruct (restart_keys_lookup_inv i a Ha) as (e & He & ->).
    rewrite (v2_key_at_restart i e He). by run.
  - intros i a Hi. lia.
  - intros i a Hi Ha%lookup_lt_Some. unfold restart_keys in Ha.
    rewrite length_fmap, length_seq in Ha. lia.
Qed.

(** Every row before position [i] has a key below [t]. *)
Definition all_below (t : bytes) (i : nat) : Prop :=
  ∀ j e, j < i → es !! j = Some e → key e ≺ t.

(** Position [i] is where the rows at or above [t] begin. *)
Lemma position_unique t i :
  i ≤ n → all_below t i → (∀ e, es !! i = Some e → t ≼ key e) →
  drop i es = from_key Ascending t es.
Proof.
  intros Hi Hlo Hhi. cbn. rewrite <- (drop_leading (λ a, ord_ltb a t)) by (done || apply downward_ltb).
  f_equal. symmetry. apply leading_unique; [by rewrite length_fmap|..].
  - intros j a Hj Ha. apply list_lookup_fmap_Some_1 in Ha as (e & -> & He). specialize (Hlo j e Hj He). ord.
  - intros a Ha. apply list_lookup_fmap_Some_1 in Ha as (e & -> & He). specialize (Hhi e He). ord.
Qed.

Definition region_hi (j : nat) : nat := Nat.min (S j * R) n.

Lemma v2_region_end st j : block st = blk → restart_region_end st j = P (region_hi j).
Proof.
  intros Hb. unfold restart_region_end, region_hi. rewrite Hb, Nat.add_1_r.
  destruct (decide (S j * R < n)) as [Hlt|Hge].
  - rewrite v2_offset by done. rewrite Nat2Z.id, Nat.min_l by lia. done.
  - rewrite v2_offset_none, Nat.min_r by lia. apply P_n.
Qed.

Lemma scan_region_ok fuel st i hi t prev :
  hi - i < fuel → i ≤ hi ≤ n → block st = blk → offset_in_block st = P i → exhausted st = false →
  good_prev i prev → all_below t i →
  ∃ found st', scan_region fuel st (P hi) prev t = Ok (found, st') ∧ block st' = blk ∧
    if (found : bool)
    then ∃ i', asc_at st' i' ∧ drop i' es = from_key Ascending t es
    else all_below t hi.
Proof.
  revert st i prev. induction fuel as [|fuel IH]; intros st i prev Hf Hi Hb Ho Hex Hk Hlo; [lia|].
  cbn [scan_region]. rewrite Hb, Ho, P_n.
  pose proof (P_lt i hi ltac:(lia) ltac:(lia)) as H1. pose proof (P_lt i n ltac:(lia) ltac:(lia)) as H2.
  destruct (decide (P i < P hi ∧ P i < P n)) as [[Hlt _]|Hge].
  2:{ exists false, st. split; [done|]. split; [done|]. replace hi with i by lia. done. }
  destruct (lookup_lt_is_Some_2 es i) as [e He]; [unfold n in *; lia|].
  rewrite (v2_decode_key st i e) by done. run. destruct (ord_leb t (key e)) eqn:Hle.
  - exists true, (set_key st prev). split; [done|]. split; [done|]. exists i. split.
    + split; [done|]. split; [lia|]. right. done.
    + apply position_unique; [lia|done|]. intros e' He'. simplify_eq. ord.
  - rewrite (v2_advance st i e) by done. run. apply (IH _ (S i)); try done; [lia..| |].
    + right. cbn. by rewrite He.
    + intros j a Hj Ha. destruct (decide (j = i)) as [->|]; [|apply (Hlo j); [lia|done]].
      simplify_eq. ord.
Qed.

Lemma v2_seek_to_restart st j e :
  block st = blk → es !! (j * R) = Some e →
  seek_to_restart st j = Ok (mkAsc blk j (P (j * R)) 0 (key e) false).
Proof.
  intros Hb He. pose proof (lookup_lt_Some _ _ _ He) as Hlt. unfold seek_to_restart. rewrite Hb.
  rewrite decide_False by (rewrite v2_num; apply num_restarts_lt in Hlt; [unfold n; lia|apply v2_R]).
  unfold index. rewrite (v2_offset j Hlt). run. rewrite (v2_key_at_restart j e He). run.
  by rewrite Nat2Z.id.
Qed.

Lemma seek_regions_ok cnt j st t :
  j + cnt = num_restarts R n → block st = blk → all_below t (j * R) →
  ∃ st' i, seek_regions cnt j st t = Ok st' ∧ asc_at st' i ∧ drop i es = from_key Ascending t es.
Proof.
  revert j st. induction cnt as [|cnt IH]; intros j st Hj Hb Hlo; cbn [seek_regions].
  - eexists _, n. split; [done|]. split; [split; [done|]; split; [done|]; by left|].
    apply position_unique; [done| |].
    + intros i e Hi He. apply (Hlo i e); [|done].
      destruct (decide (j * R < n)) as [Hlt|]; [|lia].
      apply num_restarts_lt in Hlt; [lia|apply v2_R].
    + intros e He. apply lookup_lt_Some in He. unfold n in He. lia.
  - assert (j * R < n) as Hlt by (apply num_restarts_lt; [apply v2_R|lia]).
    destruct (lookup_lt_is_Some_2 es (j * R) Hlt) as [e He].
    rewrite (v2_seek_to_restart st j e Hb He). run. cbn [exhausted current_key orb].
    assert (good_prev (j * R) (key e)) as Hgood by (left; apply at_restart_mul, v2_R).
    destruct (ord_leb t (key e)) eqn:Hle.
    + eexists _, (j * R). split; [done|]. split.
      * split; [done|]. split; [lia|]. right. done.
      * apply position_unique; [lia|done|]. intros e' He'. simplify_eq. ord.
    + rewrite v2_region_end by done.
      destruct (scan_region_ok (S (length (data blk))) (mkAsc blk j (P (j * R)) 0 (key e) false)
        (j * R) (region_hi j) t (key e)) as (found & st' & Hscan & Hb' & Hres); try done.
      { unfold region_hi. pose proof n_le_data. lia. }
      { unfold region_hi. lia. }
      cbn [block]. rewrite Hscan. run. destruct found.
      * destruct Hres as (i' & Hat & Hd). by exists st', i'.
      * apply IH; [lia|done|]. intros i a Hi Ha. apply (Hres i a); [|done].
        unfold region_hi. apply lookup_lt_Some in Ha. fold n in Ha. lia.
Qed.

Lemma asc_seek_ok st t :
  block st = blk →
  ∃ st' i, asc_seek t st = Ok st' ∧ asc_at st' i ∧ drop i es = from_key Ascending t es.
Proof.
  intros Hb. unfold asc_seek. rewrite Hb, decide_False by apply v2_offsets_ne.
  set (low := leading (λ a, ord_ltb a t) restart_keys).
  assert (low ≤ num_restarts R n) as Hlow.
  { unfold low. etrans; [apply leading_le|]. unfold restart_keys. by rewrite length_fmap, length_seq. }
  assert (find_restart_for_key_ascending st t = Ok (low - 1)) as ->.
  { unfold find_restart_for_key_ascending. rewrite Hb, decide_False by apply v2_offsets_ne.
    rewrite v2_search by done. run. fold low. rewrite v2_num.
    destruct (decide _) as [Hlt|]; [|done]. apply num_restarts_lt in Hlt; [|apply v2_R].
    destruct (lookup_lt_is_Some_2 es (low * R) Hlt) as [e He].
    rewrite (v2_key_at_restart low e He). run. by destruct (ord_eqb _ _). }
  run. rewrite v2_num. apply seek_regions_ok; [lia|done|].
  intros i a Hi Ha. assert (low ≠ 0) by (intros H0; rewrite H0 in Hi; cbn in Hi; lia).
  assert ((low - 1) * R < n) as Hlt by (apply num_restarts_lt; [apply v2_R|lia]).
  destruct (lookup_lt_is_Some_2 es _ Hlt) as [e He].
  assert (ord_ltb (key e) t = true) as Hbelow.
  { apply (leading_true (λ a, ord_ltb a t) restart_keys (low - 1)); [fold low; lia|].
    by apply restart_keys_lookup. }
  pose proof (v2_sorted i ((low - 1) * R) a e ltac:(lia) Ha He) as Hle. revert Hbelow Hle. ord.
Qed.

(** ** Descending iteration *)

(** The rows of restart region [j]. *)
Definition region (j : nat) : list RowEntry := take (region_hi j - j * R) (drop (j * R) es).

Lemma region_lookup j i : i < region_hi j - j * R → region j !! i = es !! (j * R + i).
Proof. intros Hi. unfold region. rewrite lookup_take_lt, lookup_drop by done. done. Qed.

Lemma length_region j : length (region j) = region_hi j - j * R.
Proof. unfold region. rewrite length_take, length_drop. unfold region_hi, n. lia. Qed.

Lemma load_loop_ok fuel st j i cached :
  region_hi j - i < fuel → j * R ≤ i ≤ region_hi j → block st = blk → exhausted st = false →
  offset_in_block st = P i → good_prev i (current_key st) →
  cached = take (i - j * R) (drop (j * R) es) →
  ∃ st', load_loop fuel st (P (region_hi j)) cached = Ok (st', region j) ∧ block st' = blk.
Proof.
  revert st i cached. induction fuel as [|fuel IH]; intros st i cached Hf Hi Hb Hex Ho Hk Hc; [lia|].
  assert (region_hi j ≤ n) as Hhi by (unfold region_hi; lia).
  cbn [load_loop]. rewrite (asc_at_empty st i) by (split; [done|]; split; [lia|]; by right).
  rewrite Ho. pose proof (P_lt i (region_hi j) ltac:(lia) Hhi) as H1.
  destruct (decide (i < region_hi j)) as [Hlt|Hge].
  - rewrite (bool_decide_eq_true_2 (P i < _)), (bool_decide_eq_false_2 (i = n)) by lia. cbn [andb negb].
    destruct (lookup_lt_is_Some_2 es i) as [e He]; [unfold n in *; lia|].
    rewrite (v2_decode_entry st i e) by done. run.
    apply (IH _ (S i)); [lia|lia|done|done|done| |].
    + right. cbn. by rewrite He.
    + subst cached. replace (S i - j * R) with (S (i - j * R)) by lia.
      rewrite (take_S_r _ _ e); [done|]. rewrite lookup_drop. rewrite <- He. f_equal. lia.
  - rewrite (bool_decide_eq_false_2 (P i < _)) by lia. cbn [andb]. exists st. split; [|done].
    subst cached. unfold region. by replace i with (region_hi j) by lia.
Qed.

Lemma load_region_ok d j :
  block (ascending d) = blk → j * R < n →
  ∃ st', load_restart_region d j =
    Ok (mkDesc st' (desc_restart_idx d) (region j) (Z.of_nat (length (region j)) - 1)
          (desc_exhausted d) (initialized d)) ∧ block st' = blk.
Proof.
  intros Hb Hj. unfold load_restart_region. rewrite Hb, decide_False
    by (rewrite v2_num; apply num_restarts_lt in Hj; [lia|apply v2_R]).
  destruct (lookup_lt_is_Some_2 es (j * R) Hj) as [e He].
  rewrite (v2_seek_to_restart _ j e Hb He). run. rewrite v2_region_end by done. cbn [block].
  destruct (load_loop_ok (S (length (data blk))) (mkAsc blk j (P (j * R)) 0 (key e) false) j (j * R) [])
    as (st' & -> & Hb'); try done.
  - unfold region_hi. pose proof n_le_data. lia.
  - unfold region_hi. lia.
  - left. apply at_restart_mul, v2_R.
  - by rewrite Nat.sub_diag.
  - run. by exists st'.
Qed.

(** [m] rows are left to return: the first [m] rows of the block, backwards. *)
Definition desc_at (d : DescendingState) (m : nat) : Prop :=
  block (ascending d) = blk ∧
  (initialized d = false ∧ desc_exhausted d = false ∧ m = n ∧
     desc_restart_idx d = (Z.of_nat (num_restarts R n) - 1)%Z ∨
   initialized d = true ∧ desc_exhausted d = true ∧ m = 0 ∨
   initialized d = true ∧ desc_exhausted d = false ∧
     ∃ j, j * R < n ∧ desc_restart_idx d = Z.of_nat j ∧ cached_entries d = region j ∧
       (-1 ≤ cache_idx d < Z.of_nat (length (region j)))%Z ∧
       Z.of_nat m = (Z.of_nat (j * R) + cache_idx d + 1)%Z).

Lemma last_region : num_restarts R n ≠ 0 ∧ (num_restarts R n - 1) * R < n ∧
  region_hi (num_restarts R n - 1) = n.
Proof.
  pose proof v2_R. assert (0 < num_restarts R n) by (apply num_restarts_lt; [done|pose proof v2_n_pos; lia]).
  split; [lia|]. split; [apply num_restarts_lt; [done|lia]|].
  unfold region_hi. replace (S (num_restarts R n - 1)) with (num_restarts R n) by lia.
  destruct (decide (num_restarts R n * R < n)) as [Hlt|]; [|lia].
  apply num_restarts_lt in Hlt; [lia|done].
Qed.

Lemma desc_take_ok d j m :
  block (ascending d) = blk → j * R < n → initialized d = true → desc_exhausted d = false →
  desc_restart_idx d = Z.of_nat j → cached_entries d = region j →
  (0 ≤ cache_idx d < Z.of_nat (length (region j)))%Z →
  Z.of_nat (S m) = (Z.of_nat (j * R) + cache_idx d + 1)%Z →
  ∃ e d', es !! m = Some e ∧ desc_take d = Ok (Some e, d') ∧ desc_at d' m.
Proof.
  intros Hb Hj Hin Hex Hidx Hc Hci Hm. unfold desc_take, index. rewrite Hc.
  rewrite length_region in Hci. rewrite region_lookup by lia.
  replace (j * R + Z.to_nat (cache_idx d)) with m by lia.
  destruct (lookup_lt_is_Some_2 es m) as [e He]; [unfold region_hi, n in *; lia|].
  rewrite He. run. eexists _, _. split; [done|]. split; [done|]. split; [done|].
  right. right. split_and!; [done..|]. exists j. cbn [desc_restart_idx cached_entries cache_idx]. rewrite length_region. split_and!; [done..|lia|lia|lia].
Qed.

Lemma desc_next_ok d m :
  desc_at d m →
  ∃ o d', desc_next d = Ok (o, d') ∧
    match m with
    | O => o = None
    | S m' => o = es !! m' ∧ is_Some o ∧ desc_at d' m'
    end.
Proof.
  intros (Hb & Hst). unfold desc_next.
  assert (∃ d1, (if negb (initialized d) then desc_init d else mret d) = Ok d1 ∧
    block (ascending d1) = blk ∧
    (desc_exhausted d1 = true ∧ m = 0 ∨ initialized d1 = true ∧ desc_exhausted d1 = false ∧
     ∃ j, j * R < n ∧ desc_restart_idx d1 = Z.of_nat j ∧ cached_entries d1 = region j ∧
       (-1 ≤ cache_idx d1 < Z.of_nat (length (region j)))%Z ∧
       Z.of_nat m = (Z.of_nat (j * R) + cache_idx d1 + 1)%Z)) as (d1 & -> & Hb1 & Hd1).
  { destruct Hst as [(Hin & Hex & -> & Hidx)|[(Hin & Hex & ->)|(Hin & Hex & Hj)]]; rewrite Hin; cbn [negb].
    - destruct last_region as (H0 & Hlt & Hhi). unfold desc_init. rewrite Hin, Hex. cbn [negb andb].
      replace (Z.to_nat (desc_restart_idx d)) with (num_restarts R n - 1) by lia.
      destruct (load_region_ok d _ Hb Hlt) as (st' & -> & Hb'). run.
      eexists. split; [done|]. split; [done|]. right. split_and!; [done..|]. cbn [desc_restart_idx cached_entries cache_idx].
      exists (num_restarts R n - 1). rewrite length_region, Hhi. split_and!; [done|lia|done|lia..].
    - exists d. split; [done|]. split; [done|]. by left.
    - exists d. split; [done|]. split; [done|]. by right. }
  run. destruct Hd1 as [[Hex ->]|(Hin & Hex & j & Hj & Hidx & Hc & Hci & Hm)]; rewrite Hex.
  { by eexists _, _. }
  destruct (decide (0 ≤ cache_idx d1)%Z) as [Hpos|Hneg].
  { destruct m as [|m]; [lia|].
    destruct (desc_take_ok d1 j m) as (e & d' & He & Ht & Hat); try done; [lia|].
    exists (Some e), d'. by rewrite He. }
  unfold move_to_previous_region. rewrite Hidx. destruct (decide (Z.of_nat j - 1 < 0)%Z) as [Hj0|Hj0].
  { run. assert (m = 0) as -> by (assert (j = 0) by lia; subst; lia). cbn. by eexists _, _. }
  destruct j as [|j]; [lia|]. replace (Z.of_nat (S j) - 1)%Z with (Z.of_nat j) by lia.
  rewrite Nat2Z.id. pose proof v2_R.
  match goal with |- context [load_restart_region ?d2 j] =>
    destruct (load_region_ok d2 j Hb1 ltac:(lia)) as (st' & -> & Hb') end.
  run. cbn [desc_exhausted cache_idx]. rewrite Hex, length_region. unfold region_hi at 1 2.
  rewrite bool_decide_eq_false_2 by lia. cbn [orb]. destruct m as [|m]; [lia|].
  match goal with |- context [desc_take ?d3] =>
    destruct (desc_take_ok d3 j m) as (e & d' & He & Ht & Hat); try done end.
  - lia.
  - cbn [desc_restart_idx cached_entries cache_idx]. rewrite ?length_region. unfold region_hi. lia.
  - cbn [desc_restart_idx cached_entries cache_idx]. rewrite ?length_region. unfold region_hi. lia.
  - exists (Some e), d'. by rewrite He.
Qed.

Lemma desc_yields d m : m ≤ n → desc_at d m → yields (DescIt d) (reverse (take m es)).
Proof.
  revert d. induction m as [|m IH]; intros d Hm Hat;
    destruct (desc_next_ok d _ Hat) as (o & d' & Hn & Ho).
  - subst o. exists (DescIt d'). cbn. rewrite Hn. by run.
  - destruct Ho as (-> & [e He] & Hat'). rewrite (take_S_r _ _ _ He), reverse_app. cbn.
    exists (DescIt d'). rewrite Hn, He. run. split; [done|]. apply IH; [lia|done].
Qed.

Lemma desc_new_ok : ∃ d, desc_new blk = Ok d ∧ desc_at d n.
Proof.
  destruct (lookup_lt_is_Some_2 es 0 v2_n_pos) as [e He]. destruct last_region as (H0 & _ & _).
  unfold desc_new, initial_key. rewrite decide_False by apply v2_offsets_ne.
  rewrite (v2_key_at_restart 0 e He). run. eexists. split; [done|]. split; [done|]. left. cbn.
  rewrite v2_num. split_and!; [done| |done|done]. by apply bool_decide_eq_false.
Qed.

(** Every row from position [i] on has a key above [t]. *)
Definition all_above (t : bytes) (i : nat) : Prop :=
  ∀ j e, i ≤ j → es !! j = Some e → t ≺ key e.

Lemma above_from_restart t j :
  (∀ e, es !! (j * R) = Some e → t ≺ key e) → all_above t (j * R).
Proof.
  intros Hj i e Hi He. pose proof (lookup_lt_Some _ _ _ He) as Hlt.
  destruct (lookup_lt_is_Some_2 es (j * R)) as [a Ha]; [lia|].
  pose proof (Hj a Ha) as H1. pose proof (v2_sorted (j * R) i a e Hi Ha He) as H2. revert H1 H2. ord.
Qed.

Lemma last_equal_restart_ok fuel t last e :
  num_restarts R n - last ≤ fuel → es !! (last * R) = Some e → key e = t →
  ∃ j, last_equal_restart fuel blk t last = Ok j ∧ j < num_restarts R n ∧ all_above t (S j * R).
Proof.
  revert last e. induction fuel as [|fuel IH]; intros last e Hf He Hk;
    pose proof (lookup_lt_Some _ _ _ He) as Hlt; fold n in Hlt;
    apply num_restarts_lt in Hlt as Hl; try apply v2_R; [lia|].
  cbn [last_equal_restart]. rewrite v2_num, Nat.add_1_r.
  destruct (decide (S last < num_restarts R n)) as [Hn|Hn].
  - apply num_restarts_lt in Hn as Hn'; [|apply v2_R].
    destruct (lookup_lt_is_Some_2 es (S last * R) Hn') as [a Ha].
    rewrite (v2_key_at_restart _ a Ha). run. destruct (ord_eqb (key a) t) eqn:Heq.
    + apply (IH (S last) a); [lia|done|]. revert Heq. ord.
    + exists last. split; [done|]. split; [done|]. apply above_from_restart.
      intros a' Ha'. assert (a' = a) as -> by congruence. pose proof (v2_sorted (last * R) (S last * R) e a ltac:(lia) He Ha) as H2.
      revert Heq H2. rewrite <- Hk. ord.
  - exists last. split; [done|]. split; [done|]. apply above_from_restart. intros a Ha.
    apply lookup_lt_Some in Ha. fold n in Ha. apply num_restarts_lt in Ha; [lia|apply v2_R].
Qed.

Lemma find_descending_ok st t :
  block st = blk →
  ∃ j, find_restart_for_key_descending st t = Ok j ∧ j < num_restarts R n ∧ all_above t (S j * R).
Proof.
  intros Hb. unfold find_restart_for_key_descending. rewrite Hb, decide_False by apply v2_offsets_ne.
  rewrite v2_search by done. run. set (low := leading _ _). rewrite v2_num.
  destruct last_region as (H0 & _ & _).
  assert (low ≤ num_restarts R n) as Hlow.
  { unfold low. etrans; [apply leading_le|]. unfold restart_keys. by rewrite length_fmap, length_seq. }
  destruct (decide (low < num_restarts R n)) as [Hlt|Hge].
  - apply num_restarts_lt in Hlt as Hlt'; [|apply v2_R].
    destruct (lookup_lt_is_Some_2 es (low * R) Hlt') as [e He].
    rewrite (v2_key_at_restart low e He). run. destruct (ord_eqb (key e) t) eqn:Heq.
    + apply (last_equal_restart_ok _ _ _ e); [lia|done|]. revert Heq. ord.
    + exists (low - 1). split; [done|]. split; [lia|].
      pose proof (leading_false (λ a, ord_ltb a t) restart_keys (key e)
        (restart_keys_lookup _ _ He)) as Hge. cbv beta in Hge.
      assert (all_above t (low * R)) as Hab.
      { apply above_from_restart. intros e' He'. simplify_eq. revert Heq Hge. ord. }
      intros i a Hi. apply Hab. destruct low; lia.
  - exists (low - 1). split; [done|]. split; [lia|]. apply above_from_restart. intros a Ha.
    apply lookup_lt_Some in Ha. fold n in Ha. apply num_restarts_lt in Ha; [lia|apply v2_R].
Qed.

Lemma found_idx_leading l t :
  found_idx l t = match leading (λ a, ord_leb a t) (key <$> l) with O => None | S i => Some i end.
Proof.
  unfold found_idx. assert (first_greater l t =
    let m := leading (λ a, ord_leb a t) (key <$> l) in if decide (m < length l) then Some m else None) as ->.
  { induction l as [|e l IH]; [done|]. rewrite fmap_cons. cbn [first_greater leading].
    assert (ord_ltb t (key e) = negb (ord_leb (key e) t)) as ->
      by (unfold ord_ltb, ord_leb; rewrite (cmp_opp (key e) t); by destruct (cmp (key e) t)).
    destruct (ord_leb (key e) t); cbn [negb length]; [|by rewrite decide_True by lia].
    rewrite IH. cbv zeta. destruct (decide (_ < length l)); [by rewrite decide_True by lia|].
    by rewrite decide_False by lia. }
  pose proof (leading_le (λ a, ord_leb a t) (key <$> l)) as Hle. rewrite length_fmap in Hle.
  cbv zeta. destruct (decide _) as [Hlt|Hge].
  - destruct (leading _ _); [done|]. by rewrite Nat.sub_1_r.
  - replace (leading _ _) with (length l) by lia. destruct l; [done|].
    rewrite decide_False by done. cbn. by rewrite Nat.sub_0_r.
Qed.

Lemma leading_region t j :
  let m := leading (λ a, ord_leb a t) (key <$> region j) in
  m ≤ region_hi j - j * R ∧
  (∀ i e, i < m → es !! (j * R + i) = Some e → key e ≼ t) ∧
  (∀ e, m < region_hi j - j * R → es !! (j * R + m) = Some e → t ≺ key e).
Proof.
  intros m. pose proof (leading_le (λ a, ord_leb a t) (key <$> region j)) as Hle.
  rewrite length_fmap, length_region in Hle. split; [done|]. split.
  - intros i e Hi He. assert ((key <$> region j) !! i = Some (key e)) as Hl.
    { rewrite list_lookup_fmap, region_lookup, He by (subst m; lia). done. }
    pose proof (leading_true (λ a, ord_leb a t) _ _ _ Hi Hl) as H1. revert H1. ord.
  - intros e Hm He. assert ((key <$> region j) !! m = Some (key e)) as Hl.
    { rewrite list_lookup_fmap, region_lookup, He by done. done. }
    pose proof (leading_false (λ a, ord_leb a t) _ _ Hl) as H1. revert H1. ord.
Qed.

Lemma desc_position t m :
  m ≤ n → (∀ j e, j < m → es !! j = Some e → key e ≼ t) → all_above t m →
  reverse (take m es) = from_key Descending t es.
Proof.
  intros Hm Hlo Hhi. cbn. rewrite <- (take_leading (λ a, ord_leb a t)) by (done || apply downward_leb).
  do 2 f_equal. symmetry. apply leading_unique; [by rewrite length_fmap|..].
  - intros j a Hj Ha. apply list_lookup_fmap_Some_1 in Ha as (e & -> & He). specialize (Hlo j e Hj He). ord.
  - intros a Ha. apply list_lookup_fmap_Some_1 in Ha as (e & -> & He).
    specialize (Hhi m e ltac:(lia) He). ord.
Qed.

Lemma desc_seek_regions_ok cnt d t :
  cnt ≤ num_restarts R n → block (ascending d) = blk → initialized d = true → all_above t (cnt * R) →
  ∃ d' m, desc_seek_regions cnt d t = Ok d' ∧ m ≤ n ∧ desc_at d' m ∧
    reverse (take m es) = from_key Descending t es.
Proof.
  revert d. induction cnt as [|cnt IH]; intros d Hcnt Hb Hin Hab; cbn [desc_seek_regions].
  - eexists _, 0. split; [done|]. split; [lia|]. split.
    + split; [done|]. right. left. done.
    + apply desc_position; [lia|intros; lia|done].
  - assert (cnt * R < n) as Hlt by (apply num_restarts_lt; [apply v2_R|lia]).
    match goal with |- context [load_restart_region ?d2 cnt] =>
      destruct (load_region_ok d2 cnt Hb Hlt) as (st' & -> & Hb') end. run.
    cbn [cached_entries ascending desc_restart_idx initialized desc_exhausted cache_idx].
    rewrite found_idx_leading. destruct (leading_region t cnt) as (Hle & Hlo & Hhi).
    set (m := leading _ _) in *. assert (region_hi cnt ≤ n) as Hn by (unfold region_hi; lia).
    destruct m as [|i] eqn:Hm.
    + apply IH; [lia|done|done|]. apply above_from_restart. intros e He.
      apply (Hhi e); [unfold region_hi; pose proof v2_R; lia|]. by rewrite Nat.add_0_r.
    + eexists _, (cnt * R + S i). split; [done|]. split; [lia|]. split.
      * split; [done|]. right. right. split_and!; [done..|]. exists cnt.
        cbn [cached_entries ascending desc_restart_idx initialized desc_exhausted cache_idx].
        rewrite length_region. split_and!; [done|done|done|lia..].
      * apply desc_position; [lia|..].
        -- intros k e Hk He. destruct (decide (cnt * R ≤ k)).
           ++ apply (Hlo (k - cnt * R)); [lia|]. rewrite <- He. f_equal. lia.
           ++ destruct (lookup_lt_is_Some_2 es (cnt * R)) as [a Ha]; [done|].
              assert (key a ≼ t) as H1 by (apply (Hlo 0); [lia|by rewrite Nat.add_0_r]).
              pose proof (v2_sorted k (cnt * R) e a ltac:(lia) He Ha) as H2. revert H1 H2. ord.
        -- intros k e Hk He. pose proof (lookup_lt_Some _ _ _ He) as Hkn. fold n in Hkn.
           destruct (decide (S i < region_hi cnt - cnt * R)) as [Hin'|Hout].
           ++ destruct (lookup_lt_is_Some_2 es (cnt * R + S i)) as [a Ha]; [unfold n in *; lia|].
              pose proof (Hhi a Hin' Ha) as H1. pose proof (v2_sorted _ _ _ _ Hk Ha He) as H2.
              revert H1 H2. ord.
           ++ apply (Hab k e); [unfold region_hi in Hout; lia|done].
Qed.

Lemma desc_seek_ok d t :
  block (ascending d) = blk →
  ∃ d' m, desc_seek t d = Ok d' ∧ m ≤ n ∧ desc_at d' m ∧
    reverse (take m es) = from_key Descending t es.
Proof.
  intros Hb. unfold desc_seek. cbn [ascending]. rewrite Hb, decide_False by apply v2_offsets_ne.
  destruct (find_descending_ok (ascending d) t Hb) as (j & -> & Hj & Hab). run.
  by apply desc_seek_regions_ok.
Qed.
End v2_iteration.

(** ** The ascending iterator as a scan *)

Definition v2_scan (it : BlockIteratorV2) (returned l : list RowEntry) : Prop :=
  ∃ blk R es st i, v2_block blk R es ∧ keys_sorted (key <$> es) ∧ it = AscIt st ∧
    asc_at blk R es st i ∧ returned = take i es ∧ l = drop i es.

Global Instance v2_scan_next : Scan v2_scan.
Proof.
  intros it returned l (blk & R & es & st & i & Hblk & Hs & -> & Hat & -> & ->).
  pose proof (asc_next_ok blk R es Hblk st i Hat) as Hn. destruct (es !! i) as [e|] eqn:He.
  - destruct Hn as (st' & Hn & Hat'). rewrite (drop_S _ _ _ He). exists (AscIt st'). cbn. rewrite Hn. run.
    split; [done|]. exists blk, R, es, st', (S i). split_and!; try done.
    by rewrite (take_S_r _ _ _ He).
  - apply lookup_ge_None in He. rewrite drop_ge by done. exists (AscIt st). cbn. rewrite Hn. run.
    split; [done|]. exists blk, R, es, st, i. split_and!; try done. by rewrite drop_ge.
Qed.

Global Instance v2_scan_seek : ScanSeek v2_scan.
Proof.
  intros it returned l k (blk & R & es & st & i & Hblk & Hs & -> & Hat & -> & ->) Hret.
  destruct (asc_seek_ok blk R es Hblk Hs st k) as (st' & j & Hseek & Hat' & Hj); [apply Hat|].
  exists (AscIt st'), (take j es). cbn. rewrite Hseek. run. split; [done|].
  split; [|by apply below_position].
  exists blk, R, es, st', j. split_and!; try done. rewrite Hj. symmetry. by apply from_key_drop.
Qed.

(** ** The V2 builder and iterator together *)

(** Adding rows one after the other; [None] when one does not fit. *)
Fixpoint add_all_v2 (b : BuilderV2.t) (es : list RowEntry) : result (option BuilderV2.t) :=
  match es with
  | [] => mret (Some b)
  | e :: es =>
      '(added, b) ← BuilderV2.add b e;
      if (added : bool) then add_all_v2 b es else mret None
  end.

Lemma add_all_v2_builds b b' done_ es :
  v2_builds b done_ → (Z.of_nat (BuilderV2.block_size b) ≤ 65536)%Z → Forall storable es →
  add_all_v2 b es = Ok (Some b') →
  v2_builds b' (done_ ++ es) ∧ BuilderV2.block_size b' = BuilderV2.block_size b ∧
  BuilderV2.restart_interval b' = BuilderV2.restart_interval b.
Proof.
  intros Hb Hbs Hes. revert b done_ Hb Hbs. induction Hes as [|e es He Hes IH]; intros b done_ Hb Hbs Hadd.
  - cbn in Hadd. inv_bind. by rewrite app_nil_r.
  - cbn [add_all_v2] in Hadd. pose proof (v2_add b done_ Hb e He Hbs) as Hv.
    destruct (v2_fits b done_ e).
    + destruct Hv as (b1 & Hv & Hb1 & Hsz & HR). rewrite Hv in Hadd.
      rewrite (bind_Ok (true, b1)) in Hadd. rewrite cons_middle, app_assoc, <- Hsz, <- HR.
      apply (IH b1); [done|by rewrite Hsz|done].
    + rewrite Hv in Hadd. rewrite (bind_Ok (false, b)) in Hadd. done.
Qed.

Lemma v2_builds_block b es :
  v2_builds b es → es ≠ [] →
  ∃ blk, BuilderV2.build b = Ok blk ∧ v2_block blk (BuilderV2.restart_interval b) es ∧
    block_size_of blk = BuilderV2.current_size b.
Proof.
  intros Hb Hne. exists (mkBlock (BuilderV2.data b) (BuilderV2.restarts b)).
  unfold BuilderV2.build. rewrite (v2_is_empty b es Hb), bool_decide_eq_false_2 by done.
  split; [done|]. split; [|done]. split; cbn; [apply Hb..|done].
Qed.

Lemma v2_block_decodes b es blk :
  v2_builds b es → (Z.of_nat (BuilderV2.block_size b) ≤ 65536)%Z → BuilderV2.build b = Ok blk →
  v2_block blk (BuilderV2.restart_interval b) es → block_decode (block_encode blk) = Ok blk.
Proof.
  intros Hb Hbs Hbuild Hblk. set (R := BuilderV2.restart_interval b) in *.
  pose proof (v2_interval b es Hb) as HR. fold R in HR.
  assert (length (offsets blk) = length (BuilderV2.restarts b) ∧ data blk = BuilderV2.data b) as [Hlo Hd].
  { unfold BuilderV2.build in Hbuild. destruct (BuilderV2.is_empty b); [done|]. by injection Hbuild as <-. }
  assert (length es ≤ 1 ∨ (Z.of_nat (length (data blk)) + 2 * Z.of_nat (length (offsets blk)) ≤ 65536)%Z) as Hsz.
  { destruct (v2_size b es Hb) as [|H]; [by left|right].
    unfold BuilderV2.current_size in H. rewrite Hlo, Hd. lia. }
  assert (length (offsets blk) ≤ length es) as Hnum.
  { rewrite (v2_num blk R es Hblk). destruct (num_restarts R (length es)) as [|k] eqn:Hk; [lia|].
    assert (k * R < length es) by (apply num_restarts_lt; [done|lia]). nia. }
  apply block_decode_encode; [|unfold u16_max; lia].
  apply Forall_lookup. intros j o Hj.
  assert (j * R < length es) as Hjn.
  { apply num_restarts_lt; [done|]. rewrite <- (v2_num blk R es Hblk). by eapply lookup_lt_Some. }
  rewrite (v2_offset blk R es Hblk j Hjn) in Hj. simplify_eq. unfold is_u16.
  pose proof (P_lt R es (j * R) (length es) ltac:(lia) ltac:(lia)) as Hlt.
  rewrite (P_n blk R es Hblk) in Hsz. destruct Hsz as [H1|H1]; [|lia].
  assert (j * R = 0) as -> by lia. change (pos (v2_chunks R es) 0) with 0. lia.
Qed.

(** C19: Every block the V2 builder produces from rows added in key order, with one of the
    supported block sizes, survives encoding and decoding and is read back exactly, expiry of
    tombstones included: the iterator yields the rows in the order asked for, and a seek in
    either direction leaves exactly the rows at or beyond the key, even when versions of one key
    straddle a restart point. *)
Theorem block_v2_reads_back (block_size R : nat) (es : list RowEntry) (b : BuilderV2.t) :
  1 ≤ R → (Z.of_nat block_size ≤ 65536)%Z → Forall storable es → es ≠ [] →
  keys_sorted (key <$> es) →
  add_all_v2 (BuilderV2.new_with_restart_interval block_size R) es = Ok (Some b) →
  ∃ blk, BuilderV2.build b = Ok blk ∧ block_decode (block_encode blk) = Ok blk ∧
    ∀ o, ∃ it, v2_new blk o = Ok it ∧ yields it (in_order o es) ∧
      ∀ k, ∃ it', it_seek k it = Ok it' ∧ yields it' (from_key o k es).
Proof.
  intros HR Hbs Hst Hne Hs Hadd.
  pose proof (add_all_v2_builds _ _ _ _ (v2_builds_new block_size R HR) Hbs Hst Hadd) as (Hb & Hsz & _).
  destruct (v2_builds_block b es Hb Hne) as (blk & Hbuild & Hblk & _).
  exists blk. split; [done|]. split; [by apply (v2_block_decodes b es blk); [|rewrite Hsz|..]|].
  intros o. destruct o; cbn [v2_new in_order].
  - destruct (asc_new_ok blk _ es Hblk) as (st & -> & Hat). run. eexists. split; [done|]. split.
    + rewrite <- (drop_0 es). by eapply asc_yields.
    + intros k. destruct (asc_seek_ok blk _ es Hblk Hs st k) as (st' & i & Hseek & Hat' & <-);
        [apply Hat|]. exists (AscIt st'). cbn. rewrite Hseek. run.
      split; [done|]. by eapply asc_yields.
  - destruct (desc_new_ok blk _ es Hblk) as (d & -> & Hat). run. eexists. split; [done|]. split.
    + rewrite <- (firstn_all es). by eapply desc_yields.
    + intros k. destruct (desc_seek_ok blk _ es Hblk Hs d k) as (d' & m & Hseek & Hm & Hat' & <-);
        [apply Hat|]. exists (DescIt d'). cbn. rewrite Hseek. run.
      split; [done|]. by eapply desc_yields.
Qed.

Lemma block_v2_reads_back_witness :
  let e1 := mkRow [97%Z] (Value [1%Z]) 5 None None in
  let e2 := mkRow [97%Z] Tombstone 4 None (Some 9%Z) in
  let e3 := mkRow [97; 98]%Z (Merge []) 3 (Some 1%Z) None in
  ∃ b blk, add_all_v2 (BuilderV2.new_with_restart_interval 4096 1) [e1; e2; e3] = Ok (Some b) ∧
    BuilderV2.build b = Ok blk ∧ block_decode (block_encode blk) = Ok blk.
Proof.
  intros e1 e2 e3.
  destruct (add_all_v2 (BuilderV2.new_with_restart_interval 4096 1) [e1; e2; e3])
    as [[b|]| | |] eqn:Hadd; try (vm_compute in Hadd; discriminate Hadd).
  destruct (block_v2_reads_back 4096 1 [e1; e2; e3] b) as (blk & Hb & Hd & _); [lia|lia| |done| |done|].
  - repeat constructor; cbn; unfold is_u64, is_i64, u16_max, u32_max; (lia || done).
  - cbn. repeat constructor; vm_compute; discriminate.
  - exists b, blk. exact (conj eq_refl (conj Hb Hd)).
Defined.

(** The V2 builder respects the block size: once it holds more than one row, the encoded
    block is never larger than [block_size], and a row is refused exactly when adding it would
    exceed that; only a single oversized row makes a larger block. *)
Theorem block_v2_size_bound (block_size R : nat) (es : list RowEntry) (b : BuilderV2.t) (blk : Block) :
  1 ≤ R → (Z.of_nat block_size ≤ 65536)%Z → Forall storable es →
  add_all_v2 (BuilderV2.new_with_restart_interval block_size R) es = Ok (Some b) →
  BuilderV2.build b = Ok blk →
  (length es ≤ 1 ∨ length (block_encode blk) ≤ block_size) ∧
  ∀ e, storable e → BuilderV2.add b e = Ok (false, b) →
    length es ≠ 0 ∧ ∃ r, BuilderV2.row_for b e = Ok r ∧
      block_size < length (block_encode blk) + encoded_size_v2 r
        + (if BuilderV2.is_restart_point b then 2 else 0).
Proof.
  intros HR Hbs Hst Hadd Hbuild.
  pose proof (add_all_v2_builds _ _ _ _ (v2_builds_new block_size R HR) Hbs Hst Hadd) as (Hb & Hsz & HR').
  assert (es ≠ []) as Hne.
  { intros ->. unfold BuilderV2.build in Hbuild. by rewrite (v2_is_empty b [] Hb) in Hbuild. }
  destruct (v2_builds_block b es Hb Hne) as (blk' & Hbuild' & _ & Hcur).
  rewrite Hbuild in Hbuild'. injection Hbuild' as <-. rewrite length_block_encode, Hcur.
  cbn in Hsz. split; [destruct (v2_size b es Hb); [by left|right; cbn in *; lia]|].
  intros e He Hrej. split; [by destruct es|].
  pose proof (v2_add b es Hb e He ltac:(rewrite Hsz; exact Hbs)) as Hv.
  destruct (v2_fits b es e) eqn:Hf; [destruct Hv as (b' & Hv & _); congruence|].
  exists (v2_new_row b es e). split; [by apply v2_row_for|].
  rewrite (v2_is_restart b es Hb), <- length_row_bytes_v2 by by apply v2_row_wf.
  unfold v2_fits in Hf. apply orb_false_iff in Hf as [_ Hf]. apply bool_decide_eq_false in Hf.
  rewrite Hsz in Hf. lia.
Qed.

Lemma block_v2_size_bound_witness :
  let e1 := mkRow [97%Z] (Value [1%Z]) 5 None None in
  let e2 := mkRow [97; 98]%Z (Value [1%Z]) 3 None None in
  ∃ b blk, add_all_v2 (BuilderV2.new 64) [e1; e2] = Ok (Some b) ∧ BuilderV2.build b = Ok blk ∧
    (length [e1; e2] ≤ 1 ∨ length (block_encode blk) ≤ 64).
Proof.
  intros e1 e2.
  destruct (add_all_v2 (BuilderV2.new 64) [e1; e2]) as [[b|]| | |] eqn:Hadd;
    try (vm_compute in Hadd; discriminate Hadd).
  destruct (BuilderV2.build b) as [blk| | |] eqn:Hb;
    try (vm_compute in Hadd; injection Hadd as <-; vm_compute in Hb; discriminate Hb).
  exists b, blk. split; [reflexivity|]. split; [exact Hb|].
  apply (block_v2_size_bound 64 16 [e1; e2] b blk); [lia|lia| |exact Hadd|exact Hb].
  repeat constructor; cbn; unfold is_u64, is_i64, u16_max, u32_max; (lia || done).
Defined.

(** ** Dispatch on the SST version ([block_iterator.rs]) *)

Definition SST_FORMAT_VERSION : Z := 1.
Definition SST_FORMAT_VERSION_V2 : Z := 2.

Inductive DataBlockIterator := V1It (it : BlockIterator.t) | V2It (it : BlockIteratorV2).

(** [DataBlockIterator::new] *)
Definition data_block_iterator_new (blk : Block) (sst_version : Z) (order : IterationOrder)
    : result DataBlockIterator :=
  if (sst_version =? SST_FORMAT_VERSION)%Z then it ← BlockIterator.new blk order; mret (V1It it)
  else if (sst_version =? SST_FORMAT_VERSION_V2)%Z then it ← v2_new blk order; mret (V2It it)
  else Err (InvalidVersion sst_version).

(** [DataBlockIterator::next], [DataBlockIterator::seek], [DataBlockIterator::is_empty] *)
Definition data_block_next (it : DataBlockIterator) : result (option RowEntry * DataBlockIterator) :=
  match it with
  | V1It it => '(o, it) ← it_next it; mret (o, V1It it)
  | V2It it => '(o, it) ← it_next it; mret (o, V2It it)
  end.
Definition data_block_seek (k : bytes) (it : DataBlockIterator) : result DataBlockIterator :=
  match it with
  | V1It it => it ← it_seek k it; mret (V1It it)
  | V2It it => it ← it_seek k it; mret (V2It it)
  end.
Definition data_block_is_empty (it : DataBlockIterator) : bool :=
  match it with
  | V1It it => BlockIterator.is_empty it
  | V2It it => v2_iter_is_empty it
  end.

Global Instance data_block_iterator : RowEntryIterator DataBlockIterator := {
  it_init it := mret it;
  it_next := data_block_next;
  it_seek := data_block_seek;
}.

Definition data_block_scan (it : DataBlockIterator) (returned l : list RowEntry) : Prop :=
  match it with V1It it => v1_scan it returned l | V2It it => v2_scan it returned l end.

Global Instance data_block_scan_next : Scan data_block_scan.
Proof.
  intros [it|it] returned l Hrel; pose proof (scan_next it returned l Hrel) as Hn;
    destruct l; destruct Hn as (it' & Hn & Hrel'); unfold it_next at 1; cbn [data_block_iterator data_block_next];
    rewrite Hn; run; eexists; (split; [done|]); exact Hrel'.
Qed.

Global Instance data_block_scan_seek : ScanSeek data_block_scan.
Proof.
  intros [it|it] returned l k Hrel Hret;
    destruct (scan_seek it returned l k Hrel Hret) as (it' & ret' & Hs & Hrel' & Hret');
    unfold it_seek at 1; cbn [data_block_iterator data_block_seek];
    rewrite Hs; run; eexists _, ret'; (split; [done|]); (split; [exact Hrel'|done]).
Qed.
