(* ===== verification/MergeIter.v ===== *)
(** * The merge iterator ([merge_iterator.rs])

    Merges sorted row iterators through a binary heap, newest version of a key
    first, and optionally keeps only what a reader needs of each key: the rows up
    to and including the first one that is not a merge operand. *)

From S2P Require Export Iter Types.

(** ** Heaps

    [std::collections::BinaryHeap] (of [Reverse] entries, so that [pop] is the
    minimum): which of several minimal entries is popped is left open. *)

Class TotalPreorder {A} (cmp : A → A → comparison) : Prop := {
  tp_opp a b : cmp b a = CompOpp (cmp a b);
  tp_trans a b c : cmp a b ≠ Gt → cmp b c ≠ Gt → cmp a c ≠ Gt;
}.

Class MinHeap (A H : Type) := {
  heap_new : H;
  heap_push : A → H → H;
  heap_pop : H → option (A * H);
  heap_drain : H → list A;
}.

Class MinHeapLaws {A H} `{MinHeap A H} (cmp : A → A → comparison) : Prop := {
  drain_new : heap_drain heap_new = [];
  drain_push x h : heap_drain (heap_push x h) ≡ₚ x :: heap_drain h;
  pop_none h : heap_pop h = None → heap_drain h = [];
  pop_some h x h' :
    heap_pop h = Some (x, h') →
    heap_drain h ≡ₚ x :: heap_drain h' ∧ ∀ y, y ∈ heap_drain h' → cmp x y ≠ Gt;
}.

(** A heap as an unordered list; [pop] searches for a minimum. *)
Fixpoint select_min {A} (cmp : A → A → comparison) (x : A) (l : list A) : A * list A :=
  match l with
  | [] => (x, [])
  | y :: l => let '(m, rest) := select_min cmp y l in
              match cmp x m with Gt => (m, x :: rest) | _ => (x, m :: rest) end
  end.

Definition list_heap {A} (cmp : A → A → comparison) : MinHeap A (list A) := {|
  heap_new := [];
  heap_push x h := x :: h;
  heap_pop h := match h with [] => None | x :: l => Some (select_min cmp x l) end;
  heap_drain h := h;
|}.

Lemma select_min_spec {A} (cmp : A → A → comparison) `{!TotalPreorder cmp} x l m rest :
  select_min cmp x l = (m, rest) → x :: l ≡ₚ m :: rest ∧ ∀ y, y ∈ rest → cmp m y ≠ Gt.
Proof.
  revert x m rest. induction l as [|y l IH]; intros x m rest; cbn.
  { intros [= <- <-]. split; [done|]. set_solver. }
  destruct (select_min cmp y l) as [m' rest'] eqn:Hs. destruct (IH _ _ _ Hs) as [Hp Hmin].
  assert (cmp x m' ≠ Gt → cmp x m' ≠ Gt ∧ ∀ z, z ∈ rest' → cmp x z ≠ Gt) as Hx.
  { intros Hxm. split; [done|]. intros z Hz. eapply tp_trans; [exact Hxm|auto]. }
  destruct (cmp x m') eqn:Hc; intros [= <- <-];
    (split; [rewrite Hp; done || apply perm_swap|]);
    intros z [->|Hz]%elem_of_cons; auto; try congruence.
  - by apply Hx.
  - by apply Hx.
  - rewrite (tp_opp x m'), Hc. done.
Qed.

Lemma list_heap_laws {A} (cmp : A → A → comparison) `{!TotalPreorder cmp} :
  MinHeapLaws (H:=list A) (H0:=list_heap cmp) cmp.
Proof.
  split; try done; cbn.
  - intros [|x h]; done.
  - intros [|y h] x h'; [done|]. intros [= Hs]. by apply select_min_spec.
Qed.

(** ** The order of the merge *)

(** [MergeIteratorHeapEntry::cmp] on the buffered rows. *)
Definition kv_cmp (order : IterationOrder) (a b : RowEntry) : comparison :=
  match (match order with Ascending => cmp (key a) (key b) | Descending => cmp (key b) (key a) end) with
  | Eq => cmp (seq b) (seq a)
  | c => c
  end.

Definition row_le (order : IterationOrder) (a b : RowEntry) : Prop := kv_cmp order a b ≠ Gt.

Global Instance kv_cmp_preorder order : TotalPreorder (kv_cmp order).
Proof.
  split.
  - intros a b. unfold kv_cmp.
    rewrite (cmp_opp (key a) (key b)), (cmp_opp (seq b) (seq a)).
    destruct order, (cmp (key a) (key b)); done.
  - intros a b c. unfold kv_cmp.
    assert (∀ x y z : bytes, cmp x y = Lt → cmp y z = Lt → cmp x z = Lt) as Ht by apply cmp_lt_trans.
    assert (∀ x y : bytes, cmp x y = Eq → x = y) as He by (intros x y; apply cmp_eq).
    assert (∀ x y z : Z, cmp x y ≠ Gt → cmp y z ≠ Gt → cmp x z ≠ Gt) as Hz.
    { intros x y z.
      change (Z.compare x y ≠ Gt → Z.compare y z ≠ Gt → Z.compare x z ≠ Gt).
      fold (x <= y)%Z (y <= z)%Z (x <= z)%Z. lia. }
    assert (∀ (x y z : bytes) c1 c2 c3,
      match cmp x y with Eq => c1 | c => c end ≠ Gt → match cmp y z with Eq => c2 | c => c end ≠ Gt →
      (c1 ≠ Gt → c2 ≠ Gt → c3 ≠ Gt) → match cmp x z with Eq => c3 | c => c end ≠ Gt) as Hgen.
    { intros x y z c1 c2 c3 H1 H2 H3.
      destruct (cmp x y) eqn:Hxy; [apply He in Hxy as ->| |done].
      - by destruct (cmp y z); auto.
      - destruct (cmp y z) eqn:Hyz; [apply He in Hyz as <-; by rewrite Hxy| |done].
        by rewrite (Ht _ _ _ Hxy Hyz). }
    destruct order; intros H1 H2.
    + eapply Hgen; [exact H1|exact H2|]. intros ? ?. by eapply Hz.
    + eapply Hgen; [exact H2|exact H1|]. intros ? ?. by eapply Hz.
Qed.

(** ** The iterator *)

Record HeapEntry (I : Type) := mkHeapEntry { next_kv : RowEntry; he_index : nat; he_iter : I }.
Arguments mkHeapEntry {I} _ _ _.
Arguments next_kv {I} _.
Arguments he_index {I} _.
Arguments he_iter {I} _.

(** The heap's order; the order field of an entry is that of its iterator. *)
Definition he_cmp {I} (order : IterationOrder) (a b : HeapEntry I) : comparison :=
  kv_cmp order (next_kv a) (next_kv b).

Global Instance he_cmp_preorder {I} order : TotalPreorder (@he_cmp I order).
Proof. split; intros; unfold he_cmp; [apply tp_opp|eapply tp_trans; eauto]. Qed.

Record MergeIterator (I H : Type) := mkMerge {
  current : option (HeapEntry I);
  iterators : H;
  pending_iterators : list (nat * I);
  dedup : bool;
  merge_initialized : bool;
  bytes_processed : Z;
  merge_order : IterationOrder;
}.
Arguments mkMerge {I H} _ _ _ _ _ _ _.
Arguments current {I H} _.
Arguments iterators {I H} _.
Arguments pending_iterators {I H} _.
Arguments dedup {I H} _.
Arguments merge_initialized {I H} _.
Arguments bytes_processed {I H} _.
Arguments merge_order {I H} _.

Section merge.
  Context {I H : Type} `{RowEntryIterator I} `{MinHeap (HeapEntry I) H}.

(** [MergeIteratorHeapEntry::seek] *)
Definition heap_entry_seek (next_key : bytes) (he : HeapEntry I) : result (option (HeapEntry I)) :=
  if ord_leb next_key (key (next_kv he)) then mret (Some he)
  else
    it ← it_seek (I:=I) next_key (he_iter he);
    '(o, it) ← it_next (I:=I) it;
    match o with
    | Some kv => mret (Some (mkHeapEntry kv (he_index he) it))
    | None => mret None
    end.

(** [MergeIterator::new_with_order], [MergeIterator::new] *)
Definition merge_new_with_order (its : list I) (order : IterationOrder) : MergeIterator I H :=
  mkMerge None heap_new (imap pair its) true false 0 order.
Definition merge_new (its : list I) : MergeIterator I H := merge_new_with_order its Ascending.

(** [MergeIterator::with_dedup] *)
Definition with_dedup (m : MergeIterator I H) (d : bool) : MergeIterator I H :=
  mkMerge (current m) (iterators m) (pending_iterators m) d (merge_initialized m)
    (bytes_processed m) (merge_order m).

(** [self.current = self.iterators.pop()] *)
Definition pop_current (m : MergeIterator I H) (h : H) (bytes : Z) : MergeIterator I H :=
  match heap_pop h with
  | Some (he, h) => mkMerge (Some he) h (pending_iterators m) (dedup m) (merge_initialized m) bytes (merge_order m)
  | None => mkMerge None h (pending_iterators m) (dedup m) (merge_initialized m) bytes (merge_order m)
  end.

Fixpoint init_loop (pending : list (nat * I)) (h : H) : result H :=
  match pending with
  | [] => mret h
  | (idx, it) :: pending =>
      it ← it_init (I:=I) it;
      '(o, it) ← it_next (I:=I) it;
      init_loop pending (match o with
                         | Some kv => heap_push (mkHeapEntry kv idx it) h
                         | None => h
                         end)
  end.

(** [MergeIterator::initialize] *)
Definition initialize (m : MergeIterator I H) : result (MergeIterator I H) :=
  if merge_initialized m then mret m
  else
    h ← init_loop (pending_iterators m) (iterators m);
    let m := pop_current m h (bytes_processed m) in
    mret (mkMerge (current m) (iterators m) [] (dedup m) true (bytes_processed m) (merge_order m)).

(** [MergeIterator::ensure_initialized] *)
Definition ensure_initialized (m : MergeIterator I H) : result (MergeIterator I H) :=
  if negb (merge_initialized m) then initialize m else mret m.

(** [MergeIterator::peek] *)
Definition peek (m : MergeIterator I H) : option RowEntry := next_kv <$> current m.

(** [MergeIterator::advance] *)
Definition advance (m : MergeIterator I H) : result (option RowEntry * MergeIterator I H) :=
  m ← ensure_initialized m;
  match current m with
  | Some he =>
      let current_kv := next_kv he in
      '(o, it) ← it_next (I:=I) (he_iter he);
      let h := match o with
               | Some kv => heap_push (mkHeapEntry kv (he_index he) it) (iterators m)
               | None => iterators m
               end in
      let entry_bytes := Z.of_nat (length (key current_kv) + value_len (value current_kv)) in
      mret (Some current_kv, pop_current m h (wrap 64 (bytes_processed m + entry_bytes)))
  | None => mret (None, m)
  end.

(** The [while let Some(peeked_entry)] loop of [next]. *)
Fixpoint skip_key (fuel : nat) (m : MergeIterator I H) (k : bytes) : result (MergeIterator I H) :=
  match fuel with
  | O => OutOfFuel
  | S fuel =>
      match peek m with
      | Some e => if bool_decide (key e = k)
                  then '(_, m) ← advance m; skip_key fuel m k
                  else mret m
      | None => mret m
      end
  end.

(** [MergeIterator::next] *)
Definition merge_next (fuel : nat) (m : MergeIterator I H) : result (option RowEntry * MergeIterator I H) :=
  if negb (merge_initialized m) then Err IteratorNotInitialized
  else if negb (dedup m) then advance m
  else
    '(o, m) ← advance m;
    match o with
    | None => mret (None, m)
    | Some e =>
        if is_merge (value e) then mret (Some e, m)
        else m ← skip_key fuel m (key e); mret (Some e, m)
    end.

Fixpoint seek_all (next_key : bytes) (hes : list (HeapEntry I)) (h : H) : result H :=
  match hes with
  | [] => mret h
  | he :: hes =>
      o ← heap_entry_seek next_key he;
      seek_all next_key hes (match o with Some he => heap_push he h | None => h end)
  end.

(** [MergeIterator::seek]; the futures touch different iterators, so their order is immaterial. *)
Definition merge_seek (next_key : bytes) (m : MergeIterator I H) : result (MergeIterator I H) :=
  if negb (merge_initialized m) then Err IteratorNotInitialized
  else
    m ← ensure_initialized m;
    h ← seek_all next_key (option_list (current m) ++ heap_drain (iterators m)) heap_new;
    mret (pop_current m h (bytes_processed m)).

Definition merge_iterator (fuel : nat) : RowEntryIterator (MergeIterator I H) := {|
  it_init := initialize;
  it_next := merge_next fuel;
  it_seek := merge_seek;
|}.
End merge.

(** ** Reference definitions *)

(** What deduplication keeps: after a row that is not a merge operand, the older rows of its
    key are skipped ([skip] is that key). *)
Fixpoint dedup_rows (skip : option bytes) (l : list RowEntry) : list RowEntry :=
  match l with
  | [] => []
  | e :: l =>
      if bool_decide (skip = Some (key e)) then dedup_rows skip l
      else e :: dedup_rows (if is_merge (value e) then None else Some (key e)) l
  end.

(** The leading rows of one key. *)
Fixpoint drop_key (k : bytes) (l : list RowEntry) : list RowEntry :=
  match l with
  | [] => []
  | e :: l' => if bool_decide (key e = k) then drop_key k l' else l
  end.

Lemma dedup_rows_drop k l : dedup_rows (Some k) l = dedup_rows None (drop_key k l).
Proof.
  induction l as [|e l IH]; [done|]. cbn.
  destruct (decide (key e = k)) as [<-|Hne].
  - by rewrite !bool_decide_eq_true_2.
  - rewrite (bool_decide_eq_false_2 (key e = k)), (bool_decide_eq_false_2 (Some k = _)) by congruence.
    done.
Qed.

Lemma length_drop_key k l : length (drop_key k l) ≤ length l.
Proof. induction l as [|e l IH]; cbn; [done|]. destruct (bool_decide _); cbn; lia. Qed.

(** The versions of a key a reader needs: merge operands up to the first other row. *)
Fixpoint needed (versions : list RowEntry) : list RowEntry :=
  match versions with
  | [] => []
  | e :: l => e :: (if is_merge (value e) then needed l else [])
  end.

Notation versions_of k l := (filter (λ e, key e = k) l).

(** ** Stability

    [out] takes the rows of [ls] in the order of their lists: whatever rows only one of the lists has come
    in the order of that list. *)

Definition sole {A} (ls : list (list A)) : Prop := length (filter (λ l, l ≠ []) ls) ≤ 1.

Definition stable {A} (ls : list (list A)) (out : list A) : Prop :=
  ∀ p : A → bool, sole (filter (λ x, p x = true) <$> ls) → filter (λ x, p x = true) out = concat (filter (λ x, p x = true) <$> ls).

Lemma concat_nonempty {A} (ls : list (list A)) : concat ls = concat (filter (λ l, l ≠ []) ls).
Proof.
  induction ls as [|l ls IH]; [done|]. rewrite filter_cons. cbn [concat]. case_decide as Hl; [by rewrite IH|].
  by destruct l.
Qed.

Lemma sole_nil {A} (ls : list (list A)) : sole ([] :: ls) ↔ sole ls.
Proof. unfold sole. by rewrite filter_cons_False by auto. Qed.

Lemma sole_cons {A} (x : A) l (ls : list (list A)) : sole ((x :: l) :: ls) ↔ filter (λ l, l ≠ []) ls = [].
Proof.
  unfold sole. rewrite filter_cons_True by done. cbn. split; intros Hs; [apply length_zero_iff_nil; lia|rewrite Hs; cbn; lia].
Qed.

Lemma filter_fmap_nonempty {A B} (g : list A → list B) (ls : list (list A)) : g [] = [] →
  filter (λ l, l ≠ []) (g <$> ls) = filter (λ l, l ≠ []) (g <$> filter (λ l, l ≠ []) ls).
Proof.
  intros Hg. induction ls as [|l ls IH]; [done|]. rewrite fmap_cons, (filter_cons _ l). destruct (decide (l ≠ [])) as [Hl|Hl].
  - by rewrite fmap_cons, !filter_cons, IH.
  - assert (l = []) as -> by (destruct l; [done|]; by destruct Hl). rewrite Hg, filter_cons_False by auto. exact IH.
Qed.

Lemma sole_nonempty {A B} (g : list A → list B) (ls : list (list A)) : g [] = [] → sole (g <$> ls) → sole (g <$> filter (λ l, l ≠ []) ls).
Proof. intros Hg. unfold sole. by rewrite filter_fmap_nonempty. Qed.

Lemma concat_fmap_nonempty {A B} (g : list A → list B) (ls : list (list A)) : g [] = [] → concat (g <$> filter (λ l, l ≠ []) ls) = concat (g <$> ls).
Proof. intros Hg. rewrite (concat_nonempty (g <$> ls)), (concat_nonempty (g <$> filter _ _)). by rewrite (filter_fmap_nonempty g ls). Qed.

Lemma sole_perm {A} (ls ls' : list (list A)) : ls ≡ₚ ls' → sole ls → sole ls'.
Proof. intros Hp. unfold sole. by rewrite Hp. Qed.

Lemma concat_sole {A} (ls ls' : list (list A)) : ls ≡ₚ ls' → sole ls → concat ls = concat ls'.
Proof.
  intros Hp Hs. rewrite (concat_nonempty ls), (concat_nonempty ls').
  assert (filter (λ l, l ≠ []) ls ≡ₚ filter (λ l, l ≠ []) ls') as Hf by by rewrite Hp. unfold sole in Hs.
  destruct (filter (λ l, l ≠ []) ls) as [|a [|b rest]]; [by apply Permutation_nil_l in Hf as ->| |cbn in Hs; lia].
  by apply Permutation_singleton_l in Hf as ->.
Qed.

Lemma stable_perm {A} (ls ls' : list (list A)) out : ls ≡ₚ ls' → stable ls out → stable ls' out.
Proof.
  intros Hp Hst p Hs. assert (filter (λ x, p x = true) <$> ls ≡ₚ filter (λ x, p x = true) <$> ls') as Hf by by rewrite Hp.
  rewrite Hst by by eapply sole_perm. apply concat_sole; [done|]. by eapply sole_perm.
Qed.

Section merge_proofs.
  Context {I H : Type} `{RowEntryIterator I} `{MinHeap (HeapEntry I) H}.
  Context (order : IterationOrder) `{!MinHeapLaws (he_cmp order)}.
  Context (rel : I → list RowEntry → list RowEntry → Prop) `{!Scan rel}.
  Implicit Types (m : MergeIterator I H) (pairs : list (HeapEntry I * list RowEntry)).

(** A heap entry together with the rows it stands for, the buffered one first. *)
Definition entry_ok (p : HeapEntry I * list RowEntry) : Prop :=
  ∃ it0 returned l, p.2 = next_kv p.1 :: l ∧ rel it0 returned (next_kv p.1 :: l) ∧
    it_next it0 = Ok (Some (next_kv p.1), he_iter p.1) ∧ StronglySorted (row_le order) p.2 ∧
    (order = Ascending → Forall (λ e, key e ≼ key (next_kv p.1)) returned).

Definition rows pairs : list RowEntry := concat pairs.*2.

Record merge_inv m pairs : Prop := {
  minv_init : merge_initialized m = true;
  minv_order : merge_order m = order;
  minv_entries : pairs.*1 ≡ₚ option_list (current m) ++ heap_drain (iterators m);
  minv_ok : Forall entry_ok pairs;
  minv_min he : current m = Some he → ∀ y, y ∈ heap_drain (iterators m) → he_cmp order he y ≠ Gt;
  minv_none : current m = None → heap_drain (iterators m) = [];
}.

Lemma rows_perm pairs pairs' : pairs ≡ₚ pairs' → rows pairs ≡ₚ rows pairs'.
Proof. intros Hp. unfold rows. by rewrite Hp. Qed.

Lemma rows_cons he l pairs : rows ((he, l) :: pairs) = l ++ rows pairs.
Proof. done. Qed.

Lemma pop_current_inv m h b pairs :
  merge_initialized m = true → merge_order m = order → pairs.*1 ≡ₚ heap_drain h →
  Forall entry_ok pairs → merge_inv (pop_current m h b) pairs.
Proof.
  intros Hi Ho Hp Hok. unfold pop_current. destruct (heap_pop h) as [[he h']|] eqn:Hpop.
  - destruct (pop_some h he h' Hpop) as [Hd Hmin]. split; cbn; try done.
    + by rewrite Hp, Hd.
    + intros ? [= <-]. done.
  - pose proof (pop_none h Hpop) as Hd. split; cbn; try done.
Qed.

(** The list of rows behind [current], and the other entries. *)
Lemma current_pair m pairs he :
  merge_inv m pairs → current m = Some he →
  ∃ l pairs', pairs ≡ₚ (he, next_kv he :: l) :: pairs' ∧ entry_ok (he, next_kv he :: l) ∧
    pairs'.*1 ≡ₚ heap_drain (iterators m).
Proof.
  intros Hinv Hc. pose proof (minv_entries m pairs Hinv) as He. rewrite Hc in He. cbn in He.
  assert (he ∈ pairs.*1) as Hin by (rewrite He; left).
  apply list_elem_of_fmap in Hin as ([he' l0] & -> & Hin). cbn in *.
  apply elem_of_Permutation in Hin as [pairs' Hp].
  pose proof (minv_ok m pairs Hinv) as Hok. rewrite Hp in Hok. apply Forall_cons in Hok as [Hok _].
  destruct Hok as (it0 & returned & l & Hl & Hrest). cbn in Hl. subst l0.
  exists l, pairs'. split; [done|]. split; [by exists it0, returned, l|].
  rewrite Hp in He. cbn in He. by apply Permutation_cons_inv in He.
Qed.

Lemma current_min m pairs he r :
  merge_inv m pairs → current m = Some he → r ∈ rows pairs → row_le order (next_kv he) r.
Proof.
  intros Hinv Hc Hr. destruct (current_pair m pairs he Hinv Hc) as (l & pairs' & Hp & Hok & Hd).
  pose proof (minv_ok m pairs Hinv) as Hall. rewrite Hp in Hall. apply Forall_cons in Hall as [_ Hall].
  rewrite (rows_perm _ _ Hp), rows_cons in Hr. apply elem_of_app in Hr as [Hr|Hr].
  - destruct Hok as (_ & _ & _ & _ & _ & _ & Hs & _). cbn in Hs. apply StronglySorted_cons in Hs as [Hs _].
    apply elem_of_cons in Hr as [->|Hr].
    + unfold row_le. pose proof (tp_opp (cmp:=kv_cmp order) (next_kv he) (next_kv he)) as Ho.
      by destruct (kv_cmp order (next_kv he) (next_kv he)).
    + rewrite Forall_forall in Hs. auto.
  - unfold rows in Hr. apply elem_of_concat in Hr as (l' & Hr & Hl').
    apply list_elem_of_fmap in Hl' as ([he' l''] & -> & Hin). cbn in Hr.
    rewrite Forall_forall in Hall. destruct (Hall _ Hin) as (_ & ret & l3 & Hl & _ & _ & Hs & _). cbn in *. subst l''.
    assert (row_le order (next_kv he) (next_kv he')) as Hle.
    { apply (minv_min m pairs Hinv he Hc he'). rewrite <- Hd. apply list_elem_of_fmap. by exists (he', next_kv he' :: l3). }
    apply elem_of_cons in Hr as [->|Hr]; [done|].
    apply StronglySorted_cons in Hs as [Hs _]. rewrite Forall_forall in Hs.
    eapply tp_trans; [exact Hle|]. by apply Hs.
Qed.

Lemma merge_inv_nil m pairs : merge_inv m pairs → current m = None → pairs = [].
Proof.
  intros Hinv Hc. pose proof (minv_entries m pairs Hinv) as He.
  rewrite Hc, (minv_none m pairs Hinv Hc) in He. cbn in He.
  apply Permutation_nil_r in He. by apply fmap_nil_inv in He.
Qed.

Lemma row_le_key_le a b : order = Ascending → row_le order a b → key a ≼ key b.
Proof. intros ->. unfold row_le, kv_cmp, ord_le. by destruct (cmp (key a) (key b)). Qed.

Lemma entry_ok_next (he : HeapEntry I) l e it0 it' returned :
  StronglySorted (row_le order) (next_kv he :: e :: l) →
  (order = Ascending → Forall (λ e, key e ≼ key (next_kv he)) returned) →
  rel it0 (returned ++ [next_kv he]) (e :: l) → it_next it0 = Ok (Some e, it') →
  entry_ok (mkHeapEntry e (he_index he) it', e :: l).
Proof.
  intros Hs Hret Hrel Hnext. apply StronglySorted_cons in Hs as [Hle Hs].
  apply Forall_cons in Hle as [Hle _]. exists it0, (returned ++ [next_kv he]), l. split_and!; try done.
  cbn. intros Ho. specialize (Hret Ho). pose proof (row_le_key_le _ _ Ho Hle) as Hk.
  apply Forall_app. split; [|by apply Forall_singleton].
  eapply Forall_impl; [exact Hret|]. cbn. intros x Hx. revert Hx Hk. ord.
Qed.

(** The head of one list is taken. *)
Definition took (e : RowEntry) (ls ls' : list (list RowEntry)) : Prop :=
  ∃ l others, ls ≡ₚ (e :: l) :: others ∧ (l = [] ∧ ls' ≡ₚ others ∨ ls' ≡ₚ l :: others).

Lemma advance_some m pairs he :
  merge_inv m pairs → current m = Some he →
  ∃ m' pairs', advance m = Ok (Some (next_kv he), m') ∧ merge_inv m' pairs' ∧
    dedup m' = dedup m ∧ rows pairs ≡ₚ next_kv he :: rows pairs' ∧ took (next_kv he) pairs.*2 pairs'.*2.
Proof.
  intros Hinv Hc. destruct (current_pair m pairs he Hinv Hc) as (l & pairs' & Hp & Hok & Hd).
  pose proof (minv_ok m pairs Hinv) as Hall. rewrite Hp in Hall. apply Forall_cons in Hall as [_ Hall].
  destruct Hok as (it0 & returned & l' & Hl & Hrel0 & Hn0 & Hs & Hret). cbn in Hl, Hrel0, Hn0, Hs, Hret. injection Hl as ->.
  pose proof (scan_next_rel rel _ _ _ _ _ Hrel0 Hn0) as Hrel.
  unfold advance, ensure_initialized. rewrite (minv_init m pairs Hinv). cbn [negb]. run. rewrite Hc.
  assert (∀ h b, dedup (pop_current m h b) = dedup m) as Hdedup.
  { intros h b. unfold pop_current. by destruct (heap_pop h) as [[]|]. }
  pose proof (scan_next _ _ _ Hrel) as Hn. destruct l' as [|e l'].
  - destruct Hn as (it' & -> & _). run. eexists _, pairs'. split; [done|].
    split; [apply pop_current_inv; [apply Hinv|apply Hinv|done|done]|]. split; [done|].
    split; [by rewrite (rows_perm _ _ Hp)|]. exists [], (pairs'.*2). split; [by rewrite Hp|by left].
  - destruct Hn as (it' & Hn & Hrel'). rewrite Hn. run.
    eexists _, ((mkHeapEntry e (he_index he) it', e :: l') :: pairs'). split; [done|]. split_and!.
    + apply pop_current_inv; [apply Hinv|apply Hinv| |].
      * rewrite drain_push. cbn. by rewrite Hd.
      * constructor; [by eapply entry_ok_next|done].
    + done.
    + by rewrite (rows_perm _ _ Hp).
    + exists (e :: l'), (pairs'.*2). split; [by rewrite Hp|by right].
Qed.

(** The rows [advance] returns, in order; [d] is the unchanging [dedup] setting. *)
Fixpoint drains (d : bool) m (out : list RowEntry) : Prop :=
  merge_initialized m = true ∧ dedup m = d ∧ peek m = head out ∧
  match out with
  | [] => advance m = Ok (None, m)
  | e :: out => ∃ m', advance m = Ok (Some e, m') ∧ drains d m' out
  end.

Lemma stable_cons e ls ls' out : took e ls ls' → stable ls' out → stable ls (e :: out).
Proof.
  intros (l & others & Hp & Hor) Hst. eapply stable_perm; [symmetry; exact Hp|].
  assert (stable (l :: others) out) as Hst'.
  { destruct Hor as [[-> Hp']|Hp']; [|by eapply stable_perm]. intros p Hs. cbn. apply (stable_perm _ _ _ Hp' Hst).
    by apply (sole_nil (filter (λ x, p x = true) <$> others)). }
  clear Hst Hor Hp. intros p Hs. specialize (Hst' p). cbn [fmap list_fmap concat] in *. rewrite !filter_cons in *.
  destruct (decide (p e = true)) as [Hpe|Hpe].
  - apply sole_cons in Hs. cbn [app]. f_equal. apply Hst'. unfold sole. rewrite filter_cons, Hs. case_decide; cbn; lia.
  - apply Hst'. exact Hs.
Qed.

Lemma merge_inv_drains m pairs :
  merge_inv m pairs →
  ∃ out, drains (dedup m) m out ∧ out ≡ₚ rows pairs ∧ StronglySorted (row_le order) out ∧ stable pairs.*2 out.
Proof.
  remember (length (rows pairs)) as n eqn:Hn. revert m pairs Hn.
  induction n as [n IH] using lt_wf_ind; intros m pairs Hn Hinv.
  destruct (current m) as [he|] eqn:Hc.
  - destruct (advance_some m pairs he Hinv Hc) as (m' & pairs' & Hadv & Hinv' & Hd & Hp & Htook).
    destruct (IH (length (rows pairs'))) with (m := m') (pairs := pairs') as (out & Hout & Hperm & Hs & Hst); try done.
    { subst n. rewrite Hp. cbn. lia. }
    exists (next_kv he :: out). split_and!.
    + cbn. split; [apply Hinv|]. split; [done|]. split; [unfold peek; by rewrite Hc|].
      exists m'. rewrite <- Hd. done.
    + by rewrite Hperm, <- Hp.
    + constructor; [done|]. apply Forall_forall. intros r Hr. apply (current_min m pairs); [done..|].
      rewrite Hp, <- Hperm. by right.
    + by eapply stable_cons.
  - pose proof (merge_inv_nil m pairs Hinv Hc) as ->. exists []. split_and!; [|done|constructor|done].
    cbn. split; [apply Hinv|]. split; [done|]. split; [unfold peek; by rewrite Hc|].
    unfold advance, ensure_initialized. rewrite (minv_init m _ Hinv). cbn [negb]. run. by rewrite Hc.
Qed.

Lemma skip_key_drains fuel d m out k :
  drains d m out → length out < fuel →
  ∃ m', skip_key fuel m k = Ok m' ∧ drains d m' (drop_key k out).
Proof.
  revert m out. induction fuel as [|fuel IH]; intros m out Hd Hl; [lia|]. cbn [skip_key].
  destruct out as [|e out]; cbn in Hd; destruct Hd as (Hi & Hdd & Hpeek & Hadv); rewrite Hpeek; cbn [head].
  - by exists m.
  - destruct Hadv as (m' & Hadv & Hd'). cbn [drop_key]. destruct (bool_decide (key e = k)) eqn:Hk.
    + rewrite Hadv. run. cbn in Hl. apply IH; [done|lia].
    + exists m. split; [done|]. cbn. split_and!; eauto.
Qed.

Lemma drains_yields fuel d m out :
  drains d m out → length out < fuel →
  yields (H:=merge_iterator fuel) m (if d then dedup_rows None out else out).
Proof.
  remember (length out) as n eqn:Hn. revert m out Hn.
  induction n as [n IH] using lt_wf_ind; intros m out Hn Hd Hl.
  destruct out as [|e out]; cbn in Hd; destruct Hd as (Hi & Hdd & Hpeek & Hadv).
  - replace (if d then _ else _) with (@nil RowEntry) by by destruct d. exists m. cbn.
    unfold merge_next. rewrite Hi, Hdd. destruct d; cbn [negb]; rewrite Hadv; by run.
  - destruct Hadv as (m' & Hadv & Hd'). cbn in Hn. destruct d.
    + cbn [dedup_rows]. rewrite bool_decide_eq_false_2 by done.
      destruct (is_merge (value e)) eqn:Hm.
      * exists m'. split.
        -- cbn. unfold merge_next. rewrite Hi, Hdd. cbn [negb]. rewrite Hadv. run. by rewrite Hm.
        -- apply (IH (length out)); [lia|done|done|lia].
      * destruct (skip_key_drains fuel true m' out (key e) Hd' ltac:(lia)) as (m2 & Hskip & Hd2).
        exists m2. split.
        -- cbn. unfold merge_next. rewrite Hi, Hdd. cbn [negb]. rewrite Hadv. run. rewrite Hm, Hskip. by run.
        -- rewrite dedup_rows_drop. pose proof (length_drop_key (key e) out).
           apply (IH (length (drop_key (key e) out))); [lia|done|done|lia].
    + exists m'. split.
      * cbn. unfold merge_next. rewrite Hi, Hdd. cbn [negb]. done.
      * apply (IH (length out) ltac:(lia) m' out); [done|done|lia].
Qed.

(** Sources that are ready to be merged. *)
Definition source_ok (it : I) (l : list RowEntry) : Prop :=
  ∃ it', it_init it = Ok it' ∧ rel it' [] l ∧ StronglySorted (row_le order) l.

Lemma init_loop_ok (pending : list (nat * I)) ls h pairs :
  Forall2 source_ok pending.*2 ls → pairs.*1 ≡ₚ heap_drain h → Forall entry_ok pairs →
  ∃ h' pairs', init_loop pending h = Ok h' ∧ pairs'.*1 ≡ₚ heap_drain h' ∧ Forall entry_ok pairs' ∧
    pairs'.*2 ≡ₚ filter (λ l, l ≠ []) ls ++ pairs.*2.
Proof.
  revert ls h pairs. induction pending as [|[idx it] pending IH]; intros ls h pairs Hsrc Hp Hok.
  - apply Forall2_nil_inv_l in Hsrc as ->. exists h, pairs. done.
  - apply Forall2_cons_inv_l in Hsrc as (l & ls' & (it1 & Hinit & Hrel & Hs) & Hsrc & ->).
    cbn in Hinit. cbn [init_loop concat]. rewrite Hinit. run. pose proof (scan_next _ _ _ Hrel) as Hn.
    destruct l as [|e l].
    + destruct Hn as (it2 & -> & _). run. destruct (IH ls' h pairs Hsrc Hp Hok) as (h' & pairs' & ? & ? & ? & ?).
      exists h', pairs'. by rewrite filter_cons_False by auto.
    + destruct Hn as (it2 & Hn & Hrel2). rewrite Hn. run.
      destruct (IH ls' (heap_push (mkHeapEntry e idx it2) h) ((mkHeapEntry e idx it2, e :: l) :: pairs))
        as (h' & pairs' & ? & ? & ? & Hrows); [done| | |].
      * rewrite drain_push. cbn. by rewrite Hp.
      * constructor; [|done]. exists it1, [], l. split_and!; done.
      * exists h', pairs'. split_and!; try done. rewrite Hrows, filter_cons_True by done. cbn. symmetry. apply Permutation_middle.
Qed.

Lemma rows_nonempty pairs ls : pairs.*2 ≡ₚ filter (λ l, l ≠ []) ls → rows pairs ≡ₚ concat ls.
Proof. intros Hp. unfold rows. by rewrite Hp, <- concat_nonempty. Qed.

Lemma initialize_ok its ls d :
  Forall2 source_ok its ls →
  ∃ m pairs, initialize (with_dedup (merge_new_with_order its order) d) = Ok m ∧
    merge_inv m pairs ∧ dedup m = d ∧ pairs.*2 ≡ₚ filter (λ l, l ≠ []) ls.
Proof.
  intros Hsrc. unfold initialize. cbn [merge_initialized with_dedup merge_new_with_order pending_iterators].
  destruct (init_loop_ok (imap pair its) ls heap_new []) as (h & pairs & Hloop & Hp & Hok & Hrows).
  - assert ((imap (A:=I) pair its).*2 = its) as ->; [|done].
    rewrite fmap_imap. etrans; [exact (imap_const id its)|]. apply list_fmap_id.
  - by rewrite drain_new.
  - constructor.
  - cbn [with_dedup merge_new_with_order iterators]. rewrite Hloop. run.
    match goal with |- context [pop_current ?m0 h ?b] =>
      destruct (pop_current_inv (mkMerge (current m0) (iterators m0) [] (dedup m0) true b order) h b pairs)
        as [? ? ? ? ? ?]; try done end.
    eexists _, pairs. split; [done|]. split; [|split; [|by rewrite Hrows, app_nil_r]].
    + unfold pop_current in *. destruct (heap_pop h) as [[he h']|]; split; cbn in *; try done.
    + unfold pop_current. by destruct (heap_pop h) as [[]|].
Qed.
End merge_proofs.

(** C18: Merging sorted sources.  Over any heap that pops a minimal entry and any sources that
    yield sorted rows, the merge iterator initializes and then yields: without deduplication a
    permutation of all rows of all sources, sorted by key in the requested direction and by
    descending sequence number within a key; with deduplication that list with, for every key,
    everything after the first row that is not a merge operand removed.  The number of rows
    bounds the fuel of its inner loop. *)
Theorem merge_iterator_merges {I H : Type} `{RowEntryIterator I} `{MinHeap (HeapEntry I) H}
    (order : IterationOrder) `{!MinHeapLaws (he_cmp order)}
    (rel : I → list RowEntry → list RowEntry → Prop) `{!Scan rel}
    (its : list I) (ls : list (list RowEntry)) (d : bool) :
  Forall2 (source_ok order rel) its ls →
  ∃ (m : MergeIterator I H) out,
    initialize (with_dedup (merge_new_with_order its order) d) = Ok m ∧
    out ≡ₚ concat ls ∧ StronglySorted (row_le order) out ∧
    ∀ fuel, length out < fuel →
      yields (H:=merge_iterator fuel) m (if d then dedup_rows None out else out).
Proof.
  intros Hsrc. destruct (initialize_ok order rel its ls d Hsrc) as (m & pairs & Hinit & Hinv & Hd & Hrows).
  destruct (merge_inv_drains order rel m pairs Hinv) as (out & Hout & Hperm & Hs & _).
  exists m, out. rewrite Hd in Hout. split_and!; [done|rewrite Hperm; by apply rows_nonempty|done|].
  intros fuel Hf. by apply drains_yields.
Qed.

(** A source for the witnesses: two sorted lists over the list heap. *)
Lemma merge_iterator_merges_witness :
  let a := mkRow [97%Z] (Value [1%Z]) 5 None None in
  let b := mkRow [97%Z] Tombstone 7 None None in
  let c := mkRow [98%Z] (Merge [2%Z]) 3 None None in
  ∃ (m : MergeIterator ListIterator (list (HeapEntry ListIterator))) out,
    initialize (H1:=list_heap (he_cmp Ascending))
      (with_dedup (merge_new_with_order (H1:=list_heap (he_cmp Ascending))
         [mkListIter [a; c]; mkListIter [b]] Ascending) true) = Ok m ∧
    out ≡ₚ [a; c; b].
Proof.
  intros a b c.
  destruct (merge_iterator_merges (H1:=list_heap (he_cmp Ascending)) Ascending
    (MinHeapLaws0:=list_heap_laws _) list_scan [mkListIter [a; c]; mkListIter [b]] [[a; c]; [b]] true)
    as (m & out & Hi & Hp & _).
  - repeat constructor; eexists; (split; [reflexivity|split; [reflexivity|]]); repeat constructor; discriminate.
  - exists m, out. split; [exact Hi|exact Hp].
Defined.

(** ** Deduplication and the readers *)

Definition key_dir_le (o : IterationOrder) (a b : bytes) : Prop :=
  match o with Ascending => a ≼ b | Descending => b ≼ a end.

Lemma row_le_key o a b : row_le o a b → key_dir_le o (key a) (key b).
Proof.
  unfold row_le, kv_cmp. destruct o; cbn; unfold ord_le; by destruct (cmp _ _).
Qed.

Lemma dedup_versions o skip k (l : list RowEntry) :
  StronglySorted (λ a b, key_dir_le o (key a) (key b)) l →
  (∀ s, skip = Some s → Forall (λ e, key_dir_le o s (key e)) l) →
  versions_of k (dedup_rows skip l) =
    if bool_decide (skip = Some k) then [] else needed (versions_of k l).
Proof.
  intros Hs. revert skip. induction Hs as [|e l Hs IH Hle]; intros skip Hskip.
  { cbn. by destruct (bool_decide _). }
  cbn [dedup_rows]. destruct (decide (skip = Some (key e))) as [->|Hne].
  - rewrite (bool_decide_eq_true_2 (Some (key e) = Some (key e))) by done.
    rewrite IH by (intros s [= <-]; done). destruct (decide (key e = k)) as [<-|Hk].
    + by rewrite bool_decide_eq_true_2.
    + rewrite bool_decide_eq_false_2 by congruence. by rewrite (filter_cons_False (λ e, key e = k)).
  - rewrite (bool_decide_eq_false_2 (skip = Some (key e))) by done.
    set (skip' := if is_merge (value e) then None else Some (key e)).
    assert (versions_of k (dedup_rows skip' l) =
      if bool_decide (skip' = Some k) then [] else needed (versions_of k l)) as IH'.
    { apply IH. intros s Hs'. unfold skip' in Hs'. destruct (is_merge _); [done|]. by injection Hs' as <-. }
    destruct (decide (key e = k)) as [<-|Hk].
    + rewrite !(filter_cons_True (λ e', key e' = key e)) by done. rewrite IH'.
      rewrite (bool_decide_eq_false_2 (skip = _)) by done. cbn [needed]. unfold skip'.
      destruct (is_merge (value e)); [by rewrite bool_decide_eq_false_2|by rewrite bool_decide_eq_true_2].
    + rewrite !(filter_cons_False (λ e', key e' = k)) by done. rewrite IH'.
      rewrite bool_decide_eq_false_2 by (unfold skip'; destruct (is_merge _); congruence).
      destruct (decide (skip = Some k)) as [->|Hsk]; [|by rewrite bool_decide_eq_false_2].
      rewrite bool_decide_eq_true_2 by done.
      rewrite list_filter_none; [done|].
      apply Forall_forall. intros x Hx Hxk. rewrite Forall_forall in Hle. specialize (Hle x Hx).
      specialize (Hskip k eq_refl). apply Forall_cons in Hskip as [Hke _]. apply Hk.
      subst k. revert Hle Hke. destruct o; cbn; ord.
Qed.

(** What a reader loses to deduplication: nothing it needs.  In a sorted run, the rows
    [MergeIterator::next] keeps of a key are its newest versions down to the first one that is
    not a merge operand, and they come newest first. *)
Theorem dedup_keeps_needed (o : IterationOrder) (out : list RowEntry) (k : bytes) :
  StronglySorted (row_le o) out →
  versions_of k (dedup_rows None out) = needed (versions_of k out) ∧
  StronglySorted (λ a b, seq b ≤ seq a)%Z (versions_of k out).
Proof.
  intros Hs. split.
  - rewrite (dedup_versions o None k out); [done| |done].
    eapply StronglySorted_weaken; [|exact Hs]. intros a b. apply row_le_key.
  - induction Hs as [|e l Hs IH Hle]; [constructor|]. rewrite filter_cons.
    destruct (decide (key e = k)) as [<-|]; [|done]. constructor; [done|].
    apply Forall_forall. intros x Hx. apply list_elem_of_filter in Hx as [Hk Hx].
    rewrite Forall_forall in Hle. specialize (Hle x Hx). unfold row_le, kv_cmp in Hle.
    rewrite Hk in Hle. assert (cmp (key e) (key e) = Eq) as Hr by by apply cmp_eq.
    rewrite Hr in Hle. destruct o; exact Hle.
Qed.

Lemma dedup_keeps_needed_witness :
  let a := mkRow [97%Z] (Merge [1%Z]) 7 None None in
  let b := mkRow [97%Z] (Value [2%Z]) 5 None None in
  let c := mkRow [97%Z] (Value [3%Z]) 4 None None in
  versions_of [97%Z] (dedup_rows None [a; b; c]) = [a; b].
Proof.
  intros a b c. apply (dedup_keeps_needed Ascending [a; b; c] [97%Z]).
  repeat constructor; discriminate.
Defined.

(** ** Seeking *)

Notation from_k k l := (filter (λ e, ord_ltb (key e) k = false) l).

Section merge_seek.
  Context {I H : Type} `{RowEntryIterator I} `{MinHeap (HeapEntry I) H}.
  Context `{!MinHeapLaws (he_cmp Ascending)}.
  Context (rel : I → list RowEntry → list RowEntry → Prop) `{!Scan rel, !ScanAdvance rel}.
  Notation entry_ok := (entry_ok Ascending rel).
  Notation merge_inv := (merge_inv Ascending rel).

Lemma sorted_from_k k e (l : list RowEntry) :
  StronglySorted (row_le Ascending) (e :: l) → k ≼ key e → from_k k (e :: l) = e :: l.
Proof.
  intros Hs Hk. apply list_filter_all. apply StronglySorted_cons in Hs as [Hle _].
  constructor; [revert Hk; ord|]. eapply Forall_impl; [exact Hle|]. cbn. intros x Hx.
  pose proof (row_le_key Ascending _ _ Hx) as Hx'. cbn in Hx'. revert Hk Hx'. ord.
Qed.

Lemma heap_entry_seek_ok k he l :
  entry_ok (he, l) →
  ∃ o, heap_entry_seek k he = Ok o ∧
    match o with Some he' => entry_ok (he', from_k k l) | None => from_k k l = [] end.
Proof.
  intros (it0 & returned & l' & Hl & Hrel & Hn0 & Hs & Hret). cbn in Hl, Hrel, Hn0, Hs, Hret. subst l. specialize (Hret eq_refl).
  unfold heap_entry_seek. destruct (ord_leb k (key (next_kv he))) eqn:Hk.
  - exists (Some he). split; [done|]. rewrite sorted_from_k by (done || (revert Hk; ord)).
    exists it0, returned, l'. done.
  - assert (key (next_kv he) ≺ k) as Hlt by (revert Hk; ord).
    rewrite filter_cons_False by (revert Hlt; ord).
    destruct (scan_advance _ _ _ _ _ k Hrel Hn0) as (it1 & ret1 & -> & Hrel1 & Hret1).
    { apply Forall_app. split; [|by apply Forall_singleton]. eapply Forall_impl; [exact Hret|].
      cbn. intros x Hx. revert Hx Hlt. ord. }
    run. pose proof (scan_next _ _ _ Hrel1) as Hn.
    apply StronglySorted_cons in Hs as [_ Hs].
    pose proof (StronglySorted_sublist _ _ _ (sublist_filter (λ e, ord_ltb (key e) k = false) l') Hs) as Hs1.
    destruct (from_k k l') as [|e l''] eqn:Hf.
    + destruct Hn as (it2 & -> & _). run. by exists None.
    + destruct Hn as (it2 & Hn & Hrel2). rewrite Hn. run. eexists. split; [done|].
      exists it1, ret1, l''. split_and!; try done. intros _. cbn.
      assert (ord_ltb (key e) k = false) as He.
      { assert (e ∈ from_k k l') as Hin by (rewrite Hf; left). by apply list_elem_of_filter in Hin as []. }
      eapply Forall_impl; [exact Hret1|]. cbn. intros x Hx. revert Hx He. ord.
Qed.

Lemma seek_all_ok k hes pairs h pairs0 :
  pairs.*1 = hes → Forall entry_ok pairs → pairs0.*1 ≡ₚ heap_drain h → Forall entry_ok pairs0 →
  ∃ h' pairs', seek_all k hes h = Ok h' ∧ pairs'.*1 ≡ₚ heap_drain h' ∧ Forall entry_ok pairs' ∧
    pairs'.*2 ≡ₚ filter (λ l, l ≠ []) ((λ l, from_k k l) <$> pairs.*2) ++ pairs0.*2.
Proof.
  intros <- Hok. revert h pairs0. induction Hok as [|[he l] pairs Hp Hok IH]; intros h pairs0 Hd Hok0.
  { exists h, pairs0. done. }
  cbn [fmap list_fmap seek_all fst snd]. destruct (heap_entry_seek_ok k he l Hp) as (o & -> & Ho). run. destruct o as [he'|].
  - destruct (IH (heap_push he' h) ((he', from_k k l) :: pairs0)) as (h' & pairs' & Hs & Hd' & Hok' & Hr).
    + rewrite drain_push. cbn. by rewrite Hd.
    + by constructor.
    + exists h', pairs'. split_and!; [done..|]. rewrite Hr. cbn [fmap list_fmap snd]. rewrite filter_cons_True; [symmetry; apply Permutation_middle|].
      destruct Ho as (_ & _ & l' & Hl' & _). cbn in Hl'. by rewrite Hl'.
  - rewrite Ho, filter_cons_False by auto. by apply IH.
Qed.

Lemma merge_seek_ok k (m : MergeIterator I H) pairs :
  merge_inv m pairs →
  ∃ m' pairs', merge_seek k m = Ok m' ∧ merge_inv m' pairs' ∧ dedup m' = dedup m ∧
    pairs'.*2 ≡ₚ filter (λ l, l ≠ []) ((λ l, from_k k l) <$> pairs.*2).
Proof.
  intros Hinv. unfold merge_seek, ensure_initialized. rewrite (minv_init _ _ m pairs Hinv). cbn [negb]. run.
  pose proof (minv_entries _ _ m pairs Hinv) as Hent. symmetry in Hent.
  destruct (Permutation_map_inv fst pairs Hent) as (pairs1 & Heq & Hperm).
  destruct (seek_all_ok k (option_list (current m) ++ heap_drain (iterators m)) pairs1 heap_new []) as (h' & pairs' & Hs & Hd & Hok & Hr);
    [symmetry; exact Heq| |by rewrite drain_new|constructor|].
  { rewrite <- Hperm. apply Hinv. }
  rewrite Hs. run. eexists _, pairs'. split; [done|]. split_and!.
  - apply pop_current_inv; [done|apply Hinv|apply Hinv|done|done].
  - unfold pop_current. by destruct (heap_pop h') as [[]|].
  - by rewrite Hr, app_nil_r, Hperm.
Qed.

Lemma rows_from_k k (pairs pairs' : list (HeapEntry I * list RowEntry)) : pairs'.*2 ≡ₚ filter (λ l, l ≠ []) ((λ l, from_k k l) <$> pairs.*2) →
  rows pairs' ≡ₚ from_k k (rows pairs).
Proof.
  intros Hp. unfold rows. rewrite Hp, <- concat_nonempty. generalize (pairs.*2). intros ls. induction ls as [|l ls IH]; [done|].
  cbn [fmap list_fmap concat]. by rewrite filter_app, IH.
Qed.
End merge_seek.

(** Seeking a merge forward.  From any state of an ascending merge, [seek] returns and leaves
    exactly the remaining rows whose key is at least the target, still sorted and still
    deduplicated as configured; rows below the target are skipped in every source. *)
Theorem merge_seek_exact {I H : Type} `{RowEntryIterator I} `{MinHeap (HeapEntry I) H}
    `{!MinHeapLaws (he_cmp Ascending)}
    (rel : I → list RowEntry → list RowEntry → Prop) `{!Scan rel, !ScanAdvance rel}
    (m : MergeIterator I H) (pairs : list (HeapEntry I * list RowEntry)) (k : bytes) :
  merge_inv Ascending rel m pairs →
  ∃ m' out, merge_seek k m = Ok m' ∧
    out ≡ₚ filter (λ e, ord_ltb (key e) k = false) (rows pairs) ∧
    StronglySorted (row_le Ascending) out ∧
    ∀ fuel, length out < fuel →
      yields (H:=merge_iterator fuel) m' (if dedup m then dedup_rows None out else out).
Proof.
  intros Hinv. destruct (merge_seek_ok rel k m pairs Hinv) as (m' & pairs' & Hs & Hinv' & Hd & Hr).
  destruct (merge_inv_drains Ascending rel m' pairs' Hinv') as (out & Hout & Hperm & Hsorted & _).
  exists m', out. rewrite Hd in Hout. split_and!; [done|rewrite Hperm; by apply rows_from_k|done|].
  intros fuel Hf. by apply drains_yields.
Qed.

Lemma merge_seek_exact_witness :
  let a := mkRow [97%Z] (Value [1%Z]) 5 None None in
  let b := mkRow [98%Z] Tombstone 7 None None in
  let it := mkHeapEntry a 0 (mkListIter [b]) in
  ∃ (m' : MergeIterator ListIterator (list (HeapEntry ListIterator))) out,
    merge_seek (H1:=list_heap (he_cmp Ascending)) [98%Z]
      (mkMerge (Some it) [] [] true true 0 Ascending) = Ok m' ∧ out ≡ₚ [b].
Proof.
  intros a b it.
  destruct (merge_seek_exact (H1:=list_heap (he_cmp Ascending)) (MinHeapLaws0:=list_heap_laws _)
    list_scan (mkMerge (Some it) [] [] true true 0 Ascending) [(it, [a; b])] [98%Z])
    as (m' & out & Hs & Hp & _).
  - split; try done; cbn; [|intros ? [= <-] y Hy; by apply not_elem_of_nil in Hy].
    repeat constructor. exists (mkListIter [a; b]), [], [b]. split_and!; try done.
    repeat constructor; discriminate.
  - exists m', out. split; [exact Hs|exact Hp].
Defined.

(** ** The merge as a source of rows

    When no two sources have a row with the same key and sequence number, the rows of a merge are
    determined, so a merge can itself be merged and sought. *)

Definition same_version (k : bytes) (s : Z) (e : RowEntry) : bool := bool_decide (key e = k ∧ seq e = s).
Notation versions_at k s l := (filter (λ e, same_version k s e = true) l).

Definition distinct (ls : list (list RowEntry)) : Prop := ∀ k s, sole ((λ l, versions_at k s l) <$> ls).

Lemma row_le_antisym o a b : row_le o a b → row_le o b a → key a = key b ∧ seq a = seq b.
Proof.
  unfold row_le, kv_cmp. rewrite (cmp_opp (key a) (key b)), (cmp_opp (seq b) (seq a)).
  destruct o; destruct (cmp (key a) (key b)) eqn:Hk; try done; apply cmp_eq in Hk; (destruct (cmp (seq b) (seq a)) eqn:Hs; try done);
    by apply cmp_eq in Hs.
Qed.

Lemma row_le_refl o a : row_le o a a.
Proof. unfold row_le. pose proof (tp_opp (cmp:=kv_cmp o) a a) as Ho. by destruct (kv_cmp o a a). Qed.

(** Sorted rows are determined by the rows they have of each key and sequence number. *)
Lemma sorted_rows_ext o a b : StronglySorted (row_le o) a → StronglySorted (row_le o) b →
  (∀ k s, versions_at k s a = versions_at k s b) → a = b.
Proof.
  assert (∀ e (l : list RowEntry), e ∈ versions_at (key e) (seq e) l ↔ e ∈ l) as Hin.
  { intros e l. rewrite list_elem_of_filter. unfold same_version. rewrite bool_decide_eq_true. naive_solver. }
  revert b. induction a as [|x a IH]; intros b Ha Hb Heq.
  - destruct b as [|y b]; [done|]. specialize (Heq (key y) (seq y)). pose proof (proj2 (Hin y (y :: b)) ltac:(left)) as Hy.
    rewrite <- Heq in Hy. by apply not_elem_of_nil in Hy.
  - destruct b as [|y b].
    { specialize (Heq (key x) (seq x)). pose proof (proj2 (Hin x (x :: a)) ltac:(left)) as Hx. rewrite Heq in Hx. by apply not_elem_of_nil in Hx. }
    apply StronglySorted_cons in Ha as [Hxa Ha]. apply StronglySorted_cons in Hb as [Hyb Hb]. rewrite Forall_forall in Hxa, Hyb.
    assert (x ∈ y :: b) as Hx by (apply Hin; rewrite <- Heq; apply Hin; left).
    assert (y ∈ x :: a) as Hy by (apply Hin; rewrite Heq; apply Hin; left).
    assert (row_le o y x ∧ row_le o x y) as [Hyx Hxy].
    { apply elem_of_cons in Hx as [->|Hx], Hy as [Hy|Hy]; [by split; apply row_le_refl|split; [apply row_le_refl|by apply Hxa]|subst y; split; apply row_le_refl || by apply Hyb|by split; auto]. }
    destruct (row_le_antisym o x y Hxy Hyx) as [Hk Hs].
    assert (∀ k s, same_version k s x = same_version k s y) as Hsame by (intros k s; unfold same_version; by rewrite Hk, Hs).
    assert (x = y) as <-.
    { specialize (Heq (key x) (seq x)). rewrite !filter_cons, <- Hsame, !decide_True in Heq by (unfold same_version; by apply bool_decide_eq_true). by injection Heq. }
    f_equal. apply IH; [done..|]. intros k s. specialize (Heq k s). rewrite !filter_cons in Heq. case_decide; [by injection Heq|done].
Qed.

Lemma drains_unique {I H} `{RowEntryIterator I} `{MinHeap (HeapEntry I) H} d (m : MergeIterator I H) a b : drains d m a → drains d m b → a = b.
Proof.
  revert m b. induction a as [|x a IH]; intros m [|y b] Ha Hb; cbn in Ha, Hb; try done.
  - destruct Ha as (_ & _ & Hp & _), Hb as (_ & _ & Hq & _). rewrite Hp in Hq. done.
  - destruct Ha as (_ & _ & Hp & _), Hb as (_ & _ & Hq & _). rewrite Hp in Hq. done.
  - destruct Ha as (_ & _ & _ & m1 & Hm1 & Ha), Hb as (_ & _ & _ & m2 & Hm2 & Hb). rewrite Hm1 in Hm2. injection Hm2 as <- <-.
    f_equal. by eapply IH.
Qed.

Section merge_scan.
  Context {I H : Type} `{RowEntryIterator I} `{MinHeap (HeapEntry I) H}.
  Context (order : IterationOrder) `{!MinHeapLaws (he_cmp order)}.
  Context (rel : I → list RowEntry → list RowEntry → Prop) `{!Scan rel}.
  Implicit Types m : MergeIterator I H.

(** A merge that is about to return [out], were it not to deduplicate. *)
Definition merges m (out : list RowEntry) : Prop :=
  ∃ pairs, merge_inv order rel m pairs ∧ drains (dedup m) m out ∧ distinct pairs.*2.

Lemma took_distinct e ls ls' : took e ls ls' → distinct ls → distinct ls'.
Proof.
  intros (l & others & Hp & Hor) Hd k s. specialize (Hd k s).
  assert (sole ((λ l, versions_at k s l) <$> (e :: l) :: others)) as Hd' by (eapply sole_perm; [|exact Hd]; by rewrite Hp).
  cbn [fmap list_fmap] in Hd'. rewrite filter_cons in Hd'.
  assert (sole (versions_at k s l :: ((λ l, versions_at k s l) <$> others))) as Hl.
  { case_decide; [|done]. apply sole_cons in Hd'. unfold sole. rewrite filter_cons, Hd'. case_decide; cbn; lia. }
  destruct Hor as [[-> Hp']|Hp']; (eapply sole_perm; [by rewrite Hp'|]); [by apply sole_nil in Hl|done].
Qed.

Lemma merges_cons m e out : merges m (e :: out) → ∃ m', advance m = Ok (Some e, m') ∧ dedup m' = dedup m ∧ merges m' out.
Proof.
  intros (pairs & Hinv & Hd & Hdis). pose proof Hd as (_ & _ & Hpeek & m' & Hadv & Hd'). unfold peek in Hpeek.
  destruct (current m) as [he|] eqn:Hc; [|done].
  destruct (advance_some order rel m pairs he Hinv Hc) as (m2 & pairs' & Hadv2 & Hinv' & Hdd & _ & Htook). rewrite Hadv in Hadv2. injection Hadv2 as -> <-.
  exists m'. split; [done|]. split; [done|]. exists pairs'. rewrite Hdd. split; [done|]. split; [done|]. by eapply took_distinct.
Qed.

Lemma merges_sorted m out : merges m out → StronglySorted (row_le order) out.
Proof.
  intros (pairs & Hinv & Hd & _). destruct (merge_inv_drains order rel m pairs Hinv) as (out' & Hd' & _ & Hs & _).
  by rewrite (drains_unique _ _ _ _ Hd Hd').
Qed.

Lemma skip_key_merges fuel m out k : merges m out → length out < fuel →
  ∃ m', skip_key fuel m k = Ok m' ∧ dedup m' = dedup m ∧ merges m' (drop_key k out).
Proof.
  revert m out. induction fuel as [|fuel IH]; intros m out Hm Hl; [lia|]. cbn [skip_key].
  assert (peek m = head out) as ->. { destruct Hm as (pairs & _ & Hd & _). destruct out; by destruct Hd as (_ & _ & ? & _). }
  destruct out as [|e out]; cbn [head]; [by exists m|]. cbn [drop_key]. destruct (bool_decide (key e = k)) eqn:Hk; [|by exists m].
  destruct (merges_cons m e out Hm) as (m1 & -> & Hd1 & Hm1). run. destruct (IH m1 out Hm1) as (m2 & -> & Hd2 & Hm2); [cbn in Hl; lia|].
  exists m2. split; [done|]. split; [congruence|done].
Qed.

(** The relation of a merge, with or without deduplication. *)
Definition merge_scan (fuel : nat) (d : bool) m (returned l : list RowEntry) : Prop :=
  ∃ out, merges m out ∧ dedup m = d ∧ length out < fuel ∧ l = if d then dedup_rows None out else out.

Lemma merge_scan_next fuel d : Scan (H:=merge_iterator fuel) (merge_scan fuel d).
Proof.
  intros m returned l (out & Hm & Hdd & Hlen & ->). unfold it_next. cbn [merge_iterator]. unfold merge_next.
  assert (merge_initialized m = true) as ->. { destruct Hm as (pairs & Hinv & _). apply Hinv. }
  cbn [negb]. rewrite Hdd. destruct out as [|e out].
  - assert (advance m = Ok (None, m)) as Hadv. { destruct Hm as (pairs & _ & Hd & _). by destruct Hd as (_ & _ & _ & ?). }
    destruct d; cbn [negb]; rewrite Hadv; run; exists m; (split; [done|]); by exists [].
  - destruct (merges_cons m e out Hm) as (m1 & -> & Hd1 & Hm1). cbn in Hlen. destruct d; cbn [negb].
    + run. cbn [dedup_rows]. rewrite bool_decide_eq_false_2 by done. destruct (is_merge (value e)).
      * exists m1. split; [done|]. exists out. split; [done|]. split; [congruence|]. split; [lia|done].
      * destruct (skip_key_merges fuel m1 out (key e) Hm1) as (m2 & -> & Hd2 & Hm2); [lia|]. run. exists m2. split; [done|].
        exists (drop_key (key e) out). split; [done|]. split; [congruence|]. pose proof (length_drop_key (key e) out).
        split; [lia|apply dedup_rows_drop].
    + exists m1. split; [done|]. exists out. split; [done|]. split; [congruence|]. split; [lia|done].
Qed.

(** Sources that are ready, merged. *)
Lemma merge_opens fuel its ls d : Forall2 (source_ok order rel) its ls → distinct ls → length (concat ls) < fuel →
  ∃ m out, initialize (with_dedup (merge_new_with_order its order) d) = Ok m ∧
    merge_scan fuel d m [] (if d then dedup_rows None out else out) ∧ out ≡ₚ concat ls ∧ StronglySorted (row_le order) out ∧ stable ls out.
Proof.
  intros Hsrc Hdis Hf. destruct (initialize_ok order rel its ls d Hsrc) as (m & pairs & Hinit & Hinv & Hd & Hrows).
  destruct (merge_inv_drains order rel m pairs Hinv) as (out & Hout & Hperm & Hs & Hst).
  exists m, out. split; [done|]. assert (out ≡ₚ concat ls) as Hp by (rewrite Hperm; by apply rows_nonempty).
  split; [|split; [done|]; split; [done|]].
  - exists out. split; [|split; [done|]; split; [by rewrite Hp|done]]. exists pairs. split; [done|]. split; [done|]. intros k s.
    eapply sole_perm; [by rewrite Hrows|]. apply (sole_nonempty (λ l, versions_at k s l)); [done|apply Hdis].
  - intros p Hsole. rewrite Hst.
    + etrans; [apply concat_sole; [by rewrite Hrows|]|]; [by eapply sole_perm; [by rewrite Hrows|]; apply sole_nonempty|].
      apply concat_fmap_nonempty. done.
    + eapply sole_perm; [by rewrite Hrows|]. by apply sole_nonempty.
Qed.
End merge_scan.

(** ** Seeking a merge that is merged *)

Lemma dedup_rows_none s l : Forall (λ e, key e ≠ s) l → dedup_rows (Some s) l = dedup_rows None l.
Proof. destruct 1 as [|e l He _]; [done|]. cbn. by rewrite !bool_decide_eq_false_2 by congruence. Qed.

Lemma dedup_sublist skip l e : e ∈ dedup_rows skip l → e ∈ l.
Proof.
  revert skip. induction l as [|x l IH]; intros skip; [done|]. cbn. case_bool_decide; [intros; right; by eapply IH|].
  intros [->|Hin]%elem_of_cons; [left|right; by eapply IH].
Qed.

Lemma dedup_from_k k skip l : StronglySorted (λ a b, key a ≼ key b) l → (∀ s, skip = Some s → Forall (λ e, s ≼ key e) l) →
  from_k k (dedup_rows skip l) = dedup_rows skip (from_k k l).
Proof.
  intros Hs. revert skip. induction Hs as [|e l Hs IH Hle]; intros skip Hskip; [done|]. destruct (ord_ltb (key e) k) eqn:He.
  - rewrite (filter_cons_False _ e) by congruence. cbn [dedup_rows].
    assert (∀ s, s ≼ key e → dedup_rows (Some s) (from_k k l) = dedup_rows None (from_k k l)) as Hnone.
    { intros s Hse. apply dedup_rows_none, Forall_forall. intros x [Hx _]%list_elem_of_filter <-. revert He Hx Hse. ord. }
    case_bool_decide as Hk.
    + rewrite IH; [done|]. intros s ->. specialize (Hskip s eq_refl). by apply Forall_cons in Hskip as [_ ?].
    + rewrite filter_cons_False by congruence. rewrite IH by (intros s; destruct (is_merge _); [done|]; by intros [= <-]).
      trans (dedup_rows None (from_k k l)).
      * destruct (is_merge _); [done|]. apply Hnone. ord.
      * destruct skip as [s|]; [|done]. symmetry. apply Hnone. specialize (Hskip s eq_refl). by apply Forall_cons in Hskip as [? _].
  - assert (Forall (λ x, ord_ltb (key x) k = false) (e :: l)) as Hall.
    { constructor; [done|]. eapply Forall_impl; [exact Hle|]. cbn. intros x Hx. revert He Hx. ord. }
    rewrite (list_filter_all _ (e :: l)) by done. apply list_filter_all. rewrite Forall_forall in Hall |- *. intros x Hx. apply Hall.
    by eapply dedup_sublist.
Qed.

Lemma sorted_keys_le l : StronglySorted (row_le Ascending) l → StronglySorted (λ a b, key a ≼ key b) l.
Proof. apply StronglySorted_weaken. intros a b. apply (row_le_key Ascending). Qed.

Section merge_scan_seek.
  Context {I H : Type} `{RowEntryIterator I} `{MinHeap (HeapEntry I) H} `{!MinHeapLaws (he_cmp Ascending)}.
  Context (rel : I → list RowEntry → list RowEntry → Prop) `{!Scan rel, !ScanAdvance rel}.
  Implicit Types m : MergeIterator I H.

Lemma versions_from_k k k' s l : versions_at k' s (from_k k l) = if ord_ltb k' k then [] else versions_at k' s l.
Proof.
  induction l as [|e l IH]; [by destruct (ord_ltb k' k)|]. rewrite (filter_cons _ e). destruct (ord_ltb (key e) k) eqn:He; case_decide; try done.
  - rewrite IH. destruct (ord_ltb k' k) eqn:Hk; [done|]. rewrite filter_cons_False; [done|]. unfold same_version. rewrite bool_decide_eq_true.
    intros [<- _]. congruence.
  - rewrite !filter_cons, IH. destruct (ord_ltb k' k) eqn:Hk; [|by case_decide]. case_decide as Hv; [|done].
    unfold same_version in Hv. apply bool_decide_eq_true in Hv as [<- _]. congruence.
Qed.

Lemma merges_seek k m out : merges Ascending rel m out →
  ∃ m', merge_seek k m = Ok m' ∧ dedup m' = dedup m ∧ merges Ascending rel m' (from_k k out).
Proof.
  intros Hm. pose proof (merges_sorted _ _ _ _ Hm) as Hsort. destruct Hm as (pairs & Hinv & Hd & Hdis).
  destruct (merge_seek_ok rel k m pairs Hinv) as (m' & pairs' & Hs & Hinv' & Hdd & Hp). exists m'. split; [done|]. split; [done|].
  exists pairs'. split; [done|].
  assert (∀ k' s, sole ((λ l, versions_at k' s l) <$> ((λ l, from_k k l) <$> pairs.*2))) as Hsole.
  { intros k' s. rewrite <- list_fmap_compose. specialize (Hdis k' s). destruct (ord_ltb k' k) eqn:Hk.
    - assert (compose (λ l, versions_at k' s l) (λ l, from_k k l) <$> pairs.*2 = (λ _, []) <$> pairs.*2) as ->.
      { apply list_fmap_ext. intros _ l _. unfold compose. by rewrite versions_from_k, Hk. }
      clear. unfold sole. induction pairs.*2 as [|l ls IH]; [cbn; lia|]. cbn [fmap list_fmap]. by rewrite filter_cons_False by auto.
    - assert (compose (λ l, versions_at k' s l) (λ l, from_k k l) <$> pairs.*2 = (λ l, versions_at k' s l) <$> pairs.*2) as ->; [|done].
      apply list_fmap_ext. intros _ l _. unfold compose. by rewrite versions_from_k, Hk. }
  assert (distinct pairs'.*2) as Hdis'.
  { intros k' s. eapply sole_perm; [by rewrite Hp|]. apply (sole_nonempty (λ l, versions_at k' s l)); [done|apply Hsole]. }
  split; [|done]. destruct (merge_inv_drains Ascending rel m' pairs' Hinv') as (out' & Hout' & _ & Hsort' & Hst').
  enough (out' = from_k k out) as <- by done.
  eapply (sorted_rows_ext Ascending); [done|eapply StronglySorted_sublist; [apply sublist_filter|done]|]. intros k' s.
  destruct (merge_inv_drains Ascending rel m pairs Hinv) as (out2 & Hout2 & _ & _ & Hst2). rewrite <- (drains_unique _ _ _ _ Hd Hout2) in Hst2.
  rewrite versions_from_k, (Hst' (same_version k' s) (Hdis' k' s)).
  trans (concat ((λ l, versions_at k' s l) <$> ((λ l, from_k k l) <$> pairs.*2))).
  { etrans; [apply concat_sole; [by rewrite Hp|apply Hdis']|]. by apply (concat_fmap_nonempty (λ l, versions_at k' s l)). }
  rewrite (Hst2 (same_version k' s) (Hdis k' s)). clear. induction pairs.*2 as [|l ls IH]; [by destruct (ord_ltb k' k)|].
  cbn [fmap list_fmap concat]. rewrite IH, versions_from_k. by destruct (ord_ltb k' k).
Qed.

Lemma merge_scan_seek fuel d m returned l k : merge_scan Ascending rel fuel d m returned l →
  ∃ m', merge_seek k m = Ok m' ∧ ∀ returned', merge_scan Ascending rel fuel d m' returned' (from_k k l).
Proof.
  intros (out & Hm & Hd & Hlen & ->). destruct (merges_seek k m out Hm) as (m' & Hs & Hd' & Hm'). exists m'. split; [done|].
  intros returned'. exists (from_k k out). split; [done|]. split; [congruence|].
  pose proof (length_filter (λ e, ord_ltb (key e) k = false) out). split; [lia|]. destruct d; [|done].
  apply dedup_from_k; [|done]. by apply sorted_keys_le, (merges_sorted Ascending rel m).
Qed.

Lemma merge_scan_advance fuel d : ScanAdvance (H:=merge_iterator fuel) (merge_scan Ascending rel fuel d).
Proof.
  intros it0 it returned e l k Hrel Hn Hk. pose proof (merge_scan_next Ascending rel fuel d) as Hscan.
  pose proof (scan_next_rel (H:=merge_iterator fuel) _ _ _ _ _ _ Hrel Hn) as Hrel'.
  destruct (merge_scan_seek fuel d it _ l k Hrel') as (m' & Hs & Hm'). exists m', []. split; [done|]. split; [apply Hm'|constructor].
Qed.
End merge_scan_seek.
