(* ===== verification/MergeOperator.v ===== *)
(** * Merge operators ([merge_operator.rs])

    User-supplied merge operators, and the iterator that resolves a run of merge
    operands of one key, in batches, into a single row. *)

From S2P Require Export Iter MergeIter Types.

(** ** The trait

    [MergeOperator] is implemented by the application: a parameter. *)
Class MergeOperator := {
  merge : bytes → option bytes → bytes → outcome MergeOperatorError bytes;
  merge_batch : bytes → option bytes → list bytes → outcome MergeOperatorError bytes;
}.

Fixpoint merge_each (m : bytes → option bytes → bytes → outcome MergeOperatorError bytes)
    (k : bytes) (acc : option bytes) (operands : list bytes) : outcome MergeOperatorError (option bytes) :=
  match operands with
  | [] => mret acc
  | x :: operands => r ← m k acc x; merge_each m k (Some r) operands
  end.

(** The default [MergeOperator::merge_batch]. *)
Definition default_merge_batch (m : bytes → option bytes → bytes → outcome MergeOperatorError bytes)
    (k : bytes) (existing_value : option bytes) (operands : list bytes) : outcome MergeOperatorError bytes :=
  r ← merge_each m k existing_value operands;
  ok_or MergeEmptyBatch r.

(** What the resolution relies on: the operator does not fail, [merge_batch] computes what the
    default does, merging is associative (the documented requirement), and merging onto nothing
    leaves an operand's effect unchanged. *)
Class MergeOperatorLaws `{MergeOperator} (f : bytes → option bytes → bytes → bytes) : Prop := {
  merge_ok k a b : merge k a b = Ok (f k a b);
  merge_batch_ok k a ops : merge_batch k a ops = default_merge_batch merge k a ops;
  merge_assoc k a b c : f k (Some (f k a b)) c = f k a (f k (Some b) c);
  merge_onto_none k a b : f k a (f k None b) = f k a b;
}.

(** [InstrumentedMergeOperator]: counts the operands of every successful batch. *)
Definition instrumented_merge_batch `{MergeOperator} (k : bytes) (existing_value : option bytes)
    (operands : list bytes) (counter : Z) : outcome MergeOperatorError (bytes * Z) :=
  r ← merge_batch k existing_value operands;
  mret (r, wrap 64 (counter + Z.of_nat (length operands))).

(** [utils::merge_options] *)
Definition merge_options {T} (current next : option T) (f : T → T → T) : option T :=
  match current, next with
  | Some a, Some b => Some (f a b)
  | None, n => n
  | c, None => c
  end.

(** ** The iterator that forbids merge operands *)

Section required.
  Context {I : Type} `{RowEntryIterator I}.

(** [MergeOperatorRequiredIterator::next] *)
Definition required_next (it : I) : result (option RowEntry * I) :=
  '(o, it) ← it_next (I:=I) it;
  match o with
  | Some e => if is_merge (value e) then Err MergeOperatorMissing else mret (Some e, it)
  | None => mret (None, it)
  end.
End required.

Record MergeOperatorRequiredIterator (I : Type) := mkRequired { req_delegate : I }.
Arguments mkRequired {I} _.
Arguments req_delegate {I} _.

Global Instance required_iterator {I} `{RowEntryIterator I} :
    RowEntryIterator (MergeOperatorRequiredIterator I) := {
  it_init r := it ← it_init (I:=I) (req_delegate r); mret (mkRequired it);
  it_next r := '(o, it) ← required_next (req_delegate r); mret (o, mkRequired it);
  it_seek k r := it ← it_seek (I:=I) k (req_delegate r); mret (mkRequired it);
}.

(** ** The resolving iterator *)

Definition MERGE_BATCH_SIZE : nat := 100.

Record MergeTracker := mkTracker_ {
  max_create_ts : option Z;
  min_expire_ts : option Z;
  tracker_seq : Z;
}.

(** [MergeTracker::update] *)
Definition tracker_update (t : MergeTracker) (e : RowEntry) : result MergeTracker :=
  let create := merge_options (max_create_ts t) (create_ts e) Z.max in
  let expire := merge_options (min_expire_ts t) (expire_ts e) Z.min in
  if (tracker_seq t <? seq e)%Z then Err (InvalidSequenceOrder (tracker_seq t) (seq e))
  else mret (mkTracker_ create expire (Z.max (tracker_seq t) (seq e))).

Fixpoint update_all (t : MergeTracker) (es : list RowEntry) : result MergeTracker :=
  match es with
  | [] => mret t
  | e :: es => t ← tracker_update t e; update_all t es
  end.

Record MergeOperatorIterator (I : Type) := mkMergeOp {
  delegate : I;
  buffered_entry : option RowEntry;
  merge_different_expire_ts : bool;
  snapshot_barrier_seq : option Z;
}.
Arguments mkMergeOp {I} _ _ _ _.
Arguments delegate {I} _.
Arguments buffered_entry {I} _.
Arguments merge_different_expire_ts {I} _.
Arguments snapshot_barrier_seq {I} _.

Section resolving.
  Context {I : Type} `{RowEntryIterator I} `{MergeOperator}.
  Notation It := (MergeOperatorIterator I).

(** [MergeOperatorIterator::new] *)
Definition merge_op_new (delegate : I) (merge_different_expire_ts : bool) (snapshot_barrier_seq : option Z) : It :=
  mkMergeOp delegate None merge_different_expire_ts snapshot_barrier_seq.

(** [MergeOperatorIterator::is_matching_entry] *)
Definition is_matching_entry (different : bool) (e : RowEntry) (k : bytes) (first_expire_ts : option Z) : bool :=
  bool_decide (key e = k) && (different || bool_decide (first_expire_ts = expire_ts e)).

(** [MergeOperatorIterator::process_batch] *)
Definition process_batch (k : bytes) (batch : list RowEntry) (t : MergeTracker) : result (bytes * MergeTracker) :=
  let batch := reverse batch in
  t ← update_all t batch;
  let operands := omap (λ e, as_bytes (value e)) batch in
  r ← map_err MergeError (merge_batch k None operands);
  mret (r, t).

(** The loop of [merge_with_older_entries]: the base entry, the results, the pending batch. *)
Fixpoint collect_operands (fuel : nat) (k : bytes) (first_expire_ts : option Z) (it : It)
    (next : option RowEntry) (results : list bytes) (batch : list RowEntry) (t : MergeTracker)
    : result (option RowEntry * list bytes * list RowEntry * MergeTracker * It) :=
  match fuel with
  | O => OutOfFuel
  | S fuel =>
      match next with
      | None => mret (None, results, batch, t, it)
      | Some e =>
          if negb (is_matching_entry (merge_different_expire_ts it) e k first_expire_ts)
          then mret (None, results, batch, t,
                 mkMergeOp (delegate it) (Some e) (merge_different_expire_ts it) (snapshot_barrier_seq it))
          else if negb (is_merge (value e)) then mret (Some e, results, batch, t, it)
          else
            let batch := batch ++ [e] in
            '(results, batch, t) ←
              (if decide (MERGE_BATCH_SIZE ≤ length batch) then
                 '(r, t) ← process_batch k batch t; mret (results ++ [r], [], t)
               else mret (results, batch, t));
            '(o, d) ← it_next (I:=I) (delegate it);
            collect_operands fuel k first_expire_ts
              (mkMergeOp d (buffered_entry it) (merge_different_expire_ts it) (snapshot_barrier_seq it))
              o results batch t
      end
  end.

(** [MergeOperatorIterator::merge_with_older_entries] *)
Definition merge_with_older_entries (fuel : nat) (it : It) (first_entry : RowEntry)
    : result (option RowEntry * It) :=
  let k := key first_entry in
  '(base, results, batch, t, it) ←
    collect_operands fuel k (expire_ts first_entry) it (Some first_entry) [] []
      (mkTracker_ None None (seq first_entry));
  '(results, t) ←
    (if decide (batch = []) then mret (results, t)
     else '(r, t) ← process_batch k batch t; mret (results ++ [r], t));
  let base_value := (b ← base; as_bytes (value b)) in
  t ← match base with Some b => tracker_update t b | None => mret t end;
  if decide (results = [] ∧ base_value = None) then mret (None, it)
  else
    final ← map_err MergeError (merge_batch k base_value (reverse results));
    mret (Some (mkRow k (match base with Some _ => Value final | None => Merge final end)
                  (tracker_seq t) (max_create_ts t) (min_expire_ts t)), it).

(** [MergeOperatorIterator::next] *)
Definition merge_op_next (fuel : nat) (it : It) : result (option RowEntry * It) :=
  '(o, it) ←
    match buffered_entry it with
    | Some e => mret (Some e, mkMergeOp (delegate it) None (merge_different_expire_ts it) (snapshot_barrier_seq it))
    | None =>
        '(o, d) ← it_next (I:=I) (delegate it);
        mret (o, mkMergeOp d None (merge_different_expire_ts it) (snapshot_barrier_seq it))
    end;
  match o with
  | None => mret (None, it)
  | Some e =>
      if negb (is_merge (value e)) then mret (Some e, it)
      else if match snapshot_barrier_seq it with Some s => (s <? seq e)%Z | None => false end
      then mret (Some e, it)
      else merge_with_older_entries fuel it e
  end.

(** [MergeOperatorIterator::seek] *)
Definition merge_op_seek (k : bytes) (it : It) : result It :=
  d ← it_seek (I:=I) k (delegate it);
  mret (mkMergeOp d None (merge_different_expire_ts it) (snapshot_barrier_seq it)).

Definition merge_op_iterator (fuel : nat) : RowEntryIterator It := {|
  it_init it := d ← it_init (I:=I) (delegate it);
                mret (mkMergeOp d (buffered_entry it) (merge_different_expire_ts it) (snapshot_barrier_seq it));
  it_next := merge_op_next fuel;
  it_seek := merge_op_seek;
|}.
End resolving.

(** ** What resolution means

    [split_run] cuts the rows behind an operand into the operands that merge with it, the
    base entry that ends the run, and the rest; [resolve] replaces each run by one row. *)

Section resolve.
  Context (f : bytes → option bytes → bytes → bytes).

Fixpoint split_run (different : bool) (k : bytes) (exp : option Z) (l : list RowEntry)
    : list RowEntry * option RowEntry * list RowEntry :=
  match l with
  | [] => ([], None, [])
  | e :: l' =>
      if is_matching_entry different e k exp then
        if is_merge (value e) then
          let '(ops, base, rest) := split_run different k exp l' in (e :: ops, base, rest)
        else ([], Some e, l')
      else ([], None, l)
  end.

(** Apply the operands, oldest first, one at a time. *)
Definition apply_all (k : bytes) (base : option bytes) (operands : list bytes) : option bytes :=
  foldl (λ acc x, Some (f k acc x)) base operands.

Definition operands_of (es : list RowEntry) : list bytes := omap (λ e, as_bytes (value e)) es.

Definition meta {T} (g : RowEntry → option T) (c : T → T → T) (es : list RowEntry) : option T :=
  foldr (λ e acc, merge_options acc (g e) c) None es.

(** The row that stands for the operands [ops] (newest first) on top of [base]. *)
Definition merged_row (first : RowEntry) (ops : list RowEntry) (base : option RowEntry) : RowEntry :=
  let v := default [] (apply_all (key first) (base ≫= λ b, as_bytes (value b)) (operands_of (reverse ops))) in
  let all := ops ++ option_list base in
  mkRow (key first) (match base with Some _ => Value v | None => Merge v end) (seq first)
    (meta create_ts Z.max all) (meta expire_ts Z.min all).

Definition passes (barrier : option Z) (e : RowEntry) : bool :=
  negb (is_merge (value e)) || match barrier with Some s => (s <? seq e)%Z | None => false end.

Fixpoint resolve (n : nat) (different : bool) (barrier : option Z) (l : list RowEntry) : list RowEntry :=
  match n, l with
  | S n, e :: l' =>
      if passes barrier e then e :: resolve n different barrier l'
      else
        let '(ops, base, rest) := split_run different (key e) (expire_ts e) l in
        merged_row e ops base :: resolve n different barrier rest
  | _, _ => []
  end.
End resolve.

(** Rows of one key come newest first. *)
Definition newest_first (l : list RowEntry) : Prop :=
  StronglySorted (λ a b, key a = key b → (seq b ≤ seq a)%Z) l.

(** ** Merging in batches *)

Section batches.
  Context `{MergeOperatorLaws f}.

Lemma merge_each_apply k acc ops : merge_each merge k acc ops = Ok (apply_all f k acc ops).
Proof.
  revert acc. induction ops as [|x ops IH]; intros acc; cbn [merge_each]; [done|].
  rewrite (merge_ok (f:=f)). run. apply IH.
Qed.

Lemma merge_batch_apply k acc ops r : apply_all f k acc ops = Some r → merge_batch k acc ops = Ok r.
Proof.
  intros Ha. rewrite (merge_batch_ok (f:=f)). unfold default_merge_batch. rewrite merge_each_apply. run.
  by rewrite Ha.
Qed.

Lemma apply_all_app k acc a b : apply_all f k acc (a ++ b) = apply_all f k (apply_all f k acc a) b.
Proof. apply foldl_app. Qed.

Lemma apply_all_some k acc ops : ops ≠ [] → ∃ r, apply_all f k acc ops = Some r.
Proof.
  induction ops as [|x ops _] using rev_ind; [done|]. intros _. rewrite apply_all_app. by eexists.
Qed.

(** An intermediate result has the effect of the operands it was computed from. *)
Lemma apply_all_batch k acc ops r :
  apply_all f k None ops = Some r → apply_all f k acc ops = Some (f k acc r).
Proof.
  revert r. induction ops as [|x ops IH] using rev_ind; intros r Hr; [done|].
  rewrite apply_all_app in Hr |- *. cbn in Hr |- *. simplify_eq. f_equal.
  destruct ops as [|y ops'] eqn:Ho.
  - cbn. by rewrite (merge_onto_none (f:=f)).
  - destruct (apply_all_some k None (y :: ops') ltac:(done)) as [r' Hr'].
    rewrite (IH r' Hr'), Hr'. by rewrite (merge_assoc (f:=f)).
Qed.

Lemma apply_all_batches k acc batches results :
  Forall2 (λ ops r, apply_all f k None ops = Some r) batches results →
  apply_all f k acc results = apply_all f k acc (concat batches).
Proof.
  intros HF. revert acc. induction HF as [|ops r bs rs Hr HF IH]; intros acc; [done|].
  cbn [concat]. rewrite apply_all_app, (apply_all_batch k acc ops r Hr). cbn. apply IH.
Qed.
End batches.

(** ** Metadata *)

Section meta.
  Context {T : Type} (g : RowEntry → option T) (c : T → T → T).
  Hypothesis c_comm : ∀ a b, c a b = c b a.
  Hypothesis c_assoc : ∀ a b d, c a (c b d) = c (c a b) d.

Lemma merge_options_comm a b : merge_options a b c = merge_options b a c.
Proof using c_comm. destruct a, b; cbn; try done. by rewrite c_comm. Qed.

Lemma merge_options_assoc a b d :
  merge_options a (merge_options b d c) c = merge_options (merge_options a b c) d c.
Proof using c_assoc. destruct a, b, d; cbn; try done. by rewrite c_assoc. Qed.

Lemma meta_cons e a : meta g c (e :: a) = merge_options (meta g c a) (g e) c.
Proof using Type. done. Qed.

Lemma meta_app a b : meta g c (a ++ b) = merge_options (meta g c a) (meta g c b) c.
Proof using c_comm c_assoc.
  induction a as [|e a IH]; [done|]. rewrite <-app_comm_cons, !meta_cons.
  rewrite IH, <-!merge_options_assoc. f_equal. apply merge_options_comm.
Qed.

Lemma meta_reverse a : meta g c (reverse a) = meta g c a.
Proof using c_comm c_assoc.
  induction a as [|e a IH]; [done|]. rewrite reverse_cons, meta_app, IH. by rewrite !meta_cons.
Qed.
End meta.

(** The tracker after the entries [es], in any order. *)
Definition tracker_of (s : Z) (es : list RowEntry) : MergeTracker :=
  mkTracker_ (meta create_ts Z.max es) (meta expire_ts Z.min es) s.

Lemma tracker_update_of s es e :
  (seq e ≤ s)%Z → tracker_update (tracker_of s es) e = Ok (tracker_of s (es ++ [e])).
Proof.
  intros Hs. unfold tracker_update. cbn [tracker_seq max_create_ts min_expire_ts tracker_of].
  rewrite (proj2 (Z.ltb_ge _ _)) by lia. run. rewrite Z.max_l by lia.
  unfold tracker_of. rewrite !meta_app by lia. by rewrite !meta_cons.
Qed.

Lemma update_all_of s es es' :
  Forall (λ e, seq e ≤ s)%Z es' → update_all (tracker_of s es) es' = Ok (tracker_of s (es ++ es')).
Proof.
  revert es. induction es' as [|e es' IH]; intros es Hs; cbn [update_all]; [by rewrite app_nil_r|].
  apply Forall_cons in Hs as [Hse Hs].
  rewrite tracker_update_of by done. run. rewrite IH by done. by rewrite <-app_assoc.
Qed.

Lemma tracker_of_perm s es es' es'' :
  tracker_of s (es ++ reverse es' ++ es'') = tracker_of s (es ++ es' ++ es'').
Proof. unfold tracker_of. by rewrite !meta_app, !meta_reverse by lia. Qed.

(** ** The iterator resolves its rows *)

Section collecting.
  Context {I : Type} `{RowEntryIterator I} (rel : I → list RowEntry → list RowEntry → Prop) `{!Scan rel}.
  Context `{MergeOperatorLaws f}.

(** The state of the collecting loop: [processed] batches (newest first) have been merged into
    [results], [batch] is pending. *)
Record loop_inv (k : bytes) (s : Z) (processed : list (list RowEntry)) (results : list bytes)
    (batch : list RowEntry) (t : MergeTracker) : Prop := {
  inv_results : Forall2 (λ b r, apply_all f k None (operands_of (reverse b)) = Some r) processed results;
  inv_tracker : t = tracker_of s (concat processed);
  inv_batch : Forall (λ e, is_merge (value e) = true ∧ (seq e ≤ s)%Z) batch;
}.

Lemma operands_of_merges es :
  Forall (λ e, is_merge (value e) = true) es → length (operands_of es) = length es.
Proof.
  induction 1 as [|e es Hm HF IH]; [done|]. unfold operands_of in *. cbn.
  destruct (value e); cbn in *; (discriminate || congruence).
Qed.

Lemma process_batch_inv k s processed results batch t :
  loop_inv k s processed results batch t → batch ≠ [] →
  ∃ r t', process_batch k batch t = Ok (r, t') ∧ loop_inv k s (processed ++ [batch]) (results ++ [r]) [] t'.
Proof.
  intros [Hr -> Hb] Hne.
  assert (Forall (λ e, is_merge (value e) = true) (reverse batch)) as Hm.
  { apply Forall_reverse. eapply Forall_impl; [exact Hb|]. by intros ? []. }
  destruct (apply_all_some (f:=f) k None (operands_of (reverse batch))) as [r Hrr].
  { intros E. apply operands_of_merges in Hm. rewrite E, length_reverse in Hm. by destruct batch. }
  exists r, (tracker_of s (concat (processed ++ [batch]))). split; [|split].
  - unfold process_batch. rewrite update_all_of.
    2:{ apply Forall_reverse. eapply Forall_impl; [exact Hb|]. by intros ? []. }
    run. fold (operands_of (reverse batch)). rewrite (merge_batch_apply k None _ r Hrr). cbn [map_err]. run.
    rewrite concat_app. cbn [concat].
    pose proof (tracker_of_perm s (concat processed) batch []) as Hp.
    rewrite app_nil_r in Hp. by rewrite Hp.
  - apply Forall2_app; [done|]. by constructor.
  - done.
  - done.
Qed.

Lemma collect_operands_ok fuel k exp it next results batch t ret l s processed ops base rest :
  rel (delegate it) ret l → buffered_entry it = None → (next = None → l = []) →
  Forall (λ e, key e = k → seq e ≤ s)%Z (option_list next ++ l) →
  loop_inv k s processed results batch t → length (option_list next ++ l) < fuel →
  split_run (merge_different_expire_ts it) k exp (option_list next ++ l) = (ops, base, rest) →
  ∃ processed' results' batch' t' it' ret' l',
    collect_operands fuel k exp it next results batch t = Ok (base, results', batch', t', it') ∧
    loop_inv k s processed' results' batch' t' ∧
    concat processed' ++ batch' = concat processed ++ batch ++ ops ∧
    rel (delegate it') ret' l' ∧ option_list (buffered_entry it') ++ l' = rest ∧
    merge_different_expire_ts it' = merge_different_expire_ts it ∧
    snapshot_barrier_seq it' = snapshot_barrier_seq it.
Proof.
  revert it next results batch t ret l processed ops base rest.
  induction fuel as [|fuel IH];
    intros it next results batch t ret l processed ops base rest Hrel Hbuf Hnone Hseq Hinv Hfuel Hrun; [lia|].
  cbn [collect_operands]. destruct next as [e|].
  2:{ rewrite (Hnone eq_refl) in *. cbn in Hrun. simplify_eq.
      exists processed, results, batch, t, it, ret, []. rewrite Hbuf, app_nil_r. run. eauto 10. }
  change (option_list (Some e) ++ l) with (e :: l) in *. cbn [split_run] in Hrun.
  destruct (is_matching_entry (merge_different_expire_ts it) e k exp) eqn:Hmatch; cbn [negb].
  2:{ simplify_eq. run. eexists processed, results, batch, t, _, ret, l.
      split; [done|]. rewrite app_nil_r. eauto 10. }
  destruct (is_merge (value e)) eqn:Hm; cbn [negb].
  2:{ simplify_eq. run. exists processed, results, batch, t, it, ret, rest. rewrite Hbuf, app_nil_r. eauto 10. }
  destruct (split_run _ k exp l) as [[ops' base'] rest'] eqn:Hrun'. simplify_eq.
  apply Forall_cons in Hseq as [Hse Hseq].
  assert (key e = k) as Hk.
  { unfold is_matching_entry in Hmatch. apply andb_true_iff in Hmatch as [Hmatch _].
    by apply bool_decide_eq_true in Hmatch. }
  assert (loop_inv k s processed results (batch ++ [e]) t) as Hinv1.
  { destruct Hinv as [? ? Hb]. split; [done..|]. apply Forall_app; split; [done|]. constructor; eauto. }
  assert (∃ processed' results' batch' t',
    (if decide (MERGE_BATCH_SIZE ≤ length (batch ++ [e])) then
       '(r, t) ← process_batch k (batch ++ [e]) t; mret (results ++ [r], [], t)
     else mret (results, batch ++ [e], t)) = Ok (results', batch', t') ∧
    loop_inv k s processed' results' batch' t' ∧
    concat processed' ++ batch' = concat processed ++ batch ++ [e]) as (pr & rs & ba & t' & Hstep & Hinv2 & Hcat).
  { destruct (decide _) as [Hfull|].
    - destruct (process_batch_inv _ _ _ _ _ _ Hinv1) as (r & t' & Hp & Hi); [by destruct batch|].
      exists (processed ++ [batch ++ [e]]), (results ++ [r]), [], t'. rewrite Hp. run. repeat split_and!; try done.
      rewrite concat_app. cbn [concat]. by rewrite !app_nil_r.
    - exists processed, results, (batch ++ [e]), t. by run. }
  rewrite Hstep. run.
  pose proof (scan_next _ _ _ Hrel) as Hn.
  assert (∃ o d ret' l', it_next (I:=I) (delegate it) = Ok (o, d) ∧ rel d ret' l' ∧
    option_list o ++ l' = l ∧ (o = None → l' = []))
    as (o & d & ret' & l' & Hnx & Hrel' & Hl & Ho).
  { destruct l as [|e' l'].
    - destruct Hn as (d & Hn & Hr). exists None, d, ret, []. by cbn in *.
    - destruct Hn as (d & Hn & Hr). exists (Some e'), d, (ret ++ [e']), l'. by cbn in *. }
  rewrite Hnx. run.
  edestruct (IH (mkMergeOp d (buffered_entry it) (merge_different_expire_ts it) (snapshot_barrier_seq it))
    o rs ba t' ret' l' pr ops' base rest)
    as (pr' & rs' & ba' & t'' & it' & ret'' & l'' & Hc & Hi & Hcat' & Hrest); try done.
  { by rewrite Hl. }
  { rewrite Hl. cbn in Hfuel. lia. }
  { cbn. by rewrite Hl. }
  exists pr', rs', ba', t'', it', ret'', l''. rewrite Hc. repeat split_and!; try apply Hrest; try done.
  rewrite Hcat', app_assoc, Hcat, <-!app_assoc. done.
Qed.

Lemma operands_of_batches (bs : list (list RowEntry)) :
  concat (reverse ((λ b, operands_of (reverse b)) <$> bs)) = operands_of (reverse (concat bs)).
Proof.
  unfold operands_of. induction bs as [|b bs IH]; [done|].
  rewrite fmap_cons, reverse_cons, concat_app, IH. cbn [concat].
  by rewrite app_nil_r, reverse_app, omap_app.
Qed.

Lemma results_apply k s processed results batch t acc :
  loop_inv k s processed results batch t →
  apply_all f k acc (reverse results) = apply_all f k acc (operands_of (reverse (concat processed))).
Proof.
  intros [Hr _ _]. rewrite <-operands_of_batches. apply apply_all_batches.
  apply Forall2_reverse, Forall2_fmap_l. done.
Qed.

Lemma split_run_spec d k exp l ops base rest :
  split_run d k exp l = (ops, base, rest) →
  l = ops ++ option_list base ++ rest ∧
  Forall (λ e, key e = k ∧ is_merge (value e) = true) ops ∧
  (∀ b, base = Some b → key b = k ∧ is_merge (value b) = false).
Proof.
  revert ops base rest. induction l as [|e l IH]; intros ops base rest; cbn [split_run].
  { intros [= <- <- <-]. by repeat split. }
  destruct (is_matching_entry d e k exp) eqn:Hm; [|by intros [= <- <- <-]; repeat split].
  unfold is_matching_entry in Hm. apply andb_true_iff in Hm as [Hk%bool_decide_eq_true _].
  destruct (is_merge (value e)) eqn:He.
  - destruct (split_run d k exp l) as [[ops' base'] rest'] eqn:Hr. intros [= <- <- <-].
    destruct (IH _ _ _ eq_refl) as (-> & Ho & Hb). repeat split; eauto; by apply Hb.
  - intros [= <- <- <-]. repeat split; naive_solver.
Qed.

Lemma split_run_head d e l ops base rest :
  is_merge (value e) = true → split_run d (key e) (expire_ts e) (e :: l) = (ops, base, rest) →
  ∃ ops', ops = e :: ops' ∧ length rest ≤ length l.
Proof.
  intros He Hr. pose proof (split_run_spec _ _ _ _ _ _ _ Hr) as (Hl & _ & _). cbn in Hr.
  unfold is_matching_entry in Hr at 1. rewrite !bool_decide_eq_true_2, orb_true_r, He in Hr by done. cbn in Hr.
  destruct (split_run d (key e) (expire_ts e) l) as [[ops' base'] rest'] eqn:Hr'. simplify_eq.
  exists ops'. split; [done|]. cbn in Hl. simplify_eq. rewrite !length_app. lia.
Qed.

Lemma flush_batch k s processed results batch t :
  loop_inv k s processed results batch t →
  ∃ processed' results' t',
    (if decide (batch = []) then Ok (results, t)
     else '(r, t) ← process_batch k batch t; mret (results ++ [r], t)) = Ok (results', t') ∧
    loop_inv k s processed' results' [] t' ∧ concat processed' = concat processed ++ batch.
Proof.
  intros Hinv. destruct (decide (batch = [])) as [->|Hne].
  - exists processed, results, t. by rewrite app_nil_r.
  - destruct (process_batch_inv _ _ _ _ _ _ Hinv Hne) as (r & t' & Hp & Hi).
    exists (processed ++ [batch]), (results ++ [r]), t'. rewrite Hp. run. repeat split_and!; try done.
    rewrite concat_app. cbn [concat]. by rewrite app_nil_r.
Qed.

Lemma merge_with_older_ok fuel it e ret l ops base rest :
  rel (delegate it) ret l → buffered_entry it = None → is_merge (value e) = true →
  Forall (λ e', key e' = key e → seq e' ≤ seq e)%Z l → length (e :: l) < fuel →
  split_run (merge_different_expire_ts it) (key e) (expire_ts e) (e :: l) = (ops, base, rest) →
  ∃ it' ret' l',
    merge_with_older_entries fuel it e = Ok (Some (merged_row f e ops base), it') ∧
    rel (delegate it') ret' l' ∧ option_list (buffered_entry it') ++ l' = rest ∧
    merge_different_expire_ts it' = merge_different_expire_ts it ∧
    snapshot_barrier_seq it' = snapshot_barrier_seq it.
Proof.
  intros Hrel Hbuf He Hseq Hfuel Hrun.
  destruct (collect_operands_ok fuel (key e) (expire_ts e) it (Some e) [] [] (tracker_of (seq e) [])
    ret l (seq e) [] ops base rest)
    as (pr & rs & ba & t & it' & ret' & l' & Hc & Hinv & Hcat & Hrel' & Hrest & Hd & Hs); try done.
  { constructor; [|done]. cbn. lia. }
  cbn [concat app] in Hcat.
  destruct (flush_batch _ _ _ _ _ _ Hinv) as (pr' & rs' & t' & Hfl & Hinv' & Hcat'). rewrite Hcat in Hcat'.
  destruct (split_run_head _ _ _ _ _ _ He Hrun) as (ops' & Hops & _).
  destruct (split_run_spec _ _ _ _ _ _ _ Hrun) as (Hl & Hm & Hb).
  assert (operands_of (reverse ops) ≠ []) as Hne.
  { intros E. assert (length (operands_of (reverse ops)) = length (reverse ops)) as El.
    { apply operands_of_merges, Forall_reverse. eapply Forall_impl; [exact Hm|]. by intros ? []. }
    by rewrite E, length_reverse, Hops in El. }
  set (bv := base ≫= λ b, as_bytes (value b)).
  destruct (apply_all_some (f:=f) (key e) bv _ Hne) as [v Hv].
  assert (match base with Some b => tracker_update t' b | None => Ok t' end
          = Ok (tracker_of (seq e) (ops ++ option_list base))) as Ht.
  { rewrite (inv_tracker _ _ _ _ _ _ Hinv'), Hcat'. destruct base as [b|]; [|by rewrite app_nil_r].
    apply tracker_update_of. rewrite Forall_forall in Hseq.
    destruct (Hb b eq_refl) as [Hkb _]. apply Hseq; [|done].
    rewrite Hops in Hl. cbn in Hl. simplify_eq. set_solver. }
  exists it', ret', l'. split; [|done].
  unfold merge_with_older_entries. change (mkTracker_ None None (seq e)) with (tracker_of (seq e) []).
  rewrite Hc. run.
  rewrite Hfl. run. rewrite Ht. run. fold bv.
  rewrite decide_False.
  2:{ intros [-> _]. pose proof (inv_results _ _ _ _ _ _ Hinv') as HF. apply Forall2_nil_inv_r in HF.
      subst pr'. cbn in Hcat'. by rewrite <-Hcat' in Hops. }
  rewrite (merge_batch_apply (key e) bv (reverse rs') v)
    by (rewrite (results_apply _ _ _ _ _ _ bv Hinv'), Hcat'; exact Hv).
  cbn [map_err]. run. unfold merged_row. fold bv. rewrite Hv. by destruct base.
Qed.
End collecting.

Section resolving_iterator.
  Context {I : Type} `{RowEntryIterator I} (rel : I → list RowEntry → list RowEntry → Prop) `{!Scan rel}.
  Context `{MergeOperatorLaws f}.

(** The rows still to be resolved: the buffered one and those of the delegate. *)
Definition unresolved (it : MergeOperatorIterator I) (l : list RowEntry) : Prop :=
  ∃ ret l', rel (delegate it) ret l' ∧ l = option_list (buffered_entry it) ++ l'.

Lemma newest_first_head e l :
  newest_first (e :: l) → Forall (λ e', key e' = key e → seq e' ≤ seq e)%Z l.
Proof.
  intros Hs. apply StronglySorted_inv in Hs as [_ HF]. eapply Forall_impl; [exact HF|]. eauto.
Qed.

Lemma newest_first_suffix a l : newest_first (a ++ l) → newest_first l.
Proof. induction a as [|e a IH]; [done|]. cbn. intros Hs. apply StronglySorted_inv in Hs as [Hs _]. auto. Qed.

(** Fetching the next unresolved row. *)
Lemma merge_op_fetch it l :
  unresolved it l →
  ∃ it' l', buffered_entry it' = None ∧ unresolved it' l' ∧
    merge_different_expire_ts it' = merge_different_expire_ts it ∧
    snapshot_barrier_seq it' = snapshot_barrier_seq it ∧
    match buffered_entry it with
    | Some e => mret (Some e, mkMergeOp (delegate it) None (merge_different_expire_ts it) (snapshot_barrier_seq it))
    | None =>
        '(o, d) ← it_next (I:=I) (delegate it);
        mret (o, mkMergeOp d None (merge_different_expire_ts it) (snapshot_barrier_seq it))
    end = Ok (head l, it') ∧ l' = tail l.
Proof.
  intros (ret & l' & Hrel & ->). destruct (buffered_entry it) as [e|].
  - eexists (mkMergeOp _ None _ _), l'. repeat split; [by exists ret, l'|done..].
  - pose proof (scan_next _ _ _ Hrel) as Hn. destruct l' as [|e l']; destruct Hn as (d & Hn & Hrel'); rewrite Hn; run.
    + eexists (mkMergeOp _ None _ _), []. repeat split; [|done..]. by exists ret, [].
    + eexists (mkMergeOp _ None _ _), l'. repeat split; [|done..]. by exists (ret ++ [e]), l'.
Qed.

Lemma merge_op_yields fuel n it l :
  unresolved it l → newest_first l → length l ≤ n → length l < fuel →
  yields (H:=merge_op_iterator fuel) it
    (resolve f n (merge_different_expire_ts it) (snapshot_barrier_seq it) l).
Proof.
  revert it l. induction n as [|n IH]; intros it l Hu Hnf Hn Hfuel;
    destruct (merge_op_fetch it l Hu) as (it1 & l1 & Hb1 & Hu1 & Hd1 & Hs1 & Hfetch & ->).
  { destruct l; [|cbn in Hn; lia]. exists it1. unfold it_next; cbn [merge_op_iterator].
    unfold merge_op_next. rewrite Hfetch. by run. }
  destruct l as [|e l].
  { exists it1. unfold it_next; cbn [merge_op_iterator]. unfold merge_op_next. rewrite Hfetch. by run. }
  cbn [tail head] in *. cbn [length] in Hn, Hfuel.
  assert (merge_op_next fuel it =
    if passes (snapshot_barrier_seq it) e then Ok (Some e, it1) else merge_with_older_entries fuel it1 e) as Hnext.
  { unfold merge_op_next, passes. rewrite Hfetch. run. rewrite Hs1. by destruct (is_merge _), (match _ with Some _ => _ | None => _ end). }
  cbn [resolve]. destruct (passes (snapshot_barrier_seq it) e) eqn:Hp.
  - exists it1. split; [exact Hnext|]. rewrite <-Hd1, <-Hs1. apply IH; try done; [|lia..].
    by apply (newest_first_suffix [e]).
  - destruct (split_run _ (key e) (expire_ts e) (e :: l)) as [[ops base] rest] eqn:Hrun.
    destruct Hu1 as (ret1 & l1 & Hrel1 & Hl1). rewrite Hb1 in Hl1. cbn in Hl1. subst l1.
    unfold passes in Hp. apply orb_false_iff in Hp as [He%negb_false_iff _].
    destruct (merge_with_older_ok rel fuel it1 e ret1 l ops base rest)
      as (it2 & ret2 & l2 & Hm & Hrel2 & Hrest & Hd2 & Hs2); try done.
    { by apply newest_first_head. }
    { by rewrite Hd1. }
    exists it2. split; [by rewrite <-Hm|]. rewrite <-Hd1, <-Hs1, <-Hd2, <-Hs2.
    destruct (split_run_head _ _ _ _ _ _ He Hrun) as (ops' & _ & Hlen).
    destruct (split_run_spec _ _ _ _ _ _ _ Hrun) as (Hl & _ & _).
    apply IH; [by exists ret2, l2| |lia..].
    apply (newest_first_suffix (ops ++ option_list base)). by rewrite <-app_assoc, <-Hl.
Qed.

(** C20: Resolution of merge operands. Over a delegate that returns rows newest first per key, a new
    [MergeOperatorIterator] yields the delegate's rows with every run of matching operands replaced
    by one row: the run's operands applied oldest first to the base value although the code merges
    them in batches of [MERGE_BATCH_SIZE], a [Value] when a base was found and a [Merge] otherwise,
    with the newest sequence number, the latest creation time and the earliest expiry; operands
    above the snapshot barrier pass through unmerged, and no row is lost or invented. *)
Theorem merge_operator_resolves it l different barrier fuel :
  rel it [] l → newest_first l → length l < fuel →
  yields (H:=merge_op_iterator fuel) (merge_op_new it different barrier)
    (resolve f (length l) different barrier l).
Proof.
  intros Hrel Hnf Hf. apply (merge_op_yields fuel (length l) (merge_op_new it different barrier)); try done.
  by exists [], l.
Qed.

(** Seeking a [MergeOperatorIterator]. With a delegate that seeks forward exactly, the iterator
    continues with the resolution of the delegate's rows at or above the key; the row it had read
    ahead is not among them, whatever its key. *)
Theorem merge_op_seek_resolves `{!ScanSeek rel} it ret l k fuel :
  rel (delegate it) ret l → newest_first l → length l < fuel → Forall (λ e, key e ≺ k) ret →
  ∃ it', merge_op_seek k it = Ok it' ∧
    let l' := filter (λ e, ord_ltb (key e) k = false) l in
    yields (H:=merge_op_iterator fuel) it'
      (resolve f (length l') (merge_different_expire_ts it) (snapshot_barrier_seq it) l').
Proof.
  intros Hrel Hnf Hf Hret. destruct (scan_seek it.(delegate) ret l k Hrel Hret) as (d & ret' & Hsk & Hrel' & _).
  eexists (mkMergeOp d None _ _). split; [unfold merge_op_seek; rewrite Hsk; by run|]. cbv zeta.
  assert (length (filter (λ e, ord_ltb (key e) k = false) l) ≤ length l) as Hlen by apply length_filter.
  refine (merge_op_yields fuel _ (mkMergeOp d None _ _) _ _ _ _ _); [by eexists ret', _| |done|lia].
  eapply StronglySorted_sublist; [|exact Hnf]. apply sublist_filter.
Qed.
End resolving_iterator.

(** ** Resolution preserves reads *)

Section reads.
  Context (f : bytes → option bytes → bytes → bytes).

(** What a reader of key [k] sees in its versions, newest first. *)
Fixpoint read_value (k : bytes) (vs : list RowEntry) : option bytes :=
  match vs with
  | [] => None
  | e :: vs =>
      match value e with
      | Value v => Some v
      | Tombstone => None
      | Merge m => Some (f k (read_value k vs) m)
      end
  end.

Lemma read_value_operands k ops vs :
  Forall (λ e, is_merge (value e) = true) ops →
  read_value k (ops ++ vs) = apply_all f k (read_value k vs) (operands_of (reverse ops)).
Proof.
  induction 1 as [|e ops He Hops IH]; [done|].
  rewrite reverse_cons. unfold operands_of. rewrite omap_app, apply_all_app. fold (operands_of (reverse ops)).
  rewrite <-IH. cbn. by destruct (value e).
Qed.

Lemma read_value_base k b vs :
  is_merge (value b) = false → read_value k (b :: vs) = as_bytes (value b).
Proof. cbn. by destruct (value b). Qed.
End reads.

Lemma versions_of_all k es : Forall (λ e, key e = k) es → versions_of k es = es.
Proof. apply list_filter_all. Qed.

Lemma versions_of_none k es : Forall (λ e, key e ≠ k) es → versions_of k es = [].
Proof. apply list_filter_none. Qed.

Section reads_preserved.
  Context `{MergeOperatorLaws f}.

Lemma read_merged_row e ops base vs :
  ops ≠ [] → Forall (λ e', is_merge (value e') = true) ops →
  (∀ b, base = Some b → is_merge (value b) = false) →
  read_value f (key e) (merged_row f e ops base :: vs) =
  read_value f (key e) (ops ++ option_list base ++ vs).
Proof.
  intros Hne Hops Hb. rewrite read_value_operands by done.
  assert (operands_of (reverse ops) ≠ []) as Hne'.
  { intros E. assert (length (operands_of (reverse ops)) = length (reverse ops)) as El
      by (apply operands_of_merges, Forall_reverse; done).
    rewrite E, length_reverse in El. by destruct ops. }
  destruct base as [b|].
  - change (option_list (Some b) ++ vs) with (b :: vs). rewrite (read_value_base f _ b) by auto.
    destruct (apply_all_some (f:=f) (key e) (as_bytes (value b)) _ Hne') as [v Hv]. unfold merged_row.
    change (Some b ≫= (λ b, as_bytes (value b))) with (as_bytes (value b)). by rewrite Hv.
  - change (option_list None ++ vs) with vs.
    destruct (apply_all_some (f:=f) (key e) None _ Hne') as [v Hv].
    rewrite (apply_all_batch (f:=f) _ _ _ _ Hv). unfold merged_row.
    change (None ≫= (λ b, as_bytes (value b))) with (@None bytes). by rewrite Hv.
Qed.

Lemma resolve_reads n d barrier k l vs :
  length l ≤ n →
  read_value f k (versions_of k (resolve f n d barrier l) ++ vs) = read_value f k (versions_of k l ++ vs).
Proof.
  revert l. induction n as [|n IH]; intros [|e l] Hn; cbn in Hn; try lia; try done.
  cbn [resolve]. destruct (passes barrier e) eqn:Hp.
  { rewrite !filter_cons. destruct (decide (key e = k)); [|apply IH; lia].
    cbn. rewrite IH by lia. done. }
  destruct (split_run d (key e) (expire_ts e) (e :: l)) as [[ops base] rest] eqn:Hrun.
  unfold passes in Hp. apply orb_false_iff in Hp as [He%negb_false_iff _].
  destruct (split_run_head _ _ _ _ _ _ He Hrun) as (ops' & Hops & Hlen).
  destruct (split_run_spec _ _ _ _ _ _ _ Hrun) as (Hl & Hm & Hb). rewrite Hl.
  assert (Forall (λ e', key e' = key e) (ops ++ option_list base)) as Hkeys.
  { apply Forall_app; split; [eapply Forall_impl; [exact Hm|]; by intros ? []|].
    destruct base; [|done]. constructor; [|done]. by apply Hb. }
  rewrite (app_assoc ops). rewrite filter_app, filter_cons.
  change (key (merged_row f e ops base)) with (key e).
  destruct (decide (key e = k)) as [<-|Hne].
  - rewrite (versions_of_all _ (ops ++ option_list base)), <-!app_assoc by done. cbn [app].
    rewrite read_merged_row; [|by rewrite Hops| |naive_solver].
    2:{ eapply Forall_impl; [exact Hm|]. by intros ? []. }
    rewrite !(read_value_operands f _ ops) by (eapply Forall_impl; [exact Hm|]; by intros ? []). f_equal.
    destruct base as [b|]; [|by apply (IH rest); lia].
    change (option_list (Some b)) with [b]. cbn [app]. rewrite !read_value_base by (by apply Hb). done.
  - rewrite (versions_of_none _ (ops ++ option_list base)); [apply IH; lia|].
    eapply Forall_impl; [exact Hkeys|]. cbn. congruence.
Qed.
End reads_preserved.


(** ** A concrete operator: byte-string append *)

Definition append_f (k : bytes) (existing : option bytes) (operand : bytes) : bytes :=
  default [] existing ++ operand.

Definition append_operator : MergeOperator := {|
  merge k a b := mret (append_f k a b);
  merge_batch := default_merge_batch (λ k a b, mret (append_f k a b));
|}.

Global Instance append_laws : MergeOperatorLaws (H:=append_operator) append_f.
Proof. split; intros; unfold append_f; cbn; try done. destruct a; cbn; by rewrite ?app_assoc. Qed.

Definition demo_rows : list RowEntry :=
  [mkRow [97] (Merge [3]) 3 (Some 30) (Some 90); mkRow [97] (Merge [2]) 2 (Some 20) (Some 80);
   mkRow [97] (Value [1]) 1 (Some 10) None; mkRow [98] (Value [7]) 4 None None]%Z.

Lemma demo_newest_first : newest_first demo_rows.
Proof.
  repeat first [apply SSorted_nil | apply SSorted_cons]; repeat constructor; cbn; intros; try lia; discriminate.
Qed.

Lemma merge_operator_resolves_witness :
  yields (H:=merge_op_iterator (H0:=append_operator) 5)
    (merge_op_new (mkListIter demo_rows) true None)
    [mkRow [97] (Value [1; 2; 3]) 3 (Some 30) (Some 80); mkRow [98] (Value [7]) 4 None None]%Z.
Proof.
  apply (merge_operator_resolves (H0:=append_operator) (f:=append_f) list_scan (mkListIter demo_rows) demo_rows true None 5);
    [done|exact demo_newest_first|cbn; lia].
Defined.

Lemma merge_op_seek_resolves_witness :
  ∃ it', merge_op_seek [98%Z] (merge_op_new (mkListIter demo_rows) true None) = Ok it' ∧
    yields (H:=merge_op_iterator (H0:=append_operator) 5) it' [mkRow [98] (Value [7]) 4 None None]%Z.
Proof.
  apply (merge_op_seek_resolves (H0:=append_operator) (f:=append_f) list_scan
    (merge_op_new (mkListIter demo_rows) true None) [] demo_rows [98%Z] 5);
    [done|exact demo_newest_first|cbn; lia|constructor].
Defined.



(** An operator that starts a list with a header: associative in the documented sense. *)
Definition header_f (k : bytes) (existing : option bytes) (operand : bytes) : bytes :=
  default [33%Z] existing ++ operand.

Definition header_operator : MergeOperator := {|
  merge k a b := mret (header_f k a b);
  merge_batch := default_merge_batch (λ k a b, mret (header_f k a b));
|}.

(** Associativity, the trait's documented requirement, is not enough. [header_operator] is
    associative with or without an existing value, yet reading a key with a single operand applies
    the operator to "no existing value" twice and returns a value that merging the operand does not. *)
Theorem associativity_not_enough :
  (∀ k a b c, header_f k (Some (header_f k a b)) c = header_f k a (header_f k (Some b) c)) ∧
  let e := mkRow [97%Z] (Merge [1%Z]) 1 None None in
  (r ← merge_op_next (H0:=header_operator) 2 (merge_op_new (mkListIter [e]) true None); mret r.1)
    = Ok (Some (mkRow [97%Z] (Merge [33; 33; 1]%Z) 1 None None)) ∧
  header_f [97%Z] None [1%Z] = [33; 1]%Z.
Proof. split; [|by vm_compute]. intros k a b c. unfold header_f. cbn. by rewrite app_assoc. Qed.

(** The tracker's sequence check. [MergeTracker::update] rejects an entry exactly when its
    sequence number exceeds the first entry's, keeping the metadata untouched; it accepts older
    entries in any order, ascending included. *)
Theorem tracker_update_exact t e :
  (tracker_update t e = Err (InvalidSequenceOrder (tracker_seq t) (seq e)) ↔ (tracker_seq t < seq e)%Z) ∧
  ((seq e ≤ tracker_seq t)%Z → ∃ t', tracker_update t e = Ok t' ∧ tracker_seq t' = tracker_seq t).
Proof.
  unfold tracker_update. destruct (Z.ltb_spec (tracker_seq t) (seq e)) as [Hlt|Hge]; split.
  - done.
  - lia.
  - split; [done|lia].
  - intros _. eexists. split; [done|]. cbn. lia.
Qed.
