(* ===== verification/Retention.v ===== *)
(** * Retention ([retention_iterator.rs])

    The iterator flushes and compactions run over their input: it collects the versions
    of one key in a [RetentionBuffer], drops or rewrites those retention no longer needs,
    and hands the rest out newest first. *)

From S2P Require Export Iter MergeOperator OrdMap SeqTracker Types.

(** [RetentionMetrics]: the two counters, when metrics are enabled. *)
Record RetentionMetrics := mkRetMetrics {
  expired_entries_purged_value : Z;
  expired_entries_purged_merge : Z;
}.

Definition count_value (m : option RetentionMetrics) : option RetentionMetrics :=
  (λ m, mkRetMetrics (wrap 64 (expired_entries_purged_value m + 1)) (expired_entries_purged_merge m)) <$> m.
Definition count_merge (m : option RetentionMetrics) : option RetentionMetrics :=
  (λ m, mkRetMetrics (expired_entries_purged_value m) (wrap 64 (expired_entries_purged_merge m + 1))) <$> m.

Notation versions := (BTreeMap (Reverse Z) RowEntry).

(** What a compaction is configured with; [retention_timeout] in milliseconds, [now] the clock's
    reading in milliseconds when the filter runs. *)
Record RetentionConfig := mkRetention {
  retention_timeout : option Z;
  retention_min_seq : option Z;
  filter_tombstone : bool;
  compaction_start_ts : Z;
  system_clock_now : Z;
  sequence_tracker : SequenceTracker;
}.

Section retention.
  Context `{Chrono} (c : RetentionConfig).

(** The match on [expire_ts] in [apply_retention_filter]: [None] skips the entry. *)
Definition expire_entry (e : RowEntry) : option RowEntry :=
  match expire_ts e with
  | Some expire_ts =>
      if (expire_ts <=? compaction_start_ts c)%Z then
        if is_merge (value e) then None
        else Some (mkRow (key e) Tombstone (seq e) (create_ts e) None)
      else Some e
  | None => Some e
  end.

Definition count_expired (e : RowEntry) (m : option RetentionMetrics) : option RetentionMetrics :=
  match expire_ts e with
  | Some expire_ts =>
      if (expire_ts <=? compaction_start_ts c)%Z then
        if is_merge (value e) then count_merge m else count_value m
      else m
  | None => m
  end.

(** [continue_retain_by_time] *)
Definition continue_retain_by_time (entry_seq : Z) : result bool :=
  match retention_timeout c with
  | None => mret false
  | Some timeout =>
      ts ← find_ts (sequence_tracker c) entry_seq RoundUp;
      let create_sys_ts := from_option timestamp_millis (system_clock_now c) ts in
      mret (system_clock_now c <? to_signed 64 (create_sys_ts + to_signed 64 timeout))%Z
  end.

(** [continue_retain_by_seq] *)
Definition continue_retain_by_seq (entry_seq : Z) : bool :=
  match retention_min_seq c with Some min_seq => (min_seq <? entry_seq)%Z | None => false end.

(** The loop of [apply_retention_filter] over the versions, newest first. *)
Fixpoint retain_loop (vs : list RowEntry) (filtered : versions) (m : option RetentionMetrics)
    : result (versions * option RetentionMetrics) :=
  match vs with
  | [] => mret (filtered, m)
  | e :: vs =>
      let m := count_expired e m in
      match expire_entry e with
      | None => retain_loop vs filtered m
      | Some e' =>
          let filtered := bm_insert (mkReverse (seq e')) e' filtered in
          by_time ← continue_retain_by_time (seq e');
          if (by_time : bool) || continue_retain_by_seq (seq e') || is_merge (value e)
          then retain_loop vs filtered m
          else mret (filtered, m)
      end
  end.

(** The loop that pops tombstones off the tail. *)
Fixpoint pop_tombstones (fuel : nat) (filtered : versions) : versions :=
  match fuel with
  | O => filtered
  | S fuel =>
      match last filtered with
      | Some (_, e) => if is_tombstone (value e) then pop_tombstones fuel (removelast filtered) else filtered
      | None => filtered
      end
  end.

(** [RetentionIterator::apply_retention_filter] *)
Definition apply_retention_filter (vs : versions) (m : option RetentionMetrics)
    : result (versions * option RetentionMetrics) :=
  '(filtered, m) ← retain_loop (bm_values vs) [] m;
  mret (if filter_tombstone c then pop_tombstones (length filtered) filtered else filtered, m).
End retention.

(** ** The buffer *)

Record RetentionBuffer := mkBuffer {
  current_versions : versions;
  buffer_next : option RowEntry;
  processed : bool;
  end_of_input : bool;
}.

Definition buffer_new : RetentionBuffer := mkBuffer [] None false false.

Inductive RetentionBufferState := NeedPush | NeedPopAndContinue | NeedPopAndQuit | NeedProcess.

(** [RetentionBuffer::state] *)
Definition buffer_state (b : RetentionBuffer) : RetentionBufferState :=
  if processed b then if end_of_input b then NeedPopAndQuit else NeedPopAndContinue
  else if end_of_input b || bool_decide (is_Some (buffer_next b)) then NeedProcess
  else NeedPush.

(** [RetentionBuffer::clear] *)
Definition buffer_clear (b : RetentionBuffer) : RetentionBuffer := mkBuffer [] None false false.

(** [RetentionBuffer::mark_end_of_input] *)
Definition mark_end_of_input (b : RetentionBuffer) : RetentionBuffer :=
  mkBuffer (current_versions b) (buffer_next b) (processed b) true.

(** [RetentionBuffer::push] *)
Definition buffer_push (b : RetentionBuffer) (e : RowEntry) : RetentionBuffer :=
  match head (bm_values (current_versions b)) with
  | None => mkBuffer (bm_insert (mkReverse (seq e)) e (current_versions b)) (buffer_next b) (processed b) (end_of_input b)
  | Some e0 =>
      if decide (key e ≠ key e0)
      then mkBuffer (current_versions b) (Some e) (processed b) (end_of_input b)
      else mkBuffer (bm_insert (mkReverse (seq e)) e (current_versions b)) (buffer_next b) (processed b) (end_of_input b)
  end.

(** [RetentionBuffer::process_retention] *)
Definition process_retention {M} (f : versions → result (versions * M)) (m : M) (b : RetentionBuffer)
    : result (RetentionBuffer * M) :=
  if processed b then mret (b, m)
  else
    '(vs, m) ← f (current_versions b);
    mret (mkBuffer vs (buffer_next b) true (end_of_input b), m).

(** [RetentionBuffer::pop] *)
Definition buffer_pop (b : RetentionBuffer) : result (option RowEntry * RetentionBuffer) :=
  match bm_pop_first (current_versions b) with
  | (Some (_, e), vs) => mret (Some e, mkBuffer vs (buffer_next b) (processed b) (end_of_input b))
  | (None, vs) =>
      match buffer_next b with
      | Some e => mret (None, mkBuffer (bm_insert (mkReverse (seq e)) e vs) None false (end_of_input b))
      | None => if end_of_input b then mret (None, mkBuffer vs None (processed b) (end_of_input b)) else Panic
      end
  end.

(** ** The iterator *)

Record RetentionIterator (I : Type) := mkRetIter {
  ret_inner : I;
  ret_buffer : RetentionBuffer;
  ret_metrics : option RetentionMetrics;
}.
Arguments mkRetIter {I} _ _ _.
Arguments ret_inner {I} _.
Arguments ret_buffer {I} _.
Arguments ret_metrics {I} _.

Section iterator.
  Context `{Chrono} {I : Type} `{RowEntryIterator I} (c : RetentionConfig).

(** [RetentionIterator::new] *)
Definition retention_new (inner : I) (metrics : option RetentionMetrics) : RetentionIterator I :=
  mkRetIter inner buffer_new metrics.

(** [RetentionIterator::next] *)
Fixpoint retention_next (fuel : nat) (r : RetentionIterator I) : result (option RowEntry * RetentionIterator I) :=
  match fuel with
  | O => OutOfFuel
  | S fuel =>
      match buffer_state (ret_buffer r) with
      | NeedPush =>
          '(o, inner) ← it_next (I:=I) (ret_inner r);
          match o with
          | Some e => retention_next fuel (mkRetIter inner (buffer_push (ret_buffer r) e) (ret_metrics r))
          | None => retention_next fuel (mkRetIter inner (mark_end_of_input (ret_buffer r)) (ret_metrics r))
          end
      | NeedPopAndContinue =>
          '(o, b) ← buffer_pop (ret_buffer r);
          match o with
          | Some e => mret (Some e, mkRetIter (ret_inner r) b (ret_metrics r))
          | None => retention_next fuel (mkRetIter (ret_inner r) b (ret_metrics r))
          end
      | NeedPopAndQuit =>
          '(o, b) ← buffer_pop (ret_buffer r);
          mret (o, mkRetIter (ret_inner r) b (ret_metrics r))
      | NeedProcess =>
          '(b, m) ← process_retention (λ vs, apply_retention_filter c vs (ret_metrics r)) (ret_metrics r) (ret_buffer r);
          retention_next fuel (mkRetIter (ret_inner r) b m)
      end
  end.

(** [RetentionIterator::seek] *)
Definition retention_seek (k : bytes) (r : RetentionIterator I) : result (RetentionIterator I) :=
  inner ← it_seek (I:=I) k (ret_inner r);
  mret (mkRetIter inner (buffer_clear (ret_buffer r)) (ret_metrics r)).

Definition retention_iterator (fuel : nat) : RowEntryIterator (RetentionIterator I) := {|
  it_init r := inner ← it_init (I:=I) (ret_inner r); mret (mkRetIter inner (ret_buffer r) (ret_metrics r));
  it_next := retention_next fuel;
  it_seek := retention_seek;
|}.
End iterator.

(** ** What retention keeps *)

Section spec.
  Context `{Chrono} (c : RetentionConfig).

(** The time window's verdict, [false] when there is none. *)
Definition within_time (s : Z) : bool :=
  match continue_retain_by_time c s with Ok b => b | _ => false end.

Definition retains_older (e : RowEntry) : bool :=
  within_time (seq e) || continue_retain_by_seq c (seq e) || is_merge (value e).

(** Versions newest first, up to the boundary; expired ones dropped or turned into tombstones. *)
Fixpoint retained (vs : list RowEntry) : list RowEntry :=
  match vs with
  | [] => []
  | e :: vs =>
      match expire_entry c e with
      | None => retained vs
      | Some e' => e' :: (if retains_older e then retained vs else [])
      end
  end.

Fixpoint strip_tombstones (vs : list RowEntry) : list RowEntry :=
  match vs with
  | [] => []
  | e :: vs =>
      match strip_tombstones vs with
      | [] => if is_tombstone (value e) then [] else [e]
      | vs => e :: vs
      end
  end.

Definition retain (vs : list RowEntry) : list RowEntry :=
  if filter_tombstone c then strip_tombstones (retained vs) else retained vs.
End spec.

(** Versions of one key have strictly decreasing sequence numbers. *)
Definition versions_sorted (l : list RowEntry) : Prop :=
  StronglySorted (λ a b, key a = key b → (seq b < seq a)%Z) l.

Definition vmap (l : list RowEntry) : versions := (λ e, (mkReverse (seq e), e)) <$> l.

(** Consecutive rows of one key, [cur] being collected. *)
Definition same_key (cur : list RowEntry) (e : RowEntry) : bool :=
  match head cur with None => true | Some e0 => bool_decide (key e = key e0) end.

Fixpoint group_from (cur l : list RowEntry) : list (list RowEntry) :=
  match l with
  | [] => [cur]
  | e :: l => if same_key cur e then group_from (cur ++ [e]) l else cur :: group_from [e] l
  end.

Definition one_key (cur : list RowEntry) : Prop := ∀ a b, a ∈ cur → b ∈ cur → key a = key b.

Lemma vmap_values l : bm_values (vmap l) = l.
Proof. unfold bm_values, vmap. rewrite <-list_fmap_compose. cbn. by rewrite list_fmap_id. Qed.

Lemma vmap_snoc l e :
  Forall (λ a, seq e < seq a)%Z l → bm_insert (mkReverse (seq e)) e (vmap l) = vmap (l ++ [e]).
Proof.
  intros HF. unfold vmap. rewrite fmap_app. apply bm_insert_last. apply Forall_fmap.
  eapply Forall_impl; [exact HF|]. intros a Ha. unfold ord_lt, cmp, reverse_ord, cmp, Z_ord; cbn.
  by apply Z.compare_lt_iff.
Qed.

Lemma versions_sorted_app l1 l2 :
  versions_sorted (l1 ++ l2) →
  versions_sorted l1 ∧ versions_sorted l2 ∧
  ∀ a b, a ∈ l1 → b ∈ l2 → key a = key b → (seq b < seq a)%Z.
Proof.
  intros Hs. apply StronglySorted_app in Hs as (Hc & H1 & H2). repeat split; [done..|]. intros a b Ha Hb.
  by apply Hc.
Qed.

Lemma one_key_desc l :
  one_key l → versions_sorted l → StronglySorted (λ a b, seq b < seq a)%Z l.
Proof.
  induction l as [|e l IH]; intros Hk Hs; [constructor|].
  apply StronglySorted_inv in Hs as [Hs HF]. constructor.
  - apply IH; [|done]. intros a b Ha Hb. apply Hk; by right.
  - apply Forall_forall. intros x Hx. rewrite Forall_forall in HF. apply HF; [done|].
    apply Hk; [by left|by right].
Qed.

Section kept.
  Context `{Chrono} (c : RetentionConfig).

Lemma expire_entry_meta e e' :
  expire_entry c e = Some e' → key e' = key e ∧ seq e' = seq e.
Proof.
  unfold expire_entry. destruct (expire_ts e) as [x|]; [|by intros [= ->]].
  destruct (x <=? compaction_start_ts c)%Z; [|by intros [= ->]].
  destruct (is_merge (value e)); [done|by intros [= <-]].
Qed.

(** A retained version has the key and sequence number of a version. *)
Lemma retained_elem vs x : x ∈ retained c vs → ∃ e, e ∈ vs ∧ expire_entry c e = Some x.
Proof.
  induction vs as [|e vs IH]; cbn; [set_solver|].
  destruct (expire_entry c e) as [e'|] eqn:He; [|set_solver].
  rewrite elem_of_cons. intros [->|Hx]; [set_solver|]. destruct (retains_older c e); set_solver.
Qed.

Lemma strip_prefix vs : ∃ tl, vs = strip_tombstones vs ++ tl ∧ Forall (λ e, is_tombstone (value e) = true) tl.
Proof.
  induction vs as [|e vs (tl & IH & HF)]; [by exists []|]. cbn.
  destruct (strip_tombstones vs) as [|a s] eqn:Hs.
  - destruct (is_tombstone (value e)) eqn:He; cbn in IH; subst; [exists (e :: tl)|exists tl]; auto.
  - exists tl. split; [|done]. rewrite IH at 1. done.
Qed.

Lemma retain_elem vs x : x ∈ retain c vs → ∃ e, e ∈ vs ∧ expire_entry c e = Some x.
Proof.
  unfold retain. destruct (filter_tombstone c); [|apply retained_elem].
  destruct (strip_prefix (retained c vs)) as (tl & Heq & _). intros Hx. apply retained_elem.
  rewrite Heq. set_solver.
Qed.
End kept.

Section filter.
  Context `{Chrono} (c : RetentionConfig).
  Hypothesis Htracker : tracker_inv (sequence_tracker c).

Lemma continue_retain_by_time_ok s : continue_retain_by_time c s = Ok (within_time c s).
Proof using Htracker.
  unfold within_time, continue_retain_by_time. destruct (retention_timeout c); [|done].
  destruct (find_ts_total (E:=SlateDBError) (sequence_tracker c) s RoundUp Htracker) as [o ->]. by run.
Qed.

Lemma retain_loop_ok vs done_ m :
  StronglySorted (λ a b, seq b < seq a)%Z vs →
  (∀ a b, a ∈ done_ → b ∈ vs → (seq b < seq a)%Z) →
  ∃ m', retain_loop c vs (vmap done_) m = Ok (vmap (done_ ++ retained c vs), m').
Proof using Htracker.
  revert done_ m. induction vs as [|e vs IH]; intros done_ m Hs Hd; cbn [retain_loop retained].
  { rewrite app_nil_r. by eexists. }
  apply StronglySorted_inv in Hs as [Hs HF]. rewrite Forall_forall in HF.
  destruct (expire_entry c e) as [e'|] eqn:He; [|apply IH; set_solver].
  destruct (expire_entry_meta c _ _ He) as [_ Hseq].
  rewrite vmap_snoc.
  2:{ apply Forall_forall. intros a Ha. rewrite Hseq. apply Hd; set_solver. }
  rewrite continue_retain_by_time_ok. run. rewrite Hseq. fold (retains_older c e).
  destruct (retains_older c e); [|by eexists].
  destruct (IH (done_ ++ [e']) (count_expired c e m) Hs) as [m' ->].
  { intros a b Ha Hb. apply elem_of_app in Ha as [Ha|Ha]; [apply Hd; set_solver|].
    apply list_elem_of_singleton in Ha as ->. rewrite Hseq. by apply HF. }
  rewrite <-app_assoc. by eexists.
Qed.

Lemma strip_tombstones_snoc l e :
  strip_tombstones (l ++ [e]) = if is_tombstone (value e) then strip_tombstones l else l ++ [e].
Proof.
  induction l as [|a l IH]; cbn; [by destruct (is_tombstone (value e))|]. rewrite IH.
  destruct (is_tombstone (value e)); [done|]. by destruct l.
Qed.

Lemma pop_tombstones_ok fuel l :
  length l ≤ fuel → pop_tombstones fuel (vmap l) = vmap (strip_tombstones l).
Proof.
  revert l. induction fuel as [|fuel IH]; intros l Hf; destruct l as [|e l _] using rev_ind; try done.
  { rewrite length_app in Hf. cbn in Hf. lia. }
  rewrite length_app in Hf. cbn in Hf. cbn [pop_tombstones]. rewrite strip_tombstones_snoc.
  unfold vmap at 1 2. rewrite fmap_app. cbn [fmap list_fmap]. rewrite last_snoc.
  destruct (is_tombstone (value e)).
  - rewrite removelast_last. apply IH. lia.
  - unfold vmap. by rewrite fmap_app.
Qed.

Lemma apply_retention_filter_ok vs m :
  StronglySorted (λ a b, seq b < seq a)%Z vs →
  ∃ m', apply_retention_filter c (vmap vs) m = Ok (vmap (retain c vs), m').
Proof using Htracker.
  intros Hs. unfold apply_retention_filter. rewrite vmap_values.
  destruct (retain_loop_ok vs [] m Hs) as [m' Hl]; [set_solver|].
  change (vmap []) with (@nil (Reverse Z * RowEntry)) in Hl. exists m'. rewrite Hl. run.
  unfold retain. destruct (filter_tombstone c); [|done]. 
  rewrite pop_tombstones_ok; [done|].
  unfold vmap. by rewrite length_fmap.
Qed.

End filter.

Lemma buffer_push_collecting cur e next p d :
  one_key cur → versions_sorted (cur ++ [e]) →
  buffer_push (mkBuffer (vmap cur) next p d) e =
    if same_key cur e then mkBuffer (vmap (cur ++ [e])) next p d else mkBuffer (vmap cur) (Some e) p d.
Proof.
  intros Hk Hs. unfold buffer_push. cbn [current_versions buffer_next processed end_of_input].
  rewrite vmap_values. destruct (versions_sorted_app _ _ Hs) as (_ & _ & Hlt).
  unfold same_key. destruct cur as [|e0 cur]; [done|]. cbn [head].
  destruct (decide (key e ≠ key e0)) as [Hne|He].
  - by rewrite bool_decide_eq_false_2.
  - apply dec_stable in He. rewrite bool_decide_eq_true_2 by done. rewrite vmap_snoc; [done|].
    apply Forall_forall. intros a Ha. apply Hlt; [done|set_solver|].
    rewrite He. apply Hk; set_solver.
Qed.

Lemma one_key_snoc cur e : one_key cur → same_key cur e = true → one_key (cur ++ [e]).
Proof.
  intros Hk Hs. unfold same_key in Hs. destruct cur as [|e0 cur].
  { intros a b Ha Hb. set_solver. }
  cbn in Hs. apply bool_decide_eq_true in Hs.
  assert (∀ a, a ∈ (e0 :: cur) ++ [e] → key a = key e0) as Ha; [|intros a b Ha' Hb'; by rewrite (Ha a), (Ha b)].
  intros a [Ha| ->%list_elem_of_singleton]%elem_of_app; [|done]. apply Hk; [done|by left].
Qed.

(** ** The iterator's state machine

    [machine r out n]: the iterator [r] is in a reachable state of the buffer's state machine,
    still has to return [out], and returns from the next call within [n] turns of the loop. *)

Section machine.
  Context `{Chrono} {I : Type} `{RowEntryIterator I} (rel : I → list RowEntry → list RowEntry → Prop) `{!Scan rel}.
  Context (c : RetentionConfig).
  Hypothesis Htracker : tracker_inv (sequence_tracker c).

Definition output (cur l : list RowEntry) : list RowEntry := concat (retain c <$> group_from cur l).

Inductive machine : RetentionIterator I → list RowEntry → nat → Prop :=
| collecting inner ret cur l m :
    rel inner ret l → one_key cur → versions_sorted (cur ++ l) →
    machine (mkRetIter inner (mkBuffer (vmap cur) None false false) m) (output cur l) (3 * length l + 3)
| key_changed inner ret cur e l m :
    rel inner ret l → one_key cur → versions_sorted cur → versions_sorted (e :: l) →
    machine (mkRetIter inner (mkBuffer (vmap cur) (Some e) false false) m)
      (retain c cur ++ output [e] l) (3 * length l + 5)
| input_ended inner cur m :
    one_key cur → versions_sorted cur →
    machine (mkRetIter inner (mkBuffer (vmap cur) None false true) m) (retain c cur) 2
| returning inner ret out e l m :
    rel inner ret l → versions_sorted (e :: l) →
    machine (mkRetIter inner (mkBuffer (vmap out) (Some e) true false) m) (out ++ output [e] l) (3 * length l + 4)
| returning_last inner out m :
    machine (mkRetIter inner (mkBuffer (vmap out) None true true) m) out 1.

Lemma output_cons cur e l :
  output cur (e :: l) = if same_key cur e then output (cur ++ [e]) l else retain c cur ++ output [e] l.
Proof using Type. unfold output. cbn [group_from]. by destruct (same_key cur e). Qed.

(** One call of [next]: it returns the first row still to be returned. *)
Lemma machine_next fuel r out n :
  machine r out n → n ≤ fuel →
  ∃ r' n', retention_next c fuel r = Ok (head out, r') ∧ machine r' (tail out) n' ∧ n' ≤ n.
Proof using Htracker Scan0.
  revert r out n. induction fuel as [|fuel IH]; intros r out n Hm Hn; [destruct Hm; lia|].
  cbn [retention_next]. destruct Hm as [inner ret cur l m Hrel Hk Hs|inner ret cur e l m Hrel Hk Hs Hs'
    |inner cur m Hk Hs|inner ret out e l m Hrel Hs|inner out m];
    cbn [ret_buffer buffer_state processed end_of_input buffer_next ret_inner ret_metrics orb].
  - rewrite bool_decide_eq_false_2 by (by intros []). pose proof (scan_next _ _ _ Hrel) as Hnx.
    destruct l as [|e l]; destruct Hnx as (inner' & Hnx & Hrel'); rewrite Hnx; run.
    + rewrite app_nil_r in Hs.
      edestruct (IH _ _ _ (input_ended inner' cur m Hk Hs)) as (r' & n' & Hr & Hm & Hn'); [cbn in Hn; lia|].
      exists r', n'. unfold output; cbn [group_from]. rewrite list_fmap_singleton. cbn [concat].
      rewrite app_nil_r. split_and!; [exact Hr|done|cbn; lia].
    + assert (versions_sorted (cur ++ [e]) ∧ versions_sorted cur ∧ versions_sorted (e :: l)) as (Hs1 & Hs2 & Hs3).
      { replace (cur ++ e :: l) with ((cur ++ [e]) ++ l) in Hs by by rewrite <-app_assoc.
        pose proof (versions_sorted_app _ _ Hs) as (? & _ & _). rewrite <-app_assoc in Hs.
        by apply versions_sorted_app in Hs as (? & ? & _). }
      rewrite buffer_push_collecting, output_cons by done. cbn [length] in *.
      destruct (same_key cur e) eqn:Hsame.
      * edestruct (IH _ _ _ (collecting inner' _ (cur ++ [e]) l m Hrel' (one_key_snoc _ _ Hk Hsame)
          ltac:(rewrite <-app_assoc; exact Hs))) as (r' & n' & Hr & Hm & Hn'); [lia|].
        exists r', n'. split_and!; [exact Hr|done|lia].
      * edestruct (IH _ _ _ (key_changed inner' _ cur e l m Hrel' Hk Hs2 Hs3)) as (r' & n' & Hr & Hm & Hn'); [lia|].
        exists r', n'. split_and!; [exact Hr|done|lia].
  - rewrite bool_decide_eq_true_2 by by eexists. unfold process_retention. cbn [processed current_versions buffer_next end_of_input].
    destruct (apply_retention_filter_ok c Htracker cur m (one_key_desc _ Hk Hs)) as [m' ->]. run.
    edestruct (IH _ _ _ (returning inner ret (retain c cur) e l m' Hrel Hs')) as (r' & n' & Hr & Hm & Hn'); [lia|].
    exists r', n'. split_and!; [exact Hr|done|lia].
  - unfold process_retention. cbn [processed current_versions buffer_next end_of_input].
    destruct (apply_retention_filter_ok c Htracker cur m (one_key_desc _ Hk Hs)) as [m' ->]. run.
    edestruct (IH _ _ _ (returning_last inner (retain c cur) m')) as (r' & n' & Hr & Hm & Hn'); [lia|].
    exists r', n'. split_and!; [exact Hr|done|lia].
  - unfold buffer_pop. cbn [current_versions buffer_next processed end_of_input].
    destruct out as [|a out]; cbn [vmap fmap list_fmap bm_pop_first]; run.
    + edestruct (IH _ _ _ (collecting inner ret [e] l m Hrel ltac:(intros ???; set_solver) Hs))
        as (r' & n' & Hr & Hm & Hn'); [lia|].
      exists r', n'. split_and!; [exact Hr|done|lia].
    + eexists _, _. split_and!; [done|by apply (returning inner ret out e l m)|lia].
  - unfold buffer_pop. cbn [current_versions buffer_next processed end_of_input].
    destruct out as [|a out]; cbn [vmap fmap list_fmap bm_pop_first]; run.
    + eexists _, _. split_and!; [done|by apply (returning_last inner [])|lia].
    + eexists _, _. split_and!; [done|by apply (returning_last inner out)|lia].
Qed.

Lemma machine_yields fuel r out n :
  machine r out n → n ≤ fuel → yields (H:=retention_iterator c fuel) r out.
Proof using Htracker Scan0.
  revert r n. induction out as [|e out IH]; intros r n Hm Hn;
    destruct (machine_next fuel r _ n Hm Hn) as (r' & n' & Hr & Hm' & Hn'); exists r'; [done|].
  split; [exact Hr|]. apply (IH _ n' Hm'). lia.
Qed.
End machine.

(** ** Order and versions of the output *)

(** What the row order looks at. *)
Definition skeleton (e : RowEntry) : RowEntry := mkRow (key e) Tombstone (seq e) None None.

Lemma sorted_skeleton o l :
  StronglySorted (row_le o) (skeleton <$> l) ↔ StronglySorted (row_le o) l.
Proof.
  induction l as [|e l IH]; [done|]. rewrite fmap_cons.
  split; intros Hs; apply StronglySorted_inv in Hs as [Hs HF]; (constructor; [by apply IH|]);
    rewrite Forall_fmap in *; exact HF.
Qed.

Section kept_order.
  Context `{Chrono} (c : RetentionConfig).

Lemma retain_skeleton vs : (skeleton <$> retain c vs) `sublist_of` (skeleton <$> vs).
Proof.
  assert ((skeleton <$> retained c vs) `sublist_of` (skeleton <$> vs)) as Hr.
  { induction vs as [|e vs IH]; [done|]. cbn [retained]. destruct (expire_entry c e) as [e'|] eqn:He.
    - destruct (expire_entry_meta _ _ _ He) as [Hk Hs]. rewrite !fmap_cons.
      replace (skeleton e') with (skeleton e) by (unfold skeleton; congruence). apply sublist_skip.
      destruct (retains_older c e); [done|apply sublist_nil_l].
    - rewrite fmap_cons. by apply sublist_cons. }
  unfold retain. destruct (filter_tombstone c); [|done]. etrans; [|exact Hr].
  destruct (strip_prefix (retained c vs)) as (tl & Heq & _). rewrite Heq at 2. rewrite fmap_app.
  by apply sublist_inserts_r.
Qed.

Lemma group_from_concat cur l : concat (group_from cur l) = cur ++ l.
Proof.
  revert cur. induction l as [|e l IH]; intros cur; cbn; [done|].
  destruct (same_key cur e); cbn; rewrite IH; by rewrite <-?app_assoc.
Qed.

Lemma output_skeleton cur l : (skeleton <$> output c cur l) `sublist_of` (skeleton <$> (cur ++ l)).
Proof.
  unfold output. rewrite <-(group_from_concat cur l). induction (group_from cur l) as [|g gs IH]; [done|].
  rewrite fmap_cons. cbn [concat]. rewrite !fmap_app. apply sublist_app; [apply retain_skeleton|done].
Qed.

Lemma retain_nil : retain c [] = [].
Proof. unfold retain. by destruct (filter_tombstone c). Qed.

Lemma retain_key k vs : Forall (λ e, key e = k) vs → Forall (λ e, key e = k) (retain c vs).
Proof.
  rewrite !Forall_forall. intros Hk x (e & He & Hx)%retain_elem.
  apply expire_entry_meta in Hx as [-> _]. by apply Hk.
Qed.

Lemma sorted_key_gone o e0 e l :
  StronglySorted (row_le o) (e0 :: e :: l) → key e ≠ key e0 → Forall (λ x, key x ≠ key e0) (e :: l).
Proof.
  intros Hs Hne. constructor; [done|]. apply StronglySorted_inv in Hs as [Hs H0].
  apply StronglySorted_inv in Hs as [Hs H1]. rewrite Forall_forall in *.
  intros x Hx E. pose proof (row_le_key _ _ _ (H1 x Hx)) as Hex.
  pose proof (row_le_key _ _ _ (H0 e ltac:(by left))) as H0e. rewrite E in Hex.
  destruct o; cbn in *; apply Hne; revert H0e Hex; ord.
Qed.

(** The output has, for every key, what retention keeps of its versions. *)
Lemma output_versions o cur l k :
  one_key cur → StronglySorted (row_le o) (cur ++ l) →
  versions_of k (output c cur l) = retain c (versions_of k (cur ++ l)).
Proof.
  revert cur. induction l as [|e l IH]; intros cur Hk Hs.
  - rewrite app_nil_r. unfold output. cbn [group_from]. rewrite list_fmap_singleton. cbn [concat]. rewrite app_nil_r.
    destruct cur as [|e0 cur]; [by rewrite filter_nil, !retain_nil|].
    assert (Forall (λ e, key e = key e0) (e0 :: cur)) as Hall.
    { apply Forall_forall. intros x Hx. apply Hk; [done|by left]. }
    destruct (decide (key e0 = k)) as [<-|Hne].
    + rewrite !versions_of_all; [done|done|by apply retain_key].
    + rewrite !versions_of_none, retain_nil; [done|..]; [|apply retain_key in Hall];
        (eapply Forall_impl; [exact Hall|]; cbn; congruence).
  - rewrite output_cons. destruct (same_key cur e) eqn:Hsame.
    { replace (cur ++ e :: l) with ((cur ++ [e]) ++ l) in * by by rewrite <-app_assoc.
      apply IH; [by apply one_key_snoc|done]. }
    destruct cur as [|e0 cur]; [done|]. unfold same_key in Hsame. cbn in Hsame. apply bool_decide_eq_false in Hsame.
    assert (Forall (λ e, key e = key e0) (e0 :: cur)) as Hall.
    { apply Forall_forall. intros x Hx. apply Hk; [done|by left]. }
    assert (Forall (λ x, key x ≠ key e0) (e :: l)) as Hgone.
    { apply (sorted_key_gone o e0 e l); [|done]. eapply StronglySorted_sublist; [|exact Hs].
      cbn. apply sublist_skip. by apply sublist_inserts_l. }
    rewrite !filter_app. rewrite (IH [e]) by (first [intros ???; set_solver
      | apply StronglySorted_app in Hs as (_ & _ & ?); done]).
    change ([e] ++ l) with (e :: l).
    destruct (decide (key e0 = k)) as [<-|Hne].
    + rewrite (versions_of_none (key e0) (e :: l)), retain_nil, !app_nil_r by done.
      rewrite !versions_of_all; [done|done|by apply retain_key].
    + rewrite (versions_of_none k (e0 :: cur)), (versions_of_none k (retain c _)); [done|..];
        [apply retain_key in Hall|]; (eapply Forall_impl; [exact Hall|]; cbn; congruence).
Qed.
End kept_order.

(** C31: The retention iterator. Over sorted rows whose versions of a key have decreasing sequence
    numbers, the iterator's state machine always returns (its unreachable state is never entered):
    it yields rows in the same order which, for every key, are exactly what retention keeps of that
    key's versions. *)
Theorem retention_iterator_retains `{Chrono} {I} `{RowEntryIterator I} rel `{!Scan rel}
    (c : RetentionConfig) (it : I) (l : list RowEntry) o m fuel :
  rel it [] l → StronglySorted (row_le o) l → versions_sorted l → tracker_inv (sequence_tracker c) →
  3 * length l + 3 ≤ fuel →
  ∃ out, yields (H:=retention_iterator c fuel) (retention_new it m) out ∧
    (∀ k, versions_of k out = retain c (versions_of k l)) ∧ StronglySorted (row_le o) out.
Proof.
  intros Hrel Hs Hv Ht Hf. exists (output c [] l). split_and!.
  - eapply (machine_yields rel c Ht); [|exact Hf]. apply (collecting rel c it [] [] l m); [done|intros ???; set_solver|done].
  - intros k. apply (output_versions c o []); [intros ???; set_solver|done].
  - apply sorted_skeleton. eapply StronglySorted_sublist; [apply output_skeleton|]. by apply sorted_skeleton.
Qed.

(** ** Retention and snapshots *)

(** The versions a reader at sequence number [s] may see. *)
Definition visible (s : Z) (vs : list RowEntry) : list RowEntry := filter (λ e, seq e ≤ s)%Z vs.

(** The versions as they read when the compaction starts. *)
Definition unexpired (c : RetentionConfig) (vs : list RowEntry) : list RowEntry := omap (expire_entry c) vs.

Section snapshots.
  Context `{Chrono} (c : RetentionConfig) (f : bytes → option bytes → bytes → bytes) (k : bytes).

(** Readers retention must serve: those at or above the oldest active snapshot, or, with no
    snapshot, those that see every version. *)
Definition served (s : Z) (vs : list RowEntry) : Prop :=
  match retention_min_seq c with
  | Some min_seq => (min_seq ≤ s)%Z
  | None => Forall (λ e, seq e ≤ s)%Z vs
  end.

Lemma expire_entry_value e e' :
  expire_entry c e = Some e' → is_merge (value e') = true → is_merge (value e) = true.
Proof.
  unfold expire_entry. destruct (expire_ts e) as [x|]; [|by intros [= ->]].
  destruct (x <=? compaction_start_ts c)%Z; [|by intros [= ->]].
  destruct (is_merge (value e)); [done|by intros [= <-]].
Qed.

Lemma retained_reads s vs :
  served s vs →
  read_value f k (visible s (retained c vs)) = read_value f k (visible s (unexpired c vs)).
Proof.
  induction vs as [|e vs IH]; intros Hs; [done|].
  assert (served s vs) as Hs'.
  { unfold served in *. destruct (retention_min_seq c); [done|]. by apply Forall_cons in Hs as [_ ?]. }
  specialize (IH Hs'). unfold unexpired in *. cbn [retained omap list_omap].
  destruct (expire_entry c e) as [e'|] eqn:He; [|done].
  destruct (expire_entry_meta _ _ _ He) as [_ Hseq]. unfold visible in *. rewrite !filter_cons.
  destruct (decide (seq e' ≤ s)%Z) as [Hle|Hgt].
  - cbn. destruct (value e') eqn:Hv; [done| |done].
    assert (retains_older c e = true) as ->; [|by rewrite IH].
    unfold retains_older. rewrite (expire_entry_value e e'), orb_true_r by (done || by rewrite Hv). done.
  - assert (retains_older c e = true) as ->; [|done]. unfold retains_older, continue_retain_by_seq, served in *.
    destruct (retention_min_seq c).
    + rewrite (proj2 (Z.ltb_lt _ _)), orb_true_r by lia. done.
    + apply Forall_cons in Hs as [? _]. lia.
Qed.

Lemma read_tombstones vs tl :
  Forall (λ e, is_tombstone (value e) = true) tl → read_value f k (vs ++ tl) = read_value f k vs.
Proof.
  intros HF. induction vs as [|e vs IH]; cbn.
  - destruct HF as [|e tl He]; [done|]. cbn. by destruct (value e).
  - by rewrite IH.
Qed.


(** Retention reclaims what no snapshot needs. With no time window, every retained version that
    has an older one behind it is a merge operand or newer than the oldest snapshot: nothing behind
    the first value or tombstone at or below the snapshot is kept. *)
Theorem retention_reclaims vs i e :
  retention_timeout c = None → retain c vs !! i = Some e → S i < length (retain c vs) →
  is_merge (value e) = true ∨ (∃ min_seq, retention_min_seq c = Some min_seq ∧ (min_seq < seq e)%Z).
Proof.
  intros Ht He Hlen.
  assert (retained c vs !! i = Some e ∧ S i < length (retained c vs)) as [Hr Hl].
  { unfold retain in *. destruct (filter_tombstone c); [|done].
    destruct (strip_prefix (retained c vs)) as (tl & Heq & _). rewrite Heq, length_app.
    split; [by apply lookup_app_l_Some|lia]. }
  clear He Hlen. revert i Hr Hl. induction vs as [|a vs IH]; intros i Hr Hl; [done|]. cbn in Hr, Hl.
  destruct (expire_entry c a) as [a'|] eqn:Ha; [|by apply (IH i)].
  destruct (retains_older c a) eqn:Ho; [|cbn in Hl; lia]. destruct i as [|i].
  2:{ apply (IH i); [done|cbn in Hl; lia]. }
  cbn in Hr. simplify_eq. destruct (expire_entry_meta _ _ _ Ha) as [_ Hseq].
  unfold retains_older, within_time, continue_retain_by_time in Ho. rewrite Ht in Ho. cbn [orb] in Ho.
  apply orb_true_iff in Ho as [Ho|Ho].
  - right. unfold continue_retain_by_seq in Ho. destruct (retention_min_seq c) as [mn|]; [|done].
    exists mn. split; [done|]. cbn in Ho. lia.
  - left. revert Ha. unfold expire_entry. rewrite Ho. destruct (expire_ts a) as [x|]; [|by intros [= <-]].
    destruct (x <=? compaction_start_ts c)%Z; [done|by intros [= <-]].
Qed.
End snapshots.

(** The example of the source's comment: a snapshot at 3, two values and a deletion. *)
Definition demo_versions : list RowEntry :=
  [mkRow [97] Tombstone 4 None None; mkRow [97] (Value [1]) 2 None None; mkRow [97] (Value [0]) 1 None None]%Z.

Definition demo_retention : RetentionConfig :=
  mkRetention None (Some 3%Z) true 100 200 (mkTracker [10; 30]%Z [60; 120]%Z 2 60 (Some 120%Z)).


Lemma retention_reclaims_witness :
  is_merge (value (mkRow [97%Z] Tombstone 4 None None)) = true ∨
  (∃ min_seq, retention_min_seq demo_retention = Some min_seq ∧ (min_seq < 4)%Z).
Proof.
  apply (retention_reclaims (H:=seconds_chrono) demo_retention demo_versions 0
    (mkRow [97%Z] Tombstone 4 None None)); [reflexivity|reflexivity|vm_compute; lia].
Defined.

Lemma retention_iterator_retains_witness :
  ∃ out, yields (H:=retention_iterator (H:=seconds_chrono) demo_retention 12)
      (retention_new (mkListIter demo_versions) None) out ∧
    (∀ k, versions_of k out = retain (H:=seconds_chrono) demo_retention (versions_of k demo_versions)) ∧
    StronglySorted (row_le Ascending) out.
Proof.
  apply (retention_iterator_retains (H:=seconds_chrono) list_scan demo_retention (mkListIter demo_versions)
    demo_versions Ascending None 12); [done|..|cbn; lia].
  - repeat first [apply SSorted_nil | apply SSorted_cons]; repeat constructor; vm_compute; discriminate.
  - repeat first [apply SSorted_nil | apply SSorted_cons]; repeat constructor; cbn; lia.
  - split; cbn; [done|repeat constructor; lia..|lia|lia|].
    split; [unfold date_secs; lia|repeat constructor; lia].
Defined.
