(* ===== verification/Transactions.v ===== *)
(** * Transactions ([oracle.rs], [transaction_manager.rs], [snapshot_manager.rs])

    The oracle's sequence numbers, the conflict detection of transactions, and the
    snapshot registrations that hold back retention.  Methods run under the manager's
    lock: each is one atomic step on the manager's state. *)

From stdpp Require Import gmap.
From S2P Require Export KeyRange Types.

(** [uuid::Uuid] *)
Definition Uuid := Z.

(** ** The oracle *)

Record DbOracle := mkOracle {
  last_seq : Z;
  last_committed_seq : Z;
  last_durable_seq : Z;
}.

(** [DbOracle::next_seq] *)
Definition next_seq (o : DbOracle) : Z * DbOracle :=
  let s := wrap 64 (last_seq o + 1) in (s, mkOracle s (last_committed_seq o) (last_durable_seq o)).

(** [DbOracle::advance_last_seq] *)
Definition advance_last_seq (s : Z) (o : DbOracle) : DbOracle :=
  mkOracle (Z.max (last_seq o) s) (last_committed_seq o) (last_durable_seq o).

(** [DbOracle::advance_committed_seq] *)
Definition advance_committed_seq (s : Z) (o : DbOracle) : DbOracle :=
  mkOracle (last_seq o) (Z.max (last_committed_seq o) s) (last_durable_seq o).

(** [DbOracle::advance_durable_seq] *)
Definition advance_durable_seq (s : Z) (o : DbOracle) : DbOracle :=
  mkOracle (last_seq o) (last_committed_seq o) (Z.max (last_durable_seq o) s).

(** The commit sequence number of [DbInner::write_batch]; [seqnum] 0 means none was supplied. *)
Definition assign_commit_seq (seqnum : Z) (o : DbOracle) : result Z * DbOracle :=
  if (0 <? seqnum)%Z then
    let current := last_seq o in
    if (seqnum <=? current)%Z then (Err (InvalidSequenceNumber seqnum current), o)
    else (mret seqnum, advance_last_seq seqnum o)
  else let '(s, o) := next_seq o in (mret s, o).

(** ** Transaction states *)

Inductive IsolationLevel := Snapshot | SerializableSnapshot.

Record TransactionState := mkTxn {
  started_seq : Z;
  committed_seq : option Z;
  write_keys : gset bytes;
  read_keys : gset bytes;
  read_ranges : list BytesRange.t;
}.

(** [TransactionState::track_write_keys] *)
Definition state_track_write_keys (ks : gset bytes) (t : TransactionState) : TransactionState :=
  mkTxn (started_seq t) (committed_seq t) (write_keys t ∪ ks) (read_keys t) (read_ranges t).
(** [TransactionState::track_read_keys] *)
Definition state_track_read_keys (ks : gset bytes) (t : TransactionState) : TransactionState :=
  mkTxn (started_seq t) (committed_seq t) (write_keys t) (read_keys t ∪ ks) (read_ranges t).
(** [TransactionState::track_read_range] *)
Definition state_track_read_range (r : BytesRange.t) (t : TransactionState) : TransactionState :=
  mkTxn (started_seq t) (committed_seq t) (write_keys t) (read_keys t) (read_ranges t ++ [r]).
(** [TransactionState::mark_as_committed] *)
Definition mark_as_committed (s : Z) (t : TransactionState) : TransactionState :=
  mkTxn (started_seq t) (Some s) (write_keys t) ∅ [].

(** ** The manager *)

Record TransactionManager := mkTxnManager {
  active_txns : gmap Uuid TransactionState;
  recent_committed_txns : list TransactionState;
  oracle : DbOracle;
}.

Definition txn_manager_new (o : DbOracle) : TransactionManager := mkTxnManager ∅ [] o.

(** [Iterator::min] over the started sequence numbers. *)
Definition min_list (l : list Z) : option Z :=
  match l with [] => None | x :: l => Some (foldl Z.min x l) end.

(** [TransactionManagerInner::min_conflict_check_seq] *)
Definition min_conflict_check_seq (m : TransactionManager) : option Z :=
  min_list (started_seq <$> (map_to_list (active_txns m)).*2).

(** [TransactionManager::min_active_seq] *)
Definition min_active_seq (m : TransactionManager) : option Z :=
  min_list (started_seq <$> (map_to_list (active_txns m)).*2).

(** [TransactionManager::new_transaction]; [txn_id] is the generated identifier. *)
Definition new_transaction (txn_id : Uuid) (m : TransactionManager) : (Uuid * Z) * TransactionManager :=
  let s := last_committed_seq (oracle m) in
  ((txn_id, s),
   mkTxnManager (<[txn_id := mkTxn s None ∅ ∅ []]> (active_txns m)) (recent_committed_txns m) (oracle m)).

(** [TransactionManagerInner::recycle_recent_committed_txns] *)
Definition recycle_recent_committed_txns (m : TransactionManager) : TransactionManager :=
  match min_conflict_check_seq m with
  | Some min_seq =>
      mkTxnManager (active_txns m)
        (filter (λ t, match committed_seq t with Some s => (min_seq <=? s)%Z | None => true end = true)
           (recent_committed_txns m)) (oracle m)
  | None => mkTxnManager (active_txns m) [] (oracle m)
  end.

(** [TransactionManager::drop_txn] *)
Definition drop_txn (txn_id : Uuid) (m : TransactionManager) : TransactionManager :=
  recycle_recent_committed_txns
    (mkTxnManager (delete txn_id (active_txns m)) (recent_committed_txns m) (oracle m)).

Definition update_active (txn_id : Uuid) (f : TransactionState → TransactionState) (m : TransactionManager)
    : TransactionManager :=
  match active_txns m !! txn_id with
  | Some t => mkTxnManager (<[txn_id := f t]> (active_txns m)) (recent_committed_txns m) (oracle m)
  | None => m
  end.

(** [TransactionManager::track_write_keys], [track_read_keys], [track_read_range] *)
Definition track_write_keys (txn_id : Uuid) (ks : gset bytes) : TransactionManager → TransactionManager :=
  update_active txn_id (state_track_write_keys ks).
Definition track_read_keys (txn_id : Uuid) (ks : gset bytes) : TransactionManager → TransactionManager :=
  update_active txn_id (state_track_read_keys ks).
Definition track_read_range (txn_id : Uuid) (r : BytesRange.t) : TransactionManager → TransactionManager :=
  update_active txn_id (state_track_read_range r).

(** [TransactionManagerInner::has_write_write_conflict]: the loop, an unset sequence number panics. *)
Fixpoint ww_loop (write_keys_ : gset bytes) (started : Z) (recent : list TransactionState) : result bool :=
  match recent with
  | [] => mret false
  | t :: recent =>
      other ← expect (committed_seq t);
      if (started <? other)%Z && negb (bool_decide (write_keys_ ## write_keys t)) then mret true
      else ww_loop write_keys_ started recent
  end.

Definition has_write_write_conflict (m : TransactionManager) (ks : gset bytes) (started : Z) : result bool :=
  if decide (ks = ∅) then mret false else ww_loop ks started (recent_committed_txns m).

(** [TransactionManagerInner::has_read_write_conflict] *)
Fixpoint rw_loop (read_keys_ : gset bytes) (ranges : list BytesRange.t) (started : Z)
    (recent : list TransactionState) : result bool :=
  match recent with
  | [] => mret false
  | t :: recent =>
      other ← expect (committed_seq t);
      if (started <? other)%Z &&
         (negb (bool_decide (read_keys_ ## write_keys t)) ||
          existsb (λ r, existsb (BytesRange.contains r) (elements (write_keys t))) ranges)
      then mret true
      else rw_loop read_keys_ ranges started recent
  end.

Definition has_read_write_conflict (m : TransactionManager) (ks : gset bytes) (ranges : list BytesRange.t)
    (started : Z) : result bool :=
  if decide (ks = ∅ ∧ length ranges = 0) then mret false
  else rw_loop ks ranges started (recent_committed_txns m).

(** [TransactionManager::check_has_conflict] *)
Definition check_has_conflict (txn_id : Uuid) (m : TransactionManager) : result bool :=
  match active_txns m !! txn_id with
  | None => mret false
  | Some t =>
      ww ← has_write_write_conflict m (write_keys t) (started_seq t);
      if (ww : bool) then mret true
      else has_read_write_conflict m (read_keys t) (read_ranges t) (started_seq t)
  end.

(** [TransactionManagerInner::track_recent_committed_state] *)
Definition track_recent_committed_state (t : TransactionState) (m : TransactionManager) : TransactionManager :=
  let m := mkTxnManager (active_txns m) (recent_committed_txns m ++ [t]) (oracle m) in
  match min_conflict_check_seq m with
  | None => mkTxnManager (active_txns m) [] (oracle m)
  | Some _ => m
  end.

Definition advance_committed (s : Z) (m : TransactionManager) : TransactionManager :=
  mkTxnManager (active_txns m) (recent_committed_txns m) (advance_committed_seq s (oracle m)).

(** [TransactionManager::track_recent_committed_txn] *)
Definition track_recent_committed_txn (txn_id : Uuid) (s : Z) (m : TransactionManager) : TransactionManager :=
  let m' :=
    match active_txns m !! txn_id with
    | Some t => track_recent_committed_state (mark_as_committed s t)
                  (mkTxnManager (delete txn_id (active_txns m)) (recent_committed_txns m) (oracle m))
    | None => m
    end in
  advance_committed s m'.

(** [TransactionManager::track_recent_committed_write_batch] *)
Definition track_recent_committed_write_batch (ks : gset bytes) (s : Z) (m : TransactionManager)
    : TransactionManager :=
  advance_committed s (track_recent_committed_state (mkTxn s (Some s) ks ∅ []) m).

(** ** Snapshots *)

Record SnapshotManager := mkSnapshots {
  active_snapshots : gmap Uuid Z;
  snapshot_oracle : DbOracle;
}.

(** [SnapshotManager::new_snapshot] *)
Definition new_snapshot (snapshot_id : Uuid) (s : option Z) (m : SnapshotManager) : (Uuid * Z) * SnapshotManager :=
  let s := default (last_committed_seq (snapshot_oracle m)) s in
  ((snapshot_id, s), mkSnapshots (<[snapshot_id := s]> (active_snapshots m)) (snapshot_oracle m)).

(** [SnapshotManager::drop_snapshot]; the assertion panics. *)
Definition drop_snapshot (snapshot_id : Uuid) (m : SnapshotManager) : result SnapshotManager :=
  match active_snapshots m !! snapshot_id with
  | Some _ => mret (mkSnapshots (delete snapshot_id (active_snapshots m)) (snapshot_oracle m))
  | None => Panic
  end.

(** [SnapshotManager::min_active_seq] *)
Definition snapshot_min_active_seq (m : SnapshotManager) : option Z :=
  min_list ((map_to_list (active_snapshots m)).*2).

(** ** The protocol as a step relation

    A step is one call under the manager's lock, or one turn of the single writer that
    assigns a sequence number, checks for conflicts and publishes the commit.  The second
    component of a state is a ghost: every commit so far, with what the transaction had
    read and written when it committed. *)

Record commit := mkCommit {
  c_started : Z;
  c_seq : Z;
  c_writes : gset bytes;
  c_reads : gset bytes;
  c_ranges : list BytesRange.t;
}.

Definition set_oracle (o : DbOracle) (m : TransactionManager) : TransactionManager :=
  mkTxnManager (active_txns m) (recent_committed_txns m) o.

Definition seq_room (o : DbOracle) : Prop := (0 ≤ last_seq o < 2 ^ 64 - 1)%Z.

Inductive step : TransactionManager * list commit → TransactionManager * list commit → Prop :=
| step_begin id m h :
    active_txns m !! id = None →
    step (m, h) ((new_transaction id m).2, h)
| step_write id ks m h : step (m, h) (track_write_keys id ks m, h)
| step_read id ks m h : step (m, h) (track_read_keys id ks m, h)
| step_scan id r m h : step (m, h) (track_read_range id r m, h)
| step_commit id t seqnum s o m h :
    active_txns m !! id = Some t → seq_room (oracle m) →
    assign_commit_seq seqnum (oracle m) = (Ok s, o) →
    check_has_conflict id (set_oracle o m) = Ok false →
    step (m, h) (track_recent_committed_txn id s (set_oracle o m),
      h ++ [mkCommit (started_seq t) s (write_keys t) (read_keys t) (read_ranges t)])
| step_reject id seqnum s o m h :
    seq_room (oracle m) → assign_commit_seq seqnum (oracle m) = (Ok s, o) →
    check_has_conflict id (set_oracle o m) = Ok true →
    step (m, h) (set_oracle o m, h)
| step_batch ks seqnum s o m h :
    seq_room (oracle m) → assign_commit_seq seqnum (oracle m) = (Ok s, o) →
    step (m, h) (track_recent_committed_write_batch ks s (set_oracle o m), h ++ [mkCommit s s ks ∅ []])
| step_drop id m h : step (m, h) (drop_txn id m, h).

(** A later commit [b], or a transaction, that must not have missed the commit [c]. *)
Definition overlaps (writes reads : gset bytes) (ranges : list BytesRange.t) (c : commit) : Prop :=
  ¬ writes ## c_writes c ∨ ¬ reads ## c_writes c ∨
  ∃ r k, r ∈ ranges ∧ k ∈ c_writes c ∧ BytesRange.contains r k = true.

Definition recorded (recent : list TransactionState) (c : commit) : Prop :=
  ∃ r, r ∈ recent ∧ committed_seq r = Some (c_seq c) ∧ write_keys r = c_writes c.

Record manager_inv (m : TransactionManager) (h : list commit) : Prop := {
  inv_oracle : (last_committed_seq (oracle m) ≤ last_seq (oracle m))%Z;
  inv_active id t : active_txns m !! id = Some t →
    committed_seq t = None ∧ (started_seq t ≤ last_committed_seq (oracle m))%Z;
  inv_recent t : t ∈ recent_committed_txns m →
    ∃ c, c ∈ h ∧ committed_seq t = Some (c_seq c) ∧ write_keys t = c_writes c;
  inv_history c : c ∈ h → (c_seq c ≤ last_committed_seq (oracle m))%Z;
  inv_complete c id t : c ∈ h → active_txns m !! id = Some t → (started_seq t < c_seq c)%Z →
    recorded (recent_committed_txns m) c;
  inv_idle : active_txns m = ∅ → recent_committed_txns m = [];
  inv_order : StronglySorted (λ a b, c_seq a < c_seq b)%Z h;
  inv_isolation a b : a ∈ h → b ∈ h → (c_started b < c_seq a < c_seq b)%Z →
    ¬ overlaps (c_writes b) (c_reads b) (c_ranges b) a;
}.

(** ** Conflict detection *)

Lemma ww_loop_ok ks started recent :
  Forall (λ t, is_Some (committed_seq t)) recent →
  ∃ b, ww_loop ks started recent = Ok b ∧
    (b = true ↔ ∃ t s, t ∈ recent ∧ committed_seq t = Some s ∧ (started < s)%Z ∧ ¬ ks ## write_keys t).
Proof.
  induction 1 as [|t recent [s Hs] HF (b & Hb & IH)]; cbn [ww_loop].
  { exists false. split; [done|]. split; [done|]. set_solver. }
  rewrite Hs. run. destruct ((started <? s)%Z && negb (bool_decide (ks ## write_keys t))) eqn:Hc.
  - exists true. split; [done|]. split; [|done]. intros _. apply andb_true_iff in Hc as [H1 H2].
    apply negb_true_iff, bool_decide_eq_false in H2. exists t, s. split; [by left|]. split; [done|]. split; [lia|done].
  - exists b. split; [done|]. rewrite IH. split.
    + intros (t' & s' & Ht & Hx). exists t', s'. split; [by right|done].
    + intros (t' & s' & [->|Ht]%elem_of_cons & Hs' & Hlt & Hd); [|by exists t', s'].
      simplify_eq. apply andb_false_iff in Hc as [Hc|Hc]; [lia|].
      apply negb_false_iff, bool_decide_eq_true in Hc. done.
Qed.

Lemma rw_loop_ok ks ranges started recent :
  Forall (λ t, is_Some (committed_seq t)) recent →
  ∃ b, rw_loop ks ranges started recent = Ok b ∧
    (b = true ↔ ∃ t s, t ∈ recent ∧ committed_seq t = Some s ∧ (started < s)%Z ∧
       (¬ ks ## write_keys t ∨ ∃ r k, r ∈ ranges ∧ k ∈ write_keys t ∧ BytesRange.contains r k = true)).
Proof.
  induction 1 as [|t recent [s Hs] HF (b & Hb & IH)]; cbn [rw_loop].
  { exists false. split; [done|]. split; [done|]. set_solver. }
  rewrite Hs. run. set (hit := _ || existsb _ ranges).
  assert (hit = true ↔ (¬ ks ## write_keys t ∨ ∃ r k, r ∈ ranges ∧ k ∈ write_keys t ∧ BytesRange.contains r k = true)) as Hhit.
  { unfold hit. rewrite orb_true_iff, negb_true_iff, bool_decide_eq_false, existsb_exists.
    setoid_rewrite existsb_exists. setoid_rewrite <-list_elem_of_In. setoid_rewrite elem_of_elements.
    naive_solver. }
  destruct ((started <? s)%Z && hit) eqn:Hc.
  - exists true. split; [done|]. split; [|done]. intros _. apply andb_true_iff in Hc as [H1 H2].
    exists t, s. split; [by left|]. split; [done|]. split; [lia|]. by apply Hhit.
  - exists b. split; [done|]. rewrite IH. split.
    + intros (t' & s' & Ht & Hx). exists t', s'. split; [by right|done].
    + intros (t' & s' & [->|Ht]%elem_of_cons & Hs' & Hlt & Hd); [|by exists t', s'].
      simplify_eq. apply Hhit in Hd. rewrite Hd, andb_true_r in Hc. lia.
Qed.

(** On a consistent manager the check returns, and says whether any commit since the
    transaction started, recycled or not, overlaps it. *)
Lemma check_has_conflict_ok m h id t :
  manager_inv m h → active_txns m !! id = Some t →
  ∃ b, check_has_conflict id m = Ok b ∧
    (b = true ↔ ∃ c, c ∈ h ∧ (started_seq t < c_seq c)%Z ∧ overlaps (write_keys t) (read_keys t) (read_ranges t) c).
Proof.
  intros Hinv Ht. unfold check_has_conflict. rewrite Ht.
  assert (Forall (λ t, is_Some (committed_seq t)) (recent_committed_txns m)) as HF.
  { apply Forall_forall. intros r Hr. destruct (inv_recent _ _ Hinv r Hr) as (c & _ & -> & _). eauto. }
  assert (∃ b, has_write_write_conflict m (write_keys t) (started_seq t) = Ok b ∧
    (b = true ↔ ∃ c, c ∈ h ∧ (started_seq t < c_seq c)%Z ∧ ¬ write_keys t ## c_writes c)) as (ww & Hww & Eww).
  { unfold has_write_write_conflict. destruct (decide (write_keys t = ∅)) as [->|].
    - exists false. split; [done|]. split; [done|]. set_solver.
    - destruct (ww_loop_ok (write_keys t) (started_seq t) _ HF) as (b & Hb & E). exists b. split; [done|].
      rewrite E. split.
      + intros (r & s & Hr & Hs & Hlt & Hd). destruct (inv_recent _ _ Hinv r Hr) as (c & Hc & Hsc & Hw).
        exists c. rewrite <-Hw. split; [done|]. split; [simplify_eq; lia|done].
      + intros (c & Hc & Hlt & Hd). destruct (inv_complete _ _ Hinv c id t Hc Ht Hlt) as (r & Hr & Hs & Hw).
        exists r, (c_seq c). by rewrite Hw. }
  assert (∃ b, has_read_write_conflict m (read_keys t) (read_ranges t) (started_seq t) = Ok b ∧
    (b = true ↔ ∃ c, c ∈ h ∧ (started_seq t < c_seq c)%Z ∧
       (¬ read_keys t ## c_writes c ∨ ∃ r k, r ∈ read_ranges t ∧ k ∈ c_writes c ∧ BytesRange.contains r k = true)))
    as (rw & Hrw & Erw).
  { unfold has_read_write_conflict. destruct (decide _) as [[-> Hn%nil_length_inv]|].
    - exists false. split; [done|]. split; [done|]. rewrite Hn. set_solver.
    - destruct (rw_loop_ok (read_keys t) (read_ranges t) (started_seq t) _ HF) as (b & Hb & E). exists b. split; [done|].
      rewrite E. split.
      + intros (r & s & Hr & Hs & Hlt & Hd). destruct (inv_recent _ _ Hinv r Hr) as (c & Hc & Hsc & Hw).
        exists c. rewrite <-Hw. split; [done|]. split; [simplify_eq; lia|done].
      + intros (c & Hc & Hlt & Hd). destruct (inv_complete _ _ Hinv c id t Hc Ht Hlt) as (r & Hr & Hs & Hw).
        exists r, (c_seq c). by rewrite Hw. }
  rewrite Hww. run. destruct ww.
  - exists true. split; [done|]. split; [|done]. intros _.
    destruct (proj1 Eww eq_refl) as (c & Hc & Hlt & Hd). exists c. split; [done|]. split; [done|by left].
  - exists rw. split; [done|]. rewrite Erw. unfold overlaps.
    split; intros (c & Hc & Hlt & Hd); exists c; (split; [done|]); (split; [done|]); [by right|].
    destruct Hd as [Hd|Hd]; [|done]. discriminate (proj2 Eww (ex_intro _ c (conj Hc (conj Hlt Hd)))).
Qed.

(** ** Every step keeps the manager consistent *)

Lemma min_list_spec l :
  match min_list l with
  | None => l = []
  | Some x => x ∈ l ∧ ∀ y, y ∈ l → (x ≤ y)%Z
  end.
Proof.
  destruct l as [|x l]; [done|]. cbn. assert (∀ l x, (foldl Z.min x l ∈ x :: l) ∧ ∀ y, y ∈ x :: l → (foldl Z.min x l ≤ y)%Z) as Hg;
    [|apply Hg]. clear.
  intros l. induction l as [|z l IH]; intros x; cbn.
  - split; [by left|]. intros y ->%list_elem_of_singleton. lia.
  - destruct (IH (Z.min x z)) as [Hin Hle]. split.
    + apply elem_of_cons in Hin as [->|Hin]; [|by do 2 right].
      destruct (Z.min_spec x z) as [[_ ->]|[_ ->]]; set_solver.
    + assert (foldl Z.min (Z.min x z) l ≤ Z.min x z)%Z as Hm by (apply Hle; by left).
      intros y [->|[->|Hy]%elem_of_cons]%elem_of_cons; [lia|lia|]. apply Hle. by right.
Qed.

Lemma min_conflict_check_seq_spec m :
  match min_conflict_check_seq m with
  | None => active_txns m = ∅
  | Some x => (∃ id t, active_txns m !! id = Some t ∧ started_seq t = x) ∧
              ∀ id t, active_txns m !! id = Some t → (x ≤ started_seq t)%Z
  end.
Proof.
  unfold min_conflict_check_seq. pose proof (min_list_spec (started_seq <$> (map_to_list (active_txns m)).*2)) as Hs.
  destruct (min_list _) as [x|].
  - destruct Hs as [Hin Hle]. split.
    + apply list_elem_of_fmap in Hin as (t & -> & Hin). apply list_elem_of_fmap in Hin as ([id t'] & -> & Hin).
      apply elem_of_map_to_list in Hin. by exists id, t'.
    + intros id t Ht. apply Hle. apply list_elem_of_fmap. exists t. split; [done|].
      apply list_elem_of_fmap. exists (id, t). split; [done|]. by apply elem_of_map_to_list.
  - apply fmap_nil_inv, fmap_nil_inv in Hs. by apply map_to_list_empty_iff.
Qed.

Lemma assign_commit_seq_fresh seqnum o s o' :
  seq_room o → assign_commit_seq seqnum o = (Ok s, o') →
  (last_seq o < s)%Z ∧ last_seq o' = s ∧ last_committed_seq o' = last_committed_seq o.
Proof.
  unfold assign_commit_seq, seq_room. intros Ho.
  destruct (0 <? seqnum)%Z; [destruct (seqnum <=? last_seq o)%Z eqn:Hle; [done|]|]; cbn; intros [= <- <-]; cbn.
  - lia.
  - rewrite wrap_small by lia. lia.
Qed.

Lemma update_active_inv id f m h :
  (∀ t, started_seq (f t) = started_seq t ∧ committed_seq (f t) = committed_seq t) →
  manager_inv m h → manager_inv (update_active id f m) h.
Proof.
  intros Hf Hinv. unfold update_active. destruct (active_txns m !! id) as [t|] eqn:Ht; [|done].
  destruct (Hf t) as [Hs Hc]. destruct Hinv as [Ho Ha Hr Hh Hcm Hi Hord Hiso]. split; cbn; try done.
  - intros id' t'. destruct (decide (id = id')) as [->|Hne].
    + rewrite lookup_insert. rewrite decide_True by done. intros [= <-]. rewrite Hs, Hc. by apply (Ha id').
    + rewrite lookup_insert_ne by done. apply Ha.
  - intros c id' t' Hin. destruct (decide (id = id')) as [->|Hne].
    + rewrite lookup_insert. rewrite decide_True by done. intros [= <-]. rewrite Hs. by apply (Hcm c id').
    + rewrite lookup_insert_ne by done. by apply Hcm.
  - intros E. by apply insert_non_empty in E.
Qed.

Lemma new_transaction_inv id m h : manager_inv m h → manager_inv (new_transaction id m).2 h.
Proof.
  intros [Ho Ha Hr Hh Hcm Hi Hord Hiso]. split; cbn; try done.
  - intros id' t'. destruct (decide (id = id')) as [->|Hne].
    + rewrite lookup_insert, decide_True by done. intros [= <-]. cbn. split; [done|lia].
    + rewrite lookup_insert_ne by done. apply Ha.
  - intros c id' t' Hin. destruct (decide (id = id')) as [->|Hne].
    + rewrite lookup_insert, decide_True by done. intros [= <-]. cbn. specialize (Hh c Hin). lia.
    + rewrite lookup_insert_ne by done. by apply Hcm.
  - intros E. by apply insert_non_empty in E.
Qed.

Lemma set_oracle_inv o m h :
  (last_seq (oracle m) ≤ last_seq o)%Z → last_committed_seq o = last_committed_seq (oracle m) →
  manager_inv m h → manager_inv (set_oracle o m) h.
Proof. intros Hl Hc [Ho Ha Hr Hh Hcm Hi Hord Hiso]. split; cbn; rewrite ?Hc; try done; lia. Qed.

Lemma drop_txn_inv id m h : manager_inv m h → manager_inv (drop_txn id m) h.
Proof.
  intros [Ho Ha Hr Hh Hcm Hi Hord Hiso].
  unfold drop_txn, recycle_recent_committed_txns. cbn [active_txns recent_committed_txns oracle].
  set (m' := mkTxnManager (delete id (active_txns m)) (recent_committed_txns m) (oracle m)).
  assert (∀ id' t, active_txns m' !! id' = Some t → active_txns m !! id' = Some t) as Hsub.
  { intros id' t. cbn. rewrite lookup_delete_Some. by intros [_ ?]. }
  pose proof (min_conflict_check_seq_spec m') as Hmin. destruct (min_conflict_check_seq m') as [x|].
  - split; cbn; try done.
    + intros id' t Ht. by apply (Ha id'), Hsub.
    + intros t Ht. apply list_elem_of_filter in Ht as [_ Ht]. by apply Hr.
    + intros c id' t Hc Ht Hlt. destruct (Hcm c id' t Hc (Hsub _ _ Ht) Hlt) as (r & Hr' & Hs & Hw).
      exists r. split; [|done]. apply list_elem_of_filter. split; [|done]. rewrite Hs.
      destruct Hmin as [_ Hmin]. specialize (Hmin _ _ Ht). lia.
    + intros E. destruct Hmin as [(id' & t & Ht & _) _]. cbn in Ht. by rewrite E in Ht.
  - split; cbn; try done.
    + intros id' t Ht. by apply (Ha id'), Hsub.
    + set_solver.
    + intros c id' t Hc Ht. cbn in Hmin. by rewrite Hmin in Ht.
Qed.

Lemma publish_inv m h active' t c :
  manager_inv m h →
  (∀ id t, active' !! id = Some t → active_txns m !! id = Some t) →
  committed_seq t = Some (c_seq c) → write_keys t = c_writes c →
  (last_committed_seq (oracle m) < c_seq c ≤ last_seq (oracle m))%Z →
  (∀ a, a ∈ h → (c_started c < c_seq a)%Z → ¬ overlaps (c_writes c) (c_reads c) (c_ranges c) a) →
  manager_inv (advance_committed (c_seq c)
    (track_recent_committed_state t (mkTxnManager active' (recent_committed_txns m) (oracle m)))) (h ++ [c]).
Proof.
  intros [Ho Ha Hr Hh Hcm Hi Hord Hiso] Hsub Hs Hw Hlt Hnew.
  unfold track_recent_committed_state. cbn [active_txns recent_committed_txns oracle].
  set (m' := mkTxnManager active' (recent_committed_txns m ++ [t]) (oracle m)).
  assert (StronglySorted (λ a b, c_seq a < c_seq b)%Z (h ++ [c])) as Hord'.
  { apply StronglySorted_app. split_and!; [|done|by repeat constructor].
    intros a b Hin ->%list_elem_of_singleton. specialize (Hh a Hin). lia. }
  assert (∀ a b, a ∈ h ++ [c] → b ∈ h ++ [c] → (c_started b < c_seq a < c_seq b)%Z →
    ¬ overlaps (c_writes b) (c_reads b) (c_ranges b) a) as Hiso'.
  { intros a b [Hin| ->%list_elem_of_singleton]%elem_of_app [Hb| ->%list_elem_of_singleton]%elem_of_app Hc.
    - by apply Hiso.
    - apply Hnew; [done|lia].
    - specialize (Hh b Hb). lia.
    - lia. }
  assert (∀ c', c' ∈ h ++ [c] → (c_seq c' ≤ Z.max (last_committed_seq (oracle m)) (c_seq c))%Z) as Hh'.
  { intros c' [Hin| ->%list_elem_of_singleton]%elem_of_app; [|lia]. specialize (Hh c' Hin). lia. }
  assert (∀ id t0, active' !! id = Some t0 →
    committed_seq t0 = None ∧ (started_seq t0 ≤ Z.max (last_committed_seq (oracle m)) (c_seq c))%Z) as Ha'.
  { intros id t0 Ht0. destruct (Ha id t0 (Hsub _ _ Ht0)). split; [done|lia]. }
  pose proof (min_conflict_check_seq_spec m') as Hmin. destruct (min_conflict_check_seq m') as [x|].
  - split; cbn; try done; [lia|..].
    + intros t0 [Hin| ->%list_elem_of_singleton]%elem_of_app.
      * destruct (Hr _ Hin) as (c' & Hc' & ?). exists c'. split; [set_solver|done].
      * exists c. split; [set_solver|done].
    + intros c' id t0 [Hin| ->%list_elem_of_singleton]%elem_of_app Ht0 Hst.
      * destruct (Hcm c' id t0 Hin (Hsub _ _ Ht0) Hst) as (r & Hr' & ?). exists r. split; [set_solver|done].
      * exists t. split; [set_solver|done].
    + intros E. destruct Hmin as [(id & t0 & Ht0 & _) _]. cbn in Ht0. by rewrite E in Ht0.
  - split; cbn; try done; [lia|set_solver|]. intros c' id t0 _ Ht0. cbn in Hmin. by rewrite Hmin in Ht0.
Qed.

Lemma step_inv st st' : step st st' → manager_inv st.1 st.2 → manager_inv st'.1 st'.2.
Proof.
  destruct 1 as [id m h Hf|id ks m h|id ks m h|id r m h|id t seqnum s o m h Ht Hroom Has Hck
    |id seqnum s o m h Hroom Has Hck|ks seqnum s o m h Hroom Has|id m h]; cbn [fst snd]; intros Hinv.
  - by apply new_transaction_inv.
  - by apply update_active_inv.
  - by apply update_active_inv.
  - by apply update_active_inv.
  - destruct (assign_commit_seq_fresh _ _ _ _ Hroom Has) as (Hfresh & Hls & Hlc).
    assert (manager_inv (set_oracle o m) h) as Hinv' by (apply set_oracle_inv; [lia|done|done]).
    destruct (check_has_conflict_ok _ h id t Hinv' Ht) as (b & Hb & Hiff). assert (b = false) as -> by congruence.
    unfold track_recent_committed_txn. cbn [active_txns set_oracle]. rewrite Ht.
    apply (publish_inv (set_oracle o m) h _ (mark_as_committed s t)
      (mkCommit (started_seq t) s (write_keys t) (read_keys t) (read_ranges t))); try done.
    + intros id' t'. rewrite lookup_delete_Some. by intros [_ ?].
    + cbn. pose proof (inv_oracle _ _ Hinv). lia.
    + cbn. intros a Hin Hlt Hov. assert (false = true) as [=]. apply Hiff. by exists a.
  - destruct (assign_commit_seq_fresh _ _ _ _ Hroom Has) as (Hfresh & Hls & Hlc).
    apply set_oracle_inv; [lia|done|done].
  - destruct (assign_commit_seq_fresh _ _ _ _ Hroom Has) as (Hfresh & Hls & Hlc).
    assert (manager_inv (set_oracle o m) h) as Hinv' by (apply set_oracle_inv; [lia|done|done]).
    apply (publish_inv (set_oracle o m) h _ (mkTxn s (Some s) ks ∅ []) (mkCommit s s ks ∅ [])); try done.
    + cbn. pose proof (inv_oracle _ _ Hinv). lia.
    + cbn. intros a Hin Hlt. pose proof (inv_history _ _ Hinv a Hin). pose proof (inv_oracle _ _ Hinv). lia.
  - by apply drop_txn_inv.
Qed.

(** A new manager over an oracle that has committed no more than it has assigned. *)
Definition initial (st : TransactionManager * list commit) : Prop :=
  ∃ o, st = (txn_manager_new o, []) ∧ (last_committed_seq o ≤ last_seq o)%Z.

Definition reachable (st : TransactionManager * list commit) : Prop :=
  ∃ st0, initial st0 ∧ rtc step st0 st.

Lemma reachable_inv m h : reachable (m, h) → manager_inv m h.
Proof.
  intros (st0 & (o & -> & Ho) & Hsteps).
  assert (manager_inv (txn_manager_new o) []) as H0.
  { split; cbn; try done; try set_solver. constructor. }
  assert (∀ st, rtc step (txn_manager_new o, []) st → manager_inv st.1 st.2) as Hg; [|by apply (Hg (m, h))].
  clear m h Hsteps. intros st. apply (rtc_ind_r (λ st, manager_inv st.1 st.2)); [done|].
  intros st1 st2 _ Hstep. by apply step_inv.
Qed.

(** C30: Conflict detection is exact. In every reachable state the check of an active transaction
    returns (no committed state lacks its sequence number), and it reports a conflict exactly when
    some transaction or write batch that committed after this one started wrote a key it has
    written, read, or scanned over, however many committed states have been recycled since. *)
Theorem conflict_detection_exact m h id t :
  reachable (m, h) → active_txns m !! id = Some t →
  ∃ b, check_has_conflict id m = Ok b ∧
    (b = true ↔ ∃ c, c ∈ h ∧ (started_seq t < c_seq c)%Z ∧ overlaps (write_keys t) (read_keys t) (read_ranges t) c).
Proof. intros Hr. apply check_has_conflict_ok. by apply reachable_inv. Qed.


(** Recycling is effective. In a reachable state with no active transaction no committed state
    is held, and dropping a transaction leaves only committed states at or above the start of the
    oldest active one. *)
Theorem recycling_effective m h :
  reachable (m, h) →
  (active_txns m = ∅ → recent_committed_txns m = []) ∧
  (∀ id r, r ∈ recent_committed_txns (drop_txn id m) →
    ∃ id' t s, active_txns (drop_txn id m) !! id' = Some t ∧ committed_seq r = Some s ∧ (started_seq t ≤ s)%Z).
Proof.
  intros Hr. pose proof (reachable_inv _ _ Hr) as Hinv. split; [apply Hinv|]. intros id r.
  unfold drop_txn, recycle_recent_committed_txns. cbn [active_txns recent_committed_txns oracle].
  set (m' := mkTxnManager _ _ _). pose proof (min_conflict_check_seq_spec m') as Hmin.
  destruct (min_conflict_check_seq m') as [x|]; cbn; [|set_solver].
  intros [Hx Hin]%list_elem_of_filter. destruct (inv_recent _ _ Hinv r Hin) as (c & _ & Hs & _).
  rewrite Hs in Hx. destruct Hmin as [(id' & t & Ht & <-) _]. exists id', t, (c_seq c).
  split_and!; [done|done|lia].
Qed.

(** ** A run: a transaction that starts at 5, a batch on [b] that commits at 6, and the
    transaction's commit of [a] at 7. *)

Definition run0 : TransactionManager := txn_manager_new (mkOracle 5 5 5).
Definition run1 : TransactionManager := (new_transaction 1%Z run0).2.
Definition run2 : TransactionManager := track_write_keys 1%Z {[ [97%Z] ]} run1.
Definition run3 : TransactionManager :=
  track_recent_committed_write_batch {[ [98%Z] ]} 6 (set_oracle (mkOracle 6 5 5) run2).
Definition run4 : TransactionManager := track_recent_committed_txn 1%Z 7 (set_oracle (mkOracle 7 6 5) run3).

Definition commit_b : commit := mkCommit 6 6 {[ [98%Z] ]} ∅ [].
Definition commit_a : commit := mkCommit 5 7 (∅ ∪ {[ [97%Z] ]}) ∅ [].

Lemma run3_reachable : reachable (run3, [commit_b]).
Proof.
  exists (run0, []). split; [by exists (mkOracle 5 5 5)|].
  eapply rtc_l; [apply (step_begin 1%Z run0); reflexivity|].
  eapply rtc_l; [apply (step_write 1%Z {[ [97%Z] ]} run1)|].
  eapply rtc_l; [apply (step_batch {[ [98%Z] ]} 0 6 (mkOracle 6 5 5) run2); [|reflexivity]|].
  - split; vm_compute; congruence.
  - apply rtc_refl.
Qed.

Lemma run4_reachable : reachable (run4, [commit_b; commit_a]).
Proof.
  destruct run3_reachable as (st0 & Hi & Hs). exists st0. split; [done|].
  eapply rtc_r; [exact Hs|]. unfold run4.
  eassert (Hst : _); [|exact Hst].
  refine (step_commit 1%Z (mkTxn 5 None (∅ ∪ {[ [97%Z] ]}) ∅ []) 0 7 (mkOracle 7 6 5) run3 [commit_b] _ _ _ _).
  - vm_compute. reflexivity.
  - split; vm_compute; congruence.
  - reflexivity.
  - vm_compute. reflexivity.
Qed.

Lemma conflict_detection_exact_witness :
  ∃ b, check_has_conflict 1%Z run3 = Ok b ∧
    (b = true ↔ ∃ c, c ∈ [commit_b] ∧ (5 < c_seq c)%Z ∧ overlaps (∅ ∪ {[ [97%Z] ]}) ∅ [] c).
Proof.
  eassert (Hc : _);
    [exact (conflict_detection_exact run3 [commit_b] 1%Z (mkTxn 5 None (∅ ∪ {[ [97%Z] ]}) ∅ []) run3_reachable eq_refl)|].
  exact Hc.
Defined.


Lemma recycling_effective_witness :
  (active_txns run4 = ∅ → recent_committed_txns run4 = []) ∧
  (∀ id r, r ∈ recent_committed_txns (drop_txn id run4) →
    ∃ id' t s, active_txns (drop_txn id run4) !! id' = Some t ∧ committed_seq r = Some s ∧ (started_seq t ≤ s)%Z).
Proof. apply (recycling_effective run4 [commit_b; commit_a]). exact run4_reachable. Defined.

(** ** What holds back retention *)

(** The sequence numbers reported to the compactor. [min_active_seq] of the transactions, and of
    the snapshots, is [None] exactly when there is none, and otherwise the start of an active one
    that no active one precedes. *)
Theorem min_active_seq_least (m : TransactionManager) (sm : SnapshotManager) :
  match min_active_seq m with
  | None => active_txns m = ∅
  | Some x => (∃ id t, active_txns m !! id = Some t ∧ started_seq t = x) ∧
              ∀ id t, active_txns m !! id = Some t → (x ≤ started_seq t)%Z
  end ∧
  match snapshot_min_active_seq sm with
  | None => active_snapshots sm = ∅
  | Some x => (∃ id, active_snapshots sm !! id = Some x) ∧
              ∀ id s, active_snapshots sm !! id = Some s → (x ≤ s)%Z
  end.
Proof.
  split; [exact (min_conflict_check_seq_spec m)|].
  unfold snapshot_min_active_seq. pose proof (min_list_spec ((map_to_list (active_snapshots sm)).*2)) as Hs.
  destruct (min_list _) as [x|].
  - destruct Hs as [Hin Hle]. split.
    + apply list_elem_of_fmap in Hin as ([id s] & -> & Hin). exists id. by apply elem_of_map_to_list in Hin.
    + intros id s Hs. apply Hle, list_elem_of_fmap. exists (id, s). split; [done|]. by apply elem_of_map_to_list.
  - apply fmap_nil_inv in Hs. by apply map_to_list_empty_iff.
Qed.
