(* ===== verification/Segments.v ===== *)
(** * Segment prefixes ([db_common.rs], [batch_write.rs], [mem_table.rs], [manifest/mod.rs])

    A segmented database routes every key by a prefix; the prefixes in use form an
    antichain: none is a proper prefix of another.  Every check looks at sort-order
    neighbours only.  [PrefixExtractor] is supplied by the application: a parameter. *)

From S2P Require Export OrdMap Types.

Inductive PrefixTarget := Point (key : bytes) | Prefix (prefix : bytes).

Class PrefixExtractor := {
  extractor_name : string;
  prefix_len : PrefixTarget → option nat;
}.

(** [extract_segment_prefix]; a length beyond the key makes the slice panic. *)
Definition extract_segment_prefix `{PrefixExtractor} (key : bytes) : result bytes :=
  match prefix_len (Point key) with
  | Some O | None => Err (EmptySegmentPrefix key)
  | Some n => if decide (n ≤ length key) then mret (take n key) else Panic
  end.

(** [[u8]::starts_with] *)
Definition starts_with (k p : bytes) : bool := bool_decide (p `prefix_of` k).

(** [check_batch_antichain]: every adjacent pair of the sorted set. *)
Fixpoint check_adjacent (prev : option bytes) (prefixes : BTreeSet bytes) : result unit :=
  match prefixes with
  | [] => mret ()
  | cur :: prefixes =>
      match prev with
      | Some p => if starts_with cur p then Err (InvalidSegmentPrefix cur p) else check_adjacent (Some cur) prefixes
      | None => check_adjacent (Some cur) prefixes
      end
  end.

Definition check_batch_antichain (prefixes : BTreeSet bytes) : result unit := check_adjacent None prefixes.

(** [KVTable::ensure_valid_segment] on the set of touched segments. *)
Definition ensure_valid_segment (touched : BTreeSet bytes) (prefix : bytes) : result bool :=
  if decide (touched = []) then mret false
  else
    let after :=
      match bs_above prefix touched with
      | Some succ => if starts_with succ prefix then Err (InvalidSegmentPrefix prefix succ) else mret false
      | None => mret false
      end in
    match bs_floor prefix touched with
    | Some pred =>
        if decide (pred = prefix) then mret true
        else if starts_with prefix pred then Err (InvalidSegmentPrefix prefix pred)
        else after
    | None => after
    end.

(** [check_segment_prefix_antichain] of [batch_write.rs]: the prefixes still to be validated
    against older tables. *)
Fixpoint exact_members (touched : BTreeSet bytes) (prefixes : list bytes) : result (list bytes) :=
  match prefixes with
  | [] => mret []
  | c :: prefixes =>
      b ← ensure_valid_segment touched c;
      l ← exact_members touched prefixes;
      mret (if (b : bool) then c :: l else l)
  end.

Definition check_remaining (remaining : BTreeSet bytes) (touched : BTreeSet bytes) : result (BTreeSet bytes) :=
  to_remove ← exact_members touched remaining;
  mret (filter (λ c, c ∉ to_remove) remaining).

(** [ManifestCore::check_segment_prefix_antichain] on the sorted prefixes of the segments. *)
Definition core_check_segment_prefix (segments : list bytes) (candidate : bytes) : result unit :=
  match binary_search_by (λ s, cmp s candidate) segments with
  | inl _ => mret ()
  | inr idx =>
      let before :=
        if decide (0 < idx) then
          pred ← index segments (idx - 1);
          if starts_with candidate pred then Err (InvalidSegmentPrefix candidate pred) else mret ()
        else mret () in
      match segments !! idx with
      | Some succ => if starts_with succ candidate then Err (InvalidSegmentPrefix candidate succ) else before
      | None => before
      end
  end.

(** The sources [DbInner::validate_segment_antichain] consults in turn: the active memtable, the
    immutable ones, then the manifest. *)
Fixpoint check_tables (remaining : BTreeSet bytes) (tables : list (BTreeSet bytes)) : result (BTreeSet bytes) :=
  match tables with
  | [] => mret remaining
  | t :: tables =>
      remaining ← check_remaining remaining t;
      if decide (remaining = []) then mret [] else check_tables remaining tables
  end.

Fixpoint check_core (segments : list bytes) (remaining : BTreeSet bytes) : result unit :=
  match remaining with
  | [] => mret ()
  | c :: remaining => _ ← core_check_segment_prefix segments c; check_core segments remaining
  end.

(** [DbInner::validate_segment_antichain] *)
Definition validate_segment_antichain (batch_prefixes : BTreeSet bytes) (memtable : BTreeSet bytes)
    (imms : list (BTreeSet bytes)) (segments : list bytes) : result unit :=
  if decide (batch_prefixes = []) then mret ()
  else
    _ ← check_batch_antichain batch_prefixes;
    remaining ← check_tables batch_prefixes (memtable :: imms);
    check_core segments remaining.

(** ** Antichains *)

Definition nested (p q : bytes) : Prop := p `prefix_of` q ∧ p ≠ q.
Definition antichain (s : list bytes) : Prop := ∀ p q, p ∈ s → q ∈ s → ¬ nested p q.
Definition fits (s : list bytes) (c : bytes) : Prop := ∀ p, p ∈ s → ¬ nested p c ∧ ¬ nested c p.

Lemma nested_lt p q : nested p q → p ≺ q.
Proof.
  intros [[e ->] Hne]. destruct (proj1 (ord_le_alt p (p ++ e)) (prefix_le p e)) as [|E]; [done|].
  exfalso. by apply Hne.
Qed.

Lemma nested_between p q x : nested p q → p ≼ x → x ≼ q → p `prefix_of` x.
Proof. intros [[e ->] _]. apply sandwich_app. Qed.

Lemma starts_with_spec k p : starts_with k p = true ↔ p `prefix_of` k.
Proof. apply bool_decide_eq_true. Qed.

(** A prefix below every element of a sorted list nests with one of them only if it nests with
    the first. *)
Lemma nested_first p c s q :
  bs_ok (p :: c :: s) → q ∈ c :: s → nested p q → nested p c.
Proof.
  intros Hs Hq Hn. apply StronglySorted_inv in Hs as [Hs Hp]. apply Forall_cons in Hp as [Hpc _].
  split; [|intros E; rewrite E in Hpc; by apply ord_lt_irrefl in Hpc].
  eapply nested_between; [exact Hn|by apply ord_lt_le|].
  apply elem_of_cons in Hq as [->|Hq]; [apply ord_le_refl|].
  apply StronglySorted_inv in Hs as [_ HF]. rewrite Forall_forall in HF. by apply ord_lt_le, HF.
Qed.

Lemma check_adjacent_spec p s :
  bs_ok (p :: s) →
  match check_adjacent (Some p) s with
  | Ok _ => antichain (p :: s)
  | Err e => ∃ a b, e = InvalidSegmentPrefix b a ∧ a ∈ p :: s ∧ b ∈ p :: s ∧ nested a b
  | _ => False
  end.
Proof.
  revert p. induction s as [|c s IH]; intros p Hs; cbn [check_adjacent].
  { intros a b ->%list_elem_of_singleton ->%list_elem_of_singleton [_ Hn]. by apply Hn. }
  pose proof Hs as Hs'. apply StronglySorted_inv in Hs' as [Hs' Hp].
  pose proof (proj1 (proj1 (Forall_cons _ _ _) Hp)) as Hpc.
  destruct (starts_with c p) eqn:Hst.
  - apply starts_with_spec in Hst. exists p, c. split_and!; [done|set_solver..|].
    split; [done|]. intros E. rewrite E in Hpc. by apply ord_lt_irrefl in Hpc.
  - specialize (IH c Hs'). destruct (check_adjacent (Some c) s) as [u|e| |]; [|set_solver|done|done].
    intros a b Ha Hb Hn. pose proof (nested_lt _ _ Hn) as Hlt.
    apply elem_of_cons in Ha as [->|Ha]; apply elem_of_cons in Hb as [Hb|Hb].
    + subst. by apply (ord_lt_irrefl p).
    + destruct (nested_first p c s b Hs Hb Hn) as [Hpre _]. apply starts_with_spec in Hpre. congruence.
    + subst b. rewrite Forall_forall in Hp. specialize (Hp a Ha). apply (ord_lt_irrefl p). exact (ord_lt_trans p a p Hp Hlt).
    + by apply (IH a b).
Qed.

Lemma check_batch_antichain_spec s :
  bs_ok s →
  match check_batch_antichain s with
  | Ok _ => antichain s
  | Err e => ∃ a b, e = InvalidSegmentPrefix b a ∧ a ∈ s ∧ b ∈ s ∧ nested a b
  | _ => False
  end.
Proof.
  intros Hs. unfold check_batch_antichain. destruct s as [|p s]; cbn [check_adjacent].
  - intros a b Ha. set_solver.
  - by apply check_adjacent_spec.
Qed.

(** The outcome of checking [c] against a set: exact member, disjoint, or the conflict. *)
Definition neighbour_check (s : list bytes) (c : bytes) (r : result bool) : Prop :=
  match r with
  | Ok true => c ∈ s
  | Ok false => c ∉ s ∧ fits s c
  | Err e => ∃ p, e = InvalidSegmentPrefix c p ∧ p ∈ s ∧ (nested p c ∨ nested c p)
  | _ => False
  end.

(** The largest element below [c] and the smallest above it decide. *)
Lemma neighbours_decide s c :
  antichain s → c ∉ s →
  (∀ p, p ∈ s → p ≺ c → ∃ pred, pred ∈ s ∧ p ≼ pred ∧ pred ≺ c ∧ ¬ pred `prefix_of` c) →
  (∀ p, p ∈ s → c ≺ p → ∃ succ, succ ∈ s ∧ succ ≼ p ∧ c ≺ succ ∧ ¬ c `prefix_of` succ) →
  fits s c.
Proof.
  intros Ha Hc Hlow Hhigh p Hp. split; intros Hn; pose proof (nested_lt _ _ Hn) as Hlt.
  - destruct (Hlow p Hp Hlt) as (pred & Hpred & Hle & Hlt' & Hno).
    assert (p `prefix_of` pred) as Hpp by (eapply nested_between; [done|done|by apply ord_lt_le]).
    destruct (decide (p = pred)) as [->|Hne]; [by apply Hno, Hn|]. by apply (Ha p pred).
  - destruct (Hhigh p Hp Hlt) as (succ & Hsucc & Hle & Hlt' & Hno). apply Hno.
    eapply nested_between; [exact Hn|by apply ord_lt_le|done].
Qed.

Lemma ensure_valid_segment_spec touched c :
  bs_ok touched → antichain touched → neighbour_check touched c (ensure_valid_segment touched c).
Proof.
  intros Hs Ha. unfold ensure_valid_segment. destruct (decide (touched = [])) as [->|_].
  { split; [set_solver|]. intros p. set_solver. }
  pose proof (bs_floor_spec c touched Hs) as Hf. pose proof (bs_above_spec c touched Hs) as Hb.
  assert ((∀ p, p ∈ touched → p ≺ c → ∃ pred, pred ∈ touched ∧ p ≼ pred ∧ pred ≺ c ∧ ¬ pred `prefix_of` c) → c ∉ touched →
    neighbour_check touched c
      match bs_above c touched with
      | Some succ => if starts_with succ c then Err (InvalidSegmentPrefix c succ) else mret false
      | None => mret false
      end) as Hafter.
  { intros Hlow Hnin. destruct (bs_above c touched) as [succ|].
    - destruct Hb as (Hin & Hlt & Hleast). destruct (starts_with succ c) eqn:Hst.
      + exists succ. split; [done|]. split; [done|]. right. split; [by apply starts_with_spec|].
        intros E. rewrite E in Hlt. by apply ord_lt_irrefl in Hlt.
      + split; [done|]. apply neighbours_decide; [done|done|exact Hlow|]. intros p Hp Hcp. exists succ.
        split_and!; [done|by apply Hleast|done|]. intros Hpre. apply starts_with_spec in Hpre. congruence.
    - split; [done|]. apply neighbours_decide; [done|done|exact Hlow|]. intros p Hp Hcp.
      exfalso. specialize (Hb p Hp). revert Hb Hcp. ord. }
  destruct (bs_floor c touched) as [pred|].
  - destruct Hf as (Hin & Hle & Hgreatest). destruct (decide (pred = c)) as [->|Hne]; [done|].
    assert (pred ≺ c) as Hlt by (apply ord_le_alt in Hle as [|]; done).
    destruct (starts_with c pred) eqn:Hst.
    + exists pred. split; [done|]. split; [done|]. left. split; [by apply starts_with_spec|done].
    + apply Hafter.
      * intros p Hp Hpc. exists pred. split_and!; [done|apply Hgreatest; [done|by apply ord_lt_le]|done|].
        intros Hpre. apply starts_with_spec in Hpre. congruence.
      * intros Hc. apply Hne. apply ord_le_antisym; [done|]. apply Hgreatest; [done|apply ord_le_refl].
  - apply Hafter.
    + intros p Hp Hpc. exfalso. apply (ord_lt_irrefl p). eapply ord_lt_trans; [exact Hpc|by apply Hf].
    + intros Hc. by apply (ord_lt_irrefl c), Hf.
Qed.

(** The outcome of checking [c] against a set in which an exact member is accepted. *)
Definition member_or_fits (s : list bytes) (c : bytes) (r : result unit) : Prop :=
  match r with
  | Ok _ => c ∈ s ∨ fits s c
  | Err e => ∃ p, e = InvalidSegmentPrefix c p ∧ p ∈ s ∧ (nested p c ∨ nested c p)
  | _ => False
  end.

Lemma core_check_spec segments c :
  bs_ok segments → antichain segments → member_or_fits segments c (core_check_segment_prefix segments c).
Proof.
  intros Hs Ha. unfold core_check_segment_prefix.
  pose proof (binary_search_by_spec (λ s, cmp s c) segments (sorted_partitioned _ c Hs)) as Hb.
  destruct (binary_search_by _ segments) as [i|idx].
  { destruct Hb as (x & Hx & Heq%cmp_eq). subst x. left. by eapply list_elem_of_lookup_2. }
  destruct Hb as (Hidx & Hlow & Hhigh).
  assert (∀ p, p ∈ segments → p ≺ c ∨ c ≺ p) as Hside.
  { intros p [j Hj]%list_elem_of_lookup_1. destruct (decide (j < idx)); [left; by eapply Hlow|right].
    unfold ord_lt. rewrite cmp_opp, (Hhigh j p) by (lia || done). done. }
  assert (c ∉ segments) as Hnin by (intros Hc; by destruct (Hside c Hc) as [H|H]; apply ord_lt_irrefl in H).
  assert (∀ j x k y, segments !! j = Some x → segments !! k = Some y → j ≤ k → x ≼ y) as Hmono.
  { clear -Hs. unfold bs_ok in Hs. induction Hs as [|a l Hs IH HF]; intros [|j] x [|k] y Hx Hy Hjk; cbn in *; try done; try lia.
    - simplify_eq. apply ord_le_refl.
    - simplify_eq. rewrite Forall_forall in HF. apply ord_lt_le, HF. by eapply list_elem_of_lookup_2.
    - apply (IH j x k y); [done..|lia]. }
  set (before := if decide (0 < idx) then _ else _).
  assert ((∀ p, p ∈ segments → c ≺ p → ∃ succ, succ ∈ segments ∧ succ ≼ p ∧ c ≺ succ ∧ ¬ c `prefix_of` succ) →
    member_or_fits segments c before) as Hbefore.
  { intros Hup. unfold before. destruct (decide (0 < idx)) as [Hpos|Hzero].
    - destruct (lookup_lt_is_Some_2 segments (idx - 1)) as [pred Hpred]; [lia|].
      unfold index. rewrite Hpred. run. pose proof (Hlow (idx - 1) pred ltac:(lia) Hpred) as Hlt. cbn in Hlt.
      destruct (starts_with c pred) eqn:Hst.
      + exists pred. split; [done|]. split; [by eapply list_elem_of_lookup_2|]. left.
        split; [by apply starts_with_spec|]. intros E. rewrite E in Hlt. by rewrite cmp_refl in Hlt.
      + right. apply neighbours_decide; [done|done| |exact Hup]. intros p [j Hj]%list_elem_of_lookup_1 Hpc. exists pred.
        split_and!; [by eapply list_elem_of_lookup_2| |done|].
        * apply (Hmono j p (idx - 1) pred Hj Hpred). destruct (decide (j < idx)); [lia|].
          pose proof (Hhigh j p ltac:(lia) Hj) as Hg. unfold ord_lt in Hpc. congruence.
        * intros Hpre. apply starts_with_spec in Hpre. congruence.
    - right. apply neighbours_decide; [done|done| |exact Hup]. intros p [j Hj]%list_elem_of_lookup_1 Hpc.
      pose proof (Hhigh j p ltac:(lia) Hj) as Hg. unfold ord_lt in Hpc. congruence. }
  destruct (segments !! idx) as [succ|] eqn:Hsucc.
  - assert (c ≺ succ) as Hlt.
    { unfold ord_lt. rewrite cmp_opp, (Hhigh idx succ) by (lia || done). done. }
    destruct (starts_with succ c) eqn:Hst.
    + exists succ. split; [done|]. split; [by eapply list_elem_of_lookup_2|]. right.
      split; [by apply starts_with_spec|]. intros E. rewrite E in Hlt. by apply ord_lt_irrefl in Hlt.
    + apply Hbefore. intros p [j Hj]%list_elem_of_lookup_1 Hcp. exists succ.
      split_and!; [by eapply list_elem_of_lookup_2| |done|].
      * apply (Hmono idx succ j p Hsucc Hj). destruct (decide (j < idx)) as [Hji|]; [|lia].
        pose proof (Hlow j p Hji Hj) as Hg. exfalso. apply (ord_lt_irrefl c). by eapply ord_lt_trans.
      * intros Hpre. apply starts_with_spec in Hpre. congruence.
  - apply Hbefore. intros p [j Hj]%list_elem_of_lookup_1 Hcp. apply lookup_ge_None in Hsucc.
    pose proof (lookup_lt_Some _ _ _ Hj). pose proof (Hlow j p ltac:(lia) Hj) as Hg.
    exfalso. apply (ord_lt_irrefl c). by eapply ord_lt_trans.
Qed.

(** ** Validating a batch *)

(** Every error is a conflict between a batch prefix and another prefix in use. *)
Definition conflict_in (batch known : list bytes) (e : SlateDBError) : Prop :=
  ∃ c p, e = InvalidSegmentPrefix c p ∧ c ∈ batch ∧ p ∈ batch ++ known ∧ (nested p c ∨ nested c p).

Lemma exact_members_spec touched batch :
  bs_ok touched → antichain touched →
  match exact_members touched batch with
  | Ok l => ∀ c, c ∈ batch → fits touched c ∨ c ∈ touched ∧ c ∈ l
  | Err e => conflict_in batch touched e
  | _ => False
  end ∧
  match exact_members touched batch with Ok l => ∀ c, c ∈ l → c ∈ touched | _ => True end.
Proof.
  intros Hs Ha. induction batch as [|c batch IH]; cbn [exact_members]; [split; set_solver|].
  pose proof (ensure_valid_segment_spec touched c Hs Ha) as Hc.
  destruct (ensure_valid_segment touched c) as [b|e| |]; cbn in Hc; [|run|done|done].
  2:{ destruct Hc as (p & -> & Hp & Hn). split; [|done]. exists c, p. split_and!; [done|set_solver..|done]. }
  run. destruct (exact_members touched batch) as [l|e| |]; run; destruct IH as [IH1 IH2]; [|split; [|done]|done|done].
  - destruct b; split; intros x Hx.
    + apply elem_of_cons in Hx as [->|Hx]; [right; split; [done|by left]|].
      destruct (IH1 x Hx) as [|[? ?]]; [by left|right; split; [done|by right]].
    + apply elem_of_cons in Hx as [->|Hx]; [done|by apply IH2].
    + apply elem_of_cons in Hx as [->|Hx]; [left; apply Hc|by apply IH1].
    + by apply IH2.
  - destruct IH1 as (c' & p & -> & Hc' & Hp & Hn). exists c', p. split_and!; [done|set_solver..|done].
Qed.

Lemma antichain_mono s s' : (∀ x, x ∈ s → x ∈ s') → antichain s' → antichain s.
Proof. intros Hsub Ha p q Hp Hq. apply Ha; by apply Hsub. Qed.

Lemma conflict_in_mono batch batch' known known' e :
  (∀ x, x ∈ batch → x ∈ batch') → (∀ x, x ∈ known → x ∈ known') →
  conflict_in batch known e → conflict_in batch' known' e.
Proof.
  intros Hb Hk (c & p & -> & Hc & Hp & Hn). exists c, p. split_and!; [done|by apply Hb| |done].
  apply elem_of_app in Hp as [Hp|Hp]; apply elem_of_app; [left; by apply Hb|right; by apply Hk].
Qed.

Lemma check_tables_spec batch tables :
  Forall bs_ok tables → antichain (concat tables) →
  match check_tables batch tables with
  | Ok remaining => (∀ c, c ∈ remaining → c ∈ batch) ∧
      ∀ c, c ∈ batch → c ∈ remaining ∧ fits (concat tables) c ∨ c ∈ concat tables
  | Err e => conflict_in batch (concat tables) e
  | _ => False
  end.
Proof.
  revert batch. induction tables as [|t tables IH]; intros batch Hs Ha; cbn [check_tables concat].
  { split; [done|]. intros c Hc. left. split; [done|]. intros p. set_solver. }
  apply Forall_cons in Hs as [Hst Hs].
  assert (antichain t ∧ antichain (concat tables)) as [Hat Ha'].
  { split; (eapply antichain_mono; [|exact Ha]); set_solver. }
  destruct (exact_members_spec t batch Hst Hat) as [Hex Hin]. unfold check_remaining.
  destruct (exact_members t batch) as [l|e| |]; run; [|eapply conflict_in_mono; [done| |exact Hex]; set_solver|done|done].
  set (rem := filter (λ c, c ∉ l) batch).
  assert (∀ c, c ∈ batch → c ∈ rem ∧ fits t c ∨ c ∈ t) as Hrem.
  { intros c Hc. destruct (decide (c ∈ l)) as [Hl|Hl]; [right; by apply Hin|].
    destruct (Hex c Hc) as [Hf|[_ ?]]; [|done]. left. split; [|done]. by apply list_elem_of_filter. }
  assert (∀ c, c ∈ rem → c ∈ batch) as Hsub by (intros c [_ ?]%list_elem_of_filter; done).
  assert (∀ rem' : list bytes, (∀ c, c ∈ rem → c ∈ rem' ∧ fits (concat tables) c ∨ c ∈ concat tables) →
    ∀ c, c ∈ batch → c ∈ rem' ∧ fits (t ++ concat tables) c ∨ c ∈ t ++ concat tables) as Hstep.
  { intros rem' Hr c Hc. destruct (Hrem c Hc) as [[Hcr Hf]|?]; [|right; set_solver].
    destruct (Hr c Hcr) as [[? Hf']|?]; [|right; set_solver]. left. split; [done|].
    intros p [Hp|Hp]%elem_of_app; [by apply Hf|by apply Hf']. }
  destruct (decide (rem = [])) as [Hnil|_].
  - split; [set_solver|]. apply Hstep. rewrite Hnil. set_solver.
  - specialize (IH rem Hs Ha'). destruct (check_tables rem tables) as [rem'|e| |]; [| |done|done].
    + destruct IH as [IH1 IH2]. split; [intros c Hc; by apply Hsub, IH1|]. by apply Hstep.
    + eapply conflict_in_mono; [exact Hsub| |exact IH]. set_solver.
Qed.

Lemma check_core_spec segments batch :
  bs_ok segments → antichain segments →
  match check_core segments batch with
  | Ok _ => ∀ c, c ∈ batch → c ∈ segments ∨ fits segments c
  | Err e => conflict_in batch segments e
  | _ => False
  end.
Proof.
  intros Hs Ha. induction batch as [|c batch IH]; cbn [check_core]; [set_solver|].
  pose proof (core_check_spec segments c Hs Ha) as Hc.
  destruct (core_check_segment_prefix segments c) as [u|e| |]; cbn in Hc; run; [| |done|done].
  - destruct (check_core segments batch) as [u'|e| |]; [| |done|done].
    + intros x [->|Hx]%elem_of_cons; [done|by apply IH].
    + eapply conflict_in_mono; [| |exact IH]; set_solver.
  - destruct Hc as (p & -> & Hp & Hn). exists c, p. split_and!; [done|set_solver..|done].
Qed.

(** Segment prefixes stay an antichain. When the prefixes of the memtable, of the immutable
    memtables and of the manifest's segments together form an antichain, the write-time validation
    of a batch, which looks only at sort-order neighbours, accepts it exactly when adding its
    prefixes keeps them all an antichain; a rejection names a batch prefix and a prefix it nests
    with, and the validation never panics. *)
Theorem segment_validation_exact batch memtable imms segments :
  bs_ok batch → Forall bs_ok (memtable :: imms) → bs_ok segments →
  let known := concat (memtable :: imms) ++ segments in
  antichain known →
  match validate_segment_antichain batch memtable imms segments with
  | Ok _ => antichain (batch ++ known)
  | Err e => conflict_in batch known e
  | _ => False
  end.
Proof.
  intros Hb Ht Hsg known Ha. unfold validate_segment_antichain.
  destruct (decide (batch = [])) as [->|_]; [done|].
  pose proof (check_batch_antichain_spec batch Hb) as Hba.
  destruct (check_batch_antichain batch) as [u|e| |]; run; [| |done|done].
  2:{ destruct Hba as (a & b & -> & Hia & Hib & Hn). exists b, a. split_and!; [done|done|set_solver|by left]. }
  assert (antichain (concat (memtable :: imms)) ∧ antichain segments) as [Hat Has].
  { split; (eapply antichain_mono; [|exact Ha]); unfold known; set_solver. }
  pose proof (check_tables_spec batch (memtable :: imms) Ht Hat) as Htab.
  destruct (check_tables batch (memtable :: imms)) as [rem|e| |]; run; [| |done|done].
  2:{ eapply conflict_in_mono; [done| |exact Htab]. unfold known. set_solver. }
  pose proof (check_core_spec segments rem Hsg Has) as Hco. destruct Htab as [Hsub Htab].
  destruct (check_core segments rem) as [u'|e| |]; [| |done|done].
  2:{ eapply conflict_in_mono; [exact Hsub| |exact Hco]. unfold known. set_solver. }
  assert (∀ c, c ∈ batch → c ∈ known ∨ fits known c) as Hfit.
  { intros c Hc. destruct (Htab c Hc) as [[Hr Hf]|?]; [|left; unfold known; set_solver].
    destruct (Hco c Hr) as [?|Hf']; [left; unfold known; set_solver|right].
    intros p [Hp|Hp]%elem_of_app; [by apply Hf|by apply Hf']. }
  intros p q [Hp|Hp]%elem_of_app [Hq|Hq]%elem_of_app.
  - by apply Hba.
  - destruct (Hfit p Hp) as [Hpk|Hf]; [by apply Ha|]. by apply (Hf q Hq).
  - destruct (Hfit q Hq) as [Hqk|Hf]; [by apply Ha|]. by apply (Hf p Hp).
  - by apply Ha.
Qed.

Lemma segment_validation_exact_witness :
  conflict_in [[97; 98]]%Z ([[99]] ++ [[97]])%Z (InvalidSegmentPrefix [97; 98]%Z [97%Z]).
Proof.
  apply (segment_validation_exact [[97; 98]]%Z [[99]]%Z [] [[97]]%Z); [repeat constructor..|].
  intros p q Hp Hq [Hpre Hne]. vm_compute in Hp, Hq.
  repeat first [apply elem_of_cons in Hp as [->|Hp] | by apply not_elem_of_nil in Hp];
  repeat first [apply elem_of_cons in Hq as [->|Hq] | by apply not_elem_of_nil in Hq];
    first [by apply Hne | destruct Hpre as [? [=]]].
Defined.
