(* ===== verification/MemTable.v ===== *)
(** * Memtables ([mem_table.rs])

    The ordered table of row versions that takes writes, its accounting, and its
    iterator in both directions.  The crossbeam [SkipMap] is an ordered map; an
    iterator ranges over the table as it was when the range was created. *)

From S2P Require Export Iter MergeIter MergeOperator Retention OrdMap SeqTracker Segments Types.

Record SequencedKey := mkSeqKey { user_key : bytes; sk_seq : Z }.

Global Instance SequencedKey_eq_dec : EqDecision SequencedKey.
Proof. solve_decision. Defined.

(** [SequencedKey::cmp]: by key, newest version first. *)
Global Instance SequencedKey_ord : Ord SequencedKey := λ a b,
  match cmp (user_key a) (user_key b) with
  | Eq => CompOpp (cmp (sk_seq a) (sk_seq b))
  | c => c
  end.

Definition U64_MAX : Z := 18446744073709551615.
Definition I64_MIN : Z := -9223372036854775808.

(** [KVTableInternalKeyRange::from] *)
Definition internal_range (s e : Bound bytes) : ComparableRange SequencedKey :=
  range_new
    match s with
    | Included k => Included (mkSeqKey k U64_MAX)
    | Excluded k => Excluded (mkSeqKey k 0)
    | Unbounded => Unbounded
    end
    match e with
    | Included k => Included (mkSeqKey k 0)
    | Excluded k => Excluded (mkSeqKey k U64_MAX)
    | Unbounded => Unbounded
    end.

Record KVTable := mkTable {
  table_map : BTreeMap SequencedKey RowEntry;
  entries_size_in_bytes : Z;
  last_tick : Z;
  table_last_seq : Z;
  table_first_seq : Z;
  table_sequence_tracker : SequenceTracker;
  touched_segments : BTreeSet bytes;
}.

(** [KVTable::new] *)
Definition table_new : KVTable := mkTable [] 0 I64_MIN 0 U64_MAX tracker_new [].

(** [KVTable::put_inner]; the entry handle it returns is the position of the internal key. *)
Definition put_inner (t : KVTable) (row : RowEntry) : KVTable :=
  let internal_key := mkSeqKey (key row) (seq row) in
  let row_size := Z.of_nat (estimated_size row) in
  let size :=
    match bm_get internal_key (table_map t) with
    | Some previous =>
        wrap 64 (wrap 64 (entries_size_in_bytes t - Z.of_nat (estimated_size previous)) + row_size)
    | None => wrap 64 (entries_size_in_bytes t + row_size)
    end in
  mkTable (bm_insert internal_key row (table_map t)) size
    (match create_ts row with Some ts => Z.max (last_tick t) ts | None => last_tick t end)
    (Z.max (table_last_seq t) (seq row)) (Z.min (table_first_seq t) (seq row))
    (table_sequence_tracker t) (touched_segments t).

(** [KVTable::put] *)
Definition table_put (t : KVTable) (row : RowEntry) : KVTable := put_inner t row.

(** [Entry::next] *)
Definition bm_after {V} (k : SequencedKey) (m : BTreeMap SequencedKey V) : option (SequencedKey * V) :=
  head (filter (λ b, k ≺ b.1) m).

(** [KVTable::put_and_prune_overwritten] *)
Definition put_and_prune_overwritten (t : KVTable) (row : RowEntry) : KVTable :=
  let t := put_inner t row in
  if is_merge (value row) then t
  else
    match bm_after (mkSeqKey (key row) (seq row)) (table_map t) with
    | Some (k, older) =>
        if decide (user_key k = key row) then
          mkTable (bm_remove k (table_map t))
            (wrap 64 (entries_size_in_bytes t - Z.of_nat (estimated_size older)))
            (last_tick t) (table_last_seq t) (table_first_seq t)
            (table_sequence_tracker t) (touched_segments t)
        else t
    | None => t
    end.

(** [KVTable::is_empty], [last_seq], [first_seq] *)
Definition table_is_empty (t : KVTable) : bool := bool_decide (table_map t = []).
Definition last_seq_of (t : KVTable) : option Z := if table_is_empty t then None else Some (table_last_seq t).
Definition first_seq_of (t : KVTable) : option Z := if table_is_empty t then None else Some (table_first_seq t).

Record KVTableMetadata := mkTableMetadata {
  entry_num : nat;
  meta_entries_size_in_bytes : Z;
  meta_last_tick : Z;
  meta_last_seq : Z;
  meta_first_seq : Z;
}.

(** [KVTable::metadata] *)
Definition table_metadata (t : KVTable) : KVTableMetadata :=
  mkTableMetadata (length (table_map t)) (entries_size_in_bytes t) (last_tick t)
    (default 0%Z (last_seq_of t)) (default 0%Z (first_seq_of t)).

(** [KVTable::record_sequence] *)
Definition record_sequence `{Chrono} {E} (t : KVTable) (s : Z) (ts : DateTime) : outcome E KVTable :=
  tracker ← SeqTracker.insert (table_sequence_tracker t) s ts;
  mret (mkTable (table_map t) (entries_size_in_bytes t) (last_tick t) (table_last_seq t) (table_first_seq t)
    tracker (touched_segments t)).

(** [KVTable::record_touched_segments] *)
Definition record_touched_segments (t : KVTable) (prefixes : BTreeSet bytes) : KVTable :=
  if decide (prefixes = []) then t
  else mkTable (table_map t) (entries_size_in_bytes t) (last_tick t) (table_last_seq t) (table_first_seq t)
    (table_sequence_tracker t)
    (if decide (touched_segments t = []) then prefixes else bs_extend (touched_segments t) prefixes).

(** [KVTable::touched_segments_empty_or_contains] *)
Definition touched_segments_empty_or_contains (t : KVTable) (prefix : bytes) : bool :=
  bool_decide (touched_segments t = []) || bool_decide (prefix ∈ touched_segments t).

(** ** The iterator *)

Record MemTableIterator := mkMemIter {
  mi_map : BTreeMap SequencedKey RowEntry;
  mi_inner : list (SequencedKey * RowEntry);
  mi_ordering : IterationOrder;
  mi_item : option RowEntry;
  descending_stack : list RowEntry;
  mi_end_bound : Bound SequencedKey;
}.

(** [SkipMap::range] *)
Definition bm_range {V} (r : ComparableRange SequencedKey) (m : BTreeMap SequencedKey V) : list (SequencedKey * V) :=
  filter (λ b, range_contains r b.1 = true) m.

Definition set_item (it : MemTableIterator) (inner : list (SequencedKey * RowEntry)) (item : option RowEntry)
    (stack : list RowEntry) : MemTableIterator :=
  mkMemIter (mi_map it) inner (mi_ordering it) item stack (mi_end_bound it).

(** [MemTableIterator::next_ascending] *)
Definition next_ascending (it : MemTableIterator) : option RowEntry * MemTableIterator :=
  (mi_item it, set_item it (tail (mi_inner it)) (snd <$> head (mi_inner it)) (descending_stack it)).

(** [MemTableIterator::fill_descending_stack]; the vector's last element is the top of the stack. *)
Fixpoint fill_descending_stack (fuel : nat) (it : MemTableIterator) (current_key : bytes) : MemTableIterator :=
  match fuel with
  | O => it
  | S fuel =>
      match last (mi_inner it) with
      | Some (k, row) =>
          let inner := removelast (mi_inner it) in
          if decide (user_key k = current_key)
          then fill_descending_stack fuel (set_item it inner (mi_item it) (descending_stack it ++ [row])) current_key
          else set_item it inner (Some row) (descending_stack it)
      | None => set_item it [] None (descending_stack it)
      end
  end.

Definition pop_stack (it : MemTableIterator) : option RowEntry * MemTableIterator :=
  (last (descending_stack it), set_item it (mi_inner it) (mi_item it) (removelast (descending_stack it))).

(** [MemTableIterator::next_descending] *)
Definition next_descending (it : MemTableIterator) : option RowEntry * MemTableIterator :=
  if decide (descending_stack it = []) then
    match mi_item it with
    | Some first =>
        pop_stack (fill_descending_stack (S (length (mi_inner it)))
          (set_item it (mi_inner it) (mi_item it) (descending_stack it ++ [first])) (key first))
    | None => (None, set_item it (removelast (mi_inner it)) (snd <$> last (mi_inner it)) (descending_stack it))
    end
  else pop_stack it.

(** [MemTableIterator::next_sync] *)
Definition next_sync (it : MemTableIterator) : option RowEntry * MemTableIterator :=
  match mi_ordering it with Ascending => next_ascending it | Descending => next_descending it end.

(** [MemTableIterator::is_exhausted] *)
Definition is_exhausted (it : MemTableIterator) : bool :=
  bool_decide (mi_item it = None) && bool_decide (descending_stack it = []).

(** [KVTable::range] *)
Definition table_range (t : KVTable) (s e : Bound bytes) (ordering : IterationOrder) : MemTableIterator :=
  let r := internal_range s e in
  (next_sync (mkMemIter (table_map t) (bm_range r (table_map t)) ordering None [] (end_inner (range_end r)))).2.

(** [MemTableIterator::seek_ascending] *)
Definition seek_ascending (next_key : bytes) (it : MemTableIterator) : MemTableIterator :=
  match mi_item it with
  | None => it
  | Some record =>
      if ord_leb next_key (key record) then it
      else
        let r := range_new (Included (mkSeqKey next_key U64_MAX)) (mi_end_bound it) in
        (next_sync (set_item it (bm_range r (mi_map it)) None (descending_stack it))).2
  end.

Global Instance memtable_iterator : RowEntryIterator MemTableIterator := {
  it_init it := mret it;
  it_next it := mret (next_sync it);
  it_seek k it :=
    match mi_ordering it with
    | Ascending => mret (seek_ascending k it)
    | Descending => Err SeekNotSupportedForDescendingScan
    end;
}.

(** ** Immutable memtables *)

Record ImmutableMemtable := mkImm {
  replay_after_wal_id : Z;
  imm_table : KVTable;
  imm_sequence_tracker : SequenceTracker;
}.

(** [ImmutableMemtable::new] *)
Definition imm_new (t : KVTable) (replay_after_wal_id : Z) : ImmutableMemtable :=
  mkImm replay_after_wal_id t (table_sequence_tracker t).

(** The loop of [ImmutableMemtable::filter_after_seq]. *)
Fixpoint filter_after_loop (fuel : nat) (segment_extractor : option PrefixExtractor) (s : Z)
    (it : MemTableIterator) (new_table : KVTable) (surviving : BTreeSet bytes) : result (KVTable * BTreeSet bytes) :=
  match fuel with
  | O => OutOfFuel
  | S fuel =>
      match next_sync it with
      | (None, _) => mret (new_table, surviving)
      | (Some e, it) =>
          if (s <? seq e)%Z then
            surviving ← match segment_extractor with
                        | Some ext => p ← extract_segment_prefix (H:=ext) (key e); mret (bs_insert p surviving)
                        | None => mret surviving
                        end;
            filter_after_loop fuel segment_extractor s it (table_put new_table e) surviving
          else filter_after_loop fuel segment_extractor s it new_table surviving
      end
  end.

(** [ImmutableMemtable::filter_after_seq] *)
Definition filter_after_seq (imm : ImmutableMemtable) (s : Z) (segment_extractor : option PrefixExtractor)
    : result ImmutableMemtable :=
  '(new_table, surviving) ←
    filter_after_loop (S (length (table_map (imm_table imm)))) segment_extractor s
      (table_range (imm_table imm) Unbounded Unbounded Ascending) table_new [];
  mret (imm_new (record_touched_segments new_table surviving) (replay_after_wal_id imm)).

(** ** Order and ranges *)

Global Instance SequencedKey_ord_laws : OrdLaws SequencedKey.
Proof.
  split.
  - intros [k s] [k' s']. unfold cmp at 1, SequencedKey_ord; cbn [user_key sk_seq].
    destruct (cmp k k') eqn:Hk; [apply cmp_eq in Hk as ->|..].
    + destruct (cmp s s') eqn:Hs; cbn; split; try done.
      * apply cmp_eq in Hs as ->. done.
      * intros [= ->]. by rewrite cmp_refl in Hs.
      * intros [= ->]. by rewrite cmp_refl in Hs.
    + split; [done|]. intros [= -> ->]. by rewrite cmp_refl in Hk.
    + split; [done|]. intros [= -> ->]. by rewrite cmp_refl in Hk.
  - intros [k s] [k' s']. unfold cmp at 1 2, SequencedKey_ord; cbn [user_key sk_seq].
    rewrite (cmp_opp k k'). destruct (cmp k k'); cbn; [|done..]. by rewrite (cmp_opp s s').
  - intros [k1 s1] [k2 s2] [k3 s3]. unfold cmp at 1 2 3, SequencedKey_ord; cbn [user_key sk_seq].
    destruct (cmp k1 k2) eqn:H12; [|intros _|done].
    + apply cmp_eq in H12 as ->. destruct (cmp k2 k3); [|done..].
      unfold cmp, Z_ord. intros Ha Hb. apply (f_equal CompOpp) in Ha, Hb. rewrite CompOpp_involutive in Ha, Hb.
      cbn in Ha, Hb. apply Z.compare_gt_iff in Ha, Hb. rewrite (proj2 (Z.compare_gt_iff s1 s3)); [done|lia].
    + destruct (cmp k2 k3) eqn:H23; [|intros _|done].
      * apply cmp_eq in H23 as <-. by rewrite H12.
      * by rewrite (cmp_lt_trans _ _ _ H12 H23).
Qed.

Definition is_u64 (z : Z) : Prop := (0 ≤ z ≤ U64_MAX)%Z.

(** The internal range of a user range holds every version of exactly the keys in it. *)
Lemma internal_range_exact s e k n :
  is_u64 n → range_contains (internal_range s e) (mkSeqKey k n) = range_contains (range_new s e) k.
Proof.
  unfold is_u64. intros Hn. unfold range_contains, internal_range. cbn [range_start range_end range_new].
  f_equal; unfold start_admits, end_admits; cbn [start_inner end_inner].
  - destruct s as [k'|k'|]; [| |done]; unfold ord_leb, ord_ltb;
      unfold cmp at 1, SequencedKey_ord; cbn [user_key sk_seq]; destruct (cmp k' k); try done;
      unfold cmp, Z_ord; unfold U64_MAX in *; cbn [CompOpp].
    + by destruct (Z.compare_spec 18446744073709551615 n); [done..|lia|done].
    + by destruct (Z.compare_spec 0 n); [done|done|lia].
  - destruct e as [k'|k'|]; [| |done]; unfold ord_leb, ord_ltb;
      unfold cmp at 1, SequencedKey_ord; cbn [user_key sk_seq]; destruct (cmp k k'); try done;
      unfold cmp, Z_ord; unfold U64_MAX in *; cbn [CompOpp].
    + by destruct (Z.compare_spec n 0); [done|lia|done].
    + by destruct (Z.compare_spec n 18446744073709551615); [done|done|lia].
Qed.

(** ** Well-formed tables *)

Definition row_key (e : RowEntry) : SequencedKey := mkSeqKey (key e) (seq e).

Definition total_size (m : BTreeMap SequencedKey RowEntry) : Z :=
  foldr (λ b acc, Z.of_nat (estimated_size b.2) + acc)%Z 0%Z m.

Record map_ok (m : BTreeMap SequencedKey RowEntry) : Prop := {
  map_sorted : bm_ok m;
  map_keys k e : (k, e) ∈ m → k = row_key e ∧ is_u64 (seq e);
}.

Record table_ok (t : KVTable) : Prop := {
  table_map_ok : map_ok (table_map t);
  table_size : entries_size_in_bytes t = wrap 64 (total_size (table_map t));
  table_seqs k e : (k, e) ∈ table_map t → (table_first_seq t ≤ seq e ≤ table_last_seq t)%Z;
}.

(** ** Writes *)

Definition size_at (k : SequencedKey) (m : BTreeMap SequencedKey RowEntry) : Z :=
  match bm_get k m with Some e => Z.of_nat (estimated_size e) | None => 0 end.

Lemma total_size_cons b m : total_size (b :: m) = (Z.of_nat (estimated_size b.2) + total_size m)%Z.
Proof. done. Qed.

Lemma total_size_insert k e m :
  total_size (bm_insert k e m) = (total_size m - size_at k m + Z.of_nat (estimated_size e))%Z.
Proof.
  unfold size_at. induction m as [|[k1 e1] m IH]; cbn [bm_insert bm_remove bm_get]; [unfold total_size; cbn; lia|].
  rewrite total_size_cons. destruct (cmp k k1); rewrite ?total_size_cons; cbn [snd]; [lia|lia|]. rewrite IH. lia.
Qed.

Lemma total_size_remove k m : total_size (bm_remove k m) = (total_size m - size_at k m)%Z.
Proof.
  unfold size_at. induction m as [|[k1 e1] m IH]; cbn [bm_insert bm_remove bm_get]; [unfold total_size; cbn; lia|].
  rewrite total_size_cons. destruct (cmp k k1); rewrite ?total_size_cons; cbn [snd]; [lia|lia|]. rewrite IH. lia.
Qed.

Lemma map_insert_ok m e : map_ok m → is_u64 (seq e) → map_ok (bm_insert (row_key e) e m).
Proof.
  intros [Hs Hk] He. split; [by apply bm_insert_ok|].
  intros k e' [[= -> ->]|Hin]%bm_insert_elem; [done|by apply Hk].
Qed.

Lemma map_remove_ok m k : map_ok m → map_ok (bm_remove k m).
Proof.
  intros [Hs Hk]. split; [by apply bm_remove_ok|]. intros k' e Hin. apply Hk.
  eapply (sublist_subseteq _ m); [|exact Hin]. apply bm_remove_sublist.
Qed.

Lemma put_inner_ok t row : table_ok t → is_u64 (seq row) → table_ok (put_inner t row).
Proof.
  intros [Hm Hsize Hseqs] Hrow. split; cbn.
  - by apply map_insert_ok.
  - change (mkSeqKey (key row) (seq row)) with (row_key row). rewrite total_size_insert. unfold size_at.
    destruct (bm_get (row_key row) (table_map t)) as [p|]; rewrite Hsize; unfold wrap.
    + rewrite Zminus_mod_idemp_l, Zplus_mod_idemp_l. done.
    + rewrite Zplus_mod_idemp_l. f_equal. lia.
  - intros k e [[= -> ->]|Hin]%bm_insert_elem; [lia|]. specialize (Hseqs k e Hin). lia.
Qed.

Lemma bm_after_elem {V} k (m : BTreeMap SequencedKey V) b : bm_after k m = Some b → b ∈ m ∧ k ≺ b.1.
Proof.
  unfold bm_after. intros Hh. assert (b ∈ filter (λ b, k ≺ b.1) m) as Hin.
  { destruct (filter _ m); cbn in Hh; [done|]. simplify_eq. by left. }
  by apply list_elem_of_filter in Hin as [? ?].
Qed.

(** The memtable's accounting. From any consistent table a write, with or without pruning of
    the version it overwrites, keeps the map ordered by key with the newest version first, the byte
    count equal (modulo 2^64) to the sum of the sizes of the rows present, rewrites of the same
    version and pruned rows included, and every row's sequence number within the recorded bounds. *)
Theorem memtable_accounting t row :
  table_ok t → is_u64 (seq row) → table_ok (table_put t row) ∧ table_ok (put_and_prune_overwritten t row).
Proof.
  intros Ht Hrow. pose proof (put_inner_ok t row Ht Hrow) as Hp. split; [done|].
  unfold put_and_prune_overwritten. destruct (is_merge (value row)); [done|].
  destruct (bm_after _ (table_map (put_inner t row))) as [[k older]|] eqn:Ha; [|done].
  destruct (decide (user_key k = key row)) as [Hk|]; [|done]. apply bm_after_elem in Ha as [Hin _].
  destruct Hp as [Hm Hsize Hseqs]. split; cbn -[put_inner].
  - by apply map_remove_ok.
  - rewrite total_size_remove, Hsize. unfold size_at.
    rewrite (proj2 (bm_get_Some k older _ (map_sorted _ Hm)) Hin). unfold wrap. by rewrite Zminus_mod_idemp_l.
  - intros k' e Hin'. apply (Hseqs k' e). eapply (sublist_subseteq _ (table_map (put_inner t row))); [|exact Hin'].
    apply bm_remove_sublist.
Qed.

Definition demo_table : KVTable := table_put table_new (mkRow [97%Z] (Value [1%Z]) 3 (Some 5%Z) None).

Lemma table_new_ok : table_ok table_new.
Proof. split; cbn; [split; [constructor|set_solver]|done|set_solver]. Qed.

Lemma demo_table_ok : table_ok demo_table.
Proof. apply put_inner_ok; [apply table_new_ok|unfold is_u64, U64_MAX; cbn; lia]. Qed.

Lemma memtable_accounting_witness :
  table_ok (table_put demo_table (mkRow [97%Z] Tombstone 7 None None)) ∧
  table_ok (put_and_prune_overwritten demo_table (mkRow [97%Z] Tombstone 7 None None)).
Proof.
  apply (memtable_accounting demo_table (mkRow [97%Z] Tombstone 7 None None));
    [exact demo_table_ok|unfold is_u64, U64_MAX; cbn; lia].
Defined.

(** ** What a write changes for readers *)

Definition table_rows (t : KVTable) : list RowEntry := bm_values (table_map t).

(** [row] is newer than every version of its key in the map. *)
Definition newer (row : RowEntry) (m : BTreeMap SequencedKey RowEntry) : Prop :=
  ∀ k e, (k, e) ∈ m → key e = key row → (seq e < seq row)%Z.

Lemma row_key_lt a b :
  row_key a ≺ row_key b ↔ key a ≺ key b ∨ key a = key b ∧ (seq b < seq a)%Z.
Proof.
  unfold ord_lt at 1, cmp at 1, SequencedKey_ord; cbn. unfold ord_lt. destruct (cmp (key a) (key b)) eqn:Hc.
  - apply cmp_eq in Hc. unfold cmp, Z_ord. destruct (Z.compare_spec (seq a) (seq b)); cbn; split;
      try done; try (intros [?|[? ?]]; try done; lia). intros _. right. split; [done|lia].
  - split; [by left|done].
  - split; [done|]. intros [?|[E _]]; [done|]. rewrite E, cmp_refl in Hc. done.
Qed.

(** A row newer than its key's versions becomes the first of them. *)
Lemma insert_newer m row :
  map_ok m → newer row m →
  ∃ a b, m = a ++ b ∧ bm_insert (row_key row) row m = a ++ (row_key row, row) :: b ∧
    versions_of (key row) a.*2 = [] ∧ Forall (λ x, row_key row ≺ x.1) b ∧ Forall (λ x, x.1 ≺ row_key row) a.
Proof.
  intros [Hs Hk] Hn. destruct (bm_insert_split (row_key row) row m Hs) as (a & b & Hm & Hi & Ha & Hb).
  assert (m = a ++ b) as E.
  { destruct Hm as [->|[v' ->]]; [done|]. exfalso.
    assert ((row_key row, v') ∈ a ++ (row_key row, v') :: b) as Hin by set_solver.
    destruct (Hk _ _ Hin) as [[= Hkey Hseq] _]. specialize (Hn _ _ Hin (eq_sym Hkey)). lia. }
  exists a, b. split_and!; [done|done| |done|done].
  apply versions_of_none. apply Forall_fmap, Forall_forall. intros [k e] Hin E'. cbn in E'.
  rewrite Forall_forall in Ha. specialize (Ha _ Hin). cbn in Ha.
  assert ((k, e) ∈ m) as Hin' by (rewrite E; set_solver). destruct (Hk k e Hin') as [-> _].
  specialize (Hn _ _ Hin' E'). apply row_key_lt in Ha as [Ha|[_ Ha]]; [|lia].
  rewrite E' in Ha. by apply ord_lt_irrefl in Ha.
Qed.

Lemma put_versions t row k :
  map_ok (table_map t) → newer row (table_map t) →
  versions_of k (table_rows (table_put t row)) =
    if decide (key row = k) then row :: versions_of k (table_rows t) else versions_of k (table_rows t).
Proof.
  intros Hm Hn. destruct (insert_newer _ _ Hm Hn) as (a & b & Ea & Ei & Hva & _ & _).
  unfold table_rows, bm_values. cbn [table_put put_inner table_map].
  change (mkSeqKey (key row) (seq row)) with (row_key row). rewrite Ei, Ea, !fmap_app, !filter_app, fmap_cons, filter_cons.
  cbn [snd]. destruct (decide (key row = k)) as [<-|]; [by rewrite Hva|done].
Qed.

(** Pruning removes exactly the version behind the new row. *)
Lemma prune_versions t row k :
  map_ok (table_map t) → newer row (table_map t) → is_merge (value row) = false →
  versions_of k (table_rows (put_and_prune_overwritten t row)) =
    if decide (key row = k) then row :: tail (versions_of k (table_rows t)) else versions_of k (table_rows t).
Proof.
  intros Hm Hn Hv. destruct (insert_newer _ _ Hm Hn) as (a & b & Ea & Ei & Hva & Hb & Ha).
  unfold put_and_prune_overwritten. rewrite Hv.
  pose proof (put_versions t row k Hm Hn) as Hput. unfold table_put in Hput.
  assert (table_map (put_inner t row) = a ++ (row_key row, row) :: b) as Etab by exact Ei.
  assert (bm_after (row_key row) (table_map (put_inner t row)) = head b) as Haft.
  { unfold bm_after. rewrite Etab, filter_app, filter_cons. cbn [fst].
    rewrite (list_filter_none (λ x, row_key row ≺ x.1) a).
    2:{ eapply Forall_impl; [exact Ha|]. intros x Hx Hx'. apply (ord_lt_irrefl (row_key row)). by eapply ord_lt_trans. }
    rewrite decide_False by apply ord_lt_irrefl. by rewrite (list_filter_all (λ x, row_key row ≺ x.1) b). }
  change (mkSeqKey (key row) (seq row)) with (row_key row). rewrite Haft.
  assert (∀ x, x ∈ b → x ∈ table_map t) as Hsub by (rewrite Ea; set_solver).
  (* rows behind the new one with another key: the key has no older version *)
  assert (versions_of (key row) (table_rows t) = versions_of (key row) b.*2) as Evs.
  { unfold table_rows, bm_values. rewrite Ea, fmap_app, filter_app. by rewrite Hva. }
  destruct b as [|[k' older] b]; cbn [head].
  - rewrite Hput. destruct (decide (key row = k)) as [<-|]; [|done]. by rewrite Evs.
  - destruct (map_keys _ Hm k' older (Hsub _ ltac:(by left))) as [-> _]. cbn [user_key row_key].
    destruct (decide (key older = key row)) as [Hk|Hk].
    + unfold table_rows, bm_values. cbn [table_map]. rewrite Etab.
      replace (a ++ (row_key row, row) :: (row_key older, older) :: b)
        with ((a ++ [(row_key row, row)]) ++ (row_key older, older) :: b) by by rewrite <-app_assoc.
      rewrite bm_remove_split.
      2:{ apply Forall_cons in Hb as [Hlt _]. apply Forall_app. split; [|by repeat constructor].
          eapply Forall_impl; [exact Ha|]. cbn. intros x Hx. by eapply ord_lt_trans. }
      rewrite Ea, !fmap_app, !filter_app, !fmap_cons. cbn [snd fmap list_fmap].
      destruct (decide (key row = k)) as [<-|Hne].
      * rewrite Hva, !filter_cons, decide_True by done. rewrite filter_nil. cbn [snd].
        rewrite decide_True by done. done.
      * rewrite !filter_cons. cbn [snd]. rewrite !decide_False by congruence. by rewrite filter_nil, app_nil_r.
    + rewrite Hput. destruct (decide (key row = k)) as [<-|]; [|done]. f_equal.
      rewrite Evs. assert (versions_of (key row) ((row_key older, older) :: b).*2 = []) as ->; [|done].
      apply versions_of_none. apply Forall_fmap, Forall_forall. intros [k2 e2] Hin E'. cbn in E'.
      destruct (map_keys _ Hm k2 e2 (Hsub _ Hin)) as [-> _].
      apply Forall_cons in Hb as [Hlt _]. cbn in Hlt. apply row_key_lt in Hlt as [Hlt|[? _]]; [|congruence].
      apply elem_of_cons in Hin as [Hin|Hin]; [by simplify_eq|].
      assert (row_key older ≺ row_key e2) as Hlt2.
      { pose proof (map_sorted _ Hm) as Hs. unfold bm_ok in Hs. rewrite Ea in Hs.
        apply StronglySorted_app in Hs as (_ & _ & Hs). apply StronglySorted_inv in Hs as [_ HF].
        rewrite Forall_forall in HF. by apply (HF _ Hin). }
      apply row_key_lt in Hlt2 as [Hlt2|[E2 _]]; [|congruence]. rewrite E' in Hlt2.
      apply (ord_lt_irrefl (key row)). by eapply ord_lt_trans.
Qed.

(** C37: Writes and pruning as readers see them. A row newer than its key's versions becomes the
    newest version of its key and changes no other key; pruning the version it overwrites, which
    only happens under a value or a tombstone, changes no read of another key and no read at or
    above the new row's sequence number. *)
Theorem memtable_writes_read t row f k s :
  map_ok (table_map t) → newer row (table_map t) →
  versions_of k (table_rows (table_put t row)) =
    (if decide (key row = k) then row :: versions_of k (table_rows t) else versions_of k (table_rows t)) ∧
  ((key row = k → (seq row ≤ s)%Z) →
   read_value f k (visible s (versions_of k (table_rows (put_and_prune_overwritten t row)))) =
   read_value f k (visible s (versions_of k (table_rows (table_put t row))))).
Proof.
  intros Hm Hn. split; [by apply put_versions|]. intros Hs. destruct (is_merge (value row)) eqn:Hv.
  { unfold put_and_prune_overwritten. by rewrite Hv. }
  rewrite prune_versions, put_versions by done. destruct (decide (key row = k)) as [Hk|]; [|done].
  unfold visible. rewrite !filter_cons, !decide_True by auto. cbn. by destruct (value row).
Qed.

Lemma demo_table_newer : newer (mkRow [97%Z] Tombstone 7 None None) (table_map demo_table).
Proof. intros k e Hin. vm_compute in Hin. apply list_elem_of_singleton in Hin. simplify_eq. cbn. lia. Qed.

Lemma memtable_writes_read_witness :
  read_value append_f [97%Z] (visible 9 (versions_of [97%Z]
    (table_rows (put_and_prune_overwritten demo_table (mkRow [97%Z] Tombstone 7 None None))))) = None.
Proof.
  apply (memtable_writes_read demo_table (mkRow [97%Z] Tombstone 7 None None) append_f [97%Z] 9);
    [apply demo_table_ok|exact demo_table_newer|intros _; cbn; lia].
Defined.

(** ** Ascending iteration *)

Lemma map_rows_keys m : map_ok m → m = (λ e, (row_key e, e)) <$> m.*2.
Proof.
  intros [_ Hk]. rewrite <-list_fmap_compose. rewrite <-(list_fmap_id m) at 1.
  apply list_fmap_ext. intros i [k e] Hi. cbn.
  destruct (Hk k e) as [-> _]; [by eapply list_elem_of_lookup_2|done].
Qed.

Lemma map_rows_sorted m : map_ok m → StronglySorted (λ a b, row_key a ≺ row_key b) m.*2.
Proof.
  intros Hm. pose proof (map_sorted _ Hm) as Hs. unfold bm_ok in Hs. rewrite (map_rows_keys m Hm) in Hs.
  remember (m.*2) as l eqn:El. clear El Hm. induction l as [|e l IH]; [constructor|].
  cbn in Hs. apply StronglySorted_inv in Hs as [Hs HF]. constructor; [by apply IH|].
  by rewrite Forall_fmap in HF.
Qed.

Lemma row_key_lt_row_le a b : row_key a ≺ row_key b → row_le Ascending a b.
Proof.
  rewrite row_key_lt. unfold row_le, kv_cmp. intros [Hlt|[-> Hlt]].
  - unfold ord_lt in Hlt. by rewrite Hlt.
  - rewrite cmp_refl. cbn. unfold cmp, Z_ord. destruct (Z.compare_spec (seq b) (seq a)); try lia. done.
Qed.

Lemma range_rows m s e :
  map_ok m →
  (bm_range (internal_range s e) m).*2 = filter (λ r, range_contains (range_new s e) (key r) = true) m.*2.
Proof.
  intros [_ Hk]. unfold bm_range. induction m as [|[k r] m IH]; [done|].
  destruct (Hk k r ltac:(by left)) as [-> Hr]. rewrite fmap_cons, !filter_cons. cbn [fst snd].
  change (row_key r) with (mkSeqKey (key r) (seq r)). rewrite (internal_range_exact s e (key r) (seq r) Hr).
  rewrite <-IH by (intros k' e' Hin; apply Hk; by right).
  destruct (decide (range_contains (range_new s e) (key r) = true)); [|done]. by rewrite fmap_cons.
Qed.

(** The rows of the map within an end bound. *)
Definition rows_below (e : Bound SequencedKey) (m : BTreeMap SequencedKey RowEntry) : list RowEntry :=
  (filter (λ b, end_admits (mkEnd e) b.1 = true) m).*2.

(** An ascending iterator that is about to return [l]. *)
Definition mem_scan (it : MemTableIterator) (returned l : list RowEntry) : Prop :=
  map_ok (mi_map it) ∧ mi_ordering it = Ascending ∧ mi_item it = head l ∧ (mi_inner it).*2 = tail l ∧
  ∃ pre, rows_below (mi_end_bound it) (mi_map it) = pre ++ l.

Global Instance mem_scan_next : Scan mem_scan.
Proof.
  intros it returned l (Hm & Ho & Hitem & Hinner & pre & Hpre). unfold it_next; cbn. unfold next_sync. rewrite Ho.
  unfold next_ascending. rewrite Hitem.
  assert (snd <$> head (mi_inner it) = head (tail l) ∧ (tail (mi_inner it)).*2 = tail (tail l)) as [Hh Ht].
  { rewrite <-Hinner. by destruct (mi_inner it). }
  destruct l as [|e l]; cbn [head tail] in *.
  - eexists. split; [done|]. split_and!; [done|done|done|done|]. by exists pre.
  - eexists. split; [done|]. split_and!; [done|done|done|done|]. exists (pre ++ [e]). by rewrite <-app_assoc.
Qed.

Lemma start_admits_key k r :
  is_u64 (seq r) → start_admits (mkStart (Included (mkSeqKey k U64_MAX))) (row_key r) = negb (ord_ltb (key r) k).
Proof.
  intros Hr. pose proof (internal_range_exact (Included k) Unbounded (key r) (seq r) Hr) as He.
  unfold range_contains, internal_range in He. cbn [range_start range_end range_new] in He.
  unfold end_admits in He. cbn [end_inner] in He. rewrite !andb_true_r in He. unfold row_key. rewrite He.
  unfold start_admits. cbn. unfold ord_leb, ord_ltb. rewrite (cmp_opp k (key r)). by destruct (cmp k (key r)).
Qed.

Lemma rows_below_sorted e m :
  map_ok m → StronglySorted (λ a b, row_key a ≺ row_key b) (rows_below e m).
Proof.
  intros Hm. eapply StronglySorted_sublist; [|by apply map_rows_sorted].
  unfold rows_below. apply fmap_sublist, sublist_filter.
Qed.

Lemma range_from_key m k e :
  map_ok m →
  (bm_range (range_new (Included (mkSeqKey k U64_MAX)) e) m).*2 =
  filter (λ r, ord_ltb (key r) k = false) (rows_below e m).
Proof.
  intros [_ Hk]. unfold bm_range, rows_below. induction m as [|[k' r] m IH]; [done|].
  destruct (Hk k' r ltac:(by left)) as [-> Hr]. rewrite !filter_cons. cbn [fst].
  specialize (IH (λ k' e' Hin, Hk k' e' (list_elem_of_further _ _ _ Hin))).
  assert (range_contains (range_new (Included (mkSeqKey k U64_MAX)) e) (row_key r) =
    negb (ord_ltb (key r) k) && end_admits (mkEnd e) (row_key r)) as ->.
  { unfold range_contains. cbn [range_start range_end range_new]. by rewrite start_admits_key. }
  destruct (decide (end_admits (mkEnd e) (row_key r) = true)) as [He|He].
  - rewrite He, andb_true_r, fmap_cons, filter_cons. cbn [snd].
    destruct (ord_ltb (key r) k) eqn:Hl; cbn [negb].
    + rewrite !decide_False by done. exact IH.
    + rewrite !decide_True by done. by rewrite fmap_cons, IH.
  - apply not_true_is_false in He. rewrite He, andb_false_r, decide_False by done. exact IH.
Qed.

Lemma filter_from_sorted (l : list RowEntry) k :
  StronglySorted (λ a b, row_key a ≺ row_key b) l →
  (∀ e, head l = Some e → k ≼ key e) → filter (λ r, ord_ltb (key r) k = false) l = l.
Proof.
  intros Hs Hh. apply list_filter_all. destruct l as [|e l]; [done|]. specialize (Hh e eq_refl).
  apply StronglySorted_inv in Hs as [_ HF]. constructor.
  - apply ord_ltb_false. exact Hh.
  - eapply Forall_impl; [exact HF|]. intros x Hx. apply row_key_lt_row_le, row_le_key in Hx. cbn in Hx.
    apply ord_ltb_false. revert Hh Hx. ord.
Qed.

Global Instance mem_scan_seek : ScanSeek mem_scan.
Proof.
  intros it returned l k (Hm & Ho & Hitem & Hinner & pre & Hpre) _. unfold it_seek; cbn. rewrite Ho.
  pose proof (rows_below_sorted (mi_end_bound it) _ Hm) as Hs. rewrite Hpre in Hs.
  pose proof Hs as Hs'. apply StronglySorted_app in Hs' as (Hcross & _ & Hsl).
  unfold seek_ascending. rewrite Hitem. destruct l as [|e l]; cbn [head].
  { eexists _, []. split; [done|]. split; [|constructor]. split_and!; [done|done|done|done|by exists pre]. }
  destruct (ord_leb k (key e)) eqn:Hle.
  { apply ord_leb_true in Hle. eexists _, []. split; [done|]. split; [|constructor].
    rewrite filter_from_sorted; [|done|by intros ? [= <-]]. split_and!; [done..|by exists pre]. }
  apply ord_leb_false in Hle. unfold next_sync. cbn [set_item mi_ordering]. rewrite Ho. unfold next_ascending. cbn [snd set_item mi_item mi_inner].
  set (inner := bm_range _ _).
  assert (inner.*2 = filter (λ r, ord_ltb (key r) k = false) (e :: l)) as Hin.
  { unfold inner. rewrite range_from_key, Hpre, filter_app by done.
    rewrite (list_filter_none _ pre); [done|]. apply Forall_forall. intros x Hx. cbn.
    specialize (Hcross x e Hx ltac:(by left)). apply row_key_lt_row_le, row_le_key in Hcross. cbn in Hcross.
    intros Hf. apply ord_ltb_false in Hf. revert Hle Hf Hcross. ord. }
  eexists _, []. split; [done|]. split; [|constructor]. rewrite <-Hin.
  split_and!; [done|done|by destruct inner|by destruct inner|].
  cbn [set_item mi_end_bound mi_map]. rewrite Hin, Hpre.
  destruct (filter_suffix _ (λ r, ord_ltb (key r) k = false) (e :: l) Hsl) as [a Ha]; [|].
  { intros x y Hxy Hx. apply row_key_lt_row_le, row_le_key in Hxy. cbn in Hxy.
    apply ord_ltb_false in Hx. apply ord_ltb_false. revert Hxy Hx. ord. }
  exists (pre ++ a). by rewrite <-app_assoc, <-Ha.
Qed.

Lemma rows_below_internal s e m :
  map_ok m →
  rows_below (end_inner (range_end (internal_range s e))) m = filter (λ r, end_admits (mkEnd e) (key r) = true) m.*2.
Proof.
  intros Hm. pose proof (range_rows m Unbounded e Hm) as Hr. unfold bm_range, range_contains in Hr. exact Hr.
Qed.

(** A range over the table scans the rows of its keys. *)
Lemma table_range_ascending t s e :
  map_ok (table_map t) →
  mem_scan (table_range t s e Ascending) [] (filter (λ r, range_contains (range_new s e) (key r) = true) (table_rows t)).
Proof.
  intros Hm. unfold table_range, next_sync, next_ascending. cbn [mi_ordering snd set_item mi_inner].
  pose proof (range_rows (table_map t) s e Hm) as Hr. unfold table_rows, bm_values. rewrite <-Hr.
  set (inner := bm_range _ _) in *.
  split_and!; [done|done|by destruct inner|by destruct inner|]. unfold set_item; cbn [mi_end_bound mi_map].
  rewrite rows_below_internal, Hr by done. unfold range_contains. cbn [range_start range_end range_new].
  destruct (filter_suffix (λ a b, row_key a ≺ row_key b) (λ r, start_admits (mkStart s) (key r) = true)
    (filter (λ r, end_admits (mkEnd e) (key r) = true) (table_map t).*2)) as [a Ha].
  - eapply StronglySorted_sublist; [apply sublist_filter|by apply map_rows_sorted].
  - intros x y Hxy Hx. apply row_key_lt_row_le, row_le_key in Hxy. cbn in Hxy. unfold start_admits in *.
    cbn [start_inner] in *. destruct s as [k|k|]; [| |done].
    + apply ord_leb_true in Hx. apply ord_leb_true. revert Hx Hxy. ord.
    + apply ord_ltb_true in Hx. apply ord_ltb_true. revert Hx Hxy. ord.
  - exists a. rewrite Ha at 1. f_equal. rewrite list_filter_filter. apply list_filter_iff.
    intros x. rewrite andb_true_iff. tauto.
Qed.

(** ** Descending iteration

    [descends l out]: [out] has the key groups of [l] in reverse order, each group in its
    own order (newest version first). *)
Inductive descends : list RowEntry → list RowEntry → Prop :=
| descends_nil : descends [] []
| descends_group a g e out :
    Forall (λ x, key x = key e) g → (∀ x, last a = Some x → key x ≠ key e) →
    descends a out → descends (a ++ g ++ [e]) (g ++ [e] ++ out).

(** The rows at the end of a list with a given key. *)
Lemma split_key_suffix (l : list RowEntry) k :
  ∃ a g, l = a ++ g ∧ Forall (λ x, key x = k) g ∧ ∀ x, last a = Some x → key x ≠ k.
Proof.
  induction l as [|e l IH] using rev_ind; [by exists [], []|].
  destruct (decide (key e = k)) as [Hk|Hk].
  - destruct IH as (a & g & -> & Hg & Ha). exists a, (g ++ [e]). split; [by rewrite app_assoc|].
    split; [|done]. apply Forall_app. split; [done|by repeat constructor].
  - exists (l ++ [e]), []. split; [by rewrite app_nil_r|]. split; [done|].
    intros x. rewrite last_snoc. by intros [= <-].
Qed.

Lemma descends_total l : ∃ out, descends l out.
Proof.
  remember (length l) as n eqn:Hn. revert l Hn. induction (lt_wf n) as [n _ IH]. intros l Hn.
  destruct l as [|e l _] using rev_ind; [exists []; constructor|].
  destruct (split_key_suffix l (key e)) as (a & g & -> & Hg & Ha).
  destruct (IH (length a)) with (l := a) as [out Hout]; [rewrite !length_app in Hn; cbn in Hn; lia|done|].
  exists (g ++ [e] ++ out). rewrite <-app_assoc. by constructor.
Qed.

Lemma descends_perm l out : descends l out → out ≡ₚ l.
Proof.
  induction 1 as [|a g e out Hg Ha Hd IH]; [done|]. rewrite IH, (app_assoc g). apply Permutation_app_comm.
Qed.

Lemma descends_sorted l out :
  StronglySorted (λ a b, row_key a ≺ row_key b) l → descends l out → StronglySorted (row_le Descending) out.
Proof.
  intros Hs Hd. induction Hd as [|a g e out Hg Ha Hd IH]; [constructor|].
  apply StronglySorted_app in Hs as (Hcross & Hsa & Hsg). rewrite app_assoc. apply StronglySorted_app. split_and!.
  - intros x y Hx Hy. rewrite (descends_perm _ _ Hd) in Hy. pose proof Hcross as Hcross0. specialize (Hcross y x Hy Hx).
    apply row_key_lt in Hcross as [Hlt|[Heq _]].
    + unfold row_le, kv_cmp. rewrite Hlt. done.
    + exfalso. assert (key x = key e) as Hxe.
      { apply elem_of_app in Hx as [Hx| ->%list_elem_of_singleton]; [|done]. rewrite Forall_forall in Hg. by apply Hg. }
      destruct a as [|z a _] using rev_ind; [set_solver|].
      specialize (Ha z ltac:(by rewrite last_snoc)). apply StronglySorted_app in Hsa as (Hza & _ & _).
      assert (key y ≼ key z) as Hyz.
      { apply elem_of_app in Hy as [Hy| ->%list_elem_of_singleton]; [|apply ord_le_refl].
        specialize (Hza y z Hy ltac:(by left)). by apply row_key_lt_row_le, row_le_key in Hza. }
      specialize (Hcross0 z x ltac:(set_solver) Hx). apply row_key_lt_row_le, row_le_key in Hcross0. cbn in Hcross0.
      apply Ha. rewrite Heq, Hxe in Hyz. rewrite Hxe in Hcross0. by apply ord_le_antisym.
  - apply (StronglySorted_weaken_Forall (λ a b, row_key a ≺ row_key b) _ (λ x, key x = key e)); [done| |].
    + apply Forall_app. split; [done|by repeat constructor].
    + intros x y Hx Hy Hxy. apply row_key_lt in Hxy as [Hlt|[_ Hlt]].
      { rewrite Hx, Hy in Hlt. by apply ord_lt_irrefl in Hlt. }
      unfold row_le, kv_cmp. rewrite Hx, Hy, cmp_refl. unfold cmp, Z_ord.
      by rewrite (proj2 (Z.compare_lt_iff _ _) Hlt).
  - by apply IH.
Qed.

Definition pairs (l : list RowEntry) : list (SequencedKey * RowEntry) := (λ e, (row_key e, e)) <$> l.

(** A descending iterator: [stack] rows of the current key left, then the rows of [l], the last
    of which has been read ahead. *)
Definition desc_mem (it : MemTableIterator) (stack l : list RowEntry) : Prop :=
  mi_ordering it = Descending ∧ descending_stack it = reverse stack ∧
  mi_item it = last l ∧ mi_inner it = pairs (removelast l).

Lemma last_pairs l : last (pairs l) = (λ e, (row_key e, e)) <$> last l.
Proof. apply fmap_last. Qed.

Lemma removelast_pairs l : removelast (pairs l) = pairs (removelast l).
Proof.
  destruct l as [|e l _] using rev_ind; [done|]. unfold pairs. rewrite fmap_app. cbn [fmap list_fmap].
  by rewrite !removelast_last.
Qed.

Lemma fill_stack_ok fuel it a g k :
  mi_inner it = pairs (a ++ g) → Forall (λ x, key x = k) g → (∀ x, last a = Some x → key x ≠ k) →
  length g < fuel →
  fill_descending_stack fuel it k =
    set_item it (pairs (removelast a)) (last a) (descending_stack it ++ reverse g).
Proof.
  revert it g. induction fuel as [|fuel IH]; intros it g Hin Hg Ha Hf; [lia|]. cbn [fill_descending_stack].
  rewrite Hin, last_pairs. destruct g as [|e g _] using rev_ind.
  - rewrite !app_nil_r. destruct (last a) as [x|] eqn:Hla; cbn [fmap option_fmap option_map user_key row_key].
    + rewrite decide_False by by apply Ha. rewrite removelast_pairs. done.
    + apply last_None in Hla as ->. done.
  - apply Forall_app in Hg as [Hg Hge]. apply Forall_cons in Hge as [Hge _].
    rewrite app_assoc, last_snoc. cbn. rewrite decide_True by done.
    rewrite IH with (g := g); [| |done|done|rewrite length_app in Hf; cbn in Hf; lia].
    + rewrite reverse_snoc. unfold set_item; cbn [mi_map mi_ordering mi_end_bound descending_stack]. by rewrite <-app_assoc.
    + cbn. rewrite removelast_pairs. by rewrite removelast_last.
Qed.

Lemma desc_mem_pop it e stack l :
  desc_mem it (e :: stack) l → ∃ it', next_sync it = (Some e, it') ∧ desc_mem it' stack l.
Proof.
  intros (Ho & Hs & Hi & Hin). unfold next_sync. rewrite Ho. unfold next_descending.
  rewrite Hs, reverse_cons, decide_False by (by destruct (reverse stack)).
  unfold pop_stack. rewrite Hs, reverse_cons, last_snoc. eexists. split; [done|].
  split_and!; [done| |done|done]. unfold set_item; cbn. by rewrite removelast_last.
Qed.

Lemma desc_mem_next it l a g e :
  l = a ++ g ++ [e] → Forall (λ x, key x = key e) g → (∀ x, last a = Some x → key x ≠ key e) →
  desc_mem it [] l →
  ∃ x stack it', g ++ [e] = x :: stack ∧ next_sync it = (Some x, it') ∧ desc_mem it' stack a.
Proof.
  intros -> Hg Ha (Ho & Hs & Hi & Hin). unfold next_sync. rewrite Ho. unfold next_descending.
  rewrite Hs, decide_True by done. rewrite app_assoc, last_snoc in Hi. rewrite Hi.
  rewrite app_assoc, removelast_last in Hin.
  rewrite fill_stack_ok with (a := a) (g := g); [|done|done|done|].
  2:{ unfold set_item; cbn. rewrite Hin. unfold pairs. rewrite length_fmap, length_app. lia. }
  unfold pop_stack, set_item; cbn [mi_map mi_inner mi_ordering mi_item mi_end_bound descending_stack].
  rewrite reverse_nil. cbn [app].
  assert (∃ x stack, g ++ [e] = x :: stack) as (x & stack & Hx) by (destruct g; cbn; eauto).
  assert (e :: reverse g = reverse stack ++ [x]) as Hr.
  { rewrite <-reverse_cons, <-Hx, reverse_app. done. }
  rewrite Hr, last_snoc, removelast_last. exists x, stack. eexists. split; [done|]. split; [done|].
  split_and!; done.
Qed.

Lemma desc_mem_yields it stack l out :
  descends l out → desc_mem it stack l → yields it (stack ++ out).
Proof.
  intros Hd. revert it stack. induction Hd as [|a g e out Hg Ha Hd IH]; intros it stack.
  - revert it. induction stack as [|x stack IHs]; intros it Hm.
    + destruct Hm as (Ho & Hs & Hi & Hin). eexists. unfold it_next; cbn. unfold next_sync. rewrite Ho.
      unfold next_descending. rewrite Hs, decide_True by done. cbn in Hi. by rewrite Hi.
    + destruct (desc_mem_pop _ _ _ _ Hm) as (it' & Hn & Hm'). exists it'. split; [|by apply IHs].
      unfold it_next; cbn. by rewrite Hn.
  - revert it. induction stack as [|x stack IHs]; intros it Hm.
    + destruct (desc_mem_next it _ a g e eq_refl Hg Ha Hm) as (x & stack & it' & Hx & Hn & Hm').
      rewrite (app_assoc g), Hx. exists it'. split; [unfold it_next; cbn; by rewrite Hn|]. by apply IH.
    + destruct (desc_mem_pop _ _ _ _ Hm) as (it' & Hn & Hm'). exists it'. split; [|by apply IHs].
      unfold it_next; cbn. by rewrite Hn.
Qed.

Lemma table_range_descending t s e :
  map_ok (table_map t) →
  desc_mem (table_range t s e Descending) []
    (filter (λ r, range_contains (range_new s e) (key r) = true) (table_rows t)).
Proof.
  intros Hm. unfold table_range, next_sync, next_descending. cbn [mi_ordering descending_stack mi_item].
  rewrite decide_True by done. unfold table_rows, bm_values. rewrite <-range_rows by done.
  assert (bm_range (internal_range s e) (table_map t) = pairs (bm_range (internal_range s e) (table_map t)).*2) as Hp.
  { apply map_rows_keys. destruct Hm as [Hs Hk]. split.
    - eapply StronglySorted_sublist; [apply sublist_filter|done].
    - intros k r Hin. apply list_elem_of_filter in Hin as [_ Hin]. by apply Hk. }
  unfold set_item; cbn. set (inner := bm_range _ _) in *. set (l := inner.*2) in *. rewrite Hp. clearbody l. clear.
  split_and!; [done|done| |by rewrite removelast_pairs]. cbn. rewrite last_pairs. by destruct (last l).
Qed.

(** Iterating over a memtable. For any user range and either direction, the iterator over a
    consistent table yields exactly the rows whose key is in the range, every version of each key,
    in the order the merge of sources expects: keys in the direction of the scan and, for a key,
    the newest version first. *)
Theorem memtable_range_yields t s e o :
  map_ok (table_map t) →
  ∃ out, yields (table_range t s e o) out ∧
    out ≡ₚ filter (λ r, range_contains (range_new s e) (key r) = true) (table_rows t) ∧
    StronglySorted (row_le o) out.
Proof.
  intros Hm. set (l := filter _ _).
  assert (StronglySorted (λ a b, row_key a ≺ row_key b) l) as Hs.
  { eapply StronglySorted_sublist; [apply sublist_filter|by apply map_rows_sorted]. }
  destruct o.
  - exists l. split; [by apply (scan_yields mem_scan _ [] l), table_range_ascending|]. split; [done|].
    eapply StronglySorted_weaken; [|exact Hs]. apply row_key_lt_row_le.
  - destruct (descends_total l) as [out Hd]. exists out.
    split; [by apply (desc_mem_yields _ [] l), table_range_descending|].
    split; [by apply descends_perm|by eapply descends_sorted].
Qed.

Lemma memtable_range_yields_witness :
  ∃ out, yields (table_range demo_table Unbounded (Included [97%Z]) Descending) out ∧
    out ≡ₚ [mkRow [97%Z] (Value [1%Z]) 3 (Some 5%Z) None] ∧ StronglySorted (row_le Descending) out.
Proof. apply (memtable_range_yields demo_table Unbounded (Included [97%Z]) Descending). apply demo_table_ok. Defined.

(** ** Filtering an immutable memtable *)

Lemma put_last m e :
  Forall (λ b, b.1 ≺ row_key e) m → bm_insert (row_key e) e m = m ++ [(row_key e, e)].
Proof. apply bm_insert_last. Qed.

Lemma filter_after_loop_ok fuel ext s it ret l t surviving :
  mem_scan it ret l → StronglySorted (λ a b, row_key a ≺ row_key b) l → length l < fuel →
  (∀ b e, b ∈ table_map t → e ∈ l → b.1 ≺ row_key e) → bs_ok surviving →
  (∀ e x, e ∈ l → (s < seq e)%Z → ext = Some x → ∃ p, extract_segment_prefix (H:=x) (key e) = Ok p) →
  ∃ t' surviving', filter_after_loop fuel ext s it t surviving = Ok (t', surviving') ∧
    touched_segments t' = touched_segments t ∧ bs_ok surviving' ∧
    table_rows t' = table_rows t ++ filter (λ e, s < seq e)%Z l ∧
    (∀ p, p ∈ surviving' ↔ p ∈ surviving ∨
       ∃ e x, e ∈ l ∧ (s < seq e)%Z ∧ ext = Some x ∧ extract_segment_prefix (H:=x) (key e) = Ok p).
Proof.
  revert fuel it ret t surviving. induction l as [|e l IH]; intros [|fuel] it ret t surviving Hsc Hs Hf Ht Hok Hex;
    cbn in Hf; try lia; pose proof (scan_next it ret _ Hsc) as Hn; cbn in Hn.
  { destruct Hn as (it' & Hn & _). cbn [filter_after_loop]. destruct (next_sync it) as [o it1]. injection Hn as -> ->.
    eexists _, _. split; [done|]. split_and!; [done|done|by rewrite filter_nil, app_nil_r|]. set_solver. }
  destruct Hn as (it' & Hn & Hsc'). cbn [filter_after_loop]. destruct (next_sync it) as [o it1]. injection Hn as -> ->.
  apply StronglySorted_inv in Hs as [Hs HF]. rewrite Forall_forall in HF. rewrite filter_cons.
  destruct (Z.ltb_spec s (seq e)) as [Hlt|Hge].
  2:{ rewrite decide_False by lia.
      destruct (IH fuel it' _ t surviving Hsc' Hs) as (t' & sv' & Hl & Htt & Hok' & Hr & Hp);
        [lia|set_solver|done|intros; eapply Hex; [by right|done|done]|].
      exists t', sv'. split_and!; [done..|]. intros p. rewrite Hp. split; [set_solver|].
      intros [?|(e' & x & [->|He']%elem_of_cons & ? & ? & ?)]; [by left|lia|right; eauto 10]. }
  rewrite decide_True by lia.
  assert (∃ sv1, match ext with
      | Some ext => p ← extract_segment_prefix (H:=ext) (key e); mret (bs_insert p surviving)
      | None => mret surviving end = Ok sv1 ∧ bs_ok sv1 ∧
      ∀ p, p ∈ sv1 ↔ p ∈ surviving ∨ ∃ x, ext = Some x ∧ extract_segment_prefix (H:=x) (key e) = Ok p)
    as (sv1 & Hsv & Hok1 & Hp1).
  { destruct ext as [x|].
    - destruct (Hex e x ltac:(by left) Hlt eq_refl) as [p Hp]. rewrite Hp. run. exists (bs_insert p surviving).
      split; [done|]. split; [by apply bs_insert_ok|]. intros q. rewrite bs_elem_insert. split.
      + intros [->|?]; [right; by exists x|by left].
      + intros [?|(y & [= <-] & Hq)]; [by right|left; congruence].
    - exists surviving. split_and!; [done|done|]. intros q. split; [by left|]. by intros [?|(? & [=] & _)]. }
  rewrite Hsv. run.
  assert (table_map (table_put t e) = table_map t ++ [(row_key e, e)]) as Hput.
  { cbn. apply put_last, Forall_forall. intros b Hb. apply Ht; [done|by left]. }
  destruct (IH fuel it' _ (table_put t e) sv1 Hsc' Hs) as (t' & sv' & Hl & Htt & Hok' & Hr & Hp); [lia| |done| |].
  - intros b e' Hb He'. rewrite Hput in Hb. apply elem_of_app in Hb as [Hb| ->%list_elem_of_singleton]; [|by apply HF].
    apply Ht; [done|by right].
  - intros e' x He'. apply Hex. by right.
  - exists t', sv'. split_and!; [done|done|done| |].
    + rewrite Hr. unfold table_rows, bm_values. rewrite Hput, fmap_app, <-app_assoc. done.
    + intros p. rewrite Hp, Hp1. split.
      * intros [[?|(x & ? & ?)]|(e' & x & ? & ? & ? & ?)]; [by left|right; exists e, x; set_solver|right; exists e', x; set_solver].
      * intros [?|(e' & x & [->|He']%elem_of_cons & ? & ? & ?)]; [by do 2 left|left; right; eauto|right; eauto 10].
Qed.

(** Filtering an immutable memtable by sequence number. Over a consistent table, when the
    extractor recognises every surviving key, the filter returns a memtable with the same replay
    point whose rows are exactly those above the sequence number, in order, and whose touched
    segments are exactly the prefixes of the surviving rows. *)
Theorem filter_after_seq_exact imm s ext :
  map_ok (table_map (imm_table imm)) →
  (∀ e x, e ∈ table_rows (imm_table imm) → (s < seq e)%Z → ext = Some x →
     ∃ p, extract_segment_prefix (H:=x) (key e) = Ok p) →
  ∃ imm', filter_after_seq imm s ext = Ok imm' ∧
    replay_after_wal_id imm' = replay_after_wal_id imm ∧
    table_rows (imm_table imm') = filter (λ e, s < seq e)%Z (table_rows (imm_table imm)) ∧
    (∀ p, p ∈ touched_segments (imm_table imm') ↔
       ∃ e x, e ∈ table_rows (imm_table imm) ∧ (s < seq e)%Z ∧ ext = Some x ∧ extract_segment_prefix (H:=x) (key e) = Ok p).
Proof.
  intros Hm Hex. unfold filter_after_seq.
  pose proof (table_range_ascending (imm_table imm) Unbounded Unbounded Hm) as Hsc.
  rewrite list_filter_all in Hsc by (by apply Forall_true).
  destruct (filter_after_loop_ok (S (length (table_map (imm_table imm)))) ext s _ [] _ table_new [] Hsc)
    as (t' & sv & Hl & Htt & Hok & Hr & Hp); [by apply map_rows_sorted| |set_solver|constructor|done|].
  { unfold table_rows, bm_values. rewrite length_fmap. lia. }
  rewrite Hl. run. eexists. split; [done|]. split; [done|]. cbn [imm_new imm_table].
  unfold record_touched_segments. cbn in Htt. rewrite Htt.
  destruct (decide (sv = [])) as [->|Hne]; cbn [table_rows table_map touched_segments].
  - split; [exact Hr|]. intros p. rewrite Htt. specialize (Hp p). set_solver.
  - split; [exact Hr|]. intros p. rewrite decide_True by done. rewrite Hp. set_solver.
Qed.

Lemma filter_after_seq_exact_witness :
  ∃ imm', filter_after_seq (imm_new demo_table 4) 2 None = Ok imm' ∧
    replay_after_wal_id imm' = 4%Z ∧ table_rows (imm_table imm') = [mkRow [97%Z] (Value [1%Z]) 3 (Some 5%Z) None].
Proof.
  destruct (filter_after_seq_exact (imm_new demo_table 4) 2 None) as (imm' & H1 & H2 & H3 & _);
    [apply demo_table_ok|discriminate|]. exists imm'. split; [exact H1|split; [exact H2|exact H3]].
Defined.
