(* ===== verification/WriteBatch.v ===== *)
(** * Write batches ([batch.rs], the TTL options of [config.rs])

    A batch collects puts, deletes and merges per key; extracting it gives the
    rows that are written at one sequence number.  [overflow_checks] is the
    compiler setting of that name: an [i64] addition that overflows panics with
    it and wraps around without it. *)

From S2P Require Export OrdMap MergeOperator Segments.

(** ** Expiry of an operation *)

Inductive Ttl :=
| TtlDefault
| NoExpiry
| ExpireAfterMillis (ttl_millis : Z)
| ExpireAtMillis (timestamp_millis : Z).

Record PutOptions := mkPutOptions { put_ttl : Ttl }.
Record MergeOptions := mkMergeOptions { merge_ttl : Ttl }.

Section expiry.
  Context (overflow_checks : bool).

(** [a + b] on [i64] *)
Definition add_i64 {E} (a b : Z) : outcome E Z :=
  if decide ((-2^63) ≤ a + b ≤ 2^63 - 1)%Z then mret (a + b)%Z
  else if overflow_checks then Panic else mret (to_signed 64 (a + b)).

(** [PutOptions::checked_expire_ts] and [MergeOptions::checked_expire_ts] *)
Definition checked_expire_ts (now_millis ttl_millis : Z) : result (option Z) :=
  if (2^63 - 1 <? ttl_millis)%Z then mret None
  else
    expire_ts ← add_i64 now_millis ttl_millis;
    if (expire_ts <? now_millis)%Z then mret None else mret (Some expire_ts).

(** [PutOptions::expire_ts_from] and [MergeOptions::expire_ts_from] *)
Definition expire_ts_from (ttl : Ttl) (default_ttl_millis : option Z) (now_millis : Z) : result (option Z) :=
  match ttl with
  | TtlDefault =>
      match default_ttl_millis with
      | None => mret None
      | Some d => checked_expire_ts now_millis d
      end
  | NoExpiry => mret None
  | ExpireAfterMillis t => checked_expire_ts now_millis t
  | ExpireAtMillis t => mret (Some t)
  end.
End expiry.

(** ** The batch *)

Inductive WriteOp :=
| OpPut (v : bytes) (options : PutOptions)
| OpDelete
| OpMerge (v : bytes) (options : MergeOptions).

Record WriteBatch := mkBatch {
  ops : BTreeMap bytes (list WriteOp);
  op_count : nat;
  has_merge_ops : bool;
}.

(** [WriteOp::to_row_entry] *)
Definition to_row_entry (op : WriteOp) (k : bytes) (s : Z) (create_ts expire_ts : option Z) : RowEntry :=
  match op with
  | OpPut v _ => mkRow k (Value v) s create_ts expire_ts
  | OpDelete => mkRow k Tombstone s create_ts expire_ts
  | OpMerge v _ => mkRow k (Merge v) s create_ts expire_ts
  end.

(** [WriteBatch::new] *)
Definition batch_new : WriteBatch := mkBatch [] 0 false.

(** [WriteBatch::assert_kv] *)
Definition assert_kv (k v : bytes) : result unit :=
  _ ← rust_assert (negb (bool_decide (k = [])));
  _ ← rust_assert (Z.of_nat (length k) <=? u32_max)%Z;
  rust_assert (Z.of_nat (length v) <=? u32_max)%Z.

(** What [put] and [delete] share: insert the only operation of the key. *)
Definition replace_ops (b : WriteBatch) (k : bytes) (op : WriteOp) : result WriteBatch :=
  let previous := bm_get k (ops b) in
  let count := op_count b + 1 in
  count ← match previous with
          | Some p => if decide (length p ≤ count) then mret (count - length p) else Panic
          | None => mret count
          end;
  mret (mkBatch (bm_insert k [op] (ops b)) count (has_merge_ops b)).

(** [WriteBatch::put_bytes_with_options]; the other [put] methods copy their arguments and call it. *)
Definition put_bytes_with_options (b : WriteBatch) (k v : bytes) (options : PutOptions) : result WriteBatch :=
  _ ← assert_kv k v;
  replace_ops b k (OpPut v options).

(** [WriteBatch::merge_with_options] *)
Definition merge_with_options (b : WriteBatch) (k v : bytes) (options : MergeOptions) : result WriteBatch :=
  _ ← assert_kv k v;
  let op := OpMerge v options in
  let ops' := match bm_get k (ops b) with
              | Some os => bm_insert k (os ++ [op]) (ops b)
              | None => bm_insert k [op] (ops b)
              end in
  mret (mkBatch ops' (op_count b + 1) true).

(** [WriteBatch::delete] *)
Definition batch_delete (b : WriteBatch) (k : bytes) : result WriteBatch :=
  _ ← assert_kv k [];
  replace_ops b k OpDelete.

(** [WriteBatch::is_empty] *)
Definition batch_is_empty (b : WriteBatch) : bool := bool_decide (ops b = []).

(** [WriteBatch::keys] *)
Definition batch_keys (b : WriteBatch) : list bytes := (ops b).*1.

(** ** Its iterator *)

Record WriteBatchIterator := mkBatchIter {
  wb_iter : list RowEntry;
  wb_ordering : IterationOrder;
}.

(** [BTreeMap::range], which panics on an inverted range and on an empty one with both bounds excluded. *)
Definition btree_range {V} (s e : Bound bytes) (m : BTreeMap bytes V) : result (BTreeMap bytes V) :=
  let inverted :=
    match s, e with
    | Included a, Included b | Included a, Excluded b | Excluded a, Included b => ord_ltb b a
    | Excluded a, Excluded b => ord_leb b a
    | _, _ => false
    end in
  if inverted then Panic else mret (filter (λ b, range_contains (range_new s e) b.1 = true) m).

Section iterator.
  Context (overflow_checks : bool).

(** [WriteBatchIterator::write_op_to_row_entry] *)
Definition write_op_to_row_entry (s : Z) (now default_ttl_millis : option Z) (kop : bytes * WriteOp) : result RowEntry :=
  let '(k, op) := kop in
  expire_ts ← match op, now with
              | OpPut _ o, Some now => expire_ts_from overflow_checks (put_ttl o) default_ttl_millis now
              | OpMerge _ o, Some now => expire_ts_from overflow_checks (merge_ttl o) default_ttl_millis now
              | _, _ => mret None
              end;
  mret (to_row_entry op k s now expire_ts).

(** The operations of a part of the map, newest first per key. *)
Definition flat_ops (m : BTreeMap bytes (list WriteOp)) : list (bytes * WriteOp) :=
  m ≫= λ b, (λ op, (b.1, op)) <$> reverse b.2.

(** [WriteBatchIterator::new] *)
Definition batch_iter_new (b : WriteBatch) (start_bound end_bound : Bound bytes) (ordering : IterationOrder) (s : Z)
    (now default_ttl_millis : option Z) : result WriteBatchIterator :=
  m ← btree_range start_bound end_bound (ops b);
  let m := match ordering with Ascending => m | Descending => reverse m end in
  entries ← mapM (write_op_to_row_entry s now default_ttl_millis) (flat_ops m);
  mret (mkBatchIter entries ordering).
End iterator.

(** The loop of [WriteBatchIterator::seek]. *)
Fixpoint skip_below (ordering : IterationOrder) (next_key : bytes) (l : list RowEntry) : list RowEntry :=
  match l with
  | [] => []
  | e :: l' =>
      if match ordering with Ascending => ord_ltb (key e) next_key | Descending => ord_ltb next_key (key e) end
      then skip_below ordering next_key l' else l
  end.

Global Instance batch_iterator : RowEntryIterator WriteBatchIterator := {
  it_init it := mret it;
  it_next it := match wb_iter it with
                | [] => mret (None, it)
                | e :: l => mret (Some e, mkBatchIter l (wb_ordering it))
                end;
  it_seek k it := mret (mkBatchIter (skip_below (wb_ordering it) k (wb_iter it)) (wb_ordering it));
}.

(** ** Extraction *)

Section extraction.
  Context {I : Type} `{RowEntryIterator I}.

(** The loop of [WriteBatch::extract_entries]. *)
Fixpoint extract_loop (fuel : nat) (extractor : option PrefixExtractor) (it : I) (entries : list RowEntry)
    (touched_segments : BTreeSet bytes) (entries_bytes : nat) : result (list RowEntry * BTreeSet bytes * nat) :=
  match fuel with
  | O => OutOfFuel
  | S fuel =>
      '(o, it) ← it_next (I:=I) it;
      match o with
      | None => mret (entries, touched_segments, entries_bytes)
      | Some e =>
          _ ← match last entries with
              | Some previous =>
                  if decide (key previous = key e) then
                    if decide (expire_ts previous = expire_ts e) then Panic
                    else Err (IncompatibleMergeTtls (key e) (expire_ts previous) (expire_ts e))
                  else mret tt
              | None => mret tt
              end;
          touched_segments ← match extractor with
                             | Some x => p ← extract_segment_prefix (H:=x) (key e); mret (bs_insert p touched_segments)
                             | None => mret touched_segments
                             end;
          let entries_bytes := entries_bytes + (length (key e) + value_len (value e)) in
          extract_loop fuel extractor it (entries ++ [e]) touched_segments entries_bytes
      end
  end.
End extraction.

(** [WriteBatch::extract_entries] *)
Definition extract_entries (overflow_checks : bool) (fuel : nat) (b : WriteBatch) (s now : Z)
    (default_ttl_millis : option Z) (merger : option MergeOperator) (extractor : option PrefixExtractor)
    : result (list RowEntry * BTreeSet bytes * nat) :=
  it ← batch_iter_new overflow_checks b Unbounded Unbounded Ascending s (Some now) default_ttl_millis;
  if has_merge_ops b then
    match merger with
    | Some op =>
        extract_loop (H:=merge_op_iterator (H0:=op) fuel) fuel extractor (merge_op_new it false None) [] [] 0
    | None => Err MergeOperatorMissing
    end
  else extract_loop fuel extractor it [] [] 0.

(** ** What a sequence of calls leaves in a batch *)

Definition is_merge_op (op : WriteOp) : bool := match op with OpMerge _ _ => true | _ => false end.

(** The calls a client makes, in order. *)
Definition call (b : WriteBatch) (c : bytes * WriteOp) : result WriteBatch :=
  match c.2 with
  | OpPut v o => put_bytes_with_options b c.1 v o
  | OpDelete => batch_delete b c.1
  | OpMerge v o => merge_with_options b c.1 v o
  end.

Fixpoint perform (b : WriteBatch) (calls : list (bytes * WriteOp)) : result WriteBatch :=
  match calls with
  | [] => mret b
  | c :: calls => b ← call b c; perform b calls
  end.

Definition calls_on (k : bytes) (calls : list (bytes * WriteOp)) : list WriteOp :=
  (filter (λ c, c.1 = k) calls).*2.

(** A put or a delete makes the calls before it on its key irrelevant. *)
Definition effective (os : list WriteOp) : list WriteOp :=
  foldl (λ acc op, if is_merge_op op then acc ++ [op] else [op]) [] os.

Definition op_bytes (op : WriteOp) : bytes :=
  match op with OpPut v _ | OpMerge v _ => v | OpDelete => [] end.

Definition valid_call (c : bytes * WriteOp) : Prop :=
  c.1 ≠ [] ∧ (Z.of_nat (length c.1) ≤ u32_max)%Z ∧ (Z.of_nat (length (op_bytes c.2)) ≤ u32_max)%Z.

Definition total_ops (m : BTreeMap bytes (list WriteOp)) : nat := sum_list (length <$> m.*2).

Record batch_of (calls : list (bytes * WriteOp)) (b : WriteBatch) : Prop := {
  bo_sorted : bm_ok (ops b);
  bo_get k os : bm_get k (ops b) = Some os ↔ os = effective (calls_on k calls) ∧ os ≠ [];
  bo_count : op_count b = total_ops (ops b);
  bo_merge : has_merge_ops b = existsb (λ c, is_merge_op c.2) calls;
}.

Lemma assert_kv_ok k v : valid_call (k, OpPut v (mkPutOptions NoExpiry)) → assert_kv k v = Ok tt.
Proof.
  intros (Hk & Hl & Hv). cbn in *. unfold assert_kv.
  rewrite bool_decide_eq_false_2 by done. run. rewrite (proj2 (Z.leb_le _ _) Hl). run. by rewrite (proj2 (Z.leb_le _ _) Hv).
Qed.

Lemma calls_on_snoc k calls c :
  calls_on k (calls ++ [c]) = calls_on k calls ++ (if decide (c.1 = k) then [c.2] else []).
Proof.
  unfold calls_on. rewrite filter_app, fmap_app. f_equal. rewrite filter_cons, filter_nil. by destruct (decide _).
Qed.

Lemma effective_snoc os op : effective (os ++ [op]) = if is_merge_op op then effective os ++ [op] else [op].
Proof. unfold effective. by rewrite foldl_app. Qed.

Lemma effective_nonempty os : effective os = [] ↔ os = [].
Proof.
  destruct os as [|op os _] using rev_ind; [done|]. rewrite effective_snoc. destruct (is_merge_op op).
  - split; intros E; by apply app_eq_nil in E as [_ ?].
  - split; [done|]. intros E. by apply app_eq_nil in E as [_ ?].
Qed.

(** Only the oldest operation kept for a key can be a put or a delete. *)
Lemma effective_shape os op os' : effective os = op :: os' → Forall (λ o, is_merge_op o = true) os'.
Proof.
  revert op os'. induction os as [|o os IH] using rev_ind; intros op os'; [done|]. rewrite effective_snoc.
  destruct (is_merge_op o) eqn:Ho; [|by intros [= <- <-]].
  destruct (effective os) as [|op1 os1]; [by intros [= <- <-]|]. intros [= <- <-].
  apply Forall_app. split; [by eapply IH|by repeat constructor].
Qed.

Lemma get_split {V} (k : bytes) (v : V) m :
  bm_ok m →
  ∃ a b, bm_insert k v m = a ++ (k, v) :: b ∧
    match bm_get k m with Some v' => m = a ++ (k, v') :: b | None => m = a ++ b end.
Proof.
  intros Hok. destruct (bm_insert_split k v m Hok) as (a & b & Hm & Hi & Ha & Hb). exists a, b. split; [done|].
  destruct Hm as [Hm|[v' Hm]].
  - destruct (bm_get k m) as [v'|] eqn:Hg; [|done]. exfalso. apply bm_get_Some in Hg; [|done]. rewrite Hm in Hg.
    rewrite Forall_forall in Ha, Hb. apply elem_of_app in Hg as [Hg|Hg]; [apply Ha in Hg|apply Hb in Hg]; by apply ord_lt_irrefl in Hg.
  - rewrite (proj2 (bm_get_Some k v' m Hok)); [done|]. rewrite Hm. set_solver.
Qed.

Lemma total_ops_app a b : total_ops (a ++ b) = total_ops a + total_ops b.
Proof. unfold total_ops. by rewrite !fmap_app, sum_list_with_app. Qed.

Lemma total_ops_insert k os m :
  bm_ok m →
  total_ops (bm_insert k os m) + match bm_get k m with Some p => length p | None => 0 end = total_ops m + length os.
Proof.
  intros Hok. destruct (get_split k os m Hok) as (a & b & -> & Hm).
  destruct (bm_get k m) as [p|]; rewrite Hm, !total_ops_app; unfold total_ops; cbn; lia.
Qed.

Lemma batch_new_of : batch_of [] batch_new.
Proof. split; cbn; [constructor| |done|done]. intros k os. split; [done|]. by intros [-> ?]. Qed.

(** What an insertion at the key of the last call does to the recorded operations. *)
Lemma insert_get calls b c os :
  batch_of calls b → os = effective (calls_on c.1 (calls ++ [c])) → os ≠ [] →
  ∀ k os', bm_get k (bm_insert c.1 os (ops b)) = Some os' ↔ os' = effective (calls_on k (calls ++ [c])) ∧ os' ≠ [].
Proof.
  intros Hb Hos Hne k os'. destruct (decide (k = c.1)) as [->|Hk].
  - rewrite bm_get_insert, Hos. rewrite Hos in Hne. split; [by intros [= <-]|]. by intros [-> _].
  - rewrite bm_get_insert_ne by done. rewrite (bo_get _ _ Hb), calls_on_snoc, decide_False, app_nil_r by done. done.
Qed.

Lemma recorded_of calls b k :
  batch_of calls b → bm_get k (ops b) = match effective (calls_on k calls) with [] => None | os => Some os end.
Proof.
  intros Hb. destruct (effective (calls_on k calls)) as [|op os] eqn:He.
  - destruct (bm_get k (ops b)) as [os|] eqn:Hg; [|done]. apply (bo_get _ _ Hb) in Hg as [-> Hne]. by rewrite He in Hne.
  - apply (bo_get _ _ Hb). by rewrite He.
Qed.

Lemma replace_ops_of calls b k op :
  batch_of calls b → is_merge_op op = false →
  ∃ b', replace_ops b k op = Ok b' ∧ batch_of (calls ++ [(k, op)]) b'.
Proof.
  intros Hb Hop. unfold replace_ops. pose proof (total_ops_insert k [op] (ops b) (bo_sorted _ _ Hb)) as Hsum.
  pose proof (bo_count _ _ Hb) as Hc. cbn [length] in Hsum.
  assert (∃ n, match bm_get k (ops b) with
      | Some p => if decide (length p ≤ op_count b + 1) then mret (op_count b + 1 - length p) else Panic
      | None => mret (op_count b + 1) end = Ok (E:=SlateDBError) n ∧ n = total_ops (bm_insert k [op] (ops b))) as (n & -> & Hn).
  { destruct (bm_get k (ops b)) as [p|]; [rewrite decide_True by lia|]; eexists; (split; [done|]); lia. }
  run. eexists. split; [done|]. split; cbn.
  - by apply bm_insert_ok, (bo_sorted _ _ Hb).
  - apply (insert_get calls b (k, op)); [done| |done]. rewrite calls_on_snoc, decide_True, effective_snoc by done. cbn [snd]. by rewrite Hop.
  - done.
  - rewrite existsb_app, (bo_merge _ _ Hb). cbn. by rewrite Hop, !orb_false_r.
Qed.

Lemma merge_of calls b k v o :
  batch_of calls b → valid_call (k, OpMerge v o) →
  ∃ b', merge_with_options b k v o = Ok b' ∧ batch_of (calls ++ [(k, OpMerge v o)]) b'.
Proof.
  intros Hb Hv. unfold merge_with_options. rewrite assert_kv_ok by exact Hv. run.
  pose proof (recorded_of calls b k Hb) as Hg.
  assert (match bm_get k (ops b) with
      | Some os => bm_insert k (os ++ [OpMerge v o]) (ops b) | None => bm_insert k [OpMerge v o] (ops b) end =
    bm_insert k (effective (calls_on k calls) ++ [OpMerge v o]) (ops b)) as ->.
  { rewrite Hg. by destruct (effective (calls_on k calls)). }
  eexists. split; [done|]. split; cbn [ops op_count has_merge_ops].
  - by apply bm_insert_ok, (bo_sorted _ _ Hb).
  - apply (insert_get calls b (k, OpMerge v o)); [done| |]; cbn; [|by destruct (effective _)].
    by rewrite calls_on_snoc, decide_True, effective_snoc by done.
  - pose proof (total_ops_insert k (effective (calls_on k calls) ++ [OpMerge v o]) (ops b) (bo_sorted _ _ Hb)) as Hsum.
    rewrite Hg, length_app in Hsum. rewrite (bo_count _ _ Hb). destruct (effective (calls_on k calls)); cbn [length app] in *; lia.
  - by rewrite existsb_app, orb_true_r.
Qed.

Lemma call_of calls b c :
  batch_of calls b → valid_call c → ∃ b', call b c = Ok b' ∧ batch_of (calls ++ [c]) b'.
Proof.
  intros Hb Hv. destruct c as [k [v o| |v o]]; unfold call; cbn [fst snd].
  - unfold put_bytes_with_options. rewrite assert_kv_ok by exact Hv. run. by apply replace_ops_of.
  - unfold batch_delete. rewrite assert_kv_ok by exact Hv. run. by apply replace_ops_of.
  - by apply merge_of.
Qed.

Lemma perform_of calls0 b calls :
  batch_of calls0 b → Forall valid_call calls → ∃ b', perform b calls = Ok b' ∧ batch_of (calls0 ++ calls) b'.
Proof.
  revert calls0 b. induction calls as [|c calls IH]; intros calls0 b Hb HF.
  { exists b. by rewrite app_nil_r. }
  apply Forall_cons in HF as [Hc HF]. destruct (call_of _ _ c Hb Hc) as (b' & Hcall & Hb').
  destruct (IH _ _ Hb' HF) as (b'' & Hp & Hb''). exists b''. cbn [perform]. rewrite Hcall. run. split; [done|].
  by rewrite <-app_assoc in Hb''.
Qed.

(** ** Expiry *)

(** C36: Expiry arithmetic at its width. From an [i64] clock and a [u64] duration: a duration beyond
    [i64::MAX] means no expiry; otherwise the expiry is the sum when it fits an [i64], and when it
    does not the build decides: without overflow checks the row does not expire, with them the
    addition panics. *)
Theorem checked_expire_ts_exact checks now ttl :
  is_i64 now → is_u64 ttl →
  checked_expire_ts checks now ttl =
    if decide (2 ^ 63 ≤ ttl)%Z then Ok None
    else if decide (now + ttl < 2 ^ 63)%Z then Ok (Some (now + ttl)%Z)
    else if checks then Panic else Ok None.
Proof.
  unfold is_i64, is_u64. intros Hn Ht. unfold checked_expire_ts, add_i64.
  destruct (Z.ltb_spec (2 ^ 63 - 1) ttl); [by rewrite decide_True by lia|].
  rewrite (decide_False (P:=(2 ^ 63 ≤ ttl)%Z)) by lia.
  destruct (decide (now + ttl < 2 ^ 63)%Z) as [Hlt|Hge].
  - rewrite decide_True by lia. run. by rewrite (proj2 (Z.ltb_ge _ _)) by lia.
  - rewrite decide_False by lia. destruct checks; [done|]. run.
    assert (to_signed 64 (now + ttl) < now)%Z as Hw.
    { unfold to_signed. rewrite Z.mod_small by lia. rewrite decide_False by lia. lia. }
    by rewrite (proj2 (Z.ltb_lt _ _) Hw).
Qed.

Lemma checked_expire_ts_exact_witness :
  checked_expire_ts false (2 ^ 63 - 10) 100 = Ok None ∧ checked_expire_ts true (2 ^ 63 - 10) 100 = Panic.
Proof.
  split; rewrite (checked_expire_ts_exact _ (2 ^ 63 - 10) 100); ((by vm_compute) || (unfold is_i64, is_u64; lia)).
Defined.

(** ** The rows of a batch *)

Definition op_expiry (checks : bool) (default_ttl : option Z) (now : Z) (op : WriteOp) : result (option Z) :=
  match op with
  | OpPut _ o => expire_ts_from checks (put_ttl o) default_ttl now
  | OpMerge _ o => expire_ts_from checks (merge_ttl o) default_ttl now
  | OpDelete => mret None
  end.

Section rows.
  Context (s now : Z) (x : WriteOp → option Z).

Definition op_row (c : bytes * WriteOp) : RowEntry := to_row_entry c.2 c.1 s (Some now) (x c.2).
Definition batch_rows (m : BTreeMap bytes (list WriteOp)) : list RowEntry := op_row <$> flat_ops m.

Lemma op_row_key c : key (op_row c) = c.1.
Proof. by destruct c as [k []]. Qed.
Lemma op_row_seq c : seq (op_row c) = s.
Proof. by destruct c as [k []]. Qed.
Lemma op_row_create c : create_ts (op_row c) = Some now.
Proof. by destruct c as [k []]. Qed.
Lemma op_row_expire c : expire_ts (op_row c) = x c.2.
Proof. by destruct c as [k []]. Qed.
Lemma op_row_merge c : is_merge (value (op_row c)) = is_merge_op c.2.
Proof. by destruct c as [k []]. Qed.

Lemma rows_computed checks d l :
  (∀ c, c ∈ l → op_expiry checks d now c.2 = Ok (x c.2)) →
  mapM (write_op_to_row_entry checks s (Some now) d) l = Ok (op_row <$> l).
Proof.
  induction l as [|[k op] l IH]; intros Hx; [done|]. cbn [mapM].
  assert (write_op_to_row_entry checks s (Some now) d (k, op) = Ok (op_row (k, op))) as ->.
  { pose proof (Hx (k, op) ltac:(by left)) as Hop. unfold write_op_to_row_entry. cbn in Hop.
    destruct op; cbn in *; (rewrite Hop || injection Hop as <-); by run. }
  run. rewrite IH by (intros; apply Hx; by right). by run.
Qed.

Lemma flat_ops_cons k os m : flat_ops ((k, os) :: m) = ((k,.) <$> reverse os) ++ flat_ops m.
Proof. done. Qed.

Lemma elem_of_flat_ops c m : c ∈ flat_ops m ↔ ∃ os, (c.1, os) ∈ m ∧ c.2 ∈ os.
Proof.
  unfold flat_ops. rewrite list_elem_of_bind. split.
  - intros ([k os] & Hc & Hin). apply list_elem_of_fmap in Hc as (op & -> & Hop). cbn in *.
    exists os. split; [done|]. by apply elem_of_reverse.
  - intros (os & Hin & Hop). exists (c.1, os). split; [|done]. apply list_elem_of_fmap. exists c.2.
    split; [by destruct c|]. by apply elem_of_reverse.
Qed.

Lemma length_flat_ops m : length (flat_ops m) = total_ops m.
Proof.
  induction m as [|[k os] m IH]; [done|]. rewrite flat_ops_cons, length_app, length_fmap, length_reverse, IH.
  by unfold total_ops.
Qed.

Lemma batch_rows_newest_first m : newest_first (batch_rows m).
Proof.
  unfold newest_first, batch_rows. induction (flat_ops m) as [|c l IH]; [constructor|]. cbn. constructor; [done|].
  apply Forall_forall. intros e (c' & -> & _)%list_elem_of_fmap _. by rewrite !op_row_seq.
Qed.
End rows.

(** ** Resolving the operations of a key *)

Section groups.
  Context (f : bytes → option bytes → bytes → bytes).

Lemma resolve_fuel n n' d barrier l :
  length l ≤ n → length l ≤ n' → resolve f n d barrier l = resolve f n' d barrier l.
Proof.
  revert n' l. induction n as [|n IH]; intros [|n'] [|e l] Hn Hn'; cbn in Hn, Hn'; try lia; try done.
  cbn [resolve]. destruct (passes barrier e) eqn:Hp; [f_equal; apply IH; lia|].
  destruct (split_run d (key e) (expire_ts e) (e :: l)) as [[run_ops base] rest] eqn:Hrun.
  unfold passes in Hp. apply orb_false_iff in Hp as [He%negb_false_iff _].
  destruct (split_run_head _ _ _ _ _ _ He Hrun) as (_ & _ & Hlen). f_equal. apply IH; lia.
Qed.

Lemma split_run_group k e ms base rest :
  Forall (λ r, key r = k ∧ expire_ts r = e ∧ is_merge (value r) = true) ms →
  (∀ b, base = Some b → key b = k ∧ expire_ts b = e ∧ is_merge (value b) = false) →
  (base = None → ∀ r, head rest = Some r → is_matching_entry false r k e = false) →
  split_run false k e (ms ++ option_list base ++ rest) = (ms, base, rest).
Proof.
  intros Hms Hb Hr. induction Hms as [|r ms (Hk & He & Hm) Hms IH]; cbn [app].
  - destruct base as [b|]; cbn.
    + destruct (Hb b eq_refl) as (Hk & He & Hm). unfold is_matching_entry.
      rewrite !bool_decide_eq_true_2, Hm by done. done.
    + destruct rest as [|r rest]; [done|]. cbn. by rewrite Hr.
  - cbn. unfold is_matching_entry at 1. rewrite !bool_decide_eq_true_2, Hm by done. cbn. by rewrite IH.
Qed.

Lemma meta_const {T} (g : RowEntry → option T) (c : T → T → T) v es :
  (∀ t, c t t = t) → es ≠ [] → Forall (λ e, g e = v) es → meta g c es = v.
Proof.
  intros Hc Hne HF. induction HF as [|e es He HF IH]; [done|]. cbn. rewrite He.
  destruct es as [|e' es]; [by destruct v|]. fold (meta g c (e' :: es)). rewrite IH by done. destruct v; [|done]. cbn. by rewrite Hc.
Qed.

Lemma split_run_expire k e l ms base rest :
  split_run false k e l = (ms, base, rest) → Forall (λ r, expire_ts r = e) (ms ++ option_list base).
Proof.
  revert ms. induction l as [|r l IH]; intros ms; cbn [split_run]; [by intros [= <- <- _]|].
  destruct (is_matching_entry false r k e) eqn:Hr; [|by intros [= <- <- _]].
  unfold is_matching_entry in Hr. apply andb_true_iff in Hr as [_ Hr]. apply bool_decide_eq_true in Hr.
  destruct (is_merge (value r)); [|by intros [= <- <- _]; repeat constructor].
  destruct (split_run false k e l) as [[ms' base'] rest'] eqn:Hs. intros [= <- -> ->]. constructor; [done|]. by apply IH.
Qed.

(** The first resolved row carries the key and, when expiries are kept apart, the expiry of the first row. *)
Lemma resolve_head n e l :
  ∃ r, head (resolve f (S n) false None (e :: l)) = Some r ∧ key r = key e ∧ expire_ts r = expire_ts e.
Proof.
  cbn [resolve]. destruct (passes None e) eqn:Hp; [by exists e|].
  unfold passes in Hp. apply orb_false_iff in Hp as [He%negb_false_iff _].
  destruct (split_run false (key e) (expire_ts e) (e :: l)) as [[run_ops base] rest] eqn:Hrun.
  exists (merged_row f e run_ops base). split; [done|]. split; [done|].
  destruct (split_run_head _ _ _ _ _ _ He Hrun) as (ops' & -> & _).
  cbn [merged_row expire_ts]. apply meta_const; [apply Z.min_id|done|by apply (split_run_expire _ _ _ _ _ _ Hrun)].
Qed.

(** *** One key's operations *)

Context (s now : Z) (x : WriteOp → option Z).
Notation rows_of k os := (op_row s now x <$> ((k,.) <$> reverse os)).

Definition shaped (os : list WriteOp) : Prop := ∃ op ms, os = op :: ms ∧ Forall (λ o, is_merge_op o = true) ms.
Definition uniform (os : list WriteOp) : Prop := ∀ a b, a ∈ os → b ∈ os → x a = x b.

Record row_for (k : bytes) (os : list WriteOp) (r : RowEntry) : Prop := {
  rf_key : key r = k;
  rf_seq : seq r = s;
  rf_create : create_ts r = Some now;
  rf_expire op : op ∈ os → expire_ts r = x op;
}.

Lemma rows_of_merges k ms e :
  Forall (λ o, is_merge_op o = true) ms → (∀ op, op ∈ ms → x op = e) →
  Forall (λ r, key r = k ∧ expire_ts r = e ∧ is_merge (value r) = true) (rows_of k ms).
Proof.
  intros Hm He. apply Forall_forall. intros r (c & -> & Hc)%list_elem_of_fmap.
  apply list_elem_of_fmap in Hc as (op & -> & Hop). rewrite Forall_forall in Hm. rewrite elem_of_reverse in Hop.
  rewrite op_row_key, op_row_expire, op_row_merge. cbn [fst snd]. split; [done|].
  split; [by apply He|by apply Hm].
Qed.

Lemma rows_of_snoc k op ms : rows_of k (op :: ms) = rows_of k ms ++ [op_row s now x (k, op)].
Proof. by rewrite reverse_cons, !fmap_app. Qed.

Lemma resolve_uniform n k os rest :
  shaped os → uniform os → Forall (λ r, key r ≠ k) rest → length (rows_of k os ++ rest) ≤ n →
  ∃ r, resolve f n false None (rows_of k os ++ rest) = r :: resolve f n false None rest ∧ row_for k os r.
Proof.
  intros (op & ms & -> & Hms) Hu Hrest Hn.
  assert (∀ r, head rest = Some r → is_matching_entry false r k (x op) = false) as Hnm.
  { intros r Hr. unfold is_matching_entry. rewrite bool_decide_eq_false_2; [done|].
    rewrite Forall_forall in Hrest. apply Hrest. destruct rest; [done|]. injection Hr as ->. by left. }
  assert (∀ o, o ∈ op :: ms → x o = x op) as Hx by (intros; apply Hu; [done|by left]).
  destruct n as [|n]; [rewrite rows_of_snoc, !length_app in Hn; cbn in Hn; lia|].
  destruct (rows_of k (op :: ms)) as [|e g] eqn:Hg; [by rewrite rows_of_snoc in Hg; apply app_eq_nil in Hg as []|].
  assert (∀ r, r ∈ e :: g → row_for k (op :: ms) r) as Hrows.
  { intros r Hr. rewrite <-Hg in Hr. apply list_elem_of_fmap in Hr as (c & -> & Hc).
    apply list_elem_of_fmap in Hc as (o & -> & Ho). rewrite elem_of_reverse in Ho.
    split; rewrite ?op_row_key, ?op_row_seq, ?op_row_create; [done..|]. intros o' Ho'. rewrite op_row_expire. cbn.
    rewrite (Hx o Ho). symmetry. by apply Hx. }
  assert (length rest ≤ n) as Hlen by (cbn in Hn; rewrite length_app in Hn; lia).
  rewrite (resolve_fuel (S n) n _ _ rest) by lia.
  rewrite <-app_comm_cons. cbn [resolve]. destruct (passes None e) eqn:Hp.
  - exists e. split; [|by apply Hrows; left].
    assert (ms = []) as ->.
    { destruct ms as [|m ms _] using rev_ind; [done|]. exfalso.
      apply Forall_app in Hms as [_ Hm]. inversion Hm as [|?? Hm']; subst.
      rewrite app_comm_cons, reverse_app in Hg. cbn in Hg. injection Hg as <- _.
      unfold passes in Hp. rewrite op_row_merge in Hp. cbn [snd] in Hp. by rewrite Hm' in Hp. }
    cbn in Hg. by injection Hg as <- <-.
  - assert (key e = k ∧ expire_ts e = x op) as [-> ->] by (destruct (Hrows e ltac:(by left)); split; [done|]; eauto using list_elem_of_here).
    rewrite app_comm_cons, <-Hg.
    assert (∀ ms' base, ms' ++ option_list base = e :: g →
      row_for k (op :: ms) (merged_row f e ms' base)) as Hmr.
    { intros ms' base Eb. destruct (Hrows e ltac:(by left)) as [? ? ? He]. split; cbn [merged_row key seq create_ts expire_ts]; [done..| |].
      - rewrite Eb. apply meta_const; [apply Z.max_id|done|]. apply Forall_forall. intros r Hr. by apply Hrows.
      - intros o Ho. rewrite Eb. apply meta_const; [apply Z.min_id|done|]. apply Forall_forall. intros r Hr. by apply Hrows. }
    destruct (is_merge_op op) eqn:Hop.
    + pose proof (split_run_group k (x op) (rows_of k (op :: ms)) None rest) as Hs.
      change (option_list None ++ rest) with rest in Hs.
      rewrite Hs; [|apply rows_of_merges; [by constructor|done]|done|done].
      eexists. split; [done|]. apply Hmr. by rewrite Hg, app_nil_r.
    + rewrite rows_of_snoc, <-app_assoc.
      rewrite (split_run_group k (x op) (rows_of k ms) (Some (op_row s now x (k, op))) rest); [|apply rows_of_merges; [done|set_solver]| |done].
      * eexists. split; [done|]. apply Hmr. by rewrite <-Hg, rows_of_snoc.
      * intros b [= <-]. by rewrite op_row_key, op_row_expire, op_row_merge.
Qed.

Lemma not_uniform_split os :
  ¬ uniform os →
  ∃ a o b o' c, reverse os = (a ++ [o]) ++ o' :: b ∧ c = x o ∧ (∀ p, p ∈ a ++ [o] → x p = c) ∧ x o' ≠ c.
Proof.
  intros Hnu. assert (¬ uniform (reverse os)) as Hnu'.
  { intros Hu. apply Hnu. intros p q Hp Hq. apply Hu; by apply elem_of_reverse. }
  clear Hnu. destruct (reverse os) as [|o l]; [exfalso; apply Hnu'; by intros ??[]%elem_of_nil|].
  assert (¬ ∀ p, p ∈ l → x p = x o) as Hex.
  { intros HF. apply Hnu'. assert (∀ p, p ∈ o :: l → x p = x o) as HF' by (intros p [->|Hp]%elem_of_cons; [done|by apply HF]).
    intros p q Hp Hq. by rewrite (HF' p Hp), (HF' q Hq). }
  clear Hnu'. assert (∃ a o' b, l = a ++ o' :: b ∧ (∀ p, p ∈ a → x p = x o) ∧ x o' ≠ x o) as (a & o' & b & -> & Ha & Ho').
  { induction l as [|p l IH]; [exfalso; apply Hex; by intros ? []%elem_of_nil|].
    destruct (decide (x p = x o)) as [Hp|Hp]; [|exists [], p, l; split_and!; [done|by intros ? []%elem_of_nil|done]].
    destruct IH as (a & o' & b & -> & Ha & Ho').
    { intros HF. apply Hex. intros q [->|Hq]%elem_of_cons; [done|by apply HF]. }
    exists (p :: a), o', b. split_and!; [done| |done]. intros q [->|Hq]%elem_of_cons; [done|by apply Ha]. }
  destruct (exists_last (l:=o :: a)) as (a' & o1 & Ea); [done|]. assert (o1 ∈ o :: a) as Ho1 by (rewrite Ea; set_solver).
  assert (∀ p, p ∈ o :: a → x p = x o) as HF by (intros p [->|Hp]%elem_of_cons; [done|by apply Ha]).
  exists a', o1, b, o', (x o). rewrite <-Ea. split_and!; [done|by rewrite (HF o1 Ho1)|done|done].
Qed.

(** Operations with different expiries leave two rows of one key. *)
Lemma resolve_not_uniform n k os rest :
  shaped os → ¬ uniform os → length (rows_of k os ++ rest) ≤ n →
  ∃ r1 r2 l, resolve f n false None (rows_of k os ++ rest) = r1 :: r2 :: l ∧
    key r1 = k ∧ key r2 = k ∧ expire_ts r1 ≠ expire_ts r2.
Proof.
  intros (op & ms & -> & Hms) Hnu Hn. destruct (not_uniform_split _ Hnu) as (a & o & b & o' & c & Hr & Hc & Ha & Ho').
  assert (Forall (λ p, is_merge_op p = true) (a ++ [o])) as Hmerge.
  { destruct (exists_last (l:=o' :: b)) as (b' & y & Eb); [done|]. rewrite Eb, reverse_cons, app_assoc in Hr.
    apply app_inj_tail in Hr as [Hr _]. apply Forall_reverse in Hms. rewrite Hr in Hms. by apply Forall_app in Hms as [? _]. }
  assert (a ++ [o] ≠ []) as Hne by (by destruct a). revert Hr Ha Hmerge Hne. generalize (a ++ [o]). intros A Hr Ha Hmerge Hne.
  destruct A as [|o1 A]; [done|]. rewrite Hr, !fmap_app, <-app_assoc in *.
  assert (Forall (λ r, key r = k ∧ expire_ts r = c ∧ is_merge (value r) = true) (op_row s now x <$> ((k,.) <$> o1 :: A))) as HF.
  { rewrite <-(reverse_involutive (o1 :: A)). apply rows_of_merges; [by apply Forall_reverse|].
    intros p Hp. apply Ha. by rewrite elem_of_reverse in Hp. }
  rewrite !fmap_cons in *. set (e := op_row s now x (k, o1)) in *. set (g := op_row s now x <$> ((k,.) <$> A)) in *.
  apply Forall_cons in HF as HF'. destruct HF' as [(Hk & He & Hm) _].
  destruct n as [|n]; [cbn in Hn; lia|].
  pose proof (split_run_group k c (e :: g) None (op_row s now x (k, o') :: (op_row s now x <$> ((k,.) <$> b)) ++ rest) HF ltac:(done)) as Hs.
  change (option_list None ++ ?l) with l in Hs. rewrite <-!app_comm_cons in *. cbn [resolve].
  unfold passes. rewrite Hm. cbn [negb orb]. rewrite Hk, He, Hs.
  2:{ intros _ r [= <-]. unfold is_matching_entry. rewrite op_row_expire, op_row_key. cbn.
      by rewrite (bool_decide_eq_false_2 (c = x o')), andb_false_r. }
  destruct n as [|n]; [cbn in Hn; rewrite !length_app in Hn; cbn in Hn; lia|].
  destruct (resolve_head n (op_row s now x (k, o')) ((op_row s now x <$> ((k,.) <$> b)) ++ rest)) as (r2 & Hh & Hk2 & He2).
  destruct (resolve f (S n) false None (op_row s now x (k, o') :: _)) as [|r2' l] eqn:Hl; [done|]. injection Hh as ->.
  exists (merged_row f e (e :: g) None), r2, l. split_and!; [done|done|by rewrite Hk2, op_row_key|].
  rewrite He2, op_row_expire. cbn [merged_row expire_ts]. rewrite (meta_const _ _ c); [done|apply Z.min_id|done|].
  rewrite app_nil_r. eapply Forall_impl; [exact HF|]. by intros ? (_ & ? & _).
Qed.

Lemma resolve_rows n m rest :
  bm_ok m → Forall (λ b, shaped b.2 ∧ uniform b.2) m → (∀ b r, b ∈ m → r ∈ rest → key r ≠ b.1) →
  length (batch_rows s now x m ++ rest) ≤ n →
  ∃ rs, resolve f n false None (batch_rows s now x m ++ rest) = rs ++ resolve f n false None rest ∧
    Forall2 (λ b r, row_for b.1 b.2 r) m rs.
Proof.
  unfold bm_ok. induction m as [|[k os] m IH]; intros Hs HF Hrest Hn; [by exists []|].
  apply StronglySorted_inv in Hs as [Hs Hlt]. rewrite Forall_forall in Hlt. apply Forall_cons in HF as [[Hsh Hu] HF].
  unfold batch_rows in *. rewrite flat_ops_cons, fmap_app, <-app_assoc in *.
  destruct (resolve_uniform n k os ((op_row s now x <$> flat_ops m) ++ rest)) as (r & -> & Hr); [done|done| |done|].
  { apply Forall_forall. intros r [(c & -> & Hc)%list_elem_of_fmap|Hr]%elem_of_app.
    - rewrite op_row_key. apply elem_of_flat_ops in Hc as (os' & Hin & _). intros E. specialize (Hlt _ Hin). cbn in Hlt.
      rewrite E in Hlt. by apply ord_lt_irrefl in Hlt.
    - apply (Hrest (k, os) r); [by left|done]. }
  destruct IH as (rs & -> & Hrs); [done|done|intros; apply Hrest; [by right|done]| |].
  { rewrite length_app in Hn. lia. }
  exists (r :: rs). split; [done|]. by constructor.
Qed.
End groups.

(** ** The extraction loop *)

Section loop.
  Context {I : Type} `{RowEntryIterator I} (ext : option PrefixExtractor).

Definition segment_of (e : RowEntry) (p : bytes) : Prop :=
  ∃ y, ext = Some y ∧ extract_segment_prefix (H:=y) (key e) = Ok p.
Definition extractable (l : list RowEntry) : Prop :=
  ∀ e y, e ∈ l → ext = Some y → ∃ p, extract_segment_prefix (H:=y) (key e) = Ok p.
Definition rows_bytes (l : list RowEntry) : nat := sum_list ((λ e, length (key e) + value_len (value e)) <$> l).

Lemma rows_bytes_cons e l : rows_bytes (e :: l) = (length (key e) + value_len (value e)) + rows_bytes l.
Proof. done. Qed.

Lemma segment_step e segs :
  (∀ y, ext = Some y → ∃ p, extract_segment_prefix (H:=y) (key e) = Ok p) →
  ∃ segs', match ext with
    | Some y => p ← extract_segment_prefix (H:=y) (key e); mret (bs_insert p segs)
    | None => mret segs end = Ok segs' ∧ ∀ p, p ∈ segs' ↔ p ∈ segs ∨ segment_of e p.
Proof.
  intros Hex. unfold segment_of. destruct ext as [y|].
  - destruct (Hex y eq_refl) as [p Hp]. rewrite Hp. run. eexists. split; [done|]. intros q. rewrite bs_elem_insert. split.
    + intros [->|?]; [right; by exists y|by left].
    + intros [?|(z & [= <-] & Hq)]; [by right|left; congruence].
  - eexists. split; [done|]. intros q. split; [by left|]. by intros [?|(? & [=] & _)].
Qed.

Lemma extract_step fuel it it' e entries segs n :
  it_next it = Ok (Some e, it') → (∀ y, ext = Some y → ∃ p, extract_segment_prefix (H:=y) (key e) = Ok p) →
  (∀ r, last entries = Some r → key r ≠ key e) →
  ∃ segs', extract_loop (S fuel) ext it entries segs n =
      extract_loop fuel ext it' (entries ++ [e]) segs' (n + (length (key e) + value_len (value e))) ∧
    ∀ p, p ∈ segs' ↔ p ∈ segs ∨ segment_of e p.
Proof.
  intros Hn Hex Hlast. destruct (segment_step e segs Hex) as (segs' & Hsegs & Hp). exists segs'. split; [|done].
  cbn [extract_loop]. rewrite Hn. run.
  assert (match last entries with
    | Some r => if decide (key r = key e) then
        if decide (expire_ts r = expire_ts e) then Panic else Err (IncompatibleMergeTtls (key e) (expire_ts r) (expire_ts e))
        else Ok tt
    | None => Ok tt end = Ok tt) as ->.
  { destruct (last entries) as [r|]; [|done]. by rewrite decide_False by (by apply Hlast). }
  run. rewrite ?ret_Ok in Hsegs. rewrite Hsegs. by run.
Qed.

Lemma sorted_last_ne a e l : StronglySorted (λ r r', key r ≺ key r') (a ++ e :: l) → ∀ r, last a = Some r → key r ≠ key e.
Proof.
  intros Hs r Hr E. apply last_Some in Hr as [a' ->]. rewrite <-app_assoc in Hs. cbn in Hs.
  apply StronglySorted_app in Hs as (_ & _ & Hs). apply StronglySorted_inv in Hs as [_ HF].
  apply Forall_cons in HF as [Hlt _]. rewrite E in Hlt. by apply ord_lt_irrefl in Hlt.
Qed.

Lemma extract_loop_ok fuel it entries segs n l :
  yields it l → length l < fuel → StronglySorted (λ r r', key r ≺ key r') (entries ++ l) → extractable l →
  ∃ segs', extract_loop fuel ext it entries segs n = Ok (entries ++ l, segs', n + rows_bytes l) ∧
    ∀ p, p ∈ segs' ↔ p ∈ segs ∨ ∃ e, e ∈ l ∧ segment_of e p.
Proof.
  revert fuel it entries segs n. induction l as [|e l IH]; intros [|fuel] it entries segs n Hy Hf Hs Hex; cbn in Hf; try lia.
  - destruct Hy as [it' Hn]. exists segs. cbn [extract_loop]. rewrite Hn. run. rewrite app_nil_r. split; [do 2 f_equal; cbn; lia|].
    set_solver.
  - destruct Hy as (it' & Hn & Hy).
    destruct (extract_step fuel it it' e entries segs n Hn) as (segs1 & -> & Hp1);
      [intros y; apply Hex; by left|by apply (sorted_last_ne _ _ l)|].
    replace (entries ++ e :: l) with ((entries ++ [e]) ++ l) in * by (by rewrite <-app_assoc).
    destruct (IH fuel it' (entries ++ [e]) segs1 (n + (length (key e) + value_len (value e))) Hy) as (segs' & -> & Hp);
      [lia|done|intros e' y He'; apply Hex; by right|].
    exists segs'. rewrite rows_bytes_cons. split; [do 2 f_equal; lia|]. intros p. rewrite Hp, Hp1. set_solver.
Qed.

Lemma extract_loop_dup fuel it entries segs n l a b l' :
  yields it (l ++ a :: b :: l') → length (l ++ a :: b :: l') < fuel →
  StronglySorted (λ r r', key r ≺ key r') (entries ++ l ++ [a]) → extractable (l ++ [a]) →
  key a = key b → expire_ts a ≠ expire_ts b →
  extract_loop fuel ext it entries segs n = Err (IncompatibleMergeTtls (key b) (expire_ts a) (expire_ts b)).
Proof.
  revert fuel it entries segs n. induction l as [|e l IH]; intros [|fuel] it entries segs n Hy Hf Hs Hex Hk He; cbn in Hf; try lia.
  - destruct Hy as (it1 & Hn1 & it2 & Hn2 & _).
    destruct (extract_step fuel it it1 a entries segs n Hn1) as (segs1 & -> & _);
      [intros y; apply Hex; by left|by apply (sorted_last_ne _ _ [])|].
    destruct fuel as [|fuel]; [lia|]. cbn [extract_loop]. rewrite Hn2. run. rewrite last_snoc.
    rewrite decide_True, decide_False by done. done.
  - destruct Hy as (it1 & Hn1 & Hy).
    destruct (extract_step fuel it it1 e entries segs n Hn1) as (segs1 & -> & _);
      [intros y; apply Hex; by left|by apply (sorted_last_ne _ _ (l ++ [a]))|].
    apply IH; [done|lia|by rewrite <-app_assoc|intros e' y He'; apply Hex; by right|done|done].
Qed.
End loop.

(** ** The iterator as a scan *)

Definition batch_scan (it : WriteBatchIterator) (ret l : list RowEntry) : Prop :=
  wb_iter it = l ∧ wb_ordering it = Ascending ∧ StronglySorted (λ a b, key a ≼ key b) l.

Global Instance batch_scan_next : Scan batch_scan.
Proof.
  intros it ret l (Hl & Ho & Hs). unfold it_next, batch_iterator. rewrite Hl. destruct l as [|e l].
  - eexists. split; [done|]. by rewrite <-Hl in Hs |- *.
  - eexists. split; [done|]. apply StronglySorted_inv in Hs as [Hs _]. done.
Qed.

Lemma skip_below_filter k l :
  StronglySorted (λ a b, key a ≼ key b) l → skip_below Ascending k l = filter (λ e, ord_ltb (key e) k = false) l.
Proof.
  induction l as [|e l IH]; intros Hs; [done|]. apply StronglySorted_inv in Hs as [Hs HF]. cbn [skip_below]. rewrite filter_cons.
  destruct (ord_ltb (key e) k) eqn:He; [rewrite decide_False by done; by apply IH|]. rewrite decide_True by done. f_equal.
  symmetry. apply list_filter_all. eapply Forall_impl; [exact HF|]. intros r Hr. cbn in Hr.
  apply ord_ltb_false in He. apply ord_ltb_false. revert He Hr. ord.
Qed.

Global Instance batch_scan_seek : ScanSeek batch_scan.
Proof.
  intros it ret l k (Hl & Ho & Hs) Hret. eexists _, ret. split; [done|]. split; [|done]. unfold batch_scan. cbn.
  rewrite Hl, Ho, skip_below_filter by done. split_and!; [done|done|].
  eapply StronglySorted_sublist; [apply sublist_filter|done].
Qed.

Lemma flat_ops_sorted m : bm_ok m → StronglySorted (λ a b, a.1 ≼ b.1) (flat_ops m).
Proof.
  unfold bm_ok. induction m as [|[k os] m IH]; intros Hs; [constructor|].
  apply StronglySorted_inv in Hs as [Hs HF]. rewrite flat_ops_cons. apply StronglySorted_app_2; [intros a b Ha Hb| |by apply IH].
  - apply list_elem_of_fmap in Ha as (o & -> & _). apply elem_of_flat_ops in Hb as (os' & Hin & _).
    rewrite Forall_forall in HF. apply ord_lt_le, (HF _ Hin).
  - induction (reverse os) as [|o l IH']; [constructor|]. cbn. constructor; [done|].
    apply Forall_forall. intros c (? & -> & _)%list_elem_of_fmap. apply ord_le_refl.
Qed.

(** ** Reading a batch *)

Definition apply_op (f : bytes → option bytes → bytes → bytes) (k : bytes) (acc : option bytes) (op : WriteOp) : option bytes :=
  match op with
  | OpPut v _ => Some v
  | OpDelete => None
  | OpMerge v _ => Some (f k acc v)
  end.

Lemma effective_apply f k acc os : foldl (apply_op f k) acc (effective os) = foldl (apply_op f k) acc os.
Proof.
  induction os as [|op os IH] using rev_ind; [done|]. rewrite effective_snoc, (foldl_snoc _ _ os).
  destruct op; cbn [is_merge_op]; [done|done|]. by rewrite foldl_snoc, IH.
Qed.

Lemma effective_elem op os : op ∈ effective os → op ∈ os.
Proof.
  induction os as [|o os IH] using rev_ind; [done|]. rewrite effective_snoc. destruct (is_merge_op o); set_solver.
Qed.

Lemma read_group f s now x k os vs :
  read_value f k ((op_row s now x <$> ((k,.) <$> reverse os)) ++ vs) = foldl (apply_op f k) (read_value f k vs) os.
Proof.
  induction os as [|op os IH] using rev_ind; [done|]. rewrite reverse_app, foldl_snoc. cbn. rewrite <-IH. by destruct op.
Qed.

Lemma batch_rows_versions s now x k m :
  bm_ok m →
  versions_of k (batch_rows s now x m) = op_row s now x <$> ((k,.) <$> reverse (default [] (bm_get k m))).
Proof.
  unfold bm_ok, batch_rows. induction m as [|[k1 os] m IH]; intros Hs; [done|].
  apply StronglySorted_inv in Hs as [Hs HF]. rewrite flat_ops_cons, fmap_app, filter_app, IH by done. cbn [bm_get].
  assert (∀ k', Forall (λ r, key r = k') (op_row s now x <$> ((k',.) <$> reverse os))) as Hk.
  { intros k'. apply Forall_forall. intros r (c & -> & (o & -> & _)%list_elem_of_fmap)%list_elem_of_fmap. apply op_row_key. }
  destruct (decide (k1 = k)) as [->|Hne].
  - rewrite cmp_refl, versions_of_all by apply Hk. rewrite bm_get_lt by exact HF. cbn. by rewrite app_nil_r.
  - rewrite versions_of_none.
    2:{ eapply Forall_impl; [apply Hk|]. cbn. congruence. }
    cbn. destruct (cmp k k1) eqn:Hc; [by apply cmp_eq in Hc| |done].
    rewrite bm_get_lt; [done|]. eapply Forall_impl; [exact HF|]. intros b Hb. cbn in Hb. by eapply ord_lt_trans.
Qed.

Lemma resolve_no_merge f n d barrier l :
  Forall (λ e, is_merge (value e) = false) l → length l ≤ n → resolve f n d barrier l = l.
Proof.
  revert n. induction l as [|e l IH]; intros [|n] HF Hn; cbn in Hn; try lia; try done.
  apply Forall_cons in HF as [He HF]. cbn [resolve]. unfold passes. rewrite He. cbn [negb orb]. f_equal. apply IH; [done|lia].
Qed.

Lemma keys_sorted (m : BTreeMap bytes (list WriteOp)) (rs : list RowEntry) :
  bm_ok m → key <$> rs = m.*1 → StronglySorted (λ r r', key r ≺ key r') rs.
Proof.
  unfold bm_ok. revert m. induction rs as [|r rs IH]; intros [|c m] Hs E; try done; [constructor|]. cbn in E.
  injection E as E1 E2. apply StronglySorted_inv in Hs as [Hs HF]. constructor; [by apply (IH m)|].
  apply Forall_forall. intros r' Hr'. rewrite E1. rewrite Forall_forall in HF.
  assert (key r' ∈ m.*1) as Hk by (rewrite <-E2; by apply list_elem_of_fmap_2).
  apply list_elem_of_fmap in Hk as (c' & -> & Hc'). by apply HF.
Qed.

Lemma shaped_total m : Forall (λ b, shaped b.2) m → length m ≤ total_ops m.
Proof.
  induction 1 as [|[k os] m (o & ms & Hos & _) _ IH]; [done|]. cbn in Hos. subst os. unfold total_ops in *. cbn in *. lia.
Qed.

Lemma resolve_length f n d barrier l : length (resolve f n d barrier l) ≤ length l.
Proof.
  revert l. induction n as [|n IH]; intros [|e l]; cbn [resolve length]; try lia.
  destruct (passes barrier e) eqn:Hp; [cbn; specialize (IH l); lia|].
  unfold passes in Hp. apply orb_false_iff in Hp as [He%negb_false_iff _].
  destruct (split_run d (key e) (expire_ts e) (e :: l)) as [[ms base] rest] eqn:Hrun.
  destruct (split_run_head _ _ _ _ _ _ He Hrun) as (_ & _ & Hlen). cbn. specialize (IH rest). lia.
Qed.

Section extracted.
  Context (calls : list (bytes * WriteOp)) (b : WriteBatch) (checks : bool) (s now : Z) (d : option Z).
  Context (x : WriteOp → option Z) (ext : option PrefixExtractor).
  Context (Hb : batch_of calls b) (Hx : ∀ c, c ∈ calls → op_expiry checks d now c.2 = Ok (x c.2)).
  Context (merger : MergeOperator) (f : bytes → option bytes → bytes → bytes) (Hlaws : MergeOperatorLaws f).
  Context (Hext : ∀ c y, c ∈ calls → ext = Some y → ∃ p, extract_segment_prefix (H:=y) c.1 = Ok p).
Let rows : list RowEntry := batch_rows s now x (ops b).

Lemma recorded_elem k os o : (k, os) ∈ ops b → o ∈ os → (k, o) ∈ calls.
Proof using Hb.
  intros Hin Hop. apply bm_get_Some in Hin; [|apply (bo_sorted _ _ Hb)]. apply (bo_get _ _ Hb) in Hin as [-> _].
  apply effective_elem in Hop. unfold calls_on in Hop. apply list_elem_of_fmap in Hop as ([k' op'] & -> & Hc).
  apply list_elem_of_filter in Hc as [<- Hc]. done.
Qed.

Lemma recorded_shaped : Forall (λ b, shaped b.2) (ops b).
Proof using Hb.
  apply Forall_forall. intros [k os] Hin. apply bm_get_Some in Hin; [|apply (bo_sorted _ _ Hb)].
  apply (bo_get _ _ Hb) in Hin as [Hos Hne]. cbn. destruct os as [|op ms]; [done|]. exists op, ms. split; [done|].
  by eapply effective_shape.
Qed.

Lemma batch_iter_ok :
  batch_iter_new checks b Unbounded Unbounded Ascending s (Some now) d = Ok (mkBatchIter rows Ascending) ∧
  batch_scan (mkBatchIter rows Ascending) [] rows.
Proof using Hb Hx.
  split.
  - unfold batch_iter_new, btree_range. run. rewrite list_filter_all by (by apply Forall_true).
    rewrite (rows_computed s now x); [by run|]. intros [k op] Hc. apply elem_of_flat_ops in Hc as (os & Hin & Hop).
    apply (Hx (k, op)). by eapply recorded_elem.
  - split_and!; [done|done|]. cbn. pose proof (flat_ops_sorted _ (bo_sorted _ _ Hb)) as Hs. unfold rows, batch_rows.
    induction Hs as [|c l Hs IH HF]; [constructor|]. cbn. constructor; [done|]. apply Forall_fmap.
    eapply Forall_impl; [exact HF|]. intros c' Hc'. cbn. by rewrite !op_row_key.
Qed.

(** What the extraction loop runs on. *)
Lemma extraction_loop fuel :
  total_ops (ops b) < fuel →
  ∃ (I : Type) (HI : RowEntryIterator I) (it : I),
    extract_entries checks fuel b s now d (Some merger) ext = extract_loop fuel ext it [] [] 0 ∧
    yields it (resolve f (length rows) false None rows).
Proof using Hb Hx Hlaws.
  intros Hf. destruct batch_iter_ok as [Hi Hsc].
  assert (length rows = total_ops (ops b)) as Hlen by (unfold rows, batch_rows; by rewrite length_fmap, length_flat_ops).
  unfold extract_entries. rewrite Hi. run. destruct (has_merge_ops b) eqn:Hm.
  - exists (MergeOperatorIterator WriteBatchIterator), (merge_op_iterator fuel), (merge_op_new (mkBatchIter rows Ascending) false None).
    split; [done|]. apply (merge_op_yields batch_scan fuel (length rows) (merge_op_new _ false None));
      [by exists [], rows|apply batch_rows_newest_first|lia|lia].
  - exists WriteBatchIterator, batch_iterator, (mkBatchIter rows Ascending). split; [done|]. rewrite resolve_no_merge; [by apply (scan_yields batch_scan _ [])| |done].
    apply Forall_forall. intros r (c & -> & Hc)%list_elem_of_fmap. rewrite op_row_merge.
    apply elem_of_flat_ops in Hc as (os & Hin & Hop). pose proof (recorded_elem _ _ _ Hin Hop) as Hc.
    rewrite (bo_merge _ _ Hb) in Hm. destruct (is_merge_op c.2) eqn:Hc2; [|done].
    assert (existsb (λ c, is_merge_op c.2) calls = true) as Ht; [|congruence].
    apply existsb_exists. exists c. split; [|done]. apply list_elem_of_In. by destruct c.
Qed.

Lemma keys_extractable l : (∀ r, r ∈ l → key r ∈ (ops b).*1) → extractable ext l.
Proof using Hb Hext.
  intros Hl r y Hr Hy. apply Hl in Hr. apply list_elem_of_fmap in Hr as ([k os] & Hk & Hin).
  pose proof recorded_shaped as HF. rewrite Forall_forall in HF. destruct (HF _ Hin) as (o & ms & Hos & _). cbn in *.
  assert ((k, o) ∈ calls) as Hc by (apply (recorded_elem k os); [done|]; rewrite Hos; by left).
  rewrite Hk. apply (Hext (k, o) y Hc Hy).
Qed.

Lemma rows_for_keys m rs : Forall2 (λ b r, row_for s now x b.1 b.2 r) m rs → key <$> rs = m.*1.
Proof. induction 1 as [|c r m rs [Hr _ _ _] _ IH]; [done|]. cbn. by rewrite Hr, IH. Qed.

Lemma read_recorded k vs :
  read_value f k (versions_of k rows ++ vs) = foldl (apply_op f k) (read_value f k vs) (calls_on k calls).
Proof using Hb.
  unfold rows. rewrite batch_rows_versions, read_group, (recorded_of calls b k Hb) by apply (bo_sorted _ _ Hb).
  rewrite <-(effective_apply f k _ (calls_on k calls)). by destruct (effective (calls_on k calls)).
Qed.
End extracted.

(** C13: Extracting a batch applies its calls in order. A batch built from a new one by any sequence
    of valid puts, deletes and merges, whose operations kept for each key agree on the expiry,
    extracts to one row per key, ascending, all at the batch's sequence number and clock; writing
    those rows over any history [vs] of a key makes a read return what applying the client's calls
    on the key one after the other to the previously read value gives. The touched segments are the
    prefixes of the rows' keys, and the reported size is that of the rows. *)
Theorem extraction_applies_calls (merger : MergeOperator) f `{!MergeOperatorLaws f} calls b checks s now d x ext fuel :
  Forall valid_call calls → perform batch_new calls = Ok b →
  (∀ c, c ∈ calls → op_expiry checks d now c.2 = Ok (x c.2)) →
  (∀ k, uniform x (effective (calls_on k calls))) →
  (∀ c y, c ∈ calls → ext = Some y → ∃ p, extract_segment_prefix (H:=y) c.1 = Ok p) →
  op_count b < fuel →
  ∃ rows segs, extract_entries checks fuel b s now d (Some merger) ext = Ok (rows, segs, rows_bytes rows) ∧
    StronglySorted (λ r r', key r ≺ key r') rows ∧
    Forall (λ r, seq r = s ∧ create_ts r = Some now) rows ∧
    (∀ k vs, read_value f k (versions_of k rows ++ vs) = foldl (apply_op f k) (read_value f k vs) (calls_on k calls)) ∧
    (∀ p, p ∈ segs ↔ ∃ r, r ∈ rows ∧ segment_of ext r p).
Proof.
  intros Hv Hp Hx Hu Hext Hf. destruct (perform_of [] batch_new calls batch_new_of Hv) as (b' & Hp' & Hb).
  rewrite Hp in Hp'. injection Hp' as <-. cbn in Hb. rewrite (bo_count _ _ Hb) in Hf.
  destruct (extraction_loop calls b checks s now d x ext Hb Hx merger f _ fuel Hf) as (I & HI & it & -> & Hy).
  set (rows := batch_rows s now x (ops b)) in *.
  assert (Forall (λ b, shaped b.2 ∧ uniform x b.2) (ops b)) as HF.
  { pose proof (recorded_shaped calls b Hb) as HF. rewrite Forall_forall in HF |- *. intros [k os] Hin. split; [by apply HF|].
    apply bm_get_Some in Hin; [|apply (bo_sorted _ _ Hb)]. apply (bo_get _ _ Hb) in Hin as [-> _]. apply Hu. }
  destruct (resolve_rows f s now x (length rows) (ops b) [] (bo_sorted _ _ Hb) HF) as (rs & Hrs & Hrf);
    [set_solver|by rewrite app_nil_r|]. rewrite !app_nil_r in Hrs. fold rows in Hrs.
  assert (length rs = length (ops b)) as Hlen by (symmetry; by eapply Forall2_length).
  pose proof (rows_for_keys s now x (ops b) rs Hrf) as Hk. pose proof (keys_sorted (ops b) rs (bo_sorted _ _ Hb) Hk) as Hsr.
  replace (resolve f (length rows) false None []) with (@nil RowEntry) in Hrs by (by destruct (length rows)).
  rewrite app_nil_r in Hrs. rewrite Hrs in Hy.
  destruct (extract_loop_ok ext fuel it [] [] 0 rs Hy) as (segs & -> & Hsegs); [|done| |].
  - rewrite Hlen. pose proof (shaped_total _ (recorded_shaped calls b Hb)). lia.
  - apply (keys_extractable calls b ext Hb Hext). intros r Hr. rewrite <-Hk. by apply list_elem_of_fmap_2.
  - exists rs, segs. split_and!; [done|done| | |set_solver].
    + clear -Hrf. induction Hrf as [|c r m rs [_ ? ? _] _ IH]; by constructor.
    + intros k vs. rewrite <-(read_recorded calls b s now x Hb f k vs), <-Hrs. by apply resolve_reads.
Qed.

Lemma uniform_alt x os : uniform x os ↔ Forall (λ a, Forall (λ b, x a = x b) os) os.
Proof.
  split; [intros Hu; apply Forall_forall; intros a Ha; apply Forall_forall; eauto|].
  intros HF a b Ha Hb. rewrite Forall_forall in HF. specialize (HF a Ha). rewrite Forall_forall in HF. by apply HF.
Qed.

Global Instance uniform_dec x os : Decision (uniform x os).
Proof. refine (cast_if (decide (Forall (λ a, Forall (λ b, x a = x b) os) os))); by rewrite uniform_alt. Defined.

Lemma first_failing {A} (P : A → Prop) `{∀ a, Decision (P a)} l a :
  a ∈ l → ¬ P a → ∃ l1 c l2, l = l1 ++ c :: l2 ∧ Forall P l1 ∧ ¬ P c.
Proof.
  induction l as [|c l IH]; intros Ha Hna; [by apply elem_of_nil in Ha|].
  destruct (decide (P c)) as [Hc|Hc]; [|by exists [], c, l]. apply elem_of_cons in Ha as [->|Ha]; [done|].
  destruct (IH Ha Hna) as (l1 & c' & l2 & -> & HF & Hc'). exists (c :: l1), c', l2. by repeat constructor.
Qed.

(** Batches with mixed expiries are rejected. When the operations kept for some key of a batch
    (a put or delete and the merges after it) do not agree on their expiry, extraction fails with
    [IncompatibleMergeTtls] for such a key and two different expiries; it never reaches the panic on
    duplicate keys. A delete counts as an operation without expiry, so under a default TTL a delete
    followed by a merge of the same key is rejected. *)
Theorem extraction_rejects_mixed_ttls (merger : MergeOperator) f `{!MergeOperatorLaws f} calls b checks s now d x ext fuel k0 :
  Forall valid_call calls → perform batch_new calls = Ok b →
  (∀ c, c ∈ calls → op_expiry checks d now c.2 = Ok (x c.2)) →
  ¬ uniform x (effective (calls_on k0 calls)) →
  (∀ c y, c ∈ calls → ext = Some y → ∃ p, extract_segment_prefix (H:=y) c.1 = Ok p) →
  op_count b < fuel →
  ∃ k e1 e2, extract_entries checks fuel b s now d (Some merger) ext = Err (IncompatibleMergeTtls k e1 e2) ∧
    e1 ≠ e2 ∧ ¬ uniform x (effective (calls_on k calls)).
Proof.
  intros Hv Hp Hx Hu Hext Hf. destruct (perform_of [] batch_new calls batch_new_of Hv) as (b' & Hp' & Hb).
  rewrite Hp in Hp'. injection Hp' as <-. cbn in Hb. rewrite (bo_count _ _ Hb) in Hf.
  destruct (extraction_loop calls b checks s now d x ext Hb Hx merger f _ fuel Hf) as (I & HI & it & -> & Hy).
  set (rows := batch_rows s now x (ops b)) in *. pose proof (bo_sorted _ _ Hb) as Hok.
  assert ((k0, effective (calls_on k0 calls)) ∈ ops b) as Hin0.
  { apply bm_get_Some; [done|]. apply (bo_get _ _ Hb). split; [done|]. intros E. apply Hu. rewrite E. by intros ??[]%elem_of_nil. }
  destruct (first_failing (λ c, uniform x c.2) (ops b) _ Hin0 Hu) as (m1 & [k os] & m2 & Hm & HF1 & Hc). cbn in Hc.
  pose proof (recorded_shaped calls b Hb) as Hsh. rewrite Hm in Hsh, Hok. apply Forall_app in Hsh as [Hsh1 Hsh2].
  apply Forall_cons in Hsh2 as [Hsh2 _]. unfold bm_ok in Hok. apply StronglySorted_app in Hok as (Hlt & Hok1 & _).
  set (rest := batch_rows s now x ((k, os) :: m2)).
  assert (rows = batch_rows s now x m1 ++ rest) as Hrows.
  { unfold rows, rest, batch_rows, flat_ops. by rewrite Hm, bind_app, fmap_app. }
  destruct (resolve_rows f s now x (length rows) m1 rest) as (rs & Hrs & Hrf);
    [done|by apply Forall_and| |by rewrite Hrows|].
  { intros c r Hc' Hr E. apply list_elem_of_fmap in Hr as (c' & -> & Hc''). rewrite op_row_key in E.
    apply elem_of_flat_ops in Hc'' as (os' & Hin & _). specialize (Hlt c (c'.1, os') Hc' Hin). cbn in Hlt.
    rewrite E in Hlt. by apply ord_lt_irrefl in Hlt. }
  rewrite <-Hrows in Hrs.
  assert (rest = (op_row s now x <$> ((k,.) <$> reverse os)) ++ batch_rows s now x m2) as Hrest
    by (unfold rest, batch_rows; by rewrite flat_ops_cons, fmap_app).
  destruct (resolve_not_uniform f s now x (length rows) k os (batch_rows s now x m2)) as (r1 & r2 & l & Hr & Hk1 & Hk2 & He); [done|done| |].
  { rewrite Hrows, Hrest, (length_app (batch_rows s now x m1)). lia. }
  rewrite Hrest, Hr in Hrs. rewrite Hrs in Hy.
  pose proof (rows_for_keys s now x m1 rs Hrf) as Hk.
  assert (key <$> (rs ++ [r1]) = (m1 ++ [(k, os)]).*1) as Hk' by (rewrite !fmap_app, Hk; cbn; by rewrite Hk1).
  exists k, (expire_ts r1), (expire_ts r2). split_and!; [|done|].
  - rewrite <-Hk2. apply (extract_loop_dup ext fuel it [] [] 0 rs r1 r2 l Hy); [| | |congruence|done].
    + rewrite <-Hrs. eapply Nat.le_lt_trans; [by apply resolve_length|].
      unfold rows, batch_rows. by rewrite length_fmap, length_flat_ops.
    + apply (keys_sorted (m1 ++ [(k, os)])); [|done].
      pose proof (bo_sorted _ _ Hb) as Hok. rewrite Hm in Hok. eapply StronglySorted_sublist; [|exact Hok].
      apply sublist_app; [done|]. apply sublist_skip, sublist_nil_l.
    + apply (keys_extractable calls b ext Hb Hext). intros r Hr'. rewrite Hm.
      apply (list_elem_of_fmap_2 key) in Hr'. rewrite Hk' in Hr'. rewrite fmap_app in *. set_solver.
  - assert ((k, os) ∈ ops b) as Hin by (rewrite Hm; set_solver).
    apply bm_get_Some in Hin; [|apply (bo_sorted _ _ Hb)]. by apply (bo_get _ _ Hb) in Hin as [<- _].
Qed.

Definition demo_calls : list (bytes * WriteOp) :=
  [([97%Z], OpPut [1%Z] (mkPutOptions TtlDefault)); ([98%Z], OpMerge [7%Z] (mkMergeOptions NoExpiry));
   ([97%Z], OpMerge [2%Z] (mkMergeOptions TtlDefault)); ([98%Z], OpDelete)].

Definition mixed_calls : list (bytes * WriteOp) :=
  [([97%Z], OpDelete); ([97%Z], OpMerge [1%Z] (mkMergeOptions TtlDefault))].

Definition built (calls : list (bytes * WriteOp)) : WriteBatch :=
  match perform batch_new calls with Ok b => b | _ => batch_new end.

Lemma extraction_applies_calls_witness :
  ∃ rows segs,
    extract_entries true 9 (built demo_calls) 5 100 (Some 50%Z) (Some append_operator) None = Ok (rows, segs, rows_bytes rows) ∧
    read_value append_f [97%Z] (versions_of [97%Z] rows ++ [mkRow [97%Z] (Value [9%Z]) 1 None None]) = Some [1; 2]%Z.
Proof.
  destruct (extraction_applies_calls append_operator append_f demo_calls (built demo_calls) true 5 100 (Some 50%Z)
    (λ op, match op with OpPut _ _ => Some 150%Z | OpMerge _ (mkMergeOptions TtlDefault) => Some 150%Z | _ => None end) None 9)
    as (rows & segs & He & _ & _ & Hr & _).
  - repeat constructor; cbn; try discriminate; vm_compute; congruence.
  - vm_compute. reflexivity.
  - intros c Hc. unfold demo_calls in Hc. rewrite !elem_of_cons, elem_of_nil in Hc.
    destruct Hc as [->|[->|[->|[->|[]]]]]; by vm_compute.
  - intros k. destruct (decide (k = [97%Z])) as [->|]; [by apply (bool_decide_unpack _); vm_compute|].
    destruct (decide (k = [98%Z])) as [->|]; [by apply (bool_decide_unpack _); vm_compute|].
    unfold calls_on, demo_calls. rewrite !filter_cons, !decide_False by (cbn; congruence). by intros ??[]%elem_of_nil.
  - intros c y _ [=].
  - vm_compute. lia.
  - exists rows, segs. split; [exact He|]. rewrite (Hr [97%Z]). by vm_compute.
Defined.

Lemma extraction_rejects_mixed_ttls_witness :
  ∃ k e1 e2,
    extract_entries true 9 (built mixed_calls) 5 100 (Some 50%Z) (Some append_operator) None = Err (IncompatibleMergeTtls k e1 e2).
Proof.
  destruct (extraction_rejects_mixed_ttls append_operator append_f mixed_calls (built mixed_calls) true 5 100 (Some 50%Z)
    (λ op, match op with OpMerge _ _ => Some 150%Z | _ => None end) None 9 [97%Z])
    as (k & e1 & e2 & He & _).
  - repeat constructor; cbn; try discriminate; vm_compute; congruence.
  - vm_compute. reflexivity.
  - intros c Hc. unfold mixed_calls in Hc. rewrite !elem_of_cons, elem_of_nil in Hc. destruct Hc as [->|[->|[]]]; by vm_compute.
  - by apply (bool_decide_unpack _); vm_compute.
  - intros c y _ [=].
  - vm_compute. lia.
  - by exists k, e1, e2.
Defined.
