(* ===== verification/Wal.v ===== *)
(** * The write-ahead log ([wal/mod.rs], [wal/slatedb/writer.rs], [store.rs], [iterator.rs])

    The buffer that takes the rows of a batch, the queue of buffers that wait for their upload, the directory
    of WAL files, and the iterator that replay reads.  A WAL file is the list of the rows it was built from; a
    zero-byte file, which marks a fence, is the empty list.  The iterator opens files ahead of their use; as
    a file does not change once it exists, the model opens a file when its rows are returned. *)

From S2P Require Export Types MemTable.

Inductive WalError :=
| EFenced
| EWalTruncated (wal_id : Z)
| EClosed
| EUnavailable
| EDataError
| EInternalError.

(** [impl From<WalError> for SlateDBError] *)
Definition wal_to_db_error (e : WalError) : SlateDBError :=
  match e with
  | EFenced => Fenced
  | EWalTruncated id => WalTruncated id
  | EClosed => Closed
  | EUnavailable => WalUnavailable
  | EDataError => WalDataError
  | EInternalError => WalInternalError
  end.

Notation wal_result := (outcome WalError).

(** ** Buffers *)

Record WalBuffer := mkWalBuffer {
  wb_entries : list RowEntry;
  wb_last_seq : Z;
  wb_entries_size : Z;
}.

Definition wal_buffer_new : WalBuffer := mkWalBuffer [] 0 0.

(** [WalBuffer::append] *)
Definition wal_buffer_append (b : WalBuffer) (e : RowEntry) : WalBuffer :=
  mkWalBuffer (wb_entries b ++ [e]) (seq e) (wrap 64 (wb_entries_size b + Z.of_nat (estimated_size e))).

(** [WalBuffer::is_empty], [WalBuffer::last_seq] *)
Definition wal_buffer_is_empty (b : WalBuffer) : bool := bool_decide (wb_entries b = []).
Definition wal_buffer_last_seq (b : WalBuffer) : option Z := if (wb_last_seq b =? 0)%Z then None else Some (wb_last_seq b).

Record SlateDbWalWriterInner := mkWalInner {
  current_wal : WalBuffer;
  immutable_wals : list (Z * WalBuffer);
  next_wal_id : Z;
  flush_epoch : Z;
  last_flushed_wal_id : Z;
  last_flushed_seq : option Z;
  flush_task_exited_reason : option WalError;
}.

(** The state [SlateDbWalWriter::start_new] creates. *)
Definition wal_start_new (last_flushed : Z) : SlateDbWalWriterInner :=
  mkWalInner wal_buffer_new [] (last_flushed + 1) 1 last_flushed None None.

(** [SlateDbWalWriterInner::check_exited] *)
Definition check_exited (w : SlateDbWalWriterInner) : wal_result unit :=
  match flush_task_exited_reason w with Some e => Err e | None => mret tt end.

(** [SlateDbWalWriterInner::append] *)
Definition wal_append (w : SlateDbWalWriterInner) (entries : list RowEntry) : wal_result SlateDbWalWriterInner :=
  _ ← check_exited w;
  mret (mkWalInner (foldl wal_buffer_append (current_wal w) entries) (immutable_wals w) (next_wal_id w) (flush_epoch w)
          (last_flushed_wal_id w) (last_flushed_seq w) (flush_task_exited_reason w)).

(** [SlateDbWalWriterInner::freeze_current_wal] *)
Definition freeze_current_wal (w : SlateDbWalWriterInner) : Z * SlateDbWalWriterInner :=
  if wal_buffer_is_empty (current_wal w) then (next_wal_id w - 1, w)%Z
  else (next_wal_id w,
        mkWalInner wal_buffer_new (immutable_wals w ++ [(next_wal_id w, current_wal w)]) (next_wal_id w + 1) (flush_epoch w + 1)
          (last_flushed_wal_id w) (last_flushed_seq w) (flush_task_exited_reason w)).

(** [SlateDbWalWriterInner::flushing_wals] *)
Definition flushing_wals (w : SlateDbWalWriterInner) : wal_result (list (Z * WalBuffer)) :=
  _ ← rust_assert (forallb (λ b, (last_flushed_wal_id w <? b.1)%Z) (immutable_wals w));
  mret (immutable_wals w).

(** [SlateDbWalWriterInner::record_flushed_wal]; that the front buffer is the flushed one compares pointers. *)
Definition record_flushed_wal (w : SlateDbWalWriterInner) (flushed_wal_id : Z) (flushed_wal : WalBuffer) : wal_result SlateDbWalWriterInner :=
  match immutable_wals w with
  | [] => Panic
  | (front_wal_id, _) :: rest =>
      _ ← rust_assert (bool_decide (front_wal_id = flushed_wal_id));
      _ ← rust_assert (bool_decide (flushed_wal_id = last_flushed_wal_id w + 1)%Z);
      flushed_seq ← match wal_buffer_last_seq flushed_wal with
                    | None => mret (last_flushed_seq w)
                    | Some s =>
                        _ ← match last_flushed_seq w with Some l => rust_assert (l <? s)%Z | None => mret tt end;
                        mret (Some s)
                    end;
      mret (mkWalInner (current_wal w) rest (next_wal_id w) (flush_epoch w) flushed_wal_id flushed_seq (flush_task_exited_reason w))
  end.

(** [SlateDbWalWriterInner::mark_closed] *)
Definition mark_closed (w : SlateDbWalWriterInner) (reason : WalError) : SlateDbWalWriterInner :=
  let w := (freeze_current_wal (mkWalInner (current_wal w) (immutable_wals w) (next_wal_id w) (flush_epoch w)
              (last_flushed_wal_id w) (last_flushed_seq w) (Some reason))).2 in
  mkWalInner (current_wal w) [] (next_wal_id w) (flush_epoch w) (last_flushed_wal_id w) (last_flushed_seq w) (flush_task_exited_reason w).

Record WalStatus := mkWalStatus {
  closed_reason : option WalError;
  estimated_bytes : Z;
  status_last_flushed_wal_id : Z;
  status_last_flushed_seq : option Z;
  buffered_wal_entries_count : nat;
}.

Section writer.
  (** [WalTableStore::estimate_encoded_size] and the settings of the writer *)
  Context (estimate_encoded_size : nat → Z → Z) (max_wal_bytes_size max_wal_flushes_before_l0_flush : Z).

Definition buffer_estimate (b : WalBuffer) : Z := estimate_encoded_size (length (wb_entries b)) (wb_entries_size b).

(** [SlateDbWalWriterInner::compute_status], with [estimated_bytes] *)
Definition compute_status (w : SlateDbWalWriterInner) : WalStatus :=
  mkWalStatus (flush_task_exited_reason w)
    (buffer_estimate (current_wal w) + foldr (λ b, Z.add (buffer_estimate b.2)) 0 (immutable_wals w))%Z
    (last_flushed_wal_id w) (last_flushed_seq w)
    (length (wb_entries (current_wal w)) + sum_list ((λ b, length (wb_entries b.2)) <$> immutable_wals w)).

(** [SlateDbWalWriterInner::status]; a closed writer reports its status as an error. *)
Definition wal_status (w : SlateDbWalWriterInner) : WalStatus + WalStatus :=
  let status := compute_status w in if closed_reason status then inr status else inl status.

(** [SlateDbWalWriterInner::needs_flush] *)
Definition needs_flush (w : SlateDbWalWriterInner) : bool * Z :=
  ((max_wal_bytes_size <=? buffer_estimate (current_wal w))%Z, flush_epoch w).

(** The writer: its shared state, the epoch of the last flush it requested, and the requests it sent. *)
Record SlateDbWalWriter := mkWalWriter {
  wal_inner : SlateDbWalWriterInner;
  last_flush_requested_epoch : Z;
  flush_requests : nat;
}.

(** [SlateDbWalWriter::maybe_trigger_flush] *)
Definition maybe_trigger_flush (w : SlateDbWalWriter) : wal_result SlateDbWalWriter :=
  let '(need_flush, epoch) := needs_flush (wal_inner w) in
  w ← (if need_flush && (last_flush_requested_epoch w <? epoch)%Z then
         _ ← check_exited (wal_inner w);
         mret (mkWalWriter (wal_inner w) epoch (S (flush_requests w)))
       else mret w);
  match wal_status (wal_inner w) with
  | inl _ => mret w
  | inr status => match closed_reason status with Some e => Err e | None => Panic end
  end.

(** [SlateDbWalWriter::append] *)
Definition writer_append (w : SlateDbWalWriter) (entries : list RowEntry) : wal_result SlateDbWalWriter :=
  inner ← wal_append (wal_inner w) entries;
  maybe_trigger_flush (mkWalWriter inner (last_flush_requested_epoch w) (flush_requests w)).

(** [SlateDbWalWriter::flush]: the id of the file that will hold all rows appended so far *)
Definition writer_flush (w : SlateDbWalWriter) : wal_result (Z * SlateDbWalWriter) :=
  _ ← check_exited (wal_inner w);
  let '(wal_id, inner) := freeze_current_wal (wal_inner w) in
  mret (wal_id, mkWalWriter inner (last_flush_requested_epoch w) (S (flush_requests w))).

(** [SlateDbWalWriter::should_flush_memtable] *)
Definition should_flush_memtable (w : SlateDbWalWriter) (replay_after_wal_id : Z) : bool :=
  if (replay_after_wal_id <=? last_flushed_wal_id (wal_inner w))%Z
  then (max_wal_flushes_before_l0_flush <=? last_flushed_wal_id (wal_inner w) - replay_after_wal_id)%Z else false.
End writer.

(** ** Files *)

(** The WAL directory, by file id. *)
Notation WalFiles := (gmap Z (list RowEntry)).

(** [WalTableStore::write_create]: the path of an existing file means that another writer owns the id. *)
Definition write_create (files : WalFiles) (id : Z) (rows : list RowEntry) : result WalFiles :=
  match files !! id with Some _ => Err Fenced | None => mret (<[id := rows]> files) end.

(** [WalFlushHandler::do_flush]: what is uploaded before an error stays. *)
Fixpoint flush_each (files : WalFiles) (w : SlateDbWalWriterInner) (wals : list (Z * WalBuffer)) : WalFiles * SlateDbWalWriterInner * result unit :=
  match wals with
  | [] => (files, w, mret tt)
  | (id, wal) :: wals =>
      match write_create files id (wb_entries wal) with
      | Ok files =>
          match record_flushed_wal w id wal with
          | Ok w => flush_each files w wals
          | Err e => (files, w, Err (wal_to_db_error e))
          | Panic => (files, w, Panic)
          | OutOfFuel => (files, w, OutOfFuel)
          end
      | Err e => (files, w, Err e)
      | Panic => (files, w, Panic)
      | OutOfFuel => (files, w, OutOfFuel)
      end
  end.
Definition do_flush (files : WalFiles) (w : SlateDbWalWriterInner) : WalFiles * SlateDbWalWriterInner * result unit :=
  let w := (freeze_current_wal w).2 in
  match flushing_wals w with
  | Ok wals => flush_each files w wals
  | _ => (files, w, Panic)
  end.

Section probing.
  (** [wal_object_exists] for a file id, and the id to search above *)
  Context (exists_ : Z → result bool) (start_after : Z).

Definition ROUND_SIZE : Z := 8.
Definition MAX_EXP : Z := 48.

(** The results of one round of probes, read in order up to the first file that does not exist. *)
Fixpoint read_probes (exps : list Z) (lo : option Z) : result (option Z * option Z) :=
  match exps with
  | [] => mret (lo, None)
  | e :: exps =>
      let offset := Z.shiftl 1 e in
      r ← exists_ (start_after + offset)%Z;
      if (r : bool) then read_probes exps (Some offset) else mret (lo, Some offset)
  end.

(** The exponential phase of [WalTableStore::last_seen_wal_id] *)
Fixpoint probe_rounds (fuel : nat) (lo : option Z) (next_exp : Z) : result (option Z * Z) :=
  match fuel with
  | O => OutOfFuel
  | S fuel =>
      if (MAX_EXP <=? next_exp)%Z then Err InvalidDBState
      else
        let end_exp := Z.min (next_exp + ROUND_SIZE) MAX_EXP in
        '(lo, hi) ← read_probes (seqZ next_exp (end_exp - next_exp)) lo;
        match hi with Some hi => mret (lo, hi) | None => probe_rounds fuel lo end_exp end
  end.

(** The binary search of [WalTableStore::last_seen_wal_id] *)
Fixpoint search_frontier (fuel : nat) (left right : Z) : result Z :=
  match fuel with
  | O => OutOfFuel
  | S fuel =>
      if (left <? right)%Z then
        let mid := (left + (right - left) / 2)%Z in
        r ← exists_ (start_after + mid)%Z;
        if (r : bool) then search_frontier fuel (mid + 1) right else search_frontier fuel left mid
      else mret left
  end.

(** [WalTableStore::last_seen_wal_id] *)
Definition last_seen_wal_id : result Z :=
  '(lo, hi) ← probe_rounds 7 None 0;
  match lo with
  | None => mret start_after
  | Some lo => left ← search_frontier (S (Z.to_nat (hi - lo))) (lo + 1) hi; mret (start_after + left - 1)%Z
  end.

(** [WalTableStore::next_wal_sst_id] *)
Definition next_wal_sst_id_after : result Z := id ← last_seen_wal_id; mret (id + 1)%Z.
End probing.

(** ** The iterator *)

Record WalRows := mkWalRows { wr_rows : list RowEntry; last_consumed_wal_file_id : Z }.

(** [SlateDbWalIterator] over a bounded range of file ids *)
Record SlateDbWalIterator := mkWalIter {
  wi_next_wal_id : Z;
  wi_end_wal_id : Z;
  wi_last_seq : option Z;
  wi_terminal_result : option (wal_result (option WalRows));
}.

(** [SlateDbWalIterator::range] *)
Definition wal_iter_range (from_wal_id to_wal_id : Z) : SlateDbWalIterator := mkWalIter from_wal_id to_wal_id None None.

(** [SlateDbWalIterator::terminate] *)
Definition wal_iter_terminate (r : wal_result (option WalRows)) (it : SlateDbWalIterator) : wal_result (option WalRows) * SlateDbWalIterator :=
  (r, mkWalIter (wi_next_wal_id it) (wi_end_wal_id it) (wi_last_seq it) (Some r)).

(** [SlateDbWalIterator::next] *)
Definition wal_iter_next (files : WalFiles) (it : SlateDbWalIterator) : wal_result (option WalRows) * SlateDbWalIterator :=
  match wi_terminal_result it with
  | Some r => (r, it)
  | None =>
      let id := wi_next_wal_id it in
      if (wi_end_wal_id it <=? id)%Z then wal_iter_terminate (mret None) it
      else
        match files !! id with
        | None => wal_iter_terminate (Err (EWalTruncated id)) it
        | Some rows =>
            let out_of_order := match min_opt (seq <$> rows), wi_last_seq it with
                                | Some min_seq, Some s => (min_seq <=? s)%Z
                                | _, _ => false
                                end in
            if out_of_order then wal_iter_terminate (Err EInternalError) it
            else
              let last := match max_opt (seq <$> rows) with Some s => Some s | None => wi_last_seq it end in
              (mret (Some (mkWalRows rows id)), mkWalIter (id + 1) (wi_end_wal_id it) last None)
        end
  end.

(** ** Replay ([wal_replay.rs]) *)

Record WalReplayOptions := mkReplayOptions {
  max_memtable_bytes : Z;
  ro_min_seq : option Z;
  prune_overwrites : bool;
}.

Record ReplayedMemtable := mkReplayed {
  rm_table : KVTable;
  rm_last_tick : Z;
  rm_last_seq : Z;
  rm_last_wal_id : Z;
}.

Record WalReplayIterator := mkReplay {
  ri_options : WalReplayOptions;
  ri_wal_iter : SlateDbWalIterator;
  ri_terminal_result : option (result unit);
  ri_last_consumed_wal_file_id : Z;
  ri_last_tick : Z;
  ri_last_seq : Z;
  ri_min_seq : Z;
}.

(** [WalReplayIterator::for_wal_iterator]; the arguments are fields of the manifest. *)
Definition replay_for_wal_iterator (it : SlateDbWalIterator) (replay_after last_l0_seq last_l0_clock_tick : Z) (options : WalReplayOptions)
    : WalReplayIterator :=
  mkReplay options it None replay_after last_l0_clock_tick last_l0_seq (default last_l0_seq (ro_min_seq options)).

(** A row goes into the memtable, by the writes and by replay alike. *)
Definition memtable_put (prune : bool) (t : KVTable) (e : RowEntry) : KVTable :=
  if prune then put_and_prune_overwritten t e else table_put t e.

(** The body of the loop over the rows of a file *)
Definition replay_row (min_seq : Z) (prune : bool) (st : KVTable * Z * Z) (e : RowEntry) : KVTable * Z * Z :=
  let '(t, tick, s) := st in
  if (seq e <=? min_seq)%Z then st
  else (memtable_put prune t e, match create_ts e with Some ts => Z.max tick ts | None => tick end, Z.max s (seq e)).

Section replay.
  (** [TableStore::estimate_encoded_size_compacted] *)
  Context (estimate_encoded_size_compacted : nat → Z → Z).

(** The loop of [WalReplayIterator::next] *)
Fixpoint replay_loop (fuel : nat) (files : WalFiles) (r : WalReplayIterator) (table : KVTable) (applied_any : bool)
    : result (KVTable * bool * WalReplayIterator) :=
  match fuel with
  | O => OutOfFuel
  | S fuel =>
      match wal_iter_next files (ri_wal_iter r) with
      | (Ok None, it) =>
          mret (table, applied_any, mkReplay (ri_options r) it (Some (mret tt)) (ri_last_consumed_wal_file_id r)
                  (ri_last_tick r) (ri_last_seq r) (ri_min_seq r))
      | (Err e, it) =>
          mret (table, applied_any, mkReplay (ri_options r) it (Some (Err (wal_to_db_error e))) (ri_last_consumed_wal_file_id r)
                  (ri_last_tick r) (ri_last_seq r) (ri_min_seq r))
      | (Ok (Some writes), it) =>
          _ ← rust_assert (ri_last_consumed_wal_file_id r <=? last_consumed_wal_file_id writes)%Z;
          let '(table, tick, s) :=
            foldl (replay_row (ri_min_seq r) (prune_overwrites (ri_options r))) (table, ri_last_tick r, ri_last_seq r) (wr_rows writes) in
          let r := mkReplay (ri_options r) it (ri_terminal_result r) (last_consumed_wal_file_id writes) tick s (ri_min_seq r) in
          let m := table_metadata table in
          if negb (table_is_empty table) &&
             (max_memtable_bytes (ri_options r) <=? estimate_encoded_size_compacted (entry_num m) (meta_entries_size_in_bytes m))%Z
          then mret (table, true, r)
          else replay_loop fuel files r table true
      | (Panic, _) => Panic
      | (OutOfFuel, _) => OutOfFuel
      end
  end.

(** [WalReplayIterator::next]; each iteration of the loop takes a file of the range. *)
Definition replay_next (files : WalFiles) (r : WalReplayIterator) : result (option ReplayedMemtable * WalReplayIterator) :=
  match ri_terminal_result r with
  | Some t => _ ← t; mret (None, r)
  | None =>
      '(table, applied_any, r) ←
        replay_loop (S (Z.to_nat (wi_end_wal_id (ri_wal_iter r) - wi_next_wal_id (ri_wal_iter r)))) files r table_new false;
      if (applied_any : bool) then
        mret (Some (mkReplayed table (ri_last_tick r) (ri_last_seq r) (ri_last_consumed_wal_file_id r)), r)
      else
        match ri_terminal_result r with
        | Some t => _ ← t; mret (None, r)
        | None => Panic
        end
  end.
End replay.

(** ** The search for the last file *)

Section frontier.
  Context (exists_ : Z → result bool) (start_after n : Z).
  Hypothesis n_nonneg : (0 ≤ n)%Z.
  Hypothesis contiguous : ∀ off, (1 ≤ off ≤ 2 ^ 47)%Z → exists_ (start_after + off)%Z = Ok (bool_decide (off ≤ n)%Z).

(** The greatest power of two below [2 ^ e], which [read_probes] has found to exist when it looks at [e]. *)
Definition below (e : Z) : option Z := if (e =? 0)%Z then None else Some (2 ^ (e - 1))%Z.
Definition reached (e : Z) : Prop := (e = 0 ∨ 2 ^ (e - 1) ≤ n)%Z.

Lemma probe_exists e : (0 ≤ e ≤ 47)%Z → exists_ (start_after + Z.shiftl 1 e)%Z = Ok (bool_decide (2 ^ e ≤ n)%Z).
Proof using contiguous.
  intros He. rewrite Z.shiftl_1_l. apply contiguous. split; [pose proof (Z.pow_pos_nonneg 2 e); lia|].
  apply Z.pow_le_mono_r; lia.
Qed.

Lemma read_probes_spec k e : (0 ≤ e)%Z → (e + Z.of_nat k ≤ 48)%Z → reached e →
  (∃ e', (0 ≤ e' ≤ 47)%Z ∧ read_probes exists_ start_after (seqZ e (Z.of_nat k)) (below e) = Ok (below e', Some (2 ^ e')%Z) ∧
         (n < 2 ^ e')%Z ∧ reached e') ∨
  (read_probes exists_ start_after (seqZ e (Z.of_nat k)) (below e) = Ok (below (e + Z.of_nat k), None) ∧ reached (e + Z.of_nat k)).
Proof using contiguous.
  revert e. induction k as [|k IH]; intros e He Hk Hr.
  - right. by rewrite seqZ_nil, Z.add_0_r by lia.
  - rewrite seqZ_cons by lia. cbn [read_probes]. rewrite probe_exists by lia. run. case_bool_decide as Hn.
    + assert (Some (Z.shiftl 1 e) = below (e + 1)) as ->.
      { unfold below. rewrite (proj2 (Z.eqb_neq _ _)) by lia. rewrite Z.shiftl_1_l. do 2 f_equal. lia. }
      replace (Z.pred (Z.of_nat (S k))) with (Z.of_nat k) by lia. unfold Z.succ.
      replace (e + Z.of_nat (S k))%Z with (e + 1 + Z.of_nat k)%Z by lia. apply IH; [lia|lia|right].
      by replace (e + 1 - 1)%Z with e by lia.
    + left. exists e. rewrite Z.shiftl_1_l. split; [lia|]. split; [done|]. split; [lia|done].
Qed.

Lemma probe_rounds_spec k e : (e = 8 * (6 - Z.of_nat k))%Z → k ≤ 6 → reached e →
  (∃ e', (0 ≤ e' ≤ 47)%Z ∧ probe_rounds exists_ start_after (S k) (below e) e = Ok (below e', 2 ^ e')%Z ∧ (n < 2 ^ e')%Z ∧ reached e') ∨
  (probe_rounds exists_ start_after (S k) (below e) e = Err InvalidDBState ∧ (2 ^ 47 ≤ n)%Z).
Proof using contiguous.
  revert e. induction k as [|k IH]; intros e He Hk Hr; cbn [probe_rounds]; unfold MAX_EXP, ROUND_SIZE.
  - subst e. right. split; [done|]. destruct Hr as [?|Hr]; [lia|]. exact Hr.
  - rewrite (proj2 (Z.leb_gt _ _)) by lia. rewrite Z.min_l by lia. replace (e + 8 - e)%Z with (Z.of_nat 8) by lia.
    destruct (read_probes_spec 8 e) as [(e' & He' & -> & Hlt & Hr')|[-> Hr']]; [lia|lia|done| |]; run.
    + left. by exists e'.
    + apply IH; [lia|lia|done].
Qed.

Lemma search_frontier_spec fuel left right : (1 ≤ left)%Z → (left - 1 ≤ n < right)%Z → (right ≤ 2 ^ 47)%Z → (right - left < Z.of_nat fuel)%Z →
  search_frontier exists_ start_after fuel left right = Ok (n + 1)%Z.
Proof using contiguous.
  revert left right. induction fuel as [|fuel IH]; intros left right Hl Hn Hr Hf; [lia|]. cbn [search_frontier].
  destruct (Z.ltb_spec left right) as [Hlt|Hge]; [|by replace left with (n + 1)%Z by lia].
  set (mid := (left + (right - left) / 2)%Z). assert (left ≤ mid < right)%Z.
  { unfold mid. pose proof (Z.div_pos (right - left) 2). pose proof (Z.div_lt (right - left) 2). lia. }
  rewrite contiguous by lia. run. case_bool_decide; apply IH; lia.
Qed.
End frontier.

(** C17: The probing search for the end of the log is exact.  When the files above [start_after] are the ones with the
    next [n] ids, the result is the last of these ids; it fails only beyond the range it is built to search, when
    there are [2 ^ 47] such files or more.  It ends within the rounds and the halvings it can take. *)
Theorem last_seen_exact exists_ start_after n :
  (0 ≤ n)%Z → (∀ off, (1 ≤ off ≤ 2 ^ 47)%Z → exists_ (start_after + off)%Z = Ok (bool_decide (off ≤ n)%Z)) →
  last_seen_wal_id exists_ start_after = if (n <? 2 ^ 47)%Z then Ok (start_after + n)%Z else Err InvalidDBState.
Proof.
  intros Hn Hc. unfold last_seen_wal_id. change (@None Z) with (below 0).
  destruct (probe_rounds_spec exists_ start_after n Hc 6 0) as [(e & He & -> & Hlt & Hr)|[-> Hr]]; [done|lia|by left| |].
  - run. assert (2 ^ e ≤ 2 ^ 47)%Z by (apply Z.pow_le_mono_r; lia). rewrite (proj2 (Z.ltb_lt _ _)) by lia.
    unfold below, reached in *. destruct (Z.eqb_spec e 0) as [->|Hne].
    + replace n with 0%Z by lia. by rewrite Z.add_0_r.
    + destruct Hr as [?|Hr]; [done|]. assert (0 < 2 ^ (e - 1))%Z by (apply Z.pow_pos_nonneg; lia).
      rewrite (search_frontier_spec exists_ start_after n Hc) by lia. run. f_equal. lia.
  - run. by rewrite (proj2 (Z.ltb_ge _ _)).
Qed.

Lemma last_seen_exact_witness :
  last_seen_wal_id (λ id, Ok (bool_decide (id ≤ 10 + 700)%Z)) 10 = Ok 710%Z.
Proof.
  rewrite (last_seen_exact _ 10 700); [done|lia|]. intros off _. f_equal. apply bool_decide_ext. lia.
Defined.
