(* ===== verification/Views.v ===== *)
(** * SST views and sorted runs ([db_state.rs])

    A view is an SST on storage with an optional projection; a sorted run is an
    ordered list of views.  The file models how the views that can hold a key or
    a range are found, how a projection narrows a view, and the sweep that
    measures how many L0 views cover one key. *)

From stdpp Require Import sorting.
From S2P Require Export OrdMap Types.

Notation Ulid := Z (only parsing).

Inductive CompressionCodec := Snappy | Zlib | Lz4 | Zstd.
Inductive SstType := Compacted | WalSst.
Inductive FilterFormat := LegacyFilter | CompositeFilter.

Record SsTableInfo := mkInfo {
  first_entry : option bytes;
  last_entry : option bytes;
  index_offset : Z;
  index_len : Z;
  filter_offset : Z;
  filter_len : Z;
  compression_codec : option CompressionCodec;
  sst_type : SstType;
  stats_offset : Z;
  stats_len : Z;
  filter_format : FilterFormat;
}.

Record SsTableHandle := mkHandle {
  handle_id : Ulid;
  format_version : Z;
  handle_info : SsTableInfo;
}.

Record SsTableView := mkView {
  view_id : Ulid;
  view_sst : SsTableHandle;
  visible_range : option BytesRange.t;
  effective_range : BytesRange.t;
}.

Global Instance CompressionCodec_eq_dec : EqDecision CompressionCodec.
Proof. solve_decision. Defined.
Global Instance SstType_eq_dec : EqDecision SstType.
Proof. solve_decision. Defined.
Global Instance FilterFormat_eq_dec : EqDecision FilterFormat.
Proof. solve_decision. Defined.
Global Instance SsTableInfo_eq_dec : EqDecision SsTableInfo.
Proof. solve_decision. Defined.
Global Instance SsTableHandle_eq_dec : EqDecision SsTableHandle.
Proof. solve_decision. Defined.
Global Instance SsTableView_eq_dec : EqDecision SsTableView.
Proof. solve_decision. Defined.

Definition start_of (r : BytesRange.t) : Bound bytes := start_inner (range_start (BytesRange.inner r)).
Definition end_of (r : BytesRange.t) : Bound bytes := end_inner (range_end (BytesRange.inner r)).

(** [SsTableInfo::physical_range] *)
Definition info_physical_range (i : SsTableInfo) : result (option BytesRange.t) :=
  match first_entry i with
  | None => mret None
  | Some first =>
      r ← BytesRange.new (Included first)
            match last_entry i with Some l => Included l | None => Unbounded end;
      mret (Some r)
  end.

(** [SsTableHandle::estimate_size] *)
Definition estimate_size (h : SsTableHandle) : Z := index_offset (handle_info h) + index_len (handle_info h).

(** [SsTableView::new] *)
Definition view_new (id : Ulid) (sst : SsTableHandle) : result SsTableView :=
  r ← info_physical_range (handle_info sst);
  mret (mkView id sst None (default BytesRange.new_empty r)).

(** [SsTableView::identity] *)
Definition view_identity (sst : SsTableHandle) : result SsTableView := view_new (handle_id sst) sst.

(** [SsTableView::physical_range] *)
Definition view_physical_range (v : SsTableView) : result BytesRange.t :=
  r ← info_physical_range (handle_info (view_sst v)); expect r.

(** [SsTableView::new_projected] *)
Definition view_new_projected (id : Ulid) (sst : SsTableHandle) (visible : option BytesRange.t) : result SsTableView :=
  r ← info_physical_range (handle_info sst);
  effective ← expect r;
  effective ← match visible with
              | Some vis =>
                  _ ← rust_assert (BytesRange.is_start_bound_included_or_unbounded vis);
                  expect (BytesRange.intersect effective vis)
              | None => mret effective
              end;
  mret (mkView id sst visible effective).

(** [Ulid::from_parts] and [Ulid::timestamp_ms]: 48 bits of time above 80 random bits. *)
Definition ulid_from_parts (timestamp_ms random : Z) : Ulid :=
  Z.lor (Z.shiftl (Z.land timestamp_ms (2 ^ 48 - 1)) 80) (Z.land random (2 ^ 80 - 1)).
Definition ulid_timestamp_ms (id : Ulid) : Z := Z.shiftr id 80.

(** The loop that draws an identifier different from the view's; [rng] is the stream of random draws. *)
Fixpoint draw_id (old : Ulid) (rng : list Z) : result (Ulid * list Z) :=
  match rng with
  | [] => OutOfFuel
  | x :: rng =>
      let id := ulid_from_parts (ulid_timestamp_ms old) x in
      if decide (id = old) then draw_id old rng else mret (id, rng)
  end.

(** [SsTableView::try_with_visible_range] *)
Definition try_with_visible_range (v : SsTableView) (visible : BytesRange.t) (rng : list Z)
    : result (option SsTableView * list Z) :=
  p ← view_physical_range v;
  match BytesRange.intersect p visible with
  | None => mret (None, rng)
  | Some _ =>
      if decide (visible_range v = Some visible) then mret (Some v, rng)
      else
        '(id, rng) ← draw_id (view_id v) rng;
        v' ← view_new_projected id (view_sst v) (Some visible);
        mret (Some v', rng)
  end.

(** [SsTableView::compacted_effective_start_key] *)
Definition compacted_effective_start_key (v : SsTableView) : result bytes :=
  match start_of (effective_range v) with Included k => mret k | _ => Panic end.

(** [SsTableView::compacted_intersection] *)
Definition compacted_intersection (v : SsTableView) (next_view : option SsTableView) (range : BytesRange.t)
    : result (option BytesRange.t) :=
  match next_view with
  | Some next =>
      next_key ← compacted_effective_start_key next;
      let e := if BytesRange.contains (effective_range v) next_key then Included next_key else Excluded next_key in
      own ← BytesRange.new (start_of (effective_range v)) e;
      mret (intersection ← BytesRange.intersect own range;
            match visible_range v with
            | Some visible => BytesRange.intersect intersection visible
            | None => Some intersection
            end)
  | None => mret (BytesRange.intersect (effective_range v) range)
  end.

(** [SsTableView::intersects_point] *)
Definition intersects_point (v : SsTableView) (end_bound : Bound bytes) (k : bytes) : bool :=
  let after_start := match start_of (effective_range v) with
                     | Included s => ord_leb s k
                     | Excluded s => ord_ltb s k
                     | Unbounded => true
                     end in
  let before_end := match end_bound with
                    | Included e => ord_leb k e
                    | Excluded e => ord_ltb k e
                    | Unbounded => true
                    end in
  after_start && before_end && BytesRange.non_empty (effective_range v).

(** [SsTableView::intersects_range] *)
Definition intersects_range (v : SsTableView) (end_bound : Bound bytes) (range : BytesRange.t) : result bool :=
  upto ← BytesRange.new Unbounded end_bound;
  match BytesRange.intersect upto (effective_range v) with
  | Some sst_range =>
      r ← BytesRange.new (start_of sst_range) end_bound;
      mret (bool_decide (is_Some (BytesRange.intersect r range)))
  | None => mret false
  end.

(** [SsTableView::calculate_view_range] *)
Definition calculate_view_range (v : SsTableView) (range : BytesRange.t) : option BytesRange.t :=
  match visible_range v with
  | Some visible => BytesRange.intersect range visible
  | None =>
      match last_entry (handle_info (view_sst v)) with
      | Some _ => BytesRange.intersect range (effective_range v)
      | None => Some range
      end
  end.

(** ** Sorted runs *)

Record SortedRun := mkRun { run_id : Z; sst_views : list SsTableView }.

Global Instance SortedRun_eq_dec : EqDecision SortedRun.
Proof. solve_decision. Defined.

(** [SortedRun::estimate_size] *)
Definition run_estimate_size (r : SortedRun) : Z := foldr Z.add 0%Z ((λ v, estimate_size (view_sst v)) <$> sst_views r).

(** [slice::partition_point], a binary search, with a predicate that can panic. *)
Section partition_point.
  Context {A : Type} (pred : A → result bool).

Fixpoint pp_loop (fuel : nat) (l : list A) (base size : nat) : result nat :=
  match fuel with
  | O => mret base
  | S fuel =>
      if decide (1 < size) then
        let half := size / 2 in
        let mid := base + half in
        m ← expect (l !! mid);
        b ← pred m;
        pp_loop fuel l (if b : bool then mid else base) (size - half)
      else mret base
  end.

Definition slice_partition_point (l : list A) : result nat :=
  if decide (length l = 0) then mret 0
  else
    base ← pp_loop (length l) l 0 (length l);
    m ← expect (l !! base);
    b ← pred m;
    mret (if b : bool then S base else base).
End partition_point.

(** [&views[a..b]] *)
Definition slice {A} (l : list A) (ab : nat * nat) : result (list A) :=
  if decide (ab.1 ≤ ab.2 ∧ ab.2 ≤ length l) then mret (take (ab.2 - ab.1) (drop ab.1 l)) else Panic.

(** [while min_idx > 0 && test(min_idx - 1) { min_idx -= 1 }] *)
Fixpoint walk_back (test : nat → result bool) (min_idx : nat) : result nat :=
  match min_idx with
  | O => mret 0
  | S j => b ← test j; if b : bool then walk_back test j else mret (S j)
  end.

Section run.
  Context (views : list SsTableView).

Definition start_le (k : bytes) (v : SsTableView) : result bool :=
  s ← compacted_effective_start_key v; mret (ord_leb s k).
Definition start_lt (k : bytes) (v : SsTableView) : result bool :=
  s ← compacted_effective_start_key v; mret (ord_ltb s k).

(** [SortedRun::overlaps_range] *)
Definition overlaps_range (range : BytesRange.t) : result bool :=
  match head views, last views with
  | Some first, Some lst =>
      span ← BytesRange.new (start_of (effective_range first)) (end_of (effective_range lst));
      mret (bool_decide (is_Some (BytesRange.intersect span range)))
  | _, _ => mret false
  end.

(** [SortedRun::find_last_sst_with_range_covering_key] *)
Definition find_last_sst_with_range_covering_key (k : bytes) : result (option nat) :=
  first_sst ← slice_partition_point (start_le k) views;
  mret (if decide (0 < first_sst) then Some (first_sst - 1) else None).

(** [SortedRun::table_end_bound] *)
Definition table_end_bound (idx : nat) : result (Bound bytes) :=
  current ← expect (views !! idx);
  if decide (idx + 1 < length views) then
    next ← expect (views !! (idx + 1));
    next_start ← compacted_effective_start_key next;
    mret (if BytesRange.contains (effective_range current) next_start then Included next_start else Excluded next_start)
  else mret Unbounded.

(** [SortedRun::point_intersects_table] *)
Definition point_intersects_table (k : bytes) (idx : nat) : result bool :=
  e ← table_end_bound idx;
  v ← expect (views !! idx);
  mret (intersects_point v e k).

(** [SortedRun::point_table_idx_covering_key] *)
Definition point_table_idx_covering_key (k : bytes) : result (nat * nat) :=
  o ← find_last_sst_with_range_covering_key k;
  match o with
  | None => mret (0, 0)
  | Some max_idx =>
      b ← point_intersects_table k max_idx;
      if negb b then mret (0, 0)
      else
        min_idx ← walk_back (point_intersects_table k) max_idx;
        mret (min_idx, max_idx + 1)
  end.

(** [views[idx].intersects_range(self.table_end_bound(idx), range)] *)
Definition range_intersects_table (range : BytesRange.t) (idx : nat) : result bool :=
  v ← expect (views !! idx);
  e ← table_end_bound idx;
  intersects_range v e range.

(** The last view whose start lies within the upper bound of the range. *)
Definition max_idx_for (range : BytesRange.t) : result (option nat) :=
  match end_of range with
  | Included hi =>
      p ← slice_partition_point (start_le hi) views; mret (if decide (p = 0) then None else Some (p - 1))
  | Excluded hi =>
      p ← slice_partition_point (start_lt hi) views; mret (if decide (p = 0) then None else Some (p - 1))
  | Unbounded => mret (Some (length views - 1))
  end.

(** [SortedRun::table_idx_covering_range] *)
Definition table_idx_covering_range (range : BytesRange.t) : result (nat * nat) :=
  if decide (views = []) then mret (0, 0)
  else
    o ← max_idx_for range;
    match o with
    | None => mret (0, 0)
    | Some max_idx =>
        b ← range_intersects_table range max_idx;
        if negb b then mret (0, 0)
        else
          start_candidate ←
            match start_of range with
            | Included lo | Excluded lo =>
                p ← slice_partition_point (start_le lo) views; mret (if decide (p = 0) then None else Some (p - 1))
            | Unbounded => mret None
            end;
          min_idx ← match start_candidate with
                    | Some idx => b ← range_intersects_table range idx; mret (if b : bool then idx else idx + 1)
                    | None => mret 0
                    end;
          min_idx ← walk_back (range_intersects_table range) min_idx;
          mret (min_idx, max_idx + 1)
    end.

(** [SortedRun::tables_covering_range] *)
Definition tables_covering_range (s e : Bound bytes) : result (list SsTableView) :=
  range ← BytesRange.new s e;
  matching ← table_idx_covering_range range;
  slice views matching.

(** [SortedRun::tables_covering_point_key] *)
Definition tables_covering_point_key (k : bytes) : result (list SsTableView) :=
  matching ← point_table_idx_covering_key k;
  slice views matching.

(** [SortedRun::into_tables_covering_range] *)
Definition into_tables_covering_range (range : BytesRange.t) : result (list SsTableView) :=
  matching ← table_idx_covering_range range;
  slice views matching.
End run.

(** ** How many L0 views cover a key *)

(** A position on the line of keys: [sign] for the sentinels, [offset] -1, 0 or 1 for just
    before, at and just after [key]. *)
Record Pos := mkPos { sign : Z; pos_key : bytes; offset : Z }.

Global Instance Pos_ord : Ord Pos := λ a b,
  match cmp (sign a) (sign b) with
  | Eq => match cmp (pos_key a) (pos_key b) with
          | Eq => cmp (offset a) (offset b)
          | c => c
          end
  | c => c
  end.

Definition start_pos (r : BytesRange.t) : Pos :=
  match start_of r with
  | Included k => mkPos 0 k 0
  | Excluded k => mkPos 0 k 1
  | Unbounded => mkPos (-1) [] 0
  end.

Definition end_pos (r : BytesRange.t) : Pos :=
  match end_of r with
  | Included k => mkPos 0 k 0
  | Excluded k => mkPos 0 k (-1)
  | Unbounded => mkPos 1 [] 0
  end.

Definition event_cmp (a b : Pos * Z) : comparison :=
  match cmp a.1 b.1 with Eq => cmp b.2 a.2 | c => c end.

Definition event_le (a b : Pos * Z) : Prop := event_cmp a b ≠ Gt.
Global Instance event_le_dec : RelDecision event_le.
Proof. intros a b. unfold event_le. destruct (event_cmp a b); [left|left|right]; naive_solver. Defined.

Definition sweep (acc : Z * Z) (e : Pos * Z) : Z * Z :=
  let '(active, peak) := acc in
  let active := (active + e.2)%Z in
  (active, if (peak <? active)%Z then active else peak).

Definition sweep_events (l0 : list SsTableView) : list (Pos * Z) :=
  l0 ≫= λ v, [(start_pos (effective_range v), 1%Z); (end_pos (effective_range v), (-1)%Z)].

(** [max_l0_overlap] *)
Definition max_l0_overlap (l0 : list SsTableView) : Z :=
  if decide (l0 = []) then 0
  else (foldl sweep (0, 0)%Z (merge_sort event_le (sweep_events l0))).2.

(** ** The sweep counts what covers a key *)

Section lexicographic_pairs.
  Context {A B : Type} `{OrdLaws A, OrdLaws B}.

Global Instance prod_ord : Ord (A * B) := λ x y, match cmp x.1 y.1 with Eq => cmp x.2 y.2 | c => c end.

Lemma prod_cmp (a a' : A) (b b' : B) : cmp (a, b) (a', b') = match cmp a a' with Eq => cmp b b' | c => c end.
Proof. reflexivity. Qed.

Global Instance prod_ord_laws : OrdLaws (A * B).
Proof.
  split.
  - intros [a b] [a' b']. rewrite prod_cmp. destruct (cmp a a') eqn:Ha.
    + apply cmp_eq in Ha as ->. rewrite cmp_eq. naive_solver.
    + split; [done|]. intros [= -> ->]. by rewrite cmp_refl in Ha.
    + split; [done|]. intros [= -> ->]. by rewrite cmp_refl in Ha.
  - intros [a b] [a' b']. rewrite !prod_cmp, (cmp_opp a a'), (cmp_opp b b'). by destruct (cmp a a').
  - intros [a b] [a' b'] [a'' b'']. rewrite !prod_cmp.
    destruct (cmp a a') eqn:E1; [| |done]; destruct (cmp a' a'') eqn:E2; try done.
    + apply cmp_eq in E1 as ->. apply cmp_eq in E2 as ->. rewrite cmp_refl. apply cmp_lt_trans.
    + apply cmp_eq in E1 as ->. by rewrite E2.
    + apply cmp_eq in E2 as ->. by rewrite E1.
    + by rewrite (cmp_lt_trans _ _ _ E1 E2).
Qed.
End lexicographic_pairs.

Definition pos_tuple (p : Pos) : Z * (bytes * Z) := (sign p, (pos_key p, offset p)).

Lemma pos_cmp a b : cmp a b = cmp (pos_tuple a) (pos_tuple b).
Proof. reflexivity. Qed.

Global Instance Pos_ord_laws : OrdLaws Pos.
Proof.
  split; intros *; rewrite ?pos_cmp.
  - rewrite cmp_eq. destruct a, b. unfold pos_tuple; cbn. naive_solver.
  - apply cmp_opp.
  - apply cmp_lt_trans.
Qed.

Lemma event_le_alt a b : event_le a b ↔ a.1 ≺ b.1 ∨ a.1 = b.1 ∧ (b.2 ≤ a.2)%Z.
Proof.
  unfold event_le, event_cmp, ord_lt. destruct (cmp a.1 b.1) eqn:E.
  - apply cmp_eq in E. unfold cmp, Z_ord. destruct (Z.compare_spec b.2 a.2); naive_solver lia.
  - naive_solver.
  - split; [done|]. intros [?|[E' _]]; [done|]. by rewrite E', cmp_refl in E.
Qed.

Global Instance event_le_trans : Transitive event_le.
Proof.
  intros a b c. rewrite !event_le_alt. intros [H1|[E1 H1]] [H2|[E2 H2]]; rewrite ?E1, <-?E2.
  - left. by eapply ord_lt_trans.
  - by left.
  - by left.
  - right. split; [done|lia].
Qed.

Global Instance event_le_total : Total event_le.
Proof.
  intros a b. rewrite !event_le_alt. destruct (ord_lt_total a.1 b.1) as [?|[E|?]]; [auto| |auto].
  rewrite E. destruct (Z.le_ge_cases b.2 a.2); [left|right]; right; split; (done || lia).
Qed.

Notation deltas l := (foldr Z.add 0%Z (snd <$> (l : list (Pos * Z)))).

Lemma deltas_app a b : deltas (a ++ b) = (deltas a + deltas b)%Z.
Proof. induction a as [|e a IH]; cbn; [done|]. rewrite fmap_app in *. cbn in *. lia. Qed.

Lemma deltas_perm a b : a ≡ₚ b → deltas a = deltas b.
Proof. induction 1; cbn in *; lia. Qed.

(** The peak is the largest sum of a prefix. *)
Lemma sweep_peak_ge a p l :
  (p ≤ (foldl sweep (a, p) l).2)%Z ∧
  ∀ l1 l2, l = l1 ++ l2 → l1 ≠ [] → (a + deltas l1 ≤ (foldl sweep (a, p) l).2)%Z.
Proof.
  revert a p. induction l as [|e l IH]; intros a p; cbn [foldl sweep].
  { split; [cbn; lia|]. intros l1 l2 E Hne. symmetry in E. by apply app_eq_nil in E as [-> _]. }
  set (q := if (p <? a + e.2)%Z then (a + e.2)%Z else p).
  assert (p ≤ q ∧ a + e.2 ≤ q)%Z as [Hq1 Hq2] by (unfold q; destruct (Z.ltb_spec p (a + e.2)); lia).
  destruct (IH (a + e.2)%Z q) as [H1 H2]. split; [lia|].
  intros [|e' l1] l2 E Hne; [done|]. injection E as <- E. cbn. destruct l1 as [|e1 l1]; [cbn; lia|].
  specialize (H2 (e1 :: l1) l2 E ltac:(done)). cbn in H2 |- *. lia.
Qed.

Lemma sweep_peak_attained a p l :
  (a ≤ p)%Z →
  (foldl sweep (a, p) l).2 = p ∨
  ∃ l1 e l2, l = l1 ++ e :: l2 ∧ (0 < e.2)%Z ∧ (foldl sweep (a, p) l).2 = (a + deltas (l1 ++ [e]))%Z.
Proof.
  revert a p. induction l as [|e l IH]; intros a p Hap; cbn [foldl sweep]; [by left|].
  destruct (Z.ltb_spec p (a + e.2)) as [Hlt|Hge].
  - destruct (IH (a + e.2)%Z (a + e.2)%Z) as [->|(l1 & e1 & l2 & -> & He & ->)]; [lia| |].
    + right. exists [], e, l. split_and!; [done|lia|cbn; lia].
    + right. exists (e :: l1), e1, l2. split_and!; [done|done|]. cbn. lia.
  - destruct (IH (a + e.2)%Z p) as [->|(l1 & e1 & l2 & -> & He & ->)]; [lia|by left|].
    right. exists (e :: l1), e1, l2. split_and!; [done|done|]. cbn. lia.
Qed.

(** A view that covers at least its own first key. *)
Definition view_ok (v : SsTableView) : Prop :=
  ∃ k, start_of (effective_range v) = Included k ∧ BytesRange.contains (effective_range v) k = true.

(** The views that cover a key. *)
Definition covering (l0 : list SsTableView) (k : bytes) : list SsTableView :=
  filter (λ v, BytesRange.contains (effective_range v) k = true) l0.

Notation at_key k := (mkPos 0 k 0).

Lemma at_key_lt k k' o : at_key k ≺ mkPos 0 k' o ↔ k ≺ k' ∨ k = k' ∧ (0 < o)%Z.
Proof.
  unfold ord_lt. rewrite pos_cmp. unfold pos_tuple. cbn [sign pos_key offset]. rewrite prod_cmp, cmp_refl, prod_cmp.
  destruct (cmp k k') eqn:E.
  - apply cmp_eq in E as ->. change (cmp 0%Z o) with (0 ?= o)%Z. rewrite Z.compare_lt_iff. naive_solver.
  - naive_solver.
  - split; [done|]. intros [?|[-> _]]; [done|]. by rewrite cmp_refl in E.
Qed.

Lemma contains_start r k s : start_of r = Included s → start_admits (range_start (BytesRange.inner r)) k = bool_decide (start_pos r ≼ at_key k).
Proof.
  intros Hs. unfold start_admits, start_pos. fold (start_of r). rewrite Hs. apply eq_true_iff_eq.
  rewrite bool_decide_eq_true, ord_leb_true, <-(ord_not_lt k s), <-(ord_not_lt (at_key k) (at_key s)), at_key_lt. naive_solver lia.
Qed.

Lemma contains_end r k : end_admits (range_end (BytesRange.inner r)) k = bool_decide (at_key k ≼ end_pos r).
Proof.
  unfold end_admits, end_pos. fold (end_of r). apply eq_true_iff_eq. rewrite bool_decide_eq_true, ord_le_alt.
  destruct (end_of r) as [e|e|].
  - rewrite ord_leb_true, at_key_lt, ord_le_alt. naive_solver lia.
  - rewrite ord_ltb_true, at_key_lt. naive_solver lia.
  - split; [|done]. intros _. by left.
Qed.

Notation before k := (λ e, event_le e (at_key k, 1%Z)).

(** What a view contributes to the events up to a key. *)
Lemma contribution v k :
  view_ok v →
  deltas (filter (before k) [(start_pos (effective_range v), 1%Z); (end_pos (effective_range v), (-1)%Z)]) =
  if BytesRange.contains (effective_range v) k then 1%Z else 0%Z.
Proof.
  intros (s & Hs & Hc). unfold BytesRange.contains, range_contains in *.
  rewrite (contains_start _ k s), contains_end by done. rewrite (contains_start _ s s), contains_end in Hc by done.
  apply andb_true_iff in Hc as [_ Hc]. apply bool_decide_eq_true in Hc.
  assert (start_pos (effective_range v) = at_key s) as Hsp by (unfold start_pos; by rewrite Hs). rewrite Hsp in *.
  rewrite !filter_cons, filter_nil.
  destruct (decide (event_le (at_key s, 1%Z) (at_key k, 1%Z))) as [H1|H1];
    destruct (decide (event_le (end_pos (effective_range v), (-1)%Z) (at_key k, 1%Z))) as [H2|H2];
    rewrite event_le_alt in H1, H2; cbn in H1, H2.
  - rewrite (bool_decide_eq_false_2 (at_key k ≼ _)), andb_false_r by (apply ord_not_le; destruct H2 as [?|[_ ?]]; [done|lia]). done.
  - rewrite !bool_decide_eq_true_2; [done| |].
    + apply ord_not_lt. intros ?. apply H2. by left.
    + apply ord_le_alt. destruct H1 as [?|[? _]]; auto.
  - exfalso. destruct H2 as [H2|[_ ?]]; [|lia]. apply H1. left. eapply ord_le_lt_trans; [exact Hc|done].
  - rewrite bool_decide_eq_false_2; [done|]. rewrite ord_le_alt. intros [?|?]; apply H1; [by left|by right].
Qed.

Lemma sweep_count l0 k :
  Forall view_ok l0 →
  deltas (filter (before k) (sweep_events l0)) = Z.of_nat (length (covering l0 k)).
Proof.
  induction 1 as [|v l0 Hv _ IH]; [done|]. change (sweep_events (v :: l0)) with
    ([(start_pos (effective_range v), 1%Z); (end_pos (effective_range v), (-1)%Z)] ++ sweep_events l0).
  rewrite filter_app, deltas_app, IH, contribution by done. unfold covering. rewrite filter_cons.
  destruct (BytesRange.contains (effective_range v) k) eqn:Hc; [rewrite decide_True by done|rewrite decide_False by done]; cbn; lia.
Qed.

Lemma sorted_split {A} (R : relation A) `{!RelDecision R, !Transitive R} l x :
  StronglySorted R l → ∃ l1 l2, l = l1 ++ l2 ∧ filter (λ e, R e x) l = l1.
Proof.
  induction 1 as [|e l Hs IH HF]; [by exists [], []|]. destruct IH as (l1 & l2 & -> & Hf). rewrite filter_cons.
  destruct (decide (R e x)) as [He|He].
  - exists (e :: l1), l2. by rewrite Hf.
  - exists [], (e :: l1 ++ l2). split; [done|]. apply list_filter_none.
    eapply Forall_impl; [exact HF|]. intros e' Hee' He'. apply He. by etrans.
Qed.

Lemma sweep_event_cases l0 e :
  Forall view_ok l0 → e ∈ sweep_events l0 → (∃ k, e = (at_key k, 1%Z)) ∨ e.2 = (-1)%Z.
Proof.
  intros Hok Hin. unfold sweep_events in Hin. apply list_elem_of_bind in Hin as (w & Hw & Hwl).
  rewrite Forall_forall in Hok. destruct (Hok w Hwl) as (k & Hk & _).
  apply elem_of_cons in Hw as [->|Hw%list_elem_of_singleton]; [left|right; by subst].
  exists k. unfold start_pos. by rewrite Hk.
Qed.

(** Behind the start of a view at [k], only further starts at [k] count as events up to [k]. *)
Lemma later_events_nonneg k l :
  Forall (λ x, event_le (at_key k, 1%Z) x) l → (0 ≤ deltas (filter (before k) l))%Z.
Proof.
  intros Hle. assert (Forall (λ x, (0 ≤ x.2)%Z) (filter (before k) l)) as HF.
  { apply Forall_forall. intros x [Hx Hxl]%list_elem_of_filter. rewrite Forall_forall in Hle. specialize (Hle x Hxl).
    rewrite event_le_alt in Hx, Hle. cbn in *. destruct Hx as [Hx|[Ex Hx]]; [|lia]. destruct Hle as [Hle|[Ex' _]]; exfalso.
    - eapply ord_lt_irrefl, ord_lt_trans; [exact Hx|exact Hle].
    - rewrite <-Ex' in Hx. by apply ord_lt_irrefl in Hx. }
  induction HF; cbn in *; lia.
Qed.

(** [max_l0_overlap] is exact. When every L0 view covers its own first key, the sweep over the
    sorted boundary events returns the largest number of views that cover one key: no key is
    covered by more views, and some key is covered by that many. *)
Theorem max_l0_overlap_exact l0 :
  Forall view_ok l0 →
  (∀ k, (Z.of_nat (length (covering l0 k)) ≤ max_l0_overlap l0)%Z) ∧
  (l0 ≠ [] → ∃ k, Z.of_nat (length (covering l0 k)) = max_l0_overlap l0).
Proof.
  intros Hok. unfold max_l0_overlap. destruct (decide (l0 = [])) as [->|Hne]; [done|].
  set (E := merge_sort event_le (sweep_events l0)).
  assert (E ≡ₚ sweep_events l0) as Hperm by apply merge_sort_Permutation.
  assert (StronglySorted event_le E) as Hs by (apply StronglySorted_merge_sort; apply _).
  assert (∀ k, deltas (filter (before k) E) = Z.of_nat (length (covering l0 k))) as Hcount.
  { intros k. rewrite <-sweep_count by done. apply deltas_perm. by rewrite Hperm. }
  assert (∀ k, (Z.of_nat (length (covering l0 k)) ≤ (foldl sweep (0, 0)%Z E).2)%Z) as Hge.
  { intros k. destruct (sorted_split event_le E (at_key k, 1%Z) Hs) as (l1 & l2 & HE & Hf).
    rewrite <-Hcount, Hf. destruct (sweep_peak_ge 0 0 E) as [H0 H1]. destruct l1 as [|e l1]; [cbn; lia|].
    specialize (H1 (e :: l1) l2 HE ltac:(done)). lia. }
  split; [exact Hge|]. intros _.
  destruct l0 as [|v l0'] eqn:El; [done|]. rewrite <-El in *.
  pose proof Hok as HF. rewrite El in HF. apply Forall_cons in HF as [(k0 & Hk0 & Hc0) _].
  destruct (sweep_peak_attained 0 0 E) as [Hz|(l1 & e & l2 & HE & He & Hp)]; [lia| |].
  - exfalso. specialize (Hge k0). rewrite Hz, El in Hge. unfold covering in Hge. rewrite filter_cons, decide_True in Hge by done.
    cbn in Hge. lia.
  - assert (e ∈ sweep_events l0) as Hin by (rewrite <-Hperm, HE; set_solver).
    destruct (sweep_event_cases _ _ Hok Hin) as [[k ->]|Hd]; [|lia].
    exists k. apply Z.le_antisymm; [apply Hge|]. rewrite <-Hcount, Hp, HE.
    replace (l1 ++ (at_key k, 1%Z) :: l2) with ((l1 ++ [(at_key k, 1%Z)]) ++ l2) in * by (by rewrite <-app_assoc).
    rewrite HE in Hs. apply StronglySorted_app in Hs as (Hle & Hs1 & _). rewrite filter_app, list_filter_all.
    + rewrite (deltas_app (l1 ++ [_])). assert (0 ≤ deltas (filter (before k) l2))%Z; [|lia].
      apply later_events_nonneg, Forall_forall. intros x Hx. apply Hle; [set_solver|done].
    + apply Forall_forall. intros x [Hx| ->%list_elem_of_singleton]%elem_of_app.
      * apply StronglySorted_app in Hs1 as (Hle1 & _). apply Hle1; [done|set_solver].
      * apply event_le_alt. by right.
Qed.

(** ** [partition_point] *)

Section partition_point_spec.
  Context {A : Type} (pred : A → result bool) (p : A → bool) (l : list A).
  Context (Hpred : ∀ y, y ∈ l → pred y = Ok (p y)).
Let side (y : A) : comparison := if p y then Lt else Gt.

Lemma pp_loop_search fuel base size :
  base + size ≤ length l → pp_loop pred fuel l base size = Ok (search_loop side fuel l base size).
Proof using Hpred.
  revert base size. induction fuel as [|fuel IH]; intros base size Hb; [done|]. cbn [pp_loop search_loop].
  destruct (decide (1 < size)) as [Hs|]; [|done].
  assert (0 < size / 2 < size) as Hhalf by (split; [apply Nat.div_str_pos|apply Nat.div_lt]; lia).
  destruct (lookup_lt_is_Some_2 l (base + size / 2)) as [m Hm]; [lia|]. rewrite Hm. run.
  rewrite Hpred by (by eapply list_elem_of_lookup_2). run. unfold side.
  destruct (p m); rewrite IH by lia; done.
Qed.

Lemma slice_partition_point_ok :
  (∀ i j y z, i < j → l !! i = Some y → l !! j = Some z → p z = true → p y = true) →
  ∃ n, slice_partition_point pred l = Ok n ∧ n ≤ length l ∧
    (∀ i y, i < n → l !! i = Some y → p y = true) ∧ (∀ i y, n ≤ i → l !! i = Some y → p y = false).
Proof using Hpred.
  intros Hp. assert (partitioned side l) as Hpart.
  { intros i j y z Hij Hy Hz. specialize (Hp i j y z Hij Hy Hz). unfold side. destruct (p y), (p z); naive_solver. }
  pose proof (binary_search_by_spec side l Hpart) as Hspec. unfold binary_search_by in Hspec. unfold slice_partition_point.
  destruct (decide (length l = 0)) as [H0|H0].
  { exists 0. apply nil_length_inv in H0. subst l. split_and!; [done|cbn; lia|lia|]. by intros [] y _. }
  rewrite pp_loop_search by lia. run. set (b := search_loop side (length l) l 0 (length l)) in *.
  destruct (search_loop_spec side (length l) l 0 (length l) Hpart) as (Hb & _);
    [lia..|by left|intros j y Hj Hy; apply lookup_lt_Some in Hy; lia|]. fold b in Hb.
  destruct (lookup_lt_is_Some_2 l b Hb) as [m Hm]. rewrite Hm in Hspec |- *. run.
  rewrite Hpred by (by eapply list_elem_of_lookup_2). run.
  assert (∀ n : nat, (∀ j y, j < n → l !! j = Some y → side y = Lt) → ∀ j y, j < n → l !! j = Some y → p y = true) as Hlt.
  { intros n Hn j y Hj Hy. specialize (Hn j y Hj Hy). unfold side in Hn. by destruct (p y). }
  assert (∀ n : nat, (∀ j y, n ≤ j → l !! j = Some y → side y = Gt) → ∀ j y, n ≤ j → l !! j = Some y → p y = false) as Hgt.
  { intros n Hn j y Hj Hy. specialize (Hn j y Hj Hy). unfold side in Hn. by destruct (p y). }
  unfold side in Hspec at 1. destruct (p m); destruct Hspec as (Hn & H1 & H2); eexists; split; [done| |done|]; eauto.
Qed.
End partition_point_spec.

(** ** Which views can hold a key *)

Notation point k := (BytesRange.mk (range_new (Included k) (Included k))).
Notation holds v k := (BytesRange.contains (effective_range v) k = true).

Lemma ord_min_le {T} `{OrdLaws T} (a b : T) : ord_min a b ≼ a ∧ ord_min a b ≼ b.
Proof. unfold ord_min. destruct (ord_ltb b a) eqn:E; split; ord. Qed.

Lemma ord_max_ge {T} `{OrdLaws T} (a b : T) : a ≼ ord_max a b ∧ b ≼ ord_max a b.
Proof. unfold ord_max. destruct (ord_ltb b a) eqn:E; split; ord. Qed.

Lemma non_empty_mono_end s (e e' : EndBound bytes) :
  e ≼ e' → range_non_empty (mkRange s e) = true → range_non_empty (mkRange s e') = true.
Proof.
  destruct s as [s], e as [e], e' as [e']. unfold range_non_empty, ord_le, cmp, EndBound_ord. cbn.
  destruct s as [a|a|], e as [b|b|], e' as [c|c|]; cbn; try done; intros Hle Hne;
    repeat match type of Hle with context [cmp ?x ?y] => destruct (cmp x y) eqn:?; cbn in Hle end; try done; ord.
Qed.

Lemma non_empty_mono_start (s s' : StartBound bytes) e :
  s ≼ s' → range_non_empty (mkRange s' e) = true → range_non_empty (mkRange s e) = true.
Proof.
  destruct s as [s], s' as [s'], e as [e]. unfold range_non_empty, ord_le, cmp, StartBound_ord. cbn.
  destruct s as [a|a|], s' as [b|b|], e as [c|c|]; cbn; try done; intros Hle Hne;
    repeat match type of Hle with context [cmp ?x ?y] => destruct (cmp x y) eqn:?; cbn in Hle end; try done; ord.
Qed.

Lemma point_intersect (r : ComparableRange bytes) k :
  is_Some (range_intersect r (range_new (Included k) (Included k))) ↔ range_contains r k = true.
Proof.
  split.
  - unfold range_intersect. cbn [range_new range_start range_end].
    destruct (range_non_empty _) eqn:Hne; [|by intros [? ?]]. intros _.
    destruct (ord_max_ge (range_start r) (mkStart (Included k))) as [Hs1 Hs2].
    destruct (ord_min_le (range_end r) (mkEnd (Included k))) as [He1 He2].
    pose proof (non_empty_mono_start _ _ _ Hs1 (non_empty_mono_end _ _ _ He2 Hne)) as H1.
    pose proof (non_empty_mono_start _ _ _ Hs2 (non_empty_mono_end _ _ _ He1 Hne)) as H2.
    unfold range_contains. apply andb_true_iff. split.
    + unfold range_non_empty in H1. unfold start_admits. cbn in H1. by destruct (start_inner (range_start r)).
    + unfold range_non_empty in H2. unfold end_admits. cbn in H2. by destruct (end_inner (range_end r)).
  - intros Hc. pose proof (intersect_contains r (range_new (Included k) (Included k)) k) as Hi. rewrite Hc in Hi.
    replace (range_contains (range_new (Included k) (Included k)) k) with true in Hi.
    2:{ symmetry. unfold range_contains, start_admits, end_admits. cbn. apply andb_true_iff. split; ord. }
    destruct (range_intersect r _); [by eexists|done].
Qed.

(** What [intersects_range] computes, for any view. *)
Lemma intersects_range_alt v e range :
  let s := range_start (BytesRange.inner (effective_range v)) in
  let ne := range_non_empty (mkRange s (ord_min (mkEnd e) (range_end (BytesRange.inner (effective_range v))))) in
  intersects_range v e range =
    Ok (ne && bool_decide (is_Some (range_intersect (mkRange s (mkEnd e)) (BytesRange.inner range)))).
Proof.
  cbv zeta. unfold intersects_range, BytesRange.new. change (range_non_empty (range_new Unbounded e)) with true. run.
  unfold BytesRange.intersect, range_intersect at 1. cbn [range_new BytesRange.inner range_start range_end].
  assert (ord_max (mkStart Unbounded) (range_start (BytesRange.inner (effective_range v))) =
    range_start (BytesRange.inner (effective_range v))) as ->.
  { unfold ord_max. by destruct (range_start (BytesRange.inner (effective_range v))) as [[]]. }
  destruct (range_non_empty _) eqn:Hne; [|done]. cbn [fmap option_fmap option_map start_of BytesRange.inner range_start].
  unfold start_of. cbn [BytesRange.inner range_start].
  assert (range_new (start_inner (range_start (BytesRange.inner (effective_range v)))) e =
    mkRange (range_start (BytesRange.inner (effective_range v))) (mkEnd e)) as ->
    by (unfold range_new; by destruct (range_start (BytesRange.inner (effective_range v)))).
  rewrite (non_empty_mono_end _ (ord_min (mkEnd e) (range_end (BytesRange.inner (effective_range v))))); [|by apply ord_min_le|done].
  run. f_equal. cbn [andb BytesRange.inner]. apply bool_decide_ext, fmap_is_Some.
Qed.

Lemma intersects_point_range v e k : intersects_range v e (point k) = Ok (intersects_point v e k).
Proof.
  rewrite intersects_range_alt. f_equal. cbn [BytesRange.inner].
  unfold intersects_point, BytesRange.non_empty. destruct (effective_range v) as [[s ee]]. cbn [BytesRange.inner start_of range_start range_end].
  change (start_of (BytesRange.mk (mkRange s ee))) with (start_inner s).
  fold (start_admits s k). change (match e with
    | Included e => ord_leb k e | Excluded e => ord_ltb k e | Unbounded => true end) with (end_admits (mkEnd e) k).
  apply eq_true_iff_eq. rewrite !andb_true_iff, bool_decide_eq_true, point_intersect. unfold range_contains at 1.
  cbn [range_start range_end]. rewrite andb_true_iff.
  destruct (ord_min_le (mkEnd e) ee) as [_ Hmin]. split.
  - intros (Hne & Hs & He). split_and!; [done|done|]. by apply (non_empty_mono_end _ _ _ Hmin).
  - intros ((Hs & He) & Hne). split_and!; [|done|done]. unfold ord_min. destruct (ord_ltb ee (mkEnd e)); [done|].
    apply (contains_non_empty _ k). unfold range_contains. cbn. by rewrite Hs, He.
Qed.

Lemma point_range_tables views k idx :
  range_intersects_table views (point k) idx = point_intersects_table views k idx.
Proof.
  unfold range_intersects_table, point_intersects_table, table_end_bound.
  destruct (views !! idx) as [v|]; [|done]. run.
  match goal with |- (?c ≫= _) = _ => destruct c; [|done..] end. run. apply intersects_point_range.
Qed.

Lemma walk_back_ext (f g : nat → result bool) n : (∀ i, f i = g i) → walk_back f n = walk_back g n.
Proof. intros Hfg. induction n as [|n IH]; [done|]. cbn. rewrite Hfg. destruct (g n) as [[]| | |]; [|done..]. by run. Qed.

Lemma point_table_idx views k : point_table_idx_covering_key views k = table_idx_covering_range views (point k).
Proof.
  unfold point_table_idx_covering_key, table_idx_covering_range, find_last_sst_with_range_covering_key, max_idx_for.
  change (end_of (point k)) with (Included k). change (start_of (point k)) with (Included k). cbv iota.
  destruct (decide (views = [])) as [->|Hne]; [done|].
  destruct (slice_partition_point (start_le k) views) as [p| | |]; [|done..]. run.
  destruct p as [|p]; [done|]. rewrite decide_True by lia. rewrite decide_False by lia.
  rewrite point_range_tables. destruct (point_intersects_table views k (S p - 1)) as [[]| | |] eqn:Hp; [|done..].
  cbn [negb]. run. rewrite point_range_tables, Hp. run.
  by rewrite (walk_back_ext _ _ _ (point_range_tables views k)).
Qed.

(** The point lookup of a sorted run is its range lookup. For every run, well formed or not,
    [point_table_idx_covering_key] returns (or panics) exactly as [table_idx_covering_range] does on
    the range from the key to itself, and on each view the allocation-free [intersects_point] test
    agrees with [intersects_range]. *)
Theorem point_lookup_is_range_lookup views k :
  point_table_idx_covering_key views k = table_idx_covering_range views (point k) ∧
  ∀ v e, intersects_range v e (point k) = Ok (intersects_point v e k).
Proof. split; [apply point_table_idx|intros; apply intersects_point_range]. Qed.

(** ** Every view that can hold a key of the range is found *)

(** The views of a run in order: no key of a view lies above the start of a later one. *)
Record run_ok (views : list SsTableView) : Prop := {
  ro_views : Forall view_ok views;
  ro_order i j v w k s : i < j → views !! i = Some v → views !! j = Some w →
    holds v k → start_of (effective_range w) = Included s → k ≼ s;
}.

Section covering.
  Context (views : list SsTableView) (Hok : run_ok views).

Definition starts_at (i : nat) (v : SsTableView) (s : bytes) : Prop :=
  views !! i = Some v ∧ start_of (effective_range v) = Included s ∧ holds v s.

Lemma view_start i v : views !! i = Some v → ∃ s, starts_at i v s.
Proof using Hok.
  intros Hv. pose proof (ro_views _ Hok) as HF. rewrite Forall_lookup in HF. destruct (HF i v Hv) as (s & Hs & Hc). by exists s.
Qed.

Lemma starts_sorted i j v w s t : i ≤ j → starts_at i v s → starts_at j w t → s ≼ t.
Proof using Hok.
  intros Hij (Hv & Hs & Hc) (Hw & Ht & _). destruct (decide (i = j)) as [->|].
  - assert (v = w) as <- by congruence. assert (s = t) as <- by congruence. apply ord_le_refl.
  - apply (ro_order _ Hok i j v w); (done || lia).
Qed.

Lemma holds_start v s k : start_of (effective_range v) = Included s → holds v k → s ≼ k.
Proof.
  intros Hs Hk. unfold BytesRange.contains, range_contains, start_admits in Hk. fold (start_of (effective_range v)) in Hk.
  rewrite Hs in Hk. apply andb_true_iff in Hk as [Hk _]. by apply ord_leb_true.
Qed.

(** The end of a view's slot admits every key the view holds. *)
Lemma end_bound_admits i v k :
  views !! i = Some v → holds v k → ∃ e, table_end_bound views i = Ok e ∧ end_admits (mkEnd e) k = true.
Proof using Hok.
  intros Hv Hk. unfold table_end_bound. rewrite Hv. run. destruct (decide (i + 1 < length views)) as [Hi|]; [|by eexists].
  destruct (lookup_lt_is_Some_2 views (i + 1) Hi) as [w Hw]. rewrite Hw. run.
  destruct (view_start _ _ Hw) as (t & Hw' & Ht & _). unfold compacted_effective_start_key. rewrite Ht. run.
  eexists. split; [done|]. pose proof (ro_order _ Hok i (i + 1) v w k t ltac:(lia) Hv Hw Hk Ht) as Hle.
  destruct (BytesRange.contains (effective_range v) t) eqn:Hc; unfold end_admits; cbn; [ord|].
  apply ord_le_alt in Hle as [Hlt| ->]; [by apply ord_ltb_true|congruence].
Qed.

Lemma end_bound_total i v : views !! i = Some v → ∃ e, table_end_bound views i = Ok e.
Proof using Hok. intros Hv. destruct (view_start _ _ Hv) as (s & _ & _ & Hc). destruct (end_bound_admits i v s Hv Hc) as (e & He & _). by exists e. Qed.

Lemma intersects_total range i v : views !! i = Some v → ∃ b, range_intersects_table views range i = Ok b.
Proof using Hok.
  intros Hv. destruct (end_bound_total i v Hv) as [e He]. unfold range_intersects_table. rewrite Hv. run. rewrite He. run.
  rewrite intersects_range_alt. by eexists.
Qed.

(** A view that holds a key of the range intersects it. *)
Lemma holds_intersects range i v k :
  views !! i = Some v → holds v k → BytesRange.contains range k = true → range_intersects_table views range i = Ok true.
Proof using Hok.
  intros Hv Hk Hr. destruct (view_start _ _ Hv) as (s & _ & Hs & Hsc). destruct (end_bound_admits i v k Hv Hk) as (e & He & Hek).
  unfold range_intersects_table. rewrite Hv. run. rewrite He. run. rewrite intersects_range_alt. f_equal.
  unfold BytesRange.contains in *. apply andb_true_iff. split.
  - unfold range_contains in Hk. apply andb_true_iff in Hk as [Hk1 Hk2]. apply (contains_non_empty _ k). unfold range_contains.
    cbn [range_start range_end]. rewrite Hk1, end_admits_min, Hek, Hk2. done.
  - apply bool_decide_eq_true. unfold range_contains in Hk. apply andb_true_iff in Hk as [Hk1 _].
    pose proof (intersect_contains (mkRange (range_start (BytesRange.inner (effective_range v))) (mkEnd e)) (BytesRange.inner range) k) as Hi.
    unfold range_contains at 1 in Hi. cbn [range_start range_end] in Hi. rewrite Hk1, Hek, Hr in Hi.
    destruct (range_intersect _ _); [by eexists|done].
Qed.
End covering.

Lemma walk_back_spec test n :
  (∀ i, i < n → ∃ b, test i = Ok b) →
  ∃ m, walk_back test n = Ok m ∧ m ≤ n ∧ (∀ i, m ≤ i < n → test i = Ok true) ∧ (m = 0 ∨ test (m - 1) = Ok false).
Proof.
  induction n as [|n IH]; intros Ht.
  { exists 0. split_and!; [done|lia|lia|by left]. }
  cbn [walk_back]. destruct (Ht n ltac:(lia)) as [[] Hn]; rewrite Hn; run.
  - destruct IH as (m & Hw & Hm & Hall & Hstop); [intros; apply Ht; lia|]. exists m. split_and!; [done|lia| |done].
    intros i Hi. destruct (decide (i = n)) as [->|]; [done|]. apply Hall. lia.
  - exists (S n). split_and!; [done|lia|lia|]. right. by rewrite Nat.sub_1_r.
Qed.

Section covering_range.
  Context (views : list SsTableView) (Hok : run_ok views) (range : BytesRange.t).

Definition vstart (v : SsTableView) : bytes := match start_of (effective_range v) with Included k => k | _ => [] end.
Notation end_ok k := (end_admits (range_end (BytesRange.inner range)) k = true).
Notation start_ok k := (start_admits (range_start (BytesRange.inner range)) k = true).

Lemma vstart_at i v : views !! i = Some v → starts_at views i v (vstart v).
Proof using Hok.
  intros Hv. destruct (view_start _ Hok _ _ Hv) as (s & Hv' & Hs & Hc). unfold vstart. by rewrite Hs.
Qed.

Lemma start_partition q pred :
  (∀ v, v ∈ views → pred v = Ok (q (vstart v))) → (∀ a b : bytes, a ≼ b → q b = true → q a = true) →
  ∃ n, slice_partition_point pred views = Ok n ∧ n ≤ length views ∧
    (∀ i v, views !! i = Some v → q (vstart v) = true ↔ i < n).
Proof using Hok.
  intros Hpred Hq. destruct (slice_partition_point_ok pred (λ v, q (vstart v)) views Hpred) as (n & Hn & Hlen & H1 & H2).
  { intros i j v w Hij Hv Hw. apply Hq. eapply (starts_sorted views Hok i j); [lia|by apply vstart_at..]. }
  exists n. split_and!; [done..|]. intros i v Hv. split; [|by intros; apply (H1 i)].
  intros Ht. destruct (decide (i < n)); [done|]. rewrite (H2 i v) in Ht; [done|lia|done].
Qed.

Lemma start_keys (q : bytes → bool) v :
  v ∈ views → (s ← compacted_effective_start_key v; mret (q s)) = Ok (E:=SlateDBError) (q (vstart v)).
Proof using Hok.
  intros [i Hv]%list_elem_of_lookup_1. destruct (vstart_at i v Hv) as (_ & Hs & _).
  unfold compacted_effective_start_key. rewrite Hs. by run.
Qed.

Lemma leb_closed (k a b : bytes) : a ≼ b → ord_leb b k = true → ord_leb a k = true.
Proof. rewrite !ord_leb_true. ord. Qed.
Lemma ltb_closed (k a b : bytes) : a ≼ b → ord_ltb b k = true → ord_ltb a k = true.
Proof. rewrite !ord_ltb_true. ord. Qed.

Lemma max_idx_ok :
  views ≠ [] → ∃ o, max_idx_for views range = Ok o ∧
    match o with
    | None => ∀ i v, views !! i = Some v → ¬ end_ok (vstart v)
    | Some m => m < length views ∧ ∀ i v, views !! i = Some v → end_ok (vstart v) ↔ i ≤ m
    end.
Proof using Hok.
  intros Hne. unfold max_idx_for, end_admits. fold (end_of range).
  assert (0 < length views) as Hlen by (destruct views; [done|cbn; lia]).
  assert (∀ q : bytes → bool, (∀ a b, a ≼ b → q b = true → q a = true) →
    ∃ o, (p ← slice_partition_point (λ v, s ← compacted_effective_start_key v; mret (q s)) views;
          mret (if decide (p = 0) then None else Some (p - 1))) = Ok (E:=SlateDBError) o ∧
    match o with
    | None => ∀ i v, views !! i = Some v → ¬ q (vstart v) = true
    | Some m => m < length views ∧ ∀ i v, views !! i = Some v → q (vstart v) = true ↔ i ≤ m
    end) as Hgen.
  { intros q Hq. destruct (start_partition q _ (start_keys q) Hq) as (n & -> & Hn & Hi). run. eexists. split; [done|].
    destruct (decide (n = 0)) as [->|].
    - intros i v Hv Ht. apply (Hi i v Hv) in Ht. lia.
    - split; [lia|]. intros i v Hv. rewrite (Hi i v Hv). lia. }
  destruct (end_of range) as [hi|hi|].
  - apply (Hgen (λ s, ord_leb s hi)). intros; by eapply leb_closed.
  - apply (Hgen (λ s, ord_ltb s hi)). intros; by eapply ltb_closed.
  - eexists. split; [done|]. split; [lia|]. intros i v Hv. split; [|done]. intros _. apply lookup_lt_Some in Hv. lia.
Qed.

Lemma end_closed a b : a ≼ b → end_ok b → end_ok a.
Proof.
  unfold end_admits. destruct (end_inner _); [apply leb_closed|apply ltb_closed|done].
Qed.

Lemma start_closed a b : a ≼ b → start_ok a → start_ok b.
Proof.
  unfold start_admits. destruct (start_inner _); rewrite ?ord_leb_true, ?ord_ltb_true; [ord|ord|done].
Qed.

Lemma range_ok k : BytesRange.contains range k = true ↔ start_ok k ∧ end_ok k.
Proof. apply andb_true_iff. Qed.

(** A view whose first key lies in the range intersects it. *)
Lemma start_intersects i v : views !! i = Some v → start_ok (vstart v) → end_ok (vstart v) → range_intersects_table views range i = Ok true.
Proof using Hok.
  intros Hv Hs He. destruct (vstart_at i v Hv) as (_ & _ & Hc). eapply (holds_intersects views Hok); [done|exact Hc|]. by apply range_ok.
Qed.

(** From a view that holds a key of the range to the last candidate, every view intersects. *)
Lemma between_intersect m i j v k :
  (∀ i v, views !! i = Some v → end_ok (vstart v) ↔ i ≤ m) →
  views !! i = Some v → holds v k → BytesRange.contains range k = true → i ≤ j ≤ m → m < length views →
  range_intersects_table views range j = Ok true.
Proof using Hok.
  intros Hm Hv Hk Hr Hij Hlen. destruct (decide (i = j)) as [->|]; [by eapply (holds_intersects views Hok)|].
  destruct (lookup_lt_is_Some_2 views j) as [w Hw]; [lia|]. apply (start_intersects j w Hw).
  - apply range_ok in Hr as [Hs _]. eapply start_closed; [|exact Hs].
    destruct (vstart_at j w Hw) as (_ & Hws & _). by apply (ro_order _ Hok i j v w k); [lia|..].
  - apply (Hm j w Hw). lia.
Qed.

Lemma holds_le_max m i v k :
  (∀ i v, views !! i = Some v → end_ok (vstart v) ↔ i ≤ m) →
  views !! i = Some v → holds v k → BytesRange.contains range k = true → i ≤ m.
Proof using Hok.
  intros Hm Hv Hk [_ He]%range_ok. apply (Hm i v Hv). eapply end_closed; [|exact He].
  destruct (vstart_at i v Hv) as (_ & Hs & _). by eapply holds_start.
Qed.

(** Where the backward walk starts: from there to the last candidate every view intersects. *)
Lemma first_candidate_ok m :
  (∀ i v, views !! i = Some v → end_ok (vstart v) ↔ i ≤ m) → m < length views → BytesRange.non_empty range = true →
  ∃ n, (start_candidate ←
          match start_of range with
          | Included lo | Excluded lo =>
              p ← slice_partition_point (start_le lo) views; mret (if decide (p = 0) then None else Some (p - 1))
          | Unbounded => mret None
          end;
        match start_candidate with
        | Some idx => b ← range_intersects_table views range idx; mret (if b : bool then idx else idx + 1)
        | None => mret 0
        end) = Ok n ∧ n ≤ m + 1 ∧ ∀ j, n ≤ j ≤ m → range_intersects_table views range j = Ok true.
Proof using Hok.
  intros Hm Hlen Hne.
  assert (∀ j v, views !! j = Some v → j ≤ m → start_ok (vstart v) → range_intersects_table views range j = Ok true) as Hstart.
  { intros j v Hv Hj Hs. apply (start_intersects j v Hv Hs). by apply (Hm j v Hv). }
  assert (∀ lo, (start_of range = Included lo ∨ start_of range = Excluded lo) → end_ok lo ∧ ∀ a, lo ≺ a → start_ok a) as Hlo.
  { intros lo Hs. unfold BytesRange.non_empty, range_non_empty in Hne. unfold end_admits, start_admits. fold (start_of range) in *.
    fold (end_of range) in *. destruct Hs as [Hs|Hs]; rewrite Hs in Hne |- *; (split; [|intros a Ha; ord]);
      destruct (end_of range); try done; ord. }
  assert (∀ lo, (start_of range = Included lo ∨ start_of range = Excluded lo) → ∃ n,
      (start_candidate ←
          (p ← slice_partition_point (start_le lo) views; mret (if decide (p = 0) then None else Some (p - 1)));
        match start_candidate with
        | Some idx => b ← range_intersects_table views range idx; mret (if b : bool then idx else idx + 1)
        | None => mret 0
        end) = Ok n ∧ n ≤ m + 1 ∧ ∀ j, n ≤ j ≤ m → range_intersects_table views range j = Ok true) as Hgen.
  { intros lo Hs. destruct (Hlo lo Hs) as [Hel Hsl].
    destruct (start_partition (λ s, ord_leb s lo) (start_le lo)) as (p & -> & Hp & Hi);
      [intros; apply (start_keys (λ s, ord_leb s lo)); done|intros; by eapply leb_closed|]. run.
    assert (∀ j v, views !! j = Some v → p ≤ j → lo ≺ vstart v) as Hbeyond.
    { intros j v Hv Hj. apply ord_leb_false. destruct (ord_leb (vstart v) lo) eqn:E; [|done]. apply (Hi j v Hv) in E. lia. }
    destruct (decide (p = 0)) as [->|Hp0].
    - run. exists 0. split_and!; [done|lia|]. intros j Hj. destruct (lookup_lt_is_Some_2 views j) as [w Hw]; [lia|].
      apply (Hstart j w Hw); [lia|]. apply Hsl, (Hbeyond j w Hw). lia.
    - run. destruct (lookup_lt_is_Some_2 views (p - 1)) as [v Hv]; [lia|].
      assert (p - 1 ≤ m) as Hpm.
      { apply (Hm _ _ Hv). eapply end_closed; [|exact Hel]. apply ord_leb_true, (Hi _ _ Hv). lia. }
      destruct (intersects_total views Hok range _ _ Hv) as [b Hb]. rewrite Hb. run.
      eexists. split; [done|]. split; [destruct b; lia|]. intros j Hj.
      destruct (lookup_lt_is_Some_2 views j) as [w Hw]; [lia|]. destruct (decide (j = p - 1)) as [->|].
      + destruct b; [done|lia].
      + apply (Hstart j w Hw); [lia|]. apply Hsl, (Hbeyond j w Hw). destruct b; lia. }
  destruct (start_of range) as [lo|lo|] eqn:Hs; [apply Hgen; by left|apply Hgen; by right|]. run.
  exists 0. split_and!; [done|lia|]. intros j Hj. destruct (lookup_lt_is_Some_2 views j) as [w Hw]; [lia|].
  apply (Hstart j w Hw); [lia|]. unfold start_admits. fold (start_of range). by rewrite Hs.
Qed.
End covering_range.

Lemma covering_tables_ok views range :
  run_ok views → BytesRange.non_empty range = true →
  ∃ a b, table_idx_covering_range views range = Ok (a, b) ∧ a ≤ b ∧ b ≤ length views ∧
    (∀ i v k, views !! i = Some v → holds v k → BytesRange.contains range k = true → a ≤ i < b) ∧
    (∀ i, a ≤ i < b → range_intersects_table views range i = Ok true).
Proof.
  intros Hok Hne.
  unfold table_idx_covering_range. destruct (decide (views = [])) as [->|Hv0]; [exists 0, 0; split_and!; [done|lia..|done|lia]|].
  destruct (max_idx_ok views Hok range Hv0) as (o & -> & Ho). run. destruct o as [m|].
  2:{ exists 0, 0. split_and!; [done|lia|lia| |lia]. intros i v k Hv Hk [_ He]%range_ok. exfalso. apply (Ho i v Hv).
      destruct (vstart_at views Hok i v Hv) as (_ & Hs & _). eapply end_closed; [|exact He]. by eapply holds_start. }
  destruct Ho as [Hlen Hm]. destruct (lookup_lt_is_Some_2 views m Hlen) as [w Hw].
  destruct (intersects_total views Hok range m w Hw) as [[] Hb]; rewrite Hb; run; cbn [negb].
  2:{ exists 0, 0. split_and!; [done|lia|lia| |lia]. intros i v k Hv Hk Hr. exfalso.
      pose proof (holds_le_max views Hok range m i v k Hm Hv Hk Hr).
      pose proof (between_intersect views Hok range m i m v k Hm Hv Hk Hr ltac:(lia) Hlen) as Hb'. congruence. }
  destruct (first_candidate_ok views Hok range m Hm Hlen Hne) as (n & Hn & Hnm & Hall).
  apply bind_Ok_inv in Hn as (c & Hc & Hn).
  change (mret None) with (Ok (E:=SlateDBError) (@None nat)) in Hc. change (mret 0) with (Ok (E:=SlateDBError) 0) in Hn.
  rewrite Hc. run. rewrite Hn. run.
  destruct (walk_back_spec (range_intersects_table views range) n) as (lo & Hwalk & Hlo & Hback & Hstop).
  { intros i Hi. destruct (lookup_lt_is_Some_2 views i) as [v Hv]; [lia|]. by eapply (intersects_total views Hok). }
  rewrite Hwalk. run. exists lo, (m + 1). split_and!; [done|lia|lia| |].
  - intros i v k Hv Hk Hr. pose proof (holds_le_max views Hok range m i v k Hm Hv Hk Hr).
    split; [|lia]. destruct (decide (lo ≤ i)); [done|]. exfalso. destruct Hstop as [->|Hstop]; [lia|].
    rewrite (between_intersect views Hok range m i (lo - 1) v k Hm Hv Hk Hr) in Hstop by lia. done.
  - intros i Hi. destruct (decide (i < n)); [apply Hback; lia|apply Hall; lia].
Qed.


(** *** Witnesses *)

Definition demo_info (a b : bytes) : SsTableInfo :=
  mkInfo (Some a) (Some b) 0 0 0 0 None Compacted 0 0 CompositeFilter.
Definition demo_view (id : Z) (a b : bytes) : SsTableView :=
  mkView id (mkHandle id 2 (demo_info a b)) None (BytesRange.mk (range_new (Included a) (Included b))).

Lemma demo_view_ok id a b : a ≼ b → view_ok (demo_view id a b).
Proof.
  intros Hab. exists a. split; [done|]. unfold BytesRange.contains, range_contains, start_admits, end_admits. cbn.
  apply andb_true_iff. split; ord.
Qed.

(** Two adjacent SSTs that split the versions of key 5. *)
Definition demo_run : list SsTableView := [demo_view 1 [1%Z] [5%Z]; demo_view 2 [5%Z] [9%Z]].

Lemma demo_run_ok : run_ok demo_run.
Proof.
  split; [repeat (constructor; [by apply demo_view_ok|]); constructor|].
  intros [|[|i]] [|[|j]] v w k s Hij Hv Hw Hk Hs; cbn in *; simplify_eq; try lia.
  assert (s = [5%Z]) as -> by (by injection Hs as <-). unfold BytesRange.contains, range_contains, end_admits in Hk. cbn in Hk. apply andb_true_iff in Hk as [_ Hk]. by apply ord_leb_true.
Qed.


Lemma max_l0_overlap_exact_witness :
  ∃ k, Z.of_nat (length (covering demo_run k)) = max_l0_overlap demo_run.
Proof.
  apply (max_l0_overlap_exact demo_run); [|discriminate]. repeat (constructor; [by apply demo_view_ok|]). constructor.
Defined.
