(* ===== verification/Manifest.v ===== *)
(** * The manifest ([manifest/mod.rs])

    The LSM trees a manifest describes (the unsegmented tree and one per segment),
    how the writer's and the compactor's copies of a tree and of the segment list
    are merged, how segments are looked up, inserted and selected for a range, and
    the bookkeeping of SSTs borrowed from other databases. *)

From S2P Require Export Views Segments SeqTracker.

(** ** Trees *)

Record LsmTreeState := mkTree {
  last_compacted_l0_sst_view_id : option Ulid;
  last_compacted_l0_sst_id : option Ulid;
  l0 : list SsTableView;
  compacted : list SortedRun;
}.

Global Instance LsmTreeState_eq_dec : EqDecision LsmTreeState.
Proof. solve_decision. Defined.

Definition tree_default : LsmTreeState := mkTree None None [] [].

(** [LsmTreeState::is_empty] *)
Definition tree_is_empty (t : LsmTreeState) : bool := bool_decide (l0 t = []) && bool_decide (compacted t = []).

(** [LsmTreeState::sst_views] *)
Definition tree_sst_views (t : LsmTreeState) : list SsTableView := l0 t ++ (compacted t ≫= sst_views).

(** [LsmTreeState::total_ssts] *)
Definition total_ssts (t : LsmTreeState) : nat := length (l0 t) + sum_list ((λ sr, length (sst_views sr)) <$> compacted t).

Fixpoint take_while {A} (p : A → bool) (l : list A) : list A :=
  match l with
  | [] => []
  | x :: l => if p x then x :: take_while p l else []
  end.

(** The closure of [take_while] in [merge_writer_and_compactor]. *)
Definition above_watermark (last_view last_sst : option Ulid) (v : SsTableView) : bool :=
  match last_view with
  | Some id => negb (bool_decide (view_id v = id))
  | None =>
      match last_sst with
      | Some id => negb (bool_decide (handle_id (view_sst v) = id))
      | None => true
      end
  end.

(** [LsmTreeState::merge_writer_and_compactor] *)
Definition merge_writer_and_compactor (writer compactor : LsmTreeState) : LsmTreeState :=
  let last_view := last_compacted_l0_sst_view_id compactor in
  let last_sst := last_compacted_l0_sst_id compactor in
  let l0' := if decide (is_Some last_view ∨ is_Some last_sst)
             then take_while (above_watermark last_view last_sst) (l0 writer)
             else l0 writer in
  mkTree last_view last_sst l0' (compacted compactor).

(** [LsmTreeState::merge_from_writer] *)
Definition merge_from_writer (self writer : LsmTreeState) : LsmTreeState := merge_writer_and_compactor writer self.

(** [LsmTreeState::merge_from_compactor] *)
Definition merge_from_compactor (self compactor : LsmTreeState) : LsmTreeState := merge_writer_and_compactor self compactor.

(** ** Segments *)

Record Segment := mkSegment { seg_prefix : bytes; seg_tree : LsmTreeState }.

Global Instance Segment_eq_dec : EqDecision Segment.
Proof. solve_decision. Defined.

Inductive MergeStep :=
| WriterOnly (w : Segment)
| CompactorOnly (c : Segment)
| Both (w c : Segment).

(** [MergeIter]: two cursors over the two segment lists. *)
Record SegmentMergeIter := mkSegMerge {
  sm_writer : list Segment;
  sm_compactor : list Segment;
  sm_i : nat;
  sm_j : nat;
}.

(** [MergeIter::new] *)
Definition seg_merge_new (writer compactor : list Segment) : SegmentMergeIter := mkSegMerge writer compactor 0 0.

(** [MergeIter::next] *)
Definition seg_merge_next (it : SegmentMergeIter) : option MergeStep * SegmentMergeIter :=
  let step :=
    match sm_writer it !! sm_i it, sm_compactor it !! sm_j it with
    | None, None => None
    | Some w, None => Some (WriterOnly w)
    | None, Some c => Some (CompactorOnly c)
    | Some w, Some c =>
        match cmp (seg_prefix w) (seg_prefix c) with
        | Lt => Some (WriterOnly w)
        | Gt => Some (CompactorOnly c)
        | Eq => Some (Both w c)
        end
    end in
  (step,
   match step with
   | None => it
   | Some (WriterOnly _) => mkSegMerge (sm_writer it) (sm_compactor it) (sm_i it + 1) (sm_j it)
   | Some (CompactorOnly _) => mkSegMerge (sm_writer it) (sm_compactor it) (sm_i it) (sm_j it + 1)
   | Some (Both _ _) => mkSegMerge (sm_writer it) (sm_compactor it) (sm_i it + 1) (sm_j it + 1)
   end).

(** [is_sorted_by_prefix] *)
Fixpoint is_sorted_by_prefix (segments : list Segment) : bool :=
  match segments with
  | a :: (b :: _) as rest => ord_ltb (seg_prefix a) (seg_prefix b) && is_sorted_by_prefix rest
  | _ => true
  end.

(** The body of the loop of [merge_segments_from_writer]. *)
Definition writer_step (step : MergeStep) : result (list Segment) :=
  match step with
  | WriterOnly w => mret [mkSegment (seg_prefix w) (merge_writer_and_compactor (seg_tree w) tree_default)]
  | CompactorOnly c => if tree_is_empty (seg_tree c) then mret [] else Panic
  | Both w c => mret [mkSegment (seg_prefix w) (merge_writer_and_compactor (seg_tree w) (seg_tree c))]
  end.

(** The body of the loop of [merge_segments_from_compactor]. *)
Definition compactor_step (step : MergeStep) : result (list Segment) :=
  let '(prefix, tree) :=
    match step with
    | WriterOnly w => (seg_prefix w, merge_writer_and_compactor (seg_tree w) tree_default)
    | CompactorOnly c => (seg_prefix c, merge_writer_and_compactor tree_default (seg_tree c))
    | Both w c => (seg_prefix w, merge_writer_and_compactor (seg_tree w) (seg_tree c))
    end in
  mret (if tree_is_empty tree then [] else [mkSegment prefix tree]).

(** [for step in MergeIter { .. merged.push(..) }] *)
Fixpoint merge_loop (fuel : nat) (body : MergeStep → result (list Segment)) (it : SegmentMergeIter) (merged : list Segment)
    : result (list Segment) :=
  match fuel with
  | O => OutOfFuel
  | S fuel =>
      match seg_merge_next it with
      | (None, _) => mret merged
      | (Some step, it) => out ← body step; merge_loop fuel body it (merged ++ out)
      end
  end.

(** [merge_segments_from_writer] *)
Definition merge_segments_from_writer (local writer : list Segment) : result (list Segment) :=
  _ ← rust_assert (is_sorted_by_prefix writer);
  _ ← rust_assert (is_sorted_by_prefix local);
  merge_loop (S (length writer + length local)) writer_step (seg_merge_new writer local) [].

(** [merge_segments_from_compactor] *)
Definition merge_segments_from_compactor (local compactor : list Segment) : result (list Segment) :=
  _ ← rust_assert (is_sorted_by_prefix local);
  _ ← rust_assert (is_sorted_by_prefix compactor);
  merge_loop (S (length local + length compactor)) compactor_step (seg_merge_new local compactor) [].

(** ** The manifest *)

Record Checkpoint := mkCheckpoint {
  checkpoint_id : Z;
  cp_manifest_id : Z;
  cp_expire_time : option Z;
  cp_create_time : Z;
  cp_name : option string;
}.

Record ManifestCore := mkCore {
  initialized : bool;
  tree : LsmTreeState;
  segments : list Segment;
  segment_extractor_name : option string;
  next_wal_sst_id : Z;
  core_replay_after_wal_id : Z;
  last_l0_clock_tick : Z;
  last_l0_seq : Z;
  recent_snapshot_min_seq : Z;
  core_sequence_tracker : SequenceTracker;
  checkpoints : list Checkpoint;
  wal_object_store_uri : option string;
}.

(** [ManifestCore::new] *)
Definition core_new : ManifestCore :=
  mkCore true tree_default [] None 1 0 (-9223372036854775808) 0 0 tracker_new [] None.

(** [ManifestCore::trees] *)
Definition trees (c : ManifestCore) : list LsmTreeState := tree c :: (seg_tree <$> segments c).

(** [ManifestCore::trees_with_prefix] *)
Definition trees_with_prefix (c : ManifestCore) : list (bytes * LsmTreeState) :=
  ([], tree c) :: ((λ s, (seg_prefix s, seg_tree s)) <$> segments c).

(** [ManifestCore::all_sst_views] *)
Definition all_sst_views (c : ManifestCore) : list SsTableView := trees c ≫= tree_sst_views.

(** [self.segments.binary_search_by(|s| s.prefix.cmp(prefix))] *)
Definition find_segment (prefix : bytes) (segs : list Segment) : nat + nat :=
  binary_search_by (λ s, cmp (seg_prefix s) prefix) segs.

(** [ManifestCore::tree_for_segment] *)
Definition tree_for_segment (c : ManifestCore) (prefix : bytes) : option LsmTreeState :=
  if decide (prefix = []) then Some (tree c)
  else match find_segment prefix (segments c) with
       | inl idx => seg_tree <$> segments c !! idx
       | inr _ => None
       end.

Definition set_segments (c : ManifestCore) (segs : list Segment) : ManifestCore :=
  mkCore (initialized c) (tree c) segs (segment_extractor_name c) (next_wal_sst_id c) (core_replay_after_wal_id c)
    (last_l0_clock_tick c) (last_l0_seq c) (recent_snapshot_min_seq c) (core_sequence_tracker c) (checkpoints c)
    (wal_object_store_uri c).

Definition set_tree (c : ManifestCore) (t : LsmTreeState) : ManifestCore :=
  mkCore (initialized c) t (segments c) (segment_extractor_name c) (next_wal_sst_id c) (core_replay_after_wal_id c)
    (last_l0_clock_tick c) (last_l0_seq c) (recent_snapshot_min_seq c) (core_sequence_tracker c) (checkpoints c)
    (wal_object_store_uri c).

(** Replace the tree of the segment at an index. *)
Definition set_segment_tree (segs : list Segment) (idx : nat) (t : LsmTreeState) : list Segment :=
  alter (λ s, mkSegment (seg_prefix s) t) idx segs.

(** [ManifestCore::tree_for_segment_mut], with what the caller does with the reference. *)
Definition update_tree_for_segment (c : ManifestCore) (prefix : bytes) (f : LsmTreeState → LsmTreeState) : option ManifestCore :=
  if decide (prefix = []) then Some (set_tree c (f (tree c)))
  else match find_segment prefix (segments c) with
       | inl idx =>
           s ← segments c !! idx; Some (set_segments c (set_segment_tree (segments c) idx (f (seg_tree s))))
       | inr _ => None
       end.

(** [ManifestCore::maybe_insert_tree]: the index of the segment whose tree is returned. *)
Definition maybe_insert_tree (c : ManifestCore) (prefix : bytes) : result (nat * ManifestCore) :=
  match find_segment prefix (segments c) with
  | inl idx => mret (idx, c)
  | inr idx =>
      _ ← core_check_segment_prefix (seg_prefix <$> segments c) prefix;
      mret (idx, set_segments c (take idx (segments c) ++ mkSegment prefix tree_default :: drop idx (segments c)))
  end.

(** [ManifestCore::max_l0_ulid_timestamp_across_trees] *)
Definition max_l0_ulid_timestamp_across_trees (c : ManifestCore) : option Ulid :=
  max_opt (omap (λ t, match l0 t with
                      | [] => last_compacted_l0_sst_view_id t
                      | views => max_opt ((λ v, handle_id (view_sst v)) <$> views)
                      end) (trees c)).

(** [ManifestCore::validate_wal_object_store_uri] *)
Definition validate_wal_object_store_uri (c : ManifestCore) (configured : option string) : result unit :=
  match wal_object_store_uri c with
  | Some persisted => if decide (Some persisted = configured) then mret tt else Err WalStoreReconfigurationError
  | None => mret tt
  end.

(** [ManifestCore::validate_segment_prefixes_recognized] *)
Fixpoint validate_segment_prefixes_recognized (ext : PrefixExtractor) (segs : list Segment) : result unit :=
  match segs with
  | [] => mret tt
  | s :: segs =>
      if decide (prefix_len (PrefixExtractor:=ext) (Prefix (seg_prefix s)) = Some (length (seg_prefix s)))
      then validate_segment_prefixes_recognized ext segs
      else Err (SegmentPrefixNotRecognized (seg_prefix s) (extractor_name (PrefixExtractor:=ext)))
  end.

(** [ManifestCore::validate_extractor_configuration] *)
Definition validate_extractor_configuration (c : ManifestCore) (configured : option PrefixExtractor) : result unit :=
  let configured_name := (λ ext, extractor_name (PrefixExtractor:=ext)) <$> configured in
  match segment_extractor_name c, configured with
  | None, None => mret tt
  | Some p, Some ext =>
      if decide (Some p = configured_name) then validate_segment_prefixes_recognized ext (segments c)
      else Err (SegmentExtractorMismatch (Some p) configured_name)
  | p, _ => Err (SegmentExtractorMismatch p configured_name)
  end.

(** [ManifestCore::init_clone_db] *)
Definition init_clone_db (c : ManifestCore) : ManifestCore :=
  mkCore false (tree c) (segments c) (segment_extractor_name c) (next_wal_sst_id c) (core_replay_after_wal_id c)
    (last_l0_clock_tick c) (last_l0_seq c) (last_l0_seq c) (core_sequence_tracker c) [] (wal_object_store_uri c).

(** [ManifestCore::find_checkpoint] *)
Definition find_checkpoint (c : ManifestCore) (id : Z) : option Checkpoint :=
  snd <$> list_find (λ cp, checkpoint_id cp = id) (checkpoints c).

Definition prefix_le (k : bytes) (s : Segment) : result bool := mret (ord_leb (seg_prefix s) k).
Definition prefix_lt (k : bytes) (s : Segment) : result bool := mret (ord_ltb (seg_prefix s) k).

(** [ManifestCore::overlapping_segment_indices] *)
Definition overlapping_segment_indices (segs : list Segment) (range : BytesRange.t) : result (nat * nat) :=
  s ← match start_of range with
      | Unbounded => mret 0
      | Included lo | Excluded lo =>
          after ← slice_partition_point (prefix_le lo) segs;
          match after with
          | O => mret 0
          | S n => seg ← expect (segs !! n); mret (if starts_with lo (seg_prefix seg) then n else S n)
          end
      end;
  e ← match end_of range with
      | Unbounded => mret (length segs)
      | Excluded hi => slice_partition_point (prefix_lt hi) segs
      | Included hi => slice_partition_point (prefix_le hi) segs
      end;
  mret (if decide (s < e) then (s, e) else (0, 0)).

(** [ManifestCore::select_segments] *)
Definition select_segments (c : ManifestCore) (range : BytesRange.t) : result (option (list Segment)) :=
  if decide (segments c = []) then mret None
  else
    indices ← overlapping_segment_indices (segments c) range;
    segs ← slice (segments c) indices;
    mret (Some segs).

(** [ManifestCore::default_segment] *)
Definition default_segment (c : ManifestCore) : Segment := mkSegment [] (tree c).

(** ** External databases *)

Record ExternalDb := mkExternal {
  ext_path : string;
  source_checkpoint_id : Z;
  final_checkpoint_id : option Z;
  sst_ids : list Ulid;
}.

Record Manifest := mkManifest {
  external_dbs : list ExternalDb;
  core : ManifestCore;
  writer_epoch : Z;
  compactor_epoch : Z;
}.

(** [Manifest::initial] *)
Definition manifest_initial (c : ManifestCore) : Manifest := mkManifest [] c 0 0.

(** [Manifest::owned_ssts] *)
Definition owned_ssts (m : Manifest) : list Ulid :=
  let external := external_dbs m ≫= sst_ids in
  filter (λ id, id ∉ external) ((λ v, handle_id (view_sst v)) <$> all_sst_views (core m)).

(** [Manifest::prune_external_sst_ids] *)
Definition prune_external_sst_ids (m : Manifest) : Manifest :=
  let used := (λ v, handle_id (view_sst v)) <$> all_sst_views (core m) in
  mkManifest
    ((λ e, mkExternal (ext_path e) (source_checkpoint_id e) (final_checkpoint_id e) (filter (λ id, id ∈ used) (sst_ids e)))
       <$> external_dbs m)
    (core m) (writer_epoch m) (compactor_epoch m).

(** ** Merging with the other side's manifest *)

(** [db_state.rs], [StateModifier::merge_remote_manifest]: the writer adopts what the compactor owns. *)
Definition writer_merge_remote (mine : ManifestCore) (remote : Manifest) : result Manifest :=
  segs ← merge_segments_from_compactor (segments mine) (segments (core remote));
  mret (prune_external_sst_ids (mkManifest (external_dbs remote)
    (mkCore (initialized mine) (merge_from_compactor (tree mine) (tree (core remote))) segs
       (segment_extractor_name mine) (next_wal_sst_id mine) (core_replay_after_wal_id mine) (last_l0_clock_tick mine)
       (last_l0_seq mine) (recent_snapshot_min_seq mine) (core_sequence_tracker mine) (checkpoints (core remote))
       (wal_object_store_uri mine))
    (writer_epoch remote) (compactor_epoch remote))).

(** [compactor_state.rs], [CompactorState::merge_remote_manifest]: the compactor adopts what the writer owns. *)
Definition compactor_merge_remote (mine : ManifestCore) (remote : Manifest) : result Manifest :=
  let r := core remote in
  segs ← merge_segments_from_writer (segments mine) (segments r);
  mret (prune_external_sst_ids (mkManifest (external_dbs remote)
    (mkCore (initialized r) (merge_from_writer (tree mine) (tree r)) segs
       (segment_extractor_name r) (next_wal_sst_id r) (core_replay_after_wal_id r) (last_l0_clock_tick r)
       (last_l0_seq r) (recent_snapshot_min_seq r) (core_sequence_tracker r) (checkpoints r)
       (wal_object_store_uri mine))
    (writer_epoch remote) (compactor_epoch remote))).

(** ** What a segment merge computes *)

Definition segs_ok (l : list Segment) : Prop := StronglySorted (λ a b, seg_prefix a ≺ seg_prefix b) l.

Fixpoint seg_at (p : bytes) (l : list Segment) : option LsmTreeState :=
  match l with
  | [] => None
  | s :: l => if decide (seg_prefix s = p) then Some (seg_tree s) else seg_at p l
  end.

Lemma seg_at_above p l : Forall (λ s, p ≺ seg_prefix s) l → seg_at p l = None.
Proof.
  induction 1 as [|s l Hs _ IH]; [done|]. cbn. rewrite decide_False; [done|]. intros E. rewrite E in Hs. by apply ord_lt_irrefl in Hs.
Qed.

Lemma seg_at_Some p l t : segs_ok l → seg_at p l = Some t ↔ mkSegment p t ∈ l.
Proof.
  unfold segs_ok. induction 1 as [|s l Hs IH HF]; cbn; [set_solver|]. rewrite elem_of_cons. destruct (decide (seg_prefix s = p)) as [<-|Hne].
  - split; [intros [= <-]; left; by destruct s|]. intros [E|Hin]; [by rewrite <-E|]. rewrite Forall_forall in HF.
    specialize (HF _ Hin). cbn in HF. by apply ord_lt_irrefl in HF.
  - rewrite IH. split; [by right|]. intros [<-|?]; [done|done].
Qed.

Lemma sorted_prefixes l : is_sorted_by_prefix l = true ↔ segs_ok l.
Proof.
  induction l as [|a [|b l] IH]; [split; [constructor|done]|split; [repeat constructor|done]|].
  change (is_sorted_by_prefix (a :: b :: l)) with (ord_ltb (seg_prefix a) (seg_prefix b) && is_sorted_by_prefix (b :: l)).
  rewrite andb_true_iff, IH, ord_ltb_true. split.
  - intros [Hab Hs]. constructor; [done|]. constructor; [done|]. apply StronglySorted_inv in Hs as [_ HF].
    eapply Forall_impl; [exact HF|]. intros s Hs. by eapply ord_lt_trans.
  - intros Hs. apply StronglySorted_inv in Hs as [Hs HF]. split; [|done]. by apply Forall_cons in HF as [? _].
Qed.

(** What a step of the merge is about: a prefix and the two sides' trees. *)
Definition step_prefix (s : MergeStep) : bytes :=
  match s with WriterOnly w | Both w _ => seg_prefix w | CompactorOnly c => seg_prefix c end.
Definition step_trees (s : MergeStep) : option LsmTreeState * option LsmTreeState :=
  match s with
  | WriterOnly w => (Some (seg_tree w), None)
  | CompactorOnly c => (None, Some (seg_tree c))
  | Both w c => (Some (seg_tree w), Some (seg_tree c))
  end.

Inductive steps_of : list Segment → list Segment → list MergeStep → Prop :=
| so_nil : steps_of [] [] []
| so_writer a w c l :
    Forall (λ b, seg_prefix a ≺ seg_prefix b) c → steps_of w c l → steps_of (a :: w) c (WriterOnly a :: l)
| so_compactor b w c l :
    Forall (λ a, seg_prefix b ≺ seg_prefix a) w → steps_of w c l → steps_of w (b :: c) (CompactorOnly b :: l)
| so_both a b w c l :
    seg_prefix a = seg_prefix b → steps_of w c l → steps_of (a :: w) (b :: c) (Both a b :: l).

Fixpoint run_steps (body : MergeStep → result (list Segment)) (l : list MergeStep) (merged : list Segment) : result (list Segment) :=
  match l with
  | [] => mret merged
  | s :: l => out ← body s; run_steps body l (merged ++ out)
  end.

Lemma drop_cons {A} (l : list A) i a : l !! i = Some a → drop i l = a :: drop (i + 1) l.
Proof. intros Ha. rewrite Nat.add_1_r. by apply drop_S. Qed.

Lemma drop_none {A} (l : list A) i : l !! i = None → drop i l = [].
Proof. intros Hn%lookup_ge_None. by apply drop_ge. Qed.

Lemma head_below a b l :
  StronglySorted (λ a b, seg_prefix a ≺ seg_prefix b) (b :: l) → seg_prefix a ≺ seg_prefix b →
  Forall (λ b, seg_prefix a ≺ seg_prefix b) (b :: l).
Proof.
  intros Hs Hab. apply StronglySorted_inv in Hs as [_ HF]. constructor; [done|].
  eapply Forall_impl; [exact HF|]. intros s Hs. by eapply ord_lt_trans.
Qed.

Lemma merge_loop_steps fuel body wl cl i j merged :
  segs_ok (drop i wl) → segs_ok (drop j cl) → length (drop i wl) + length (drop j cl) < fuel →
  ∃ l, steps_of (drop i wl) (drop j cl) l ∧ merge_loop fuel body (mkSegMerge wl cl i j) merged = run_steps body l merged.
Proof.
  unfold segs_ok. revert i j merged. induction fuel as [|fuel IH]; intros i j merged Hw Hc Hf; [lia|]. cbn [merge_loop].
  unfold seg_merge_next. cbn [sm_writer sm_compactor sm_i sm_j].
  assert (∀ (step : MergeStep) i' j',
    StronglySorted (λ a b, seg_prefix a ≺ seg_prefix b) (drop i' wl) → StronglySorted (λ a b, seg_prefix a ≺ seg_prefix b) (drop j' cl) →
    length (drop i' wl) + length (drop j' cl) < fuel →
    (∀ l, steps_of (drop i' wl) (drop j' cl) l → steps_of (drop i wl) (drop j cl) (step :: l)) →
    ∃ l, steps_of (drop i wl) (drop j cl) l ∧
      (o ← body step; merge_loop fuel body (mkSegMerge wl cl i' j') (merged ++ o)) = run_steps body l merged) as Hstep.
  { intros step i' j' Hw' Hc' Hf' Hso. destruct (body step) as [o| | |] eqn:Ho.
    - destruct (IH i' j' (merged ++ o) Hw' Hc' Hf') as (l & Hl & He). exists (step :: l). split; [by apply Hso|].
      cbn [run_steps]. rewrite Ho. by run.
    - destruct (IH i' j' merged Hw' Hc' Hf') as (l & Hl & _). exists (step :: l). split; [by apply Hso|]. cbn [run_steps]. by rewrite Ho.
    - destruct (IH i' j' merged Hw' Hc' Hf') as (l & Hl & _). exists (step :: l). split; [by apply Hso|]. cbn [run_steps]. by rewrite Ho.
    - destruct (IH i' j' merged Hw' Hc' Hf') as (l & Hl & _). exists (step :: l). split; [by apply Hso|]. cbn [run_steps]. by rewrite Ho. }
  clear IH. destruct (wl !! i) as [a|] eqn:Ha; destruct (cl !! j) as [b|] eqn:Hb.
  - rewrite (drop_cons _ _ _ Ha), (drop_cons _ _ _ Hb) in *.
    pose proof (StronglySorted_inv Hw) as [Hw' _]. pose proof (StronglySorted_inv Hc) as [Hc' _]. cbn [length] in Hf.
    destruct (cmp (seg_prefix a) (seg_prefix b)) eqn:Hab.
    + apply cmp_eq in Hab. apply Hstep; [done|done|lia|]. intros l Hl. by constructor.
    + apply Hstep; [done|by rewrite (drop_cons _ _ _ Hb)|rewrite (drop_cons _ _ _ Hb); cbn; lia|].
      intros l Hl. rewrite (drop_cons _ _ _ Hb) in Hl. constructor; [by apply head_below|done].
    + apply cmp_Gt in Hab. apply Hstep; [by rewrite (drop_cons _ _ _ Ha)|done|rewrite (drop_cons _ _ _ Ha); cbn; lia|].
      intros l Hl. rewrite (drop_cons _ _ _ Ha) in Hl. constructor; [by apply head_below|done].
  - rewrite (drop_cons _ _ _ Ha), (drop_none _ _ Hb) in *. apply StronglySorted_inv in Hw as [Hw _]. cbn [length] in Hf.
    apply Hstep; [done|by rewrite drop_none|rewrite (drop_none cl) by done; cbn; lia|]. intros l Hl. rewrite (drop_none cl) in Hl by done. by constructor.
  - rewrite (drop_cons _ _ _ Hb), (drop_none _ _ Ha) in *. apply StronglySorted_inv in Hc as [Hc _]. cbn [length] in Hf.
    apply Hstep; [by rewrite drop_none|done|rewrite (drop_none wl) by done; cbn; lia|]. intros l Hl. rewrite (drop_none wl) in Hl by done. by constructor.
  - rewrite !drop_none by done. exists []. split; [constructor|done].
Qed.

(** The trees a list of steps carries for a prefix. *)
Fixpoint steps_at (p : bytes) (l : list MergeStep) : option LsmTreeState * option LsmTreeState :=
  match l with
  | [] => (None, None)
  | s :: l => if decide (step_prefix s = p) then step_trees s else steps_at p l
  end.

Lemma steps_of_at w c l p : segs_ok w → segs_ok c → steps_of w c l → steps_at p l = (seg_at p w, seg_at p c).
Proof.
  unfold segs_ok. intros Hw Hc Hl. induction Hl as [|a w c l Hac Hl IH|b w c l Hba Hl IH|a b w c l Hab Hl IH]; [done|..]; cbn.
  - pose proof (StronglySorted_inv Hw) as [Hw' _]. rewrite (IH Hw' Hc). destruct (decide (seg_prefix a = p)) as [<-|]; [|done].
    by rewrite seg_at_above.
  - pose proof (StronglySorted_inv Hc) as [Hc' _]. rewrite (IH Hw Hc'). destruct (decide (seg_prefix b = p)) as [<-|]; [|done].
    by rewrite seg_at_above.
  - pose proof (StronglySorted_inv Hw) as [Hw' _]. pose proof (StronglySorted_inv Hc) as [Hc' _]. rewrite (IH Hw' Hc'), <-Hab.
    by destruct (decide (seg_prefix a = p)).
Qed.

Lemma steps_of_sorted w c l :
  segs_ok w → segs_ok c → steps_of w c l →
  StronglySorted (λ a b, step_prefix a ≺ step_prefix b) l ∧
  ∀ p, Forall (λ s, p ≺ seg_prefix s) w → Forall (λ s, p ≺ seg_prefix s) c → Forall (λ s, p ≺ step_prefix s) l.
Proof.
  unfold segs_ok. intros Hw Hc Hl. induction Hl as [|a w c l Hac Hl IH|b w c l Hba Hl IH|a b w c l Hab Hl IH].
  - split; [constructor|done].
  - apply StronglySorted_inv in Hw as [Hw Hwf]. destruct (IH Hw Hc) as [Hs Hb]. split; [constructor; [done|by apply Hb]|].
    intros p Hpw Hpc. apply Forall_cons in Hpw as [? ?]. constructor; [done|by apply Hb].
  - apply StronglySorted_inv in Hc as [Hc Hcf]. destruct (IH Hw Hc) as [Hs Hb]. split; [constructor; [done|by apply Hb]|].
    intros p Hpw Hpc. apply Forall_cons in Hpc as [? ?]. constructor; [done|by apply Hb].
  - apply StronglySorted_inv in Hw as [Hw Hwf]. apply StronglySorted_inv in Hc as [Hc Hcf]. destruct (IH Hw Hc) as [Hs Hb].
    split; [constructor; [done|apply Hb; [done|cbn; by rewrite Hab]]|].
    intros p Hpw Hpc. apply Forall_cons in Hpw as [? ?]. apply Forall_cons in Hpc as [? ?]. constructor; [done|by apply Hb].
Qed.

Section merging.
  Context (body : MergeStep → result (list Segment)) (f : option LsmTreeState → option LsmTreeState → option LsmTreeState).
  Context (Hf : f None None = None).

(** The body of the loop keeps [f] of the two trees under the step's prefix. *)
Definition computes (s : MergeStep) : Prop :=
  body s = Ok (option_list (mkSegment (step_prefix s) <$> f (step_trees s).1 (step_trees s).2)).

Lemma run_steps_ok l merged :
  StronglySorted (λ a b, step_prefix a ≺ step_prefix b) l → Forall computes l →
  ∃ out, run_steps body l merged = Ok (merged ++ out) ∧ segs_ok out ∧
    (∀ p, Forall (λ s, p ≺ step_prefix s) l → Forall (λ s, p ≺ seg_prefix s) out) ∧
    ∀ p, seg_at p out = f (steps_at p l).1 (steps_at p l).2.
Proof using Hf.
  intros Hs. revert merged. induction Hs as [|s l Hs IH Hlt]; intros merged HF.
  { exists []. cbn. rewrite app_nil_r. split_and!; [done|constructor|done|]. intros. by rewrite Hf. }
  apply Forall_cons in HF as [Hc HF]. cbn [run_steps]. rewrite Hc. run.
  destruct (IH (merged ++ option_list (mkSegment (step_prefix s) <$> f (step_trees s).1 (step_trees s).2)) HF) as (out & -> & Hok & Habove & Hat).
  eexists (_ ++ out). rewrite <-app_assoc. split; [done|].
  assert (Forall (λ s', step_prefix s ≺ seg_prefix s') out) as Hout by (by apply Habove).
  cbn [steps_at]. destruct (f (step_trees s).1 (step_trees s).2) as [t|] eqn:Hft; cbn [fmap option_fmap option_map option_list app].
  - split; [by constructor|]. split.
    + intros p Hp. apply Forall_cons in Hp as [? Hp]. constructor; [done|by apply Habove].
    + intros p. cbn. destruct (decide (step_prefix s = p)); [by rewrite Hft|apply Hat].
  - split; [done|]. split.
    + intros p Hp. apply Forall_cons in Hp as [? Hp]. by apply Habove.
    + intros p. destruct (decide (step_prefix s = p)) as [<-|]; [|apply Hat]. rewrite Hft. by apply seg_at_above.
Qed.

Lemma merge_segments_ok w c :
  segs_ok w → segs_ok c → (∀ l, steps_of w c l → Forall computes l) →
  ∃ out, merge_loop (S (length w + length c)) body (seg_merge_new w c) [] = Ok out ∧ segs_ok out ∧
    ∀ p, seg_at p out = f (seg_at p w) (seg_at p c).
Proof using Hf.
  intros Hw Hc Hcomp. destruct (merge_loop_steps (S (length w + length c)) body w c 0 0 []) as (l & Hl & He); rewrite ?drop_0 in *; [done|done|lia|].
  destruct (steps_of_sorted _ _ _ Hw Hc Hl) as [Hs _]. destruct (run_steps_ok l [] Hs (Hcomp l Hl)) as (out & Hout & Hok & _ & Hat).
  exists out. unfold seg_merge_new. rewrite He, Hout. split_and!; [done|done|]. intros p. by rewrite Hat, (steps_of_at w c l).
Qed.
End merging.

(** What each side's merge keeps of the trees of a prefix. *)
Definition keep_for_compactor (w c : option LsmTreeState) : option LsmTreeState :=
  (λ w, merge_writer_and_compactor w (default tree_default c)) <$> w.
Definition keep_for_writer (w c : option LsmTreeState) : option LsmTreeState :=
  let t := merge_writer_and_compactor (default tree_default w) (default tree_default c) in
  if tree_is_empty t then None else Some t.

Lemma segment_merges_spec w c :
  segs_ok w → segs_ok c →
  (∃ out, merge_segments_from_compactor w c = Ok out ∧ segs_ok out ∧
     ∀ p, seg_at p out = keep_for_writer (seg_at p w) (seg_at p c)) ∧
  ((∀ p t, seg_at p c = Some t → seg_at p w = None → tree_is_empty t = true) →
   ∃ out, merge_segments_from_writer c w = Ok out ∧ segs_ok out ∧
     ∀ p, seg_at p out = keep_for_compactor (seg_at p w) (seg_at p c)).
Proof.
  intros Hw Hc. pose proof (proj2 (sorted_prefixes w) Hw) as Hw'. pose proof (proj2 (sorted_prefixes c) Hc) as Hc'.
  split.
  - unfold merge_segments_from_compactor. rewrite Hw', Hc'. run. apply merge_segments_ok; [done|done|done|].
    intros l _. apply Forall_forall. intros s _. unfold computes, compactor_step, keep_for_writer.
    destruct s; cbn [step_prefix step_trees fst snd default]; by destruct (tree_is_empty _).
  - intros Hempty. unfold merge_segments_from_writer. rewrite Hw', Hc'. run. apply merge_segments_ok; [done|done|done|].
    intros l Hl. apply Forall_forall. intros s Hs. unfold computes, writer_step, keep_for_compactor.
    destruct s as [a|b|a b]; cbn [step_prefix step_trees fst snd default]; [done| |done].
    assert (seg_at (seg_prefix b) c = Some (seg_tree b) ∧ seg_at (seg_prefix b) w = None) as [H1 H2].
    { pose proof (steps_of_at w c l (seg_prefix b) Hw Hc Hl) as Hat. destruct (steps_of_sorted _ _ _ Hw Hc Hl) as [Hsl _].
      assert (steps_at (seg_prefix b) l = (None, Some (seg_tree b))) as E; [|by rewrite E in Hat; simplify_eq].
      clear -Hs Hsl. induction Hsl as [|s l Hsl IH HF]; [by apply elem_of_nil in Hs|]. cbn.
      apply elem_of_cons in Hs as [<-|Hs]; [by rewrite decide_True|]. rewrite decide_False; [by apply IH|]. intros E.
      rewrite Forall_forall in HF. specialize (HF _ Hs). cbn in HF. rewrite E in HF. by apply ord_lt_irrefl in HF. }
    by rewrite (Hempty _ _ H1 H2).
Qed.

(** C29: Merging segment lists. On sorted lists both merges return a sorted list. The writer's merge
    holds, for every prefix either side knows, the merge of the two trees (a side that does not know
    the prefix counts as empty) unless that is empty. The compactor's merge holds exactly the
    writer's prefixes, each with the merge of the two trees; it panics only on a segment with data
    that the writer does not know. *)
Theorem segment_merges_exact w c :
  segs_ok w → segs_ok c →
  (∃ out, merge_segments_from_compactor w c = Ok out ∧ segs_ok out ∧
     ∀ p, seg_at p out = keep_for_writer (seg_at p w) (seg_at p c)) ∧
  ((∀ p t, seg_at p c = Some t → seg_at p w = None → tree_is_empty t = true) →
   ∃ out, merge_segments_from_writer c w = Ok out ∧ segs_ok out ∧
     ∀ p, seg_at p out = keep_for_compactor (seg_at p w) (seg_at p c)).
Proof. apply segment_merges_spec. Qed.

(** ** Selecting the segments of a range *)

Lemma segs_order l i j a b : segs_ok l → i < j → l !! i = Some a → l !! j = Some b → seg_prefix a ≺ seg_prefix b.
Proof.
  unfold segs_ok. intros Hs. revert i j. induction Hs as [|x l Hs IH HF]; intros [|i] [|j] Hij Ha Hb; try done; try lia.
  - cbn in Ha, Hb. simplify_eq. rewrite Forall_forall in HF. apply HF. by eapply list_elem_of_lookup_2.
  - apply (IH i j); [lia|done|done].
Qed.

Section selecting.
  Context (l : list Segment) (range : BytesRange.t).
  Context (Hok : segs_ok l) (Hanti : antichain (seg_prefix <$> l)).

Lemma segs_partition (pred : Segment → result bool) (q : bytes → bool) :
  (∀ s, pred s = Ok (q (seg_prefix s))) → (∀ a b : bytes, a ≼ b → q b = true → q a = true) →
  ∃ n, slice_partition_point pred l = Ok n ∧ n ≤ length l ∧ ∀ i s, l !! i = Some s → i < n ↔ q (seg_prefix s) = true.
Proof using Hok.
  intros Hpred Hq. destruct (slice_partition_point_ok pred (λ s, q (seg_prefix s)) l) as (n & Hn & Hle & H1 & H2).
  - intros s _. apply Hpred.
  - intros i j y z Hij Hy Hz. apply Hq, ord_lt_le. by eapply segs_order.
  - exists n. split_and!; [done|done|]. intros i s Hs. split; [intros; by eapply H1|]. intros Ht.
    destruct (decide (i < n)); [done|]. rewrite (H2 i s) in Ht by (lia || done). done.
Qed.

(** The start of a range cuts off the segments all of whose keys are below it. *)
Definition reaches_start (p : bytes) : Prop :=
  match start_of range with
  | Unbounded => True
  | Included lo | Excluded lo => lo ≺ p ∨ p `prefix_of` lo
  end.

Lemma start_index_ok lo after :
  after ≤ length l → (∀ i s, l !! i = Some s → i < after ↔ ord_leb (seg_prefix s) lo = true) →
  ∃ n, match after with
       | O => mret 0
       | S n => seg ← expect (l !! n); mret (if starts_with lo (seg_prefix seg) then n else S n)
       end = Ok (E:=SlateDBError) n ∧ n ≤ length l ∧ ∀ i s, l !! i = Some s → n ≤ i ↔ lo ≺ seg_prefix s ∨ seg_prefix s `prefix_of` lo.
Proof using Hok Hanti.
  intros Hle Hafter.
  assert (∀ i s, l !! i = Some s → after ≤ i → lo ≺ seg_prefix s) as Habove.
  { intros i s Hs Hi. apply ord_leb_false. destruct (ord_leb (seg_prefix s) lo) eqn:E; [|done]. apply (Hafter i s Hs) in E. lia. }
  assert (∀ i s, l !! i = Some s → lo ≺ seg_prefix s → after ≤ i) as Habove'.
  { intros i s Hs Hlt. destruct (decide (i < after)) as [Hi|]; [|lia]. apply (Hafter i s Hs) in Hi. revert Hi Hlt. ord. }
  assert (∀ i s, l !! i = Some s → seg_prefix s `prefix_of` lo → i < after ∧ ∀ g, l !! (after - 1) = Some g → g = s) as Hpre.
  { intros i s Hs Hp. assert (seg_prefix s ≼ lo) as Hslo by (destruct Hp as [e ->]; apply KeyRange.prefix_le).
    assert (i < after) as Hi by (apply (Hafter i s Hs), ord_leb_true, Hslo). split; [done|]. intros g Hg.
    assert (seg_prefix g ≼ lo) as Hglo by (apply ord_leb_true, (Hafter _ _ Hg); lia).
    destruct (decide (i = after - 1)) as [->|Hne]; [congruence|]. exfalso.
    assert (seg_prefix s ≺ seg_prefix g) as Hlt by (eapply (segs_order l i (after - 1)); eauto; lia).
    apply (Hanti (seg_prefix s) (seg_prefix g)); [apply list_elem_of_fmap_2; by eapply list_elem_of_lookup_2..|].
    split; [|intros E; rewrite E in Hlt; by apply ord_lt_irrefl in Hlt].
    destruct Hp as [e ->]. eapply sandwich_app; [by apply ord_lt_le|done]. }
  destruct after as [|n].
  { exists 0. split_and!; [done|lia|]. intros i s Hs. split; [|lia]. intros _. left. apply (Habove i s Hs). lia. }
  destruct (lookup_lt_is_Some_2 l n) as [g Hg]; [lia|]. rewrite Hg. run.
  destruct (starts_with lo (seg_prefix g)) eqn:Hst.
  - apply starts_with_spec in Hst. exists n. split_and!; [done|lia|]. intros i s Hs. split.
    + intros Hi. destruct (decide (i = n)) as [->|]; [right; congruence|left; apply (Habove i s Hs); lia].
    + intros [Hlt|Hp]; [apply (Habove' i s Hs) in Hlt; lia|].
      destruct (Hpre i s Hs Hp) as [Hi Hu]. replace (S n - 1) with n in Hu by lia. specialize (Hu g Hg). subst g.
      destruct (decide (i < n)) as [Hin|]; [|lia]. pose proof (segs_order l i n s s Hok Hin Hs Hg) as H. by apply ord_lt_irrefl in H.
  - exists (S n). split_and!; [done|lia|]. intros i s Hs. split; [intros Hi; left; by apply (Habove i s Hs)|].
    intros [Hlt|Hp]; [by apply (Habove' i s Hs)|].
    destruct (Hpre i s Hs Hp) as [Hi Hu]. replace (S n - 1) with n in Hu by lia. specialize (Hu g Hg). subst g.
    apply starts_with_spec in Hp. congruence.
Qed.

Lemma overlapping_ok :
  ∃ a b, overlapping_segment_indices l range = Ok (a, b) ∧ a ≤ b ∧ b ≤ length l ∧
    ∀ i s, l !! i = Some s → a ≤ i < b ↔ reaches_start (seg_prefix s) ∧ end_admits (range_end (BytesRange.inner range)) (seg_prefix s) = true.
Proof using Hok Hanti.
  assert (∃ n, match start_of range with
      | Unbounded => mret 0
      | Included lo | Excluded lo =>
          after ← slice_partition_point (prefix_le lo) l;
          match after with
          | O => mret 0
          | S n => seg ← expect (l !! n); mret (if starts_with lo (seg_prefix seg) then n else S n)
          end
      end = Ok (E:=SlateDBError) n ∧ n ≤ length l ∧ ∀ i s, l !! i = Some s → n ≤ i ↔ reaches_start (seg_prefix s)) as (n & Hn & Hnl & Hstart).
  { unfold reaches_start. destruct (start_of range) as [lo|lo|].
    3: { exists 0. split_and!; [done|lia|]. intros i s _. split; [done|lia]. }
    all: destruct (segs_partition (prefix_le lo) (λ p, ord_leb p lo)) as (after & -> & Hle & Hafter);
      [done|intros a b; by apply leb_closed|]; run; by apply start_index_ok. }
  assert (∃ m, match end_of range with
      | Unbounded => mret (length l)
      | Excluded hi => slice_partition_point (prefix_lt hi) l
      | Included hi => slice_partition_point (prefix_le hi) l
      end = Ok (E:=SlateDBError) m ∧ m ≤ length l ∧
      ∀ i s, l !! i = Some s → i < m ↔ end_admits (range_end (BytesRange.inner range)) (seg_prefix s) = true) as (m & Hm & Hml & Hend).
  { unfold end_of, end_admits. destruct (end_inner (range_end (BytesRange.inner range))) as [hi|hi|].
    - apply (segs_partition (prefix_le hi) (λ p, ord_leb p hi)); [done|intros a b; by apply leb_closed].
    - apply (segs_partition (prefix_lt hi) (λ p, ord_ltb p hi)); [done|intros a b; by apply ltb_closed].
    - exists (length l). split_and!; [done|lia|]. intros i s Hs%lookup_lt_Some. done. }
  unfold overlapping_segment_indices. rewrite Hn, Hm. run.
  destruct (decide (n < m)) as [Hlt|Hge].
  - exists n, m. split_and!; [done|lia|done|]. intros i s Hs. by rewrite (Hstart i s Hs), <-(Hend i s Hs).
  - exists 0, 0. split_and!; [done|lia|lia|]. intros i s Hs. rewrite <-(Hstart i s Hs), <-(Hend i s Hs). lia.
Qed.

(** A prefix that starts a key of the range is in the interval the indices describe. *)
Lemma reached_by p k : BytesRange.contains range k = true → p `prefix_of` k →
  reaches_start p ∧ end_admits (range_end (BytesRange.inner range)) p = true.
Proof.
  intros [Hs He]%andb_prop [x ->]. unfold reaches_start, start_of. split.
  - unfold start_admits in Hs. destruct (start_inner _) as [lo|lo|]; [| |done].
    + destruct (ord_lt_total lo p) as [?|[->|Hlt]]; [by left|by right|right]. apply ord_leb_true in Hs.
      eapply sandwich_app; [by apply ord_lt_le|done].
    + destruct (ord_lt_total lo p) as [?|[->|Hlt]]; [by left|by right|right]. apply ord_ltb_true in Hs.
      eapply sandwich_app; by apply ord_lt_le.
  - pose proof (KeyRange.prefix_le p x) as Hle. unfold end_admits in *. destruct (end_inner _); [| |done];
      revert He; rewrite ?ord_leb_true, ?ord_ltb_true; revert Hle; ord.
Qed.

(** The interval of prefixes the indices describe is that of the segments with a key in the range. *)
Lemma reached_iff p k0 :
  is_bytes k0 → BytesRange.contains range k0 = true →
  reaches_start p ∧ end_admits (range_end (BytesRange.inner range)) p = true ↔
  ∃ k, BytesRange.contains range k = true ∧ p `prefix_of` k.
Proof.
  intros Hb0 [Hs0 He0]%andb_prop. unfold reaches_start, start_of, BytesRange.contains, range_contains.
  set (e := range_end (BytesRange.inner range)) in *. set (s := range_start (BytesRange.inner range)) in *.
  assert (∀ a b, a ≼ b → end_admits e b = true → end_admits e a = true) as Hdown.
  { intros a b Hab. unfold end_admits. destruct (end_inner e); [| |done]; rewrite ?ord_leb_true, ?ord_ltb_true; revert Hab; ord. }
  split.
  - intros [Hst He]. unfold start_admits in *. destruct (start_inner s) as [lo|lo|].
    + destruct Hst as [Hlt|Hp].
      * exists p. split; [|done]. apply andb_true_intro. split; [|done]. by apply ord_leb_true, ord_lt_le.
      * exists lo. split; [|done]. apply andb_true_intro. split; [by apply ord_leb_true, ord_le_refl|].
        apply (Hdown lo k0); [by apply ord_leb_true|done].
    + destruct Hst as [Hlt|Hp].
      * exists p. split; [|done]. apply andb_true_intro. split; [by apply ord_ltb_true|done].
      * exists (lo ++ [0%Z]). split; [|by apply prefix_app_r]. apply andb_true_intro. split; [apply ord_ltb_true, BytesRange.lt_snoc|].
        apply (Hdown _ k0); [|done]. apply BytesRange.lt_snoc_zero; [done|by apply ord_ltb_true].
    + exists p. split; [by rewrite He|done].
  - intros (k & Hk & Hp). by eapply reached_by.
Qed.
End selecting.

(** The segments selected for a range: a part of them, with every one whose prefix starts a key of the range. *)
Lemma select_segments_ok c range : segments c ≠ [] → segs_ok (segments c) → antichain (seg_prefix <$> segments c) →
  ∃ a b, select_segments c range = Ok (Some (take (b - a) (drop a (segments c)))) ∧ a ≤ b ∧ b ≤ length (segments c) ∧
    (∀ i s k, segments c !! i = Some s → BytesRange.contains range k = true → seg_prefix s `prefix_of` k → a ≤ i < b) ∧
    (∀ i s, segments c !! i = Some s → a ≤ i < b → reaches_start range (seg_prefix s) ∧ end_admits (range_end (BytesRange.inner range)) (seg_prefix s) = true).
Proof.
  intros Hne Hok Hanti. destruct (overlapping_ok (segments c) range Hok Hanti) as (a & b & Hab & Hle & Hbl & Hi).
  exists a, b. unfold select_segments. rewrite decide_False by done. rewrite Hab. run. unfold slice. cbn [fst snd].
  rewrite decide_True by done. run. split_and!; [done..| |].
  - intros i s k Hs Hk Hp. apply (Hi i s Hs). by eapply reached_by.
  - intros i s Hs. apply (Hi i s Hs).
Qed.

(** Segment selection is exact. For a range that holds some key, [select_segments] returns, in
    prefix order, exactly the segments whose prefix starts some key of the range: no read misses a
    segment that could hold one of its keys and none is scanned in vain. *)
Theorem select_segments_exact c range k0 :
  segments c ≠ [] → segs_ok (segments c) → antichain (seg_prefix <$> segments c) →
  is_bytes k0 → BytesRange.contains range k0 = true →
  ∃ l, select_segments c range = Ok (Some l) ∧ segs_ok l ∧
    ∀ s, s ∈ l ↔ s ∈ segments c ∧ ∃ k, BytesRange.contains range k = true ∧ seg_prefix s `prefix_of` k.
Proof.
  intros Hne Hok Hanti Hb Hk. destruct (overlapping_ok (segments c) range Hok Hanti) as (a & b & Hab & Hle & Hbl & Hi).
  unfold select_segments. rewrite decide_False by done. rewrite Hab. run. unfold slice. cbn [fst snd]. rewrite decide_True by done. run.
  eexists. split; [done|]. split.
  - eapply StronglySorted_sublist; [|exact Hok]. etransitivity; [apply sublist_take|apply sublist_drop].
  - intros s. rewrite elem_of_take. split.
    + intros (i & Hs & Hlt). rewrite lookup_drop in Hs. split; [by eapply list_elem_of_lookup_2|].
      apply (reached_iff range _ k0 Hb Hk), (Hi _ _ Hs). lia.
    + intros [[i Hs]%list_elem_of_lookup_1 Hr]. apply (reached_iff range _ k0 Hb Hk), (Hi _ _ Hs) in Hr.
      exists (i - a). rewrite lookup_drop. replace (a + (i - a)) with i by lia. split; [done|lia].
Qed.

(** ** Inserting a segment *)

Lemma segs_ok_prefixes l : segs_ok l ↔ bs_ok (seg_prefix <$> l).
Proof.
  unfold segs_ok, bs_ok. induction l as [|s l IH]; [split; constructor|]. cbn. split.
  - intros [Hs HF]%StronglySorted_inv. constructor; [by apply IH|]. apply Forall_fmap. exact HF.
  - intros [Hs HF]%StronglySorted_inv. constructor; [by apply IH|]. apply (Forall_fmap seg_prefix) in HF. exact HF.
Qed.

Lemma find_segment_spec p l :
  segs_ok l →
  match find_segment p l with
  | inl i => ∃ s, l !! i = Some s ∧ seg_prefix s = p
  | inr n => n ≤ length l ∧ Forall (λ s, seg_prefix s ≺ p) (take n l) ∧ Forall (λ s, p ≺ seg_prefix s) (drop n l)
  end.
Proof.
  intros Hok. assert (partitioned (λ s, cmp (seg_prefix s) p) l) as Hpart.
  { intros i j y z Hij Hy Hz. pose proof (segs_order l i j y z Hok Hij Hy Hz) as Hlt.
    apply (sorted_partitioned (seg_prefix <$> l) p (proj1 (segs_ok_prefixes l) Hok) i j); [done|by rewrite list_lookup_fmap, Hy|by rewrite list_lookup_fmap, Hz]. }
  pose proof (binary_search_by_spec _ l Hpart) as Hb. unfold find_segment. destruct (binary_search_by _ l) as [i|n].
  - destruct Hb as (s & Hs & Heq%cmp_eq). by exists s.
  - destruct Hb as (Hn & Hlow & Hhigh). split_and!; [done|..].
    + apply Forall_forall. intros s (i & Hs & Hi)%elem_of_take. by apply cmp_Lt, (Hlow i).
    + apply Forall_lookup_2. intros i s. rewrite lookup_drop. intros Hs. apply cmp_Gt, (Hhigh (n + i)); [lia|done].
Qed.

Lemma segs_insert n p t l :
  segs_ok l → Forall (λ s, seg_prefix s ≺ p) (take n l) → Forall (λ s, p ≺ seg_prefix s) (drop n l) →
  segs_ok (take n l ++ mkSegment p t :: drop n l).
Proof.
  unfold segs_ok. intros Hs Hlow Hhigh. rewrite <-(take_drop n l) in Hs. apply StronglySorted_app in Hs as (Hx & H1 & H2).
  rewrite Forall_forall in Hlow. pose proof Hhigh as Hhigh'. rewrite Forall_forall in Hhigh'.
  apply StronglySorted_app_2; [|done|by constructor].
  intros a b Ha [->|Hb]%elem_of_cons; [by apply Hlow|by apply Hx].
Qed.

Lemma seg_at_app q a b : seg_at q (a ++ b) = match seg_at q a with Some t => Some t | None => seg_at q b end.
Proof. induction a as [|s a IH]; [done|]. cbn. by destruct (decide (seg_prefix s = q)). Qed.

Lemma seg_at_lookup l i s : segs_ok l → l !! i = Some s → seg_at (seg_prefix s) l = Some (seg_tree s).
Proof.
  unfold segs_ok. intros Hs. revert i. induction Hs as [|x l Hs IH HF]; intros [|i] Hi; try done.
  - cbn in *. simplify_eq. by rewrite decide_True.
  - cbn in *. rewrite decide_False; [by eapply IH|]. intros E. rewrite Forall_forall in HF.
    specialize (HF s (list_elem_of_lookup_2 _ _ _ Hi)). cbn in HF. rewrite E in HF. by apply ord_lt_irrefl in HF.
Qed.

Lemma seg_at_None q l : Forall (λ s, seg_prefix s ≠ q) l → seg_at q l = None.
Proof. induction 1 as [|s l Hne HF IH]; [done|]. cbn. by rewrite decide_False. Qed.

Lemma maybe_insert_tree_spec c p :
  segs_ok (segments c) → antichain (seg_prefix <$> segments c) →
  match maybe_insert_tree c p with
  | Ok (idx, c') =>
      segs_ok (segments c') ∧ antichain (seg_prefix <$> segments c') ∧
      segments c' !! idx = Some (mkSegment p (default tree_default (seg_at p (segments c)))) ∧
      (∀ q, q ≠ p → seg_at q (segments c') = seg_at q (segments c)) ∧
      c' = set_segments c (segments c')
  | Err e => ∃ q, e = InvalidSegmentPrefix p q ∧ q ∈ seg_prefix <$> segments c ∧ (nested q p ∨ nested p q)
  | _ => False
  end.
Proof.
  intros Hok Hanti. unfold maybe_insert_tree. pose proof (find_segment_spec p (segments c) Hok) as Hf.
  destruct (find_segment p (segments c)) as [i|n].
  { destruct Hf as (s & Hs & <-). cbn. split_and!; [done|done| |done|by destruct c].
    rewrite (seg_at_lookup _ i) by done. by destruct s. }
  destruct Hf as (Hn & Hlow & Hhigh).
  pose proof (core_check_spec _ p (proj1 (segs_ok_prefixes _) Hok) Hanti) as Hc. unfold member_or_fits in Hc.
  destruct (core_check_segment_prefix _ p) as [[]|e| |]; [|done|done|done]. run. cbn [segments set_segments].
  assert (Forall (λ s, seg_prefix s ≠ p) (take n (segments c)) ∧ Forall (λ s, seg_prefix s ≠ p) (drop n (segments c))) as [Hl Hr].
  { split; eapply Forall_impl; [exact Hlow| |exact Hhigh|]; cbn; intros s Hs E; rewrite E in Hs; by apply ord_lt_irrefl in Hs. }
  assert (seg_at p (segments c) = None) as Hnone.
  { rewrite <-(take_drop n (segments c)), seg_at_app, !seg_at_None; done. }
  assert (∀ q, q ∈ seg_prefix <$> segments c → q ≠ p) as Hneq.
  { intros q (s & -> & Hs)%list_elem_of_fmap. rewrite <-(take_drop n (segments c)) in Hs. rewrite Forall_forall in Hl, Hr.
    apply elem_of_app in Hs as [Hs|Hs]; [by apply Hl|by apply Hr]. }
  destruct Hc as [Hin|Hfits]; [by destruct (Hneq p Hin)|]. split_and!.
  - by apply segs_insert.
  - intros a b Ha Hb. rewrite fmap_app, fmap_cons, <-Permutation_middle, <-fmap_app, take_drop in Ha, Hb. cbn in Ha, Hb.
    apply elem_of_cons in Ha as [->|Ha]; apply elem_of_cons in Hb as [->|Hb].
    + by intros [_ Hne].
    + by apply Hfits.
    + by apply Hfits.
    + by apply Hanti.
  - rewrite Hnone, lookup_app_r; rewrite length_take; [|lia]. by replace (n - n `min` length (segments c)) with 0 by lia.
  - intros q Hq. rewrite <-(take_drop n (segments c)) at 3. rewrite !seg_at_app. cbn. by rewrite decide_False.
  - done.
Qed.

(** Adding a segment keeps the list sorted and prefix-free. [maybe_insert_tree] finds or creates
    the segment of a prefix at the index it returns, changes no other segment, and fails exactly on a
    prefix that nests with one already there. *)
Theorem maybe_insert_tree_exact c p :
  segs_ok (segments c) → antichain (seg_prefix <$> segments c) →
  match maybe_insert_tree c p with
  | Ok (idx, c') =>
      segs_ok (segments c') ∧ antichain (seg_prefix <$> segments c') ∧
      segments c' !! idx = Some (mkSegment p (default tree_default (seg_at p (segments c)))) ∧
      (∀ q, q ≠ p → seg_at q (segments c') = seg_at q (segments c)) ∧
      c' = set_segments c (segments c')
  | Err e => ∃ q, e = InvalidSegmentPrefix p q ∧ q ∈ seg_prefix <$> segments c ∧ (nested q p ∨ nested p q)
  | _ => False
  end.
Proof. apply maybe_insert_tree_spec. Qed.

(** ** Examples *)

(** A tree whose newest L0 comes first and whose watermark is the view of the last compacted one. *)
Definition demo_tree (watermark : option Ulid) (ids : list Ulid) : LsmTreeState :=
  mkTree watermark watermark ((λ id, demo_view id [97%Z] [98%Z]) <$> ids) [].
Definition demo_writer_segs : list Segment := [mkSegment [1%Z] (demo_tree None [3%Z; 2%Z; 1%Z]); mkSegment [3%Z] (demo_tree None [5%Z])].
Definition demo_compactor_segs : list Segment :=
  [mkSegment [1%Z] (demo_tree (Some 1%Z) []); mkSegment [2%Z] (demo_tree None []); mkSegment [3%Z] (demo_tree (Some 5%Z) [])].

Lemma demo_segs_ok : segs_ok demo_writer_segs ∧ segs_ok demo_compactor_segs.
Proof. split; apply sorted_prefixes; vm_compute; reflexivity. Qed.

Lemma segment_merges_exact_witness :
  (∃ out, merge_segments_from_compactor demo_writer_segs demo_compactor_segs = Ok out ∧
     seg_prefix <$> out = [[1%Z]] ∧ seg_at [1%Z] out = Some (demo_tree (Some 1%Z) [3%Z; 2%Z])) ∧
  ∃ out, merge_segments_from_writer demo_compactor_segs demo_writer_segs = Ok out ∧
    seg_at [3%Z] out = Some (demo_tree (Some 5%Z) []).
Proof.
  destruct (segment_merges_exact _ _ (proj1 demo_segs_ok) (proj2 demo_segs_ok)) as [(out & Ho & Hok & Hat) Hw]. split.
  - exists out. split_and!; [done| |rewrite Hat; reflexivity]. vm_compute in Ho. injection Ho as <-. reflexivity.
  - destruct Hw as (out' & Ho' & _ & Hat').
    + intros p t Hp Hn. cbn in Hp, Hn. repeat case_decide; simplify_eq; reflexivity.
    + exists out'. split; [done|]. rewrite Hat'. reflexivity.
Defined.

Definition demo_core : ManifestCore := set_segments core_new demo_writer_segs.

Lemma demo_antichain : antichain (seg_prefix <$> segments demo_core).
Proof. intros p q Hp Hq [[e He] Hne]. cbn in Hp, Hq. set_unfold. naive_solver. Qed.

Lemma select_segments_exact_witness :
  ∃ l range, BytesRange.new (Included [1%Z; 7%Z]) (Excluded [2%Z]) = Ok (E:=unit) range ∧
    select_segments demo_core range = Ok (Some l) ∧
    ∀ s, s ∈ l ↔ s ∈ segments demo_core ∧ ∃ k, BytesRange.contains range k = true ∧ seg_prefix s `prefix_of` k.
Proof.
  destruct (BytesRange.new (E:=unit) (Included [1%Z; 7%Z]) (Excluded [2%Z])) as [range| | |] eqn:E; [|vm_compute in E; discriminate E..].
  destruct (select_segments_exact demo_core range [1%Z; 7%Z]) as (l & Hl & _ & Hs);
    [done|apply demo_segs_ok|apply demo_antichain|repeat constructor; lia|vm_compute in E; injection E as <-; reflexivity|].
  by exists l, range.
Defined.

Lemma maybe_insert_tree_exact_witness :
  (∃ idx c, maybe_insert_tree demo_core [2%Z] = Ok (idx, c) ∧ antichain (seg_prefix <$> segments c)) ∧
  ∃ q, maybe_insert_tree demo_core [1%Z; 7%Z] = Err (InvalidSegmentPrefix [1%Z; 7%Z] q) ∧ nested q [1%Z; 7%Z].
Proof.
  split.
  - pose proof (maybe_insert_tree_exact demo_core [2%Z] (proj1 demo_segs_ok) demo_antichain) as H.
    assert (∃ r, maybe_insert_tree demo_core [2%Z] = Ok r) as [[idx c] E] by (eexists; vm_compute; reflexivity).
    rewrite E in H. exists idx, c. split; [done|]. apply H.
  - exists [1%Z]. split; [reflexivity|]. split; [by exists [7%Z]|done].
Defined.
