(* ===== verification/CompactionState.v ===== *)
(** * Compaction jobs and the compactor's state ([compactor_state.rs], [subcompaction.rs])

    Compaction specs, the life cycle of a job, the set of jobs a compactor tracks and how it is
    merged with the persisted one, and what finishing a job does to the manifest. *)

From S2P Require Export Manifest.

(** ** Specs *)

Inductive SourceId :=
| SourceSortedRun (id : Z)
| SourceSstView (id : Ulid).

Global Instance SourceId_eq_dec : EqDecision SourceId.
Proof. solve_decision. Defined.

(** [SourceId::maybe_unwrap_sorted_run] *)
Definition maybe_unwrap_sorted_run (s : SourceId) : option Z :=
  match s with SourceSortedRun id => Some id | SourceSstView _ => None end.

(** [SourceId::maybe_unwrap_sst_view] *)
Definition maybe_unwrap_sst_view (s : SourceId) : option Ulid :=
  match s with SourceSortedRun _ => None | SourceSstView id => Some id end.

(** [SourceId::unwrap_sorted_run] *)
Definition unwrap_sorted_run (s : SourceId) : result Z := expect (maybe_unwrap_sorted_run s).

Inductive CompactionSpec :=
| Tiered (segment : bytes) (sources : list SourceId) (destination : Z)
| DrainSegment (segment : bytes) (sources : list SourceId).

Global Instance CompactionSpec_eq_dec : EqDecision CompactionSpec.
Proof. solve_decision. Defined.

Definition spec_segment (s : CompactionSpec) : bytes :=
  match s with Tiered segment _ _ | DrainSegment segment _ => segment end.
Definition spec_sources (s : CompactionSpec) : list SourceId :=
  match s with Tiered _ sources _ | DrainSegment _ sources => sources end.
Definition spec_destination (s : CompactionSpec) : option Z :=
  match s with Tiered _ _ destination => Some destination | DrainSegment _ _ => None end.
Definition is_drain (s : CompactionSpec) : bool := match s with DrainSegment _ _ => true | Tiered _ _ _ => false end.

(** [CompactionSpec::reuses_input_run] *)
Definition reuses_input_run (s : CompactionSpec) : bool :=
  match spec_destination s with Some id => bool_decide (SourceSortedRun id ∈ spec_sources s) | None => false end.

(** [CompactionSpec::has_l0_sources], [CompactionSpec::has_sr_sources] *)
Definition has_l0_sources (s : CompactionSpec) : bool :=
  existsb (λ src, match src with SourceSstView _ => true | _ => false end) (spec_sources s).
Definition has_sr_sources (s : CompactionSpec) : bool :=
  existsb (λ src, match src with SourceSortedRun _ => true | _ => false end) (spec_sources s).

(** The L0 views and the sorted runs a list of sources names. *)
Definition l0_sources (l : list SourceId) : list Ulid := omap maybe_unwrap_sst_view l.
Definition sr_sources (l : list SourceId) : list Z := omap maybe_unwrap_sorted_run l.

(** ** Status *)

Inductive CompactionStatus :=
| Submitted | Scheduled | Running | StatusCompacted | Completed | Failed.

Global Instance CompactionStatus_eq_dec : EqDecision CompactionStatus.
Proof. solve_decision. Defined.

(** [CompactionStatus::active] *)
Definition status_active (s : CompactionStatus) : bool :=
  match s with Submitted | Scheduled | Running | StatusCompacted => true | _ => false end.

(** [CompactionStatus::counts_against_max_concurrent] *)
Definition counts_against_max_concurrent (s : CompactionStatus) : bool :=
  match s with Submitted | Scheduled | Running => true | _ => false end.

(** [CompactionStatus::finished] *)
Definition status_finished (s : CompactionStatus) : bool :=
  match s with Completed | Failed => true | _ => false end.

(** [CompactionStatus::should_adopt_state_transition] *)
Definition should_adopt_state_transition (self updated : CompactionStatus) : bool :=
  match self with
  | Submitted => match updated with StatusCompacted => true | _ => false end
  | Scheduled => match updated with Running | StatusCompacted => true | _ => false end
  | Running => match updated with Scheduled | Running | StatusCompacted => true | _ => false end
  | StatusCompacted => match updated with StatusCompacted => true | _ => false end
  | Completed | Failed => false
  end.

(** ** Jobs *)

Inductive SubcompactionStatus := InProgress | SubCompleted.

Record Subcompaction := mkSub {
  sub_range : BytesRange.t;
  sub_output_ssts : list SsTableHandle;
  sub_status : SubcompactionStatus;
}.

Definition sub_new (range : BytesRange.t) : Subcompaction := mkSub range [] InProgress.
Definition sub_completed (s : Subcompaction) : bool := match sub_status s with SubCompleted => true | _ => false end.

(** [starts_with] of a slice. *)
Fixpoint list_starts_with {A} `{EqDecision A} (l p : list A) : bool :=
  match p, l with
  | [], _ => true
  | y :: p, x :: l => bool_decide (x = y) && list_starts_with l p
  | _ :: _, [] => false
  end.

(** [Subcompaction::set_output_ssts] *)
Definition sub_set_output_ssts (s : Subcompaction) (output : list SsTableHandle) : result Subcompaction :=
  _ ← rust_assert (list_starts_with output (sub_output_ssts s));
  mret (mkSub (sub_range s) output (sub_status s)).

Record CompactionContext := mkContext {
  subcompactions : list Subcompaction;
  retention_min_seq : option Z;
}.

(** [CompactionContext::set_output_ssts] *)
Definition context_set_output_ssts (c : CompactionContext) (i : nat) (output : list SsTableHandle) : result CompactionContext :=
  s ← expect (subcompactions c !! i);
  s' ← sub_set_output_ssts s output;
  mret (mkContext (<[i:=s']> (subcompactions c)) (retention_min_seq c)).

(** [CompactionContext::mark_completed] *)
Definition mark_completed (c : CompactionContext) (i : nat) : result CompactionContext :=
  s ← expect (subcompactions c !! i);
  mret (mkContext (<[i:=mkSub (sub_range s) (sub_output_ssts s) SubCompleted]> (subcompactions c)) (retention_min_seq c)).

(** The assertions of one step of the loop of [validate_update]. *)
Definition validate_sub (prev next : Subcompaction) : result unit :=
  _ ← rust_assert (negb (sub_completed prev) || sub_completed next);
  _ ← (if sub_completed prev
       then rust_assert (bool_decide (length (sub_output_ssts prev) = length (sub_output_ssts next)))
       else mret tt);
  _ ← rust_assert (bool_decide (sub_range prev = sub_range next));
  rust_assert (list_starts_with (sub_output_ssts next) (sub_output_ssts prev)).

Fixpoint validate_subs (prev next : list Subcompaction) : result unit :=
  match prev, next with
  | p :: prev, n :: next => _ ← validate_sub p n; validate_subs prev next
  | _, _ => mret tt
  end.

(** [CompactionContext::validate_update] *)
Definition validate_update (self updated : CompactionContext) : result unit :=
  _ ← rust_assert (bool_decide (retention_min_seq self = retention_min_seq updated));
  _ ← rust_assert (bool_decide (length (subcompactions self) = length (subcompactions updated)));
  validate_subs (subcompactions self) (subcompactions updated).

Record WorkerSpec := mkWorker { worker_id : string; last_heartbeat_ms : Z }.

Record Compaction := mkCompaction {
  comp_id : Ulid;
  comp_spec : CompactionSpec;
  bytes_processed : Z;
  comp_status : CompactionStatus;
  comp_output_ssts : list SsTableHandle;
  comp_worker : option WorkerSpec;
  comp_ctx : option CompactionContext;
  comp_key_group_extractor_name : option string;
}.

(** [Compaction::new] *)
Definition compaction_new (id : Ulid) (spec : CompactionSpec) : Compaction :=
  mkCompaction id spec 0 Submitted [] None None None.

(** [Compaction::set_ctx] *)
Definition set_ctx (c : Compaction) (updated : option CompactionContext) : result Compaction :=
  let set ctx := mkCompaction (comp_id c) (comp_spec c) (bytes_processed c) (comp_status c) (comp_output_ssts c)
                   (comp_worker c) ctx (comp_key_group_extractor_name c) in
  match comp_ctx c, updated with
  | _, None => mret (set None)
  | Some existing, Some updated => _ ← validate_update existing updated; mret (set (Some updated))
  | None, Some updated => mret (set (Some updated))
  end.

(** [Compaction::set_status]: a failed job loses its context. *)
Definition set_status (s : CompactionStatus) (c : Compaction) : Compaction :=
  mkCompaction (comp_id c) (comp_spec c) (bytes_processed c) s (comp_output_ssts c) (comp_worker c)
    (if decide (s = Failed) then None else comp_ctx c) (comp_key_group_extractor_name c).

(** [Compaction::set_worker], [Compaction::set_key_group_extractor_name] *)
Definition set_worker (w : option WorkerSpec) (c : Compaction) : Compaction :=
  mkCompaction (comp_id c) (comp_spec c) (bytes_processed c) (comp_status c) (comp_output_ssts c) w (comp_ctx c)
    (comp_key_group_extractor_name c).
Definition set_key_group_extractor_name (name : option string) (c : Compaction) : Compaction :=
  mkCompaction (comp_id c) (comp_spec c) (bytes_processed c) (comp_status c) (comp_output_ssts c) (comp_worker c)
    (comp_ctx c) name.

(** [Compaction::subcompactions], [Compaction::has_durable_progress] *)
Definition comp_subcompactions (c : Compaction) : list Subcompaction :=
  match comp_ctx c with Some ctx => subcompactions ctx | None => [] end.
Definition has_durable_progress (c : Compaction) : bool :=
  existsb (λ s, sub_completed s || negb (bool_decide (sub_output_ssts s = []))) (comp_subcompactions c).

Definition comp_active (c : Compaction) : bool := status_active (comp_status c).

(** [tree.compacted.iter().map(|sr| (sr.id, sr)).collect()] *)
Definition runs_by_id (runs : list SortedRun) : gmap Z SortedRun :=
  foldl (λ m sr, <[run_id sr := sr]> m) ∅ runs.

(** [Compaction::get_sorted_runs] *)
Definition get_sorted_runs (c : Compaction) (db_state : ManifestCore) : list SortedRun :=
  match tree_for_segment db_state (spec_segment (comp_spec c)) with
  | None => []
  | Some t => omap (λ id, runs_by_id (compacted t) !! id) (sr_sources (spec_sources (comp_spec c)))
  end.

(** The map of [get_l0_sst_views]: [Some None] marks an ID shared by several views. *)
Definition views_by_id (views : list SsTableView) : gmap Z (option SsTableView) :=
  foldl (λ m v, <[view_id v := match m !! view_id v with Some _ => None | None => Some v end]> m) ∅ views.

(** The closure over the L0 sources, with the set of sources seen. *)
Fixpoint pick_views (by_id : gmap Z (option SsTableView)) (seen : list Ulid) (ids : list Ulid) : result (list SsTableView) :=
  match ids with
  | [] => mret []
  | id :: ids =>
      if decide (id ∈ seen) then Err InvalidCompaction
      else match by_id !! id with
           | Some (Some v) => vs ← pick_views by_id (id :: seen) ids; mret (v :: vs)
           | _ => Err InvalidCompaction
           end
  end.

(** [Compaction::get_l0_sst_views] *)
Definition get_l0_sst_views (c : Compaction) (db_state : ManifestCore) : result (list SsTableView) :=
  match tree_for_segment db_state (spec_segment (comp_spec c)) with
  | None => Err InvalidCompaction
  | Some t => pick_views (views_by_id (l0 t)) [] (l0_sources (spec_sources (comp_spec c)))
  end.

Definition start_bound_le (a b : SsTableView) : Prop :=
  ord_leb (range_start (BytesRange.inner (effective_range a))) (range_start (BytesRange.inner (effective_range b))) = true.
Global Instance start_bound_le_dec a b : Decision (start_bound_le a b).
Proof. unfold start_bound_le. apply _. Defined.

(** [windows(2).all(|pair| .. intersect .. is_none())] *)
Fixpoint adjacent_disjoint (views : list SsTableView) : bool :=
  match views with
  | a :: (b :: _) as rest =>
      bool_decide (BytesRange.intersect (effective_range a) (effective_range b) = None) && adjacent_disjoint rest
  | _ => true
  end.

(** [Compaction::trivial_move_output] *)
Definition trivial_move_output (c : Compaction) (db_state : ManifestCore) : option SortedRun :=
  destination ← spec_destination (comp_spec c);
  match get_l0_sst_views c db_state with
  | Ok views =>
      let views := merge_sort start_bound_le (views ++ (get_sorted_runs c db_state ≫= sst_views)) in
      if negb (bool_decide (views = [])) && adjacent_disjoint views then Some (mkRun destination views) else None
  | _ => None
  end.

(** ** The jobs of a compactor *)

Record Compactions := mkCompactions {
  jobs_compactor_epoch : Z;
  recent_compactions : BTreeMap Ulid Compaction;
}.

(** [Compactions::new], [Compactions::insert], [Compactions::get], [Compactions::iter] *)
Definition compactions_new (epoch : Z) : Compactions := mkCompactions epoch [].
Definition compactions_insert (c : Compaction) (l : Compactions) : Compactions :=
  mkCompactions (jobs_compactor_epoch l) (bm_insert (comp_id c) c (recent_compactions l)).
Definition compactions_get (l : Compactions) (id : Ulid) : option Compaction := bm_get id (recent_compactions l).
Definition compactions_iter (l : Compactions) : list Compaction := bm_values (recent_compactions l).

(** [Compactions::iter_active], [Compactions::iter_with_status] *)
Definition iter_active (l : Compactions) : list Compaction := filter (λ c, comp_active c = true) (compactions_iter l).
Definition iter_with_status (statuses : list CompactionStatus) (l : Compactions) : list Compaction :=
  filter (λ c, comp_status c ∈ statuses) (compactions_iter l).

(** [Compactions::retain_active_and_last_finished] *)
Definition retain_active_and_last_finished (l : Compactions) : Compactions :=
  let latest_finished :=
    max_opt (omap (λ b, if status_finished (comp_status b.2) then Some (comp_id b.2) else None) (recent_compactions l)) in
  mkCompactions (jobs_compactor_epoch l)
    (filter (λ b, comp_active b.2 = true ∨ Some b.1 = latest_finished) (recent_compactions l)).

Record CompactorState := mkCompactorState {
  cs_manifest : Manifest;
  cs_compactions : Compactions;
}.

Definition db_state (s : CompactorState) : ManifestCore := core (cs_manifest s).

(** [CompactorState::set_compactions] *)
Definition set_compactions (s : CompactorState) (l : Compactions) : result CompactorState :=
  _ ← rust_assert (bool_decide (compactor_epoch (cs_manifest s) = jobs_compactor_epoch l));
  mret (mkCompactorState (cs_manifest s) l).

(** One entry of the persisted jobs in [merge_remote_compactions]. *)
Definition merge_remote_entry (merged : BTreeMap Ulid Compaction) (c : Compaction) : BTreeMap Ulid Compaction :=
  match bm_get (comp_id c) merged with
  | None =>
      match comp_status c with
      | Submitted | StatusCompacted | Completed | Failed => bm_insert (comp_id c) c merged
      | Scheduled | Running => merged
      end
  | Some local =>
      if should_adopt_state_transition (comp_status local) (comp_status c) then bm_insert (comp_id c) c merged else merged
  end.

(** [CompactorState::merge_remote_compactions] *)
Definition merge_remote_compactions (s : CompactorState) (remote : Compactions) : result CompactorState :=
  let merged := foldl (λ m c, bm_insert (comp_id c) c m) [] (compactions_iter (cs_compactions s)) in
  let merged := foldl merge_remote_entry merged (compactions_iter remote) in
  set_compactions s (mkCompactions (jobs_compactor_epoch (cs_compactions s)) merged).

(** [CompactorState::merge_remote_manifest] *)
Definition merge_remote_manifest (s : CompactorState) (remote : Manifest) : result CompactorState :=
  m ← compactor_merge_remote (db_state s) remote; mret (mkCompactorState m (cs_compactions s)).

(** [CompactorState::add_compaction] *)
Definition add_compaction (s : CompactorState) (c : Compaction) : result CompactorState :=
  let spec := comp_spec c in
  let active := iter_active (cs_compactions s) in
  if is_drain spec && existsb (λ c', is_drain (comp_spec c') && bool_decide (spec_segment (comp_spec c') = spec_segment spec)) active
  then Err InvalidCompaction
  else
    if match spec_destination spec with
       | Some dst => existsb (λ d, bool_decide (d = dst)) (omap (λ c', spec_destination (comp_spec c')) active)
       | None => false
       end
    then Err InvalidCompaction
    else mret (mkCompactorState (cs_manifest s) (compactions_insert c (cs_compactions s))).

(** [CompactorState::update_compaction] *)
Definition update_compaction (id : Ulid) (f : Compaction → Compaction) (s : CompactorState) : CompactorState :=
  match compactions_get (cs_compactions s) id with
  | Some c =>
      mkCompactorState (cs_manifest s)
        (mkCompactions (jobs_compactor_epoch (cs_compactions s)) (bm_insert id (f c) (recent_compactions (cs_compactions s))))
  | None => s
  end.

(** [CompactorState::assert_compacted_srs_in_id_order] *)
Fixpoint assert_ids_below (last_sr_id : Z) (runs : list SortedRun) : result unit :=
  match runs with
  | [] => mret tt
  | sr :: runs => _ ← rust_assert (bool_decide (run_id sr < last_sr_id)%Z); assert_ids_below (run_id sr) runs
  end.
Definition assert_compacted_srs_in_id_order (runs : list SortedRun) : result unit := assert_ids_below u32_max runs.

(** The loop of [finish_compaction] over the sorted runs. *)
Fixpoint replace_runs (output : SortedRun) (compaction_srs : list Z) (inserted : bool) (runs : list SortedRun)
    : list SortedRun :=
  match runs with
  | [] => if inserted then [] else [output]
  | sr :: runs =>
      let insert_here := negb inserted && bool_decide (run_id sr <= run_id output)%Z in
      (if insert_here then [output] else []) ++
      (if decide (run_id sr ∈ compaction_srs) then [] else [sr]) ++
      replace_runs output compaction_srs (inserted || insert_here) runs
  end.

(** What [finish_compaction] does to the tree of the spec's segment. *)
Definition finish_tree (sources : list SourceId) (dst : Z) (output : SortedRun) (t : LsmTreeState) : result LsmTreeState :=
  let compaction_l0s := l0_sources sources in
  let compaction_srs := sr_sources (sources ++ [SourceSortedRun dst]) in
  let new_l0 := filter (λ v, view_id v ∉ compaction_l0s) (l0 t) in
  let new_compacted := replace_runs output compaction_srs false (compacted t) in
  _ ← assert_compacted_srs_in_id_order new_compacted;
  let newest_compacted_l0 :=
    last (take_while (λ v, bool_decide (view_id v ∈ compaction_l0s)) (reverse (l0 t))) in
  mret match newest_compacted_l0 with
       | Some v => mkTree (Some (view_id v)) (Some (handle_id (view_sst v))) new_l0 new_compacted
       | None => mkTree (last_compacted_l0_sst_view_id t) (last_compacted_l0_sst_id t) new_l0 new_compacted
       end.

(** [self.manifest.value.core = db_state; prune_external_sst_ids()] *)
Definition set_core (s : CompactorState) (c : ManifestCore) : CompactorState :=
  let m := cs_manifest s in
  mkCompactorState (prune_external_sst_ids (mkManifest (external_dbs m) c (writer_epoch m) (compactor_epoch m)))
    (cs_compactions s).

(** [CompactorState::finish_compaction] *)
Definition finish_compaction (s : CompactorState) (id : Ulid) (output : SortedRun) : result CompactorState :=
  match compactions_get (cs_compactions s) id with
  | None => mret s
  | Some compaction =>
      let spec := comp_spec compaction in
      dst ← expect (spec_destination spec);
      _ ← rust_assert (negb (bool_decide (spec_sources spec = [])));
      match tree_for_segment (db_state s) (spec_segment spec) with
      | None => mret (update_compaction id (set_status Failed) s)
      | Some t =>
          t' ← finish_tree (spec_sources spec) dst output t;
          c' ← expect (update_tree_for_segment (db_state s) (spec_segment spec) (λ _, t'));
          mret (update_compaction id (set_status Completed) (set_core s c'))
      end
  end.

(** What [finish_drain_compaction] does to the tree of the spec's segment. *)
Definition drain_tree (sources : list SourceId) (t : LsmTreeState) : LsmTreeState :=
  let l0' := filter (λ v, view_id v ∉ l0_sources sources) (l0 t) in
  let compacted' := filter (λ sr, run_id sr ∉ sr_sources sources) (compacted t) in
  match list_find (λ v, view_id v ∈ l0_sources sources) (l0 t) with
  | Some (_, v) => mkTree (Some (view_id v)) (Some (handle_id (view_sst v))) l0' compacted'
  | None => mkTree (last_compacted_l0_sst_view_id t) (last_compacted_l0_sst_id t) l0' compacted'
  end.

(** [CompactorState::finish_drain_compaction] *)
Definition finish_drain_compaction (s : CompactorState) (id : Ulid) : result CompactorState :=
  match compactions_get (cs_compactions s) id with
  | None => mret s
  | Some compaction =>
      match comp_spec compaction with
      | Tiered _ _ _ => Panic
      | DrainSegment segment sources =>
          match update_tree_for_segment (db_state s) segment (drain_tree sources) with
          | None => mret (update_compaction id (set_status Failed) s)
          | Some c' => mret (update_compaction id (set_status Completed) (set_core s c'))
          end
      end
  end.
