(* ===== verification/Compactor.v ===== *)
(** * Scheduling and committing compactions ([compactor.rs], [size_tiered_compaction.rs])

    The scheduler interface and the size-tiered scheduler behind it, the validation of a spec
    against the manifest, the commit of finished jobs and the promotion of submitted ones.

    Two things are left open, as arguments: the estimated visible size of a view and of a run (the
    source computes them in floating point) and the product of a size with the size threshold
    (an [f32]). What is proved holds for all of them. *)

From S2P Require Export CompactionState.

(** ** Requests *)

Inductive CompactionRequest :=
| RequestFull
| RequestFullSegment (segment : bytes)
| RequestSpec (spec : CompactionSpec).

(** [plan_full_tree] *)
Definition plan_full_tree (prefix : bytes) (t : LsmTreeState) : option CompactionSpec :=
  if decide (compacted t = []) then None
  else destination ← min_opt (run_id <$> compacted t);
       Some (Tiered prefix ((λ sr, SourceSortedRun (run_id sr)) <$> compacted t) destination).

(** ** The scheduler interface *)

Class CompactionScheduler := {
  propose : CompactorState → result (list CompactionSpec);
  scheduler_validate : CompactorState → CompactionSpec → result unit;
}.

(** The provided method [CompactionScheduler::generate]. *)
Definition generate (s : CompactorState) (request : CompactionRequest) : result (list CompactionSpec) :=
  match request with
  | RequestSpec spec => mret [spec]
  | RequestFullSegment segment =>
      match tree_for_segment (db_state s) segment with
      | None => Err InvalidCompaction
      | Some t => match plan_full_tree segment t with Some spec => mret [spec] | None => Err InvalidCompaction end
      end
  | RequestFull => mret (omap (λ pt, plan_full_tree pt.1 pt.2) (trees_with_prefix (db_state s)))
  end.

(** ** Validating a spec against the manifest *)

(** [CompactorEventHandler::validate_destination_overwrite] *)
Definition validate_destination_overwrite (spec : CompactionSpec) (c : ManifestCore) : result unit :=
  match spec_destination spec with
  | None => mret tt
  | Some dst =>
      let sr_exists_anywhere := existsb (λ sr, bool_decide (run_id sr = dst)) (trees c ≫= compacted) in
      let sr_in_sources := existsb (λ src, match src with SourceSortedRun sr => bool_decide (sr = dst) | SourceSstView _ => false end)
                             (spec_sources spec) in
      if sr_exists_anywhere && negb sr_in_sources then Err InvalidCompaction else mret tt
  end.

(** [CompactorEventHandler::validate_drain_watermark_advance] *)
Definition validate_drain_watermark_advance (spec : CompactionSpec) (t : LsmTreeState) : result unit :=
  if negb (is_drain spec) then mret tt
  else
    let drained := l0_sources (spec_sources spec) in
    if decide (drained = []) then mret tt
    else match list_find (λ v, view_id v ∈ drained) (l0 t) with
         | None => mret tt
         | Some (newest, _) =>
             if forallb (λ v, bool_decide (view_id v ∈ drained)) (drop newest (l0 t)) then mret tt else Err InvalidCompaction
         end.

(** [.max().map_or(0, |id| id + 1)] *)
Definition next_after (ids : list Z) : Z := match max_opt ids with Some id => (id + 1)%Z | None => 0%Z end.

(** The check of the destination of an L0-only compaction in [validate_compaction]. *)
Definition validate_l0_destination (c : Compaction) (core : ManifestCore) (t : LsmTreeState) : result unit :=
  let spec := comp_spec c in
  if has_l0_sources spec && negb (has_sr_sources spec) then
    highest ← match comp_status c with
              | Submitted => mret (next_after (run_id <$> (trees core ≫= compacted)))
              | StatusCompacted => mret (next_after (run_id <$> compacted t))
              | _ => Err InvalidCompaction
              end;
    match spec_destination spec with
    | Some dst => if decide (dst < highest)%Z then Err InvalidCompaction else mret tt
    | None => mret tt
    end
  else mret tt.

Section handler.
  Context `{CompactionScheduler}.

(** [CompactorEventHandler::validate_compaction] *)
Definition validate_compaction (s : CompactorState) (c : Compaction) : result unit :=
  let spec := comp_spec c in
  if decide (spec_sources spec = []) then Err InvalidCompaction
  else if is_drain spec && bool_decide (spec_segment spec = []) then Err InvalidCompaction
  else match tree_for_segment (db_state s) (spec_segment spec) with
  | None => Err InvalidCompaction
  | Some t =>
      _ ← get_l0_sst_views c (db_state s);
      if existsb (λ src, match src with
                         | SourceSstView _ => false
                         | SourceSortedRun id => negb (bool_decide (id ∈ run_id <$> compacted t))
                         end) (spec_sources spec)
      then Err InvalidCompaction
      else
        _ ← validate_l0_destination c (db_state s) t;
        _ ← validate_destination_overwrite spec (db_state s);
        _ ← validate_drain_watermark_advance spec t;
        if has_l0_sources spec &&
           existsb (λ c', has_l0_sources (comp_spec c') && bool_decide (spec_segment (comp_spec c') = spec_segment spec))
             (iter_with_status [Scheduled; Running] (cs_compactions s))
        then Err InvalidCompaction
        else match scheduler_validate s spec with
             | Err _ => Err InvalidCompaction
             | r => r
             end
  end.

(** [CompactorEventHandler::final_commit_is_applied] *)
Definition final_commit_is_applied (s : CompactorState) (job : Compaction) : result bool :=
  let spec := comp_spec job in
  if negb (bool_decide (comp_status job = StatusCompacted)) || has_l0_sources spec || negb (reuses_input_run spec)
  then mret false
  else match tree_for_segment (db_state s) (spec_segment spec) with
  | None => mret false
  | Some t =>
      destination ← expect (spec_destination spec);
      match list_find (λ r, run_id r = destination) (compacted t) with
      | None => mret false
      | Some (_, output) =>
          let other_inputs_removed :=
            forallb (λ src, match src with
                            | SourceSortedRun id => bool_decide (id = destination) || negb (bool_decide (id ∈ run_id <$> compacted t))
                            | SourceSstView _ => true
                            end) (spec_sources spec) in
          job_views ← mapM view_identity (comp_output_ssts job);
          mret (other_inputs_removed && bool_decide (sst_views output = job_views))
      end
  end.

(** One job of [CompactorEventHandler::apply_final_commits]. *)
Definition apply_final_commit (s : CompactorState) (job : Compaction) : result (CompactorState * bool) :=
  applied ← final_commit_is_applied s job;
  if applied : bool then mret (update_compaction (comp_id job) (set_status Completed) s, false)
  else match validate_compaction s job with
  | Ok _ =>
      destination ← expect (spec_destination (comp_spec job));
      views ← mapM view_identity (comp_output_ssts job);
      s' ← finish_compaction s (comp_id job) (mkRun destination views);
      mret (s', true)
  | Err _ => mret (update_compaction (comp_id job) (set_status Failed) s, false)
  | Panic => Panic
  | OutOfFuel => OutOfFuel
  end.

(** [CompactorEventHandler::apply_final_commits] *)
Fixpoint apply_final_commits (s : CompactorState) (jobs : list Compaction) : result (CompactorState * bool) :=
  match jobs with
  | [] => mret (s, false)
  | job :: jobs =>
      r ← apply_final_commit s job;
      r' ← apply_final_commits r.1 jobs;
      mret (r'.1, r.2 || r'.2)
  end.

Record CompactorOptions := mkCompactorOptions {
  max_concurrent_compactions : nat;
  enable_trivial_move : bool;
}.

(** One job of [CompactorEventHandler::maybe_validate_submitted_compactions]. *)
Definition validate_submitted (o : CompactorOptions) (extractor_name : option string) (s : CompactorState) (c : Compaction)
    : result (CompactorState * bool) :=
  match validate_compaction s c with
  | Err _ => mret (update_compaction (comp_id c) (set_status Failed) s, false)
  | Panic => Panic
  | OutOfFuel => OutOfFuel
  | Ok _ =>
      let trivial := if enable_trivial_move o then trivial_move_output c (db_state s) else None in
      if is_drain (comp_spec c) then
        s' ← finish_drain_compaction s (comp_id c); mret (s', true)
      else match trivial with
      | Some output => s' ← finish_compaction s (comp_id c) output; mret (s', true)
      | None =>
          let claimed := length (filter (λ c', comp_status c' = Scheduled ∨ comp_status c' = Running) (iter_active (cs_compactions s))) in
          if decide (max_concurrent_compactions o ≤ claimed) then mret (s, false)
          else mret (update_compaction (comp_id c)
                       (λ c', set_status Scheduled
                                (if has_durable_progress c' then c' else set_key_group_extractor_name extractor_name c')) s,
                     false)
      end
  end.

(** [CompactorEventHandler::maybe_validate_submitted_compactions]; the result says whether the manifest changed. *)
Definition maybe_validate_submitted_compactions (o : CompactorOptions) (extractor_name : option string) (s : CompactorState)
    : result (CompactorState * bool) :=
  (fix go s changed jobs :=
     match jobs with
     | [] => mret (s, changed)
     | c :: jobs => r ← validate_submitted o extractor_name s c; go r.1 (changed || r.2) jobs
     end) s false (iter_with_status [Submitted] (cs_compactions s)).

(** The jobs [CompactorEventHandler::maybe_schedule_compactions] adds; an ID is drawn for each. A
    rejected proposal is counted but not tracked. *)
Definition add_proposal (s : CompactorState) (id_spec : Ulid * CompactionSpec) : CompactorState :=
  match add_compaction s (compaction_new id_spec.1 id_spec.2) with Ok s' => s' | _ => s end.

Definition running_compaction_count (s : CompactorState) : nat :=
  length (filter (λ c, comp_status c = Running) (iter_active (cs_compactions s))).

(** [CompactorEventHandler::maybe_schedule_compactions] *)
Definition maybe_schedule_compactions (o : CompactorOptions) (ids : list Ulid) (s : CompactorState) : result CompactorState :=
  let available := max_concurrent_compactions o - running_compaction_count s in
  if decide (available = 0) then mret s
  else
    specs ← propose s;
    mret (foldl add_proposal s (zip ids (take available specs))).

(** [CompactorEventHandler::reclaim_stale_workers] *)
Definition is_stale (now_ms timeout_ms : Z) (c : Compaction) : bool :=
  match comp_worker c with
  | Some w => bool_decide (timeout_ms < Z.max 0 (now_ms - last_heartbeat_ms w))%Z
  | None => true
  end.
Definition reclaim_stale_workers (now_ms timeout_ms : Z) (s : CompactorState) : CompactorState :=
  foldl (λ s c, update_compaction (comp_id c) (λ c', set_worker None (set_status Scheduled c')) s) s
    (filter (λ c, is_stale now_ms timeout_ms c = true) (iter_with_status [Running] (cs_compactions s))).
End handler.
