(* ===== verification/SizeTiered.v ===== *)
(** * The size-tiered compaction scheduler ([size_tiered_compaction.rs])

    What the scheduler proposes and what it accepts. The estimated sizes and the product of a size
    with the size threshold are arguments (the source computes them in floating point). *)

From S2P Require Export Compactor.

Record CompactionSource := mkSource { source : SourceId; source_size : Z }.

(** ** Conflicts *)

(** [ConflictChecker]: the sources in use. *)
Notation ConflictChecker := (list SourceId) (only parsing).

(** [ConflictChecker::check_source] *)
Definition check_source (used : ConflictChecker) (src : SourceId) : bool := negb (bool_decide (src ∈ used)).

(** [ConflictChecker::check_compaction] *)
Definition conflicts_check_compaction (used : ConflictChecker) (sources : list CompactionSource) (dst : Z) : bool :=
  forallb (λ s, check_source used (source s)) sources && check_source used (SourceSortedRun dst).

(** [ConflictChecker::add_compaction] *)
Definition conflicts_add_compaction (used : ConflictChecker) (spec : CompactionSpec) : ConflictChecker :=
  match spec_destination spec with Some dst => [SourceSortedRun dst] | None => [] end ++ spec_sources spec ++ used.

(** [ConflictChecker::new] *)
Definition conflicts_new (specs : list CompactionSpec) : ConflictChecker := foldl conflicts_add_compaction [] specs.

Section size_tiered.
  Context (visible_size : SsTableView → Z) (visible_run_size : SortedRun → Z) (scaled : Z → Z).

Record SizeTieredOptions := mkSizeTieredOptions {
  min_compaction_sources : nat;
  max_compaction_sources : nat;
  sorted_run_consolidation_threshold : nat;
}.

Record BackpressureChecker := mkBackpressure {
  bp_max_compaction_sources : nat;
  longest_compactable_runs_by_sr : gmap Z (list CompactionSource);
}.

(** [BackpressureChecker::check_estimated_size] *)
Definition check_estimated_size (bp : BackpressureChecker) (estimated : Z) (next_sr : option CompactionSource) : result bool :=
  match next_sr with
  | None => mret true
  | Some next =>
      if decide (source_size next <= scaled estimated)%Z then
        id ← unwrap_sorted_run (source next);
        let n := match longest_compactable_runs_by_sr bp !! id with Some r => length r | None => 0 end in
        mret (negb (bool_decide (bp_max_compaction_sources bp ≤ n)))
      else mret true
  end.

(** [BackpressureChecker::check_compaction] *)
Definition bp_check_compaction (bp : BackpressureChecker) (sources : list CompactionSource) (next_sr : option CompactionSource)
    : result bool :=
  check_estimated_size bp (foldl (λ n s, wrap 64 (n + source_size s)) 0%Z sources) next_sr.

Record TreeState := mkTreeState {
  ts_prefix : bytes;
  ts_l0 : list CompactionSource;
  ts_srs : list CompactionSource;
  projected_sorted_runs : gset Z;
  ts_conflicts : ConflictChecker;
  ts_bp : BackpressureChecker;
}.

(** One step of [TreeState::project_compaction] over the sources. *)
Definition project_source (runs : gset Z) (src : SourceId) : gset Z :=
  match src with SourceSortedRun id => runs ∖ {[id]} | SourceSstView _ => runs end.

(** [TreeState::project_compaction] *)
Definition project_compaction (t : TreeState) (spec : CompactionSpec) : TreeState :=
  let runs := foldl project_source (projected_sorted_runs t) (spec_sources spec) in
  mkTreeState (ts_prefix t) (ts_l0 t) (ts_srs t)
    (match spec_destination spec with Some dst => {[dst]} ∪ runs | None => runs end) (ts_conflicts t) (ts_bp t).

(** [TreeState::check_compaction] *)
Definition ts_check_compaction (t : TreeState) (sources : list CompactionSource) (dst : Z) (next_sr : option CompactionSource)
    : result bool :=
  if conflicts_check_compaction (ts_conflicts t) sources dst then bp_check_compaction (ts_bp t) sources next_sr else mret false.

(** The loop of [build_compactable_run] over the sources from the start index on; [min_sz] and
    [estimated] are its accumulators and [taken] the number of sources collected. *)
Fixpoint build_run (filtered : bool) (checker : option TreeState) (max_sources : option nat)
    (min_sz : option Z) (estimated : Z) (taken : nat) (sources : list CompactionSource) : result (list CompactionSource) :=
  match sources with
  | [] => mret []
  | src :: rest =>
      if match max_sources with Some limit => bool_decide (limit ≤ taken) | None => false end then mret []
      else if match min_sz with Some m => filtered && bool_decide (scaled m < source_size src)%Z | None => false end then mret []
      else
        let min_sz' := if filtered then Some (match min_sz with Some m => Z.min m (source_size src) | None => source_size src end)
                       else min_sz in
        match checker with
        | None => l ← build_run filtered checker max_sources min_sz' estimated (S taken) rest; mret (src :: l)
        | Some t =>
            dst ← unwrap_sorted_run (source src);
            if negb (check_source (ts_conflicts t) (SourceSortedRun dst)) then mret []
            else
              let estimated' := wrap 64 (estimated + source_size src) in
              ok ← check_estimated_size (ts_bp t) estimated' (head rest);
              if ok : bool then
                l ← build_run filtered checker max_sources min_sz' estimated' (S taken) rest; mret (src :: l)
              else mret []
        end
  end.

(** [SizeTieredCompactionScheduler::build_compactable_run]; [filtered] tells whether a size threshold is given. *)
Definition build_compactable_run (filtered : bool) (sources : list CompactionSource) (start_idx : nat)
    (checker : option TreeState) (max_sources : option nat) : result (list CompactionSource) :=
  build_run filtered checker max_sources None 0 0 (drop start_idx sources).

(** [BackpressureChecker::new] *)
Fixpoint bp_runs (srs : list CompactionSource) (i : nat) (rest : list CompactionSource) (m : gmap Z (list CompactionSource))
    : result (gmap Z (list CompactionSource)) :=
  match rest with
  | [] => mret m
  | sr :: rest =>
      id ← unwrap_sorted_run (source sr);
      run ← build_compactable_run true srs i None None;
      bp_runs srs (S i) rest (<[id := run]> m)
  end.
Definition bp_new (max_sources : nat) (srs : list CompactionSource) : result BackpressureChecker :=
  m ← bp_runs srs 0 srs ∅; mret (mkBackpressure max_sources m).

(** [compaction_sources] *)
Definition compaction_sources (t : LsmTreeState) : list CompactionSource * list CompactionSource :=
  ((λ v, mkSource (SourceSstView (view_id v)) (visible_size v)) <$> l0 t,
   (λ sr, mkSource (SourceSortedRun (run_id sr)) (visible_run_size sr)) <$> compacted t).

(** [next_global_sr_id] *)
Definition next_global_sr_id (c : ManifestCore) (active : list Compaction) : Z :=
  let max_committed := max_opt (run_id <$> (trees c ≫= compacted)) in
  let max_in_flight := max_opt (omap (λ c', spec_destination (comp_spec c')) active) in
  match max_opt (option_list max_committed ++ option_list max_in_flight) with
  | Some id => Z.min (id + 1) u32_max
  | None => 0
  end.

Context (o : SizeTieredOptions) (max_concurrent : nat).

(** [clamp_min], [clamp_max] *)
Definition clamp_min (sources : list CompactionSource) : option (list CompactionSource) :=
  if decide (length sources < min_compaction_sources o) then None else Some sources.
Definition clamp_max (sources : list CompactionSource) : list CompactionSource :=
  drop (length sources - max_compaction_sources o) sources.

(** [create_compaction], [create_sorted_run_compaction] *)
Definition create_compaction (prefix : bytes) (sources : list CompactionSource) (dst : Z) : CompactionSpec :=
  Tiered prefix (source <$> sources) dst.
Definition create_sorted_run_compaction (prefix : bytes) (sources : list CompactionSource) : result CompactionSpec :=
  s ← expect (last sources);
  dst ← unwrap_sorted_run (source s);
  mret (create_compaction prefix sources dst).

(** The loop over the start indices when compacting the lower levels. *)
Fixpoint pick_lower (t : TreeState) (n : nat) (i : nat) : result (option CompactionSpec) :=
  match n with
  | O => mret None
  | S n =>
      run ← build_compactable_run true (ts_srs t) i (Some t) None;
      match clamp_min run with
      | Some run => spec ← create_sorted_run_compaction (ts_prefix t) (clamp_max run); mret (Some spec)
      | None => pick_lower t n (S i)
      end
  end.

(** The loop over the start indices of the consolidation fallback. *)
Fixpoint pick_consolidation (t : TreeState) (limit : nat) (n : nat) (i : nat) : result (option CompactionSpec) :=
  match n with
  | O => mret None
  | S n =>
      run ← build_compactable_run false (ts_srs t) i (Some t) (Some limit);
      if decide (2 ≤ length run) then spec ← create_sorted_run_compaction (ts_prefix t) run; mret (Some spec)
      else pick_consolidation t limit n (S i)
  end.

(** Whether [pick_next_compaction] compacts L0s: the sources it takes. *)
Definition pick_l0 (t : TreeState) (next_fresh_sr_id : Z) : result (option (list CompactionSource)) :=
  match clamp_min (ts_l0 t) with
  | None => mret None
  | Some candidates =>
      let candidates := clamp_max candidates in
      ok ← ts_check_compaction t candidates next_fresh_sr_id (head (ts_srs t));
      mret (if ok : bool then Some candidates else None)
  end.

(** [SizeTieredCompactionScheduler::pick_next_compaction], with the next fresh run ID. *)
Definition pick_next_compaction (t : TreeState) (next_fresh_sr_id : Z) : result (option CompactionSpec * Z) :=
  l0s ← pick_l0 t next_fresh_sr_id;
  match l0s with
  | Some candidates =>
      mret (Some (create_compaction (ts_prefix t) candidates next_fresh_sr_id), Z.min (next_fresh_sr_id + 1) u32_max)
  | None =>
      lower ← pick_lower t (length (ts_srs t)) 0;
      match lower with
      | Some spec => mret (Some spec, next_fresh_sr_id)
      | None =>
          let threshold := sorted_run_consolidation_threshold o in
          let projected_count := size (projected_sorted_runs t) in
          if decide (0 < threshold ∧ threshold < projected_count ∧ 2 ≤ max_compaction_sources o) then
            let limit := Nat.min (max_compaction_sources o) (projected_count - threshold + 1) in
            spec ← pick_consolidation t limit (length (ts_srs t)) 0;
            mret (spec, next_fresh_sr_id)
          else mret (None, next_fresh_sr_id)
      end
  end.

(** The planning state of a tree. *)
Definition tree_planning (active : list Compaction) (pt : bytes * LsmTreeState) : result TreeState :=
  let '(prefix, t) := pt in
  let '(l0s, srs) := compaction_sources t in
  let specs := comp_spec <$> filter (λ c, spec_segment (comp_spec c) = prefix) active in
  bp ← bp_new (max_compaction_sources o) srs;
  mret (foldl project_compaction
          (mkTreeState prefix l0s srs (list_to_set (run_id <$> compacted t)) (conflicts_new specs) bp) specs).

(** [trees.sort_by_key(|t| Reverse(t.l0.len()))] *)
Definition more_l0s (a b : TreeState) : Prop := length (ts_l0 b) ≤ length (ts_l0 a).
Global Instance more_l0s_dec a b : Decision (more_l0s a b).
Proof. unfold more_l0s. apply _. Defined.

(** One pass of the round robin: the trees, the specs picked so far and the next fresh run ID. *)
Fixpoint pass (slots_in_use : nat) (todo : list TreeState) (specs : list CompactionSpec) (next_fresh : Z)
    : result (list TreeState * list CompactionSpec * Z) :=
  match todo with
  | [] => mret ([], specs, next_fresh)
  | t :: todo' =>
      if decide (max_concurrent ≤ slots_in_use + length specs) then mret (todo, specs, next_fresh)
      else
        p ← pick_next_compaction t next_fresh;
        let '(t', specs') :=
          match p.1 with
          | Some spec =>
              (project_compaction (mkTreeState (ts_prefix t) (ts_l0 t) (ts_srs t) (projected_sorted_runs t)
                                     (conflicts_add_compaction (ts_conflicts t) spec) (ts_bp t)) spec,
               specs ++ [spec])
          | None => (t, specs)
          end in
        r ← pass slots_in_use todo' specs' p.2;
        let '(ts, specs'', next) := r in
        mret (t' :: ts, specs'', next)
  end.

(** The round robin: another pass as long as the last one picked something. *)
Fixpoint rounds (fuel : nat) (slots_in_use : nat) (ts : list TreeState) (specs : list CompactionSpec) (next_fresh : Z)
    : result (list CompactionSpec) :=
  match fuel with
  | O => OutOfFuel
  | S fuel =>
      r ← pass slots_in_use ts specs next_fresh;
      let '(ts', specs', next) := r in
      if decide (length specs' = length specs) then mret specs' else rounds fuel slots_in_use ts' specs' next
  end.

(** [SizeTieredCompactionScheduler::propose] *)
Definition size_tiered_propose (s : CompactorState) : result (list CompactionSpec) :=
  let active := iter_active (cs_compactions s) in
  let slots_in_use := length (filter (λ c, counts_against_max_concurrent (comp_status c) = true) active) in
  ts ← mapM (tree_planning active) (trees_with_prefix (db_state s));
  rounds (S max_concurrent) slots_in_use (merge_sort more_l0s ts) [] (next_global_sr_id (db_state s) active).

(** The order of the sources of a tree: the L0s newest first, then the runs. *)
Definition logical_order (t : LsmTreeState) : list SourceId :=
  ((λ v, SourceSstView (view_id v)) <$> l0 t) ++ ((λ sr, SourceSortedRun (run_id sr)) <$> compacted t).

(** [order.windows(sources.len()).any(|w| w == sources)] *)
Fixpoint window_of (sources order : list SourceId) : bool :=
  match order with
  | [] => false
  | x :: rest => bool_decide (take (length sources) order = sources) || window_of sources rest
  end.

(** [SizeTieredCompactionScheduler::validate]; [windows(0)] panics. *)
Definition size_tiered_validate (s : CompactorState) (spec : CompactionSpec) : result unit :=
  if is_drain spec then mret tt
  else match tree_for_segment (db_state s) (spec_segment spec) with
  | None => Err InvalidCompaction
  | Some t =>
      _ ← rust_assert (negb (bool_decide (spec_sources spec = [])));
      if negb (window_of (spec_sources spec) (logical_order t)) then Err InvalidCompaction
      else match min_opt (sr_sources (spec_sources spec)) with
           | Some min_sr => if decide (spec_destination spec = Some min_sr) then mret tt else Err InvalidCompaction
           | None => mret tt
           end
  end.

Global Instance size_tiered_scheduler : CompactionScheduler := {|
  propose := size_tiered_propose;
  scheduler_validate := size_tiered_validate;
|}.
End size_tiered.
