(* ===== verification/CompactionSafety.v ===== *)
(** * Compactions keep the read order

    A tree is read newest data first: its L0s in order, then its sorted runs. This file shows that
    finishing a compaction whose sources are consecutive in that order, and whose output takes their
    place, leaves what a reader sees unchanged; that the specs the size-tiered scheduler proposes
    are of that form; and what validation alone does not rule out. *)

From S2P Require Export SizeTiered.

(** ** Trees *)

Definition runs_desc (l : list SortedRun) : Prop := StronglySorted (λ a b, (run_id b < run_id a)%Z) l.

Record tree_ok (t : LsmTreeState) : Prop := {
  tree_l0_unique : NoDup (view_id <$> l0 t);
  tree_runs_desc : runs_desc (compacted t);
  tree_runs_u32 : Forall (λ r, (run_id r < u32_max)%Z) (compacted t);
}.

Definition view_source (v : SsTableView) : SourceId := SourceSstView (view_id v).
Definition run_source (r : SortedRun) : SourceId := SourceSortedRun (run_id r).

Lemma l0_sources_app a b : l0_sources (a ++ b) = l0_sources a ++ l0_sources b.
Proof. apply omap_app. Qed.
Lemma sr_sources_app a b : sr_sources (a ++ b) = sr_sources a ++ sr_sources b.
Proof. apply omap_app. Qed.
Lemma l0_sources_views l : l0_sources (view_source <$> l) = view_id <$> l.
Proof. induction l as [|v l IH]; [done|]. cbn. unfold l0_sources in IH. by rewrite IH. Qed.
Lemma l0_sources_runs l : l0_sources (run_source <$> l) = [].
Proof. induction l as [|v l IH]; [done|]. cbn. unfold l0_sources in IH. by rewrite IH. Qed.
Lemma sr_sources_views l : sr_sources (view_source <$> l) = [].
Proof. induction l as [|v l IH]; [done|]. cbn. unfold sr_sources in IH. by rewrite IH. Qed.
Lemma sr_sources_runs l : sr_sources (run_source <$> l) = run_id <$> l.
Proof. induction l as [|v l IH]; [done|]. cbn. unfold sr_sources in IH. by rewrite IH. Qed.

(** The sources of a compaction as a split of the tree: [ls] are its oldest L0s, [rs] consecutive
    runs, and if it takes L0s then its runs are the newest ones. *)
Record split (t : LsmTreeState) (sources : list SourceId) (la ls : list SsTableView) (ra rs rb : list SortedRun) : Prop := {
  split_l0 : l0 t = la ++ ls;
  split_runs : compacted t = ra ++ rs ++ rb;
  split_sources : sources = (view_source <$> ls) ++ (run_source <$> rs);
  split_cross : ls ≠ [] → ra = [];
}.

(** A compaction that keeps the read order: its sources are consecutive, it takes the oldest L0s
    if it takes any, and its output goes in their place. *)
Definition order_safe (t : LsmTreeState) (sources : list SourceId) (dst : Z) : Prop :=
  ∃ la ls ra rs rb, split t sources la ls ra rs rb ∧ sources ≠ [] ∧
    match last rs with Some r => dst = run_id r | None => Forall (λ r, (run_id r < dst)%Z) (compacted t) end.

Lemma runs_desc_app a b :
  runs_desc (a ++ b) ↔ runs_desc a ∧ runs_desc b ∧ ∀ x y, x ∈ a → y ∈ b → (run_id y < run_id x)%Z.
Proof.
  unfold runs_desc. split.
  - intros (Hx & Ha & Hb)%StronglySorted_app. split_and!; [done|done|]. intros x y. apply Hx.
  - intros (Ha & Hb & Hx). by apply StronglySorted_app_2.
Qed.

(** ** The output takes the place of the input runs *)

Section replace.
  Context (output : SortedRun) (srs : list Z).

Lemma replace_inserted l : Forall (λ r, run_id r ∉ srs) l → replace_runs output srs true l = l.
Proof. induction 1 as [|r l Hr HF IH]; [done|]. cbn. rewrite decide_False by done. by rewrite IH. Qed.

Lemma replace_before a l :
  Forall (λ r, (run_id output < run_id r)%Z ∧ run_id r ∉ srs) a →
  replace_runs output srs false (a ++ l) = a ++ replace_runs output srs false l.
Proof.
  induction 1 as [|r a [Hlt Hr] HF IH]; [done|]. cbn. rewrite bool_decide_eq_false_2 by lia. cbn.
  rewrite decide_False by done. by rewrite IH.
Qed.

Lemma replace_dropped a l :
  Forall (λ r, (run_id output < run_id r)%Z ∧ run_id r ∈ srs) a →
  replace_runs output srs false (a ++ l) = replace_runs output srs false l.
Proof.
  induction 1 as [|r a [Hlt Hr] HF IH]; [done|]. cbn. rewrite bool_decide_eq_false_2 by lia. cbn.
  rewrite decide_True by done. by rewrite IH.
Qed.

Lemma replace_here l :
  Forall (λ r, (run_id r < run_id output)%Z ∧ run_id r ∉ srs) l → replace_runs output srs false l = output :: l.
Proof.
  intros HF. destruct l as [|r l]; [done|]. apply Forall_cons in HF as [[Hlt Hr] HF]. cbn.
  rewrite bool_decide_eq_true_2 by lia. cbn. rewrite decide_False by done. cbn. rewrite replace_inserted; [done|].
  eapply Forall_impl; [exact HF|]. by intros x [_ ?].
Qed.
End replace.

Lemma replace_split output ra rs rb dst :
  run_id output = dst → runs_desc (ra ++ rs ++ rb) →
  match last rs with Some r => dst = run_id r | None => ra = [] ∧ Forall (λ r, (run_id r < dst)%Z) rb end →
  replace_runs output ((run_id <$> rs) ++ [dst]) false (ra ++ rs ++ rb) = ra ++ output :: rb ∧ runs_desc (ra ++ output :: rb).
Proof.
  intros <- Hd Hdst. destruct (last rs) as [r|] eqn:Hlast.
  - apply last_Some in Hlast as [rs' ->]. apply runs_desc_app in Hd as (Ha & Hrest & Hab).
    apply runs_desc_app in Hrest as (Hrs & Hb & Hrb). apply runs_desc_app in Hrs as (Hrs' & _ & Hlow).
    assert (∀ x, x ∈ ra → (run_id output < run_id x)%Z) as Hra.
    { intros x Hx. rewrite Hdst. apply Hab; [done|]. set_solver. }
    assert (∀ x, x ∈ rb → (run_id x < run_id output)%Z) as Hrb'.
    { intros x Hx. rewrite Hdst. apply Hrb; [set_solver|done]. }
    assert (∀ x, x ∈ rs' → (run_id output < run_id x)%Z) as Hrs1.
    { intros x Hx. rewrite Hdst. apply Hlow; [done|set_solver]. }
    assert (∀ i, i ∈ (run_id <$> (rs' ++ [r])) ++ [run_id output] ↔ i = run_id output ∨ i ∈ run_id <$> rs') as Hin.
    { intros i. rewrite fmap_app, !elem_of_app, Hdst. cbn. set_solver. }
    split.
    + rewrite replace_before, <-app_assoc, replace_dropped.
      * cbn. rewrite bool_decide_eq_true_2 by lia. cbn. rewrite decide_True by (apply Hin; by left). cbn.
        rewrite replace_inserted; [done|]. apply Forall_forall. intros x Hx. rewrite Hin. specialize (Hrb' x Hx).
        intros [?|(y & Hy & Hy')%list_elem_of_fmap]; [lia|]. specialize (Hrs1 y Hy'). lia.
      * apply Forall_forall. intros x Hx. split; [by apply Hrs1|]. apply Hin. right. by apply list_elem_of_fmap_2.
      * apply Forall_forall. intros x Hx. split; [by apply Hra|]. rewrite Hin. specialize (Hra x Hx).
        intros [?|(y & Hy & Hy')%list_elem_of_fmap]; [lia|].
        specialize (Hab x y Hx ltac:(set_solver)). lia.
    + apply runs_desc_app. split_and!; [done| |].
      * constructor; [done|]. by apply Forall_forall.
      * intros x y Hx [->|Hy]%elem_of_cons; [by apply Hra|]. apply Hab; [done|set_solver].
  - apply last_None in Hlast as ->. destruct Hdst as [-> Hrb]. cbn. split.
    + apply replace_here. eapply Forall_impl; [exact Hrb|]. cbn. intros x Hx. split; [done|]. set_unfold. intros [?|?]; [lia|done].
    + constructor; [done|]. eapply Forall_impl; [exact Hrb|]. done.
Qed.

Lemma assert_below n l :
  runs_desc l → Forall (λ r, (run_id r < n)%Z) l → assert_ids_below n l = Ok tt.
Proof.
  intros Hd. revert n. induction Hd as [|r l Hd IH HF]; intros n Hn; [done|]. apply Forall_cons in Hn as [Hr Hn].
  cbn. rewrite bool_decide_eq_true_2 by done. run. by apply IH.
Qed.

(** ** The watermark *)

Lemma take_while_all {A} (p : A → bool) a b :
  Forall (λ x, p x = true) a → Forall (λ x, p x = false) b → take_while p (a ++ b) = a.
Proof.
  induction 1 as [|x a Hx HF IH]; intros Hb; cbn.
  - destruct Hb as [|x b Hx Hb]; [done|]. cbn. by rewrite Hx.
  - rewrite Hx. by rewrite IH.
Qed.

Lemma not_in_split la ls (v : SsTableView) : NoDup (view_id <$> (la ++ ls)) → v ∈ la → view_id v ∉ view_id <$> ls.
Proof. rewrite fmap_app. intros (_ & Hd & _)%NoDup_app Hv. apply Hd. by apply list_elem_of_fmap_2. Qed.

Lemma newest_compacted la ls :
  NoDup (view_id <$> (la ++ ls)) →
  last (take_while (λ v, bool_decide (view_id v ∈ view_id <$> ls)) (reverse (la ++ ls))) = head ls.
Proof.
  intros Hd. rewrite reverse_app, take_while_all, last_reverse; [done|..].
  - apply Forall_reverse, Forall_forall. intros v Hv. apply bool_decide_eq_true_2. by apply list_elem_of_fmap_2.
  - apply Forall_reverse, Forall_forall. intros v Hv. apply bool_decide_eq_false_2. by eapply not_in_split.
Qed.

Lemma filter_kept la ls :
  NoDup (view_id <$> (la ++ ls)) → filter (λ v, view_id v ∉ view_id <$> ls) (la ++ ls) = la.
Proof.
  intros Hd. rewrite filter_app, list_filter_all, list_filter_none; [apply app_nil_r|..].
  - apply Forall_forall. intros v Hv Hn. apply Hn. by apply list_elem_of_fmap_2.
  - apply Forall_forall. intros v Hv. by eapply not_in_split.
Qed.

(** The tree after a compaction whose sources split it. *)
Definition compacted_tree (t : LsmTreeState) (la ls : list SsTableView) (runs : list SortedRun) : LsmTreeState :=
  match head ls with
  | Some v => mkTree (Some (view_id v)) (Some (handle_id (view_sst v))) la runs
  | None => mkTree (last_compacted_l0_sst_view_id t) (last_compacted_l0_sst_id t) la runs
  end.

Lemma finish_split t sources la ls ra rs rb dst output :
  tree_ok t → split t sources la ls ra rs rb → sources ≠ [] → run_id output = dst → (dst < u32_max)%Z →
  match last rs with Some r => dst = run_id r | None => Forall (λ r, (run_id r < dst)%Z) (compacted t) end →
  finish_tree sources dst output t = Ok (compacted_tree t la ls (ra ++ output :: rb)) ∧
  tree_ok (compacted_tree t la ls (ra ++ output :: rb)).
Proof.
  intros [Hl0 Hdesc Hmax] [H1 H2 H3 H4] Hne Hout Hdst Hlast. rewrite H1 in Hl0. rewrite H2 in Hdesc, Hmax.
  assert (l0_sources sources = view_id <$> ls) as Hls.
  { by rewrite H3, l0_sources_app, l0_sources_views, l0_sources_runs, app_nil_r. }
  assert (sr_sources (sources ++ [SourceSortedRun dst]) = (run_id <$> rs) ++ [dst]) as Hrs.
  { by rewrite sr_sources_app, H3, sr_sources_app, sr_sources_views, sr_sources_runs. }
  destruct (replace_split output ra rs rb dst Hout Hdesc) as [Hrep Hd'].
  { destruct (last rs) as [r|] eqn:Hl; [done|]. apply last_None in Hl as ->. rewrite app_nil_r in H3.
    assert (ra = []) as -> by (apply H4; intros ->; by apply Hne). split; [done|]. by rewrite H2 in Hlast. }
  assert (Forall (λ r, (run_id r < u32_max)%Z) (ra ++ output :: rb)) as Hmax'.
  { rewrite !Forall_app in Hmax. destruct Hmax as (? & ? & ?). apply Forall_app. split; [done|]. constructor; [by rewrite Hout|done]. }
  split.
  - unfold finish_tree, assert_compacted_srs_in_id_order. rewrite Hls, Hrs, H1, H2, Hrep, assert_below by done. run.
    rewrite newest_compacted, filter_kept by done. by destruct ls.
  - unfold compacted_tree. destruct ls as [|v ls]; cbn; split; cbn; try done.
    + rewrite fmap_app in Hl0. by apply NoDup_app in Hl0 as [? _].
    + rewrite fmap_app in Hl0. by apply NoDup_app in Hl0 as [? _].
Qed.

(** ** Consecutive sources *)

Lemma window_of_spec sources order : window_of sources order = true → ∃ a b, order = a ++ sources ++ b.
Proof.
  induction order as [|x order IH]; [done|]. cbn [window_of]. intros [Hw|Hw]%orb_prop.
  - apply bool_decide_eq_true in Hw. exists [], (drop (length sources) (x :: order)). rewrite <-Hw at 1. symmetry. apply take_drop.
  - destruct (IH Hw) as (a & b & ->). by exists (x :: a), b.
Qed.

Lemma window_split t sources a b :
  NoDup (view_id <$> l0 t) → sources ≠ [] → logical_order t = a ++ sources ++ b →
  (l0_sources sources ≠ [] → ∀ v, last (l0 t) = Some v → view_id v ∈ l0_sources sources) →
  ∃ la ls ra rs rb, split t sources la ls ra rs rb.
Proof.
  intros Hd Hne Hw Hold. unfold logical_order in Hw. fold view_source run_source in Hw.
  change (λ v, SourceSstView (view_id v)) with view_source in Hw. change (λ sr, SourceSortedRun (run_id sr)) with run_source in Hw.
  apply app_eq_inv in Hw as [(k & HV & Hs)|(k & Ha & HR)].
  - apply fmap_app_inv in HV as (la & lk & -> & -> & Hl0). apply app_eq_inv in Hs as [(k2 & -> & HR)|(k2 & Hk & ->)].
    + apply fmap_app_inv in HR as (rs & rb & -> & -> & Hr). by exists la, lk, [], rs, rb.
    + apply fmap_app_inv in Hk as (ls & lb & -> & -> & ->). destruct (last lb) as [v|] eqn:Hlast.
      * exfalso. rewrite l0_sources_views in Hold. assert (view_id v ∈ view_id <$> ls) as Hin.
        { apply Hold; [by destruct ls|]. by rewrite Hl0, !last_app, Hlast. }
        rewrite Hl0, !fmap_app in Hd. apply NoDup_app in Hd as (_ & _ & (_ & Hd & _)%NoDup_app). apply (Hd _ Hin).
        apply last_Some in Hlast as [l' ->]. rewrite fmap_app. set_solver.
      * apply last_None in Hlast as ->. rewrite app_nil_r in Hl0. exists la, ls, [], [], (compacted t). split; [done|done| |done].
        by rewrite app_nil_r.
  - apply fmap_app_inv in HR as (ra & rest & -> & Hrest & Hr). symmetry in Hrest. apply fmap_app_inv in Hrest as (rs & rb & -> & -> & ->).
    exists (l0 t), [], ra, rs, rb. split; [by rewrite app_nil_r|done|done|done].
Qed.

Lemma min_opt_last rs r :
  runs_desc rs → last rs = Some r → min_opt (run_id <$> rs) = Some (run_id r).
Proof.
  intros Hd [rs' ->]%last_Some. apply runs_desc_app in Hd as (_ & _ & Hlow). unfold min_opt.
  destruct ((run_id <$> rs' ++ [r])) as [|x l] eqn:E; [destruct rs'; discriminate E|]. f_equal.
  destruct (foldl_min_spec l x) as (H1 & H2 & H3).
  assert (∀ y, y ∈ x :: l ↔ y = run_id r ∨ y ∈ run_id <$> rs') as Hin.
  { intros y. rewrite <-E, fmap_app. set_solver. }
  assert (∀ y, y ∈ x :: l → (foldl Z.min x l ≤ y)%Z) as Hle.
  { intros y [->|Hy]%elem_of_cons; [done|]. rewrite Forall_forall in H2. by apply H2. }
  pose proof (Hle (run_id r) (proj2 (Hin _) (or_introl eq_refl))).
  assert (foldl Z.min x l ∈ x :: l) as [->|(y & Ey & Hy)%list_elem_of_fmap]%Hin by (destruct H3 as [->|]; set_solver); [done|].
  specialize (Hlow y r Hy ltac:(set_solver)). lia.
Qed.

Lemma next_after_above ids d i : i ∈ ids → (next_after ids ≤ d)%Z → (i < d)%Z.
Proof.
  unfold next_after, max_opt. destruct ids as [|x l]; [set_solver|]. destruct (foldl_max_spec l x) as [H1 H2]. rewrite Forall_forall in H2.
  intros [->|Hi]%elem_of_cons Hd; [lia|]. specialize (H2 i Hi). lia.
Qed.

Lemma tree_for_segment_alt c p :
  segs_ok (segments c) → tree_for_segment c p = if decide (p = []) then Some (tree c) else seg_at p (segments c).
Proof.
  intros Hok. unfold tree_for_segment. destruct (decide (p = [])); [done|]. pose proof (find_segment_spec p _ Hok) as Hf.
  destruct (find_segment p (segments c)) as [i|i].
  - destruct Hf as (s & Hs & <-). rewrite Hs. cbn. symmetry. by eapply seg_at_lookup.
  - destruct Hf as (_ & Hlow & Hhigh). rewrite <-(take_drop i (segments c)), seg_at_app, !seg_at_None; [done|..].
    + eapply Forall_impl; [exact Hhigh|]. cbn. intros s Hs E. rewrite E in Hs. by apply ord_lt_irrefl in Hs.
    + eapply Forall_impl; [exact Hlow|]. cbn. intros s Hs E. rewrite E in Hs. by apply ord_lt_irrefl in Hs.
Qed.

Lemma seg_at_elem p l t : seg_at p l = Some t → mkSegment p t ∈ l.
Proof.
  induction l as [|s l IH]; [done|]. cbn. destruct (decide (seg_prefix s = p)) as [<-|].
  - intros [= <-]. destruct s. set_solver.
  - intros Hs. specialize (IH Hs). set_solver.
Qed.

Lemma tree_in_trees c p t : segs_ok (segments c) → tree_for_segment c p = Some t → t ∈ trees c.
Proof.
  intros Hok. rewrite tree_for_segment_alt by done. unfold trees. destruct (decide (p = [])).
  - intros [= <-]. set_solver.
  - intros Hs%seg_at_elem. apply elem_of_cons. right. by apply (list_elem_of_fmap_2 seg_tree) in Hs.
Qed.

(** ** What validation establishes *)

Lemma has_l0_spec spec : has_l0_sources spec = true ↔ l0_sources (spec_sources spec) ≠ [].
Proof.
  unfold has_l0_sources, l0_sources. induction (spec_sources spec) as [|[id|id] l IH]; cbn; [done|exact IH|done].
Qed.
Lemma has_sr_spec spec : has_sr_sources spec = true ↔ sr_sources (spec_sources spec) ≠ [].
Proof.
  unfold has_sr_sources, sr_sources. induction (spec_sources spec) as [|[id|id] l IH]; cbn; [done|done|exact IH].
Qed.

Lemma validate_inv `{CompactionScheduler} s c t :
  tree_for_segment (db_state s) (spec_segment (comp_spec c)) = Some t → validate_compaction s c = Ok tt →
  spec_sources (comp_spec c) ≠ [] ∧ validate_l0_destination c (db_state s) t = Ok tt ∧ scheduler_validate s (comp_spec c) = Ok tt.
Proof.
  intros Ht. unfold validate_compaction. destruct (decide (spec_sources (comp_spec c) = [])); [done|]. rewrite Ht.
  destruct (is_drain _ && _); [done|]. intros (views & _ & Hv)%bind_Ok_inv. destruct (existsb _ (spec_sources _)); [done|].
  apply bind_Ok_inv in Hv as ([] & Hdst & Hv). apply bind_Ok_inv in Hv as (? & _ & Hv). apply bind_Ok_inv in Hv as (? & _ & Hv).
  destruct (has_l0_sources _ && existsb _ _); [done|]. destruct (scheduler_validate s (comp_spec c)) as [[]| | |]; done.
Qed.

Section validated.
  Context (visible_size : SsTableView → Z) (visible_run_size : SortedRun → Z) (scaled : Z → Z)
    (o : SizeTieredOptions) (max_concurrent : nat).
Let scheduler : CompactionScheduler := size_tiered_scheduler visible_size visible_run_size scaled o max_concurrent.

Lemma validated_order_safe s c t segment sources dst :
  segs_ok (segments (db_state s)) → comp_spec c = Tiered segment sources dst →
  tree_for_segment (db_state s) segment = Some t → tree_ok t →
  @validate_compaction scheduler s c = Ok tt →
  (l0_sources sources ≠ [] → ∀ v, last (l0 t) = Some v → view_id v ∈ l0_sources sources) →
  order_safe t sources dst.
Proof.
  intros Hsegs Hspec Ht Hok Hval Hold. destruct (@validate_inv scheduler s c t) as (Hne & Hdst & Hsched); [by rewrite Hspec|done|].
  rewrite Hspec in Hne, Hsched. cbn in Hne. unfold scheduler, scheduler_validate, size_tiered_scheduler, size_tiered_validate in Hsched.
  cbn [is_drain spec_segment spec_sources] in Hsched. rewrite Ht in Hsched. apply bind_Ok_inv in Hsched as ([] & _ & Hsched).
  destruct (window_of sources (logical_order t)) eqn:Hw; [|done]. cbn [negb] in Hsched.
  destruct (window_of_spec _ _ Hw) as (a & b & Hab).
  destruct (window_split t sources a b) as (la & ls & ra & rs & rb & Hsplit); [apply Hok|done..|].
  exists la, ls, ra, rs, rb. split_and!; [done|done|]. pose proof (tree_runs_desc t Hok) as Hdesc. rewrite (split_runs _ _ _ _ _ _ _ Hsplit) in Hdesc.
  apply runs_desc_app in Hdesc as (_ & (Hrs & _ & _)%runs_desc_app & _).
  assert (sr_sources sources = run_id <$> rs) as Hsr.
  { by rewrite (split_sources _ _ _ _ _ _ _ Hsplit), sr_sources_app, sr_sources_views, sr_sources_runs. }
  rewrite Hsr in Hsched. destruct (last rs) as [r|] eqn:Hlast.
  - rewrite (min_opt_last rs r Hrs Hlast) in Hsched. cbn [spec_destination] in Hsched.
    destruct (decide (Some dst = Some (run_id r))) as [[= ->]|]; done.
  - apply last_None in Hlast as ->. unfold validate_l0_destination in Hdst.
    assert (has_sr_sources (comp_spec c) = false) as Hnsr.
    { destruct (has_sr_sources (comp_spec c)) eqn:E; [|done]. apply has_sr_spec in E. rewrite Hspec in E. cbn [spec_sources] in E. by rewrite Hsr in E. }
    assert (has_l0_sources (comp_spec c) = true) as Hl0.
    { apply has_l0_spec. rewrite Hspec. cbn [spec_sources]. rewrite (split_sources _ _ _ _ _ _ _ Hsplit) in Hne |- *.
      rewrite fmap_nil, app_nil_r in Hne |- *. rewrite l0_sources_views. by destruct ls. }
    rewrite Hl0, Hnsr, Hspec in Hdst. cbn [andb negb spec_destination] in Hdst. apply Forall_forall. intros r Hr. destruct (comp_status c); try done; revert Hdst; run; intros Hdst.
    + case_decide; [done|]. apply (next_after_above (run_id <$> (trees (db_state s) ≫= compacted))); [|lia].
      apply list_elem_of_fmap_2, list_elem_of_bind. exists t. split; [done|]. by eapply tree_in_trees.
    + case_decide; [done|]. apply (next_after_above (run_id <$> compacted t)); [|lia]. by apply list_elem_of_fmap_2.
Qed.
End validated.

(** ** Replacing one tree *)

Lemma prefixes_set_segment l i t : seg_prefix <$> set_segment_tree l i t = seg_prefix <$> l.
Proof.
  unfold set_segment_tree. apply list_eq. intros j. rewrite !list_lookup_fmap. destruct (decide (i = j)) as [->|].
  - rewrite list_lookup_alter_eq. by destruct (l !! j).
  - by rewrite list_lookup_alter_ne.
Qed.

Lemma seg_at_set_segment l i s t q :
  segs_ok l → l !! i = Some s →
  seg_at q (set_segment_tree l i t) = if decide (q = seg_prefix s) then Some t else seg_at q l.
Proof.
  intros Hok Hs. destruct (decide (q = seg_prefix s)) as [->|Hne].
  - change (seg_prefix s) with (seg_prefix (mkSegment (seg_prefix s) t)). rewrite (seg_at_lookup _ i (mkSegment (seg_prefix s) t)); [done|..].
    + apply segs_ok_prefixes. rewrite prefixes_set_segment. by apply segs_ok_prefixes.
    + unfold set_segment_tree. by rewrite list_lookup_alter_eq, Hs.
  - clear Hok. revert i Hs. induction l as [|x l IH]; intros [|i] Hs; try done; cbn in *; simplify_eq.
    + by rewrite !decide_False by done.
    + unfold set_segment_tree in IH. destruct (decide (seg_prefix x = q)); [done|]. by apply IH.
Qed.

Lemma update_tree_spec c p t f :
  segs_ok (segments c) → tree_for_segment c p = Some t →
  ∃ c', update_tree_for_segment c p f = Some c' ∧ seg_prefix <$> segments c' = seg_prefix <$> segments c ∧
    tree_for_segment c' p = Some (f t) ∧ ∀ q, q ≠ p → tree_for_segment c' q = tree_for_segment c q.
Proof.
  intros Hok Ht. unfold update_tree_for_segment. unfold tree_for_segment in Ht. destruct (decide (p = [])) as [->|Hp].
  { injection Ht as <-. eexists. split_and!; [done|done|done|]. intros q Hq. unfold tree_for_segment. by rewrite !decide_False by done. }
  pose proof (find_segment_spec p _ Hok) as Hf. destruct (find_segment p (segments c)) as [i|i]; [|done].
  destruct Hf as (s & Hs & <-). rewrite Hs in Ht |- *. cbn in Ht |- *. injection Ht as <-.
  assert (segs_ok (set_segment_tree (segments c) i (f (seg_tree s)))) as Hok'.
  { apply segs_ok_prefixes. rewrite prefixes_set_segment. by apply segs_ok_prefixes. }
  eexists. split_and!; [done|apply prefixes_set_segment|..].
  - rewrite tree_for_segment_alt by done. rewrite decide_False by done. cbn [segments set_segments].
    rewrite (seg_at_set_segment _ _ s) by done. by rewrite decide_True.
  - intros q Hq. rewrite !tree_for_segment_alt by done. destruct (decide (q = [])); [done|]. cbn [segments set_segments].
    rewrite (seg_at_set_segment _ _ s) by done. by rewrite decide_False.
Qed.

Lemma update_compaction_get id f s c :
  compactions_get (cs_compactions s) id = Some c →
  compactions_get (cs_compactions (update_compaction id f s)) id = Some (f c) ∧ db_state (update_compaction id f s) = db_state s.
Proof. intros Hc. unfold update_compaction. rewrite Hc. split; [|done]. apply bm_get_insert. Qed.

(** ** What a reader sees *)

Section layers.
  Context {L : Type} (of_view : SsTableView → list L) (of_run : SortedRun → list L).

(** The data of a tree, newest first. *)
Definition layers (t : LsmTreeState) : list L := (l0 t ≫= of_view) ++ (compacted t ≫= of_run).

(** The data of one source of a compaction. *)
Definition source_layers (t : LsmTreeState) (src : SourceId) : list L :=
  match src with
  | SourceSstView id => filter (λ v, view_id v = id) (l0 t) ≫= of_view
  | SourceSortedRun id => filter (λ r, run_id r = id) (compacted t) ≫= of_run
  end.

Lemma filter_unique {A} (f : A → Z) a x b :
  NoDup (f <$> (a ++ x :: b)) → filter (λ y, f y = f x) (a ++ x :: b) = [x].
Proof.
  rewrite fmap_app, fmap_cons. intros (_ & Ha & [Hb _]%NoDup_cons)%NoDup_app. rewrite filter_app, filter_cons_True by done.
  rewrite !list_filter_none; [done|..]; apply Forall_forall; intros y Hy E.
  - apply Hb. rewrite <-E. by apply list_elem_of_fmap_2.
  - apply (Ha (f y)); [by apply list_elem_of_fmap_2|]. rewrite E. set_solver.
Qed.

Lemma runs_desc_unique l : runs_desc l → NoDup (run_id <$> l).
Proof.
  induction 1 as [|r l Hd IH HF]; [constructor|]. cbn. constructor; [|done].
  intros (x & E & Hx)%list_elem_of_fmap. rewrite Forall_forall in HF. specialize (HF x Hx). lia.
Qed.

Lemma views_layers t la ls lb : l0 t = la ++ ls ++ lb → NoDup (view_id <$> l0 t) → (view_source <$> ls) ≫= source_layers t = ls ≫= of_view.
Proof.
  revert la. induction ls as [|v ls IH]; intros la Hl Hd; [done|]. cbn [fmap list_fmap]. rewrite !bind_cons. f_equal.
  - cbn. rewrite Hl in Hd |- *. cbn [app] in Hd |- *. rewrite (filter_unique view_id la v (ls ++ lb)) by done. cbn. by rewrite app_nil_r.
  - apply (IH (la ++ [v])); [by rewrite <-app_assoc|done].
Qed.

Lemma runs_layers t ra rs rb :
  compacted t = ra ++ rs ++ rb → runs_desc (compacted t) → (run_source <$> rs) ≫= source_layers t = rs ≫= of_run.
Proof.
  revert ra. induction rs as [|r rs IH]; intros ra Hl Hd; [done|]. cbn [fmap list_fmap]. rewrite !bind_cons. f_equal.
  - cbn. apply runs_desc_unique in Hd. rewrite Hl in Hd |- *. cbn [app] in Hd |- *.
    rewrite (filter_unique run_id ra r (rs ++ rb)) by done. cbn. by rewrite app_nil_r.
  - apply (IH (ra ++ [r])); [by rewrite <-app_assoc|done].
Qed.

Lemma split_layers t sources la ls ra rs rb output :
  tree_ok t → split t sources la ls ra rs rb → of_run output = sources ≫= source_layers t →
  layers (compacted_tree t la ls (ra ++ output :: rb)) = layers t.
Proof.
  intros Hok [H1 H2 H3 H4] Hout. unfold layers.
  assert (of_run output = (ls ≫= of_view) ++ (rs ≫= of_run)) as Ho.
  { rewrite Hout, H3, bind_app, (views_layers t la ls []), (runs_layers t ra rs rb); [done|done|apply Hok|by rewrite app_nil_r|apply Hok]. }
  assert (l0 (compacted_tree t la ls (ra ++ output :: rb)) = la ∧ compacted (compacted_tree t la ls (ra ++ output :: rb)) = ra ++ output :: rb) as [-> ->].
  { unfold compacted_tree. by destruct (head ls). }
  rewrite H1, H2, !bind_app, bind_cons, Ho, <-!app_assoc. f_equal.
  destruct ls as [|v ls]; [done|]. rewrite H4 by done. done.
Qed.

(** Finishing a compaction whose sources keep the read order. *)
Lemma finish_shape s c t segment sources dst output :
  segs_ok (segments (db_state s)) → compactions_get (cs_compactions s) (comp_id c) = Some c →
  comp_spec c = Tiered segment sources dst → tree_for_segment (db_state s) segment = Some t → tree_ok t →
  order_safe t sources dst → run_id output = dst → (dst < u32_max)%Z →
  ∃ s' la ls ra rs rb, finish_compaction s (comp_id c) output = Ok s' ∧ split t sources la ls ra rs rb ∧
    seg_prefix <$> segments (db_state s') = seg_prefix <$> segments (db_state s) ∧
    tree_for_segment (db_state s') segment = Some (compacted_tree t la ls (ra ++ output :: rb)) ∧
    tree_ok (compacted_tree t la ls (ra ++ output :: rb)) ∧
    (∀ p, p ≠ segment → tree_for_segment (db_state s') p = tree_for_segment (db_state s) p) ∧
    comp_status <$> compactions_get (cs_compactions s') (comp_id c) = Some Completed.
Proof.
  intros Hsegs Hget Hspec Ht Hok (la & ls & ra & rs & rb & Hsplit & Hne & Hlast) Hid Hmax.
  destruct (finish_split t sources la ls ra rs rb dst output Hok Hsplit Hne Hid Hmax Hlast) as [Hfin Hok'].
  destruct (update_tree_spec (db_state s) segment t (λ _, compacted_tree t la ls (ra ++ output :: rb)) Hsegs Ht) as (c' & Hc' & Hpre & Htree & Hother).
  unfold finish_compaction. rewrite Hget, Hspec. cbn [spec_destination spec_sources spec_segment]. run.
  rewrite bool_decide_eq_false_2 by done. cbn [negb]. run. rewrite Ht, Hfin. run. rewrite Hc'. run.
  destruct (update_compaction_get (comp_id c) (set_status Completed) (set_core s c') c Hget) as [Hst Hdb].
  eexists _, la, ls, ra, rs, rb. split_and!; [done|done| | |done| |].
  - by rewrite Hdb.
  - by rewrite Hdb.
  - intros p Hp. rewrite Hdb. by apply Hother.
  - by rewrite Hst.
Qed.
End layers.

(** C10: Finishing a compaction keeps the read order. Take any tiered job that validation (the
    compactor's and the size-tiered scheduler's) accepts and that names the oldest L0 if it names any
    L0; let its output hold the data of its sources in order. Then [finish_compaction] succeeds, the
    tree reads exactly the same data in the same order, its runs stay in descending order, no other
    tree changes and the job is [Completed]. *)
Theorem compaction_keeps_read_order {L} (of_view : SsTableView → list L) (of_run : SortedRun → list L)
    visible_size visible_run_size scaled o max_concurrent s c t segment sources dst output :
  segs_ok (segments (db_state s)) → compactions_get (cs_compactions s) (comp_id c) = Some c →
  comp_spec c = Tiered segment sources dst → tree_for_segment (db_state s) segment = Some t → tree_ok t →
  @validate_compaction (size_tiered_scheduler visible_size visible_run_size scaled o max_concurrent) s c = Ok tt →
  (l0_sources sources ≠ [] → ∀ v, last (l0 t) = Some v → view_id v ∈ l0_sources sources) →
  run_id output = dst → (dst < u32_max)%Z → of_run output = sources ≫= source_layers of_view of_run t →
  ∃ s' t', finish_compaction s (comp_id c) output = Ok s' ∧
    tree_for_segment (db_state s') segment = Some t' ∧ tree_ok t' ∧ layers of_view of_run t' = layers of_view of_run t ∧
    (∀ p, p ≠ segment → tree_for_segment (db_state s') p = tree_for_segment (db_state s) p) ∧
    comp_status <$> compactions_get (cs_compactions s') (comp_id c) = Some Completed.
Proof.
  intros Hsegs Hget Hspec Ht Hok Hval Hold Hid Hmax Hout.
  destruct (finish_shape s c t segment sources dst output) as (s' & la & ls & ra & rs & rb & Hs & Hsplit & _ & Ht' & Hok' & Hother & Hst);
    [done..|by eapply validated_order_safe|done|done|].
  exists s', (compacted_tree t la ls (ra ++ output :: rb)). split_and!; try done. by eapply split_layers.
Qed.

(** ** Validation alone *)

Definition ids_of_view (v : SsTableView) : list Ulid := [view_id v].
Definition ids_of_run (r : SortedRun) : list Ulid := view_id <$> sst_views r.

Definition example_state (t : LsmTreeState) (spec : CompactionSpec) (status : CompactionStatus) : CompactorState :=
  mkCompactorState (manifest_initial (set_tree core_new t))
    (compactions_insert (set_status status (compaction_new 9 spec)) (compactions_new 0)).

(** C34: Validation does not require the oldest L0. A submitted job that takes the two newest of
    three L0s is accepted by the compactor and the size-tiered scheduler; once it is finished, the
    oldest L0 is read before the newer data of the output run. *)
Theorem validation_admits_reordering visible_size visible_run_size scaled o max_concurrent :
  let t := demo_tree None [3%Z; 2%Z; 1%Z] in
  let spec := Tiered [] [SourceSstView 3; SourceSstView 2] 0 in
  let s := example_state t spec Submitted in
  let output := mkRun 0 (take 2 (l0 t)) in
  tree_ok t ∧
  @validate_compaction (size_tiered_scheduler visible_size visible_run_size scaled o max_concurrent) s (compaction_new 9 spec) = Ok tt ∧
  ids_of_run output = spec_sources spec ≫= source_layers ids_of_view ids_of_run t ∧
  ∃ s' t', finish_compaction s 9 output = Ok s' ∧ tree_for_segment (db_state s') [] = Some t' ∧
    layers ids_of_view ids_of_run t = [3; 2; 1]%Z ∧ layers ids_of_view ids_of_run t' = [1; 3; 2]%Z.
Proof.
  cbn zeta. split_and!.
  - split; cbn; repeat constructor; set_solver.
  - reflexivity.
  - reflexivity.
  - eexists _, _. split_and!; reflexivity.
Qed.

Lemma compaction_keeps_read_order_witness :
  let t := demo_tree None [3%Z; 2%Z; 1%Z] in
  let spec := Tiered [] [SourceSstView 2; SourceSstView 1] 0 in
  ∃ s' t', finish_compaction (example_state t spec StatusCompacted) 9 (mkRun 0 (drop 1 (l0 t))) = Ok s' ∧
    tree_for_segment (db_state s') [] = Some t' ∧ layers ids_of_view ids_of_run t' = [3; 2; 1]%Z.
Proof.
  cbn zeta. set (t := demo_tree None [3%Z; 2%Z; 1%Z]). set (spec := Tiered [] [SourceSstView 2; SourceSstView 1] 0).
  destruct (compaction_keeps_read_order ids_of_view ids_of_run (λ _, 0%Z) (λ _, 0%Z) (λ z, z) (mkSizeTieredOptions 4 8 0) 4
    (example_state t spec StatusCompacted) (set_status StatusCompacted (compaction_new 9 spec)) t [] [SourceSstView 2; SourceSstView 1] 0
    (mkRun 0 (drop 1 (l0 t)))) as (s' & t' & Hs & Ht & _ & Hl & _).
  - constructor.
  - reflexivity.
  - reflexivity.
  - reflexivity.
  - split; cbn; repeat constructor; set_solver.
  - reflexivity.
  - intros _ v [= <-]. set_solver.
  - reflexivity.
  - reflexivity.
  - reflexivity.
  - exists s', t'. split_and!; [exact Hs|exact Ht|exact Hl].
Defined.
