(* ===== verification/SchedulerSafety.v ===== *)
(** * What the size-tiered scheduler proposes

    Every proposal keeps the read order of its tree, takes no source of a job that is already
    active or proposed, and the proposals fit the free slots; proposing always terminates. *)

From S2P Require Export CompactionSafety.

Section proposals.
  Context (visible_size : SsTableView → Z) (visible_run_size : SortedRun → Z) (scaled : Z → Z).
  Context (o : SizeTieredOptions) (max_concurrent : nat).
  Context (Hmin : 1 ≤ min_compaction_sources o) (Hmax : 1 ≤ max_compaction_sources o).

Definition run_compaction_source (r : SortedRun) : CompactionSource := mkSource (run_source r) (visible_run_size r).
Definition view_compaction_source (v : SsTableView) : CompactionSource := mkSource (view_source v) (visible_size v).

(** ** Building a run *)

Lemma check_estimated_ok bp n (rest : list SortedRun) :
  ∃ b, check_estimated_size scaled bp n (head (run_compaction_source <$> rest)) = Ok b.
Proof.
  unfold check_estimated_size. destruct rest as [|r rest]; cbn; [by eexists|]. destruct (decide _); [|by eexists].
  unfold unwrap_sorted_run. cbn. by eexists.
Qed.

Lemma build_run_ok filtered checker limit m e n runs :
  ∃ taken rest, runs = taken ++ rest ∧
    build_run scaled filtered checker limit m e n (run_compaction_source <$> runs) = Ok (run_compaction_source <$> taken) ∧
    (∀ ts, checker = Some ts → Forall (λ r, run_source r ∉ ts_conflicts ts) taken).
Proof.
  revert m e n. induction runs as [|r runs IH]; intros m e n; cbn [build_run fmap list_fmap].
  { exists [], []. done. }
  assert (∃ taken rest, r :: runs = taken ++ rest ∧ @mret result _ _ [] = Ok (run_compaction_source <$> taken) ∧
    ∀ ts, checker = Some ts → Forall (λ r, run_source r ∉ ts_conflicts ts) taken) as Hstop by (by exists [], (r :: runs)).
  destruct (match limit with Some limit => bool_decide (limit ≤ n) | None => false end); [done|].
  destruct (match m with Some m => filtered && bool_decide (scaled m < source_size (run_compaction_source r))%Z | None => false end); [done|].
  destruct checker as [ts|].
  - unfold unwrap_sorted_run. cbn [source run_compaction_source run_source maybe_unwrap_sorted_run]. run.
    destruct (check_source (ts_conflicts ts) (SourceSortedRun (run_id r))) eqn:Hc; cbn [negb]; [|done].
    destruct (check_estimated_ok (ts_bp ts) (wrap 64 (e + source_size (run_compaction_source r))) runs) as [[] Hb]; rewrite Hb; run; [|done].
    destruct (IH (if filtered then Some match m with Some m => (m `min` source_size (run_compaction_source r))%Z | None => source_size (run_compaction_source r) end else m)
      (wrap 64 (e + source_size (run_compaction_source r))) (S n)) as (taken & rest & -> & Hl & Hf).
    rewrite Hl. run. exists (r :: taken), rest. split_and!; [done|done|]. intros ts' [= <-]. constructor; [|by apply Hf].
    unfold check_source in Hc. apply negb_true_iff, bool_decide_eq_false in Hc. done.
  - destruct (IH (if filtered then Some match m with Some m => (m `min` source_size (run_compaction_source r))%Z | None => source_size (run_compaction_source r) end else m)
      e (S n)) as (taken & rest & -> & Hl & Hf).
    rewrite Hl. run. exists (r :: taken), rest. split_and!; [done|done|]. done.
Qed.

Lemma build_compactable_ok filtered checker limit runs i :
  ∃ before taken rest, runs = before ++ taken ++ rest ∧
    build_compactable_run scaled filtered (run_compaction_source <$> runs) i checker limit = Ok (run_compaction_source <$> taken) ∧
    (∀ ts, checker = Some ts → Forall (λ r, run_source r ∉ ts_conflicts ts) taken).
Proof.
  unfold build_compactable_run. rewrite <-fmap_drop.
  destruct (build_run_ok filtered checker limit None 0 0 (drop i runs)) as (taken & rest & Hr & Hb & Hf).
  exists (take i runs), taken, rest. split_and!; [|done|done]. by rewrite <-Hr, take_drop.
Qed.

Lemma bp_new_ok n runs : ∃ bp, bp_new scaled n (run_compaction_source <$> runs) = Ok bp.
Proof.
  unfold bp_new. enough (∀ all i rest m, ∃ m', bp_runs scaled (run_compaction_source <$> all) i (run_compaction_source <$> rest) m = Ok m') as Hx.
  { destruct (Hx runs 0 runs ∅) as [m ->]. run. by eexists. }
  intros all i rest. revert i. induction rest as [|r rest IH]; intros i m; cbn; [by eexists|].
  unfold unwrap_sorted_run. cbn. run. destruct (build_compactable_ok true None None all i) as (? & taken & ? & _ & -> & _). run. apply IH.
Qed.

(** ** One pick *)

(** A proposal for a tree: it keeps the read order and takes no source in use. *)
Record good_pick (prefix : bytes) (t : LsmTreeState) (used : list SourceId) (spec : CompactionSpec) : Prop := {
  pick_tiered : ∃ sources dst, spec = Tiered prefix sources dst ∧ order_safe t sources dst ∧ (dst < u32_max)%Z;
  pick_unused : Forall (λ src, src ∉ used) (spec_sources spec);
}.

Record plans (ts : TreeState) (t : LsmTreeState) : Prop := {
  plan_l0 : ts_l0 ts = view_compaction_source <$> l0 t;
  plan_srs : ts_srs ts = run_compaction_source <$> compacted t;
  plan_ok : tree_ok t;
}.

Lemma sources_of_runs (l : list SortedRun) : source <$> (run_compaction_source <$> l) = run_source <$> l.
Proof. by rewrite <-list_fmap_compose. Qed.
Lemma sources_of_views (l : list SsTableView) : source <$> (view_compaction_source <$> l) = view_source <$> l.
Proof. by rewrite <-list_fmap_compose. Qed.

Lemma good_runs ts t before taken rest :
  plans ts t → compacted t = before ++ taken ++ rest → taken ≠ [] → Forall (λ r, run_source r ∉ ts_conflicts ts) taken →
  ∃ spec, create_sorted_run_compaction (ts_prefix ts) (run_compaction_source <$> taken) = Ok spec ∧
    good_pick (ts_prefix ts) t (ts_conflicts ts) spec.
Proof.
  intros [Hl0 Hsrs Hok] Hc Hne Hf. unfold create_sorted_run_compaction.
  destruct (last taken) as [r|] eqn:Hlast; [|by apply last_None in Hlast].
  rewrite fmap_last, Hlast. cbn [fmap option_fmap option_map]. run. unfold unwrap_sorted_run. cbn. run. eexists. split; [done|].
  unfold create_compaction. rewrite sources_of_runs. split.
  - exists (run_source <$> taken), (run_id r). split_and!; [done| |].
    + exists (l0 t), [], before, taken, rest. split_and!.
      * split; [by rewrite app_nil_r|done|done|done].
      * by destruct taken.
      * by rewrite Hlast.
    + pose proof (tree_runs_u32 t Hok) as Hu. rewrite Forall_forall in Hu. apply Hu. rewrite Hc. apply last_Some in Hlast as [? ->]. set_solver.
  - cbn. apply Forall_fmap. exact Hf.
Qed.

Lemma pick_lower_ok ts t n i :
  plans ts t → ∃ r, pick_lower scaled o ts n i = Ok r ∧ ∀ spec, r = Some spec → good_pick (ts_prefix ts) t (ts_conflicts ts) spec.
Proof using Hmin Hmax.
  intros Hp. revert i. induction n as [|n IH]; intros i; cbn [pick_lower]; [by eexists|].
  destruct (build_compactable_ok true (Some ts) None (compacted t) i) as (before & taken & rest & Hc & Hb & Hf).
  rewrite (plan_srs _ _ Hp), Hb. run. unfold clamp_min. rewrite length_fmap. destruct (decide (length taken < _)); [apply IH|].
  unfold clamp_max. rewrite length_fmap, <-fmap_drop. set (k := length taken - max_compaction_sources o).
  destruct (good_runs ts t (before ++ take k taken) (drop k taken) rest) as (spec & -> & Hg); [done|..].
  - rewrite Hc, <-app_assoc. f_equal. by rewrite app_assoc, take_drop.
  - intros E%(f_equal length). rewrite length_drop in E. cbn in E. lia.
  - specialize (Hf ts eq_refl). by apply Forall_drop.
  - run. eexists. split; [done|]. by intros ? [= <-].
Qed.

Lemma pick_consolidation_ok ts t limit n i :
  plans ts t → ∃ r, pick_consolidation scaled ts limit n i = Ok r ∧ ∀ spec, r = Some spec → good_pick (ts_prefix ts) t (ts_conflicts ts) spec.
Proof.
  intros Hp. revert i. induction n as [|n IH]; intros i; cbn [pick_consolidation]; [by eexists|].
  destruct (build_compactable_ok false (Some ts) (Some limit) (compacted t) i) as (before & taken & rest & Hc & Hb & Hf).
  rewrite (plan_srs _ _ Hp), Hb. run. rewrite length_fmap. destruct (decide (2 ≤ length taken)); [|apply IH].
  destruct (good_runs ts t before taken rest) as (spec & -> & Hg); [done|done|intros ->; cbn in *; lia|by apply Hf|].
  run. eexists. split; [done|]. by intros ? [= <-].
Qed.

Lemma pick_l0_ok ts t next :
  plans ts t → Forall (λ r, (run_id r < next)%Z) (compacted t) → (next < u32_max)%Z →
  ∃ r, pick_l0 scaled o ts next = Ok r ∧
    ∀ l, r = Some l → good_pick (ts_prefix ts) t (ts_conflicts ts) (create_compaction (ts_prefix ts) l next).
Proof using Hmin Hmax.
  intros [Hl0 Hsrs Hok] Hnext Hu. unfold pick_l0, clamp_min. rewrite Hl0, length_fmap. destruct (decide (length (l0 t) < _)) as [|Hlen]; [by eexists|].
  unfold clamp_max. rewrite length_fmap, <-fmap_drop. set (k := length (l0 t) - max_compaction_sources o).
  unfold ts_check_compaction. destruct (conflicts_check_compaction _ _ next) eqn:Hc; [|run; by eexists].
  unfold bp_check_compaction. rewrite Hsrs. edestruct check_estimated_ok as [b Hb]. rewrite Hb. run. eexists. split; [done|].
  destruct b; [|done]. intros l [= <-]. unfold create_compaction. rewrite sources_of_views. split.
  - exists (view_source <$> drop k (l0 t)), next. split_and!; [done| |done].
    exists (take k (l0 t)), (drop k (l0 t)), [], [], (compacted t). split_and!; [|..].
    + split; [by rewrite take_drop|done|by rewrite app_nil_r|done].
    + intros E%(f_equal length). rewrite length_fmap, length_drop in E. cbn in E. lia.
    + done.
  - cbn. unfold conflicts_check_compaction in Hc. apply andb_prop in Hc as [Hc _]. rewrite forallb_forall in Hc.
    apply Forall_fmap, Forall_forall. intros v Hv. specialize (Hc (view_compaction_source v)). cbn in Hc.
    unfold check_source in Hc. rewrite negb_true_iff, bool_decide_eq_false in Hc. apply Hc. apply list_elem_of_In. by apply list_elem_of_fmap_2.
Qed.

Lemma pick_next_ok ts t next :
  plans ts t → Forall (λ r, (run_id r < next)%Z) (compacted t) → (next < u32_max)%Z →
  ∃ r, pick_next_compaction scaled o ts next = Ok r ∧ (next ≤ r.2)%Z ∧
    (r.2 ≤ next + match r.1 with Some _ => 1 | None => 0 end)%Z ∧
    ∀ spec, r.1 = Some spec → good_pick (ts_prefix ts) t (ts_conflicts ts) spec.
Proof using Hmin Hmax.
  intros Hp Hnext Hu. unfold pick_next_compaction. destruct (pick_l0_ok ts t next Hp Hnext Hu) as ([l|] & -> & Hl); run.
  { eexists. split_and!; [done|cbn; lia|cbn; lia|]. cbn. intros ? [= <-]. by apply Hl. }
  destruct (pick_lower_ok ts t (length (ts_srs ts)) 0 Hp) as ([spec|] & -> & Hs); run.
  { eexists. split_and!; [done|cbn; lia|cbn; lia|]. cbn. intros ? [= <-]. by apply Hs. }
  destruct (decide _); [|run; eexists; split_and!; [done|cbn; lia|cbn; lia|done]].
  edestruct pick_consolidation_ok as (r & Hr & Hg); [exact Hp|]. rewrite Hr. run. eexists. split_and!; [done|cbn; lia|cbn|exact Hg].
  destruct r; lia.
Qed.

(** ** The round robin *)

Context (c : ManifestCore) (active : list Compaction) (first_fresh : Z).
Context (Htrees : ∀ p t, (p, t) ∈ trees_with_prefix c → tree_ok t ∧ Forall (λ r, (run_id r < first_fresh)%Z) (compacted t)).
Context (Hfresh : (first_fresh + Z.of_nat max_concurrent < u32_max)%Z).

(** The sources the specs of a segment use. *)
Definition used_in (p : bytes) (specs : list CompactionSpec) : list SourceId :=
  filter (λ s, spec_segment s = p) specs ≫= spec_sources.

Definition good_specs (specs : list CompactionSpec) : Prop :=
  ∀ l1 spec l2, specs = l1 ++ spec :: l2 →
  ∃ t, (spec_segment spec, t) ∈ trees_with_prefix c ∧
    good_pick (spec_segment spec) t (used_in (spec_segment spec) ((comp_spec <$> active) ++ l1)) spec.

Definition planned (specs : list CompactionSpec) (ts : TreeState) : Prop :=
  ∃ t, (ts_prefix ts, t) ∈ trees_with_prefix c ∧ plans ts t ∧
    ∀ src, src ∈ used_in (ts_prefix ts) ((comp_spec <$> active) ++ specs) → src ∈ ts_conflicts ts.

Lemma used_in_app p a b : used_in p (a ++ b) = used_in p a ++ used_in p b.
Proof. unfold used_in. by rewrite filter_app, bind_app. Qed.

Lemma used_in_other p l : Forall (λ s, spec_segment s ≠ p) l → used_in p l = [].
Proof. intros HF. unfold used_in. by rewrite list_filter_none. Qed.

Lemma good_pick_mono p t used used' spec :
  (∀ src, src ∈ used' → src ∈ used) → good_pick p t used spec → good_pick p t used' spec.
Proof.
  intros Hu [H1 H2]. split; [done|]. eapply Forall_impl; [exact H2|]. cbn. intros src Hs Hin. by apply Hs, Hu.
Qed.

Lemma good_pick_segment p t used spec : good_pick p t used spec → spec_segment spec = p.
Proof. by intros [(? & ? & -> & _) _]. Qed.

Lemma good_specs_snoc specs ts t spec :
  good_specs specs → planned specs ts → (ts_prefix ts, t) ∈ trees_with_prefix c →
  good_pick (ts_prefix ts) t (ts_conflicts ts) spec → good_specs (specs ++ [spec]).
Proof.
  intros Hg (t0 & _ & _ & Hused) Ht Hpick l1 s l2 E. destruct l2 as [|x l2 _] using rev_ind.
  - apply app_inj_tail in E as [-> ->]. pose proof (good_pick_segment _ _ _ _ Hpick) as ->.
    exists t. split; [done|]. eapply good_pick_mono; [exact Hused|done].
  - rewrite app_comm_cons, app_assoc in E. apply app_inj_tail in E as [-> _]. by apply (Hg l1 s l2).
Qed.

Lemma planned_extend specs new ts :
  planned specs ts → Forall (λ s, spec_segment s ≠ ts_prefix ts) new → planned (specs ++ new) ts.
Proof.
  intros (t & Ht & Hp & Hu) Hnew. exists t. split_and!; [done|done|]. intros src.
  rewrite app_assoc, used_in_app, (used_in_other _ new), app_nil_r by done. apply Hu.
Qed.

(** A tree after one of its specs has been picked. *)
Definition picked (ts : TreeState) (spec : CompactionSpec) : TreeState :=
  project_compaction (mkTreeState (ts_prefix ts) (ts_l0 ts) (ts_srs ts) (projected_sorted_runs ts)
                        (conflicts_add_compaction (ts_conflicts ts) spec) (ts_bp ts)) spec.

Lemma planned_picked specs ts spec :
  planned specs ts → spec_segment spec = ts_prefix ts → planned (specs ++ [spec]) (picked ts spec).
Proof.
  intros (t & Ht & [H1 H2 H3] & Hu) Hseg. exists t. split_and!; [done|done|]. intros src. rewrite app_assoc, used_in_app. cbn [ts_prefix picked project_compaction].
  intros [Hin|Hin]%elem_of_app; cbn; unfold conflicts_add_compaction.
  - specialize (Hu src Hin). set_solver.
  - unfold used_in in Hin. rewrite filter_cons_True in Hin by done. cbn in Hin. rewrite app_nil_r in Hin. set_solver.
Qed.

Lemma pass_ok slots todo specs next :
  NoDup (ts_prefix <$> todo) → Forall (planned specs) todo → good_specs specs →
  length specs ≤ max_concurrent → (first_fresh ≤ next ≤ first_fresh + Z.of_nat (length specs))%Z →
  ∃ ts' new next', pass scaled o max_concurrent slots todo specs next = Ok (ts', specs ++ new, next') ∧
    ts_prefix <$> ts' = ts_prefix <$> todo ∧ Forall (planned (specs ++ new)) ts' ∧ good_specs (specs ++ new) ∧
    Forall (λ s, spec_segment s ∈ ts_prefix <$> todo) new ∧ length (specs ++ new) ≤ max_concurrent ∧
    (new = [] ∨ slots + length (specs ++ new) ≤ max_concurrent) ∧
    (first_fresh ≤ next' ≤ first_fresh + Z.of_nat (length (specs ++ new)))%Z.
Proof using Hmin Hmax Htrees Hfresh.
  revert specs next. induction todo as [|ts todo IH]; intros specs next Hnd Hpl Hg Hlen Hnext; cbn [pass].
  { exists [], [], next. rewrite app_nil_r. split_and!; try done; try lia. by left. }
  case_decide as Hfull.
  { exists (ts :: todo), [], next. rewrite app_nil_r. split_and!; try done; try lia. by left. }
  cbn in Hnd. apply NoDup_cons in Hnd as [Hnin Hnd]. apply Forall_cons in Hpl as [Hts Hpl].
  destruct Hts as (t & Ht & Hp & Hu). destruct (Htrees _ _ Ht) as [Htok Hrun].
  destruct (pick_next_ok ts t next Hp) as ([[spec|] next1] & -> & Hn1 & Hn2 & Hpick); [|lia|..]; run; cbn [fst snd] in *.
  { eapply Forall_impl; [exact Hrun|]. cbn. lia. }
  - fold (picked ts spec). specialize (Hpick spec eq_refl). pose proof (good_pick_segment _ _ _ _ Hpick) as Hseg.
    assert (planned specs ts) as Hts by (by exists t).
    assert (Forall (planned (specs ++ [spec])) todo) as Hpl'.
    { rewrite Forall_forall in Hpl |- *. intros x Hx. apply planned_extend; [by apply Hpl|]. constructor; [|done].
      rewrite Hseg. intros E. apply Hnin. rewrite E. by apply list_elem_of_fmap_2. }
    destruct (IH (specs ++ [spec]) next1) as (ts' & new & next' & -> & Hpre & Hpl2 & Hg2 & Hnew & Hl2 & Hs2 & Hn'); [done|done| | | |].
    + by eapply good_specs_snoc.
    + rewrite length_app. cbn. lia.
    + rewrite length_app. cbn. lia.
    + run. exists (picked ts spec :: ts'), (spec :: new), next'. rewrite <-!app_assoc in *. cbn [app] in *. split_and!; try done; try lia.
      * cbn. by rewrite Hpre.
      * constructor; [|done]. replace (specs ++ spec :: new) with ((specs ++ [spec]) ++ new) by (by rewrite <-app_assoc).
        apply planned_extend; [by apply planned_picked|]. eapply Forall_impl; [exact Hnew|]. cbn. intros s Hs E. by rewrite E in Hs.
      * constructor; [cbn; rewrite Hseg; set_solver|]. eapply Forall_impl; [exact Hnew|]. cbn. set_solver.
      * right. destruct Hs2 as [->|Hs2]; [|done]. rewrite length_app. cbn. lia.
  - destruct (IH specs next1) as (ts' & new & next' & -> & Hpre & Hpl2 & Hg2 & Hnew & Hl2 & Hs2 & Hn'); [done|done|done|done|lia|].
    run. exists (ts :: ts'), new, next'. split_and!; try done; try lia.
    + cbn. by rewrite Hpre.
    + constructor; [|done]. apply planned_extend; [by exists t|]. eapply Forall_impl; [exact Hnew|]. cbn. intros s Hs E. by rewrite E in Hs.
    + eapply Forall_impl; [exact Hnew|]. cbn. set_solver.
Qed.

Lemma rounds_ok fuel slots ts specs next :
  NoDup (ts_prefix <$> ts) → Forall (planned specs) ts → good_specs specs →
  length specs ≤ max_concurrent → (specs = [] ∨ slots + length specs ≤ max_concurrent) →
  (first_fresh ≤ next ≤ first_fresh + Z.of_nat (length specs))%Z → max_concurrent - length specs < fuel →
  ∃ specs', rounds scaled o max_concurrent fuel slots ts specs next = Ok specs' ∧ good_specs specs' ∧
    (specs' = [] ∨ slots + length specs' ≤ max_concurrent).
Proof using Hmin Hmax Htrees Hfresh.
  revert ts specs next. induction fuel as [|fuel IH]; intros ts specs next Hnd Hpl Hg Hlen Hslots Hnext Hf; [lia|]. cbn [rounds].
  destruct (pass_ok slots ts specs next) as (ts' & new & next' & -> & Hpre & Hpl' & Hg' & _ & Hlen' & Hs' & Hn'); [done..|]. run.
  destruct (decide (length (specs ++ new) = length specs)) as [E|E].
  - exists (specs ++ new). rewrite length_app in E. destruct new; [|cbn in E; lia]. rewrite app_nil_r in *. done.
  - rewrite length_app in E. destruct new as [|x new]; [cbn in E; lia|]. cbn [length] in E. apply IH; try done.
    + by rewrite Hpre.
    + destruct Hs' as [|Hs']; [done|by right].
    + rewrite length_app in Hlen' |- *. cbn in Hlen' |- *. lia.
Qed.
End proposals.

(** ** Planning *)

Record core_ok (c : ManifestCore) : Prop := {
  core_segs_ok : segs_ok (segments c);
  core_named : Forall (λ s, seg_prefix s ≠ []) (segments c);
  core_trees_ok : ∀ t, t ∈ trees c → tree_ok t;
}.

Lemma trees_with_prefix_spec c p t :
  core_ok c → (p, t) ∈ trees_with_prefix c ↔ tree_for_segment c p = Some t.
Proof.
  intros [Hsegs Hnamed _]. rewrite tree_for_segment_alt by done. unfold trees_with_prefix. rewrite elem_of_cons, list_elem_of_fmap.
  rewrite Forall_forall in Hnamed. split.
  - intros [[= -> ->]|(s & [= -> ->] & Hs)]; [by rewrite decide_True|]. rewrite decide_False by (by apply Hnamed).
    apply list_elem_of_lookup_1 in Hs as [i Hs]. by eapply seg_at_lookup.
  - destruct (decide (p = [])) as [->|]; [intros [= <-]; by left|]. intros Ht%seg_at_elem. right. by exists (mkSegment p t).
Qed.

Lemma trees_with_prefix_trees c : snd <$> trees_with_prefix c = trees c.
Proof. unfold trees_with_prefix, trees. cbn. f_equal. by rewrite <-list_fmap_compose. Qed.

Lemma trees_prefixes_unique c : core_ok c → NoDup (fst <$> trees_with_prefix c).
Proof.
  intros [Hsegs Hnamed _]. unfold trees_with_prefix. cbn. rewrite <-list_fmap_compose. constructor.
  - intros (s & Hs & Hin)%list_elem_of_fmap. rewrite Forall_forall in Hnamed. by apply (Hnamed s Hin).
  - apply segs_ok_prefixes in Hsegs. change (NoDup (seg_prefix <$> segments c)). unfold bs_ok in Hsegs.
    induction Hsegs as [|a l Hs IH HF]; [constructor|]. constructor; [|done]. intros Hin. rewrite Forall_forall in HF.
    by apply HF, ord_lt_irrefl in Hin.
Qed.

Lemma next_global_above c active t r :
  (next_global_sr_id c active < u32_max)%Z → t ∈ trees c → r ∈ compacted t → (run_id r < next_global_sr_id c active)%Z.
Proof.
  intros Hu Ht Hr. unfold next_global_sr_id in *.
  destruct (max_opt_spec (run_id <$> (trees c ≫= compacted)) (run_id r)) as (m & Hm & Hle).
  { apply list_elem_of_fmap_2, list_elem_of_bind. by exists t. }
  rewrite Hm in Hu |- *.
  destruct (max_opt_spec (option_list (Some m) ++ option_list (max_opt (omap (λ c', spec_destination (comp_spec c')) active))) m) as (m' & Hm' & Hle'); [apply elem_of_app; left; set_solver|].
  rewrite Hm' in Hu |- *. lia.
Qed.

Lemma conflicts_new_used specs src spec : spec ∈ specs → src ∈ spec_sources spec → src ∈ conflicts_new specs.
Proof.
  unfold conflicts_new. enough (∀ used, (src ∈ used ∨ ∃ s, s ∈ specs ∧ src ∈ spec_sources s) → src ∈ foldl conflicts_add_compaction used specs) as Hx.
  { intros H1 H2. apply Hx. right. by exists spec. }
  induction specs as [|s specs IH]; intros used Hu; cbn.
  - destruct Hu as [?|(? & ? & ?)]; [done|set_solver].
  - apply IH. unfold conflicts_add_compaction. destruct Hu as [?|(s' & [->|Hs]%elem_of_cons & Hin)]; [left; set_solver|left; set_solver|right; by exists s'].
Qed.

Lemma project_all specs ts :
  let ts' := foldl project_compaction ts specs in
  ts_prefix ts' = ts_prefix ts ∧ ts_l0 ts' = ts_l0 ts ∧ ts_srs ts' = ts_srs ts ∧ ts_conflicts ts' = ts_conflicts ts.
Proof. revert ts. induction specs as [|s specs IH]; intros ts; [done|]. cbn. destruct (IH (project_compaction ts s)) as (-> & -> & -> & ->). done. Qed.

Section planning.
  Context (visible_size : SsTableView → Z) (visible_run_size : SortedRun → Z) (scaled : Z → Z) (o : SizeTieredOptions).

Lemma tree_planning_ok c active p t :
  (p, t) ∈ trees_with_prefix c → tree_ok t →
  ∃ ts, tree_planning visible_size visible_run_size scaled o active (p, t) = Ok ts ∧ ts_prefix ts = p ∧
    planned visible_size visible_run_size c active [] ts.
Proof.
  intros Ht Hok. unfold tree_planning. cbn [compaction_sources]. destruct (bp_new_ok visible_run_size scaled (max_compaction_sources o) (compacted t)) as [bp Hbp].
  unfold run_compaction_source, run_source in Hbp. rewrite Hbp. run. eexists. split; [done|].
  destruct (project_all (comp_spec <$> filter (λ c, spec_segment (comp_spec c) = p) active)
    (mkTreeState p ((λ v, mkSource (SourceSstView (view_id v)) (visible_size v)) <$> l0 t)
       ((λ sr, mkSource (SourceSortedRun (run_id sr)) (visible_run_size sr)) <$> compacted t)
       (list_to_set (run_id <$> compacted t)) (conflicts_new (comp_spec <$> filter (λ c, spec_segment (comp_spec c) = p) active)) bp)) as (H1 & H2 & H3 & H4).
  split; [exact H1|]. exists t. rewrite H1. split_and!; [done|by split|]. intros src. rewrite app_nil_r, H4. cbn [ts_conflicts ts_prefix].
  unfold used_in. intros (spec & Hsrc & Hspec)%list_elem_of_bind. apply list_elem_of_filter in Hspec as [Hseg (job & -> & Hjob)%list_elem_of_fmap].
  eapply conflicts_new_used; [|exact Hsrc]. apply list_elem_of_fmap_2. by apply list_elem_of_filter.
Qed.

Lemma plan_all_ok c active l :
  (∀ pt, pt ∈ l → pt ∈ trees_with_prefix c ∧ tree_ok pt.2) →
  ∃ tss, mapM (tree_planning visible_size visible_run_size scaled o active) l = Ok tss ∧ ts_prefix <$> tss = fst <$> l ∧
    Forall (planned visible_size visible_run_size c active []) tss.
Proof.
  induction l as [|[p t] l IH]; intros Hl; cbn [mapM].
  { by exists []. }
  destruct (tree_planning_ok c active p t) as (ts & -> & Hp & Hpl); [by apply Hl; left|by apply (Hl (p, t)); left|]. run.
  destruct IH as (tss & -> & Hps & HF); [intros pt Hpt; apply Hl; by right|]. run. exists (ts :: tss). cbn. rewrite Hp, Hps. split_and!; [done|done|by constructor].
Qed.
End planning.

(** C12: The scheduler's proposals are safe. With at least one source per compaction and run IDs left,
    [propose] terminates without panicking; together with the slots in use its proposals stay within
    the concurrency limit; each targets an existing tree and keeps its read order (so that finishing
    it does); and none takes a source of an active job or of an earlier proposal for the same tree. *)
Theorem proposals_are_safe visible_size visible_run_size scaled o max_concurrent s :
  core_ok (db_state s) → 1 ≤ min_compaction_sources o → 1 ≤ max_compaction_sources o →
  (next_global_sr_id (db_state s) (iter_active (cs_compactions s)) + Z.of_nat max_concurrent < u32_max)%Z →
  let slots := length (filter (λ c, counts_against_max_concurrent (comp_status c) = true) (iter_active (cs_compactions s))) in
  ∃ specs, size_tiered_propose visible_size visible_run_size scaled o max_concurrent s = Ok specs ∧
    (specs = [] ∨ slots + length specs ≤ max_concurrent) ∧
    ∀ before spec after, specs = before ++ spec :: after →
      ∃ segment sources dst t, spec = Tiered segment sources dst ∧ tree_for_segment (db_state s) segment = Some t ∧
        order_safe t sources dst ∧ (dst < u32_max)%Z ∧
        ∀ other, other ∈ (comp_spec <$> iter_active (cs_compactions s)) ++ before → spec_segment other = segment →
          Forall (λ src, src ∉ spec_sources other) sources.
Proof.
  intros Hok Hmin Hmax Hu slots. set (active := iter_active (cs_compactions s)) in *. set (c := db_state s) in *.
  destruct (plan_all_ok visible_size visible_run_size scaled o c active (trees_with_prefix c)) as (tss & Htss & Hpre & Hpl).
  { intros pt Hpt. split; [done|]. apply (core_trees_ok c Hok). rewrite <-trees_with_prefix_trees. by apply list_elem_of_fmap_2. }
  unfold size_tiered_propose. fold active c. rewrite Htss. run.
  assert (merge_sort more_l0s tss ≡ₚ tss) as Hperm by apply merge_sort_Permutation.
  destruct (rounds_ok visible_size visible_run_size scaled o max_concurrent Hmin Hmax c active (next_global_sr_id c active))
    with (fuel := S max_concurrent) (slots := slots) (ts := merge_sort more_l0s tss) (specs := @nil CompactionSpec) (next := next_global_sr_id c active)
    as (specs & Hspecs & Hgood & Hslots).
  - intros p t Hpt. assert (t ∈ trees c) as Ht by (rewrite <-trees_with_prefix_trees; by apply (list_elem_of_fmap_2 snd) in Hpt).
    split; [by apply (core_trees_ok c Hok)|]. apply Forall_forall. intros r Hr. eapply next_global_above; [lia|done|done].
  - done.
  - rewrite Hperm, Hpre. by apply trees_prefixes_unique.
  - by rewrite Hperm.
  - intros [|] ? ? E; discriminate E.
  - cbn. lia.
  - by left.
  - cbn. lia.
  - cbn. lia.
  - exists specs. split_and!; [exact Hspecs|done|]. intros before spec after E. destruct (Hgood before spec after E) as (t & Ht & [(sources & dst & Htier & Hsafe & Hdst) Hun]).
    exists (spec_segment spec), sources, dst, t. rewrite <-trees_with_prefix_spec by done. split_and!; try done.
    intros other Hother Hseg. replace (spec_sources spec) with sources in Hun by (by rewrite Htier). eapply Forall_impl; [exact Hun|]. cbn. intros src Hsrc Hin. apply Hsrc.
    unfold used_in. apply list_elem_of_bind. exists other. split; [done|]. by apply list_elem_of_filter.
Qed.

Lemma proposals_are_safe_witness :
  let s := mkCompactorState (manifest_initial (set_tree core_new (demo_tree None [5%Z; 4%Z; 3%Z; 2%Z; 1%Z]))) (compactions_new 0) in
  ∃ specs, size_tiered_propose (λ _, 10%Z) (λ _, 10%Z) (λ z, (4 * z)%Z) (mkSizeTieredOptions 2 3 0) 4 s = Ok specs ∧
    ∀ before spec after, specs = before ++ spec :: after →
      ∃ segment sources dst t, spec = Tiered segment sources dst ∧ tree_for_segment (db_state s) segment = Some t ∧ order_safe t sources dst.
Proof.
  cbn zeta. set (s := mkCompactorState _ _).
  destruct (proposals_are_safe (λ _, 10%Z) (λ _, 10%Z) (λ z, (4 * z)%Z) (mkSizeTieredOptions 2 3 0) 4 s) as (specs & Hs & _ & Hall).
  - split; [constructor|constructor|]. intros t Ht. apply list_elem_of_singleton in Ht as ->. split; cbn; repeat constructor; set_solver.
  - cbn. lia.
  - cbn. lia.
  - reflexivity.
  - exists specs. split; [exact Hs|]. intros before spec after E.
    destruct (Hall before spec after E) as (segment & sources & dst & t & H1 & H2 & H3 & _). by exists segment, sources, dst, t.
Defined.
