(* ===== verification/LsmProtocol.v ===== *)
(** * The writer and the compactor share a manifest
      ([memtable_flusher/manifest_writer.rs], [compactor_state_protocols.rs], [db_state.rs])

    The writer adds L0s, the compactor folds the oldest ones into sorted runs; each keeps a local copy
    of the manifest, merges the latest stored version into it and stores it again on the condition
    that nobody stored a version in between. This file models the two loops as a transition system
    and shows that no interleaving loses an L0, brings a compacted one back, or changes the order in
    which data is read. *)

From S2P Require Export SchedulerSafety.

(** ** Flushing ([manifest_writer.rs]) *)

(** What [apply_uploaded_state] uses of an uploaded memtable. *)
Record UploadedMemtable := mkUploaded {
  up_segments : list (bytes * SsTableHandle);
  up_last_seq : Z;
  up_recent_flushed_wal_id : Z;
  up_last_tick : Z;
  up_tracker : SequenceTracker;
}.

Definition push_view (v : SsTableView) (t : LsmTreeState) : LsmTreeState :=
  mkTree (last_compacted_l0_sst_view_id t) (last_compacted_l0_sst_id t) (v :: l0 t) (compacted t).

(** One SST of an uploaded memtable: its view becomes the newest L0 of its segment's tree. *)
Definition push_segment (segmented : bool) (c : ManifestCore) (seg : bytes * SsTableHandle) : result ManifestCore :=
  view ← view_identity seg.2;
  if segmented then
    r ← maybe_insert_tree c seg.1;
    s ← expect (segments r.2 !! r.1);
    mret (set_segments r.2 (set_segment_tree (segments r.2) r.1 (push_view view (seg_tree s))))
  else if decide (seg.1 = []) then mret (set_tree c (push_view view (tree c)))
  else Err (InvalidSegmentPrefix seg.1 []).

Fixpoint push_segments (segmented : bool) (c : ManifestCore) (segs : list (bytes * SsTableHandle)) : result ManifestCore :=
  match segs with
  | [] => mret c
  | seg :: segs => c' ← push_segment segmented c seg; push_segments segmented c' segs
  end.

(** The manifest part of [ManifestWriterHandler::apply_uploaded_state], for one memtable. *)
Definition apply_uploaded `{Chrono} (segmented : bool) (c : ManifestCore) (u : UploadedMemtable) : result ManifestCore :=
  c ← push_segments segmented c (up_segments u);
  let tick := Z.max (last_l0_clock_tick c) (up_last_tick u) in
  if decide (tick = up_last_tick u) then
    _ ← rust_assert (bool_decide (last_l0_seq c < up_last_seq u)%Z);
    tracker ← extend_from (core_sequence_tracker c) (up_tracker u);
    mret (mkCore (initialized c) (tree c) (segments c) (segment_extractor_name c) (next_wal_sst_id c)
            (up_recent_flushed_wal_id u) tick (up_last_seq u) (recent_snapshot_min_seq c) tracker (checkpoints c)
            (wal_object_store_uri c))
  else Err (InvalidClockTick tick (up_last_tick u)).

(** ** One tree *)

Section tree.
  Context (origin : SortedRun → list Ulid).

(** The L0s whose data a tree holds, newest first: its L0s, then those its runs were made from. *)
Definition run_origins (t : LsmTreeState) : list Ulid := compacted t ≫= origin.
Definition holds_l0s (t : LsmTreeState) : list Ulid := layers ids_of_view origin t.

Lemma bind_ids (l : list SsTableView) : l ≫= ids_of_view = view_id <$> l.
Proof. induction l as [|v l IH]; [done|]. cbn. by rewrite IH. Qed.

Lemma holds_l0s_alt t : holds_l0s t = (view_id <$> l0 t) ++ run_origins t.
Proof. unfold holds_l0s, layers. by rewrite bind_ids. Qed.

(** The watermark is the newest L0 that has been compacted. *)
Definition watermark_ok (t : LsmTreeState) : Prop := last_compacted_l0_sst_view_id t = head (run_origins t).

Record proto_tree (t : LsmTreeState) : Prop := {
  pt_ok : tree_ok t;
  pt_watermark : watermark_ok t;
  pt_origins : Forall (λ r, origin r ≠ []) (compacted t);
}.

Lemma take_while_ids (p : Ulid → bool) (l : list SsTableView) :
  view_id <$> take_while (λ v, p (view_id v)) l = take_while p (view_id <$> l).
Proof. induction l as [|v l IH]; [done|]. cbn. destruct (p (view_id v)); [|done]. cbn. by rewrite IH. Qed.

Lemma take_while_sublist {A} (p : A → bool) l : take_while p l `sublist_of` l.
Proof. induction l as [|x l IH]; [done|]. cbn. destruct (p x); [by apply sublist_skip|]. apply sublist_nil_l. Qed.

Lemma take_while_true {A} (p : A → bool) l : Forall (λ x, p x = true) l → take_while p l = l.
Proof. induction 1 as [|x l Hx HF IH]; [done|]. cbn. by rewrite Hx, IH. Qed.

Lemma take_while_stop {A} (p : A → bool) a x b : Forall (λ x, p x = true) a → p x = false → take_while p (a ++ x :: b) = a.
Proof. induction 1 as [|y a Hy HF IH]; intros Hx; cbn; [by rewrite Hx|]. by rewrite Hy, IH. Qed.

Lemma merge_l0_ids w c :
  view_id <$> l0 (merge_writer_and_compactor w c) =
  match last_compacted_l0_sst_view_id c with
  | Some id => take_while (λ i, negb (bool_decide (i = id))) (view_id <$> l0 w)
  | None => view_id <$> l0 (merge_writer_and_compactor w c)
  end.
Proof.
  destruct (last_compacted_l0_sst_view_id c) as [id|] eqn:E; [|done]. unfold merge_writer_and_compactor. rewrite E. cbn [l0].
  rewrite decide_True by (left; by eexists). unfold above_watermark.
  exact (take_while_ids (λ i : Z, negb (@bool_decide (i = id) (decide_rel eq i id))) (l0 w)).
Qed.

(** Merging drops from the writer's L0s exactly those the compactor has compacted. *)
Lemma merge_ids w c a b :
  proto_tree c → (last_compacted_l0_sst_view_id c = None → last_compacted_l0_sst_id c = None) →
  NoDup (a ++ run_origins c) →
  view_id <$> l0 w = a ++ b → b `prefix_of` run_origins c →
  view_id <$> l0 (merge_writer_and_compactor w c) = a.
Proof.
  intros Hc Hnone Hnd Hw [rest Hb]. rewrite merge_l0_ids. pose proof (pt_watermark c Hc) as Hwm. unfold watermark_ok in Hwm.
  destruct (last_compacted_l0_sst_view_id c) as [id|] eqn:E.
  - destruct (run_origins c) as [|x l] eqn:Hr; [done|]. injection Hwm as ->. apply NoDup_app in Hnd as (_ & Hd & _).
    assert (Forall (λ i, negb (bool_decide (i = x)) = true) a) as Ha.
    { apply Forall_forall. intros i Hi. apply negb_true_iff, bool_decide_eq_false. intros ->. apply (Hd x Hi). set_solver. }
    rewrite Hw. destruct b as [|y b]; [rewrite app_nil_r; by apply take_while_true|]. injection Hb as -> _. apply take_while_stop; [done|].
    by rewrite bool_decide_eq_true_2.
  - destruct (run_origins c) as [|x l] eqn:Hr; [|done]. destruct b; [|done]. rewrite app_nil_r in Hw.
    unfold merge_writer_and_compactor. rewrite E, (Hnone eq_refl). cbn [l0]. rewrite decide_False; [done|]. intros [[? ?]|[? ?]]; done.
Qed.

Lemma merge_tree_ok w c : tree_ok w → tree_ok c → tree_ok (merge_writer_and_compactor w c).
Proof.
  intros Hw Hc. unfold merge_writer_and_compactor. split; cbn; [|apply Hc|apply Hc].
  pose proof (tree_l0_unique w Hw) as Hd. destruct (decide _); [|done].
  eapply sublist_NoDup; [exact Hd|]. apply fmap_sublist, take_while_sublist.
Qed.
End tree.

(** ** A manifest: one tree per segment *)

Definition tree_at (c : ManifestCore) (p : bytes) : LsmTreeState := default tree_default (tree_for_segment c p).

Record core_inv (c : ManifestCore) : Prop := {
  ci_segs : segs_ok (segments c);
  ci_antichain : antichain (seg_prefix <$> segments c);
  ci_named : Forall (λ s, seg_prefix s ≠ []) (segments c);
}.

Lemma tree_at_alt c p :
  segs_ok (segments c) → tree_at c p = if decide (p = []) then tree c else default tree_default (seg_at p (segments c)).
Proof. intros Hok. unfold tree_at. rewrite tree_for_segment_alt by done. by destruct (decide (p = [])). Qed.

Lemma core_inv_prefixes c c' : seg_prefix <$> segments c' = seg_prefix <$> segments c → core_inv c → core_inv c'.
Proof.
  intros E [H1 H2 H3]. split.
  - apply segs_ok_prefixes. rewrite E. by apply segs_ok_prefixes.
  - by rewrite E.
  - apply (proj1 (Forall_fmap seg_prefix (λ p, p ≠ []) _)). rewrite E. by apply Forall_fmap.
Qed.

(** *** Flushing *)

Lemma push_segment_ok segmented c seg c' :
  core_inv c → (segmented = true → seg.1 ≠ []) → push_segment segmented c seg = Ok c' →
  core_inv c' ∧ ∃ v, view_id v = handle_id seg.2 ∧ tree_at c' seg.1 = push_view v (tree_at c seg.1) ∧
    ∀ q, q ≠ seg.1 → tree_at c' q = tree_at c q.
Proof.
  intros Hc Hne. unfold push_segment. intros (v & Hv & H)%bind_Ok_inv.
  assert (view_id v = handle_id seg.2) as Hid.
  { unfold view_identity, view_new in Hv. apply bind_Ok_inv in Hv as (? & _ & Hv). by injection Hv as <-. }
  destruct segmented.
  - specialize (Hne eq_refl). apply bind_Ok_inv in H as ([idx c1] & Hins & H). cbn [fst snd] in H.
    pose proof (maybe_insert_tree_spec c seg.1 (ci_segs c Hc) (ci_antichain c Hc)) as Hspec. rewrite Hins in Hspec.
    destruct Hspec as (Hs1 & Ha1 & Hidx & Hother & Hset). rewrite Hidx in H. revert H. run. intros [= <-].
    assert (core_inv c1) as Hc1.
    { split; [done|done|]. apply Forall_forall. intros s Hs E. pose proof Hs as [j Hj]%list_elem_of_lookup_1.
      pose proof (seg_at_lookup _ _ _ Hs1 Hj) as Hat. rewrite E, Hother in Hat by done. apply seg_at_elem in Hat.
      pose proof (ci_named c Hc) as Hn. rewrite Forall_forall in Hn. by apply (Hn _ Hat). }
    assert (core_inv (set_segments c1 (set_segment_tree (segments c1) idx (push_view v (seg_tree (mkSegment seg.1 (default tree_default (seg_at seg.1 (segments c))))))))) as Hc2.
    { eapply core_inv_prefixes; [|exact Hc1]. apply prefixes_set_segment. }
    split; [exact Hc2|]. exists v. split; [done|]. rewrite !tree_at_alt by apply Hc || apply Hc2. cbn [segments set_segments tree].
    rewrite !(decide_False (P:=seg.1 = [])) by done. rewrite (seg_at_set_segment _ _ _ _ _ Hs1 Hidx). cbn [seg_prefix seg_tree]. rewrite decide_True by done.
    split; [done|]. intros q Hq. rewrite !tree_at_alt by apply Hc || apply Hc2. destruct (decide (q = [])) as [->|].
    + rewrite Hset. done.
    + cbn [segments set_segments]. rewrite (seg_at_set_segment _ _ _ _ _ Hs1 Hidx). cbn [seg_prefix]. rewrite decide_False by done. by rewrite Hother.
  - destruct (decide (seg.1 = [])) as [E|]; [|done]. injection H as <-. split; [by destruct Hc; split|]. exists v. split; [done|].
    rewrite E. split; [done|]. intros q Hq. unfold tree_at, tree_for_segment. by rewrite !decide_False by done.
Qed.

(** The L0s flushed so far, per segment. *)
Definition push_flushed (f : bytes → list Ulid) (seg : bytes * SsTableHandle) : bytes → list Ulid :=
  λ p, if decide (p = seg.1) then handle_id seg.2 :: f p else f p.

(** *** Merging *)

Lemma writer_merge_core_ok w m :
  core_inv w → core_inv (core m) →
  ∃ m', writer_merge_remote w m = Ok m' ∧ segs_ok (segments (core m')) ∧
    (∀ p, seg_at p (segments (core m')) = keep_for_writer (seg_at p (segments w)) (seg_at p (segments (core m)))) ∧
    tree (core m') = merge_writer_and_compactor (tree w) (tree (core m)).
Proof.
  intros Hw Hm. destruct (segment_merges_spec (segments w) (segments (core m)) (ci_segs _ Hw) (ci_segs _ Hm)) as [(out & Ho & Hok & Hat) _].
  unfold writer_merge_remote. rewrite Ho. run. eexists. split; [done|]. cbn. done.
Qed.

Lemma compactor_merge_core_ok c m :
  core_inv c → core_inv (core m) →
  (∀ p t, seg_at p (segments c) = Some t → seg_at p (segments (core m)) = None → tree_is_empty t = true) →
  ∃ m', compactor_merge_remote c m = Ok m' ∧ segs_ok (segments (core m')) ∧
    (∀ p, seg_at p (segments (core m')) = keep_for_compactor (seg_at p (segments (core m))) (seg_at p (segments c))) ∧
    tree (core m') = merge_writer_and_compactor (tree (core m)) (tree c).
Proof.
  intros Hc Hm Hempty.
  destruct (segment_merges_spec (segments (core m)) (segments c) (ci_segs _ Hm) (ci_segs _ Hc)) as [_ Hspec].
  destruct (Hspec Hempty) as (out & Ho & Hok & Hat). unfold compactor_merge_remote. rewrite Ho. run. eexists. split; [done|]. done.
Qed.

(** A list whose prefixes all occur in a well-formed one is well-formed. *)
Lemma core_inv_from c w :
  core_inv w → segs_ok (segments c) →
  (∀ p, is_Some (seg_at p (segments c)) → is_Some (seg_at p (segments w))) → core_inv c.
Proof.
  intros Hw Hok Hsub.
  assert (∀ p, p ∈ seg_prefix <$> segments c → p ∈ seg_prefix <$> segments w) as Hin.
  { intros p (s & -> & [i Hi]%list_elem_of_lookup_1)%list_elem_of_fmap.
    destruct (Hsub (seg_prefix s)) as [t Ht%seg_at_elem]; [rewrite (seg_at_lookup _ i) by done; by eexists|].
    by apply (list_elem_of_fmap_2 seg_prefix) in Ht. }
  split; [done| |].
  - intros p q Hp Hq. by apply (ci_antichain w Hw); apply Hin.
  - apply Forall_forall. intros s Hs E. pose proof (ci_named w Hw) as Hn. rewrite Forall_forall in Hn.
    apply (list_elem_of_fmap_2 seg_prefix), Hin, list_elem_of_fmap in Hs as (s' & Es & Hs'). apply (Hn s' Hs'). congruence.
Qed.

(** ** What holds of the copies of one tree *)

Section copies.
  Context (origin : SortedRun → list Ulid).
Local Notation holds_l0s := (holds_l0s origin).
Local Notation run_origins := (run_origins origin).

Record good (t : LsmTreeState) : Prop := {
  good_proto : proto_tree origin t;
  good_sst : last_compacted_l0_sst_view_id t = None → last_compacted_l0_sst_id t = None;
}.

(** A later version of a tree holds every L0 an earlier one holds, and has compacted every L0 an
    earlier one has compacted. *)
Definition later (t t' : LsmTreeState) : Prop :=
  holds_l0s t' `suffix_of` holds_l0s t ∧ run_origins t' `suffix_of` run_origins t.

(** [F]: the L0s flushed; [m], [rest]: the stored versions, newest first; [w], [c]: the writer's and
    the compactor's copies, and whether each is based on the newest version. *)
Record copies (F : list Ulid) (m : LsmTreeState) (rest : list LsmTreeState) (w c : LsmTreeState) (w_current c_current : Prop) : Prop := {
  cp_nodup : NoDup F;
  cp_w : good w;
  cp_c : good c;
  cp_m : Forall good (m :: rest);
  cp_writer : holds_l0s w = F;
  cp_stored : holds_l0s m `suffix_of` F;
  cp_compactor : holds_l0s c `suffix_of` holds_l0s m;
  cp_versions : StronglySorted later (m :: rest);
  cp_runs_w : run_origins w `suffix_of` run_origins m;
  cp_runs_c : run_origins m `suffix_of` run_origins c;
  cp_w_current : w_current → run_origins m `suffix_of` run_origins w;
  cp_c_current : c_current → holds_l0s m `suffix_of` holds_l0s c;
}.

Global Instance later_refl : Reflexive later.
Proof. by split. Qed.
Global Instance later_trans : Transitive later.
Proof. intros a b c [H1 H2] [H3 H4]. by split; etransitivity. Qed.

Lemma later_cons t m rest : later t m → StronglySorted later (m :: rest) → StronglySorted later (t :: m :: rest).
Proof.
  intros Ht Hs. constructor; [done|]. constructor; [done|]. apply StronglySorted_inv in Hs as [_ HF].
  eapply Forall_impl; [exact HF|]. intros x Hx. by etransitivity.
Qed.

Lemma suffix_antisym {A} (a b : list A) : a `suffix_of` b → b `suffix_of` a → a = b.
Proof.
  intros [x ->] [y E]. apply (f_equal length) in E. rewrite !length_app in E. assert (length x = 0) by lia. by destruct x.
Qed.

Lemma good_default : good tree_default.
Proof. split; [|done]. split; [split; constructor|done|constructor]. Qed.

Lemma merge_runs w c : compacted (merge_writer_and_compactor w c) = compacted c.
Proof. done. Qed.

(** Two copies of which the first knows at least the L0s and the second at least the compactions. *)
Lemma merge_good w c :
  good w → good c → NoDup (holds_l0s w) → holds_l0s c `suffix_of` holds_l0s w → run_origins w `suffix_of` run_origins c →
  let t := merge_writer_and_compactor w c in good t ∧ holds_l0s t = holds_l0s w ∧ run_origins t = run_origins c.
Proof.
  intros Hw Hc Hnd [x Hx] [b Hb] t. assert (run_origins t = run_origins c) as Hr by done.
  rewrite !holds_l0s_alt in *. assert (view_id <$> l0 w = (x ++ (view_id <$> l0 c)) ++ b) as Hl.
  { rewrite Hb in Hx. apply (app_inv_tail (run_origins w)). by rewrite Hx, <-!app_assoc. }
  assert (view_id <$> l0 t = x ++ (view_id <$> l0 c)) as Ht.
  { apply (merge_ids origin w c _ b); [apply Hc|apply Hc| |done|].
    - rewrite Hx, app_assoc in Hnd. done.
    - rewrite Hb. by apply prefix_app_r. }
  split_and!; [|by rewrite Ht, Hr, Hx, <-app_assoc|done]. split; [|apply Hc]. split.
  - apply merge_tree_ok; [apply Hw|apply Hc].
  - exact (pt_watermark _ _ (good_proto c Hc)).
  - exact (pt_origins _ _ (good_proto c Hc)).
Qed.

(** A tree that holds nothing is empty. *)
Lemma empty_iff t : good t → tree_is_empty t = true ↔ holds_l0s t = [].
Proof.
  intros Ht. unfold tree_is_empty. rewrite andb_true_iff, !bool_decide_eq_true, holds_l0s_alt. unfold LsmProtocol.run_origins. split.
  - intros [-> ->]. done.
  - intros [H1%fmap_nil_inv H2]%app_nil. split; [done|]. pose proof (pt_origins _ _ (good_proto t Ht)) as Ho.
    destruct (compacted t) as [|r l]; [done|]. apply Forall_cons in Ho as [Hr _]. cbn in H2. apply app_nil in H2 as [H2 _]. done.
Qed.

(** An empty merge may be left out. *)
Lemma pruned_good t : good t → tree_is_empty t = true → holds_l0s tree_default = holds_l0s t ∧ run_origins tree_default = run_origins t.
Proof.
  intros Ht He. pose proof He as Hh. apply empty_iff in Hh; [|done]. rewrite Hh. split; [done|].
  rewrite holds_l0s_alt in Hh. apply app_nil in Hh as [_ ->]. done.
Qed.

Section transitions.
  Context (F : list Ulid) (m : LsmTreeState) (rest : list LsmTreeState) (w c : LsmTreeState) (wc cc : Prop).

Lemma copies_flush v : copies F m rest w c wc cc → NoDup (view_id v :: F) → copies (view_id v :: F) m rest (push_view v w) c wc cc.
Proof.
  intros [] Hnd. assert (holds_l0s (push_view v w) = view_id v :: F) as Hh by (by rewrite <-cp_writer0, !holds_l0s_alt).
  split; try done.
  - split; [|apply cp_w0]. destruct cp_w0 as [[[] ? ?] ?]. split; [split|..]; try done.
    rewrite <-cp_writer0, holds_l0s_alt in Hnd. cbn in Hnd |- *. rewrite app_comm_cons in Hnd. by apply NoDup_app in Hnd as [? _].
  - destruct cp_stored0 as [k ->]. by exists (view_id v :: k).
Qed.

Lemma copies_weaken (wc' cc' : Prop) : copies F m rest w c wc cc → (wc' → wc) → (cc' → cc) → copies F m rest w c wc' cc'.
Proof. intros [] H1 H2. split; eauto. Qed.

(** The writer's copy after a load: the merge, or nothing if that is empty. *)
Lemma copies_writer_load w' :
  copies F m rest w c wc cc → (w' = merge_writer_and_compactor w m ∨ w' = tree_default ∧ tree_is_empty (merge_writer_and_compactor w m) = true) →
  copies F m rest w' c True cc.
Proof.
  intros [] Hw'. apply Forall_cons in cp_m0 as [Hm Hrest].
  destruct (merge_good w m) as (Hg & Hh & Hr); [done|done|by rewrite cp_writer0|by rewrite cp_writer0|done|].
  assert (good w' ∧ holds_l0s w' = F ∧ run_origins w' = run_origins m) as (Hg' & Hh' & Hr').
  { destruct Hw' as [->|[-> He]]; [by rewrite Hh, cp_writer0|].
    destruct (pruned_good _ Hg He) as [-> ->]. split_and!; [apply good_default|congruence|done]. }
  split; try done; [by constructor|by rewrite Hr'|by rewrite Hr'].
Qed.

Lemma copies_writer_store : copies F m rest w c wc cc → wc → copies F w (m :: rest) w c False False.
Proof.
  intros [] Hwc. specialize (cp_w_current0 Hwc). split; try done.
  - by constructor.
  - by rewrite cp_writer0.
  - rewrite cp_writer0. by etransitivity.
  - apply later_cons; [|done]. split; [by rewrite cp_writer0|done].
  - by etransitivity.
Qed.

Lemma copies_empty : copies F m rest w c wc cc → tree_is_empty m = true → tree_is_empty c = true.
Proof.
  intros [] He. pose proof cp_m0 as [Hm _]%Forall_cons. apply empty_iff in He; [|done]. apply empty_iff; [done|].
  rewrite He in cp_compactor0. by apply suffix_nil_inv in cp_compactor0.
Qed.

(** The compactor's copy after a load: the merge, or nothing if the stored tree is empty. *)
Lemma copies_compactor_load c' :
  copies F m rest w c wc cc → (c' = merge_writer_and_compactor m c ∨ c' = tree_default ∧ tree_is_empty m = true) →
  copies F m rest w c' wc True.
Proof.
  intros [] Hc'. pose proof cp_m0 as [Hm Hrest]%Forall_cons. assert (NoDup (holds_l0s m)) as Hnd.
  { destruct cp_stored0 as [k ->]. by apply NoDup_app in cp_nodup0 as (_ & _ & ?). }
  destruct (merge_good m c) as (Hg & Hh & Hr); [done..|].
  assert (good c' ∧ holds_l0s c' = holds_l0s m ∧ run_origins c' = run_origins c) as (Hg' & Hh' & Hr').
  { destruct Hc' as [->|[-> He]]; [done|]. assert (tree_is_empty (merge_writer_and_compactor m c) = true) as He'.
    { apply empty_iff; [done|]. rewrite Hh. by apply empty_iff. }
    destruct (pruned_good _ Hg He') as [-> ->]. split_and!; [apply good_default|done|done]. }
  split; try done; [by rewrite Hh'|by rewrite Hr'|by rewrite Hh'].
Qed.

Lemma copies_compactor_store : copies F m rest w c wc cc → cc → copies F c (m :: rest) w c False False.
Proof.
  intros [] Hcc. specialize (cp_c_current0 Hcc). split; try done.
  - by constructor.
  - by etransitivity.
  - by apply later_cons.
  - by etransitivity.
Qed.

Lemma copies_compact c' :
  copies F m rest w c wc cc → good c' → holds_l0s c' = holds_l0s c → run_origins c `suffix_of` run_origins c' →
  copies F m rest w c' wc cc.
Proof.
  intros [] Hg Hh Hr. split; try done; [by rewrite Hh|by etransitivity|by rewrite Hh].
Qed.

Lemma copies_touch : copies F m rest w c wc cc → copies F m (m :: rest) w c False False.
Proof. intros []. split; try done; [|by apply later_cons]. pose proof cp_m0 as [Hm _]%Forall_cons. by constructor. Qed.
End transitions.

(** Finishing a compaction folds its L0s into the output. *)
Lemma compacted_good t sources la ls ra rs rb output :
  good t → split t sources la ls ra rs rb → sources ≠ [] → tree_ok (compacted_tree t la ls (ra ++ output :: rb)) →
  origin output = sources ≫= source_layers ids_of_view origin t →
  let t' := compacted_tree t la ls (ra ++ output :: rb) in
  good t' ∧ holds_l0s t' = holds_l0s t ∧ run_origins t `suffix_of` run_origins t'.
Proof.
  intros Hg Hsplit Hne Hok Hout t'. pose proof (pt_ok _ _ (good_proto t Hg)) as Htok.
  assert (holds_l0s t' = holds_l0s t) as Hh by (by apply (split_layers ids_of_view origin t sources la ls ra rs rb)).
  destruct Hsplit as [H1 H2 H3 H4].
  assert (origin output = (view_id <$> ls) ++ (rs ≫= origin)) as Ho.
  { rewrite Hout, H3, bind_app, (views_layers ids_of_view origin t la ls []), (runs_layers ids_of_view origin t ra rs rb), bind_ids;
      [done|done|apply Htok|by rewrite app_nil_r|apply Htok]. }
  assert (compacted t' = ra ++ output :: rb) as Hc by (unfold t', compacted_tree; by destruct (head ls)).
  assert (origin output ≠ []) as Hon.
  { rewrite Ho. destruct ls as [|v ls]; [|done]. destruct rs as [|r rs]; [by rewrite H3 in Hne|]. cbn.
    pose proof (pt_origins _ _ (good_proto t Hg)) as Hor. rewrite H2, !Forall_app, Forall_cons in Hor. destruct Hor as (_ & [Hr _] & _).
    intros [E _]%app_nil. done. }
  assert (run_origins t' = match ls with [] => run_origins t | _ => (view_id <$> ls) ++ run_origins t end) as Hr.
  { unfold LsmProtocol.run_origins. rewrite Hc, H2, !bind_app, bind_cons, Ho. destruct ls as [|v ls]; [done|]. rewrite H4 by done.
    cbn [mbind list_bind app]. by rewrite <-app_assoc. }
  assert (Forall (λ r, origin r ≠ []) (compacted t')) as Horig.
  { rewrite Hc. pose proof (pt_origins _ _ (good_proto t Hg)) as Hor. rewrite H2, !Forall_app in Hor. destruct Hor as (? & _ & ?).
    apply Forall_app. split; [done|by constructor]. }
  split_and!; [|done|].
  - destruct ls as [|v ls].
    + split; [|apply Hg]. split; [done| |done]. unfold watermark_ok. rewrite Hr. apply (pt_watermark _ _ (good_proto t Hg)).
    + split; [|done]. split; [done| |done]. unfold watermark_ok. by rewrite Hr.
  - rewrite Hr. destruct ls; [done|by eexists].
Qed.
End copies.

(** ** The transition system *)

Definition same_trees (a b : ManifestCore) : Prop := tree a = tree b ∧ segments a = segments b.

(** The stored versions, newest first (their number is the newest version's ID); the version each
    side's copy is based on; and, for the statements, the L0s flushed so far in each segment. *)
Record system := mkSystem {
  flushed : bytes → list Ulid;
  versions : list Manifest;
  writer_base : nat;
  writer_local : Manifest;
  compactor_base : nat;
  compactor_local : CompactorState;
}.

Definition with_core (m : Manifest) (c : ManifestCore) : Manifest :=
  mkManifest (external_dbs m) c (writer_epoch m) (compactor_epoch m).

Section protocol.
  Context `{Chrono} (segmented : bool) (origin : SortedRun → list Ulid).

Inductive step : system → system → Prop :=
(** [apply_uploaded_state]: a flushed memtable becomes the newest L0s, whose IDs are new. *)
| step_flush F vs wb w cb c u core' :
    apply_uploaded segmented (core w) u = Ok core' →
    (segmented = true → Forall (λ seg, seg.1 ≠ []) (up_segments u)) →
    (∀ p, NoDup (foldl push_flushed F (up_segments u) p)) →
    step (mkSystem F vs wb w cb c) (mkSystem (foldl push_flushed F (up_segments u)) vs wb (with_core w core') cb c)
(** [prepare_local_manifest_for_write]: the writer changes its copy, but no tree. *)
| step_writer_prepare F vs wb w cb c w' :
    same_trees (core w') (core w) → step (mkSystem F vs wb w cb c) (mkSystem F vs wb w' cb c)
(** [ManifestWriterHandler::load_manifest] *)
| step_writer_load F m vs wb w cb c w' :
    writer_merge_remote (core w) m = Ok w' →
    step (mkSystem F (m :: vs) wb w cb c) (mkSystem F (m :: vs) (S (length vs)) w' cb c)
(** [write_manifest_update]: stored only on top of the version the copy is based on; checkpoints may be added. *)
| step_writer_store F vs w cb c w' :
    same_trees (core w') (core w) →
    step (mkSystem F vs (length vs) w cb c) (mkSystem F (w' :: vs) (length vs) w cb c)
(** [CompactorStateWriter::load_manifest] *)
| step_compactor_load F m vs wb w cb c c' :
    merge_remote_manifest c m = Ok c' →
    step (mkSystem F (m :: vs) wb w cb c) (mkSystem F (m :: vs) wb w (S (length vs)) c')
(** [CompactorStateWriter::write_manifest] *)
| step_compactor_store F vs wb w c :
    step (mkSystem F vs wb w (length vs) c) (mkSystem F (cs_manifest c :: vs) wb w (length vs) c)
(** [finish_compaction] of a job that keeps the read order. *)
| step_finish F vs wb w cb c c' job segment sources dst t output :
    compactions_get (cs_compactions c) (comp_id job) = Some job → comp_spec job = Tiered segment sources dst →
    tree_for_segment (db_state c) segment = Some t → order_safe t sources dst →
    run_id output = dst → (dst < u32_max)%Z → origin output = sources ≫= source_layers ids_of_view origin t →
    finish_compaction c (comp_id job) output = Ok c' →
    step (mkSystem F vs wb w cb c) (mkSystem F vs wb w cb c')
(** The compactor's job list changes. *)
| step_jobs F vs wb w cb c c' :
    cs_manifest c' = cs_manifest c → step (mkSystem F vs wb w cb c) (mkSystem F vs wb w cb c')
(** Checkpoints and epochs: a version with the same trees is stored. *)
| step_touch F m vs wb w cb c m' :
    same_trees (core m') (core m) → step (mkSystem F (m :: vs) wb w cb c) (mkSystem F (m' :: m :: vs) wb w cb c).

(** ** The invariant *)

Definition at_version (p : bytes) (m : Manifest) : LsmTreeState := tree_at (core m) p.

Record inv (s : system) : Prop := {
  inv_writer : core_inv (core (writer_local s));
  inv_compactor : core_inv (db_state (compactor_local s));
  inv_versions : Forall (λ m, core_inv (core m)) (versions s);
  inv_bases : writer_base s ≤ length (versions s) ∧ compactor_base s ≤ length (versions s);
  inv_trees : ∃ m rest, versions s = m :: rest ∧ ∀ p,
    copies origin (flushed s p) (at_version p m) (at_version p <$> rest)
      (at_version p (writer_local s)) (tree_at (db_state (compactor_local s)) p)
      (writer_base s = length (versions s)) (compactor_base s = length (versions s));
}.

Lemma same_trees_at a b p : same_trees a b → tree_at a p = tree_at b p.
Proof. intros [E1 E2]. unfold tree_at, tree_for_segment. by rewrite E1, E2. Qed.

Lemma same_trees_inv a b : same_trees a b → core_inv b → core_inv a.
Proof. intros [_ E2]. apply core_inv_prefixes. by rewrite E2. Qed.

(** What a flush leaves alone, and that its L0s are new in each prefix. *)
Lemma nodup_push segs F p : NoDup (foldl push_flushed F segs p) → NoDup (F p).
Proof.
  revert F. induction segs as [|seg segs IH]; intros F; [done|]. cbn. intros Hn%IH. unfold push_flushed in Hn.
  destruct (decide (p = seg.1)); [|done]. by apply NoDup_cons in Hn as [_ ?].
Qed.

Lemma push_segments_inv segs (w : ManifestCore) w' :
  core_inv w → (segmented = true → Forall (λ seg, seg.1 ≠ []) segs) → push_segments segmented w segs = Ok w' → core_inv w'.
Proof.
  revert w. induction segs as [|seg segs IH]; intros w Hw Hne; cbn.
  - by intros [= <-].
  - intros (w1 & H1 & H2)%bind_Ok_inv. destruct (push_segment_ok segmented w seg w1 Hw) as [Hw1 _]; [|done|].
    + intros E. specialize (Hne E). by apply Forall_cons in Hne as [? _].
    + apply (IH w1); [done| |done]. intros E. specialize (Hne E). by apply Forall_cons in Hne as [_ ?].
Qed.

Lemma push_segments_copies segs F m rest c wc cc (w : ManifestCore) w' p :
  core_inv w → (segmented = true → Forall (λ seg, seg.1 ≠ []) segs) →
  push_segments segmented w segs = Ok w' → NoDup (foldl push_flushed F segs p) →
  copies origin (F p) m rest (tree_at w p) c wc cc → copies origin (foldl push_flushed F segs p) m rest (tree_at w' p) c wc cc.
Proof.
  revert F w. induction segs as [|seg segs IH]; intros F w Hw Hne; cbn.
  - by intros [= <-].
  - intros (w1 & H1 & H2)%bind_Ok_inv Hnd Hcp. destruct (push_segment_ok segmented w seg w1 Hw) as (Hw1 & v & Hv & Hat & Hother); [|done|].
    { intros E. specialize (Hne E). by apply Forall_cons in Hne as [? _]. }
    apply (IH (push_flushed F seg) w1); [done| |done|done|].
    + intros E. specialize (Hne E). by apply Forall_cons in Hne as [_ ?].
    + apply nodup_push in Hnd. unfold push_flushed in *. destruct (decide (p = seg.1)) as [->|].
      * rewrite Hat. rewrite <-Hv in Hnd |- *. by apply copies_flush.
      * by rewrite Hother.
Qed.

Lemma apply_uploaded_trees w u w' :
  apply_uploaded segmented w u = Ok w' → ∃ w1, push_segments segmented w (up_segments u) = Ok w1 ∧ same_trees w' w1.
Proof.
  unfold apply_uploaded. intros (w1 & H1 & H2)%bind_Ok_inv. exists w1. split; [done|]. case_decide; [|done].
  apply bind_Ok_inv in H2 as (? & _ & H2). apply bind_Ok_inv in H2 as (? & _ & H2). by injection H2 as <-.
Qed.

(** ** Loads *)

Lemma tree_at_root c : tree_at c [] = tree c.
Proof. done. Qed.

Lemma seg_at_root c : core_inv c → seg_at [] (segments c) = None.
Proof. intros Hc. apply seg_at_None. apply Hc. Qed.

Lemma writer_load_ok F m rest (w : ManifestCore) c wc cc :
  core_inv w → core_inv (core m) →
  (∀ p, copies origin (F p) (at_version p m) (at_version p <$> rest) (tree_at w p) (c p) wc cc) →
  ∃ w', writer_merge_remote w m = Ok w' ∧ core_inv (core w') ∧
    ∀ p, copies origin (F p) (at_version p m) (at_version p <$> rest) (at_version p w') (c p) True cc.
Proof.
  intros Hw Hm Hcp. destruct (writer_merge_core_ok w m Hw Hm) as (w' & -> & Hok & Hat & Hroot).
  assert (∀ p, at_version p w' = merge_writer_and_compactor (tree_at w p) (at_version p m) ∨
    at_version p w' = tree_default ∧ tree_is_empty (merge_writer_and_compactor (tree_at w p) (at_version p m)) = true) as Hmerge.
  { intros p. unfold at_version. rewrite !tree_at_alt by done || apply Hw || apply Hm. destruct (decide (p = [])); [by left|].
    rewrite Hat. unfold keep_for_writer. cbv zeta. destruct (tree_is_empty _) eqn:E; [by right|by left]. }
  exists w'. split_and!; [done| |intros p; by eapply copies_writer_load].
  apply (core_inv_from _ w Hw Hok). intros p Hp. destruct (seg_at p (segments w)) as [t|] eqn:Hwp; [by eexists|]. exfalso.
  rewrite Hat, Hwp in Hp. unfold keep_for_writer in Hp. cbv zeta in Hp. cbn [default] in Hp.
  assert (p ≠ []) as Hpn.
  { intros ->. rewrite (seg_at_root (core m)) in Hp by done. by destruct Hp. }
  assert (tree_at w p = tree_default ∧ at_version p m = default tree_default (seg_at p (segments (core m)))) as [Hd Hmd].
  { unfold at_version. rewrite !tree_at_alt by apply Hw || apply Hm. rewrite Hwp. by rewrite !decide_False by done. }
  destruct (copies_writer_load origin _ _ _ _ _ _ _ (merge_writer_and_compactor (tree_at w p) (at_version p m)) (Hcp p)) as [? Hg _ _ Hh _ _ _ _ _ _ _]; [by left|].
  assert (F p = []) as HF by (by rewrite <-(cp_writer _ _ _ _ _ _ _ _ (Hcp p)), Hd).
  rewrite HF in Hh. apply (empty_iff origin _ Hg) in Hh. rewrite Hd, Hmd in Hh. rewrite Hh in Hp. by destruct Hp.
Qed.

Lemma compactor_load_ok F m rest w (c : CompactorState) wc cc :
  core_inv (db_state c) → core_inv (core m) →
  (∀ p, copies origin (F p) (at_version p m) (at_version p <$> rest) (w p) (tree_at (db_state c) p) wc cc) →
  ∃ c', merge_remote_manifest c m = Ok c' ∧ core_inv (db_state c') ∧
    ∀ p, copies origin (F p) (at_version p m) (at_version p <$> rest) (w p) (tree_at (db_state c') p) wc True.
Proof.
  intros Hc Hm Hcp. destruct (compactor_merge_core_ok (db_state c) m Hc Hm) as (m' & Hm' & Hok & Hat & Hroot).
  { intros p t Ht Hn. assert (p ≠ []) as Hp by (intros ->; rewrite seg_at_root in Ht by done; done).
    pose proof (copies_empty origin _ _ _ _ _ _ _ (Hcp p)) as He. unfold at_version in He. rewrite !tree_at_alt in He by apply Hm || apply Hc.
    rewrite !(decide_False (P:=p = [])), Ht, Hn in He by done. by apply He. }
  unfold merge_remote_manifest. rewrite Hm'. run. eexists. split; [done|]. unfold db_state at 1 2. cbn [cs_manifest]. split.
  - apply (core_inv_from _ (core m) Hm Hok). intros p. rewrite Hat. unfold keep_for_compactor. by destruct (seg_at p (segments (core m))).
  - intros p. eapply copies_compactor_load; [apply Hcp|]. unfold at_version. rewrite !tree_at_alt by done || apply Hc || apply Hm.
    destruct (decide (p = [])); [by left|]. rewrite Hat. unfold keep_for_compactor.
    destruct (seg_at p (segments (core m))) as [t|]; [by left|by right].
Qed.

(** ** Every step keeps the invariant *)

Lemma protocol_step_inv s s' : inv s → step s s' → inv s'.
Proof.
  intros [Hw Hc Hv [Hb1 Hb2] (m & rest & Hvs & Hcp)] Hstep. destruct Hstep; cbn in *; subst.
  - (* flush *)
    destruct (apply_uploaded_trees _ _ _ H0) as (w1 & Hpush & Hsame).
    pose proof (push_segments_inv _ _ _ Hw H1 Hpush) as Hw1. split; cbn; [by eapply same_trees_inv|done|done|done|].
    exists m, rest. split; [done|]. intros p. unfold at_version at 3. cbn. rewrite (same_trees_at _ w1 p Hsame).
    apply (push_segments_copies (up_segments u) F _ _ _ _ _ (core w) w1 p Hw H1 Hpush (H2 p)), Hcp.
  - (* prepare *)
    split; cbn; [by eapply same_trees_inv|done|done|done|]. exists m, rest. split; [done|]. intros p. unfold at_version at 3.
    rewrite (same_trees_at _ _ p H0). apply Hcp.
  - (* writer load *)
    injection Hvs as <- <-. apply Forall_cons in Hv as [Hm Hv].
    destruct (writer_load_ok F m0 vs (core w) (tree_at (db_state c)) _ _ Hw Hm Hcp) as (w2 & Hw2 & Hinv2 & Hcp2).
    rewrite Hw2 in H0. injection H0 as <-. split; cbn; [done|done|by constructor|cbn in *; lia|]. exists m0, vs. split; [done|]. intros p.
    eapply copies_weaken; [apply Hcp2|done|done].
  - (* writer store *)
    split; cbn; [done|done|constructor; [by eapply same_trees_inv|done]|cbn in *; lia|]. exists w', (m :: rest). split; [done|]. intros p.
    unfold at_version at 1. rewrite (same_trees_at _ _ p H0). eapply copies_weaken; [exact (copies_writer_store origin _ _ _ _ _ _ _ (Hcp p) eq_refl)|cbn in *; lia|cbn in *; lia].
  - (* compactor load *)
    injection Hvs as <- <-. apply Forall_cons in Hv as [Hm Hv].
    destruct (compactor_load_ok F m0 vs (λ p, at_version p w) c _ _ Hc Hm Hcp) as (c2 & Hc2 & Hinv2 & Hcp2).
    rewrite Hc2 in H0. injection H0 as <-. split; cbn; [done|done|by constructor|cbn in *; lia|]. exists m0, vs. split; [done|]. intros p.
    eapply copies_weaken; [apply Hcp2|done|done].
  - (* compactor store *)
    split; cbn; [done|done|by constructor|cbn in *; lia|]. exists (cs_manifest c), (m :: rest). split; [done|]. intros p.
    eapply copies_weaken; [exact (copies_compactor_store origin _ _ _ _ _ _ _ (Hcp p) eq_refl)|cbn in *; lia|cbn in *; lia].
  - (* finish *)
    assert (tree_at (db_state c) segment = t) as Ht by (unfold tree_at; by rewrite H2).
    pose proof (cp_c _ _ _ _ _ _ _ _ (Hcp segment)) as Hg. rewrite Ht in Hg.
    destruct (finish_shape c job t segment sources (run_id output) output) as (s2 & la & ls & ra & rs & rb & Hs2 & Hsplit & Hpre & Ht' & Hok' & Hother & _);
      [apply Hc|done|done|done|apply Hg|done|done|done|].
    rewrite Hs2 in H7. injection H7 as <-.
    destruct (compacted_good origin t sources la ls ra rs rb output Hg Hsplit) as (Hg' & Hh & Hr); [by destruct H3 as (? & ? & ? & ? & ? & _ & ? & _)|done|done|].
    split; cbn; [done|by eapply core_inv_prefixes|done|done|]. exists m, rest. split; [done|]. intros p. destruct (decide (p = segment)) as [->|Hne].
    + assert (tree_at (db_state s2) segment = compacted_tree t la ls (ra ++ output :: rb)) as -> by (unfold tree_at; by rewrite Ht').
      eapply copies_compact; [apply Hcp|done|by rewrite Ht|by rewrite Ht].
    + assert (tree_at (db_state s2) p = tree_at (db_state c) p) as -> by (unfold tree_at; by rewrite Hother). apply Hcp.
  - (* jobs *)
    split; cbn; [done|unfold db_state; by rewrite H0|done|done|]. exists m, rest. split; [done|]. intros p.
    unfold db_state. rewrite H0. apply Hcp.
  - (* touch *)
    injection Hvs as <- <-. pose proof Hv as [Hm _]%Forall_cons. split; cbn; [done|done|constructor; [by eapply same_trees_inv|done]|cbn in *; lia|].
    exists m', (m0 :: vs). split; [done|]. intros p. unfold at_version at 1. rewrite (same_trees_at _ _ p H0).
    eapply copies_weaken; [exact (copies_touch origin _ _ _ _ _ _ _ (Hcp p))|cbn in *; lia|cbn in *; lia].
Qed.

(** The state in which writer and compactor start from a stored manifest. *)
Definition start (m : Manifest) (jobs : Compactions) : system :=
  mkSystem (λ p, holds_l0s origin (at_version p m)) [m] 1 m 1 (mkCompactorState m jobs).

Lemma start_inv m jobs :
  core_inv (core m) → (∀ p, good origin (at_version p m) ∧ NoDup (holds_l0s origin (at_version p m))) → inv (start m jobs).
Proof.
  intros Hm Hg. split; cbn; [done|done|by constructor|lia|]. exists m, []. split; [done|]. intros p. destruct (Hg p) as [Hgp Hnd].
  split; try done; [by constructor|by repeat constructor].
Qed.

Lemma steps_inv s s' : inv s → rtc step s s' → inv s'.
Proof. intros Hi Hs. induction Hs as [|s1 s2 s3 H12 _ IH]; [done|]. apply IH. by eapply protocol_step_inv. Qed.
End protocol.


(** ** An example run: a flush, a store, a load by the compactor, a compaction and its store. *)

Definition example_upload : UploadedMemtable :=
  mkUploaded [([], mkHandle 7 2 (demo_info [97%Z] [98%Z]))] 1 0 0 tracker_new.
Definition example_manifest : Manifest := manifest_initial core_new.
Definition example_jobs : Compactions :=
  compactions_insert (set_status StatusCompacted (compaction_new 9 (Tiered [] [SourceSstView 7] 0))) (compactions_new 0).
Definition example_output : SortedRun := mkRun 0 [demo_view 7 [97%Z] [98%Z]].

Lemma example_start p :
  good ids_of_run (at_version p example_manifest) ∧ NoDup (holds_l0s ids_of_run (at_version p example_manifest)).
Proof.
  assert (at_version p example_manifest = tree_default) as ->.
  { unfold at_version, tree_at, tree_for_segment. by destruct (decide (p = [])). }
  split; [apply good_default|constructor].
Qed.

Lemma example_core_inv : core_inv (core example_manifest).
Proof. split; cbn; [constructor| |constructor]. intros p q Hp. by apply elem_of_nil in Hp. Qed.

