(* ===== verification/GarbageCollector.v ===== *)
(** * Checkpoints and garbage collection
      ([manifest/store.rs], [manifest/invariants.rs], [compactions_store/invariants.rs],
       [garbage_collector.rs], [garbage_collector/*.rs], [wal/slatedb/gc.rs])

    Checkpoints pin versions of the manifest; the collector deletes manifests, SSTs and WAL files that no
    pinned version needs. What a task decides is a function of what it has read: the versions, the job list,
    the listing of a directory and the clock. *)

From S2P Require Export CompactionState.

(** ** Checkpoints ([manifest/store.rs]) *)

Record CheckpointOptions := mkCheckpointOptions {
  co_lifetime : option Z;
  co_source : option Z;
  co_name : option string;
}.

Definition set_checkpoints (m : Manifest) (cps : list Checkpoint) : Manifest :=
  let c := core m in
  mkManifest (external_dbs m)
    (mkCore (initialized c) (tree c) (segments c) (segment_extractor_name c) (next_wal_sst_id c) (core_replay_after_wal_id c)
       (last_l0_clock_tick c) (last_l0_seq c) (recent_snapshot_min_seq c) (core_sequence_tracker c) cps (wal_object_store_uri c))
    (writer_epoch m) (compactor_epoch m).

(** [current_id + 1] on an id of 64 bits, with overflow checks *)
Definition next_manifest_id (id : Z) : result Z := if decide (id < u64_max)%Z then mret (id + 1)%Z else Panic.

(** [StoredManifest::new_checkpoint], [FenceableManifest::make_new_checkpoint] *)
Definition new_checkpoint (m : Manifest) (current_id now id : Z) (options : CheckpointOptions) : result Checkpoint :=
  manifest_id ← match co_source options with
                | Some source =>
                    match find_checkpoint (core m) source with
                    | Some cp => mret (cp_manifest_id cp)
                    | None => Err (CheckpointMissing source)
                    end
                | None => if negb (initialized (core m)) then Err InvalidDBState else next_manifest_id current_id
                end;
  mret (mkCheckpoint id manifest_id ((λ l, now + l)%Z <$> co_lifetime options) now (co_name options)).

(** The mutator of [write_checkpoint] *)
Definition write_checkpoint (m : Manifest) (current_id now id : Z) (options : CheckpointOptions) : result Manifest :=
  cp ← new_checkpoint m current_id now id options;
  mret (set_checkpoints m (checkpoints (core m) ++ [cp])).

(** The mutator of [delete_checkpoint]; [None] leaves the manifest as it is. *)
Definition delete_checkpoint (m : Manifest) (id : Z) : option Manifest :=
  let retained := filter (λ cp, checkpoint_id cp ≠ id) (checkpoints (core m)) in
  if decide (length retained = length (checkpoints (core m))) then None else Some (set_checkpoints m retained).

(** The mutator of [replace_checkpoint] *)
Definition replace_checkpoint (m : Manifest) (current_id now old_id new_id : Z) (options : CheckpointOptions) : result Manifest :=
  cp ← new_checkpoint m current_id now new_id options;
  mret (set_checkpoints m (filter (λ cp, checkpoint_id cp ≠ old_id) (checkpoints (core m)) ++ [cp])).

(** [iter_mut().find(..)], and the new expiry of the checkpoint found *)
Fixpoint refresh_first (id expire : Z) (cps : list Checkpoint) : option (list Checkpoint) :=
  match cps with
  | [] => None
  | cp :: cps =>
      if decide (checkpoint_id cp = id)
      then Some (mkCheckpoint (checkpoint_id cp) (cp_manifest_id cp) (Some expire) (cp_create_time cp) (cp_name cp) :: cps)
      else cons cp <$> refresh_first id expire cps
  end.

(** The mutator of [refresh_checkpoint] *)
Definition refresh_checkpoint (m : Manifest) (now id lifetime : Z) : result Manifest :=
  match refresh_first id (now + lifetime)%Z (checkpoints (core m)) with
  | Some cps => mret (set_checkpoints m cps)
  | None => Err (CheckpointMissing id)
  end.

(** [GarbageCollector::filter_expired_checkpoints] *)
Definition filter_expired_checkpoints (m : Manifest) (utc_now : Z) : option Manifest :=
  let retained := filter (λ cp, match cp_expire_time cp with Some t => (utc_now <? t)%Z | None => true end = true) (checkpoints (core m)) in
  if decide (length (checkpoints (core m)) = length retained) then None else Some (set_checkpoints m retained).

(** The entry API on the map of [read_referenced_manifests]: a version that is not there yet is read. *)
Fixpoint read_checkpointed (read_manifest : Z → result Manifest) (ids : list Z) (referenced : BTreeMap Z Manifest) : result (BTreeMap Z Manifest) :=
  match ids with
  | [] => mret referenced
  | id :: ids =>
      match bm_get id referenced with
      | Some _ => read_checkpointed read_manifest ids referenced
      | None => m ← read_manifest id; read_checkpointed read_manifest ids (bm_insert id m referenced)
      end
  end.

(** [ManifestStore::read_referenced_manifests] *)
Definition read_referenced_manifests (read_manifest : Z → result Manifest) (id : Z) (m : Manifest) : result (BTreeMap Z Manifest) :=
  read_checkpointed read_manifest (cp_manifest_id <$> checkpoints (core m)) (bm_insert id m []).

(** The guards of [ManifestStore::delete_manifest] *)
Definition check_manifest_deletion (latest_id : Z) (latest : Manifest) (id : Z) : result unit :=
  if decide (latest_id = id) then Err InvalidDeletion
  else if existsb (λ cp, bool_decide (cp_manifest_id cp = id)) (checkpoints (core latest)) then Err InvalidDeletion
  else mret tt.

(** ** The timestamps of ULIDs *)

(** [Ulid::timestamp_ms], [Ulid::datetime]: the upper 48 of 128 bits *)
Definition timestamp_ms (id : Ulid) : Z := Z.shiftr id 80.

(** ** Cutoff invariants *)

Definition l0_ids (c : ManifestCore) : list Ulid := trees c ≫= λ t, (λ v, handle_id (view_sst v)) <$> l0 t.

(** [manifest::invariants::l0_ulid_cutoff]: the first L0 below the watermark is reported. *)
Definition l0_ulid_cutoff (dirty current : Manifest) : result unit :=
  match max_l0_ulid_timestamp_across_trees (core current) with
  | None => mret tt
  | Some watermark =>
      match list_find (λ id, id ∉ l0_ids (core current) ∧ (timestamp_ms id < timestamp_ms watermark)%Z) (l0_ids (core dirty)) with
      | Some (_, id) => Err (InvalidClockTick (timestamp_ms watermark) (timestamp_ms id))
      | None => mret tt
      end
  end.

(** [compactions_store::invariants::compaction_job_id_cutoff] *)
Definition compaction_job_id_cutoff (dirty current : Compactions) : result unit :=
  match max_opt ((λ job, timestamp_ms (comp_id job)) <$> compactions_iter current) with
  | None => mret tt
  | Some watermark =>
      match list_find (λ job, compactions_get current (comp_id job) = None ∧ (timestamp_ms (comp_id job) < watermark)%Z) (compactions_iter dirty) with
      | Some (_, job) => Err (InvalidClockTick watermark (timestamp_ms (comp_id job)))
      | None => mret tt
      end
  end.

(** [output_sst_ids] *)
Definition output_sst_ids (job : Compaction) : list Ulid :=
  (handle_id <$> comp_output_ssts job) ++ (comp_subcompactions job ≫= λ s, handle_id <$> sub_output_ssts s).

(** [sorted_run_ulid_cutoff] *)
Definition sorted_run_ulid_cutoff (dirty _ : Compactions) : result unit :=
  match list_find (λ p : Compaction * Ulid, (timestamp_ms p.2 < timestamp_ms (comp_id p.1))%Z)
          (compactions_iter dirty ≫= λ job, pair job <$> output_sst_ids job) with
  | Some (_, (job, id)) => Err (InvalidClockTick (timestamp_ms (comp_id job)) (timestamp_ms id))
  | None => mret tt
  end.

(** ** What the tasks delete *)

Record ObjectMetadata := mkObjectMetadata {
  om_location : string;
  om_last_modified : Z;
  om_size : Z;
  om_e_tag : option string;
  om_version : option string;
}.
Global Instance ObjectMetadata_eq_dec : EqDecision ObjectMetadata.
Proof. solve_decision. Defined.

Record Identified := mkIdentified { io_id : Z; io_metadata : ObjectMetadata }.

(** [GcFilter]: given the metadata of the candidates, the metadata of those that may be deleted. *)
Notation GcFilter := (list ObjectMetadata → list ObjectMetadata).

(** [retain_allowed_by_gc_filter] *)
Definition retain_allowed_by_gc_filter (gc_filter : option GcFilter) (candidates : list Identified) : list Identified :=
  match gc_filter with
  | None => candidates
  | Some f =>
      let metadata := io_metadata <$> candidates in
      let allowed := filter (λ om, om ∈ metadata) (f metadata) in
      filter (λ c, io_metadata c ∈ allowed) candidates
  end.

Record DirectoryOptions := mkDirectoryOptions { min_age : Z; dry_run : bool }.

(** [collect_active_ssts] *)
Definition manifest_ssts (m : Manifest) : list Ulid := (λ v, handle_id (view_sst v)) <$> all_sst_views (core m).
Definition collect_active_ssts (ms : list Manifest) : list Ulid := ms ≫= manifest_ssts.

(** [newest_l0_dt] *)
Definition tree_newest_dt (t : LsmTreeState) : option Z :=
  match l0 t with
  | [] => timestamp_ms <$> last_compacted_l0_sst_view_id t
  | views => max_opt ((λ v, timestamp_ms (handle_id (view_sst v))) <$> views)
  end.
Definition newest_l0_dt (m : Manifest) : Z := default 0%Z (max_opt (omap tree_newest_dt (trees (core m)))).

(** [CompactedGcTask::compaction_low_watermark_dt] *)
Definition compaction_low_watermark_dt (compactions : option Compactions) : Z :=
  match compactions with
  | Some c => default 0%Z (min_opt ((λ job, timestamp_ms (comp_id job)) <$> compactions_iter c))
  | None => 0%Z
  end.

(** [maybe_delete_compacted_ssts] and its siblings for manifests, job lists and WAL files *)
Definition ids_to_delete (options : DirectoryOptions) (gc_filter : option GcFilter) (candidates : list Identified) : list Z :=
  let allowed := io_id <$> retain_allowed_by_gc_filter gc_filter candidates in
  if dry_run options then [] else allowed.

(** [CompactedGcTask::collect]: [active] are the manifests that the latest one references, [listing] the directory. *)
Definition compacted_gc_cutoff (options : DirectoryOptions) (utc_now : Z) (compactions : option Compactions) (m : Manifest) : Z :=
  Z.min (Z.min (utc_now - min_age options) (compaction_low_watermark_dt compactions)) (newest_l0_dt m).
Definition compacted_gc_collect (options : DirectoryOptions) (gc_filter : option GcFilter) (utc_now : Z)
    (compactions : option Compactions) (m : Manifest) (active : list Manifest) (listing : list Identified) : list Ulid :=
  let cutoff := compacted_gc_cutoff options utc_now compactions m in
  ids_to_delete options gc_filter
    (filter (λ sst, (timestamp_ms (io_id sst) < cutoff)%Z ∧ io_id sst ∉ collect_active_ssts active) listing).

(** [ManifestGcTask::collect]: [listing] is in the order of the ids; its last entry is never deleted. *)
Definition manifest_gc_collect (options : DirectoryOptions) (gc_filter : option GcFilter) (utc_now : Z)
    (listing : list Identified) (read_manifest : Z → result Manifest) : result (list Z) :=
  match last listing with
  | None => Err LatestTransactionalObjectVersionMissing
  | Some v =>
      latest ← read_manifest (io_id v);
      let active := cp_manifest_id <$> checkpoints (core latest) in
      mret (ids_to_delete options gc_filter
        (filter (λ v, io_id v ∉ active ∧ (min_age options < utc_now - om_last_modified (io_metadata v))%Z) (removelast listing)))
  end.

(** [CompactionsGcTask::collect] *)
Definition compactions_gc_collect (options : DirectoryOptions) (gc_filter : option GcFilter) (utc_now : Z) (listing : list Identified) : list Z :=
  ids_to_delete options gc_filter
    (filter (λ v, (min_age options < utc_now - om_last_modified (io_metadata v))%Z) (removelast listing)).

(** [WalGcTask::referenced_wal_ranges] *)
Definition referenced_wal_ranges (latest_id : Z) (active : BTreeMap Z Manifest) : list (Bound Z * Bound Z) :=
  (λ '(id, m), if decide (id = latest_id) then (Included (core_replay_after_wal_id (core m)), Unbounded)
               else (Excluded (core_replay_after_wal_id (core m)), Excluded (next_wal_sst_id (core m)))) <$> active.

(** [SlateDbWalGc::range_contains] *)
Definition wal_range_contains (range : Bound Z * Bound Z) (id : Z) : bool :=
  match range.1 with Included s => (s <=? id)%Z | Excluded s => (s <? id)%Z | Unbounded => true end &&
  match range.2 with Included e => (id <=? e)%Z | Excluded e => (id <? e)%Z | Unbounded => true end.

Inductive WalGcMode := WalRegular | WalFence.

(** [SlateDbWalGc::collect] with [is_wal_sst_eligible_for_deletion] *)
Definition wal_gc_collect (mode : WalGcMode) (options : DirectoryOptions) (gc_filter : option GcFilter) (utc_now : Z)
    (ranges : list (Bound Z * Bound Z)) (listing : list Identified) : list Z :=
  ids_to_delete options gc_filter
    (filter (λ w, match mode with WalRegular => (0 <? om_size (io_metadata w))%Z | WalFence => (om_size (io_metadata w) =? 0)%Z end = true ∧
                  (min_age options < utc_now - om_last_modified (io_metadata w))%Z ∧
                  existsb (λ r, wal_range_contains r (io_id w)) ranges = false) listing).

(** [DetachGcTask::find_detachable]; [referenced] is what [read_referenced_manifests] gives. *)
Definition find_detachable (m : Manifest) (referenced : list Manifest) : list ExternalDb :=
  let candidates := filter (λ e, sst_ids e = [] ∧ is_Some (final_checkpoint_id e)) (external_dbs m) in
  filter (λ e, Forall (λ other, Forall (λ o, final_checkpoint_id o ≠ final_checkpoint_id e ∨ sst_ids o = []) (external_dbs other)) referenced) candidates.

(** The mutator of [DetachGcTask::collect], after the checkpoints [detached] were deleted in the parents *)
Definition drop_detached (m : Manifest) (detached : list Z) : option Manifest :=
  let retained := filter (λ e, match final_checkpoint_id e with Some id => bool_decide (id ∉ detached) | None => true end = true) (external_dbs m) in
  if decide (length retained = length (external_dbs m)) then None
  else Some (mkManifest retained (core m) (writer_epoch m) (compactor_epoch m)).
