(* ===== verification/GcSafety.v ===== *)
(** * Garbage collection is safe

    Writers, compactors, checkpoints and any number of collectors share the manifest, the job list and the
    directories.  A collector reads, decides and deletes in separate steps, and everybody else may act in
    between.  Whatever the interleaving and the clocks, no version of the manifest that is the latest or is
    pinned by a checkpoint loses its file, an SST it refers to or a WAL file it needs. *)

From S2P Require Export GarbageCollector LsmProtocol.

(** ** Timestamps *)

Lemma timestamp_mono a b : (a ≤ b)%Z → (timestamp_ms a ≤ timestamp_ms b)%Z.
Proof. unfold timestamp_ms. rewrite !Z.shiftr_div_pow2 by lia. intros Hab. apply Z.div_le_mono; lia. Qed.

Lemma timestamp_nonneg a : (0 ≤ a)%Z → (0 ≤ timestamp_ms a)%Z.
Proof. intros Ha. unfold timestamp_ms. by apply Z.shiftr_nonneg. Qed.

Lemma max_opt_fmap (f : Z → Z) l : (∀ a b, (a ≤ b)%Z → (f a ≤ f b)%Z) → max_opt (f <$> l) = f <$> max_opt l.
Proof.
  intros Hf. destruct l as [|x l]; [done|]. cbn. f_equal. revert x. induction l as [|y l IH]; intros x; [done|]. cbn. rewrite <- IH. f_equal.
  destruct (Z.le_ge_cases x y) as [H|H]; pose proof (Hf _ _ H); [rewrite !Z.max_r|rewrite !Z.max_l]; lia.
Qed.

(** The watermark of the invariant on L0s is the one the collector uses. *)
Lemma newest_watermark c : max_opt (omap tree_newest_dt (trees c)) = timestamp_ms <$> max_l0_ulid_timestamp_across_trees c.
Proof.
  unfold max_l0_ulid_timestamp_across_trees. rewrite <- (max_opt_fmap timestamp_ms) by apply timestamp_mono. f_equal.
  induction (trees c) as [|t ts IH]; [done|]. cbn [omap list_omap].
  assert (tree_newest_dt t = timestamp_ms <$> match l0 t with [] => last_compacted_l0_sst_view_id t | views => max_opt ((λ v, handle_id (view_sst v)) <$> views) end) as ->.
  { unfold tree_newest_dt. destruct (l0 t) as [|v vs]; [done|]. rewrite <- (max_opt_fmap timestamp_ms) by apply timestamp_mono. by rewrite <- list_fmap_compose. }
  destruct (match l0 t with [] => _ | _ => _ end); cbn [fmap option_fmap option_map]; [|exact IH]. cbn. by f_equal.
Qed.

Lemma newest_l0_mirrors m : newest_l0_dt m = default 0%Z (timestamp_ms <$> max_l0_ulid_timestamp_across_trees (core m)).
Proof. unfold newest_l0_dt. by rewrite newest_watermark. Qed.

(** ** The shared state *)

(** [history]: every version of the manifest that was ever stored, [gone] those deleted since, and likewise for
    SSTs; [jobs] is the latest job list. *)
Record world := mkWorld {
  history : gmap Z Manifest;
  latest : Z;
  gone : gset Z;
  jobs : option Compactions;
  uploaded : gset Ulid;
  deleted : gset Ulid;
  wals_deleted : gset Z;
}.

Definition job_list (js : option Compactions) : list Compaction := from_option compactions_iter [] js.

(** The versions that the version [m] with the id [id] keeps alive: itself and those its checkpoints pin. *)
Definition pins (id : Z) (m : Manifest) : list Z := id :: (cp_manifest_id <$> checkpoints (core m)).

Definition refers (h : gmap Z Manifest) (id : Z) (m : Manifest) (x : Ulid) : Prop :=
  ∃ i mi, i ∈ pins id m ∧ h !! i = Some mi ∧ x ∈ manifest_ssts mi.

(** A WAL file that a version needs: for a pinned version those to replay, for the latest also all later ones. *)
Definition wal_pinned (h : gmap Z Manifest) (id : Z) (m : Manifest) (x : Z) : Prop :=
  (core_replay_after_wal_id (core m) ≤ x)%Z ∨
  ∃ i mi, i ∈ pins id m ∧ h !! i = Some mi ∧ (core_replay_after_wal_id (core mi) < x < next_wal_sst_id (core mi))%Z.

(** What a collector is about to do. *)
Inductive gc_run :=
| ReadJobs (js : option Compactions)
| ReadManifest (js : option Compactions) (id : Z) (m : Manifest)
| DeletingSsts (ids : list Ulid)
| DeletingManifests (ids : list Z)
| ReadWalManifest (id : Z) (m : Manifest)
| DeletingWals (ids : list Z).

(** What the writer, the compactor and the checkpoint operations do to the manifest, as far as collection is
    concerned: the cutoff invariant is checked; the watermark of the L0s and the replay position do not go back;
    an SST that the previous version did not refer to is a new L0 or the output of a job in the job list, and
    was uploaded; a checkpoint pins the version it is written in or one that was pinned before. *)
Record manifest_update (js : option Compactions) (up : gset Ulid) (id' : Z) (m m' : Manifest) : Prop := {
  mu_cutoff : l0_ulid_cutoff m' m = Ok tt;
  mu_watermark : max_l0_ulid_timestamp_across_trees (core m) = None ∨ (newest_l0_dt m ≤ newest_l0_dt m')%Z;
  mu_ssts x : x ∈ manifest_ssts m' → x ∈ manifest_ssts m ∨ x ∈ up ∧ (x ∈ l0_ids (core m') ∨ ∃ job, job ∈ job_list js ∧ x ∈ output_sst_ids job);
  mu_checkpoints cp : cp ∈ checkpoints (core m') → cp_manifest_id cp = id' ∨ cp_manifest_id cp ∈ cp_manifest_id <$> checkpoints (core m);
  mu_replay : (core_replay_after_wal_id (core m) ≤ core_replay_after_wal_id (core m'))%Z;
}.

(** Jobs are filed under their ids. *)
Record keyed (c : Compactions) : Prop := {
  kd_ok : bm_ok (recent_compactions c);
  kd_id k job : (k, job) ∈ recent_compactions c → k = comp_id job;
}.

(** What a compactor does to the job list: both cutoff invariants are checked, and the newest job stays. *)
Record jobs_update (js : option Compactions) (c' : Compactions) : Prop := {
  ju_keyed : keyed c';
  ju_outputs : sorted_run_ulid_cutoff c' c' = Ok tt;
  ju_ids c : js = Some c → compaction_job_id_cutoff c' c = Ok tt;
  ju_newest job : job ∈ job_list js → ∃ job', job' ∈ compactions_iter c' ∧ (comp_id job ≤ comp_id job')%Z;
}.

Definition set_runs (rs : list gc_run) (i : nat) (r : gc_run) : list gc_run := <[i := r]> rs.

(** [history] without what is [gone] *)
Definition read_version (w : world) (id : Z) : result Manifest :=
  if decide (id ∈ gone w) then Err (InvalidDBState) else ok_or InvalidDBState (history w !! id).

Inductive gc_step : world * list gc_run → world * list gc_run → Prop :=
| StepUpload w rs x :
    (0 ≤ x)%Z → x ∉ uploaded w →
    gc_step (w, rs) (mkWorld (history w) (latest w) (gone w) (jobs w) ({[x]} ∪ uploaded w) (deleted w) (wals_deleted w), rs)
| StepManifest w rs m m' :
    history w !! latest w = Some m → manifest_update (jobs w) (uploaded w) (latest w + 1) m m' →
    gc_step (w, rs) (mkWorld (<[(latest w + 1)%Z := m']> (history w)) (latest w + 1) (gone w) (jobs w) (uploaded w) (deleted w) (wals_deleted w), rs)
| StepJobs w rs c' :
    jobs_update (jobs w) c' →
    gc_step (w, rs) (mkWorld (history w) (latest w) (gone w) (Some c') (uploaded w) (deleted w) (wals_deleted w), rs)
| StepReadJobs w rs : gc_step (w, rs) (w, rs ++ [ReadJobs (jobs w)])
| StepReadManifest w rs i js m :
    rs !! i = Some (ReadJobs js) → read_version w (latest w) = Ok m →
    gc_step (w, rs) (w, set_runs rs i (ReadManifest js (latest w) m))
| StepListSsts w rs i js id m active options gc_filter utc_now listing :
    rs !! i = Some (ReadManifest js id m) →
    read_referenced_manifests (read_version w) id m = Ok active →
    Forall (λ o, io_id o ∈ uploaded w) listing →
    gc_step (w, rs) (w, set_runs rs i (DeletingSsts (compacted_gc_collect options gc_filter utc_now js m (bm_values active) listing)))
| StepDeleteSst w rs i ids x :
    rs !! i = Some (DeletingSsts ids) → x ∈ ids →
    gc_step (w, rs) (mkWorld (history w) (latest w) (gone w) (jobs w) (uploaded w) ({[x]} ∪ deleted w) (wals_deleted w), rs)
| StepListManifests w rs options gc_filter utc_now listing ids :
    StronglySorted (λ a b, (io_id a < io_id b)%Z) listing → Forall (λ o, (io_id o ≤ latest w)%Z) listing →
    manifest_gc_collect options gc_filter utc_now listing (read_version w) = Ok ids →
    gc_step (w, rs) (w, rs ++ [DeletingManifests ids])
| StepDeleteManifest w rs i ids id :
    rs !! i = Some (DeletingManifests ids) → id ∈ ids →
    gc_step (w, rs) (mkWorld (history w) (latest w) ({[id]} ∪ gone w) (jobs w) (uploaded w) (deleted w) (wals_deleted w), rs)
| StepReadWalManifest w rs m :
    read_version w (latest w) = Ok m → gc_step (w, rs) (w, rs ++ [ReadWalManifest (latest w) m])
| StepListWals w rs i id m active mode options gc_filter utc_now listing :
    rs !! i = Some (ReadWalManifest id m) →
    read_referenced_manifests (read_version w) id m = Ok active →
    gc_step (w, rs) (w, set_runs rs i (DeletingWals (wal_gc_collect mode options gc_filter utc_now (referenced_wal_ranges id active) listing)))
| StepDeleteWal w rs i ids x :
    rs !! i = Some (DeletingWals ids) → x ∈ ids →
    gc_step (w, rs) (mkWorld (history w) (latest w) (gone w) (jobs w) (uploaded w) (deleted w) ({[x]} ∪ wals_deleted w), rs).

(** A database with its first manifest, and nobody collecting. *)
Definition gc_initial (s : world * list gc_run) : Prop :=
  ∃ m up, s = (mkWorld {[1%Z := m]} 1 ∅ None up ∅ ∅, []) ∧ checkpoints (core m) = [] ∧ (∀ x, x ∈ up → (0 ≤ x)%Z) ∧ (∀ x, x ∈ manifest_ssts m → x ∈ up).

Definition gc_reachable (s : world * list gc_run) : Prop := ∃ s0, gc_initial s0 ∧ rtc gc_step s0 s.

(** ** What can be deleted *)

(** The time [t] is before every job there is and ever will be. *)
Definition before_jobs (js : option Compactions) (t : Z) : Prop :=
  job_list js ≠ [] ∧ ∀ job, job ∈ job_list js → (t < timestamp_ms (comp_id job))%Z.

Record dead_sst (w : world) (x : Ulid) : Prop := {
  ds_id : (0 ≤ x)%Z;
  ds_unused m : history w !! latest w = Some m → ¬ refers (history w) (latest w) m x ∧ (timestamp_ms x < newest_l0_dt m)%Z;
  ds_jobs : before_jobs (jobs w) (timestamp_ms x);
}.

Definition dead_manifest (w : world) (id : Z) : Prop :=
  (id < latest w)%Z ∧ ∀ m, history w !! latest w = Some m → id ∉ cp_manifest_id <$> checkpoints (core m).

Definition dead_wal (w : world) (x : Z) : Prop :=
  ∀ m, history w !! latest w = Some m → ¬ wal_pinned (history w) (latest w) m x.

Definition run_ok (w : world) (r : gc_run) : Prop :=
  match r with
  | ReadJobs js => ∀ t, (0 ≤ t < compaction_low_watermark_dt js)%Z → before_jobs (jobs w) t
  | ReadManifest js id m => history w !! id = Some m ∧ ∀ x, (0 ≤ x)%Z → (timestamp_ms x < compaction_low_watermark_dt js)%Z → (timestamp_ms x < newest_l0_dt m)%Z →
      ¬ refers (history w) id m x → dead_sst w x
  | DeletingSsts ids => ∀ x, x ∈ ids → dead_sst w x
  | DeletingManifests ids => ∀ id, id ∈ ids → dead_manifest w id
  | ReadWalManifest id m => history w !! id = Some m ∧ ∀ x, ¬ wal_pinned (history w) id m x → dead_wal w x
  | DeletingWals ids => ∀ x, x ∈ ids → dead_wal w x
  end.

Record gc_inv (s : world * list gc_run) : Prop := {
  gi_latest : ∃ m, history s.1 !! latest s.1 = Some m ∧
    (∀ cp, cp ∈ checkpoints (core m) → is_Some (history s.1 !! cp_manifest_id cp)) ∧
    (∀ x, refers (history s.1) (latest s.1) m x → x ∈ uploaded s.1) ∧
    (∀ i mi, history s.1 !! i = Some mi → (i ≤ latest s.1)%Z ∧
       ∀ p, p ∈ cp_manifest_id <$> checkpoints (core m) → (i < p)%Z ∨ p ∈ pins i mi);
  gi_ids x : x ∈ uploaded s.1 → (0 ≤ x)%Z;
  gi_keyed c : jobs s.1 = Some c → keyed c;
  gi_outputs job x : job ∈ job_list (jobs s.1) → x ∈ output_sst_ids job → (timestamp_ms (comp_id job) ≤ timestamp_ms x)%Z;
  gi_deleted x : x ∈ deleted s.1 → dead_sst s.1 x;
  gi_gone id : id ∈ gone s.1 → dead_manifest s.1 id;
  gi_wals x : x ∈ wals_deleted s.1 → dead_wal s.1 x;
  gi_runs r : r ∈ s.2 → run_ok s.1 r;
}.

(** ** Nobody can use again what is dead *)

Lemma cutoff_new_l0 m m' x : l0_ulid_cutoff m' m = Ok tt → x ∈ l0_ids (core m') → (0 ≤ x)%Z → x ∈ l0_ids (core m) ∨ (newest_l0_dt m ≤ timestamp_ms x)%Z.
Proof.
  rewrite newest_l0_mirrors. unfold l0_ulid_cutoff. intros Hc Hx H0. destruct (max_l0_ulid_timestamp_across_trees (core m)) as [wm|]; [|right; by apply timestamp_nonneg].
  destruct (list_find _ _) as [[i y]|] eqn:Hf in Hc; [done|]. rewrite list_find_None, Forall_forall in Hf. specialize (Hf x Hx). cbn.
  destruct (decide (x ∈ l0_ids (core m))) as [|Hn]; [by left|right]. destruct (Z.le_gt_cases (timestamp_ms wm) (timestamp_ms x)) as [|Hlt]; [done|]. exfalso. apply Hf. split; [done|lia].
Qed.

Lemma l0_ids_used m x : x ∈ l0_ids (core m) → x ∈ manifest_ssts m.
Proof.
  unfold l0_ids, manifest_ssts, all_sst_views. intros (t & Hx & Ht)%list_elem_of_bind. apply list_elem_of_fmap in Hx as (v & -> & Hv).
  apply list_elem_of_fmap. exists v. split; [done|]. apply list_elem_of_bind. exists t. split; [|done]. unfold tree_sst_views. apply elem_of_app. by left.
Qed.

Section update.
  Context (h : gmap Z Manifest) (n : Z) (m m' : Manifest) (js : option Compactions) (up : gset Ulid).
  Context (Hn : h !! n = Some m) (Hdom : ∀ i mi, h !! i = Some mi → (i ≤ n)%Z).
  Context (Hpins : ∀ cp, cp ∈ checkpoints (core m) → is_Some (h !! cp_manifest_id cp)).
  Context (Hup : manifest_update js up (n + 1) m m').

Lemma lookup_old i : is_Some (h !! i) → <[(n + 1)%Z := m']> h !! i = h !! i.
Proof. intros [mi Hi]. apply lookup_insert_ne. apply Hdom in Hi. lia. Qed.

(** The new version keeps alive itself and what was kept alive before. *)
Lemma update_pins i mi : i ∈ pins (n + 1) m' → <[(n + 1)%Z := m']> h !! i = Some mi → (i = n + 1 ∧ mi = m')%Z ∨ i ∈ pins n m ∧ h !! i = Some mi.
Proof.
  intros Hi Hl. destruct (decide (i = n + 1)%Z) as [->|Hne]; [left; rewrite lookup_insert_eq in Hl; by simplify_eq|right]. rewrite lookup_insert_ne in Hl by done.
  split; [|done]. apply elem_of_cons in Hi as [?|(cp & -> & Hcp)%list_elem_of_fmap]; [done|].
  destruct (mu_checkpoints _ _ _ _ _ Hup cp Hcp) as [?|Hold]; [done|]. by right.
Qed.

Lemma update_refers x : refers (<[(n + 1)%Z := m']> h) (n + 1) m' x → x ∈ manifest_ssts m' ∨ refers h n m x.
Proof. intros (i & mi & Hi & Hl & Hx). destruct (update_pins i mi Hi Hl) as [[-> ->]|[Hp Hh]]; [by left|right; by exists i, mi]. Qed.

Lemma update_dead x :
  (∀ job y, job ∈ job_list js → y ∈ output_sst_ids job → (timestamp_ms (comp_id job) ≤ timestamp_ms y)%Z) →
  (0 ≤ x)%Z → ¬ refers h n m x → (timestamp_ms x < newest_l0_dt m)%Z → before_jobs js (timestamp_ms x) →
  ¬ refers (<[(n + 1)%Z := m']> h) (n + 1) m' x ∧ (timestamp_ms x < newest_l0_dt m')%Z.
Proof using All.
  intros Hout H0 Hno Hlt [_ Hjobs]. split.
  2:{ destruct (mu_watermark _ _ _ _ _ Hup) as [Hnone|?]; [|lia]. rewrite newest_l0_mirrors, Hnone in Hlt. cbn in Hlt. pose proof (timestamp_nonneg x H0). lia. }
  intros [Hx|Hx]%update_refers; [|done].
  assert (x ∉ manifest_ssts m) as Hnm by (intros Hm; apply Hno; exists n, m; split; [left|done]).
  destruct (mu_ssts _ _ _ _ _ Hup x Hx) as [?|[_ [Hl0|(job & Hj & Ho)]]]; [done| |].
  - destruct (cutoff_new_l0 m m' x (mu_cutoff _ _ _ _ _ Hup) Hl0 H0) as [Hold|Hle]; [by apply Hnm, l0_ids_used|lia].
  - specialize (Hjobs job Hj). specialize (Hout job x Hj Ho). lia.
Qed.

Lemma update_dead_wal x : ¬ wal_pinned h n m x → ¬ wal_pinned (<[(n + 1)%Z := m']> h) (n + 1) m' x.
Proof using All.
  intros Hno Hx. apply Hno. pose proof (mu_replay _ _ _ _ _ Hup). destruct Hx as [Hx|(i & mi & Hi & Hl & Hx)]; [left; lia|].
  destruct (update_pins i mi Hi Hl) as [[-> ->]|[Hp Hh]]; [left; lia|right; by exists i, mi].
Qed.
End update.

Lemma bm_get_in {K V} `{OrdLaws K} (k : K) (v : V) (m : BTreeMap K V) : bm_get k m = Some v → (k, v) ∈ m.
Proof.
  induction m as [|[k1 v1] m IH]; cbn; [done|]. destruct (cmp k k1) eqn:Hc; [|done|].
  - intros [= ->]. apply cmp_eq in Hc as ->. left.
  - intros ?%IH. by right.
Qed.

(** The watermark of a job list is below all its jobs. *)
Lemma low_watermark_below js t : (0 ≤ t < compaction_low_watermark_dt js)%Z → before_jobs js t.
Proof.
  intros Ht. unfold compaction_low_watermark_dt in Ht. destruct js as [c|]; [|lia]. split.
  - cbn. intros E. rewrite E in Ht. cbn in Ht. lia.
  - intros job Hj. destruct (min_opt_spec ((λ job, timestamp_ms (comp_id job)) <$> compactions_iter c) (timestamp_ms (comp_id job))) as (y & Hy & Hle).
    { by apply (list_elem_of_fmap_2 (λ job, timestamp_ms (comp_id job))). }
    rewrite Hy in Ht. cbn in Ht. lia.
Qed.

Lemma jobs_update_before js c' t : (∀ c, js = Some c → keyed c) → jobs_update js c' → before_jobs js t → before_jobs (Some c') t.
Proof.
  intros Hk [_ _ Hids Hnew] [Hne Hb]. destruct js as [c|]; [|done]. cbn in *. specialize (Hids c eq_refl). specialize (Hk c eq_refl). split.
  - destruct (compactions_iter c) as [|job l]; [done|]. destruct (Hnew job ltac:(left)) as (job' & Hj' & _). intros E. cbn in E. rewrite E in Hj'. by apply not_elem_of_nil in Hj'.
  - intros job' Hj'. destruct (compactions_get c (comp_id job')) as [job|] eqn:Hg.
    + apply bm_get_in in Hg. pose proof (kd_id _ Hk _ _ Hg) as ->. apply Hb. by apply (list_elem_of_fmap_2 snd) in Hg.
    + unfold compaction_job_id_cutoff in Hids. destruct (compactions_iter c) as [|job l] eqn:Hl; [done|].
      destruct (max_opt_spec ((λ job, timestamp_ms (comp_id job)) <$> job :: l) (timestamp_ms (comp_id job))) as (y & Hy & Hle); [left|].
      rewrite Hy in Hids. destruct (list_find _ _) as [[i z]|] eqn:Hf in Hids; [done|]. rewrite list_find_None, Forall_forall in Hf. specialize (Hf job' Hj').
      pose proof (Hb job ltac:(left)). destruct (Z.le_gt_cases y (timestamp_ms (comp_id job'))); [lia|]. exfalso. apply Hf. split; [done|lia].
Qed.

(** ** What the tasks read *)

Lemma read_version_history w id m : read_version w id = Ok m → history w !! id = Some m.
Proof. unfold read_version. destruct (decide _); [done|]. destruct (history w !! id); cbn; [by intros [= ->]|done]. Qed.

Lemma read_checkpointed_ok read ids referenced active :
  read_checkpointed read ids referenced = Ok active → (∀ i m, (i, m) ∈ active → (i, m) ∈ referenced ∨ i ∈ ids ∧ read i = Ok m) ∧
  (∀ i m, bm_get i referenced = Some m → bm_get i active = Some m) ∧ ∀ i, i ∈ ids → is_Some (bm_get i active).
Proof.
  revert referenced. induction ids as [|id ids IH]; intros referenced; cbn [read_checkpointed].
  - intros [= ->]. split; [by left|]. split; [done|]. by intros i []%not_elem_of_nil.
  - destruct (bm_get id referenced) as [m|] eqn:Hg.
    + intros (H1 & H2 & H3)%IH. split; [|split; [done|]].
      * intros i mi [?|[? ?]]%H1; [by left|right; split; [by right|done]].
      * intros i [->|Hi]%elem_of_cons; [|by apply H3]. apply H2 in Hg. by eexists.
    + intros (m & Hr & (H1 & H2 & H3)%IH)%bind_Ok_inv. split; [|split].
      * intros i mi [Hi|[? ?]]%H1; [|right; split; [by right|done]].
        apply bm_insert_elem in Hi as [[= -> ->]|Hi]; [right; split; [left|done]|by left].
      * intros i mi Hi. apply H2. rewrite bm_get_insert_ne; [done|]. congruence.
      * intros i [->|Hi]%elem_of_cons; [|by apply H3]. exists m. apply H2. by rewrite bm_get_insert.
Qed.

(** The referenced manifests are exactly the stored versions that the version pins. *)
Lemma read_referenced_ok w id m active : history w !! id = Some m → read_referenced_manifests (read_version w) id m = Ok active →
  (∀ i mi, (i, mi) ∈ active → i ∈ pins id m ∧ history w !! i = Some mi) ∧
  ∀ i mi, i ∈ pins id m → history w !! i = Some mi → (i, mi) ∈ active.
Proof.
  intros Hid (H1 & H2 & H3)%read_checkpointed_ok.
  assert (∀ i mi, (i, mi) ∈ active → i ∈ pins id m ∧ history w !! i = Some mi) as Hall.
  { intros i mi [Hi|[Hi Hr]]%H1; [|split; [by right|by apply read_version_history]]. cbn in Hi. apply list_elem_of_singleton in Hi as [= -> ->]. split; [left|done]. }
  split; [done|]. intros i mi Hi Hh. assert (is_Some (bm_get i active)) as [mj Hg].
  { apply elem_of_cons in Hi as [->|Hi]; [|by apply H3]. exists m. apply H2. cbn. by rewrite cmp_refl. }
  apply bm_get_in in Hg. destruct (Hall i mj Hg) as [_ Hj]. by simplify_eq.
Qed.

Lemma ids_to_delete_elem options gc_filter candidates x : x ∈ ids_to_delete options gc_filter candidates → ∃ o, o ∈ candidates ∧ io_id o = x.
Proof.
  unfold ids_to_delete. destruct (dry_run options); [by intros []%not_elem_of_nil|]. intros (o & -> & Ho)%list_elem_of_fmap. exists o. split; [|done].
  unfold retain_allowed_by_gc_filter in Ho. destruct gc_filter; [|done]. by apply list_elem_of_filter in Ho as [_ Ho].
Qed.

Lemma removelast_lt (l : list Identified) a b : StronglySorted (λ a b, (io_id a < io_id b)%Z) l → last l = Some b → a ∈ removelast l → (io_id a < io_id b)%Z.
Proof.
  intros Hs [l' ->]%last_Some Ha. rewrite removelast_last in Ha. apply StronglySorted_app in Hs as (Hs & _ & _). apply Hs; [done|left].
Qed.

(** ** Every step keeps the invariant *)

Lemma refers_mono h h' id m x : h ⊆ h' → refers h id m x → refers h' id m x.
Proof. intros Hs (i & mi & Hi & Hl & Hx). exists i, mi. split; [done|]. split; [by eapply lookup_weaken|done]. Qed.

Lemma wal_pinned_mono h h' id m x : h ⊆ h' → wal_pinned h id m x → wal_pinned h' id m x.
Proof. intros Hs [?|(i & mi & Hi & Hl & Hx)]; [by left|right]. exists i, mi. split; [done|]. split; [by eapply lookup_weaken|done]. Qed.

(** What is dead in [w] is dead in [w'], whose history is longer. *)
Lemma runs_later w w' (rs : list gc_run) : history w ⊆ history w' → (∀ x, dead_sst w x → dead_sst w' x) → (∀ id, dead_manifest w id → dead_manifest w' id) →
  (∀ x, dead_wal w x → dead_wal w' x) → (∀ t, before_jobs (jobs w) t → before_jobs (jobs w') t) → (∀ r, r ∈ rs → run_ok w r) → ∀ r, r ∈ rs → run_ok w' r.
Proof.
  intros Hh Hs Hm Hw Hj Hok r Hr. specialize (Hok r Hr). destruct r; cbn in *; eauto.
  - destruct Hok as [Hid Hok]. split; [by eapply lookup_weaken|]. intros x H1 H2 H3 H4. apply Hs, Hok; [done..|]. intros Hx. by eapply H4, refers_mono.
  - destruct Hok as [Hid Hok]. split; [by eapply lookup_weaken|]. intros x H1. apply Hw, Hok. intros Hx. by eapply H1, wal_pinned_mono.
Qed.

Lemma gc_inv_manifest w rs m m' : gc_inv (w, rs) → history w !! latest w = Some m → manifest_update (jobs w) (uploaded w) (latest w + 1) m m' →
  gc_inv (mkWorld (<[(latest w + 1)%Z := m']> (history w)) (latest w + 1) (gone w) (jobs w) (uploaded w) (deleted w) (wals_deleted w), rs).
Proof.
  intros [(m0 & Hm0 & Hpins & Hups & Hdom) Hids Hkey Houts Hdel Hgone Hwal Hruns] Hm Hup. cbn [fst snd] in *. rewrite Hm in Hm0. injection Hm0 as <-.
  assert (∀ i mi, history w !! i = Some mi → (i ≤ latest w)%Z) as Hd by (intros i mi Hi; by destruct (Hdom i mi Hi)).
  set (w' := mkWorld _ _ _ _ _ _ _).
  assert (history w !! (latest w + 1)%Z = None) as Hfresh.
  { destruct (history w !! (latest w + 1)%Z) as [mi|] eqn:E; [|done]. apply Hd in E. lia. }
  assert (∀ x, dead_sst w x → dead_sst w' x) as Hsst.
  { intros x [H0 Hun Hj]. split; [done| |done]. cbn. intros m2. rewrite lookup_insert_eq. intros [= <-]. destruct (Hun m Hm) as [Hno Hlt].
    by apply (update_dead (history w) (latest w) m m' (jobs w) (uploaded w)). }
  assert (∀ x, dead_wal w x → dead_wal w' x) as Hdw.
  { intros x Hx m2. cbn. rewrite lookup_insert_eq. intros [= <-]. apply (update_dead_wal (history w) (latest w) m m' (jobs w) (uploaded w)); auto. }
  assert (∀ id, dead_manifest w id → dead_manifest w' id) as Hdm.
  { intros id [Hlt Hno]. split; [cbn; lia|]. intros m2. cbn. rewrite lookup_insert_eq. intros [= <-] (cp & -> & Hcp)%list_elem_of_fmap.
    destruct (mu_checkpoints _ _ _ _ _ Hup cp Hcp) as [?|Hold]; [lia|]. by apply (Hno m Hm). }
  split; cbn [fst snd]; [|done|done|done|by auto..|].
  - exists m'. split; [apply lookup_insert_eq|]. split; [|split].
    + intros cp Hcp. destruct (mu_checkpoints _ _ _ _ _ Hup cp Hcp) as [->|(cp0 & -> & Hcp0)%list_elem_of_fmap]; [cbn; rewrite lookup_insert_eq; by eexists|].
      cbn. rewrite (lookup_old (history w) (latest w) m' Hd); by apply Hpins.
    + intros x [Hx|Hx]%(update_refers (history w) (latest w) m m' (jobs w) (uploaded w) Hup); [|by apply Hups].
      destruct (mu_ssts _ _ _ _ _ Hup x Hx) as [Hold|[? _]]; [|done]. apply Hups. exists (latest w), m. split; [left|done].
    + intros i mi Hi. cbn in Hi. destruct (decide (i = latest w + 1)%Z) as [->|Hne].
      * rewrite lookup_insert_eq in Hi. injection Hi as <-. split; [cbn; lia|]. intros p Hp. right. by right.
      * rewrite lookup_insert_ne in Hi by done. destruct (Hdom i mi Hi) as [Hle Hp]. split; [cbn; lia|]. intros p (cp & -> & Hcp)%list_elem_of_fmap.
        destruct (mu_checkpoints _ _ _ _ _ Hup cp Hcp) as [->|Hold]; [left; lia|by apply Hp].
  - apply (runs_later w); [by apply insert_subseteq|done..].
Qed.

(** A step that touches neither the versions nor the jobs. *)
Lemma gc_inv_same w rs g up dl wd rs' : gc_inv (w, rs) → uploaded w ⊆ up → (∀ x, x ∈ up → (0 ≤ x)%Z) → (∀ x, x ∈ dl → dead_sst w x) →
  (∀ id, id ∈ g → dead_manifest w id) → (∀ x, x ∈ wd → dead_wal w x) → (∀ r, r ∈ rs' → run_ok w r) →
  gc_inv (mkWorld (history w) (latest w) g (jobs w) up dl wd, rs').
Proof.
  intros [(m & Hm & Hpins & Hups & Hdom) Hids Hkey Houts Hdel Hgone Hwal Hruns] Hsub Hup Hdl Hg Hwd Hrs. cbn [fst snd] in *. set (w' := mkWorld _ _ _ _ _ _ _).
  assert (∀ x, dead_sst w x → dead_sst w' x) as Hs by (intros x [? ? ?]; by split).
  split; cbn [fst snd]; [|done|done|done|by auto..|].
  - exists m. split; [done|]. split; [done|]. split; [|done]. intros x Hx. by apply Hsub, Hups.
  - by apply (runs_later w).
Qed.

Lemma gc_inv_runs w rs rs' : gc_inv (w, rs) → (∀ r, r ∈ rs' → run_ok w r) → gc_inv (w, rs').
Proof. intros [] Hrs. by split. Qed.

Lemma gc_inv_jobs w rs c' : gc_inv (w, rs) → jobs_update (jobs w) c' →
  gc_inv (mkWorld (history w) (latest w) (gone w) (Some c') (uploaded w) (deleted w) (wals_deleted w), rs).
Proof.
  intros [(m & Hm & Hpins & Hups & Hdom) Hids Hkey Houts Hdel Hgone Hwal Hruns] Hup. cbn [fst snd] in *. set (w' := mkWorld _ _ _ _ _ _ _).
  assert (∀ t, before_jobs (jobs w) t → before_jobs (jobs w') t) as Hb by (intros t; by apply jobs_update_before).
  assert (∀ x, dead_sst w x → dead_sst w' x) as Hs by (intros x [? ? ?]; split; auto).
  split; cbn [fst snd]; [by exists m|done| | |by auto..|].
  - intros c [= <-]. apply Hup.
  - cbn. intros job x Hj Hx. pose proof (ju_outputs _ _ Hup) as Ho. unfold sorted_run_ulid_cutoff in Ho.
    destruct (list_find _ _) as [[i [j y]]|] eqn:Hf in Ho; [done|]. rewrite list_find_None, Forall_forall in Hf.
    destruct (Z.le_gt_cases (timestamp_ms (comp_id job)) (timestamp_ms x)); [done|]. exfalso. apply (Hf (job, x)); [|cbn; lia].
    apply list_elem_of_bind. exists job. split; [by apply list_elem_of_fmap_2|done].
  - by apply (runs_later w).
Qed.

Lemma elem_of_set_runs r rs i r' : r ∈ set_runs rs i r' → r = r' ∨ r ∈ rs.
Proof.
  unfold set_runs. intros [j Hj]%list_elem_of_lookup_1. apply list_lookup_insert_Some in Hj as [(-> & <- & _)|(_ & Hj)]; [by left|right].
  by eapply list_elem_of_lookup_2.
Qed.

(** *** What a collector decides is dead *)

Lemma listed_ssts_dead w js id m active options gc_filter utc_now listing : (∀ x, x ∈ uploaded w → (0 ≤ x)%Z) →
  run_ok w (ReadManifest js id m) → read_referenced_manifests (read_version w) id m = Ok active → Forall (λ o, io_id o ∈ uploaded w) listing →
  run_ok w (DeletingSsts (compacted_gc_collect options gc_filter utc_now js m (bm_values active) listing)).
Proof.
  intros H0 [Hid Hok] Href Hlist x (o & Ho & <-)%ids_to_delete_elem. apply list_elem_of_filter in Ho as [[Hlt Hno] Ho].
  unfold compacted_gc_cutoff in Hlt. rewrite Forall_forall in Hlist. apply Hok; [by apply H0, Hlist|lia|lia|].
  intros (i & mi & Hi & Hh & Hx). apply Hno. apply (read_referenced_ok w id m active Hid) in Href as [_ Href].
  apply list_elem_of_bind. exists mi. split; [done|]. specialize (Href i mi Hi Hh). by apply (list_elem_of_fmap_2 snd) in Href.
Qed.

Lemma listed_wals_dead w id m active mode options gc_filter utc_now listing :
  run_ok w (ReadWalManifest id m) → read_referenced_manifests (read_version w) id m = Ok active →
  run_ok w (DeletingWals (wal_gc_collect mode options gc_filter utc_now (referenced_wal_ranges id active) listing)).
Proof.
  intros [Hid Hok] Href x (o & Ho & <-)%ids_to_delete_elem. apply list_elem_of_filter in Ho as [(_ & _ & Hno) Ho].
  apply Hok. apply (read_referenced_ok w id m active Hid) in Href as [_ Href].
  assert (∀ i mi, (i, mi) ∈ active → wal_range_contains (if decide (i = id) then (Included (core_replay_after_wal_id (core mi)), Unbounded)
    else (Excluded (core_replay_after_wal_id (core mi)), Excluded (next_wal_sst_id (core mi)))) (io_id o) = false) as Hout.
  { intros i mi Hi. destruct (wal_range_contains _ _) eqn:E; [|done]. rewrite <- Hno. symmetry. apply existsb_exists. eexists. split; [|exact E].
    apply list_elem_of_In, list_elem_of_fmap. by exists (i, mi). }
  assert (io_id o < core_replay_after_wal_id (core m))%Z as Hbelow.
  { specialize (Hout id m (Href id m ltac:(left) Hid)). rewrite decide_True in Hout by done. unfold wal_range_contains in Hout. cbn in Hout. lia. }
  intros [?|(i & mi & Hi & Hh & Hx)]; [lia|]. specialize (Hout i mi (Href i mi Hi Hh)). destruct (decide (i = id)) as [->|].
  - rewrite Hid in Hh. injection Hh as <-. lia.
  - unfold wal_range_contains in Hout. cbn in Hout. lia.
Qed.

Lemma listed_manifests_dead w rs options gc_filter utc_now listing ids : gc_inv (w, rs) →
  StronglySorted (λ a b, (io_id a < io_id b)%Z) listing → Forall (λ o, (io_id o ≤ latest w)%Z) listing →
  manifest_gc_collect options gc_filter utc_now listing (read_version w) = Ok ids → run_ok w (DeletingManifests ids).
Proof.
  intros [(m & Hm & _ & _ & Hdom) _ _ _ _ _ _ _] Hs Hle Hc. cbn [fst snd] in *. unfold manifest_gc_collect in Hc. destruct (last listing) as [v|] eqn:Hl; [|done].
  apply bind_Ok_inv in Hc as (ml & Hr%read_version_history & [= <-]). intros id (o & Ho & <-)%ids_to_delete_elem. apply list_elem_of_filter in Ho as [[Hno _] Ho].
  pose proof (removelast_lt _ _ _ Hs Hl Ho) as Hlt. destruct (Hdom _ _ Hr) as [Hvl Hp]. split; [lia|]. intros m2 Hm2. rewrite Hm in Hm2. injection Hm2 as <-.
  intros Hin. destruct (Hp _ Hin) as [?|[?|?]%elem_of_cons]; [lia|lia|done].
Qed.

Lemma gc_step_inv s s' : gc_step s s' → gc_inv s → gc_inv s'.
Proof.
  intros Hstep Hinv. pose proof Hinv as [(m0 & Hm0 & Hpins & Hups & Hdom) Hids Hkey Houts Hdel Hgone Hwal Hruns].
  destruct Hstep as [w rs x H0 Hx|w rs m m' Hm Hup|w rs c' Hup|w rs|w rs i js m Hr Hm|w rs i js id m active options f now listing Hr Href Hl|w rs i ids x Hr Hx|
    w rs options f now listing ids Hs Hl Hc|w rs i ids id Hr Hx|w rs m Hm|w rs i id m active mode options f now listing Hr Href|w rs i ids x Hr Hx]; cbn [fst snd] in *.
  - apply (gc_inv_same w rs); [done|set_solver| |done..]. intros y [->%elem_of_singleton|Hy]%elem_of_union; [done|by apply Hids].
  - by apply (gc_inv_manifest w rs m).
  - by apply gc_inv_jobs.
  - apply (gc_inv_runs w rs); [done|]. intros r [Hr| ->%list_elem_of_singleton]%elem_of_app; [by apply Hruns|].
    intros t. cbn. apply low_watermark_below.
  - pose proof (Hruns _ (list_elem_of_lookup_2 _ _ _ Hr)) as Hok. apply read_version_history in Hm. apply (gc_inv_runs w rs); [done|].
    intros r [->|Hin]%elem_of_set_runs; [|by apply Hruns]. split; [done|]. intros x H0 H1 H2 H3. split; [done| |].
    + intros m2 Hm2. cbn in Hm, Hm2. rewrite Hm in Hm2. injection Hm2 as <-. done.
    + apply Hok. split; [by apply timestamp_nonneg|done].
  - pose proof (Hruns _ (list_elem_of_lookup_2 _ _ _ Hr)) as Hok. apply (gc_inv_runs w rs); [done|].
    intros r [->|Hin]%elem_of_set_runs; [|by apply Hruns]. by apply listed_ssts_dead with id.
  - pose proof (Hruns _ (list_elem_of_lookup_2 _ _ _ Hr)) as Hok. apply (gc_inv_same w rs); [done..| |done|done|done].
    intros y [->%elem_of_singleton|Hy]%elem_of_union; [by apply Hok|by apply Hdel].
  - pose proof (listed_manifests_dead w rs options f now listing ids Hinv Hs Hl Hc) as Hok. apply (gc_inv_runs w rs); [done|].
    intros r [Hr| ->%list_elem_of_singleton]%elem_of_app; [by apply Hruns|done].
  - pose proof (Hruns _ (list_elem_of_lookup_2 _ _ _ Hr)) as Hok. apply (gc_inv_same w rs); [done..| |done|done].
    intros y [->%elem_of_singleton|Hy]%elem_of_union; [by apply Hok|by apply Hgone].
  - apply read_version_history in Hm. apply (gc_inv_runs w rs); [done|].
    intros r [Hr| ->%list_elem_of_singleton]%elem_of_app; [by apply Hruns|]. split; [done|]. intros x Hx m2 Hm2. cbn in Hm, Hm2. rewrite Hm in Hm2. by injection Hm2 as <-.
  - pose proof (Hruns _ (list_elem_of_lookup_2 _ _ _ Hr)) as Hok. apply (gc_inv_runs w rs); [done|].
    intros r [->|Hin]%elem_of_set_runs; [|by apply Hruns]. by apply listed_wals_dead with m.
  - pose proof (Hruns _ (list_elem_of_lookup_2 _ _ _ Hr)) as Hok. apply (gc_inv_same w rs); [done..| |done].
    intros y [->%elem_of_singleton|Hy]%elem_of_union; [by apply Hok|by apply Hwal].
Qed.

Lemma gc_initial_inv s : gc_initial s → gc_inv s.
Proof.
  intros (m & up & -> & Hcp & H0 & Hup). split; cbn; [|done|done| |set_solver..].
  - exists m. split; [apply lookup_singleton_eq|]. rewrite Hcp. split; [by intros cp []%not_elem_of_nil|]. split.
    + intros x (i & mi & Hi & Hl & Hx). apply lookup_singleton_Some in Hl as [<- <-]. by apply Hup.
    + intros i mi [<- <-]%lookup_singleton_Some. split; [done|]. by intros p []%not_elem_of_nil.
  - by intros job x []%not_elem_of_nil.
Qed.

Lemma gc_reachable_inv s : gc_reachable s → gc_inv s.
Proof. intros (s0 & H0%gc_initial_inv & Hr). induction Hr as [|s1 s2 s3 Hs _ IH]; [done|]. apply IH. by eapply gc_step_inv. Qed.


(** ** The operations of the database are such updates *)

Lemma cutoff_none m m' : (∀ x, x ∈ l0_ids (core m') → x ∈ l0_ids (core m) ∨ (newest_l0_dt m ≤ timestamp_ms x)%Z) → l0_ulid_cutoff m' m = Ok tt.
Proof.
  rewrite newest_l0_mirrors. unfold l0_ulid_cutoff. intros Hx. destruct (max_l0_ulid_timestamp_across_trees (core m)) as [wm|]; [|done].
  destruct (list_find _ _) as [[i y]|] eqn:Hf; [|done]. apply list_find_Some in Hf as (Hy%list_elem_of_lookup_2 & [Hno Hlt] & _).
  destruct (Hx y Hy); [done|]. cbn in *. lia.
Qed.

(** The watermark does not go back if no tree's does. *)
Lemma newest_le m m' : (∀ t d, t ∈ trees (core m) → tree_newest_dt t = Some d → ∃ t' d', t' ∈ trees (core m') ∧ tree_newest_dt t' = Some d' ∧ (d ≤ d')%Z) →
  max_l0_ulid_timestamp_across_trees (core m) = None ∨ (newest_l0_dt m ≤ newest_l0_dt m')%Z.
Proof.
  intros Ht. unfold newest_l0_dt. destruct (max_opt (omap tree_newest_dt (trees (core m)))) as [d|] eqn:Hd;
    [right|left; rewrite newest_watermark in Hd; by apply fmap_None in Hd].
  apply max_opt_elem, list_elem_of_omap in Hd as (t & Hin & Hd). destruct (Ht t d Hin Hd) as (t' & d' & Hin' & Hd' & Hle).
  destruct (max_opt_spec (omap tree_newest_dt (trees (core m'))) d') as (e & He & Hle'); [apply list_elem_of_omap; by exists t'|]. rewrite He. cbn. lia.
Qed.

(** *** Checkpoints *)

Lemma checkpoints_update js up id' m cps :
  (∀ cp, cp ∈ cps → cp_manifest_id cp = id' ∨ cp_manifest_id cp ∈ cp_manifest_id <$> checkpoints (core m)) → manifest_update js up id' m (set_checkpoints m cps).
Proof. intros Hcps. split; [apply cutoff_none; by left|by right|by left|done|done]. Qed.

Lemma new_checkpoint_pins m n now id options cp : new_checkpoint m n now id options = Ok cp →
  cp_manifest_id cp = (n + 1)%Z ∨ cp_manifest_id cp ∈ cp_manifest_id <$> checkpoints (core m).
Proof.
  unfold new_checkpoint. intros (p & Hp & [= <-])%bind_Ok_inv. cbn. destruct (co_source options) as [src|].
  - destruct (find_checkpoint (core m) src) as [c|] eqn:Hf; [|done]. injection Hp as <-. right. unfold find_checkpoint in Hf.
    destruct (list_find _ _) as [[i c']|] eqn:Hl; [|done]. injection Hf as <-. apply list_find_Some in Hl as (Hc%list_elem_of_lookup_2 & _). by apply list_elem_of_fmap_2.
  - destruct (initialized (core m)); cbn in Hp; [|done]. unfold next_manifest_id in Hp. destruct (decide _); [|done]. injection Hp as <-. by left.
Qed.

Lemma refresh_first_ids id e cps cps' : refresh_first id e cps = Some cps' → cp_manifest_id <$> cps' = cp_manifest_id <$> cps.
Proof.
  revert cps'. induction cps as [|cp cps IH]; intros cps'; cbn; [done|]. destruct (decide _); [by intros [= <-]|].
  destruct (refresh_first id e cps) as [l|]; [|done]. intros [= <-]. cbn. by rewrite (IH l eq_refl).
Qed.

(** Creating, deleting, replacing, refreshing and expiring checkpoints. *)
Lemma checkpoint_operations js up m n now id id2 options lifetime m' :
  write_checkpoint m n now id options = Ok m' ∨ delete_checkpoint m id = Some m' ∨ replace_checkpoint m n now id id2 options = Ok m' ∨
  refresh_checkpoint m now id lifetime = Ok m' ∨ filter_expired_checkpoints m now = Some m' → manifest_update js up (n + 1) m m'.
Proof.
  assert (∀ cp, cp ∈ checkpoints (core m) → cp_manifest_id cp ∈ cp_manifest_id <$> checkpoints (core m)) as Hold by (intros cp; apply list_elem_of_fmap_2).
  intros [H|[H|[H|[H|H]]]].
  - apply bind_Ok_inv in H as (cp & Hcp%new_checkpoint_pins & [= <-]). apply checkpoints_update. intros c [?| ->%list_elem_of_singleton]%elem_of_app; auto.
  - unfold delete_checkpoint in H. destruct (decide _); [done|]. injection H as <-. apply checkpoints_update. intros c [_ ?]%list_elem_of_filter. auto.
  - apply bind_Ok_inv in H as (cp & Hcp%new_checkpoint_pins & [= <-]). apply checkpoints_update.
    intros c [[_ ?]%list_elem_of_filter| ->%list_elem_of_singleton]%elem_of_app; auto.
  - unfold refresh_checkpoint in H. destruct (refresh_first _ _ _) as [cps|] eqn:Hr; [|done]. injection H as <-. apply checkpoints_update. intros c Hc. right.
    rewrite <- (refresh_first_ids _ _ _ _ Hr). by apply list_elem_of_fmap_2.
  - unfold filter_expired_checkpoints in H. destruct (decide _); [done|]. injection H as <-. apply checkpoints_update. intros c [_ ?]%list_elem_of_filter. auto.
Qed.

(** *** Flushes *)

Lemma set_segment_trees segs idx s t : segs !! idx = Some s →
  (∀ u, u ∈ seg_tree <$> set_segment_tree segs idx t → u = t ∨ u ∈ seg_tree <$> segs) ∧
  (∀ u, u ∈ seg_tree <$> segs → u = seg_tree s ∨ u ∈ seg_tree <$> set_segment_tree segs idx t) ∧ t ∈ seg_tree <$> set_segment_tree segs idx t.
Proof.
  intros Hs. unfold set_segment_tree. split; [|split].
  - intros u (x & -> & [j Hj]%list_elem_of_lookup_1)%list_elem_of_fmap. destruct (decide (j = idx)) as [->|Hne].
    + rewrite list_lookup_alter_eq, Hs in Hj. injection Hj as <-. by left.
    + rewrite list_lookup_alter_ne in Hj by done. right. by eapply list_elem_of_fmap_2, list_elem_of_lookup_2.
  - intros u (x & -> & [j Hj]%list_elem_of_lookup_1)%list_elem_of_fmap. destruct (decide (j = idx)) as [->|Hne].
    + rewrite Hs in Hj. injection Hj as <-. by left.
    + right. eapply list_elem_of_fmap_2, (list_elem_of_lookup_2 _ j). by rewrite list_lookup_alter_ne.
  - apply (list_elem_of_fmap_2 seg_tree _ (mkSegment (seg_prefix s) t)), (list_elem_of_lookup_2 _ idx). by rewrite list_lookup_alter_eq, Hs.
Qed.

Lemma push_segment_trees segmented c seg c' : push_segment segmented c seg = Ok c' →
  ∃ v, handle_id (view_sst v) = handle_id seg.2 ∧ core_replay_after_wal_id c' = core_replay_after_wal_id c ∧ checkpoints c' = checkpoints c ∧
    (∀ u, u ∈ trees c' → ∃ t, (t ∈ trees c ∨ t = tree_default) ∧ (u = t ∨ u = push_view v t)) ∧
    (∀ t, t ∈ trees c → t ∈ trees c' ∨ push_view v t ∈ trees c') ∧ ∃ t, push_view v t ∈ trees c'.
Proof.
  unfold push_segment. intros (v & Hv & H)%bind_Ok_inv. exists v. split.
  { unfold view_identity, view_new in Hv. apply bind_Ok_inv in Hv as (? & _ & Hv). by injection Hv as <-. }
  destruct segmented.
  - apply bind_Ok_inv in H as ([idx c1] & Hins & H). cbn [fst snd] in H. destruct (segments c1 !! idx) as [s|] eqn:Hs; cbn in H; [|done]. injection H as <-.
    destruct (set_segment_trees (segments c1) idx s (push_view v (seg_tree s)) Hs) as (H1 & H2 & H3).
    assert (tree c1 = tree c ∧ core_replay_after_wal_id c1 = core_replay_after_wal_id c ∧ checkpoints c1 = checkpoints c ∧
      (∀ u, u ∈ seg_tree <$> segments c1 → u ∈ seg_tree <$> segments c ∨ u = tree_default) ∧ ∀ u, u ∈ seg_tree <$> segments c → u ∈ seg_tree <$> segments c1) as (Et & Er & Ec & H4 & H5).
    { unfold maybe_insert_tree in Hins. destruct (find_segment seg.1 (segments c)) as [i|i].
      - injection Hins as <- <-. split_and!; auto.
      - apply bind_Ok_inv in Hins as (? & _ & [= <- <-]). cbn [tree set_segments core_replay_after_wal_id checkpoints segments]. split_and!; [done..| |].
        + intros u. rewrite fmap_app, fmap_cons, elem_of_app, elem_of_cons. intros [Hu|[->|Hu]]; [left|by right|left];
            rewrite <- (take_drop i (segments c)), fmap_app; apply elem_of_app; auto.
        + intros u Hu. rewrite <- (take_drop i (segments c)), fmap_app, elem_of_app in Hu. rewrite fmap_app, fmap_cons, elem_of_app, elem_of_cons. tauto. }
    cbn [tree set_segments core_replay_after_wal_id checkpoints segments]. split; [done|]. split; [done|]. unfold trees. cbn [tree set_segments segments]. split; [|split; [|exists (seg_tree s); by right]].
    + intros u [->|[->|Hu]%H1]%elem_of_cons; [exists (tree c); rewrite Et; split; [left; left|by left]| |].
      * exists (seg_tree s). split; [|by right]. destruct (H4 (seg_tree s)) as [?|?]; [by eapply list_elem_of_fmap_2, list_elem_of_lookup_2|left; by right|by right].
      * exists u. split; [|by left]. apply H4 in Hu as [Hu|Hu]; [left; by right|by right].
    + intros t [->|Ht]%elem_of_cons; [left; rewrite Et; left|]. apply H5 in Ht. apply H2 in Ht as [->|Ht]; [right; by right|left; by right].
  - destruct (decide (seg.1 = [])); [|done]. injection H as <-. split; [done|]. split; [done|]. unfold trees. cbn [tree set_tree segments]. split; [|split; [|exists (tree c); left]].
    + intros u [->|Hu]%elem_of_cons; [exists (tree c); split; [left; left|by right]|exists u; split; [left; by right|by left]].
    + intros t [->|Ht]%elem_of_cons; [right; left|left; by right].
Qed.

Definition tree_ssts (t : LsmTreeState) : list Ulid := (λ v, handle_id (view_sst v)) <$> tree_sst_views t.

Lemma manifest_ssts_trees m x : x ∈ manifest_ssts m ↔ ∃ t, t ∈ trees (core m) ∧ x ∈ tree_ssts t.
Proof.
  unfold manifest_ssts, all_sst_views, tree_ssts. rewrite list_elem_of_fmap. setoid_rewrite list_elem_of_fmap. setoid_rewrite list_elem_of_bind. naive_solver.
Qed.

Lemma push_view_ssts v t x : x ∈ tree_ssts (push_view v t) ↔ x = handle_id (view_sst v) ∨ x ∈ tree_ssts t.
Proof. unfold tree_ssts, tree_sst_views. cbn. by rewrite elem_of_cons. Qed.

Lemma push_view_newest v t : ∃ d, tree_newest_dt (push_view v t) = Some d ∧ (timestamp_ms (handle_id (view_sst v)) ≤ d)%Z ∧
  ∀ d0, l0 t ≠ [] → tree_newest_dt t = Some d0 → (d0 ≤ d)%Z.
Proof.
  unfold tree_newest_dt. cbn [l0 push_view]. destruct (max_opt_spec ((λ v, timestamp_ms (handle_id (view_sst v))) <$> v :: l0 t) (timestamp_ms (handle_id (view_sst v)))) as (d & Hd & Hle); [left|].
  exists d. split; [done|]. split; [done|]. intros d0 Hne H0. destruct (l0 t) as [|v0 vs]; [done|]. apply max_opt_elem in H0.
  destruct (max_opt_spec ((λ v, timestamp_ms (handle_id (view_sst v))) <$> v :: v0 :: vs) d0) as (d' & Hd' & Hle'); [by right|]. rewrite Hd in Hd'. by injection Hd' as <-.
Qed.

(** What a flush of the SSTs [new] makes of the manifest [c0]. *)
Record flushed (c0 : ManifestCore) (new : list Ulid) (c : ManifestCore) : Prop := {
  fl_trees t d : t ∈ trees c0 → tree_newest_dt t = Some d → ∃ t' d', t' ∈ trees c ∧ tree_newest_dt t' = Some d' ∧ (d ≤ d')%Z;
  fl_ssts t x : t ∈ trees c → x ∈ tree_ssts t → (∃ t0, t0 ∈ trees c0 ∧ x ∈ tree_ssts t0) ∨ x ∈ new ∧ x ∈ l0_ids c;
  fl_checkpoints : checkpoints c = checkpoints c0;
}.

Lemma l0_ids_trees c x : x ∈ l0_ids c ↔ ∃ t, t ∈ trees c ∧ x ∈ (λ v, handle_id (view_sst v)) <$> l0 t.
Proof. unfold l0_ids. rewrite list_elem_of_bind. naive_solver. Qed.

Lemma push_segment_flushed m0 segmented c seg c' new : flushed (core m0) new c → (newest_l0_dt m0 ≤ timestamp_ms (handle_id seg.2))%Z →
  push_segment segmented c seg = Ok c' → flushed (core m0) (handle_id seg.2 :: new) c'.
Proof.
  intros [Ht Hs Hcp] Hnew (v & Hv & _ & Ec & H1 & H2 & _)%push_segment_trees. split; [| |by rewrite Ec].
  - intros t d Hin Hd. assert (d ≤ newest_l0_dt m0)%Z as Hle.
    { unfold newest_l0_dt. destruct (max_opt_spec (omap tree_newest_dt (trees (core m0))) d) as (e & -> & ?); [apply list_elem_of_omap; by exists t|done]. }
    destruct (Ht t d Hin Hd) as (t' & d' & Hin' & Hd' & Hle'). destruct (H2 t' Hin') as [?|Hpush]; [by exists t', d'|].
    destruct (push_view_newest v t') as (e & He & Hve & _). exists (push_view v t'), e. split; [done|]. split; [done|]. rewrite Hv in Hve. lia.
  - intros u x Hu Hx. destruct (H1 u Hu) as (t & Htd & Hcase).
    assert (x = handle_id seg.2 ∧ u = push_view v t ∨ x ∈ tree_ssts t) as [[-> Hpush]|Hx'].
    { destruct Hcase as [->| ->]; [by right|]. apply push_view_ssts in Hx as [->|?]; [left|by right]. by rewrite Hv. }
    + right. split; [left|]. apply l0_ids_trees. exists u. split; [done|]. rewrite Hpush. cbn. rewrite Hv. left.
    + destruct Htd as [Htin| ->]; [|by apply not_elem_of_nil in Hx']. destruct (Hs t x Htin Hx') as [?|[Hn Hl]]; [by left|right]. split; [by right|].
      apply l0_ids_trees in Hl as (t2 & Ht2 & Hl). apply l0_ids_trees. destruct (H2 t2 Ht2) as [?|Hp]; [by exists t2|]. exists (push_view v t2). split; [done|]. cbn. by right.
Qed.

Lemma push_segments_flushed m0 segmented segs c c' new : flushed (core m0) new c → Forall (λ seg, (newest_l0_dt m0 ≤ timestamp_ms (handle_id seg.2))%Z) segs →
  push_segments segmented c segs = Ok c' → flushed (core m0) (rev (handle_id ∘ snd <$> segs) ++ new) c'.
Proof.
  intros Hf HF. revert c new Hf. induction HF as [|seg segs Hseg HF IH]; intros c new Hf; cbn [push_segments]; [by intros [= ->]|].
  intros (c1 & Hp & H)%bind_Ok_inv. apply (push_segment_flushed m0 segmented c seg c1 new) in Hp; [|done|done]. specialize (IH c1 _ Hp H).
  cbn. rewrite <- app_assoc. exact IH.
Qed.

Lemma push_segments_l0 segmented segs c c' : push_segments segmented c segs = Ok c' →
  (∀ x, x ∈ l0_ids c → x ∈ l0_ids c') ∧ (∀ seg, seg ∈ segs → handle_id seg.2 ∈ l0_ids c') ∧ core_replay_after_wal_id c' = core_replay_after_wal_id c.
Proof.
  revert c. induction segs as [|seg segs IH]; intros c; cbn [push_segments].
  - intros [= ->]. split; [done|]. split; [|done]. by intros seg []%not_elem_of_nil.
  - intros (c1 & (v & Hv & Er & _ & _ & H2 & t0 & H3)%push_segment_trees & (H4 & H5 & E)%IH)%bind_Ok_inv. split; [|split; [|by rewrite E]].
    + intros x (t & Ht & Hx)%l0_ids_trees. apply H4, l0_ids_trees. destruct (H2 t Ht) as [?|?]; [by exists t|]. exists (push_view v t). split; [done|]. by right.
    + intros sg [->|Hsg]%elem_of_cons; [|by apply H5]. apply H4, l0_ids_trees. exists (push_view v t0). split; [done|]. rewrite <- Hv. left.
Qed.

(** The loop of [apply_uploaded_state] over the uploaded memtables. *)
Fixpoint apply_uploaded_batch `{Chrono} (segmented : bool) (c : ManifestCore) (us : list UploadedMemtable) : result ManifestCore :=
  match us with
  | [] => mret c
  | u :: us => c' ← apply_uploaded segmented c u; apply_uploaded_batch segmented c' us
  end.

Lemma apply_uploaded_push `{Chrono} segmented c u c' : apply_uploaded segmented c u = Ok c' →
  ∃ c1, push_segments segmented c (up_segments u) = Ok c1 ∧ trees c' = trees c1 ∧ checkpoints c' = checkpoints c1 ∧ core_replay_after_wal_id c' = up_recent_flushed_wal_id u.
Proof.
  unfold apply_uploaded. intros (c1 & Hp & Hr)%bind_Ok_inv. cbv zeta in Hr. destruct (decide _); [|done].
  apply bind_Ok_inv in Hr as (? & _ & Hr). apply bind_Ok_inv in Hr as (tr & _ & [= <-]). exists c1. done.
Qed.

Lemma flushed_same c0 new c c' : trees c' = trees c → checkpoints c' = checkpoints c → flushed c0 new c → flushed c0 new c'.
Proof. intros Et Ec [H1 H2 H3]. assert (l0_ids c' = l0_ids c) as El by (unfold l0_ids; by rewrite Et). split; [by rewrite Et|by rewrite Et, El|by rewrite Ec]. Qed.

Lemma apply_batch_flushed `{Chrono} m0 segmented us c c' new : flushed (core m0) new c →
  Forall (λ u, Forall (λ seg, (newest_l0_dt m0 ≤ timestamp_ms (handle_id seg.2))%Z) (up_segments u)) us →
  apply_uploaded_batch segmented c us = Ok c' → ∃ new', flushed (core m0) new' c' ∧ ∀ x, x ∈ new' → x ∈ new ∨ ∃ u seg, u ∈ us ∧ seg ∈ up_segments u ∧ x = handle_id seg.2.
Proof.
  intros Hf HF. revert c new Hf. induction HF as [|u us Hu HF IH]; intros c new Hf; cbn [apply_uploaded_batch]; [intros [= ->]; exists new; split; [done|by left]|].
  intros (c1 & (c2 & Hp & Et & Ec & _)%apply_uploaded_push & Hb)%bind_Ok_inv.
  apply (push_segments_flushed m0 segmented (up_segments u) c c2 new) in Hp; [|done|done]. apply (flushed_same _ _ _ c1) in Hp; [|done|done].
  destruct (IH c1 _ Hp Hb) as (new' & Hf' & Hn'). exists new'. split; [done|]. intros x [Hx|(u' & seg & ? & ? & ?)]%Hn'; [|right; exists u', seg; split; [by right|done]].
  apply elem_of_app in Hx as [Hx|?]; [right|by left]. apply list_elem_of_In, in_rev, list_elem_of_In, list_elem_of_fmap in Hx as (seg & -> & Hseg). exists u, seg. split; [left|done].
Qed.

Lemma apply_batch_l0 `{Chrono} segmented us c c' : apply_uploaded_batch segmented c us = Ok c' →
  (∀ x, x ∈ l0_ids c → x ∈ l0_ids c') ∧ (∀ u seg, u ∈ us → seg ∈ up_segments u → handle_id seg.2 ∈ l0_ids c') ∧
  (core_replay_after_wal_id c' = core_replay_after_wal_id c ∨ ∃ u, u ∈ us ∧ core_replay_after_wal_id c' = up_recent_flushed_wal_id u).
Proof.
  revert c. induction us as [|u us IH]; intros c; cbn [apply_uploaded_batch].
  - intros [= ->]. split; [done|]. split; [by intros u seg []%not_elem_of_nil|by left].
  - intros (c1 & (c2 & (H1 & H2 & _)%push_segments_l0 & Et & _ & Er)%apply_uploaded_push & (H3 & H4 & H5)%IH)%bind_Ok_inv.
    assert (l0_ids c1 = l0_ids c2) as El by (unfold l0_ids; by rewrite Et). rewrite El in H3. split; [auto|]. split.
    + intros u' seg [->|Hu]%elem_of_cons Hs; [by apply H3, H2|by eapply H4].
    + right. destruct H5 as [->|(u' & ? & ?)]; [exists u; split; [left|done]|exists u'; split; [by right|done]].
Qed.

Definition with_core (m : Manifest) (c : ManifestCore) : Manifest := mkManifest (external_dbs m) c (writer_epoch m) (compactor_epoch m).

(** Flushing memtables whose tables are fresh and were uploaded, if the cutoff invariant accepts the result. *)
Lemma flush_operation `{Chrono} js up id' m segmented us c' : apply_uploaded_batch segmented (core m) us = Ok c' →
  l0_ulid_cutoff (with_core m c') m = Ok tt →
  Forall (λ u, (core_replay_after_wal_id (core m) ≤ up_recent_flushed_wal_id u)%Z ∧
               Forall (λ seg, handle_id seg.2 ∈ up ∧ (0 ≤ handle_id seg.2)%Z ∧ handle_id seg.2 ∉ l0_ids (core m)) (up_segments u)) us →
  manifest_update js up id' m (with_core m c').
Proof.
  intros Hb Hcut Hus. pose proof (apply_batch_l0 segmented us (core m) c' Hb) as (_ & Hin & Hrep). rewrite Forall_forall in Hus.
  assert (∀ u seg, u ∈ us → seg ∈ up_segments u → (newest_l0_dt m ≤ timestamp_ms (handle_id seg.2))%Z) as Hts.
  { intros u seg Hu Hseg. destruct (Hus u Hu) as [_ Hsegs]. rewrite Forall_forall in Hsegs. destruct (Hsegs seg Hseg) as (_ & H0 & Hno).
    destruct (cutoff_new_l0 m (with_core m c') _ Hcut (Hin u seg Hu Hseg) H0); [done|done]. }
  destruct (apply_batch_flushed m segmented us (core m) c' []) as (new & [H1 H2 H3] & Hnew).
  { split; [intros t d Ht Hd; exists t, d; split; [done|]; split; [done|lia]|intros t x Ht Hx; left; by exists t|done]. }
  { apply Forall_forall. intros u Hu. apply Forall_forall. intros seg Hseg. by apply (Hts u). }
  { done. }
  split; [done| | | |].
  - apply newest_le. exact H1.
  - intros x (t & Ht & Hx)%manifest_ssts_trees. destruct (H2 t x Ht Hx) as [?|[Hn Hl]]; [left; by apply manifest_ssts_trees|right]. split; [|by left].
    destruct (Hnew x Hn) as [[]%not_elem_of_nil|(u & seg & Hu & Hseg & ->)]. destruct (Hus u Hu) as [_ Hsegs]. rewrite Forall_forall in Hsegs. by apply Hsegs.
  - intros cp Hcp. right. cbn in Hcp. rewrite H3 in Hcp. by apply list_elem_of_fmap_2.
  - cbn. destruct Hrep as [->|(u & Hu & ->)]; [done|]. by apply Hus.
Qed.

(** *** Compactions *)

Definition run_ssts (r : SortedRun) : list Ulid := (λ v, handle_id (view_sst v)) <$> sst_views r.

(** A tree whose L0s were flushed in the order of their timestamps, each under the id of its table. *)
Record l0_ordered (t : LsmTreeState) : Prop := {
  lo_identity v : v ∈ l0 t → view_id v = handle_id (view_sst v);
  lo_sorted : StronglySorted (λ a b, (timestamp_ms (handle_id (view_sst b)) ≤ timestamp_ms (handle_id (view_sst a)))%Z) (l0 t);
}.

Lemma replace_runs_elem output srs inserted runs r : r ∈ replace_runs output srs inserted runs → r = output ∨ r ∈ runs.
Proof.
  revert inserted. induction runs as [|sr runs IH]; intros inserted; cbn [replace_runs].
  - destruct inserted; [by intros []%not_elem_of_nil|]. intros ->%list_elem_of_singleton. by left.
  - rewrite !elem_of_app. intros [Hr|[Hr|Hr]].
    + destruct (_ && _); [|by apply not_elem_of_nil in Hr]. apply list_elem_of_singleton in Hr. by left.
    + destruct (decide _); [by apply not_elem_of_nil in Hr|]. apply list_elem_of_singleton in Hr as ->. right. left.
    + apply IH in Hr as [?|?]; [by left|right; by right].
Qed.

Lemma sorted_newest v vs : StronglySorted (λ a b, (timestamp_ms (handle_id (view_sst b)) ≤ timestamp_ms (handle_id (view_sst a)))%Z) (v :: vs) →
  max_opt ((λ v, timestamp_ms (handle_id (view_sst v))) <$> v :: vs) = Some (timestamp_ms (handle_id (view_sst v))).
Proof.
  intros [_ HF]%StronglySorted_inv. destruct (max_opt_spec ((λ v, timestamp_ms (handle_id (view_sst v))) <$> v :: vs) (timestamp_ms (handle_id (view_sst v)))) as (d & Hd & Hle); [left|].
  rewrite Hd. f_equal. apply max_opt_elem in Hd. cbn [fmap list_fmap] in Hd. apply elem_of_cons in Hd as [->|(w & -> & Hw)%list_elem_of_fmap]; [done|].
  rewrite Forall_forall in HF. specialize (HF w Hw). lia.
Qed.

(** Compacting the oldest L0s of a tree. *)
Lemma finish_tree_newest sources dst output t t' newer older d : finish_tree sources dst output t = Ok t' → l0_ordered t →
  l0 t = newer ++ older → Forall (λ v, view_id v ∉ l0_sources sources) newer → Forall (λ v, view_id v ∈ l0_sources sources) older →
  tree_newest_dt t = Some d → tree_newest_dt t' = Some d.
Proof.
  intros Hf [Hid Hs] El Hn Ho Hd. unfold finish_tree in Hf. apply bind_Ok_inv in Hf as (? & _ & [= <-]).
  assert (filter (λ v, view_id v ∉ l0_sources sources) (l0 t) = newer) as Hfilter.
  { rewrite El, filter_app, list_filter_all, list_filter_none, app_nil_r; [done| |done]. eapply Forall_impl; [exact Ho|]. intros v Hv Hno. by apply Hno. }
  assert (take_while (λ v, bool_decide (view_id v ∈ l0_sources sources)) (reverse (l0 t)) = reverse older) as Htw.
  { rewrite El, reverse_app. destruct (reverse newer) as [|v0 l0'] eqn:Er.
    - rewrite app_nil_r. apply take_while_true. apply Forall_forall. intros v Hv. rewrite elem_of_reverse in Hv. rewrite Forall_forall in Ho. by apply bool_decide_eq_true, Ho.
    - apply take_while_stop; [apply Forall_forall; intros v Hv; rewrite elem_of_reverse in Hv; rewrite Forall_forall in Ho; by apply bool_decide_eq_true, Ho|].
      apply bool_decide_eq_false. rewrite Forall_forall in Hn. apply Hn. rewrite <- elem_of_reverse, Er. left. }
  rewrite Htw, Hfilter. unfold tree_newest_dt in *. destruct newer as [|v vs].
  - destruct older as [|v vs].
    + cbn. rewrite El in Hd. exact Hd.
    + cbn [app] in El. rewrite El in Hd, Hs. rewrite sorted_newest in Hd by done. rewrite last_reverse. cbn. rewrite (Hid v); [done|]. rewrite El. left.
  - assert (tree_newest_dt (mkTree None None (v :: vs) []) = Some d) as Hgoal.
    { unfold tree_newest_dt. cbn [l0]. rewrite El in Hd, Hs. cbn [app] in Hd, Hs. rewrite sorted_newest in Hd by done. rewrite sorted_newest; [done|].
      eapply StronglySorted_sublist; [|exact Hs]. apply sublist_skip, sublist_inserts_r. done. }
    by destruct (last (reverse older)).
Qed.

Lemma finish_tree_ssts sources dst output t t' x : finish_tree sources dst output t = Ok t' → x ∈ tree_ssts t' → x ∈ tree_ssts t ∨ x ∈ run_ssts output.
Proof.
  unfold finish_tree. intros (? & _ & [= <-])%bind_Ok_inv Hx.
  assert (x ∈ tree_ssts (mkTree None None (filter (λ v, view_id v ∉ l0_sources sources) (l0 t)) (replace_runs output (sr_sources (sources ++ [SourceSortedRun dst])) false (compacted t)))) as Hx'.
  { by destruct (last _). }
  clear Hx. unfold tree_ssts, tree_sst_views, run_ssts in *. cbn [l0 compacted] in Hx'. rewrite !list_elem_of_fmap in *. setoid_rewrite elem_of_app.
  destruct Hx' as (v & -> & [[_ Hv]%list_elem_of_filter|(r & Hr & Hv)%list_elem_of_bind]%elem_of_app); [left; exists v; auto|].
  apply replace_runs_elem in Hv as [->|Hv]; [right; by exists v|left]. exists v. split; [done|right]. apply list_elem_of_bind. by exists r.
Qed.

Lemma update_tree_trees c p t t' c' : tree_for_segment c p = Some t → update_tree_for_segment c p (λ _, t') = Some c' →
  (∀ u, u ∈ trees c' → u = t' ∨ u ∈ trees c) ∧ (∀ u, u ∈ trees c → u = t ∨ u ∈ trees c') ∧ t' ∈ trees c' ∧ t ∈ trees c ∧
  checkpoints c' = checkpoints c ∧ core_replay_after_wal_id c' = core_replay_after_wal_id c.
Proof.
  unfold tree_for_segment, update_tree_for_segment, trees. destruct (decide (p = [])).
  - intros [= <-] [= <-]. cbn. split_and!; [intros u; rewrite !elem_of_cons; tauto..|left|left|done|done].
  - destruct (find_segment p (segments c)) as [i|i]; [|done]. destruct (segments c !! i) as [s|] eqn:Hs; cbn; [|done]. intros [= <-] [= <-].
    destruct (set_segment_trees (segments c) i s t' Hs) as (H1 & H2 & H3). cbn [tree set_segments segments checkpoints core_replay_after_wal_id].
    split_and!; [| |by right|right; by eapply list_elem_of_fmap_2, list_elem_of_lookup_2|done|done].
    + intros u [->|Hu]%elem_of_cons; [right; left|]. apply H1 in Hu as [?|?]; [by left|right; by right].
    + intros u [->|Hu]%elem_of_cons; [right; left|]. apply H2 in Hu as [?|?]; [by left|right; by right].
Qed.

(** Finishing a compaction of the oldest L0s, with outputs that the job list records. *)
Lemma compaction_operation js up id' s id output s' spec t newer older job :
  finish_compaction s id output = Ok s' → comp_spec <$> compactions_get (cs_compactions s) id = Some spec →
  tree_for_segment (db_state s) (spec_segment spec) = Some t → l0_ordered t →
  l0 t = newer ++ older → Forall (λ v, view_id v ∉ l0_sources (spec_sources spec)) newer → Forall (λ v, view_id v ∈ l0_sources (spec_sources spec)) older →
  job ∈ job_list js → (∀ x, x ∈ run_ssts output → x ∈ up ∧ x ∈ output_sst_ids job) →
  manifest_update js up id' (cs_manifest s) (cs_manifest s').
Proof.
  unfold finish_compaction. destruct (compactions_get (cs_compactions s) id) as [cp|] eqn:Hg; [|done]. intros H [= <-] Ht Hord El Hn Ho Hj Hout.
  apply bind_Ok_inv in H as (dst & _ & H). apply bind_Ok_inv in H as ([] & _ & H). rewrite Ht in H. apply bind_Ok_inv in H as (t' & Hf & H).
  destruct (update_tree_for_segment _ _ _) as [c'|] eqn:Hu; cbn in H; [|done]. injection H as <-.
  destruct (update_tree_trees _ _ _ _ _ Ht Hu) as (H1 & H2 & Hin' & Hin & Ecp & Er).
  match goal with |- manifest_update _ _ _ _ ?x => set (m' := x) end. assert (core m' = c') as Ec.
  { unfold m', update_compaction. destruct (compactions_get _ id); reflexivity. }
  split.
  - apply cutoff_none. intros x Hx. left. rewrite Ec in Hx. apply l0_ids_trees in Hx as (u & Hu' & Hx). apply l0_ids_trees. apply H1 in Hu' as [->|Hu']; [|by exists u].
    exists t. split; [done|]. unfold finish_tree in Hf. apply bind_Ok_inv in Hf as (? & _ & [= <-]).
    assert (x ∈ (λ v, handle_id (view_sst v)) <$> filter (λ v, view_id v ∉ l0_sources (spec_sources (comp_spec cp))) (l0 t)) as Hx' by by destruct (last _).
    apply list_elem_of_fmap in Hx' as (v & -> & [_ Hv]%list_elem_of_filter). by apply (list_elem_of_fmap_2 (λ v, handle_id (view_sst v))).
  - apply newest_le. rewrite Ec. intros u d Hu' Hd. apply H2 in Hu' as [->|Hu']; [|exists u, d; split; [done|]; split; [done|lia]].
    exists t', d. split; [done|]. split; [by eapply finish_tree_newest|lia].
  - intros x (u & Hu' & Hx)%manifest_ssts_trees. rewrite Ec in Hu'. apply H1 in Hu' as [->|Hu']; [|left; apply manifest_ssts_trees; by exists u].
    destruct (finish_tree_ssts _ _ _ _ _ _ Hf Hx) as [?|Hr]; [left; apply manifest_ssts_trees; by exists t|right]. destruct (Hout x Hr). split; [done|right]. by exists job.
  - rewrite Ec, Ecp. intros c Hc. right. by apply list_elem_of_fmap_2.
  - rewrite Ec, Er. done.
Qed.

(** *** The job list *)

(** Trimming the finished jobs keeps the newest job. *)
Lemma retain_update c : keyed c → sorted_run_ulid_cutoff c c = Ok tt → jobs_update (Some c) (retain_active_and_last_finished c).
Proof.
  intros Hk Ho. set (c' := retain_active_and_last_finished c).
  assert (∀ k job, (k, job) ∈ recent_compactions c' → (k, job) ∈ recent_compactions c) as Hsub by (intros k job [_ ?]%list_elem_of_filter; done).
  assert (∀ job, job ∈ compactions_iter c' → job ∈ compactions_iter c) as Hiter.
  { intros job ([k j] & -> & Hj)%list_elem_of_fmap. cbn. apply Hsub in Hj. by apply (list_elem_of_fmap_2 snd) in Hj. }
  split.
  - split; [|intros k job Hj; by apply (kd_id _ Hk), Hsub]. eapply StronglySorted_sublist; [apply sublist_filter|apply Hk].
  - unfold sorted_run_ulid_cutoff in *. destruct (list_find _ (compactions_iter c' ≫= _)) as [[i [j y]]|] eqn:Hf; [|done].
    apply list_find_Some in Hf as (Hy%list_elem_of_lookup_2 & Hlt & _). destruct (list_find _ _) as [[? [? ?]]|] eqn:Hf2 in Ho; [done|].
    rewrite list_find_None, Forall_forall in Hf2. exfalso. apply (Hf2 (j, y)); [|done]. apply list_elem_of_bind in Hy as (j' & Hy & Hj'). apply list_elem_of_bind. exists j'. auto.
  - intros c0 [= <-]. unfold compaction_job_id_cutoff. destruct (max_opt _) as [wm|]; [|done]. destruct (list_find _ _) as [[i j]|] eqn:Hf; [|done].
    apply list_find_Some in Hf as (Hj%list_elem_of_lookup_2 & [Hnone _] & _). exfalso.
    apply Hiter, list_elem_of_fmap in Hj as ([k j'] & -> & Hj). cbn in Hnone. rewrite <- (kd_id _ Hk k j' Hj) in Hnone.
    apply (bm_get_Some _ _ _ (kd_ok _ Hk)) in Hj. unfold compactions_get in Hnone. congruence.
  - cbn. intros job ([k j] & -> & Hj)%list_elem_of_fmap. cbn. pose proof (kd_id _ Hk k j Hj) as ->. destruct (comp_active j) eqn:Ha.
    + exists j. split; [|done]. apply list_elem_of_fmap. exists (comp_id j, j). split; [done|]. apply list_elem_of_filter. split; [by left|done].
    + set (fin := omap (λ b : Ulid * Compaction, if status_finished (comp_status b.2) then Some (comp_id b.2) else None) (recent_compactions c)).
      destruct (max_opt_spec fin (comp_id j)) as (x & Hx & Hle).
      { apply list_elem_of_omap. exists (comp_id j, j). split; [done|]. cbn. unfold comp_active in Ha. by destruct (comp_status j). }
      pose proof (max_opt_elem _ _ Hx) as Hm. apply list_elem_of_omap in Hm as ([k2 j2] & Hj2 & Hs). cbn in Hs. destruct (status_finished (comp_status j2)); [|done]. injection Hs as <-.
      pose proof (kd_id _ Hk k2 j2 Hj2) as ->. exists j2. split; [|done]. apply list_elem_of_fmap. exists (comp_id j2, j2). split; [done|]. apply list_elem_of_filter. split; [right; by symmetry|done].
Qed.


(** ** An execution *)

Module GcExample.

Definition ulid (ms : Z) : Ulid := Z.shiftl ms 80.
Definition sst (ms : Z) : SsTableHandle := mkHandle (ulid ms) 2 (mkInfo (Some [97%Z]) (Some [98%Z]) 0 0 0 0 None Compacted 0 0 CompositeFilter).
Definition view (ms : Z) : SsTableView := mkView (ulid ms) (sst ms) None BytesRange.new_empty.
Definition flushed_tree (ms : list Z) : LsmTreeState := mkTree None None (view <$> ms) [].
Definition manifest0 : Manifest := manifest_initial core_new.
Definition manifest1 : Manifest := with_core manifest0 (set_tree core_new (flushed_tree [5%Z])).
Definition job : Compaction := compaction_new (ulid 7) (Tiered [] [SourceSstView (ulid 5)] 0).
Definition job_file : Compactions := compactions_insert job (compactions_new 1).
Definition metadata : ObjectMetadata := mkObjectMetadata EmptyString 0 10 None None.
Definition listing : list Identified := [mkIdentified (ulid 2) metadata; mkIdentified (ulid 5) metadata].
Definition options : DirectoryOptions := mkDirectoryOptions 0 false.

(** A table of an abandoned upload and a flushed one; the abandoned one is collected. *)
Definition tables : gset Z := {[ulid 5]} ∪ ({[ulid 2]} ∪ ∅).
Definition final : world :=
  mkWorld (<[(1 + 1)%Z := manifest1]> {[1%Z := manifest0]}) (1 + 1) ∅ (Some job_file) tables ({[ulid 2]} ∪ ∅) ∅.

Lemma job_update : jobs_update None job_file.
Proof.
  split; [split|reflexivity|done|by intros j []%not_elem_of_nil].
  - repeat constructor.
  - intros k j [= -> ->]%list_elem_of_singleton. reflexivity.
Qed.

Lemma flush_update : manifest_update None tables (1 + 1) manifest0 manifest1.
Proof.
  split; [reflexivity|left; reflexivity| | |cbn; lia].
  - intros x ->%list_elem_of_singleton. right. split; [unfold tables; set_solver|]. left. left.
  - by intros cp []%not_elem_of_nil.
Qed.

Lemma final_reachable : gc_reachable (final, [DeletingSsts [ulid 2]]).
Proof.
  exists (mkWorld {[1%Z := manifest0]} 1 ∅ None ∅ ∅ ∅, []). split.
  { exists manifest0, ∅. split; [reflexivity|]. split; [reflexivity|]. split; [set_solver|]. by intros x []%not_elem_of_nil. }
  eapply rtc_l; [apply (StepUpload _ _ (ulid 2)); [vm_compute; discriminate|set_solver]|].
  eapply rtc_l; [apply (StepUpload _ _ (ulid 5)); [vm_compute; discriminate|]|].
  { cbn. intros [E%elem_of_singleton|E]%elem_of_union; [by vm_compute in E|set_solver]. }
  eapply rtc_l; [apply (StepManifest _ _ manifest0 manifest1); [reflexivity|exact flush_update]|].
  eapply rtc_l; [apply (StepJobs _ _ job_file); exact job_update|].
  eapply rtc_l; [apply StepReadJobs|].
  eapply rtc_l; [apply (StepReadManifest _ _ 0 (Some job_file) manifest1); [reflexivity|reflexivity]|].
  eapply rtc_l; [apply (StepListSsts _ _ 0 (Some job_file) 2 manifest1 [(2%Z, manifest1)] options None 100 listing); [reflexivity|reflexivity|]|].
  { repeat constructor; cbn; set_solver. }
  eapply rtc_l; [apply (StepDeleteSst _ _ 0 [ulid 2] (ulid 2)); [reflexivity|left]|].
  reflexivity.
Qed.
End GcExample.



(** ** Pruned segments *)

Module PruneExample.
Import GcExample.

Definition with_segments (segs : list Segment) : Manifest :=
  manifest_initial (mkCore true tree_default segs (Some EmptyString) 1 0 0 0 0 tracker_new [] None).
Definition older : Segment := mkSegment [97%Z] (flushed_tree [3%Z]).

(** Two segments with an L0 each; a compaction drains the second, whose tree keeps only the marker. *)
Definition before : Manifest := with_segments [older; mkSegment [98%Z] (flushed_tree [10%Z])].
Definition drained : Manifest := with_segments [older; mkSegment [98%Z] (mkTree (Some (ulid 10)) (Some (ulid 10)) [] [])].

(** The writer merges the drained manifest and commits it with a new checkpoint, then flushes an L0 that was
    uploaded under a clock that is behind. *)
Definition pruned : result Manifest :=
  m ← writer_merge_remote (core before) drained;
  write_checkpoint m 3 50 1 (mkCheckpointOptions None None None).
Definition late : UploadedMemtable := mkUploaded [([97%Z], sst 5)] 1 1 1 tracker_new.
Definition late_job : Compactions := compactions_insert (compaction_new (ulid 20) (Tiered [97%Z] [SourceSstView (ulid 3)] 0)) (compactions_new 1).
End PruneExample.

(** C35: The cutoff invariant does not fence the L0s of a writer with a clock that is behind once a drained segment is
    pruned.  A collector that read the manifest while the segment still carried its marker deletes an uploaded
    table older than the marker.  The writer's next commit prunes the segment and lowers the watermark, and its
    flush of that same table is then accepted by the invariant, so the manifest refers to a deleted table. *)
Theorem pruning_lowers_cutoff :
  ∃ m c, PruneExample.pruned = Ok m ∧ l0_ulid_cutoff m PruneExample.drained = Ok tt ∧
    apply_uploaded_batch (H:=seconds_chrono) true (core m) [PruneExample.late] = Ok c ∧ l0_ulid_cutoff (with_core m c) m = Ok tt ∧
    GcExample.ulid 5 ∈ manifest_ssts (with_core m c) ∧
    compacted_gc_collect GcExample.options None 100 (Some PruneExample.late_job) PruneExample.drained [PruneExample.drained]
      [mkIdentified (GcExample.ulid 5) GcExample.metadata] = [GcExample.ulid 5].
Proof.
  eexists _, _. split; [vm_compute; reflexivity|]. split; [vm_compute; reflexivity|]. split; [vm_compute; reflexivity|].
  split; [vm_compute; reflexivity|]. split; [|vm_compute; reflexivity]. apply (bool_decide_eq_true_1 _). vm_compute. reflexivity.
Qed.
