(* ===== verification/WritePath.v ===== *)
(** * The write path ([batch_write.rs], [db.rs], [db_common.rs], [db_state.rs], [clock.rs])

    What the single writer task does with a batch: its sequence number, the conflict check, the rows, the segment
    check, the log, the active memtable and the decision to freeze it; the flush of the log; and opening, which
    replays the log into memtables.  An outer error of [write_batch] stops the task; an inner one is the answer
    to the client. *)

From S2P Require Export LsmProtocol Transactions WriteBatch Wal.

(** ** The clock ([clock.rs]) *)

(** [MonotonicClock::enforce_monotonic] *)
Definition enforce_monotonic (last_tick tick : Z) : result Z * Z :=
  (if (tick <? last_tick)%Z then Err (InvalidClockTick last_tick tick) else mret tick, Z.max last_tick tick).

(** [MonotonicClock::now]; [tick] is the reading of the system clock, [later] the one after the sleep. *)
Definition clock_now (last_tick tick later : Z) : result Z * Z :=
  match enforce_monotonic last_tick tick with
  | (Err (InvalidClockTick _ _), last_tick) => enforce_monotonic last_tick later
  | r => r
  end.

(** ** The in-memory state ([db_state.rs]) *)

Record DbState := mkDbState {
  memtable : KVTable;
  imm_memtable : list ImmutableMemtable;
  db_core : ManifestCore;
}.

(** [DbState::freeze_memtable] *)
Definition freeze_memtable (st : DbState) (replay_after_wal_id : Z) : DbState :=
  mkDbState table_new (imm_new (memtable st) replay_after_wal_id :: imm_memtable st) (db_core st).

(** [DbState::replace_memtable] *)
Definition replace_memtable (st : DbState) (t : KVTable) : result DbState :=
  _ ← rust_assert (table_is_empty (memtable st));
  mret (mkDbState t (imm_memtable st) (db_core st)).

(** [DbInner::freeze_current_memtable_with_state_guard] *)
Definition freeze_current_memtable (st : DbState) (replay_after_wal_id : Z) : DbState :=
  if table_is_empty (memtable st) then st else freeze_memtable st replay_after_wal_id.

Record WriteSettings := mkWriteSettings {
  l0_sst_size_bytes : Z;
  max_unflushed_bytes : Z;
  memtable_prune_overwrites : bool;
  default_ttl_millis : option Z;
}.

(** The log as the writer sees it: a writer and its observer, or the final status of a log that is not used. *)
Inductive DbWal := WalEnabled (w : SlateDbWalWriter) | WalDisabled (status : WalStatus).

Record DbInner := mkDbInner {
  state : DbState;
  txn_manager : TransactionManager;
  mono_clock : Z;
  wal : DbWal;
}.

Definition with_state (st : DbState) (d : DbInner) : DbInner := mkDbInner st (txn_manager d) (mono_clock d) (wal d).
Definition with_oracle (o : DbOracle) (d : DbInner) : DbInner := mkDbInner (state d) (set_oracle o (txn_manager d)) (mono_clock d) (wal d).

Section write_path.
  Context `{Chrono} (estimate_compacted estimate_wal : nat → Z → Z) (max_wal_flushes_before_l0_flush : Z).
  Context (settings : WriteSettings) (merger : option MergeOperator) (extractor : option PrefixExtractor).
  (** Whether arithmetic overflow panics, and the bound of the extraction loops *)
  Context (overflow_checks : bool) (fuel : nat).

(** [DbWalObserver::status] *)
Definition observer_status (w : DbWal) : result WalStatus :=
  match w with
  | WalEnabled w =>
      match wal_status estimate_wal (wal_inner w) with
      | inl status => mret status
      | inr status => match closed_reason status with Some e => Err (wal_to_db_error e) | None => Panic end
      end
  | WalDisabled status => mret status
  end.

Definition table_estimate (t : KVTable) : Z :=
  let m := table_metadata t in estimate_compacted (entry_num m) (meta_entries_size_in_bytes m).

(** [DbInner::write_entries_to_memtable] *)
Definition write_entries_to_memtable (t : KVTable) (entries : list RowEntry) (touched : BTreeSet bytes) : KVTable :=
  foldl (memtable_put (memtable_prune_overwrites settings)) (record_touched_segments t touched) entries.

(** [DbInner::maybe_freeze_current_memtable] *)
Definition maybe_freeze_current_memtable (d : DbInner) : result DbInner :=
  let st := state d in
  let last_freeze_wal_id :=
    match imm_memtable st with imm :: _ => replay_after_wal_id imm | [] => core_replay_after_wal_id (db_core st) end in
  let wal_should_flush := match wal d with
                          | WalEnabled w => should_flush_memtable max_wal_flushes_before_l0_flush w last_freeze_wal_id
                          | WalDisabled _ => false
                          end in
  if negb wal_should_flush && (table_estimate (memtable st) <? l0_sst_size_bytes settings)%Z then mret d
  else
    status ← observer_status (wal d);
    mret (with_state (freeze_current_memtable st (status_last_flushed_wal_id status)) d).

(** The part of [DbInner::write_batch] after the checks: the log, the memtable, the commit. *)
Definition commit_entries (d : DbInner) (b : WriteBatch) (txn : option Uuid) (commit_seq : Z) (ts : DateTime)
    (entries : list RowEntry) (touched : BTreeSet bytes) : result DbInner :=
  w ← match wal d with
      | WalEnabled w => w ← map_err wal_to_db_error (writer_append estimate_wal (l0_sst_size_bytes settings) w entries); mret (WalEnabled w)
      | WalDisabled s => mret (WalDisabled s)
      end;
  let st := state d in
  let t := write_entries_to_memtable (memtable st) entries touched in
  let m := match txn with
           | Some id => track_recent_committed_txn id commit_seq (txn_manager d)
           | None => track_recent_committed_write_batch (list_to_set (batch_keys b)) commit_seq (txn_manager d)
           end in
  t ← record_sequence t commit_seq ts;
  maybe_freeze_current_memtable (mkDbInner (mkDbState t (imm_memtable st) (db_core st)) m (mono_clock d) w).

(** [DbInner::write_batch]; the handle is the sequence number and the creation time. *)
Definition write_batch (d : DbInner) (b : WriteBatch) (seqnum : Z) (txn : option Uuid) (tick later : Z) (ts : DateTime)
    : result (result (Z * Z) * DbInner) :=
  let '(now, last) := clock_now (mono_clock d) tick later in
  now ← now;
  let '(commit, o) := assign_commit_seq seqnum (oracle (txn_manager d)) in
  let d := with_oracle o (mkDbInner (state d) (txn_manager d) last (wal d)) in
  match commit with
  | Err e => mret (Err e, d)
  | Ok commit_seq =>
      conflict ← match txn with Some id => check_has_conflict id (txn_manager d) | None => mret false end;
      if (conflict : bool) then mret (Err TransactionConflict, d)
      else
        match extract_entries overflow_checks fuel b commit_seq now (default_ttl_millis settings) merger extractor with
        | Err e => mret (Err e, d)
        | Ok (entries, touched, _) =>
            match validate_segment_antichain touched (touched_segments (memtable (state d)))
                    ((λ imm, touched_segments (imm_table imm)) <$> imm_memtable (state d)) (seg_prefix <$> segments (db_core (state d))) with
            | Err e => mret (Err e, d)
            | Ok _ => d ← commit_entries d b txn commit_seq ts entries touched; mret (Ok (commit_seq, now), d)
            | Panic => Panic
            | OutOfFuel => OutOfFuel
            end
        | Panic => Panic
        | OutOfFuel => OutOfFuel
        end
  | Panic => Panic
  | OutOfFuel => OutOfFuel
  end.

(** [DbInner::flush_batch_writer]; the cursor is the last committed sequence number and the log file that holds it. *)
Definition flush_batch_writer (d : DbInner) (freeze : bool) : result ((Z * option Z) * DbInner) :=
  '(wal_file, w) ← match wal d with
                   | WalEnabled w => '(id, w) ← map_err wal_to_db_error (writer_flush w); mret (Some id, WalEnabled w)
                   | WalDisabled s => mret (None, WalDisabled s)
                   end;
  let d := mkDbInner (state d) (txn_manager d) (mono_clock d) w in
  let cursor := (last_committed_seq (oracle (txn_manager d)), wal_file) in
  if freeze then
    status ← observer_status (wal d);
    mret (cursor, with_state (freeze_current_memtable (state d) (status_last_flushed_wal_id status)) d)
  else mret (cursor, d).

(** ** Opening *)

(** [DbInner::maybe_freeze_memtable] *)
Definition maybe_freeze_memtable (st : DbState) (replay_after_wal_id : Z) : DbState :=
  if (max_unflushed_bytes settings <=? table_estimate (memtable st))%Z then freeze_current_memtable st replay_after_wal_id else st.

(** [DbInner::replay_memtable] *)
Definition replay_memtable (d : DbInner) (current_memtable_wal_id : Z) (r : ReplayedMemtable) : result DbInner :=
  let st := freeze_current_memtable (state d) current_memtable_wal_id in
  let o := oracle (txn_manager d) in
  _ ← rust_assert (last_seq o <=? rm_last_seq r)%Z;
  let o := advance_last_seq (rm_last_seq r) o in
  _ ← rust_assert (last_committed_seq o <=? rm_last_seq r)%Z;
  let o := advance_committed_seq (rm_last_seq r) o in
  let '(tick, last) := enforce_monotonic (mono_clock d) (rm_last_tick r) in
  _ ← tick;
  st ← replace_memtable st (rm_table r);
  mret (mkDbInner st (set_oracle o (txn_manager d)) last (wal d)).

(** The prefixes of the rows of a replayed table; a row without one cannot be routed. *)
Fixpoint touched_by (ext : PrefixExtractor) (rows : list RowEntry) (touched : BTreeSet bytes) : result (BTreeSet bytes) :=
  match rows with
  | [] => mret touched
  | e :: rows => p ← extract_segment_prefix (H:=ext) (key e); touched_by ext rows (bs_insert p touched)
  end.

(** The options of [DbInner::replay_wal] *)
Definition replay_options : WalReplayOptions := mkReplayOptions (l0_sst_size_bytes settings) None (memtable_prune_overwrites settings).

(** The body of the loop of [DbInner::replay_wal] for one table; waiting for backpressure does not change the state. *)
Definition replay_table (d : DbInner) (current_memtable_wal_id : Z) (r : ReplayedMemtable) : result DbInner :=
  t ← match extractor with
      | Some ext => touched ← touched_by ext (bm_values (table_map (rm_table r))) []; mret (record_touched_segments (rm_table r) touched)
      | None => mret (rm_table r)
      end;
  let o := oracle (txn_manager d) in
  _ ← rust_assert (last_durable_seq o <=? rm_last_seq r)%Z;
  let d := with_oracle (advance_durable_seq (rm_last_seq r) o) d in
  let d := with_state (maybe_freeze_memtable (state d) current_memtable_wal_id) d in
  replay_memtable d current_memtable_wal_id (mkReplayed t (rm_last_tick r) (rm_last_seq r) (rm_last_wal_id r)).

(** [DbInner::replay_wal] with the files of the log at hand.  A file that is gone may mean that a later writer owns
    the database: [latest_epoch] is the writer epoch of the manifest after a refresh. *)
Fixpoint replay_tables (n : nat) (files : WalFiles) (epoch latest_epoch : Z) (d : DbInner) (r : WalReplayIterator) (current_memtable_wal_id : Z)
    : result DbInner :=
  match n with
  | O => OutOfFuel
  | S n =>
      match replay_next estimate_compacted files r with
      | Ok (None, _) => mret d
      | Ok (Some t, r) =>
          d ← replay_table d current_memtable_wal_id t;
          replay_tables n files epoch latest_epoch d r (rm_last_wal_id t)
      | Err (WalTruncated wal_id) => if (epoch <? latest_epoch)%Z then Err Fenced else Err (WalTruncated wal_id)
      | Err e => Err e
      | Panic => Panic
      | OutOfFuel => OutOfFuel
      end
  end.
End write_path.

(** [DbInner::new]: the state of a database before replay *)
Definition db_inner_new (c : ManifestCore) (w : DbWal) : DbInner :=
  let s := last_l0_seq c in
  mkDbInner (mkDbState table_new [] c) (txn_manager_new (mkOracle s s s)) (last_l0_clock_tick c) w.

(** ** The rows of a batch carry its sequence number *)

Section extracted_rows.
  Context {I : Type} `{RowEntryIterator I} (s : Z) (Inv : I → Prop).
  Hypothesis next_inv : ∀ it o it', Inv it → it_next it = Ok (o, it') → Inv it' ∧ ∀ e, o = Some e → seq e = s.

Lemma extract_loop_seq fuel ext it entries touched n es touched' n' :
  Inv it → Forall (λ e, seq e = s) entries → extract_loop fuel ext it entries touched n = Ok (es, touched', n') → Forall (λ e, seq e = s) es.
Proof using next_inv.
  revert it entries touched n. induction fuel as [|fuel IH]; intros it entries touched n Hi He; [done|]. cbn [extract_loop].
  intros ([o it'] & Hn & Hl)%bind_Ok_inv. destruct (next_inv _ _ _ Hi Hn) as [Hi' Ho]. destruct o as [e|].
  - apply bind_Ok_inv in Hl as (? & _ & Hl). apply bind_Ok_inv in Hl as (t & _ & Hl). apply (IH _ _ _ _ Hi') in Hl; [done|].
    apply Forall_app. split; [done|]. apply Forall_singleton. by apply Ho.
  - rewrite ret_Ok in Hl. by injection Hl as <- _ _.
Qed.

Context `{MergeOperator}.

Definition merge_inv (it : MergeOperatorIterator I) : Prop := Inv (delegate it) ∧ ∀ e, buffered_entry it = Some e → seq e = s.

Lemma update_all_seq t es t' : update_all t es = Ok t' → tracker_seq t' = tracker_seq t.
Proof using Type.
  revert t. induction es as [|e es IH]; intros t; cbn; [rewrite ret_Ok; by intros [= ->]|].
  unfold tracker_update. intros (t1 & Hu & Hr)%bind_Ok_inv. destruct (Z.ltb_spec (tracker_seq t) (seq e)); [done|].
  rewrite ret_Ok in Hu. injection Hu as <-. apply IH in Hr. cbn in Hr. lia.
Qed.
Lemma process_batch_seq k batch t r t' : process_batch k batch t = Ok (r, t') → tracker_seq t' = tracker_seq t.
Proof using Type.
  unfold process_batch. intros (t1 & Hu%update_all_seq & Hr)%bind_Ok_inv. apply bind_Ok_inv in Hr as (x & _ & Hr). rewrite ret_Ok in Hr. congruence.
Qed.

Lemma collect_operands_seq n k exp it next results batch t base results' batch' t' it' :
  merge_inv it → (∀ e, next = Some e → seq e = s) → collect_operands n k exp it next results batch t = Ok (base, results', batch', t', it') →
  merge_inv it' ∧ tracker_seq t' = tracker_seq t.
Proof using next_inv.
  revert it next results batch t. induction n as [|n IH]; intros it next results batch t Hi Hn; [done|]. cbn [collect_operands].
  destruct next as [e|]; [|rewrite ret_Ok; intros [= <- <- <- <- <-]; done].
  destruct (negb (is_matching_entry _ _ _ _)).
  { rewrite ret_Ok. intros [= <- <- <- <- <-]. split; [|done]. split; [apply Hi|]. cbn. intros e' [= <-]. by apply Hn. }
  destruct (negb (is_merge (value e))); [rewrite ret_Ok; intros [= <- <- <- <- <-]; done|].
  intros ([[results1 batch1] t1] & Hb & Hl)%bind_Ok_inv. apply bind_Ok_inv in Hl as ([o d] & Hd & Hl).
  destruct (next_inv _ _ _ (proj1 Hi) Hd) as [Hd' Ho]. apply IH in Hl as [Hi' ->]; [|split; [done|apply Hi]|done]. split; [done|].
  case_decide; [|rewrite ret_Ok in Hb; congruence]. apply bind_Ok_inv in Hb as ([r t2] & Hp%process_batch_seq & Hb). rewrite ret_Ok in Hb. congruence.
Qed.

Lemma merge_op_next_seq n it o it' : merge_inv it → merge_op_next n it = Ok (o, it') → merge_inv it' ∧ ∀ e, o = Some e → seq e = s.
Proof using next_inv.
  intros [Hi Hb]. unfold merge_op_next. intros ([o1 it1] & H1 & H2)%bind_Ok_inv.
  assert (merge_inv it1 ∧ ∀ e, o1 = Some e → seq e = s) as [Hi1 Ho1].
  { destruct (buffered_entry it) as [e|].
    - rewrite ret_Ok in H1. injection H1 as <- <-. split; [done|]. intros e' [= <-]. by apply Hb.
    - apply bind_Ok_inv in H1 as ([o' d] & Hd & H1). rewrite ret_Ok in H1. injection H1 as <- <-.
      destruct (next_inv _ _ _ Hi Hd). split; [|done]. by split. }
  destruct o1 as [e|]; [|rewrite ret_Ok in H2; by injection H2 as <- <-]. specialize (Ho1 e eq_refl).
  destruct (negb (is_merge (value e))); [rewrite ret_Ok in H2; injection H2 as <- <-; split; [done|by intros ? [= <-]]|].
  destruct (match snapshot_barrier_seq it1 with Some _ => _ | None => _ end); [rewrite ret_Ok in H2; injection H2 as <- <-; split; [done|by intros ? [= <-]]|].
  unfold merge_with_older_entries in H2. apply bind_Ok_inv in H2 as ([[[[base results] batch] t] it2] & Hc & H2).
  apply collect_operands_seq in Hc as [Hi2 Ht]; [|done|by intros ? [= <-]]. cbn in Ht.
  apply bind_Ok_inv in H2 as ([results1 t1] & Hp & H2). apply bind_Ok_inv in H2 as (t2 & Hu & H2).
  assert (tracker_seq t2 = s) as Ht2.
  { transitivity (tracker_seq t1).
    - destruct base as [b|]; [|rewrite ret_Ok in Hu; congruence]. apply (update_all_seq t1 [b]). cbn. by rewrite Hu.
    - rewrite <-Ho1, <-Ht. destruct (decide (batch = [])); [rewrite ret_Ok in Hp; congruence|]. apply bind_Ok_inv in Hp as ([r t3] & Hp%process_batch_seq & Hp'). rewrite ret_Ok in Hp'. congruence. }
  case_decide; [rewrite ret_Ok in H2; by injection H2 as <- <-|]. apply bind_Ok_inv in H2 as (f & _ & H2). rewrite ret_Ok in H2.
  injection H2 as <- <-. split; [done|]. by intros ? [= <-].
Qed.
End extracted_rows.

Lemma extract_entries_seq checks fuel b s now d merger ext es touched n :
  extract_entries checks fuel b s now d merger ext = Ok (es, touched, n) → Forall (λ e, seq e = s) es.
Proof.
  unfold extract_entries. intros (it & Hit & Hl)%bind_Ok_inv.
  set (Inv := λ it, Forall (λ e, seq e = s) (wb_iter it)). assert (Inv it) as Hi.
  { unfold batch_iter_new in Hit. apply bind_Ok_inv in Hit as (m & _ & Hit). apply bind_Ok_inv in Hit as (rows & Hm & Hit).
    rewrite ret_Ok in Hit. injection Hit as <-. unfold Inv. cbn. clear -Hm. revert rows Hm.
    induction (flat_ops m) as [|[k op] l IH]; intros rows; cbn -[write_op_to_row_entry]; [rewrite ret_Ok; by intros [= <-]|].
    intros (r & Hr & Hm)%bind_Ok_inv. apply bind_Ok_inv in Hm as (rows' & Hm & E). rewrite ret_Ok in E. injection E as <-.
    constructor; [|by apply IH]. apply bind_Ok_inv in Hr as (x & _ & Hr). rewrite ret_Ok in Hr. injection Hr as <-. by destruct op. }
  assert (∀ it o it', Inv it → it_next it = Ok (o, it') → Inv it' ∧ ∀ e, o = Some e → seq e = s) as Hn.
  { intros it0 o it'. cbn. destruct (wb_iter it0) as [|e l] eqn:E; rewrite ret_Ok; intros Hi0 [= <- <-]; [done|].
    unfold Inv in Hi0 |- *. rewrite E in Hi0. apply Forall_cons in Hi0 as [He Hl0]. split; [done|]. by intros ? [= <-]. }
  destruct (has_merge_ops b).
  - destruct merger as [op|]; [|done]. eapply (extract_loop_seq s (merge_inv s Inv)) in Hl; [done| |by split|done].
    intros it0 o it'. cbn. by apply merge_op_next_seq.
  - by eapply (extract_loop_seq s Inv) in Hl.
Qed.

(** ** What a write does *)

(** A table without the segments and the sequence tracker it carries *)
Definition row_fields (t : KVTable) := (table_map t, entries_size_in_bytes t, last_tick t, table_last_seq t, table_first_seq t).

Lemma memtable_put_fields prune t t' e : row_fields t = row_fields t' → row_fields (memtable_put prune t e) = row_fields (memtable_put prune t' e).
Proof.
  destruct t as [m1 s1 k1 l1 f1 q1 p1], t' as [m2 s2 k2 l2 f2 q2 p2]. intros [= -> -> -> -> ->].
  unfold memtable_put, put_and_prune_overwritten, table_put, put_inner. destruct prune; [|done]. cbn -[bm_after].
  destruct (is_merge (value e)); [done|]. destruct (bm_after _ _) as [[k older]|]; [|done]. by case_decide.
Qed.
Lemma foldl_put_fields prune t t' es :
  row_fields t = row_fields t' → row_fields (foldl (memtable_put prune) t es) = row_fields (foldl (memtable_put prune) t' es).
Proof. revert t t'. induction es as [|e es IH]; intros t t' Ht; [done|]. cbn. apply IH. by apply memtable_put_fields. Qed.
Lemma record_touched_fields t p : row_fields (record_touched_segments t p) = row_fields t.
Proof. unfold record_touched_segments. by case_decide. Qed.
Lemma record_sequence_fields `{Chrono} {E} t s ts t' : record_sequence (E:=E) t s ts = Ok t' → row_fields t' = row_fields t.
Proof. unfold record_sequence. intros (tr & _ & Ht)%bind_Ok_inv. rewrite ret_Ok in Ht. by injection Ht as <-. Qed.

(** A freeze of the state [st] with the log position [id] *)
Definition maybe_frozen (st st' : DbState) (id : Z) : Prop := st' = st ∨ st' = freeze_current_memtable st id.

Lemma append_entries b es : wb_entries (foldl wal_buffer_append b es) = wb_entries b ++ es.
Proof. revert b. induction es as [|e es IH]; intros b; cbn; [by rewrite app_nil_r|]. rewrite IH. cbn. by rewrite <-app_assoc. Qed.

Definition appended (i i' : SlateDbWalWriterInner) (entries : list RowEntry) : Prop :=
  i' = mkWalInner (foldl wal_buffer_append (current_wal i) entries) (immutable_wals i) (next_wal_id i) (flush_epoch i)
         (last_flushed_wal_id i) (last_flushed_seq i) (flush_task_exited_reason i).

(** What a client is told and what is left of its batch *)
Inductive write_outcome (prune : bool) (d : DbInner) (w : SlateDbWalWriter) : result (Z * Z) → DbInner → Prop :=
| Rejected e d' q :
    (last_seq (oracle (txn_manager d)) ≤ q)%Z → state d' = state d → wal d' = wal d →
    txn_manager d' = set_oracle (mkOracle q (last_committed_seq (oracle (txn_manager d))) (last_durable_seq (oracle (txn_manager d)))) (txn_manager d) →
    write_outcome prune d w (Err e) d'
| Accepted s now entries t d' w' :
    (last_seq (oracle (txn_manager d)) < s)%Z → Forall (λ e, seq e = s) entries →
    wal d' = WalEnabled w' → appended (wal_inner w) (wal_inner w') entries →
    row_fields t = row_fields (foldl (memtable_put prune) (memtable (state d)) entries) →
    maybe_frozen (mkDbState t (imm_memtable (state d)) (db_core (state d))) (state d') (last_flushed_wal_id (wal_inner w)) →
    oracle (txn_manager d') = mkOracle s (Z.max (last_committed_seq (oracle (txn_manager d))) s) (last_durable_seq (oracle (txn_manager d))) →
    write_outcome prune d w (Ok (s, now)) d'.

Lemma writer_append_inv est size w entries w' : writer_append est size w entries = Ok w' → appended (wal_inner w) (wal_inner w') entries.
Proof.
  unfold writer_append, wal_append. intros (i & Hi & Hm)%bind_Ok_inv. apply bind_Ok_inv in Hi as (u & _ & Hi). rewrite ret_Ok in Hi. injection Hi as <-.
  unfold maybe_trigger_flush in Hm. destruct (needs_flush _ _ _) as [need epoch]. apply bind_Ok_inv in Hm as (w1 & Hw1 & Hm).
  assert (wal_inner w' = wal_inner w1) as ->.
  { destruct (wal_status _ _); [rewrite ret_Ok in Hm; by injection Hm as <-|]. by destruct (closed_reason _). }
  destruct (need && _).
  - apply bind_Ok_inv in Hw1 as (x & _ & Hw1). rewrite ret_Ok in Hw1. by injection Hw1 as <-.
  - rewrite ret_Ok in Hw1. by injection Hw1 as <-.
Qed.

Lemma tracked_oracle txn b s m :
  oracle (match txn with
          | Some id => track_recent_committed_txn id s m
          | None => track_recent_committed_write_batch (list_to_set (batch_keys b)) s m
          end) = advance_committed_seq s (oracle m).
Proof.
  assert (∀ t m, oracle (track_recent_committed_state t m) = oracle m) as Ho.
  { intros t m0. unfold track_recent_committed_state. by destruct (min_conflict_check_seq _). }
  destruct txn as [id|]; cbn; [|by rewrite Ho]. destruct (active_txns m !! id); cbn; [by rewrite Ho|done].
Qed.

Section outcome.
  Context `{Chrono} (est_c est_w : nat → Z → Z) (max_flushes : Z) (settings : WriteSettings).

Lemma observer_status_id w st : observer_status est_w (WalEnabled w) = Ok st → status_last_flushed_wal_id st = last_flushed_wal_id (wal_inner w).
Proof using Type.
  unfold observer_status, wal_status, compute_status. cbn [closed_reason]. destruct (flush_task_exited_reason (wal_inner w)); cbn; [done|].
  rewrite ret_Ok. by intros [= <-].
Qed.

Lemma maybe_freeze_inv d w d' : wal d = WalEnabled w → maybe_freeze_current_memtable est_c est_w max_flushes settings d = Ok d' →
  maybe_frozen (state d) (state d') (last_flushed_wal_id (wal_inner w)) ∧ wal d' = wal d ∧ txn_manager d' = txn_manager d.
Proof using Type.
  intros Hw. unfold maybe_freeze_current_memtable. destruct (negb _ && _); [rewrite ret_Ok; intros [= <-]; split; [by left|done]|].
  intros (st & Hs & Hd)%bind_Ok_inv. rewrite Hw in Hs. apply observer_status_id in Hs. rewrite ret_Ok in Hd. injection Hd as <-. rewrite Hs. cbn.
  split; [by right|done].
Qed.

Lemma write_batch_outcome merger extractor checks fuel d w b seqnum txn tick later ts res d' :
  wal d = WalEnabled w → seq_room (oracle (txn_manager d)) → (0 ≤ seqnum)%Z →
  write_batch est_c est_w max_flushes settings merger extractor checks fuel d b seqnum txn tick later ts = Ok (res, d') →
  write_outcome (memtable_prune_overwrites settings) d w res d'.
Proof using Type.
  intros Hw Hroom Hs. unfold write_batch. destruct (clock_now _ _ _) as [now last]. intros (now' & _ & Hb)%bind_Ok_inv.
  destruct (assign_commit_seq seqnum (oracle (txn_manager d))) as [commit o] eqn:Ha.
  assert ((last_seq (oracle (txn_manager d)) ≤ last_seq o)%Z ∧
    o = mkOracle (last_seq o) (last_committed_seq (oracle (txn_manager d))) (last_durable_seq (oracle (txn_manager d))) ∧
    ∀ s, commit = Ok s → (last_seq (oracle (txn_manager d)) < s)%Z ∧ last_seq o = s) as (Hle & Ho & Hc).
  { unfold assign_commit_seq, seq_room in *. destruct (Z.ltb_spec 0 seqnum).
    - destruct (Z.leb_spec seqnum (last_seq (oracle (txn_manager d)))); injection Ha as <- <-.
      + split; [lia|]. split; [by destruct (oracle _)|]. by intros ? [=].
      + cbn. split; [lia|]. split; [done|]. rewrite ret_Ok. intros ? [= <-]. lia.
    - unfold next_seq in Ha. rewrite ret_Ok in Ha. injection Ha as <- <-. cbn. unfold wrap. rewrite Z.mod_small by lia. split; [lia|]. split; [done|].
      intros ? [= <-]. lia. }
  set (d1 := with_oracle o _) in Hb. assert (∀ e, write_outcome (memtable_prune_overwrites settings) d w (Err e) d1) as Hrej.
  { intros e. eapply Rejected; [exact Hle|done|done|]. cbn. by rewrite <-Ho. }
  destruct commit as [s|e| |]; [|rewrite ret_Ok in Hb; by injection Hb as <- <-|done|done]. destruct (Hc s eq_refl) as [Hlt Hls].
  apply bind_Ok_inv in Hb as (conflict & _ & Hb). destruct conflict; [rewrite ret_Ok in Hb; by injection Hb as <- <-|].
  destruct (extract_entries _ _ _ _ _ _ _ _) as [[[entries touched] n]|e| |] eqn:He; [|rewrite ret_Ok in Hb; by injection Hb as <- <-|done|done].
  apply extract_entries_seq in He. destruct (validate_segment_antichain _ _ _ _) as [u|e| |]; [|rewrite ret_Ok in Hb; by injection Hb as <- <-|done|done].
  apply bind_Ok_inv in Hb as (d2 & Hd & Hb). rewrite ret_Ok in Hb. injection Hb as <- <-.
  unfold commit_entries in Hd. cbn [wal d1 with_oracle state] in Hd. rewrite Hw in Hd. apply bind_Ok_inv in Hd as (w1 & Hw1 & Hd).
  apply bind_Ok_inv in Hw1 as (w2 & Hap & Hw1). rewrite ret_Ok in Hw1. injection Hw1 as <-.
  apply bind_Ok_inv in Hd as (t & Ht%record_sequence_fields & Hd).
  eapply maybe_freeze_inv in Hd as (Hf & Hwal & Htm); [|done]. cbn [wal state] in Hf, Hwal.
  assert (appended (wal_inner w) (wal_inner w2) entries) as Happ.
  { destruct (writer_append _ _ _ _) as [x|?| |] eqn:Hx in Hap; try done. cbn in Hap. injection Hap as ->. by apply writer_append_inv in Hx. }
  eapply (Accepted _ _ _ s now' entries t); [done|done|by rewrite Hwal|done| | |].
  - rewrite Ht. unfold write_entries_to_memtable. by apply foldl_put_fields, record_touched_fields.
  - by rewrite Happ in Hf.
  - rewrite Htm. cbn. rewrite tracked_oracle. cbn. rewrite Ho, Hls. done.
Qed.

(** C16: A write is all or nothing.  A batch that is refused (its sequence number was used, it conflicts with a
    transaction, its rows cannot be extracted or routed) leaves the memtables and the log as they were, and at most
    its sequence number is spent.  A batch that is accepted gets a sequence number above all earlier ones, its rows
    carry that number, and the same rows, in the same order, are appended to the log and put into the memtable,
    which may then be frozen with the position of the log. *)
Theorem write_batch_atomic merger extractor checks fuel d w b seqnum txn tick later ts res d' :
  wal d = WalEnabled w → seq_room (oracle (txn_manager d)) → (0 ≤ seqnum)%Z →
  write_batch est_c est_w max_flushes settings merger extractor checks fuel d b seqnum txn tick later ts = Ok (res, d') →
  let o := oracle (txn_manager d) in
  let o' := oracle (txn_manager d') in
  last_durable_seq o' = last_durable_seq o ∧
  match res with
  | Ok (s, _) =>
      (last_seq o < s)%Z ∧ last_seq o' = s ∧ last_committed_seq o' = Z.max (last_committed_seq o) s ∧
      ∃ entries w' t, Forall (λ e, seq e = s) entries ∧ wal d' = WalEnabled w' ∧
        wb_entries (current_wal (wal_inner w')) = wb_entries (current_wal (wal_inner w)) ++ entries ∧
        immutable_wals (wal_inner w') = immutable_wals (wal_inner w) ∧
        row_fields t = row_fields (foldl (memtable_put (memtable_prune_overwrites settings)) (memtable (state d)) entries) ∧
        maybe_frozen (mkDbState t (imm_memtable (state d)) (db_core (state d))) (state d') (last_flushed_wal_id (wal_inner w))
  | Err _ => state d' = state d ∧ wal d' = wal d ∧ (last_seq o ≤ last_seq o')%Z ∧ last_committed_seq o' = last_committed_seq o
  | _ => False
  end.
Proof using Type.
  intros Hw Hroom Hs Hb. eapply write_batch_outcome in Hb; [|done..]. cbn zeta. destruct Hb as [e d' q Hle Es Ew Em|s now es t d' w' Hlt Hes Ew Happ Et Hf Eo].
  - rewrite Em. cbn. done.
  - rewrite Eo. cbn. split; [done|]. split; [done|]. split; [done|]. split; [done|]. exists es, w', t. rewrite Happ. cbn. by rewrite append_entries.
Qed.
End outcome.

Lemma write_batch_atomic_witness :
  let size_of := λ (_ : nat) (s : Z), s in
  let d := db_inner_new core_new (WalEnabled (mkWalWriter (wal_start_new 1) 0 0)) in
  let b := mkBatch [([97%Z], [OpPut [1%Z] (mkPutOptions NoExpiry)])] 1 false in
  ∃ d', write_batch (H:=seconds_chrono) size_of size_of 10 (mkWriteSettings 1000 1000 false None) None None true 10 d b 0 None 5 5 5%Z = Ok (Ok (1%Z, 5%Z), d') ∧
    ∃ entries, Forall (λ e, seq e = 1%Z) entries ∧ wb_entries (current_wal match wal d' with WalEnabled w => wal_inner w | _ => wal_start_new 0 end) = entries.
Proof.
  intros size_of d b. eexists. split; [vm_compute; reflexivity|].
  destruct (write_batch_atomic (H:=seconds_chrono) size_of size_of 10 (mkWriteSettings 1000 1000 false None) None None true 10 d
              (mkWalWriter (wal_start_new 1) 0 0) b 0 None 5 5 5%Z (Ok (1%Z, 5%Z)) _ eq_refl ltac:(by vm_compute) ltac:(by vm_compute) ltac:(vm_compute; reflexivity))
    as (_ & _ & _ & _ & es & w' & t & Hes & Hw & He & _).
  exists es. split; [exact Hes|]. rewrite Hw. exact He.
Defined.
