(* ===== verification/Recovery.v ===== *)
(** * Crash recovery

    Writers that open the database one after the other, some of which keep running after they were replaced, over
    one log and one manifest.  Each step is what one task of one writer does between two points where others can
    act, with the operations of the write path, the log and the manifest writer. *)

From S2P Require Export WritePath.

(** What of the manifest the writer owns and recovery uses *)
Record Marks := mkMarks { m_replay_after : Z; m_last_l0_seq : Z; m_last_l0_tick : Z }.
Definition marks (c : ManifestCore) : Marks := mkMarks (core_replay_after_wal_id c) (last_l0_seq c) (last_l0_clock_tick c).

(** How far a writer has come.  [Fencing]: it holds the epoch, read the marks and tries to create file
    [empty_wal_id].  [Checking]: the file is its fence, the epoch is to be checked once more.  [Replaying]: it
    reads the log, and its active memtable holds what it read up to file [wal_id]. *)
Inductive Phase :=
| Fencing (empty_wal_id : Z) (m : Marks)
| Checking (empty_wal_id : Z) (m : Marks)
| Replaying (r : WalReplayIterator) (wal_id : Z)
| Running.

(** A writer.  [w_put]: the oldest log buffer is uploaded, which is not recorded yet.  [w_flushed]: the memtables
    whose SSTs the local manifest lists.  [w_accepted]: the rows of the batches it took. *)
Record Writer := mkWriter {
  w_epoch : Z;
  w_phase : Phase;
  w_db : DbInner;
  w_put : bool;
  w_flushed : list KVTable;
  w_accepted : list RowEntry;
}.

(** The object store and the writers.  [s_log] is the history of the log: the rows of each file, by id, from file 1;
    [s_files] are the files that exist.  [s_fence_epoch]: the epoch of the last writer that fenced the log. *)
Record System := mkSystem {
  s_files : WalFiles;
  s_log : list (list RowEntry);
  s_marks : Marks;
  s_flushed : list KVTable;
  s_epoch : Z;
  s_fence_epoch : Z;
  s_fence_id : Z;
  s_writers : list Writer;
}.

Definition top (log : list (list RowEntry)) : Z := Z.of_nat (length log).

Definition set_phase (ph : Phase) (w : Writer) : Writer := mkWriter (w_epoch w) ph (w_db w) (w_put w) (w_flushed w) (w_accepted w).
Definition set_db (d : DbInner) (w : Writer) : Writer := mkWriter (w_epoch w) (w_phase w) d (w_put w) (w_flushed w) (w_accepted w).
Definition accept (rows : list RowEntry) (w : Writer) : Writer :=
  mkWriter (w_epoch w) (w_phase w) (w_db w) (w_put w) (w_flushed w) (w_accepted w ++ rows).
Definition set_put (b : bool) (w : Writer) : Writer := mkWriter (w_epoch w) (w_phase w) (w_db w) b (w_flushed w) (w_accepted w).
Definition set_flushed (l : list KVTable) (w : Writer) : Writer := mkWriter (w_epoch w) (w_phase w) (w_db w) (w_put w) l (w_accepted w).

Definition set_writers (ws : list Writer) (s : System) : System :=
  mkSystem (s_files s) (s_log s) (s_marks s) (s_flushed s) (s_epoch s) (s_fence_epoch s) (s_fence_id s) ws.

Definition with_wal (i : SlateDbWalWriterInner) (d : DbInner) : DbInner :=
  match wal d with
  | WalEnabled w => mkDbInner (state d) (txn_manager d) (mono_clock d) (WalEnabled (mkWalWriter i (last_flush_requested_epoch w) (flush_requests w)))
  | WalDisabled _ => d
  end.
Definition inner_of (d : DbInner) : SlateDbWalWriterInner :=
  match wal d with WalEnabled w => wal_inner w | WalDisabled _ => wal_start_new 0 end.
Definition opened (w : Writer) : bool := match w_phase w with Replaying _ _ | Running => true | _ => false end.

(** What [apply_uploaded_state] is given for an immutable memtable and the SSTs it was uploaded to *)
Definition uploaded_of (imm : ImmutableMemtable) (segs : list (bytes * SsTableHandle)) : UploadedMemtable :=
  mkUploaded segs (table_last_seq (imm_table imm)) (replay_after_wal_id imm) (last_tick (imm_table imm)) (imm_sequence_tracker imm).

Section system.
  Context `{Chrono} (estimate_compacted estimate_wal : nat → Z → Z) (max_wal_flushes : Z).
  Context (settings : WriteSettings) (merger : option MergeOperator) (extractor : option PrefixExtractor) (overflow_checks : bool) (fuel : nat).

(** What one writer does to itself: the writer task, the log task and the manifest writer. *)
Inductive local_step (files : WalFiles) : Writer → Writer → Prop :=
| StepWrite w d' res b seqnum txn tick later ts rows :
    w_phase w = Running → seq_room (oracle (txn_manager (w_db w))) → (0 ≤ seqnum < 2 ^ 64)%Z →
    write_batch estimate_compacted estimate_wal max_wal_flushes settings merger extractor overflow_checks fuel
      (w_db w) b seqnum txn tick later ts = Ok (res, d') →
    wb_entries (current_wal (inner_of d')) = wb_entries (current_wal (inner_of (w_db w))) ++ rows →
    local_step files w (accept rows (set_db d' w))
| StepFlush w d' freeze cursor :
    w_phase w = Running → flush_batch_writer estimate_wal (w_db w) freeze = Ok (cursor, d') →
    local_step files w (set_db d' w)
| StepFreezeWal w :
    opened w = true → local_step files w (set_db (with_wal (freeze_current_wal (inner_of (w_db w))).2 (w_db w)) w)
| StepRecord w id b rest i' :
    opened w = true → w_put w = true → immutable_wals (inner_of (w_db w)) = (id, b) :: rest →
    record_flushed_wal (inner_of (w_db w)) id b = Ok i' →
    local_step files w (set_put false (set_db (with_oracle (match last_flushed_seq i' with
        | Some q => advance_durable_seq q (oracle (txn_manager (w_db w))) | None => oracle (txn_manager (w_db w)) end) (with_wal i' (w_db w))) w))
| StepStage w newer imm segs segmented c' :
    opened w = true → imm_memtable (state (w_db w)) = newer ++ [imm] →
    (table_last_seq (imm_table imm) ≤ last_durable_seq (oracle (txn_manager (w_db w))))%Z →
    apply_uploaded segmented (db_core (state (w_db w))) (uploaded_of imm segs) = Ok c' →
    local_step files w (set_flushed (w_flushed w ++ [imm_table imm])
      (set_db (with_state (mkDbState (memtable (state (w_db w))) newer c') (w_db w)) w))
| StepCore w c' :
    opened w = true → marks c' = marks (db_core (state (w_db w))) →
    local_step files w (set_db (with_state (mkDbState (memtable (state (w_db w))) (imm_memtable (state (w_db w))) c') (w_db w)) w)
| StepReplay w r cur t r' d' :
    w_phase w = Replaying r cur → replay_next estimate_compacted files r = Ok (Some t, r') →
    replay_table estimate_compacted settings extractor (w_db w) cur t = Ok d' →
    local_step files w (set_phase (Replaying r' (rm_last_wal_id t)) (set_db d' w))
| StepReplayed w r cur r' :
    w_phase w = Replaying r cur → replay_next estimate_compacted files r = Ok (None, r') →
    local_step files w (set_phase Running w).

(** The steps that touch the object store *)
Inductive recovery_step : System → System → Prop :=
| StepLocal s l w l' w' :
    s_writers s = l ++ w :: l' → local_step (s_files s) w w' → recovery_step s (set_writers (l ++ w' :: l') s)
| StepDie s l w l' : s_writers s = l ++ w :: l' → recovery_step s (set_writers (l ++ l') s)
| StepOpen s n d :
    (n ≤ top (s_log s) + 1)%Z →
    recovery_step s (mkSystem (s_files s) (s_log s) (s_marks s) (s_flushed s) (s_epoch s + 1) (s_fence_epoch s) (s_fence_id s)
      (s_writers s ++ [mkWriter (s_epoch s + 1) (Fencing n (s_marks s)) d false [] []]))
| StepRecompute s l w l' n n' m :
    s_writers s = l ++ w :: l' → w_phase w = Fencing n m → (n ≤ m_replay_after m)%Z → (n' ≤ top (s_log s) + 1)%Z → s_epoch s = w_epoch w →
    recovery_step s (set_writers (l ++ set_phase (Fencing n' m) w :: l') s)
| StepNextId s l w l' n m :
    s_writers s = l ++ w :: l' → w_phase w = Fencing n m → (m_replay_after m < n)%Z → is_Some (s_files s !! n) → s_epoch s = w_epoch w →
    recovery_step s (set_writers (l ++ set_phase (Fencing (n + 1) m) w :: l') s)
| StepFence s l w l' n m files' :
    s_writers s = l ++ w :: l' → w_phase w = Fencing n m → (m_replay_after m < n)%Z → write_create (s_files s) n [] = Ok files' →
    let new := bool_decide (n = top (s_log s) + 1)%Z in
    recovery_step s (mkSystem files' (if new then s_log s ++ [[]] else s_log s) (s_marks s) (s_flushed s) (s_epoch s)
      (if new then w_epoch w else s_fence_epoch s) (if new then n else s_fence_id s) (l ++ set_phase (Checking n m) w :: l'))
| StepCheck s l w l' n m c :
    s_writers s = l ++ w :: l' → w_phase w = Checking n m → s_epoch s = w_epoch w → marks c = s_marks s →
    let r := replay_for_wal_iterator (wal_iter_range (m_replay_after m + 1) (n + 1)) (core_replay_after_wal_id c) (last_l0_seq c) (last_l0_clock_tick c)
               (replay_options settings) in
    recovery_step s (set_writers (l ++ mkWriter (w_epoch w) (Replaying r (core_replay_after_wal_id c))
      (db_inner_new c (WalEnabled (mkWalWriter (wal_start_new n) 0 0))) false (s_flushed s) [] :: l') s)
| StepPut s l w l' id b rest files' :
    s_writers s = l ++ w :: l' → opened w = true → w_put w = false → immutable_wals (inner_of (w_db w)) = (id, b) :: rest →
    write_create (s_files s) id (wb_entries b) = Ok files' →
    recovery_step s (mkSystem files' (s_log s ++ [wb_entries b]) (s_marks s) (s_flushed s) (s_epoch s) (s_fence_epoch s) (s_fence_id s)
      (l ++ set_put true w :: l'))
| StepCommit s l w l' :
    s_writers s = l ++ w :: l' → opened w = true → s_epoch s = w_epoch w →
    let c := db_core (state (w_db w)) in
    recovery_step s (mkSystem (s_files s) (s_log s) (marks c) (w_flushed w) (s_epoch s) (s_fence_epoch s) (s_fence_id s)
      (l ++ set_db (with_oracle (advance_durable_seq (last_l0_seq c) (oracle (txn_manager (w_db w)))) (w_db w)) w :: l'))
| StepCollect s id rows :
    (id ≤ m_replay_after (s_marks s))%Z → s_files s !! id = Some rows → rows ≠ [] →
    recovery_step s (mkSystem (delete id (s_files s)) (s_log s) (s_marks s) (s_flushed s) (s_epoch s) (s_fence_epoch s) (s_fence_id s) (s_writers s)).

(** A database that was just created *)
Definition recovery_initial : System := mkSystem ∅ [] (mkMarks 0 0 I64_MIN) [] 0 0 0 [].
Definition recoverable (s : System) : Prop := rtc recovery_step recovery_initial s.
End system.
