(* ===== verification/RecoveryInv.v ===== *)
(** * The invariant of crash recovery

    The invariant of the writers of [Recovery]: what a memtable was filled with, what the manifest's marks say of the
    log, what the log's buffers hold, and what the writer that fenced the log last has read; with one lemma for each
    thing that a writer does to its own state. *)

From S2P Require Export Recovery.

(** ** Rows by sequence number *)

Definition before (a b : list RowEntry) : Prop := ∀ x y, x ∈ a → y ∈ b → (seq x < seq y)%Z.
Definition increasing (gs : list (list RowEntry)) : Prop := StronglySorted before gs.
Definition seq_sorted (l : list RowEntry) : Prop := StronglySorted (λ a b, (seq a ≤ seq b)%Z) l.

Lemma before_nil_l b : before [] b.
Proof. by intros x y []%not_elem_of_nil. Qed.
Lemma before_nil_r a : before a [].
Proof. by intros x y _ []%not_elem_of_nil. Qed.
Lemma before_app_l a b c : before (a ++ b) c ↔ before a c ∧ before b c.
Proof. unfold before. set_solver. Qed.
Lemma before_app_r a b c : before a (b ++ c) ↔ before a b ∧ before a c.
Proof. unfold before. set_solver. Qed.

Lemma before_concat_l gs b : before (concat gs) b ↔ Forall (λ g, before g b) gs.
Proof.
  induction gs as [|g gs IH]; cbn; [split; [done|intros _; apply before_nil_l]|].
  by rewrite before_app_l, IH, Forall_cons.
Qed.
Lemma before_concat_r a gs : before a (concat gs) ↔ Forall (before a) gs.
Proof.
  induction gs as [|g gs IH]; cbn; [split; [done|intros _; apply before_nil_r]|].
  by rewrite before_app_r, IH, Forall_cons.
Qed.

Lemma increasing_app gs gs' : increasing (gs ++ gs') ↔ increasing gs ∧ increasing gs' ∧ before (concat gs) (concat gs').
Proof.
  unfold increasing. induction gs as [|g gs IH]; cbn.
  - split; [intros ?; split_and!; [constructor|done|apply before_nil_l]|tauto].
  - split.
    + intros [HS HF]%StronglySorted_inv. apply IH in HS as (H1 & H2 & H3). apply Forall_app in HF as [HF1 HF2].
      split_and!; [by constructor|done|]. apply before_app_l. split; [by apply before_concat_r|done].
    + intros ([HS HF]%StronglySorted_inv & H2 & [H3 H4]%before_app_l). constructor; [by apply IH|].
      apply Forall_app. split; [done|by apply before_concat_r].
Qed.
Lemma increasing_one g : increasing [g].
Proof. repeat constructor. Qed.
Lemma increasing_snoc gs g : increasing (gs ++ [g]) ↔ increasing gs ∧ before (concat gs) g.
Proof. rewrite increasing_app. cbn. rewrite app_nil_r. split; [tauto|]. intros [??]. split_and!; [done|apply increasing_one|done]. Qed.

(** A list cut at a sequence number has only one such cut. *)
Lemma cut_prefix a b l p d : a ++ b = l ++ p → Forall (λ x, (seq x ≤ d)%Z) a → Forall (λ x, (d < seq x)%Z) p → a `prefix_of` l.
Proof.
  intros E Ha Hp. apply app_eq_inv in E as [(k & -> & ->)|(k & -> & ->)]; [|by apply prefix_app_r].
  destruct k as [|x k]; [by rewrite app_nil_r|]. exfalso.
  apply Forall_app in Ha as [_ Ha]. apply Forall_cons in Ha as [Ha _]. apply Forall_cons in Hp as [Hp _]. lia.
Qed.

Lemma filter_cut F rest L : Forall (λ x, (seq x ≤ L)%Z) F → Forall (λ x, (L < seq x)%Z) rest → filter (λ x, (L < seq x)%Z) (F ++ rest) = rest.
Proof.
  intros HF Hr. rewrite filter_app. rewrite (list_filter_none (λ x, (L < seq x)%Z) F); [|eapply Forall_impl; [exact HF|]; cbn; lia].
  cbn. by apply list_filter_all.
Qed.

(** ** The log *)

Definition log_upto (log : list (list RowEntry)) (k : Z) : list RowEntry := concat (take (Z.to_nat k) log).
Definition log_file (log : list (list RowEntry)) (id : Z) : option (list RowEntry) :=
  if decide (1 ≤ id)%Z then log !! Z.to_nat (id - 1) else None.

Lemma log_upto_all log k : (top log ≤ k)%Z → log_upto log k = concat log.
Proof. unfold log_upto, top. intros ?. by rewrite take_ge by lia. Qed.
Lemma log_upto_grow log x k : (k ≤ top log)%Z → log_upto (log ++ [x]) k = log_upto log k.
Proof. unfold log_upto, top. intros ?. by rewrite take_app_le by lia. Qed.
Lemma log_upto_le log k k' : (k ≤ k')%Z → log_upto log k `prefix_of` log_upto log k'.
Proof.
  unfold log_upto. intros ?. replace (take (Z.to_nat k) log) with (take (Z.to_nat k) (take (Z.to_nat k') log)) by (rewrite take_take; f_equal; lia).
  rewrite <-(take_drop (Z.to_nat k) (take (Z.to_nat k') log)) at 2. rewrite concat_app. by apply prefix_app_r.
Qed.
Lemma log_upto_prefix log k : log_upto log k `prefix_of` concat log.
Proof. rewrite <-(log_upto_all log (Z.max k (top log))) by lia. apply log_upto_le. lia. Qed.
Lemma log_upto_succ log k rows : (0 ≤ k)%Z → log_file log (k + 1) = Some rows → log_upto log (k + 1) = log_upto log k ++ rows.
Proof.
  unfold log_file, log_upto. intros ?. rewrite decide_True by lia. replace (k + 1 - 1)%Z with k by lia. intros Hl.
  replace (Z.to_nat (k + 1)) with (S (Z.to_nat k)) by lia. erewrite take_S_r by done. rewrite concat_app. cbn. by rewrite app_nil_r.
Qed.
Lemma log_file_Some log id : is_Some (log_file log id) ↔ (1 ≤ id ≤ top log)%Z.
Proof.
  unfold log_file, top. case_decide; [|split; [by intros [? [=]]|lia]]. rewrite lookup_lt_is_Some. lia.
Qed.
Lemma log_file_grow log x id rows : log_file log id = Some rows → log_file (log ++ [x]) id = Some rows.
Proof. unfold log_file. case_decide; [|done]. apply lookup_app_l_Some. Qed.
Lemma log_file_new log x : log_file (log ++ [x]) (top log + 1) = Some x.
Proof. unfold log_file, top. rewrite decide_True by lia. replace (Z.to_nat (Z.of_nat (length log) + 1 - 1)) with (length log) by lia. by apply list_lookup_middle. Qed.
Lemma log_file_grow_inv log x id rows : log_file (log ++ [x]) id = Some rows → log_file log id = Some rows ∨ id = (top log + 1)%Z ∧ rows = x.
Proof.
  unfold log_file, top. case_decide; [|done]. intros [?|[? Hx]]%lookup_app_Some; [by left|right].
  apply list_lookup_singleton_Some in Hx as [? ->]. split; [lia|done].
Qed.
Lemma top_grow log x : top (log ++ [x]) = (top log + 1)%Z.
Proof. unfold top. rewrite length_app. cbn. lia. Qed.
Lemma log_file_elem log id rows x : log_file log id = Some rows → x ∈ rows → x ∈ concat log.
Proof.
  unfold log_file. case_decide; [|done]. intros Hl Hx. apply elem_of_concat. exists rows. split; [done|].
  by eapply list_elem_of_lookup_2.
Qed.

(** Rows of later files come after those of earlier ones. *)
Lemma log_before log k id rows : increasing log → (0 ≤ k < id)%Z → log_file log id = Some rows → before (log_upto log k) rows.
Proof.
  unfold log_file, log_upto. intros Hi Hk. rewrite decide_True by lia. intros Hl.
  rewrite <-(take_drop (Z.to_nat k) log) in Hi. apply increasing_app in Hi as (_ & _ & Hb).
  intros x y Hx Hy. apply Hb; [done|]. apply elem_of_concat. exists rows. split; [done|].
  apply list_elem_of_lookup. exists (Z.to_nat (id - 1) - Z.to_nat k). rewrite lookup_drop. rewrite <-Hl. f_equal. lia.
Qed.

(** ** Memtables and the rows they were filled with *)

Section built.
  Context (prune : bool).

Definition fill (rows : list RowEntry) : KVTable := foldl (memtable_put prune) table_new rows.
Definition built (rows : list RowEntry) (t : KVTable) : Prop := row_fields t = row_fields (fill rows).

Lemma built_fill rows t entries : built rows t → built (rows ++ entries) (foldl (memtable_put prune) t entries).
Proof. unfold built, fill. rewrite foldl_app. apply foldl_put_fields. Qed.

Lemma built_nil : built [] table_new.
Proof. done. Qed.
Lemma put_map_ok t e : bm_ok (table_map t) → bm_ok (table_map (memtable_put prune t e)) ∧ table_map (memtable_put prune t e) ≠ [].
Proof.
  intros Hok. set (k0 := mkSeqKey (key e) (seq e)). assert (bm_ok (table_map (put_inner t e))) as Hp by by apply bm_insert_ok.
  assert (bm_get k0 (table_map (put_inner t e)) = Some e) as Hg by apply bm_get_insert.
  assert (∀ m, bm_get k0 m = Some e → m ≠ []) as Hne by by intros m Hm ->.
  unfold memtable_put, put_and_prune_overwritten, table_put. destruct prune; [|split; [done|by apply Hne]].
  destruct (is_merge (value e)); [split; [done|by apply Hne]|]. destruct (bm_after _ _) as [[k older]|] eqn:Ha; [|split; [done|by apply Hne]].
  case_decide; [|split; [done|by apply Hne]]. cbn [table_map]. split; [by apply bm_remove_ok|]. apply Hne.
  apply bm_after_elem in Ha as [_ Hlt]. rewrite bm_get_remove_ne; [done|done|]. intros ->. by apply ord_lt_irrefl in Hlt.
Qed.

Lemma fill_snoc rows e : fill (rows ++ [e]) = memtable_put prune (fill rows) e.
Proof. unfold fill. by rewrite foldl_app. Qed.
Lemma fill_ok rows : bm_ok (table_map (fill rows)).
Proof. induction rows as [|e rows IH] using rev_ind; [constructor|]. rewrite fill_snoc. by apply put_map_ok. Qed.
Lemma fill_empty rows : table_map (fill rows) = [] ↔ rows = [].
Proof.
  split; [|by intros ->]. destruct rows as [|e rows _] using rev_ind; [done|]. rewrite fill_snoc. intros E. by apply put_map_ok in E; [|apply fill_ok].
Qed.
Lemma built_empty rows t : built rows t → table_is_empty t = true ↔ rows = [].
Proof. unfold built, row_fields. intros [= E _ _ _ _]. unfold table_is_empty. rewrite bool_decide_eq_true, E. apply fill_empty. Qed.

Lemma put_last_seq t e : table_last_seq (memtable_put prune t e) = Z.max (table_last_seq t) (seq e).
Proof.
  unfold memtable_put, put_and_prune_overwritten, table_put. destruct prune; [|done]. destruct (is_merge (value e)); [done|].
  destruct (bm_after _ _) as [[k older]|]; [|done]. by case_decide.
Qed.
Lemma fill_last_seq rows : Forall (λ r, (0 < seq r)%Z) rows →
  Forall (λ r, (seq r ≤ table_last_seq (fill rows))%Z) rows ∧
  (rows = [] ∧ table_last_seq (fill rows) = 0%Z ∨ ∃ r, r ∈ rows ∧ seq r = table_last_seq (fill rows)).
Proof.
  induction rows as [|e rows IH] using rev_ind; [intros _; split; [done|by left]|]. intros [Hr He]%Forall_app. rewrite Forall_singleton in He.
  rewrite fill_snoc, put_last_seq. destruct (IH Hr) as [H1 H2]. split.
  - apply Forall_app. split; [eapply Forall_impl; [exact H1|]; cbn; lia|]. apply Forall_singleton. lia.
  - right. destruct (Z.le_gt_cases (table_last_seq (fill rows)) (seq e)).
    + exists e. split; [set_solver|lia].
    + destruct H2 as [[_ H2]|(r & Hin & H2)]; [lia|]. exists r. split; [set_solver|lia].
Qed.
Lemma built_last_seq rows t : built rows t → Forall (λ r, (0 < seq r)%Z) rows → rows ≠ [] →
  Forall (λ r, (seq r ≤ table_last_seq t)%Z) rows ∧ ∃ r, r ∈ rows ∧ seq r = table_last_seq t.
Proof.
  unfold built, row_fields. intros [= _ _ _ E _] Hpos Hne. rewrite E. destruct (fill_last_seq rows Hpos) as [H1 [[? _]|H2]]; [done|]. by split.
Qed.

(** ** What the manifest lists *)

(** The tables of the groups [gs] are flushed, with these marks: the rows of the files up to the replay position
    are among them, and the last sequence number separates them from the rows that follow in the log. *)
Record flushed_at (log : list (list RowEntry)) (m : Marks) (gs : list (list RowEntry)) : Prop := {
  fa_replay : (0 ≤ m_replay_after m)%Z;
  fa_covers : log_upto log (m_replay_after m) `prefix_of` concat gs;
  fa_cut : ∃ rest, concat log = concat gs ++ rest ∧ Forall (λ r, (m_last_l0_seq m < seq r)%Z) rest;
  fa_flushed : Forall (λ r, (seq r ≤ m_last_l0_seq m)%Z) (concat gs);
  fa_last : m_last_l0_seq m = 0%Z ∨ ∃ r, r ∈ concat gs ∧ seq r = m_last_l0_seq m;
  fa_top : (m_replay_after m ≤ top log)%Z;
}.

Lemma flushed_at_grow log m gs rows :
  before (concat log) rows → Forall (λ r, (0 < seq r)%Z) rows → flushed_at log m gs → flushed_at (log ++ [rows]) m gs.
Proof.
  intros Hb Hpos [H1 H2 (rest & H3 & H3') H4 H5 H6]. split; [done|by rewrite log_upto_grow| |done|done|rewrite top_grow; lia].
  exists (rest ++ rows). rewrite concat_app. cbn. rewrite app_nil_r, H3, <-app_assoc. split; [done|]. apply Forall_app. split; [done|].
  apply Forall_forall. intros r Hr. destruct H5 as [->|(r0 & Hr0 & <-)]; [by eapply Forall_forall in Hpos|].
  apply Hb; [|done]. rewrite H3. set_solver.
Qed.

Definition flushed_ok (log : list (list RowEntry)) (m : Marks) (ts : list KVTable) : Prop :=
  ∃ gs, Forall2 built gs ts ∧ increasing gs ∧ flushed_at log m gs.
End built.

(** ** The invariant *)

Definition last_ok (b : WalBuffer) : Prop := ∀ e, last (wb_entries b) = Some e → wb_last_seq b = seq e.
Definition buffers (i : SlateDbWalWriterInner) : list (list RowEntry) :=
  ((λ b : Z * WalBuffer, wb_entries b.2) <$> immutable_wals i) ++ [wb_entries (current_wal i)].
(** The rows that are in the log's buffers *)
Definition pending (i : SlateDbWalWriterInner) : list RowEntry := concat (buffers i).

Definition w_oracle (w : Writer) : DbOracle := oracle (txn_manager (w_db w)).
Definition w_inner (w : Writer) : SlateDbWalWriterInner := inner_of (w_db w).
Definition w_core (w : Writer) : ManifestCore := db_core (state (w_db w)).
(** The last file the writer has created or, before it creates one, its fence *)
Definition position (w : Writer) : Z := (last_flushed_wal_id (w_inner w) + if w_put w then 1 else 0)%Z.
(** The last file whose rows are in the memtables *)
Definition consumed (w : Writer) : Z :=
  match w_phase w with Replaying r _ => ri_last_consumed_wal_file_id r | _ => last_flushed_wal_id (w_inner w) end.

(** The log's buffers: consecutive files of whole batches that are not durable yet. *)
Record wal_inv (log : list (list RowEntry)) (w : Writer) : Prop := {
  wv_enabled : ∃ x, wal (w_db w) = WalEnabled x;
  wv_start : (0 ≤ last_flushed_wal_id (w_inner w))%Z;
  wv_ids : (immutable_wals (w_inner w)).*1 = seqZ (last_flushed_wal_id (w_inner w) + 1) (Z.of_nat (length (immutable_wals (w_inner w))));
  wv_next : next_wal_id (w_inner w) = (last_flushed_wal_id (w_inner w) + 1 + Z.of_nat (length (immutable_wals (w_inner w))))%Z;
  wv_immutable : Forall (λ b : Z * WalBuffer, wb_entries b.2 ≠ [] ∧ last_ok b.2) (immutable_wals (w_inner w));
  wv_current : last_ok (current_wal (w_inner w));
  wv_sorted : seq_sorted (pending (w_inner w));
  wv_increasing : increasing (buffers (w_inner w));
  wv_pending : Forall (λ e, (last_durable_seq (w_oracle w) < seq e ≤ last_seq (w_oracle w))%Z) (pending (w_inner w));
  wv_oracle : (0 ≤ last_durable_seq (w_oracle w) ≤ last_seq (w_oracle w))%Z;
  wv_flushed_seq q : last_flushed_seq (w_inner w) = Some q → (q ≤ last_durable_seq (w_oracle w))%Z;
  wv_put : w_put w = true → ∃ id b rest, immutable_wals (w_inner w) = (id, b) :: rest ∧
             log_file log (last_flushed_wal_id (w_inner w) + 1) = Some (wb_entries b);
  wv_accepted : ∃ a, w_accepted w = a ++ pending (w_inner w) ∧ ∀ e, e ∈ a → e ∈ concat log;
  wv_replaying r c : w_phase w = Replaying r c → buffers (w_inner w) = [[]];
}.

Section invariant.
  Context (prune : bool).

(** Frozen memtables, oldest first, above the rows [acc]: each is filled with the rows of its group, and the log up to
    its mark is covered by the groups up to it. *)
Fixpoint stamped (log : list (list RowEntry)) (lo : Z) (acc : list RowEntry) (gs : list (list RowEntry)) (imms : list ImmutableMemtable) : Prop :=
  match gs, imms with
  | [], [] => True
  | g :: gs, imm :: imms =>
      (lo ≤ replay_after_wal_id imm)%Z ∧ log_upto log (replay_after_wal_id imm) `prefix_of` acc ++ g ∧ built prune g (imm_table imm) ∧ g ≠ [] ∧
      stamped log (replay_after_wal_id imm) (acc ++ g) gs imms
  | _, _ => False
  end.

(** A replay of the log up to the file [f] that has read the files up to [c]: the memtables hold the rows [all]. *)
Record replay_at (log : list (list RowEntry)) (f : Z) (r : WalReplayIterator) (all : list RowEntry) : Prop := {
  ra_prune : prune_overwrites (ri_options r) = prune;
  ra_next : wi_next_wal_id (ri_wal_iter r) = (ri_last_consumed_wal_file_id r + 1)%Z;
  ra_end : wi_end_wal_id (ri_wal_iter r) = (f + 1)%Z;
  ra_consumed : (0 ≤ ri_last_consumed_wal_file_id r ≤ f)%Z;
  ra_running : ri_terminal_result r = None → wi_terminal_result (ri_wal_iter r) = None;
  ra_done : ri_terminal_result r = Some (Ok tt) → ri_last_consumed_wal_file_id r = f;
  ra_rows : ∃ F rest, concat log = F ++ rest ∧ Forall (λ e, (seq e ≤ ri_min_seq r)%Z) F ∧ Forall (λ e, (ri_min_seq r < seq e)%Z) rest ∧
              all = F ++ filter (λ e, (ri_min_seq r < seq e)%Z) (log_upto log (ri_last_consumed_wal_file_id r));
}.

(** The rows of the tables of a database, in groups: [fl] flushed to the tables [tabs], [im] frozen, [mm] active. *)
Record tables_inv (log : list (list RowEntry)) (st : DbState) (tabs : list KVTable) (fl im : list (list RowEntry)) (mm : list RowEntry) : Prop := {
  ti_flushed : Forall2 (built prune) fl tabs;
  ti_frozen : stamped log (core_replay_after_wal_id (db_core st)) (concat fl) im (reverse (imm_memtable st));
  ti_active : built prune mm (memtable st);
  ti_increasing : increasing (fl ++ im ++ [mm]);
  ti_marks : flushed_at log (marks (db_core st)) fl;
}.

(** Together the groups are the log as far as it is read, then the rows in the buffers; [tl] is what is not read yet,
    [u] what is not in the log yet. *)
Record rows_inv (log : list (list RowEntry)) (w : Writer) (fl im : list (list RowEntry)) (mm tl u : list RowEntry) : Prop := {
  ri_tables : tables_inv log (state (w_db w)) (w_flushed w) fl im mm;
  ri_total : concat (fl ++ im ++ [mm]) ++ tl = concat log ++ u;
  ri_rest : before (concat (fl ++ im ++ [mm])) tl;
  ri_buffered : Forall (λ e, (last_durable_seq (w_oracle w) < seq e)%Z) u;
  ri_seqs : Forall (λ e, (0 < seq e ≤ last_seq (w_oracle w))%Z) (concat (fl ++ im ++ [mm]));
  ri_phase : match w_phase w with
             | Running => tl = [] ∧ concat (fl ++ im ++ [mm]) = log_upto log (last_flushed_wal_id (w_inner w)) ++ pending (w_inner w)
             | Replaying r cur => cur = ri_last_consumed_wal_file_id r ∧ replay_at log (last_flushed_wal_id (w_inner w)) r (concat (fl ++ im ++ [mm]))
             | _ => False
             end;
}.

(** The writer that fenced the log last *)
Record owner_inv (log : list (list RowEntry)) (m : Marks) (w : Writer) : Prop := {
  ov_top : top log = position w;
  ov_marks : (m_replay_after m ≤ core_replay_after_wal_id (w_core w) ≤ consumed w)%Z;
  ov_frozen : Forall (λ imm, (replay_after_wal_id imm ≤ consumed w)%Z) (imm_memtable (state (w_db w)));
  ov_durable : (last_l0_seq (w_core w) ≤ last_durable_seq (w_oracle w))%Z;
  ov_before : before (log_upto log (last_flushed_wal_id (w_inner w))) (pending (w_inner w));
  ov_rows : ∃ fl im mm tl u, rows_inv log w fl im mm tl u;
}.

Definition writer_inv (files : WalFiles) (log : list (list RowEntry)) (m : Marks) (fe fid : Z) (w : Writer) : Prop :=
  match w_phase w with
  | Fencing n m' => (n ≤ top log + 1)%Z ∧ w_epoch w ≠ fe ∧ (w_epoch w < fe → n ≤ fid)%Z ∧ ((fe < w_epoch w)%Z → m' = m) ∧ (0 ≤ m_replay_after m')%Z
  | Checking n m' => (w_epoch w ≤ fe)%Z ∧ (w_epoch w = fe → m' = m ∧ n = top log)
  | _ => (w_epoch w ≤ fe)%Z ∧ wal_inv log w ∧ (w_epoch w = fe → owner_inv log m w) ∧ ((w_epoch w < fe)%Z → files !! (position w + 1)%Z = Some [])
  end.

Record log_inv (s : System) : Prop := {
  iv_increasing : increasing (s_log s);
  iv_positive : Forall (λ e, (0 < seq e)%Z) (concat (s_log s));
  iv_files id rows : (m_replay_after (s_marks s) < id)%Z → s_files s !! id = Some rows ↔ log_file (s_log s) id = Some rows;
  iv_dom id rows : s_files s !! id = Some rows → (id ≤ top (s_log s))%Z;
  iv_fences id : log_file (s_log s) id = Some [] → s_files s !! id = Some [];
  iv_flushed : flushed_ok prune (s_log s) (s_marks s) (s_flushed s);
}.

Record recovery_inv (s : System) : Prop := {
  iv_log : log_inv s;
  iv_epochs : NoDup (w_epoch <$> s_writers s);
  iv_latest : Forall (λ w, (w_epoch w ≤ s_epoch s)%Z) (s_writers s);
  iv_fence : (s_fence_epoch s ≤ s_epoch s ∧ s_fence_id s ≤ top (s_log s))%Z;
  iv_writers : Forall (writer_inv (s_files s) (s_log s) (s_marks s) (s_fence_epoch s) (s_fence_id s)) (s_writers s);
}.

(** ** Tables *)

Lemma stamped_snoc log lo acc gs imms g imm :
  stamped log lo acc gs imms → (lo ≤ replay_after_wal_id imm)%Z → Forall (λ i, (replay_after_wal_id i ≤ replay_after_wal_id imm)%Z) imms →
  log_upto log (replay_after_wal_id imm) `prefix_of` acc ++ concat gs ++ g → built prune g (imm_table imm) → g ≠ [] →
  stamped log lo acc (gs ++ [g]) (imms ++ [imm]).
Proof using Type.
  revert lo acc imms. induction gs as [|g0 gs IH]; intros lo acc [|i imms]; cbn; try done.
  - intros (H1 & H2 & H3 & H4 & H5) Hlo [Hi HF]%Forall_cons Hp Hb Hg. split_and!; try done. apply IH; try done. by rewrite <-!app_assoc in Hp |- *.
Qed.

Lemma stamped_grow log x lo acc gs imms :
  stamped log lo acc gs imms → Forall (λ i, (replay_after_wal_id i ≤ top log)%Z) imms → stamped (log ++ [x]) lo acc gs imms.
Proof using Type.
  revert lo acc imms. induction gs as [|g0 gs IH]; intros lo acc [|i imms]; cbn; try done.
  intros (H1 & H2 & H3 & H4 & H5) [Hi HF]%Forall_cons. split_and!; try done; [by rewrite log_upto_grow|by apply IH].
Qed.

Lemma tables_freeze log st tabs fl im mm id :
  tables_inv log st tabs fl im mm → (core_replay_after_wal_id (db_core st) ≤ id)%Z → Forall (λ i, (replay_after_wal_id i ≤ id)%Z) (imm_memtable st) →
  log_upto log id `prefix_of` concat (fl ++ im ++ [mm]) →
  let st' := freeze_current_memtable st id in
  ∃ im' mm', tables_inv log st' tabs fl im' mm' ∧ concat (fl ++ im' ++ [mm']) = concat (fl ++ im ++ [mm]) ∧
    db_core st' = db_core st ∧ Forall (λ i, (replay_after_wal_id i ≤ id)%Z) (imm_memtable st') ∧ (mm' = [] ∧ table_is_empty (memtable st') = true).
Proof using Type.
  intros [H1 H2 H3 H4 H5] Hra HF Hp. cbn. unfold freeze_current_memtable. pose proof (built_empty prune mm _ H3) as He.
  destruct (table_is_empty (memtable st)) eqn:E.
  { exists im, mm. split; [by split|]. split; [done|]. split; [done|]. split; [done|]. split; [by apply He|done]. }
  exists (im ++ [mm]), []. split.
  - split; [done| |done| |done].
    + change (imm_memtable (freeze_memtable st id)) with (imm_new (memtable st) id :: imm_memtable st). rewrite reverse_cons. apply stamped_snoc; cbn; [done|done|by apply Forall_reverse| |done|].
      * by rewrite !concat_app in Hp; cbn in Hp; rewrite app_nil_r in Hp.
      * intros ->. by discriminate (proj2 He eq_refl).
    + rewrite (app_assoc fl). apply increasing_snoc. split; [done|apply before_nil_r].
  - rewrite !concat_app. cbn. rewrite !app_nil_r. split; [done|]. split; [done|]. split; [by constructor|done].
Qed.

(** ** The log's buffers *)

Lemma append_last b es : last_ok b → last_ok (foldl wal_buffer_append b es).
Proof using Type.
  revert b. induction es as [|e es IH]; intros b Hb; [done|]. cbn. apply IH. intros e'. cbn. rewrite last_snoc. by intros [= <-].
Qed.
Lemma pending_app i : pending i = concat ((λ b : Z * WalBuffer, wb_entries b.2) <$> immutable_wals i) ++ wb_entries (current_wal i).
Proof using Type. unfold pending, buffers. rewrite concat_app. cbn. by rewrite app_nil_r. Qed.

Lemma freeze_wal_cases i :
  (wb_entries (current_wal i) = [] ∧ (freeze_current_wal i).2 = i) ∨
  (wb_entries (current_wal i) ≠ [] ∧ (freeze_current_wal i).2 = mkWalInner wal_buffer_new (immutable_wals i ++ [(next_wal_id i, current_wal i)])
     (next_wal_id i + 1) (flush_epoch i + 1) (last_flushed_wal_id i) (last_flushed_seq i) (flush_task_exited_reason i)).
Proof using Type. unfold freeze_current_wal, wal_buffer_is_empty. case_bool_decide; [by left|by right]. Qed.

Lemma freeze_wal_pending i : pending (freeze_current_wal i).2 = pending i.
Proof using Type.
  destruct (freeze_wal_cases i) as [[_ ->]|[_ ->]]; [done|]. rewrite !pending_app. cbn. rewrite fmap_app, concat_app. cbn. by rewrite !app_nil_r.
Qed.
Lemma freeze_wal_flushed i : last_flushed_wal_id (freeze_current_wal i).2 = last_flushed_wal_id i.
Proof using Type. by destruct (freeze_wal_cases i) as [[_ ->]|[_ ->]]. Qed.

(** Two writers that differ in nothing that concerns the log *)
Definition same_log (w w' : Writer) : Prop :=
  wal (w_db w') = wal (w_db w) ∧ w_oracle w' = w_oracle w ∧ w_put w' = w_put w ∧ w_accepted w' = w_accepted w.
Definition keeps_phase (w w' : Writer) : Prop := w_phase w' = w_phase w ∨ w_phase w' = Running.

Lemma same_log_inner w w' : same_log w w' → w_inner w' = w_inner w.
Proof using Type. unfold w_inner, inner_of. by intros (-> & _). Qed.

Lemma wal_inv_same log w w' : same_log w w' → keeps_phase w w' → wal_inv log w → wal_inv log w'.
Proof using Type.
  intros Hs Hp [H1 H2 H3 H4 H5 H6 H7 H8 H9 H10 H11 H12 H13 H14]. pose proof (same_log_inner w w' Hs) as Ei. destruct Hs as (E1 & E2 & E3 & E4).
  split; rewrite ?E1, ?Ei, ?E2, ?E3, ?E4; try done. intros r c Hr. destruct Hp as [Hp|Hp]; [|congruence]. apply (H14 r c). congruence.
Qed.

Lemma wal_inv_grow log x w : wal_inv log w → wal_inv (log ++ [x]) w.
Proof using Type.
  intros [H1 H2 H3 H4 H5 H6 H7 H8 H9 H10 H11 H12 H13 H14]. split; try done.
  - intros (id & b & rest & E & Hl)%H12. exists id, b, rest. split; [done|]. by apply log_file_grow.
  - destruct H13 as (a & E & Ha). exists a. split; [done|]. intros e He. rewrite concat_app. apply elem_of_app. left. by apply Ha.
Qed.

Lemma wal_inv_freeze_wal log w w' x :
  wal (w_db w') = WalEnabled x → wal_inner x = (freeze_current_wal (w_inner w)).2 → w_oracle w' = w_oracle w → w_put w' = w_put w →
  w_accepted w' = w_accepted w → w_phase w' = w_phase w → wal_inv log w → wal_inv log w'.
Proof using Type.
  intros E1 E2 E3 E4 E5 E6 [H1 H2 H3 H4 H5 H6 H7 H8 H9 H10 H11 H12 H13 H14].
  assert (w_inner w' = (freeze_current_wal (w_inner w)).2) as Ei by (unfold w_inner, inner_of at 1; by rewrite E1).
  pose proof (freeze_wal_pending (w_inner w)) as Ep. pose proof (freeze_wal_flushed (w_inner w)) as Ef.
  destruct (freeze_wal_cases (w_inner w)) as [[_ Ef']|[Hne Ef']]; rewrite Ef' in Ei, Ep, Ef.
  { split; rewrite ?E3, ?E4, ?E5, ?E6, ?Ei; try done. by exists x. }
  split; rewrite ?E3, ?E4, ?E5, ?E6, ?Ei, ?Ep; cbn; try done.
  - by exists x.
  - rewrite fmap_app, length_app. cbn. rewrite H3. rewrite Nat2Z.inj_add. rewrite seqZ_app by lia. cbn. f_equal. rewrite H4. f_equal.
  - rewrite length_app, H4. cbn. lia.
  - apply Forall_app. split; [done|]. by constructor.
  - unfold buffers in *. cbn. rewrite fmap_app. cbn. apply increasing_snoc. split; [done|apply before_nil_r].
  - intros (id & b & rest & E & Hl)%H12. exists id, b, (rest ++ [(next_wal_id (w_inner w), current_wal (w_inner w))]). by rewrite E.
  - intros r c Hr. exfalso. specialize (H14 r c Hr). unfold buffers in H14. destruct (immutable_wals (w_inner w)) as [|b l]; cbn in H14; [congruence|].
    injection H14 as _ H14. by destruct (fmap _ l).
Qed.

(** The sequence counter moves on; nothing else changes. *)
Lemma wal_inv_counter log w w' :
  wal (w_db w') = wal (w_db w) → w_put w' = w_put w → w_accepted w' = w_accepted w → w_phase w' = w_phase w →
  last_durable_seq (w_oracle w') = last_durable_seq (w_oracle w) → (last_seq (w_oracle w) ≤ last_seq (w_oracle w'))%Z → wal_inv log w → wal_inv log w'.
Proof using Type.
  intros E1 E2 E3 E4 E5 Hle [H1 H2 H3 H4 H5 H6 H7 H8 H9 H10 H11 H12 H13 H14].
  assert (w_inner w' = w_inner w) as Ei by (unfold w_inner, inner_of; by rewrite E1).
  split; rewrite ?E1, ?Ei, ?E2, ?E3, ?E4, ?E5; try done; [|lia]. eapply Forall_impl; [exact H9|]. cbn. lia.
Qed.

Lemma appended_pending i i' es : appended i i' es → pending i' = pending i ++ es.
Proof using Type. intros ->. rewrite !pending_app. cbn. by rewrite append_entries, app_assoc. Qed.

Lemma wal_inv_append log w w' x s es :
  wal (w_db w') = WalEnabled x → appended (w_inner w) (wal_inner x) es → Forall (λ e, seq e = s) es → (last_seq (w_oracle w) < s)%Z →
  last_durable_seq (w_oracle w') = last_durable_seq (w_oracle w) → last_seq (w_oracle w') = s →
  w_put w' = w_put w → w_accepted w' = w_accepted w ++ es → w_phase w' = Running → wal_inv log w → wal_inv log w'.
Proof using Type.
  intros E1 Happ Hes Hs E2 E3 E4 E5 E6 [H1 H2 H3 H4 H5 H6 H7 H8 H9 H10 H11 H12 H13 H14].
  assert (w_inner w' = wal_inner x) as Ei by (unfold w_inner, inner_of; by rewrite E1).
  pose proof (appended_pending _ _ _ Happ) as Ep. unfold appended in Happ.
  assert (before (pending (w_inner w)) es) as Hb.
  { intros a b Ha Hb. rewrite Forall_forall in H9, Hes. rewrite (Hes b Hb). specialize (H9 a Ha). cbn in H9. lia. }
  split; rewrite ?E2, ?E3, ?E4, ?E5, ?Ei, ?Ep, ?Happ; cbn; try done.
  - by exists x.
  - by apply append_last.
  - apply StronglySorted_app_2; [|done|].
    + intros a b Ha Hb'. specialize (Hb a b Ha Hb'). lia.
    + clear -Hes. induction Hes as [|e es He Hes IH]; constructor; [done|]. eapply Forall_impl; [exact Hes|]. cbn. intros. lia.
  - unfold buffers in *. cbn. rewrite append_entries. apply increasing_snoc in H8 as [H8 H8']. apply increasing_snoc. split; [done|].
    apply before_app_r. split; [done|]. rewrite pending_app in Hb. by apply before_app_l in Hb as [Hb _].
  - apply Forall_app. split; [eapply Forall_impl; [exact H9|]; cbn; lia|]. eapply Forall_impl; [exact Hes|]. cbn. intros e ->. lia.
  - lia.
  - destruct H13 as (a & -> & Ha). exists a. by rewrite app_assoc.
  - congruence.
Qed.

(** What [record_flushed_wal] does to the first buffer *)
Lemma record_inv i id b rest i' : immutable_wals i = (id, b) :: rest → record_flushed_wal i id b = Ok i' →
  id = (last_flushed_wal_id i + 1)%Z ∧ ∃ q, i' = mkWalInner (current_wal i) rest (next_wal_id i) (flush_epoch i) id q (flush_task_exited_reason i) ∧
    (q = last_flushed_seq i ∧ wb_last_seq b = 0%Z ∨ q = Some (wb_last_seq b)).
Proof using Type.
  unfold record_flushed_wal. intros ->. intros (? & _ & Hr)%bind_Ok_inv. apply bind_Ok_inv in Hr as (? & Ha & Hr). unfold rust_assert in Ha.
  case_bool_decide as Hid; [|done]. split; [done|]. apply bind_Ok_inv in Hr as (q & Hq & Hr). rewrite ret_Ok in Hr. injection Hr as <-. exists q. split; [done|].
  unfold wal_buffer_last_seq in Hq. destruct (Z.eqb_spec (wb_last_seq b) 0) as [E|E]; [left; rewrite ret_Ok in Hq; by injection Hq as <-|right].
  apply bind_Ok_inv in Hq as (? & _ & Hq). rewrite ret_Ok in Hq. by injection Hq as <-.
Qed.

Lemma sorted_last l e x : seq_sorted l → last l = Some e → x ∈ l → (seq x ≤ seq e)%Z.
Proof using Type.
  intros Hs [l' ->]%last_Some [Hx|Hx]%elem_of_app; [|set_solver]. apply StronglySorted_app in Hs as (Hs & _). apply Hs; set_solver.
Qed.

Definition recorded_oracle (i : SlateDbWalWriterInner) (o : DbOracle) : DbOracle :=
  match last_flushed_seq i with Some q => advance_durable_seq q o | None => o end.

Lemma wal_inv_record log w w' x id b rest i' :
  immutable_wals (w_inner w) = (id, b) :: rest → record_flushed_wal (w_inner w) id b = Ok i' → w_put w = true →
  wal (w_db w') = WalEnabled x → wal_inner x = i' → w_oracle w' = recorded_oracle i' (w_oracle w) → w_put w' = false →
  w_accepted w' = w_accepted w → w_phase w' = w_phase w → wal_inv log w →
  wal_inv log w' ∧ w_inner w' = i' ∧ last_flushed_wal_id i' = (last_flushed_wal_id (w_inner w) + 1)%Z ∧
  log_file log (last_flushed_wal_id (w_inner w) + 1) = Some (wb_entries b) ∧ pending (w_inner w) = wb_entries b ++ pending i' ∧
  before (wb_entries b) (pending i') ∧
  (last_durable_seq (w_oracle w) ≤ last_durable_seq (w_oracle w'))%Z ∧ last_seq (w_oracle w') = last_seq (w_oracle w).
Proof using Type.
  intros Eim Hr Hput E1 Ex E2 E3 E4 E5 [H1 H2 H3 H4 H5 H6 H7 H8 H9 H10 H11 H12 H13 H14].
  assert (w_inner w' = i') as Ei by (unfold w_inner, inner_of; by rewrite E1).
  destruct (record_inv _ _ _ _ _ Eim Hr) as (Eid & q & Ei' & Hq). destruct (H12 Hput) as (id' & b' & rest' & Eim' & Hl).
  rewrite Eim in Eim'. injection Eim' as <- <- <-. rewrite Eim in H3, H4, H5. cbn in H3, H4. apply Forall_cons in H5 as [[Hb Hlast] H5].
  assert (pending (w_inner w) = wb_entries b ++ pending i') as Ep.
  { rewrite !pending_app, Eim, Ei'. cbn. by rewrite <-app_assoc. }
  destruct (last (wb_entries b)) as [e|] eqn:Ee; [|by apply last_None in Ee]. cbn in Hlast. specialize (Hlast e Ee).
  assert (e ∈ wb_entries b) as Hein by (apply last_Some in Ee as [l ->]; set_solver).
  rewrite Ep in H7, H9, H13. apply Forall_app in H9 as [H9b H9p]. rewrite Forall_forall in H9b. pose proof (H9b e Hein) as He. cbn in He.
  destruct Hq as [[_ ?]| ->]; [lia|].
  assert (w_oracle w' = advance_durable_seq (seq e) (w_oracle w)) as Eo by (rewrite E2, Ei'; unfold recorded_oracle; cbn; by rewrite Hlast).
  assert (before (wb_entries b) (pending i')) as Hbb.
  { unfold buffers in H8. rewrite Eim in H8. cbn in H8. apply StronglySorted_inv in H8 as [_ H8]. apply before_concat_r. by rewrite Ei'. }
  assert (seq_sorted (wb_entries b)) as Hsb by by apply StronglySorted_app in H7 as (_ & ? & _).
  split; [|split_and!; [done|by rewrite Ei'|done|done|done|rewrite Eo; cbn; lia|by rewrite Eo]].
  split; rewrite ?E3, ?E4, ?E5, ?Ei, ?Eo; cbn; try done.
  - by exists x.
  - rewrite Ei'. cbn. lia.
  - rewrite Ei'. cbn. rewrite Nat2Z.inj_succ in H3. rewrite seqZ_cons in H3 by lia. injection H3 as _ H3. rewrite H3. f_equal; lia.
  - rewrite Ei'. cbn. lia.
  - by rewrite Ei'.
  - by rewrite Ei'.
  - by apply StronglySorted_app in H7 as (_ & _ & ?).
  - unfold buffers in *. rewrite Eim in H8. rewrite Ei'. cbn in H8 |- *. by apply StronglySorted_inv in H8 as [? _].
  - apply Forall_forall. intros y Hy. rewrite Forall_forall in H9p. specialize (H9p y Hy). cbn in H9p. specialize (Hbb e y Hein Hy). lia.
  - lia.
  - intros q. rewrite Ei'. cbn. intros [= <-]. lia.
  - destruct H13 as (a & -> & Ha). exists (a ++ wb_entries b). rewrite <-app_assoc. split; [done|]. intros y [Hy|Hy]%elem_of_app; [by apply Ha|].
    by eapply log_file_elem.
  - intros r c Hrp. specialize (H14 r c Hrp). unfold buffers in H14. rewrite Eim in H14. cbn in H14. by injection H14 as H14 _.
Qed.

(** ** The owner of the log *)

(** Two writers with the same rows, up to the state of the database *)
Record agree (w w' : Writer) : Prop := {
  ag_flushed : w_flushed w' = w_flushed w;
  ag_file : last_flushed_wal_id (w_inner w') = last_flushed_wal_id (w_inner w);
  ag_put : w_put w' = w_put w;
  ag_pending : pending (w_inner w') = pending (w_inner w);
  ag_phase : w_phase w' = w_phase w;
  ag_durable : last_durable_seq (w_oracle w') = last_durable_seq (w_oracle w);
  ag_counter : (last_seq (w_oracle w) ≤ last_seq (w_oracle w'))%Z;
}.

Lemma agree_position w w' : agree w w' → position w' = position w ∧ consumed w' = consumed w.
Proof using Type. intros [H1 H2 H3 H4 H5 H6 H7]. unfold position, consumed. by rewrite H2, H3, H5. Qed.

Lemma seqs_counter (l : list RowEntry) q q' : (q ≤ q')%Z → Forall (λ e, (0 < seq e ≤ q)%Z) l → Forall (λ e, (0 < seq e ≤ q')%Z) l.
Proof using Type. intros ? H. eapply Forall_impl; [exact H|]. cbn. lia. Qed.

Lemma owner_agree log m w w' : agree w w' → state (w_db w') = state (w_db w) → owner_inv log m w → owner_inv log m w'.
Proof using Type.
  intros Ha Es [O1 O2 O3 O4 O5 (fl & im & mm & tl & u & [R1 R2 R3 R4 R5 R6])]. destruct (agree_position w w' Ha) as [Ep Ec].
  destruct Ha as [H1 H2 H3 H4 H5 H6 H7]. assert (w_core w' = w_core w) as Eco by (unfold w_core; by rewrite Es).
  split; rewrite ?Ep, ?Ec, ?Eco, ?Es, ?H6, ?H2, ?H4; try done. exists fl, im, mm, tl, u.
  split; rewrite ?Es, ?H1, ?H6, ?H5, ?H2, ?H4; try done. by eapply seqs_counter.
Qed.

Lemma owner_freeze log m w w' :
  agree w w' → w_phase w = Running → state (w_db w') = freeze_current_memtable (state (w_db w)) (last_flushed_wal_id (w_inner w)) →
  owner_inv log m w → owner_inv log m w'.
Proof using Type.
  intros Ha Hrun Es [O1 O2 O3 O4 O5 (fl & im & mm & tl & u & [R1 R2 R3 R4 R5 R6])]. destruct (agree_position w w' Ha) as [Ep Ec].
  destruct Ha as [H1 H2 H3 H4 H5 H6 H7]. rewrite Hrun in R6. destruct R6 as [-> R6].
  assert (consumed w = last_flushed_wal_id (w_inner w)) as Ecw by (unfold consumed; by rewrite Hrun). rewrite Ecw in *.
  destruct (tables_freeze log _ _ _ _ _ (last_flushed_wal_id (w_inner w)) R1) as (im' & mm' & T1 & T2 & T3 & T4 & _);
    [apply O2|done|rewrite R6; by apply prefix_app_r|]. rewrite <-Es in T1, T3, T4.
  assert (w_core w' = w_core w) as Eco by done.
  split; rewrite ?Ep, ?Ec, ?Eco, ?H6, ?H2, ?H4; try done. exists fl, im', mm', [], u.
  split; rewrite ?T2, ?H1, ?H6, ?H5, ?H2, ?H4, ?Hrun; try done. by eapply seqs_counter.
Qed.

Lemma owner_write log m w w' x s es t :
  w_phase w = Running → w_phase w' = Running → w_flushed w' = w_flushed w → w_put w' = w_put w →
  state (w_db w') = mkDbState t (imm_memtable (state (w_db w))) (db_core (state (w_db w))) →
  row_fields t = row_fields (foldl (memtable_put prune) (memtable (state (w_db w))) es) →
  wal (w_db w') = WalEnabled x → appended (w_inner w) (wal_inner x) es → Forall (λ e, seq e = s) es → (0 ≤ last_seq (w_oracle w) < s)%Z →
  last_durable_seq (w_oracle w') = last_durable_seq (w_oracle w) → (last_durable_seq (w_oracle w) ≤ last_seq (w_oracle w))%Z → last_seq (w_oracle w') = s →
  owner_inv log m w → owner_inv log m w'.
Proof using Type.
  intros Hrun Hrun' E1 E2 Es Et E3 Happ Hes Hs E4 Hd E5 [O1 O2 O3 O4 O5 (fl & im & mm & tl & u & [[T1 T2 T3 T4 T5] R2 R3 R4 R5 R6])].
  assert (w_inner w' = wal_inner x) as Ei by (unfold w_inner, inner_of; by rewrite E3).
  pose proof (appended_pending _ _ _ Happ) as Ep. unfold appended in Happ. rewrite Hrun in R6. destruct R6 as [-> R6]. rewrite app_nil_r in R2.
  assert (last_flushed_wal_id (w_inner w') = last_flushed_wal_id (w_inner w)) as Ef by (by rewrite Ei, Happ).
  assert (w_core w' = w_core w) as Eco by (unfold w_core; by rewrite Es).
  assert (position w' = position w ∧ consumed w' = consumed w) as [Epos Econ] by (unfold position, consumed; by rewrite Ef, E2, Hrun, Hrun').
  assert (concat (fl ++ im ++ [mm ++ es]) = concat (fl ++ im ++ [mm]) ++ es) as Ec.
  { rewrite !concat_app. cbn. by rewrite !app_nil_r, !app_assoc. }
  assert (before (concat (fl ++ im ++ [mm])) es) as Hb.
  { intros a b Ha Hb. rewrite Forall_forall in R5, Hes. specialize (R5 a Ha). cbn in R5. rewrite (Hes b Hb). lia. }
  split; rewrite ?Epos, ?Econ, ?Eco, ?E4, ?Ef, ?Ei, ?Ep; try done.
  - by rewrite Es.
  - apply before_app_r. split; [done|]. intros a b Ha Hb'. apply Hb; [|done]. rewrite R6. set_solver.
  - exists fl, im, (mm ++ es), [], (u ++ es). split; rewrite ?Ec, ?E1, ?E4, ?E5, ?Ei, ?Ep, ?Hrun'.
    + rewrite Es. split; cbn; [done|done| | |done].
      * unfold built in *. rewrite Et. rewrite (foldl_put_fields prune _ (fill prune mm)) by done. unfold fill. by rewrite foldl_app.
      * rewrite app_assoc in T4 |- *. apply increasing_snoc in T4 as [T4 T4']. apply increasing_snoc. split; [done|]. apply before_app_r. split; [done|].
        rewrite app_assoc, concat_app in Hb. by apply before_app_l in Hb as [Hb _].
    + rewrite app_nil_r, R2. by rewrite app_assoc.
    + apply before_nil_r.
    + apply Forall_app. split; [done|]. eapply Forall_impl; [exact Hes|]. cbn. lia.
    + apply Forall_app. split; [eapply seqs_counter; [|exact R5]; lia|]. eapply Forall_impl; [exact Hes|]. cbn. lia.
    + split; [done|]. rewrite R6, <-Ei, Ef. by rewrite app_assoc.
Qed.

Lemma owner_record log m w w' b :
  w_phase w = Running → w_phase w' = Running → state (w_db w') = state (w_db w) → w_flushed w' = w_flushed w → w_put w = true → w_put w' = false →
  last_flushed_wal_id (w_inner w') = (last_flushed_wal_id (w_inner w) + 1)%Z → (0 ≤ last_flushed_wal_id (w_inner w))%Z →
  log_file log (last_flushed_wal_id (w_inner w) + 1) = Some (wb_entries b) → pending (w_inner w) = wb_entries b ++ pending (w_inner w') →
  before (wb_entries b) (pending (w_inner w')) → (last_durable_seq (w_oracle w) ≤ last_durable_seq (w_oracle w'))%Z →
  last_seq (w_oracle w') = last_seq (w_oracle w) → wal_inv log w' → owner_inv log m w → owner_inv log m w'.
Proof using Type.
  intros Hrun Hrun' Es E1 E2 E2' Ef Hf Hl Ep Hb Hd E3 Hw [O1 O2 O3 O4 O5 (fl & im & mm & tl & u & [R1 R2 R3 R4 R5 R6])].
  rewrite Hrun in R6. destruct R6 as [-> R6]. rewrite app_nil_r in R2.
  pose proof (log_upto_succ log _ _ Hf Hl) as El.
  assert (position w' = position w) as Epos by (unfold position; rewrite Ef, E2, E2'; lia).
  assert (consumed w' = consumed w + 1)%Z as Econ by (unfold consumed; by rewrite Hrun, Hrun', Ef).
  assert (w_core w' = w_core w) as Eco by (unfold w_core; by rewrite Es).
  split; rewrite ?Epos, ?Econ, ?Eco, ?Es; try done.
  - lia.
  - eapply Forall_impl; [exact O3|]. cbn. lia.
  - lia.
  - rewrite Ef, El. apply before_app_l. split; [|done]. rewrite Ep in O5. by apply before_app_r in O5 as [_ O5].
  - exists fl, im, mm, [], (pending (w_inner w')).
    assert (concat log = log_upto log (last_flushed_wal_id (w_inner w)) ++ wb_entries b) as Elog.
    { rewrite <-El, log_upto_all; [done|]. rewrite O1. unfold position. rewrite E2. lia. }
    assert (concat (fl ++ im ++ [mm]) = concat log ++ pending (w_inner w')) as Eall.
    { rewrite R6, Ep, Elog. by rewrite app_assoc. }
    split; rewrite ?Es, ?E1, ?E3, ?Hrun'; try done.
    + by rewrite app_nil_r.
    + eapply Forall_impl; [apply (wv_pending _ _ Hw)|]. cbn. lia.
    + split; [done|]. by rewrite Ef, El, Eall, Elog.
Qed.

Lemma apply_uploaded_marks `{Chrono} segmented c u c' : apply_uploaded segmented c u = Ok c' →
  core_replay_after_wal_id c' = up_recent_flushed_wal_id u ∧ last_l0_seq c' = up_last_seq u.
Proof using Type.
  unfold apply_uploaded. intros (c1 & _ & Hc)%bind_Ok_inv. case_decide; [|done]. apply bind_Ok_inv in Hc as (? & _ & Hc).
  apply bind_Ok_inv in Hc as (t & _ & Hc). rewrite ret_Ok in Hc. by injection Hc as <-.
Qed.

Lemma owner_stage log m w w' newer imm c' :
  imm_memtable (state (w_db w)) = newer ++ [imm] → (table_last_seq (imm_table imm) ≤ last_durable_seq (w_oracle w))%Z →
  core_replay_after_wal_id c' = replay_after_wal_id imm → last_l0_seq c' = table_last_seq (imm_table imm) →
  state (w_db w') = mkDbState (memtable (state (w_db w))) newer c' → w_flushed w' = w_flushed w ++ [imm_table imm] →
  w_inner w' = w_inner w → w_put w' = w_put w → w_phase w' = w_phase w → w_oracle w' = w_oracle w →
  owner_inv log m w → owner_inv log m w'.
Proof using Type.
  intros Eimm Hdur Ec1 Ec2 Es E1 Ei E2 Eph Eo [O1 O2 O3 O4 O5 (fl & im & mm & tl & u & [[T1 T2 T3 T4 T5] R2 R3 R4 R5 R6])].
  assert (position w' = position w ∧ consumed w' = consumed w) as [Epos Econ] by (unfold position, consumed; by rewrite Ei, E2, Eph).
  rewrite Eimm in O3, T2. rewrite reverse_app in T2. cbn in T2. destruct im as [|g im]; [done|]. destruct T2 as (S1 & S2 & S3 & S4 & S5).
  apply Forall_app in O3 as [O3 Oi]. rewrite Forall_singleton in Oi.
  assert (fl ++ (g :: im) ++ [mm] = (fl ++ [g]) ++ im ++ [mm]) as Ea by (by rewrite <-app_assoc). rewrite Ea in *.
  pose proof (proj1 (increasing_app _ _) T4) as (T4a & T4b & T4c).
  assert (Forall (λ e, (0 < seq e)%Z) (concat ((fl ++ [g]) ++ im ++ [mm]))) as Hpos by (eapply Forall_impl; [exact R5|]; cbn; lia).
  assert (concat (fl ++ [g]) = concat fl ++ g) as Ecg by (rewrite concat_app; cbn; by rewrite app_nil_r).
  destruct (built_last_seq prune g (imm_table imm) S3) as [Hle (r0 & Hr0 & Er0)]; [|done|].
  { rewrite concat_app, Ecg in Hpos. apply Forall_app in Hpos as [[_ Hg]%Forall_app _]. done. }
  set (L := table_last_seq (imm_table imm)) in *.
  assert (Forall (λ e, (seq e ≤ L)%Z) (concat (fl ++ [g]))) as Hfl.
  { rewrite Ecg. apply Forall_app. split; [|done]. apply increasing_snoc in T4a as [_ T4a]. apply Forall_forall. intros e He.
    specialize (T4a e r0 He Hr0). lia. }
  assert (∃ rest, concat log = concat (fl ++ [g]) ++ rest ∧ Forall (λ e, (L < seq e)%Z) rest) as (rest & Erest & Hrest).
  { assert (concat (fl ++ [g]) ++ concat (im ++ [mm]) ++ tl = concat log ++ u) as Etot by (rewrite <-R2, (concat_app (fl ++ [g])); by rewrite <-app_assoc).
    destruct (cut_prefix _ _ _ _ (last_durable_seq (w_oracle w)) Etot) as [rest Er]; [eapply Forall_impl; [exact Hfl|]; cbn; lia|done|].
    exists rest. split; [done|]. rewrite Er, <-app_assoc in Etot. apply app_inv_head in Etot.
    assert (Forall (λ e, (L < seq e)%Z) (concat (im ++ [mm]) ++ tl)) as HF.
    { assert (r0 ∈ concat (fl ++ [g])) as Hr0' by (rewrite Ecg; set_solver). apply Forall_app. split; apply Forall_forall; intros e He.
      - specialize (T4c r0 e Hr0' He). lia.
      - specialize (R3 r0 e ltac:(rewrite concat_app; set_solver) He). lia. }
    rewrite Etot in HF. by apply Forall_app in HF as [HF _]. }
  split; rewrite ?Epos, ?Econ, ?Eo, ?Ei; try done.
  - unfold w_core. rewrite Es. cbn. rewrite Ec1. unfold w_core in O2. lia.
  - by rewrite Es.
  - unfold w_core. rewrite Es. cbn. by rewrite Ec2.
  - exists (fl ++ [g]), im, mm, tl, u. split; rewrite ?Es, ?E1, ?Eph, ?Eo, ?Ei; try done. split; cbn [imm_memtable memtable db_core]; try done.
    + apply Forall2_app; [done|]. by repeat constructor.
    + by rewrite Ec1, Ecg.
    + split; cbn; rewrite ?Ec1, ?Ec2, ?Ecg; try done.
      * pose proof (fa_replay _ _ _ T5). cbn in *. lia.
      * exists rest. by rewrite <-Ecg.
      * by rewrite <-Ecg.
      * right. exists r0. split; [set_solver|done].
      * rewrite O1. unfold position, consumed in *. destruct (w_phase w) as [| |r cur|]; cbn in *; try done.
        -- pose proof (ra_consumed _ _ _ _ (proj2 R6)). destruct (w_put w); lia.
        -- destruct (w_put w); lia.
Qed.

Lemma owner_core log m w w' c' :
  marks c' = marks (w_core w) → state (w_db w') = mkDbState (memtable (state (w_db w))) (imm_memtable (state (w_db w))) c' →
  w_flushed w' = w_flushed w → w_inner w' = w_inner w → w_put w' = w_put w → w_phase w' = w_phase w → w_oracle w' = w_oracle w →
  owner_inv log m w → owner_inv log m w'.
Proof using Type.
  intros Em Es E1 Ei E2 Eph Eo [O1 O2 O3 O4 O5 (fl & im & mm & tl & u & [[T1 T2 T3 T4 T5] R2 R3 R4 R5 R6])].
  assert (position w' = position w ∧ consumed w' = consumed w) as [Epos Econ] by (unfold position, consumed; by rewrite Ei, E2, Eph).
  assert (w_core w' = c') as Eco by (unfold w_core; by rewrite Es). unfold marks in Em. injection Em as Em1 Em2 Em3.
  split; rewrite ?Epos, ?Econ, ?Eo, ?Ei, ?Eco, ?Em1, ?Em2; try done; [by rewrite Es|].
  exists fl, im, mm, tl, u. split; rewrite ?Es, ?E1, ?Eph, ?Eo, ?Ei; try done. split; cbn [imm_memtable memtable db_core]; try done; [by rewrite Em1|].
  unfold marks. by rewrite Em1, Em2, Em3.
Qed.

(** ** Replay *)

Lemma replay_fold_spec min rows t tick q acc t' tick' q' :
  built prune acc t → foldl (replay_row min prune) (t, tick, q) rows = (t', tick', q') →
  let new := filter (λ e, (min < seq e)%Z) rows in
  built prune (acc ++ new) t' ∧ Forall (λ e, (seq e ≤ q')%Z) new ∧ (q ≤ q')%Z.
Proof using Type.
  cbn zeta. revert t tick q acc. induction rows as [|e rows IH]; intros t tick q acc Hb; cbn [foldl].
  { intros [= <- <- <-]. rewrite filter_nil, app_nil_r. done. }
  change (replay_row min prune (t, tick, q) e) with (if (seq e <=? min)%Z then (t, tick, q) else
    (memtable_put prune t e, match create_ts e with Some ts => Z.max tick ts | None => tick end, Z.max q (seq e))).
  destruct (Z.leb_spec (seq e) min) as [Hle|Hgt].
  - rewrite filter_cons_False by lia. by apply IH.
  - rewrite filter_cons_True by lia. intros Hf. apply (IH _ _ _ (acc ++ [e])) in Hf as (H1 & H2 & H3); [|by apply (built_fill prune acc t [e])].
    rewrite <-app_assoc in H1. split; [done|]. split; [constructor; [lia|done]|lia].
Qed.

Record iter_at (f : Z) (r : WalReplayIterator) : Prop := {
  ia_prune : prune_overwrites (ri_options r) = prune;
  ia_next : wi_next_wal_id (ri_wal_iter r) = (ri_last_consumed_wal_file_id r + 1)%Z;
  ia_end : wi_end_wal_id (ri_wal_iter r) = (f + 1)%Z;
  ia_consumed : (0 ≤ ri_last_consumed_wal_file_id r ≤ f)%Z;
  ia_running : ri_terminal_result r = None → wi_terminal_result (ri_wal_iter r) = None;
  ia_done : ri_terminal_result r = Some (Ok tt) → ri_last_consumed_wal_file_id r = f;
}.

Lemma wal_iter_next_inv f r files log :
  iter_at f r → ri_terminal_result r = None →
  (∀ id rows, (ri_last_consumed_wal_file_id r < id ≤ f)%Z → files !! id = Some rows → log_file log id = Some rows) →
  match wal_iter_next files (ri_wal_iter r) with
  | (Ok None, it) => ri_last_consumed_wal_file_id r = f ∧ wi_next_wal_id it = wi_next_wal_id (ri_wal_iter r) ∧ wi_end_wal_id it = (f + 1)%Z
  | (Err _, it) => wi_next_wal_id it = wi_next_wal_id (ri_wal_iter r) ∧ wi_end_wal_id it = (f + 1)%Z
  | (Ok (Some w), it) =>
      let id := (ri_last_consumed_wal_file_id r + 1)%Z in
      last_consumed_wal_file_id w = id ∧ (id ≤ f)%Z ∧ log_file log id = Some (wr_rows w) ∧ wi_next_wal_id it = (id + 1)%Z ∧
      wi_end_wal_id it = (f + 1)%Z ∧ wi_terminal_result it = None
  | _ => False
  end.
Proof using Type.
  intros [H1 H2 H3 H4 H5 H6] Ht Hfiles. unfold wal_iter_next. rewrite (H5 Ht), H2, H3.
  destruct (Z.leb_spec (f + 1) (ri_last_consumed_wal_file_id r + 1)) as [Hle|Hlt]; [cbn; rewrite H2, H3; split_and!; lia|].
  destruct (files !! (ri_last_consumed_wal_file_id r + 1)%Z) as [rows|] eqn:Ef; [|cbn; by rewrite H2, H3].
  apply Hfiles in Ef; [|lia]. destruct (match min_opt (seq <$> rows) with Some _ => _ | None => _ end); [cbn; by rewrite H2, H3|].
  cbn. split_and!; [done|lia|done|done|done|done].
Qed.

Lemma replay_loop_spec k est files log f r table any acc t' any' r' :
  increasing log → iter_at f r → ri_terminal_result r = None → built prune acc table →
  (∀ id rows, (ri_last_consumed_wal_file_id r < id ≤ f)%Z → files !! id = Some rows → log_file log id = Some rows) →
  replay_loop est k files r table any = Ok (t', any', r') →
  ∃ new, iter_at f r' ∧ (ri_last_consumed_wal_file_id r ≤ ri_last_consumed_wal_file_id r')%Z ∧ ri_min_seq r' = ri_min_seq r ∧
    log_upto log (ri_last_consumed_wal_file_id r') = log_upto log (ri_last_consumed_wal_file_id r) ++ new ∧
    built prune (acc ++ filter (λ e, (ri_min_seq r < seq e)%Z) new) t' ∧ before (log_upto log (ri_last_consumed_wal_file_id r)) new ∧
    Forall (λ e, (seq e ≤ ri_last_seq r')%Z) (filter (λ e, (ri_min_seq r < seq e)%Z) new) ∧ (ri_last_seq r ≤ ri_last_seq r')%Z ∧
    (any' = false → any = false ∧ new = [] ∧ ri_last_consumed_wal_file_id r' = ri_last_consumed_wal_file_id r).
Proof using Type.
  revert r table any acc. induction k as [|k IH]; intros r table any acc Hinc Hia Ht Hb Hfiles; [done|]. cbn [replay_loop].
  pose proof (wal_iter_next_inv f r files log Hia Ht Hfiles) as Hn.
  destruct (wal_iter_next files (ri_wal_iter r)) as [[[writes|]|e| |] it]; [| | |done|done].
  - destruct Hn as (Hc & Hle & Hl & Hnx & Hend & Hterm). intros (? & _ & Hr)%bind_Ok_inv.
    rewrite (ia_prune _ _ Hia) in Hr. destruct (foldl _ _ (wr_rows writes)) as [[table1 tick1] q1] eqn:Hf.
    apply (replay_fold_spec _ _ _ _ _ acc) in Hf as (F1 & F2 & F3); [|done].
    set (r1 := mkReplay _ it _ _ tick1 q1 _) in Hr.
    assert (iter_at f r1) as Hia1.
    { destruct Hia as [I1 I2 I3 I4 I5 I6]. split; cbn; rewrite ?Hc, ?Ht; try done. lia. }
    pose proof (log_upto_succ log _ _ (proj1 (ia_consumed _ _ Hia)) Hl) as Esucc.
    assert (before (log_upto log (ri_last_consumed_wal_file_id r)) (wr_rows writes)) as Hbw.
    { eapply log_before; [done| |done]. pose proof (ia_consumed _ _ Hia). lia. }
    destruct (negb (table_is_empty table1) && _) eqn:Hfull.
    + rewrite ret_Ok in Hr. injection Hr as <- <- <-. exists (wr_rows writes). cbn. rewrite Hc. split_and!; try done. lia.
    + apply (IH r1 table1 true (acc ++ filter (λ e, (ri_min_seq r < seq e)%Z) (wr_rows writes))) in Hr as (new & G1 & G2 & G3 & G4 & G5 & G6 & G7 & G8 & G9); [|done|done|done|done|].
      * cbn in G2, G3, G4, G5, G6, G7, G8. rewrite Hc in *. exists (wr_rows writes ++ new). rewrite filter_app. split_and!; try done; try lia.
        -- by rewrite G4, Esucc, app_assoc.
        -- by rewrite <-app_assoc in G5.
        -- apply before_app_r. split; [done|]. rewrite Esucc in G6. by apply before_app_l in G6 as [? _].
        -- apply Forall_app. split; [|done]. eapply Forall_impl; [exact F2|]. cbn. lia.
        -- intros Hf. apply G9 in Hf as [? _]. done.
      * cbn. rewrite Hc. intros id rows Hid. apply Hfiles. lia.
  - destruct Hn as (Hc & Hnx & Hend). rewrite ret_Ok. intros [= <- <- <-]. exists []. cbn. rewrite !app_nil_r. split_and!; try done; try lia; [|apply before_nil_r].
    destruct Hia as [I1 I2 I3 I4 I5 I6]. split; cbn; try done. congruence.
  - destruct Hn as (Hnx & Hend). rewrite ret_Ok. intros [= <- <- <-]. exists []. cbn. rewrite !app_nil_r. split_and!; try done; try lia; [|apply before_nil_r].
    destruct Hia as [I1 I2 I3 I4 I5 I6]. split; cbn; try done. congruence.
Qed.

Lemma freeze_twice est settings st id :
  freeze_current_memtable (maybe_freeze_memtable est settings st id) id = freeze_current_memtable st id.
Proof using Type.
  unfold maybe_freeze_memtable. destruct (_ <=? _)%Z; [|done]. unfold freeze_current_memtable at 2. destruct (table_is_empty (memtable st)) eqn:E; [done|].
  unfold freeze_current_memtable. by rewrite E.
Qed.

Lemma replay_table_inv est settings ext d cur r d' : replay_table est settings ext d cur r = Ok d' →
  ∃ t, row_fields t = row_fields (rm_table r) ∧
    state d' = mkDbState t (imm_memtable (freeze_current_memtable (state d) cur)) (db_core (freeze_current_memtable (state d) cur)) ∧
    wal d' = wal d ∧ last_seq (oracle (txn_manager d')) = Z.max (last_seq (oracle (txn_manager d))) (rm_last_seq r) ∧
    last_durable_seq (oracle (txn_manager d')) = Z.max (last_durable_seq (oracle (txn_manager d))) (rm_last_seq r).
Proof using Type.
  unfold replay_table. intros (t & Ht & Hr)%bind_Ok_inv. apply bind_Ok_inv in Hr as (? & _ & Hr). unfold replay_memtable in Hr. cbn in Hr.
  rewrite freeze_twice in Hr. apply bind_Ok_inv in Hr as (? & _ & Hr). apply bind_Ok_inv in Hr as (? & _ & Hr). apply bind_Ok_inv in Hr as (? & _ & Hr).
  apply bind_Ok_inv in Hr as (st & Hst & Hr). rewrite ret_Ok in Hr. injection Hr as <-.
  apply bind_Ok_inv in Hst as (? & _ & Hst). rewrite ret_Ok in Hst. injection Hst as <-. exists t. split; [|done].
  destruct ext as [ex|]; [|rewrite ret_Ok in Ht; by injection Ht as <-]. apply bind_Ok_inv in Ht as (p & _ & Ht). rewrite ret_Ok in Ht.
  injection Ht as <-. apply record_touched_fields.
Qed.

(** The rows of a replay up to file [c] begin the log, and contain the files up to [c]. *)
Lemma replay_rows log F rest min c : increasing log → (0 ≤ c)%Z → concat log = F ++ rest → Forall (λ e, (seq e ≤ min)%Z) F → Forall (λ e, (min < seq e)%Z) rest →
  let all := F ++ filter (λ e, (min < seq e)%Z) (log_upto log c) in
  log_upto log c `prefix_of` all ∧ ∃ tl, all ++ tl = concat log ∧ before all tl.
Proof using Type.
  intros Hinc Hc E HF Hr. cbn zeta. set (later := concat (drop (Z.to_nat c) log)).
  assert (concat log = log_upto log c ++ later) as El by (unfold log_upto, later; by rewrite <-concat_app, take_drop).
  assert (before (log_upto log c) later) as Hb.
  { rewrite <-(take_drop (Z.to_nat c) log) in Hinc. by apply increasing_app in Hinc as (_ & _ & ?). }
  assert (rest = filter (λ e, (min < seq e)%Z) (log_upto log c) ++ filter (λ e, (min < seq e)%Z) later) as Er.
  { rewrite <-filter_app, <-El, E. symmetry. by apply filter_cut. }
  split.
  - rewrite E in El. symmetry in El. apply app_eq_inv in El as [(k & Ek & ->)|(k & -> & Ek)].
    + rewrite Ek, filter_cut by (done || by apply Forall_app in Hr as [? _]). done.
    + by do 2 apply prefix_app_r.
  - exists (filter (λ e, (min < seq e)%Z) later). split; [by rewrite <-app_assoc, <-Er|]. intros x y [Hx|Hx]%elem_of_app [Hy1 Hy2]%list_elem_of_filter.
    + rewrite Forall_forall in HF. specialize (HF x Hx). cbn in HF. lia.
    + apply list_elem_of_filter in Hx as [_ Hx]. by apply Hb.
Qed.

Lemma wal_inv_replay log w w' r c q :
  w_phase w = Replaying r c → wal (w_db w') = wal (w_db w) → w_put w' = w_put w → w_accepted w' = w_accepted w →
  last_seq (w_oracle w') = Z.max (last_seq (w_oracle w)) q → last_durable_seq (w_oracle w') = Z.max (last_durable_seq (w_oracle w)) q →
  wal_inv log w → wal_inv log w'.
Proof using Type.
  intros Hph E1 E2 E3 E4 E5 [H1 H2 H3 H4 H5 H6 H7 H8 H9 H10 H11 H12 H13 H14].
  assert (w_inner w' = w_inner w) as Ei by (unfold w_inner, inner_of; by rewrite E1).
  assert (pending (w_inner w) = []) as Ep by (unfold pending; by rewrite (H14 _ _ Hph)).
  split; rewrite ?E1, ?Ei, ?E2, ?E3, ?E4, ?E5; try done.
  - by rewrite Ep.
  - lia.
  - intros q' Hq. specialize (H11 q' Hq). lia.
  - intros _ _ _. by apply (H14 _ _ Hph).
Qed.

Lemma owner_replay est log m files w w' r r' cur rt t :
  increasing log → Forall (λ e, (0 < seq e)%Z) (concat log) → wal_inv log w → w_phase w = Replaying r cur →
  (∀ id rows, (m_replay_after m < id)%Z → files !! id = Some rows → log_file log id = Some rows) →
  replay_next est files r = Ok (Some rt, r') → w_phase w' = Replaying r' (rm_last_wal_id rt) →
  row_fields t = row_fields (rm_table rt) → w_flushed w' = w_flushed w → w_put w' = w_put w → wal (w_db w') = wal (w_db w) →
  state (w_db w') = mkDbState t (imm_memtable (freeze_current_memtable (state (w_db w)) cur)) (db_core (freeze_current_memtable (state (w_db w)) cur)) →
  last_seq (w_oracle w') = Z.max (last_seq (w_oracle w)) (rm_last_seq rt) →
  last_durable_seq (w_oracle w') = Z.max (last_durable_seq (w_oracle w)) (rm_last_seq rt) →
  owner_inv log m w → owner_inv log m w'.
Proof using Type.
  intros Hinc Hpos Hw Hph Hfiles Hnext Hph' Et E1 E2 E3 Es E4 E5 [O1 O2 O3 O4 O5 (fl & im & mm & tl & u & [R1 R2 R3 R4 R5 R6])].
  rewrite Hph in R6. destruct R6 as [-> [A1 A2 A3 A4 A5 A6 (F & rest & EF & HF & Hrest & Eall)]].
  assert (iter_at (last_flushed_wal_id (w_inner w)) r) as Hia by by split.
  assert (w_inner w' = w_inner w) as Ei by (unfold w_inner, inner_of; by rewrite E3).
  assert (buffers (w_inner w) = [[]]) as Ebuf by apply (wv_replaying _ _ Hw _ _ Hph).
  assert (consumed w = ri_last_consumed_wal_file_id r) as Ecw by (unfold consumed; by rewrite Hph). rewrite Ecw in *.
  unfold replay_next in Hnext. destruct (ri_terminal_result r) as [[?|?| |]|] eqn:Hterm; try done.
  apply bind_Ok_inv in Hnext as ([[t1 any] r1] & Hl & Hnext).
  eapply (replay_loop_spec _ _ _ log (last_flushed_wal_id (w_inner w)) _ _ _ []) in Hl as (new & G1 & G2 & G3 & G4 & G5 & G6 & G7 & G8 & G9); [|done|exact Hia|done|done| ].
  2:{ intros id rows Hid. apply Hfiles. lia. }
  destruct any; [|destruct (ri_terminal_result r1) as [[?|?| |]|]; done]. rewrite ret_Ok in Hnext. injection Hnext as <- <-. cbn in Et, Hph', E4, E5.
  set (X := filter (λ e, (ri_min_seq r < seq e)%Z) new) in *.
  set (c := ri_last_consumed_wal_file_id r) in *. set (c' := ri_last_consumed_wal_file_id r1) in *.
  destruct (replay_rows log F rest (ri_min_seq r) c Hinc (proj1 A4) EF HF Hrest) as [Hpre _].
  destruct (replay_rows log F rest (ri_min_seq r) c' Hinc) as [_ (tl' & Etl & Htl)]; [lia|done|done|done|].
  destruct (tables_freeze log _ _ _ _ _ c R1) as (im' & mm' & [T1 T2 T3 T4 T5] & Tc & Tcore & Tst & -> & _); [apply O2|done|by rewrite Eall|].
  rewrite (app_assoc fl im') in T4. apply increasing_snoc in T4 as [T4 _].
  assert (concat (fl ++ im') = F ++ filter (λ e, (ri_min_seq r < seq e)%Z) (log_upto log c)) as Eold.
  { rewrite <-Eall, <-Tc, (app_assoc fl im'), (concat_app (fl ++ im')). cbn. by rewrite app_nil_r. }
  assert (concat (fl ++ im' ++ [X]) = F ++ filter (λ e, (ri_min_seq r < seq e)%Z) (log_upto log c')) as EX.
  { rewrite (app_assoc fl im'), concat_app, Eold, G4, filter_app. cbn. by rewrite app_nil_r, app_assoc. }
  assert (consumed w' = c') as Ec' by (unfold consumed; by rewrite Hph').
  assert (w_core w' = w_core w) as Eco by (unfold w_core; rewrite Es; exact Tcore).
  pose proof (ia_consumed _ _ G1) as Hc'.
  split; rewrite ?Ec', ?Eco, ?Ei, ?E5; try done.
  - rewrite O1. unfold position. by rewrite Ei, E2.
  - lia.
  - rewrite Es. cbn. eapply Forall_impl; [exact Tst|]. cbn. lia.
  - lia.
  - exists fl, im', X, tl', []. split; rewrite ?Es, ?E1, ?Hph', ?Ei, ?E4, ?E5.
    + split; cbn; try done; [unfold built; by rewrite Et|].
      rewrite (app_assoc fl im'). apply increasing_snoc. split; [done|]. rewrite Eold. apply before_app_l. split.
      * intros x y Hx [Hy _]%list_elem_of_filter. rewrite Forall_forall in HF. specialize (HF x Hx). cbn in HF. lia.
      * intros x y [_ Hx]%list_elem_of_filter [_ Hy]%list_elem_of_filter. by apply G6.
    + by rewrite EX, app_nil_r.
    + by rewrite EX.
    + done.
    + rewrite (app_assoc fl im'), concat_app. cbn. rewrite app_nil_r. apply Forall_app. split.
      * rewrite Tc, concat_app in R5 || idtac. rewrite Eold, <-Eall. eapply seqs_counter; [|exact R5]. lia.
      * apply Forall_forall. intros e He. rewrite Forall_forall in G7, Hpos. specialize (G7 e He). cbn in G7. split; [|lia].
        apply Hpos. rewrite <-Etl, <-EX. rewrite (app_assoc fl im'), concat_app. cbn. set_solver.
    + split; [done|]. destruct G1 as [I1 I2 I3 I4 I5 I6]. split; try done. exists F, rest. rewrite G3. by rewrite EX.
Qed.

Lemma owner_replayed est log m files w w' r r' cur :
  increasing log → wal_inv log w → w_phase w = Replaying r cur →
  (∀ id rows, (m_replay_after m < id)%Z → files !! id = Some rows → log_file log id = Some rows) →
  replay_next est files r = Ok (None, r') → w_phase w' = Running → w_db w' = w_db w → w_flushed w' = w_flushed w → w_put w' = w_put w →
  owner_inv log m w → owner_inv log m w'.
Proof using Type.
  intros Hinc Hw Hph Hfiles Hnext Hph' E1 E2 E3 [O1 O2 O3 O4 O5 (fl & im & mm & tl & u & [R1 R2 R3 R4 R5 R6])].
  rewrite Hph in R6. destruct R6 as [-> [A1 A2 A3 A4 A5 A6 (F & rest & EF & HF & Hrest & Eall)]].
  assert (iter_at (last_flushed_wal_id (w_inner w)) r) as Hia by by split.
  assert (buffers (w_inner w) = [[]]) as Ebuf by apply (wv_replaying _ _ Hw _ _ Hph).
  assert (w_put w = false) as Eput.
  { destruct (w_put w) eqn:E; [|done]. destruct (wv_put _ _ Hw E) as (id & b & rest' & Ei & _). unfold buffers in Ebuf. rewrite Ei in Ebuf. cbn in Ebuf.
    injection Ebuf as _ Ebuf. by destruct rest'. }
  set (f := last_flushed_wal_id (w_inner w)) in *.
  assert (ri_last_consumed_wal_file_id r = f) as Ec.
  { unfold replay_next in Hnext. destruct (ri_terminal_result r) as [[[]|?| |]|] eqn:Hterm; try done; [by apply A6|].
    apply bind_Ok_inv in Hnext as ([[t1 any] r1] & Hl & Hnext).
    eapply (replay_loop_spec _ _ _ log (last_flushed_wal_id (w_inner w)) _ _ _ []) in Hl as (new & G1 & G2 & G3 & G4 & G5 & G6 & G7 & G8 & G9); [|done|exact Hia|done|done| ].
    2:{ intros id rows Hid. apply Hfiles. unfold consumed in O2. rewrite Hph in O2. lia. }
    destruct any; [done|]. destruct (G9 eq_refl) as (_ & _ & G). destruct (ri_terminal_result r1) as [[[]|?| |]|] eqn:Hterm'; try done.
    rewrite <-G. by apply (ia_done _ _ G1). }
  assert (top log = f) as Etop by (rewrite O1; unfold position; rewrite Eput; fold f; lia).
  assert (w_inner w' = w_inner w ∧ w_oracle w' = w_oracle w ∧ w_core w' = w_core w) as (Ei & Eo & Eco).
  { unfold w_inner, w_oracle, w_core. by rewrite E1. }
  assert (consumed w' = consumed w) as Econ by (unfold consumed; rewrite Hph, Hph', Ei; done).
  assert (concat (fl ++ im ++ [mm]) = concat log) as Ecl.
  { rewrite Eall, Ec, log_upto_all by lia. rewrite EF, filter_cut by done. done. }
  split; rewrite ?Ei, ?Eo, ?Eco, ?E1, ?Econ; try done.
  - rewrite O1. unfold position. by rewrite Ei, E3.
  - exists fl, im, mm, [], []. split; rewrite ?E1, ?E2, ?Hph', ?Eo, ?Ei; try done.
    + by rewrite !app_nil_r.
    + apply before_nil_r.
    + split; [done|]. fold f. rewrite log_upto_all by lia. unfold pending. rewrite Ebuf. cbn. by rewrite app_nil_r.
Qed.
End invariant.
