(* ===== verification/RecoverySafety.v ===== *)
(** * Crash recovery is exact

    Every step of the writers of [Recovery] keeps the invariant of [RecoveryInv].  What follows: acknowledged rows are
    in the log, the log is replayed in order and without gaps or duplicates, and a writer that was replaced cannot
    extend it. *)

From S2P Require Export RecoveryInv.

Section steps.
  Context `{Chrono} (est_c est_w : nat → Z → Z) (max_flushes : Z) (settings : WriteSettings).
  Context (merger : option MergeOperator) (extractor : option PrefixExtractor) (checks : bool) (fuel : nat).
  Local Notation prune := (memtable_prune_overwrites settings).
  Local Notation local := (local_step est_c est_w max_flushes settings merger extractor checks fuel).

(** ** What a writer does to itself *)

Record keeps (log : list (list RowEntry)) (m : Marks) (w w' : Writer) : Prop := {
  ks_opened : opened w' = true;
  ks_epoch : w_epoch w' = w_epoch w;
  ks_position : position w' = position w;
  ks_wal : wal_inv log w';
  ks_owner : owner_inv prune log m w → owner_inv prune log m w';
}.

Lemma keeps_step_trans log m w w1 w' : keeps log m w w1 → keeps log m w1 w' → keeps log m w w'.
Proof using Type. intros [A1 A2 A3 A4 A5] [B1 B2 B3 B4 B5]. split; try congruence. auto. Qed.

Lemma inner_enabled w x : wal (w_db w) = WalEnabled x → w_inner w = wal_inner x.
Proof using Type. unfold w_inner, inner_of. by intros ->. Qed.

(** A writer freezes its memtable with the position of the log. *)
Lemma keeps_freeze log m w w' :
  wal_inv log w → w_phase w = Running → same_log w w' → w_phase w' = Running → w_flushed w' = w_flushed w → w_epoch w' = w_epoch w →
  maybe_frozen (state (w_db w)) (state (w_db w')) (last_flushed_wal_id (w_inner w)) → keeps log m w w'.
Proof using Type.
  intros Hw Hrun Hs Hrun' E1 E2 Hf. pose proof (same_log_inner _ _ Hs) as Ei. pose proof Hs as (_ & E3 & E4 & _).
  assert (agree w w') as Ha by (split; rewrite ?Ei, ?E3; congruence || lia).
  split; [unfold opened; by rewrite Hrun'|done|by apply agree_position|eapply wal_inv_same; [exact Hs|by right|done]|].
  intros Ho. destruct Hf as [Hf|Hf]; [by eapply owner_agree|by eapply owner_freeze].
Qed.

Lemma keeps_write log m w d' res b seqnum txn tick later ts rows :
  w_phase w = Running → seq_room (w_oracle w) → (0 ≤ seqnum)%Z →
  write_batch est_c est_w max_flushes settings merger extractor checks fuel (w_db w) b seqnum txn tick later ts = Ok (res, d') →
  wb_entries (current_wal (inner_of d')) = wb_entries (current_wal (w_inner w)) ++ rows →
  wal_inv log w → keeps log m w (accept rows (set_db d' w)).
Proof using Type.
  intros Hrun Hroom Hq Hwr Hrows Hw. destruct (wv_enabled _ _ Hw) as [x Hx].
  apply (write_batch_outcome _ _ _ _ _ _ _ _ _ x) in Hwr; [|done..]. pose proof (inner_enabled _ _ Hx) as Ei.
  pose proof (wv_oracle _ _ Hw) as Ho. destruct Hwr as [e d' q Hle Es Ew Em|s now es t d' x' Hlt Hes Ew Happ Et Hfz Eo].
  - assert (rows = []) as ->.
    { unfold w_inner, inner_of in Hrows. rewrite Ew in Hrows. apply (app_inv_head (wb_entries (current_wal (inner_of (w_db w))))). rewrite app_nil_r. symmetry. exact Hrows. }
    set (w' := accept [] (set_db d' w)).
    assert (w_inner w' = w_inner w) as Ei' by (unfold w_inner, inner_of; cbn; by rewrite Ew).
    assert (w_accepted w' = w_accepted w) as Ea by apply app_nil_r.
    assert (w_oracle w' = mkOracle q (last_committed_seq (w_oracle w)) (last_durable_seq (w_oracle w))) as Eo by (unfold w_oracle; cbn; by rewrite Em).
    assert (agree w w') as Ha by (split; rewrite ?Ei', ?Eo; done).
    split; [unfold opened; cbn; by rewrite Hrun|done|by apply agree_position| |by apply owner_agree].
    eapply wal_inv_counter; [..|exact Hw]; rewrite ?Eo; done.
  - assert (rows = es) as ->.
    { unfold inner_of in Hrows. rewrite Ew in Hrows. rewrite Happ, Ei in Hrows. cbn in Hrows. rewrite append_entries in Hrows. by apply app_inv_head in Hrows. }
    set (w' := accept es (set_db d' w)).
    set (w1 := accept es (set_db (with_state (mkDbState t (imm_memtable (state (w_db w))) (db_core (state (w_db w)))) d') w)).
    assert (w_oracle w1 = mkOracle s (Z.max (last_committed_seq (w_oracle w)) s) (last_durable_seq (w_oracle w))) as Eo1 by exact Eo.
    assert (w_inner w1 = wal_inner x') as Ei1 by by apply inner_enabled. rewrite <-Ei in Happ.
    assert (last_flushed_wal_id (w_inner w1) = last_flushed_wal_id (w_inner w)) as Ef by (rewrite Ei1, Happ; done).
    assert (keeps log m w w1) as K1.
    { split; [unfold opened; cbn; by rewrite Hrun|done|unfold position; by rewrite Ef| |].
      - eapply (wal_inv_append _ w w1 x' s es); [..|exact Hw]; rewrite ?Eo1; done.
      - eapply (owner_write _ _ _ w w1 x' s es t); rewrite ?Eo1; try done; try apply Ho. unfold w_oracle. unfold w_oracle in Ho. lia. }
    eapply keeps_step_trans; [exact K1|]. apply keeps_freeze; try done; [apply K1|]. rewrite Ef, Ei. exact Hfz.
Qed.

Lemma keeps_freeze_wal log m w w' x :
  wal (w_db w') = WalEnabled x → wal_inner x = (freeze_current_wal (w_inner w)).2 → w_oracle w' = w_oracle w → w_put w' = w_put w →
  w_accepted w' = w_accepted w → w_phase w' = w_phase w → w_flushed w' = w_flushed w → w_epoch w' = w_epoch w → state (w_db w') = state (w_db w) →
  opened w = true → wal_inv log w → keeps log m w w'.
Proof using Type.
  intros Hx Ex E1 E2 E3 E4 E5 E6 E7 Hop Hw. assert (w_inner w' = (freeze_current_wal (w_inner w)).2) as Ei by (rewrite (inner_enabled _ _ Hx); done).
  assert (agree w w') as Ha.
  { split; rewrite ?Ei, ?E1; try done; [apply freeze_wal_flushed|apply freeze_wal_pending]. }
  split; [unfold opened in *; by rewrite E4|done|by apply agree_position|by eapply wal_inv_freeze_wal|by apply owner_agree].
Qed.

Lemma keeps_flush log m w d' freeze cursor :
  w_phase w = Running → flush_batch_writer est_w (w_db w) freeze = Ok (cursor, d') → wal_inv log w → keeps log m w (set_db d' w).
Proof using Type.
  intros Hrun Hf Hw. destruct (wv_enabled _ _ Hw) as [x Hx]. unfold flush_batch_writer in Hf. rewrite Hx in Hf.
  apply bind_Ok_inv in Hf as ([file wl] & Hfl & Hf). apply bind_Ok_inv in Hfl as ([id x'] & Hfl & E). rewrite ret_Ok in E. injection E as <- <-.
  assert (wal_inner x' = (freeze_current_wal (w_inner w)).2) as Ex.
  { rewrite (inner_enabled _ _ Hx). unfold writer_flush in Hfl. destruct (check_exited _); try done. cbn in Hfl.
    destruct (freeze_current_wal (wal_inner x)) as [i j]. cbn in Hfl. by injection Hfl as _ <-. }
  set (d1 := mkDbInner (state (w_db w)) (txn_manager (w_db w)) (mono_clock (w_db w)) (WalEnabled x')).
  assert (keeps log m w (set_db d1 w)) as K1.
  { eapply keeps_freeze_wal; try done. unfold opened. by rewrite Hrun. }
  destruct freeze; cycle 1; [rewrite ret_Ok in Hf; by injection Hf as _ <-|].
  apply bind_Ok_inv in Hf as (st & Hst & Hf). rewrite ret_Ok in Hf. injection Hf as _ <-. apply observer_status_id in Hst.
  eapply keeps_step_trans; [exact K1|]. apply keeps_freeze; try done; [apply K1|]. right. cbn. by rewrite Hst.
Qed.

Lemma opened_cases w : opened w = true → w_phase w = Running ∨ ∃ r c, w_phase w = Replaying r c.
Proof using Type. unfold opened. destruct (w_phase w); try done; [right; by do 2 eexists|by left]. Qed.

Lemma keeps_record log m w id b rest i' :
  opened w = true → w_put w = true → immutable_wals (w_inner w) = (id, b) :: rest → record_flushed_wal (w_inner w) id b = Ok i' →
  wal_inv log w → keeps log m w (set_put false (set_db (with_oracle (recorded_oracle i' (w_oracle w)) (with_wal i' (w_db w))) w)).
Proof using Type.
  intros Hop Hput Him Hr Hw. destruct (wv_enabled _ _ Hw) as [x Hx]. set (w' := set_put _ _).
  assert (w_phase w = Running) as Hrun.
  { destruct (opened_cases w Hop) as [?|(r & c & Hrp)]; [done|]. pose proof (wv_replaying _ _ Hw _ _ Hrp) as Hb. unfold buffers in Hb. rewrite Him in Hb.
    cbn in Hb. injection Hb as _ Hb. by destruct (fmap _ rest). }
  set (x' := mkWalWriter i' (last_flush_requested_epoch x) (flush_requests x)).
  assert (wal (w_db w') = WalEnabled x') as Hx' by (cbn; unfold with_wal; by rewrite Hx).
  assert (state (w_db w') = state (w_db w)) as Es by (cbn; unfold with_wal; by rewrite Hx).
  assert (w_oracle w' = recorded_oracle i' (w_oracle w)) as Eo by reflexivity.
  destruct (wal_inv_record log w w' x' id b rest i' Him Hr Hput Hx' eq_refl Eo eq_refl eq_refl eq_refl Hw) as (K1 & Ei & Ef & Hl & Ep & Hb & Hd & Hq).
  rewrite <-Ei in Ef, Ep, Hb. split; [done|done|unfold position; rewrite Ef, Hput; cbn; lia|done|].
  eapply (owner_record prune log m w w' b); try done. apply Hw.
Qed.

Lemma keeps_stage log m w newer imm segs segmented c' :
  opened w = true → imm_memtable (state (w_db w)) = newer ++ [imm] → (table_last_seq (imm_table imm) ≤ last_durable_seq (w_oracle w))%Z →
  apply_uploaded segmented (w_core w) (uploaded_of imm segs) = Ok c' → wal_inv log w →
  keeps log m w (set_flushed (w_flushed w ++ [imm_table imm]) (set_db (with_state (mkDbState (memtable (state (w_db w))) newer c') (w_db w)) w)).
Proof using Type.
  intros Hop Him Hd Hup Hw. apply apply_uploaded_marks in Hup as [Hm1 Hm2]. split; [done|done|done| |by eapply owner_stage].
  eapply wal_inv_same; [| |exact Hw]; [done|by left].
Qed.

Lemma keeps_core log m w c' :
  opened w = true → marks c' = marks (w_core w) → wal_inv log w →
  keeps log m w (set_db (with_state (mkDbState (memtable (state (w_db w))) (imm_memtable (state (w_db w))) c') (w_db w)) w).
Proof using Type.
  intros Hop Hm Hw. split; [done|done|done| |by eapply owner_core]. eapply wal_inv_same; [| |exact Hw]; [done|by left].
Qed.

Lemma keeps_replay log m files w r cur t r' d' :
  increasing log → Forall (λ e, (0 < seq e)%Z) (concat log) →
  (∀ id rows, (m_replay_after m < id)%Z → files !! id = Some rows → log_file log id = Some rows) →
  w_phase w = Replaying r cur → replay_next est_c files r = Ok (Some t, r') → replay_table est_c settings extractor (w_db w) cur t = Ok d' →
  wal_inv log w → keeps log m w (set_phase (Replaying r' (rm_last_wal_id t)) (set_db d' w)).
Proof using Type.
  intros Hinc Hpos Hfiles Hph Hn Ht Hw. apply replay_table_inv in Ht as (t' & Et & Es & Ew & El & Ed). set (w' := set_phase _ _).
  assert (w_inner w' = w_inner w) as Ei by (unfold w_inner, inner_of; cbn; by rewrite Ew).
  split; [done|done|unfold position; by rewrite Ei|by eapply wal_inv_replay|by eapply owner_replay].
Qed.

Lemma keeps_replayed log m files w r cur r' :
  increasing log → (∀ id rows, (m_replay_after m < id)%Z → files !! id = Some rows → log_file log id = Some rows) →
  w_phase w = Replaying r cur → replay_next est_c files r = Ok (None, r') → wal_inv log w → keeps log m w (set_phase Running w).
Proof using Type.
  intros Hinc Hfiles Hph Hn Hw. split; [done|done|done| |by eapply owner_replayed]. eapply wal_inv_same; [| |exact Hw]; [done|by right].
Qed.

Lemma local_keeps log m files w w' :
  increasing log → Forall (λ e, (0 < seq e)%Z) (concat log) →
  (∀ id rows, (m_replay_after m < id)%Z → files !! id = Some rows → log_file log id = Some rows) →
  local files w w' → (opened w = true → wal_inv log w) → opened w = true ∧ keeps log m w w'.
Proof using Type.
  intros Hinc Hpos Hfiles Hst Hw.
  assert (opened w = true) as Hop by (destruct Hst as [w ????????? Hp|w ??? Hp|w Hp|w ???? Hp|w ???? Hp|w ? Hp|w ????? Hp|w ??? Hp]; unfold opened in *; by rewrite ?Hp in *).
  split; [done|]. specialize (Hw Hop). destruct Hst.
  - eapply keeps_write; [done|done| |eassumption|done|done]. lia.
  - by eapply keeps_flush.
  - destruct (wv_enabled _ _ Hw) as [x Hx]. eapply keeps_freeze_wal; cbn; unfold with_wal; rewrite ?Hx; done || unfold w_oracle; cbn; by rewrite ?Hx.
  - by eapply keeps_record.
  - by eapply keeps_stage.
  - by apply keeps_core.
  - by eapply keeps_replay.
  - by eapply keeps_replayed.
Qed.

(** ** The object store *)

Definition writer_ok (s : System) (w : Writer) : Prop :=
  writer_inv prune (s_files s) (s_log s) (s_marks s) (s_fence_epoch s) (s_fence_id s) w.

Lemma writer_inv_opened files log m fe fid w : opened w = true →
  writer_inv prune files log m fe fid w ↔
  (w_epoch w ≤ fe)%Z ∧ wal_inv log w ∧ (w_epoch w = fe → owner_inv prune log m w) ∧ ((w_epoch w < fe)%Z → files !! (position w + 1)%Z = Some []).
Proof using Type. unfold opened, writer_inv. by destruct (w_phase w). Qed.

(** One writer takes a step, with a change of the store that the others stand. *)
Lemma inv_one s s' l w w' l' :
  recovery_inv prune s → s_writers s = l ++ w :: l' → s_writers s' = l ++ w' :: l' → w_epoch w' = w_epoch w → s_epoch s' = s_epoch s →
  log_inv prune s' → (s_fence_epoch s' ≤ s_epoch s ∧ s_fence_id s' ≤ top (s_log s'))%Z → writer_ok s' w' →
  (∀ v, w_epoch v ≠ w_epoch w → (w_epoch v ≤ s_epoch s)%Z → writer_ok s v → writer_ok s' v) → recovery_inv prune s'.
Proof using Type.
  intros [I1 I2 I3 I4 I5] Ew Ew' Ee Es Hlog Hf Hw' Hothers. rewrite Ew in I2, I3, I5. split; rewrite ?Ew', ?Es; try done.
  - rewrite !fmap_app, !fmap_cons in I2 |- *. by rewrite Ee.
  - rewrite !Forall_app, !Forall_cons in I3 |- *. by rewrite Ee.
  - rewrite fmap_app, fmap_cons in I2. apply NoDup_app in I2 as (_ & N1 & [N2 _]%NoDup_cons).
    rewrite Forall_app, Forall_cons in I3, I5 |- *. destruct I3 as (L1 & _ & L2), I5 as (W1 & _ & W2). rewrite Forall_forall in L1, L2, W1, W2. rewrite !Forall_forall. split_and!; [|exact Hw'|].
    + intros v Hv. apply Hothers; [|by apply L1|by apply W1]. intros E. apply (N1 (w_epoch v)); [by apply list_elem_of_fmap_2|]. rewrite E. left.
    + intros v Hv. apply Hothers; [|by apply L2|by apply W2]. intros E. apply N2. rewrite <-E. by apply list_elem_of_fmap_2.
Qed.

Lemma inv_writer s l w l' : recovery_inv prune s → s_writers s = l ++ w :: l' → writer_ok s w ∧ (w_epoch w ≤ s_epoch s)%Z.
Proof using Type. intros [_ _ I3 _ I5] E. rewrite E, Forall_app, Forall_cons in I3, I5. split; [apply I5|apply I3]. Qed.

(** Only the phase or the state of a writer changes. *)
Lemma inv_set s l w w' l' :
  recovery_inv prune s → s_writers s = l ++ w :: l' → w_epoch w' = w_epoch w → writer_ok s w' → recovery_inv prune (set_writers (l ++ w' :: l') s).
Proof using Type.
  intros I Ew Ee Hw. eapply inv_one; try done; [|apply I]. destruct (iv_log _ _ I). by split.
Qed.

Lemma marks_bounds s : log_inv prune s → (0 ≤ m_replay_after (s_marks s) ≤ top (s_log s))%Z.
Proof using Type. intros [_ _ _ _ _ (gs & _ & _ & F)]. split; apply F. Qed.

Lemma log_file_None log id : (top log < id)%Z → log_file log id = None.
Proof using Type. intros ?. destruct (log_file log id) eqn:E; [|done]. assert (is_Some (log_file log id)) as Hs by by rewrite E. apply log_file_Some in Hs. lia. Qed.

(** A file is added at the end of the log. *)
Lemma log_inv_grow s s' rows :
  log_inv prune s → s_files s !! (top (s_log s) + 1)%Z = None → s_files s' = <[(top (s_log s) + 1)%Z := rows]> (s_files s) →
  s_log s' = s_log s ++ [rows] → s_marks s' = s_marks s → s_flushed s' = s_flushed s →
  before (concat (s_log s)) rows → Forall (λ e, (0 < seq e)%Z) rows → log_inv prune s'.
Proof using Type.
  intros Hl Hnone Ef El Em Efl Hb Hpos. pose proof (marks_bounds s Hl) as Hm. destruct Hl as [H1 H2 H3 H4 H5 (gs & F1 & F2 & F3)].
  split; rewrite ?Ef, ?El, ?Em, ?Efl.
  - by apply increasing_snoc.
  - rewrite concat_app. cbn. rewrite app_nil_r. by apply Forall_app.
  - intros id r Hid. destruct (decide (id = top (s_log s) + 1)%Z) as [->|Hne].
    + rewrite lookup_insert_eq, log_file_new. done.
    + rewrite lookup_insert_ne by done. rewrite H3 by done. split; [apply log_file_grow|]. by intros [?|[??]]%log_file_grow_inv.
  - intros id r. rewrite top_grow. destruct (decide (id = top (s_log s) + 1)%Z) as [->|Hne]; [lia|]. rewrite lookup_insert_ne by done. intros ?%H4. lia.
  - intros id [Hid|[-> <-]]%log_file_grow_inv; [|by rewrite lookup_insert_eq]. rewrite lookup_insert_ne; [by apply H5|]. intros <-.
    by rewrite log_file_None in Hid by lia.
  - exists gs. split_and!; [done|done|by apply flushed_at_grow].
Qed.

Lemma inv_local s l w l' w' :
  recovery_inv prune s → s_writers s = l ++ w :: l' → local (s_files s) w w' → recovery_inv prune (set_writers (l ++ w' :: l') s).
Proof using Type.
  intros I Ew Hst. destruct (inv_writer s l w l' I Ew) as [Hw _]. pose proof (iv_log _ _ I) as [H1 H2 H3 _ _ _].
  assert (opened w = true → wal_inv (s_log s) w) as Hwal by (intros Hop; by apply writer_inv_opened in Hw as (_ & ? & _)).
  destruct (local_keeps (s_log s) (s_marks s) (s_files s) w w' H1 H2) as [Hop [K1 K2 K3 K4 K5]]; [intros id rows Hid; by apply H3|done|done|].
  apply writer_inv_opened in Hw as (W1 & W2 & W3 & W4); [|done]. apply (inv_set s l w w' l' I Ew K2). apply writer_inv_opened; [done|].
  rewrite K2, K3. split_and!; auto.
Qed.

Lemma inv_die s l w l' : recovery_inv prune s → s_writers s = l ++ w :: l' → recovery_inv prune (set_writers (l ++ l') s).
Proof using Type.
  intros [I1 I2 I3 I4 I5] Ew. rewrite Ew in I2, I3, I5. rewrite Forall_app, Forall_cons in I3, I5. rewrite fmap_app, fmap_cons in I2.
  split; cbn; [destruct I1; by split| | |done|].
  - rewrite fmap_app. apply NoDup_app in I2 as (N1 & N2 & [_ N3]%NoDup_cons). apply NoDup_app. split_and!; [done| |done]. intros e He Hin. apply (N2 e He). by right.
  - apply Forall_app. by destruct I3 as (? & _ & ?).
  - apply Forall_app. by destruct I5 as (? & _ & ?).
Qed.

Lemma inv_open s n d : recovery_inv prune s → (n ≤ top (s_log s) + 1)%Z →
  recovery_inv prune (mkSystem (s_files s) (s_log s) (s_marks s) (s_flushed s) (s_epoch s + 1) (s_fence_epoch s) (s_fence_id s)
    (s_writers s ++ [mkWriter (s_epoch s + 1) (Fencing n (s_marks s)) d false [] []])).
Proof using Type.
  intros [I1 I2 I3 I4 I5] Hn. pose proof (marks_bounds s I1) as Hm. split; cbn; [destruct I1; by split| | |lia|].
  - rewrite fmap_app. apply NoDup_app. split_and!; [done| |apply NoDup_singleton]. intros e (w & -> & Hw)%list_elem_of_fmap.
    rewrite Forall_forall in I3. specialize (I3 w Hw). cbn. rewrite list_elem_of_singleton. cbn in I3. lia.
  - apply Forall_app. split; [eapply Forall_impl; [exact I3|]; cbn; lia|]. by repeat constructor.
  - apply Forall_app. split; [done|]. apply Forall_singleton. cbn. split_and!; try done; lia.
Qed.

Lemma inv_recompute s l w l' n n' m :
  recovery_inv prune s → s_writers s = l ++ w :: l' → w_phase w = Fencing n m → (n' ≤ top (s_log s) + 1)%Z → s_epoch s = w_epoch w →
  recovery_inv prune (set_writers (l ++ set_phase (Fencing n' m) w :: l') s).
Proof using Type.
  intros I Ew Hph Hn Hep. destruct (inv_writer s l w l' I Ew) as [Hw _]. unfold writer_ok, writer_inv in Hw. rewrite Hph in Hw.
  destruct Hw as (_ & W2 & _ & W4 & W5). pose proof (iv_fence _ _ I). apply (inv_set s l w); [done|done|done|]. unfold writer_ok. cbn. split_and!; try done. lia.
Qed.

Lemma inv_fence s l w l' n m files' :
  recovery_inv prune s → s_writers s = l ++ w :: l' → w_phase w = Fencing n m → (m_replay_after m < n)%Z → write_create (s_files s) n [] = Ok files' →
  let new := bool_decide (n = top (s_log s) + 1)%Z in
  recovery_inv prune (mkSystem files' (if new then s_log s ++ [[]] else s_log s) (s_marks s) (s_flushed s) (s_epoch s)
    (if new then w_epoch w else s_fence_epoch s) (if new then n else s_fence_id s) (l ++ set_phase (Checking n m) w :: l')).
Proof using Type.
  intros I Ew Hph Hm Hc. destruct (inv_writer s l w l' I Ew) as [Hw Hlat]. unfold writer_ok, writer_inv in Hw. rewrite Hph in Hw.
  destruct Hw as (W1 & W2 & W3 & W4 & W5). pose proof (iv_fence _ _ I) as [Hfe Hfid]. pose proof (iv_log _ _ I) as Hl. pose proof (marks_bounds s Hl) as Hmb.
  unfold write_create in Hc. destruct (s_files s !! n) eqn:Hnone; [done|]. rewrite ret_Ok in Hc. injection Hc as <-. cbn zeta.
  case_bool_decide as Hnew.
  - assert (s_fence_epoch s < w_epoch w)%Z as Hlt by lia. specialize (W4 Hlt). subst m n.
    eapply inv_one; try done.
    + eapply log_inv_grow; [exact Hl|done..|apply before_nil_r|done].
    + cbn. rewrite top_grow. lia.
    + unfold writer_ok. cbn. split; [lia|]. intros _. by rewrite top_grow.
    + intros v Hne Hv Hok. unfold writer_ok in *. destruct (opened v) eqn:Hop.
      * apply writer_inv_opened in Hok as (V1 & V2 & V3 & V4); [|done]. apply writer_inv_opened; [done|]. cbn. split_and!; [lia|by apply wal_inv_grow|done|].
        intros _. destruct (decide (w_epoch v = s_fence_epoch s)) as [E|E].
        -- rewrite <-(ov_top _ _ _ _ (V3 E)). apply lookup_insert_eq.
        -- rewrite lookup_insert_ne; [apply V4; lia|]. intros E'. rewrite E' in Hnone. rewrite V4 in Hnone by lia. done.
      * unfold writer_inv, opened in *. destruct (w_phase v) as [n2 m2|n2 m2| |]; try done; cbn.
        -- destruct Hok as (V1 & V2 & V3 & V4 & V5). rewrite top_grow. split_and!; try done; try lia. intros ?. apply V4. lia.
        -- split; [lia|done].
  - assert (n ≤ m_replay_after (s_marks s))%Z as Hle.
    { destruct (Z.le_gt_cases n (m_replay_after (s_marks s))) as [?|Hgt]; [done|]. exfalso.
      assert (is_Some (log_file (s_log s) n)) as [rows Hr] by (apply log_file_Some; lia). apply (iv_files _ _ Hl) in Hr; [congruence|lia]. }
    assert (w_epoch w < s_fence_epoch s)%Z as Hlt.
    { destruct (Z.le_gt_cases (s_fence_epoch s) (w_epoch w)); [|lia]. rewrite W4 in Hm; lia. }
    assert (∀ i, s_files s !! i = Some [] → <[n:=[]]> (s_files s) !! i = Some []) as Hkeep.
    { intros i Hi. destruct (decide (i = n)) as [->|]; [apply lookup_insert_eq|by rewrite lookup_insert_ne]. }
    eapply inv_one; try done.
    + destruct Hl as [H1 H2 H3 H4 H5 H6]. split; cbn; try done.
      * intros id rows Hid. rewrite lookup_insert_ne by lia. by apply H3.
      * intros id rows. destruct (decide (id = n)) as [->|]; [lia|rewrite lookup_insert_ne by done; apply H4].
      * intros id Hid. by apply Hkeep, H5.
    + unfold writer_ok. cbn. split; [lia|]. intros ?. lia.
    + intros v Hne Hv Hok. unfold writer_ok in *. destruct (opened v) eqn:Hop; [|unfold writer_inv, opened in *; by destruct (w_phase v)].
      apply writer_inv_opened in Hok as (V1 & V2 & V3 & V4); [|done]. apply writer_inv_opened; [done|]. cbn. split_and!; auto.
Qed.

(** ** A writer that opens the database *)

Definition opening (e n : Z) (m : Marks) (c : ManifestCore) (tabs : list KVTable) : Writer :=
  mkWriter e (Replaying (replay_for_wal_iterator (wal_iter_range (m_replay_after m + 1) (n + 1)) (core_replay_after_wal_id c) (last_l0_seq c)
                          (last_l0_clock_tick c) (replay_options settings)) (core_replay_after_wal_id c))
    (db_inner_new c (WalEnabled (mkWalWriter (wal_start_new n) 0 0))) false tabs [].

Lemma opening_wal log e n m c tabs : (0 ≤ n)%Z → (0 ≤ last_l0_seq c)%Z → wal_inv log (opening e n m c tabs).
Proof using Type.
  intros Hn Hc. split; cbn; try done.
  - by eexists.
  - lia.
  - constructor.
  - apply increasing_one.
  - exists []. split; [done|]. intros x Hx. by apply not_elem_of_nil in Hx.
Qed.

Lemma opening_rows log e n c gs tabs :
  Forall2 (built prune) gs tabs → increasing gs → flushed_at log (marks c) gs → Forall (λ e, (0 < seq e)%Z) (concat log) → n = top log →
  ∃ tl, rows_inv prune log (opening e n (marks c) c tabs) gs [] [] tl [].
Proof using Type.
  intros Hb Hi [F1 F2 (rest & F3 & F3') F4 F5 F6] Hpos ->. cbn in *. exists rest.
  assert (concat (gs ++ [] ++ [[]]) = concat gs) as Ec by (rewrite concat_app; cbn; by rewrite app_nil_r).
  assert (before (concat gs) rest) as Hbr.
  { intros x y Hx Hy. rewrite Forall_forall in F4, F3'. specialize (F4 x Hx). specialize (F3' y Hy). cbn in *. lia. }
  split; rewrite ?Ec, ?app_nil_r; try done.
  - split; try done; [|by split; try done; exists rest]. cbn. apply increasing_snoc. split; [done|apply before_nil_r].
  - rewrite F3 in Hpos. apply Forall_app in Hpos as [Hpos _]. apply Forall_forall. intros x Hx. rewrite Forall_forall in F4, Hpos.
    specialize (F4 x Hx). specialize (Hpos x Hx). cbn in *. lia.
  - split; [done|]. split; cbn; try done. exists (concat gs), rest. split_and!; try done. rewrite list_filter_none; [by rewrite app_nil_r|].
    destruct F2 as [k Ek]. rewrite Ek in F4. apply Forall_app in F4 as [F4 _]. eapply Forall_impl; [exact F4|]. cbn. lia.
Qed.

Lemma inv_check s l w l' n m c :
  recovery_inv prune s → s_writers s = l ++ w :: l' → w_phase w = Checking n m → s_epoch s = w_epoch w → marks c = s_marks s →
  recovery_inv prune (set_writers (l ++ opening (w_epoch w) n m c (s_flushed s) :: l') s).
Proof using Type.
  intros I Ew Hph Hep Hc. destruct (inv_writer s l w l' I Ew) as [Hw _]. unfold writer_ok, writer_inv in Hw. rewrite Hph in Hw. destruct Hw as [W1 W2].
  pose proof (iv_fence _ _ I) as [Hfe _]. assert (w_epoch w = s_fence_epoch s) as E by lia. destruct (W2 E) as [-> ->].
  pose proof (iv_log _ _ I) as Hl. pose proof (marks_bounds s Hl) as Hmb. destruct Hl as [_ Hpos _ _ _ (gs & G1 & G2 & G3)]. rewrite <-Hc in *.
  assert (0 ≤ last_l0_seq c)%Z as HL.
  { destruct (fa_last _ _ _ G3) as [E0|(r & Hr & E0)]; cbn in E0; [lia|]. destruct (fa_cut _ _ _ G3) as (rest & Ecut & _). rewrite Ecut in Hpos.
    apply Forall_app in Hpos as [Hpos _]. rewrite Forall_forall in Hpos. specialize (Hpos r Hr). cbn in Hpos. lia. }
  apply (inv_set s l w); [done|done|done|]. apply writer_inv_opened; [done|]. cbn [w_epoch opening].
  split_and!; [lia|apply opening_wal; [unfold top; lia|done]| |lia]. intros _. rewrite <-Hc.
  destruct (opening_rows (s_log s) (w_epoch w) (top (s_log s)) c gs (s_flushed s) G1 G2 G3 Hpos eq_refl) as [tl Hr].
  split; cbn; try done; try lia; [unfold position; cbn; lia|apply before_nil_r|]. by exists gs, [], [], tl, [].
Qed.

(** ** Upload of a log buffer *)

Lemma buffer_id log w id b rest : wal_inv log w → immutable_wals (w_inner w) = (id, b) :: rest → id = (last_flushed_wal_id (w_inner w) + 1)%Z.
Proof using Type.
  intros Hw E. pose proof (wv_ids _ _ Hw) as Hi. rewrite E in Hi. cbn in Hi. rewrite Nat2Z.inj_succ, seqZ_cons in Hi by lia. by injection Hi as ->.
Qed.

Lemma pending_first i id b rest : immutable_wals i = (id, b) :: rest →
  ∃ u, pending i = wb_entries b ++ u.
Proof using Type. rewrite pending_app. intros ->. cbn. rewrite <-app_assoc. by eexists. Qed.

Lemma wal_inv_put log w id b rest : immutable_wals (w_inner w) = (id, b) :: rest → top log = last_flushed_wal_id (w_inner w) →
  wal_inv log w → wal_inv (log ++ [wb_entries b]) (set_put true w).
Proof using Type.
  intros E Et Hw. pose proof (wal_inv_grow log (wb_entries b) w Hw) as [H1 H2 H3 H4 H5 H6 H7 H8 H9 H10 H11 H12 H13 H14]. split; try done.
  intros _. exists id, b, rest. split; [done|]. change (w_inner (set_put true w)) with (w_inner w). rewrite <-Et. apply log_file_new.
Qed.

Lemma owner_put log m w id b rest :
  opened w = true → w_put w = false → immutable_wals (w_inner w) = (id, b) :: rest → wal_inv log w → Forall (λ e, (0 < seq e)%Z) (wb_entries b) →
  before (concat log) (wb_entries b) → owner_inv prune log m w → owner_inv prune (log ++ [wb_entries b]) m (set_put true w).
Proof using Type.
  intros Hop Hput Him Hw Hpos Hb [O1 O2 O3 O4 O5 (fl & im & mm & tl & u & [[T1 T2 T3 T4 T5] R2 R3 R4 R5 R6])].
  assert (w_phase w = Running) as Hrun.
  { destruct (opened_cases w Hop) as [?|(r & c & Hrp)]; [done|]. pose proof (wv_replaying _ _ Hw _ _ Hrp) as Hbuf. unfold buffers in Hbuf. rewrite Him in Hbuf.
    cbn in Hbuf. injection Hbuf as _ Hbuf. by destruct (fmap _ rest). }
  rewrite Hrun in R6. destruct R6 as [-> R6]. destruct (pending_first _ _ _ _ Him) as [u' Eu]. unfold position in O1. rewrite Hput in O1.
  assert (last_flushed_wal_id (w_inner w) = top log) as Ef by lia. unfold consumed in O2, O3. rewrite Hrun in O2, O3.
  assert (consumed (set_put true w) = top log) as Ec by (unfold consumed; cbn; rewrite Hrun; exact Ef).
  change (w_inner (set_put true w)) with (w_inner w) in *. split; rewrite ?Ec; try done.
  - rewrite top_grow. unfold position. cbn. change (w_inner (set_put true w)) with (w_inner w). lia.
  - by rewrite <-Ef.
  - by rewrite <-Ef.
  - cbn. change (w_inner (set_put true w)) with (w_inner w). rewrite log_upto_grow by lia. done.
  - exists fl, im, mm, [], u'. rewrite Ef, log_upto_all in R6 by lia.
    assert (concat (fl ++ im ++ [mm]) = concat (log ++ [wb_entries b]) ++ u') as Eall.
    { rewrite R6, Eu, concat_app. cbn. by rewrite app_nil_r, app_assoc. }
    pose proof (wv_pending _ _ Hw) as Hp. rewrite Eu in Hp. apply Forall_app in Hp as [_ Hp].
    split; cbn [w_db set_put w_phase w_flushed]; rewrite ?Hrun; try done.
    + split; try done; [|by apply flushed_at_grow]. apply stamped_grow; [done|]. apply Forall_reverse. by rewrite <-Ef.
    + by rewrite app_nil_r.
    + eapply Forall_impl; [exact Hp|]. unfold w_oracle. cbn. lia.
    + split; [done|]. change (w_inner (set_put true w)) with (w_inner w). by rewrite log_upto_grow, Ef, log_upto_all, R6 by lia.
Qed.

Lemma inv_put s l w l' id b rest files' :
  recovery_inv prune s → s_writers s = l ++ w :: l' → opened w = true → w_put w = false → immutable_wals (w_inner w) = (id, b) :: rest →
  write_create (s_files s) id (wb_entries b) = Ok files' →
  recovery_inv prune (mkSystem files' (s_log s ++ [wb_entries b]) (s_marks s) (s_flushed s) (s_epoch s) (s_fence_epoch s) (s_fence_id s)
    (l ++ set_put true w :: l')).
Proof using Type.
  intros I Ew Hop Hput Him Hc. destruct (inv_writer s l w l' I Ew) as [Hw _]. pose proof (iv_log _ _ I) as Hl. pose proof (iv_fence _ _ I) as Hf.
  apply writer_inv_opened in Hw as (W1 & W2 & W3 & W4); [|done]. pose proof (buffer_id _ _ _ _ _ W2 Him) as Eid.
  unfold write_create in Hc. destruct (s_files s !! id) eqn:Hnone; [done|]. rewrite ret_Ok in Hc. injection Hc as <-.
  assert (position w + 1 = id)%Z as Epos by (unfold position; rewrite Hput; lia).
  assert (w_epoch w = s_fence_epoch s) as E.
  { destruct (Z.lt_trichotomy (w_epoch w) (s_fence_epoch s)) as [Hlt|[?|?]]; [|done|lia]. specialize (W4 Hlt). rewrite Epos in W4. congruence. }
  pose proof (W3 E) as Ho. pose proof (ov_top _ _ _ _ Ho) as Et. assert (id = top (s_log s) + 1)%Z as -> by lia.
  assert (top (s_log s) = last_flushed_wal_id (w_inner w)) as Ef by lia.
  destruct (pending_first _ _ _ _ Him) as [u Eu].
  assert (Forall (λ e, (0 < seq e)%Z) (wb_entries b)) as Hpos.
  { pose proof (wv_pending _ _ W2) as Hp. rewrite Eu in Hp. apply Forall_app in Hp as [Hp _]. pose proof (wv_oracle _ _ W2). eapply Forall_impl; [exact Hp|]. cbn. lia. }
  assert (before (concat (s_log s)) (wb_entries b)) as Hb.
  { pose proof (ov_before _ _ _ _ Ho) as Hb. rewrite log_upto_all, Eu in Hb by lia. by apply before_app_r in Hb as [? _]. }
  eapply inv_one; try done.
  - eapply log_inv_grow; [exact Hl|done..].
  - cbn. rewrite top_grow. lia.
  - apply writer_inv_opened; [done|]. cbn. split_and!; [lia|by eapply wal_inv_put|intros _; by eapply owner_put|lia].
  - intros v Hne Hv Hok. unfold writer_ok in *. destruct (opened v) eqn:Hopv.
    + apply writer_inv_opened in Hok as (V1 & V2 & V3 & V4); [|done]. apply writer_inv_opened; [done|]. cbn. split_and!; [lia|by apply wal_inv_grow|congruence|].
      intros Hlt. rewrite lookup_insert_ne; [by apply V4|]. intros E'. rewrite E', V4 in Hnone by lia. done.
    + unfold writer_inv, opened in *. destruct (w_phase v) as [n2 m2|n2 m2| |]; try done; cbn.
      * destruct Hok as (V1 & V2 & V3 & V4 & V5). rewrite top_grow. split_and!; try done. lia.
      * destruct Hok as [V1 V2]. split; [done|congruence].
Qed.

(** ** The manifest *)

Lemma owner_commit log m w : owner_inv prune log m w →
  owner_inv prune log (marks (w_core w)) w ∧ flushed_ok prune log (marks (w_core w)) (w_flushed w) ∧
  (m_replay_after m ≤ m_replay_after (marks (w_core w)))%Z ∧ advance_durable_seq (last_l0_seq (w_core w)) (w_oracle w) = w_oracle w.
Proof using Type.
  intros [O1 O2 O3 O4 O5 O6]. split; [split; try done; cbn; lia|]. split; [|split; [cbn; lia|]].
  - destruct O6 as (fl & im & mm & tl & u & [[T1 T2 T3 T4 T5] _ _ _ _ _]). exists fl. split_and!; [done| |done]. by apply increasing_app in T4 as [? _].
  - unfold advance_durable_seq. rewrite Z.max_l by done. by destruct (w_oracle w).
Qed.

Lemma inv_commit s l w l' :
  recovery_inv prune s → s_writers s = l ++ w :: l' → opened w = true → s_epoch s = w_epoch w →
  recovery_inv prune (mkSystem (s_files s) (s_log s) (marks (w_core w)) (w_flushed w) (s_epoch s) (s_fence_epoch s) (s_fence_id s)
    (l ++ set_db (with_oracle (advance_durable_seq (last_l0_seq (w_core w)) (w_oracle w)) (w_db w)) w :: l')).
Proof using Type.
  intros I Ew Hop Hep. destruct (inv_writer s l w l' I Ew) as [Hw _]. pose proof (iv_log _ _ I) as Hl. pose proof (iv_fence _ _ I) as Hf.
  apply writer_inv_opened in Hw as (W1 & W2 & W3 & W4); [|done]. assert (w_epoch w = s_fence_epoch s) as E by lia.
  destruct (owner_commit _ _ _ (W3 E)) as (C1 & C2 & C3 & C4). rewrite C4. set (w' := set_db _ w).
  assert (same_log w w') as Hs by done. assert (agree w w') as Ha by (split; done). eapply inv_one; try done.
  - destruct Hl as [H1 H2 H3 H4 H5 H6]. split; cbn [s_files s_log s_marks s_flushed]; try done. intros id rows Hid. apply H3. lia.
  - apply writer_inv_opened; [done|]. cbn [s_files s_log s_marks s_fence_epoch s_fence_id].
    split_and!; [done|eapply wal_inv_same; [exact Hs|by left|done]|intros _; by eapply owner_agree|]. cbn. lia.
  - intros v Hne Hv Hok. unfold writer_ok in *. destruct (opened v) eqn:Hopv.
    + apply writer_inv_opened in Hok as (V1 & V2 & V3 & V4); [|done]. apply writer_inv_opened; [done|]. cbn. split_and!; [done|done|congruence|done].
    + unfold writer_inv, opened in *. destruct (w_phase v) as [n2 m2|n2 m2| |]; try done; cbn.
      * destruct Hok as (V1 & V2 & V3 & V4 & V5). split_and!; try done. lia.
      * destruct Hok as [V1 V2]. split; [done|congruence].
Qed.

Lemma inv_collect s id rows : recovery_inv prune s → (id ≤ m_replay_after (s_marks s))%Z → s_files s !! id = Some rows → rows ≠ [] →
  recovery_inv prune (mkSystem (delete id (s_files s)) (s_log s) (s_marks s) (s_flushed s) (s_epoch s) (s_fence_epoch s) (s_fence_id s) (s_writers s)).
Proof using Type.
  intros [[H1 H2 H3 H4 H5 H6] I2 I3 I4 I5] Hid Hr Hne.
  assert (∀ i, s_files s !! i = Some [] → delete id (s_files s) !! i = Some []) as Hkeep.
  { intros i Hi. rewrite lookup_delete_ne; [done|]. intros <-. congruence. }
  split; cbn; try done.
  - split; cbn; try done.
    + intros i r Hi. rewrite lookup_delete_ne by lia. by apply H3.
    + intros i r. rewrite lookup_delete_Some. intros [_ ?]. by eapply H4.
    + intros i Hi. by apply Hkeep, H5.
  - eapply Forall_impl; [exact I5|]. intros w Hw. destruct (opened w) eqn:Hop; [|unfold writer_inv, opened in *; by destruct (w_phase w)].
    apply writer_inv_opened in Hw as (V1 & V2 & V3 & V4); [|done]. apply writer_inv_opened; [done|]. split_and!; auto.
Qed.

(** ** Every step *)

Lemma inv_step s s' : recovery_step est_c est_w max_flushes settings merger extractor checks fuel s s' → recovery_inv prune s → recovery_inv prune s'.
Proof using Type.
  intros Hst I. destruct Hst.
  - by eapply inv_local.
  - by eapply inv_die.
  - by apply inv_open.
  - by eapply inv_recompute.
  - eapply inv_recompute; [done|done|done| |done]. assert (is_Some (s_files s !! n)) as [rows Hr] by done. apply (iv_dom _ _ (iv_log _ _ I)) in Hr. lia.
  - by apply inv_fence.
  - by eapply inv_check.
  - by eapply inv_put.
  - by apply inv_commit.
  - by eapply inv_collect.
Qed.

Lemma inv_initial : recovery_inv prune recovery_initial.
Proof using Type.
  split; cbn; try done; [|constructor]. split; cbn; try done.
  - constructor.
  - intros id rows _. rewrite lookup_empty. unfold log_file. by case_decide.
  - intros id. unfold log_file. by case_decide.
  - exists []. split_and!; [constructor|constructor|]. split; cbn; try done; [by exists []|by left].
Qed.

Lemma recoverable_inv s : recoverable est_c est_w max_flushes settings merger extractor checks fuel s → recovery_inv prune s.
Proof using Type.
  unfold recoverable. generalize inv_initial. generalize recovery_initial. intros s0 I Hs. induction Hs as [|s1 s2 s3 Hst _ IH]; [done|]. apply IH. by eapply inv_step.
Qed.
End steps.

(** ** What the store holds, and what a writer serves *)

(** The rows of the log's files after the file [from], up to the file [upto]; a file that does not exist has none. *)
Definition files_after (files : WalFiles) (from upto : Z) : list RowEntry :=
  concat ((λ id, default [] (files !! id)) <$> seqZ (from + 1) (upto - from)).

(** The memtables of a writer, oldest first: those whose SSTs the local manifest lists, the frozen ones, the active one. *)
Definition tables_of (w : Writer) : list KVTable :=
  w_flushed w ++ reverse (imm_table <$> imm_memtable (state (w_db w))) ++ [memtable (state (w_db w))].

Lemma files_after_drop files log from : (0 ≤ from ≤ top log)%Z →
  (∀ id rows, (from < id)%Z → files !! id = Some rows ↔ log_file log id = Some rows) →
  files_after files from (top log) = concat (drop (Z.to_nat from) log).
Proof.
  intros Hf Hfiles. unfold files_after. f_equal. apply list_eq. intros i. rewrite list_lookup_fmap, lookup_drop. unfold top in *.
  destruct (decide (Z.to_nat from + i < length log)) as [Hlt|Hge].
  - destruct (lookup_lt_is_Some_2 log (Z.to_nat from + i) Hlt) as [rows Hr]. rewrite Hr.
    rewrite lookup_seqZ_lt by lia. cbn. f_equal. specialize (Hfiles (from + 1 + Z.of_nat i)%Z rows ltac:(lia)).
    assert (log_file log (from + 1 + Z.of_nat i) = Some rows) as El by (unfold log_file; rewrite decide_True by lia; rewrite <-Hr; f_equal; lia).
    by rewrite (proj2 Hfiles El).
  - rewrite lookup_seqZ_ge by lia. symmetry. apply lookup_ge_None. lia.
Qed.

Lemma stamped_built prune log lo acc gs imms : stamped prune log lo acc gs imms → Forall2 (built prune) gs (imm_table <$> imms).
Proof.
  revert lo acc imms. induction gs as [|g gs IH]; intros lo acc [|i imms]; cbn; try done.
  intros (_ & _ & Hb & _ & Hs). constructor; [done|by eapply IH].
Qed.

Section recovery.
  Context `{Chrono} (est_c est_w : nat → Z → Z) (max_flushes : Z) (settings : WriteSettings).
  Context (merger : option MergeOperator) (extractor : option PrefixExtractor) (checks : bool) (fuel : nat).
  Local Notation prune := (memtable_prune_overwrites settings).

(** What the manifest lists, followed by the rows above its last sequence number in the files after its replay
    position, is the whole log. *)
Lemma stored_is_log s : log_inv prune s →
  ∃ gs, Forall2 (built prune) gs (s_flushed s) ∧ increasing gs ∧
    concat (s_log s) = concat gs ++ filter (λ r, (m_last_l0_seq (s_marks s) < seq r)%Z)
                                      (files_after (s_files s) (m_replay_after (s_marks s)) (top (s_log s))).
Proof using Type.
  intros [H1 H2 H3 H4 H5 (gs & G1 & G2 & [F1 F2 (rest & F3 & F3') F4 F5 F6])]. exists gs. split; [done|]. split; [done|].
  rewrite (files_after_drop _ (s_log s)) by done. rewrite F3 at 1. f_equal.
  rewrite <-(filter_cut (concat gs) rest (m_last_l0_seq (s_marks s))) at 1 by done. rewrite <-F3.
  rewrite <-(take_drop (Z.to_nat (m_replay_after (s_marks s))) (s_log s)) at 1. rewrite concat_app, filter_app.
  rewrite (list_filter_none _ (concat (take _ _))); [done|]. destruct F2 as [k Ek]. rewrite Ek in F4. apply Forall_app in F4 as [F4 _].
  eapply Forall_impl; [exact F4|]. cbn. lia.
Qed.

Lemma owner_serves log m w : owner_inv prune log m w → w_phase w = Running →
  ∃ gs u, Forall2 (built prune) gs (tables_of w) ∧ increasing gs ∧ concat gs = concat log ++ u ∧ u `suffix_of` pending (w_inner w).
Proof using Type.
  intros [O1 O2 O3 O4 O5 (fl & im & mm & tl & u & [[T1 T2 T3 T4 T5] R2 R3 R4 R5 R6])] Hrun. rewrite Hrun in R6. destruct R6 as [-> R6].
  rewrite app_nil_r in R2. exists (fl ++ im ++ [mm]), u. split; [|split; [done|split; [done|]]].
  - unfold tables_of. apply Forall2_app; [done|]. apply Forall2_app; [|by repeat constructor]. rewrite <-fmap_reverse. by eapply stamped_built.
  - destruct (log_upto_prefix log (last_flushed_wal_id (w_inner w))) as [k Ek]. rewrite R2, Ek, <-app_assoc in R6. apply app_inv_head in R6. rewrite <-R6.
    by apply suffix_app_r.
Qed.

(** C2: Crash recovery loses nothing and applies nothing twice, whatever writers opened the database, died, or kept
    running after they were replaced.  (1) A row that a writer reported durable is in the log.  (2) The log is what the
    manifest's memtables were filled with, followed by the rows above its last sequence number in the files after
    its replay position, none of which is missing.  (3) The memtables of the writer that fenced the log last, once it
    is running, were filled in order with the log and then with rows that are still in its buffers.  (4) A writer
    that was replaced finds the next file it would create taken. *)
Theorem recovery_exact s : recoverable est_c est_w max_flushes settings merger extractor checks fuel s →
  (∀ w r, w ∈ s_writers s → opened w = true → r ∈ w_accepted w → (seq r ≤ last_durable_seq (w_oracle w))%Z → r ∈ concat (s_log s)) ∧
  (∃ gs, Forall2 (built prune) gs (s_flushed s) ∧ increasing gs ∧
     concat (s_log s) = concat gs ++ filter (λ r, (m_last_l0_seq (s_marks s) < seq r)%Z)
                                       (files_after (s_files s) (m_replay_after (s_marks s)) (top (s_log s)))) ∧
  (∀ id, (m_replay_after (s_marks s) < id ≤ top (s_log s))%Z → is_Some (s_files s !! id)) ∧
  (∀ w, w ∈ s_writers s → w_phase w = Running → w_epoch w = s_fence_epoch s →
     ∃ gs u, Forall2 (built prune) gs (tables_of w) ∧ increasing gs ∧ concat gs = concat (s_log s) ++ u ∧ u `suffix_of` pending (w_inner w)) ∧
  (∀ w rows, w ∈ s_writers s → opened w = true → w_epoch w ≠ s_fence_epoch s → write_create (s_files s) (position w + 1) rows = Err Fenced).
Proof using Type.
  intros I%recoverable_inv. pose proof (iv_log _ _ I) as Hl. pose proof (iv_writers _ _ I) as Hws. rewrite Forall_forall in Hws. split_and!.
  - intros w r Hw Hop Hr Hd. specialize (Hws w Hw). apply writer_inv_opened in Hws as (_ & Hwal & _); [|done].
    destruct (wv_accepted _ _ Hwal) as (a & Ea & Ha). rewrite Ea in Hr. apply elem_of_app in Hr as [Hr|Hr]; [by apply Ha|].
    pose proof (wv_pending _ _ Hwal) as Hp. rewrite Forall_forall in Hp. specialize (Hp r Hr). cbn in Hp. lia.
  - by apply stored_is_log.
  - intros id Hid. pose proof (marks_bounds settings s Hl). destruct (proj2 (log_file_Some (s_log s) id)) as [rows Hr]; [lia|]. exists rows. apply (iv_files _ _ Hl); [lia|done].
  - intros w Hw Hrun He. specialize (Hws w Hw). apply writer_inv_opened in Hws as (_ & _ & Ho & _); [|unfold opened; by rewrite Hrun].
    by apply (owner_serves _ (s_marks s)); [apply Ho|].
  - intros w rows Hw Hop He. specialize (Hws w Hw). apply writer_inv_opened in Hws as (Hle & _ & _ & Hf); [|done]. unfold write_create. by rewrite Hf by lia.
Qed.
End recovery.

(** A writer opens a new database and writes two batches, of which the first reaches the log; then a second writer
    takes over and fences the log. *)
Module RecoveryExample.
Definition size_of (n : nat) (s : Z) : Z := s.
Definition settings : WriteSettings := mkWriteSettings 1000 1000 false None.
Definition reachable : System → Prop := recoverable (H:=seconds_chrono) size_of size_of 10 settings None None true 10.
Definition stepped : System → System → Prop := recovery_step (H:=seconds_chrono) size_of size_of 10 settings None None true 10.
Definition locally : WalFiles → Writer → Writer → Prop := local_step (H:=seconds_chrono) size_of size_of 10 settings None None true 10.

Definition get {E A} (dflt : A) (r : outcome E A) : A := match r with Ok a => a | _ => dflt end.
Definition fresh (n : Z) : DbInner := db_inner_new core_new (WalEnabled (mkWalWriter (wal_start_new n) 0 0)).
Definition batch (k v : Z) : WriteBatch := get batch_new (put_bytes_with_options batch_new [k] [v] (mkPutOptions NoExpiry)).
Definition row (k v s : Z) : RowEntry := mkRow [k] (Value [v]) s (Some 5%Z) None.
Definition written (d : DbInner) (b : WriteBatch) : DbInner :=
  (get (Err Closed, d) (write_batch (H:=seconds_chrono) size_of size_of 10 settings None None true 10 d b 0 None 5 5 5%Z)).2.

(** The writer as it opens, after replay of its own empty fence file, and while it runs *)
Definition opening1 : Writer := opening settings 1 1 (mkMarks 0 0 I64_MIN) core_new [].
Definition replay1 : WalReplayIterator :=
  replay_for_wal_iterator (wal_iter_range 1 2) 0 0 I64_MIN (replay_options settings).
Definition read1 : option ReplayedMemtable * WalReplayIterator := get (None, replay1) (replay_next size_of {[1%Z := []]} replay1).
Definition table1 : ReplayedMemtable := default (mkReplayed table_new 0 0 0) read1.1.
Definition db1 : DbInner := get (fresh 1) (replay_table size_of settings None (fresh 1) 0 table1).
Definition replayed1 : Writer := set_phase (Replaying read1.2 (rm_last_wal_id table1)) (set_db db1 opening1).
Definition running1 : Writer := set_phase Running replayed1.
Definition wrote1 : Writer := accept [row 97 1 1] (set_db (written db1 (batch 97 1)) running1).
Definition froze1 : Writer := set_db (with_wal (freeze_current_wal (inner_of (w_db wrote1))).2 (w_db wrote1)) wrote1.
Definition put1 : Writer := set_put true froze1.
Definition buffer1 : WalBuffer := match immutable_wals (inner_of (w_db put1)) with b :: _ => b.2 | [] => wal_buffer_new end.
Definition recorded1 : SlateDbWalWriterInner := get (inner_of (w_db put1)) (record_flushed_wal (inner_of (w_db put1)) 2 buffer1).
Definition durable1 : Writer :=
  set_put false (set_db (with_oracle (recorded_oracle recorded1 (oracle (txn_manager (w_db put1)))) (with_wal recorded1 (w_db put1))) put1).
Definition again1 : Writer := accept [row 98 2 2] (set_db (written (w_db durable1) (batch 98 2)) durable1).
(** The second writer, once its fence file exists *)
Definition fenced2 : Writer := mkWriter 2 (Checking 3 (mkMarks 0 0 I64_MIN)) (fresh 0) false [] [].

Definition store (files : WalFiles) (log : list (list RowEntry)) (epoch fence fence_id : Z) (ws : list Writer) : System :=
  mkSystem files log (mkMarks 0 0 I64_MIN) [] epoch fence fence_id ws.
Definition takeover : System := store (<[2%Z := [row 97 1 1]]> {[1%Z := []]}) [[]; [row 97 1 1]] 1 1 1 [again1].
Definition final : System :=
  store (<[3%Z := []]> (<[2%Z := [row 97 1 1]]> {[1%Z := []]})) [[]; [row 97 1 1]; []] 2 2 3 [again1; fenced2].

Lemma local_one s w w' ws : s_writers s = w :: ws → locally (s_files s) w w' → stepped s (set_writers (w' :: ws) s).
Proof. intros E Hst. exact (StepLocal (H:=seconds_chrono) _ _ _ _ _ _ _ _ s [] w ws w' E Hst). Qed.

Lemma opened_reachable : reachable (store {[1%Z := []]} [[]] 1 1 1 [opening1]).
Proof.
  eapply rtc_l; [exact (StepOpen (H:=seconds_chrono) size_of size_of 10 settings None None true 10 recovery_initial 1 (fresh 0) ltac:(by vm_compute))|].
  eapply rtc_l; [eapply (StepFence (H:=seconds_chrono) size_of size_of 10 settings None None true 10 _ [] _ [] 1 _ {[1%Z := []]}); done|].
  eapply rtc_l; [eapply (StepCheck (H:=seconds_chrono) size_of size_of 10 settings None None true 10 _ [] _ [] 1 _ core_new); done|]. done.
Qed.

Lemma durable_reachable : reachable takeover.
Proof.
  unfold reachable, recoverable. etrans; [exact opened_reachable|].
  eapply rtc_l; [apply (local_one _ opening1 replayed1 []); [done|]; eapply (StepReplay (H:=seconds_chrono)); [done|vm_compute; reflexivity|vm_compute; reflexivity]|].
  eapply rtc_l; [apply (local_one _ replayed1 running1 []); [done|]; eapply (StepReplayed (H:=seconds_chrono)); [done|vm_compute; reflexivity]|].
  eapply rtc_l; [apply (local_one _ running1 wrote1 []); [done|]; eapply (StepWrite (H:=seconds_chrono)) with (b := batch 97 1) (seqnum := 0%Z) (txn := None) (tick := 5%Z) (later := 5%Z) (ts := 5%Z);
    [done|done|done|vm_compute; reflexivity|vm_compute; reflexivity]|].
  eapply rtc_l; [apply (local_one _ wrote1 froze1 []); [done|]; by apply (StepFreezeWal (H:=seconds_chrono))|].
  eapply rtc_l; [eapply (StepPut (H:=seconds_chrono) size_of size_of 10 settings None None true 10 _ [] froze1 [] 2 buffer1 []);
    [done|done|done|vm_compute; reflexivity|vm_compute; reflexivity]|].
  eapply rtc_l; [apply (local_one _ put1 durable1 []); [done|]; eapply (StepRecord (H:=seconds_chrono)) with (id := 2%Z) (b := buffer1) (rest := []);
    [done|done|vm_compute; reflexivity|vm_compute; reflexivity]|].
  eapply rtc_l; [apply (local_one _ durable1 again1 []); [done|]; eapply (StepWrite (H:=seconds_chrono)) with (b := batch 98 2) (seqnum := 0%Z) (txn := None) (tick := 5%Z) (later := 5%Z) (ts := 5%Z);
    [done|done|done|vm_compute; reflexivity|vm_compute; reflexivity]|].
  done.
Qed.

Lemma takeover_final_reachable : reachable final.
Proof.
  unfold reachable, recoverable. etrans; [exact durable_reachable|].
  eapply rtc_l; [exact (StepOpen (H:=seconds_chrono) size_of size_of 10 settings None None true 10 takeover 3 (fresh 0) ltac:(by vm_compute))|].
  eapply rtc_l; [eapply (StepFence (H:=seconds_chrono) size_of size_of 10 settings None None true 10 _ [again1] _ [] 3 _ (s_files final)); done|]. done.
Qed.
End RecoveryExample.

Lemma recovery_exact_witness :
  RecoveryExample.row 97 1 1 ∈ concat (s_log RecoveryExample.final) ∧
  write_create (s_files RecoveryExample.final) (position RecoveryExample.again1 + 1) [RecoveryExample.row 98 2 2] = Err Fenced.
Proof.
  destruct (recovery_exact (H:=seconds_chrono) RecoveryExample.size_of RecoveryExample.size_of 10 RecoveryExample.settings None None true 10
              RecoveryExample.final RecoveryExample.takeover_final_reachable) as (Hd & _ & _ & _ & Hf). split.
  - apply (Hd RecoveryExample.again1); [left|reflexivity|left|vm_compute; discriminate].
  - apply Hf; [left|reflexivity|vm_compute; discriminate].
Defined.
