(* ===== verification/RecoveryProgress.v ===== *)
(** * Opening a database succeeds

    A writer that holds the fence and the epoch replays the log to the end: no file is missing or out of order, no
    assertion of the replay fires and the clock accepts the ticks of the rows. *)

From S2P Require Export RecoverySafety.

Lemma bm_remove_elem `{Ord K} {V} k (m : BTreeMap K V) b : b ∈ bm_remove k m → b ∈ m.
Proof.
  induction m as [|[k' v'] m IH]; cbn; [done|]. destruct (cmp k k'); [by right|done|]. intros [->|Hb]%elem_of_cons; [left|right; by apply IH].
Qed.

Lemma memtable_put_elem prune t e x : x ∈ bm_values (table_map (memtable_put prune t e)) → x = e ∨ x ∈ bm_values (table_map t).
Proof.
  assert (∀ m, x ∈ bm_values (bm_insert (mkSeqKey (key e) (seq e)) e m) → x = e ∨ x ∈ bm_values m) as Hins.
  { intros m ([k v] & -> & Hin)%list_elem_of_fmap. apply bm_insert_elem in Hin as [[= -> ->]|Hin]; [by left|right]. apply (list_elem_of_fmap_2 snd _ _ Hin). }
  unfold memtable_put, put_and_prune_overwritten, table_put. destruct prune; [|apply Hins]. destruct (is_merge (value e)); [apply Hins|].
  destruct (bm_after _ _) as [[k older]|]; [|apply Hins]. case_decide; [|apply Hins]. cbn [table_map].
  intros ([k' v] & -> & Hin%bm_remove_elem)%list_elem_of_fmap. apply Hins. apply (list_elem_of_fmap_2 snd _ _ Hin).
Qed.

(** ** One call of the replay iterator *)

Section replay.
  Context (log : list (list RowEntry)) (files : WalFiles) (f : Z).
  Hypothesis Hlog : increasing log.

(** A replay with the files up to [f] ahead of it, all of which exist. *)
Record ready (r : WalReplayIterator) : Prop := {
  rd_next : wi_next_wal_id (ri_wal_iter r) = (ri_last_consumed_wal_file_id r + 1)%Z;
  rd_end : wi_end_wal_id (ri_wal_iter r) = (f + 1)%Z;
  rd_range : (0 ≤ ri_last_consumed_wal_file_id r ≤ f)%Z;
  rd_running : wi_terminal_result (ri_wal_iter r) = None;
  rd_terminal : ri_terminal_result r = None;
  rd_last q : wi_last_seq (ri_wal_iter r) = Some q → ∃ e, e ∈ log_upto log (ri_last_consumed_wal_file_id r) ∧ seq e = q;
  rd_files id : (ri_last_consumed_wal_file_id r < id ≤ f)%Z → ∃ rows, files !! id = Some rows ∧ log_file log id = Some rows;
}.

Definition finished (r : WalReplayIterator) : Prop := ri_terminal_result r = Some (Ok tt).

Definition advanced (r r' : WalReplayIterator) : Prop :=
  (ri_last_consumed_wal_file_id r ≤ ri_last_consumed_wal_file_id r' ∧ ri_last_seq r ≤ ri_last_seq r' ∧ ri_last_tick r ≤ ri_last_tick r')%Z.

Lemma advanced_trans r1 r2 r3 : advanced r1 r2 → advanced r2 r3 → advanced r1 r3.
Proof using Type. unfold advanced. lia. Qed.

Lemma replay_fold_mono min prune rows t tick q t' tick' q' :
  foldl (replay_row min prune) (t, tick, q) rows = (t', tick', q') →
  (tick ≤ tick' ∧ q ≤ q')%Z ∧ ∀ x, x ∈ bm_values (table_map t') → x ∈ bm_values (table_map t) ∨ x ∈ rows.
Proof using Type.
  revert t tick q. induction rows as [|e rows IH]; intros t tick q; cbn [foldl]; [intros [= <- <- <-]; split; [lia|by left]|].
  change (replay_row min prune (t, tick, q) e) with (if (seq e <=? min)%Z then (t, tick, q) else
    (memtable_put prune t e, match create_ts e with Some ts => Z.max tick ts | None => tick end, Z.max q (seq e))).
  destruct (seq e <=? min)%Z; intros [Hm Hx]%IH; (split; [destruct (create_ts e); lia|]); intros x Hin%Hx; [destruct Hin; [by left|right; by right]|].
  destruct Hin as [[->|?]%memtable_put_elem|?]; [right; left|by left|right; by right].
Qed.

(** The rows of the next file come after those that were read. *)
Lemma in_order r rows : ready r → log_file log (ri_last_consumed_wal_file_id r + 1) = Some rows →
  match min_opt (seq <$> rows), wi_last_seq (ri_wal_iter r) with Some min_seq, Some s => (min_seq <=? s)%Z | _, _ => false end = false.
Proof using Hlog.
  intros Hr Hl. destruct rows as [|x rows]; [done|]. cbn [fmap list_fmap min_opt]. destruct (wi_last_seq (ri_wal_iter r)) as [q|] eqn:Hq; [|done].
  destruct (rd_last _ Hr q Hq) as (e & He & <-). pose proof (rd_range _ Hr).
  pose proof (log_before log _ _ _ Hlog ltac:(split; [apply (proj1 (rd_range _ Hr))|apply Z.lt_succ_diag_r]) Hl) as Hb. apply Z.leb_gt.
  destruct (foldl_min_spec (seq <$> rows) (seq x)) as (_ & _ & Hm). destruct Hm as [->|(y & -> & Hy)%list_elem_of_fmap]; apply Hb; try done; [left|by right].
Qed.

Lemma replay_loop_ok est k r t any :
  ready r → (f - ri_last_consumed_wal_file_id r < Z.of_nat k)%Z → (∀ x, x ∈ bm_values (table_map t) → x ∈ concat log) →
  ∃ t' any' r', replay_loop est k files r t any = Ok (t', any', r') ∧ (ready r' ∨ finished r') ∧ advanced r r' ∧
    (any' = true → any = true ∨ (ri_last_consumed_wal_file_id r < ri_last_consumed_wal_file_id r')%Z) ∧
    (any' = false → finished r') ∧ (∀ x, x ∈ bm_values (table_map t') → x ∈ concat log) ∧ (ri_last_consumed_wal_file_id r' ≤ f)%Z.
Proof using Hlog.
  revert r t any. induction k as [|k IH]; intros r t any Hr Hk Ht; [pose proof (rd_range _ Hr); lia|]. pose proof Hr as [H1 H2 H3 H4 H5 H6 H7].
  cbn [replay_loop]. unfold wal_iter_next. rewrite H4, H1, H2. destruct (Z.leb_spec (f + 1) (ri_last_consumed_wal_file_id r + 1)) as [Hle|Hlt].
  { cbn. do 3 eexists. split; [done|]. split; [by right|]. split; [unfold advanced; cbn; lia|]. split; [by left|]. split; [done|]. split; [done|cbn; lia]. }
  destruct (H7 (ri_last_consumed_wal_file_id r + 1)%Z ltac:(lia)) as (rows & -> & Hl). cbv zeta. rewrite (in_order r rows Hr Hl), ret_Ok. cbn [last_consumed_wal_file_id wr_rows].
  rewrite (proj2 (Z.leb_le _ _)) by lia. cbn [rust_assert mbind outcome_bind].
  destruct (foldl _ _ rows) as [[t1 tick1] q1] eqn:Hf. apply replay_fold_mono in Hf as [[Hm1 Hm2] Hx].
  set (r1 := mkReplay _ _ _ _ tick1 q1 _).
  assert (∀ x, x ∈ bm_values (table_map t1) → x ∈ concat log) as Ht1 by (intros x [Hin|Hin]%Hx; [by apply Ht|by eapply log_file_elem]).
  assert (advanced r r1) as Ha by (unfold advanced; cbn; lia).
  pose proof (log_upto_succ log _ _ (proj1 H3) Hl) as Es.
  assert (ready r1) as Hr1.
  { split; cbn; try done; [lia| |intros id Hid; apply H7; lia]. rewrite Es. intros q. destruct (max_opt (seq <$> rows)) as [s|] eqn:Hs.
    - intros [= <-]. apply max_opt_elem in Hs. apply list_elem_of_fmap in Hs as (e & -> & He). exists e. split; [apply elem_of_app; by right|done].
    - intros (e & He & <-)%H6. exists e. split; [apply elem_of_app; by left|done]. }
  destruct (negb (table_is_empty t1) && _).
  - exists t1, true, r1. split; [done|]. split; [by left|]. split; [done|]. split; [intros _; right; cbn; lia|]. split; [done|]. split; [done|cbn; lia].
  - destruct (IH r1 t1 true Hr1 ltac:(cbn; lia) Ht1) as (t' & any' & r' & E & Hd & Ha' & Hany & Hfin & Ht' & Hf'). exists t', any', r'. split; [exact E|].
    split; [done|]. split; [by eapply advanced_trans|]. split; [|by split]. intros _. right. unfold advanced in Ha'. cbn in Ha'. lia.
Qed.

Lemma replay_next_ok est r : ready r →
  ∃ r', (ready r' ∨ finished r') ∧ advanced r r' ∧
    (replay_next est files r = Ok (None, r') ∨
     ∃ t, replay_next est files r = Ok (Some t, r') ∧ (ri_last_consumed_wal_file_id r < ri_last_consumed_wal_file_id r' ≤ f)%Z ∧
       rm_last_seq t = ri_last_seq r' ∧ rm_last_tick t = ri_last_tick r' ∧ ∀ x, x ∈ bm_values (table_map (rm_table t)) → x ∈ concat log).
Proof using Hlog.
  intros Hr. pose proof (rd_range _ Hr). unfold replay_next. rewrite (rd_terminal _ Hr).
  destruct (replay_loop_ok est (S (Z.to_nat (wi_end_wal_id (ri_wal_iter r) - wi_next_wal_id (ri_wal_iter r)))) r table_new false Hr)
    as (t & any & r' & -> & Hd & Ha & Hany & Hfin & Ht & Hf).
  - rewrite (rd_next _ Hr), (rd_end _ Hr). lia.
  - cbn. by intros x ?%not_elem_of_nil.
  - cbn [mbind outcome_bind]. exists r'. split; [done|]. split; [done|]. destruct any.
    + right. rewrite ret_Ok. destruct (Hany eq_refl) as [?|Hlt]; [done|]. eexists. by split.
    + left. by rewrite (Hfin eq_refl).
Qed.

Lemma replay_next_finished est r : finished r → replay_next est files r = Ok (None, r).
Proof using Type. unfold replay_next. by intros ->. Qed.
End replay.

(** ** One replayed table *)

(** Every key of the rows can be routed. *)
Definition routable (extractor : option PrefixExtractor) (rows : list RowEntry) : Prop :=
  ∀ ext e, extractor = Some ext → e ∈ rows → ∃ p, extract_segment_prefix (H:=ext) (key e) = Ok p.

Lemma touched_by_ok ext rows touched : (∀ e, e ∈ rows → ∃ p, extract_segment_prefix (H:=ext) (key e) = Ok p) → ∃ b, touched_by ext rows touched = Ok b.
Proof.
  revert touched. induction rows as [|e rows IH]; intros touched Hr; cbn; [by eexists|]. destruct (Hr e) as [p ->]; [left|]. cbn. apply IH. intros x Hx. apply Hr. by right.
Qed.

Lemma frozen_empty st id : table_is_empty (memtable (freeze_current_memtable st id)) = true.
Proof. unfold freeze_current_memtable. by destruct (table_is_empty (memtable st)) eqn:E. Qed.

(** A database whose counters and clock are not ahead of a sequence number and a tick *)
Definition behind (d : DbInner) (q tick : Z) : Prop :=
  (last_seq (oracle (txn_manager d)) ≤ q ∧ last_committed_seq (oracle (txn_manager d)) ≤ q ∧
   last_durable_seq (oracle (txn_manager d)) ≤ q ∧ mono_clock d ≤ tick)%Z.

Lemma replay_table_ok est settings extractor d cur t :
  behind d (rm_last_seq t) (rm_last_tick t) → routable extractor (bm_values (table_map (rm_table t))) →
  ∃ d', replay_table est settings extractor d cur t = Ok d' ∧ behind d' (rm_last_seq t) (rm_last_tick t).
Proof.
  intros (H1 & H2 & H3 & H4) Hr. unfold replay_table.
  assert (∃ t', match extractor with
                | Some ext => touched ← touched_by ext (bm_values (table_map (rm_table t))) []; mret (record_touched_segments (rm_table t) touched)
                | None => mret (rm_table t)
                end = Ok (E:=SlateDBError) t') as [t' ->].
  { destruct extractor as [ext|]; [|by eexists]. destruct (touched_by_ok ext (bm_values (table_map (rm_table t))) []) as [b ->]; [|by eexists].
    intros e He. by apply (Hr ext e). }
  cbn [mbind outcome_bind]. rewrite (proj2 (Z.leb_le _ _) H3). cbn [rust_assert]. unfold replay_memtable.
  cbn [with_oracle with_state txn_manager state mono_clock wal set_oracle oracle rm_last_seq rm_last_tick rm_table advance_durable_seq last_seq last_committed_seq
       advance_last_seq last_durable_seq].
  rewrite (proj2 (Z.leb_le _ _) H1). cbn [rust_assert]. rewrite (proj2 (Z.leb_le _ _) H2). cbn [rust_assert].
  unfold enforce_monotonic. rewrite (proj2 (Z.ltb_ge _ _) H4). rewrite ret_Ok. unfold replace_memtable. rewrite freeze_twice, frozen_empty. cbn [rust_assert mbind outcome_bind].
  rewrite !ret_Ok. eexists. split; [done|]. unfold behind. cbn. lia.
Qed.

(** ** The whole replay *)

Section progress.
  Context `{Chrono} (est_c est_w : nat → Z → Z) (max_flushes : Z) (settings : WriteSettings).
  Context (merger : option MergeOperator) (extractor : option PrefixExtractor) (checks : bool) (fuel : nat).

Lemma replay_tables_ok log files f epoch latest n w r cur :
  increasing log → routable extractor (concat log) →
  w_phase w = Replaying r cur → (ready log files f r ∧ (f - ri_last_consumed_wal_file_id r < Z.of_nat n)%Z ∨ finished r ∧ 0 < n) →
  behind (w_db w) (ri_last_seq r) (ri_last_tick r) →
  ∃ d, replay_tables est_c settings extractor n files epoch latest (w_db w) r cur = Ok d ∧ wal d = wal (w_db w) ∧
    rtc (local_step est_c est_w max_flushes settings merger extractor checks fuel files) w (set_phase Running (set_db d w)).
Proof using Type.
  intros Hinc Hroute. revert w r cur. induction n as [|n IH]; intros w r cur Hph Hr Hb.
  { destruct Hr as [[Hr ?]|[_ ?]]; [pose proof (rd_range _ _ _ _ Hr)|]; lia. }
  assert (∀ r', replay_next est_c files r = Ok (None, r') →
    ∃ d, replay_tables est_c settings extractor (S n) files epoch latest (w_db w) r cur = Ok d ∧ wal d = wal (w_db w) ∧
      rtc (local_step est_c est_w max_flushes settings merger extractor checks fuel files) w (set_phase Running (set_db d w))) as Hlast.
  { intros r' E. exists (w_db w). cbn [replay_tables]. rewrite E. split; [done|]. split; [done|]. apply rtc_once. exact (StepReplayed _ _ _ _ _ _ _ _ files w r cur r' Hph E). }
  destruct Hr as [[Hr Hn]|[Hr _]]; [|eapply Hlast; by apply replay_next_finished].
  destruct (replay_next_ok log files f Hinc est_c r Hr) as (r' & Hr' & Ha & [E|(t & E & Hc & E1 & E2 & Ht)]); [by eapply Hlast|].
  destruct Hb as (B1 & B2 & B3 & B4). destruct Ha as (A1 & A2 & A3).
  destruct (replay_table_ok est_c settings extractor (w_db w) cur t) as (d1 & Ed & Hb1).
  - unfold behind. rewrite E1, E2. lia.
  - intros ext e He Hin. by apply (Hroute ext e He), Ht.
  - rewrite E1, E2 in Hb1.
    destruct (IH (set_phase (Replaying r' (rm_last_wal_id t)) (set_db d1 w)) r' (rm_last_wal_id t) eq_refl) as (d & Et & Ew & Hs); [|done|].
    + pose proof (rd_range _ _ _ _ Hr). destruct Hr' as [Hr'|Hr']; [left; split; [done|lia]|right; split; [done|lia]].
    + exists d. cbn [replay_tables]. rewrite E, Ed. cbn. split; [exact Et|]. pose proof (replay_table_inv _ _ _ _ _ _ _ Ed) as (_ & _ & _ & Ew1 & _). split; [by rewrite Ew|]. eapply rtc_l; [by eapply StepReplay|]. exact Hs.
Qed.

Lemma locals_steps s l l' w w' :
  rtc (local_step est_c est_w max_flushes settings merger extractor checks fuel (s_files s)) w w' →
  rtc (recovery_step est_c est_w max_flushes settings merger extractor checks fuel) (set_writers (l ++ w :: l') s) (set_writers (l ++ w' :: l') s).
Proof using Type.
  induction 1 as [|w w1 w' Hst _ IH]; [done|]. eapply rtc_l; [|exact IH]. exact (StepLocal _ _ _ _ _ _ _ _ (set_writers (l ++ w :: l') s) l w l' w1 eq_refl Hst).
Qed.

Lemma opening_ready s n c : log_inv (memtable_prune_overwrites settings) s → n = top (s_log s) → marks c = s_marks s →
  ready (s_log s) (s_files s) n (replay_for_wal_iterator (wal_iter_range (core_replay_after_wal_id c + 1) (n + 1)) (core_replay_after_wal_id c)
    (last_l0_seq c) (last_l0_clock_tick c) (replay_options settings)).
Proof using Type.
  intros Hl -> Hm. pose proof (marks_bounds settings s Hl) as Hb. rewrite <-Hm in Hb. cbn in Hb. split; cbn; try done.
  intros id Hid. destruct (proj2 (log_file_Some (s_log s) id)) as [rows Hr]; [lia|]. exists rows. split; [|done]. apply (iv_files _ _ Hl); [|done]. rewrite <-Hm. cbn. lia.
Qed.

(** C3: A writer that created its fence file and still has the latest epoch opens the database: whatever happened before,
    replay of the log from the manifest's position ends without an error and without a failed assertion, after at
    most as many tables as the log has files, and the memtables it leaves, after those whose SSTs the manifest lists,
    were filled with the rows of the log: each of them, once, in order.  The writer then runs. *)
Theorem opening_succeeds s l w l' n m c :
  recoverable est_c est_w max_flushes settings merger extractor checks fuel s →
  s_writers s = l ++ w :: l' → w_phase w = Checking n m → s_epoch s = w_epoch w → marks c = s_marks s → routable extractor (concat (s_log s)) →
  ∃ d gs,
    replay_tables est_c settings extractor (S (length (s_log s))) (s_files s) (w_epoch w) (s_epoch s)
      (db_inner_new c (WalEnabled (mkWalWriter (wal_start_new n) 0 0)))
      (replay_for_wal_iterator (wal_iter_range (m_replay_after m + 1) (n + 1)) (core_replay_after_wal_id c) (last_l0_seq c) (last_l0_clock_tick c)
         (replay_options settings)) (core_replay_after_wal_id c) = Ok d ∧
    Forall2 (built (memtable_prune_overwrites settings)) gs
      (s_flushed s ++ reverse (imm_table <$> imm_memtable (state d)) ++ [memtable (state d)]) ∧
    increasing gs ∧ concat gs = concat (s_log s) ∧
    recoverable est_c est_w max_flushes settings merger extractor checks fuel
      (set_writers (l ++ mkWriter (w_epoch w) Running d false (s_flushed s) [] :: l') s).
Proof using Type.
  intros Hs Ew Hph Hep Hm Hroute. pose proof (recoverable_inv _ _ _ _ _ _ _ _ s Hs) as I. pose proof (iv_log _ _ I) as Hl. pose proof (iv_fence _ _ I) as Hf.
  destruct (inv_writer settings s l w l' I Ew) as [Hw _]. unfold writer_ok, writer_inv in Hw. rewrite Hph in Hw. destruct Hw as [W1 W2].
  assert (w_epoch w = s_fence_epoch s) as E by lia. destruct (W2 E) as [Em En]. subst m n.
  set (w0 := opening settings (w_epoch w) (top (s_log s)) (s_marks s) c (s_flushed s)).
  destruct (replay_tables_ok (s_log s) (s_files s) (top (s_log s)) (w_epoch w) (s_epoch s) (S (length (s_log s))) w0 _ (core_replay_after_wal_id c)
              (iv_increasing _ _ Hl) Hroute eq_refl) as (d & Ed & Ewal & Hsteps).
  { left. rewrite <-Hm. split; [by apply opening_ready|]. pose proof (marks_bounds settings s Hl) as Hb. rewrite <-Hm in Hb. unfold top in *. cbn in *. lia. }
  { unfold behind. cbn. lia. }
  set (w1 := set_phase Running (set_db d w0)) in Hsteps. set (s1 := set_writers (l ++ w1 :: l') s).
  assert (recoverable est_c est_w max_flushes settings merger extractor checks fuel s1) as Hs1.
  { unfold recoverable. etrans; [exact Hs|]. eapply rtc_l; [exact (StepCheck _ _ _ _ _ _ _ _ s l w l' _ _ c Ew Hph Hep Hm)|]. exact (locals_steps s l l' w0 w1 Hsteps). }
  pose proof (recoverable_inv _ _ _ _ _ _ _ _ s1 Hs1) as I1. destruct (inv_writer settings s1 l w1 l' I1 eq_refl) as [Hw1 _].
  apply writer_inv_opened in Hw1 as (_ & _ & Ho & _); [|done]. destruct (owner_serves settings _ _ _ (Ho E) eq_refl) as (gs & u & G1 & G2 & G3 & G4).
  assert (u = []) as ->.
  { unfold w_inner, inner_of in G4. cbn in G4. rewrite Ewal in G4. cbn in G4. by apply suffix_nil_inv in G4. }
  rewrite app_nil_r in G3. by exists d, gs.
Qed.
End progress.

Lemma opening_succeeds_witness :
  ∃ d gs, replay_tables RecoveryExample.size_of RecoveryExample.settings None 4 (s_files RecoveryExample.final) 2 2 (RecoveryExample.fresh 3)
      (replay_for_wal_iterator (wal_iter_range 1 4) 0 0 I64_MIN (replay_options RecoveryExample.settings)) 0 = Ok d ∧
    Forall2 (built false) gs (reverse (imm_table <$> imm_memtable (state d)) ++ [memtable (state d)]) ∧ concat gs = [RecoveryExample.row 97 1 1].
Proof.
  destruct (opening_succeeds (H:=seconds_chrono) RecoveryExample.size_of RecoveryExample.size_of 10 RecoveryExample.settings None None true 10
              RecoveryExample.final [RecoveryExample.again1] RecoveryExample.fenced2 [] 3 (mkMarks 0 0 I64_MIN) core_new) as (d & gs & H1 & H2 & _ & H3 & _).
  - exact RecoveryExample.takeover_final_reachable.
  - reflexivity.
  - reflexivity.
  - reflexivity.
  - reflexivity.
  - intros ext e Hext. discriminate Hext.
  - exists d, gs. split; [exact H1|]. split; [exact H2|exact H3].
Defined.
