(* ===== verification/ObjectStore.v ===== *)
(** * The object store and programs that use it

    The names of the files a sequenced object is kept in ([path_for], [parse_id] of
    [slatedb-txn-obj/src/object_store.rs]), what the [object_store] crate promises about a request
    ([serves], an assumption on an abstract store), and asynchronous code as a tree of requests:
    between two requests of one task any other task may run. *)

From S2P Require Export Types.

Local Open Scope Z_scope.

(** ** Decimal numbers *)

(** [format!("{:0w}", n)] of a number of at most [w] digits. *)
Fixpoint padded (w : nat) (n : Z) : bytes :=
  match w with O => [] | S w => padded w (n / 10) ++ [48 + n mod 10] end.

(** [n.to_string()] of a [u64] *)
Fixpoint to_decimal (fuel : nat) (n : Z) : bytes :=
  match fuel with
  | O => []
  | S fuel => (if decide (n < 10) then [] else to_decimal fuel (n / 10)) ++ [48 + n mod 10]
  end.
Definition to_string (n : Z) : bytes := to_decimal 20 n.

Fixpoint parse_digits (acc : Z) (l : bytes) : option Z :=
  match l with
  | [] => Some acc
  | c :: l => if decide (48 <= c <= 57) then parse_digits (acc * 10 + (c - 48)) l else None
  end.

(** [str::parse::<u64>]: an optional plus sign and at least one digit. *)
Definition parse_u64 (l : bytes) : option Z :=
  let digits := match l with 43 :: l' => l' | _ => l end in
  if decide (digits = []) then None
  else n ← parse_digits 0 digits; if decide (n <= u64_max) then Some n else None.

(** [str::trim], on ASCII white space *)
Definition is_space (c : Z) : bool := bool_decide (9 <= c <= 13 ∨ c = 32).
Fixpoint trim_start (l : bytes) : bytes :=
  match l with [] => [] | c :: l' => if is_space c then trim_start l' else l end.
Definition trim (l : bytes) : bytes := reverse (trim_start (reverse (trim_start l))).

(** ** File names *)

(** [str::split('.')] *)
Fixpoint split_dot (l : bytes) : bytes * list bytes :=
  match l with
  | [] => ([], [])
  | c :: l =>
      let '(first, rest) := split_dot l in
      if decide (c = 46) then ([], first :: rest) else (c :: first, rest)
  end.

Section names.
  Context (suffix : bytes).

(** [ObjectStoreSequencedStorageProtocol::path_for], within the directory *)
Definition path_for (id : Z) : bytes := padded 20 id ++ 46 :: suffix.

(** [ObjectStoreSequencedStorageProtocol::parse_id]: the part after the last dot is the suffix, the
    part before the first one the ID. *)
Definition parse_id (name : bytes) : option Z :=
  let '(first, rest) := split_dot name in
  match last rest with
  | Some ext => if decide (ext = suffix) then parse_u64 first else None
  | None => None
  end.
End names.

(** ** The store *)

(** [object_store::UpdateVersion] *)
Record UpdateVersion := mkVersion { e_tag : option bytes; version : option bytes }.

Notation object := (bytes * UpdateVersion)%type.

(** The files the protocol uses: the versions' directory and the boundary file. *)
Inductive location := VersionFile (name : bytes) | BoundaryFile.

Record store := mkStore { files : gmap bytes object; boundary_file : option object }.

Definition object_at (loc : location) (s : store) : option object :=
  match loc with VersionFile name => files s !! name | BoundaryFile => boundary_file s end.

Definition set_object (loc : location) (o : option object) (s : store) : store :=
  match loc with
  | VersionFile name => mkStore (partial_alter (λ _, o) name (files s)) (boundary_file s)
  | BoundaryFile => mkStore (files s) o
  end.

(** [object_store::PutMode] *)
Inductive put_mode := PutCreate | PutUpdate (v : UpdateVersion).

Inductive get_result :=
| GetOk (payload : bytes) (v : UpdateVersion)
| GetNotFound
| GetNotModified
| GetFailed.

Inductive put_result :=
| PutOk (v : UpdateVersion)
| PutAlreadyExists
| PutPrecondition
| PutFailed.

(** One request each: [get_opts], [put_opts], the next item of the [list] stream (its name and when
    it was last modified), [delete]. *)
Inductive request : Type → Type :=
| Get (loc : location) (if_none_match : option bytes) : request get_result
| Put (loc : location) (payload : bytes) (mode : put_mode) : request put_result
| ListNext (after : option bytes) : request (option (option (bytes * Z)))
| Delete (loc : location) : request bool.

(** What the store's validators promise: an entity tag, and a version, belongs to one payload. *)
Class Validators := {
  tag_payload : location → bytes → bytes;
  version_payload : location → bytes → bytes;
}.

Definition describes `{Validators} (loc : location) (v : UpdateVersion) (payload : bytes) : Prop :=
  (∀ t, e_tag v = Some t → tag_payload loc t = payload) ∧
  (∀ g, version v = Some g → version_payload loc g = payload).

(** [v] and [v'] agree on a validator. *)
Definition same_object (v v' : UpdateVersion) : Prop :=
  (is_Some (e_tag v) ∧ e_tag v = e_tag v') ∨ (is_Some (version v) ∧ version v = version v').

Definition admits (mode : put_mode) (current : option object) : Prop :=
  match mode with
  | PutCreate => current = None
  | PutUpdate v => ∃ b v', current = Some (b, v') ∧ same_object v v'
  end.

(** [after] comes before [name]. *)
Definition follows (after : option bytes) (name : bytes) : Prop :=
  match after with Some a => a ≺ name | None => True end.

(** The documented behaviour of one request. A request that fails with an error may have had its
    effect. Listing goes through the names in lexicographic order, as S3 and its like do (the interface
    of the crate leaves the order open); each item shows the directory at the time it is fetched. *)
Definition serves `{Validators} {X} (r : request X) : store → X → store → Prop :=
  match r in request X return store → X → store → Prop with
  | Get loc if_none_match => λ s x s',
      s' = s ∧
      match x with
      | GetOk payload v => object_at loc s = Some (payload, v) ∧ describes loc v payload
      | GetNotFound => object_at loc s = None
      | GetNotModified => ∃ t payload v,
          if_none_match = Some t ∧ object_at loc s = Some (payload, v) ∧ e_tag v = Some t ∧ describes loc v payload
      | GetFailed => True
      end
  | Put loc payload mode => λ s x s',
      match x with
      | PutOk v => admits mode (object_at loc s) ∧ describes loc v payload ∧ s' = set_object loc (Some (payload, v)) s
      | PutAlreadyExists => s' = s ∧ mode = PutCreate ∧ is_Some (object_at loc s)
      | PutPrecondition => s' = s ∧ mode ≠ PutCreate ∧ ¬ admits mode (object_at loc s)
      | PutFailed =>
          s' = s ∨
          ∃ v, admits mode (object_at loc s) ∧ describes loc v payload ∧ s' = set_object loc (Some (payload, v)) s
      end
  | ListNext after => λ s x s',
      s' = s ∧
      match x with
      | Some (Some (name, _)) =>
          is_Some (files s !! name) ∧ follows after name ∧
          ∀ n, is_Some (files s !! n) → follows after n → name ≼ n
      | Some None => ∀ n, is_Some (files s !! n) → ¬ follows after n
      | None => True
      end
  | Delete loc => λ s x s',
      s' = set_object loc None s ∨ (x = false ∧ s' = s)
  end.

(** An object store: its states, how it answers a request, and the files it holds. *)
Class ObjectStore := {
  os_state : Type;
  os_step {X} : request X → os_state → X → os_state → Prop;
  os_contents : os_state → store;
}.

Class ObjectStoreLaws `{Validators, ObjectStore} : Prop :=
  os_serves : ∀ X (r : request X) s x s', os_step r s x s' → serves r (os_contents s) x (os_contents s').

(** ** Programs: trees of requests *)

Inductive program (R : Type → Type) (E A : Type) : Type :=
| Done (r : outcome E A)
| Await {X : Type} (e : R X) (k : X → program R E A).
Arguments Done {R E A} r.
Arguments Await {R E A X} e k.

Fixpoint program_bind {R E A B} (k : A → program R E B) (p : program R E A) : program R E B :=
  match p with
  | Done (Ok a) => k a
  | Done (Err e) => Done (Err e)
  | Done Panic => Done Panic
  | Done OutOfFuel => Done OutOfFuel
  | Await e f => Await e (λ x, program_bind k (f x))
  end.

Global Instance program_mret {R E} : MRet (program R E) := λ A a, Done (Ok a).
Global Instance program_mbind {R E} : MBind (program R E) := λ A B k p, program_bind k p.

Definition trigger {R : Type → Type} {E X} (e : R X) : program R E X := Await e (λ x, Done (Ok x)).
Definition throw {R E A} (e : E) : program R E A := Done (Err e).

(** [match c.await { .. }]: the continuation sees the error as well. *)
Fixpoint catch {R E A B} (p : program R E A) (k : outcome E A → program R E B) : program R E B :=
  match p with
  | Done Panic => Done Panic
  | Done OutOfFuel => Done OutOfFuel
  | Done r => k r
  | Await e f => Await e (λ x, catch (f x) k)
  end.

Arguments to_string : simpl never.
Arguments path_for : simpl never.

(** ** Lemmas on names *)

Lemma padded_length w n : length (padded w n) = w.
Proof. revert n. induction w as [|w IH]; intros n; cbn; [done|]. rewrite length_app, IH. cbn. lia. Qed.

Lemma parse_digits_app acc l l' :
  parse_digits acc (l ++ l') = parse_digits acc l ≫= λ n, parse_digits n l'.
Proof. revert acc. induction l as [|c l IH]; intros acc; cbn; [done|]. case_decide; [apply IH|done]. Qed.

Lemma parse_digit acc n : parse_digits acc [48 + n mod 10] = Some (acc * 10 + n mod 10).
Proof.
  pose proof (Z.mod_pos_bound n 10). cbn. rewrite decide_True by lia. f_equal. lia.
Qed.

Lemma parse_padded w n : 0 <= n < 10 ^ Z.of_nat w → parse_digits 0 (padded w n) = Some n.
Proof.
  revert n. induction w as [|w IH]; intros n Hn; cbn [padded].
  { cbn in *. f_equal. lia. }
  rewrite parse_digits_app, IH.
  - cbn [mbind option_bind]. rewrite parse_digit. f_equal. pose proof (Z.div_mod n 10). lia.
  - rewrite Nat2Z.inj_succ, Z.pow_succ_r in Hn by lia. split; [apply Z.div_pos; lia|]. apply Z.div_lt_upper_bound; lia.
Qed.

Lemma parse_to_decimal fuel n : 0 <= n < 10 ^ Z.of_nat fuel → parse_digits 0 (to_decimal fuel n) = Some n.
Proof.
  revert n. induction fuel as [|fuel IH]; intros n Hn; cbn [to_decimal].
  { cbn in *. f_equal. lia. }
  rewrite Nat2Z.inj_succ, Z.pow_succ_r in Hn by lia. rewrite parse_digits_app. case_decide as Hd.
  - change (parse_digits 0 []) with (Some 0). cbn [mbind option_bind]. by rewrite parse_digit, Z.mod_small by lia.
  - rewrite IH; [|split; [apply Z.div_pos; lia|apply Z.div_lt_upper_bound; lia]].
    cbn [mbind option_bind]. rewrite parse_digit. f_equal. pose proof (Z.div_mod n 10). lia.
Qed.

Lemma u64_digits n : 0 <= n <= u64_max → 0 <= n < 10 ^ Z.of_nat 20.
Proof. unfold u64_max. cbn. lia. Qed.

(** Digits only: no dot, no sign, no space. *)
Definition is_digits (l : bytes) : Prop := Forall (λ c, 48 <= c <= 57) l.

Lemma digit_range n : 48 <= 48 + n mod 10 <= 57.
Proof. pose proof (Z.mod_pos_bound n 10). lia. Qed.

Lemma padded_digits w n : is_digits (padded w n).
Proof. revert n. induction w as [|w IH]; intros n; cbn; [constructor|]. apply Forall_app. split; [apply IH|repeat constructor; apply digit_range]. Qed.

Lemma to_decimal_digits fuel n : is_digits (to_decimal fuel n).
Proof.
  revert n. induction fuel as [|fuel IH]; intros n; cbn; [constructor|]. apply Forall_app. split; [|repeat constructor; apply digit_range].
  case_decide; [constructor|apply IH].
Qed.

Lemma parse_u64_digits l n : is_digits l → l ≠ [] → parse_digits 0 l = Some n → n <= u64_max → parse_u64 l = Some n.
Proof.
  intros Hl Hne Hp Hn. unfold parse_u64. replace (match l with 43 :: l' => l' | _ => l end) with l.
  - rewrite decide_False by done. rewrite Hp. cbn. by rewrite decide_True.
  - destruct l as [|c l]; [done|]. apply Forall_cons in Hl as [Hc _].
    repeat (destruct c as [|c|c]; try done; []). destruct c as [c|c|]; try lia; repeat (try lia; try done; destruct c as [c|c|]).
Qed.

Lemma split_dot_digits l rest : is_digits l → split_dot (l ++ 46 :: rest) = (l, (split_dot rest).1 :: (split_dot rest).2).
Proof.
  induction l as [|c l IH]; intros Hl; cbn.
  - by destruct (split_dot rest).
  - apply Forall_cons in Hl as [Hc Hl]. rewrite IH by done. rewrite decide_False by lia. done.
Qed.

Lemma split_dot_none l : 46 ∉ l → split_dot l = (l, []).
Proof.
  induction l as [|c l IH]; intros Hl; cbn; [done|]. rewrite IH by set_solver. rewrite decide_False; [done|set_solver].
Qed.

(** A name made from an ID parses back to it. *)
Lemma parse_path_for suffix id : 46 ∉ suffix → 0 <= id <= u64_max → parse_id suffix (path_for suffix id) = Some id.
Proof.
  intros Hs Hid. unfold parse_id, path_for. rewrite split_dot_digits by apply padded_digits. rewrite split_dot_none by done. cbn [last fst snd].
  rewrite decide_True by done. apply parse_u64_digits; [apply padded_digits| |apply parse_padded, u64_digits, Hid|lia].
  intros H. apply (f_equal length) in H. by rewrite padded_length in H.
Qed.

Lemma trim_start_digits l : is_digits l → trim_start l = l.
Proof.
  destruct l as [|c l]; [done|]. intros [Hc _]%Forall_cons. cbn. unfold is_space. rewrite bool_decide_eq_false_2; [done|lia].
Qed.

Lemma trim_digits l : is_digits l → trim l = l.
Proof.
  intros Hl. unfold trim. rewrite (trim_start_digits l Hl), trim_start_digits; [apply reverse_involutive|]. by apply Forall_reverse.
Qed.

(** The boundary file's payload parses back to the boundary. *)
Lemma parse_to_string n : 0 <= n <= u64_max → parse_u64 (trim (to_string n)) = Some n.
Proof.
  intros Hn. unfold to_string. rewrite trim_digits by apply to_decimal_digits.
  apply parse_u64_digits; [apply to_decimal_digits| |apply parse_to_decimal, u64_digits, Hn|lia].
  cbn [to_decimal]. intros H. apply (f_equal length) in H. rewrite length_app in H. cbn in H. lia.
Qed.

(** Names sort like their IDs. *)
Lemma name_lt_app (a b c d : bytes) : length a = length b → a ≺ b → a ++ c ≺ b ++ d.
Proof.
  revert b. induction a as [|x a IH]; intros [|y b] Hlen Hlt; try done. unfold ord_lt in *. cbn in *.
  destruct (cmp x y); [|done|done]. apply IH; [lia|done].
Qed.

Lemma cmp_app_same (a c d : bytes) : c ≺ d → a ++ c ≺ a ++ d.
Proof. intros H. induction a as [|x a IH]; [done|]. unfold ord_lt in *. cbn. by rewrite cmp_refl. Qed.

Lemma cmp_cons_lt (x y : Z) (l k : bytes) : x < y → x :: l ≺ y :: k.
Proof.
  intros H. unfold ord_lt. change (cmp (x :: l) (y :: k)) with (match Z.compare x y with Eq => cmp l k | r => r end).
  by rewrite (proj2 (Z.compare_lt_iff x y) H).
Qed.

Lemma padded_lt w m n : 0 <= m < n → n < 10 ^ Z.of_nat w → padded w m ≺ padded w n.
Proof.
  revert m n. induction w as [|w IH]; intros m n Hmn Hn; cbn [padded].
  { cbn in Hn. lia. }
  rewrite Nat2Z.inj_succ, Z.pow_succ_r in Hn by lia.
  pose proof (Z.div_mod m 10). pose proof (Z.div_mod n 10).
  pose proof (Z.mod_pos_bound m 10). pose proof (Z.mod_pos_bound n 10).
  destruct (decide (m / 10 < n / 10)) as [Hlt|Hge].
  - apply name_lt_app; [by rewrite !padded_length|]. apply IH; [|apply Z.div_lt_upper_bound; lia]. split; [apply Z.div_pos; lia|done].
  - replace (m / 10) with (n / 10) by lia. apply cmp_app_same, cmp_cons_lt. lia.
Qed.

Lemma path_for_lt suffix m n : 0 <= m < n → n <= u64_max → path_for suffix m ≺ path_for suffix n.
Proof.
  intros Hmn Hn. apply name_lt_app; [by rewrite !padded_length|]. apply padded_lt; [done|]. apply u64_digits. lia.
Qed.

Lemma parse_digits_nonneg l : ∀ acc n, 0 <= acc → parse_digits acc l = Some n → 0 <= n.
Proof. induction l as [|c l IH]; cbn; intros acc n Ha Hn; [by injection Hn as <-|]. case_decide; [|done]. apply (IH (acc * 10 + (c - 48))); [lia|done]. Qed.

Lemma parse_id_range suffix name id : parse_id suffix name = Some id → 0 <= id <= u64_max.
Proof.
  unfold parse_id. destruct (split_dot name) as [first rest]. destruct (last rest) as [ext|]; [|done]. case_decide; [|done].
  unfold parse_u64. case_decide; [done|]. intros (n & Hn & Hle)%bind_Some. case_decide; [|done]. injection Hle as <-.
  apply parse_digits_nonneg in Hn; lia.
Qed.

Lemma follows_trans after a b : follows after a → a ≼ b → follows after b.
Proof. destruct after as [c|]; cbn; [|done]. intros. by eapply ord_lt_le_trans. Qed.
