(* ===== verification/TxnStore.v ===== *)
(** * Sequenced objects on an object store ([slatedb-txn-obj/src/lib.rs], [object_store.rs])

    A value kept as a series of version files, written with put-if-absent, with a durable boundary
    below which versions are fenced and may be deleted. Each definition is a program over the
    requests to the store and the short critical sections on the state a process keeps in memory:
    the cached latest version and the cached boundary. [TxnStoreSpec] proves what they do when any
    number of processes run them at the same time. *)

From S2P Require Export ObjectStore.

Local Open Scope Z_scope.

(** [TransactionalObjectError] *)
Inductive TransactionalObjectError :=
| IoError
| ObjectStoreError
| ObjectUpdateTimeout
| LatestRecordMissing
| ObjectVersionExists
| ObjectFenced
| InvalidObjectState
| CallbackError.

Global Instance TransactionalObjectError_eq_dec : EqDecision TransactionalObjectError.
Proof. solve_decision. Defined.

(** [TransactionalObjectError::is_sequenced_write_conflict] *)
Definition is_sequenced_write_conflict (e : TransactionalObjectError) : bool := bool_decide (e = ObjectVersionExists).

(** [ObjectCodec] *)
Class ObjectCodec (T : Type) := { encode : T → bytes; decode : bytes → option T }.
Class ObjectCodecLaws (T : Type) `{ObjectCodec T} : Prop := decode_encode : ∀ v, decode (encode v) = Some v.

(** What a process keeps in memory: [latest] of [ObjectStoreSequencedStorageProtocol] and [cache] of
    [ObjectStoreBoundaryObject], each behind a mutex. *)
Record local := mkLocal {
  latest : option (Z * bytes);
  boundary_cache : option (Z * UpdateVersion);
}.

Definition set_latest (o : option (Z * bytes)) (l : local) : local := mkLocal o (boundary_cache l).
Definition set_boundary_cache (o : option (Z * UpdateVersion)) (l : local) : local := mkLocal (latest l) o.

(** A step of a task: a request, or a critical section. *)
Inductive event : Type → Type :=
| Request {X} (r : request X) : event X
| Locally {X} (f : local → X * local) : event X.

Notation io := (program event TransactionalObjectError).

Definition request_ {X} (r : request X) : io X := trigger (Request r).
Definition locally {X} (f : local → X * local) : io X := trigger (Locally f).

(** [MonotonicId::initial], [MonotonicId::next] (with overflow checks) *)
Definition initial : Z := 1.
Definition next (id : Z) : io Z := if decide (id < u64_max) then mret (id + 1) else Done Panic.

(** ** The boundary ([ObjectStoreBoundaryObject]) *)

(** [update_cache]: never moves the cached boundary backward. *)
Definition update_cache (boundary : Z) (v : UpdateVersion) : io (Z * option UpdateVersion) :=
  locally (λ l,
    match boundary_cache l with
    | Some (cached_id, cached_version) =>
        if decide (boundary < cached_id) then ((cached_id, Some cached_version), l)
        else ((boundary, Some v), set_boundary_cache (Some (boundary, v)) l)
    | None => ((boundary, Some v), set_boundary_cache (Some (boundary, v)) l)
    end).

(** [read_boundary] *)
Definition read_boundary : io (Z * option UpdateVersion) :=
  cached ← locally (λ l, (boundary_cache l, l));
  r ← request_ (Get BoundaryFile (cached ≫= λ c, e_tag c.2));
  match r with
  | GetOk payload v =>
      match parse_u64 (trim payload) with
      | Some boundary => update_cache boundary v
      | None => throw InvalidObjectState
      end
  | GetNotModified =>
      cached ← locally (λ l, (boundary_cache l, l));
      match cached with
      | Some (boundary, v) => mret (boundary, Some v)
      | None => throw InvalidObjectState
      end
  | GetNotFound => mret (0, None)
  | GetFailed => throw ObjectStoreError
  end.

(** [check_boundary] *)
Definition check_boundary (id boundary : Z) : io unit :=
  if decide (id <= boundary) then throw ObjectVersionExists else mret tt.

(** [ObjectStoreBoundaryObject::check] *)
Definition boundary_check (id : Z) : io unit :=
  cached_boundary ← locally (λ l, (boundary_cache l, l));
  _ ← match cached_boundary with Some (boundary, _) => check_boundary id boundary | None => mret tt end;
  '(boundary, _) ← read_boundary;
  check_boundary id boundary.

(** [ObjectStoreBoundaryObject::advance] *)
Fixpoint boundary_advance (fuel : nat) (boundary : Z) : io unit :=
  match fuel with
  | O => Done OutOfFuel
  | S fuel =>
      cached_boundary ← locally (λ l, (boundary_cache l, l));
      '(current_boundary, current_version) ←
        match cached_boundary with
        | Some (boundary, v) => mret (boundary, Some v)
        | None => read_boundary
        end;
      if decide (boundary <= current_boundary) then mret tt
      else
        r ← request_ (Put BoundaryFile (to_string boundary)
                        (match current_version with Some v => PutUpdate v | None => PutCreate end));
        match r with
        | PutOk v => _ ← update_cache boundary v; mret tt
        | PutAlreadyExists | PutPrecondition => _ ← read_boundary; boundary_advance fuel boundary
        | PutFailed => throw ObjectStoreError
        end
  end.

(** ** The versions ([ObjectStoreSequencedStorageProtocol]) *)

(** [maybe_cache_latest] *)
Definition maybe_cache_latest (id : Z) (b : bytes) : io unit :=
  locally (λ l,
    (tt, if match latest l with Some (cached_id, _) => bool_decide (cached_id < id) | None => true end
         then set_latest (Some (id, b)) l else l)).

(** [invalidate_cached] *)
Definition invalidate_cached (id : Z) : io unit :=
  locally (λ l, (tt, match latest l with
                     | Some (cached_id, _) => if decide (cached_id = id) then set_latest None l else l
                     | None => l
                     end)).

(** [invalidate_cached_through] *)
Definition invalidate_cached_through (boundary : Z) : io unit :=
  locally (λ l, (tt, match latest l with
                     | Some (cached_id, _) => if decide (cached_id <= boundary) then set_latest None l else l
                     | None => l
                     end)).

(** [BoundaryObject for ObjectStoreSequencedStorageProtocol] *)
Definition check (id : Z) : io unit :=
  catch (boundary_check id) (λ r,
    _ ← match r with Err ObjectVersionExists => invalidate_cached id | _ => mret tt end;
    Done r).

Definition advance (fuel : nat) (boundary : Z) : io unit :=
  _ ← boundary_advance fuel boundary;
  invalidate_cached_through boundary.

(** The [MAX_PROBES] constant. *)
Definition MAX_PROBES : nat := 4.

Section sequenced.
  Context (suffix : bytes) {T : Type} `{ObjectCodec T}.

Definition version_file (id : Z) : location := VersionFile (path_for suffix id).

(** [codec.decode(..).map_err(CallbackError)] *)
Definition decode_value (b : bytes) : io T :=
  match decode b with Some v => mret v | None => throw CallbackError end.

(** [try_read_bytes_unchecked] *)
Definition try_read_bytes_unchecked (id : Z) : io (option bytes) :=
  r ← request_ (Get (version_file id) None);
  match r with
  | GetOk payload _ => mret (Some payload)
  | GetNotFound => mret None
  | GetNotModified | GetFailed => throw ObjectStoreError
  end.

(** [write_unchecked] *)
Definition write_unchecked (current_id : option Z) (new_value : T) : io Z :=
  id ← match current_id with Some id => next id | None => mret initial end;
  let b := encode new_value in
  r ← request_ (Put (version_file id) b PutCreate);
  match r with
  | PutOk _ => _ ← maybe_cache_latest id b; mret id
  | PutAlreadyExists => throw ObjectVersionExists
  | PutPrecondition | PutFailed => throw ObjectStoreError
  end.

(** [list]: the IDs within the bounds and when each file was last modified, ascending. *)
Fixpoint list_items (fuel : nat) (from to : Bound Z) (after : option bytes) (items : list (Z * Z)) : io (list (Z * Z)) :=
  match fuel with
  | O => Done OutOfFuel
  | S fuel =>
      r ← request_ (ListNext after);
      match r with
      | None => throw ObjectStoreError
      | Some None => mret items
      | Some (Some (name, last_modified)) =>
          list_items fuel from to (Some name)
            (match parse_id suffix name with
             | Some id => if range_contains (range_new from to) id then items ++ [(id, last_modified)] else items
             | None => items
             end)
      end
  end.
Definition id_le (a b : Z * Z) : Prop := a.1 <= b.1.
Global Instance id_le_dec a b : Decision (id_le a b).
Proof. unfold id_le. apply _. Defined.
Definition list_versions (fuel : nat) (from to : Bound Z) : io (list (Z * Z)) :=
  items ← list_items fuel from to None [];
  mret (merge_sort id_le items).

(** The probes of [try_read_latest_unchecked] for successors of the cached version; [None] when they
    do not reach the latest one. *)
Fixpoint probe (probes : nat) (id : Z) (b : bytes) : io (option (Z * T)) :=
  match probes with
  | O => mret None
  | S probes =>
      next_id ← next id;
      o ← try_read_bytes_unchecked next_id;
      match o with
      | Some next_bytes => _ ← maybe_cache_latest next_id next_bytes; probe probes next_id next_bytes
      | None => v ← decode_value b; mret (Some (id, v))
      end
  end.

(** The loop over listings of [try_read_latest_unchecked]. *)
Fixpoint read_listed (fuel : nat) (list_fuel : nat) : io (option (Z * T)) :=
  match fuel with
  | O => Done OutOfFuel
  | S fuel =>
      files ← list_versions list_fuel Unbounded Unbounded;
      cached ← locally (λ l, (latest l, l));
      match last files with
      | Some (file_id, _) =>
          b ← match cached with
              | Some (cached_id, b) => if decide (cached_id = file_id) then mret (Some b) else try_read_bytes_unchecked file_id
              | None => try_read_bytes_unchecked file_id
              end;
          match b with
          | None => read_listed fuel list_fuel
          | Some b =>
              v ← decode_value b;
              _ ← maybe_cache_latest file_id b;
              mret (Some (file_id, v))
          end
      | None =>
          _ ← match cached with Some (cached_id, _) => invalidate_cached cached_id | None => mret tt end;
          mret None
      end
  end.

(** [try_read_latest_unchecked] *)
Definition try_read_latest_unchecked (fuel : nat) : io (option (Z * T)) :=
  cached ← locally (λ l, (latest l, l));
  probed ← match cached with Some (id, b) => probe MAX_PROBES id b | None => mret None end;
  match probed with
  | Some r => mret (Some r)
  | None => read_listed fuel fuel
  end.

(** [try_read_unchecked] *)
Definition try_read_unchecked (id : Z) : io (option T) :=
  o ← try_read_bytes_unchecked id;
  match o with Some b => v ← decode_value b; mret (Some v) | None => mret None end.

(** [delete_unchecked] *)
Definition delete_unchecked (id : Z) : io unit :=
  ok ← request_ (Delete (version_file id));
  if ok : bool then invalidate_cached id else throw ObjectStoreError.

(** ** The checked operations ([SequencedStorageProtocol], [TransactionalStorageProtocol]) *)

(** [SequencedStorageProtocol::delete] *)
Definition delete_checked (id : Z) : io unit :=
  catch (check id) (λ r,
    match r with
    | Ok _ => throw InvalidObjectState
    | Err ObjectVersionExists => delete_unchecked id
    | e => Done e
    end).

(** [TransactionalStorageProtocol::write] *)
Definition write (current_id : option Z) (new_value : T) : io Z :=
  id ← write_unchecked current_id new_value;
  _ ← check id;
  mret id.

(** [TransactionalStorageProtocol::try_read_latest] *)
Fixpoint read_latest (attempts : nat) (fuel : nat) : io (option (Z * T)) :=
  match attempts with
  | O => Done OutOfFuel
  | S attempts =>
      o ← try_read_latest_unchecked fuel;
      match o with
      | None => mret None
      | Some (id, v) =>
          catch (check id) (λ r,
            match r with
            | Ok _ => mret (Some (id, v))
            | Err ObjectVersionExists => read_latest attempts fuel
            | Err e => throw e
            | Panic => Done Panic
            | OutOfFuel => Done OutOfFuel
            end)
      end
  end.
Definition try_read_latest (fuel : nat) : io (option (Z * T)) := read_latest fuel fuel.
End sequenced.
