(* ===== verification/TxnStoreSpec.v ===== *)
(** * What the operations on a sequenced object do among concurrent processes

    A small program logic for [io] programs in the rely-guarantee style: [wp] runs a program while
    other tasks take any number of steps between its own. The invariant [ok] relates the files, the
    boundary and the caches of all processes to the history of committed versions; [evolve] is what
    every step preserves. *)

From S2P Require Export TxnStore.

Local Open Scope Z_scope.

(** A call of the interface: the client that makes it and the number of the call. *)
Notation tag := (nat * nat)%type.

Lemma same_object_payload `{Validators} loc v v' b b' :
  same_object v v' → describes loc v b → describes loc v' b' → b = b'.
Proof.
  intros [[[t Ht] E]|[[t Ht] E]] [H1 H2] [H3 H4].
  - rewrite <-(H1 t Ht). apply H3. by rewrite <-E.
  - rewrite <-(H2 t Ht). apply H4. by rewrite <-E.
Qed.

Section worlds.
  Context (suffix : bytes) (T : Type) {CO : ObjectCodec T} {VA : Validators} {OS : ObjectStore}
    (legal : list (tag * bytes) → tag → bytes → Prop).

(** The store, the memory of each process, and the versions committed so far with the call that wrote
    each of them; the version with ID [i] is at position [i - 1]. *)
Record world := mkWorld {
  w_store : os_state;
  w_local : nat → local;
  w_hist : list (tag * bytes);
}.

Definition contents (w : world) : store := os_contents (w_store w).

Definition boundary_of (s : store) : Z :=
  match boundary_file s with Some (payload, _) => default 0 (parse_u64 (trim payload)) | None => 0 end.
Definition bound (w : world) : Z := boundary_of (contents w).
Definition count (w : world) : Z := Z.of_nat (length (w_hist w)).

Definition version_at (h : list (tag * bytes)) (id : Z) : option bytes :=
  if decide (0 < id) then snd <$> h !! Z.to_nat (id - 1) else None.

(** A new file above the boundary is a new version. *)
Definition commits {X} (r : request X) (s s' : store) : Prop :=
  match r with
  | Put (VersionFile name) _ _ =>
      match parse_id suffix name with
      | Some id => files s !! name = None ∧ is_Some (files s' !! name) ∧ boundary_of s < id
      | None => False
      end
  | _ => False
  end.
Global Instance commits_dec {X} (r : request X) s s' : Decision (commits r s s').
Proof. destruct r as [| [name|] ? ?| |]; cbn; try apply _. destruct (parse_id suffix name); apply _. Defined.

Definition payload_of {X} (r : request X) : bytes := match r with Put _ payload _ => payload | _ => [] end.

Definition record (t : tag) {X} (r : request X) (s s' : store) (h : list (tag * bytes)) : list (tag * bytes) :=
  if decide (commits r s s') then h ++ [(t, payload_of r)] else h.

(** A step of process [pid] on behalf of call [t]. *)
Definition does (pid : nat) (t : tag) {X} (e : event X) (w : world) : X → world → Prop :=
  match e in event X return X → world → Prop with
  | Request r => λ x w',
      ∃ s', os_step r (w_store w) x s' ∧
        w' = mkWorld s' (w_local w) (record t r (contents w) (os_contents s') (w_hist w))
  | Locally f => λ x w',
      x = (f (w_local w pid)).1 ∧
      w' = mkWorld (w_store w) (λ q, if decide (q = pid) then (f (w_local w pid)).2 else w_local w q) (w_hist w)
  end.

(** ** The invariant *)

(** [b] encodes a value: the version with this ID, unless the ID is fenced. *)
Definition holds_version (w : world) (id : Z) (b : bytes) : Prop :=
  0 <= id ∧ (∃ v : T, b = encode v) ∧ (id <= bound w ∨ version_at (w_hist w) id = Some b).

Record ok (w : world) : Prop := {
  ok_boundary : ∀ payload v, boundary_file (contents w) = Some (payload, v) →
    describes BoundaryFile v payload ∧ ∃ b, 0 <= b <= u64_max ∧ payload = to_string b;
  ok_bound : bound w = 0 ∨ bound w < count w;
  ok_count : count w <= u64_max;
  ok_present id : bound w < id <= count w →
    fst <$> files (contents w) !! path_for suffix id = version_at (w_hist w) id;
  ok_names name id : is_Some (files (contents w) !! name) → parse_id suffix name = Some id →
    name = path_for suffix id ∧ id <= count w;
  ok_encoded name b v : files (contents w) !! name = Some (b, v) → is_Some (parse_id suffix name) → ∃ x : T, b = encode x;
  ok_latest pid id b : latest (w_local w pid) = Some (id, b) → holds_version w id b;
  ok_cache pid c v : boundary_cache (w_local w pid) = Some (c, v) →
    0 <= c <= bound w ∧ describes BoundaryFile v (to_string c);
  ok_payloads : Forall (λ e, ∃ v : T, e.2 = encode v) (w_hist w);
  ok_legal h t b k : w_hist w = h ++ (t, b) :: k → legal h t b;
}.

Definition cache_le (o o' : option (Z * UpdateVersion)) : Prop :=
  match o, o' with Some (c, _), Some (c', _) => c <= c' | Some _, None => False | None, _ => True end.

(** What every step preserves: versions stay, the boundary and the cached boundaries do not go back. *)
Record evolve (w w' : world) : Prop := {
  ev_hist : w_hist w `prefix_of` w_hist w';
  ev_bound : bound w <= bound w';
  ev_cache pid : cache_le (boundary_cache (w_local w pid)) (boundary_cache (w_local w' pid));
}.

(** The versions written by a call. *)
Definition mine (t : tag) (w : world) : list (tag * bytes) := filter (λ e, e.1 = t) (w_hist w).

Definition others (t : tag) (w w' : world) : Prop := evolve w w' ∧ mine t w' = mine t w.
Definition own (t : tag) (w w' : world) : Prop := evolve w w' ∧ ∀ t', t' ≠ t → mine t' w' = mine t' w.

Lemma cache_le_refl o : cache_le o o.
Proof. destruct o as [[c v]|]; cbn; [lia|done]. Qed.
Lemma cache_le_trans a b c : cache_le a b → cache_le b c → cache_le a c.
Proof. destruct a as [[]|], b as [[]|], c as [[]|]; cbn; try done; lia. Qed.

Global Instance evolve_preorder : PreOrder evolve.
Proof.
  split.
  - intros w. split; [done|lia|intros; apply cache_le_refl].
  - intros a b c [] []. split; [by etransitivity|lia|intros; by eapply cache_le_trans].
Qed.

Global Instance others_preorder t : PreOrder (others t).
Proof.
  split.
  - intros w. by split.
  - intros a b c [H1 H2] [H3 H4]. split; [by etransitivity|congruence].
Qed.

Lemma own_others t t' w w' : t' ≠ t → own t w w' → others t' w w'.
Proof. intros Hne [He Hm]. split; [done|by apply Hm]. Qed.

Lemma bound_contents w w' : contents w' = contents w → bound w' = bound w.
Proof. unfold bound. by intros ->. Qed.

Lemma evolve_count w w' : evolve w w' → count w <= count w'.
Proof. intros [Hp _ _]. apply prefix_length in Hp. unfold count. lia. Qed.

Lemma prefix_version h h' id b : h `prefix_of` h' → version_at h id = Some b → version_at h' id = Some b.
Proof.
  intros [k ->] Hv. unfold version_at in *. case_decide; [|done]. apply fmap_Some in Hv as (e & He & ->).
  by rewrite (lookup_app_l_Some _ _ _ _ He).
Qed.

Lemma version_at_count h id b : version_at h id = Some b → 0 < id <= Z.of_nat (length h).
Proof.
  unfold version_at. case_decide; [|done]. intros (e & He & _)%fmap_Some. apply lookup_lt_Some in He. lia.
Qed.

Lemma version_at_last h t b : version_at (h ++ [(t, b)]) (Z.of_nat (length h) + 1) = Some b.
Proof.
  unfold version_at. rewrite decide_True by lia. replace (Z.to_nat _) with (length h) by lia.
  by rewrite list_lookup_middle.
Qed.

(** ** Weakest preconditions *)

Fixpoint wp (pid : nat) (t : tag) {A} (p : io A) (Q : outcome TransactionalObjectError A → world → Prop) (w : world) : Prop :=
  match p with
  | Done r => Q r w
  | Await e k => ∀ w1, ok w1 → others t w w1 → ∀ x w2, does pid t e w1 x w2 →
      ok w2 ∧ own t w1 w2 ∧ wp pid t (k x) Q w2
  end.

Section logic.
  Context (pid : nat) (t : tag).
Local Notation wp := (wp pid t).

Lemma wp_conseq {A} (p : io A) P Q w :
  ok w → wp p P w → (∀ r w', ok w' → evolve w w' → P r w' → Q r w') → wp p Q w.
Proof.
  intros Hok. cut (∀ w0, evolve w0 w → wp p P w → (∀ r w', ok w' → evolve w0 w' → P r w' → Q r w') → wp p Q w).
  { intros Hcut. by apply Hcut. }
  revert w Hok. induction p as [r|X e k IH]; intros w Hok w0 Hev Hp HPQ; cbn in *; [by apply HPQ|].
  intros w1 Hok1 Ho x w2 Hd. destruct (Hp w1 Hok1 Ho x w2 Hd) as (Hok2 & Hown & Hw). split_and!; [done|done|].
  apply (IH x w2 Hok2 w0); [|done|done]. etransitivity; [exact Hev|]. etransitivity; [apply Ho|apply Hown].
Qed.

Lemma wp_bind {A B} (p : io A) (k : A → io B) Q w :
  wp p (λ r w', match r with Ok a => wp (k a) Q w' | Err e => Q (Err e) w' | Panic => Q Panic w' | OutOfFuel => Q OutOfFuel w' end) w →
  wp (p ≫= k) Q w.
Proof.
  revert w. induction p as [[]|X e f IH]; intros w; cbn; try done.
  intros Hp w1 Hok1 Ho x w2 Hd. destruct (Hp w1 Hok1 Ho x w2 Hd) as (? & ? & Hw). split_and!; [done|done|]. by apply IH.
Qed.

Lemma wp_catch {A B} (p : io A) (k : outcome TransactionalObjectError A → io B) Q w :
  wp p (λ r w', match r with Panic => Q Panic w' | OutOfFuel => Q OutOfFuel w' | r => wp (k r) Q w' end) w →
  wp (catch p k) Q w.
Proof.
  revert w. induction p as [[]|X e f IH]; intros w; cbn; try done.
  intros Hp w1 Hok1 Ho x w2 Hd. destruct (Hp w1 Hok1 Ho x w2 Hd) as (? & ? & Hw). split_and!; [done|done|]. by apply IH.
Qed.

Lemma wp_others {A} (p : io A) (Q : outcome TransactionalObjectError A → world → Prop) w w' :
  (∀ r w w', Q r w → ok w' → others t w w' → Q r w') → ok w' → others t w w' → wp p Q w → wp p Q w'.
Proof.
  intros Hst Hok Ho. destruct p as [r|X e k]; cbn; [intros; by eapply Hst|].
  intros Hp w1 Hok1 Ho1 x w2 Hd. apply (Hp w1 Hok1); [by etransitivity|done].
Qed.
End logic.

(** ** Single steps *)

Context {CL : ObjectCodecLaws T} {OL : ObjectStoreLaws} (Hsuffix : 46 ∉ suffix).

(** Nothing but the memory of a process, or the state of the store behind the same files, changes. *)
Lemma record_same h t {X} (r : request X) s : record t r s s h = h.
Proof.
  unfold record. rewrite decide_False; [done|]. destruct r as [| [name|] ? ?| |]; cbn; try by intros [].
  destruct (parse_id suffix name); [|by intros []]. intros (HN & [? HS] & _). congruence.
Qed.

Lemma ok_same w w' :
  contents w' = contents w → w_hist w' = w_hist w →
  (∀ q, latest (w_local w' q) = None ∨ latest (w_local w' q) = latest (w_local w q) ∨
     ∃ id b, latest (w_local w' q) = Some (id, b) ∧ holds_version w id b) →
  (∀ q, boundary_cache (w_local w' q) = boundary_cache (w_local w q) ∨
     ∃ c v, boundary_cache (w_local w' q) = Some (c, v) ∧ 0 <= c <= bound w ∧ describes BoundaryFile v (to_string c)) →
  ok w → ok w'.
Proof.
  intros Hc Hh Hl Hb [H1 H2 H3 H4 H5 H5e H6 H7 H8 H9]. unfold holds_version, bound, count in *. split; unfold holds_version, bound, count; rewrite ?Hc, ?Hh; try done.
  - intros q id b E. destruct (Hl q) as [E'|[E'|(id' & b' & E' & Hv)]]; [congruence| |].
    + apply (H6 q). congruence.
    + rewrite E' in E. injection E as -> ->. done.
  - intros q c v E. destruct (Hb q) as [E'|(c' & v' & E' & Hv)].
    + apply (H7 q). congruence.
    + rewrite E' in E. injection E as -> ->. done.
Qed.

Lemma step_same w w' t :
  contents w' = contents w → w_hist w' = w_hist w → (∀ q, cache_le (boundary_cache (w_local w q)) (boundary_cache (w_local w' q))) →
  own t w w'.
Proof.
  intros Hc Hh Hl. split; [|intros t' _; unfold mine; by rewrite Hh]. split; [by rewrite Hh|unfold bound; by rewrite Hc|done].
Qed.

(** A request that changes nothing. *)
Lemma wp_read pid t {X} (r : request X) {A} (k : X → io A) Q w :
  (∀ s x s', serves r s x s' → s' = s) →
  (∀ w1 x w2, ok w1 → ok w2 → others t w w1 → evolve w w2 → contents w2 = contents w1 → w_hist w2 = w_hist w1 → w_local w2 = w_local w1 →
     serves r (contents w1) x (contents w1) → wp pid t (k x) Q w2) →
  wp pid t (request_ r ≫= k) Q w.
Proof.
  intros Hr Hk w1 Hok1 Ho x w2 (s' & Hs & ->). apply OL in Hs. pose proof (Hr _ _ _ Hs) as E.
  set (w2 := mkWorld _ _ _). assert (w_hist w2 = w_hist w1) as Eh. { subst w2. cbn. unfold contents. rewrite E. apply record_same. }
  assert (contents w2 = contents w1) as Ec by done.
  assert (ok w2) as Hok2. { apply (ok_same w1); try done; intros q; [right; left|left]; done. }
  assert (own t w1 w2) as Hown. { apply step_same; [done..|]. intros q. apply cache_le_refl. }
  split_and!; [done|done|]. apply (Hk w1); try done.
  - etransitivity; [apply Ho|apply Hown].
  - by rewrite E in Hs.
Qed.

(** A critical section. *)
Lemma wp_locally pid t {X} (f : local → X * local) {A} (k : X → io A) Q w :
  (∀ w1, ok w1 → others t w w1 →
     let l := w_local w1 pid in
     (latest (f l).2 = None ∨ latest (f l).2 = latest l ∨
        ∃ id b, latest (f l).2 = Some (id, b) ∧ holds_version w1 id b) ∧
     (boundary_cache (f l).2 = boundary_cache l ∨
        ∃ c v, boundary_cache (f l).2 = Some (c, v) ∧ 0 <= c <= bound w1 ∧ describes BoundaryFile v (to_string c)) ∧
     cache_le (boundary_cache l) (boundary_cache (f l).2)) →
  (∀ w1 w2, ok w1 → ok w2 → others t w w1 → evolve w w2 → contents w2 = contents w1 → w_hist w2 = w_hist w1 →
     w_local w2 pid = (f (w_local w1 pid)).2 → wp pid t (k (f (w_local w1 pid)).1) Q w2) →
  wp pid t (locally f ≫= k) Q w.
Proof.
  intros Hf Hk w1 Hok1 Ho x w2 [-> ->]. destruct (Hf w1 Hok1 Ho) as (Hl & Hb & Hle).
  set (w2 := mkWorld _ _ _).
  assert (ok w2) as Hok2.
  { apply (ok_same w1); try done; intros q; subst w2; cbn; case_decide; subst; auto. }
  assert (own t w1 w2) as Hown.
  { apply step_same; [done..|]. intros q. subst w2. cbn. case_decide; [by subst|apply cache_le_refl]. }
  split_and!; [done|done|]. apply (Hk w1); try done.
  - etransitivity; [apply Ho|apply Hown].
  - subst w2. cbn. by rewrite decide_True.
Qed.

(** A look at the memory. *)
Lemma wp_look pid t {X} (f : local → X) {A} (k : X → io A) Q w :
  (∀ w1 w2, ok w1 → ok w2 → others t w w1 → evolve w w2 → contents w2 = contents w1 → w_hist w2 = w_hist w1 →
     w_local w2 pid = w_local w1 pid → wp pid t (k (f (w_local w1 pid))) Q w2) →
  wp pid t (locally (λ l, (f l, l)) ≫= k) Q w.
Proof.
  intros Hk. apply wp_locally; [|done]. intros w1 _ _. cbn. split_and!; [right; by left|by left|apply cache_le_refl].
Qed.

Lemma wp_tail pid t {A} (p : io A) Q w : wp pid t (p ≫= mret) Q w → wp pid t p Q w.
Proof.
  revert w. induction p as [[]|X e f IH]; intros w; cbn; try done.
  intros Hp w1 Hok1 Ho x w2 Hd. destruct (Hp w1 Hok1 Ho x w2 Hd) as (? & ? & Hw). split_and!; [done|done|]. by apply IH.
Qed.

(** ** The boundary *)

Lemma boundary_payload w payload v :
  ok w → boundary_file (contents w) = Some (payload, v) →
  parse_u64 (trim payload) = Some (bound w) ∧ payload = to_string (bound w) ∧ describes BoundaryFile v payload ∧ 0 <= bound w.
Proof.
  intros Hok E. destruct (ok_boundary _ Hok _ _ E) as (Hd & b & Hb & ->). unfold bound, boundary_of. rewrite E, parse_to_string by done.
  cbn. split_and!; [done|done|done|lia].
Qed.

Lemma bound_nonneg w : ok w → 0 <= bound w.
Proof.
  intros Hok. unfold bound, boundary_of. destruct (boundary_file (contents w)) as [[payload v]|] eqn:E; [|done].
  destruct (boundary_payload w payload v Hok E) as (_ & _ & _ & Hb). unfold bound, boundary_of in Hb. by rewrite E in Hb.
Qed.

Lemma update_cache_spec pid t boundary v w :
  0 <= boundary <= bound w → describes BoundaryFile v (to_string boundary) →
  wp pid t (update_cache boundary v)
    (λ r w', ∃ c v', r = Ok (c, Some v') ∧ boundary <= c <= bound w' ∧ describes BoundaryFile v' (to_string c)) w.
Proof.
  intros Hb Hd. apply wp_tail. apply wp_locally.
  - intros w1 Hok1 Ho. pose proof (ev_bound _ _ (proj1 Ho)). cbn.
    destruct (boundary_cache (w_local w1 pid)) as [[c v']|] eqn:E; [case_decide|]; cbn; rewrite ?E.
    + split; [right; by left|]. split; [by left|lia].
    + split; [right; by left|]. split; [right; exists boundary, v; split; [done|]; split; [lia|done]|lia].
    + split; [right; by left|]. split; [right; exists boundary, v; split; [done|]; split; [lia|done]|done].
  - intros w1 w2 Hok1 Hok2 Ho He Hc Hh Hl. pose proof (ev_bound _ _ He). pose proof (ev_bound _ _ (proj1 Ho)). cbn.
    destruct (boundary_cache (w_local w1 pid)) as [[c v']|] eqn:E; [case_decide|]; cbn; eexists _, _; (split; [done|]).
    + destruct (ok_cache _ Hok1 _ _ _ E) as (? & ?). split; [|done]. unfold bound in *. rewrite Hc. lia.
    + split; [lia|done].
    + split; [lia|done].
Qed.

(** The boundary read is at least what it was when the read began, and at most what it is now. *)
Definition boundary_read (B : Z) (r : outcome TransactionalObjectError (Z * option UpdateVersion)) (w : world) : Prop :=
  match r with
  | Ok (c, o) => B <= c ∧ 0 <= c <= bound w ∧ match o with Some v => describes BoundaryFile v (to_string c) | None => c = 0 end
  | Err e => e ≠ ObjectVersionExists
  | _ => False
  end.

Lemma read_boundary_spec pid t w B : B <= bound w → wp pid t read_boundary (boundary_read B) w.
Proof.
  intros HB. unfold read_boundary. apply wp_look. intros w1 w2 Hok1 Hok2 Ho He Hc Hh Hl.
  apply wp_read; [by intros s x s' [? _]|]. intros w3 x w4 Hok3 Hok4 Ho3 He4 Hc4 Hh4 Hl4 [_ Hx].
  assert (B <= bound w3) as HB3. { pose proof (ev_bound _ _ He). pose proof (ev_bound _ _ (proj1 Ho3)). lia. }
  destruct x as [payload v| | |].
  - destruct Hx as [Hx _]. destruct (boundary_payload w3 payload v Hok3 Hx) as (-> & -> & Hd & Hnn).
    assert (bound w4 = bound w3) as E by (unfold bound; by rewrite Hc4).
    eapply wp_conseq; [done|apply update_cache_spec; [|exact Hd]; lia|]. intros r w' Hok' He' (c & v' & -> & Hcc & Hd'). cbn.
    split; [lia|]. split; [lia|done].
  - cbn. split_and!; [|done|by apply bound_nonneg|done]. unfold bound, boundary_of in HB3. cbn in Hx. by rewrite Hx in HB3.
  - destruct Hx as (tg & payload & v & Hinm & Hx & Htg & Hd). apply bind_Some in Hinm as ([c vc] & Hcache & Htc). cbn in Htc.
    destruct (ok_cache _ Hok1 _ _ _ Hcache) as [Hcb Hdc].
    assert (payload = to_string c) as ->. { eapply same_object_payload; [|exact Hd|exact Hdc]. left. rewrite Htg, Htc. eauto. }
    assert (bound w3 = c) as Hb3.
    { cbn in Hx. destruct (ok_boundary _ Hok3 _ _ Hx) as (_ & b & Hb & E). unfold bound, boundary_of. rewrite Hx, E, parse_to_string by done. cbn.
      apply (f_equal (λ l, parse_u64 (trim l))) in E. rewrite !parse_to_string in E; [congruence|done|].
      split; [lia|]. pose proof (ok_count _ Hok1). destruct (ok_bound _ Hok1); unfold u64_max in *; lia. }
    apply wp_look. intros w5 w6 Hok5 Hok6 Ho5 He6 Hc6 Hh6 Hl6.
    pose proof (ev_cache _ _ He pid) as H1. rewrite Hl, Hcache in H1.
    assert (cache_le (boundary_cache (w_local w2 pid)) (boundary_cache (w_local w5 pid))) as H2.
    { eapply cache_le_trans; [apply (ev_cache _ _ (proj1 Ho3))|]. eapply cache_le_trans; [|apply (ev_cache _ _ (proj1 Ho5))]. rewrite Hl4. apply cache_le_refl. }
    rewrite Hl, Hcache in H2. destruct (boundary_cache (w_local w5 pid)) as [[c5 v5]|] eqn:E5; [|done]. cbn in H2.
    destruct (ok_cache _ Hok5 _ _ _ E5) as [Hcb5 Hd5]. cbn. unfold bound. rewrite Hc6. split; [lia|]. split; [apply Hcb5|done].
  - done.
Qed.

(** [check] passes only above the boundary it started with, and fails only at or below the present one. *)
Definition checked (B id : Z) (r : outcome TransactionalObjectError unit) (w : world) : Prop :=
  match r with
  | Ok _ => B < id
  | Err ObjectVersionExists => id <= bound w
  | Err _ => True
  | _ => False
  end.

Lemma boundary_check_spec pid t w B id : ok w → B <= bound w → wp pid t (boundary_check id) (checked B id) w.
Proof.
  intros Hok HB. unfold boundary_check. apply wp_look. intros w1 w2 Hok1 Hok2 Ho He Hc Hh Hl.
  assert (B <= bound w2) as HB2 by (pose proof (ev_bound _ _ He); lia).
  assert (wp pid t ('(boundary, _) ← read_boundary; check_boundary id boundary) (checked B id) w2) as Hread.
  { apply wp_bind. eapply wp_conseq; [done|by apply read_boundary_spec|]. intros [[c o]|e| |] w' Hok' He' Hr; try done.
    - destruct Hr as (? & ? & _). unfold check_boundary. case_decide; cbn; lia.
    - destruct e; done. }
  destruct (boundary_cache (w_local w1 pid)) as [[c v]|] eqn:E; [|exact Hread].
  assert (check_boundary id c = if decide (id <= c) then throw ObjectVersionExists else mret tt) as -> by done.
  destruct (decide (id <= c)) as [Hd|Hd]; [|exact Hread].
  cbn. destruct (ok_cache _ Hok1 _ _ _ E) as [? _]. unfold bound in *. rewrite Hc. lia.
Qed.

Lemma invalidate_spec pid t f w {A} (k : unit → io A) Q :
  (∀ l, latest (f l).2 = None ∨ f l = (tt, l)) → (∀ l, boundary_cache (f l).2 = boundary_cache l) →
  (∀ w1 w2, ok w1 → ok w2 → others t w w1 → evolve w w2 → contents w2 = contents w1 → w_hist w2 = w_hist w1 → wp pid t (k tt) Q w2) →
  wp pid t (locally f ≫= k) Q w.
Proof.
  intros Hf Hb Hk. apply wp_locally.
  - intros w1 _ _ l. rewrite Hb. split; [|split; [by left|apply cache_le_refl]]. destruct (Hf l) as [E|E]; [by left|]. right. left. by rewrite E.
  - intros w1 w2 Hok1 Hok2 Ho He Hc Hh _. destruct (f (w_local w1 pid)).1. exact (Hk w1 w2 Hok1 Hok2 Ho He Hc Hh).
Qed.

Lemma invalidate_cached_wp pid t id w {A} (k : unit → io A) Q :
  (∀ w1 w2, ok w1 → ok w2 → others t w w1 → evolve w w2 → contents w2 = contents w1 → w_hist w2 = w_hist w1 → wp pid t (k tt) Q w2) →
  wp pid t (invalidate_cached id ≫= k) Q w.
Proof.
  intros Hk. apply invalidate_spec; [| |done]; intros l; cbn; destruct (latest l) as [[c b]|]; try case_decide; cbn; auto.
Qed.

Lemma check_spec pid t w B id : ok w → B <= bound w → wp pid t (check id) (checked B id) w.
Proof.
  intros Hok HB. unfold check. apply wp_catch. eapply wp_conseq; [done|by apply boundary_check_spec|].
  intros [u|e| |] w' Hok' He' Hr; try done. destruct e; try done. apply invalidate_cached_wp.
  intros w1 w2 _ _ Ho He2 _ _. cbn in *. pose proof (ev_bound _ _ He2). lia.
Qed.

Lemma move_boundary t w w' b v :
  ok w → bound w <= b < count w → describes BoundaryFile v (to_string b) →
  contents w' = set_object BoundaryFile (Some (to_string b, v)) (contents w) →
  w_local w' = w_local w → w_hist w' = w_hist w →
  ok w' ∧ own t w w' ∧ bound w' = b.
Proof.
  intros Hok Hb Hd Hc Hl Hh. pose proof (bound_nonneg w Hok). pose proof (ok_count _ Hok).
  assert (bound w' = b) as Eb. { unfold bound, boundary_of. rewrite Hc. cbn. rewrite parse_to_string by lia. done. }
  assert (count w' = count w) as En by (unfold count; by rewrite Hh).
  split_and!; [| |done].
  - split; rewrite ?Eb, ?En, ?Hh, ?Hl.
    + rewrite Hc. cbn. intros payload v' E. injection E as <- <-. split; [done|]. exists b. split; [lia|done].
    + right. lia.
    + lia.
    + intros id Hid. rewrite Hc. apply (ok_present _ Hok). lia.
    + rewrite Hc. apply (ok_names _ Hok).
    + rewrite Hc. apply (ok_encoded _ Hok).
    + intros pid id b' E. destruct (ok_latest _ Hok _ _ _ E) as (? & ? & [?|?]); (split; [done|]; split; [done|]); [left; lia|right; by rewrite Hh].
    + intros pid c v' E. destruct (ok_cache _ Hok _ _ _ E). split; [lia|done].
    + apply (ok_payloads _ Hok).
    + apply (ok_legal _ Hok).
  - split; [|intros t' _; unfold mine; by rewrite Hh]. split; [by rewrite Hh|lia|intros pid; rewrite Hl; apply cache_le_refl].
Qed.

(** The conditional write of the boundary. *)
Lemma wp_put_boundary pid t b c o {A} (k : put_result → io A) Q w :
  ok w → 0 <= b < count w → c < b →
  match o with Some v => describes BoundaryFile v (to_string c) ∧ 0 <= c | None => True end →
  (∀ x w2, ok w2 → evolve w w2 → (∀ v, x = PutOk v → bound w2 = b ∧ describes BoundaryFile v (to_string b)) →
     wp pid t (k x) Q w2) →
  wp pid t (request_ (Put BoundaryFile (to_string b) (match o with Some v => PutUpdate v | None => PutCreate end)) ≫= k) Q w.
Proof.
  intros Hok Hb Hcb Ho Hk w1 Hok1 Hot x w2 (s' & Hs & ->). apply OL in Hs. set (w2 := mkWorld _ _ _).
  assert (w_hist w2 = w_hist w1) as Hh. { subst w2. cbn. unfold record. rewrite decide_False; [done|]. by intros []. }
  pose proof (evolve_count _ _ (proj1 Hot)) as Hcount. pose proof (ok_count _ Hok1).
  assert (∀ v, admits (match o with Some v => PutUpdate v | None => PutCreate end) (boundary_file (contents w1)) →
    describes BoundaryFile v (to_string b) → contents w2 = set_object BoundaryFile (Some (to_string b, v)) (contents w1) →
    ok w2 ∧ own t w1 w2 ∧ bound w2 = b) as Happlied.
  { intros v Ha Hd Hc. apply (move_boundary t w1 w2 b v); try done. split; [|lia]. destruct o as [vo|]; cbn in Ha.
    - destruct Ha as (p & v' & E & Hsame). destruct Ho as [Hdo Hc0]. destruct (boundary_payload w1 p v' Hok1 E) as (_ & Hp & Hdp & Hnn).
      assert (to_string c = p) as Ep by (by eapply same_object_payload). rewrite Hp in Ep.
      apply (f_equal (λ l, parse_u64 (trim l))) in Ep. rewrite !parse_to_string in Ep; [injection Ep; lia| |lia].
      split; [lia|]. destruct (ok_bound _ Hok1); lia.
    - unfold bound, boundary_of. rewrite Ha. lia. }
  assert (contents w2 = contents w1 → ok w2 ∧ own t w1 w2) as Hsame.
  { intros Hc. split.
    - apply (ok_same w1); try done; intros q; [right; left|left]; done.
    - apply step_same; [done..|]. intros q. apply cache_le_refl. }
  assert (ok w2 ∧ own t w1 w2 ∧ ∀ v, x = PutOk v → bound w2 = b ∧ describes BoundaryFile v (to_string b)) as (H2 & H3 & H4).
  { destruct x as [v| | |].
    - destruct Hs as (Ha & Hd & Hc). destruct (Happlied v Ha Hd Hc) as (? & ? & ?). split; [done|]. split; [done|]. intros v' E. injection E as <-. done.
    - destruct Hs as (Hc & _). destruct (Hsame Hc). split_and!; try done.
    - destruct Hs as (Hc & _). destruct (Hsame Hc). split_and!; try done.
    - destruct Hs as [Hc|(v & Ha & Hd & Hc)]; [destruct (Hsame Hc)|destruct (Happlied v Ha Hd Hc) as (? & ? & _)]; split_and!; try done. }
  split; [done|]. split; [done|]. apply Hk; try done. etransitivity; [apply Hot|apply H3].
Qed.

Definition advanced (b : Z) (r : outcome TransactionalObjectError unit) (w : world) : Prop :=
  match r with Ok _ => b <= bound w | Panic => False | _ => True end.

Lemma boundary_advance_spec pid t fuel b w : ok w → 0 <= b < count w → wp pid t (boundary_advance fuel b) (advanced b) w.
Proof.
  revert w. induction fuel as [|fuel IH]; intros w Hok Hb; [done|]. cbn [boundary_advance].
  apply wp_look. intros w1 w2 Hok1 Hok2 Ho He Hc Hh Hl. apply wp_bind.
  eapply (wp_conseq _ _ _ (λ r w', match r with
    | Ok (c, o) => c <= bound w' ∧ 0 <= c ∧ match o with Some v => describes BoundaryFile v (to_string c) | None => True end
    | Panic | OutOfFuel => False | _ => True end)); [done| |].
  { destruct (boundary_cache (w_local w1 pid)) as [[c v]|] eqn:E.
    - destruct (ok_cache _ Hok1 _ _ _ E). cbn. rewrite (bound_contents _ _ Hc). split; [lia|]. split; [lia|done].
    - eapply wp_conseq; [done|apply (read_boundary_spec pid t w2 (bound w2)); lia|]. intros [[c [v|]]|e| |] w' Hok' He' Hr; try done.
      + destruct Hr as (? & ? & ?). split; [lia|]. split; [lia|done].
      + destruct Hr as (? & ? & ?). split; [lia|]. split; [lia|done]. }
  intros [[c o]|e| |] w3 Hok3 He3 Hr; try done. destruct Hr as (Hc1 & Hc2 & Hd). case_decide as Hle; [cbn; lia|].
  assert (b < count w3) as Hb3.
  { pose proof (evolve_count _ _ He). pose proof (evolve_count _ _ He3). lia. }
  apply (wp_put_boundary pid t b c o); [done|lia|lia|by destruct o|].
  intros x w4 Hok4 He4 Hx. pose proof (evolve_count _ _ He4).
  assert (wp pid t (_ ← read_boundary; boundary_advance fuel b) (advanced b) w4) as Hretry.
  { apply wp_bind. eapply wp_conseq; [done|apply (read_boundary_spec pid t w4 (bound w4)); lia|].
    intros [[c' o']|e| |] w' Hok' He' Hr'; try done. apply IH; [done|]. pose proof (evolve_count _ _ He'). lia. }
  destruct x as [v| | |]; try done. destruct (Hx v eq_refl) as [Eb Hdv].
  apply wp_bind. eapply wp_conseq; [done|apply update_cache_spec; [|exact Hdv]; lia|].
  intros r w5 Hok5 He5 (c' & v' & -> & Hcc & _). cbn. lia.
Qed.

Lemma advance_spec pid t fuel b w : ok w → 0 <= b < count w → wp pid t (advance fuel b) (advanced b) w.
Proof.
  intros Hok Hb. unfold advance. apply wp_bind. eapply wp_conseq; [done|by apply boundary_advance_spec|].
  intros [u|e| |] w' Hok' He' Hr; try done. apply wp_tail. apply invalidate_spec.
  - intros l. cbn. destruct (latest l) as [[c v]|]; [case_decide|]; auto.
  - intros l. cbn. destruct (latest l) as [[c v]|]; [case_decide|]; auto.
  - intros w1 w2 _ _ _ He2 _ _. cbn in *. pose proof (ev_bound _ _ He2). lia.
Qed.

(** ** Reading versions *)

Lemma holds_version_evolve w w' id b : evolve w w' → holds_version w id b → holds_version w' id b.
Proof.
  intros He (H0 & Hx & [Hb|Hv]); (split; [done|]; split; [done|]); [left; pose proof (ev_bound _ _ He); lia|right].
  by eapply prefix_version; [apply (ev_hist _ _ He)|].
Qed.

Lemma file_present w id b v :
  ok w → 0 <= id <= u64_max → files (contents w) !! path_for suffix id = Some (b, v) → holds_version w id b ∧ id <= count w.
Proof.
  intros Hok Hid Hf. destruct (ok_names _ Hok (path_for suffix id) id) as [_ Hle]; [by rewrite Hf|by apply parse_path_for|].
  split; [|done]. split; [lia|]. split; [eapply (ok_encoded _ Hok _ _ _ Hf); by rewrite parse_path_for|].
  destruct (decide (id <= bound w)) as [?|Hgt]; [by left|right].
  rewrite <-(ok_present _ Hok) by lia. by rewrite Hf.
Qed.

Lemma file_absent w id :
  ok w → files (contents w) !! path_for suffix id = None → id <= bound w ∨ count w < id.
Proof.
  intros Hok Hf. pose proof (bound_nonneg w Hok). destruct (decide (bound w < id <= count w)) as [Hin|?]; [|lia].
  pose proof (ok_present _ Hok id Hin) as E. rewrite Hf in E. cbn in E. symmetry in E.
  unfold version_at in E. rewrite decide_True in E by lia. apply fmap_None, lookup_ge_None in E.
  unfold count in *. lia.
Qed.

Lemma wp_read_bytes pid t id N {A} (k : option bytes → io A) Q w :
  ok w → 0 <= id <= u64_max → N <= count w →
  (∀ o w', ok w' → evolve w w' →
     match o with Some b => holds_version w' id b ∧ id <= count w' | None => id <= bound w' ∨ N < id end → wp pid t (k o) Q w') →
  (∀ e w', ok w' → evolve w w' → e ≠ ObjectVersionExists → Q (Err e) w') →
  wp pid t (try_read_bytes_unchecked suffix id ≫= k) Q w.
Proof.
  intros Hok Hid HN Hk He. unfold try_read_bytes_unchecked. apply wp_bind. apply wp_read; [by intros s x s' [? _]|].
  intros w1 x w2 Hok1 Hok2 Ho Hev Hc Hh Hl [_ Hx]. destruct x as [payload v| | |]; cbn; try by apply He.
  - apply Hk; [done|done|]. destruct Hx as [Hx _]. cbn in Hx. rewrite <-Hc in Hx. by apply file_present in Hx.
  - apply Hk; [done|done|]. cbn in Hx. rewrite <-Hc in Hx. apply file_absent in Hx; [|done]. pose proof (evolve_count _ _ Hev). lia.
Qed.

Lemma wp_cache_latest pid t id b {A} (k : unit → io A) Q w :
  holds_version w id b → (∀ w', ok w' → evolve w w' → mine t w' = mine t w → wp pid t (k tt) Q w') →
  wp pid t (maybe_cache_latest id b ≫= k) Q w.
Proof.
  intros Hv Hk. apply wp_locally.
  - intros w1 Hok1 Ho l. cbn [snd]. split; [|split; [|]].
    + case_match; [|right; by left]. right. right. exists id, b. split; [done|]. eapply holds_version_evolve; [apply Ho|done].
    + left. by case_match.
    + case_match; apply cache_le_refl.
  - intros w1 w2 _ Hok2 Ho He Hc Hh _. cbn [fst]. apply Hk; [done|done|]. unfold mine. rewrite Hh. apply Ho.
Qed.

(** What a read of the latest version may return: the latest version as of the call or a later one, or
    a version that has been fenced in the meantime. *)
Definition read_at_least (N : Z) (r : outcome TransactionalObjectError (option (Z * T))) (w : world) : Prop :=
  match r with
  | Ok (Some (id, v)) => 0 <= id ∧ (id <= bound w ∨ (N <= id ∧ version_at (w_hist w) id = Some (encode v)))
  | Ok None => N = 0
  | Err e => e ≠ ObjectVersionExists
  | _ => True
  end.

Lemma decode_held w id b v : ok w → version_at (w_hist w) id = Some b → decode b = Some v → b = encode v.
Proof.
  intros Hok Hv Hd. unfold version_at in Hv. case_decide; [|done]. apply fmap_Some in Hv as (e & He & ->).
  pose proof (proj1 (Forall_lookup _ _) (ok_payloads _ Hok) _ _ He) as [v' Ev]. rewrite Ev, CL in Hd. injection Hd as ->. done.
Qed.

Lemma probe_spec pid t probes id b N w :
  ok w → holds_version w id b → 0 <= N <= count w →
  wp pid t (probe suffix probes id b)
    (λ r w', match r with Ok None => True | r => read_at_least N r w' end) w.
Proof.
  revert id b w. induction probes as [|probes IH]; intros id b w Hok Hv HN; [done|]. cbn [probe]. unfold next.
  destruct (decide (id < u64_max)) as [Hid|]; [|done]. cbn [mbind program_mbind program_bind mret program_mret].
  destruct Hv as (H0 & Hx & Hv). apply (wp_read_bytes pid t (id + 1) N); [done|lia|lia| |].
  - intros o w1 Hok1 He1 Ho. assert (holds_version w1 id b) as Hv1 by (eapply holds_version_evolve; [done|by split_and!]).
    pose proof (evolve_count _ _ He1). destruct o as [b'|].
    + destruct Ho as [Hv' Hle]. apply wp_cache_latest; [done|]. intros w2 Hok2 He2 _. pose proof (evolve_count _ _ He2). apply IH; [done| |lia].
      by eapply holds_version_evolve.
    + unfold decode_value. destruct (decode b) as [v|] eqn:Hd; [|done]. cbn. split; [done|].
      destruct Hv1 as (_ & _ & [?|Hv1]); [by left|]. destruct Ho as [?|?]; [left; lia|right]. split; [lia|].
      by rewrite <-(decode_held w1 id b v).
  - intros e w1 _ _ Hne. done.
Qed.

(** ** Listing *)

Definition id_lt (a b : Z * Z) : Prop := a.1 < b.1.

(** Progress of a listing that began when [N] was the latest version. A full listing has found that
    version, or will find it, unless it is fenced; and it finds some version. *)
Record listing (N : Z) (from to : Bound Z) (after : option bytes) (items : list (Z * Z)) (w : world) : Prop := {
  li_range : Forall (λ i, 0 <= i.1 <= count w) items;
  li_sorted : StronglySorted id_lt items;
  li_after i : i ∈ items.*1 → ∃ a, after = Some a ∧ path_for suffix i ≼ a;
  li_fresh : from = Unbounded → to = Unbounded → 0 < N →
    N ∈ items.*1 ∨ N <= bound w ∨ follows after (path_for suffix N);
  li_some : from = Unbounded → to = Unbounded → 0 < N → items = [] → follows after (path_for suffix (count w));
}.

Lemma listing_evolve N from to after items w w' :
  ok w' → N <= count w → evolve w w' → listing N from to after items w → listing N from to after items w'.
Proof.
  intros Hok HN He [H1 Hs Ha H2 H3]. pose proof (evolve_count _ _ He). pose proof (ok_count _ Hok). split; [|done|done|..].
  - eapply Forall_impl; [exact H1|]. cbn. lia.
  - intros Hf Ht Hp. destruct (H2 Hf Ht Hp) as [?|[?|?]]; [by left| |by right; right]. right. left. pose proof (ev_bound _ _ He). lia.
  - intros Hf Ht Hp Hi. eapply follows_trans; [by apply H3|]. destruct (decide (count w = count w')) as [->|]; [apply ord_le_refl|].
    apply ord_lt_le, path_for_lt; lia.
Qed.

Lemma latest_present w : ok w → 0 < count w → is_Some (files (contents w) !! path_for suffix (count w)).
Proof.
  intros Hok Hn. destruct (files (contents w) !! path_for suffix (count w)) eqn:E; [done|].
  apply file_absent in E; [|done]. destruct (ok_bound _ Hok); lia.
Qed.

Lemma listing_step N from to after items name lm w :
  ok w → N <= count w → listing N from to after items w → serves (ListNext after) (contents w) (Some (Some (name, lm))) (contents w) →
  listing N from to (Some name)
    (match parse_id suffix name with
     | Some id => if range_contains (range_new from to) id then items ++ [(id, lm)] else items
     | None => items
     end) w.
Proof.
  intros Hok HN [H1 Hs Ha H2 H3] (_ & Hpres & Hfol & Hleast). pose proof (ok_count _ Hok).
  assert (∀ i, i ∈ items.*1 → path_for suffix i ≺ name) as Hbefore.
  { intros i Hi. destruct (Ha i Hi) as (a & -> & Hle). cbn in Hfol. by eapply ord_le_lt_trans. }
  split.
  - destruct (parse_id suffix name) as [id|] eqn:Hp; [|done]. destruct (range_contains _ id); [|done].
    apply Forall_app. split; [done|]. apply Forall_singleton. cbn. destruct (ok_names _ Hok name id Hpres Hp) as [_ ?]. apply parse_id_range in Hp. lia.
  - destruct (parse_id suffix name) as [id|] eqn:Hp; [|done]. destruct (range_contains _ id); [|done].
    destruct (ok_names _ Hok name id Hpres Hp) as [-> ?]. apply parse_id_range in Hp.
    apply StronglySorted_app_2; [|done|repeat constructor]. intros x y Hx Hy. apply list_elem_of_singleton in Hy as ->. unfold id_lt. cbn.
    assert (path_for suffix x.1 ≺ path_for suffix id) as Hlt by (by apply Hbefore, list_elem_of_fmap_2).
    rewrite Forall_forall in H1. specialize (H1 x Hx). cbn in H1. destruct (decide (x.1 < id)) as [|Hge]; [done|].
    destruct (decide (x.1 = id)) as [E|]; [rewrite E in Hlt; by apply ord_lt_irrefl in Hlt|].
    assert (path_for suffix id ≺ path_for suffix x.1) as Hgt by (apply path_for_lt; lia). ord.
  - intros i Hi. exists name. split; [done|].
    destruct (parse_id suffix name) as [id|] eqn:Hp; [|by apply ord_lt_le, Hbefore]. destruct (range_contains _ id); [|by apply ord_lt_le, Hbefore].
    rewrite fmap_app in Hi. apply elem_of_app in Hi as [Hi|Hi]; [by apply ord_lt_le, Hbefore|]. apply list_elem_of_singleton in Hi as ->. cbn.
    destruct (ok_names _ Hok name id Hpres Hp) as [-> _]. apply ord_le_refl.
  - intros -> -> Hp. assert (∀ id, range_contains (range_new Unbounded Unbounded) id = true) as Hall by done.
    assert (∀ x, N ∈ items.*1 → N ∈ (items ++ [x]).*1) as Hin by (intros x Hx; rewrite fmap_app; apply elem_of_app; by left).
    assert (N ∈ items.*1 ∨ N <= bound w ∨ (follows after (path_for suffix N) ∧ is_Some (files (contents w) !! path_for suffix N))) as Hcase.
    { destruct (H2 eq_refl eq_refl Hp) as [?|[?|Hf]]; [by left|right; by left|right].
      destruct (files (contents w) !! path_for suffix N) eqn:E; [right; done|]. apply file_absent in E; [|done]. left. lia. }
    destruct Hcase as [?|[?|[Hf Hpr]]].
    + left. destruct (parse_id suffix name); [rewrite Hall; by apply Hin|done].
    + right. by left.
    + pose proof (Hleast _ Hpr Hf) as Hle. apply ord_le_alt in Hle as [Hlt| ->]; [right; right; exact Hlt|left].
      rewrite parse_path_for by (done || lia). rewrite Hall, fmap_app. apply elem_of_app. right. by left.
  - intros -> -> Hp. destruct (parse_id suffix name) as [id|] eqn:Hpn; [by destruct items|]. intros Hi.
    assert (name ≼ path_for suffix (count w)) as Hle by (apply Hleast; [apply latest_present; [done|lia]|by apply H3]).
    apply ord_le_alt in Hle as [?|E]; [done|]. rewrite E, parse_path_for in Hpn; [done|done|lia].
Qed.

Definition listed (N : Z) (from to : Bound Z) (r : outcome TransactionalObjectError (list (Z * Z))) (w : world) : Prop :=
  match r with
  | Ok items => Forall (λ i, 0 <= i.1 <= count w) items ∧ StronglySorted id_lt items ∧
      (from = Unbounded → to = Unbounded → 0 < N → items ≠ [] ∧ (N ∈ items.*1 ∨ N <= bound w))
  | Err e => e ≠ ObjectVersionExists
  | Panic => False
  | OutOfFuel => True
  end.

Lemma list_items_spec pid t fuel from to after items N w :
  ok w → N <= count w → listing N from to after items w →
  wp pid t (list_items suffix fuel from to after items) (listed N from to) w.
Proof.
  revert after items w. induction fuel as [|fuel IH]; intros after items w Hok HN Hl; [done|]. cbn [list_items].
  apply wp_read; [by intros s x s' [? _]|]. intros w1 x w2 Hok1 Hok2 Ho He Hc Hh _ Hx.
  assert (N <= count w2) as HN2 by (pose proof (evolve_count _ _ He); lia).
  assert (listing N from to after items w2) as Hl2 by (by eapply (listing_evolve _ _ _ _ _ w)).
  rewrite <-Hc in Hx. destruct x as [[[name lm]|]|]; [|destruct Hx as [_ Hx]; destruct Hl2 as [H1 Hs Ha H2 H3]|done].
  - apply IH; [done|done|]. by apply (listing_step _ _ _ after).
  - split; [done|]. split; [done|]. intros Hf Ht Hp. split.
    + intros Hi. apply (Hx (path_for suffix (count w2))); [apply latest_present; [done|lia]|by apply H3].
    + destruct (H2 Hf Ht Hp) as [?|[?|Hfol]]; [by left|by right|right].
      destruct (files (contents w2) !! path_for suffix N) eqn:E; [by destruct (Hx _ ltac:(by rewrite E) Hfol)|].
      apply file_absent in E; [|done]. lia.
Qed.

Lemma sorted_merge_sort items : StronglySorted id_lt items → merge_sort id_le items = items.
Proof.
  intros Hs. apply (StronglySorted_unique_strong id_le).
  - intros x y Hx Hy H1 H2. unfold id_le in *. assert (x.1 = y.1) as E by lia.
    rewrite merge_sort_Permutation in Hx. clear -Hs Hx Hy E. induction Hs as [|z l Hs IH HF]; [by apply elem_of_nil in Hx|].
    rewrite Forall_forall in HF. unfold id_lt in HF. apply elem_of_cons in Hx as [->|Hx], Hy as [->|Hy]; [done| | |by apply IH].
    + specialize (HF _ Hy). lia.
    + specialize (HF _ Hx). lia.
  - apply StronglySorted_merge_sort; [intros a b c|intros a b]; unfold id_le; lia.
  - eapply StronglySorted_weaken; [|exact Hs]. intros x y. unfold id_lt, id_le. lia.
  - apply merge_sort_Permutation.
Qed.

Lemma list_versions_spec pid t fuel from to N w :
  ok w → N <= count w →
  wp pid t (list_versions suffix fuel from to) (listed N from to) w.
Proof.
  intros Hok HN. unfold list_versions. apply wp_bind. eapply wp_conseq; [done|apply (list_items_spec pid t fuel from to None [] N)|].
  - done.
  - done.
  - split; [by apply Forall_nil_2|by apply SSorted_nil|by intros i ?%elem_of_nil|intros; cbn; by auto..].
  - intros [items|e| |] w' Hok' He' Hl; try done. destruct Hl as (H1 & Hs & H2). cbn. rewrite sorted_merge_sort by done. done.
Qed.

(** ** The latest version *)

Lemma last_listed N w items id lm :
  listed N Unbounded Unbounded (Ok items) w → last items = Some (id, lm) → 0 <= N →
  0 <= id <= count w ∧ (N <= bound w ∨ N <= id).
Proof.
  intros (Hr & Hs & Hf) Hl HN. apply last_Some in Hl as [l ->]. apply Forall_app in Hr as [_ Hr]. rewrite Forall_singleton in Hr. cbn in Hr.
  split; [lia|]. destruct (decide (0 < N)) as [Hp|]; [|right; lia]. destruct (Hf eq_refl eq_refl Hp) as [_ [Hin|?]]; [right|lia].
  apply list_elem_of_fmap in Hin as ([i lm'] & -> & Hin). cbn.
  apply elem_of_app in Hin as [Hin|Hin]; [|apply list_elem_of_singleton in Hin; by injection Hin as -> ->].
  apply StronglySorted_app in Hs as (Hs & _ & _).
  apply Z.lt_le_incl, (Hs (i, lm') (id, lm)); [done|by apply list_elem_of_singleton].
Qed.

Lemma read_listed_spec pid t fuel list_fuel N w :
  ok w → 0 <= N <= count w → wp pid t (read_listed suffix fuel list_fuel) (read_at_least N) w.
Proof.
  revert w. induction fuel as [|fuel IH]; intros w Hok HN; [done|]. cbn [read_listed]. apply wp_bind.
  eapply wp_conseq; [done|apply (list_versions_spec pid t list_fuel Unbounded Unbounded N); [done|lia]|].
  intros [items|e| |] w1 Hok1 He1 Hl; try done. apply wp_look. intros w2 w3 Hok2 Hok3 Ho2 He3 Hc3 Hh3 _.
  pose proof (evolve_count _ _ He1). pose proof (evolve_count _ _ He3).
  destruct (last items) as [[id lm]|] eqn:Elast.
  - destruct (last_listed N w1 items id lm Hl Elast ltac:(lia)) as [Hid Hge']. assert (id <= bound w1 ∨ N <= id) as Hge by lia. clear Hge'.
    assert (∀ b w', ok w' → evolve w1 w' → holds_version w' id b →
      wp pid t (v ← decode_value b; _ ← maybe_cache_latest id b; mret (Some (id, v))) (read_at_least N) w') as Hfound.
    { intros b w' Hok' He' Hv. unfold decode_value. destruct (decode b) as [v|] eqn:Hd; [|done].
      apply wp_cache_latest; [done|]. intros w4 Hok4 He4 _. split; [lia|].
      pose proof (ev_bound _ _ He'). pose proof (ev_bound _ _ He4). destruct Hge as [?|?]; [left; lia|].
      destruct (holds_version_evolve _ _ _ _ He4 Hv) as (_ & _ & [?|Hv4]); [by left|right]. split; [done|].
      by rewrite <-(decode_held w4 id b v). }
    assert (wp pid t (b ← try_read_bytes_unchecked suffix id;
      match b with None => read_listed suffix fuel list_fuel | Some b => v ← decode_value b; _ ← maybe_cache_latest id b; mret (Some (id, v)) end)
      (read_at_least N) w3) as Hget.
    { apply (wp_read_bytes pid t id N); [done|pose proof (ok_count _ Hok1); lia|lia| |done].
      intros [b|] w4 Hok4 He4 Hb; [|apply IH; [done|pose proof (evolve_count _ _ He4); lia]].
      apply Hfound; [done| |apply Hb]. by etransitivity. }
    destruct (latest (w_local w2 pid)) as [[cid b]|] eqn:Ecache; [|exact Hget].
    destruct (decide (cid = id)) as [->|]; [|exact Hget].
    apply Hfound; [done|done|]. unfold holds_version. rewrite (bound_contents _ _ Hc3), Hh3. by apply (ok_latest _ Hok2 pid).
  - destruct (latest (w_local w2 pid)) as [[cid b]|]; [apply invalidate_cached_wp; intros w4 w5 _ _ _ _ _ _|]; cbn.
    all: destruct (decide (0 < N)) as [Hp|]; [|lia]; destruct Hl as (_ & _ & Hl); destruct (Hl eq_refl eq_refl Hp) as [Hne _];
      by apply last_None in Elast.
Qed.

Lemma read_latest_unchecked_spec pid t fuel N w :
  ok w → 0 <= N <= count w → wp pid t (try_read_latest_unchecked suffix fuel) (read_at_least N) w.
Proof.
  intros Hok HN. unfold try_read_latest_unchecked. apply wp_look. intros w1 w2 Hok1 Hok2 Ho He Hc Hh _. pose proof (evolve_count _ _ He).
  assert (∀ w', ok w' → evolve w2 w' → wp pid t (read_listed suffix fuel fuel) (read_at_least N) w') as Hlist.
  { intros w' Hok' He'. apply read_listed_spec; [done|]. pose proof (evolve_count _ _ He'). lia. }
  destruct (latest (w_local w1 pid)) as [[id b]|] eqn:E; [|by apply Hlist].
  apply wp_bind. eapply wp_conseq; [done|apply (probe_spec pid t MAX_PROBES id b N); [done| |lia]|].
  - unfold holds_version. rewrite (bound_contents _ _ Hc), Hh. by apply (ok_latest _ Hok1 pid).
  - intros [[[id' v]|]|e| |] w' Hok' He' Hr; try done. by apply Hlist.
Qed.

(** A checked read returns a committed version, at least as new as the latest one when the read began;
    it finds nothing only if nothing had been committed. *)
Definition read_fresh (N : Z) (r : outcome TransactionalObjectError (option (Z * T))) (w : world) : Prop :=
  match r with
  | Ok (Some (id, v)) => N <= id ∧ version_at (w_hist w) id = Some (encode v)
  | Ok None => N = 0
  | _ => True
  end.

Lemma read_latest_spec pid t attempts fuel N w :
  ok w → 0 <= N <= count w → wp pid t (read_latest suffix attempts fuel) (read_fresh N) w.
Proof.
  revert w. induction attempts as [|attempts IH]; intros w Hok HN; [done|]. cbn [read_latest]. apply wp_bind.
  eapply wp_conseq; [done|by apply read_latest_unchecked_spec|]. intros [[[id v]|]|e| |] w1 Hok1 He1 Hr; try done.
  destruct Hr as [H0 Hr]. apply wp_catch. eapply wp_conseq; [done|apply (check_spec pid t w1 (bound w1) id); [done|lia]|].
  intros [u|e| |] w2 Hok2 He2 Hc; try done.
  - cbn in Hc. destruct Hr as [?|[HNid Hv]]; [lia|]. split; [done|]. eapply prefix_version; [apply (ev_hist _ _ He2)|done].
  - destruct e; try done. apply IH; [done|]. pose proof (evolve_count _ _ He1). pose proof (evolve_count _ _ He2). lia.
Qed.

(** ** Writing versions *)

Lemma path_for_inj i j : 0 <= i <= u64_max → 0 <= j <= u64_max → path_for suffix i = path_for suffix j → i = j.
Proof.
  intros Hi Hj E. apply (f_equal (parse_id suffix)) in E. rewrite !parse_path_for in E by done. by injection E.
Qed.

Lemma commits_version id payload s s' :
  0 <= id <= u64_max →
  commits (Put (version_file suffix id) payload PutCreate) s s' ↔
    files s !! path_for suffix id = None ∧ is_Some (files s' !! path_for suffix id) ∧ boundary_of s < id.
Proof. intros Hid. cbn. by rewrite parse_path_for. Qed.

(** A new version file: the next version of the history, or a file below the boundary. *)
Lemma put_version t w w' id (val : T) v :
  ok w → 1 <= id <= u64_max → id <= count w + 1 → files (contents w) !! path_for suffix id = None →
  contents w' = set_object (version_file suffix id) (Some (encode val, v)) (contents w) → w_local w' = w_local w →
  w_hist w' = record t (Put (version_file suffix id) (encode val) PutCreate) (contents w) (contents w') (w_hist w) →
  (id = count w + 1 → legal (w_hist w) t (encode val)) →
  ok w' ∧ own t w w' ∧
  ((bound w < id ∧ id = count w + 1 ∧ w_hist w' = w_hist w ++ [(t, encode val)]) ∨ (id <= bound w ∧ w_hist w' = w_hist w)).
Proof.
  intros Hok Hid Hle Habs Hc Hl Hh Hleg. pose proof (bound_nonneg w Hok). pose proof (ok_count _ Hok).
  assert (bound w' = bound w) as Eb by (unfold bound, boundary_of; by rewrite Hc).
  assert (files (contents w') !! path_for suffix id = Some (encode val, v)) as Ef by (rewrite Hc; cbn; by rewrite lookup_partial_alter_eq).
  assert (∀ name, name ≠ path_for suffix id → files (contents w') !! name = files (contents w) !! name) as Eo.
  { intros name Hne. rewrite Hc. cbn. by rewrite lookup_partial_alter_ne. }
  assert ((bound w < id ∧ id = count w + 1 ∧ w_hist w' = w_hist w ++ [(t, encode val)]) ∨ (id <= bound w ∧ w_hist w' = w_hist w)) as Hcase.
  { rewrite Hh. unfold record. pose proof (commits_version id (encode val) (contents w) (contents w') ltac:(lia)) as Hcm.
    rewrite Ef, Habs in Hcm. fold (bound w) in Hcm. destruct (file_absent w id Hok Habs) as [?|?].
    - right. split; [done|]. rewrite decide_False; [done|]. rewrite Hcm. lia.
    - assert (bound w < id) by (destruct (ok_bound _ Hok); lia). left. split_and!; [done|lia|]. rewrite decide_True; [done|]. by apply Hcm. }
  assert (w_hist w `prefix_of` w_hist w') as Hpre. { destruct Hcase as [(_ & _ & ->)|[_ ->]]; [by apply prefix_app_r|done]. }
  assert (count w <= count w' <= count w + 1 ∧ (id <= bound w → count w' = count w) ∧ (bound w < id → count w' = id)) as (Hn & Hn1 & Hn2).
  { unfold count in *. destruct Hcase as [(? & ? & ->)|[? ->]]; [rewrite length_app; cbn|]; lia. }
  split_and!; [|split; [split|]|done].
  - split; rewrite ?Eb.
    + rewrite Hc. cbn. apply (ok_boundary _ Hok).
    + destruct (ok_bound _ Hok); [by left|right; lia].
    + destruct Hcase as [(? & ? & _)|[? _]]; lia.
    + intros i Hi. destruct (decide (i = id)) as [->|Hne].
      * rewrite Ef. destruct Hcase as [(_ & -> & ->)|[? _]]; [|lia]. cbn. unfold count. by rewrite version_at_last.
      * assert (i <= count w) as Hic by (destruct (decide (id <= bound w)); lia).
        rewrite Eo; [|intros E; apply path_for_inj in E; lia]. rewrite (ok_present _ Hok) by lia.
        destruct (version_at (w_hist w) i) as [b|] eqn:Ev; [symmetry; by eapply prefix_version|].
        unfold version_at in Ev. rewrite decide_True in Ev by lia. apply fmap_None, lookup_ge_None in Ev. unfold count in *. lia.
    + intros name i Hs Hp. destruct (decide (name = path_for suffix id)) as [->|Hne].
      * rewrite parse_path_for in Hp by (done || lia). injection Hp as <-. split; [done|]. destruct (decide (id <= bound w)); [|lia]. destruct (ok_bound _ Hok); lia.
      * rewrite Eo in Hs by done. destruct (ok_names _ Hok name i Hs Hp) as [-> ?]. split; [done|lia].
    + intros name b v' Hf Hp. destruct (decide (name = path_for suffix id)) as [->|Hne].
      * rewrite Ef in Hf. injection Hf as <- <-. by exists val.
      * rewrite Eo in Hf by done. by eapply (ok_encoded _ Hok).
    + intros pid i b E. rewrite Hl in E. destruct (ok_latest _ Hok _ _ _ E) as (? & ? & [?|?]); (split; [done|]; split; [done|]); [left; lia|right; by eapply prefix_version].
    + intros pid c v' E. rewrite Hl in E. apply (ok_cache _ Hok _ _ _ E).
    + destruct Hcase as [(_ & _ & ->)|[_ ->]]; [|apply (ok_payloads _ Hok)]. apply Forall_app. split; [apply (ok_payloads _ Hok)|].
      apply Forall_singleton. by exists val.
    + intros h t' b k E. destruct Hcase as [(_ & Hn' & Hh')|[_ Hh']]; [|rewrite Hh' in E; by apply (ok_legal _ Hok h t' b k)].
      rewrite Hh' in E. destruct k as [|e k _] using rev_ind.
      * apply app_inj_tail in E as [<- E]. injection E as <- <-. by apply Hleg.
      * rewrite app_comm_cons, app_assoc in E. apply app_inj_tail in E as [E _]. by apply (ok_legal _ Hok h t' b k).
  - done.
  - lia.
  - intros pid. rewrite Hl. apply cache_le_refl.
  - intros t' Hne. unfold mine. destruct Hcase as [(_ & _ & ->)|[_ ->]]; [|done]. rewrite filter_app, filter_cons_False by (cbn; congruence). by rewrite filter_nil, app_nil_r.
Qed.

(** Programs that write no version. *)
Definition quiet_event {X} (e : event X) : Prop :=
  match e with Request (Put (VersionFile _) _ _) => False | _ => True end.
Fixpoint quiet {A} (p : io A) : Prop :=
  match p with Done _ => True | Await e k => quiet_event e ∧ ∀ x, quiet (k x) end.

Lemma quiet_bind {A B} (p : io A) (k : A → io B) : quiet p → (∀ a, quiet (k a)) → quiet (p ≫= k).
Proof. intros Hp Hk. induction p as [[]|X e f IH]; cbn; try done. destruct Hp as [He Hf]. split; [done|]. intros x. by apply IH. Qed.

Lemma quiet_catch {A B} (p : io A) (k : outcome TransactionalObjectError A → io B) : quiet p → (∀ r, quiet (k r)) → quiet (catch p k).
Proof. intros Hp Hk. induction p as [[]|X e f IH]; cbn; try done. destruct Hp as [He Hf]. split; [done|]. intros x. by apply IH. Qed.

Lemma wp_quiet pid t {A} (p : io A) P w :
  quiet p → wp pid t p P w → wp pid t p (λ r w', P r w' ∧ mine t w' = mine t w) w.
Proof.
  intros Hq Hp. cut (∀ w0, mine t w = mine t w0 → wp pid t p (λ r w', P r w' ∧ mine t w' = mine t w0) w); [by intros Hcut; apply Hcut|].
  revert w Hp. induction p as [r|X e k IH]; intros w Hp w0 Hm; cbn in *; [done|]. destruct Hq as [He Hk].
  intros w1 Hok1 Ho x w2 Hd. destruct (Hp w1 Hok1 Ho x w2 Hd) as (H1 & H2 & Hw). split; [done|]. split; [done|].
  apply IH; [done|done|]. rewrite <-Hm. transitivity (mine t w1); [|apply Ho].
  destruct e as [X r|X f]; [|destruct Hd as [_ ->]; done]. destruct Hd as (s' & _ & ->). unfold mine, record. cbn. rewrite decide_False; [done|].
  destruct r as [| [name|] ? ?| |]; cbn in *; tauto.
Qed.

Lemma quiet_check id : quiet (check id).
Proof.
  assert (∀ b, quiet (check_boundary id b)) as Hc by (intros b; unfold check_boundary; by case_decide).
  assert (∀ b v, quiet (update_cache b v)) as Hu by done.
  assert (quiet read_boundary) as Hr.
  { unfold read_boundary. apply quiet_bind; [done|]. intros o. apply quiet_bind; [done|]. intros [payload v| | |]; try done.
    - by destruct (parse_u64 (trim payload)).
    - apply quiet_bind; [done|]. by intros [[]|]. }
  unfold check. apply quiet_catch.
  - unfold boundary_check. apply quiet_bind; [done|]. intros o. apply quiet_bind; [by destruct o as [[]|]|]. intros _. apply quiet_bind; [done|]. by intros [].
  - intros r. apply quiet_bind; [|done]. destruct r as [| []| |]; done.
Qed.

(** ** The checked write *)

Definition id_after (current_id : option Z) : Z := match current_id with Some id => id + 1 | None => 1 end.

(** What is known of the history after a write of [v] on [current_id] by call [t]. On success the value is
    the version after [current_id], committed during the call. On a conflict nothing was committed,
    except a version that has been fenced since. *)
Definition written (t : tag) (current_id : option Z) (v : T) (N : Z) (r : outcome TransactionalObjectError Z) (w : world) : Prop :=
  match r with
  | Ok m => m = id_after current_id ∧ N < m ∧ w_hist w !! Z.to_nat (m - 1) = Some (t, encode v) ∧ mine t w = [(t, encode v)]
  | Err ObjectVersionExists =>
      mine t w = [] ∨ (mine t w = [(t, encode v)] ∧ w_hist w !! Z.to_nat (id_after current_id - 1) = Some (t, encode v) ∧ id_after current_id <= bound w)
  | _ => mine t w = [] ∨ mine t w = [(t, encode v)]
  end.

Lemma mine_app t w w' e : w_hist w' = w_hist w ++ [e] → mine t w' = mine t w ++ (if decide (e.1 = t) then [e] else []).
Proof. intros E. unfold mine. rewrite E, filter_app, filter_cons, filter_nil. done. Qed.

Lemma write_unchecked_spec pid t current_id v N w :
  ok w → N <= count w → mine t w = [] → match current_id with Some b => 0 <= b <= count w | None => True end →
  (∀ w', ok w' → evolve w w' → mine t w' = [] → id_after current_id = count w' + 1 → legal (w_hist w') t (encode v)) →
  wp pid t (write_unchecked suffix current_id v)
    (λ r w', match r with
             | Ok m => m = id_after current_id ∧ 0 < m ∧
                 ((m <= bound w' ∧ mine t w' = []) ∨
                  (N < m ∧ w_hist w' !! Z.to_nat (m - 1) = Some (t, encode v) ∧ mine t w' = [(t, encode v)]))
             | Err ObjectVersionExists => mine t w' = []
             | _ => mine t w' = [] ∨ mine t w' = [(t, encode v)]
             end) w.
Proof.
  intros Hok HN Hm Hcur Hleg. unfold write_unchecked. apply wp_bind.
  assert (∀ w' Q, (id_after current_id <= u64_max → Q (Ok (id_after current_id)) w') → Q Panic w' →
    wp pid t (match current_id with Some id => next id | None => mret initial end) Q w') as Hnext.
  { intros w' Q HQ HP. destruct current_id as [b|]; [|by apply HQ]. unfold next. case_decide; [apply HQ; cbn; lia|done]. }
  apply Hnext; [|by left]. intros Hmax. set (id := id_after current_id) in *.
  assert (1 <= id <= count w + 1) as Hid by (subst id; unfold count in *; destruct current_id; cbn; lia).
  intros w1 Hok1 Ho x w2 (s' & Hs & ->). apply OL in Hs. set (w2 := mkWorld _ _ _).
  pose proof (evolve_count _ _ (proj1 Ho)) as Hn1. assert (mine t w1 = []) as Hm1 by (rewrite (proj2 Ho); done).
  assert (contents w2 = contents w1 → ok w2 ∧ own t w1 w2 ∧ w_hist w2 = w_hist w1) as Hsame.
  { intros Hc. assert (w_hist w2 = w_hist w1) as Hh. { subst w2. cbn in *. unfold contents in *. cbn in Hc. rewrite Hc. apply record_same. }
    split_and!; [|apply step_same; [done..|intros q; apply cache_le_refl]|done].
    apply (ok_same w1); try done; intros q; [right; left|left]; done. }
  assert (∀ uv, admits PutCreate (object_at (version_file suffix id) (contents w1)) →
    contents w2 = set_object (version_file suffix id) (Some (encode v, uv)) (contents w1) →
    ok w2 ∧ own t w1 w2 ∧ ((bound w2 < id ∧ id = count w1 + 1 ∧ w_hist w2 = w_hist w1 ++ [(t, encode v)]) ∨ (id <= bound w2 ∧ w_hist w2 = w_hist w1))) as Hput.
  { intros uv Ha Hc. assert (bound w2 = bound w1) as -> by (unfold bound, boundary_of; by rewrite Hc).
    apply (put_version t w1 w2 id v uv); [done|lia|lia|exact Ha|exact Hc|done|done|]. intros E. apply Hleg; [done|apply Ho|done|done]. }
  assert (w_hist w2 = w_hist w1 ++ [(t, encode v)] → id = count w1 + 1 →
    mine t w2 = [(t, encode v)] ∧ w_hist w2 !! Z.to_nat (id - 1) = Some (t, encode v)) as Hnew.
  { intros Hh Hc. split; [by rewrite (mine_app t w1 w2 _ Hh), Hm1, decide_True|].
    rewrite Hh. unfold count in Hc. replace (Z.to_nat (id - 1)) with (length (w_hist w1)) by lia. by apply list_lookup_middle. }
  assert (w_hist w2 = w_hist w1 → mine t w2 = []) as Hold by (intros Hh; unfold mine in *; by rewrite Hh).
  destruct x as [uv| | |].
  - destruct Hs as (Ha & _ & Hc). destruct (Hput uv Ha Hc) as (Hok2 & Hown & Hcase). split; [done|]. split; [done|].
    apply wp_cache_latest.
    + split; [lia|]. split; [by exists v|]. destruct Hcase as [(_ & Hc1 & Hh)|[? _]]; [right|by left]. destruct (Hnew Hh Hc1) as [_ Hlk].
      unfold version_at. rewrite decide_True by lia. by rewrite Hlk.
    + intros w3 _ He3 Hm3. cbn. split; [done|]. split; [lia|]. rewrite Hm3. destruct Hcase as [(_ & Hc1 & Hh)|[? Hh]]; [right|left].
      * destruct (Hnew Hh Hc1) as [Hm2 Hlk]. split; [lia|]. split; [|done]. eapply prefix_lookup_Some; [exact Hlk|apply (ev_hist _ _ He3)].
      * split; [pose proof (ev_bound _ _ He3); lia|by apply Hold].
  - destruct Hs as (Hc & _). destruct (Hsame Hc) as (? & ? & Hh). split; [done|]. split; [done|]. by apply Hold.
  - by destruct Hs as (_ & Hne & _).
  - destruct Hs as [Hc|(uv & Ha & _ & Hc)].
    + destruct (Hsame Hc) as (? & ? & Hh). split; [done|]. split; [done|]. left. by apply Hold.
    + destruct (Hput uv Ha Hc) as (Hok2 & Hown & Hcase). split; [done|]. split; [done|].
      destruct Hcase as [(_ & Hc1 & Hh)|[? Hh]]; [right; by apply Hnew|left; by apply Hold].
Qed.

Lemma write_spec pid t current_id v N w :
  ok w → N <= count w → mine t w = [] → match current_id with Some b => 0 <= b <= count w | None => True end →
  (∀ w', ok w' → evolve w w' → mine t w' = [] → id_after current_id = count w' + 1 → legal (w_hist w') t (encode v)) →
  wp pid t (write suffix current_id v) (written t current_id v N) w.
Proof.
  intros Hok HN Hm Hcur Hleg. unfold write. apply wp_bind. eapply wp_conseq; [done|by apply (write_unchecked_spec pid t current_id v N)|].
  intros [m|e| |] w1 Hok1 He1 Hr; try done; [|destruct e; try done; by left].
  destruct Hr as (-> & Hpos & Hr). apply wp_bind.
  eapply wp_conseq; [done|apply wp_quiet; [apply quiet_check|apply (check_spec pid t w1 (bound w1)); [done|lia]]|].
  intros [u|e| |] w2 Hok2 He2 [Hc Hm2]; try done.
  - cbn in Hc. destruct Hr as [[? _]|(HNm & Hlk & Hm1)]; [lia|]. cbn. split; [done|]. split; [done|]. split; [|by rewrite Hm2].
    eapply prefix_lookup_Some; [exact Hlk|apply (ev_hist _ _ He2)].
  - destruct Hr as [[_ Hm1]|(_ & Hlk & Hm1)]; rewrite Hm1 in Hm2; [destruct e; by left|]. destruct e; try (by right).
    right. split; [done|]. split; [|done]. eapply prefix_lookup_Some; [exact Hlk|apply (ev_hist _ _ He2)].
Qed.

(** ** Deleting fenced versions *)

Lemma delete_unchecked_spec pid t id w :
  ok w → 0 <= id <= bound w → wp pid t (delete_unchecked suffix id) (λ _ _, True) w.
Proof.
  intros Hok Hid. unfold delete_unchecked. intros w1 Hok1 Ho x w2 (s' & Hs & ->). apply OL in Hs. set (w2 := mkWorld _ _ _).
  assert (w_hist w2 = w_hist w1) as Hh. { subst w2. cbn. unfold record. rewrite decide_False; [done|]. by intros []. }
  assert (ok w2 ∧ own t w1 w2) as [Hok2 Hown].
  { assert (contents w2 = contents w1 ∨ contents w2 = set_object (version_file suffix id) None (contents w1)) as [Hc|Hc].
    { destruct Hs as [Hs|[_ Hs]]; [by right|by left]. }
    - split; [apply (ok_same w1); try done; intros q; [right; left|left]; done|]. apply step_same; [done..|]. intros q. apply cache_le_refl.
    - assert (bound w2 = bound w1) as Eb by (unfold bound, boundary_of; by rewrite Hc). pose proof (ev_bound _ _ (proj1 Ho)).
      assert (count w2 = count w1) as En by (unfold count; by rewrite Hh). pose proof (ok_count _ Hok1).
      split; [|split; [split; [by rewrite Hh|lia|intros q; apply cache_le_refl]|intros t' _; unfold mine; by rewrite Hh]].
      split; rewrite ?Eb, ?En, ?Hh.
      + rewrite Hc. cbn. apply (ok_boundary _ Hok1).
      + apply (ok_bound _ Hok1).
      + done.
      + intros i Hi. rewrite Hc. cbn. rewrite lookup_partial_alter_ne; [by apply (ok_present _ Hok1)|]. intros E. apply path_for_inj in E; lia.
      + intros name i Hsm Hp. apply (ok_names _ Hok1); [|done]. rewrite Hc in Hsm. cbn in Hsm. destruct (decide (name = path_for suffix id)) as [->|?].
        * rewrite lookup_partial_alter_eq in Hsm. by destruct Hsm.
        * by rewrite lookup_partial_alter_ne in Hsm.
      + intros name b v Hf. apply (ok_encoded _ Hok1 name b v). rewrite Hc in Hf. cbn in Hf. destruct (decide (name = path_for suffix id)) as [->|?].
        * by rewrite lookup_partial_alter_eq in Hf.
        * by rewrite lookup_partial_alter_ne in Hf.
      + intros pid' i b E. destruct (ok_latest _ Hok1 _ _ _ E) as (? & ? & Hl). split; [done|]. split; [done|]. by rewrite Eb, Hh.
      + apply (ok_cache _ Hok1).
      + apply (ok_payloads _ Hok1).
      + apply (ok_legal _ Hok1). }
  split; [done|]. split; [done|]. destruct x; [|done]. apply wp_tail. by apply invalidate_cached_wp.
Qed.

Lemma delete_checked_spec pid t id w : ok w → 0 <= id → wp pid t (delete_checked suffix id) (λ _ _, True) w.
Proof.
  intros Hok Hid. unfold delete_checked. apply wp_catch. eapply wp_conseq; [done|apply (check_spec pid t w (bound w)); [done|lia]|].
  intros [u|e| |] w1 Hok1 He1 Hr; try done. destruct e; try done. by apply delete_unchecked_spec.
Qed.

(** ** Reading a given version *)

Lemma try_read_unchecked_spec pid t id w :
  ok w → 0 <= id <= u64_max →
  wp pid t (try_read_unchecked suffix id)
    (λ r w', match r with Ok (Some v) => id <= bound w' ∨ version_at (w_hist w') id = Some (encode v) | _ => True end) w.
Proof.
  intros Hok Hid. unfold try_read_unchecked. apply (wp_read_bytes pid t id 0); [done|done|unfold count; lia| |done].
  intros [b|] w1 Hok1 He1 Hb; [|done]. unfold decode_value. destruct (decode b) as [v|] eqn:Hd; [|done]. cbn.
  destruct Hb as [(_ & _ & [?|Hv]) _]; [by left|right]. by rewrite <-(decode_held w1 id b v).
Qed.
End worlds.
