(* ===== verification/TxnObject.v ===== *)
(** * Transactional objects ([slatedb-txn-obj/src/lib.rs]) and their clients

    The in-memory registers built on the sequenced storage: [SimpleTransactionalObject] with
    optimistic updates, [FenceableTransactionalObject] with epochs, and the garbage collection of old
    versions ([garbage_collector/manifest_gc.rs]). A client is a tree of calls to the storage; what it
    may do is stated by [honest]: it bases a write only on a version it has learnt, and moves the
    boundary only below a version it has seen. *)

From S2P Require Export TxnStoreSpec.

Local Open Scope Z_scope.

(** The calls of [SequencedStorageProtocol] and [TransactionalStorageProtocol]. *)
Inductive call (T : Type) : Type → Type :=
| CallWrite (current_id : option Z) (v : T) : call T Z
| CallReadLatest : call T (option (Z * T))
| CallRead (id : Z) : call T (option T)
| CallList (from to : Bound Z) : call T (list (Z * Z))
| CallAdvance (boundary : Z) : call T unit
| CallDelete (id : Z) : call T unit
| CallDeleteUnchecked (id : Z) : call T unit.
Arguments CallWrite {T} current_id v.
Arguments CallReadLatest {T}.
Arguments CallRead {T} id.
Arguments CallList {T} from to.
Arguments CallAdvance {T} boundary.
Arguments CallDelete {T} id.
Arguments CallDeleteUnchecked {T} id.

(** The storage's implementation of each call. *)
Definition perform_call (suffix : bytes) {T} `{ObjectCodec T} (fuel : nat) {X} (c : call T X) : io X :=
  match c in call _ X return io X with
  | CallWrite current_id v => write suffix current_id v
  | CallReadLatest => try_read_latest suffix fuel
  | CallRead id => try_read_unchecked suffix id
  | CallList from to => list_versions suffix fuel from to
  | CallAdvance boundary => advance fuel boundary
  | CallDelete id => delete_checked suffix id
  | CallDeleteUnchecked id => delete_unchecked suffix id
  end.

(** Client code: its calls, each followed by what it does with the result. *)
Inductive client (T A : Type) : Type :=
| Return (r : outcome TransactionalObjectError A)
| Invoke {X : Type} (c : call T X) (k : outcome TransactionalObjectError X → client T A).
Arguments Return {T A} r.
Arguments Invoke {T A X} c k.

Fixpoint client_bind {T A B} (k : A → client T B) (p : client T A) : client T B :=
  match p with
  | Return (Ok a) => k a
  | Return (Err e) => Return (Err e)
  | Return Panic => Return Panic
  | Return OutOfFuel => Return OutOfFuel
  | Invoke c f => Invoke c (λ r, client_bind k (f r))
  end.
Global Instance client_mret {T} : MRet (client T) := λ A a, Return (Ok a).
Global Instance client_mbind {T} : MBind (client T) := λ A B k p, client_bind k p.

Definition invoke {T X} (c : call T X) : client T X := Invoke c Return.

Fixpoint client_catch {T A B} (p : client T A) (k : outcome TransactionalObjectError A → client T B) : client T B :=
  match p with
  | Return Panic => Return Panic
  | Return OutOfFuel => Return OutOfFuel
  | Return r => k r
  | Invoke c f => Invoke c (λ r, client_catch (f r) k)
  end.

(** ** [SimpleTransactionalObject] *)

Record SimpleTransactionalObject (T : Type) := mkSimple { so_id : Z; so_object : T }.
Arguments mkSimple {T} so_id so_object.
Arguments so_id {T} s.
Arguments so_object {T} s.

Record DirtyObject (T : Type) := mkDirty { dirty_id : Z; dirty_value : T }.
Arguments mkDirty {T} dirty_id dirty_value.
Arguments dirty_id {T} d.
Arguments dirty_value {T} d.

Section objects.
  Context {T : Type} (invariants : list (T → T → bool)).
Local Notation simple := (SimpleTransactionalObject T).

(** [SimpleTransactionalObject::init] *)
Definition simple_init (v : T) : client T simple :=
  id ← invoke (CallWrite None v);
  mret (mkSimple id v).

(** [SimpleTransactionalObject::try_load] *)
Definition try_load : client T (option simple) :=
  o ← invoke CallReadLatest;
  mret (match o with Some (id, v) => Some (mkSimple id v) | None => None end).

(** [SimpleTransactionalObject::load] *)
Definition load : client T simple :=
  o ← try_load;
  match o with Some s => mret s | None => Return (Err LatestRecordMissing) end.

(** [SimpleTransactionalObject::prepare_dirty] *)
Definition simple_prepare_dirty (s : simple) : DirtyObject T := mkDirty (so_id s) (so_object s).

(** [SimpleTransactionalObject::refresh]; on an error the object keeps its view. *)
Definition simple_refresh (s : simple) : client T simple :=
  o ← invoke CallReadLatest;
  match o with Some (id, v) => mret (mkSimple id v) | None => Return (Err InvalidObjectState) end.

(** [SimpleTransactionalObject::update] *)
Definition simple_update (s : simple) (dirty : DirtyObject T) : client T simple :=
  if decide (dirty_id dirty = so_id s) then
    if forallb (λ invariant, invariant (dirty_value dirty) (so_object s)) invariants then
      id ← invoke (CallWrite (Some (dirty_id dirty)) (dirty_value dirty));
      mret (mkSimple id (dirty_value dirty))
    else Return (Err CallbackError)
  else Return (Err ObjectVersionExists).

(** [TransactionalObject::maybe_apply_update] for the simple object; the mutator fails, declines or
    gives a value to write. *)
Fixpoint simple_maybe_apply_update (fuel : nat) (mutator : simple → option (option (DirtyObject T))) (s : simple) : client T simple :=
  match fuel with
  | O => Return OutOfFuel
  | S fuel =>
      match mutator s with
      | None => Return (Err CallbackError)
      | Some None => mret s
      | Some (Some dirty) =>
          client_catch (simple_update s dirty) (λ r,
            match r with
            | Ok s' => mret s'
            | Err e => if is_sequenced_write_conflict e then s' ← simple_refresh s; simple_maybe_apply_update fuel mutator s'
                       else Return (Err e)
            | r => Return r
            end)
      end
  end.

(** ** [FenceableTransactionalObject] *)

Context (get_epoch : T → Z) (set_epoch : T → Z → T).

Record FenceableTransactionalObject := mkFenceable { delegate : simple; local_epoch : Z }.

(** [FenceableTransactionalObject::init]: claim the next epoch. *)
Fixpoint fenceable_init (fuel : nat) (s : simple) : client T FenceableTransactionalObject :=
  match fuel with
  | O => Return OutOfFuel
  | S fuel =>
      if decide (get_epoch (so_object s) < u64_max) then
        let epoch := get_epoch (so_object s) + 1 in
        client_catch (simple_update s (mkDirty (so_id s) (set_epoch (so_object s) epoch))) (λ r,
          match r with
          | Ok s' => mret (mkFenceable s' epoch)
          | Err e => if is_sequenced_write_conflict e then s' ← simple_refresh s; fenceable_init fuel s' else Return (Err e)
          | Panic => Return Panic
          | OutOfFuel => Return OutOfFuel
          end)
      else Return Panic
  end.

(** [FenceableTransactionalObject::init_with_epoch]: claim a given epoch. *)
Fixpoint fenceable_init_with_epoch (fuel : nat) (epoch : Z) (exact_epoch : bool) (s : simple) : client T FenceableTransactionalObject :=
  match fuel with
  | O => Return OutOfFuel
  | S fuel =>
      let stored_epoch := get_epoch (so_object s) in
      if decide (epoch <= stored_epoch ∨ (exact_epoch = true ∧ ¬ (stored_epoch < u64_max ∧ stored_epoch + 1 = epoch))) then Return (Err ObjectFenced)
      else
        client_catch (simple_update s (mkDirty (so_id s) (set_epoch (so_object s) epoch))) (λ r,
          match r with
          | Ok s' => mret (mkFenceable s' epoch)
          | Err e => if is_sequenced_write_conflict e then s' ← simple_refresh s; fenceable_init_with_epoch fuel epoch exact_epoch s'
                     else Return (Err e)
          | Panic => Return Panic
          | OutOfFuel => Return OutOfFuel
          end)
  end.

(** [check_epoch] *)
Definition check_epoch (f : FenceableTransactionalObject) : outcome TransactionalObjectError unit :=
  let stored_epoch := get_epoch (so_object (delegate f)) in
  if decide (local_epoch f < stored_epoch) then Err ObjectFenced
  else if decide (stored_epoch < local_epoch f) then Panic
  else Ok tt.

(** [prepare_dirty], [refresh], [update] of the fenceable object *)
Definition fenceable_prepare_dirty (f : FenceableTransactionalObject) : outcome TransactionalObjectError (DirtyObject T) :=
  _ ← check_epoch f; mret (simple_prepare_dirty (delegate f)).

Definition fenceable_refresh (f : FenceableTransactionalObject) : client T FenceableTransactionalObject :=
  s ← simple_refresh (delegate f);
  let f' := mkFenceable s (local_epoch f) in
  _ ← Return (check_epoch f');
  mret f'.

Definition fenceable_update (f : FenceableTransactionalObject) (dirty : DirtyObject T) : client T FenceableTransactionalObject :=
  _ ← Return (check_epoch f);
  s ← simple_update (delegate f) dirty;
  mret (mkFenceable s (local_epoch f)).

(** [maybe_apply_update] of the fenceable object *)
Fixpoint fenceable_maybe_apply_update (fuel : nat) (mutator : FenceableTransactionalObject → option (option (DirtyObject T)))
    (f : FenceableTransactionalObject) : client T FenceableTransactionalObject :=
  match fuel with
  | O => Return OutOfFuel
  | S fuel =>
      match mutator f with
      | None => Return (Err CallbackError)
      | Some None => mret f
      | Some (Some dirty) =>
          client_catch (fenceable_update f dirty) (λ r,
            match r with
            | Ok f' => mret f'
            | Err e => if is_sequenced_write_conflict e then f' ← fenceable_refresh f; fenceable_maybe_apply_update fuel mutator f'
                       else Return (Err e)
            | r => Return r
            end)
      end
  end.

(** ** Collecting old versions ([ManifestGcTask::collect])

    [active] gives the versions a value's checkpoints refer to; [allowed] is the user's filter. The
    boundary files are enabled. The deletions, which do not depend on each other, are made one after
    another. *)
Context (active : T → list Z) (allowed : Z * Z → bool).

Fixpoint delete_all (ids : list Z) : client T unit :=
  match ids with
  | [] => mret tt
  | id :: ids => client_catch (invoke (CallDeleteUnchecked id)) (λ _, delete_all ids)
  end.

Definition collect_versions (utc_now min_age : Z) (dry_run : bool) : client T unit :=
  files ← invoke (CallList Unbounded Unbounded);
  match last files with
  | None => Return (Err LatestRecordMissing)
  | Some (latest_id, _) =>
      o ← invoke (CallRead latest_id);
      match o with
      | None => Return (Err InvalidObjectState)
      | Some latest_value =>
          let to_delete := filter (λ f, f.1 ∉ active latest_value ∧ min_age < utc_now - f.2) (take (length files - 1) files) in
          _ ← match max_opt (fst <$> to_delete) with
              | Some boundary => invoke (CallAdvance boundary)
              | None => mret tt
              end;
          if dry_run then mret tt else delete_all (fst <$> filter (λ f, allowed f = true) to_delete)
      end
  end.
End objects.
