(* ===== verification/TxnProtocol.v ===== *)
(** * Transactional objects among concurrent processes

    Any number of clients run at the same time over one object store, in processes that share their
    caches; every interleaving of their steps, with failures, is a run of [pool_step]. The theorems
    relate the results the clients get to the history of committed versions. *)

From S2P Require Export TxnObject.

Local Open Scope Z_scope.

(** ** What clients may do *)

Section clients.
  Context {T : Type} (R : Z → T → T → Prop).

(** What a client has learnt: the values of versions, IDs that exist, IDs that are fenced. *)
Record knows := mkKnows { k_version : Z → T → Prop; k_seen : Z → Prop; k_dead : Z → Prop }.

Definition nothing : knows := mkKnows (λ _ _, False) (λ _, False) (λ _, False).

(** A write is based on a version the client knows and relates the two values by [R]; the boundary
    moves only below an ID that has been seen; only fenced versions are deleted. *)
Definition allowed (K : knows) {X} (c : call T X) : Prop :=
  match c with
  | CallWrite (Some b) v' => ∃ v, k_version K b v ∧ R (b + 1) v v'
  | CallRead id => 0 <= id <= u64_max
  | CallAdvance b => 0 <= b ∧ ∃ i, k_seen K i ∧ b < i
  | CallDelete id => 0 <= id
  | CallDeleteUnchecked id => 0 <= id ∧ k_dead K id
  | _ => True
  end.

Definition tells_version {X} (c : call T X) : outcome TransactionalObjectError X → Z → T → Prop :=
  match c in call _ X return outcome TransactionalObjectError X → Z → T → Prop with
  | CallWrite _ v => λ r i v', r = Ok i ∧ v' = v
  | CallReadLatest => λ r i v, r = Ok (Some (i, v))
  | _ => λ _ _ _, False
  end.

Definition tells_seen {X} (c : call T X) : outcome TransactionalObjectError X → Z → Prop :=
  match c in call _ X return outcome TransactionalObjectError X → Z → Prop with
  | CallList _ _ => λ r i, ∃ items, r = Ok items ∧ i ∈ items.*1
  | _ => λ _ _, False
  end.

Definition tells_dead {X} (c : call T X) : outcome TransactionalObjectError X → Z → Prop :=
  match c in call _ X return outcome TransactionalObjectError X → Z → Prop with
  | CallAdvance b => λ r i, r = Ok tt ∧ i <= b
  | _ => λ _ _, False
  end.

Definition learn (K : knows) {X} (c : call T X) (r : outcome TransactionalObjectError X) : knows :=
  mkKnows (λ i v, k_version K i v ∨ tells_version c r i v) (λ i, k_seen K i ∨ tells_seen c r i) (λ i, k_dead K i ∨ tells_dead c r i).

(** A listing is in order. *)
Definition plausible {X} (c : call T X) : outcome TransactionalObjectError X → Prop :=
  match c in call _ X return outcome TransactionalObjectError X → Prop with
  | CallList _ _ => λ r, ∀ items, r = Ok items → Forall (λ i, 0 <= i.1 <= u64_max) items ∧ StronglySorted id_lt items
  | _ => λ _, True
  end.

(** [p] makes only allowed calls, and ends with [Q] of its result and what it knows then. *)
Fixpoint behaves (K : knows) {A} (p : client T A) (Q : outcome TransactionalObjectError A → knows → Prop) : Prop :=
  match p with
  | Return r => Q r K
  | Invoke c k => allowed K c ∧ ∀ r, plausible c r → behaves (learn K c r) (k r) Q
  end.

Definition honest {A} (p : client T A) : Prop := behaves nothing p (λ _ _, True).

Definition knows_le (K K' : knows) : Prop :=
  (∀ i v, k_version K i v → k_version K' i v) ∧ (∀ i, k_seen K i → k_seen K' i) ∧ (∀ i, k_dead K i → k_dead K' i).

Global Instance knows_le_preorder : PreOrder knows_le.
Proof.
  split; [by intros K|]. intros a b c (H1 & H2 & H3) (H4 & H5 & H6). split; [|split]; intros; [by apply H4, H1|by apply H5, H2|by apply H6, H3].
Qed.

Lemma learn_le K {X} (c : call T X) r : knows_le K (learn K c r).
Proof. split; [|split]; intros; by left. Qed.

Lemma behaves_conseq K {A} (p : client T A) P Q :
  behaves K p P → (∀ r K', knows_le K K' → P r K' → Q r K') → behaves K p Q.
Proof.
  revert K. induction p as [r|X c k IH]; intros K Hp HPQ; cbn in *; [by apply HPQ|]. destruct Hp as [Ha Hk]. split; [done|].
  intros r Hr. apply IH; [by apply Hk|]. intros r' K' Hle. apply HPQ. by etransitivity; [apply learn_le|].
Qed.

Lemma behaves_bind K {A B} (p : client T A) (k : A → client T B) Q :
  behaves K p (λ r K', match r with Ok a => behaves K' (k a) Q | Err e => Q (Err e) K' | Panic => Q Panic K' | OutOfFuel => Q OutOfFuel K' end) →
  behaves K (p ≫= k) Q.
Proof.
  revert K. induction p as [[]|X c f IH]; intros K; cbn; try done. intros [Ha Hf]. split; [done|]. intros r Hr. by apply IH, Hf.
Qed.

Lemma behaves_catch K {A B} (p : client T A) (k : outcome TransactionalObjectError A → client T B) Q :
  behaves K p (λ r K', match r with Panic => Q Panic K' | OutOfFuel => Q OutOfFuel K' | r => behaves K' (k r) Q end) →
  behaves K (client_catch p k) Q.
Proof.
  revert K. induction p as [[]|X c f IH]; intros K; cbn; try done. intros [Ha Hf]. split; [done|]. intros r Hr. by apply IH, Hf.
Qed.

Lemma behaves_invoke K {X} (c : call T X) Q :
  allowed K c → (∀ r, plausible c r → Q r (learn K c r)) → behaves K (invoke c) Q.
Proof. by split. Qed.
End clients.

(** ** Runs *)

Section runs.
  Context (suffix : bytes) {T : Type} {CO : ObjectCodec T} {VA : Validators} {OS : ObjectStore} (fuel : nat).

Notation history := (list (tag * bytes)).

(** A client between calls, or in a call that began when the history was [start]. *)
Inductive thread :=
| Idle (pid : nat) (c : client T unit)
| Busy (pid : nat) {X : Type} (c : call T X) (t : tag) (start : history) (p : io X)
    (k : outcome TransactionalObjectError X → client T unit).

(** A call that has returned: its result, the history when it began and when it returned, and the
    boundary then. *)
Record returned := mkReturned {
  rt_type : Type;
  rt_call : call T rt_type;
  rt_tag : tag;
  rt_result : outcome TransactionalObjectError rt_type;
  rt_start : history;
  rt_end : history;
  rt_boundary : Z;
}.

Record pool := mkPool {
  p_world : world;
  p_threads : list thread;
  p_log : list returned;
  p_calls : nat;
}.

Inductive pool_step : pool → pool → Prop :=
| step_invoke i pid X (c : call T X) k w ths log n :
    ths !! i = Some (Idle pid (Invoke c k)) →
    pool_step (mkPool w ths log n)
      (mkPool w (<[i := Busy pid c (i, n) (w_hist w) (perform_call suffix fuel c) k]> ths) log (S n))
| step_event i pid X (c : call T X) t start Y (e : event Y) f k x w w' ths log n :
    ths !! i = Some (Busy pid c t start (Await e f) k) → does suffix pid t e w x w' →
    pool_step (mkPool w ths log n) (mkPool w' (<[i := Busy pid c t start (f x) k]> ths) log n)
| step_return i pid X (c : call T X) t start r k w ths log n :
    ths !! i = Some (Busy pid c t start (Done r) k) →
    pool_step (mkPool w ths log n)
      (mkPool w (<[i := Idle pid (k r)]> ths) (log ++ [mkReturned X c t r start (w_hist w) (bound w)]) n)
(** A timeout: the call is abandoned where it is. *)
| step_cancel i pid X (c : call T X) t start p k w ths log n :
    ths !! i = Some (Busy pid c t start p k) →
    pool_step (mkPool w ths log n) (mkPool w (<[i := Idle pid (k (Err ObjectUpdateTimeout))]> ths) log n).

(** The start: a store without versions and boundary, empty caches. *)
Definition empty_directory (s : store) : Prop :=
  boundary_file s = None ∧ ∀ name, is_Some (files s !! name) → parse_id suffix name = None.

Definition start_pool (s : os_state) (clients : list (nat * client T unit)) : pool :=
  mkPool (mkWorld s (λ _, mkLocal None None) []) ((λ c, Idle c.1 c.2) <$> clients) [] 0.
End runs.

(** ** The invariant of a pool *)

Section invariant.
  Context (suffix : bytes) (Hsuffix : 46 ∉ suffix) {T : Type} {CO : ObjectCodec T} {CL : ObjectCodecLaws T}
    {VA : Validators} {OS : ObjectStore} {OL : ObjectStoreLaws} (fuel : nat) (R : Z → T → T → Prop).

(** Each call commits at most one version, related to the one before it by [R]. *)
Definition chained (h : list (tag * bytes)) (t : tag) (b : bytes) : Prop :=
  t ∉ h.*1 ∧
  match last h with
  | Some (_, b0) => ∀ v v' : T, b0 = encode v → b = encode v' → R (Z.of_nat (length h) + 1) v v'
  | None => True
  end.

Local Notation ok := (ok suffix T chained).
Local Notation wp := (wp suffix T chained).

Definition truth (K : knows) (w : world) : Prop :=
  (∀ i v, k_version K i v → version_at (w_hist w) i = Some (encode v)) ∧
  (∀ i, k_seen K i → i <= count w) ∧ (∀ i, k_dead K i → i <= bound w).

(** What a call promises when it returns, if the history was [start] when it began. *)
Definition promises {X} (c : call T X) (t : tag) (start : list (tag * bytes)) : outcome TransactionalObjectError X → world → Prop :=
  match c in call _ X return outcome TransactionalObjectError X → world → Prop with
  | CallWrite current_id v => written T t current_id v (Z.of_nat (length start))
  | CallReadLatest => read_fresh T (Z.of_nat (length start))
  | CallList _ _ => λ r w, match r with Ok items => Forall (λ i, 0 <= i.1 <= count w) items ∧ StronglySorted id_lt items | _ => True end
  | CallAdvance b => λ r w, r = Ok tt → b <= bound w
  | CallRead id => λ r w, match r with Ok (Some v) => id <= bound w ∨ version_at (w_hist w) id = Some (encode v) | _ => True end
  | _ => λ _ _, True
  end.

Lemma promises_stable {X} (c : call T X) t start r w w' :
  promises c t start r w → others t w w' → promises c t start r w'.
Proof.
  intros Hp [He Hm]. pose proof (ev_hist _ _ He) as Hpre. pose proof (ev_bound _ _ He). pose proof (evolve_count _ _ He).
  destruct c; cbn in *.
  - destruct r as [m|e| |]; cbn in *; rewrite ?Hm; try done.
    + destruct Hp as (? & ? & ? & ?). split_and!; try done. by eapply prefix_lookup_Some.
    + destruct e; try done. destruct Hp as [?|(? & ? & ?)]; [by left|right]. split_and!; [done|by eapply prefix_lookup_Some|lia].
  - destruct r as [[[i v]|]|e| |]; cbn in *; try done. destruct Hp. split; [done|]. by eapply prefix_version.
  - destruct r as [[v|]|e| |]; try done. destruct Hp as [?|?]; [left; lia|right; by eapply prefix_version].
  - destruct r as [items|e| |]; try done. destruct Hp as [Hp ?]. split; [|done]. eapply Forall_impl; [exact Hp|]. cbn. lia.
  - intros E. specialize (Hp E). lia.
  - done.
  - done.
Qed.

Lemma truth_evolve K w w' : evolve w w' → truth K w → truth K w'.
Proof.
  intros He (H1 & H2 & H3). pose proof (ev_hist _ _ He). pose proof (ev_bound _ _ He). pose proof (evolve_count _ _ He). split_and!.
  - intros i v Hv. by eapply prefix_version, H1.
  - intros i Hi. specialize (H2 i Hi). lia.
  - intros i Hi. specialize (H3 i Hi). lia.
Qed.

Lemma truth_learn {X} (c : call T X) t start r K w : truth K w → promises c t start r w → truth (learn K c r) w.
Proof.
  intros (H1 & H2 & H3) Hp. split_and!; cbn.
  - intros i v [?|Ht]; [by apply H1|]. destruct c; cbn in Ht; try done.
    + destruct Ht as [-> ->]. cbn in Hp. destruct Hp as (-> & ? & Hlk & _). unfold version_at.
      rewrite decide_True by lia. by rewrite Hlk.
    + rewrite Ht in Hp. apply Hp.
  - intros i [?|Ht]; [by apply H2|]. destruct c; cbn in Ht; try done. destruct Ht as (items & -> & Hi). cbn in Hp. destruct Hp as [Hp _].
    apply list_elem_of_fmap in Hi as (x & -> & Hx). rewrite Forall_forall in Hp. by apply Hp.
  - intros i [?|Ht]; [by apply H3|]. destruct c; cbn in Ht; try done. destruct Ht as [-> Hi]. cbn in Hp. specialize (Hp eq_refl). lia.
Qed.

Lemma truth_failed {X} (c : call T X) e K w : truth K w → truth (learn K c (Err e)) w.
Proof.
  intros (H1 & H2 & H3). split_and!; cbn; intros.
  - destruct H as [?|H]; [by apply H1|]. destruct c; cbn in H; try done. by destruct H.
  - destruct H as [?|H]; [by apply H2|]. destruct c; cbn in H; try done. by destruct H as (? & ? & _).
  - destruct H as [?|H]; [by apply H3|]. destruct c; cbn in H; try done. by destruct H.
Qed.

Lemma promises_plausible {X} (c : call T X) t start r w : ok w → promises c t start r w → plausible c r.
Proof.
  intros Hok. destruct c; cbn; try done. intros Hp items ->. destruct Hp as [Hp ?]. split; [|done].
  pose proof (ok_count _ _ _ _ Hok). eapply Forall_impl; [exact Hp|]. cbn. lia.
Qed.

Lemma mine_nil t w : mine t w = [] → t ∉ (w_hist w).*1.
Proof.
  intros Hm Hin. apply list_elem_of_fmap in Hin as (e & -> & He). assert (e ∈ mine e.1 w) as Hin by (by apply list_elem_of_filter).
  rewrite Hm in Hin. by apply elem_of_nil in Hin.
Qed.

(** Each call keeps its promise. *)
Lemma perform_call_spec pid t {X} (c : call T X) K w :
  ok w → truth K w → allowed R K c → mine t w = [] →
  wp pid t (perform_call suffix fuel c) (promises c t (w_hist w)) w.
Proof.
  intros Hok (H1 & H2 & H3) Ha Hm. change (Z.of_nat (length (w_hist w))) with (count w).
  destruct c as [[b|] v| | id|from to|b|id|id]; cbn [perform_call promises allowed] in *.
  - destruct Ha as (v0 & Hv0 & HR). pose proof (H1 _ _ Hv0) as Hver. pose proof (version_at_count _ _ _ Hver) as Hb. fold (count w) in Hb.
    apply write_spec; [done|done|done|unfold count; lia|done|lia|]. intros w' Hok' He' Hm' E. cbn in E. split; [by apply mine_nil|].
    pose proof (prefix_version _ _ _ _ (ev_hist _ _ He') Hver) as Hver'. unfold version_at in Hver'. rewrite decide_True in Hver' by lia.
    assert (b = count w') as Eb by lia. unfold count in Eb. rewrite last_lookup.
    replace (Nat.pred (length (w_hist w'))) with (Z.to_nat (b - 1)) by lia. apply fmap_Some in Hver' as ([t0 b0] & -> & Eb0). cbn in Eb0.
    intros v1 v2 E1 E2. subst b0. rewrite <-Eb. apply (f_equal decode) in E1, E2. rewrite !CL in E1, E2. injection E1 as <-. injection E2 as <-. done.
  - apply write_spec; [done|done|done|unfold count; lia|done|done|]. intros w' Hok' He' Hm' E. cbn in E. split; [by apply mine_nil|].
    unfold count in E. destruct (w_hist w'); cbn in E; [done|lia].
  - apply read_latest_spec; [done..|]. unfold count. lia.
  - by apply try_read_unchecked_spec.
  - eapply wp_conseq; [done|apply (list_versions_spec suffix T chained Hsuffix pid t fuel from to 0); [done|unfold count; lia]|]. intros [items|e| |] w' _ _ Hl; try done. by destruct Hl as (? & ? & _).
  - destruct Ha as (Hb & i & Hi & Hlt). pose proof (H2 _ Hi). eapply wp_conseq; [done|apply advance_spec; [done..|lia]|].
    intros [u|e| |] w' _ _ Hr E; try done.
  - eapply wp_conseq; [done|by apply delete_checked_spec|done].
  - destruct Ha as [Hid Hd]. specialize (H3 _ Hd). eapply wp_conseq; [done|by apply delete_unchecked_spec|done].
Qed.

Definition thread_ok (w : world) (n i : nat) (th : thread) : Prop :=
  match th with
  | Idle _ c => ∃ K, truth K w ∧ behaves R K c (λ _ _, True)
  | Busy pid c t start p k => ∃ K, truth K w ∧ t.1 = i ∧ (t.2 < n)%nat ∧
      start `prefix_of` w_hist w ∧
      wp pid t p (promises c t start) w ∧ ∀ r, plausible c r → behaves R (learn K c r) (k r) (λ _ _, True)
  end.

(** The promise of a call that has returned, of the history and the boundary at that time. *)
Definition kept (r : returned) : Prop :=
  ∃ w, w_hist w = rt_end r ∧ bound w = rt_boundary r ∧ promises (rt_call r) (rt_tag r) (rt_start r) (rt_result r) w.

Record pool_ok (p : pool) : Prop := {
  po_world : ok (p_world p);
  po_threads i th : p_threads p !! i = Some th → thread_ok (p_world p) (p_calls p) i th;
  po_tags e : e ∈ w_hist (p_world p) → (e.1.2 < p_calls p)%nat;
  po_log : Forall kept (p_log p);
  po_order : Forall (λ r, rt_start r `prefix_of` rt_end r ∧ rt_end r `prefix_of` w_hist (p_world p)) (p_log p);
}.

Lemma thread_ok_others w w' n n' i th :
  thread_ok w n i th → ok w' → (n <= n')%nat →
  match th with Idle _ _ => evolve w w' | Busy _ _ t _ _ _ => others t w w' end → thread_ok w' n' i th.
Proof.
  destruct th as [pid c|pid X c t start p k]; cbn; intros (K & Ht & Hth) Hok Hn He.
  - exists K. split; [by eapply truth_evolve|done].
  - destruct Hth as (Hi & Hlt & Hst & Hwp & Hb). exists K. split; [by eapply truth_evolve; [apply He|]|]. split; [done|]. split; [lia|].
    split; [etransitivity; [exact Hst|apply (ev_hist _ _ (proj1 He))]|]. split; [|done].
    eapply wp_others; [|exact Hok|exact He|exact Hwp]. intros r w1 w2 Hp _ Ho. by eapply promises_stable.
Qed.

(** Replacing the thread that moved. *)
Lemma threads_step (w w' : world) (n n' i : nat) (ths : list thread) th :
  (∀ j th, ths !! j = Some th → thread_ok w n j th) → ok w' → (n <= n')%nat → thread_ok w' n' i th →
  (∀ t, t.1 ≠ i → others t w w') →
  ∀ j th', <[i := th]> ths !! j = Some th' → thread_ok w' n' j th'.
Proof.
  intros Hths Hok Hn Hth Ho j th' Hj. destruct (decide (i = j)) as [->|Hne].
  - rewrite list_lookup_insert_Some in Hj. destruct Hj as [(_ & <- & _)|(? & _)]; done.
  - rewrite list_lookup_insert_ne in Hj by done. eapply thread_ok_others; [by apply Hths|done|done|]. specialize (Hths j th' Hj).
    destruct th' as [pid c|pid X c t start p k].
    + apply (Ho (S i, 0%nat)). cbn. lia.
    + apply Ho. destruct Hths as (K & _ & E & _). congruence.
Qed.

Lemma pool_step_ok p p' : pool_ok p → pool_step suffix fuel p p' → pool_ok p'.
Proof.
  intros [Hw Hths Htags Hlog Hord] Hstep. destruct Hstep; cbn in *.
  - split; cbn; [done| |intros e He; specialize (Htags e He); lia|done|done].
    assert (mine (i, n) w = []) as Hm.
    { unfold mine. apply list_filter_none. apply Forall_forall. intros e He E. specialize (Htags e He). rewrite E in Htags. cbn in Htags. lia. }
    apply (threads_step w w n (S n)); [done|done|lia| |by intros]. destruct (Hths i _ H) as (K & Ht & Ha & Hb).
    exists K. split; [done|]. split; [done|]. split; [cbn; lia|]. split; [done|]. split; [by apply (perform_call_spec pid _ c K)|done].
  - destruct (Hths i _ H) as (K & Ht & Hti & Hlt & Hst & Hwp & Hb). destruct (Hwp w Hw ltac:(done) x w' H0) as (Hok' & [He Hoth] & Hwp').
    pose proof (ev_hist _ _ He) as Hpre. split; cbn; [done| | |done|].
    + apply (threads_step w w' n n); [done|done|lia| |intros t' Hne; split; [done|apply Hoth; congruence]].
      exists K. split; [by eapply truth_evolve|]. split_and!; try done. by etransitivity.
    + intros e0 He0. destruct (decide (e0.1 = t)) as [->|Hne]; [done|]. apply Htags.
      assert (e0 ∈ mine e0.1 w') as Hin by (by apply list_elem_of_filter). rewrite Hoth in Hin by done. by apply list_elem_of_filter in Hin as [_ ?].
    + eapply Forall_impl; [exact Hord|]. cbn. intros r [? ?]. split; [done|by etransitivity].
  - destruct (Hths i _ H) as (K & Ht & Hti & Hlt & Hst & Hwp & Hb). cbn in Hwp. split; cbn; [done| |done| |].
    + apply (threads_step w w n n); [done|done|lia| |by intros]. exists (learn K c r). split; [by eapply truth_learn|]. apply Hb. by eapply promises_plausible.
    + apply Forall_app. split; [done|]. apply Forall_singleton. by exists w.
    + apply Forall_app. split; [done|]. by apply Forall_singleton.
  - destruct (Hths i _ H) as (K & Ht & Hti & Hlt & Hst & Hwp & Hb). split; cbn; [done| |done|done|done].
    apply (threads_step w w n n); [done|done|lia| |by intros]. exists (learn K c (Err ObjectUpdateTimeout)).
    split; [by apply truth_failed|]. apply Hb. by destruct c.
Qed.

Lemma start_pool_ok s clients :
  empty_directory suffix (os_contents s) → Forall (λ c, honest R c.2) clients → pool_ok (start_pool s clients).
Proof.
  intros [Hb Hf] Hc. split; cbn.
  - assert (bound (mkWorld s (λ _, mkLocal None None) []) = 0) as Hb0 by (unfold bound, boundary_of, contents; cbn; by rewrite Hb).
    split; rewrite ?Hb0; cbn; unfold contents, count; cbn; try done.
    + intros payload v E. cbn in E. by rewrite Hb in E.
    + by left.
    + intros id ?. lia.
    + intros name id Hs Hp. by rewrite (Hf name Hs) in Hp.
    + intros name b v Hs Hp. rewrite (Hf name) in Hp by (by rewrite Hs). by destruct Hp.
    + by intros [|].
  - intros i th Hi. rewrite list_lookup_fmap in Hi. apply fmap_Some in Hi as ([pid c] & Hi & ->). exists nothing. split; [by split_and!|].
    rewrite Forall_forall in Hc. apply (Hc (pid, c)). by eapply list_elem_of_lookup_2.
  - intros e He. by apply elem_of_nil in He.
  - constructor.
  - constructor.
Qed.

Lemma pool_runs_ok s clients p :
  empty_directory suffix (os_contents s) → Forall (λ c, honest R c.2) clients →
  rtc (pool_step suffix fuel) (start_pool s clients) p → pool_ok p.
Proof.
  intros Hs Hc Hr. cut (pool_ok (start_pool s clients)); [|by apply start_pool_ok]. clear Hs Hc.
  induction Hr as [p|p1 p2 p3 H12 _ IH]; [done|]. intros Hp. apply IH. by eapply pool_step_ok.
Qed.

(** ** The history *)

Lemma ok_nodup w : ok w → NoDup (w_hist w).*1.
Proof.
  intros Hok. pose proof (ok_legal _ _ _ _ Hok) as Hl. induction (w_hist w) as [|[t b] h IH] using rev_ind; [constructor|].
  rewrite fmap_app. apply NoDup_app. split_and!.
  - apply IH. intros h0 t0 b0 k E. apply (Hl h0 t0 b0 (k ++ [(t, b)])). rewrite E. by rewrite <-app_assoc.
  - intros x Hx Hin. apply list_elem_of_singleton in Hin as ->. by destruct (Hl h t b [] eq_refl).
  - apply NoDup_singleton.
Qed.

Lemma ok_chain w id v v' :
  ok w → version_at (w_hist w) id = Some (encode v) → version_at (w_hist w) (id + 1) = Some (encode v') → R (id + 1) v v'.
Proof.
  intros Hok Hv Hv'. pose proof (version_at_count _ _ _ Hv). unfold version_at in Hv, Hv'. rewrite decide_True in Hv by lia. rewrite decide_True in Hv' by lia.
  apply fmap_Some in Hv as ([t0 b0] & Hlk & E0), Hv' as ([t1 b1] & Hlk' & E1). cbn in E0, E1. subst b0 b1.
  replace (Z.to_nat (id + 1 - 1)) with (S (Z.to_nat (id - 1))) in Hlk' by lia.
  pose proof (take_drop_middle _ _ _ Hlk') as Eh. symmetry in Eh. destruct (ok_legal _ _ _ _ Hok _ _ _ _ Eh) as [_ Hc].
  rewrite last_lookup, length_take in Hc. apply lookup_lt_Some in Hlk' as Hlt.
  replace (Nat.pred (S (Z.to_nat (id - 1)) `min` length (w_hist w))) with (Z.to_nat (id - 1)) in Hc by lia.
  rewrite lookup_take, decide_True, Hlk in Hc by lia.
  replace (Z.of_nat (S (Z.to_nat (id - 1)) `min` length (w_hist w))) with id in Hc by lia. by apply Hc.
Qed.
End invariant.

(** What linearizability asks of a call that has returned. A write that succeeds has committed its value,
    during the call, as the version after the one it was based on. A write that reports a conflict has
    committed nothing, unless its version has been superseded and fenced before the call could
    confirm it. A read returns a committed version that was the latest one at some time during the
    call. *)
Definition linearized {T} `{ObjectCodec T} (r : returned (T:=T)) : Prop :=
  match rt_call r in call _ X return outcome TransactionalObjectError X → Prop with
  | CallWrite current_id v => λ x,
      match x with
      | Ok m => m = id_after current_id ∧ Z.of_nat (length (rt_start r)) < m ∧
          rt_end r !! Z.to_nat (m - 1) = Some (rt_tag r, encode v)
      | Err ObjectVersionExists => rt_tag r ∉ (rt_end r).*1 ∨
          (rt_end r !! Z.to_nat (id_after current_id - 1) = Some (rt_tag r, encode v) ∧ id_after current_id <= rt_boundary r)
      | _ => True
      end
  | CallReadLatest => λ x,
      match x with
      | Ok (Some (id, v)) => Z.of_nat (length (rt_start r)) <= id ∧ version_at (rt_end r) id = Some (encode v)
      | Ok None => rt_start r = []
      | _ => True
      end
  | _ => λ _, True
  end (rt_result r).

Lemma kept_linearized {T} {CO : ObjectCodec T} {OS : ObjectStore} (r : returned (T:=T)) : kept r → linearized r.
Proof.
  destruct r as [X c t x start fin bd]. intros (w & Hw & Hb & Hp). unfold linearized. cbn in *. subst fin bd.
  destruct c as [cur v| |id|from to|b|id|id]; cbn in *; try done.
  - destruct x as [m|e| |]; try done.
    + destruct Hp as (? & ? & ? & _). done.
    + destruct e; try done. destruct Hp as [Hm|(_ & ? & ?)]; [left|by right]. by apply mine_nil.
  - destruct x as [[[id v]|]|e| |]; try done. apply length_zero_iff_nil. cbn in Hp. lia.
Qed.
