(* ===== verification/TxnMem.v ===== *)
(** * An in-memory object store and a scheduler

    An instance of [ObjectStore], after the [InMemory] store the tests of the repository use, and an
    executable scheduler whose runs are runs of [pool_step]. *)

From S2P Require Export TxnProtocol.

Local Open Scope Z_scope.

(** ** The store *)

(** The entity tag of an object is its payload. *)
Definition content_tag (b : bytes) : UpdateVersion := mkVersion (Some b) None.

Global Instance content_validators : Validators := {| tag_payload _ t := t; version_payload _ g := g |}.

Record mem_store := mkMem { mem_files : gmap bytes bytes; mem_boundary : option bytes }.

Definition mem_at (loc : location) (m : mem_store) : option bytes :=
  match loc with VersionFile name => mem_files m !! name | BoundaryFile => mem_boundary m end.

Definition mem_set (loc : location) (o : option bytes) (m : mem_store) : mem_store :=
  match loc with
  | VersionFile name => mkMem (partial_alter (λ _, o) name (mem_files m)) (mem_boundary m)
  | BoundaryFile => mkMem (mem_files m) o
  end.

Definition with_tag (b : bytes) : object := (b, content_tag b).

Definition mem_contents (m : mem_store) : store := mkStore (with_tag <$> mem_files m) (with_tag <$> mem_boundary m).

Global Instance follows_dec after name : Decision (follows after name).
Proof. destruct after; cbn; apply _. Defined.

(** The first name after [after]. *)
Definition min_name (o : option bytes) (name : bytes) : option bytes :=
  match o with Some n => if decide (n ≼ name) then Some n else Some name | None => Some name end.
Definition next_name (after : option bytes) (m : mem_store) : option bytes :=
  foldl min_name None (filter (follows after) (map_to_list (mem_files m)).*1).

Definition mem_serve {X} (r : request X) : mem_store → X * mem_store :=
  match r in request X return mem_store → X * mem_store with
  | Get loc if_none_match => λ m,
      (match mem_at loc m with
       | Some b => if decide (if_none_match = Some b) then GetNotModified else GetOk b (content_tag b)
       | None => GetNotFound
       end, m)
  | Put loc payload mode => λ m,
      match mode, mem_at loc m with
      | PutCreate, None => (PutOk (content_tag payload), mem_set loc (Some payload) m)
      | PutCreate, Some _ => (PutAlreadyExists, m)
      | PutUpdate v, Some b =>
          if decide (e_tag v = Some b) then (PutOk (content_tag payload), mem_set loc (Some payload) m)
          else (PutPrecondition, m)
      | PutUpdate _, None => (PutPrecondition, m)
      end
  | ListNext after => λ m, (Some ((λ name, (name, 0)) <$> next_name after m), m)
  | Delete loc => λ m, (true, mem_set loc None m)
  end.

Global Instance mem_object_store : ObjectStore := {|
  os_state := mem_store;
  os_step X r m x m' := mem_serve r m = (x, m');
  os_contents := mem_contents;
|}.

Lemma mem_object_at loc m : object_at loc (mem_contents m) = with_tag <$> mem_at loc m.
Proof. destruct loc; cbn; [apply lookup_fmap|done]. Qed.

Lemma mem_set_contents loc o m : mem_contents (mem_set loc o m) = set_object loc (with_tag <$> o) (mem_contents m).
Proof.
  destruct loc as [name|]; [|done]. unfold mem_contents, set_object, mem_set. cbn. f_equal. apply map_eq. intros i.
  rewrite lookup_fmap. destruct (decide (i = name)) as [->|Hne].
  - by rewrite !lookup_partial_alter_eq.
  - by rewrite !lookup_partial_alter_ne, lookup_fmap.
Qed.

Lemma content_describes loc b : describes loc (content_tag b) b.
Proof. split; intros t E; cbn in *; congruence. Qed.

Lemma foldl_min_name l o : 
  match foldl min_name o l with
  | Some n => (o = Some n ∨ n ∈ l) ∧ (∀ a, o = Some a → n ≼ a) ∧ ∀ a, a ∈ l → n ≼ a
  | None => o = None ∧ l = []
  end.
Proof.
  revert o. induction l as [|x l IH]; intros o; cbn [foldl].
  - destruct o as [n|]; [|done]. split; [by left|]. split; [intros a [= ->]; ord|]. intros a Ha. by apply elem_of_nil in Ha.
  - specialize (IH (min_name o x)). destruct (foldl min_name (min_name o x) l) as [n|] eqn:E.
    + destruct IH as (H1 & H2 & H3). destruct o as [b|]; cbn in H1, H2.
      * case_decide as Hle.
        -- split; [destruct H1; [by left|right; by right]|]. split; [done|]. intros a [->|Ha]%elem_of_cons; [|by apply H3].
           specialize (H2 _ eq_refl). ord.
        -- split; [destruct H1 as [[= ->]|?]; [right; by left|right; by right]|]. split.
           ++ intros a [= ->]. specialize (H2 _ eq_refl). ord.
           ++ intros a [->|Ha]%elem_of_cons; [by apply H2|by apply H3].
      * split; [destruct H1 as [[= ->]|?]; [right; by left|right; by right]|]. split; [done|]. intros a [->|Ha]%elem_of_cons; [by apply H2|by apply H3].
    + destruct IH as [E' _]. destruct o as [b|]; cbn in E'; [by case_decide|done].
Qed.

Lemma next_name_spec after m :
  match next_name after m with
  | Some name => is_Some (mem_files m !! name) ∧ follows after name ∧ ∀ n, is_Some (mem_files m !! n) → follows after n → name ≼ n
  | None => ∀ n, is_Some (mem_files m !! n) → ¬ follows after n
  end.
Proof.
  assert (∀ n, n ∈ filter (follows after) (map_to_list (mem_files m)).*1 ↔ follows after n ∧ is_Some (mem_files m !! n)) as Hin.
  { intros n. rewrite list_elem_of_filter, list_elem_of_fmap. split; intros [Hf Hn]; (split; [done|]).
    - destruct Hn as ([k b] & -> & Hn). apply elem_of_map_to_list in Hn. by exists b.
    - destruct Hn as [b Hn]. exists (n, b). split; [done|]. by apply elem_of_map_to_list. }
  pose proof (foldl_min_name (filter (follows after) (map_to_list (mem_files m)).*1) None) as Hf. unfold next_name.
  destruct (foldl _ _ _) as [name|].
  - destruct Hf as ([?|H1] & _ & H3); [done|]. apply Hin in H1 as [? ?]. split_and!; [done..|]. intros n Hn Hfo. apply H3, Hin. done.
  - destruct Hf as [_ Hf]. intros n Hn Hfo. assert (n ∈ filter (follows after) (map_to_list (mem_files m)).*1) as H by (by apply Hin).
    rewrite Hf in H. by apply elem_of_nil in H.
Qed.

Global Instance mem_store_laws : ObjectStoreLaws.
Proof.
  intros X r m x m' H. cbn in *. destruct r as [loc tag|loc payload mode|after|loc]; cbn in H |- *.
  - injection H as <- <-. split; [done|]. rewrite mem_object_at. destruct (mem_at loc m) as [b|]; [|done]. cbn. case_decide as E.
    + exists b, b, (content_tag b). split_and!; [done..|]. by apply content_describes.
    + split; [done|apply content_describes].
  - rewrite mem_object_at. destruct mode as [|v], (mem_at loc m) as [b|] eqn:E; cbn; [|..|].
    + injection H as <- <-. done.
    + injection H as <- <-. split; [done|]. split; [apply content_describes|apply (mem_set_contents loc (Some payload))].
    + case_decide as Et; injection H as <- <-.
      * split; [exists b, (content_tag b); split; [done|]; left; rewrite Et; by split|]. split; [apply content_describes|apply (mem_set_contents loc (Some payload))].
      * split; [done|]. split; [done|]. intros (b0 & v' & [= <- <-] & [[[t Ht] Es]|[[g Hg] Es]]); cbn in *; congruence.
    + injection H as <- <-. split; [done|]. split; [done|]. by intros (b0 & v' & ? & _).
  - injection H as <- <-. split; [done|]. pose proof (next_name_spec after m) as Hn. cbn.
    assert (∀ n, is_Some ((with_tag <$> mem_files m) !! n) ↔ is_Some (mem_files m !! n)) as Hi by (intros n; rewrite lookup_fmap; apply fmap_is_Some).
    destruct (next_name after m) as [name|]; cbn.
    + destruct Hn as (H1 & H2 & H3). split_and!; [by apply Hi|done|]. intros n Hs. apply H3. by apply Hi.
    + intros n Hs. apply Hn. by apply Hi.
  - injection H as <- <-. left. apply (mem_set_contents loc None).
Qed.

(** ** A scheduler *)

Section scheduler.
  Context (suffix : bytes) {T : Type} `{ObjectCodec T} (fuel : nat).

Definition exec_event (pid : nat) (t : tag) {X} (e : event X) (w : world) : X * world :=
  match e in event X return X * world with
  | Request r =>
      let '(x, s') := mem_serve r (w_store w) in
      (x, mkWorld s' (w_local w) (record suffix t r (contents w) (mem_contents s') (w_hist w)))
  | Locally f =>
      ((f (w_local w pid)).1, mkWorld (w_store w) (λ q, if decide (q = pid) then (f (w_local w pid)).2 else w_local w q) (w_hist w))
  end.

Lemma exec_event_does pid t {X} (e : event X) w : does suffix pid t e w (exec_event pid t e w).1 (exec_event pid t e w).2.
Proof.
  destruct e as [X r|X f]; cbn; [|done]. destruct (mem_serve r (w_store w)) as [x s'] eqn:E. cbn. by exists s'.
Qed.

(** One step of thread [i], if it has one. *)
Definition exec_thread (p : pool (T:=T)) (i : nat) : pool :=
  match p_threads p !! i with
  | Some (Idle pid (Invoke c k)) =>
      mkPool (p_world p) (<[i := Busy pid c (i, p_calls p) (w_hist (p_world p)) (perform_call suffix fuel c) k]> (p_threads p))
        (p_log p) (S (p_calls p))
  | Some (Busy pid c t start (Await e f) k) =>
      let '(x, w') := exec_event pid t e (p_world p) in
      mkPool w' (<[i := Busy pid c t start (f x) k]> (p_threads p)) (p_log p) (p_calls p)
  | Some (@Busy _ pid X c t start (Done r) k) =>
      mkPool (p_world p) (<[i := Idle pid (k r)]> (p_threads p))
        (p_log p ++ [mkReturned X c t r start (w_hist (p_world p)) (bound (p_world p))]) (p_calls p)
  | _ => p
  end.

Lemma exec_thread_step p i : rtc (pool_step suffix fuel) p (exec_thread p i).
Proof.
  destruct p as [w ths log n]. unfold exec_thread. cbn [p_threads p_world p_log p_calls].
  destruct (ths !! i) as [[pid [r|X c k]|pid X c t start [r|Y e f] k]|] eqn:E; try apply rtc_refl.
  - apply rtc_once. by apply step_invoke.
  - apply rtc_once. by apply step_return.
  - pose proof (exec_event_does pid t e w) as Hd. destruct (exec_event pid t e w) as [x w']. apply rtc_once. by eapply step_event.
Qed.

Definition exec (p : pool (T:=T)) (schedule : list nat) : pool := foldl exec_thread p schedule.

Lemma exec_steps p schedule : rtc (pool_step suffix fuel) p (exec p schedule).
Proof.
  revert p. induction schedule as [|i schedule IH]; intros p; cbn; [apply rtc_refl|]. etransitivity; [apply exec_thread_step|apply IH].
Qed.
End scheduler.
