(* ===== verification/TxnClients.v ===== *)
(** * Transactional objects: linearizability and fencing

    The clients of [TxnObject] are honest, and the two guarantees of the storage: operations are
    linearizable under any interleaving, failure and garbage collection, and epochs fence off old
    writers. An in-memory object store and a scheduler give example runs. *)

From S2P Require Export TxnMem.

Local Open Scope Z_scope.

(** ** The clients of the module are honest *)

Section simple_objects.
  Context {T : Type} (R : Z → T → T → Prop) (invariants : list (T → T → bool)).

Definition current (K : knows) (s : SimpleTransactionalObject T) : Prop := k_version K (so_id s) (so_object s).

Definition ends_current (r : outcome TransactionalObjectError (SimpleTransactionalObject T)) (K : knows) : Prop :=
  match r with Ok s => current K s | _ => True end.

Lemma simple_init_behaves K v : behaves R K (simple_init v) ends_current.
Proof. apply behaves_bind, behaves_invoke; [done|]. intros [id|e| |] _; try done. by right. Qed.

Lemma read_latest_behaves K {A} (k : option (Z * T) → client T A) Q :
  (∀ o K', knows_le K K' → match o with Some (id, v) => k_version K' id v | None => True end → behaves R K' (k o) Q) →
  (∀ e K', Q (Err e) K') → (∀ K', Q Panic K') → (∀ K', Q OutOfFuel K') →
  behaves R K (invoke CallReadLatest ≫= k) Q.
Proof.
  intros Hk He Hp Ho. apply behaves_bind, behaves_invoke; [done|]. intros [o|e| |] _; [|apply He|apply Hp|apply Ho].
  apply Hk; [apply learn_le|]. destruct o as [[id v]|]; [by right|done].
Qed.

Lemma load_behaves K : behaves R K load ends_current.
Proof.
  apply behaves_bind, read_latest_behaves; try done. by intros [[id v]|] K' _ Hk.
Qed.

Lemma simple_refresh_behaves K s : behaves R K (simple_refresh s) ends_current.
Proof. apply read_latest_behaves; try done. by intros [[id v]|] K' _ Hk. Qed.

Lemma simple_update_behaves K s d :
  current K s → (dirty_id d = so_id s → R (so_id s + 1) (so_object s) (dirty_value d)) →
  behaves R K (simple_update invariants s d)
    (λ r K', match r with Ok s' => current K' s' ∧ so_object s' = dirty_value d | _ => True end).
Proof.
  intros Hs HR. unfold simple_update. case_decide as E; [|done]. destruct (forallb _ _); [|done].
  apply behaves_bind, behaves_invoke; [rewrite E; exists (so_object s); auto|]. intros [id|e| |] _; try done. split; [|done].
  unfold current. cbn. auto.
Qed.

(** A mutator that relates the values of versions by [R]. *)
Definition good_mutator (mutator : SimpleTransactionalObject T → option (option (DirtyObject T))) : Prop :=
  ∀ s d, mutator s = Some (Some d) → dirty_id d = so_id s → R (so_id s + 1) (so_object s) (dirty_value d).

Lemma simple_maybe_apply_update_behaves fuel mutator : good_mutator mutator →
  ∀ K s, current K s → behaves R K (simple_maybe_apply_update invariants fuel mutator s) ends_current.
Proof.
  intros Hm. induction fuel as [|fuel IH]; intros K s Hs; [done|]. cbn [simple_maybe_apply_update].
  destruct (mutator s) as [[d|]|] eqn:E; [|done|done]. apply behaves_catch.
  eapply behaves_conseq; [apply (simple_update_behaves K s d Hs); intros Ed; by apply Hm|].
  intros [s'|e| |] K' Hle Hr; try done; [by destruct Hr|]. destruct (is_sequenced_write_conflict e); [|done].
  apply behaves_bind. eapply behaves_conseq; [apply simple_refresh_behaves|]. intros [s'|e'| |] K'' _ Hs'; try done. by apply IH.
Qed.
End simple_objects.

Section fenceable_objects.
  Context {T : Type} (invariants : list (T → T → bool)) (get_epoch : T → Z) (set_epoch : T → Z → T).
  Context (get_set : ∀ v e, get_epoch (set_epoch v e) = e).

(** Epochs do not go back. *)
Definition epoch_le (_ : Z) (v v' : T) : Prop := get_epoch v <= get_epoch v'.

(** The object has the client's epoch, unless the client is fenced off. *)
Definition ends_fenceable (r : outcome TransactionalObjectError (FenceableTransactionalObject (T:=T))) (K : knows) : Prop :=
  match r with Ok f => current K (delegate f) ∧ get_epoch (so_object (delegate f)) = local_epoch f | _ => True end.

Lemma claim_behaves K s epoch (retry : client T (FenceableTransactionalObject (T:=T))) :
  current K s → get_epoch (so_object s) <= epoch →
  (∀ K', knows_le K K' → behaves epoch_le K' retry ends_fenceable) →
  behaves epoch_le K
    (client_catch (simple_update invariants s (mkDirty (so_id s) (set_epoch (so_object s) epoch))) (λ r,
       match r with
       | Ok s' => mret (mkFenceable s' epoch)
       | Err e => if is_sequenced_write_conflict e then retry else Return (Err e)
       | Panic => Return Panic
       | OutOfFuel => Return OutOfFuel
       end)) ends_fenceable.
Proof.
  intros Hs He Hretry. apply behaves_catch.
  eapply behaves_conseq; [apply (simple_update_behaves _ _ _ _ _ Hs)|].
  - intros _. unfold epoch_le. cbn. by rewrite get_set.
  - intros [s'|e| |] K' Hle Hr; try done.
    + destruct Hr as [Hc Ho]. split; [done|]. cbn in *. rewrite Ho. apply get_set.
    + destruct (is_sequenced_write_conflict e); [|done]. by apply Hretry.
Qed.

Lemma refresh_then_behaves K s {A} (k : SimpleTransactionalObject T → client T A) Q :
  (∀ K' s', current K' s' → behaves epoch_le K' (k s') Q) → (∀ e K', Q (Err e) K') → (∀ K', Q Panic K') → (∀ K', Q OutOfFuel K') →
  behaves epoch_le K (simple_refresh s ≫= k) Q.
Proof.
  intros Hk ? ? ?. apply behaves_bind. eapply behaves_conseq; [apply simple_refresh_behaves|].
  intros [s'|e| |] K' _ Hs; [|done..]. by apply Hk.
Qed.

Lemma fenceable_init_behaves fuel : ∀ K s, current K s →
  behaves epoch_le K (fenceable_init invariants get_epoch set_epoch fuel s) ends_fenceable.
Proof.
  induction fuel as [|fuel IH]; intros K s Hs; [done|]. cbn [fenceable_init]. case_decide; [|done].
  apply claim_behaves; [done|lia|]. intros K' Hle. by apply refresh_then_behaves.
Qed.

Lemma fenceable_init_with_epoch_behaves fuel epoch exact_epoch : ∀ K s, current K s →
  behaves epoch_le K (fenceable_init_with_epoch invariants get_epoch set_epoch fuel epoch exact_epoch s) ends_fenceable.
Proof.
  induction fuel as [|fuel IH]; intros K s Hs; [done|]. cbn [fenceable_init_with_epoch]. case_decide; [done|].
  apply claim_behaves; [done|lia|]. intros K' Hle. by apply refresh_then_behaves.
Qed.

Lemma fenceable_refresh_behaves K f : behaves epoch_le K (fenceable_refresh get_epoch f) ends_fenceable.
Proof.
  apply refresh_then_behaves; [|done..]. intros K' s' Hs. unfold check_epoch. cbn [delegate local_epoch].
  case_decide; [done|]. case_decide; [done|]. split; [done|]. cbn. lia.
Qed.

Lemma fenceable_update_behaves K f d :
  current K (delegate f) → (dirty_id d = so_id (delegate f) → get_epoch (dirty_value d) = get_epoch (so_object (delegate f))) →
  behaves epoch_le K (fenceable_update invariants get_epoch f d)
    (λ r K', match r with
             | Ok f' => ends_fenceable r K' ∧ local_epoch f' = local_epoch f
             | Err e => True
             | _ => True
             end).
Proof.
  intros Hc Hd. unfold fenceable_update, check_epoch. case_decide; [done|]. case_decide; [done|].
  change (behaves epoch_le K (simple_update invariants (delegate f) d ≫= λ s, mret (mkFenceable s (local_epoch f)))
    (λ r K', match r with Ok f' => ends_fenceable r K' ∧ local_epoch f' = local_epoch f | Err e => True | _ => True end)).
  apply behaves_bind. unfold simple_update. case_decide as E; [|done]. destruct (forallb _ _); [|done].
  apply behaves_bind, behaves_invoke.
  - rewrite E. exists (so_object (delegate f)). split; [done|]. unfold epoch_le. rewrite (Hd E). lia.
  - intros [id|e| |] _; try done. cbn. split; [|done]. split; [unfold current; cbn; auto|]. rewrite (Hd E). lia.
Qed.

(** A mutator that keeps the epoch. *)
Definition epoch_kept (mutator : FenceableTransactionalObject → option (option (DirtyObject T))) : Prop :=
  ∀ f d, mutator f = Some (Some d) → dirty_id d = so_id (delegate f) → get_epoch (dirty_value d) = get_epoch (so_object (delegate f)).

Lemma fenceable_maybe_apply_update_behaves fuel mutator : epoch_kept mutator →
  ∀ K f, current K (delegate f) → get_epoch (so_object (delegate f)) = local_epoch f →
  behaves epoch_le K (fenceable_maybe_apply_update invariants get_epoch fuel mutator f) ends_fenceable.
Proof.
  intros Hm. induction fuel as [|fuel IH]; intros K f Hc He; [done|]. cbn [fenceable_maybe_apply_update].
  destruct (mutator f) as [[d|]|] eqn:E; [|done|done]. apply behaves_catch.
  eapply behaves_conseq; [apply (fenceable_update_behaves K f d Hc); intros Ed; by apply Hm|].
  intros [f'|e| |] K' Hle Hr; try done; [by destruct Hr|]. destruct (is_sequenced_write_conflict e); [|done].
  apply behaves_bind. eapply behaves_conseq; [apply fenceable_refresh_behaves|]. intros [f'|e'| |] K'' _ Hs'; try done. destruct Hs'. by apply IH.
Qed.
(** A process that opens the object and applies updates, as a writer does with the manifest. *)
Fixpoint apply_all (fuel : nat) (mutators : list (FenceableTransactionalObject → option (option (DirtyObject T))))
    (f : FenceableTransactionalObject) : client T unit :=
  match mutators with
  | [] => mret tt
  | mutator :: mutators => f' ← fenceable_maybe_apply_update invariants get_epoch fuel mutator f; apply_all fuel mutators f'
  end.
Definition session (fuel : nat) (mutators : list (FenceableTransactionalObject → option (option (DirtyObject T)))) : client T unit :=
  s ← load; f ← fenceable_init invariants get_epoch set_epoch fuel s; apply_all fuel mutators f.

Lemma session_honest fuel mutators : Forall epoch_kept mutators → honest epoch_le (session fuel mutators).
Proof.
  intros Hm. apply behaves_bind. eapply behaves_conseq; [apply load_behaves|]. intros [s|e| |] K _ Hs; try done.
  apply behaves_bind. eapply behaves_conseq; [by apply fenceable_init_behaves|]. intros [f|e| |] K' _ Hf; try done. clear -Hm Hf get_set.
  revert K' f Hf. induction Hm as [|m ms Hm _ IH]; intros K f Hf; [done|]. cbn [apply_all]. destruct Hf as [Hc He].
  apply behaves_bind. eapply behaves_conseq; [by apply fenceable_maybe_apply_update_behaves|]. intros [f'|e| |] K' _ Hf'; try done. by apply IH.
Qed.
End fenceable_objects.

Section collector.
  Context {T : Type} (R : Z → T → T → Prop) (active : T → list Z) (allowed : Z * Z → bool).

Lemma delete_all_behaves ids : ∀ K, Forall (λ i, 0 <= i ∧ k_dead K i) ids → behaves R K (delete_all (T:=T) ids) (λ _ _, True).
Proof.
  induction ids as [|i ids IH]; intros K Hi; [done|]. apply Forall_cons in Hi as [[? ?] Hi]. cbn [delete_all].
  apply behaves_catch, behaves_invoke; [done|]. intros r _.
  assert (behaves R (learn K (CallDeleteUnchecked i) r) (delete_all (T:=T) ids) (λ _ _, True)) as Hrest.
  { apply IH. eapply Forall_impl; [exact Hi|]. cbn. tauto. }
  by destruct r.
Qed.

Lemma collect_versions_behaves utc_now min_age dry_run : honest R (collect_versions active allowed utc_now min_age dry_run).
Proof.
  unfold collect_versions. apply behaves_bind, behaves_invoke; [done|]. intros [items|e| |] Hpl; try done.
  destruct (Hpl items eq_refl) as [Hrange Hsorted]. set (K := learn _ _ _).
  assert (∀ i, i ∈ items.*1 → k_seen K i) as Hseen by (intros i Hi; right; by exists items).
  destruct (last items) as [[latest_id lm]|] eqn:Hlast; [|done]. apply last_Some in Hlast as [l Hl].
  assert (0 <= latest_id <= u64_max) as Hid. { rewrite Hl in Hrange. apply Forall_app in Hrange as [_ Hr]. rewrite Forall_singleton in Hr. done. }
  apply behaves_bind, behaves_invoke; [done|]. intros [[v|]|e| |] _; try done. set (K' := learn K _ _).
  assert (take (length items - 1) items = l) as Htake.
  { rewrite Hl, length_app. cbn. replace (length l + 1 - 1)%nat with (length l) by lia. by rewrite take_app_length. }
  rewrite Htake. set (to_delete := filter _ l).
  assert (∀ f, f ∈ to_delete → 0 <= f.1 < latest_id) as Hdel.
  { intros f [_ Hf]%list_elem_of_filter. rewrite Hl in Hsorted, Hrange. apply StronglySorted_app in Hsorted as (Hx & _ & _).
    apply Forall_app in Hrange as [Hr _]. rewrite Forall_forall in Hr. specialize (Hr f Hf). split; [lia|].
    by apply (Hx f (latest_id, lm) Hf), list_elem_of_singleton. }
  destruct (max_opt (fst <$> to_delete)) as [b|] eqn:Hmax.
  - pose proof (max_opt_elem _ _ Hmax) as Hb. apply list_elem_of_fmap in Hb as (fb & -> & Hfb). specialize (Hdel _ Hfb) as Hdb.
    apply behaves_bind, behaves_invoke.
    + split; [lia|]. exists latest_id. split; [|lia]. left. apply Hseen. rewrite Hl, fmap_app. apply elem_of_app. right. by left.
    + intros [u|e| |] _; try done. destruct dry_run; [done|]. apply delete_all_behaves. apply Forall_forall. intros i Hi.
      apply list_elem_of_fmap in Hi as (f & -> & Hf). apply list_elem_of_filter in Hf as [_ Hf]. split; [by apply Hdel|]. right.
      destruct u. split; [done|]. destruct (max_opt_spec (fst <$> to_delete) f.1) as (m & Hm & Hle); [by apply list_elem_of_fmap_2|].
      rewrite Hmax in Hm. injection Hm as <-. done.
  - destruct dry_run; [done|]. destruct to_delete as [|f l'] eqn:E; [done|]. done.
Qed.
End collector.

(** ** Linearizability *)

Section guarantees.
  Context (suffix : bytes) {T : Type} `{ObjectCodecLaws T} `{ObjectStoreLaws} (fuel : nat).


(** ** Fencing *)

Lemma epochs_sorted (get_epoch : T → Z) w i j v v' :
  ok suffix T (chained (epoch_le get_epoch)) w → i <= j →
  version_at (w_hist w) i = Some (encode v) → version_at (w_hist w) j = Some (encode v') → get_epoch v <= get_epoch v'.
Proof.
  intros Hok Hij Hi Hj. pose proof (version_at_count _ _ _ Hi) as Hi0. pose proof (version_at_count _ _ _ Hj) as Hj0.
  replace j with (i + Z.of_nat (Z.to_nat (j - i))) in Hj, Hj0 by lia. revert v' Hj Hj0. generalize (Z.to_nat (j - i)) as n. clear Hij j.
  induction n as [|n IH]; intros v' Hj Hj0.
  - replace (i + Z.of_nat 0) with i in Hj by lia. rewrite Hi in Hj. injection Hj as E. apply (f_equal decode) in E. rewrite !decode_encode in E. injection E as ->. lia.
  - assert (∃ v0, version_at (w_hist w) (i + Z.of_nat n) = Some (encode v0)) as [v0 Hv0].
    { unfold version_at. rewrite decide_True by lia. destruct (w_hist w !! Z.to_nat (i + Z.of_nat n - 1)) as [e|] eqn:E.
      - destruct (proj1 (Forall_lookup _ _) (ok_payloads _ _ _ _ Hok) _ _ E) as [v0 Ev0]. exists v0. cbn. by rewrite Ev0.
      - apply lookup_ge_None in E. lia. }
    transitivity (get_epoch v0); [apply IH; [done|lia]|]. apply (ok_chain suffix (epoch_le get_epoch) w (i + Z.of_nat n)); [done|done|].
    by replace (i + Z.of_nat n + 1) with (i + Z.of_nat (S n)) by lia.
Qed.

End guarantees.

(** ** An example: two writers and a collector *)

Module Example.

(** A value with an epoch. *)
Global Instance pair_codec : ObjectCodec (Z * Z) :=
  {| encode v := [v.1; v.2]; decode b := match b with [e; x] => Some (e, x) | _ => None end |}.
Global Instance pair_codec_laws : ObjectCodecLaws (Z * Z).
Proof. by intros [e x]. Qed.

Definition manifest_suffix : bytes := [109; 97; 110; 105; 102; 101; 115; 116].

Definition set_epoch (v : Z * Z) (e : Z) : Z * Z := (e, v.2).

Definition add (x : Z) (f : FenceableTransactionalObject (T:=Z * Z)) : option (option (DirtyObject (Z * Z))) :=
  let v := so_object (delegate f) in Some (Some (mkDirty (so_id (delegate f)) (v.1, v.2 + x))).

Definition create : client (Z * Z) unit := _ ← simple_init (0, 10); mret tt.

Definition clients : list (nat * client (Z * Z) unit) :=
  [(1%nat, create); (1%nat, session [] fst set_epoch 9 [add 1; add 2]); (2%nat, session [] fst set_epoch 9 [add 100]);
   (3%nat, collect_versions (λ _, [2]) (λ _, true) 100 10 false)].

Definition empty : mem_store := mkMem ∅ None.

(** The first writer opens and updates; the second one fences it off; then the collector runs. *)
Definition schedule : list nat :=
  replicate 20 0%nat ++ replicate 20 1%nat ++ replicate 60 2%nat ++ replicate 60 1%nat ++ replicate 90 3%nat.

Definition run : pool := exec manifest_suffix 9 (start_pool empty clients) schedule.

Lemma clients_honest : Forall (λ c, honest (epoch_le fst) c.2) clients.
Proof.
  assert (∀ x, epoch_kept fst (add x)) as Hadd by (intros x f d [= <-]; done).
  unfold clients. repeat apply Forall_cons_2; cbn [snd].
  - apply behaves_bind. eapply behaves_conseq; [apply simple_init_behaves|]. by intros [] ? _ _.
  - apply session_honest; [done|]. repeat constructor; apply Hadd.
  - apply session_honest; [done|]. repeat constructor; apply Hadd.
  - apply collect_versions_behaves.
  - apply Forall_nil_2.
Qed.

Lemma starts_empty : empty_directory manifest_suffix (os_contents empty).
Proof. split; [done|]. intros name [x Hx]. cbn in Hx. by rewrite fmap_empty, lookup_empty in Hx. Qed.
End Example.


