(* ===== verification/TxnLiveness.v ===== *)
(** * Transactional objects make progress

    An update that runs alone succeeds: from every state that the processes can reach, however stale
    the caches and whatever files abandoned writes have left behind, if one client takes all steps
    from now on and the store answers its requests, then its read-modify-write loop commits after at
    most one retry. *)

From S2P Require Export TxnClients.

Local Open Scope Z_scope.

(** The store has answered: no request failed. *)
Definition answered {X} (e : event X) : X → Prop :=
  match e in event X return X → Prop with
  | Request r =>
      match r in request X return X → Prop with
      | Get _ _ => λ x, x ≠ GetFailed
      | Put _ _ _ => λ x, x ≠ PutFailed
      | ListNext _ => λ x, x ≠ None
      | Delete _ => λ x, x = true
      end
  | Locally _ => λ _, True
  end.

(** A store that can always answer. *)
Class AvailableStore `{ObjectStore} : Prop :=
  os_available : ∀ X (r : request X) s, ∃ x s', os_step r s x s' ∧ answered (Request r) x.

(** [P] holds after finitely many steps, whatever steps are taken, and until then there is a step. *)
Inductive inevitably {S : Type} (step : S → S → Prop) (P : S → Prop) (s : S) : Prop :=
| inevitably_now : P s → inevitably step P s
| inevitably_later s' : step s s' → (∀ s', step s s' → inevitably step P s') → inevitably step P s.

Lemma inevitably_weaken {S : Type} (step : S → S → Prop) (P Q : S → Prop) s :
  (∀ s, P s → Q s) → inevitably step P s → inevitably step Q s.
Proof. intros HPQ. induction 1 as [s HP|s s' Hs _ IH]; [by apply inevitably_now, HPQ|]. by apply (inevitably_later _ _ _ s'). Qed.

Section solo_calls.
  Context (suffix : bytes) (Hsuffix : 46 ∉ suffix) {T : Type} {CO : ObjectCodec T} {CL : ObjectCodecLaws T}
    {VA : Validators} {OS : ObjectStore} {OL : ObjectStoreLaws} (legal : list (tag * bytes) → tag → bytes → Prop).
  Context (pid : nat) (t : tag).

Local Notation ok := (ok suffix T legal).
Local Notation wp := (wp suffix T legal pid t).
Local Notation does := (does suffix pid t).

(** [p] runs alone and is answered. *)
Fixpoint alone {A} (p : io A) (Q : outcome TransactionalObjectError A → world → Prop) (w : world) : Prop :=
  match p with
  | Done r => Q r w
  | Await e k => ∀ x w', does e w x w' → answered e x → ok w' → alone (k x) Q w'
  end.

Lemma alone_conseq {A} (p : io A) P Q w : alone p P w → (∀ r w', P r w' → Q r w') → alone p Q w.
Proof.
  intros Hp HPQ. revert w Hp. induction p as [r|X e k IH]; intros w Hp; [by apply HPQ|]. intros x w' Hd Ha Hok. apply IH. by apply Hp.
Qed.

Lemma alone_bind {A B} (p : io A) (k : A → io B) Q w :
  alone p (λ r w', match r with Ok a => alone (k a) Q w' | Err e => Q (Err e) w' | Panic => Q Panic w' | OutOfFuel => Q OutOfFuel w' end) w →
  alone (p ≫= k) Q w.
Proof. revert w. induction p as [[]|X e f IH]; intros w Hp; try done. intros x w' Hd Ha Hok. apply IH. by apply Hp. Qed.

Lemma alone_catch {A B} (p : io A) (k : outcome TransactionalObjectError A → io B) Q w :
  alone p (λ r w', match r with Panic => Q Panic w' | OutOfFuel => Q OutOfFuel w' | r => alone (k r) Q w' end) w →
  alone (catch p k) Q w.
Proof. revert w. induction p as [[]|X e f IH]; intros w Hp; try done. intros x w' Hd Ha Hok. apply IH. by apply Hp. Qed.

Lemma alone_tail {A} (p : io A) Q w : alone (p ≫= mret) Q w → alone p Q w.
Proof. revert w. induction p as [[]|X e f IH]; intros w Hp; try done. intros x w' Hd Ha Hok. apply IH. by apply Hp. Qed.

(** What holds among others holds alone. *)
Lemma alone_wp {A} (p : io A) P Q w :
  ok w → wp p P w → alone p Q w → alone p (λ r w', Q r w' ∧ P r w' ∧ ok w') w.
Proof.
  revert w. induction p as [r|X e k IH]; intros w Hok Hp Hq; [done|]. intros x w' Hd Ha Hok'. apply IH; [done| |by apply Hq].
  by apply (Hp w Hok ltac:(done)).
Qed.

(** The files and the history are as before. *)
Definition same (w w' : world) : Prop := ok w' ∧ contents w' = contents w ∧ w_hist w' = w_hist w.

Lemma same_trans a b c : same a b → same b c → same a c.
Proof. intros (_ & H1 & H2) (? & H3 & H4). split_and!; [done|congruence..]. Qed.

Lemma same_bound w w' : same w w' → bound w' = bound w.
Proof. intros (_ & H & _). by apply bound_contents. Qed.
Lemma same_count w w' : same w w' → count w' = count w.
Proof. intros (_ & _ & H). unfold count. by rewrite H. Qed.

Lemma alone_locally {X} (f : local → X * local) {A} (k : X → io A) Q w :
  (∀ w', same w w' → w_local w' pid = (f (w_local w pid)).2 → alone (k (f (w_local w pid)).1) Q w') →
  alone (locally f ≫= k) Q w.
Proof.
  intros Hk x w' [-> ->] _ Hok. cbn. apply Hk; [done|]. cbn. by rewrite decide_True.
Qed.

Lemma alone_look {X} (f : local → X) {A} (k : X → io A) Q w :
  (∀ w', same w w' → w_local w' pid = w_local w pid → alone (k (f (w_local w pid))) Q w') →
  alone (locally (λ l, (f l, l)) ≫= k) Q w.
Proof. intros Hk. by apply alone_locally. Qed.

Lemma alone_read {X} (r : request X) {A} (k : X → io A) Q w :
  (∀ s x s', serves r s x s' → s' = s) →
  (∀ x w', same w w' → w_local w' = w_local w → serves r (contents w) x (contents w) → answered (Request r) x → alone (k x) Q w') →
  alone (request_ r ≫= k) Q w.
Proof.
  intros Hr Hk x w' (s' & Hs & ->) Ha Hok. apply OL in Hs. pose proof (Hr _ _ _ Hs) as E. fold (contents w) in *.
  apply Hk; [|done|by rewrite E in Hs|done]. split; [done|]. split; [exact E|]. cbn. rewrite E. apply record_same.
Qed.

(** ** Checking *)

Lemma update_cache_alone b v w :
  match boundary_cache (w_local w pid) with Some (c, _) => c <= b | None => True end →
  alone (update_cache b v) (λ r w', r = Ok (b, Some v) ∧ same w w' ∧ latest (w_local w' pid) = latest (w_local w pid)) w.
Proof.
  intros Hb. apply alone_tail, alone_locally. intros w' Hs Hl.
  destruct (boundary_cache (w_local w pid)) as [[c v']|] eqn:E; cbn in *; [|by rewrite Hl].
  rewrite decide_False in Hl |- * by lia. by rewrite Hl.
Qed.

Lemma read_boundary_alone w : ok w →
  alone read_boundary (λ r w', ∃ o, r = Ok (bound w, o) ∧ same w w' ∧ latest (w_local w' pid) = latest (w_local w pid)) w.
Proof.
  intros Hok. unfold read_boundary. apply alone_look. intros w1 Hs1 Hl1. apply alone_read; [by intros s x s' [? _]|].
  intros x w2 Hs2 Hl2 [_ Hx] Ha. pose proof (same_trans _ _ _ Hs1 Hs2) as Hs. destruct Hs1 as (Hok1 & Hc1 & Hh1). rewrite Hc1 in Hx.
  destruct x as [payload v| | |]; cbn in Hx, Ha; [| | |done].
  - destruct Hx as [Hx _]. destruct (boundary_payload _ _ _ w payload v Hok Hx) as (-> & _).
    eapply alone_conseq; [apply update_cache_alone|].
    + rewrite Hl2, Hl1. destruct (boundary_cache (w_local w pid)) as [[c vc]|] eqn:E; [|done]. destruct (ok_cache _ _ _ _ Hok _ _ _ E). lia.
    + intros r w3 (-> & Hs3 & Hl3). exists (Some v). split; [done|]. split; [by eapply same_trans|]. by rewrite Hl3, Hl2, Hl1.
  - exists None. unfold bound, boundary_of. rewrite Hx. split; [done|]. split; [done|]. by rewrite Hl2, Hl1.
  - destruct Hx as (tg & payload & v & Hinm & Hx & Htg & Hd). apply bind_Some in Hinm as ([c vc] & Hcache & Htc). cbn in Htc.
    destruct (ok_cache _ _ _ _ Hok _ _ _ Hcache) as [Hcb Hdc]. destruct (boundary_payload _ _ _ w payload v Hok Hx) as (Hp & _).
    assert (payload = to_string c) as ->. { eapply same_object_payload; [|exact Hd|exact Hdc]. left. rewrite Htg, Htc. eauto. }
    rewrite parse_to_string in Hp; [|pose proof (ok_count _ _ _ _ Hok); destruct (ok_bound _ _ _ _ Hok); unfold u64_max in *; lia].
    injection Hp as <-. apply alone_look. intros w3 Hs3 Hl3. rewrite Hl2, Hl1, Hcache. exists (Some vc). split; [done|].
    split; [by eapply same_trans|]. by rewrite Hl3, Hl2, Hl1.
Qed.

Definition check_result (id : Z) (w : world) (r : outcome TransactionalObjectError unit) (w' : world) : Prop :=
  same w w' ∧
  if decide (id <= bound w)
  then r = Err ObjectVersionExists ∧ (latest (w_local w pid) = None ∨ (∃ b, latest (w_local w pid) = Some (id, b)) → latest (w_local w' pid) = None)
  else r = Ok tt ∧ latest (w_local w' pid) = latest (w_local w pid).

Lemma boundary_check_alone id w : ok w →
  alone (boundary_check id) (λ r w', same w w' ∧ latest (w_local w' pid) = latest (w_local w pid) ∧
    r = if decide (id <= bound w) then Err ObjectVersionExists else Ok tt) w.
Proof.
  intros Hok. unfold boundary_check. apply alone_look. intros w1 Hs1 Hl1. destruct Hs1 as (Hok1 & Hc1 & Hh1).
  assert (alone ('(boundary, _) ← read_boundary; check_boundary id boundary) (λ r w', same w w' ∧ latest (w_local w' pid) = latest (w_local w pid) ∧
    r = if decide (id <= bound w) then Err ObjectVersionExists else Ok tt) w1) as Hread.
  { apply alone_bind. eapply alone_conseq; [by apply read_boundary_alone|]. intros r w2 (o & -> & Hs2 & Hl2).
    rewrite (bound_contents _ _ Hc1). unfold check_boundary.
    assert (same w w2) by (by eapply same_trans). case_decide; (split; [done|]; split; [congruence|done]). }
  destruct (boundary_cache (w_local w pid)) as [[c v]|] eqn:E; [|exact Hread].
  assert (check_boundary id c = if decide (id <= c) then throw ObjectVersionExists else mret tt) as -> by done.
  destruct (decide (id <= c)) as [Hd|Hd]; [|exact Hread]. cbn. destruct (ok_cache _ _ _ _ Hok _ _ _ E) as [? _].
  rewrite decide_True by lia. rewrite Hl1. done.
Qed.

Lemma check_alone id w : ok w → alone (check id) (check_result id w) w.
Proof.
  intros Hok. unfold check. apply alone_catch. eapply alone_conseq; [by apply boundary_check_alone|]. intros r w1 (Hs1 & Hl1 & ->).
  unfold check_result. case_decide; [|exact (conj Hs1 (conj eq_refl Hl1))].
  apply alone_locally. intros w2 Hs2 Hl2. split; [by eapply same_trans|]. split; [done|]. rewrite Hl2, Hl1.
  intros [E|[b E]]; rewrite E; cbn; [by rewrite Hl1|by rewrite decide_True].
Qed.

(** ** Reading *)

Lemma read_bytes_alone id {A} (k : option bytes → io A) Q w :
  (∀ w', same w w' → w_local w' = w_local w → alone (k (fst <$> files (contents w) !! path_for suffix id)) Q w') →
  alone (try_read_bytes_unchecked suffix id ≫= k) Q w.
Proof.
  intros Hk. unfold try_read_bytes_unchecked. apply alone_bind, alone_read; [by intros s x s' [? _]|].
  intros x w' Hs Hl [_ Hx] Ha. destruct x as [payload v| | |]; cbn in Hx, Ha; [| | |done].
  - destruct Hx as [Hx _]. specialize (Hk w' Hs Hl). by rewrite Hx in Hk.
  - specialize (Hk w' Hs Hl). by rewrite Hx in Hk.
  - by destruct Hx as (? & ? & ? & ? & _).
Qed.

Lemma holds_same w w' id b : same w w' → holds_version T w id b → holds_version T w' id b.
Proof. intros Hs (H1 & H2 & H3). split_and!; [done|done|]. rewrite (same_bound _ _ Hs). destruct Hs as (_ & _ & ->). done. Qed.

Lemma holds_le w id b : ok w → 0 < count w → holds_version T w id b → 0 <= id <= count w.
Proof.
  intros Hok Hn (H0 & _ & [Hb|Hv]); [destruct (ok_bound _ _ _ _ Hok); lia|]. apply version_at_count in Hv. unfold count. lia.
Qed.

(** Reads end with an answer and change neither files nor history. *)
Definition reads {A} (w : world) (r : outcome TransactionalObjectError A) (w' : world) : Prop := same w w' ∧ ∃ a, r = Ok a.

Lemma decode_alone {A} b (k : T → io A) Q w : (∃ v : T, b = encode v) → (∀ v, decode b = Some v → alone (k v) Q w) → alone (decode_value b ≫= k) Q w.
Proof. intros [v ->] Hk. unfold decode_value. rewrite CL. apply Hk. by rewrite CL. Qed.

(** Listing ends once all files have been seen. *)
Definition unseen (w : world) (after : option bytes) : nat := length (filter (follows after) (elements (dom (files (contents w))))).

Lemma unseen_step w after name : is_Some (files (contents w) !! name) → follows after name → (unseen w (Some name) < unseen w after)%nat.
Proof.
  intros Hpres Hfol. unfold unseen. set (l := elements _).
  assert (name ∈ filter (follows after) l) as Hin by (apply list_elem_of_filter; split; [done|]; by apply elem_of_elements, elem_of_dom).
  assert (filter (follows (Some name)) l = filter (follows (Some name)) (filter (follows after) l)) as ->.
  { rewrite list_filter_filter. apply list_filter_iff. intros n. split; [|by intros []]. intros Hn. split; [done|].
    eapply follows_trans; [exact Hfol|]. by apply ord_lt_le. }
  apply (length_filter_lt _ _ name); [done|]. apply ord_lt_irrefl.
Qed.

Lemma list_items_alone fuel from to after items w : ok w → (unseen w after < fuel)%nat →
  alone (list_items suffix fuel from to after items) (λ r w', reads w r w' ∧ w_local w' = w_local w) w.
Proof.
  revert after items w. induction fuel as [|fuel IH]; intros after items w Hok Hf; [lia|]. cbn [list_items].
  apply alone_read; [by intros s x s' [? _]|]. intros x w1 Hs1 Hl1 [_ Hx] Ha. destruct x as [[[name lm]|]|]; [| |done].
  - destruct Hx as (Hpres & Hfol & _). destruct Hs1 as (Hok1 & Hc1 & Hh1).
    eapply alone_conseq; [apply IH; [done|]|].
    + pose proof (unseen_step w after name Hpres Hfol). unfold unseen in *. rewrite Hc1. lia.
    + intros r w2 [[Hs2 Hr] Hl2]. split; [split; [by eapply same_trans|done]|congruence].
  - split; [split; [done|by eexists]|done].
Qed.

Definition file_count (w : world) : nat := size (files (contents w)).

Lemma unseen_all w : unseen w None = file_count w.
Proof.
  unfold unseen, file_count. rewrite <-size_dom. unfold size, set_size. cbn. f_equal. apply list_filter_all. by apply Forall_forall.
Qed.

(** A listing finds the latest version. *)
Lemma list_versions_alone fuel w : ok w → 0 < count w → (file_count w < fuel)%nat →
  alone (list_versions suffix fuel Unbounded Unbounded)
    (λ r w', same w w' ∧ w_local w' = w_local w ∧ ∃ items lm, r = Ok items ∧ last items = Some (count w, lm)) w.
Proof.
  intros Hok Hn Hf. eapply alone_conseq.
  - apply (alone_wp _ (listed (count w) Unbounded Unbounded) (λ r w', (same w w' ∧ w_local w' = w_local w) ∧ ∃ items, r = Ok items));
      [done|by apply list_versions_spec|].
    unfold list_versions. apply alone_bind. eapply alone_conseq; [apply list_items_alone; [done|by rewrite unseen_all]|].
    intros r w' [[Hs [items ->]] Hl]. exact (conj (conj Hs Hl) (ex_intro _ _ eq_refl)).
  - intros r w' ([[Hs Hl] [items ->]] & Hr & Hok'). split; [done|]. split; [done|].
    destruct (last items) as [[id lm]|] eqn:E.
    + destruct (last_listed (count w) w' items id lm Hr E ltac:(lia)) as [Hid Hge].
      rewrite (same_count _ _ Hs) in Hid. rewrite (same_bound _ _ Hs) in Hge. exists items, lm. split; [done|].
      assert (id = count w) as -> by (destruct (ok_bound _ _ _ _ Hok); lia). done.
    + destruct Hr as (_ & _ & Hr). destruct (Hr eq_refl eq_refl Hn) as [Hne _]. by apply last_None in E.
Qed.

Lemma probe_alone probes id b w : ok w → 0 < count w < u64_max → latest (w_local w pid) = Some (id, b) →
  alone (probe suffix probes id b) (λ r w', same w w' ∧ ∃ o, r = Ok o ∧
    match o with Some (id', _) => ∃ b', latest (w_local w' pid) = Some (id', b') | None => True end) w.
Proof.
  revert id b w. induction probes as [|probes IH]; intros id b w Hok Hn Hl; cbn [probe]; [by split; [|eexists]|].
  pose proof (ok_latest _ _ _ _ Hok _ _ _ Hl) as Hv.
  pose proof (holds_le w id b Hok ltac:(lia) Hv) as Hid. unfold next. rewrite decide_True by lia.
  change (alone (o ← try_read_bytes_unchecked suffix (id + 1);
    match o with
    | Some next_bytes => _ ← maybe_cache_latest (id + 1) next_bytes; probe suffix probes (id + 1) next_bytes
    | None => v ← decode_value b; mret (Some (id, v))
    end) (λ r w', same w w' ∧ ∃ o, r = Ok o ∧
      match o with Some (id', _) => ∃ b', latest (w_local w' pid) = Some (id', b') | None => True end) w).
  apply read_bytes_alone. intros w1 Hs1 Hl1. pose proof (same_count _ _ Hs1) as Hc1.
  destruct (files (contents w) !! path_for suffix (id + 1)) as [[b' v']|] eqn:E; cbn [fmap option_fmap option_map fst].
  - apply alone_locally. intros w2 Hs2 Hl2. pose proof (same_trans _ _ _ Hs1 Hs2) as Hs.
    rewrite Hl1, Hl in Hl2. rewrite bool_decide_eq_true_2 in Hl2 by lia.
    eapply alone_conseq; [apply IH; [apply Hs|rewrite (same_count _ _ Hs); lia|by rewrite Hl2]|].
    intros r w3 [Hs3 Hr]. split; [by eapply same_trans|done].
  - apply decode_alone; [apply Hv|]. intros v Hd. split; [done|]. eexists. split; [done|]. exists b. by rewrite Hl1.
Qed.

Lemma read_listed_alone attempts fuel w : ok w → 0 < count w → (file_count w < fuel)%nat →
  alone (read_listed suffix (S attempts) fuel) (λ r w', same w w' ∧ ∃ v, r = Ok (Some (count w, v))) w.
Proof.
  intros Hok Hn Hf. cbn [read_listed]. apply alone_bind. eapply alone_conseq; [by apply list_versions_alone|].
  intros r w1 (Hs1 & Hl1 & items & lm & -> & Hlast). apply alone_look. intros w2 Hs2 Hl2. pose proof (same_trans _ _ _ Hs1 Hs2) as Hs.
  rewrite Hlast.
  assert (∀ b w', same w w' → (∃ v : T, b = encode v) →
    alone (v ← decode_value b; _ ← maybe_cache_latest (count w) b; mret (Some (count w, v)))
      (λ r w', same w w' ∧ ∃ v, r = Ok (Some (count w, v))) w') as Hfound.
  { intros b w' Hs' Hb. apply decode_alone; [done|]. intros v _. apply alone_locally. intros w3 Hs3 _. split; [by eapply same_trans|by exists v]. }
  assert (alone (b ← try_read_bytes_unchecked suffix (count w);
      match b with None => read_listed suffix attempts fuel
      | Some b => v ← decode_value b; _ ← maybe_cache_latest (count w) b; mret (Some (count w, v)) end)
      (λ r w', same w w' ∧ ∃ v, r = Ok (Some (count w, v))) w2) as Hget.
  { apply read_bytes_alone. intros w3 Hs3 _. pose proof (same_trans _ _ _ Hs Hs3) as Hs'. destruct Hs as (_ & -> & _).
    destruct (latest_present _ _ _ w Hok Hn) as [[b v] Hb]. rewrite Hb. apply Hfound; [done|].
    pose proof (ok_count _ _ _ _ Hok). by destruct (file_present _ _ _ Hsuffix w (count w) b v Hok ltac:(lia) Hb) as [(_ & ? & _) _]. }
  destruct (latest (w_local w1 pid)) as [[cid b]|] eqn:E; [|exact Hget]. destruct (decide (cid = count w)) as [->|]; [|exact Hget].
  apply Hfound; [done|]. by apply (ok_latest _ _ _ _ (proj1 Hs1)) in E as (_ & ? & _).
Qed.

Lemma read_unchecked_alone fuel w : ok w → 0 < count w < u64_max → (file_count w < fuel)%nat →
  alone (try_read_latest_unchecked suffix fuel)
    (λ r w', same w w' ∧ ∃ id v, r = Ok (Some (id, v)) ∧
      (id = count w ∨ (latest (w_local w pid) ≠ None ∧ ∃ b, latest (w_local w' pid) = Some (id, b)))) w.
Proof.
  intros Hok Hn Hf. unfold try_read_latest_unchecked. apply alone_look. intros w1 Hs1 Hl1.
  assert (∀ w', same w w' → alone (read_listed suffix fuel fuel) (λ r w', same w w' ∧ ∃ id v, r = Ok (Some (id, v)) ∧
    (id = count w ∨ (latest (w_local w pid) ≠ None ∧ ∃ b, latest (w_local w' pid) = Some (id, b)))) w') as Hlist.
  { intros w' Hs'. destruct fuel as [|fuel]; [lia|]. eapply alone_conseq; [apply read_listed_alone|].
    - apply Hs'.
    - rewrite (same_count _ _ Hs'). lia.
    - unfold file_count. by rewrite (proj1 (proj2 Hs')).
    - intros r w'' [Hs'' [v ->]]. split; [by eapply same_trans|]. exists (count w'), v. split; [done|]. left. apply (same_count _ _ Hs'). }
  destruct (latest (w_local w pid)) as [[id b]|] eqn:E; [|by apply Hlist].
  apply alone_bind. eapply alone_conseq; [apply (probe_alone MAX_PROBES id b)|].
  - apply Hs1.
  - by rewrite (same_count _ _ Hs1).
  - by rewrite Hl1.
  - intros r w2 (Hs2 & [[id' v]|] & -> & Ho); [|apply Hlist; by eapply same_trans].
    split; [by eapply same_trans|]. exists id', v. split; [done|]. right. split; [done|exact Ho].
Qed.

Lemma read_attempt_alone attempts fuel w (Q : outcome TransactionalObjectError (option (Z * T)) → world → Prop) :
  ok w → 0 < count w < u64_max → (file_count w < fuel)%nat →
  (∀ id v w', same w w' → Q (Ok (Some (id, v))) w') →
  (∀ w', latest (w_local w pid) ≠ None → same w w' → latest (w_local w' pid) = None → alone (read_latest suffix attempts fuel) Q w') →
  alone (read_latest suffix (S attempts) fuel) Q w.
Proof.
  intros Hok Hn Hf HQ Hretry. cbn [read_latest]. apply alone_bind. eapply alone_conseq; [by apply read_unchecked_alone|].
  intros r w1 (Hs1 & id & v & -> & Hid). apply alone_catch. eapply alone_conseq; [apply check_alone, Hs1|].
  intros r w2 [Hs2 Hr]. pose proof (same_trans _ _ _ Hs1 Hs2) as Hs. rewrite (same_bound _ _ Hs1) in Hr. case_decide as Hb.
  - destruct Hr as [-> Hl2]. destruct Hid as [->|[Hne [b Hl1]]]; [destruct (ok_bound _ _ _ _ Hok); lia|].
    apply Hretry; [done|done|]. apply Hl2. right. by exists b.
  - destruct Hr as [-> _]. by apply HQ.
Qed.

Lemma read_latest_alone attempts fuel w : ok w → 0 < count w < u64_max → (file_count w < fuel)%nat →
  alone (read_latest suffix (S (S attempts)) fuel)
    (λ r w', same w w' ∧ ∃ v, r = Ok (Some (count w, v)) ∧ version_at (w_hist w) (count w) = Some (encode v)) w.
Proof.
  intros Hok Hn Hf. eapply alone_conseq.
  - apply (alone_wp _ (read_fresh T (count w)) (λ r w', same w w' ∧ ∃ id v, r = Ok (Some (id, v)))); [done| |].
    + apply read_latest_spec; [done..|lia].
    + apply read_attempt_alone; [done..| |]; [intros id v w' Hs; split; [done|by eexists _, _]|].
      intros w1 _ Hs1 Hl1. apply read_attempt_alone.
      * apply Hs1.
      * by rewrite (same_count _ _ Hs1).
      * unfold file_count. by rewrite (proj1 (proj2 Hs1)).
      * intros id v w' Hs. split; [by eapply same_trans|by eexists _, _].
      * done.
  - intros r w' ([Hs (id & v & ->)] & [Hge Hv] & _). destruct Hs as (Hok' & Hc & Hh). rewrite Hh in Hv. apply version_at_count in Hv as Hle.
    assert (id = count w) as -> by (unfold count in *; lia). split; [done|]. by exists v.
Qed.

Lemma try_read_latest_alone fuel w : ok w → 0 < count w < u64_max → (file_count w < fuel)%nat → (1 < fuel)%nat →
  alone (try_read_latest suffix fuel)
    (λ r w', same w w' ∧ ∃ v, r = Ok (Some (count w, v)) ∧ version_at (w_hist w) (count w) = Some (encode v)) w.
Proof. intros Hok Hn Hf Hf2. unfold try_read_latest. destruct fuel as [|[|fuel]]; [lia|lia|]. by apply read_latest_alone. Qed.

(** ** Writing *)

Lemma write_alone id v w : ok w → 0 < id <= count w → count w < u64_max →
  alone (write suffix (Some id) v) (λ r w', ok w' ∧ (file_count w' <= S (file_count w))%nat ∧
    if decide (id = count w) then r = Ok (count w + 1) ∧ w_hist w' = w_hist w ++ [(t, encode v)]
    else r = Err ObjectVersionExists ∧ w_hist w' = w_hist w) w.
Proof.
  intros Hok Hid Hn. unfold write. apply alone_bind. unfold write_unchecked. apply alone_bind. unfold next. rewrite decide_True by lia.
  cbn [alone mret program_mret]. apply alone_bind.
  intros x w1 (s' & Hs & ->) Ha Hok1. apply OL in Hs. set (w1 := mkWorld _ _ _) in *.
  pose proof (commits_version suffix Hsuffix (id + 1) (encode v) (contents w) (contents w1) ltac:(lia)) as Hcm.
  assert (id = count w → files (contents w) !! path_for suffix (id + 1) = None) as Hnew.
  { intros E. destruct (files (contents w) !! path_for suffix (id + 1)) eqn:Ef; [|done].
    destruct (ok_names _ _ _ _ Hok (path_for suffix (id + 1)) (id + 1)) as [_ ?]; [by rewrite Ef|apply parse_path_for; [done|lia]|lia]. }
  destruct x as [uv| | |]; [| |by destruct Hs as (_ & ? & _)|done].
  - destruct Hs as (Habs & _ & Hc). change (os_contents s') with (contents w1) in Hc.
    assert (is_Some (files (contents w1) !! path_for suffix (id + 1))) as Hpr by (rewrite Hc; cbn; by rewrite lookup_partial_alter_eq).
    apply alone_locally. intros w2 Hs2 _. apply alone_bind. eapply alone_conseq; [apply check_alone, Hs2|].
    intros r w3 [Hs3 Hr]. pose proof (same_trans _ _ _ Hs2 Hs3) as Hs. rewrite (same_bound _ _ Hs2) in Hr.
    assert (bound w1 = bound w) as Eb by (unfold bound, boundary_of; by rewrite Hc). rewrite Eb in Hr. destruct Hs as (Hok3 & Hc3 & Hh3).
    assert (file_count w3 <= S (file_count w))%nat as Hfc.
    { unfold file_count. rewrite Hc3, Hc. cbn. change (partial_alter (λ _, Some (encode v, uv)) ?i ?m) with (<[i := (encode v, uv)]> m).
      rewrite map_size_insert. change (os_contents (w_store w)) with (contents w).
      destruct (files (contents w) !! path_for suffix (id + 1)); unfold Datatypes.id; lia. }
    cbn in Habs. case_decide as Hle.
    + destruct Hr as [-> _]. split; [done|]. split; [done|]. rewrite decide_False by (destruct (ok_bound _ _ _ _ Hok); lia).
      split; [done|]. rewrite Hh3. cbn. unfold record. change (os_contents s') with (contents w1). rewrite decide_False; [done|].
      rewrite Hcm. unfold bound in Hle. intros (_ & _ & ?). lia.
    + destruct Hr as [-> _]. destruct (file_absent _ _ _ w (id + 1) Hok Habs) as [?|Hlt]; [lia|].
      split; [done|]. split; [done|]. assert (id = count w) as -> by lia. rewrite decide_True by done.
      split; [done|]. rewrite Hh3. cbn. unfold record. change (os_contents s') with (contents w1). rewrite decide_True; [done|].
      rewrite Hcm. unfold bound in Hle. split_and!; [done|done|lia].
  - destruct Hs as (Hc & _ & Hpr). change (is_Some (files (contents w) !! path_for suffix (id + 1))) in Hpr. split; [done|]. split; [unfold file_count; change (contents w1) with (os_contents s'); rewrite Hc; fold (contents w); lia|].
    rewrite decide_False; [|intros E; rewrite (Hnew E) in Hpr; by destruct Hpr]. split; [done|].
    subst w1. cbn. unfold contents in *. rewrite Hc. apply record_same.
Qed.
End solo_calls.

(** ** Pools in which one thread runs *)

Section solo_pools.
  Context (suffix : bytes) (Hsuffix : 46 ∉ suffix) {T : Type} {CO : ObjectCodec T} {CL : ObjectCodecLaws T}
    {VA : Validators} {OS : ObjectStore} {OL : ObjectStoreLaws} (fuel : nat) (R : Z → T → T → Prop).

(** A step of thread [i]; its requests are answered and its calls are not abandoned. *)
Definition solo_step (i : nat) (p p' : pool (T:=T)) : Prop :=
  match p_threads p !! i with
  | Some (Idle pid (Invoke c k)) =>
      p' = mkPool (p_world p) (<[i := Busy pid c (i, p_calls p) (w_hist (p_world p)) (perform_call suffix fuel c) k]> (p_threads p))
             (p_log p) (S (p_calls p))
  | Some (Busy pid c t start (Await e f) k) =>
      ∃ x w', does suffix pid t e (p_world p) x w' ∧ answered e x ∧
        p' = mkPool w' (<[i := Busy pid c t start (f x) k]> (p_threads p)) (p_log p) (p_calls p)
  | Some (@Busy _ pid X c t start (Done r) k) =>
      p' = mkPool (p_world p) (<[i := Idle pid (k r)]> (p_threads p))
             (p_log p ++ [mkReturned X c t r start (w_hist (p_world p)) (bound (p_world p))]) (p_calls p)
  | _ => False
  end.

Lemma solo_step_step i p p' : solo_step i p p' → pool_step suffix fuel p p'.
Proof.
  destruct p as [w ths log n]. unfold solo_step. cbn [p_threads p_world p_log p_calls].
  destruct (ths !! i) as [[pid [r|X c k]|pid X c t start [r|Y e f] k]|] eqn:E; try done.
  - intros ->. by apply step_invoke.
  - intros ->. by apply step_return.
  - intros (x & w' & Hd & _ & ->). by eapply step_event.
Qed.

Context {AV : AvailableStore} (i pid : nat).
Local Notation pool_ok := (pool_ok suffix R).
Local Notation alone := (alone suffix (chained R) pid).

Lemma insert_lookup (ths : list (thread (T:=T))) th th' : ths !! i = Some th → <[i := th']> ths !! i = Some th'.
Proof. intros H. apply list_lookup_insert_eq. by eapply lookup_lt_Some. Qed.

Lemma busy_inevitable {X} (c : call T X) t start k Q P prog : ∀ p,
  pool_ok p → p_threads p !! i = Some (Busy pid c t start prog k) → alone t prog Q (p_world p) →
  (∀ p' r, pool_ok p' → p_threads p' !! i = Some (Idle pid (k r)) → Q r (p_world p') → inevitably (solo_step i) P p') →
  inevitably (solo_step i) P p.
Proof.
  induction prog as [r|Y e f IH]; intros p Hp Hi Ha HP.
  - assert (∀ p', solo_step i p p' ↔ p' = mkPool (p_world p) (<[i := Idle pid (k r)]> (p_threads p))
      (p_log p ++ [mkReturned X c t r start (w_hist (p_world p)) (bound (p_world p))]) (p_calls p)) as Hs by (intros p'; unfold solo_step; by rewrite Hi).
    apply (inevitably_later _ _ _ (mkPool (p_world p) (<[i := Idle pid (k r)]> (p_threads p))
      (p_log p ++ [mkReturned X c t r start (w_hist (p_world p)) (bound (p_world p))]) (p_calls p))); [by apply Hs|].
    intros p' Hp'. pose proof (pool_step_ok _ Hsuffix _ _ _ _ Hp (solo_step_step _ _ _ Hp')) as Hok'. apply Hs in Hp' as ->.
    apply (HP _ r); [done|by eapply insert_lookup|done].
  - assert (∃ x w', does suffix pid t e (p_world p) x w' ∧ answered e x) as (x & w' & Hd & Hans).
    { destruct e as [Y r|Y g]; [|by eexists _, _]. destruct (os_available Y r (w_store (p_world p))) as (x & s' & Hst & Hans).
      exists x. eexists. split; [by exists s'|done]. }
    apply (inevitably_later _ _ _ (mkPool w' (<[i := Busy pid c t start (f x) k]> (p_threads p)) (p_log p) (p_calls p))).
    + unfold solo_step. rewrite Hi. by exists x, w'.
    + intros p' Hp'. pose proof (pool_step_ok _ Hsuffix _ _ _ _ Hp (solo_step_step _ _ _ Hp')) as Hok'.
      unfold solo_step in Hp'. rewrite Hi in Hp'. destruct Hp' as (x' & w'' & Hd' & Hans' & ->).
      apply (IH x'); [done|by eapply insert_lookup| |done]. apply Ha; [done|done|apply (po_world _ _ _ Hok')].
Qed.

Lemma call_inevitable {X} (c : call T X) k Q P p :
  pool_ok p → p_threads p !! i = Some (Idle pid (Invoke c k)) →
  alone (i, p_calls p) (perform_call suffix fuel c) Q (p_world p) →
  (∀ p' r, pool_ok p' → p_threads p' !! i = Some (Idle pid (k r)) → Q r (p_world p') → inevitably (solo_step i) P p') →
  inevitably (solo_step i) P p.
Proof.
  intros Hp Hi Ha HP.
  assert (∀ p', solo_step i p p' ↔ p' = mkPool (p_world p)
    (<[i := Busy pid c (i, p_calls p) (w_hist (p_world p)) (perform_call suffix fuel c) k]> (p_threads p)) (p_log p) (S (p_calls p))) as Hs
    by (intros p'; unfold solo_step; by rewrite Hi).
  eapply inevitably_later; [by apply Hs|]. intros p' Hp'. pose proof (pool_step_ok _ Hsuffix _ _ _ _ Hp (solo_step_step _ _ _ Hp')) as Hok'.
  apply Hs in Hp' as ->. eapply busy_inevitable; [done|by eapply insert_lookup|exact Ha|exact HP].
Qed.

(** ** Updates *)

Context (invariants : list (T → T → bool)) (mutator : SimpleTransactionalObject T → option (option (DirtyObject T))) (new_value : SimpleTransactionalObject T → T).
Context (k : SimpleTransactionalObject T → client T unit).

(** The mutator always has an acceptable update of the object. *)
Definition updates : Prop :=
  ∀ s, mutator s = Some (Some (mkDirty (so_id s) (new_value s))) ∧ forallb (λ invariant, invariant (new_value s) (so_object s)) invariants = true.
Context (Hupdates : updates).

Local Notation update n s := (simple_maybe_apply_update invariants n mutator s ≫= k).

Lemma update_unfold n s : ∃ f, update (S n) s = Invoke (CallWrite (Some (so_id s)) (new_value s)) f ∧
  (∀ id, f (Ok id) = k (mkSimple id (new_value s))) ∧
  ∃ g, f (Err ObjectVersionExists) = Invoke CallReadLatest g ∧ ∀ id v, g (Ok (Some (id, v))) = update n (mkSimple id v).
Proof.
  destruct (Hupdates s) as [Hm Hi]. cbn [simple_maybe_apply_update]. rewrite Hm. unfold simple_update. cbn [dirty_id dirty_value].
  rewrite decide_True, Hi by done. eexists. split; [reflexivity|]. split; [reflexivity|]. eexists. split; reflexivity.
Qed.

Definition at_update (n : nat) (s : SimpleTransactionalObject T) (p : pool (T:=T)) : Prop :=
  pool_ok p ∧ p_threads p !! i = Some (Idle pid (update n s)) ∧ 0 < count (p_world p) < u64_max ∧ (file_count (p_world p) < fuel)%nat.

Definition updated (n : Z) (p : pool (T:=T)) : Prop :=
  ∃ s', p_threads p !! i = Some (Idle pid (k s')) ∧ so_id s' = n ∧ count (p_world p) = n ∧
    version_at (w_hist (p_world p)) n = Some (encode (so_object s')).

Lemma update_round n s p :
  at_update (S n) s p → (S (file_count (p_world p)) < fuel)%nat ∨ so_id s = count (p_world p) →
  (∀ p' s', so_id s ≠ count (p_world p) → at_update n s' p' → so_id s' = count (p_world p') → count (p_world p') = count (p_world p) →
     inevitably (solo_step i) (updated (count (p_world p) + 1)) p') →
  inevitably (solo_step i) (updated (count (p_world p) + 1)) p.
Proof.
  intros (Hok & Hi & Hn & Hf) Hspace Hnext. destruct (update_unfold n s) as (f & E & Hdone & g & Hretry & Hagain).
  rewrite E in Hi. pose proof (po_world _ _ _ Hok) as Hw.
  assert (0 < so_id s <= count (p_world p)) as Hid.
  { destruct (po_threads _ _ _ Hok _ _ Hi) as (K & (Hv & _) & (v & Hkv & _) & _). apply Hv, version_at_count in Hkv. done. }
  eapply call_inevitable; [done|exact Hi|apply write_alone; [done..|lia]|]. cbn beta. intros p1 r Hok1 Hi1 (_ & Hfc & Hr).
  case_decide as Hcur; destruct Hr as [-> Hh].
  - apply inevitably_now. rewrite Hdone in Hi1. eexists. split; [exact Hi1|]. cbn [so_id so_object]. unfold count. rewrite Hh.
    split; [done|]. split; [rewrite length_app; cbn; lia|apply version_at_last].
  - destruct Hspace as [Hspace|?]; [|done]. rewrite Hretry in Hi1. assert (count (p_world p1) = count (p_world p)) as Hc by (unfold count; by rewrite Hh).
    eapply call_inevitable; [exact Hok1|exact Hi1|apply try_read_latest_alone; [done|done|done|apply (po_world _ _ _ Hok1)|lia|lia|lia]|]. cbn beta.
    intros p2 r Hok2 Hi2 (Hs & v & -> & _). rewrite Hagain in Hi2. pose proof (same_count _ _ _ _ Hs) as Hc2.
    apply (Hnext p2 (mkSimple (count (p_world p1)) v)); [done| |by rewrite Hc2|lia]. split; [done|]. split; [exact Hi2|]. split; [lia|].
    unfold file_count in *. rewrite (proj1 (proj2 Hs)). lia.
Qed.
End solo_pools.


Global Instance mem_available : AvailableStore.
Proof.
  intros X r m. exists (mem_serve r m).1, (mem_serve r m).2. split; [cbn; by destruct (mem_serve r m)|].
  destruct r as [loc tag|loc payload mode|after|loc]; cbn; [|destruct mode| |done].
  - destruct (mem_at loc m); [by case_decide|done].
  - by destruct (mem_at loc m).
  - destruct (mem_at loc m); [by case_decide|done].
  - done.
Qed.

(** ** An example: a stale view *)

Module StaleExample.
Import Example.

Definition increment (s : SimpleTransactionalObject (Z * Z)) : Z * Z := ((so_object s).1, (so_object s).2 + 1).
Definition mutator (s : SimpleTransactionalObject (Z * Z)) : option (option (DirtyObject (Z * Z))) :=
  Some (Some (mkDirty (so_id s) (increment s))).
Definition finish (s : SimpleTransactionalObject (Z * Z)) : client (Z * Z) unit := mret tt.

Definition counter : client (Z * Z) unit :=
  s ← load; simple_maybe_apply_update [] 2 mutator s ≫= finish.

Definition clients : list (nat * client (Z * Z) unit) := [(1%nat, create); (1%nat, counter); (2%nat, counter)].

(** The second client has read the first version; then the third one commits an update. *)
Definition run : pool := exec manifest_suffix 9 (start_pool Example.empty clients) (replicate 20 0%nat ++ replicate 7 1%nat ++ replicate 40 2%nat).

Lemma counters_honest : Forall (λ c, honest (epoch_le fst) c.2) clients.
Proof.
  assert (honest (epoch_le fst) counter) as Hc.
  { apply behaves_bind. eapply behaves_conseq; [apply load_behaves|]. intros [s|e| |] K _ Hs; try done.
    apply behaves_bind. eapply behaves_conseq; [apply simple_maybe_apply_update_behaves; [|exact Hs]|by intros [] ? _ _].
    intros s' d [= <-] _. unfold epoch_le. cbn. lia. }
  unfold clients. repeat apply Forall_cons_2; cbn [snd]; [|exact Hc|exact Hc|apply Forall_nil_2].
  apply behaves_bind. eapply behaves_conseq; [apply simple_init_behaves|]. by intros [] ? _ _.
Qed.
End StaleExample.

