(* ===== verification/SstFilter.v ===== *)
(** * SST filters ([filter_policy.rs], [filter.rs], [prefix_extractor.rs])

    The queries a read puts to the filters of an SST, what a filter policy promises,
    and the Bloom filter, the policy the database uses by default: its builder, its
    encoding, its probe sequence and its answer to each kind of query.  The hash is the
    [siphasher] crate's and stays a parameter; the [f32] arithmetic that picks the
    number of probes is that of [SpecFloat] at the format of [f32]. *)

From Stdlib Require Floats.SpecFloat.
From S2P Require Export RowCodec Segments.

(** ** Prefix extractors *)

(** [PrefixTarget] *)
Inductive PrefixTarget := PointTarget (k : bytes) | ScanTarget (p : bytes).

(** The bytes inside a target. *)
Definition target_bytes (t : PrefixTarget) : bytes := match t with PointTarget b | ScanTarget b => b end.

(** [PrefixExtractor] *)
Record PrefixExtractor := mkExtractor {
  extractor_name : bytes;
  prefix_len : PrefixTarget → option nat;
}.

(** The two invariants an extractor documents, and the bound on its result. *)
Record ExtractorLaws (x : PrefixExtractor) : Prop := {
  extract_fits t n : prefix_len x t = Some n → n ≤ length (target_bytes t);
  extract_scan p n q :
    prefix_len x (ScanTarget p) = Some n → p `prefix_of` q → prefix_len x (PointTarget q) = Some n;
}.

(** ** Queries *)

(** [FilterTarget], [FilterContext], [FilterQuery] *)
Inductive FilterTarget :=
| FilterPoint (k : bytes)
| FilterPrefix (p : bytes)
| FilterRange (lower upper : Bound bytes).

Inductive FilterContext := ContextInline (b : bytes) | ContextBytes (b : bytes).

Record FilterQuery := mkQuery {
  query_target : FilterTarget;
  query_context : option FilterContext;
}.

(** [FilterTarget::as_prefix_target] *)
Definition as_prefix_target (t : FilterTarget) : option PrefixTarget :=
  match t with
  | FilterPoint k => Some (PointTarget k)
  | FilterPrefix p => Some (ScanTarget p)
  | FilterRange _ _ => None
  end.

(** [FilterQuery::point], [FilterQuery::prefix], [FilterQuery::range], [FilterQuery::with_context] *)
Definition query_point (k : bytes) : FilterQuery := mkQuery (FilterPoint k) None.
Definition query_prefix (p : bytes) : FilterQuery := mkQuery (FilterPrefix p) None.
Definition query_range (lower upper : Bound bytes) : FilterQuery := mkQuery (FilterRange lower upper) None.
Definition with_context (q : FilterQuery) (c : option FilterContext) : FilterQuery := mkQuery (query_target q) c.

(** What the query asks for: the keys a read it stands for can return. *)
Definition target_admits (t : FilterTarget) (k : bytes) : Prop :=
  match t with
  | FilterPoint q => k = q
  | FilterPrefix p => p `prefix_of` k
  | FilterRange lo hi => start_admits (mkStart lo) k = true ∧ end_admits (mkEnd hi) k = true
  end.

(** ** Policies

    [FilterPolicy], [FilterBuilder] and [Filter] are traits behind trait objects; [B]
    and [F] are the types of the builders and of the filters in use. *)
Record FilterPolicy (B F : Type) := mkPolicy {
  policy_name : bytes;
  policy_builder : B;
  policy_decode : bytes → result F;
  policy_estimate_size : nat → result nat;
  supports_range_queries : bool;
  supports_prefix_queries : bool;
}.
Arguments mkPolicy {B F}.
Arguments policy_name {B F}.
Arguments policy_builder {B F}.
Arguments policy_decode {B F}.
Arguments policy_estimate_size {B F}.
Arguments supports_range_queries {B F}.
Arguments supports_prefix_queries {B F}.

Class FilterTraits (B F : Type) := {
  add_entry : B → RowEntry → result B;
  build_filter : B → result F;
  might_match : F → FilterQuery → result bool;
  encode_filter : F → bytes;
}.

(** [for entry in entries { fb.add_entry(entry) }] *)
Fixpoint add_entries {B F} `{FilterTraits B F} (b : B) (es : list RowEntry) : result B :=
  match es with
  | [] => mret b
  | e :: es => b ← add_entry b e; add_entries b es
  end.

(** What [Filter::might_match] documents, for a filter that went through an SST: the rows
    [es] are accepted, and once encoded and decoded the filter never denies a row of [es]
    (and encodes to the same bytes again). *)
Definition policy_sound {B F} `{FilterTraits B F} (p : FilterPolicy B F) (es : list RowEntry) : Prop :=
  ∃ b f f', add_entries (policy_builder p) es = Ok b ∧ build_filter b = Ok f ∧
    policy_decode p (encode_filter f) = Ok f' ∧ encode_filter f' = encode_filter f ∧
    ∀ q, ∃ ans, might_match f' q = Ok ans ∧
      (∀ e, e ∈ es → target_admits (query_target q) (key e) → ans = true).

(** ** The Bloom filter *)

Module Bloom.

Section bloom.
  (** [filter_hash]: SipHash 1-3 of the key. *)
  Context (filter_hash : bytes → Z).

Record BloomFilterBuilder := mkBuilder {
  bits_per_key : Z;
  whole_key_filtering : bool;
  prefix_extractor : option PrefixExtractor;
  key_hashes : list Z;
  last_prefix : option bytes;
}.

Record BloomFilter := mkFilter {
  num_probes : Z;
  f_whole_key_filtering : bool;
  f_prefix_extractor : option PrefixExtractor;
  buffer : bytes;
}.

(** [BloomFilterBuilder::new] *)
Definition builder_new (bits_per_key : Z) (whole_key_filtering : bool)
    (prefix_extractor : option PrefixExtractor) : BloomFilterBuilder :=
  mkBuilder bits_per_key whole_key_filtering prefix_extractor [] None.

Definition with_hashes (b : BloomFilterBuilder) (hs : list Z) (last : option bytes) : BloomFilterBuilder :=
  mkBuilder (bits_per_key b) (whole_key_filtering b) (prefix_extractor b) hs last.

(** The extractor's half of [BloomFilterBuilder::add_key]. *)
Definition add_key_prefix (b : BloomFilterBuilder) (k : bytes) : result BloomFilterBuilder :=
  match prefix_extractor b with
  | None => mret b
  | Some x =>
      match prefix_len x (PointTarget k) with
      | None => mret b
      | Some len =>
          _ ← rust_assert (bool_decide (len ≤ length k));
          prefix ← slice_to len k;
          if decide (last_prefix b = Some prefix) then mret b
          else mret (with_hashes b (key_hashes b ++ [filter_hash prefix]) (Some prefix))
      end
  end.

(** [BloomFilterBuilder::add_key] *)
Definition add_key (b : BloomFilterBuilder) (k : bytes) : result BloomFilterBuilder :=
  b ← add_key_prefix b k;
  mret (if whole_key_filtering b then with_hashes b (key_hashes b ++ [filter_hash k]) (last_prefix b) else b).

(** [BloomFilterBuilder::filter_size_bytes]: the product is 32 bits wide. *)
Definition filter_size_bytes (num_keys bits_per_key : Z) : nat :=
  let filter_bits := wrap 32 (num_keys * bits_per_key) in
  Z.to_nat ((filter_bits + 7) / 8).

(** [f32] values: [bits as f32], the literal [0.69] and the product, then [as u16],
    which truncates and saturates. *)
Definition f32_of_u32 (z : Z) : SpecFloat.spec_float := SpecFloat.binary_normalize 24 128 z 0 false.
Definition f32_069 : SpecFloat.spec_float := SpecFloat.S754_finite false 11576279 (-24).
Definition f32_as_u16 (f : SpecFloat.spec_float) : Z :=
  match f with
  | SpecFloat.S754_finite false m e => Z.min u16_max (Z.shiftl (Z.pos m) e)
  | SpecFloat.S754_infinity false => u16_max
  | _ => 0
  end.

(** [optimal_num_probes] *)
Definition optimal_num_probes (bits_per_key : Z) : Z :=
  f32_as_u16 (SpecFloat.SFmul 24 128 (f32_of_u32 bits_per_key) f32_069).

(** The closure of [probes_for_key], run for [i, i + 1, ..] *)
Fixpoint probe_loop (n : nat) (i h delta filter_bits : Z) : list Z :=
  match n with
  | O => []
  | S n =>
      let delta := ((delta + i) mod filter_bits)%Z in
      wrap 32 h :: probe_loop n (i + 1) ((h + delta) mod filter_bits) delta filter_bits
  end.

(** [probes_for_key]: the two remainders are taken before the iterator is returned. *)
Definition probes_for_key (key_hash num_probes filter_bits : Z) : result (list Z) :=
  if (filter_bits =? 0)%Z then Panic
  else
    let h := (Z.shiftr (wrap 64 (Z.shiftl key_hash 32)) 32 mod filter_bits)%Z in
    let delta := (Z.shiftr key_hash 32 mod filter_bits)%Z in
    mret (probe_loop (Z.to_nat num_probes) 0 h delta filter_bits).

(** [check_bit], [set_bit] *)
Definition check_bit (bit : nat) (buf : bytes) : result bool :=
  b ← index buf (bit / 8);
  mret (negb (Z.land b (Z.shiftl 1 (Z.of_nat (bit mod 8))) =? 0)%Z).
Definition set_bit (bit : nat) (buf : bytes) : result bytes :=
  b ← index buf (bit / 8);
  mret (<[bit / 8 := Z.lor b (Z.shiftl 1 (Z.of_nat (bit mod 8)))]> buf).

Fixpoint set_bits (probes : list Z) (buf : bytes) : result bytes :=
  match probes with
  | [] => mret buf
  | p :: probes => buf ← set_bit (Z.to_nat p) buf; set_bits probes buf
  end.

(** The [for k in key_hashes] loop of [build_filter]. *)
Fixpoint set_hashes (hashes : list Z) (num_probes filter_bits : Z) (buf : bytes) : result bytes :=
  match hashes with
  | [] => mret buf
  | k :: hashes =>
      probes ← probes_for_key k num_probes filter_bits;
      buf ← set_bits probes buf;
      set_hashes hashes num_probes filter_bits buf
  end.

(** [BloomFilterBuilder::build_filter] *)
Definition build (b : BloomFilterBuilder) : result BloomFilter :=
  let num_probes := optimal_num_probes (bits_per_key b) in
  let filter_bytes := filter_size_bytes (wrap 32 (Z.of_nat (length (key_hashes b)))) (bits_per_key b) in
  let filter_bits := wrap 32 (Z.of_nat (filter_bytes * 8)) in
  buffer ← set_hashes (key_hashes b) num_probes filter_bits (replicate filter_bytes 0%Z);
  mret (mkFilter num_probes (whole_key_filtering b) (prefix_extractor b) buffer).

(** [BloomFilter::decode] *)
Definition decode (whole_key_filtering : bool) (prefix_extractor : option PrefixExtractor) (buf : bytes)
    : result BloomFilter :=
  '(num_probes, buf) ← get_be 2 buf;
  mret (mkFilter num_probes whole_key_filtering prefix_extractor buf).

(** [BloomFilter::encode] *)
Definition encode (f : BloomFilter) : bytes := put_be 2 (num_probes f) ++ buffer f.

(** [BloomFilter::estimate_encoded_size] *)
Definition estimate_encoded_size (num_keys bits_per_key : Z) : nat :=
  filter_size_bytes num_keys bits_per_key + 2.

(** [BloomFilter::filter_bits] *)
Definition filter_bits (f : BloomFilter) : Z := wrap 32 (Z.of_nat (length (buffer f) * 8)).

(** [probes.all(|p| check_bit(p))]: stops at the first unset bit. *)
Fixpoint all_set (probes : list Z) (buf : bytes) : result bool :=
  match probes with
  | [] => mret true
  | p :: probes => b ← check_bit (Z.to_nat p) buf; if b : bool then all_set probes buf else mret false
  end.

(** [BloomFilter::might_contain] *)
Definition might_contain (f : BloomFilter) (hash : Z) : result bool :=
  if decide (buffer f = []) then mret false
  else probes ← probes_for_key hash (num_probes f) (filter_bits f); all_set probes (buffer f).

(** [BloomFilter::might_match], when the full key does not decide. *)
Definition match_prefix (f : BloomFilter) (t : FilterTarget) : result bool :=
  match f_prefix_extractor f with
  | None => mret true
  | Some x =>
      match as_prefix_target t with
      | None => mret true
      | Some pt =>
          match prefix_len x pt with
          | None => mret true
          | Some n => b ← slice_to n (target_bytes pt); might_contain f (filter_hash b)
          end
      end
  end.

(** [BloomFilter::might_match] *)
Definition bloom_might_match (f : BloomFilter) (q : FilterQuery) : result bool :=
  match query_target q with
  | FilterPoint k => if f_whole_key_filtering f then might_contain f (filter_hash k) else match_prefix f (FilterPoint k)
  | t => match_prefix f t
  end.

Definition bloom_traits : FilterTraits BloomFilterBuilder BloomFilter := {|
  add_entry := λ b e, add_key b (key e);
  build_filter := build;
  might_match := bloom_might_match;
  encode_filter := encode;
|}.

(** [BloomFilterPolicy] *)
Record BloomFilterPolicy := mkBloomPolicy {
  bp_bits_per_key : Z;
  bp_whole_key_filtering : bool;
  bp_prefix_extractor : option PrefixExtractor;
}.

(** [BloomFilterPolicy::NAME], "_bf", and the pieces [compose_name] appends, ":p=" and ":wh=0". *)
Definition NAME : bytes := [95; 98; 102]%Z.

(** [BloomFilterPolicy::compose_name] *)
Definition compose_name (p : BloomFilterPolicy) : bytes :=
  NAME ++ match bp_prefix_extractor p with Some x => [58; 112; 61]%Z ++ extractor_name x | None => [] end
       ++ (if bp_whole_key_filtering p then [] else [58; 119; 104; 61; 48]%Z).

(** [impl FilterPolicy for BloomFilterPolicy] *)
Definition bloom_policy (p : BloomFilterPolicy) : FilterPolicy BloomFilterBuilder BloomFilter :=
  mkPolicy (compose_name p)
    (builder_new (bp_bits_per_key p) (bp_whole_key_filtering p) (bp_prefix_extractor p))
    (decode (bp_whole_key_filtering p) (bp_prefix_extractor p))
    (λ num_keys, n ← to_u32 num_keys; mret (estimate_encoded_size n (bp_bits_per_key p)))
    false (bool_decide (bp_prefix_extractor p ≠ None)).
End bloom.

(** ** Bits of the filter *)

Definition bit_set (buf : bytes) (i : nat) : Prop :=
  ∃ b, buf !! (i / 8) = Some b ∧ Z.testbit b (Z.of_nat (i mod 8)) = true.

Lemma byte_of_bit i (buf : bytes) : i < length buf * 8 → is_Some (buf !! (i / 8)).
Proof. intros. apply lookup_lt_is_Some_2. apply Nat.Div0.div_lt_upper_bound. lia. Qed.

Lemma land_bit b (j : Z) : (0 ≤ j)%Z → negb (Z.land b (Z.shiftl 1 j) =? 0)%Z = Z.testbit b j.
Proof.
  intros Hj. rewrite Z.shiftl_1_l. destruct (Z.testbit b j) eqn:Hb.
  - apply negb_true_iff, Z.eqb_neq. intros Hz.
    assert (Z.testbit (Z.land b (2 ^ j)) j = true) as Ht
      by (rewrite Z.land_spec, Hb, Z.pow2_bits_true by done; done).
    by rewrite Hz, Z.bits_0 in Ht.
  - apply negb_false_iff, Z.eqb_eq, Z.bits_inj'. intros n Hn. rewrite Z.land_spec, Z.bits_0.
    destruct (decide (n = j)) as [->|]; [by rewrite Hb|].
    rewrite Z.pow2_bits_false by done. by rewrite andb_false_r.
Qed.

Lemma check_bit_ok i buf : i < length buf * 8 → ∃ b, check_bit i buf = Ok b ∧ (bit_set buf i → b = true).
Proof.
  intros Hi. destruct (byte_of_bit i buf Hi) as [x Hx]. unfold check_bit, index. rewrite Hx. run.
  eexists. split; [done|]. intros (y & Hy & Ht). simplify_eq. rewrite land_bit by lia. done.
Qed.

Lemma set_bit_ok i buf :
  i < length buf * 8 →
  ∃ buf', set_bit i buf = Ok buf' ∧ length buf' = length buf ∧ bit_set buf' i ∧
    ∀ j, bit_set buf j → bit_set buf' j.
Proof.
  intros Hi. destruct (byte_of_bit i buf Hi) as [x Hx]. unfold set_bit, index. rewrite Hx. run.
  apply lookup_lt_Some in Hx as Hlt.
  eexists. split; [done|]. split; [apply length_insert|]. split.
  - eexists. rewrite list_lookup_insert_eq by done. split; [done|].
    rewrite Z.lor_spec, Z.shiftl_1_l, Z.pow2_bits_true by lia. by rewrite orb_true_r.
  - intros j (y & Hy & Ht). unfold bit_set.
    destruct (decide (i / 8 = j / 8)) as [He|]; [|by exists y; rewrite list_lookup_insert_ne].
    rewrite <- He in *. rewrite list_lookup_insert_eq by done. simplify_eq. eexists. split; [done|].
    by rewrite Z.lor_spec, Ht.
Qed.

Lemma might_contain_empty f hash : buffer f = [] → might_contain f hash = Ok false.
Proof. intros Hb. unfold might_contain. by rewrite decide_True. Qed.

Section filters.
  Context (bits : Z) (Hbits : (0 < bits < 2 ^ 32)%Z).

Lemma probe_range n i h delta :
  (0 ≤ h < bits)%Z → Forall (λ p, 0 ≤ p < bits)%Z (probe_loop n i h delta bits).
Proof.
  revert i h delta. induction n as [|n IH]; intros i h delta Hh; cbn [probe_loop]; constructor.
  - rewrite wrap_small; lia.
  - apply IH. apply Z.mod_pos_bound. lia.
Qed.

Lemma probes_ok hash n :
  ∃ ps, probes_for_key hash n bits = Ok ps ∧ Forall (λ p, 0 ≤ p < bits)%Z ps.
Proof.
  unfold probes_for_key. destruct (Z.eqb_spec bits 0); [lia|]. eexists. split; [done|].
  apply probe_range. apply Z.mod_pos_bound. lia.
Qed.

Lemma set_bits_ok ps buf :
  Z.of_nat (length buf * 8) = bits → Forall (λ p, 0 ≤ p < bits)%Z ps →
  ∃ buf', set_bits ps buf = Ok buf' ∧ length buf' = length buf ∧
    Forall (λ p, bit_set buf' (Z.to_nat p)) ps ∧ ∀ j, bit_set buf j → bit_set buf' j.
Proof.
  intros Hlen Hps. revert buf Hlen. induction Hps as [|p ps Hp Hps IH]; intros buf Hlen; cbn [set_bits].
  { by exists buf. }
  destruct (set_bit_ok (Z.to_nat p) buf) as (b1 & -> & Hl1 & Hset & Hk1); [lia|]. run.
  destruct (IH b1) as (b2 & -> & Hl2 & Hall & Hk2); [congruence|]. exists b2.
  split_and!; [done|congruence| |naive_solver]. constructor; [by apply Hk2|done].
Qed.

(** A hash whose probes are all set. *)
Definition hash_set (n : Z) (buf : bytes) (hash : Z) : Prop :=
  ∃ ps, probes_for_key hash n bits = Ok ps ∧ Forall (λ p, 0 ≤ p < bits)%Z ps ∧
    Forall (λ p, bit_set buf (Z.to_nat p)) ps.

Lemma set_hashes_ok hs n buf :
  Z.of_nat (length buf * 8) = bits →
  ∃ buf', set_hashes hs n bits buf = Ok buf' ∧ length buf' = length buf ∧
    Forall (hash_set n buf') hs ∧ ∀ j, bit_set buf j → bit_set buf' j.
Proof.
  revert buf. induction hs as [|h hs IH]; intros buf Hlen; cbn [set_hashes].
  { by exists buf. }
  destruct (probes_ok h n) as (ps & Hp & Hr). rewrite Hp. run.
  destruct (set_bits_ok ps buf Hlen Hr) as (b1 & -> & Hl1 & Hs1 & Hk1). run.
  destruct (IH b1) as (b2 & -> & Hl2 & Hall & Hk2); [congruence|]. exists b2.
  split_and!; [done|congruence| |naive_solver]. constructor; [|done].
  exists ps. split_and!; [done..|]. eapply Forall_impl; [exact Hs1|]. intros p. apply Hk2.
Qed.

Lemma all_set_ok ps buf :
  Z.of_nat (length buf * 8) = bits → Forall (λ p, 0 ≤ p < bits)%Z ps →
  ∃ b, all_set ps buf = Ok b ∧ (Forall (λ p, bit_set buf (Z.to_nat p)) ps → b = true).
Proof.
  intros Hlen. induction 1 as [|p ps Hp Hps IH]; cbn [all_set]; [by eexists|].
  destruct (check_bit_ok (Z.to_nat p) buf) as (b & -> & Hb); [lia|]. run.
  destruct b.
  - destruct IH as (b & -> & IH). exists b. split; [done|]. intros H. inversion H; subst; eauto.
  - exists false. split; [done|]. intros H. inversion H; subst. by apply Hb.
Qed.

(** A filter of [bits] bits answers every hash, and [true] for the hashes set in it. *)
Lemma might_contain_ok f hash :
  Z.of_nat (length (buffer f) * 8) = bits →
  ∃ b, might_contain f hash = Ok b ∧ (hash_set (num_probes f) (buffer f) hash → b = true).
Proof.
  intros Hlen. unfold might_contain. rewrite decide_False by (intros E; rewrite E in Hlen; cbn in Hlen; lia).
  unfold filter_bits. rewrite Hlen, wrap_small by lia.
  destruct (probes_ok hash (num_probes f)) as (ps & Hp & Hr). rewrite Hp. run.
  destruct (all_set_ok ps (buffer f) Hlen Hr) as (b & -> & Hb). exists b. split; [done|].
  intros (ps' & Hp' & _ & Hs). rewrite Hp in Hp'. simplify_eq. auto.
Qed.
End filters.

(** ** The builder *)

Lemma f32_as_u16_range f : is_u16 (f32_as_u16 f).
Proof.
  unfold is_u16, f32_as_u16, u16_max. destruct f as [| [] | |[] m e]; try lia.
  assert (0 ≤ Z.shiftl (Z.pos m) e)%Z by (apply Z.shiftl_nonneg; lia). lia.
Qed.

Section bloom_laws.
  Context (filter_hash : bytes → Z) (p : BloomFilterPolicy).
  Context (Hx : ∀ x, bp_prefix_extractor p = Some x → ExtractorLaws x).

Local Instance traits : FilterTraits BloomFilterBuilder BloomFilter := bloom_traits filter_hash.

(** The hash the builder stores for a prefix of a key. *)
Definition prefix_hash (k : bytes) : option Z :=
  x ← bp_prefix_extractor p;
  n ← prefix_len x (PointTarget k);
  Some (filter_hash (take n k)).

(** What the builder holds once the rows [es] were added. *)
Record bloom_holds (b : BloomFilterBuilder) (es : list RowEntry) : Prop := {
  holds_config : bits_per_key b = bp_bits_per_key p ∧ whole_key_filtering b = bp_whole_key_filtering p ∧
    prefix_extractor b = bp_prefix_extractor p;
  holds_last k : last_prefix b = Some k → filter_hash k ∈ key_hashes b;
  holds_keys e : e ∈ es → bp_whole_key_filtering p = true → filter_hash (key e) ∈ key_hashes b;
  holds_prefixes e h : e ∈ es → prefix_hash (key e) = Some h → h ∈ key_hashes b;
  holds_count : length (key_hashes b) ≤ 2 * length es;
}.

Lemma add_key_prefix_ok b k :
  prefix_extractor b = bp_prefix_extractor p →
  (∀ k, last_prefix b = Some k → filter_hash k ∈ key_hashes b) →
  ∃ hs last, add_key_prefix filter_hash b k = Ok (with_hashes b (key_hashes b ++ hs) last) ∧
    length hs ≤ 1 ∧
    (∀ k, last = Some k → filter_hash k ∈ key_hashes b ++ hs) ∧
    (∀ h, prefix_hash k = Some h → h ∈ key_hashes b ++ hs).
Proof.
  intros Hpx Hlast. unfold add_key_prefix, prefix_hash. rewrite Hpx.
  assert (b = with_hashes b (key_hashes b ++ []) (last_prefix b)) as Hsame
    by (rewrite app_nil_r; by destruct b).
  destruct (bp_prefix_extractor p) as [x|] eqn:Ex; cbn.
  2:{ exists [], (last_prefix b). rewrite <- Hsame, app_nil_r. split_and!; [done|cbn; lia|done|done]. }
  destruct (prefix_len x (PointTarget k)) as [n|] eqn:Hn; cbn.
  2:{ exists [], (last_prefix b). rewrite <- Hsame, app_nil_r. split_and!; [done|cbn; lia|done|done]. }
  pose proof (extract_fits x (Hx x eq_refl) _ _ Hn) as Hfit. cbn in Hfit.
  rewrite bool_decide_eq_true_2 by done. run. unfold slice_to. rewrite decide_True by done. run.
  case_decide as Heq.
  - exists [], (last_prefix b). rewrite <- Hsame, app_nil_r. split_and!; [done|cbn; lia|done|].
    intros h [= <-]. by apply Hlast.
  - exists [filter_hash (take n k)], (Some (take n k)). split_and!; [done|cbn; lia|set_solver|set_solver].
Qed.

Lemma add_key_ok b es e :
  bloom_holds b es →
  ∃ b', add_key filter_hash b (key e) = Ok b' ∧ bloom_holds b' (es ++ [e]).
Proof.
  intros [(Hb & Hw & Hpx) Hlast Hkeys Hpre Hcount]. unfold add_key.
  destruct (add_key_prefix_ok b (key e) Hpx Hlast) as (hs & last & -> & Hlen & Hl & Hh). run.
  eexists. split; [done|]. cbn. rewrite Hw. destruct (bp_whole_key_filtering p) eqn:Ew; cbn.
  - split; cbn; rewrite ?length_app; cbn [length]; [by rewrite Ew|set_solver..|lia].
  - split; cbn; rewrite ?length_app; cbn [length]; [by rewrite Ew|set_solver|intros; congruence|set_solver|lia].
Qed.

Lemma add_entries_ok b es es' :
  bloom_holds b es →
  ∃ b', add_entries b es' = Ok b' ∧ bloom_holds b' (es ++ es').
Proof.
  revert b es. induction es' as [|e es' IH]; intros b es Hb; cbn [add_entries].
  { exists b. by rewrite app_nil_r. }
  destruct (add_key_ok b es e Hb) as (b1 & H1 & Hb1). unfold add_entry, traits, bloom_traits. rewrite H1. run.
  destruct (IH b1 (es ++ [e]) Hb1) as (b2 & H2 & Hb2). exists b2. split; [done|].
  by rewrite <- app_assoc in Hb2.
Qed.

(** Enough room: the filter has bits as soon as it has hashes, and fewer than [2 ^ 32]. *)
Lemma build_ok b es :
  bloom_holds b es → (1 ≤ bp_bits_per_key p)%Z →
  (2 * Z.of_nat (length es) * bp_bits_per_key p ≤ 2 ^ 32 - 8)%Z →
  ∃ f, build b = Ok f ∧ num_probes f = optimal_num_probes (bp_bits_per_key p) ∧
    (key_hashes b = [] ∧ buffer f = [] ∨
     (0 < Z.of_nat (length (buffer f) * 8) < 2 ^ 32)%Z ∧
     Forall (hash_set (Z.of_nat (length (buffer f) * 8)) (num_probes f) (buffer f)) (key_hashes b)).
Proof.
  intros Hb H1 H32. unfold build. destruct (holds_config b es Hb) as (-> & _ & _).
  pose proof (holds_count b es Hb) as Hcount.
  set (n := length (key_hashes b)) in *.
  assert (Z.of_nat n * bp_bits_per_key p ≤ 2 ^ 32 - 8)%Z as Hprod by nia.
  assert (Z.of_nat n < 2 ^ 32)%Z as Hn by nia.
  rewrite (wrap_small _ (Z.of_nat n)) by lia. unfold filter_size_bytes.
  rewrite (wrap_small 32 (Z.of_nat n * _)) by nia.
  set (m := ((Z.of_nat n * bp_bits_per_key p + 7) / 8)%Z).
  assert (0 ≤ m ∧ m * 8 < 2 ^ 32 ∧ (n ≠ 0%nat → 0 < m))%Z as (Hm0 & Hm32 & Hmpos).
  { subst m. pose proof (Z.div_mod (Z.of_nat n * bp_bits_per_key p + 7) 8 ltac:(lia)).
    pose proof (Z.mod_pos_bound (Z.of_nat n * bp_bits_per_key p + 7) 8 ltac:(lia)).
    split_and!; [nia|nia|]. intros. assert (1 ≤ Z.of_nat n * bp_bits_per_key p)%Z by nia. lia. }
  destruct (decide (n = 0)) as [Hz|Hnz].
  { assert (key_hashes b = []) as Hk by (by apply nil_length_inv). rewrite Hk. cbn.
    assert (m = 0)%Z as -> by (subst m; rewrite Hz; done).
    eexists. split; [done|]. split; [done|]. by left. }
  specialize (Hmpos Hnz).
  rewrite (wrap_small 32 (Z.of_nat _)) by lia.
  destruct (set_hashes_ok (Z.of_nat (Z.to_nat m * 8)) ltac:(lia) (key_hashes b)
    (optimal_num_probes (bp_bits_per_key p)) (replicate (Z.to_nat m) 0%Z)) as (buf & -> & Hlen & Hset & _).
  { by rewrite length_replicate. }
  run. rewrite length_replicate in Hlen. eexists. split; [done|]. cbn. split; [done|]. right.
  rewrite Hlen. split; [lia|done].
Qed.

(** The filter a reader decodes answers like the one that was written. *)
Lemma decode_encode f :
  is_u16 (num_probes f) → f_whole_key_filtering f = bp_whole_key_filtering p →
  f_prefix_extractor f = bp_prefix_extractor p →
  decode (bp_whole_key_filtering p) (bp_prefix_extractor p) (encode f) = Ok f.
Proof.
  intros Hn <- <-. unfold decode, encode. rewrite get_put_be.
  rewrite bind_Ok, wrap_small by exact Hn. by destruct f.
Qed.

(** The answer to a query, for a filter built from the rows [es]. *)
Lemma answers_ok b es f :
  bloom_holds b es → f_whole_key_filtering f = bp_whole_key_filtering p →
  f_prefix_extractor f = bp_prefix_extractor p →
  (∀ hash, ∃ ans, might_contain f hash = Ok ans ∧ (hash ∈ key_hashes b → ans = true)) →
  ∀ q, ∃ ans, bloom_might_match filter_hash f q = Ok ans ∧
    (∀ e, e ∈ es → target_admits (query_target q) (key e) → ans = true).
Proof.
  intros Hb Hw Hpx Hans q. unfold bloom_might_match.
  assert (∃ ans, match_prefix filter_hash f (query_target q) = Ok ans ∧
    (∀ e, e ∈ es → target_admits (query_target q) (key e) → ans = true)) as Hmp.
  { unfold match_prefix. rewrite Hpx. destruct (bp_prefix_extractor p) as [x|] eqn:Ex; [|by eexists].
    destruct (as_prefix_target (query_target q)) as [pt|] eqn:Hpt; [|by eexists].
    destruct (prefix_len x pt) as [n|] eqn:Hn; [|by eexists].
    pose proof (extract_fits x (Hx x eq_refl) _ _ Hn) as Hfit. unfold slice_to. rewrite decide_True by done. run.
    destruct (Hans (filter_hash (take n (target_bytes pt)))) as (ans & Ha & Htrue). exists ans. split; [done|].
    intros e He Hadm. apply Htrue. eapply (holds_prefixes b es Hb e); [done|].
    unfold prefix_hash. rewrite Ex. cbn.
    destruct (query_target q) as [k|pr|lo hi]; cbn in Hpt, Hadm; simplify_eq; cbn in *.
    - by rewrite Hn.
    - destruct Hadm as [rest Hrest].
      rewrite (extract_scan x (Hx x eq_refl) _ _ (key e) Hn) by (by exists rest). cbn. rewrite Hrest.
      by rewrite take_app_le. }
  destruct (query_target q) as [k|pr|lo hi]; [|done..].
  rewrite Hw. destruct (bp_whole_key_filtering p) eqn:Ew; [|done].
  destruct (Hans (filter_hash k)) as (ans & Ha & Htrue). exists ans. split; [done|].
  intros e He Hadm. cbn in Hadm. subst k. apply Htrue. by apply (holds_keys b es Hb).
Qed.

(** The Bloom policy keeps the promise of [Filter::might_match]. *)
Lemma bloom_policy_sound es :
  (1 ≤ bp_bits_per_key p)%Z → (2 * Z.of_nat (length es) * bp_bits_per_key p ≤ 2 ^ 32 - 8)%Z →
  policy_sound (bloom_policy p) es.
Proof.
  intros H1 H32. assert (bloom_holds (policy_builder (bloom_policy p)) []) as Hnew
    by (split; cbn; (done || set_solver || lia)).
  destruct (add_entries_ok _ [] es Hnew) as (b & Hadd & Hb). cbn [app] in Hb.
  destruct (build_ok b es Hb H1 H32) as (f & Hf & Hnp & Hbits).
  assert (f_whole_key_filtering f = bp_whole_key_filtering p ∧ f_prefix_extractor f = bp_prefix_extractor p) as [Hw Hpx].
  { unfold build in Hf. inv_bind. destruct (holds_config b es Hb) as (_ & Hw & Hpx). by cbn. }
  exists b, f, f. split_and!; [done|done| |done|].
  - cbn. apply decode_encode; [|done..]. rewrite Hnp. apply f32_as_u16_range.
  - cbn. apply (answers_ok b es f); [done..|]. intros hash.
    destruct Hbits as [[Hk Hbuf]|[Hrange Hset]].
    + exists false. rewrite might_contain_empty by done. split; [done|]. rewrite Hk. set_solver.
    + destruct (might_contain_ok _ Hrange f hash eq_refl) as (ans & Ha & Htrue). exists ans. split; [done|].
      intros Hin. apply Htrue. by eapply Forall_forall in Hset.
Qed.
End bloom_laws.

(** C27: The Bloom filter has no false negatives: a policy with at least one bit per key, and with a
    prefix extractor that keeps its documented invariants if it has one, accepts every row of an
    SST, and the filter it writes, once read back, answers every point, prefix and range query
    without panicking and answers "might match" whenever some row of the SST matches the query,
    with whole-key filtering on or off. *)
Theorem bloom_no_false_negatives (filter_hash : bytes → Z) (p : BloomFilterPolicy) (es : list RowEntry) :
  (∀ x, bp_prefix_extractor p = Some x → ExtractorLaws x) → (1 ≤ bp_bits_per_key p)%Z →
  (2 * Z.of_nat (length es) * bp_bits_per_key p ≤ 2 ^ 32 - 8)%Z →
  policy_sound (H := bloom_traits filter_hash) (bloom_policy p) es.
Proof. intros Hx. by apply bloom_policy_sound. Qed.

(** An extractor that takes the first two bytes. *)
Definition two_bytes : PrefixExtractor :=
  mkExtractor [50%Z] (λ t, if decide (2 ≤ length (target_bytes t)) then Some 2 else None).

Lemma two_bytes_laws : ExtractorLaws two_bytes.
Proof.
  split; cbn.
  - intros t n. case_decide; [|done]. by intros [= <-].
  - intros p n q. case_decide; [|done]. intros [= <-] [r ->]. cbn. rewrite length_app, decide_True by lia. done.
Qed.

Lemma bloom_no_false_negatives_witness :
  let p := mkBloomPolicy 10 false (Some two_bytes) in
  let es := [mkRow [1; 2; 3]%Z (Value [7]%Z) 1 None None; mkRow [1; 2; 4]%Z Tombstone 2 None None;
             mkRow [9]%Z (Value []) 3 None None] in
  policy_sound (H := bloom_traits be_val) (bloom_policy p) es.
Proof.
  intros p es. apply (bloom_no_false_negatives be_val p es); [|cbn; lia|cbn; lia].
  intros x [= <-]. apply two_bytes_laws.
Defined.

End Bloom.
