(* ===== verification/SstFormat.v ===== *)
(** * The SST file format ([format/sst.rs], [sst_builder.rs], [sst_stats.rs])

    How rows become an SST and come back: blocks are built, encoded, compressed,
    transformed, check-summed and padded one after the other, the footer adds the
    filters, the block index, the statistics and the table's description, and the
    readers find each part again from the end of the object.  The checksum, the
    compression libraries, a user's block transformer, the FlatBuffers encodings and
    the filter policies are parameters; what is relied on are their round trips. *)

From S2P Require Export BlockIterV2 Keyspace Views SstFilter.

(** ** Data *)

(** [BlockMeta], [SsTableIndex]: what the generated accessors expose of the index. *)
Record BlockMeta := mkMeta {
  meta_offset : Z;
  meta_first_key : bytes;
  meta_encoded_len : Z;
}.
Notation SsTableIndex := (list BlockMeta).

(** [BlockStats], [SstStats] *)
Record BlockStats := mkBlockStats { bs_num_puts : Z; bs_num_deletes : Z; bs_num_merges : Z }.

Record SstStats := mkStats {
  st_num_puts : Z;
  st_num_deletes : Z;
  st_num_merges : Z;
  raw_key_size : Z;
  raw_val_size : Z;
  block_stats : list BlockStats;
}.

Definition default_block_stats : BlockStats := mkBlockStats 0 0 0.
Definition default_stats : SstStats := mkStats 0 0 0 0 0 [].

(** [SstStats::num_rows] *)
Definition num_rows (s : SstStats) : Z := st_num_puts s + st_num_deletes s + st_num_merges s.

(** [BlockTransformer] *)
Record BlockTransformer := mkTransformer {
  transform_encode : bytes → option bytes;
  transform_decode : bytes → option bytes;
  encoded_overhead : nat;
}.

(** [ReadOnlyBlob]: an object read by byte ranges. *)
Record ReadOnlyBlob := mkBlob {
  blob_len : result Z;
  read_range : Z → Z → result bytes;
}.

(** Third-party code: [crc32fast::hash], the compression crates, and the FlatBuffers
    encodings of the table's description, of the block index and of the statistics. *)
Class SstCodecs := {
  crc32 : bytes → Z;
  lib_compress : CompressionCodec → bytes → option bytes;
  lib_decompress : CompressionCodec → bytes → option bytes;
  info_encode : SsTableInfo → bytes;
  info_decode : bytes → result SsTableInfo;
  index_encode : SsTableIndex → bytes;
  index_decode : bytes → result SsTableIndex;
  stats_encode : SstStats → bytes;
  stats_decode : bytes → result SstStats;
}.

(** [BlockFormat] *)
Inductive BlockFormat := FormatV1 | FormatV2 | FormatLatest.

Definition SST_FORMAT_VERSION_LATEST : Z := SST_FORMAT_VERSION_V2.

(** [BlockFormat::sst_format_version] *)
Definition sst_format_version (f : BlockFormat) : Z :=
  match f with
  | FormatV1 => SST_FORMAT_VERSION
  | FormatV2 => SST_FORMAT_VERSION_V2
  | FormatLatest => SST_FORMAT_VERSION_LATEST
  end.

(** [is_supported_version] *)
Definition is_supported_version (version : Z) : bool :=
  (version =? SST_FORMAT_VERSION)%Z || (version =? SST_FORMAT_VERSION_V2)%Z.

(** ** Block builders *)

(** [BlockBuilder] *)
Inductive BlockBuilder := BuildV1 (b : BuilderV1.t) | BuildV2 (b : BuilderV2.t).

(** [BlockBuilder::new_v1], [new_v2], [new_latest] *)
Definition new_v1 (block_size : nat) : BlockBuilder := BuildV1 (BuilderV1.new block_size).
Definition new_v2 (block_size : nat) : BlockBuilder := BuildV2 (BuilderV2.new block_size).
Definition new_latest (block_size : nat) : BlockBuilder := new_v2 block_size.

(** [BlockBuilder::would_fit], [add], [is_empty], [build] *)
Definition bb_would_fit (b : BlockBuilder) (e : RowEntry) : result bool :=
  match b with BuildV1 b => BuilderV1.would_fit b e | BuildV2 b => BuilderV2.would_fit b e end.
Definition bb_add (b : BlockBuilder) (e : RowEntry) : result (bool * BlockBuilder) :=
  match b with
  | BuildV1 b => '(added, b) ← BuilderV1.add b e; mret (added, BuildV1 b)
  | BuildV2 b => '(added, b) ← BuilderV2.add b e; mret (added, BuildV2 b)
  end.
Definition bb_is_empty (b : BlockBuilder) : bool :=
  match b with BuildV1 b => BuilderV1.is_empty b | BuildV2 b => BuilderV2.is_empty b end.
Definition bb_build (b : BlockBuilder) : result Block :=
  match b with BuildV1 b => BuilderV1.build b | BuildV2 b => BuilderV2.build b end.

(** [BlockBuilderWithStats] *)
Record BlockBuilderWithStats := mkBuilderWithStats {
  inner_builder : BlockBuilder;
  inner_stats : BlockStats;
}.

(** [BlockBuilderWithStats::new] *)
Definition with_stats_new (b : BlockBuilder) : BlockBuilderWithStats := mkBuilderWithStats b default_block_stats.

(** The counters of [BlockBuilderWithStats::add] are 16 bits wide. *)
Definition count_row (s : BlockStats) (v : ValueDeletable) : BlockStats :=
  match v with
  | Value _ => mkBlockStats (wrap 16 (bs_num_puts s + 1)) (bs_num_deletes s) (bs_num_merges s)
  | Merge _ => mkBlockStats (bs_num_puts s) (bs_num_deletes s) (wrap 16 (bs_num_merges s + 1))
  | Tombstone => mkBlockStats (bs_num_puts s) (wrap 16 (bs_num_deletes s + 1)) (bs_num_merges s)
  end.

(** [BlockBuilderWithStats::add] *)
Definition with_stats_add (b : BlockBuilderWithStats) (e : RowEntry) : result (bool * BlockBuilderWithStats) :=
  let stats := count_row (inner_stats b) (value e) in
  '(added, builder) ← bb_add (inner_builder b) e;
  mret (added, mkBuilderWithStats builder stats).

(** [block_capacity] *)
Definition block_capacity (block_size : nat) (block_alignment : bool) (transformer_overhead : nat) : nat :=
  if block_alignment then Nat.max (block_size - (CHECKSUM_SIZE + transformer_overhead)) 1 else block_size.

(** [encoded_len_for_index] *)
Definition encoded_len_for_index (encoded_len padded_len : nat) : result Z :=
  if decide (padded_len = encoded_len) then mret 0%Z
  else if decide (Z.of_nat encoded_len ≤ u32_max)%Z then mret (Z.of_nat encoded_len)
  else Err InvalidDBState.

(** [validate_block_alignment] *)
Definition validate_block_alignment (block_alignment : bool) (codec : option CompressionCodec) : result unit :=
  if block_alignment && bool_decide (codec ≠ None)
  then Err (InvalidConfiguration "sst_block_alignment cannot be combined with compression_codec")
  else mret tt.

(** [usize::next_multiple_of] panics on zero. *)
Definition checked_next_multiple_of (a b : nat) : result nat :=
  if decide (b = 0) then Panic else mret (next_multiple_of a b).

(** [EncodedSsTableBlock] *)
Record EncodedSsTableBlock := mkEncodedBlock {
  eb_offset : Z;
  eb_block : Block;
  padded_bytes : bytes;
  eb_encoded_len : nat;
  key_span : option (bytes * bytes);
}.

(** [EncodedSsTableBlock::padded_len] *)
Definition padded_len (b : EncodedSsTableBlock) : nat := length (padded_bytes b).

(** [std::str::from_utf8(..).is_ok()]: the well-formed byte sequences of the Unicode standard. *)
Definition cont_byte (b : Z) : bool := (128 <=? b)%Z && (b <=? 191)%Z.
Fixpoint utf8_valid (fuel : nat) (b : bytes) : bool :=
  match fuel with
  | O => bool_decide (b = [])
  | S fuel =>
      match b with
      | [] => true
      | x :: r =>
          if (x <? 128)%Z then utf8_valid fuel r
          else match r with
          | y :: r =>
              if ((194 <=? x) && (x <=? 223))%Z then cont_byte y && utf8_valid fuel r
              else match r with
              | z :: r =>
                  if ((224 <=? x) && (x <=? 239))%Z then
                    cont_byte y && (negb (x =? 224)%Z || (160 <=? y)%Z) && (negb (x =? 237)%Z || (y <=? 159)%Z)
                    && cont_byte z && utf8_valid fuel r
                  else match r with
                  | w :: r =>
                      ((240 <=? x) && (x <=? 244))%Z && cont_byte y && (negb (x =? 240)%Z || (144 <=? y)%Z)
                      && (negb (x =? 244)%Z || (y <=? 143)%Z) && cont_byte z && cont_byte w && utf8_valid fuel r
                  | [] => false
                  end
              | [] => false
              end
          | [] => false
          end
      end
  end.
Definition is_utf8 (b : bytes) : bool := utf8_valid (length b) b.

Section format.
  Context `{SstCodecs} {B F : Type} `{FilterTraits B F}.

(** [NamedFilter] *)
Record NamedFilter := mkNamedFilter { nf_name : bytes; nf_filter : F }.

(** [SsTableFormat]; [sst_codec] is the encoding of the table's description. *)
Record SsTableFormat := mkFormat {
  block_size : nat;
  block_alignment : bool;
  min_filter_keys : Z;
  filter_policies : list (FilterPolicy B F);
  f_compression_codec : option CompressionCodec;
  block_transformer : option BlockTransformer;
  block_format : option BlockFormat;
}.

Implicit Types (f : SsTableFormat).

(** ** Compression, transformation and checksums *)

(** [compress], [transform], [decompress] *)
Definition compress (data : bytes) (c : CompressionCodec) : result bytes :=
  ok_or BlockCompressionError (lib_compress c data).
Definition transform (data : bytes) (t : option BlockTransformer) : result bytes :=
  match t with
  | Some t => ok_or BlockTransformError (transform_encode t data)
  | None => mret data
  end.
Definition decompress (data : bytes) (c : CompressionCodec) : result bytes :=
  ok_or BlockDecompressionError (lib_decompress c data).

(** [compress_and_transform]: the buffer with the data appended, and the length appended. *)
Definition compress_and_transform (buf data : bytes) (codec : option CompressionCodec)
    (t : option BlockTransformer) : result (bytes * nat) :=
  compressed ← match codec with None => mret data | Some c => compress data c end;
  transformed ← transform compressed t;
  let checksum := crc32 transformed in
  let len := length transformed + CHECKSUM_SIZE in
  mret (buf ++ transformed ++ put_be 4 checksum, len).

(** [SsTableFormat::validate_checksum] *)
Definition validate_checksum (b : bytes) : result bytes :=
  if decide (CHECKSUM_SIZE ≤ length b) then
    let data_bytes := take (length b - CHECKSUM_SIZE) b in
    '(stored_checksum, _) ← get_be 4 (drop (length b - CHECKSUM_SIZE) b);
    if (crc32 data_bytes =? stored_checksum)%Z then mret data_bytes else Err ChecksumMismatch
  else Panic.

(** The common part of [decode_filters], [decode_index], [decode_stats] and [decode_block]. *)
Definition decode_section f (b : bytes) (codec : option CompressionCodec) : result bytes :=
  data ← validate_checksum b;
  untransformed ← match block_transformer f with
                  | Some t => ok_or BlockTransformError (transform_decode t data)
                  | None => mret data
                  end;
  match codec with Some c => decompress untransformed c | None => mret untransformed end.

(** ** Encoding one block *)

(** [EncodedSsTableBlockBuilder] *)
Record EncodedSsTableBlockBuilder := mkBlockEncoder {
  be_builder : BlockBuilder;
  be_offset : Z;
  be_key_span : option (bytes * bytes);
  be_codec : option CompressionCodec;
  be_transformer : option BlockTransformer;
  be_block_size : nat;
  be_alignment : bool;
}.

(** [EncodedSsTableBlockBuilder::build]; the first [next_multiple_of] only sizes a buffer. *)
Definition encode_block (b : EncodedSsTableBlockBuilder) : result EncodedSsTableBlock :=
  block ← bb_build (be_builder b);
  let encoded_block := block_encode block in
  _ ← (if be_alignment b then
         checked_next_multiple_of
           (length encoded_block + from_option encoded_overhead 0 (be_transformer b) + CHECKSUM_SIZE) (be_block_size b)
       else mret 0);
  '(compressed_and_transformed_block, encoded_len) ←
    compress_and_transform [] encoded_block (be_codec b) (be_transformer b);
  padded ← (if be_alignment b then
              padded_len ← checked_next_multiple_of encoded_len (be_block_size b);
              mret (resize padded_len 0%Z compressed_and_transformed_block)
            else mret compressed_and_transformed_block);
  mret (mkEncodedBlock (be_offset b) block padded encoded_len (be_key_span b)).

(** ** The footer *)

(** [SsTableInfo::encode], [SsTableInfo::decode] *)
Definition encode_info (info : SsTableInfo) (buf : bytes) : bytes :=
  let data := info_encode info in buf ++ data ++ put_be 4 (crc32 data).
Definition decode_info (raw_info : bytes) : result SsTableInfo :=
  if decide (length raw_info ≤ 4) then Err EmptyBlockMeta
  else
    let data := take (length raw_info - 4) raw_info in
    '(checksum, _) ← get_be 4 (drop (length raw_info - 4) raw_info);
    if (checksum =? crc32 data)%Z then info_decode data else Err ChecksumMismatch.

(** One filter of the composite block: name length, name, data length, data. *)
Definition encode_named_filter (nf : NamedFilter) : result bytes :=
  name_len ← to_u16 (length (nf_name nf));
  let data := encode_filter (nf_filter nf) in
  mret (put_be 2 name_len ++ nf_name nf ++ put_be 8 (Z.of_nat (length data)) ++ data).

(** The composite filter block of [EncodedSsTableFooterBuilder::build]. *)
Definition encode_composite (filters : list NamedFilter) : result bytes :=
  n ← to_u16 (length filters);
  parts ← mapM encode_named_filter filters;
  mret (put_be 2 n ++ concat parts).

Record EncodedSsTableFooter := mkFooter {
  footer_info : SsTableInfo;
  footer_index : SsTableIndex;
  footer_filters : list NamedFilter;
  footer_stats : option SstStats;
  encoded_bytes : bytes;
}.

(** [EncodedSsTableFooterBuilder] *)
Record EncodedSsTableFooterBuilder := mkFooterBuilder {
  blocks_size : Z;
  fb_first_entry : option bytes;
  fb_last_entry : option bytes;
  fb_codec : option CompressionCodec;
  fb_transformer : option BlockTransformer;
  fb_block_meta : list BlockMeta;
  fb_filters : list NamedFilter;
  fb_stats : option SstStats;
  fb_version : Z;
  fb_sst_type : SstType;
}.

(** [EncodedSsTableFooterBuilder::build] *)
Definition build_footer (b : EncodedSsTableFooterBuilder) : result EncodedSsTableFooter :=
  let at_ (buf : bytes) := (blocks_size b + Z.of_nat (length buf))%Z in
  let append buf data := compress_and_transform buf data (fb_codec b) (fb_transformer b) in
  let filter_offset := at_ [] in
  '(buf, filter_len) ← (if decide (fb_filters b = []) then mret ([], 0)
                        else composite ← encode_composite (fb_filters b); append [] composite);
  let index_data := index_encode (fb_block_meta b) in
  index ← index_decode index_data;
  let index_offset := at_ buf in
  '(buf, index_len) ← append buf index_data;
  '(buf, stats_offset, stats_len) ←
    match fb_stats b with
    | Some stats =>
        let offset := at_ buf in
        '(buf, len) ← append buf (stats_encode stats);
        mret (buf, offset, Z.of_nat len)
    | None => mret (buf, 0%Z, 0%Z)
    end;
  let meta_offset := at_ buf in
  let info := mkInfo (fb_first_entry b) (fb_last_entry b) index_offset (Z.of_nat index_len) filter_offset
                (Z.of_nat filter_len) (fb_codec b) (fb_sst_type b) stats_offset stats_len CompositeFilter in
  let buf := encode_info info buf in
  let buf := buf ++ put_be 8 meta_offset ++ put_be 2 (fb_version b) in
  mret (mkFooter info index (fb_filters b) (fb_stats b) buf).

(** ** The table builder *)

(** [EncodedSsTableBuilder]; the FlatBuffers builder of the index is the list of block
    descriptions it holds. *)
Record EncodedSsTableBuilder := mkTableBuilder {
  tb_builder : BlockBuilderWithStats;
  tb_first_key : option bytes;
  sst_first_key : option bytes;
  sst_last_key : option bytes;
  current_block_first_key : option bytes;
  current_block_max_key : option bytes;
  block_meta : list BlockMeta;
  current_len : Z;
  tb_blocks : list EncodedSsTableBlock;
  tb_stats : SstStats;
  filter_builders : list (bytes * B);
  tb_block_size : nat;
  tb_block_alignment : bool;
  tb_block_format : BlockFormat;
  tb_version : Z;
  tb_min_filter_keys : Z;
  tb_codec : option CompressionCodec;
  tb_transformer : option BlockTransformer;
}.

Implicit Types (b : EncodedSsTableBuilder).

(** [EncodedSsTableBuilder::block_builder] *)
Definition block_builder (block_size : nat) (block_alignment : bool) (t : option BlockTransformer)
    (block_format : BlockFormat) : BlockBuilderWithStats :=
  let capacity := block_capacity block_size block_alignment (from_option encoded_overhead 0 t) in
  with_stats_new match block_format with
                 | FormatV1 => new_v1 capacity
                 | FormatV2 => new_v2 capacity
                 | FormatLatest => new_latest capacity
                 end.

(** [EncodedSsTableBuilder::new] *)
Definition table_builder_new (block_size : nat) (block_alignment : bool) (min_filter_keys : Z)
    (policies : list (FilterPolicy B F)) : EncodedSsTableBuilder :=
  mkTableBuilder (block_builder block_size block_alignment None FormatLatest) None None None None None
    [] 0 [] default_stats ((λ p, (policy_name p, policy_builder p)) <$> policies)
    block_size block_alignment FormatLatest (sst_format_version FormatLatest) min_filter_keys None None.

(** [EncodedSsTableBuilder::new_block_builder] *)
Definition new_block_builder b : BlockBuilderWithStats :=
  block_builder (tb_block_size b) (tb_block_alignment b) (tb_transformer b) (tb_block_format b).

(** [with_compression_codec], [with_block_transformer], [with_block_format] *)
Definition with_compression_codec b (codec : CompressionCodec) : EncodedSsTableBuilder :=
  mkTableBuilder (tb_builder b) (tb_first_key b) (sst_first_key b) (sst_last_key b) (current_block_first_key b)
    (current_block_max_key b) (block_meta b) (current_len b) (tb_blocks b) (tb_stats b) (filter_builders b)
    (tb_block_size b) (tb_block_alignment b) (tb_block_format b) (tb_version b) (tb_min_filter_keys b)
    (Some codec) (tb_transformer b).
Definition with_block_transformer b (t : BlockTransformer) : result EncodedSsTableBuilder :=
  _ ← rust_assert (bool_decide (sst_first_key b = None));
  mret (mkTableBuilder (block_builder (tb_block_size b) (tb_block_alignment b) (Some t) (tb_block_format b))
    (tb_first_key b) (sst_first_key b) (sst_last_key b) (current_block_first_key b)
    (current_block_max_key b) (block_meta b) (current_len b) (tb_blocks b) (tb_stats b) (filter_builders b)
    (tb_block_size b) (tb_block_alignment b) (tb_block_format b) (tb_version b) (tb_min_filter_keys b)
    (tb_codec b) (Some t)).
Definition with_block_format b (fmt : BlockFormat) : result EncodedSsTableBuilder :=
  _ ← rust_assert (bool_decide (sst_first_key b = None));
  mret (mkTableBuilder (block_builder (tb_block_size b) (tb_block_alignment b) (tb_transformer b) fmt)
    (tb_first_key b) (sst_first_key b) (sst_last_key b) (current_block_first_key b)
    (current_block_max_key b) (block_meta b) (current_len b) (tb_blocks b) (tb_stats b) (filter_builders b)
    (tb_block_size b) (tb_block_alignment b) fmt (sst_format_version fmt) (tb_min_filter_keys b)
    (tb_codec b) (tb_transformer b)).

(** [SsTableFormat::table_builder] *)
Definition table_builder f : result EncodedSsTableBuilder :=
  let b := table_builder_new (block_size f) (block_alignment f) (min_filter_keys f) (filter_policies f) in
  b ← match block_format f with Some fmt => with_block_format b fmt | None => mret b end;
  let b := match f_compression_codec f with Some c => with_compression_codec b c | None => b end in
  match block_transformer f with Some t => with_block_transformer b t | None => mret b end.

(** [EncodedSsTableBuilder::is_drained] *)
Definition is_drained b : bool := bb_is_empty (inner_builder (tb_builder b)).

(** The statistics after a block is finished. *)
Definition add_block_stats (s : SstStats) (bs : BlockStats) : SstStats :=
  mkStats (st_num_puts s + bs_num_puts bs) (st_num_deletes s + bs_num_deletes bs)
    (st_num_merges s + bs_num_merges bs) (raw_key_size s) (raw_val_size s) (block_stats s ++ [bs]).

(** [EncodedSsTableBuilder::finish_block] *)
Definition finish_block b : result (option nat * EncodedSsTableBuilder) :=
  if is_drained b then mret (None, b)
  else
    let span := match current_block_first_key b, current_block_max_key b with
                | Some first, Some last => Some (first, last)
                | _, _ => None
                end in
    block ← encode_block (mkBlockEncoder (inner_builder (tb_builder b)) (current_len b) span
                            (tb_codec b) (tb_transformer b) (tb_block_size b) (tb_block_alignment b));
    encoded_len ← encoded_len_for_index (eb_encoded_len block) (padded_len block);
    first_key ← expect (tb_first_key b);
    let meta := mkMeta (eb_offset block) first_key encoded_len in
    mret (Some (padded_len block),
          mkTableBuilder (new_block_builder b) None (sst_first_key b) (sst_last_key b) None None
            (block_meta b ++ [meta]) (current_len b + Z.of_nat (padded_len block)) (tb_blocks b ++ [block])
            (add_block_stats (tb_stats b) (inner_stats (tb_builder b))) (filter_builders b)
            (tb_block_size b) (tb_block_alignment b) (tb_block_format b) (tb_version b) (tb_min_filter_keys b)
            (tb_codec b) (tb_transformer b)).

(** [for (_, fb) in &mut self.filter_builders { fb.add_entry(&entry) }] *)
Definition feed_filters (fbs : list (bytes * B)) (e : RowEntry) : result (list (bytes * B)) :=
  mapM (λ '(name, fb), fb ← add_entry fb e; mret (name, fb)) fbs.

(** The fields [EncodedSsTableBuilder::add] sets after the block is decided. *)
Definition set_first_key b (k : option bytes) : EncodedSsTableBuilder :=
  mkTableBuilder (tb_builder b) k (sst_first_key b) (sst_last_key b) (current_block_first_key b)
    (current_block_max_key b) (block_meta b) (current_len b) (tb_blocks b) (tb_stats b) (filter_builders b)
    (tb_block_size b) (tb_block_alignment b) (tb_block_format b) (tb_version b) (tb_min_filter_keys b)
    (tb_codec b) (tb_transformer b).
Definition set_stats b (s : SstStats) : EncodedSsTableBuilder :=
  mkTableBuilder (tb_builder b) (tb_first_key b) (sst_first_key b) (sst_last_key b) (current_block_first_key b)
    (current_block_max_key b) (block_meta b) (current_len b) (tb_blocks b) s (filter_builders b)
    (tb_block_size b) (tb_block_alignment b) (tb_block_format b) (tb_version b) (tb_min_filter_keys b)
    (tb_codec b) (tb_transformer b).

(** The last part of [EncodedSsTableBuilder::add]: the row goes to the filters and to the block. *)
Definition add_to_block b (entry : RowEntry) : result EncodedSsTableBuilder :=
  fbs ← feed_filters (filter_builders b) entry;
  let k := key entry in
  '(_, builder) ← with_stats_add (tb_builder b) entry;
  mret (mkTableBuilder builder (tb_first_key b)
    (match sst_first_key b with None => Some k | s => s end) (Some k)
    (if bb_is_empty (inner_builder (tb_builder b)) then Some k else current_block_first_key b) (Some k)
    (block_meta b) (current_len b) (tb_blocks b) (tb_stats b) fbs
    (tb_block_size b) (tb_block_alignment b) (tb_block_format b) (tb_version b) (tb_min_filter_keys b)
    (tb_codec b) (tb_transformer b)).

(** [EncodedSsTableBuilder::add] *)
Definition tb_add b (entry : RowEntry) : result (option nat * EncodedSsTableBuilder) :=
  let s := tb_stats b in
  let b := set_stats b (mkStats (st_num_puts s) (st_num_deletes s) (st_num_merges s)
             (raw_key_size s + Z.of_nat (length (key entry))) (raw_val_size s + Z.of_nat (value_len (value entry)))
             (block_stats s)) in
  index_key ← compute_index_key (current_block_max_key b) (key entry);
  fits ← bb_would_fit (inner_builder (tb_builder b)) entry;
  '(finished, b) ←
    (if negb fits then
       '(size, b) ← finish_block b; mret (size, set_first_key b (Some index_key))
     else if sst_first_key b is None then mret (None, set_first_key b (Some index_key))
     else mret (None, b));
  b ← add_to_block b entry;
  mret (finished, b).

(** [EncodedSsTableBuilder::next_block] *)
Definition next_block b : option EncodedSsTableBlock * EncodedSsTableBuilder :=
  match tb_blocks b with
  | [] => (None, b)
  | blk :: blks =>
      (Some blk,
       mkTableBuilder (tb_builder b) (tb_first_key b) (sst_first_key b) (sst_last_key b) (current_block_first_key b)
         (current_block_max_key b) (block_meta b) (current_len b) blks (tb_stats b) (filter_builders b)
         (tb_block_size b) (tb_block_alignment b) (tb_block_format b) (tb_version b) (tb_min_filter_keys b)
         (tb_codec b) (tb_transformer b))
  end.

(** [EncodedSsTable] *)
Record EncodedSsTable := mkEncodedSst {
  es_version : Z;
  es_info : SsTableInfo;
  es_index : SsTableIndex;
  es_filters : list NamedFilter;
  es_stats : option SstStats;
  unconsumed_blocks : list EncodedSsTableBlock;
  es_footer : bytes;
}.

(** The filters of [EncodedSsTableBuilder::build], if there are enough rows. *)
Definition build_filters b : result (list NamedFilter) :=
  if (tb_min_filter_keys b <=? num_rows (tb_stats b))%Z && bool_decide (filter_builders b ≠ [])
  then mapM (λ '(name, fb), filter ← build_filter fb; mret (mkNamedFilter name filter)) (filter_builders b)
  else mret [].

(** [EncodedSsTableBuilder::build] *)
Definition tb_build b : result EncodedSsTable :=
  '(_, b) ← finish_block b;
  filters ← build_filters b;
  footer ← build_footer (mkFooterBuilder (current_len b) (sst_first_key b) (sst_last_key b) (tb_codec b)
             (tb_transformer b) (block_meta b) filters (Some (tb_stats b)) (tb_version b) Compacted);
  mret (mkEncodedSst (tb_version b) (footer_info footer) (footer_index footer) (footer_filters footer)
          (footer_stats footer) (tb_blocks b) (encoded_bytes footer)).

(** [EncodedSsTable::remaining_len], [EncodedSsTable::remaining_as_bytes] *)
Definition remaining_len (t : EncodedSsTable) : nat :=
  sum_list (padded_len <$> unconsumed_blocks t) + length (es_footer t).
Definition remaining_as_bytes (t : EncodedSsTable) : bytes :=
  concat (padded_bytes <$> unconsumed_blocks t) ++ es_footer t.

(** ** The streaming writer ([tablestore.rs]) *)

(** [EncodedSsTableWriter]; the buffered upload is the bytes handed to it, [bytes_written] their
    number. *)
Record EncodedSsTableWriter := mkWriter {
  w_id : Ulid;
  w_builder : EncodedSsTableBuilder;
  uploaded : bytes;
}.

(** [TableStore::table_writer] *)
Definition table_writer f (id : Ulid) : result EncodedSsTableWriter :=
  b ← table_builder f; mret (mkWriter id b []).

(** [EncodedSsTableWriter::drain_blocks]: at most one turn per block waiting. *)
Fixpoint drain_loop (fuel : nat) (w : EncodedSsTableWriter) : result EncodedSsTableWriter :=
  match fuel with
  | O => OutOfFuel
  | S fuel =>
      match next_block (w_builder w) with
      | (Some block, b) => drain_loop fuel (mkWriter (w_id w) b (uploaded w ++ padded_bytes block))
      | (None, b) => mret (mkWriter (w_id w) b (uploaded w))
      end
  end.
Definition drain_blocks (w : EncodedSsTableWriter) : result EncodedSsTableWriter :=
  drain_loop (S (length (tb_blocks (w_builder w)))) w.

(** [EncodedSsTableWriter::add] *)
Definition writer_add (w : EncodedSsTableWriter) (entry : RowEntry) : result (option nat * EncodedSsTableWriter) :=
  '(size, b) ← tb_add (w_builder w) entry;
  w ← drain_blocks (mkWriter (w_id w) b (uploaded w));
  mret (size, w).

(** [EncodedSsTableWriter::write_tail], then [close]: the handle of the table and all that was
    uploaded for it. *)
Definition writer_close (w : EncodedSsTableWriter) : result (SsTableHandle * bytes) :=
  sst ← tb_build (w_builder w);
  let tail := concat (padded_bytes <$> unconsumed_blocks sst) ++ es_footer sst in
  mret (mkHandle (w_id w) (es_version sst) (es_info sst), uploaded w ++ tail).

(** The loop of every client of the writer: one [add] per row, then [close]. *)
Fixpoint writer_add_all (w : EncodedSsTableWriter) (es : list RowEntry) : result EncodedSsTableWriter :=
  match es with
  | [] => mret w
  | e :: es => '(_, w) ← writer_add w e; writer_add_all w es
  end.
Definition write_table f (id : Ulid) (es : list RowEntry) : result (SsTableHandle * bytes) :=
  w ← table_writer f id; w ← writer_add_all w es; writer_close w.

(** ** Reading *)

(** [Bytes::slice(start..end)] *)
Definition slice_range (b : bytes) (lo hi : nat) : result bytes :=
  if decide (lo ≤ hi ∧ hi ≤ length b) then mret (take (hi - lo) (drop lo b)) else Panic.

Definition NUM_FOOTER_BYTES : Z := 10.

(** [read_length_and_metadata_offset_and_version] *)
Definition read_tail (obj : ReadOnlyBlob) : result (Z * Z * Z) :=
  obj_len ← blob_len obj;
  if (obj_len <=? NUM_FOOTER_BYTES)%Z then Err EmptySSTable
  else
    header ← read_range obj (obj_len - NUM_FOOTER_BYTES) obj_len;
    _ ← rust_assert (Z.of_nat (length header) =? NUM_FOOTER_BYTES)%Z;
    version ← slice_range header 8 10;
    '(version, _) ← get_be 2 version;
    off ← slice_range header 0 8;
    '(off, _) ← get_be 8 off;
    mret (obj_len, off, version).

(** [validate_version] *)
Definition validate_version (version : Z) : result unit :=
  if is_supported_version version then mret tt else Err (InvalidVersion version).

(** [read_info_and_version] *)
Definition read_info_and_version (obj : ReadOnlyBlob) : result (SsTableInfo * Z) :=
  '(obj_len, sst_metadata_offset, version) ← read_tail obj;
  _ ← validate_version version;
  sst_metadata_bytes ← read_range obj sst_metadata_offset (obj_len - NUM_FOOTER_BYTES);
  info ← decode_info sst_metadata_bytes;
  mret (info, version).

(** [self.filter_policies.iter().find(|p| p.name() == name)] *)
Definition find_policy f (name : bytes) : option (FilterPolicy B F) :=
  snd <$> list_find (λ p, policy_name p = name) (filter_policies f).

(** The loop of [decode_composite_filter_block]. *)
Fixpoint decode_named_filters f (n : nat) (cursor : bytes) : result (list NamedFilter) :=
  match n with
  | O => mret []
  | S n =>
      if decide (length cursor < 2) then Err InvalidFilterBlock else
      '(name_len, cursor) ← get_be 2 cursor;
      let name_len := Z.to_nat name_len in
      if decide (length cursor < name_len) then Err InvalidFilterBlock else
      let name := take name_len cursor in
      if negb (is_utf8 name) then Err InvalidFilterBlock else
      let cursor := drop name_len cursor in
      if decide (length cursor < 8) then Err InvalidFilterBlock else
      '(data_len, cursor) ← get_be 8 cursor;
      let data_len := Z.to_nat data_len in
      if decide (length cursor < data_len) then Err InvalidFilterBlock else
      let filter_data := take data_len cursor in
      let cursor := drop data_len cursor in
      match find_policy f name with
      | Some policy =>
          filter ← policy_decode policy filter_data;
          rest ← decode_named_filters f n cursor;
          mret (mkNamedFilter (policy_name policy) filter :: rest)
      | None => decode_named_filters f n cursor
      end
  end.

(** [decode_composite_filter_block] *)
Definition decode_composite f (data : bytes) : result (list NamedFilter) :=
  if decide (length data < 2) then Err InvalidFilterBlock
  else '(num_filters, cursor) ← get_be 2 data; decode_named_filters f (Z.to_nat num_filters) cursor.

(** [decode_filters] *)
Definition decode_filters f (info : SsTableInfo) (b : bytes) (codec : option CompressionCodec)
    : result (list NamedFilter) :=
  data ← decode_section f b codec;
  match filter_format info with
  | LegacyFilter =>
      match find_policy f Bloom.NAME with
      | Some policy => filter ← policy_decode policy data; mret [mkNamedFilter (policy_name policy) filter]
      | None => mret []
      end
  | CompositeFilter => decode_composite f data
  end.

(** [read_filters] *)
Definition read_filters f (info : SsTableInfo) (obj : ReadOnlyBlob) : result (list NamedFilter) :=
  if bool_decide (filter_policies f = []) || (filter_len info =? 0)%Z then mret []
  else
    let filter_end := (filter_offset info + filter_len info)%Z in
    filter_bytes ← read_range obj (filter_offset info) filter_end;
    decode_filters f info filter_bytes (compression_codec info).

(** [decode_index], [read_index] *)
Definition decode_index f (b : bytes) (codec : option CompressionCodec) : result SsTableIndex :=
  data ← decode_section f b codec; index_decode data.
Definition read_index f (info : SsTableInfo) (obj : ReadOnlyBlob) : result SsTableIndex :=
  let index_end := (index_offset info + index_len info)%Z in
  index_bytes ← read_range obj (index_offset info) index_end;
  decode_index f index_bytes (compression_codec info).

(** [decode_stats], [read_stats] *)
Definition decode_stats f (b : bytes) (codec : option CompressionCodec) : result SstStats :=
  data ← decode_section f b codec; stats_decode data.
Definition read_stats f (info : SsTableInfo) (obj : ReadOnlyBlob) : result (option SstStats) :=
  if (stats_len info =? 0)%Z then mret None
  else
    let stats_end := (stats_offset info + stats_len info)%Z in
    stats_bytes ← read_range obj (stats_offset info) stats_end;
    stats ← decode_stats f stats_bytes (compression_codec info);
    mret (Some stats).

(** [block_range] *)
Definition block_range (info : SsTableInfo) (idx : SsTableIndex) (lo hi : nat) : result (Z * Z) :=
  let end_offset := if (0 <? filter_len info)%Z then filter_offset info else index_offset info in
  end_offset ← (if decide (hi < length idx) then m ← index idx hi; mret (meta_offset m) else mret end_offset);
  m ← index idx lo;
  mret (meta_offset m, end_offset).

(** [block_byte_range] *)
Definition block_byte_range (info : SsTableInfo) (idx : SsTableIndex) (block : nat) : result (Z * Z) :=
  m ← index idx block;
  if (0 <? meta_encoded_len m)%Z then mret (meta_offset m, meta_offset m + meta_encoded_len m)%Z
  else block_range info idx block (block + 1).

(** [fetched_index]: the subtraction underflows below the start of the fetched bytes. *)
Definition fetched_index (offset fetched_start : Z) : result nat :=
  if (offset <? fetched_start)%Z then Panic else mret (Z.to_nat (offset - fetched_start)).

(** [decode_block] *)
Definition decode_block f (b : bytes) (codec : option CompressionCodec) : result Block :=
  data ← decode_section f b codec; block_decode data.

(** [read_blocks] *)
Definition read_blocks f (info : SsTableInfo) (idx : SsTableIndex) (lo hi : nat) (obj : ReadOnlyBlob)
    : result (list Block) :=
  _ ← rust_assert (bool_decide (lo ≤ hi));
  _ ← rust_assert (bool_decide (hi ≤ length idx));
  if decide (lo = hi) then mret []
  else
    '(start_range, end_range) ← block_range info idx lo hi;
    fetched ← read_range obj start_range end_range;
    mapM (λ block,
      '(s, e) ← block_byte_range info idx block;
      s ← fetched_index s start_range;
      e ← fetched_index e start_range;
      block_bytes ← slice_range fetched s e;
      decode_block f block_bytes (compression_codec info)) (List.seq lo (hi - lo)).

(** [read_block] *)
Definition read_block f (info : SsTableInfo) (idx : SsTableIndex) (block : nat) (obj : ReadOnlyBlob)
    : result Block :=
  blocks ← read_blocks f info idx block (block + 1) obj;
  expect (head blocks).
End format.
