(* ===== verification/SstRoundtrip.v ===== *)
(** * SSTs written and read back ([tablestore.rs], [format/sst.rs], [sst_builder.rs])

    The streaming writer of an SST, the invariant of the table builder, and the round
    trip: whatever the writer uploads, the readers find again, the rows block by block,
    the index that separates the blocks, the statistics and the filters. *)

From S2P Require Export SstFormat.

(** ** What is relied on of the codecs *)

(** The widths of the encoded fields. *)
Definition meta_fits (m : BlockMeta) : Prop := is_u64 (meta_offset m) ∧ is_u32 (meta_encoded_len m).
Definition info_fits (i : SsTableInfo) : Prop :=
  is_u64 (index_offset i) ∧ is_u64 (index_len i) ∧ is_u64 (filter_offset i) ∧ is_u64 (filter_len i) ∧
  is_u64 (stats_offset i) ∧ is_u64 (stats_len i).
Definition block_stats_fit (s : BlockStats) : Prop :=
  is_u16 (bs_num_puts s) ∧ is_u16 (bs_num_deletes s) ∧ is_u16 (bs_num_merges s).
Definition stats_fit (s : SstStats) : Prop :=
  is_u64 (st_num_puts s) ∧ is_u64 (st_num_deletes s) ∧ is_u64 (st_num_merges s) ∧
  is_u64 (raw_key_size s) ∧ is_u64 (raw_val_size s) ∧ Forall block_stats_fit (block_stats s).

Class SstCodecLaws `{SstCodecs} : Prop := {
  crc32_range b : is_u32 (crc32 b);
  compress_lossless c d : ∃ d', lib_compress c d = Some d' ∧ lib_decompress c d' = Some d;
  info_nonempty i : info_encode i ≠ [];
  info_lossless i : info_fits i → info_decode (info_encode i) = Ok i;
  index_verifies idx : ∃ idx', index_decode (index_encode idx) = Ok idx';
  index_lossless idx : Forall meta_fits idx → index_decode (index_encode idx) = Ok idx;
  stats_lossless s : stats_fit s → stats_decode (stats_encode s) = Ok s;
}.

(** What [BlockTransformer] documents: [decode] inverts [encode]. *)
Definition transformer_lossless (t : BlockTransformer) : Prop :=
  ∀ d, ∃ d', transform_encode t d = Some d' ∧ transform_decode t d' = Some d.

(** An object that holds the bytes [data]. *)
Definition blob_reads (obj : ReadOnlyBlob) (data : bytes) : Prop :=
  blob_len obj = Ok (Z.of_nat (length data)) ∧
  ∀ lo hi, lo < hi → hi ≤ length data →
    read_range obj (Z.of_nat lo) (Z.of_nat hi) = Ok (take (hi - lo) (drop lo data)).

(** ** General lemmas *)

Lemma mapM_Ok {E A C} (g : A → outcome E C) l k :
  Forall2 (λ x y, g x = Ok y) l k → mapM g l = Ok k.
Proof. induction 1 as [|x y l k Hx _ IH]; [done|]. cbn. rewrite Hx. run. rewrite IH. by run. Qed.

Lemma take_drop_middle (a b c : bytes) n m :
  n = length a → m = length b → take m (drop n (a ++ b ++ c)) = b.
Proof. intros -> ->. by rewrite drop_app_length, take_app_length. Qed.

Lemma next_multiple_ge a b : 0 < b → a ≤ next_multiple_of a b.
Proof.
  intros Hb. unfold next_multiple_of, nat_div_ceil.
  pose proof (Nat.div_mod_eq (a + (b - 1)) b). pose proof (Nat.mod_upper_bound (a + (b - 1)) b). nia.
Qed.

(** ** One block *)

(** The format of the blocks of a table. *)
Definition table_format {B F} (f : SsTableFormat (B:=B) (F:=F)) : BlockFormat := default FormatLatest (block_format f).

(** The bytes of [blk] are the rows [es] in the layout of the format. *)
Definition block_holds (fmt : BlockFormat) (blk : Block) (es : list RowEntry) : Prop :=
  match fmt with FormatV1 => v1_block blk es | _ => v2_block blk DEFAULT_RESTART_INTERVAL es end.

(** The builder holds the rows [es]. *)
Definition bb_builds (fmt : BlockFormat) (cap : nat) (b : BlockBuilder) (es : list RowEntry) : Prop :=
  match fmt, b with
  | FormatV1, BuildV1 b => v1_builds b es ∧ BuilderV1.block_size b = cap
  | FormatV2, BuildV2 b | FormatLatest, BuildV2 b =>
      v2_builds b es ∧ BuilderV2.block_size b = cap ∧ BuilderV2.restart_interval b = DEFAULT_RESTART_INTERVAL
  | _, _ => False
  end.

Definition new_builder (fmt : BlockFormat) (cap : nat) : BlockBuilder :=
  match fmt with FormatV1 => new_v1 cap | FormatV2 => new_v2 cap | FormatLatest => new_latest cap end.

Lemma bb_builds_new fmt cap : bb_builds fmt cap (new_builder fmt cap) [].
Proof.
  destruct fmt; cbn; [split; [apply v1_builds_new|done]|..];
    (split; [apply v2_builds_new; unfold DEFAULT_RESTART_INTERVAL; lia|done]).
Qed.

Section builders.
  Context (fmt : BlockFormat) (cap : nat) (Hcap : (Z.of_nat cap ≤ 65536)%Z).

Lemma bb_empty b es : bb_builds fmt cap b es → bb_is_empty b = bool_decide (es = []).
Proof.
  destruct fmt, b as [b|b]; try done; cbn; intros [Hb _]; by (apply v1_is_empty || apply v2_is_empty).
Qed.

Lemma bb_add_ok b es e :
  bb_builds fmt cap b es → storable e →
  ∃ fits, bb_would_fit b e = Ok fits ∧ (es = [] → fits = true) ∧
    (fits = true → ∃ b', bb_add b e = Ok (true, b') ∧ bb_builds fmt cap b' (es ++ [e])).
Proof.
  intros Hb He. destruct fmt, b as [b|b]; try done; cbn in Hb |- *.
  1: { destruct Hb as [Hb <-]. rewrite (v1_would_fit b es e Hb). eexists. split; [done|].
    pose proof (v1_add b es e Hb He Hcap) as Ha. split; [by intros ->|]. intros Hf. rewrite Hf in Ha.
    destruct Ha as (b' & -> & Hb' & Hs). run. by exists (BuildV1 b'). }
  all: destruct Hb as (Hb & <- & HR); rewrite (v2_would_fit b es Hb e He); eexists; (split; [done|]);
    pose proof (v2_add b es Hb e He Hcap) as Ha; (split; [by intros ->|]); intros Hf; rewrite Hf in Ha;
    destruct Ha as (b' & -> & Hb' & Hs & HR'); run; exists (BuildV2 b'); (split; [done|]); by rewrite HR', HR.
Qed.

(** A block has fewer rows than its 16-bit counters can count. *)
Lemma bb_rows b es : bb_builds fmt cap b es → (Z.of_nat (length es) < 65536)%Z.
Proof.
  intros Hb. destruct fmt, b as [b|b]; try done; cbn in Hb.
  1: { destruct Hb as [Hb <-]. pose proof (v1_size_eq b es Hb). destruct (v1_size b es Hb); lia. }
  all: destruct Hb as (Hb & <- & HR); destruct (v2_size b es Hb) as [|Hs]; [lia|];
    unfold BuilderV2.current_size in Hs; rewrite (v2_data b es Hb) in Hs;
    pose proof (length_concat_nonempty _ (v2_chunks_nonempty (BuilderV2.restart_interval b) es)) as Hc;
    rewrite length_v2_chunks in Hc; lia.
Qed.

Lemma bb_build_ok b es :
  bb_builds fmt cap b es → es ≠ [] →
  ∃ blk, bb_build b = Ok blk ∧ block_holds fmt blk es ∧ block_decode (block_encode blk) = Ok blk.
Proof.
  intros Hb Hne. destruct fmt, b as [b|b]; try done; cbn in Hb |- *.
  1: { destruct Hb as [Hb <-]. destruct (v1_builds_block b es Hb Hne) as (blk & Hblk & Hh).
    exists blk. split_and!; [done..|]. by apply (v1_block_decodes b es). }
  all: destruct Hb as (Hb & <- & HR); destruct (v2_builds_block b es Hb Hne) as (blk & Hblk & Hh & _);
    exists blk; rewrite HR in Hh; split_and!; [done..|]; eapply (v2_block_decodes b es); [done..|by rewrite HR].
Qed.
End builders.

(** ** The table builder *)

(** The running statistics of a block and of the table. *)
Definition count_rows (es : list RowEntry) : BlockStats := foldl count_row default_block_stats (value <$> es).
Definition stats_of (bss : list (list RowEntry)) (es : list RowEntry) : SstStats :=
  let counts := count_rows <$> bss in
  mkStats (foldr Z.add 0%Z (bs_num_puts <$> counts)) (foldr Z.add 0%Z (bs_num_deletes <$> counts))
    (foldr Z.add 0%Z (bs_num_merges <$> counts)) (Z.of_nat (sum_list (length <$> (key <$> es))))
    (Z.of_nat (sum_list (value_len <$> (value <$> es)))) counts.

(** The index keys [ks] separate the blocks [bss]: a block's keys are at or above its index
    key, the keys of the blocks before it at or below. *)
Definition separated (ks : list bytes) (bss : list (list RowEntry)) : Prop :=
  length ks = length bss ∧
  ∀ i k, ks !! i = Some k →
    (∀ bl, bss !! i = Some bl → Forall (λ e, k ≼ key e) bl) ∧
    (∀ j bl, j < i → bss !! j = Some bl → Forall (λ e, key e ≼ k) bl).

(** A policy accepts the rows. *)
Definition policy_accepts {B F} `{FilterTraits B F} (p : FilterPolicy B F) (es : list RowEntry) : Prop :=
  is_ok (add_entries (policy_builder p) es) = true.

Lemma add_entries_app {B F} `{FilterTraits B F} (b : B) es1 es2 :
  add_entries b (es1 ++ es2) = (b ← add_entries b es1; add_entries b es2).
Proof.
  revert b. induction es1 as [|e es1 IH]; intros b; cbn [add_entries app]; [by run|].
  destruct (add_entry b e); cbn; [apply IH|done..].
Qed.

Lemma sum_list_snoc l n : sum_list (l ++ [n]) = sum_list l + n.
Proof. rewrite sum_list_with_app. cbn. lia. Qed.

Lemma foldr_add_snoc l z : foldr Z.add 0%Z (l ++ [z]) = (foldr Z.add 0 l + z)%Z.
Proof. induction l as [|x l IH]; cbn; lia. Qed.

Section table.
  Context `{SstCodecLaws} {B F : Type} `{FilterTraits B F} (f : SsTableFormat (B:=B) (F:=F)).
  Context (Hsize : (1 ≤ block_size f)%nat ∧ (Z.of_nat (block_size f) ≤ 65536)%Z).
  Context (Htransformer : ∀ t, block_transformer f = Some t → transformer_lossless t).

Notation codec := (f_compression_codec f).
Notation fmt := (table_format f).

Lemma validate_ok d : validate_checksum (d ++ put_be 4 (crc32 d)) = Ok d.
Proof.
  unfold validate_checksum. rewrite length_app, length_put_be. rewrite decide_True by (unfold CHECKSUM_SIZE; lia).
  replace (length d + 4 - CHECKSUM_SIZE) with (length d) by (unfold CHECKSUM_SIZE; lia).
  rewrite take_app_length, drop_app_length.
  rewrite <- (app_nil_r (put_be 4 (crc32 d))), get_put_be, bind_Ok.
  rewrite wrap_small by apply crc32_range. by rewrite Z.eqb_refl.
Qed.

(** A section appended to a buffer decodes to the data that was encoded. *)
Lemma section_ok buf data :
  ∃ s, compress_and_transform buf data codec (block_transformer f) = Ok (buf ++ s, length s) ∧
    4 ≤ length s ∧ decode_section f s codec = Ok data.
Proof.
  unfold compress_and_transform, decode_section, compress, decompress, transform.
  assert (∃ c, match codec with None => mret data | Some k => ok_or BlockCompressionError (lib_compress k data) end
      = Ok c ∧ match codec with Some k => ok_or BlockDecompressionError (lib_decompress k c) | None => mret c end = Ok data)
    as (c & -> & Hc).
  { destruct codec as [k|]; [|by eexists]. destruct (compress_lossless k data) as (d & -> & Hd).
    exists d. by rewrite Hd. }
  run. assert (∃ t, match block_transformer f with
      | Some t => ok_or BlockTransformError (transform_encode t c) | None => Ok c end = Ok t ∧
      match block_transformer f with
      | Some t' => ok_or BlockTransformError (transform_decode t' t) | None => Ok t end = Ok c)
    as (t & -> & Ht).
  { destruct (block_transformer f) as [tr|] eqn:Etr; [|by eexists].
    destruct (Htransformer tr eq_refl c) as (d & -> & Hd). exists d. by rewrite Hd. }
  run. exists (t ++ put_be 4 (crc32 t)). rewrite length_app, length_put_be.
  split; [done|]. split; [lia|]. rewrite validate_ok. run. rewrite Ht. run. exact Hc.
Qed.

(** An encoded block of the rows [es]. *)
Record block_written (es : list RowEntry) (eb : EncodedSsTableBlock) : Prop := {
  bw_holds : block_holds fmt (eb_block eb) es;
  bw_rows : (Z.of_nat (length es) < 65536)%Z;
  bw_len : 4 ≤ eb_encoded_len eb ≤ padded_len eb;
  bw_decode : decode_block f (take (eb_encoded_len eb) (padded_bytes eb)) codec = Ok (eb_block eb);
}.

Definition capacity : nat :=
  block_capacity (block_size f) (block_alignment f) (from_option encoded_overhead 0 (block_transformer f)).

Lemma capacity_bound : (Z.of_nat capacity ≤ 65536)%Z.
Proof. unfold capacity, block_capacity. destruct (block_alignment f); lia. Qed.

Lemma encode_block_ok bb off span es :
  bb_builds fmt capacity bb es → es ≠ [] →
  ∃ eb, encode_block (mkBlockEncoder bb off span codec (block_transformer f) (block_size f) (block_alignment f)) = Ok eb ∧
    eb_offset eb = off ∧ block_written es eb ∧ (block_alignment f = false → eb_encoded_len eb = padded_len eb).
Proof.
  intros Hb Hne. unfold encode_block.
  cbn [be_builder be_offset be_key_span be_codec be_transformer be_block_size be_alignment].
  destruct (bb_build_ok fmt capacity capacity_bound bb es Hb Hne) as (blk & -> & Hh & Hdec). run.
  destruct (section_ok [] (block_encode blk)) as (s & Hs & Hlen & Hd). cbn [app] in Hs.
  assert (∀ a, checked_next_multiple_of a (block_size f) = Ok (next_multiple_of a (block_size f))) as Hnm
    by (intros a; unfold checked_next_multiple_of; by rewrite decide_False by lia).
  assert (decode_block f s codec = Ok blk) as Hblk by (unfold decode_block; rewrite Hd; by run).
  destruct (block_alignment f); rewrite ?Hnm; run; rewrite Hs; run; rewrite ?Hnm; run.
  - pose proof (next_multiple_ge (length s) (block_size f) ltac:(lia)) as Hge.
    eexists. split; [done|]. cbn. split; [done|]. split; [|done].
    split; unfold padded_len; cbn; rewrite ?length_resize; [done|by apply (bb_rows fmt capacity capacity_bound bb)|lia|].
    rewrite take_resize, Nat.min_l by done. by rewrite resize_all.
  - eexists. split; [done|]. cbn. split; [done|]. split; [|done].
    split; unfold padded_len; cbn; [done|by apply (bb_rows fmt capacity capacity_bound bb)|lia|]. by rewrite firstn_all.
Qed.

(** The index entries of the blocks [ebs] laid out from [pos]. *)
Fixpoint metas_at (pos : nat) (metas : list BlockMeta) (ebs : list EncodedSsTableBlock) : Prop :=
  match metas, ebs with
  | [], [] => True
  | m :: metas, eb :: ebs =>
      meta_offset m = Z.of_nat pos ∧
      encoded_len_for_index (eb_encoded_len eb) (padded_len eb) = Ok (meta_encoded_len m) ∧
      metas_at (pos + padded_len eb) metas ebs
  | _, _ => False
  end.

Lemma metas_at_snoc pos metas ebs m eb :
  metas_at pos metas ebs → meta_offset m = Z.of_nat (pos + sum_list (padded_len <$> ebs)) →
  encoded_len_for_index (eb_encoded_len eb) (padded_len eb) = Ok (meta_encoded_len m) →
  metas_at pos (metas ++ [m]) (ebs ++ [eb]).
Proof.
  revert pos ebs. induction metas as [|m0 metas IH]; intros pos [|eb0 ebs] Hm Ho He; try done; cbn in *.
  - by rewrite Nat.add_0_r in Ho.
  - destruct Hm as (Hoff & Henc & Hm). split_and!; [done..|]. apply IH; [done| |done].
    rewrite Ho. f_equal. cbn. lia.
Qed.

(** The invariant: the blocks [done] are finished, the rows [cur] are in the current block, the
    encoded blocks [drained] were taken by the writer and the sizes of [counted] are counted. *)
Record tb_ok (b : EncodedSsTableBuilder (B:=B)) (done : list (list RowEntry)) (cur counted : list RowEntry)
    (drained : list EncodedSsTableBlock) : Prop := {
  tb_config : tb_block_size b = block_size f ∧ tb_block_alignment b = block_alignment f ∧
    tb_block_format b = fmt ∧ tb_version b = sst_format_version fmt ∧ tb_min_filter_keys b = min_filter_keys f ∧
    tb_codec b = codec ∧ tb_transformer b = block_transformer f;
  tb_current : bb_builds fmt capacity (inner_builder (tb_builder b)) cur;
  tb_current_stats : inner_stats (tb_builder b) = count_rows cur;
  tb_written : Forall2 block_written done (drained ++ tb_blocks b);
  tb_metas : metas_at 0 (block_meta b) (drained ++ tb_blocks b);
  tb_len : current_len b = Z.of_nat (sum_list (padded_len <$> drained ++ tb_blocks b));
  tb_index_keys :
    if decide (cur = []) then separated (meta_first_key <$> block_meta b) done
    else ∃ k, tb_first_key b = Some k ∧ separated ((meta_first_key <$> block_meta b) ++ [k]) (done ++ [cur]);
  tb_nonempty : Forall (λ bl, bl ≠ []) done;
  tb_first : sst_first_key b = key <$> head (concat done ++ cur);
  tb_last : sst_last_key b = key <$> last (concat done ++ cur);
  tb_span : current_block_first_key b = key <$> head cur ∧ current_block_max_key b = key <$> last cur;
  tb_stats_ok : tb_stats b = stats_of done counted;
  tb_filters : Forall2 (λ p '(name, fb), name = policy_name p ∧
      add_entries (policy_builder p) (concat done ++ cur) = Ok fb) (filter_policies f) (filter_builders b);
}.

(** The only failure of the builder: an aligned block longer than its 32-bit length field. *)
Definition or_oversized {A} (r : result A) (P : A → Prop) : Prop :=
  match r with Ok a => P a | Err InvalidDBState => block_alignment f = true | _ => False end.

Lemma or_oversized_bind {A C} (r : result A) (k : A → result C) P Q :
  or_oversized r P → (∀ a, P a → or_oversized (k a) Q) → or_oversized (r ≫= k) Q.
Proof. intros Hr Hk. destruct r as [a|e| |]; cbn in *; [by apply Hk|done..]. Qed.

Lemma encoded_len_ok es eb :
  block_written es eb → (block_alignment f = false → eb_encoded_len eb = padded_len eb) →
  or_oversized (encoded_len_for_index (eb_encoded_len eb) (padded_len eb))
    (λ n, encoded_len_for_index (eb_encoded_len eb) (padded_len eb) = Ok n).
Proof.
  intros Hw Hal. unfold encoded_len_for_index. case_decide; cbn; [done|]. case_decide; cbn; [done|].
  destruct (block_alignment f); [done|]. by rewrite Hal in *.
Qed.

Lemma new_block_builder_eq b done cur counted drained :
  tb_ok b done cur counted drained → new_block_builder b = with_stats_new (new_builder fmt capacity).
Proof.
  intros Hb. destruct (tb_config _ _ _ _ _ Hb) as (Hbs & Hal & Hfmt & _ & _ & _ & Htr).
  unfold new_block_builder, block_builder. by rewrite Hbs, Hal, Hfmt, Htr.
Qed.

Lemma stats_of_finish done cur counted :
  add_block_stats (stats_of done counted) (count_rows cur) = stats_of (done ++ [cur]) counted.
Proof.
  unfold add_block_stats, stats_of. cbn. rewrite !fmap_app. cbn. by rewrite !foldr_add_snoc.
Qed.

Lemma finish_block_ok b done cur counted drained :
  tb_ok b done cur counted drained → cur ≠ [] →
  or_oversized (finish_block b) (λ '(_, b'), tb_ok b' (done ++ [cur]) [] counted drained).
Proof.
  intros Hb Hne. unfold finish_block, is_drained.
  pose proof (new_block_builder_eq _ _ _ _ _ Hb) as Hnew.
  destruct Hb as [(Hbs & Hal & Hfmt & Hver & Hmin & Hcodec & Htr) Hcur Hcs Hwr Hmetas Hlen Hkeys Hnon Hfirst Hlast
    [Hsp1 Hsp2] Hstats Hfilters].
  rewrite (bb_empty fmt capacity _ cur Hcur), bool_decide_eq_false_2 by done.
  rewrite decide_False in Hkeys by done. destruct Hkeys as (k & Hk & Hsep).
  rewrite Hcodec, Htr, Hbs, Hal. 
  destruct (encode_block_ok _ (current_len b) (match current_block_first_key b, current_block_max_key b with
    | Some first, Some last => Some (first, last) | _, _ => None end) cur Hcur Hne) as (eb & -> & Hoff & Hw & Halign). run.
  eapply or_oversized_bind; [by apply (encoded_len_ok cur)|]. intros n Hn. rewrite Hk. run. cbn [or_oversized]. rewrite Hnew.
  split; cbn; rewrite ?app_nil_r.
  - done.
  - exact (bb_builds_new fmt capacity).
  - done.
  - rewrite app_assoc. apply Forall2_app; [done|]. by constructor.
  - rewrite app_assoc. apply metas_at_snoc; [done| |done]. cbn. by rewrite Hoff, Hlen.
  - rewrite app_assoc, fmap_app, list_fmap_singleton, sum_list_snoc, Hlen. lia.
  - by rewrite fmap_app.
  - apply Forall_app. split; [done|]. by constructor.
  - by rewrite concat_app, Hfirst; cbn; rewrite app_nil_r.
  - by rewrite concat_app, Hlast; cbn; rewrite app_nil_r.
  - done.
  - rewrite Hstats, Hcs. apply stats_of_finish.
  - rewrite concat_app. cbn. by rewrite app_nil_r.
Qed.

Lemma feed_filters_ok rows e fbs :
  Forall2 (λ p '(name, fb), name = policy_name p ∧ add_entries (policy_builder p) rows = Ok fb) (filter_policies f) fbs →
  Forall (λ p, policy_accepts p (rows ++ [e])) (filter_policies f) →
  ∃ fbs', feed_filters fbs e = Ok fbs' ∧
    Forall2 (λ p '(name, fb), name = policy_name p ∧ add_entries (policy_builder p) (rows ++ [e]) = Ok fb)
      (filter_policies f) fbs'.
Proof.
  unfold feed_filters. induction 1 as [|p [name fb] ps fbs [Hname Hfb] _ IH]; intros Hacc.
  { exists []. by split. }
  apply Forall_cons in Hacc as [Hp Hacc]. destruct (IH Hacc) as (fbs' & Hm & Hall).
  unfold policy_accepts in Hp. rewrite add_entries_app, Hfb in Hp. cbn in Hp.
  destruct (add_entry fb e) as [fb'| | |] eqn:He; cbn in Hp; try done.
  exists ((name, fb') :: fbs'). cbn. rewrite He. run. rewrite Hm. run. split; [done|]. constructor; [|done].
  split; [done|]. rewrite add_entries_app, Hfb. run. cbn. rewrite He. by run.
Qed.

(** Adding a row to the current block. *)
Lemma add_to_block_ok b done cur drained e :
  tb_ok b done cur (concat done ++ cur ++ [e]) drained → storable e →
  bb_would_fit (inner_builder (tb_builder b)) e = Ok true →
  Forall (λ p, policy_accepts p (concat done ++ cur ++ [e])) (filter_policies f) →
  (∃ k, tb_first_key b = Some k ∧ separated ((meta_first_key <$> block_meta b) ++ [k]) (done ++ [cur ++ [e]])) →
  ∃ b', add_to_block b e = Ok b' ∧ tb_ok b' done (cur ++ [e]) (concat done ++ cur ++ [e]) drained.
Proof.
  intros [Hconf Hcur Hcs Hwr Hmetas Hlen Hkeys Hnon Hfirst Hlast [Hsp1 Hsp2] Hstats Hfilters] He Hfit Hacc Hsep.
  unfold add_to_block. rewrite app_assoc in Hacc.
  destruct (feed_filters_ok _ e _ Hfilters Hacc) as (fbs & -> & Hfbs). run.
  destruct (bb_add_ok fmt capacity capacity_bound _ cur e Hcur He) as (fits & Hfit' & _ & Hadd).
  rewrite Hfit in Hfit'. simplify_eq. destruct (Hadd eq_refl) as (bb & Hbb & Hcur').
  unfold with_stats_add. rewrite Hbb. run. eexists. split; [done|].
  rewrite (bb_empty fmt capacity _ cur Hcur). split; cbn; rewrite ?app_assoc; try done.
  - rewrite Hcs. unfold count_rows. by rewrite fmap_app, foldl_app.
  - by rewrite decide_False by (by destruct cur).
  - rewrite Hfirst. by destruct (concat done ++ cur).
  - by rewrite last_snoc.
  - rewrite Hsp1, last_snoc. destruct cur; [by rewrite bool_decide_eq_true_2|by rewrite bool_decide_eq_false_2].
  - rewrite Hstats. by rewrite app_assoc.
Qed.

Lemma separated_grow ks k done cur e :
  separated (ks ++ [k]) (done ++ [cur]) → cur ≠ [] → keys_sorted (key <$> (cur ++ [e])) →
  separated (ks ++ [k]) (done ++ [cur ++ [e]]).
Proof.
  intros [Hlen Hs] Hne Hsorted. rewrite !length_app in Hlen. cbn in Hlen. split; [rewrite !length_app; cbn; lia|].
  intros i k' Hk'. destruct (Hs i k' Hk') as [Hself Hbefore]. split.
  - intros bl Hbl. destruct (decide (i = length done)) as [->|Hi].
    + rewrite list_lookup_middle in Hbl by done. simplify_eq.
      specialize (Hself cur ltac:(by apply list_lookup_middle)). apply Forall_app. split; [done|].
      apply Forall_singleton. destruct cur as [|x cur]; [done|]. apply Forall_cons in Hself as [Hx _].
      rewrite fmap_app in Hsorted. cbn in Hsorted. inversion Hsorted as [|? ? _ Hall]; subst.
      apply Forall_app in Hall as [_ Hall]. rewrite Forall_singleton in Hall. ord.
    + apply Hself. apply lookup_lt_Some in Hbl as Hlt. rewrite length_app in Hlt. cbn in Hlt.
      rewrite lookup_app_l in Hbl |- * by lia. done.
  - intros j bl Hj Hbl. apply lookup_lt_Some in Hk'. rewrite length_app in Hk'. cbn in Hk'.
    apply (Hbefore j); [done|]. by rewrite lookup_app_l in Hbl |- * by lia.
Qed.

Lemma separated_next ks done idx e :
  separated ks done → Forall (λ x, key x ≼ idx) (concat done) → idx ≼ key e →
  separated (ks ++ [idx]) (done ++ [[e]]).
Proof.
  intros [Hlen Hs] Hall Hidx. split; [rewrite !length_app; cbn; lia|]. intros i k Hk.
  destruct (decide (i = length ks)) as [->|Hi].
  - rewrite list_lookup_middle in Hk by done. simplify_eq. split.
    + intros bl Hbl. rewrite Hlen, list_lookup_middle in Hbl by done. simplify_eq. by apply Forall_singleton.
    + intros j bl Hj Hbl. rewrite lookup_app_l in Hbl by lia. apply Forall_forall. intros x Hx.
      rewrite Forall_forall in Hall. apply Hall. apply elem_of_concat. exists bl. split; [done|].
      by eapply list_elem_of_lookup_2.
  - apply lookup_lt_Some in Hk as Hlt. rewrite length_app in Hlt. cbn in Hlt. rewrite lookup_app_l in Hk by lia.
    destruct (Hs i k Hk) as [Hself Hbefore]. split.
    + intros bl Hbl. rewrite lookup_app_l in Hbl by lia. by apply Hself.
    + intros j bl Hj Hbl. rewrite lookup_app_l in Hbl by lia. by apply (Hbefore j).
Qed.

Lemma keys_sorted_last (l : list RowEntry) x :
  keys_sorted (key <$> (l ++ [x])) → Forall (λ y, key y ≼ key x) l.
Proof.
  intros Hs. apply Forall_forall. intros y [i Hi]%list_elem_of_lookup_1.
  eapply (keys_sorted_lookup _ i (length l)); [exact Hs|apply lookup_lt_Some in Hi; lia| |].
  - by rewrite list_lookup_fmap, lookup_app_l, Hi by (by eapply lookup_lt_Some).
  - by rewrite list_lookup_fmap, list_lookup_middle.
Qed.

Lemma index_key_ok prev this :
  prev ≠ [] → this ≠ [] → prev ≼ this →
  ∃ idx, compute_lower_bound prev this = Ok idx ∧ prev ≼ idx ∧ idx ≼ this.
Proof.
  intros Hp Ht Hle. destruct (compute_lower_bound_cases prev this Hp Ht Hle) as [[-> Hl]|(d & y & rest & -> & _ & Hlt & Hl)].
  - exists this. split_and!; [done|ord|ord].
  - exists (d ++ [y]). split_and!; [done|ord|]. apply prefix_le.
Qed.

Lemma set_first_key_ok b done counted drained k :
  tb_ok b done [] counted drained → tb_ok (set_first_key b k) done [] counted drained.
Proof. intros []. by split. Qed.

(** A row that starts a block. *)
Lemma add_starts_block b done drained e idx :
  tb_ok b done [] (concat done ++ [e]) drained → storable e →
  Forall (λ p, policy_accepts p (concat done ++ [e])) (filter_policies f) →
  Forall (λ y, key y ≼ idx) (concat done) → idx ≼ key e →
  ∃ b', add_to_block (set_first_key b (Some idx)) e = Ok b' ∧ tb_ok b' done [e] (concat done ++ [e]) drained.
Proof.
  intros Hb He Hacc Hle Hidx. apply (add_to_block_ok _ done []); [by apply set_first_key_ok|done| |done|].
  - destruct (bb_add_ok fmt capacity capacity_bound _ [] e (tb_current _ _ _ _ _ Hb) He) as (ft & Hft & Hfe & _).
    cbn. by rewrite Hft, Hfe.
  - exists idx. split; [done|]. pose proof (tb_index_keys _ _ _ _ _ Hb) as Hk. rewrite decide_True in Hk by done.
    by apply separated_next.
Qed.

(** A row that joins the current block. *)
Lemma add_joins_block b done cur drained e :
  tb_ok b done cur (concat done ++ cur ++ [e]) drained → cur ≠ [] → storable e →
  bb_would_fit (inner_builder (tb_builder b)) e = Ok true → keys_sorted (key <$> (cur ++ [e])) →
  Forall (λ p, policy_accepts p (concat done ++ cur ++ [e])) (filter_policies f) →
  ∃ b', add_to_block b e = Ok b' ∧ tb_ok b' done (cur ++ [e]) (concat done ++ cur ++ [e]) drained.
Proof.
  intros Hb Hne He Hfit Hs Hacc. apply add_to_block_ok; [done..|].
  pose proof (tb_index_keys _ _ _ _ _ Hb) as Hk. rewrite decide_False in Hk by done.
  destruct Hk as (k & Hk & Hsep). exists k. split; [done|]. by apply separated_grow.
Qed.

(** Counting the sizes of a row. *)
Definition count_sizes (s : SstStats) (e : RowEntry) : SstStats :=
  mkStats (st_num_puts s) (st_num_deletes s) (st_num_merges s) (raw_key_size s + Z.of_nat (length (key e)))
    (raw_val_size s + Z.of_nat (value_len (value e))) (block_stats s).

Lemma set_stats_ok b done cur counted drained e :
  tb_ok b done cur counted drained →
  tb_ok (set_stats b (count_sizes (tb_stats b) e)) done cur (counted ++ [e]) drained.
Proof.
  intros [Hconf Hcur Hcs Hwr Hmetas Hlen Hkeys Hnon Hfirst Hlast Hsp Hstats Hfilters].
  split; try done. cbn. rewrite Hstats. unfold count_sizes, stats_of. cbn. rewrite !fmap_app.
  cbn [fmap list_fmap]. rewrite !sum_list_snoc. f_equal; lia.
Qed.

(** The index key of a row that follows the row [x]. *)
Lemma index_key_after done cur x e :
  storable x → storable e → keys_sorted (key <$> (concat done ++ (cur ++ [x]) ++ [e])) →
  ∃ idx, compute_lower_bound (key x) (key e) = Ok idx ∧ idx ≼ key e ∧
    Forall (λ y, key y ≼ idx) (concat done ++ (cur ++ [x])).
Proof.
  intros Hx He Hs. rewrite app_assoc in Hs. pose proof (keys_sorted_last _ _ Hs) as Hle.
  rewrite fmap_app in Hs. apply StronglySorted_app in Hs as (_ & Hs & _).
  rewrite app_assoc in Hs, Hle |- *. pose proof (keys_sorted_last _ _ Hs) as Hx0.
  rewrite Forall_app, Forall_singleton in Hle. destruct Hle as [_ Hxe].
  destruct (index_key_ok (key x) (key e)) as (idx & Hidx & Hpi & Hie); [apply Hx|apply He|done|].
  exists idx. split_and!; [done..|]. rewrite Forall_app, Forall_singleton. split; [|done].
  eapply Forall_impl; [exact Hx0|]. cbn. intros y Hy. ord.
Qed.

(** [EncodedSsTableBuilder::add] keeps the invariant. *)
Lemma tb_add_ok b done cur drained e :
  tb_ok b done cur (concat done ++ cur) drained → (cur = [] → done = []) → storable e → Forall storable cur →
  keys_sorted (key <$> (concat done ++ cur ++ [e])) →
  Forall (λ p, policy_accepts p (concat done ++ cur ++ [e])) (filter_policies f) →
  or_oversized (tb_add b e) (λ '(_, b'), ∃ done' cur', cur' ≠ [] ∧ Forall storable cur' ∧
    concat done' ++ cur' = concat done ++ cur ++ [e] ∧ tb_ok b' done' cur' (concat done' ++ cur') drained).
Proof.
  intros Hb Hstart He Hst Hsorted Hacc. unfold tb_add. fold (count_sizes (tb_stats b) e).
  pose proof (set_stats_ok b done cur _ drained e Hb) as Hb1. rewrite <- app_assoc in Hb1.
  set (b1 := set_stats b (count_sizes (tb_stats b) e)) in *. clearbody b1. clear Hb.
  pose proof (tb_current _ _ _ _ _ Hb1) as Hcur. destruct (tb_span _ _ _ _ _ Hb1) as [_ Hmax].
  destruct (bb_add_ok fmt capacity capacity_bound _ cur e Hcur He) as (fits & Hfit & Hempty & _).
  rewrite Hmax, Hfit. destruct (decide (cur = [])) as [->|Hne].
  { rewrite (Hstart eq_refl) in *. rewrite (Hempty eq_refl) in *. cbn [last fmap option_fmap option_map compute_index_key].
    run. rewrite (tb_first _ _ _ _ _ Hb1). cbn [negb concat app head fmap option_fmap option_map]. run.
    destruct (add_starts_block b1 [] drained e []) as (b' & -> & Hb'); [done..|by destruct (key e)|].
    run. exists [], [e]. split_and!; [done|by constructor|done|done]. }
  destruct (exists_last Hne) as (cur0 & x & Hx). rewrite Hx, last_snoc. cbn [fmap option_fmap option_map compute_index_key].
  rewrite Hx in Hst. pose proof Hst as Hstx. rewrite Forall_app, Forall_singleton in Hstx.
  destruct (index_key_after done cur0 x e) as (idx & -> & Hie & Hle); [naive_solver|done|by rewrite <- Hx|].
  rewrite <- Hx in *. run. destruct fits; cbn [negb].
  - assert (is_Some (sst_first_key b1)) as [k1 ->].
    { rewrite (tb_first _ _ _ _ _ Hb1). destruct (concat done ++ cur) eqn:Hc; [|by eexists].
      apply app_eq_nil in Hc as [_ ?]. done. }
    run. destruct (add_joins_block b1 done cur drained e) as (b' & -> & Hb'); [done..| |done|].
    { rewrite fmap_app in Hsorted. by apply StronglySorted_app in Hsorted as (_ & _ & ?). }
    run. exists done, (cur ++ [e]). split_and!; [by destruct cur| |done|done].
    by rewrite Forall_app, Forall_singleton.
  - assert (concat (done ++ [cur]) = concat done ++ cur) as Hcat by (rewrite concat_app; cbn; by rewrite app_nil_r).
    eapply or_oversized_bind with (P := λ '(_, b3), ∃ b2, b3 = set_first_key b2 (Some idx) ∧
      tb_ok b2 (done ++ [cur]) [] (concat done ++ cur ++ [e]) drained).
    { eapply or_oversized_bind; [by apply (finish_block_ok b1 done cur)|]. intros [sz b2] Hb2. cbn. eauto. }
    intros [sz b3] (b2 & -> & Hb2).
    destruct (add_starts_block b2 (done ++ [cur]) drained e idx) as (b' & -> & Hb'); rewrite ?Hcat, <- ?app_assoc; try done.
    run. exists (done ++ [cur]), [e]. rewrite Hcat, <- app_assoc in Hb' |- *. split_and!; [done|by constructor|done|done].
Qed.

Lemma table_builder_ok : ∃ b, table_builder f = Ok b ∧ tb_ok b [] [] [] [].
Proof.
  unfold table_builder. unfold with_block_format, with_block_transformer, with_compression_codec.
  assert (∀ fmt' t, block_builder (block_size f) (block_alignment f) t fmt' =
    with_stats_new (new_builder fmt' (block_capacity (block_size f) (block_alignment f) (from_option encoded_overhead 0 t))))
    as Hbb by (by intros []).
  assert (∀ bs, bs = with_stats_new (new_builder fmt capacity) → ∀ b, tb_builder b = bs →
    block_meta b = [] → tb_blocks b = [] → current_len b = 0%Z → sst_first_key b = None → sst_last_key b = None →
    current_block_first_key b = None → current_block_max_key b = None → tb_stats b = default_stats →
    filter_builders b = (λ p, (policy_name p, policy_builder p)) <$> filter_policies f →
    tb_block_size b = block_size f ∧ tb_block_alignment b = block_alignment f ∧ tb_block_format b = fmt ∧
    tb_version b = sst_format_version fmt ∧ tb_min_filter_keys b = min_filter_keys f ∧ tb_codec b = codec ∧
    tb_transformer b = block_transformer f → tb_ok b [] [] [] []) as Hok.
  { intros bs -> b Hb Hm Hbl Hl Hf Hla Hc1 Hc2 Hs Hfb Hconf.
    split; rewrite ?Hb, ?Hm, ?Hbl, ?Hl, ?Hf, ?Hla, ?Hc1, ?Hc2, ?Hs, ?Hfb; try done.
    - exact (bb_builds_new fmt capacity).
    - apply Forall2_fmap_r, Forall_Forall2_diag, Forall_true. done. }
  unfold table_format, capacity in Hok. unfold table_format.
  destruct (block_format f), codec, (block_transformer f); cbn; run; eexists; (split; [done|]);
    eapply Hok; cbn; by rewrite ?Hbb.
Qed.

(** Taking the finished blocks out of the builder. *)
Lemma next_block_ok b done cur counted drained :
  tb_ok b done cur counted drained →
  match next_block b with
  | (None, b') => b' = b ∧ tb_blocks b = []
  | (Some eb, b') => tb_ok b' done cur counted (drained ++ [eb]) ∧ tb_blocks b = eb :: tb_blocks b'
  end.
Proof.
  intros Hb. unfold next_block. destruct (tb_blocks b) as [|eb ebs] eqn:Hbl; [done|]. split; [|done].
  destruct Hb as [Hconf Hcur Hcs Hwr Hmetas Hlen Hkeys Hnon Hfirst Hlast Hsp Hstats Hfilters].
  rewrite Hbl in *. split; cbn; rewrite <- ?app_assoc; done.
Qed.

(** ** The footer *)

Definition encodable (nfs : list (NamedFilter (F:=F))) : Prop :=
  (Z.of_nat (length nfs) ≤ u16_max)%Z ∧
  Forall (λ nf, (Z.of_nat (length (nf_name nf)) ≤ u16_max)%Z) nfs.

(** One entry of the composite block. *)
Definition named_bytes (nf : NamedFilter (F:=F)) : bytes :=
  put_be 2 (Z.of_nat (length (nf_name nf))) ++ nf_name nf ++
  put_be 8 (Z.of_nat (length (encode_filter (nf_filter nf)))) ++ encode_filter (nf_filter nf).
Definition composite_bytes (nfs : list (NamedFilter (F:=F))) : bytes :=
  put_be 2 (Z.of_nat (length nfs)) ++ concat (named_bytes <$> nfs).

Lemma encode_composite_ok nfs : encodable nfs → encode_composite nfs = Ok (composite_bytes nfs).
Proof.
  intros [Hn Hall]. unfold encode_composite, to_u16. rewrite decide_True by done. run.
  rewrite (mapM_Ok _ nfs (named_bytes <$> nfs)); [by run|].
  apply Forall2_fmap_r, Forall_Forall2_diag. eapply Forall_impl; [exact Hall|]. intros nf Hnf.
  unfold encode_named_filter, to_u16. cbn in Hnf. rewrite decide_True by done. by run.
Qed.

(** The sections of the footer, and the description that says where they are. *)
Record footer_layout (fb : EncodedSsTableFooterBuilder (F:=F)) (ft : EncodedSsTableFooter (F:=F)) (fs is_ ss : bytes) : Prop := {
  fl_bytes : encoded_bytes ft = fs ++ is_ ++ ss ++
    (info_encode (footer_info ft) ++ put_be 4 (crc32 (info_encode (footer_info ft)))) ++
    put_be 8 (blocks_size fb + Z.of_nat (length fs + length is_ + length ss)) ++ put_be 2 (fb_version fb);
  fl_info : footer_info ft = mkInfo (fb_first_entry fb) (fb_last_entry fb)
    (blocks_size fb + Z.of_nat (length fs)) (Z.of_nat (length is_)) (blocks_size fb) (Z.of_nat (length fs))
    codec (fb_sst_type fb) (blocks_size fb + Z.of_nat (length fs + length is_)) (Z.of_nat (length ss)) CompositeFilter;
  fl_filters : if decide (fb_filters fb = []) then fs = []
    else 4 ≤ length fs ∧ decode_section f fs codec = Ok (composite_bytes (fb_filters fb));
  fl_index : 4 ≤ length is_ ∧ decode_section f is_ codec = Ok (index_encode (fb_block_meta fb));
  fl_stats : 4 ≤ length ss ∧ (∀ st, fb_stats fb = Some st → decode_section f ss codec = Ok (stats_encode st));
  fl_index_value : index_decode (index_encode (fb_block_meta fb)) = Ok (footer_index ft);
  fl_same : footer_filters ft = fb_filters fb ∧ footer_stats ft = fb_stats fb;
}.

Lemma build_footer_ok fb st :
  fb_codec fb = codec → fb_transformer fb = block_transformer f → encodable (fb_filters fb) →
  fb_stats fb = Some st →
  ∃ ft fs is_ ss, build_footer fb = Ok ft ∧ footer_layout fb ft fs is_ ss.
Proof.
  intros Hc Ht Henc Hst. unfold build_footer. rewrite Hc, Ht, Hst.
  assert (∃ fs, (if decide (fb_filters fb = []) then mret ([], 0)
      else composite ← encode_composite (fb_filters fb); compress_and_transform [] composite codec (block_transformer f))
      = Ok (fs, length fs) ∧ if decide (fb_filters fb = []) then fs = []
        else 4 ≤ length fs ∧ decode_section f fs codec = Ok (composite_bytes (fb_filters fb))) as (fs & Hfs & Hfsd).
  { case_decide; [by exists []|]. rewrite encode_composite_ok by done. run.
    destruct (section_ok [] (composite_bytes (fb_filters fb))) as (fs & -> & Hlen & Hd). by exists fs. }
  rewrite Hfs. run. destruct (index_verifies (fb_block_meta fb)) as (idx & Hidx). rewrite Hidx. run.
  destruct (section_ok fs (index_encode (fb_block_meta fb))) as (is_ & -> & Hisl & Hisd). run.
  destruct (section_ok (fs ++ is_) (stats_encode st)) as (ss & -> & Hssl & Hssd). run.
  eexists _, fs, is_, ss. split; [done|].
  split; cbn [encoded_bytes footer_info footer_index footer_filters footer_stats]; try done; cbn [length].
  - unfold encode_info. by rewrite !length_app, Z.add_0_r, <- !app_assoc, <- Nat.add_assoc.
  - by rewrite Z.add_0_r, !length_app.
  - split; [done|]. intros st' Hst'. rewrite Hst in Hst'. by simplify_eq.
Qed.

(** ** A finished table *)

(** What the policies of a format promise for the rows of a table. *)
Record policies_ok (es : list RowEntry) : Prop := {
  po_count : (Z.of_nat (length (filter_policies f)) ≤ u16_max)%Z;
  po_names : NoDup (policy_name <$> filter_policies f);
  po_utf8 : Forall (λ p, is_utf8 (policy_name p) = true ∧ (Z.of_nat (length (policy_name p)) ≤ u16_max)%Z) (filter_policies f);
  po_sound : Forall (λ p, policy_sound p es) (filter_policies f);
  po_small p fb flt : p ∈ filter_policies f → add_entries (policy_builder p) es = Ok fb →
    build_filter fb = Ok flt → (Z.of_nat (length (encode_filter flt)) ≤ u64_max)%Z;
}.

(** The filter a policy builds from the rows [es]. *)
Definition filter_for (es : list RowEntry) (p : FilterPolicy B F) (nf : NamedFilter (F:=F)) : Prop :=
  nf_name nf = policy_name p ∧
  ∃ fb, add_entries (policy_builder p) es = Ok fb ∧ build_filter fb = Ok (nf_filter nf).

Lemma build_filters_ok b done cur counted drained :
  tb_ok b done cur counted drained → policies_ok (concat done ++ cur) →
  ∃ nfs, build_filters b = Ok nfs ∧ encodable nfs ∧
    (nfs = [] ∨ Forall2 (filter_for (concat done ++ cur)) (filter_policies f) nfs).
Proof.
  intros Hb Hp. unfold build_filters. destruct (_ && _).
  2:{ exists []. split; [done|]. split; [|by left]. split; [done|by constructor]. }
  assert (∃ nfs, mapM (λ '(name, fb), filter ← build_filter fb; mret (mkNamedFilter name filter)) (filter_builders b)
    = Ok nfs ∧ Forall2 (filter_for (concat done ++ cur)) (filter_policies f) nfs) as (nfs & Hm & Hall).
  { pose proof (po_sound _ Hp) as Hs. pose proof (tb_filters _ _ _ _ _ Hb) as Hf. clear -Hs Hf.
    induction Hf as [|p [name fb] ps fbs [-> Hfb] _ IH]; [by exists []|].
    apply Forall_cons in Hs as [(fb' & flt & _ & Hadd & Hflt & _) Hs]. destruct (IH Hs) as (nfs & Hm & Hall).
    rewrite Hfb in Hadd. simplify_eq. exists (mkNamedFilter (policy_name p) flt :: nfs). cbn. rewrite Hflt. run.
    rewrite Hm. run. split; [done|]. constructor; [|done]. split; [done|]. by exists fb'. }
  exists nfs. split; [done|]. split; [|by right]. split.
  - rewrite <- (Forall2_length _ _ _ Hall). apply Hp.
  - pose proof (po_utf8 _ Hp) as Hu. clear -Hu Hall. induction Hall as [|p nf ps nfs [Hn _] _ IH]; [by constructor|].
    apply Forall_cons in Hu as [[_ Hu] Hus]. constructor; [by rewrite Hn|by apply IH].
Qed.

(** A table built from the rows [es], cut into the blocks [bss]. *)
Record sst_written (es : list RowEntry) (bss : list (list RowEntry)) (ebs : list EncodedSsTableBlock)
    (sst : EncodedSsTable (F:=F)) : Prop := {
  sw_rows : concat bss = es;
  sw_nonempty : Forall (λ bl, bl ≠ []) bss;
  sw_blocks : Forall2 block_written bss ebs;
  sw_footer : ∃ metas nfs ft fs is_ ss,
    metas_at 0 metas ebs ∧ separated (meta_first_key <$> metas) bss ∧
    (nfs = [] ∨ Forall2 (filter_for es) (filter_policies f) nfs) ∧ encodable nfs ∧
    footer_layout (mkFooterBuilder (Z.of_nat (sum_list (padded_len <$> ebs))) (key <$> head es) (key <$> last es) codec
      (block_transformer f) metas nfs (Some (stats_of bss es)) (sst_format_version fmt) Compacted) ft fs is_ ss ∧
    es_version sst = sst_format_version fmt ∧ es_info sst = footer_info ft ∧ es_index sst = footer_index ft ∧
    es_filters sst = nfs ∧ es_stats sst = Some (stats_of bss es) ∧ es_footer sst = encoded_bytes ft;
}.

Lemma tb_finish_ok b done cur drained :
  tb_ok b done cur (concat done ++ cur) drained →
  or_oversized (finish_block b) (λ '(_, b'), ∃ done', concat done' = concat done ++ cur ∧
    tb_ok b' done' [] (concat done ++ cur) drained).
Proof.
  intros Hb. destruct (decide (cur = [])) as [->|Hne].
  - unfold finish_block, is_drained. rewrite (bb_empty fmt capacity _ [] (tb_current _ _ _ _ _ Hb)).
    cbn. exists done. by rewrite app_nil_r in *.
  - pose proof (finish_block_ok b done cur _ drained Hb Hne) as Hf.
    destruct (finish_block b) as [[sz b']|e| |]; cbn in Hf |- *; try done.
    exists (done ++ [cur]). rewrite concat_app. cbn. by rewrite app_nil_r.
Qed.

Lemma tb_build_ok b done cur drained :
  tb_ok b done cur (concat done ++ cur) drained → policies_ok (concat done ++ cur) →
  or_oversized (tb_build b) (λ sst, ∃ bss,
    sst_written (concat done ++ cur) bss (drained ++ unconsumed_blocks sst) sst).
Proof.
  intros Hb Hp. unfold tb_build. eapply or_oversized_bind; [by apply tb_finish_ok|].
  intros [sz b'] (bss & Hrows & Hb'). rewrite <- Hrows in Hb', Hp |- *. clear Hb Hrows.
  destruct (build_filters_ok b' bss [] _ drained Hb') as (nfs & -> & Henc & Hnfs); [by rewrite app_nil_r|]. run.
  rewrite app_nil_r in Hnfs.
  destruct Hb' as [(_ & _ & Hfmt & Hver & _ & Hcodec & Htr) _ _ Hwr Hmetas Hlen Hkeys Hnon Hfirst Hlast _ Hstats _].
  rewrite app_nil_r in *. rewrite Hlen, Hfirst, Hlast, Hcodec, Htr, Hstats, Hver.
  set (fb := mkFooterBuilder _ _ _ _ _ _ _ _ _ _).
  destruct (build_footer_ok fb (stats_of bss (concat bss))) as (ft & fs & is_ & ss & -> & Hl); [done..|]. run.
  cbn [or_oversized]. exists bss. split; [done..|]. rewrite decide_True in Hkeys by done.
  exists (block_meta b'), nfs, ft, fs, is_, ss. cbn.
  destruct (fl_same _ _ _ _ _ Hl) as [Hff Hfs]. split_and!; try done.
Qed.

(** ** Reading a finished table *)

Lemma read_section_ok obj a sec c :
  blob_reads obj (a ++ sec ++ c) → sec ≠ [] →
  read_range obj (Z.of_nat (length a)) (Z.of_nat (length a) + Z.of_nat (length sec)) = Ok sec.
Proof.
  intros [_ Hr] Hne. rewrite <- Nat2Z.inj_add, Hr.
  - f_equal. apply take_drop_middle; lia.
  - destruct sec; [done|]. cbn. lia.
  - rewrite !length_app. lia.
Qed.

Section reading.
  Context (es : list RowEntry) (bss : list (list RowEntry)) (ebs : list EncodedSsTableBlock).
  Context (metas : SsTableIndex) (nfs : list (NamedFilter (F:=F))) (ft : EncodedSsTableFooter (F:=F)) (fs is_ ss : bytes).
  Context (Hblocks : Forall2 block_written bss ebs) (Hmetas : metas_at 0 metas ebs).
Let L : nat := sum_list (padded_len <$> ebs).
Let chunks : list bytes := padded_bytes <$> ebs.
  Context (Hl : footer_layout (mkFooterBuilder (Z.of_nat (sum_list (padded_len <$> ebs))) (key <$> head es)
      (key <$> last es) codec (block_transformer f) metas nfs (Some (stats_of bss es)) (sst_format_version fmt)
      Compacted) ft fs is_ ss).
Let data : bytes := concat chunks ++ encoded_bytes ft.
  Context (Hfits : (Z.of_nat (length (concat (padded_bytes <$> ebs) ++ encoded_bytes ft)) < 2 ^ 64)%Z).
  Context (obj : ReadOnlyBlob) (Hobj : blob_reads obj (concat (padded_bytes <$> ebs) ++ encoded_bytes ft)).
Let info : SsTableInfo := footer_info ft.

Lemma length_chunks : length (concat chunks) = L.
Proof. unfold chunks, L. clear. induction ebs as [|eb l IH]; [done|]. cbn. rewrite length_app, IH. done. Qed.

Lemma footer_bytes :
  encoded_bytes ft = fs ++ is_ ++ ss ++
    (info_encode info ++ put_be 4 (crc32 (info_encode info))) ++
    put_be 8 (Z.of_nat (L + (length fs + length is_ + length ss))) ++ put_be 2 (sst_format_version fmt).
Proof. rewrite (fl_bytes _ _ _ _ _ Hl). cbn [blocks_size fb_version]. by rewrite <- Nat2Z.inj_add. Qed.

Lemma length_data : length data =
  L + (length fs + length is_ + length ss) + (length (info_encode info) + 4) + 10.
Proof.
  unfold data. rewrite length_app, length_chunks, footer_bytes, !length_app, !length_put_be. lia.
Qed.

Lemma version_small : sst_format_version fmt = 1%Z ∨ sst_format_version fmt = 2%Z.
Proof. unfold table_format. destruct (block_format f) as [[]|]; [by left|by right..]. Qed.

Lemma read_tail_ok :
  read_tail obj = Ok (Z.of_nat (length data), Z.of_nat (L + (length fs + length is_ + length ss)), sst_format_version fmt).
Proof.
  unfold read_tail. rewrite (proj1 Hobj). run.
  change (concat (padded_bytes <$> ebs) ++ encoded_bytes ft) with data in *. pose proof length_data as Hlen.
  unfold NUM_FOOTER_BYTES. destruct (Z.leb_spec (Z.of_nat (length data)) 10); [lia|].
  set (M := Z.of_nat (L + (length fs + length is_ + length ss))).
  assert (data = (concat chunks ++ fs ++ is_ ++ ss ++ info_encode info ++ put_be 4 (crc32 (info_encode info))) ++
    (put_be 8 M ++ put_be 2 (sst_format_version fmt)) ++ []) as Hd.
  { unfold data. rewrite footer_bytes, app_nil_r. by rewrite <- !app_assoc. }
  set (hdr := put_be 8 M ++ put_be 2 (sst_format_version fmt)) in *.
  assert (length hdr = 10) as Hhd by (unfold hdr; by rewrite length_app, !length_put_be).
  assert (read_range obj (Z.of_nat (length data) - 10) (Z.of_nat (length data)) = Ok hdr) as ->.
  { erewrite <- (read_section_ok obj _ hdr []); [|rewrite <- Hd; exact Hobj|done].
    f_equal; rewrite Hd, !length_app, Hhd; cbn [length]; lia. }
  assert (slice_range hdr 8 10 = Ok (put_be 2 (sst_format_version fmt) ++ []) ∧ slice_range hdr 0 8 = Ok (put_be 8 M ++ []))
    as [Hs1 Hs2].
  { unfold slice_range. rewrite Hhd, !decide_True by lia. unfold hdr. rewrite !app_nil_r, drop_0. split.
    - rewrite (drop_app_length' (put_be 8 M)) by (by rewrite length_put_be). by rewrite take_ge by (by rewrite length_put_be).
    - by rewrite (take_app_length' (put_be 8 M)) by (by rewrite length_put_be). }
  clearbody hdr. run. rewrite Hhd. run. rewrite Hs1. run. rewrite get_put_be. run. rewrite Hs2. run. rewrite get_put_be. run.
  rewrite !wrap_small; [done|..].
  - change (2 ^ (8 * Z.of_nat 2))%Z with 65536%Z. destruct version_small as [-> | ->]; lia.
  - change (2 ^ (8 * Z.of_nat 8))%Z with (2 ^ 64)%Z. subst M. lia.
Qed.

Lemma decode_info_ok i : info_fits i → decode_info (info_encode i ++ put_be 4 (crc32 (info_encode i))) = Ok i.
Proof.
  intros Hi. unfold decode_info. rewrite length_app, length_put_be.
  rewrite decide_False by (pose proof (info_nonempty i); destruct (info_encode i); [done|cbn; lia]).
  replace (length (info_encode i) + 4 - 4) with (length (info_encode i)) by lia.
  rewrite take_app_length, drop_app_length, <- (app_nil_r (put_be 4 _)), get_put_be, bind_Ok.
  rewrite wrap_small by apply crc32_range. rewrite Z.eqb_refl. by apply info_lossless.
Qed.

Lemma info_ok_fits : info_fits info.
Proof.
  pose proof length_data as Hlen. change (concat (padded_bytes <$> ebs) ++ encoded_bytes ft) with data in *.
  unfold info. rewrite (fl_info _ _ _ _ _ Hl). unfold info_fits, is_u64. cbn. fold L. lia.
Qed.

Lemma read_info_ok : read_info_and_version obj = Ok (info, sst_format_version fmt).
Proof.
  unfold read_info_and_version. rewrite read_tail_ok. run. unfold validate_version, is_supported_version.
  assert ((sst_format_version fmt =? SST_FORMAT_VERSION)%Z || (sst_format_version fmt =? SST_FORMAT_VERSION_V2)%Z = true) as ->
    by (by destruct version_small as [-> | ->]).
  run. set (sec := info_encode info ++ put_be 4 (crc32 (info_encode info))).
  assert (read_range obj (Z.of_nat (L + (length fs + length is_ + length ss))) (Z.of_nat (length data) - NUM_FOOTER_BYTES) = Ok sec) as ->.
  { assert (data = (concat chunks ++ fs ++ is_ ++ ss) ++ sec ++ put_be 8 (Z.of_nat (L + (length fs + length is_ + length ss))) ++
      put_be 2 (sst_format_version fmt)) as Hd by (unfold data, sec; rewrite footer_bytes; by rewrite <- !app_assoc).
    erewrite <- (read_section_ok obj _ sec); [|rewrite <- Hd; exact Hobj|].
    - f_equal; [rewrite !length_app, length_chunks; lia|]. rewrite length_data. unfold NUM_FOOTER_BYTES, sec.
      rewrite !length_app, length_put_be, length_chunks. lia.
    - unfold sec. destruct (info_encode info); done. }
  run. unfold sec. rewrite decode_info_ok by apply info_ok_fits. by run.
Qed.

(** A section at its offset. *)
Lemma section_at a sec c :
  data = a ++ sec ++ c → 4 ≤ length sec →
  read_range obj (Z.of_nat (length a)) (Z.of_nat (length a) + Z.of_nat (length sec)) = Ok sec.
Proof.
  intros Hd Hlen. apply (read_section_ok obj a sec c); [rewrite <- Hd; exact Hobj|].
  intros ->. cbn in Hlen. lia.
Qed.

Lemma metas_lookup p ms bs i m :
  metas_at p ms bs → ms !! i = Some m →
  ∃ eb, bs !! i = Some eb ∧ meta_offset m = Z.of_nat (p + pos (padded_bytes <$> bs) i) ∧
    encoded_len_for_index (eb_encoded_len eb) (padded_len eb) = Ok (meta_encoded_len m).
Proof.
  revert p bs i. induction ms as [|m0 ms IH]; intros p [|eb bs] i Hm Hi; try done. cbn in Hm.
  destruct Hm as (Ho & He & Hm). destruct i as [|i]; cbn in Hi.
  - simplify_eq. exists eb. split_and!; [done| |done]. rewrite Ho. unfold pos. cbn. lia.
  - destruct (IH _ _ _ Hm Hi) as (eb' & Hb & Hoff & Hel). exists eb'. split_and!; [done| |done]. rewrite Hoff.
    unfold pos. cbn. rewrite length_app. unfold padded_len. lia.
Qed.

Lemma length_metas : length metas = length ebs.
Proof.
  clear -Hmetas. revert Hmetas. generalize 0. revert ebs.
  induction metas as [|m ms IH]; intros [|eb bs] p Hm; try done. cbn in *. f_equal. eapply IH. apply Hm.
Qed.

Lemma metas_fit : Forall meta_fits metas.
Proof.
  apply Forall_lookup. intros i m Hm. destruct (metas_lookup _ _ _ _ _ Hmetas Hm) as (eb & _ & Ho & Henc).
  change (concat (padded_bytes <$> ebs) ++ encoded_bytes ft) with data in *. split.
  - rewrite Ho. pose proof (pos_le (padded_bytes <$> ebs) i) as Hle. fold chunks in Hle |- *.
    unfold data in Hfits. rewrite length_app in Hfits. unfold is_u64. lia.
  - unfold encoded_len_for_index, is_u32 in *. unfold u32_max in Henc. case_decide; [injection Henc as <-; lia|].
    case_decide; [|done]. injection Henc as <-. lia.
Qed.

Lemma read_index_ok : read_index f info obj = Ok metas ∧ footer_index ft = metas.
Proof.
  destruct (fl_index _ _ _ _ _ Hl) as [Hlen Hdec]. pose proof (fl_index_value _ _ _ _ _ Hl) as Hv. cbn in Hdec, Hv.
  rewrite index_lossless in Hv by apply metas_fit. injection Hv as Hv. split; [|done].
  unfold read_index, info. rewrite (fl_info _ _ _ _ _ Hl). cbn. fold L.
  assert (read_range obj (Z.of_nat L + Z.of_nat (length fs)) (Z.of_nat L + Z.of_nat (length fs) + Z.of_nat (length is_)) = Ok is_) as ->.
  { erewrite <- (section_at (concat chunks ++ fs) is_); [|unfold data; rewrite footer_bytes; by rewrite <- !app_assoc|done].
    rewrite length_app, length_chunks. f_equal; lia. }
  run. unfold decode_index. rewrite Hdec. run. by apply index_lossless, metas_fit.
Qed.

Lemma read_stats_ok : stats_fit (stats_of bss es) → read_stats f info obj = Ok (Some (stats_of bss es)).
Proof.
  intros Hst. destruct (fl_stats _ _ _ _ _ Hl) as [Hlen Hdec]. specialize (Hdec _ eq_refl).
  unfold read_stats, info. rewrite (fl_info _ _ _ _ _ Hl). cbn. fold L.
  destruct (Z.eqb_spec (Z.of_nat (length ss)) 0); [lia|].
  assert (read_range obj (Z.of_nat L + Z.of_nat (length fs + length is_))
    (Z.of_nat L + Z.of_nat (length fs + length is_) + Z.of_nat (length ss)) = Ok ss) as ->.
  { erewrite <- (section_at (concat chunks ++ fs ++ is_) ss); [|unfold data; rewrite footer_bytes; by rewrite <- !app_assoc|done].
    rewrite !length_app, length_chunks. f_equal; lia. }
  run. unfold decode_stats. rewrite Hdec. run. by rewrite stats_lossless.
Qed.

Lemma pos_block i eb : ebs !! i = Some eb → pos chunks (S i) = pos chunks i + padded_len eb.
Proof. intros He. apply pos_S. unfold chunks. by rewrite list_lookup_fmap, He. Qed.

Lemma pos_all : pos chunks (length metas) = L.
Proof. rewrite pos_full; [apply length_chunks|]. unfold chunks. by rewrite length_fmap, length_metas. Qed.

Lemma pos_increasing i j : i < j → j ≤ length metas → pos chunks i < pos chunks j.
Proof.
  intros Hij Hj. apply pos_lt; [|done|unfold chunks; rewrite length_fmap, <- length_metas; lia]. unfold chunks.
  apply Forall_fmap, Forall_lookup. intros k eb He. destruct (Forall2_lookup_r _ _ _ _ _ Hblocks He) as (rows & _ & Hw).
  pose proof (bw_len _ _ Hw) as Hw'. unfold padded_len in Hw'. intros Hnil. cbn in Hnil. rewrite Hnil in Hw'. cbn in Hw'. lia.
Qed.

Lemma metas_offsets_NoDup : NoDup (meta_offset <$> metas).
Proof.
  apply NoDup_alt. intros i j o Hi Hj. rewrite list_lookup_fmap in Hi, Hj.
  destruct (metas !! i) as [m|] eqn:Hm, (metas !! j) as [m'|] eqn:Hm'; try done. cbn in Hi, Hj. simplify_eq.
  destruct (metas_lookup _ _ _ _ _ Hmetas Hm) as (_ & _ & Ho & _).
  destruct (metas_lookup _ _ _ _ _ Hmetas Hm') as (_ & _ & Ho' & _).
  apply lookup_lt_Some in Hm, Hm'. fold chunks in Ho, Ho'.
  destruct (Nat.lt_trichotomy i j) as [Hlt|[?|Hlt]]; [|done|].
  - pose proof (pos_increasing i j Hlt ltac:(lia)). lia.
  - pose proof (pos_increasing j i Hlt ltac:(lia)). lia.
Qed.

Lemma block_range_ok lo hi :
  lo < hi → hi ≤ length metas →
  block_range info metas lo hi = Ok (Z.of_nat (pos chunks lo), Z.of_nat (pos chunks hi)).
Proof.
  intros Hlo Hhi. unfold block_range.
  assert ((if (0 <? filter_len info)%Z then filter_offset info else index_offset info) = Z.of_nat L) as ->.
  { unfold info. rewrite (fl_info _ _ _ _ _ Hl). cbn. fold L.
    destruct (Z.ltb_spec 0 (Z.of_nat (length fs))); lia. }
  assert (∀ i m, metas !! i = Some m → meta_offset m = Z.of_nat (pos chunks i)) as Hoff.
  { intros i m Hm. by destruct (metas_lookup _ _ _ _ _ Hmetas Hm) as (eb & _ & Ho & _). }
  destruct (lookup_lt_is_Some_2 metas lo) as [m Hm]; [lia|]. unfold index. case_decide as Hd.
  - destruct (lookup_lt_is_Some_2 metas hi) as [m' Hm']; [lia|]. rewrite Hm, Hm'. run. by rewrite (Hoff _ _ Hm), (Hoff _ _ Hm').
  - rewrite Hm. run. rewrite (Hoff _ _ Hm). assert (hi = length metas) as -> by lia. by rewrite pos_all.
Qed.

Lemma block_byte_range_ok i eb :
  ebs !! i = Some eb →
  block_byte_range info metas i = Ok (Z.of_nat (pos chunks i), Z.of_nat (pos chunks i + eb_encoded_len eb)).
Proof.
  intros He. unfold block_byte_range, index.
  destruct (lookup_lt_is_Some_2 metas i) as [m Hm]; [rewrite length_metas; by eapply lookup_lt_Some|].
  destruct (metas_lookup _ _ _ _ _ Hmetas Hm) as (eb' & He' & Ho & Hlen). rewrite He in He'. injection He' as <-.
  rewrite Hm. run. fold chunks in Ho. cbn in Ho. destruct (Z.ltb_spec 0 (meta_encoded_len m)) as [Hp|Hp].
  - unfold encoded_len_for_index in Hlen. case_decide; [injection Hlen as Hlen; lia|].
    case_decide; [|done]. injection Hlen as <-. rewrite Ho. do 2 f_equal. lia.
  - rewrite block_range_ok by (apply lookup_lt_Some in Hm; lia). rewrite Nat.add_1_r, (pos_block i eb He).
    destruct (Forall2_lookup_r _ _ _ _ _ Hblocks He) as (rows & _ & Hw). pose proof (bw_len _ _ Hw).
    unfold encoded_len_for_index in Hlen. case_decide as Hpl; [by rewrite Hpl|].
    case_decide; [|done]. injection Hlen as Hlen. lia.
Qed.

Lemma slice_slice (l : bytes) a n s e :
  s ≤ e → e ≤ n → take (e - s) (drop s (take n (drop a l))) = take (e - s) (drop (a + s) l).
Proof. intros. rewrite <- (drop_drop l), skipn_firstn_comm, take_take. f_equal. lia. Qed.

Lemma data_block i eb n :
  ebs !! i = Some eb → n ≤ padded_len eb → take n (drop (pos chunks i) data) = take n (padded_bytes eb).
Proof.
  intros He Hn. unfold data. rewrite drop_app_le by (apply pos_le). rewrite drop_pos.
  assert (chunks !! i = Some (padded_bytes eb)) as Hc by (unfold chunks; by rewrite list_lookup_fmap, He).
  rewrite (drop_S _ _ _ Hc). cbn [concat]. rewrite <- app_assoc. by apply take_app_le.
Qed.

Lemma read_blocks_ok lo hi :
  lo ≤ hi → hi ≤ length metas →
  read_blocks f info metas lo hi obj = Ok (take (hi - lo) (drop lo (eb_block <$> ebs))).
Proof.
  intros Hlo Hhi. unfold read_blocks. rewrite !bool_decide_eq_true_2 by done. run. case_decide as Heq.
  { subst. by rewrite Nat.sub_diag. }
  rewrite block_range_ok by lia. run.
  pose proof (pos_increasing lo hi ltac:(lia) Hhi) as Hpos.
  rewrite (proj2 Hobj); [|done|].
  2:{ rewrite length_app. fold chunks. pose proof (pos_le chunks hi). lia. }
  run. change (concat (padded_bytes <$> ebs) ++ encoded_bytes ft) with data. apply mapM_Ok.
  apply Forall2_same_length_lookup. split; [rewrite length_seq, length_take, length_drop, length_fmap, <- length_metas; lia|].
  intros j i blk Hj Hblk. apply lookup_seq in Hj as [-> Hj].
  rewrite lookup_take_lt, lookup_drop, list_lookup_fmap in Hblk by done.
  destruct (ebs !! (lo + j)) as [eb|] eqn:He; [|done]. cbn in Hblk. injection Hblk as <-.
  rewrite (block_byte_range_ok _ _ He). run.
  destruct (Forall2_lookup_r _ _ _ _ _ Hblocks He) as (rows & _ & Hw). pose proof (bw_len _ _ Hw) as Hwl.
  pose proof (pos_mono chunks lo (lo + j) ltac:(lia)). pose proof (pos_mono chunks (S (lo + j)) hi ltac:(lia)) as Hle.
  rewrite (pos_block _ _ He) in Hle. pose proof (pos_le chunks hi).
  unfold fetched_index. repeat match goal with |- context [Z.ltb ?a ?b] => destruct (Z.ltb_spec a b); [lia|] end. run.
  unfold slice_range. rewrite decide_True.
  2:{ rewrite length_take, length_drop. unfold data. rewrite length_app. lia. }
  run. rewrite slice_slice by lia.
  replace (pos chunks lo + Z.to_nat (Z.of_nat (pos chunks (lo + j)) - Z.of_nat (pos chunks lo))) with (pos chunks (lo + j)) by lia.
  match goal with |- context [take ?n _] => replace n with (eb_encoded_len eb) by lia end.
  rewrite (data_block _ _ _ He) by lia. unfold info. rewrite (fl_info _ _ _ _ _ Hl). apply Hw.
Qed.

(** A filter that denies no row of the table. *)
Definition filter_sound (flt : F) : Prop :=
  ∀ q, ∃ ans, might_match flt q = Ok ans ∧
    (∀ e, e ∈ es → target_admits (query_target q) (key e) → ans = true).

(** A sound filter that stays sound through the encoding of its policy. *)
Definition named_sound (nf : NamedFilter (F:=F)) : Prop :=
  filter_sound (nf_filter nf) ∧ ∀ p, find_policy f (nf_name nf) = Some p →
    ∃ flt, policy_decode p (encode_filter (nf_filter nf)) = Ok flt ∧
      encode_filter flt = encode_filter (nf_filter nf) ∧ filter_sound flt.

Lemma find_policy_ok p : NoDup (policy_name <$> filter_policies f) → p ∈ filter_policies f →
  find_policy f (policy_name p) = Some p.
Proof.
  intros Hnd Hp. unfold find_policy.
  destruct (list_find_elem_of (λ q, policy_name q = policy_name p) (filter_policies f) p Hp eq_refl) as [[i q] Hq].
  rewrite Hq. apply list_find_Some in Hq as (Hq & Hn & _). cbn. f_equal.
  apply list_elem_of_lookup_1 in Hp as [j Hj].
  assert (i = j) as ->; [|congruence].
  eapply NoDup_lookup; [exact Hnd|by rewrite list_lookup_fmap, Hq|]. rewrite list_lookup_fmap, Hj. cbn. by rewrite Hn.
Qed.

Lemma decode_named_ok ps nfs' rest :
  policies_ok es → ps ⊆ filter_policies f → Forall2 (filter_for es) ps nfs' →
  ∃ out, decode_named_filters f (length nfs') (concat (named_bytes <$> nfs') ++ rest) = Ok out ∧
    Forall named_sound out ∧ length out = length nfs'.
Proof.
  intros Hp Hsub. induction 1 as [|p nf ps nfs' (Hname & fb & Hfb & Hflt) _ IH]; [by exists []|].
  assert (p ∈ filter_policies f) as Hin by (apply Hsub; left).
  destruct IH as (out & Hout & Hs & Hlen); [intros x Hx; apply Hsub; by right|].
  pose proof (po_utf8 _ Hp) as Hutf. rewrite Forall_forall in Hutf. destruct (Hutf p Hin) as [Hu Hnl].
  pose proof (po_sound _ Hp) as Hsnd. rewrite Forall_forall in Hsnd.
  destruct (Hsnd p Hin) as (fb' & flt & flt' & Hfb' & Hflt' & Hdec & Hsame & Hans).
  rewrite Hfb in Hfb'. injection Hfb' as <-. rewrite Hflt in Hflt'. injection Hflt' as <-.
  pose proof (po_small _ Hp p fb _ Hin Hfb Hflt) as Hsm. unfold u16_max, u64_max in *.
  exists (mkNamedFilter (policy_name p) flt' :: out). split; [|split; [|cbn; by rewrite Hlen]].
  2:{ constructor; [|done]. split; [done|]. cbn. intros p'. rewrite find_policy_ok by (done || apply Hp).
      intros [= <-]. exists flt'. by rewrite Hsame. }
  cbn [length decode_named_filters fmap list_fmap concat].
  assert ((named_bytes nf ++ concat (named_bytes <$> nfs')) ++ rest = put_be 2 (Z.of_nat (length (nf_name nf))) ++
    nf_name nf ++ put_be 8 (Z.of_nat (length (encode_filter (nf_filter nf)))) ++ encode_filter (nf_filter nf) ++
    concat (named_bytes <$> nfs') ++ rest) as -> by (unfold named_bytes at 1; by rewrite <- !app_assoc).
  rewrite decide_False by (rewrite length_app, length_put_be; lia).
  rewrite get_put_be, bind_Ok, wrap_small by (change (2 ^ (8 * Z.of_nat 2))%Z with 65536%Z; rewrite Hname; lia).
  rewrite Nat2Z.id, decide_False by (rewrite length_app; lia).
  rewrite take_app_length, drop_app_length, Hname, Hu. cbn [negb].
  rewrite decide_False by (rewrite length_app, length_put_be; lia).
  rewrite get_put_be, bind_Ok, wrap_small by (change (2 ^ (8 * Z.of_nat 8))%Z with 18446744073709551616%Z; lia).
  rewrite Nat2Z.id, decide_False by (rewrite length_app; lia).
  rewrite take_app_length, drop_app_length, find_policy_ok by (done || apply Hp). rewrite Hdec. run.
  rewrite Hout. by run.
Qed.

Lemma decode_composite_eq l :
  (Z.of_nat (length l) ≤ u16_max)%Z →
  decode_composite f (composite_bytes l) = decode_named_filters f (length l) (concat (named_bytes <$> l)).
Proof.
  intros Hn. unfold u16_max in Hn. unfold decode_composite, composite_bytes.
  rewrite decide_False by (rewrite length_app, length_put_be; lia).
  by rewrite get_put_be, bind_Ok, wrap_small, Nat2Z.id by (change (2 ^ (8 * Z.of_nat 2))%Z with 65536%Z; lia).
Qed.

Lemma read_filters_ok :
  policies_ok es → (nfs = [] ∨ Forall2 (filter_for es) (filter_policies f) nfs) → encodable nfs →
  ∃ out, read_filters f info obj = Ok out ∧ Forall named_sound out ∧ length out = length nfs.
Proof.
  intros Hp Hnfs [Hcount _]. unfold read_filters. pose proof (fl_filters _ _ _ _ _ Hl) as Hf. cbn [fb_filters] in Hf.
  assert (filter_len info = Z.of_nat (length fs) ∧ filter_offset info = Z.of_nat L ∧ compression_codec info = codec ∧
    filter_format info = CompositeFilter) as (-> & -> & -> & Hfmt).
  { unfold info. rewrite (fl_info _ _ _ _ _ Hl). done. }
  case_decide as Hd.
  { subst fs. cbn. rewrite orb_true_r. exists []. by rewrite Hd. }
  destruct Hnfs as [|Hnfs]; [done|]. destruct Hf as [Hlen Hdec].
  rewrite bool_decide_eq_false_2 by (intros E; rewrite E in Hnfs; by inversion Hnfs).
  destruct (Z.eqb_spec (Z.of_nat (length fs)) 0); [lia|]. cbn [orb].
  assert (read_range obj (Z.of_nat L) (Z.of_nat L + Z.of_nat (length fs)) = Ok fs) as ->.
  { erewrite <- (section_at (concat chunks) fs); [|unfold data; by rewrite footer_bytes|done]. by rewrite length_chunks. }
  run. unfold decode_filters. rewrite Hdec. run. rewrite Hfmt, decode_composite_eq by done. rewrite <- (app_nil_r (concat _)). by apply (decode_named_ok (filter_policies f)).
Qed.
End reading.

(** ** The writer *)

(** The writer after the rows [es]: what it uploaded are the drained blocks. *)
Definition writer_ok (w : EncodedSsTableWriter (B:=B)) (es : list RowEntry) : Prop :=
  ∃ done cur drained, concat done ++ cur = es ∧ (cur = [] → done = []) ∧ Forall storable cur ∧
    uploaded w = concat (padded_bytes <$> drained) ∧ tb_ok (w_builder w) done cur es drained.

Lemma drain_ok id b done cur counted drained up fuel :
  tb_ok b done cur counted drained → up = concat (padded_bytes <$> drained) → length (tb_blocks b) < fuel →
  ∃ w drained', drain_loop fuel (mkWriter id b up) = Ok w ∧ w_id w = id ∧
    uploaded w = concat (padded_bytes <$> drained') ∧ tb_ok (w_builder w) done cur counted drained'.
Proof.
  revert b drained up. induction fuel as [|fuel IH]; intros b drained up Hb Hup Hfuel; [lia|].
  cbn [drain_loop w_builder w_id uploaded]. pose proof (next_block_ok b done cur counted drained Hb) as Hn.
  destruct (next_block b) as [[eb|] b'].
  - destruct Hn as [Hb' Hbl]. apply (IH b' (drained ++ [eb])); [done| |rewrite Hbl in Hfuel; cbn in Hfuel; lia].
    rewrite fmap_app, concat_app, Hup. cbn. by rewrite app_nil_r.
  - destruct Hn as [-> _]. by exists (mkWriter id b up), drained.
Qed.

Lemma writer_add_ok w es e :
  writer_ok w es → storable e → keys_sorted (key <$> (es ++ [e])) →
  Forall (λ p, policy_accepts p (es ++ [e])) (filter_policies f) →
  or_oversized (writer_add w e) (λ '(_, w'), writer_ok w' (es ++ [e]) ∧ w_id w' = w_id w).
Proof.
  intros (done & cur & drained & <- & Hstart & Hst & Hup & Hb) He Hs Hacc. rewrite <- app_assoc in Hs, Hacc |- *.
  unfold writer_add. eapply or_oversized_bind; [by apply tb_add_ok|].
  intros [sz b'] (done' & cur' & Hne & Hst' & Hrows & Hb'). cbn beta iota.
  destruct (drain_ok (w_id w) b' done' cur' _ drained (uploaded w) (S (length (tb_blocks b'))) Hb' Hup)
    as (w' & drained' & Hd & Hid & Hup' & Hb''); [lia|].
  unfold drain_blocks. cbn [w_builder]. rewrite Hd. run. cbn [or_oversized]. split; [|done].
  exists done', cur', drained'. rewrite Hrows in Hb'' |- *. done.
Qed.

Lemma writer_add_all_ok w es es' :
  writer_ok w es → Forall storable es' → keys_sorted (key <$> (es ++ es')) →
  Forall (λ p, policy_accepts p (es ++ es')) (filter_policies f) →
  or_oversized (writer_add_all w es') (λ w', writer_ok w' (es ++ es') ∧ w_id w' = w_id w).
Proof.
  revert w es. induction es' as [|e es' IH]; intros w es Hw Hst Hs Hacc; cbn [writer_add_all].
  { by rewrite app_nil_r. }
  apply Forall_cons in Hst as [He Hst]. rewrite cons_middle, app_assoc in Hs, Hacc.
  eapply or_oversized_bind.
  - apply (writer_add_ok w es e); [done|done| |].
    + rewrite fmap_app in Hs. by apply StronglySorted_app in Hs as (_ & ? & _).
    + eapply Forall_impl; [exact Hacc|]. intros p Hp. unfold policy_accepts in *. rewrite add_entries_app in Hp.
      by destruct (add_entries (policy_builder p) (es ++ [e])).
  - intros [sz w'] [Hw' Hid]. cbn beta iota. rewrite cons_middle, app_assoc, <- Hid. by apply IH.
Qed.

(** The whole of a table is written, or an aligned block was too long. *)
Lemma write_table_ok id es :
  Forall storable es → keys_sorted (key <$> es) → policies_ok es →
  or_oversized (write_table f id es) (λ '(h, data), ∃ bss ebs sst, sst_written es bss ebs sst ∧
    h = mkHandle id (es_version sst) (es_info sst) ∧ data = concat (padded_bytes <$> ebs) ++ es_footer sst).
Proof.
  intros Hst Hs Hp. unfold write_table, table_writer. destruct table_builder_ok as (b & -> & Hb). run.
  assert (Forall (λ p, policy_accepts p es) (filter_policies f)) as Hacc.
  { eapply Forall_impl; [apply (po_sound _ Hp)|]. intros p (fb & flt & flt' & Hadd & _). unfold policy_accepts. by rewrite Hadd. }
  eapply or_oversized_bind; [apply (writer_add_all_ok _ [] es); [|done..]|].
  { exists [], [], []. split_and!; done || by constructor. }
  cbn [app]. intros w [(done & cur & drained & <- & _ & _ & Hup & Hw) Hid]. unfold writer_close.
  eapply or_oversized_bind; [by apply tb_build_ok|]. intros sst (bss & Hsst). cbn [or_oversized].
  exists bss, (drained ++ unconsumed_blocks sst), sst. split; [done|]. rewrite Hid. split; [done|].
  by rewrite Hup, fmap_app, concat_app, <- app_assoc.
Qed.
End table.

(** ** The statistics *)

(** The number of rows of a kind. *)
Definition rows_of (kind : ValueDeletable → bool) (es : list RowEntry) : Z :=
  Z.of_nat (length (filter (λ e, kind (value e) = true) es)).
Definition is_value (v : ValueDeletable) : bool := match v with Value _ => true | _ => false end.

Lemma rows_of_app kind es1 es2 : rows_of kind (es1 ++ es2) = (rows_of kind es1 + rows_of kind es2)%Z.
Proof. unfold rows_of. rewrite filter_app, length_app. lia. Qed.

Lemma rows_of_le kind es : (0 ≤ rows_of kind es ≤ Z.of_nat (length es))%Z.
Proof. unfold rows_of. pose proof (length_filter (λ e, kind (value e) = true) es). lia. Qed.

Lemma rows_of_one kind e : rows_of kind [e] = if kind (value e) then 1%Z else 0%Z.
Proof. unfold rows_of. rewrite filter_cons, filter_nil. by destruct (kind (value e)). Qed.

Lemma count_rows_exact es :
  (Z.of_nat (length es) < 65536)%Z →
  count_rows es = mkBlockStats (rows_of is_value es) (rows_of is_tombstone es) (rows_of is_merge es).
Proof.
  induction es as [|e es IH] using rev_ind; intros Hlen; [done|]. rewrite length_app in Hlen. cbn in Hlen.
  unfold count_rows in *. rewrite fmap_app, foldl_app, IH by lia. rewrite !rows_of_app.
  pose proof (rows_of_le is_value es). pose proof (rows_of_le is_tombstone es). pose proof (rows_of_le is_merge es).
  rewrite !rows_of_one. cbn. destruct (value e); cbn; rewrite ?wrap_small by lia; f_equal; lia.
Qed.

(** The statistics of the rows [es] cut into the blocks [bss], none of which overflows a counter. *)
Lemma stats_of_exact bss es :
  concat bss = es → Forall (λ bl, (Z.of_nat (length bl) < 65536)%Z) bss →
  st_num_puts (stats_of bss es) = rows_of is_value es ∧ st_num_deletes (stats_of bss es) = rows_of is_tombstone es ∧
  st_num_merges (stats_of bss es) = rows_of is_merge es.
Proof.
  intros <-. cbn. induction 1 as [|bl bss Hbl _ IH]; [done|]. cbn. rewrite !rows_of_app, count_rows_exact by done. cbn.
  destruct IH as (-> & -> & ->). done.
Qed.

(** ** The round trip *)

(** The rows fit the 64-bit counters of the statistics. *)
Definition rows_fit (es : list RowEntry) : Prop :=
  (Z.of_nat (length es) < 2 ^ 64 ∧ Z.of_nat (sum_list (length <$> (key <$> es))) < 2 ^ 64 ∧
   Z.of_nat (sum_list (value_len <$> (value <$> es))) < 2 ^ 64)%Z.

(** The configurations the database accepts. *)
Record format_ok {B F} (f : SsTableFormat (B:=B) (F:=F)) : Prop := {
  fo_size : 1 ≤ block_size f ∧ (Z.of_nat (block_size f) ≤ 65536)%Z;
  fo_transformer t : block_transformer f = Some t → transformer_lossless t;
}.

(** The object [obj] is the table [h] of the rows [es], cut into the blocks [bss] and
    described by the index [idx]. *)
Record table_readable `{SstCodecs} {B F} `{FilterTraits B F} (f : SsTableFormat (B:=B) (F:=F)) (obj : ReadOnlyBlob)
    (h : SsTableHandle) (es : list RowEntry) (bss : list (list RowEntry)) (idx : SsTableIndex) : Prop := {
  tr_open : read_info_and_version obj = Ok (handle_info h, format_version h);
  tr_version : format_version h = sst_format_version (table_format f);
  tr_bounds : first_entry (handle_info h) = key <$> head es ∧ last_entry (handle_info h) = key <$> last es;
  tr_rows : concat bss = es;
  tr_nonempty : Forall (λ bl, bl ≠ []) bss;
  tr_index : read_index f (handle_info h) obj = Ok idx;
  tr_separated : separated (meta_first_key <$> idx) bss;
  tr_offsets : NoDup (meta_offset <$> idx);
  tr_blocks : ∃ blks, Forall2 (block_holds (table_format f)) blks bss ∧
    ∀ lo hi, lo ≤ hi → hi ≤ length idx →
      read_blocks f (handle_info h) idx lo hi obj = Ok (take (hi - lo) (drop lo blks));
  tr_stats : ∃ st, read_stats f (handle_info h) obj = Ok (Some st) ∧
    st_num_puts st = rows_of is_value es ∧ st_num_deletes st = rows_of is_tombstone es ∧
    st_num_merges st = rows_of is_merge es ∧ length (block_stats st) = length bss ∧
    raw_key_size st = Z.of_nat (sum_list (length <$> (key <$> es))) ∧
    raw_val_size st = Z.of_nat (sum_list (value_len <$> (value <$> es)));
  tr_filters : ∃ nfs, read_filters f (handle_info h) obj = Ok nfs ∧ Forall (named_sound f es) nfs;
}.

Lemma written_blocks_small `{SstCodecLaws} {B F} (f : SsTableFormat (B:=B) (F:=F)) bss ebs :
  Forall2 (block_written f) bss ebs → Forall (λ bl, (Z.of_nat (length bl) < 65536)%Z) bss.
Proof. induction 1 as [|bl eb bss ebs Hw _ IH]; constructor; [apply Hw|done]. Qed.

Lemma stats_fit_ok bss es :
  concat bss = es → Forall (λ bl, (Z.of_nat (length bl) < 65536)%Z) bss → rows_fit es → stats_fit (stats_of bss es).
Proof.
  intros Hc Hsmall (Hn & Hk & Hv). destruct (stats_of_exact bss es Hc Hsmall) as (Hp & Hd & Hm).
  pose proof (rows_of_le is_value es). pose proof (rows_of_le is_tombstone es). pose proof (rows_of_le is_merge es).
  unfold stats_fit, is_u64. rewrite Hp, Hd, Hm. cbn. split_and!; try lia. apply Forall_fmap.
  eapply Forall_impl; [exact Hsmall|]. intros bl Hbl. cbn in Hbl |- *. rewrite count_rows_exact by done.
  unfold block_stats_fit, is_u16. cbn.
  pose proof (rows_of_le is_value bl). pose proof (rows_of_le is_tombstone bl). pose proof (rows_of_le is_merge bl). lia.
Qed.

(** A written table can be read. *)
Lemma written_readable `{SstCodecLaws} {B F} `{FilterTraits B F} (f : SsTableFormat (B:=B) (F:=F)) id es bss ebs sst obj :
  format_ok f → policies_ok f es → rows_fit es → sst_written f es bss ebs sst →
  (Z.of_nat (length (concat (padded_bytes <$> ebs) ++ es_footer sst)) < 2 ^ 64)%Z →
  blob_reads obj (concat (padded_bytes <$> ebs) ++ es_footer sst) →
  table_readable f obj (mkHandle id (es_version sst) (es_info sst)) es bss (es_index sst).
Proof.
  intros [Hsize _] Hp Hfit [Hrows Hnon Hblocks (metas & nfs & ft & fs & is_ & ss & Hmetas & Hsep & Hnfs & Henc & Hl & Hver & Hinfo & Hidx & _ & _ & Hft)]
    Hlen Hobj. rewrite Hft in Hlen, Hobj. pose proof (written_blocks_small f _ _ Hblocks) as Hsmall.
  destruct (read_index_ok f Hsize es bss ebs metas nfs ft fs is_ ss Hmetas Hl Hlen obj Hobj) as [Hri Hfi].
  rewrite Hfi in Hidx. split; cbn [handle_info format_version]; rewrite ?Hinfo, ?Hver, ?Hidx; try done.
  - by apply (read_info_ok f Hsize es bss ebs metas nfs ft fs is_ ss Hl Hlen).
  - by rewrite (fl_info _ _ _ _ _ _ Hl).
  - by eapply (metas_offsets_NoDup f).
  - exists (eb_block <$> ebs). split.
    + apply Forall2_fmap_l, Forall2_flip. eapply Forall2_impl; [exact Hblocks|]. intros bl eb Hw. apply Hw.
    + intros lo hi Hlo Hhi. by apply (read_blocks_ok f Hsize es bss ebs metas nfs ft fs is_ ss).
  - exists (stats_of bss es). split; [apply (read_stats_ok f Hsize es bss ebs metas nfs ft fs is_ ss Hl obj Hobj); by apply stats_fit_ok|].
    destruct (stats_of_exact bss es Hrows Hsmall) as (? & ? & ?). split_and!; try done. cbn. by rewrite length_fmap.
  - destruct (read_filters_ok f Hsize es bss ebs metas nfs ft fs is_ ss Hl obj Hobj Hp Hnfs Henc) as (out & Hout & Hs & _).
    by exists out.
Qed.

Lemma write_table_readable `{SstCodecLaws} {B F} `{FilterTraits B F} (f : SsTableFormat (B:=B) (F:=F)) id es h data obj :
  format_ok f → Forall storable es → keys_sorted (key <$> es) → rows_fit es → policies_ok f es →
  write_table f id es = Ok (h, data) → (Z.of_nat (length data) < 2 ^ 64)%Z → blob_reads obj data →
  handle_id h = id ∧ ∃ bss idx, table_readable f obj h es bss idx.
Proof.
  intros Hf Hst Hs Hfit Hp Hok. pose proof (write_table_ok f (fo_size f Hf) (fo_transformer f Hf) id es Hst Hs Hp) as Hw.
  rewrite Hok in Hw. destruct Hw as (bss & ebs & sst & Hsst & -> & ->). intros Hlen Hobj. split; [done|].
  exists bss, (es_index sst). by apply (written_readable f id es bss ebs sst).
Qed.


(** ** An instance of the codecs *)

Module Example.

(** A value as one number: any injective coding serves for the FlatBuffers encodings. *)
Definition code {A} `{Countable A} (a : A) : bytes := [Z.pos (encode a)].
Definition uncode {A} `{Countable A} (b : bytes) : result A :=
  match b with [Z.pos p] => ok_or InvalidFlatbuffer (decode p) | _ => Err InvalidFlatbuffer end.

Lemma uncode_code {A} `{Countable A} (a : A) : uncode (code a) = Ok a.
Proof. unfold uncode, code. by rewrite decode_encode. Qed.

Definition codec_num (c : option CompressionCodec) : Z :=
  match c with None => 0 | Some Snappy => 1 | Some Zlib => 2 | Some Lz4 => 3 | Some Zstd => 4 end.
Definition num_codec (z : Z) : option CompressionCodec :=
  if (z =? 1)%Z then Some Snappy else if (z =? 2)%Z then Some Zlib else if (z =? 3)%Z then Some Lz4
  else if (z =? 4)%Z then Some Zstd else None.

Definition info_tuple (i : SsTableInfo) :=
  (first_entry i, last_entry i, [index_offset i; index_len i; filter_offset i; filter_len i; stats_offset i; stats_len i],
   codec_num (compression_codec i), bool_decide (sst_type i = WalSst), bool_decide (filter_format i = LegacyFilter)).
Definition tuple_info (t : option bytes * option bytes * list Z * Z * bool * bool) : result SsTableInfo :=
  match t with
  | (fe, le, [io; il; fo; fl; so; sl], c, w, lg) =>
      mret (mkInfo fe le io il fo fl (num_codec c) (if w then WalSst else Compacted) so sl
        (if lg then LegacyFilter else CompositeFilter))
  | _ => Err InvalidFlatbuffer
  end.

Definition meta_tuple (m : BlockMeta) := (meta_offset m, meta_first_key m, meta_encoded_len m).
Definition tuple_meta (t : Z * bytes * Z) : BlockMeta := let '(o, k, l) := t in mkMeta o k l.
Definition block_stats_tuple (s : BlockStats) := (bs_num_puts s, bs_num_deletes s, bs_num_merges s).
Definition tuple_block_stats (t : Z * Z * Z) : BlockStats := let '(p, d, m) := t in mkBlockStats p d m.
Definition stats_tuple (s : SstStats) :=
  (st_num_puts s, st_num_deletes s, st_num_merges s, raw_key_size s, raw_val_size s, block_stats_tuple <$> block_stats s).
Definition tuple_stats (t : Z * Z * Z * Z * Z * list (Z * Z * Z)) : SstStats :=
  let '(p, d, m, k, v, bs) := t in mkStats p d m k v (tuple_block_stats <$> bs).

Definition decode_table_info (b : bytes) : result SsTableInfo := t ← uncode b; tuple_info t.
Definition decode_metas (b : bytes) : result SsTableIndex :=
  t ← uncode b; Ok (tuple_meta <$> (t : list (Z * bytes * Z))).
Definition decode_sst_stats (b : bytes) : result SstStats := t ← uncode b; Ok (tuple_stats t).

Global Instance codecs : SstCodecs := {
  crc32 b := wrap 32 (be_val b);
  lib_compress _ d := Some (1%Z :: d);
  lib_decompress _ d := match d with _ :: d => Some d | [] => None end;
  info_encode i := code (info_tuple i);
  info_decode := decode_table_info;
  index_encode idx := code (meta_tuple <$> idx);
  index_decode := decode_metas;
  stats_encode s := code (stats_tuple s);
  stats_decode := decode_sst_stats;
}.

Lemma fmap_inverse {A C} (g : A → C) (h : C → A) (l : list A) : (∀ a, h (g a) = a) → h <$> (g <$> l) = l.
Proof. intros Hh. induction l as [|a l IH]; [done|]. cbn. by rewrite Hh, IH. Qed.

Global Instance codec_laws : SstCodecLaws.
Proof.
  split.
  - intros b. apply wrap_range. lia.
  - intros c d. by exists (1%Z :: d).
  - done.
  - intros [fe le io il fo fl c t so sl lg] _. cbn [info_decode info_encode codecs]. unfold decode_table_info. rewrite uncode_code. run. cbn.
    by destruct c as [[]|], t, lg.
  - intros idx. eexists. cbn [index_decode index_encode codecs]. unfold decode_metas. rewrite uncode_code. by run.
  - intros idx _. cbn [index_decode index_encode codecs]. unfold decode_metas. rewrite uncode_code. run. by rewrite fmap_inverse by (by intros []).
  - intros [p d m k v bs] _. cbn [stats_decode stats_encode codecs]. unfold decode_sst_stats. rewrite uncode_code. run. cbn.
    by rewrite fmap_inverse by (by intros []).
Qed.

(** A transformer, a Bloom policy, small aligned blocks. *)
Definition reverser : BlockTransformer := mkTransformer (λ d, Some (reverse d)) (λ d, Some (reverse d)) 0.
Global Instance traits : FilterTraits Bloom.BloomFilterBuilder Bloom.BloomFilter := Bloom.bloom_traits be_val.
Definition bloom : FilterPolicy Bloom.BloomFilterBuilder Bloom.BloomFilter :=
  Bloom.bloom_policy (Bloom.mkBloomPolicy 10 true None).
Definition format : SsTableFormat := mkFormat 48 true 1 [bloom] None (Some reverser) None.
Definition rows : list RowEntry :=
  [mkRow [97]%Z (Value [1; 2; 3]%Z) 5 None None; mkRow [97]%Z Tombstone 4 None (Some 9%Z);
   mkRow [97; 98]%Z (Merge [7]%Z) 3 (Some 1%Z) None; mkRow [99]%Z (Value [])%Z 6 None None].

Lemma format_accepted : format_ok format.
Proof. split; [cbn; lia|]. intros t [= <-] d. exists (reverse d). cbn. by rewrite reverse_involutive. Qed.

Lemma rows_sound : policies_ok format rows.
Proof.
  split.
  - done.
  - apply NoDup_singleton.
  - by apply Forall_singleton.
  - apply Forall_singleton. apply Bloom.bloom_policy_sound; [done|cbn; lia|cbn; lia].
  - intros p fb flt Hp Hfb Hflt. apply list_elem_of_singleton in Hp as ->.
    vm_compute in Hfb. injection Hfb as <-. vm_compute in Hflt. injection Hflt as <-. vm_compute. discriminate.
Qed.

(** The object that holds [data]. *)
Definition blob (data : bytes) : ReadOnlyBlob :=
  mkBlob (Ok (Z.of_nat (length data))) (λ lo hi, Ok (take (Z.to_nat hi - Z.to_nat lo) (drop (Z.to_nat lo) data))).

Lemma blob_ok data : blob_reads (blob data) data.
Proof. split; [reflexivity|]. intros lo hi _ _. cbn. by rewrite !Nat2Z.id. Qed.

Lemma rows_storable : Forall storable rows.
Proof. repeat constructor; cbn; unfold is_u64, is_i64, u16_max, u32_max; (lia || done). Qed.
Lemma rows_sorted : keys_sorted (key <$> rows).
Proof. cbn. repeat constructor; vm_compute; discriminate. Qed.
Lemma rows_small : rows_fit rows.
Proof. vm_compute. repeat split. Qed.

(** The table of [rows] and its upload. *)
Definition written : SsTableHandle * bytes :=
  match write_table format 7 rows with Ok r => r | _ => (mkHandle 0 0 (mkInfo None None 0 0 0 0 None Compacted 0 0 CompositeFilter), []) end.

Lemma written_ok : write_table format 7 rows = Ok (written.1, written.2) ∧ (Z.of_nat (length written.2) < 2 ^ 64)%Z.
Proof. split; vm_compute; reflexivity. Qed.
End Example.

