(* ===== verification/DbCache.v ===== *)
(** * The block cache ([db_cache/mod.rs])

    The interface a block cache offers, the split of one cache into a block and a
    metadata cache, and the wrapper that scopes the keys of one database so that several
    databases can share a cache.  What a cache promises is stated for an arbitrary
    description [good] of the entries it may hold: it returns only what was put in, and an
    entry may vanish at any time. *)

From S2P Require Export SstFormat.

Section cache.
  Context {F : Type}.

(** [CachedItem]; an encoded filter is a policy's name and the filter's bytes. *)
Inductive CachedItem :=
| ItemBlock (b : Block)
| ItemIndex (i : SsTableIndex)
| ItemFilters (nfs : list (NamedFilter (F:=F)))
| ItemEncodedFilters (efs : list (bytes * bytes))
| ItemStats (s : SstStats).

(** [CachedEntry::block], [sst_index], [filters], [encoded_filters], [sst_stats] *)
Definition entry_block (e : CachedItem) : option Block := match e with ItemBlock b => Some b | _ => None end.
Definition entry_index (e : CachedItem) : option SsTableIndex := match e with ItemIndex i => Some i | _ => None end.
Definition entry_filters (e : CachedItem) : option (list (NamedFilter (F:=F))) :=
  match e with ItemFilters nfs => Some nfs | _ => None end.
Definition entry_encoded_filters (e : CachedItem) : option (list (bytes * bytes)) :=
  match e with ItemEncodedFilters efs => Some efs | _ => None end.
Definition entry_stats (e : CachedItem) : option SstStats := match e with ItemStats s => Some s | _ => None end.
End cache.
Arguments CachedItem : clear implicits.

(** [CachedKey] *)
Record CachedKey := mkCacheKey {
  db_cache_id : Z;
  ck_sst_id : Ulid;
  block_id : Z;
}.

(** [From<(SsTableId, u64)> for CachedKey], [CachedKey::with_scope] *)
Definition cache_key (sst_id : Ulid) (block_id : Z) : CachedKey := mkCacheKey 0 sst_id block_id.
Definition with_scope (k : CachedKey) (id : Z) : CachedKey := mkCacheKey id (ck_sst_id k) (block_id k).

(** The four families of methods: [get_block] and [fetch_block], and so on. *)
Inductive CacheKind := KindBlock | KindIndex | KindFilter | KindStats.

(** [CacheLookup] *)
Inductive CacheLookup := Miss | Hit.

(** [DbCache]; a loader is given by the result it would have. *)
Class DbCache (F C : Type) := {
  cache_get : CacheKind → CachedKey → C → result (option (CachedItem F)) * C;
  cache_insert : CachedKey → CachedItem F → C → C;
  cache_remove : CachedKey → C → C;
  cache_fetch : CacheKind → CachedKey → result (CachedItem F) → C → result (CachedItem F * CacheLookup) * C;
}.

(** The default body of [fetch_block] and its three siblings. *)
Definition default_fetch {F C : Type} (get : CacheKind → CachedKey → C → result (option (CachedItem F)) * C)
    (insert : CachedKey → CachedItem F → C → C) (kind : CacheKind) (k : CachedKey) (loader : result (CachedItem F)) (c : C)
    : result (CachedItem F * CacheLookup) * C :=
  match get kind k c with
  | (Ok (Some e), c) => (Ok (e, Hit), c)
  | (Ok None, c) =>
      match loader with
      | Ok e => (Ok (e, Miss), insert k e c)
      | Err err => (Err err, c)
      | Panic => (Panic, c)
      | OutOfFuel => (OutOfFuel, c)
      end
  | (Err err, c) => (Err err, c)
  | (Panic, c) => (Panic, c)
  | (OutOfFuel, c) => (OutOfFuel, c)
  end.

(** What an entry may come back as: a cache on disk returns filters in their encoded form. *)
Definition revived {B F} `{FilterTraits B F} (e e' : CachedItem F) : Prop :=
  e' = e ∨ ∃ nfs, e = ItemFilters nfs ∧ e' = ItemEncodedFilters ((λ nf, (nf_name nf, encode_filter (nf_filter nf))) <$> nfs).

(** A result that is not a panic. *)
Definition returns {A} (r : result A) : Prop := match r with Ok _ | Err _ => True | _ => False end.

(** The promise of a cache: [coherent c good], that all it may return for a key is [good]. *)
Class DbCacheLaws {B} (F C : Type) `{FilterTraits B F, DbCache F C}
    (coherent : C → (CachedKey → CachedItem F → Prop) → Prop) : Prop := {
  get_good kind k c good r c' :
    coherent c good → cache_get kind k c = (r, c') →
    coherent c' good ∧ returns r ∧ (∀ e, r = Ok (Some e) → good k e);
  fetch_good kind k loader c good r c' :
    coherent c good → cache_fetch kind k loader c = (r, c') → returns loader →
    (∀ e e', loader = Ok e → revived e e' → good k e') →
    coherent c' good ∧ returns r ∧ (∀ e lk, r = Ok (e, lk) → good k e);
  insert_good k e c good :
    coherent c good → (∀ e', revived e e' → good k e') → coherent (cache_insert k e c) good;
  remove_good k c good : coherent c good → coherent (cache_remove k c) good;
}.

(** The default [fetch] keeps the promise whenever [get] and [insert] do. *)
Lemma default_fetch_good {B F C} `{FilterTraits B F} get insert coherent
    (Hget : ∀ kind k c (good : CachedKey → CachedItem F → Prop) r c', coherent c good → get kind k c = (r, c') →
      coherent c' good ∧ returns r ∧ (∀ e, r = Ok (Some e) → good k e))
    (Hins : ∀ k e c (good : CachedKey → CachedItem F → Prop), coherent c good →
      (∀ e', revived e e' → good k e') → coherent (insert k e c) good)
    kind k loader (c : C) good r c' :
  coherent c good → default_fetch get insert kind k loader c = (r, c') → returns loader →
  (∀ e e', loader = Ok e → revived e e' → good k e') →
  coherent c' good ∧ returns r ∧ (∀ e lk, r = Ok (e, lk) → good k e).
Proof.
  intros Hc Hf Hl Hload. unfold default_fetch in Hf. destruct (get kind k c) as [g c1] eqn:Hg.
  destruct (Hget _ _ _ _ _ _ Hc Hg) as (Hc1 & Hr & He).
  destruct g as [[e|]|err| |]; simplify_eq; try done.
  - split_and!; [done..|]. intros e' lk [= <- <-]. by apply He.
  - destruct loader as [e|err| |]; simplify_eq; try done. split_and!; [|done|].
    + apply Hins; [done|]. intros e'. by apply Hload.
    + intros e' lk [= <- <-]. apply (Hload e); [done|by left].
Qed.

(** ** [SplitCache] *)

Section split.
  Context {B F C1 C2 : Type} `{FilterTraits B F, DbCache F C1, DbCache F C2}.

Record SplitCache := mkSplit { block_cache : option C1; meta_cache : option C2 }.

Definition split_get (kind : CacheKind) (k : CachedKey) (s : SplitCache) : result (option (CachedItem F)) * SplitCache :=
  match kind with
  | KindBlock =>
      match block_cache s with
      | Some c => let '(r, c) := cache_get kind k c in (r, mkSplit (Some c) (meta_cache s))
      | None => (Ok None, s)
      end
  | _ =>
      match meta_cache s with
      | Some c => let '(r, c) := cache_get kind k c in (r, mkSplit (block_cache s) (Some c))
      | None => (Ok None, s)
      end
  end.

(** An insert of encoded filters is only logged. *)
Definition split_insert (k : CachedKey) (e : CachedItem F) (s : SplitCache) : SplitCache :=
  match e with
  | ItemBlock _ => mkSplit (cache_insert k e <$> block_cache s) (meta_cache s)
  | ItemIndex _ | ItemFilters _ | ItemStats _ => mkSplit (block_cache s) (cache_insert k e <$> meta_cache s)
  | ItemEncodedFilters _ => s
  end.

Definition split_remove (k : CachedKey) (s : SplitCache) : SplitCache :=
  mkSplit (cache_remove k <$> block_cache s) (cache_remove k <$> meta_cache s).

(** [loader().await.map(CacheFetch::miss)] *)
Definition load_miss (loader : result (CachedItem F)) : result (CachedItem F * CacheLookup) :=
  e ← loader; mret (e, Miss).

Definition split_fetch (kind : CacheKind) (k : CachedKey) (loader : result (CachedItem F)) (s : SplitCache)
    : result (CachedItem F * CacheLookup) * SplitCache :=
  match kind with
  | KindBlock =>
      match block_cache s with
      | Some c => let '(r, c) := cache_fetch kind k loader c in (r, mkSplit (Some c) (meta_cache s))
      | None => (load_miss loader, s)
      end
  | _ =>
      match meta_cache s with
      | Some c => let '(r, c) := cache_fetch kind k loader c in (r, mkSplit (block_cache s) (Some c))
      | None => (load_miss loader, s)
      end
  end.

Global Instance split_cache : DbCache F SplitCache := {
  cache_get := split_get;
  cache_insert := split_insert;
  cache_remove := split_remove;
  cache_fetch := split_fetch;
}.

  Context (coh1 : C1 → (CachedKey → CachedItem F → Prop) → Prop) (coh2 : C2 → (CachedKey → CachedItem F → Prop) → Prop).
  Context `{!DbCacheLaws F C1 coh1, !DbCacheLaws F C2 coh2}.

Definition split_coherent (s : SplitCache) (good : CachedKey → CachedItem F → Prop) : Prop :=
  (∀ c, block_cache s = Some c → coh1 c good) ∧ (∀ c, meta_cache s = Some c → coh2 c good).

Lemma load_miss_good loader k (good : CachedKey → CachedItem F → Prop) :
  returns loader → (∀ e e', loader = Ok e → revived e e' → good k e') →
  returns (load_miss loader) ∧ (∀ e lk, load_miss loader = Ok (e, lk) → good k e).
Proof.
  intros Hl Hg. unfold load_miss. destruct loader as [e|err| |]; try done. cbn. split; [done|].
  intros e' lk [= <- <-]. apply (Hg e); [done|by left].
Qed.

Global Instance split_cache_laws : DbCacheLaws F SplitCache split_coherent.
Proof.
  split.
  - intros kind k [b m] good r s' [H1' H2'] Hg. cbn in *. unfold split_get in Hg. cbn in Hg.
    destruct kind; [destruct b as [c|]|destruct m as [c|]..]; simplify_eq; try (by split_and!);
      destruct (cache_get _ k c) as [r' c'] eqn:Hc; simplify_eq;
      (destruct (get_good _ _ _ _ _ _ (H1' _ eq_refl) Hc) as (Hco & ? & ?) ||
       destruct (get_good _ _ _ _ _ _ (H2' _ eq_refl) Hc) as (Hco & ? & ?));
      (split; [|done]); split; cbn; intros c'' Heq; simplify_eq; eauto.
  - intros kind k loader [b m] good r s' [H1' H2'] Hg Hl Hload. cbn in *. unfold split_fetch in Hg. cbn in Hg.
    destruct (load_miss_good loader k good Hl Hload) as [Hm1 Hm2].
    destruct kind; [destruct b as [c|]|destruct m as [c|]..]; simplify_eq; try (by split_and!);
      destruct (cache_fetch _ k loader c) as [r' c'] eqn:Hc; simplify_eq;
      (destruct (fetch_good _ _ _ _ _ _ _ (H1' _ eq_refl) Hc Hl Hload) as (Hco & ? & ?) ||
       destruct (fetch_good _ _ _ _ _ _ _ (H2' _ eq_refl) Hc Hl Hload) as (Hco & ? & ?));
      (split; [|done]); split; cbn; intros c'' Heq; simplify_eq; eauto.
  - intros k e [b m] good [H1' H2'] He. cbn in *.
    destruct e; cbn; try done; split; cbn; try done;
      intros c' (c & Hc & ->)%fmap_Some; (apply insert_good; [by eauto|done]).
  - intros k [b m] good [H1' H2']. cbn in *. split; cbn;
      intros c' (c & Hc & ->)%fmap_Some; apply remove_good; eauto.
Qed.
End split.

(** ** [DbCacheWrapper] *)

Section wrapper.
  Context {B F C : Type} `{FilterTraits B F, DbCache F C}.

(** Hit and miss counters and the rate limit of error logs are not modelled. *)
Record DbCacheWrapper := mkWrapper { wr_cache : C; wr_db_cache_id : Z }.

(** [scoped_key] *)
Definition scoped_key (w : DbCacheWrapper) (k : CachedKey) : CachedKey := with_scope k (wr_db_cache_id w).

Definition wrapper_get (kind : CacheKind) (k : CachedKey) (w : DbCacheWrapper)
    : result (option (CachedItem F)) * DbCacheWrapper :=
  let '(r, c) := cache_get kind (scoped_key w k) (wr_cache w) in (r, mkWrapper c (wr_db_cache_id w)).
Definition wrapper_insert (k : CachedKey) (e : CachedItem F) (w : DbCacheWrapper) : DbCacheWrapper :=
  mkWrapper (cache_insert (scoped_key w k) e (wr_cache w)) (wr_db_cache_id w).
Definition wrapper_remove (k : CachedKey) (w : DbCacheWrapper) : DbCacheWrapper :=
  mkWrapper (cache_remove (scoped_key w k) (wr_cache w)) (wr_db_cache_id w).
Definition wrapper_fetch (kind : CacheKind) (k : CachedKey) (loader : result (CachedItem F)) (w : DbCacheWrapper)
    : result (CachedItem F * CacheLookup) * DbCacheWrapper :=
  let '(r, c) := cache_fetch kind (scoped_key w k) loader (wr_cache w) in (r, mkWrapper c (wr_db_cache_id w)).

Global Instance wrapper_cache : DbCache F DbCacheWrapper := {
  cache_get := wrapper_get;
  cache_insert := wrapper_insert;
  cache_remove := wrapper_remove;
  cache_fetch := wrapper_fetch;
}.

  Context (coh : C → (CachedKey → CachedItem F → Prop) → Prop) `{!DbCacheLaws F C coh}.

(** A description of entries that does not look at the scope of a key. *)
Definition scope_free (good : CachedKey → CachedItem F → Prop) : Prop :=
  ∀ k id e, good (with_scope k id) e ↔ good k e.

(** The entries of one database. *)
Definition scoped (id : Z) (good : CachedKey → CachedItem F → Prop) (k : CachedKey) (e : CachedItem F) : Prop :=
  db_cache_id k = id → good k e.

Definition wrapper_coherent (w : DbCacheWrapper) (good : CachedKey → CachedItem F → Prop) : Prop :=
  scope_free good ∧ coh (wr_cache w) (scoped (wr_db_cache_id w) good).

Global Instance wrapper_cache_laws : DbCacheLaws F DbCacheWrapper wrapper_coherent.
Proof.
  split.
  - intros kind k [c id] good r w' [Hs Hc] Hg. cbn in *. unfold wrapper_get in Hg. cbn in Hg.
    destruct (cache_get kind _ c) as [r' c'] eqn:Hcg. simplify_eq.
    destruct (get_good _ _ _ _ _ _ Hc Hcg) as (Hc' & Hr & He). split; [done|]. split; [done|].
    intros e Heq. by apply (Hs k id e), (He e Heq).
  - intros kind k loader [c id] good r w' [Hs Hc] Hg Hl Hload. cbn in *. unfold wrapper_fetch in Hg. cbn in Hg.
    destruct (cache_fetch kind _ loader c) as [r' c'] eqn:Hcg. simplify_eq.
    destruct (fetch_good _ _ _ _ _ _ _ Hc Hcg Hl) as (Hc' & Hr & He).
    { intros e e' Heq Hrev _. apply (Hs k id e'). by eapply Hload. }
    split; [done|]. split; [done|]. intros e lk Heq. by apply (Hs k id e), (He e lk Heq).
  - intros k e [c id] good [Hs Hc] He. split; [done|]. cbn. apply insert_good; [done|].
    intros e' Hrev _. apply (Hs k id e'). by apply He.
  - intros k [c id] good [Hs Hc]. split; [done|]. cbn. by apply remove_good.
Qed.

(** ** Databases that share a cache *)

(** One call on the cache. *)
Inductive CacheOp :=
| OpGet (kind : CacheKind) (k : CachedKey)
| OpInsert (k : CachedKey) (e : CachedItem F)
| OpRemove (k : CachedKey)
| OpFetch (kind : CacheKind) (k : CachedKey) (loader : result (CachedItem F)).

(** The entry the call returns, and the cache after it. *)
Definition run_op (op : CacheOp) (w : DbCacheWrapper) : option (CachedItem F) * C :=
  match op with
  | OpGet kind k => let '(r, w) := cache_get kind k w in
      (match r with Ok e => e | _ => None end, wr_cache w)
  | OpInsert k e => (None, wr_cache (cache_insert k e w))
  | OpRemove k => (None, wr_cache (cache_remove k w))
  | OpFetch kind k loader => let '(r, w) := cache_fetch kind k loader w in
      (match r with Ok (e, _) => Some e | _ => None end, wr_cache w)
  end.

Definition op_key (op : CacheOp) : CachedKey :=
  match op with OpGet _ k | OpInsert k _ | OpRemove k | OpFetch _ k _ => k end.

(** The database puts only good entries in. *)
Definition op_good (good : CachedKey → CachedItem F → Prop) (op : CacheOp) : Prop :=
  match op with
  | OpInsert k e => ∀ e', revived e e' → good k e'
  | OpFetch _ k loader => returns loader ∧ ∀ e e', loader = Ok e → revived e e' → good k e'
  | _ => True
  end.

(** Calls of two databases with the scopes [id1] and [id2] on one cache, in any order, each with
    what it returned. *)
Fixpoint run_shared (id1 id2 : Z) (ops : list (bool * CacheOp)) (c : C) : list (bool * CachedKey * option (CachedItem F)) :=
  match ops with
  | [] => []
  | (first, op) :: ops =>
      let '(r, c) := run_op op (mkWrapper c (if first then id1 else id2)) in
      (first, op_key op, r) :: run_shared id1 id2 ops c
  end.

Lemma run_op_own op c id good :
  scope_free good → op_good good op → coh c (scoped id good) →
  coh (run_op op (mkWrapper c id)).2 (scoped id good) ∧
  ∀ e, (run_op op (mkWrapper c id)).1 = Some e → good (op_key op) e.
Proof.
  intros Hs Hop Hc. assert (wrapper_coherent (mkWrapper c id) good) as Hw by done. destruct op as [kind k|k e|k|kind k loader].
  - unfold run_op, op_key. destruct (cache_get kind k (mkWrapper c id)) as [r w'] eqn:Hg.
    assert (wr_db_cache_id w' = id) as Hid.
    { cbn in Hg. unfold wrapper_get in Hg. destruct (cache_get _ _ _). by simplify_eq. }
    destruct (get_good _ _ _ _ _ _ Hw Hg) as ([_ Hc'] & _ & He). rewrite Hid in Hc'. split; [done|]. cbn.
    intros e. destruct r as [o| | |]; try done. intros ->. by apply He.
  - split; [|done]. cbn. exact (proj2 (insert_good (coherent:=wrapper_coherent) k e (mkWrapper c id) good Hw Hop)).
  - split; [|done]. cbn. exact (proj2 (remove_good (coherent:=wrapper_coherent) k (mkWrapper c id) good Hw)).
  - unfold run_op, op_key. destruct (cache_fetch kind k loader (mkWrapper c id)) as [r w'] eqn:Hg.
    assert (wr_db_cache_id w' = id) as Hid.
    { cbn in Hg. unfold wrapper_fetch in Hg. destruct (cache_fetch _ _ _ _). by simplify_eq. }
    destruct Hop as [Hl Hload]. destruct (fetch_good _ _ _ _ _ _ _ Hw Hg Hl Hload) as ([_ Hc'] & _ & He).
    rewrite Hid in Hc'. split; [done|]. cbn. intros e. destruct r as [[e' lk]| | |]; try done. intros [= <-]. by apply (He e' lk).
Qed.

Lemma run_op_other op c id id' good good' :
  id ≠ id' → op_good good' op → coh c (scoped id good) → coh (run_op op (mkWrapper c id')).2 (scoped id good).
Proof.
  intros Hne Hop Hc. destruct op as [kind k|k e|k|kind k loader]; cbn.
  - unfold wrapper_get. cbn. destruct (cache_get kind _ c) as [r c'] eqn:Hg. by destruct (get_good _ _ _ _ _ _ Hc Hg).
  - apply insert_good; [done|]. intros e' _ Heq. by destruct Hne.
  - by apply remove_good.
  - unfold wrapper_fetch. cbn. destruct (cache_fetch kind _ loader c) as [r c'] eqn:Hg.
    destruct Hop as [Hl _]. destruct (fetch_good _ _ _ _ _ _ _ Hc Hg Hl) as [Hc' _]; [|done].
    intros e e' _ _ Heq. by destruct Hne.
Qed.

Lemma shared_isolated id1 id2 good1 good2 ops c :
  id1 ≠ id2 → scope_free good1 → scope_free good2 →
  coh c (scoped id1 good1) → coh c (scoped id2 good2) →
  Forall (λ '(first, op), op_good (if first : bool then good1 else good2) op) ops →
  Forall (λ '(first, k, r), ∀ e, r = Some e → (if first : bool then good1 else good2) k e) (run_shared id1 id2 ops c).
Proof.
  intros Hne Hs1 Hs2. revert c. induction ops as [|[first op] ops IH]; intros c H1' H2' Hops; [by constructor|].
  apply Forall_cons in Hops as [Hop Hops]. cbn [run_shared].
  destruct (run_op op (mkWrapper c (if first then id1 else id2))) as [r c'] eqn:Hr. destruct first.
  - pose proof (run_op_own op c id1 good1 Hs1 Hop H1') as [Hc' He].
    pose proof (run_op_other op c id2 id1 good2 good1 ltac:(done) Hop H2') as Hc2.
    rewrite Hr in Hc', He, Hc2. constructor; [exact He|]. by apply IH.
  - pose proof (run_op_own op c id2 good2 Hs2 Hop H2') as [Hc' He].
    pose proof (run_op_other op c id1 id2 good1 good2 Hne Hop H1') as Hc1.
    rewrite Hr in Hc', He, Hc1. constructor; [exact He|]. by apply IH.
Qed.
End wrapper.

(** ** A cache that never forgets *)

Global Instance CachedKey_eq_dec : EqDecision CachedKey.
Proof. solve_decision. Defined.

Section assoc_cache.
  Context {B F : Type} `{FilterTraits B F}.

Record AssocCache := mkAssoc { entries : list (CachedKey * CachedItem F) }.

Definition assoc_find (k : CachedKey) (c : AssocCache) : option (CachedItem F) :=
  (λ p, p.2.2) <$> list_find (λ e, e.1 = k) (entries c).

Global Instance assoc_cache : DbCache F AssocCache := {
  cache_get kind k c := (Ok (assoc_find k c), c);
  cache_insert k e c := mkAssoc ((k, e) :: entries c);
  cache_remove k c := mkAssoc (filter (λ p, p.1 ≠ k) (entries c));
  cache_fetch := default_fetch (λ _ k c, (Ok (assoc_find k c), c)) (λ k e c, mkAssoc ((k, e) :: entries c));
}.

Definition assoc_coherent (c : AssocCache) (good : CachedKey → CachedItem F → Prop) : Prop :=
  ∀ k e, (k, e) ∈ entries c → good k e.

Lemma assoc_get_good (kind : CacheKind) k c good r c' :
  assoc_coherent c good → (Ok (assoc_find k c), c) = (r, c') →
  assoc_coherent c' good ∧ returns r ∧ (∀ e, r = Ok (Some e) → good k e).
Proof.
  intros Hc [= <- <-]. split_and!; [done|done|]. intros e [= He]. unfold assoc_find in He.
  apply fmap_Some in He as ([i [k' e']] & Hf & ->). apply list_find_Some in Hf as (Hl & Hk & _). cbn in Hk. subst k'.
  apply Hc. by eapply list_elem_of_lookup_2.
Qed.

Lemma assoc_insert_good k e c (good : CachedKey → CachedItem F → Prop) :
  assoc_coherent c good → (∀ e', revived e e' → good k e') → assoc_coherent (mkAssoc ((k, e) :: entries c)) good.
Proof.
  intros Hc He k' e' Hin. apply elem_of_cons in Hin as [[= -> ->]|Hin]; [apply He; by left|by apply Hc].
Qed.

Global Instance assoc_cache_laws : DbCacheLaws F AssocCache assoc_coherent.
Proof.
  split.
  - apply assoc_get_good.
  - intros kind k loader c good r c'. apply (default_fetch_good _ _ assoc_coherent assoc_get_good assoc_insert_good).
  - apply assoc_insert_good.
  - intros k c good Hc k' e' Hin. apply list_elem_of_filter in Hin as [_ Hin]. by apply Hc.
Qed.
End assoc_cache.

(** C26: Two databases that share one cache under different scope ids never see each other's entries:
    in every interleaving of their calls, whatever a call returns is an entry the same database
    (or its loaders) put in for that key, even when both use the same SST ids and offsets. *)
Theorem shared_cache_isolation {B F C} `{FilterTraits B F, DbCache F C} coh `{!DbCacheLaws F C coh}
    (id1 id2 : Z) (good1 good2 : CachedKey → CachedItem F → Prop) (ops : list (bool * CacheOp)) (c : C) :
  id1 ≠ id2 → scope_free good1 → scope_free good2 →
  coh c (scoped id1 good1) → coh c (scoped id2 good2) →
  Forall (λ '(first, op), op_good (if first : bool then good1 else good2) op) ops →
  Forall (λ '(first, k, r), ∀ e, r = Some e → (if first : bool then good1 else good2) k e) (run_shared id1 id2 ops c).
Proof. apply shared_isolated. exact _. Qed.

Lemma shared_cache_isolation_witness :
  let a : CachedItem Bloom.BloomFilter := ItemBlock (mkBlock [1%Z] []) in
  let b : CachedItem Bloom.BloomFilter := ItemBlock (mkBlock [2%Z] []) in
  let k := cache_key 7 0 in
  let ops := [(true, OpInsert k a); (false, OpInsert k b); (true, OpGet KindBlock k); (false, OpGet KindBlock k)] in
  let out := run_shared 1 2 ops (mkAssoc []) in
  out = [(true, k, None); (false, k, None); (true, k, Some a); (false, k, Some b)] ∧
  Forall (λ '(first, _, r), ∀ e, r = Some e → e = if first : bool then a else b) out.
Proof.
  intros a b k ops out. split; [vm_compute; reflexivity|].
  pose proof (shared_cache_isolation (H := Bloom.bloom_traits be_val) assoc_coherent 1 2 (λ _ e, e = a) (λ _ e, e = b)
    ops (mkAssoc [])) as Hall.
  assert (∀ x e', revived (H := Bloom.bloom_traits be_val) (ItemBlock x) e' → e' = ItemBlock x) as Hrev
    by (intros x e' [->|(nfs & ? & _)]; done).
  eapply Forall_impl; [apply Hall|].
  - done.
  - done.
  - done.
  - intros ? ? Hin. by apply not_elem_of_nil in Hin.
  - intros ? ? Hin. by apply not_elem_of_nil in Hin.
  - repeat constructor; cbn; apply Hrev.
  - intros [[first k'] r] Hr e He. specialize (Hr e He). by destruct first.
Defined.
