(* ===== verification/TableStore.v ===== *)
(** * The table store ([tablestore.rs], [sst_io.rs])

    Reads of an SST's parts through the block cache: the index, the filters, the
    statistics and ranges of data blocks, with the retry of reads that fail validation,
    the fast path for one block, and the merge of cached and uncached runs of blocks.
    The cache is any implementation of [DbCache]; the objects are any blobs that hold the
    tables that were written. *)

From S2P Require Export DbCache SstRoundtrip.

(** ** Retried reads ([sst_io.rs], [error.rs]) *)

(** [RetryReason] *)
Inductive RetryReason := CrcMismatch | DecompressionError | BlockDecodeError.

(** [SlateDBError::maybe_validation_retry_reason] *)
Definition maybe_validation_retry_reason (e : SlateDBError) : option RetryReason :=
  match e with
  | ChecksumMismatch => Some CrcMismatch
  | BlockDecompressionError => Some DecompressionError
  | InvalidFlatbuffer | EmptyBlock | EmptyBlockMeta | InvalidFilterBlock | BlockTransformError => Some BlockDecodeError
  | _ => None
  end.

(** [read_with_validation_retry]; [MAX_VALIDATION_RETRIES] is one. *)
Definition read_with_validation_retry {A} (read : option RetryReason → result A) : result A :=
  match read None with
  | Err e => match maybe_validation_retry_reason e with Some reason => read (Some reason) | None => Err e end
  | r => r
  end.

(** ** The store *)

(** [TableStoreKind] *)
Inductive TableStoreKind := MainStore | ReaderStore | CompactorStore | GcStore.
Global Instance TableStoreKind_eq_dec : EqDecision TableStoreKind.
Proof. solve_decision. Defined.

(** [impl RangePartitionedKeySpace for SsTableIndex] *)
Global Instance index_keyspace : RangePartitionedKeySpace SsTableIndex := {
  partitions := length;
  partition_first_key idx n := m ← index idx n; mret (meta_first_key m);
}.

Section table_store.
  Context `{SstCodecs} {B F C : Type} `{FilterTraits B F} `{DbCache F C}.

(** [TableStore]; [ts_object id tag] is the object of an SST, read with a tag.  The block cache is
    threaded through the operations. *)
Record TableStore := mkTableStore {
  ts_format : SsTableFormat (B:=B) (F:=F);
  ts_kind : TableStoreKind;
  ts_object : Ulid → option RetryReason → ReadOnlyBlob;
}.

Implicit Types (ts : TableStore) (h : SsTableHandle) (c : option C).

(** [read_obj!] *)
Definition read_obj {A} ts (id : Ulid) (read : ReadOnlyBlob → result A) : result A :=
  read_with_validation_retry (λ tag, read (ts_object ts id tag)).

(** [TableStore::open_sst] *)
Definition open_sst ts (id : Ulid) : result SsTableHandle :=
  '(info, version) ← read_obj ts id read_info_and_version;
  mret (mkHandle id version info).

(** [cache_for_reads] *)
Definition cache_for_reads ts c : option C := if decide (ts_kind ts = CompactorStore) then None else c.

(** [.unwrap_or(None)] on a lookup *)
Definition or_missing {A} (r : result (option A)) : result (option A) :=
  match r with Err _ => Ok None | r => r end.

(** The cache lookup shared by [read_filters], [read_index] and [read_stats]: fetch through the
    cache, or only look, and go on without the cache when it fails. *)
Definition cache_lookup ts (kind : CacheKind) (k : CachedKey) (cache_blocks : bool) (loader : result (CachedItem F)) c
    : result (option (CachedItem F)) * option C :=
  match cache_for_reads ts c with
  | None => (Ok None, c)
  | Some cc =>
      if cache_blocks then
        let '(r, cc) := cache_fetch kind k loader cc in
        (or_missing ('(e, _) ← r; mret (Some e)), Some cc)
      else
        let '(r, cc) := cache_get kind k cc in
        (or_missing r, Some cc)
  end.

(** [TableStore::read_index]; the loader is [read_loader]'s. *)
Definition ts_read_index ts h (cache_blocks : bool) c : result SsTableIndex * option C :=
  let load := read_obj ts (handle_id h) (read_index (ts_format ts) (handle_info h)) in
  let '(found, c) := cache_lookup ts KindIndex (cache_key (handle_id h) (index_offset (handle_info h)))
                       cache_blocks (i ← load; mret (ItemIndex i)) c in
  (found ← found; match found ≫= entry_index with Some i => mret i | None => load end, c).

(** [decode_and_refresh_filter] *)
Fixpoint decode_cached_filters ts (efs : list (bytes * bytes)) : result (list (NamedFilter (F:=F))) :=
  match efs with
  | [] => mret []
  | (name, data) :: efs =>
      match find_policy (ts_format ts) name with
      | Some policy =>
          filter ← policy_decode policy data;
          rest ← decode_cached_filters ts efs;
          mret (mkNamedFilter name filter :: rest)
      | None => decode_cached_filters ts efs
      end
  end.
Definition decode_and_refresh_filter ts (k : CachedKey) (efs : list (bytes * bytes)) c
    : result (list (NamedFilter (F:=F))) * option C :=
  match decode_cached_filters ts efs with
  | Ok decoded => (Ok decoded, cache_insert k (ItemFilters decoded) <$> c)
  | r => (r, c)
  end.

(** [TableStore::read_filters] *)
Definition ts_read_filters ts h (cache_blocks : bool) c : result (list (NamedFilter (F:=F))) * option C :=
  if bool_decide (filter_policies (ts_format ts) = []) || (filter_len (handle_info h) =? 0)%Z then (Ok [], c)
  else
    let load := read_obj ts (handle_id h) (read_filters (ts_format ts) (handle_info h)) in
    let k := cache_key (handle_id h) (filter_offset (handle_info h)) in
    let '(found, c) := cache_lookup ts KindFilter k cache_blocks (nfs ← load; mret (ItemFilters nfs)) c in
    match found with
    | Ok (Some (ItemFilters nfs)) => (Ok nfs, c)
    | Ok (Some (ItemEncodedFilters efs)) => decode_and_refresh_filter ts k efs c
    | Ok _ => (load, c)
    | Err e => (Err e, c)
    | Panic => (Panic, c)
    | OutOfFuel => (OutOfFuel, c)
    end.

(** [TableStore::read_stats]; the loader reports missing statistics as an error of the cache. *)
Definition ts_read_stats ts h (cache_blocks : bool) c : result (option SstStats) * option C :=
  if (stats_len (handle_info h) =? 0)%Z then (Ok None, c)
  else
    let load := read_obj ts (handle_id h) (read_stats (ts_format ts) (handle_info h)) in
    let loader := s ← load; match s with Some s => mret (ItemStats s) | None => Err InvalidDBState end in
    let '(found, c) := cache_lookup ts KindStats (cache_key (handle_id h) (stats_offset (handle_info h))) cache_blocks loader c in
    (found ← found; match found ≫= entry_stats with Some s => mret (Some s) | None => load end, c).

(** [any_filter_policy_supports_range_queries], [any_filter_policy_supports_prefix_queries] *)
Definition any_filter_policy_supports_range_queries ts : bool := existsb supports_range_queries (filter_policies (ts_format ts)).
Definition any_filter_policy_supports_prefix_queries ts : bool := existsb supports_prefix_queries (filter_policies (ts_format ts)).

(** The growing loops of [block_range_for_target_bytes]: [n] blocks are left in the direction. *)
Fixpoint grow_up (n : nat) (info : SsTableInfo) (idx : SsTableIndex) (lo hi : nat) (target : Z) : result (nat * nat) :=
  '(s, e) ← block_range info idx lo hi;
  if bool_decide (target ≤ Z.max 0 (e - s))%Z || bool_decide (hi = length idx) then mret (lo, hi)
  else match n with O => OutOfFuel | S n => grow_up n info idx lo (hi + 1) target end.
Fixpoint grow_down (n : nat) (info : SsTableInfo) (idx : SsTableIndex) (lo hi : nat) (target : Z) : result (nat * nat) :=
  '(s, e) ← block_range info idx lo hi;
  if bool_decide (target ≤ Z.max 0 (e - s))%Z || bool_decide (lo = 0) then mret (lo, hi)
  else match n with O => OutOfFuel | S n => grow_down n info idx (lo - 1) hi target end.

(** [block_range_for_target_bytes] *)
Definition block_range_for_target_bytes h (idx : SsTableIndex) (first_block target_bytes : nat) (order : IterationOrder)
    : result (nat * nat) :=
  _ ← rust_assert (bool_decide (0 < target_bytes));
  _ ← rust_assert (bool_decide (first_block < length idx));
  let target := Z.min (Z.of_nat target_bytes) u64_max in
  match order with
  | Ascending => grow_up (length idx) (handle_info h) idx first_block (first_block + 1) target
  | Descending => grow_down (length idx) (handle_info h) idx first_block (first_block + 1) target
  end.

(** ** Blocks through the cache *)

(** [VecDeque::insert] *)
Definition insert_at {A} (i : nat) (x : A) (l : list A) : result (list A) :=
  if decide (i ≤ length l) then mret (take i l ++ x :: drop i l) else Panic.

(** [join_all(blocks.map(get_block))]; a failed lookup counts as a miss. *)
Fixpoint get_blocks (h : SsTableHandle) (idx : SsTableIndex) (blocks : list nat) (cc : C) : result (list (option Block)) * C :=
  match blocks with
  | [] => (Ok [], cc)
  | n :: blocks =>
      match (index idx n : result BlockMeta) with
      | Ok m =>
          let '(r, cc) := cache_get KindBlock (cache_key (handle_id h) (meta_offset m)) cc in
          let '(rest, cc) := get_blocks h idx blocks cc in
          (found ← or_missing r; rest ← rest; mret ((found ≫= entry_block) :: rest), cc)
      | _ => (Panic, cc)
      end
  end.

(** The loop over the cache results: the cached blocks, and the runs of uncached ones. *)
Fixpoint split_cached (first i : nat) (cached : list (option Block)) (blocks_read : list Block)
    (last_uncached_start : option nat) (uncached : list (nat * nat)) (last_end : nat) : list Block * list (nat * nat) :=
  match cached with
  | [] =>
      (blocks_read, match last_uncached_start with Some s => uncached ++ [(first + s, last_end)] | None => uncached end)
  | Some b :: cached =>
      let uncached := match last_uncached_start with Some s => uncached ++ [(first + s, first + i)] | None => uncached end in
      split_cached first (S i) cached (blocks_read ++ [b]) None uncached last_end
  | None :: cached =>
      split_cached first (S i) cached blocks_read (Some (default i last_uncached_start)) uncached last_end
  end.

(** The loop that merges one run of blocks read into the blocks found so far, and notes the offset
    of each if it is to be cached. *)
Fixpoint merge_run (idx : SsTableIndex) (cache_blocks : bool) (first : nat) (run : list (nat * Block))
    (blocks_read : list Block) (to_cache : list (Z * Block)) : result (list Block * list (Z * Block)) :=
  match run with
  | [] => mret (blocks_read, to_cache)
  | (block_num, b) :: run =>
      to_cache ← if cache_blocks then m ← index idx block_num; mret (to_cache ++ [(meta_offset m, b)]) else mret to_cache;
      blocks_read ← insert_at (block_num - first) b blocks_read;
      merge_run idx cache_blocks first run blocks_read to_cache
  end.
Fixpoint merge_runs (idx : SsTableIndex) (cache_blocks : bool) (first : nat) (runs : list ((nat * nat) * result (list Block)))
    (blocks_read : list Block) (to_cache : list (Z * Block)) : result (list Block * list (Z * Block)) :=
  match runs with
  | [] => mret (blocks_read, to_cache)
  | ((lo, hi), r) :: runs =>
      run ← r;
      '(blocks_read, to_cache) ← merge_run idx cache_blocks first (zip (List.seq lo (hi - lo)) run) blocks_read to_cache;
      merge_runs idx cache_blocks first runs blocks_read to_cache
  end.

(** [read_with_validation_retry(.. sst_format.read_blocks(range) ..)] *)
Definition load_blocks ts h (idx : SsTableIndex) (lo hi : nat) : result (list Block) :=
  read_obj ts (handle_id h) (read_blocks (ts_format ts) (handle_info h) idx lo hi).

(** [join_all(blocks_to_cache.map(cache.insert))] *)
Definition insert_blocks h (to_cache : list (Z * Block)) (cc : C) : C :=
  foldl (λ cc '(off, b), cache_insert (cache_key (handle_id h) off) (ItemBlock b) cc) cc to_cache.

(** The general path of [read_blocks_using_index_inner]. *)
Definition read_blocks_merged ts h (idx : SsTableIndex) (lo hi : nat) (cache_blocks : bool) c : result (list Block) * option C :=
  let '(split, c) :=
    match cache_for_reads ts c with
    | Some cc =>
        let '(cached, cc) := get_blocks h idx (List.seq lo (hi - lo)) cc in
        (cached ← cached; mret (split_cached lo 0 cached [] None [] hi), Some cc)
    | None => (mret ([], [(lo, hi)]), c)
    end in
  match split with
  | Ok (blocks_read, uncached) =>
      let runs := (λ r, (r, load_blocks ts h idx r.1 r.2)) <$> uncached in
      match merge_runs idx cache_blocks lo runs blocks_read [] with
      | Ok (blocks_read, to_cache) =>
          (Ok blocks_read,
           match cache_for_reads ts c with Some cc => Some (insert_blocks h to_cache cc) | None => c end)
      | Err e => (Err e, c)
      | Panic => (Panic, c)
      | OutOfFuel => (OutOfFuel, c)
      end
  | Err e => (Err e, c)
  | Panic => (Panic, c)
  | OutOfFuel => (OutOfFuel, c)
  end.

(** [TableStore::read_blocks_using_index]; the loader is [block_loader]'s. *)
Definition read_blocks_using_index ts h (idx : SsTableIndex) (lo hi : nat) (cache_blocks : bool) c : result (list Block) * option C :=
  match (if cache_blocks && bool_decide (hi - lo = 1) then cache_for_reads ts c else None) with
  | Some cc =>
      match (index idx lo : result BlockMeta) with
      | Ok m =>
          let loader := b ← read_obj ts (handle_id h) (read_block (ts_format ts) (handle_info h) idx lo); mret (ItemBlock b) in
          let '(r, cc) := cache_fetch KindBlock (cache_key (handle_id h) (meta_offset m)) loader cc in
          match r with
          | Ok (ItemBlock b, _) => (Ok [b], Some cc)
          | Panic => (Panic, Some cc)
          | OutOfFuel => (OutOfFuel, Some cc)
          | _ => read_blocks_merged ts h idx lo hi cache_blocks (Some cc)
          end
      | _ => (Panic, c)
      end
  | None => read_blocks_merged ts h idx lo hi cache_blocks c
  end.

(** ** Writes and evictions *)

(** [CacheTarget] *)
Inductive CacheTarget :=
| TargetFilters
| TargetIndex
| TargetStats
| TargetData (start end_ : Bound bytes).

Definition is_index_target (t : CacheTarget) : bool := match t with TargetIndex => true | _ => false end.
Definition is_filters_target (t : CacheTarget) : bool := match t with TargetFilters => true | _ => false end.
Definition is_stats_target (t : CacheTarget) : bool := match t with TargetStats => true | _ => false end.

(** [should_cache_data_block] *)
Definition should_cache_data_block (targets : list CacheTarget) (span : bytes * bytes) : result bool :=
  foldr (λ t acc, match t with
    | TargetData s e =>
        match BytesRange.try_new s e with
        | None => acc
        | Some range =>
            span ← BytesRange.new (Included span.1) (Included span.2);
            if bool_decide (BytesRange.intersect range span ≠ None) then mret true else acc
        end
    | _ => acc
    end) (mret false) targets.

(** The data blocks of [cache_on_sst_write]. *)
Fixpoint cache_written_blocks (id : Ulid) (targets : list CacheTarget) (blocks : list EncodedSsTableBlock) (cc : C) : result C :=
  match blocks with
  | [] => mret cc
  | block :: blocks =>
      wanted ← match key_span block with Some span => should_cache_data_block targets span | None => mret false end;
      cache_written_blocks id targets blocks
        (if wanted : bool then cache_insert (cache_key id (eb_offset block)) (ItemBlock (eb_block block)) cc else cc)
  end.

(** [cache_on_sst_write] *)
Definition cache_on_sst_write (id : Ulid) (targets : list CacheTarget) (sst : EncodedSsTable (F:=F)) (cc : C) : result C :=
  cc ← cache_written_blocks id targets (unconsumed_blocks sst) cc;
  let cc := if existsb is_index_target targets
            then cache_insert (cache_key id (index_offset (es_info sst))) (ItemIndex (es_index sst)) cc else cc in
  let cc := if existsb is_filters_target targets && bool_decide (es_filters sst ≠ [])
            then cache_insert (cache_key id (filter_offset (es_info sst))) (ItemFilters (es_filters sst)) cc else cc in
  mret (if existsb is_stats_target targets then
          match es_stats sst with
          | Some stats => cache_insert (cache_key id (stats_offset (es_info sst))) (ItemStats stats) cc
          | None => cc
          end
        else cc).

(** The removal loop of [evict_blocks_from_cache]. *)
Fixpoint remove_blocks h (idx : SsTableIndex) (blocks : list nat) (cc : C) : result C :=
  match blocks with
  | [] => mret cc
  | n :: blocks => m ← index idx n; remove_blocks h idx blocks (cache_remove (cache_key (handle_id h) (meta_offset m)) cc)
  end.
Fixpoint remove_ranges h (idx : SsTableIndex) (ranges : list BytesRange.t) (cc : C) : result C :=
  match ranges with
  | [] => mret cc
  | range :: ranges =>
      '(lo, hi) ← partitions_covering_range idx (start_inner (range_start (BytesRange.inner range)))
                   (end_inner (range_end (BytesRange.inner range)));
      cc ← remove_blocks h idx (List.seq lo (hi - lo)) cc;
      remove_ranges h idx ranges cc
  end.

(** [evict_blocks_from_cache] *)
Definition evict_blocks_from_cache ts h (ranges : list BytesRange.t) (cc : C) : result C :=
  let '(r, c) := ts_read_index ts h false (Some cc) in
  let cc := default cc c in
  match r with
  | Ok idx => remove_ranges h idx ranges cc
  | Err _ => mret cc
  | Panic => Panic
  | OutOfFuel => OutOfFuel
  end.

(** [evict_sst_targets_from_cache] *)
Definition evict_sst_targets_from_cache ts h (targets : list CacheTarget) c : result (option C) :=
  match c with
  | None => mret None
  | Some cc =>
      let data_ranges := omap (λ t, match t with TargetData s e => BytesRange.try_new s e | _ => None end) targets in
      cc ← if bool_decide (data_ranges = []) then mret cc else evict_blocks_from_cache ts h data_ranges cc;
      let remove off cc := cache_remove (cache_key (handle_id h) off) cc in
      let info := handle_info h in
      let cc := if existsb is_index_target targets then remove (index_offset info) cc else cc in
      let cc := if existsb is_filters_target targets && (0 <? filter_len info)%Z then remove (filter_offset info) cc else cc in
      mret (Some (if existsb is_stats_target targets && (0 <? stats_len info)%Z then remove (stats_offset info) cc else cc))
  end.
End table_store.

(** ** Merging cached and uncached blocks *)

(** The blocks of [bs] that are missing from the cache, with their numbers. *)
Fixpoint missing (n : nat) (cached : list (option Block)) : list nat :=
  match cached with
  | [] => []
  | Some _ :: cached => missing (S n) cached
  | None :: cached => n :: missing (S n) cached
  end.

Definition run_blocks (r : nat * nat) : list nat := List.seq r.1 (r.2 - r.1).

Lemma split_cached_ok first hi i cached br last unc :
  hi = first + i + length cached → (∀ s, last = Some s → s < i) →
  Forall (λ r, r.1 ≤ r.2 ∧ r.2 ≤ hi) unc →
  ∃ unc', split_cached first i cached br last unc hi = (br ++ omap id cached, unc') ∧
    Forall (λ r, r.1 ≤ r.2 ∧ r.2 ≤ hi) unc' ∧
    concat (run_blocks <$> unc') =
      concat (run_blocks <$> unc) ++ match last with Some s => List.seq (first + s) (i - s) | None => [] end ++
      missing (first + i) cached.
Proof.
  revert i br last unc. induction cached as [|[b|] cached IH]; intros i br last unc Hhi Hlast Hunc; cbn in Hhi |- *.
  - rewrite !app_nil_r. destruct last as [s|].
    + specialize (Hlast s eq_refl). eexists. split; [done|]. split.
      * apply Forall_app. split; [done|]. apply Forall_singleton. cbn. lia.
      * rewrite fmap_app, concat_app. cbn. rewrite app_nil_r. unfold run_blocks. cbn. do 2 f_equal. lia.
    + exists unc. split_and!; [done..|]. by rewrite app_nil_r.
  - set (unc1 := match last with Some s => _ | None => unc end).
    destruct (IH (S i) (br ++ [b]) None unc1) as (unc' & Heq & Hall & Hcat); [lia|done| |].
    { subst unc1. destruct last as [s|]; [|done]. specialize (Hlast s eq_refl). apply Forall_app. split; [done|].
      apply Forall_singleton. cbn. lia. }
    exists unc'. split; [by rewrite Heq, <- app_assoc|]. split; [done|].
    rewrite Hcat, Nat.add_succ_r, app_nil_l. subst unc1. destruct last as [s|]; [|done].
    specialize (Hlast s eq_refl). rewrite fmap_app, concat_app, <- app_assoc. cbn. rewrite app_nil_r. unfold run_blocks.
    cbn. do 3 f_equal. lia.
  - destruct (IH (S i) br (Some (default i last)) unc) as (unc' & Heq & Hall & Hcat); [lia| |done|].
    { intros s [= <-]. destruct last as [s|]; cbn; [|lia]. specialize (Hlast s eq_refl). lia. }
    exists unc'. split; [done|]. split; [done|]. rewrite Hcat, Nat.add_succ_r. f_equal. destruct last as [s|]; [change (default i (Some s)) with s|change (default i None) with i].
    + specialize (Hlast s eq_refl). replace (S i - s) with (i - s + 1) by lia. rewrite seq_app, <- app_assoc. cbn.
      do 2 f_equal. lia.
    + replace (S i - i) with 1 by lia. done.
Qed.

Lemma merge_run_app idx cb first run1 run2 br tc :
  merge_run idx cb first (run1 ++ run2) br tc =
  '(br, tc) ← merge_run idx cb first run1 br tc; merge_run idx cb first run2 br tc.
Proof.
  revert br tc. induction run1 as [|[n b] run1 IH]; intros br tc; [done|]. cbn [app merge_run].
  destruct cb; [destruct (index idx n) as [m|e| |]; [|done..]|]; run;
    (destruct (insert_at (n - first) b br) as [br'|e| |]; [|done..]); run; apply IH.
Qed.

(** A block that belongs to block number [n]. *)
Definition stored_at (idx : SsTableIndex) (blks : list Block) (off : Z) (b : Block) : Prop :=
  ∃ n m, idx !! n = Some m ∧ meta_offset m = off ∧ blks !! n = Some b.

Lemma merge_missing idx blks cb first pre cached bs tc :
  length idx = length blks →
  Forall2 (λ o b, ∀ b', o = Some b' → b' = b) cached bs →
  (∀ i b, bs !! i = Some b → blks !! (first + length pre + i) = Some b) →
  ∃ tc', merge_run idx cb first
      (omap (λ n, (n,.) <$> blks !! n) (missing (first + length pre) cached)) (pre ++ omap id cached) tc = Ok (pre ++ bs, tc ++ tc') ∧
    Forall (λ '(off, b), stored_at idx blks off b) tc'.
Proof.
  intros Hlen Hc. revert pre tc. induction Hc as [|o b cached bs Ho Hc IH]; intros pre tc Hbs.
  { exists []. cbn. by rewrite !app_nil_r. }
  assert (blks !! (first + length pre) = Some b) as Hb by (rewrite <- (Hbs 0 b eq_refl); f_equal; lia).
  assert (∀ i b', bs !! i = Some b' → blks !! (first + length (pre ++ [b]) + i) = Some b') as Hbs'.
  { intros i b' Hi. rewrite <- (Hbs (S i) b' Hi). f_equal. rewrite length_app. cbn. lia. }
  destruct o as [b'|].
  - rewrite (Ho b' eq_refl). cbn [missing omap list_omap id].
    destruct (IH (pre ++ [b]) tc Hbs') as (tc' & Heq & Htc).
    rewrite <- app_assoc in Heq. cbn [app] in Heq. rewrite length_app, Nat.add_assoc, Nat.add_1_r in Heq. cbn [length] in Heq.
    exists tc'. rewrite <- app_assoc in Heq. cbn in Heq. by rewrite Heq.
  - cbn [missing omap list_omap id]. rewrite Hb. cbn [fmap option_fmap option_map merge_run].
    destruct (lookup_lt_is_Some_2 idx (first + length pre)) as [m Hm].
    { rewrite Hlen. by eapply lookup_lt_Some. }
    assert (∀ tc0, ∃ tc', merge_run idx cb first (omap (λ n, (n,.) <$> blks !! n) (missing (S (first + length pre)) cached))
        (pre ++ b :: omap id cached) tc0 = Ok (pre ++ b :: bs, tc0 ++ tc') ∧ Forall (λ '(off, b), stored_at idx blks off b) tc') as Hrest.
    { intros tc0. destruct (IH (pre ++ [b]) tc0 Hbs') as (tc' & Heq & Htc). exists tc'. split; [|done].
      rewrite length_app, Nat.add_assoc, Nat.add_1_r, <- !app_assoc in Heq. exact Heq. }
    assert (insert_at (first + length pre - first) b (pre ++ omap id cached) = Ok (pre ++ b :: omap id cached)) as Hins.
    { unfold insert_at. replace (first + length pre - first) with (length pre) by lia. rewrite decide_True by (rewrite length_app; lia).
      by rewrite take_app_length, drop_app_length. }
    destruct cb.
    + unfold index. rewrite Hm. run. rewrite Hins. run.
      destruct (Hrest (tc ++ [(meta_offset m, b)])) as (tc' & Heq & Htc). exists ((meta_offset m, b) :: tc'). rewrite Heq, <- app_assoc.
      split; [done|]. constructor; [|done]. by exists (first + length pre), m.
    + run. rewrite Hins. run. destruct (Hrest tc) as (tc' & Heq & Htc). by exists tc'.
Qed.

(** ** Reads through the cache *)

(** What a stored table holds. *)
Record TableDesc := mkTableDesc {
  td_handle : SsTableHandle;
  td_index : SsTableIndex;
  td_blocks : list Block;
  td_stats : option SstStats;
  td_rows : list RowEntry;
}.

Section transparent.
  Context `{SstCodecs} {B F C : Type} `{FilterTraits B F} `{DbCache F C}.
  Context (coherent : C → (CachedKey → CachedItem F → Prop) → Prop) `{!DbCacheLaws F C coherent}.
  Context (ts : TableStore (B:=B) (F:=F)) (tables : Ulid → option TableDesc).
  Local Notation f := (ts_format ts).

(** A read that gives [v], perhaps only when it is repeated after a validation failure. *)
Definition recoverable {A} (id : Ulid) (read : ReadOnlyBlob → result A) (v : A) : Prop :=
  read (ts_object ts id None) = Ok v ∨
  ∃ e reason, read (ts_object ts id None) = Err e ∧ maybe_validation_retry_reason e = Some reason ∧
    read (ts_object ts id (Some reason)) = Ok v.

Lemma read_obj_ok {A} id (read : ReadOnlyBlob → result A) v : recoverable id read v → read_obj ts id read = Ok v.
Proof.
  unfold read_obj, read_with_validation_retry. intros [->|(e & reason & -> & Hr & Hv)]; [done|]. by rewrite Hr.
Qed.

Lemma recoverable_bind {A A'} id (read : ReadOnlyBlob → result A) (g : A → result A') v v' :
  recoverable id read v → g v = Ok v' → recoverable id (λ obj, read obj ≫= g) v'.
Proof.
  intros [Hr|(e & reason & He & Hr & Hv)] Hg.
  - left. by rewrite Hr.
  - right. exists e, reason. by rewrite He, Hv.
Qed.

(** The objects serve a table. *)
Record served (t : TableDesc) : Prop := {
  sv_blocks_len : length (td_index t) = length (td_blocks t);
  sv_offsets : NoDup (meta_offset <$> td_index t);
  sv_sorted : ∀ i j a b, i ≤ j → td_index t !! i = Some a → td_index t !! j = Some b → meta_first_key a ≼ meta_first_key b;
  sv_index : recoverable (handle_id (td_handle t)) (read_index f (handle_info (td_handle t))) (td_index t);
  sv_blocks lo hi : lo ≤ hi → hi ≤ length (td_index t) →
    recoverable (handle_id (td_handle t)) (read_blocks f (handle_info (td_handle t)) (td_index t) lo hi)
      (take (hi - lo) (drop lo (td_blocks t)));
  sv_stats : recoverable (handle_id (td_handle t)) (read_stats f (handle_info (td_handle t))) (td_stats t);
  sv_no_stats : stats_len (handle_info (td_handle t)) = 0%Z → td_stats t = None;
  sv_filters : ∃ nfs, recoverable (handle_id (td_handle t)) (read_filters f (handle_info (td_handle t))) nfs ∧
    Forall (named_sound f (td_rows t)) nfs;
}.

Definition encoded_filters (nfs : list (NamedFilter (F:=F))) : list (bytes * bytes) :=
  (λ nf, (nf_name nf, encode_filter (nf_filter nf))) <$> nfs.

(** The entries the cache may hold: for each section of a table, what the table holds there. *)
Definition good (k : CachedKey) (e : CachedItem F) : Prop :=
  ∀ t, tables (ck_sst_id k) = Some t → let info := handle_info (td_handle t) in
    match e with
    | ItemBlock b => ∀ n m, td_index t !! n = Some m → meta_offset m = block_id k → td_blocks t !! n = Some b
    | ItemIndex i => index_offset info = block_id k → i = td_index t
    | ItemFilters nfs => filter_offset info = block_id k → Forall (named_sound f (td_rows t)) nfs
    | ItemEncodedFilters efs => filter_offset info = block_id k →
        ∃ nfs, efs = encoded_filters nfs ∧ Forall (named_sound f (td_rows t)) nfs
    | ItemStats s => stats_offset info = block_id k → td_stats t = Some s
    end.

Definition cache_ok (c : option C) : Prop := ∀ cc, c = Some cc → coherent cc good.

Lemma good_revived k e e' : good k e → revived e e' → good k e'.
Proof.
  intros Hg [->|(nfs & -> & ->)]; [done|]. intros t Ht. cbn. intros Hoff. exists nfs. split; [done|].
  by apply (Hg t Ht).
Qed.

Lemma insert_ok k e (cc : C) : coherent cc good → good k e → coherent (cache_insert k e cc) good.
Proof. intros Hc Hg. apply insert_good; [done|]. intros e'. by apply good_revived. Qed.

(** A lookup, with or without loading. *)
Lemma cache_lookup_ok kind k cb loader c r c' :
  cache_ok c → cache_lookup ts kind k cb loader c = (r, c') →
  returns loader → (∀ e, loader = Ok e → good k e) →
  cache_ok c' ∧ ∃ o, r = Ok o ∧ ∀ e, o = Some e → good k e.
Proof.
  unfold cache_lookup, cache_for_reads. intros Hc Hl Hret Hload.
  case_decide; [simplify_eq; split; [done|by exists None]|].
  destruct c as [cc|]; [|simplify_eq; split; [done|by exists None]]. specialize (Hc cc eq_refl). destruct cb.
  - destruct (cache_fetch kind k loader cc) as [g cc'] eqn:Hf.
    destruct (fetch_good _ _ _ _ _ _ _ Hc Hf Hret) as (Hc' & Hr & Hg).
    { intros e e' He. by apply good_revived, Hload. }
    injection Hl as <- <-. split; [by intros ? [= <-]|].
    destruct g as [[e lk]|err| |]; try done; eexists; (split; [reflexivity|]); [|done]. intros e' [= <-]. by eapply Hg.
  - destruct (cache_get kind k cc) as [g cc'] eqn:Hf.
    destruct (get_good _ _ _ _ _ _ Hc Hf) as (Hc' & Hr & Hg).
    injection Hl as <- <-. split; [by intros ? [= <-]|].
    destruct g as [o|err| |]; try done; eexists; (split; [reflexivity|]); [|done]. intros e' ->. by eapply Hg.
Qed.

  Context (t : TableDesc) (Ht : tables (handle_id (td_handle t)) = Some t) (Hsv : served t).
  Local Notation h := (td_handle t).

Lemma ts_read_index_ok cb c :
  cache_ok c → ∃ c', ts_read_index ts h cb c = (Ok (td_index t), c') ∧ cache_ok c'.
Proof.
  intros Hc. unfold ts_read_index. rewrite (read_obj_ok _ _ _ (sv_index t Hsv)). run.
  destruct (cache_lookup _ _ _ _ _ _) as [r c'] eqn:Hl.
  destruct (cache_lookup_ok _ _ _ _ _ _ _ Hc Hl) as (Hc' & o & -> & Ho); [done| |].
  { intros e [= <-]. intros t'. cbn. rewrite Ht. by intros [= <-]. }
  exists c'. split; [|done]. run. destruct o as [[b|i|nfs|efs|s]|]; cbn; try done.
  do 2 f_equal. apply (Ho _ eq_refl t); done.
Qed.

Lemma ts_read_stats_ok cb c :
  cache_ok c → ∃ c', ts_read_stats ts h cb c = (Ok (td_stats t), c') ∧ cache_ok c'.
Proof.
  intros Hc. unfold ts_read_stats. destruct (Z.eqb_spec (stats_len (handle_info h)) 0) as [Hz|Hz].
  { exists c. by rewrite (sv_no_stats t Hsv Hz). }
  rewrite (read_obj_ok _ _ _ (sv_stats t Hsv)). run.
  destruct (cache_lookup _ _ _ _ _ _) as [r c'] eqn:Hl.
  destruct (cache_lookup_ok _ _ _ _ _ _ _ Hc Hl) as (Hc' & o & -> & Ho).
  { by destruct (td_stats t). }
  { intros e He. destruct (td_stats t) as [s|] eqn:Hs; [|done]. injection He as <-. intros t'. cbn.
    rewrite Ht. by intros [= <-]. }
  exists c'. split; [|done]. run. destruct o as [[b|i|nfs|efs|s]|]; cbn; try done.
  do 2 f_equal. symmetry. apply (Ho _ eq_refl t); done.
Qed.

Lemma decode_cached_ok nfs :
  Forall (named_sound f (td_rows t)) nfs →
  ∃ out, decode_cached_filters ts (encoded_filters nfs) = Ok out ∧ Forall (named_sound f (td_rows t)) out.
Proof.
  induction 1 as [|nf nfs [_ Hp] _ (out & Hout & Hs)]; [by exists []|]. cbn. fold (encoded_filters nfs).
  destruct (find_policy (ts_format ts) (nf_name nf)) as [p|] eqn:Hf; [|by exists out].
  destruct (Hp p eq_refl) as (flt & Hdec & Henc & Hsound). rewrite Hdec. run. rewrite Hout. run.
  eexists. split; [reflexivity|]. constructor; [|done]. split; [done|]. cbn. intros p' Hp'.
  assert (p' = p) as -> by (congruence). exists flt. by rewrite Henc.
Qed.

Lemma ts_read_filters_ok cb c :
  cache_ok c → ∃ nfs c', ts_read_filters ts h cb c = (Ok nfs, c') ∧ Forall (named_sound f (td_rows t)) nfs ∧ cache_ok c'.
Proof.
  intros Hc. unfold ts_read_filters. destruct (_ || _); [by exists [], c|].
  destruct (sv_filters t Hsv) as (nfs & Hread & Hsound). rewrite (read_obj_ok _ _ _ Hread). run.
  destruct (cache_lookup _ _ _ _ _ _) as [r c'] eqn:Hl.
  destruct (cache_lookup_ok _ _ _ _ _ _ _ Hc Hl) as (Hc' & o & -> & Ho); [done| |].
  { intros e [= <-]. intros t'. cbn. rewrite Ht. by intros [= <-]. }
  destruct o as [[b|i|nfs'|efs|s]|]; try (by exists nfs, c').
  - exists nfs', c'. split_and!; [done| |done]. apply (Ho _ eq_refl t); done.
  - destruct (Ho _ eq_refl t Ht eq_refl) as (nfs' & -> & Hs'). unfold decode_and_refresh_filter.
    destruct (decode_cached_ok nfs' Hs') as (out & -> & Hout). exists out. eexists. split; [reflexivity|]. split; [done|].
    intros cc' (cc & -> & ->)%fmap_Some. apply insert_ok; [by apply Hc'|]. intros t'. cbn.
    rewrite Ht. by intros [= <-].
Qed.

Lemma stored_good off b : stored_at (td_index t) (td_blocks t) off b → good (cache_key (handle_id h) off) (ItemBlock b).
Proof.
  intros (n & m & Hm & Hoff & Hb) t'. cbn. rewrite Ht. intros [= <-] n' m' Hm' Hoff'.
  enough (n' = n) as -> by done. cbn in Hoff'. eapply (NoDup_lookup _ _ _ off (sv_offsets t Hsv));
    rewrite list_lookup_fmap; [rewrite Hm'|rewrite Hm]; cbn; congruence.
Qed.

Lemma get_blocks_ok (cc : C) lo n :
  coherent cc good → lo + n ≤ length (td_index t) →
  ∃ cached cc', get_blocks h (td_index t) (List.seq lo n) cc = (Ok cached, cc') ∧ coherent cc' good ∧
    Forall2 (λ o b, ∀ b', o = Some b' → b' = b) cached (take n (drop lo (td_blocks t))).
Proof.
  revert lo cc. induction n as [|n IH]; intros lo cc Hc Hlen; [by exists [], cc|].
  destruct (lookup_lt_is_Some_2 (td_index t) lo) as [m Hm]; [lia|].
  destruct (lookup_lt_is_Some_2 (td_blocks t) lo) as [b Hb]; [rewrite <- (sv_blocks_len t Hsv); lia|].
  cbn [List.seq get_blocks]. unfold index at 1. rewrite Hm. cbn [expect].
  destruct (cache_get _ _ cc) as [r cc1] eqn:Hg. destruct (get_good _ _ _ _ _ _ Hc Hg) as (Hc1 & Hr & He).
  destruct (IH (S lo) cc1 Hc1) as (cached & cc2 & -> & Hc2 & Hall); [lia|].
  assert (∃ o, or_missing r = Ok o ∧ ∀ e, o = Some e → good (cache_key (handle_id h) (meta_offset m)) e) as (o & -> & Ho).
  { destruct r as [o|err| |]; try done; eexists; (split; [reflexivity|]); [|done]. intros e ->. by apply He. }
  run. exists ((o ≫= entry_block) :: cached), cc2. split_and!; [done..|]. rewrite (drop_S _ _ _ Hb). cbn. constructor; [|done].
  intros b' Hb'. destruct o as [[b0| | | |]|]; try done. injection Hb' as <-.
  pose proof (Ho _ eq_refl t Ht lo m Hm eq_refl). congruence.
Qed.

Lemma insert_blocks_ok tc (cc : C) :
  coherent cc good → Forall (λ '(off, b), stored_at (td_index t) (td_blocks t) off b) tc →
  coherent (insert_blocks h tc cc) good.
Proof.
  intros Hc Hall. revert cc Hc. induction Hall as [|[off b] tc Hb _ IH]; intros cc Hc; [done|]. cbn. apply IH.
  apply insert_ok; [done|]. by apply stored_good.
Qed.

Lemma load_blocks_ok lo hi : lo ≤ hi → hi ≤ length (td_index t) →
  load_blocks ts h (td_index t) lo hi = Ok (take (hi - lo) (drop lo (td_blocks t))).
Proof. intros. by apply read_obj_ok, sv_blocks. Qed.

Lemma zip_run {A} (l : list A) lo n : lo + n ≤ length l →
  zip (List.seq lo n) (take n (drop lo l)) = omap (λ i, (i,.) <$> l !! i) (List.seq lo n).
Proof.
  revert lo. induction n as [|n IH]; intros lo Hlen; [done|].
  destruct (lookup_lt_is_Some_2 l lo) as [x Hx]; [lia|]. rewrite (drop_S _ _ _ Hx). cbn. rewrite Hx. cbn. f_equal.
  apply IH. lia.
Qed.

Lemma merge_runs_ok cb first runs br tc :
  Forall (λ r, r.1 ≤ r.2 ∧ r.2 ≤ length (td_index t)) runs →
  merge_runs (td_index t) cb first ((λ r, (r, load_blocks ts h (td_index t) r.1 r.2)) <$> runs) br tc =
  merge_run (td_index t) cb first (omap (λ n, (n,.) <$> td_blocks t !! n) (concat (run_blocks <$> runs))) br tc.
Proof.
  intros Hall. revert br tc. induction Hall as [|[lo hi] runs [Hlo Hhi] _ IH]; intros br tc; [done|]. cbn [fst snd] in *.
  cbn [fmap list_fmap merge_runs concat fst snd]. rewrite load_blocks_ok by done. run.
  rewrite omap_app, merge_run_app. change (run_blocks (lo, hi)) with (List.seq lo (hi - lo)).
  rewrite <- zip_run by (rewrite <- (sv_blocks_len t Hsv); lia).
  destruct (merge_run _ _ _ _ br tc) as [[br' tc']|e| |]; run; [apply IH|done..].
Qed.

Lemma read_blocks_merged_ok lo hi cb c :
  cache_ok c → lo ≤ hi → hi ≤ length (td_index t) →
  ∃ c', read_blocks_merged ts h (td_index t) lo hi cb c = (Ok (take (hi - lo) (drop lo (td_blocks t))), c') ∧ cache_ok c'.
Proof.
  intros Hc Hlo Hhi. pose proof (sv_blocks_len t Hsv) as Hlen. unfold read_blocks_merged.
  set (bs := take (hi - lo) (drop lo (td_blocks t))).
  assert (∀ i b, bs !! i = Some b → td_blocks t !! (lo + i) = Some b) as Hbs.
  { intros i b. unfold bs. rewrite lookup_take_Some, lookup_drop. by intros [? _]. }
  assert (length bs = hi - lo) as Hbl by (unfold bs; rewrite length_take, length_drop; lia).
  assert (∀ cached, Forall2 (λ o b, ∀ b', o = Some b' → b' = b) cached bs → ∀ tc, ∃ tc',
    merge_run (td_index t) cb lo (omap (λ n, (n,.) <$> td_blocks t !! n) (missing lo cached)) (omap id cached) tc
      = Ok (bs, tc ++ tc') ∧ Forall (λ '(off, b), stored_at (td_index t) (td_blocks t) off b) tc') as Hmerge.
  { intros cached Hcached tc. destruct (merge_missing (td_index t) (td_blocks t) cb lo [] cached bs tc Hlen Hcached) as (tc' & Heq & Htc).
    - intros i b Hi. cbn. rewrite Nat.add_0_r. by apply Hbs.
    - exists tc'. split; [|done]. cbn in Heq. by rewrite Nat.add_0_r in Heq. }
  assert (∃ c',
    match merge_runs (td_index t) cb lo ((λ r, (r, load_blocks ts h (td_index t) r.1 r.2)) <$> [(lo, hi)]) [] [] with
    | Ok (br, tc) => (Ok br, c)
    | Err e => (Err e, c)
    | Panic => (Panic, c)
    | OutOfFuel => (OutOfFuel, c)
    end = (Ok bs, c') ∧ cache_ok c') as Hnocache.
  { rewrite merge_runs_ok by (by apply Forall_singleton).
    destruct (Hmerge (replicate (hi - lo) None)) with (tc := @nil (Z * Block)) as (tc' & Heq & _).
    { apply Forall2_replicate_l; [done|]. apply Forall_true. by intros b b0 [=]. }
    assert (∀ n, missing lo (replicate n None) = List.seq lo n) as Hmis.
    { intros n. clear. revert lo. induction n as [|n IH]; intros lo; cbn; [done|]. by rewrite IH. }
    assert (∀ n, omap id (replicate n (@None Block)) = []) as Hnone by (intros n; by induction n).
    rewrite Hmis, Hnone in Heq. cbn [fmap list_fmap concat]. rewrite app_nil_r. unfold run_blocks. cbn [fst snd].
    rewrite Heq. by exists c. }
  unfold cache_for_reads. case_decide as Hk; [|destruct c as [cc|]].
  - apply Hnocache.
  - destruct (get_blocks_ok cc lo (hi - lo) (Hc cc eq_refl)) as (cached & cc' & -> & Hc' & Hcached); [lia|].
    fold bs in Hcached. pose proof (Forall2_length _ _ _ Hcached) as Hcl. run.
    destruct (split_cached_ok lo hi 0 cached [] None []) as (unc & -> & Hunc & Hcat); [lia|done|by constructor|].
    rewrite merge_runs_ok.
    2:{ eapply Forall_impl; [exact Hunc|]. cbn. intros r ?. lia. }
    rewrite Hcat, Nat.add_0_r. cbn [app fmap list_fmap concat].
    destruct (Hmerge cached Hcached []) as (tc & -> & Htc). eexists. split; [reflexivity|].
    intros cc0 [= <-]. by apply insert_blocks_ok.
  - apply Hnocache.
Qed.

Lemma read_blocks_using_index_ok lo hi cb c :
  cache_ok c → lo ≤ hi → hi ≤ length (td_index t) →
  ∃ c', read_blocks_using_index ts h (td_index t) lo hi cb c = (Ok (take (hi - lo) (drop lo (td_blocks t))), c') ∧ cache_ok c'.
Proof.
  intros Hc Hlo Hhi. unfold read_blocks_using_index.
  destruct (cb && bool_decide (hi - lo = 1)) eqn:Hone; [|by apply read_blocks_merged_ok].
  destruct (cache_for_reads ts c) as [cc|] eqn:Hcc; [|by apply read_blocks_merged_ok].
  apply andb_true_iff in Hone as [_ Hone%bool_decide_eq_true].
  assert (coherent cc good) as Hcoh by (apply Hc; unfold cache_for_reads in Hcc; by case_decide).
  destruct (lookup_lt_is_Some_2 (td_index t) lo) as [m Hm]; [lia|].
  destruct (lookup_lt_is_Some_2 (td_blocks t) lo) as [b Hb]; [rewrite <- (sv_blocks_len t Hsv); lia|].
  unfold index at 1. rewrite Hm. cbn [expect].
  assert (take (hi - lo) (drop lo (td_blocks t)) = [b]) as Hbs.
  { rewrite Hone, (drop_S _ _ _ Hb). cbn. by rewrite take_0. }
  assert (read_obj ts (handle_id h) (read_block f (handle_info h) (td_index t) lo) = Ok b) as Hload.
  { apply read_obj_ok. apply (recoverable_bind _ _ _ [b]); [|done]. rewrite <- Hbs.
    replace (lo + 1) with hi by lia. by apply (sv_blocks t Hsv). }
  rewrite Hload. run. destruct (cache_fetch _ _ _ cc) as [r cc'] eqn:Hf.
  assert (good (cache_key (handle_id h) (meta_offset m)) (ItemBlock b)) as Hgood by (apply stored_good; by exists lo, m).
  destruct (fetch_good _ _ _ _ _ _ _ Hcoh Hf I) as (Hc' & Hr & Hg).
  { intros e e' [= <-]. by apply good_revived. }
  assert (cache_ok (Some cc')) as Hcok by (by intros ? [= <-]).
  destruct r as [[[b'| | | |] lk]|e| |]; try done; try (by apply read_blocks_merged_ok).
  exists (Some cc'). split; [|done]. rewrite Hbs. pose proof (Hg _ _ eq_refl t Ht lo m Hm eq_refl). congruence.
Qed.

(** *** Evictions and insertions on write *)

Lemma remove_blocks_ok blocks (cc : C) :
  coherent cc good → Forall (λ n, n < length (td_index t)) blocks →
  ∃ cc', remove_blocks h (td_index t) blocks cc = Ok cc' ∧ coherent cc' good.
Proof.
  intros Hc Hall. revert cc Hc.
  induction Hall as [|n blocks Hn _ IH]; intros cc Hc; [by exists cc|].
  destruct (lookup_lt_is_Some_2 (td_index t) n Hn) as [m Hm]. cbn [remove_blocks]. unfold index at 1. rewrite Hm. run. apply IH.
  by apply remove_good.
Qed.

Global Instance served_keyspace : KeySpaceOf (td_index t) (meta_first_key <$> td_index t).
Proof.
  split.
  - cbn. by rewrite length_fmap.
  - intros i. unfold partition_first_key, index_keyspace, index. rewrite list_lookup_fmap. by destruct (td_index t !! i).
  - intros i j a b Hij (m & -> & Hm)%list_lookup_fmap_Some_1 (m' & -> & Hm')%list_lookup_fmap_Some_1.
    by apply (sv_sorted t Hsv i j).
Qed.

Lemma remove_ranges_ok ranges (cc : C) :
  coherent cc good → td_index t ≠ [] →
  ∃ cc', remove_ranges h (td_index t) ranges cc = Ok cc' ∧ coherent cc' good.
Proof.
  intros Hc Hne. revert cc Hc. induction ranges as [|r ranges IH]; intros cc Hc; [by exists cc|]. cbn [remove_ranges].
  destruct (covering_range_ok (td_index t) (meta_first_key <$> td_index t) (start_inner (range_start (BytesRange.inner r)))
    (end_inner (range_end (BytesRange.inner r)))) as (lo & hi & -> & Hhi & _).
  { by destruct (td_index t). }
  rewrite length_fmap in Hhi. run.
  destruct (remove_blocks_ok (List.seq lo (hi - lo)) cc Hc) as (cc' & -> & Hc').
  { apply Forall_forall. intros n Hn%list_elem_of_In%in_seq. lia. }
  run. by apply IH.
Qed.

Lemma evict_ok targets c :
  cache_ok c → td_index t ≠ [] →
  ∃ c', evict_sst_targets_from_cache ts h targets c = Ok c' ∧ cache_ok c'.
Proof.
  intros Hc Hne. unfold evict_sst_targets_from_cache. destruct c as [cc|]; [|by exists None].
  set (ranges := omap _ targets). specialize (Hc cc eq_refl).
  assert (∃ cc', (if bool_decide (ranges = []) then mret cc else evict_blocks_from_cache ts h ranges cc) = Ok cc' ∧
    coherent cc' good) as (cc' & -> & Hc').
  { case_bool_decide; [by exists cc|]. unfold evict_blocks_from_cache.
    destruct (ts_read_index_ok false (Some cc)) as (c' & -> & Hc'); [by intros ? [= <-]|].
    apply remove_ranges_ok; [|done]. destruct c' as [cc'|]; [by apply Hc'|done]. }
  run. eexists. split; [reflexivity|]. intros cc0 [= <-].
  repeat (destruct (_ && _) || destruct (existsb _ _)); repeat apply remove_good; done.
Qed.

(** A finished table as its writer still holds it. *)
Definition written_as (sst : EncodedSsTable (F:=F)) : Prop :=
  es_info sst = handle_info h ∧ es_index sst = td_index t ∧ es_stats sst = td_stats t ∧
  Forall (named_sound f (td_rows t)) (es_filters sst) ∧
  Forall (λ eb, stored_at (td_index t) (td_blocks t) (eb_offset eb) (eb_block eb) ∧
    ∀ span, key_span eb = Some span → span.1 ≼ span.2) (unconsumed_blocks sst).

Lemma should_cache_ok targets span : span.1 ≼ span.2 → ∃ b, should_cache_data_block targets span = Ok b.
Proof.
  intros Hs. induction targets as [|tg targets [b IH]]; [by eexists|]. cbn [should_cache_data_block foldr].
  fold (should_cache_data_block targets span). destruct tg as [| | |s e]; [by exists b..|].
  destruct (BytesRange.try_new s e) as [r|]; [|by exists b].
  assert (∃ sp, BytesRange.new (Included span.1) (Included span.2) = Ok (E:=SlateDBError) sp) as [sp ->].
  { unfold BytesRange.new. cbn. apply ord_leb_true in Hs. rewrite Hs. by eexists. }
  run. destruct (bool_decide _); by eexists.
Qed.

Lemma cache_written_ok targets blocks (cc : C) :
  coherent cc good →
  Forall (λ eb, stored_at (td_index t) (td_blocks t) (eb_offset eb) (eb_block eb) ∧
    ∀ span, key_span eb = Some span → span.1 ≼ span.2) blocks →
  ∃ cc', cache_written_blocks (handle_id h) targets blocks cc = Ok cc' ∧ coherent cc' good.
Proof.
  intros Hc Hall. revert cc Hc. induction Hall as [|eb blocks [Hat Hspan] _ IH]; intros cc Hc; [by exists cc|].
  cbn [cache_written_blocks].
  assert (∃ b, match key_span eb with Some span => should_cache_data_block targets span | None => mret false end = Ok b) as [b ->].
  { destruct (key_span eb) as [span|]; [by apply should_cache_ok, Hspan|by exists false]. }
  run. apply IH. destruct b; [|done]. apply insert_ok; [done|]. by apply stored_good.
Qed.

Lemma cache_on_sst_write_ok targets sst (cc : C) :
  coherent cc good → written_as sst →
  ∃ cc', cache_on_sst_write (handle_id h) targets sst cc = Ok cc' ∧ coherent cc' good.
Proof.
  intros Hc (Hinfo & Hidx & Hst & Hfl & Hbl). unfold cache_on_sst_write.
  destruct (cache_written_ok targets _ cc Hc Hbl) as (cc1 & -> & Hc1). run.
  set (cc2 := if existsb is_index_target targets then _ else cc1).
  assert (coherent cc2 good) as Hc2.
  { unfold cc2. destruct (existsb _ _); [|done]. apply insert_ok; [done|]. intros t'. cbn. rewrite Ht. by intros [= <-]. }
  set (cc3 := if existsb is_filters_target targets && _ then _ else cc2).
  assert (coherent cc3 good) as Hc3.
  { unfold cc3. destruct (_ && _); [|done]. apply insert_ok; [done|]. intros t'. cbn. rewrite Ht. by intros [= <-]. }
  clearbody cc3. eexists. split; [reflexivity|]. destruct (existsb is_stats_target targets); [|done].
  destruct (es_stats sst) as [st|]; [|done]. apply insert_ok; [done|]. intros t'. cbn. rewrite Ht. by intros [= <-].
Qed.
End transparent.

(** ** Sequences of operations *)

(** The operations of the store on one table. *)
Inductive TableOp {F : Type} :=
| OpReadIndex (cache_blocks : bool)
| OpReadBlocks (lo hi : nat) (cache_blocks : bool)
| OpReadStats (cache_blocks : bool)
| OpReadFilters (cache_blocks : bool)
| OpEvict (targets : list CacheTarget)
| OpCacheWritten (targets : list CacheTarget) (sst : EncodedSsTable (F:=F)).

Inductive TableAnswer {F : Type} :=
| AnsIndex (idx : SsTableIndex)
| AnsBlocks (blocks : list Block)
| AnsStats (stats : option SstStats)
| AnsFilters (filters : list (NamedFilter (F:=F)))
| AnsDone.
Arguments TableOp : clear implicits.
Arguments TableAnswer : clear implicits.

Section operations.
  Context `{SstCodecs} {B F C : Type} `{FilterTraits B F} `{DbCache F C}.

Definition perform (ts : TableStore (B:=B) (F:=F)) (t : TableDesc) (op : TableOp F) (c : option C)
    : result (TableAnswer F) * option C :=
  let h := td_handle t in
  match op with
  | OpReadIndex cb => let '(r, c) := ts_read_index ts h cb c in (x ← r; mret (AnsIndex x), c)
  | OpReadBlocks lo hi cb => let '(r, c) := read_blocks_using_index ts h (td_index t) lo hi cb c in (x ← r; mret (AnsBlocks x), c)
  | OpReadStats cb => let '(r, c) := ts_read_stats ts h cb c in (x ← r; mret (AnsStats x), c)
  | OpReadFilters cb => let '(r, c) := ts_read_filters ts h cb c in (x ← r; mret (AnsFilters x), c)
  | OpEvict targets =>
      match evict_sst_targets_from_cache ts h targets c with
      | Ok c => (Ok AnsDone, c)
      | Err e => (Err e, c)
      | Panic => (Panic, c)
      | OutOfFuel => (OutOfFuel, c)
      end
  | OpCacheWritten targets sst =>
      match c with
      | None => (Ok AnsDone, None)
      | Some cc => match cache_on_sst_write (handle_id h) targets sst cc with
                   | Ok cc => (Ok AnsDone, Some cc)
                   | Err e => (Err e, c)
                   | Panic => (Panic, c)
                   | OutOfFuel => (OutOfFuel, c)
                   end
      end
  end.

Fixpoint perform_all (ts : TableStore (B:=B) (F:=F)) (ops : list (TableDesc * TableOp F)) (c : option C)
    : list (result (TableAnswer F)) :=
  match ops with
  | [] => []
  | (t, op) :: ops => let '(r, c) := perform ts t op c in r :: perform_all ts ops c
  end.

(** Operations that make sense: ranges of existing blocks, writes of the table itself. *)
Definition op_ok (ts : TableStore (B:=B) (F:=F)) (t : TableDesc) (op : TableOp F) : Prop :=
  match op with
  | OpReadBlocks lo hi _ => lo ≤ hi ∧ hi ≤ length (td_index t)
  | OpCacheWritten _ sst => written_as ts t sst
  | _ => True
  end.

(** The answers of a store without a cache. *)
Definition answer_ok (ts : TableStore (B:=B) (F:=F)) (t : TableDesc) (op : TableOp F) (r : result (TableAnswer F)) : Prop :=
  match op with
  | OpReadIndex _ => r = Ok (AnsIndex (td_index t))
  | OpReadBlocks lo hi _ => r = Ok (AnsBlocks (take (hi - lo) (drop lo (td_blocks t))))
  | OpReadStats _ => r = Ok (AnsStats (td_stats t))
  | OpReadFilters _ => ∃ nfs, r = Ok (AnsFilters nfs) ∧ Forall (named_sound (ts_format ts) (td_rows t)) nfs
  | OpEvict _ | OpCacheWritten _ _ => r = Ok AnsDone
  end.

Lemma perform_ok coherent `{!DbCacheLaws F C coherent} (ts : TableStore (B:=B) (F:=F)) tables t op c :
  cache_ok coherent ts tables c → tables (handle_id (td_handle t)) = Some t → served ts t → td_index t ≠ [] → op_ok ts t op →
  ∃ r c', perform ts t op c = (r, c') ∧ answer_ok ts t op r ∧ cache_ok coherent ts tables c'.
Proof.
  intros Hc Ht Hsv Hne Hop. destruct op as [cb|lo hi cb|cb|cb|targets|targets sst]; cbn [perform answer_ok].
  - destruct (ts_read_index_ok coherent ts tables t Ht Hsv cb c Hc) as (c' & -> & Hc'). eauto.
  - destruct Hop. destruct (read_blocks_using_index_ok coherent ts tables t Ht Hsv lo hi cb c Hc) as (c' & -> & Hc'); eauto.
  - destruct (ts_read_stats_ok coherent ts tables t Ht Hsv cb c Hc) as (c' & -> & Hc'). eauto.
  - destruct (ts_read_filters_ok coherent ts tables t Ht Hsv cb c Hc) as (nfs & c' & -> & Hs & Hc'). cbn. eauto 10.
  - destruct (evict_ok coherent ts tables t Ht Hsv targets c Hc Hne) as (c' & -> & Hc'). eauto.
  - destruct c as [cc|]; [|eauto].
    destruct (cache_on_sst_write_ok coherent ts tables t Ht Hsv targets sst cc (Hc cc eq_refl) Hop) as (cc' & -> & Hc').
    do 2 eexists. split_and!; [done..|]. by intros ? [= <-].
Qed.

End operations.

(** A table that reads back is served by its object. *)
Lemma readable_served `{SstCodecs} {B F : Type} `{FilterTraits B F} (ts : TableStore (B:=B) (F:=F)) obj h es bss idx :
  (∀ tag, ts_object ts (handle_id h) tag = obj) → table_readable (ts_format ts) obj h es bss idx →
  stats_len (handle_info h) ≠ 0%Z →
  ∃ t, td_handle t = h ∧ td_index t = idx ∧ td_rows t = es ∧ Forall2 (block_holds (table_format (ts_format ts))) (td_blocks t) bss ∧
    served ts t.
Proof.
  intros Hobj [_ _ _ _ Hnon Hidx [Hseplen Hsep] Hoff (blks & Hblks & Hread) (st & Hst & _) (nfs & Hnfs & Hsound)] Hsl.
  exists (mkTableDesc h idx blks (Some st) es). split_and!; [done..|]. split; cbn; try done.
  - rewrite <- (length_fmap meta_first_key), Hseplen. symmetry. by eapply Forall2_length.
  - intros i j a b Hij Ha Hb. destruct (decide (i = j)) as [->|Hne]; [assert (a = b) as -> by congruence; ord|].
    destruct (Hsep i (meta_first_key a)) as [Hself _]; [by rewrite list_lookup_fmap, Ha|].
    destruct (Hsep j (meta_first_key b)) as [_ Hbefore]; [by rewrite list_lookup_fmap, Hb|].
    destruct (lookup_lt_is_Some_2 bss i) as [bl Hbl].
    { rewrite <- Hseplen, length_fmap. by eapply lookup_lt_Some. }
    specialize (Hself bl Hbl). specialize (Hbefore i bl ltac:(lia) Hbl).
    rewrite Forall_forall in Hnon. specialize (Hnon bl ltac:(by eapply list_elem_of_lookup_2)).
    destruct bl as [|e bl]; [done|]. apply Forall_cons in Hself as [? _]. apply Forall_cons in Hbefore as [? _]. ord.
  - left. by rewrite Hobj.
  - intros lo hi Hlo Hhi. left. rewrite Hobj. by apply Hread.
  - left. by rewrite Hobj.
  - exists nfs. split; [|done]. left. by rewrite Hobj.
Qed.

(** ** The read-ahead range *)

(** The bytes of a range of blocks reach the target. *)
Definition reaches (info : SsTableInfo) (idx : SsTableIndex) (target : Z) (lo hi : nat) : Prop :=
  ∃ s e, block_range info idx lo hi = Ok (s, e) ∧ (target ≤ Z.max 0 (e - s))%Z.

Lemma block_range_total info idx lo hi : lo < length idx → ∃ s e, block_range info idx lo hi = Ok (s, e).
Proof.
  intros Hlo. unfold block_range. destruct (lookup_lt_is_Some_2 idx lo Hlo) as [m Hm]. unfold index. rewrite Hm.
  case_decide as Hhi; [destruct (lookup_lt_is_Some_2 idx hi Hhi) as [m' ->]|]; run; cbn; eauto.
Qed.

Lemma grow_up_ok n info idx lo hi target :
  lo < hi → hi ≤ length idx → length idx - hi ≤ n → (∀ hi', lo < hi' < hi → ¬ reaches info idx target lo hi') →
  ∃ hi', grow_up n info idx lo hi target = Ok (lo, hi') ∧ lo < hi' ≤ length idx ∧
    (reaches info idx target lo hi' ∨ hi' = length idx) ∧ (∀ x, lo < x < hi' → ¬ reaches info idx target lo x).
Proof.
  revert hi. induction n as [|n IH]; intros hi Hlo Hhi Hn Hmin; cbn [grow_up];
    destruct (block_range_total info idx lo hi ltac:(lia)) as (s & e & Hr); rewrite Hr; run.
  all: destruct (bool_decide_reflect (target ≤ Z.max 0 (e - s))%Z) as [Ht|Ht]; cbn [orb].
  all: try (exists hi; split_and!; [done|lia|lia|by left; exists s, e|done]).
  all: destruct (bool_decide_reflect (hi = length idx)) as [He|He].
  all: try (exists hi; split_and!; [done|lia|lia|by right|done]).
  - lia.
  - apply IH; [lia..|]. intros x Hx. destruct (decide (x = hi)) as [->|]; [|apply Hmin; lia].
    intros (s' & e' & Hr' & Ht'). rewrite Hr in Hr'. injection Hr' as <- <-. lia.
Qed.

Lemma grow_down_ok n info idx lo hi target :
  lo < hi → hi ≤ length idx → lo ≤ n → (∀ x, lo < x < hi → ¬ reaches info idx target x hi) →
  ∃ lo', grow_down n info idx lo hi target = Ok (lo', hi) ∧ lo' ≤ lo ∧
    (reaches info idx target lo' hi ∨ lo' = 0) ∧ (∀ x, lo' < x < hi → ¬ reaches info idx target x hi).
Proof.
  revert lo. induction n as [|n IH]; intros lo Hlo Hhi Hn Hmin; cbn [grow_down];
    destruct (block_range_total info idx lo hi ltac:(lia)) as (s & e & Hr); rewrite Hr; run.
  all: destruct (bool_decide_reflect (target ≤ Z.max 0 (e - s))%Z) as [Ht|Ht]; cbn [orb].
  all: try (exists lo; split_and!; [done|lia|by left; exists s, e|done]).
  all: destruct (bool_decide_reflect (lo = 0)) as [He|He].
  all: try (exists lo; split_and!; [done|lia|by right|done]).
  - lia.
  - destruct (IH (lo - 1)) as (lo' & Heq & Hle & Hor & Hall); [lia..| |].
    + intros x Hx. destruct (decide (x = lo)) as [->|]; [|apply Hmin; lia].
      intros (s' & e' & Hr' & Ht'). rewrite Hr in Hr'. injection Hr' as <- <-. lia.
    + exists lo'. split_and!; [done|lia|done|done].
Qed.

Lemma target_range_ok (h : SsTableHandle) (idx : SsTableIndex) (first_block target_bytes : nat) order :
  0 < target_bytes → first_block < length idx →
  ∃ lo hi, block_range_for_target_bytes h idx first_block target_bytes order = Ok (lo, hi) ∧ hi ≤ length idx ∧
    let reach := reaches (handle_info h) idx (Z.min (Z.of_nat target_bytes) u64_max) in
    match order with
    | Ascending => lo = first_block ∧ lo < hi ∧ (reach lo hi ∨ hi = length idx) ∧ ∀ x, lo < x < hi → ¬ reach lo x
    | Descending => hi = first_block + 1 ∧ lo < hi ∧ (reach lo hi ∨ lo = 0) ∧ ∀ x, lo < x < hi → ¬ reach x hi
    end.
Proof.
  intros Hpos Hfirst. unfold block_range_for_target_bytes.
  rewrite !bool_decide_true by done. cbn [rust_assert]. run. set (target := Z.min _ _). destruct order.
  - destruct (grow_up_ok (length idx) (handle_info h) idx first_block (first_block + 1) target)
      as (hi & -> & Hhi & Hor & Hall); [lia..|]. exists first_block, hi. split_and!; try done; lia.
  - destruct (grow_down_ok (length idx) (handle_info h) idx first_block (first_block + 1) target)
      as (lo & -> & Hlo & Hor & Hall); [lia..|]. exists lo, (first_block + 1). split_and!; try done; lia.
Qed.

(** C28: [block_range_for_target_bytes] returns the shortest run of blocks from the given one, upwards or
    downwards, whose bytes reach the target, or all the blocks in that direction. *)
Theorem target_range_smallest (h : SsTableHandle) (idx : SsTableIndex) (first_block target_bytes : nat) order :
  0 < target_bytes → first_block < length idx → (Z.of_nat target_bytes ≤ u64_max)%Z →
  ∃ lo hi, block_range_for_target_bytes h idx first_block target_bytes order = Ok (lo, hi) ∧ hi ≤ length idx ∧
    let reach := reaches (handle_info h) idx (Z.of_nat target_bytes) in
    match order with
    | Ascending => lo = first_block ∧ lo < hi ∧ (reach lo hi ∨ hi = length idx) ∧ ∀ x, lo < x < hi → ¬ reach lo x
    | Descending => hi = first_block + 1 ∧ lo < hi ∧ (reach lo hi ∨ lo = 0) ∧ ∀ x, lo < x < hi → ¬ reach x hi
    end.
Proof.
  intros Hpos Hfirst Hmax. pose proof (target_range_ok h idx first_block target_bytes order Hpos Hfirst) as Hr.
  by rewrite Z.min_l in Hr.
Qed.

(** ** Examples *)

Module StoreExample.
Definition store : TableStore (B:=Bloom.BloomFilterBuilder) (F:=Bloom.BloomFilter) :=
  mkTableStore Example.format MainStore (λ _ _, Example.blob (Example.written.2)).

Lemma example_table : ∃ t, handle_id (td_handle t) = 7%Z ∧ length (td_index t) = 2 ∧ served store t.
Proof.
  destruct Example.written_ok as [E Hlen].
  destruct (write_table_readable Example.format 7 Example.rows _ _ _ Example.format_accepted Example.rows_storable Example.rows_sorted
    Example.rows_small Example.rows_sound E Hlen (Example.blob_ok _)) as (Hid & bss & idx & Hr).
  destruct (readable_served store _ (Example.written.1) _ _ _ (λ _, eq_refl) Hr) as (t & Hh & Hi & _ & _ & Hsv).
  - vm_compute. discriminate.
  - exists t. split; [by rewrite Hh|]. split; [|done]. rewrite Hi. pose proof (tr_index _ _ _ _ _ _ Hr) as Hidx.
    vm_compute in Hidx. injection Hidx as <-. reflexivity.
Qed.
End StoreExample.


Lemma target_range_smallest_witness :
  ∃ lo hi, block_range_for_target_bytes (Example.written.1) [mkMeta 0 [] 10; mkMeta 10 [5%Z] 10; mkMeta 20 [6%Z] 10] 0 15 Ascending
    = Ok (lo, hi) ∧ hi = 2.
Proof.
  destruct (target_range_smallest (Example.written.1) [mkMeta 0 [] 10; mkMeta 10 [5%Z] 10; mkMeta 20 [6%Z] 10] 0 15 Ascending)
    as (lo & hi & E & _); [lia|cbn; lia|done|].
  exists lo, hi. split; [exact E|]. vm_compute in E. injection E as <- <-. reflexivity.
Defined.
