(* ===== verification/SstIter.v ===== *)
(** * Iteration over one SST ([sst_iter.rs])

    The iterator that walks the blocks of an SST within a range, in either direction: it
    loads the index, schedules block fetches ahead of the consumer, seeks in the first
    block, skips rows outside of the view, and can seek forward through fetched blocks or
    by scheduling anew; and the wrapper that first consults the SST's filters.

    The table store is seen through [TableReads], the results of its reads: [TableStore.v]
    shows that they do not depend on the state of the block cache, so a spawned read is the
    same whenever it runs. *)

From S2P Require Export TableStore MergeIter BlockIterV2.

(** ** The store as the iterators see it *)

(** The reads of a table store; [loop_fuel] bounds the turns of the loops over rows. *)
Record TableReads {F : Type} := mkReads {
  reads_index : SsTableHandle → result SsTableIndex;
  reads_blocks : SsTableHandle → SsTableIndex → nat → nat → result (list Block);
  reads_filters : SsTableHandle → result (list (NamedFilter (F:=F)));
  reads_prefix : bool;
  reads_range : bool;
  loop_fuel : nat;
}.
Arguments TableReads : clear implicits.

(** The reads of a store. *)
Definition reads_of `{SstCodecs} {B F} `{FilterTraits B F} (ts : TableStore (B:=B) (F:=F)) (fuel : nat) : TableReads F := {|
  reads_index h := read_obj ts (handle_id h) (read_index (ts_format ts) (handle_info h));
  reads_blocks h idx lo hi := load_blocks ts h idx lo hi;
  reads_filters h :=
    if bool_decide (filter_policies (ts_format ts) = []) || (filter_len (handle_info h) =? 0)%Z then Ok []
    else read_obj ts (handle_id h) (read_filters (ts_format ts) (handle_info h));
  reads_prefix := any_filter_policy_supports_prefix_queries ts;
  reads_range := any_filter_policy_supports_range_queries ts;
  loop_fuel := fuel;
|}.

(** [SstIteratorOptions]; the segment is only a tag of the object store calls. *)
Record SstIteratorOptions := mkSstOptions {
  max_fetch_tasks : nat;
  target_bytes_to_fetch : nat;
  opt_cache_blocks : bool;
  opt_cache_metadata : bool;
  eager_spawn : bool;
  opt_order : IterationOrder;
  opt_prefix : option bytes;
  filter_context : option FilterContext;
}.

(** [SstIteratorOptions::default] *)
Definition sst_options_default : SstIteratorOptions := mkSstOptions 1 1 true true false Ascending None None.

(** [FetchTask]: a read of a range of blocks, run inline or spawned, or its result. *)
Inductive FetchTask :=
| Fetching (inline : bool) (lo hi : nat)
| Finished (blocks : list Block).

(** [SstView]: a table and the range of it to read. *)
Record SstView := mkSstView { sv_table : SsTableView; sv_range : BytesRange.t }.

Definition sv_start (v : SstView) : Bound bytes := start_of (sv_range v).
Definition sv_end (v : SstView) : Bound bytes := end_of (sv_range v).

(** [SstView::point_key] *)
Definition point_key (v : SstView) : option bytes :=
  match sv_start v, sv_end v with
  | Included s, Included e => if decide (s = e) then Some s else None
  | _, _ => None
  end.

(** [SstView::contains], [SstView::key_exceeds], [SstView::key_precedes] *)
Definition sv_contains (v : SstView) (k : bytes) : bool := BytesRange.contains (sv_range v) k.
Definition key_exceeds (v : SstView) (k : bytes) : bool :=
  match sv_end v with Included e => ord_ltb e k | Excluded e => ord_leb e k | Unbounded => false end.
Definition key_precedes (v : SstView) (k : bytes) : bool :=
  match sv_start v with Included s => ord_ltb k s | Excluded s => ord_leb k s | Unbounded => false end.

Section sst_iterator.
  Context {B F : Type} `{FilterTraits B F}.

(** [InternalSstIterator]; [si_initialized] and [si_current] are its [IteratorState]. *)
Record InternalSstIterator := mkSstIter {
  si_view : SstView;
  si_index : option SsTableIndex;
  si_initialized : bool;
  si_current : option DataBlockIterator;
  next_block_idx_to_fetch : nat;
  block_idx_range : nat * nat;
  fetch_tasks : list FetchTask;
  si_store : TableReads F;
  si_options : SstIteratorOptions;
  descending_buffer : option (list RowEntry);
  pending_entry : option RowEntry;
}.

Implicit Types it : InternalSstIterator.

Definition set_metadata it (idx : SsTableIndex) (range : nat * nat) (next : nat) : InternalSstIterator :=
  mkSstIter (si_view it) (Some idx) (si_initialized it) (si_current it) next range (fetch_tasks it)
    (si_store it) (si_options it) (descending_buffer it) (pending_entry it).
Definition set_fetch it (next : nat) (tasks : list FetchTask) : InternalSstIterator :=
  mkSstIter (si_view it) (si_index it) (si_initialized it) (si_current it) next (block_idx_range it) tasks
    (si_store it) (si_options it) (descending_buffer it) (pending_entry it).
(** [IteratorState::advance], [IteratorState::stop] *)
Definition set_current it (cur : option DataBlockIterator) : InternalSstIterator :=
  mkSstIter (si_view it) (si_index it) true cur (next_block_idx_to_fetch it) (block_idx_range it) (fetch_tasks it)
    (si_store it) (si_options it) (descending_buffer it) (pending_entry it).
Definition set_buffer it (buffer : option (list RowEntry)) (pending : option RowEntry) : InternalSstIterator :=
  mkSstIter (si_view it) (si_index it) (si_initialized it) (si_current it) (next_block_idx_to_fetch it)
    (block_idx_range it) (fetch_tasks it) (si_store it) (si_options it) buffer pending.

(** [IteratorState::is_finished] *)
Definition is_finished it : bool := si_initialized it && bool_decide (si_current it = None).

Definition si_order it : IterationOrder := opt_order (si_options it).
Definition si_handle it : SsTableHandle := view_sst (sv_table (si_view it)).

(** [InternalSstIterator::new] *)
Definition internal_new (view : SstView) (store : TableReads F) (options : SstIteratorOptions) : result InternalSstIterator :=
  _ ← rust_assert (bool_decide (0 < max_fetch_tasks options));
  _ ← rust_assert (bool_decide (0 < target_bytes_to_fetch options));
  let buffer := match opt_order options with Descending => Some [] | Ascending => None end in
  mret (mkSstIter view None false None 0 (0, 0) [] store options buffer None).

(** [InternalSstIterator::new_owned], [new_borrowed] *)
Definition internal_new_owned (range : BytesRange.t) (table : SsTableView) (store : TableReads F)
    (options : SstIteratorOptions) : result (option InternalSstIterator) :=
  match calculate_view_range table range with
  | None => mret None
  | Some view_range => it ← internal_new (mkSstView table view_range) store options; mret (Some it)
  end.

(** ** Fetching *)

(** [start_fetch] *)
Definition start_fetch it (blocks : nat * nat) : FetchTask :=
  Fetching (bool_decide (max_fetch_tasks (si_options it) = 1) && bool_decide (blocks.2 - blocks.1 = 1)) blocks.1 blocks.2.

(** [Range::contains] *)
Definition range_has (r : nat * nat) (n : nat) : bool := bool_decide (r.1 ≤ n ∧ n < r.2).

(** The loops of [spawn_fetches]: every turn adds a task. *)
Fixpoint spawn_loop (n : nat) (idx : SsTableIndex) it : result InternalSstIterator :=
  let more := bool_decide (length (fetch_tasks it) < max_fetch_tasks (si_options it)) in
  let next := next_block_idx_to_fetch it in
  match si_order it with
  | Ascending =>
      if more && range_has (block_idx_range it) next then
        match n with
        | O => OutOfFuel
        | S n =>
            '(lo, hi) ← block_range_for_target_bytes (si_handle it) idx next (target_bytes_to_fetch (si_options it)) Ascending;
            let blocks := (lo, Nat.min hi (block_idx_range it).2) in
            spawn_loop n idx (set_fetch it blocks.2 (fetch_tasks it ++ [start_fetch it blocks]))
        end
      else mret it
  | Descending =>
      if more && bool_decide ((block_idx_range it).1 < next) then
        match n with
        | O => OutOfFuel
        | S n =>
            '(lo, hi) ← block_range_for_target_bytes (si_handle it) idx (next - 1) (target_bytes_to_fetch (si_options it)) Descending;
            let blocks := (Nat.max lo (block_idx_range it).1, hi) in
            spawn_loop n idx (set_fetch it blocks.1 (fetch_tasks it ++ [start_fetch it blocks]))
        end
      else mret it
  end.

(** [spawn_fetches] *)
Definition spawn_fetches it : result InternalSstIterator :=
  match si_index it with
  | None => mret it
  | Some idx => spawn_loop (max_fetch_tasks (si_options it)) idx it
  end.

(** The await of a fetch; a panic of the read becomes an error ([block_fetch_panic_error]). *)
Definition await_fetch it (idx : SsTableIndex) (lo hi : nat) : result (list Block) :=
  match reads_blocks (si_store it) (si_handle it) idx lo hi with
  | Panic => Err (BackgroundTaskPanic (handle_id (si_handle it)))
  | r => r
  end.

(** [pop_front] or [pop_back], by the order. *)
Definition pop_block (o : IterationOrder) (blocks : list Block) : option (Block * list Block) :=
  match o with
  | Ascending => match blocks with [] => None | b :: bs => Some (b, bs) end
  | Descending => b ← last blocks; Some (b, removelast blocks)
  end.

(** The loop of [next_iter]: every turn finishes or removes a task, or returns. *)
Fixpoint next_iter_loop (fuel : nat) (idx : SsTableIndex) (spawn : bool) it
    : result (option DataBlockIterator * InternalSstIterator) :=
  match fuel with
  | O => OutOfFuel
  | S fuel =>
      it ← if spawn then spawn_fetches it else mret it;
      match fetch_tasks it with
      | Fetching _ lo hi :: tasks =>
          blocks ← await_fetch it idx lo hi;
          next_iter_loop fuel idx spawn (set_fetch it (next_block_idx_to_fetch it) (Finished blocks :: tasks))
      | Finished blocks :: tasks =>
          match pop_block (si_order it) blocks with
          | Some (block, blocks) =>
              iter ← data_block_iterator_new block (format_version (si_handle it)) (si_order it);
              mret (Some iter, set_fetch it (next_block_idx_to_fetch it) (Finished blocks :: tasks))
          | None => next_iter_loop fuel idx spawn (set_fetch it (next_block_idx_to_fetch it) tasks)
          end
      | [] =>
          _ ← if spawn then
                rust_assert (bool_decide (next_block_idx_to_fetch it =
                  match si_order it with Ascending => (block_idx_range it).2 | Descending => (block_idx_range it).1 end))
              else mret tt;
          mret (None, it)
      end
  end.

(** [next_iter]; a task has two turns and at least one block. *)
Definition next_iter (spawn : bool) it : result (option DataBlockIterator * InternalSstIterator) :=
  match si_index it with
  | None => mret (None, it)
  | Some idx => next_iter_loop (2 * (length idx + length (fetch_tasks it)) + 1) idx spawn it
  end.

(** [ensure_metadata_loaded] *)
Definition ensure_metadata_loaded it : result InternalSstIterator :=
  match si_index it with
  | Some _ => mret it
  | None =>
      idx ← reads_index (si_store it) (si_handle it);
      range ← partitions_covering_range idx (sv_start (si_view it)) (sv_end (si_view it));
      let it := set_metadata it idx range (match si_order it with Ascending => range.1 | Descending => range.2 end) in
      if eager_spawn (si_options it) then spawn_fetches it else mret it
  end.

(** [advance_block] *)
Definition advance_block it : result InternalSstIterator :=
  it ← ensure_metadata_loaded it;
  if is_finished it then mret it
  else
    '(o, it) ← next_iter true it;
    match o with
    | Some iter =>
        iter ← if si_initialized it then mret iter
               else match si_order it with
                    | Ascending => match sv_start (si_view it) with
                                   | Included k | Excluded k => it_seek k iter
                                   | Unbounded => mret iter
                                   end
                    | Descending => match sv_end (si_view it) with
                                    | Included k | Excluded k => it_seek k iter
                                    | Unbounded => mret iter
                                    end
                    end;
        mret (set_current it (Some iter))
    | None => mret (set_current it None)
    end.

(** [stop] *)
Definition si_stop it : InternalSstIterator :=
  let next := match si_index it with
              | Some idx => match si_order it with Ascending => length idx | Descending => 0 end
              | None => next_block_idx_to_fetch it
              end in
  set_current (set_fetch it next (fetch_tasks it)) None.

(** [if let Some(iter) = self.state.current_iter.as_mut() { iter.next() } else { None }] *)
Definition current_next it : result (option RowEntry * InternalSstIterator) :=
  match si_current it with
  | None => mret (None, it)
  | Some iter =>
      '(o, iter) ← it_next iter;
      mret (o, mkSstIter (si_view it) (si_index it) (si_initialized it) (Some iter) (next_block_idx_to_fetch it)
        (block_idx_range it) (fetch_tasks it) (si_store it) (si_options it) (descending_buffer it) (pending_entry it))
  end.

(** The loop of [next] in ascending order. *)
Fixpoint next_ascending_loop (fuel : nat) it : result (option RowEntry * InternalSstIterator) :=
  match fuel with
  | O => OutOfFuel
  | S fuel =>
      if is_finished it then mret (None, it)
      else
        '(o, it) ← current_next it;
        match o with
        | Some kv =>
            if sv_contains (si_view it) (key kv) then mret (Some kv, it)
            else if key_exceeds (si_view it) (key kv) then next_ascending_loop fuel (si_stop it)
            else next_ascending_loop fuel it
        | None => it ← advance_block it; next_ascending_loop fuel it
        end
  end.

(** The loop of [fill_descending_buffer]: the rows of one key. *)
Fixpoint fill_loop (fuel : nat) it (temp_buffer : list RowEntry) (target_key : option bytes)
    : result (list RowEntry * InternalSstIterator) :=
  match fuel with
  | O => OutOfFuel
  | S fuel =>
      '(o, it) ← current_next it;
      match o with
      | Some kv =>
          if negb (sv_contains (si_view it) (key kv)) then
            if key_precedes (si_view it) (key kv) then mret (temp_buffer, si_stop it)
            else fill_loop fuel it temp_buffer target_key
          else
            match target_key with
            | None => fill_loop fuel it (temp_buffer ++ [kv]) (Some (key kv))
            | Some target =>
                if decide (key kv = target) then fill_loop fuel it (temp_buffer ++ [kv]) target_key
                else mret (temp_buffer, set_buffer it (descending_buffer it) (Some kv))
            end
      | None =>
          it ← advance_block it;
          if is_finished it then mret (temp_buffer, it) else fill_loop fuel it temp_buffer target_key
      end
  end.

(** [fill_descending_buffer] *)
Definition fill_descending_buffer it : result InternalSstIterator :=
  let temp_buffer := match pending_entry it with Some e => [e] | None => [] end in
  '(temp_buffer, it) ← fill_loop (loop_fuel (si_store it)) (set_buffer it (descending_buffer it) None)
                         temp_buffer (key <$> pending_entry it);
  buffer ← expect (descending_buffer it);
  mret (set_buffer it (Some (buffer ++ reverse temp_buffer)) (pending_entry it)).

(** [init] *)
Definition internal_init it : result InternalSstIterator := if si_initialized it then mret it else advance_block it.

Definition pop_buffer it : option (RowEntry * InternalSstIterator) :=
  match descending_buffer it with
  | Some (e :: buffer) => Some (e, set_buffer it (Some buffer) (pending_entry it))
  | _ => None
  end.

(** [next] *)
Definition internal_next it : result (option RowEntry * InternalSstIterator) :=
  if negb (si_initialized it) then Err IteratorNotInitialized
  else
    match si_order it with
    | Descending =>
        match pop_buffer it with
        | Some (e, it) => mret (Some e, it)
        | None =>
            it ← fill_descending_buffer it;
            _ ← expect (descending_buffer it);
            mret (match pop_buffer it with Some (e, it) => (Some e, it) | None => (None, it) end)
        end
    | Ascending => next_ascending_loop (loop_fuel (si_store it)) it
    end.

(** [while let Some(block_iter) = self.next_iter(false)]: seek in the blocks already fetched. *)
Fixpoint seek_fetched (fuel : nat) (k : bytes) it : result (bool * InternalSstIterator) :=
  match fuel with
  | O => OutOfFuel
  | S fuel =>
      '(o, it) ← next_iter false it;
      match o with
      | None => mret (false, it)
      | Some iter =>
          iter ← it_seek k iter;
          if data_block_is_empty iter then seek_fetched fuel k it else mret (true, set_current it (Some iter))
      end
  end.

(** The end of [seek]: schedule the blocks from [block_idx] anew. *)
Definition seek_restart (k : bytes) (block_idx : nat) it : result InternalSstIterator :=
  let it := set_fetch it (match si_order it with Ascending => block_idx | Descending => block_idx + 1 end) [] in
  '(o, it) ← next_iter true it;
  match o with
  | Some iter => iter ← it_seek k iter; mret (set_current it (Some iter))
  | None => mret (set_current it None)
  end.

(** The part of [seek] after the current block. *)
Definition seek_blocks (k : bytes) it : result InternalSstIterator :=
  idx ← expect (si_index it);
  block_idx ← match si_order it with
              | Ascending => first_partition_including_or_after_key idx k
              | Descending => o ← last_partition_including_key idx k; mret (default (block_idx_range it).1 o)
              end;
  let already_fetched := match si_order it with
                         | Ascending => bool_decide (block_idx < next_block_idx_to_fetch it)
                         | Descending => bool_decide (next_block_idx_to_fetch it ≤ block_idx)
                         end in
  if already_fetched then
    '(found, it) ← seek_fetched (S (length idx)) k it;
    if found : bool then mret it else seek_restart k block_idx it
  else seek_restart k block_idx it.

(** [seek] *)
Definition internal_seek (k : bytes) it : result InternalSstIterator :=
  if negb (si_initialized it) then Err IteratorNotInitialized
  else
    let out_of_view := negb (sv_contains (si_view it) k) in
    let exceeds := key_exceeds (si_view it) k in
    if out_of_view && exceeds && match si_order it with Ascending => true | Descending => false end then mret (si_stop it)
    else if out_of_view && negb exceeds then
      Err (SeekKeyOutOfKeyRange k (sv_start (si_view it)) (sv_end (si_view it)))
    else if is_finished it then mret it
    else
      match si_current it with
      | None => seek_blocks k it
      | Some iter =>
          iter ← it_seek k iter;
          let it := set_current it (Some iter) in
          if data_block_is_empty iter then seek_blocks k it else mret it
      end.

Global Instance internal_sst_iterator : RowEntryIterator InternalSstIterator := {
  it_init := internal_init;
  it_next := internal_next;
  it_seek := internal_seek;
}.

(** ** Filters *)

(** [FilterState], [FilterEvaluator]; its counters of found keys serve statistics only. *)
Inductive FilterState := NotChecked | NoFilter | Positive | Negative.
Record FilterEvaluator := mkEvaluator { fe_query : FilterQuery; fe_state : FilterState }.

(** [FilterEvaluator::new_point], [new_prefix], [new_range] *)
Definition evaluator_new (q : FilterQuery) (context : option FilterContext) : FilterEvaluator :=
  mkEvaluator (with_context q context) NotChecked.

(** [filters.iter().all(..)] *)
Fixpoint all_match (filters : list (NamedFilter (F:=F))) (q : FilterQuery) : result bool :=
  match filters with
  | [] => mret true
  | nf :: filters => b ← might_match (nf_filter nf) q; if b : bool then all_match filters q else mret false
  end.

(** [FilterEvaluator::evaluate] *)
Definition evaluate (fe : FilterEvaluator) (filters : list (NamedFilter (F:=F))) : result FilterEvaluator :=
  match fe_state fe with
  | NotChecked =>
      match filters with
      | [] => mret (mkEvaluator (fe_query fe) NoFilter)
      | _ => b ← all_match filters (fe_query fe); mret (mkEvaluator (fe_query fe) (if b : bool then Positive else Negative))
      end
  | _ => mret fe
  end.

Definition is_filtered_out (fe : FilterEvaluator) : bool := match fe_state fe with Negative => true | _ => false end.

(** [SstIteratorDelegate]: the iterator alone, or the [FilterIterator] around it. *)
Inductive SstIterator :=
| DirectSst (inner : InternalSstIterator)
| FilterSst (inner : InternalSstIterator) (filter : FilterEvaluator) (initialized : bool).

(** [SstIterator::from_internal] *)
Definition from_internal it : SstIterator :=
  let context := filter_context (si_options it) in
  match point_key (si_view it), opt_prefix (si_options it) with
  | Some k, _ => FilterSst it (evaluator_new (query_point k) context) false
  | None, p =>
      match (if reads_prefix (si_store it) then p else None) with
      | Some p => FilterSst it (evaluator_new (query_prefix p) context) false
      | None =>
          if reads_range (si_store it)
          then FilterSst it (evaluator_new (query_range (sv_start (si_view it)) (sv_end (si_view it))) context) false
          else DirectSst it
      end
  end.

(** [SstIterator::new_with_stats] *)
Definition sst_iterator_new (view : SstView) (store : TableReads F) (options : SstIteratorOptions) : result SstIterator :=
  it ← internal_new view store options; mret (from_internal it).

(** [SstIterator::new_owned_with_stats], [new_borrowed_with_stats] *)
Definition sst_iterator_new_owned (range : BytesRange.t) (table : SsTableView) (store : TableReads F)
    (options : SstIteratorOptions) : result (option SstIterator) :=
  o ← internal_new_owned range table store options;
  mret (match o with Some it => Some (from_internal it) | None => None end).

(** [FilterIterator::init], or the inner one's *)
Definition sst_init (s : SstIterator) : result SstIterator :=
  match s with
  | DirectSst it => it ← it_init it; mret (DirectSst it)
  | FilterSst it fe true => mret s
  | FilterSst it fe false =>
      filters ← reads_filters (si_store it) (si_handle it);
      fe ← evaluate fe filters;
      if is_filtered_out fe then mret (FilterSst it fe false)
      else it ← it_init it; mret (FilterSst it fe true)
  end.

Definition sst_next (s : SstIterator) : result (option RowEntry * SstIterator) :=
  match s with
  | DirectSst it => '(o, it) ← it_next it; mret (o, DirectSst it)
  | FilterSst it fe i =>
      if is_filtered_out fe then mret (None, s) else '(o, it) ← it_next it; mret (o, FilterSst it fe i)
  end.

Definition sst_seek (k : bytes) (s : SstIterator) : result SstIterator :=
  match s with
  | DirectSst it => it ← it_seek k it; mret (DirectSst it)
  | FilterSst it fe i => if is_filtered_out fe then mret s else it ← it_seek k it; mret (FilterSst it fe i)
  end.

Global Instance sst_iterator : RowEntryIterator SstIterator := {
  it_init := sst_init;
  it_next := sst_next;
  it_seek := sst_seek;
}.

(** [SstIterator::new_owned_initialized_with_stats], [new_borrowed_initialized] *)
Definition sst_iterator_new_owned_initialized (range : BytesRange.t) (table : SsTableView) (store : TableReads F)
    (options : SstIteratorOptions) : result (option SstIterator) :=
  o ← sst_iterator_new_owned range table store options;
  match o with
  | None => mret None
  | Some s =>
      s ← sst_init s;
      mret match s with
           | FilterSst _ fe _ => if is_filtered_out fe then None else Some s
           | DirectSst _ => Some s
           end
  end.

(** [SstIterator::for_key_with_stats] *)
Definition sst_iterator_for_key (table : SsTableView) (k : bytes) (store : TableReads F) (options : SstIteratorOptions)
    : result (option SstIterator) :=
  range ← BytesRange.new (Included k) (Included k);
  sst_iterator_new_owned range table store options.
End sst_iterator.
Arguments InternalSstIterator : clear implicits.
Arguments SstIterator : clear implicits.

(** ** Positions in a block *)

(** The rows a reader finds in a block of a table of the given version. *)
Definition block_rows (version : Z) (blk : Block) (rs : list RowEntry) : Prop :=
  (version = SST_FORMAT_VERSION ∧ ∃ es, v1_block blk es ∧ rs = stored_v0 <$> es) ∨
  (version = SST_FORMAT_VERSION_V2 ∧ ∃ R, v2_block blk R rs).

(** [it] has returned [n] of the rows [rs] in the order [o]. *)
Definition block_at (o : IterationOrder) (rs : list RowEntry) (it : DataBlockIterator) (n : nat) : Prop :=
  n ≤ length rs ∧
  match it with
  | V1It i => ∃ blk es, v1_block blk es ∧ rs = stored_v0 <$> es ∧ i = v1_at blk es o n
  | V2It (AscIt st) => o = Ascending ∧ ∃ blk R, v2_block blk R rs ∧ asc_at blk R rs st n
  | V2It (DescIt d) => o = Descending ∧ ∃ blk R, v2_block blk R rs ∧ desc_at blk R rs d (length rs - n)
  end.

Lemma in_order_fmap {A A'} o (g : A → A') (l : list A) : in_order o (g <$> l) = g <$> in_order o l.
Proof. destruct o; [done|]. cbn. by rewrite fmap_reverse. Qed.

Lemma in_order_length {A} o (l : list A) : length (in_order o l) = length l.
Proof. destruct o; [done|]. apply length_reverse. Qed.

Lemma block_new o version blk rs :
  block_rows version blk rs → ∃ it, data_block_iterator_new blk version o = Ok it ∧ block_at o rs it 0.
Proof.
  unfold data_block_iterator_new. intros [(-> & es & Hb & ->)|(-> & R & Hb)]; cbn [Z.eqb SST_FORMAT_VERSION SST_FORMAT_VERSION_V2 Pos.eqb].
  - rewrite (v1_new blk es Hb o). run. eexists. split; [done|]. split; [lia|]. by exists blk, es.
  - destruct o; cbn [v2_new].
    + destruct (asc_new_ok blk R rs Hb) as (st & -> & Hat). run. eexists. split; [done|]. split; [lia|]. split; [done|]. by exists blk, R.
    + destruct (desc_new_ok blk R rs Hb) as (d & -> & Hat). run. eexists. split; [done|]. split; [lia|]. split; [done|].
      exists blk, R. by rewrite Nat.sub_0_r.
Qed.

Lemma block_next o rs it n :
  block_at o rs it n →
  match in_order o rs !! n with
  | Some e => ∃ it', it_next it = Ok (Some e, it') ∧ block_at o rs it' (S n)
  | None => ∃ it', it_next it = Ok (None, it')
  end.
Proof.
  intros [Hn Hat]. destruct it as [i|[st|d]]; unfold it_next; cbn [data_block_iterator data_block_next].
  - destruct Hat as (blk & es & Hb & -> & ->). rewrite in_order_fmap, list_lookup_fmap.
    unfold it_next. cbn. destruct (in_order o es !! n) as [e|] eqn:He; cbn [fmap option_fmap option_map].
    + rewrite (v1_next blk es Hb o n e (drop (S n) (in_order o es))) by by apply drop_S. run. eexists. split; [done|]. split.
      * rewrite length_fmap. apply lookup_lt_Some in He. by rewrite in_order_length in He.
      * by exists blk, es.
    + rewrite (v1_next_end blk es Hb o n) by (apply lookup_ge_None in He; by apply drop_ge). run. by eexists.
  - destruct Hat as (-> & blk & R & Hb & Hat). cbn [in_order]. pose proof (asc_next_ok blk R rs Hb st n Hat) as Hx. unfold it_next. cbn.
    destruct (rs !! n) as [e|] eqn:He.
    + destruct Hx as (st' & -> & Hat'). run. eexists. split; [done|]. split; [by eapply lookup_lt_Some|]. split; [done|]. by exists blk, R.
    + rewrite Hx. run. by eexists.
  - destruct Hat as (-> & blk & R & Hb & Hat). cbn [in_order]. unfold it_next. cbn.
    destruct (desc_next_ok blk R rs Hb d _ Hat) as (o & d' & -> & Hd). run.
    destruct (length rs - n) as [|m] eqn:Hm.
    + subst o. rewrite (proj2 (lookup_ge_None (reverse rs) n)) by (rewrite length_reverse; lia). by eexists.
    + destruct Hd as (-> & _ & Hat'). rewrite reverse_lookup by lia. replace (length rs - S n) with m by lia.
      destruct (lookup_lt_is_Some_2 rs m) as [e He]; [lia|]. rewrite He. eexists. split; [done|]. split; [lia|]. split; [done|].
      exists blk, R. split; [done|]. by replace (length rs - S n) with m by lia.
Qed.

Lemma block_seek o rs it n k :
  block_at o rs it n → keys_sorted (key <$> rs) →
  ∃ it' m, it_seek k it = Ok it' ∧ block_at o rs it' m ∧ drop m (in_order o rs) = from_key o k rs.
Proof.
  intros [Hn Hat] Hs. destruct it as [i|[st|d]]; unfold it_seek; cbn [data_block_iterator data_block_seek].
  - destruct Hat as (blk & es & Hb & -> & ->). rewrite keys_stored_v0 in Hs. rewrite length_fmap in *.
    destruct (v1_seek blk es Hb o n k Hs) as (m & Hsk & Hle & Hm). unfold it_seek. cbn. rewrite Hsk. run.
    eexists _, m. split; [done|]. split; [split; [by rewrite length_fmap|by exists blk, es]|].
    by rewrite in_order_fmap, from_key_stored, <- fmap_drop, Hm.
  - destruct Hat as (-> & blk & R & Hb & Hat). cbn [in_order]. unfold it_seek. cbn.
    destruct (asc_seek_ok blk R rs Hb Hs st k) as (st' & m & -> & Hat' & Hm); [apply Hat|]. run.
    eexists _, m. split; [done|]. split; [|done]. split; [apply Hat'|]. split; [done|]. by exists blk, R.
  - destruct Hat as (-> & blk & R & Hb & Hat). cbn [in_order]. unfold it_seek. cbn.
    destruct (desc_seek_ok blk R rs Hb Hs d k) as (d' & m & -> & Hle & Hat' & Hm); [apply Hat|]. run.
    eexists _, (length rs - m). split; [done|]. split.
    + split; [lia|]. split; [done|]. exists blk, R. split; [done|]. by replace (length rs - (length rs - m)) with m by lia.
    + etrans; [|exact Hm]. rewrite <- (take_drop m rs) at 2. rewrite reverse_app, drop_app_length'; [done|].
      by rewrite length_reverse, length_drop.
Qed.

Lemma block_empty rs it n : block_at Ascending rs it n → data_block_is_empty it = bool_decide (n = length rs).
Proof.
  intros [Hn Hat]. destruct it as [i|[st|d]]; cbn.
  - destruct Hat as (blk & es & Hb & -> & ->). unfold BlockIterator.is_empty. cbn. rewrite (v1_num blk es Hb), length_fmap in *.
    apply bool_decide_ext. lia.
  - destruct Hat as (_ & blk & R & Hb & Hat). by apply (asc_at_empty blk R rs).
  - by destruct Hat as [? _].
Qed.

(** The rows of a descending scan: [l] in descending order, [acc] the rows of its last key so far;
    the rows of one key are turned around again. *)
Fixpoint regroup (acc l : list RowEntry) : list RowEntry :=
  match l with
  | [] => acc
  | e :: l =>
      match acc with
      | [] => regroup [e] l
      | a :: _ => if decide (key e = key a) then regroup (e :: acc) l else acc ++ regroup [e] l
      end
  end.

(** ** Fetching blocks *)

(** What the reads of a table give: its index, its blocks and the rows in them. *)
Record table_rows {F} (store : TableReads F) (h : SsTableHandle) (idx : SsTableIndex) (blks : list Block)
    (rss : list (list RowEntry)) : Prop := {
  tw_index : reads_index store h = Ok idx;
  tw_len : length idx = length blks;
  tw_blocks lo hi : lo ≤ hi → hi ≤ length idx → reads_blocks store h idx lo hi = Ok (take (hi - lo) (drop lo blks));
  tw_rows : Forall2 (block_rows (format_version h)) blks rss;
  tw_separated : separated (meta_first_key <$> idx) rss;
  tw_nonempty : Forall (λ rs, rs ≠ []) rss;
  tw_sorted : keys_sorted (key <$> concat rss);
  tw_fuel : length (concat rss) + length rss + 2 ≤ loop_fuel store;
}.

Lemma index_keyspace_of {F} (store : TableReads F) h idx blks rss :
  table_rows store h idx blks rss → KeySpaceOf idx (meta_first_key <$> idx).
Proof.
  intros Htw.
  split.
  - cbn. by rewrite length_fmap.
  - intros i. unfold partition_first_key, index_keyspace, index. rewrite list_lookup_fmap. by destruct (idx !! i).
  - intros i j a b Hij Ha Hb. destruct (decide (i = j)) as [->|Hne]; [assert (a = b) as -> by congruence; ord|].
    destruct (tw_separated _ _ _ _ _ Htw) as [Hlen Hsep].
    destruct (lookup_lt_is_Some_2 rss i) as [bl Hbl]; [rewrite <- Hlen; by eapply lookup_lt_Some|].
    destruct (Hsep i a Ha) as [Hself _]. specialize (Hself bl Hbl).
    destruct (Hsep j b Hb) as [_ Hbefore]. specialize (Hbefore i bl ltac:(lia) Hbl).
    pose proof (tw_nonempty _ _ _ _ _ Htw) as Hnon. rewrite Forall_forall in Hnon.
    specialize (Hnon bl ltac:(by eapply list_elem_of_lookup_2)). destruct bl as [|x bl]; [done|].
    apply Forall_cons in Hself as [? _]. apply Forall_cons in Hbefore as [? _]. ord.
Qed.

Module SstScan.
Section fetching.
  Context {F : Type} (store : TableReads F) (view : SstView) (idx : SsTableIndex) (blks : list Block) (rss : list (list RowEntry)).
  Local Notation h := (view_sst (sv_table view)).
  Context (Htw : table_rows store h idx blks rss).
  Context (opts : SstIteratorOptions) (Hmax : 0 < max_fetch_tasks opts) (Htarget : 0 < target_bytes_to_fetch opts).
  Context (lo hi : nat) (Hlohi : lo ≤ hi) (Hhi : hi ≤ length idx).
  Local Notation o := (opt_order opts).
  Implicit Types it : InternalSstIterator F.

(** The blocks between two positions, in the order of iteration. *)
Definition span (p q : nat) : nat * nat := match o with Ascending => (p, q) | Descending => (q, p) end.
Definition slice_of (r : nat * nat) : list Block := take (r.2 - r.1) (drop r.1 blks).
(** The last position, the next position, and the block between them. *)
Definition fin : nat := match o with Ascending => hi | Descending => lo end.
Definition step (p : nat) : nat := match o with Ascending => S p | Descending => p - 1 end.
Definition block_no (p : nat) : nat := match o with Ascending => p | Descending => p - 1 end.

(** The tasks hold the blocks between [p] and [next]. *)
Fixpoint covers (p : nat) (tasks : list FetchTask) (next : nat) : Prop :=
  match tasks with
  | [] => p = next
  | Fetching _ a b :: tasks => ∃ q, (a, b) = span p q ∧ a < b ∧ covers q tasks next
  | Finished bl :: tasks => ∃ q, (span p q).1 ≤ (span p q).2 ∧ bl = slice_of (span p q) ∧ covers q tasks next
  end.

Record fetching it (p : nat) : Prop := {
  ft_view : si_view it = view;
  ft_index : si_index it = Some idx;
  ft_range : block_idx_range it = (lo, hi);
  ft_store : si_store it = store;
  ft_options : si_options it = opts;
  ft_covers : covers p (fetch_tasks it) (next_block_idx_to_fetch it);
  ft_pos : lo ≤ p ≤ hi;
  ft_next : lo ≤ next_block_idx_to_fetch it ≤ hi;
}.

(** The state that fetching leaves alone. *)
Definition keeps it it' : Prop :=
  si_initialized it' = si_initialized it ∧ si_current it' = si_current it ∧
  descending_buffer it' = descending_buffer it ∧ pending_entry it' = pending_entry it.

Lemma keeps_trans it1 it2 it3 : keeps it1 it2 → keeps it2 it3 → keeps it1 it3.
Proof. unfold keeps. intuition congruence. Qed.

Definition task_work (t : FetchTask) : nat := match t with Fetching _ _ _ => 2 | Finished _ => 1 end.
Definition work it : nat :=
  sum_list (task_work <$> fetch_tasks it) +
  2 * match o with Ascending => hi - next_block_idx_to_fetch it | Descending => next_block_idx_to_fetch it - lo end.

Lemma covers_snoc p tasks next b q :
  covers p tasks next → (span next q).1 < (span next q).2 →
  covers p (tasks ++ [Fetching b (span next q).1 (span next q).2]) q.
Proof.
  intros Hc Hlt. revert p Hc. induction tasks as [|[i a b'|bl] tasks IH]; intros p Hc; cbn [app covers] in *.
  - subst p. exists q. split; [by destruct (span next q)|]. done.
  - destruct Hc as (q' & Hq & Hab & Hc). exists q'. auto.
  - destruct Hc as (q' & Hq & Hbl & Hc). exists q'. auto.
Qed.

Lemma covers_order p tasks next : covers p tasks next → (span p next).1 ≤ (span p next).2.
Proof.
  unfold span. revert p. induction tasks as [|[i a b|bl] tasks IH]; intros p Hc; cbn [covers] in Hc.
  - subst p. by destruct o.
  - destruct Hc as (q & Hq & Hab & Hc). apply IH in Hc. unfold span in Hq. destruct o; cbn in *; simplify_eq; lia.
  - destruct Hc as (q & Hq & Hbl & Hc). apply IH in Hc. unfold span in Hq. destruct o; cbn in *; lia.
Qed.

(** The range the next task gets. *)
Lemma target_range_in next :
  lo ≤ next ≤ hi → next ≠ fin →
  ∃ a b q, block_range_for_target_bytes h idx (block_no next) (target_bytes_to_fetch opts) o = Ok (a, b) ∧
    span next q = match o with Ascending => (a, Nat.min b hi) | Descending => (Nat.max a lo, b) end ∧
    lo ≤ q ≤ hi ∧ (span next q).1 < (span next q).2.
Proof.
  intros Hn Hfin. unfold fin, block_no, span in *.
  destruct (target_range_ok h idx (match o with Ascending => next | Descending => next - 1 end) (target_bytes_to_fetch opts) o)
    as (a & b & Hr & Hb & Hab); [done|destruct o; lia|].
  rewrite Hr. exists a, b, (match o with Ascending => Nat.min b hi | Descending => Nat.max a lo end).
  split; [done|]. destruct o; destruct Hab as (Ha & Hlt & _); cbn; (split; [f_equal; lia|lia]).
Qed.

Lemma spawn_loop_stop n it p :
  fetching it p → ¬ (length (fetch_tasks it) < max_fetch_tasks opts ∧ next_block_idx_to_fetch it ≠ fin) →
  spawn_loop n idx it = Ok it.
Proof.
  intros Hf Hno. pose proof (ft_next _ _ Hf) as Hn. unfold fin in Hno.
  assert (∀ A (x y : A), (if bool_decide (length (fetch_tasks it) < max_fetch_tasks opts) &&
    match o with Ascending => range_has (lo, hi) (next_block_idx_to_fetch it) | Descending => bool_decide (lo < next_block_idx_to_fetch it) end
    then x else y) = y) as Hif.
  { intros A x y. unfold range_has. cbn [fst snd]. destruct o; repeat case_bool_decide; cbn; try done; lia. }
  destruct n; cbn [spawn_loop]; unfold si_order; rewrite (ft_options _ _ Hf), (ft_range _ _ Hf); cbn [fst snd];
    destruct o; by rewrite Hif.
Qed.

Lemma spawn_loop_step n it p :
  fetching it p → length (fetch_tasks it) < max_fetch_tasks opts → next_block_idx_to_fetch it ≠ fin →
  ∃ i q, lo ≤ q ≤ hi ∧ (span (next_block_idx_to_fetch it) q).1 < (span (next_block_idx_to_fetch it) q).2 ∧
    spawn_loop (S n) idx it = spawn_loop n idx (set_fetch it q (fetch_tasks it ++
      [Fetching i (span (next_block_idx_to_fetch it) q).1 (span (next_block_idx_to_fetch it) q).2])).
Proof.
  intros Hf Hlen Hfin. pose proof (ft_next _ _ Hf) as Hn.
  destruct (target_range_in _ Hn Hfin) as (a & b & q & Hr & Hq & Hin & Hlt).
  cbn [spawn_loop]; unfold si_order, si_handle, start_fetch; rewrite (ft_options _ _ Hf), (ft_range _ _ Hf), (ft_view _ _ Hf); cbn [fst snd].
  unfold block_no, fin, span, range_has in *. rewrite bool_decide_true by done. destruct o; cbn [fst snd andb] in *.
  - rewrite bool_decide_true by lia. rewrite Hr. injection Hq as Ha Hb. run. eexists _, q. split; [done|]. split; [done|]. cbn [fst snd]. rewrite Ha, Hb. reflexivity.
  - rewrite bool_decide_true by lia. rewrite Hr. injection Hq as Ha Hb. run. eexists _, q. split; [done|]. split; [done|]. cbn [fst snd]. rewrite Ha, Hb. reflexivity.
Qed.

Lemma spawn_loop_ok n it p :
  fetching it p → max_fetch_tasks opts - length (fetch_tasks it) ≤ n →
  ∃ it', spawn_loop n idx it = Ok it' ∧ fetching it' p ∧ keeps it it' ∧ work it' ≤ work it ∧
    (fetch_tasks it' = [] → next_block_idx_to_fetch it' = fin).
Proof.
  revert it. induction n as [|n IH]; intros it Hf Hn.
  all: destruct (decide (length (fetch_tasks it) < max_fetch_tasks opts ∧ next_block_idx_to_fetch it ≠ fin)) as [[Hlen Hfin]|Hno].
  2, 4: exists it; split; [by eapply spawn_loop_stop|]; split; [done|]; split; [done|]; split; [done|];
    intros Hnil; rewrite Hnil in Hno; cbn in Hno; lia.
  - lia.
  - destruct (spawn_loop_step n it p Hf Hlen Hfin) as (i & q & Hq & Hlt & ->).
    set (it1 := set_fetch _ _ _). pose proof (ft_next _ _ Hf) as Hnx.
    assert (fetching it1 p) as Hf1.
    { destruct Hf. split; try done. cbn. by apply covers_snoc. }
    destruct (IH it1 Hf1) as (it' & -> & Hf' & Hk & Hw & He).
    { cbn. rewrite length_app. cbn. lia. }
    exists it'. split; [done|]. split; [done|]. split; [done|]. split; [|done]. etrans; [exact Hw|].
    unfold work, it1, span in *. cbn. rewrite fmap_app, sum_list_with_app. cbn.
    destruct o; cbn in *; lia.
Qed.

(** Reading a slice, and taking the next block of it. *)
Lemma pop_slice p q :
  (span p q).1 ≤ (span p q).2 → (span p q).2 ≤ length blks →
  match pop_block o (slice_of (span p q)) with
  | None => p = q
  | Some (b, bl) => blks !! block_no p = Some b ∧ (span (step p) q).1 ≤ (span (step p) q).2 ∧ bl = slice_of (span (step p) q) ∧ p ≠ q
  end.
Proof.
  unfold slice_of, span, step, block_no. destruct o; cbn; intros Hle Hlen.
  - destruct (decide (p = q)) as [->|Hne]; [by rewrite Nat.sub_diag|].
    destruct (lookup_lt_is_Some_2 blks p) as [b Hb]; [lia|]. rewrite (drop_S _ _ _ Hb).
    replace (q - p) with (S (q - S p)) by lia. cbn. split_and!; [done|lia|done|done].
  - destruct (decide (p = q)) as [->|Hne]; [by rewrite Nat.sub_diag|].
    destruct (lookup_lt_is_Some_2 blks (p - 1)) as [b Hb]; [lia|].
    assert (take (p - q) (drop q blks) = take (p - 1 - q) (drop q blks) ++ [b]) as ->.
    { replace (p - q) with (S (p - 1 - q)) by lia. apply take_S_r. rewrite lookup_drop, <- Hb. f_equal. lia. }
    rewrite last_snoc, removelast_last. cbn. split_and!; [done|lia|done|lia].
Qed.

Lemma work_set_fetch it tasks :
  work (set_fetch it (next_block_idx_to_fetch it) tasks) + sum_list (task_work <$> fetch_tasks it) =
  work it + sum_list (task_work <$> tasks).
Proof. unfold work. cbn. lia. Qed.

Lemma next_iter_loop_ok fuel spawn it p :
  fetching it p → work it < fuel →
  ∃ r it', next_iter_loop fuel idx spawn it = Ok (r, it') ∧ keeps it it' ∧
    (spawn = false → next_block_idx_to_fetch it' = next_block_idx_to_fetch it) ∧
    match r with
    | Some bit => ∃ rs, rss !! block_no p = Some rs ∧ block_at o rs bit 0 ∧ fetching it' (step p) ∧ p ≠ next_block_idx_to_fetch it'
    | None => fetching it' p ∧ p = next_block_idx_to_fetch it' ∧ (spawn = true → p = fin)
    end.
Proof.
  revert it. induction fuel as [|fuel IH]; intros it Hf Hw; [lia|]. cbn [next_iter_loop].
  assert (∃ it1, (if spawn then spawn_fetches it else mret it) = Ok it1 ∧ fetching it1 p ∧ keeps it it1 ∧ work it1 ≤ work it ∧
    (spawn = false → it1 = it) ∧ (spawn = true → fetch_tasks it1 = [] → next_block_idx_to_fetch it1 = fin))
    as (it1 & -> & Hf1 & Hk1 & Hw1 & Hsame & Hdone).
  { destruct spawn; [|by exists it]. unfold spawn_fetches. rewrite (ft_index _ _ Hf), (ft_options _ _ Hf).
    destruct (spawn_loop_ok (max_fetch_tasks opts) it p Hf) as (it1 & ? & ? & ? & ? & ?); [lia|]. by exists it1. }
  run. pose proof (ft_covers _ _ Hf1) as Hc. pose proof (ft_pos _ _ Hf1) as Hp. pose proof (tw_len _ _ _ _ _ Htw) as Hlen.
  destruct (fetch_tasks it1) as [|[i a b|bl] tasks] eqn:Htasks; cbn [covers] in Hc.
  - unfold si_order. rewrite (ft_options _ _ Hf1), (ft_range _ _ Hf1). cbn [fst snd]. subst p.
    exists None, it1. split.
    { destruct spawn; [|by run]. specialize (Hdone eq_refl eq_refl). unfold fin in Hdone. rewrite bool_decide_true by done. by run. }
    split; [done|]. split; [intros ->; by rewrite Hsame|]. split; [done|]. split; [done|]. auto.
  - destruct Hc as (q & Hq & Hab & Hc). pose proof (covers_order _ _ _ Hc) as Hcq. pose proof (ft_next _ _ Hf1) as Hnx.
    assert (b ≤ length idx) as Hb by (unfold span in *; destruct o; cbn in *; simplify_eq; lia).
    unfold await_fetch, si_handle. rewrite (ft_store _ _ Hf1), (ft_view _ _ Hf1), (tw_blocks _ _ _ _ _ Htw) by lia. run.
    set (it2 := set_fetch _ _ _).
    assert (fetching it2 p) as Hf2.
    { destruct Hf1. split; try done. cbn. exists q. rewrite <- Hq. cbn. split; [lia|]. done. }
    destruct (IH it2 Hf2) as (r & it' & Hn & Hk & Hsp & Hr).
    { pose proof (work_set_fetch it1 (Finished (take (b - a) (drop a blks)) :: tasks)) as Hx. fold it2 in Hx.
      rewrite Htasks in Hx. cbn [fmap list_fmap sum_list_with id task_work] in Hx. lia. }
    exists r, it'. split; [done|]. split; [eapply keeps_trans; [exact Hk1|exact Hk]|]. split; [|done].
    intros Hs. rewrite (Hsp Hs). cbn. by rewrite (Hsame Hs).
  - destruct Hc as (q & Hle & Hbl & Hc). pose proof (covers_order _ _ _ Hc) as Hcq. pose proof (ft_next _ _ Hf1) as Hnx.
    pose proof (pop_slice p q Hle) as Hpop. rewrite <- Hbl in Hpop.
    unfold si_order, si_handle. rewrite (ft_options _ _ Hf1), (ft_view _ _ Hf1).
    destruct (pop_block o bl) as [[b bl']|] eqn:Hpb.
    + destruct Hpop as (Hb & Hle' & Hbl' & Hne); [unfold span in *; destruct o; cbn in *; lia|].
      destruct (Forall2_lookup_l _ _ _ _ _ (tw_rows _ _ _ _ _ Htw) Hb) as (rs & Hrs & Hrows).
      destruct (block_new o _ _ _ Hrows) as (bit & -> & Hat). run. eexists _, _. split; [done|].
      split; [exact Hk1|]. split; [intros Hs; cbn; by rewrite (Hsame Hs)|]. exists rs. split; [done|]. split; [done|].
      split.
      * destruct Hf1. split; try done; cbn.
        -- exists q. done.
        -- unfold step, span in *. destruct o; cbn in *; lia.
      * cbn. unfold span in *. destruct o; cbn in *; lia.
    + assert (p = q) as <- by (apply Hpop; unfold span in *; destruct o; cbn in *; lia).
      set (it2 := set_fetch _ _ _). assert (fetching it2 p) as Hf2 by (destruct Hf1; by split).
      destruct (IH it2 Hf2) as (r & it' & Hn & Hk & Hsp & Hr).
      { pose proof (work_set_fetch it1 tasks) as Hx. fold it2 in Hx. rewrite Htasks in Hx. cbn [fmap list_fmap sum_list_with id task_work] in Hx. lia. }
      exists r, it'. split; [done|]. split; [eapply keeps_trans; [exact Hk1|exact Hk]|]. split; [|done].
      intros Hs. rewrite (Hsp Hs). cbn. by rewrite (Hsame Hs).
Qed.

Lemma work_bound it p : fetching it p → work it < 2 * (length idx + length (fetch_tasks it)) + 1.
Proof.
  intros Hf. pose proof (ft_next _ _ Hf) as Hn. unfold work.
  assert (sum_list (task_work <$> fetch_tasks it) ≤ 2 * length (fetch_tasks it)).
  { induction (fetch_tasks it) as [|[] l IH]; cbn; lia. }
  destruct o; lia.
Qed.

(** [next_iter] gives the block at [p]; at the end, or when it may not schedule and nothing is fetched,
    none. *)
Lemma next_iter_ok spawn it p :
  fetching it p →
  ∃ r it', next_iter spawn it = Ok (r, it') ∧ keeps it it' ∧
    (spawn = false → next_block_idx_to_fetch it' = next_block_idx_to_fetch it) ∧
    match r with
    | Some bit => ∃ rs, rss !! block_no p = Some rs ∧ block_at o rs bit 0 ∧ fetching it' (step p) ∧ p ≠ next_block_idx_to_fetch it'
    | None => fetching it' p ∧ p = next_block_idx_to_fetch it' ∧ (spawn = true → p = fin)
    end.
Proof.
  intros Hf. unfold next_iter. rewrite (ft_index _ _ Hf). apply next_iter_loop_ok; [done|]. by eapply work_bound.
Qed.

(** ** Rows *)

  Local Notation ks := (meta_first_key <$> idx).
  Context (Hcover : ∀ i k, sv_contains view k = true → may_include ks i k → lo ≤ i < hi).
  Context (Hlead : ∀ k, sv_contains view k = true → lo ≤ leading (λ a, ord_ltb a k) ks - 1 ≤ hi).

Definition rows : list RowEntry := concat rss.
(** The rows of the blocks read and not yet read at a position, in the order of iteration. *)
Definition read_rows (p : nat) : list RowEntry :=
  match o with Ascending => concat (take p rss) | Descending => reverse (concat (drop p rss)) end.
Definition unread_rows (p : nat) : list RowEntry :=
  match o with Ascending => concat (drop p rss) | Descending => reverse (concat (take p rss)) end.

Lemma read_unread p : read_rows p ++ unread_rows p = in_order o rows.
Proof.
  unfold read_rows, unread_rows, rows. destruct o; cbn.
  - by rewrite <- concat_app, take_drop.
  - by rewrite <- reverse_app, <- concat_app, take_drop.
Qed.

Lemma unread_step p rs :
  rss !! block_no p = Some rs → block_no p ≠ p ∨ o = Ascending →
  unread_rows p = in_order o rs ++ unread_rows (step p) ∧ read_rows (step p) = read_rows p ++ in_order o rs.
Proof.
  unfold block_no, unread_rows, read_rows, step. destruct o; cbn [in_order]; intros Hrs Hp.
  - by rewrite (drop_S _ _ _ Hrs), (take_S_r _ _ _ Hrs), concat_app; cbn; rewrite app_nil_r.
  - destruct Hp as [Hp|]; [|done].
    assert (take p rss = take (p - 1) rss ++ [rs]) as ->.
    { replace p with (S (p - 1)) at 1 by lia. by apply take_S_r. }
    assert (drop (p - 1) rss = rs :: drop p rss) as ->.
    { rewrite (drop_S _ _ _ Hrs). do 2 f_equal. lia. }
    rewrite concat_app, reverse_app, !concat_cons, concat_nil, app_nil_r. split; [done|]. by rewrite reverse_app.
Qed.

(** The sides of the view. *)
Definition inview (e : RowEntry) : Prop := sv_contains view (key e) = true.
Definition near (k : bytes) : bool := match o with Ascending => key_precedes view k | Descending => key_exceeds view k end.
Definition far (k : bytes) : bool := match o with Ascending => key_exceeds view k | Descending => key_precedes view k end.

Lemma contains_sides k : sv_contains view k = negb (key_precedes view k) && negb (key_exceeds view k).
Proof.
  unfold sv_contains, key_precedes, key_exceeds, BytesRange.contains, range_contains, start_admits, end_admits, sv_start, sv_end, start_of, end_of.
  destruct (start_inner _) as [a|a|], (end_inner _) as [b|b|]; cbn; f_equal;
    repeat match goal with |- context [ord_leb ?x ?y] => destruct (ord_leb x y) eqn:?
                         | |- context [ord_ltb ?x ?y] => destruct (ord_ltb x y) eqn:? end; try done; ord.
Qed.

Lemma precedes_mono k k' : k ≼ k' → key_precedes view k' = true → key_precedes view k = true.
Proof. unfold key_precedes. destruct (sv_start view); intros; ord. Qed.
Lemma exceeds_mono k k' : k ≼ k' → key_exceeds view k = true → key_exceeds view k' = true.
Proof. unfold key_exceeds. destruct (sv_end view); intros; ord. Qed.

(** In the order of iteration, rows on the far side are followed by rows on the far side only, and
    rows on the near side come only after rows on the near side. *)
Definition dir_le (k k' : bytes) : Prop := match o with Ascending => k ≼ k' | Descending => k' ≼ k end.

Lemma far_mono k k' : dir_le k k' → far k = true → far k' = true.
Proof. unfold dir_le, far. destruct o; [apply exceeds_mono|apply precedes_mono]. Qed.
Lemma near_mono k k' : dir_le k k' → near k' = true → near k = true.
Proof. unfold dir_le, near. destruct o; [apply precedes_mono|apply exceeds_mono]. Qed.

Lemma view_cases k : sv_contains view k = true ∨ near k = true ∨ far k = true.
Proof.
  rewrite contains_sides. unfold near, far. destruct (key_precedes view k), (key_exceeds view k), o; auto.
Qed.
Lemma inview_sides k : sv_contains view k = true → near k = false ∧ far k = false.
Proof. rewrite contains_sides. unfold near, far. by destruct (key_precedes view k), (key_exceeds view k), o. Qed.

Lemma rows_dir before e rest : in_order o rows = before ++ e :: rest → Forall (λ e', dir_le (key e) (key e')) rest.
Proof.
  pose proof (tw_sorted _ _ _ _ _ Htw) as Hs. fold rows in Hs. unfold dir_le. intros Heq. destruct o; cbn in Heq.
  - rewrite Heq, fmap_app in Hs. apply StronglySorted_app in Hs as (_ & _ & Hs). cbn in Hs. inversion Hs as [|? ? _ Hall]; subst.
    rewrite Forall_fmap in Hall. exact Hall.
  - apply (f_equal reverse) in Heq. rewrite reverse_involutive, reverse_app, reverse_cons, <- app_assoc in Heq. cbn in Heq.
    rewrite Heq, fmap_app in Hs. apply StronglySorted_app in Hs as (Hs & _ & _).
    apply Forall_forall. intros e' He'. apply (Hs (key e') (key e)).
    + apply list_elem_of_fmap. exists e'. split; [done|]. by apply elem_of_reverse.
    + apply list_elem_of_fmap. exists e. split; [done|]. left.
Qed.

(** A position from which exactly the rows with [P] follow has only rows without it before. *)
Lemma drop_filter_prefix {A} (P : A → Prop) `{!∀ x, Decision (P x)} n (l : list A) :
  drop n l = filter P l → Forall (λ x, ¬ P x) (take n l).
Proof.
  intros Hd. assert (filter P (take n l) = []) as Hnil.
  { assert (filter P (drop n l) = drop n l) as Hall.
    { apply list_filter_all. rewrite Hd. apply Forall_forall. intros x Hx. by apply list_elem_of_filter in Hx as []. }
    pose proof (filter_app P (take n l) (drop n l)) as Happ.
    rewrite take_drop, Hall, <- Hd in Happ. apply (f_equal length) in Happ. rewrite length_app in Happ.
    apply nil_length_inv. lia. }
  apply Forall_forall. intros x Hx Hp.
  assert (x ∈ filter P (take n l)) as Hin by by apply list_elem_of_filter.
  rewrite Hnil in Hin. by apply not_elem_of_nil in Hin.
Qed.

(** A key of block [i] may be where the index says it is. *)
Lemma row_may_include i rs e : rss !! i = Some rs → e ∈ rs → may_include ks i (key e).
Proof.
  intros Hrs He. destruct (tw_separated _ _ _ _ _ Htw) as [Hlen Hsep].
  destruct (lookup_lt_is_Some_2 ks i) as [a Ha]; [rewrite Hlen; by eapply lookup_lt_Some|].
  split.
  - exists a. split; [done|]. destruct (Hsep i a Ha) as [Hself _]. specialize (Hself rs Hrs). rewrite Forall_forall in Hself. auto.
  - intros b Hb. destruct (Hsep (S i) b Hb) as [_ Hbefore]. specialize (Hbefore i rs ltac:(lia) Hrs).
    rewrite Forall_forall in Hbefore. auto.
Qed.

(** The rows outside of the scheduled range of blocks are outside of the view. *)
Lemma outside_unread : Forall (λ e, ¬ inview e) (unread_rows fin).
Proof.
  apply Forall_forall. intros e He Hin.
  assert (∃ i rs, rss !! i = Some rs ∧ e ∈ rs ∧ ¬ (lo ≤ i < hi)) as (i & rs & Hrs & Hers & Hno).
  { unfold unread_rows, fin in He. destruct o.
    - apply elem_of_concat in He as (rs & Hers & Hrs). apply list_elem_of_lookup_1 in Hrs as [j Hj].
      rewrite lookup_drop in Hj. exists (hi + j), rs. split_and!; [done..|lia].
    - apply elem_of_reverse, elem_of_concat in He as (rs & Hers & Hrs). apply list_elem_of_lookup_1 in Hrs as [j Hj].
      apply lookup_take_Some in Hj as [Hj Hlt]. exists j, rs. split_and!; [done..|lia]. }
  apply Hno, (Hcover i (key e) Hin). by eapply row_may_include.
Qed.

Definition start_pos : nat := match o with Ascending => lo | Descending => hi end.

Lemma outside_read : Forall (λ e, ¬ inview e) (read_rows start_pos).
Proof.
  apply Forall_forall. intros e He Hin.
  assert (∃ i rs, rss !! i = Some rs ∧ e ∈ rs ∧ ¬ (lo ≤ i < hi)) as (i & rs & Hrs & Hers & Hno).
  { unfold read_rows, start_pos in He. destruct o.
    - apply elem_of_concat in He as (rs & Hers & Hrs). apply list_elem_of_lookup_1 in Hrs as [j Hj].
      apply lookup_take_Some in Hj as [Hj Hlt]. exists j, rs. split_and!; [done..|lia].
    - apply elem_of_reverse, elem_of_concat in He as (rs & Hers & Hrs). apply list_elem_of_lookup_1 in Hrs as [j Hj].
      rewrite lookup_drop in Hj. exists (hi + j), rs. split_and!; [done..|lia]. }
  apply Hno, (Hcover i (key e) Hin). by eapply row_may_include.
Qed.

(** The iterator stands in a block: [before] are the rows it has passed, [rest] those to come. *)
Record cursor it (p : nat) (before rest : list RowEntry) : Prop := {
  cu_fetching : fetching it p;
  cu_init : si_initialized it = true;
  cu_split : in_order o rows = before ++ rest;
  cu_block : ∃ bit rs n q, si_current it = Some bit ∧ block_at o rs bit n ∧ rest = drop n (in_order o rs) ++ unread_rows p ∧
    rss !! block_no q = Some rs ∧ p = step q;
}.

(** It has stopped. *)
Record finished it : Prop := {
  fi_view : si_view it = view;
  fi_index : si_index it = Some idx;
  fi_store : si_store it = store;
  fi_options : si_options it = opts;
  fi_init : si_initialized it = true;
  fi_current : si_current it = None;
}.

Lemma fetching_set_current it p cur : fetching it p → fetching (set_current it cur) p.
Proof. intros []. by split. Qed.

Lemma fetching_finished it p : fetching it p → finished (set_current it None).
Proof. intros []. by split. Qed.

Lemma finished_is it : finished it → is_finished it = true.
Proof. intros []. unfold is_finished. by rewrite fi_init0, fi_current0. Qed.

Lemma cursor_active it p before rest : cursor it p before rest → is_finished it = false.
Proof. intros [_ _ _ (bit & rs & n & q & Hc & _)]. unfold is_finished. rewrite Hc. by rewrite andb_comm. Qed.

Definition buffers it it' : Prop := descending_buffer it' = descending_buffer it ∧ pending_entry it' = pending_entry it.

(** The next row of the current block, or none. *)
Lemma current_next_ok it p before rest :
  cursor it p before rest →
  ∃ r it', current_next it = Ok (r, it') ∧ buffers it it' ∧
    match r with
    | Some e => ∃ rest', rest = e :: rest' ∧ cursor it' p (before ++ [e]) rest'
    | None => rest = unread_rows p ∧ fetching it' p ∧ si_initialized it' = true ∧ is_finished it' = false
    end.
Proof.
  intros [Hf Hi Hsplit (bit & rs & n & q & Hcur & Hat & Hrest & Hrs)]. unfold current_next. rewrite Hcur.
  pose proof (block_next o rs bit n Hat) as Hn. destruct (in_order o rs !! n) as [e|] eqn:He.
  - destruct Hn as (bit' & -> & Hat'). run. eexists _, _. split; [done|]. split; [done|].
    rewrite (drop_S _ _ _ He) in Hrest. exists (drop (S n) (in_order o rs) ++ unread_rows p). split; [done|].
    split; [by destruct Hf; split|done| |].
    + rewrite Hsplit, Hrest, <- app_assoc. done.
    + by exists bit', rs, (S n), q.
  - destruct Hn as (bit' & ->). run. eexists _, _. split; [done|]. split; [done|]. apply lookup_ge_None in He.
    rewrite drop_ge in Hrest by done. split; [done|]. split; [by destruct Hf; split|]. split; [done|].
    unfold is_finished. cbn. by rewrite andb_comm.
Qed.

(** The step to the next block. *)
Lemma advance_block_ok it p :
  fetching it p → si_initialized it = true → is_finished it = false →
  ∃ it', advance_block it = Ok it' ∧ buffers it it' ∧
    ((∃ p', cursor it' p' (read_rows p) (unread_rows p) ∧ p' = step p ∧ p ≠ fin) ∨ (finished it' ∧ p = fin)).
Proof.
  intros Hf Hi Hfin. unfold advance_block, ensure_metadata_loaded. rewrite (ft_index _ _ Hf). run. rewrite Hfin.
  destruct (next_iter_ok true it p Hf) as (r & it' & -> & (Hki & _ & Hkb) & _ & Hr). run. destruct r as [bit|].
  - destruct Hr as (rs & Hrs & Hat & Hf' & Hne). rewrite Hki, Hi. run. eexists. split; [done|]. split; [done|]. left.
    exists (step p). pose proof (ft_pos _ _ Hf') as Hp'. pose proof (ft_pos _ _ Hf) as Hp.
    pose proof (covers_order _ _ _ (ft_covers _ _ Hf')) as Hord.
    assert (p ≠ fin) as Hpf.
    { pose proof (ft_next _ _ Hf'). unfold fin, step, span in *. destruct o; cbn in *; lia. }
    destruct (unread_step p rs Hrs) as [Hu Hr']; [unfold block_no, fin, step in *; destruct o; [by right|left; lia]|].
    split; [|done]. split; [by apply fetching_set_current|done|by rewrite read_unread|].
    exists bit, rs, 0, p. split; [done|]. split; [done|]. split; [by rewrite Hu, drop_0|done].
  - destruct Hr as (Hf' & _ & Hp). run. eexists. split; [done|]. split; [done|]. right. split; [by eapply fetching_finished|auto].
Qed.

Lemma block_sorted rs : rs ∈ rss → keys_sorted (key <$> rs).
Proof.
  intros Hrs. pose proof (tw_sorted _ _ _ _ _ Htw) as Hs. apply list_elem_of_split in Hrs as (l1 & l2 & Heq).
  rewrite Heq, concat_app, concat_cons, !fmap_app in Hs. apply StronglySorted_app in Hs as (_ & _ & Hs).
  by apply StronglySorted_app in Hs as (_ & Hs & _).
Qed.

(** The seek to the near end of the view passes only rows outside of it. *)
Lemma first_seek_ok rs bit :
  block_at o rs bit 0 → keys_sorted (key <$> rs) →
  ∃ bit' n, match o with
    | Ascending => match sv_start view with Included k | Excluded k => it_seek k bit | Unbounded => mret bit end
    | Descending => match sv_end view with Included k | Excluded k => it_seek k bit | Unbounded => mret bit end
    end = Ok bit' ∧ block_at o rs bit' n ∧ Forall (λ e, ¬ inview e) (take n (in_order o rs)).
Proof.
  intros Hat Hs.
  assert (∀ k, (∀ e, match o with Ascending => key e ≺ k | Descending => k ≺ key e end → ¬ inview e) →
    ∃ bit' n, it_seek k bit = Ok bit' ∧ block_at o rs bit' n ∧ Forall (λ e, ¬ inview e) (take n (in_order o rs))) as Hseek.
  { intros k Hk. destruct (block_seek o rs bit 0 k Hat Hs) as (bit' & n & Hsk & Hat' & Hd). exists bit', n. split; [done|].
    split; [done|]. destruct o; cbn [in_order from_key] in *.
    - apply drop_filter_prefix in Hd. eapply Forall_impl; [exact Hd|]. cbn. intros e He. apply Hk. destruct (ord_ltb (key e) k) eqn:?; [ord|done].
    - rewrite <- filter_reverse in Hd. apply drop_filter_prefix in Hd. eapply Forall_impl; [exact Hd|]. cbn. intros e He. apply Hk.
      destruct (ord_leb (key e) k) eqn:?; [done|ord]. }
  assert (∃ bit' n, Ok bit = Ok (E:=SlateDBError) bit' ∧ block_at o rs bit' n ∧ Forall (λ e, ¬ inview e) (take n (in_order o rs))) as Hstay.
  { exists bit, 0. split; [done|]. split; [done|]. rewrite take_0. constructor. }
  assert (∀ e, key_precedes view (key e) = true ∨ key_exceeds view (key e) = true → ¬ inview e) as Hsides.
  { intros e. unfold inview. rewrite contains_sides. destruct (key_precedes _ _), (key_exceeds _ _); cbn; intuition congruence. }
  destruct o; [destruct (sv_start view) as [k|k|] eqn:Hb|destruct (sv_end view) as [k|k|] eqn:Hb]; try exact Hstay;
    apply Hseek; intros e He; apply Hsides; unfold key_precedes, key_exceeds; rewrite Hb; [left|left|right|right]; ord.
Qed.

(** The first step: load the index, fetch the first block, seek in it. *)
Lemma first_block_ok it :
  si_view it = view → si_index it = None → si_initialized it = false → si_store it = store → si_options it = opts →
  fetch_tasks it = [] → partitions_covering_range idx (sv_start view) (sv_end view) = Ok (lo, hi) →
  ∃ it', advance_block it = Ok it' ∧ buffers it it' ∧
    ((∃ p before rest, cursor it' p before rest ∧ Forall (λ e, ¬ inview e) before) ∨
     (finished it' ∧ Forall (λ e, ¬ inview e) rows)).
Proof.
  intros Hview Hidx Hinit Hstore Hopts Htasks Hpart. unfold advance_block, ensure_metadata_loaded, si_order, si_handle.
  rewrite Hidx, Hstore, Hview, Hopts, (tw_index _ _ _ _ _ Htw). run. rewrite Hpart. run. cbn [fst snd].
  set (it1 := set_metadata _ _ _ _).
  assert (fetching it1 start_pos) as Hf1.
  { split; cbn; try done.
    - rewrite Htasks. unfold start_pos. by destruct o.
    - unfold start_pos. destruct o; lia.
    - destruct o; lia. }
  assert (∃ it2, (if eager_spawn (si_options it1) then spawn_fetches it1 else Ok it1) = Ok it2 ∧ fetching it2 start_pos ∧ keeps it1 it2)
    as (it2 & -> & Hf2 & (Hki & Hkc & Hkb)).
  { destruct (eager_spawn _); [|by exists it1]. unfold spawn_fetches. rewrite (ft_index _ _ Hf1), (ft_options _ _ Hf1).
    destruct (spawn_loop_ok (max_fetch_tasks opts) it1 start_pos Hf1) as (it2 & ? & ? & ? & _); [lia|]. by exists it2. }
  run. assert (is_finished it2 = false) as -> by (unfold is_finished; rewrite Hki; cbn; by rewrite Hinit).
  destruct (next_iter_ok true it2 start_pos Hf2) as (r & it' & -> & (Hki' & _ & Hkb') & _ & Hr). run.
  assert (buffers it it') as Hbuf by (unfold buffers; destruct Hkb, Hkb'; subst it1; cbn in *; split; congruence).
  destruct r as [bit|].
  - destruct Hr as (rs & Hrs & Hat & Hf' & Hne). rewrite Hki', Hki. cbn [si_initialized it1 set_metadata]. rewrite Hinit.
    rewrite (ft_view _ _ Hf'). fold (si_order it'). unfold si_order. rewrite (ft_options _ _ Hf').
    assert (start_pos ≠ fin) as Hsf.
    { pose proof (ft_next _ _ Hf'). pose proof (covers_order _ _ _ (ft_covers _ _ Hf')). pose proof (ft_pos _ _ Hf').
      unfold fin, start_pos, step, span in *. destruct o; cbn in *; lia. }
    destruct (unread_step start_pos rs Hrs) as [Hu Hr']; [unfold block_no, fin, start_pos in *; destruct o; [by right|left; lia]|].
    assert (keys_sorted (key <$> rs)) as Hsort by (eapply block_sorted, list_elem_of_lookup_2; exact Hrs).
    assert (∃ bit' n, match o with
        | Ascending => match sv_start view with Included k | Excluded k => it_seek k bit | Unbounded => mret bit end
        | Descending => match sv_end view with Included k | Excluded k => it_seek k bit | Unbounded => mret bit end
        end = Ok bit' ∧ block_at o rs bit' n ∧ Forall (λ e, ¬ inview e) (take n (in_order o rs))) as (bit' & n & -> & Hat' & Hnear).
    { by apply first_seek_ok. }
    run. eexists. split; [done|]. split; [done|]. left. exists (step start_pos), (read_rows start_pos ++ take n (in_order o rs)),
      (drop n (in_order o rs) ++ unread_rows (step start_pos)). split.
    + split; [by apply fetching_set_current|done| |].
      * rewrite <- (read_unread start_pos), Hu, <- app_assoc. f_equal. by rewrite app_assoc, take_drop.
      * by exists bit', rs, n, start_pos.
    + apply Forall_app. split; [apply outside_read|done].
  - destruct Hr as (Hf' & _ & Hp). eexists. split; [done|]. split; [done|]. right. split; [by eapply fetching_finished|].
    pose proof outside_read as Hr1. pose proof outside_unread as Hr2. rewrite <- Hp in Hr2 by done.
    pose proof (read_unread start_pos) as Hru. assert (Forall (λ e, ¬ inview e) (in_order o rows)) as Hall by (rewrite <- Hru; by apply Forall_app).
    destruct o; [done|]. cbn in Hall. rewrite <- (reverse_involutive rows). by apply Forall_reverse.
Qed.

Global Instance inview_dec e : Decision (inview e).
Proof. unfold inview. apply _. Defined.

Lemma stop_finished it p : fetching it p → finished (si_stop it).
Proof. intros []. by split. Qed.

Lemma cursor_length it p before rest : cursor it p before rest → length rest ≤ length rows.
Proof.
  intros [_ _ Hs _]. apply (f_equal length) in Hs. rewrite in_order_length, length_app in Hs. lia.
Qed.

Lemma blocks_length : length idx = length rss.
Proof. destruct (tw_separated _ _ _ _ _ Htw) as [Hl _]. by rewrite length_fmap in Hl. Qed.

Lemma fuel_enough it p before rest : cursor it p before rest → length rest + (hi - lo) + 2 ≤ loop_fuel store.
Proof.
  intros Hc. pose proof (tw_fuel _ _ _ _ _ Htw) as Hfu. fold rows in Hfu. pose proof (cursor_length _ _ _ _ Hc).
  pose proof blocks_length. lia.
Qed.

(** Blocks left to read from a position. *)
Definition blocks_left (p : nat) : nat := match o with Ascending => hi - p | Descending => p - lo end.

Lemma blocks_left_step p : p ≠ fin → lo ≤ p ≤ hi → blocks_left (step p) < blocks_left p.
Proof. unfold blocks_left, step, fin. destruct o; lia. Qed.

Lemma far_rest before e rest : in_order o rows = before ++ e :: rest → far (key e) = true → Forall (λ e, ¬ inview e) (e :: rest).
Proof.
  intros Hs Hf. assert (∀ e', far (key e') = true → ¬ inview e') as Hout.
  { intros e' Hf' Hin. apply inview_sides in Hin as [_ Hin]. congruence. }
  constructor; [auto|]. eapply Forall_impl; [exact (rows_dir _ _ _ Hs)|]. cbn. intros e' Hd. apply Hout. by eapply far_mono.
Qed.

(** *** Ascending iteration *)

Lemma next_ascending_ok fuel it p before rest :
  o = Ascending → cursor it p before rest → length rest + blocks_left p + 2 ≤ fuel →
  ∃ r it', next_ascending_loop fuel it = Ok (r, it') ∧
    match r with
    | Some e => ∃ p' skipped rest', rest = skipped ++ e :: rest' ∧ Forall (λ e, ¬ inview e) skipped ∧ inview e ∧
        cursor it' p' (before ++ skipped ++ [e]) rest'
    | None => Forall (λ e, ¬ inview e) rest ∧ finished it'
    end.
Proof.
  intros Ho. revert it p before rest. induction fuel as [|fuel IH]; intros it p before rest Hc Hfuel; [lia|].
  cbn [next_ascending_loop]. rewrite (cursor_active _ _ _ _ Hc).
  assert (∀ it, finished it → next_ascending_loop fuel it = Ok (None, it)) as Hstop.
  { intros it0 Hf0. destruct fuel; [lia|]. cbn [next_ascending_loop]. by rewrite (finished_is _ Hf0). }
  destruct (current_next_ok _ _ _ _ Hc) as (r & it1 & -> & _ & Hr). run. destruct r as [e|].
  - destruct Hr as (rest' & -> & Hc1). cbn in Hfuel. pose proof (cu_fetching _ _ _ _ Hc1) as Hf1.
    rewrite (ft_view _ _ Hf1). destruct (sv_contains view (key e)) eqn:Hin.
    + exists (Some e), it1. split; [done|]. by exists p, [], rest'.
    + destruct (key_exceeds view (key e)) eqn:Hex.
      * exists None, (si_stop it1). split; [apply Hstop; by eapply stop_finished|]. split; [|by eapply stop_finished].
        eapply far_rest; [apply (cu_split _ _ _ _ Hc)|]. unfold far. by rewrite Ho.
      * destruct (IH it1 p (before ++ [e]) rest' Hc1) as (r & it' & Hl & Hr); [lia|]. exists r, it'. split; [done|].
        assert (¬ inview e) by (unfold inview; congruence). destruct r as [e'|].
        -- destruct Hr as (p' & skipped & rest'' & -> & Hsk & Hin' & Hc'). exists p', (e :: skipped), rest''.
           split; [done|]. split; [by constructor|]. split; [done|]. by rewrite <- !app_assoc in Hc'.
        -- destruct Hr as [Hall Hfi]. split; [by constructor|done].
  - destruct Hr as (Hrest & Hf1 & Hi1 & Hnf). destruct (advance_block_ok it1 p Hf1 Hi1 Hnf) as (it2 & -> & _ & Hadv). run.
    destruct Hadv as [(p' & Hc2 & -> & Hne)|[Hfi Hp]].
    + pose proof (blocks_left_step p Hne (ft_pos _ _ Hf1)).
      destruct (IH it2 (step p) (read_rows p) (unread_rows p) Hc2) as (r & it' & Hl & Hr); [rewrite <- Hrest; lia|].
      exists r, it'. split; [done|]. rewrite Hrest. destruct r as [e|]; [|done].
      destruct Hr as (p' & skipped & rest' & Heq & Hsk & Hin & Hc'). exists p', skipped, rest'. split_and!; try done.
      assert (before = read_rows p) as ->; [|done].
      pose proof (cu_split _ _ _ _ Hc) as Hs. rewrite Hrest, <- (read_unread p) in Hs. by apply app_inv_tail in Hs.
    + exists None, it2. split; [by apply Hstop|]. split; [|done]. rewrite Hrest, Hp. apply outside_unread.
Qed.

(** The relation of an ascending iterator to the rows it will return. *)
Definition asc_rel it (returned l : list RowEntry) : Prop :=
  Forall inview returned ∧
  ((finished it ∧ l = []) ∨
   ∃ p before rest, cursor it p before rest ∧ l = filter inview rest ∧ ∀ e, e ∈ before → inview e → e ∈ returned).

Lemma asc_rel_next it returned l :
  o = Ascending → asc_rel it returned l →
  match l with
  | [] => ∃ it', internal_next it = Ok (None, it') ∧ asc_rel it' returned []
  | e :: l => ∃ it', internal_next it = Ok (Some e, it') ∧ asc_rel it' (returned ++ [e]) l
  end.
Proof.
  intros Ho [Hret [[Hfi ->]|(p & before & rest & Hc & -> & Hbef)]]; unfold internal_next.
  - rewrite (fi_init _ Hfi). cbn [negb]. unfold si_order. rewrite (fi_options _ Hfi), Ho, (fi_store _ Hfi).
    exists it. assert (2 ≤ loop_fuel store) by (pose proof (tw_fuel _ _ _ _ _ Htw); lia).
    destruct (loop_fuel store); [lia|]. cbn [next_ascending_loop]. rewrite (finished_is _ Hfi). split; [done|]. split; [done|by left].
  - pose proof (cu_fetching _ _ _ _ Hc) as Hf. rewrite (cu_init _ _ _ _ Hc). cbn [negb]. unfold si_order.
    rewrite (ft_options _ _ Hf), Ho, (ft_store _ _ Hf).
    destruct (next_ascending_ok (loop_fuel store) it p before rest Ho Hc) as (r & it' & -> & Hr).
    { pose proof (fuel_enough _ _ _ _ Hc). pose proof (ft_pos _ _ Hf). unfold blocks_left. rewrite Ho. lia. }
    destruct r as [e|].
    + destruct Hr as (p' & skipped & rest' & -> & Hsk & Hin & Hc').
      rewrite filter_app, (list_filter_none _ skipped) by done. cbn [app]. rewrite filter_cons_True by done.
      exists it'. split; [done|]. split; [by apply Forall_app; split; [|apply Forall_singleton]|]. right.
      exists p', (before ++ skipped ++ [e]), rest'. split; [done|]. split; [done|]. intros e' He' Hin'.
      rewrite !elem_of_app, list_elem_of_singleton in *. destruct He' as [He'|[He'| ->]]; [left; auto| |by right].
      rewrite Forall_forall in Hsk. by destruct (Hsk e').
    + destruct Hr as [Hall Hfi]. rewrite list_filter_none by done. exists it'. split; [done|]. split; [done|by left].
Qed.

(** *** Forward seeks *)

Definition at_least (k : bytes) (e : RowEntry) : Prop := ord_ltb (key e) k = false.
Global Instance at_least_dec k e : Decision (at_least k e).
Proof. unfold at_least. apply _. Defined.

(** The rows at or above [k] that are left: those of any split of the rows at [k]. *)
Lemma split_rows k before rest before' rest' returned :
  before ++ rest = before' ++ rest' → Forall (λ e, key e ≺ k) returned →
  (∀ e, e ∈ before → inview e → e ∈ returned) →
  Forall (λ e, inview e → key e ≺ k) before' → Forall (λ e, inview e → k ≼ key e) rest' →
  filter (at_least k) (filter inview rest) = filter inview rest' ∧
  Forall (λ e, key e ≺ k) (returned ++ filter (λ e, ¬ at_least k e) (filter inview rest)) ∧
  ∀ e, e ∈ before' → inview e → e ∈ returned ++ filter (λ e, ¬ at_least k e) (filter inview rest).
Proof.
  intros Heq Hret Hbef Hlo Hge. rewrite Forall_forall in Hret, Hlo, Hge.
  assert (∀ e, ¬ at_least k e ↔ key e ≺ k) as Hal.
  { intros e. unfold at_least. destruct (ord_ltb (key e) k) eqn:E; split; intros Hx; try done; try ord. }
  split; [|split].
  - assert (filter (at_least k) (filter inview (before ++ rest)) = filter (at_least k) (filter inview (before' ++ rest'))) as Hf
      by by rewrite Heq.
    rewrite !filter_app in Hf.
    rewrite (list_filter_none (at_least k) (filter inview before)) in Hf.
    2:{ apply Forall_forall. intros e He. apply list_elem_of_filter in He as [Hin He]. apply Hal, Hret. auto. }
    rewrite (list_filter_none (at_least k) (filter inview before')) in Hf.
    2:{ apply Forall_forall. intros e He. apply list_elem_of_filter in He as [Hin He]. apply Hal. auto. }
    cbn [app] in Hf. rewrite Hf. apply list_filter_all. apply Forall_forall. intros e He.
    apply list_elem_of_filter in He as [Hin He]. specialize (Hge e He Hin). unfold at_least. ord.
  - apply Forall_forall. intros e [He|He]%elem_of_app; [auto|]. apply list_elem_of_filter in He as [He _]. by apply Hal.
  - intros e He Hin. assert (e ∈ before ++ rest) as Hall by (rewrite Heq; apply elem_of_app; by left).
    apply elem_of_app. apply elem_of_app in Hall as [Hb|Hr]; [left; auto|]. right.
    apply list_elem_of_filter. split; [apply Hal; auto|]. by apply list_elem_of_filter.
Qed.

(** The end of every successful seek. *)
Lemma asc_rel_split it it' k p before rest returned :
  o = Ascending → cursor it p before rest → Forall inview returned → Forall (λ e, key e ≺ k) returned →
  (∀ e, e ∈ before → inview e → e ∈ returned) →
  (∃ p' before' rest', cursor it' p' before' rest' ∧
     Forall (λ e, inview e → key e ≺ k) before' ∧ Forall (λ e, inview e → k ≼ key e) rest') ∨
  (finished it' ∧ Forall (λ e, inview e → key e ≺ k) rows) →
  ∃ returned', asc_rel it' returned' (filter (at_least k) (filter inview rest)) ∧ Forall (λ e, key e ≺ k) returned'.
Proof.
  intros Ho Hc Hin Hret Hbef Hnew. exists (returned ++ filter (λ e, ¬ at_least k e) (filter inview rest)).
  assert (Forall inview (returned ++ filter (λ e, ¬ at_least k e) (filter inview rest))) as Hin'.
  { apply Forall_app. split; [done|]. apply Forall_forall. intros e [_ He]%list_elem_of_filter. by apply list_elem_of_filter in He as []. }
  pose proof (cu_split _ _ _ _ Hc) as Hs.
  destruct Hnew as [(p' & before' & rest' & Hc' & Hlo & Hge)|[Hfi Hall]].
  - pose proof (cu_split _ _ _ _ Hc') as Hs'. rewrite Hs in Hs'.
    destruct (split_rows k _ _ _ _ returned Hs' Hret Hbef Hlo Hge) as (Hl & Hr & Hb). split; [|done]. split; [done|].
    right. by exists p', before', rest'.
  - assert (before ++ rest = rows ++ []) as Hs' by (rewrite <- Hs, app_nil_r; by rewrite Ho).
    destruct (split_rows k _ _ _ _ returned Hs' Hret Hbef Hall ltac:(constructor)) as (Hl & Hr & _). split; [|done].
    split; [done|]. left. split; [done|]. by rewrite Hl.
Qed.


(** A seek inside of a block. *)
Lemma seek_in_block rs bit k :
  o = Ascending → rs ∈ rss → (∃ n, block_at o rs bit n) →
  ∃ bit' n, it_seek k bit = Ok bit' ∧ block_at o rs bit' n ∧ n ≤ length rs ∧
    Forall (λ e, key e ≺ k) (take n rs) ∧ Forall (λ e, k ≼ key e) (drop n rs) ∧ data_block_is_empty bit' = bool_decide (n = length rs).
Proof.
  intros Ho Hrs (n0 & Hat). destruct (block_seek o rs bit n0 k Hat (block_sorted rs Hrs)) as (bit' & n & Hsk & Hat' & Hd).
  exists bit', n. split; [done|]. split; [done|]. rewrite Ho in Hat', Hd. cbn [in_order from_key] in Hd.
  split; [apply Hat'|]. split; [|split; [|by apply block_empty]].
  - by apply below_position.
  - rewrite Hd. apply Forall_forall. intros e [He _]%list_elem_of_filter. ord.
Qed.

(** Where the index says a key is. *)
Lemma lead_below k j rs e :
  j < leading (λ a, ord_ltb a k) ks - 1 → rss !! j = Some rs → e ∈ rs → key e ≺ k.
Proof.
  intros Hj Hrs He. destruct (row_may_include j rs e Hrs He) as [_ Hnext].
  pose proof (leading_le (λ a, ord_ltb a k) ks). destruct (lookup_lt_is_Some_2 ks (S j)) as [b Hb]; [lia|].
  pose proof (leading_true (λ a, ord_ltb a k) ks (S j) b ltac:(lia) Hb) as Hlt. specialize (Hnext b Hb). revert Hlt. ord.
Qed.

Lemma lead_above k j rs e :
  leading (λ a, ord_ltb a k) ks ≤ j → rss !! j = Some rs → e ∈ rs → k ≼ key e.
Proof.
  intros Hj Hrs He. destruct (row_may_include j rs e Hrs He) as [(a & Ha & Hle) _].
  destruct (lookup_lt_is_Some_2 ks (leading (λ a, ord_ltb a k) ks)) as [b Hb].
  { apply lookup_lt_Some in Ha. lia. }
  pose proof (leading_false (λ a, ord_ltb a k) ks b Hb) as Hge. cbn in Hge.
  assert (b ≼ a).
  { destruct (tw_separated _ _ _ _ _ Htw) as [Hlen Hsep]. destruct (decide (leading (λ a, ord_ltb a k) ks = j)) as [Heq|Hne].
    - rewrite Heq, Ha in Hb. injection Hb as ->. ord.
    - destruct (lookup_lt_is_Some_2 rss (leading (λ a, ord_ltb a k) ks)) as [bl Hbl]; [rewrite <- Hlen; by eapply lookup_lt_Some|].
      destruct (Hsep _ b Hb) as [Hself _]. specialize (Hself bl Hbl).
      destruct (Hsep j a Ha) as [_ Hbefore]. specialize (Hbefore (leading (λ a, ord_ltb a k) ks) bl ltac:(lia) Hbl).
      pose proof (tw_nonempty _ _ _ _ _ Htw) as Hnon. rewrite Forall_forall in Hnon.
      specialize (Hnon bl ltac:(by eapply list_elem_of_lookup_2)). destruct bl as [|x bl]; [done|].
      apply Forall_cons in Hself as [? _]. apply Forall_cons in Hbefore as [? _]. ord. }
  ord.
Qed.

Lemma read_rows_blocks p e : o = Ascending → e ∈ read_rows p → ∃ j rs, j < p ∧ rss !! j = Some rs ∧ e ∈ rs.
Proof.
  intros Ho. unfold read_rows. rewrite Ho. intros (rs & Hers & Hrs)%elem_of_concat. apply list_elem_of_lookup_1 in Hrs as [j Hj].
  apply lookup_take_Some in Hj as [Hj Hlt]. by exists j, rs.
Qed.
Lemma unread_rows_blocks p e : o = Ascending → e ∈ unread_rows p → ∃ j rs, p ≤ j ∧ rss !! j = Some rs ∧ e ∈ rs.
Proof.
  intros Ho. unfold unread_rows. rewrite Ho. intros (rs & Hers & Hrs)%elem_of_concat. apply list_elem_of_lookup_1 in Hrs as [j Hj].
  rewrite lookup_drop in Hj. exists (p + j), rs. split_and!; [lia|done|done].
Qed.

(** A block whose rows split at [k] with some of them at or above it. *)
Lemma cursor_in_block it p rs bit n k :
  o = Ascending → fetching it (S p) → rss !! p = Some rs → block_at o rs bit n →
  Forall (λ e, key e ≺ k) (take n rs) → Forall (λ e, k ≼ key e) (drop n rs) →
  Forall (λ e, inview e → key e ≺ k) (read_rows p) →
  n ≠ length rs ∨ Forall (λ e, inview e → k ≼ key e) (unread_rows (S p)) →
  ∃ p' before' rest', cursor (set_current it (Some bit)) p' before' rest' ∧
     Forall (λ e, inview e → key e ≺ k) before' ∧ Forall (λ e, inview e → k ≼ key e) rest'.
Proof.
  intros Ho Hf Hrs Hat Hlo Hge Hread Hrest. exists (S p), (read_rows p ++ take n rs), (drop n rs ++ unread_rows (S p)).
  destruct (unread_step p rs) as [Hu _]; [unfold block_no; by rewrite Ho|by right|]. unfold step in Hu. rewrite Ho in Hu. cbn [in_order] in Hu.
  assert (in_order o rows = (read_rows p ++ take n rs) ++ drop n rs ++ unread_rows (S p)) as Hs.
  { rewrite <- (read_unread p), Hu, <- app_assoc. f_equal. by rewrite app_assoc, take_drop. }
  split; [|split].
  - split; [by apply fetching_set_current|done|done|]. exists bit, rs, n, p. unfold block_no, step. rewrite Ho at 2 3 4. done.
  - apply Forall_app. split; [done|]. eapply Forall_impl; [exact Hlo|]. auto.
  - apply Forall_app. split; [eapply Forall_impl; [exact Hge|]; auto|]. destruct Hrest as [Hn|]; [|done].
    destruct (drop n rs) as [|e rs'] eqn:Hd.
    { exfalso. apply Hn. apply (f_equal length) in Hd. rewrite length_drop in Hd. cbn in Hd. destruct Hat as [? _]. lia. }
    apply Forall_cons in Hge as [He _]. cbn [app] in Hs. pose proof (rows_dir _ _ _ Hs) as Hall. apply Forall_app in Hall as [_ Hall].
    eapply Forall_impl; [exact Hall|]. cbn. intros e' Hd' _. unfold dir_le in Hd'. rewrite Ho in Hd'. ord.
Qed.

(** What a seek must reach. *)
Definition sought it (k : bytes) : Prop :=
  (∃ p before rest, cursor it p before rest ∧
     Forall (λ e, inview e → key e ≺ k) before ∧ Forall (λ e, inview e → k ≼ key e) rest) ∨
  (finished it ∧ Forall (λ e, inview e → key e ≺ k) rows).

Lemma seek_fetched_ok fuel k it p :
  o = Ascending → fetching it p → Forall (λ e, inview e → key e ≺ k) (read_rows p) →
  next_block_idx_to_fetch it - p < fuel →
  ∃ found it', seek_fetched fuel k it = Ok (found, it') ∧
    if found : bool then sought it' k else ∃ p', fetching it' p'.
Proof.
  intros Ho. revert it p. induction fuel as [|fuel IH]; intros it p Hf Hread Hfuel; [lia|]. cbn [seek_fetched].
  destruct (next_iter_ok false it p Hf) as (r & it1 & -> & _ & Hnext & Hr). run. specialize (Hnext eq_refl).
  destruct r as [bit|]; [|destruct Hr as (Hf1 & _); exists false, it1; eauto].
  unfold block_no, step in Hr. rewrite Ho in Hr. destruct Hr as (rs & Hrs & Hat & Hf1 & Hne). rewrite <- Ho in Hat.
  pose proof (list_elem_of_lookup_2 _ _ _ Hrs) as Hin.
  destruct (seek_in_block rs bit k Ho Hin (ex_intro _ 0 Hat)) as (bit' & n & -> & Hat' & Hn & Hlo & Hge & Hemp). run. rewrite Hemp.
  case_bool_decide as Hlen.
  - destruct (unread_step p rs) as [_ Hrd]; [unfold block_no; by rewrite Ho|by right|]. unfold step in Hrd. rewrite Ho in Hrd. cbn [in_order] in Hrd.
    apply (IH it1 (S p) Hf1).
    + rewrite Hrd. apply Forall_app. split; [done|]. subst n. rewrite firstn_all in Hlo. eapply Forall_impl; [exact Hlo|]. auto.
    + pose proof (covers_order _ _ _ (ft_covers _ _ Hf1)) as Hord. unfold span in Hord. rewrite Ho in Hord. cbn in Hord. lia.
  - eexists true, _. split; [done|]. left. eapply cursor_in_block; eauto.
Qed.

Lemma seek_restart_ok k it p :
  o = Ascending → sv_contains view k = true → fetching it p →
  ∃ it', seek_restart k (leading (λ a, ord_ltb a k) ks - 1) it = Ok it' ∧ sought it' k.
Proof.
  intros Ho Hk Hf. set (j := leading (λ a, ord_ltb a k) ks - 1). unfold seek_restart, si_order. rewrite (ft_options _ _ Hf), Ho.
  set (it1 := set_fetch it j []). assert (fetching it1 j) as Hf1.
  { pose proof (Hlead k Hk) as Hj. fold j in Hj. destruct Hf. by split. }
  assert (Forall (λ e, inview e → key e ≺ k) (read_rows j)) as Hread.
  { apply Forall_forall. intros e He _. destruct (read_rows_blocks j e Ho He) as (i & rs & Hi & Hrs & Hers). by eapply lead_below. }
  destruct (next_iter_ok true it1 j Hf1) as (r & it2 & -> & _ & _ & Hr). run. destruct r as [bit|].
  - unfold block_no, step in Hr. rewrite Ho in Hr. destruct Hr as (rs & Hrs & Hat & Hf2 & Hne). rewrite <- Ho in Hat.
    pose proof (list_elem_of_lookup_2 _ _ _ Hrs) as Hin.
    destruct (seek_in_block rs bit k Ho Hin (ex_intro _ 0 Hat)) as (bit' & n & -> & Hat' & Hn & Hlo & Hge & _). run.
    eexists. split; [done|]. left. eapply cursor_in_block; eauto. right.
    apply Forall_forall. intros e He _. destruct (unread_rows_blocks (S j) e Ho He) as (i & rs' & Hi & Hrs' & Hers).
    eapply lead_above; [|exact Hrs'|done]. lia.
  - destruct Hr as (Hf2 & _ & Hj). eexists. split; [done|]. right. split; [by eapply fetching_finished|].
    assert (rows = read_rows j ++ unread_rows j) as -> by (rewrite read_unread; by rewrite Ho).
    apply Forall_app. split; [done|]. rewrite Hj by done. eapply Forall_impl; [exact outside_unread|]. by intros e ? ?.
Qed.

Local Instance keyspace_inst : KeySpaceOf idx ks := index_keyspace_of _ _ _ _ _ Htw.

Lemma seek_blocks_ok k it p :
  o = Ascending → idx ≠ [] → sv_contains view k = true → fetching it p →
  Forall (λ e, inview e → key e ≺ k) (read_rows p) →
  ∃ it', seek_blocks k it = Ok it' ∧ sought it' k.
Proof.
  intros Ho Hne Hk Hf Hread. unfold seek_blocks, si_order. rewrite (ft_index _ _ Hf). cbn [expect]. run.
  rewrite (ft_options _ _ Hf), Ho, (first_partition_ok idx ks) by by destruct idx. run.
  case_bool_decide; [|by eapply seek_restart_ok].
  destruct (seek_fetched_ok (S (length idx)) k it p Ho Hf Hread) as (found & it1 & -> & Hr).
  { pose proof (ft_next _ _ Hf). lia. }
  run. destruct found; [by exists it1|]. destruct Hr as (p' & Hf1). by eapply seek_restart_ok.
Qed.

Lemma cursor_seek it p before rest returned k :
  o = Ascending → idx ≠ [] → sv_contains view k = true → cursor it p before rest → Forall (λ e, key e ≺ k) returned →
  (∀ e, e ∈ before → inview e → e ∈ returned) →
  ∃ it', match si_current it with
    | None => seek_blocks k it
    | Some iter =>
        iter ← it_seek k iter;
        let it := set_current it (Some iter) in
        if data_block_is_empty iter then seek_blocks k it else mret it
    end = Ok it' ∧ sought it' k.
Proof.
  intros Ho Hne Hin [Hf Hi Hsp (bit & rs & n & q & Hcur & Hat & Hrest & Hrs & Hp)] Hk Hbef.
  unfold block_no, step in Hrs, Hp. rewrite Ho in Hrs, Hp. subst p. pose proof (list_elem_of_lookup_2 _ _ _ Hrs) as Hrsin.
  destruct (seek_in_block rs bit k Ho Hrsin (ex_intro _ n Hat)) as (bit' & m & Hsk & Hat' & Hm & Hlo & Hge & Hemp).
  rewrite Hcur, Hsk. run. rewrite Hemp.
  assert (Forall (λ e, inview e → key e ≺ k) before) as Hb.
  { rewrite Forall_forall in *. auto. }
  destruct (unread_step q rs) as [Hu Hrd]; [unfold block_no; by rewrite Ho|by right|]. unfold step in Hu, Hrd. rewrite Ho in Hu, Hrd.
  cbn [in_order] in Hu, Hrd.
  assert (before = read_rows q ++ take n rs) as Hbe.
  { rewrite Hrest, <- (read_unread q), Hu in Hsp. rewrite Ho in Hsp. cbn [in_order] in Hsp.
    rewrite <- (take_drop n rs) in Hsp at 1. rewrite <- app_assoc, !app_assoc, <- app_assoc in Hsp.
    rewrite !app_assoc in Hsp. do 2 apply app_inv_tail in Hsp. done. }
  rewrite Hbe in Hb. apply Forall_app in Hb as [Hb _].
  case_bool_decide as Hlen.
  - apply (seek_blocks_ok k _ (S q)); [done|done|done|by apply fetching_set_current|]. rewrite Hrd. apply Forall_app.
    split; [done|]. subst m. rewrite firstn_all in Hlo. eapply Forall_impl; [exact Hlo|]. auto.
  - eexists. split; [done|]. left. eapply cursor_in_block; eauto.
Qed.

(** A seek to a key that is not before the view: it skips exactly the rows below the key. *)
Lemma asc_rel_seek it returned l k :
  o = Ascending → idx ≠ [] → asc_rel it returned l → key_precedes view k = false → Forall (λ e, key e ≺ k) returned →
  ∃ it' returned', internal_seek k it = Ok it' ∧ asc_rel it' returned' (filter (at_least k) l) ∧ Forall (λ e, key e ≺ k) returned'.
Proof.
  intros Ho Hne [Hret Hrel] Hpre Hk. unfold internal_seek.
  assert (si_initialized it = true ∧ si_view it = view ∧ si_options it = opts) as (-> & Hv & Hop).
  { destruct Hrel as [[[] _]|(p & b & r & [[] ? ? ?] & _)]; done. }
  unfold si_order. rewrite Hv, Hop, Ho. cbn [negb].
  assert (key_exceeds view k = true → ∀ e, inview e → key e ≺ k) as Hexc.
  { intros Hex e He. apply inview_sides in He as [_ He]. unfold far in He. rewrite Ho in He. destruct (ord_ltb (key e) k) eqn:E; [ord|].
    exfalso. assert (k ≼ key e) as Hle by ord. rewrite (exceeds_mono _ _ Hle Hex) in He. done. }
  assert (negb (sv_contains view k) = key_exceeds view k) as Hnc by (rewrite contains_sides, Hpre; by destruct (key_exceeds view k)).
  rewrite Hnc, andb_diag, andb_true_r. destruct (key_exceeds view k) eqn:Hex; cbn [negb andb].
  - specialize (Hexc eq_refl). destruct Hrel as [[Hfi ->]|(p & before & rest & Hc & -> & Hbef)].
    + exists (si_stop it), returned. split; [done|]. split; [|done]. split; [done|]. left. split; [|done]. destruct Hfi. by split.
    + destruct (asc_rel_split it (si_stop it) k p before rest returned Ho Hc Hret Hk Hbef) as (ret' & Hrel' & Hk').
      { right. split; [eapply stop_finished, cu_fetching; exact Hc|]. apply Forall_forall. auto. }
      by exists (si_stop it), ret'.
  - assert (sv_contains view k = true) as Hin by (by destruct (sv_contains view k)).
    destruct Hrel as [[Hfi ->]|(p & before & rest & Hc & -> & Hbef)].
    { rewrite (finished_is _ Hfi). exists it, returned. split; [done|]. split; [|done]. split; [done|by left]. }
    rewrite (cursor_active _ _ _ _ Hc).
    destruct (cursor_seek it p before rest returned k Ho Hne Hin Hc Hk Hbef) as (it' & Hsk & Hsought).
    destruct (asc_rel_split it it' k p before rest returned Ho Hc Hret Hk Hbef Hsought) as (ret' & ? & ?). exists it', ret'.
    split; [exact Hsk|done].
Qed.

(** *** Descending iteration *)

Definition standing it (p : nat) (rest : list RowEntry) : Prop :=
  (finished it ∧ rest = []) ∨ ∃ before, cursor it p before rest.

Lemma finished_advance it : finished it → current_next it = Ok (None, it) ∧ advance_block it = Ok it.
Proof.
  intros Hfi. unfold current_next, advance_block, ensure_metadata_loaded. rewrite (fi_current _ Hfi), (fi_index _ Hfi). run.
  by rewrite (finished_is _ Hfi).
Qed.

(** The rows of one key, from a position in the middle of it. *)
Definition one_key (temp : list RowEntry) (target : option bytes) : Prop :=
  match target with None => temp = [] | Some k => temp ≠ [] ∧ Forall (λ e, key e = k) temp end.

Lemma regroup_same temp k e l :
  one_key temp (Some k) → key e = k → regroup (reverse temp) (e :: l) = regroup (reverse (temp ++ [e])) l.
Proof.
  intros [Hne Hall] He. rewrite reverse_snoc. cbn. destruct (reverse temp) as [|a acc] eqn:Hr.
  { apply (f_equal reverse) in Hr. rewrite reverse_involutive in Hr. done. }
  assert (key a = k) as Ha.
  { rewrite Forall_forall in Hall. apply Hall. apply elem_of_reverse. rewrite Hr. left. }
  by rewrite decide_True by congruence.
Qed.

Lemma regroup_other temp k e l :
  one_key temp (Some k) → key e ≠ k → regroup (reverse temp) (e :: l) = reverse temp ++ regroup [e] l.
Proof.
  intros [Hne Hall] He. cbn. destruct (reverse temp) as [|a acc] eqn:Hr.
  { apply (f_equal reverse) in Hr. rewrite reverse_involutive in Hr. done. }
  assert (key a = k) as Ha.
  { rewrite Forall_forall in Hall. apply Hall. apply elem_of_reverse. rewrite Hr. left. }
  by rewrite decide_False by congruence.
Qed.

Lemma fill_loop_ok fuel it p rest temp target :
  o = Descending → standing it p rest → length rest + blocks_left p + 2 ≤ fuel → one_key temp target → pending_entry it = None →
  ∃ temp' it' p' rest', fill_loop fuel it temp target = Ok (temp', it') ∧ descending_buffer it' = descending_buffer it ∧
    standing it' p' rest' ∧
    regroup (reverse temp) (filter inview rest) =
      reverse temp' ++ regroup (option_list (pending_entry it')) (filter inview rest') ∧
    (temp' = [] → pending_entry it' = None ∧ filter inview rest' = []).
Proof.
  intros Ho. revert it p rest temp target.
  induction fuel as [|fuel IH]; intros it p rest temp target Hst Hfuel Hkey Hpe; [lia|]. cbn [fill_loop].
  destruct Hst as [[Hfi ->]|[before Hc]].
  { destruct (finished_advance it Hfi) as [-> Hadv]. run. rewrite Hadv. run. rewrite (finished_is _ Hfi).
    exists temp, it, p, []. rewrite Hpe. cbn. rewrite app_nil_r. split_and!; try done. by left. }
  destruct (current_next_ok _ _ _ _ Hc) as (r & it1 & -> & [Hb1 Hp1] & Hr). run. rewrite Hpe in Hp1. destruct r as [e|].
  - destruct Hr as (rest' & -> & Hc1). cbn in Hfuel. pose proof (cu_fetching _ _ _ _ Hc1) as Hf1.
    rewrite (ft_view _ _ Hf1). destruct (sv_contains view (key e)) eqn:Hin; cbn [negb].
    + rewrite (filter_cons_True inview) by exact Hin. destruct target as [k|].
      * case_decide as Hk.
        -- rewrite (regroup_same temp k) by done. rewrite <- Hb1. apply (IH it1 p rest'); [by right; eexists|lia| |done].
           destruct Hkey as [Hne Hall]. split; [by destruct temp|]. apply Forall_app. split; [done|]. by apply Forall_singleton.
        -- rewrite (regroup_other temp k) by done.
           exists temp, (set_buffer it1 (descending_buffer it1) (Some e)), p, rest'. split; [done|]. split; [done|].
           split; [right; eexists; destruct Hc1; destruct cu_fetching0; split; [by split|done..]|]. split; [done|].
           intros ->. by destruct Hkey.
      * cbn in Hkey. subst temp. cbn [reverse app regroup]. rewrite <- Hb1.
        destruct (IH it1 p rest' [e] (Some (key e))) as (temp' & it' & p' & rest'' & Hx); [by right; eexists|lia| |done|].
        { split; [done|]. by apply Forall_singleton. }
        exists temp', it', p', rest''. exact Hx.
    + rewrite (filter_cons_False inview) by (unfold inview; congruence). destruct (key_precedes view (key e)) eqn:Hpre.
      * exists temp, (si_stop it1), p, []. cbn [filter list_filter]. pose proof (stop_finished _ _ Hf1).
        assert (Forall (λ e, ¬ inview e) (e :: rest')) as Hout.
        { eapply far_rest; [apply (cu_split _ _ _ _ Hc)|]. unfold far. by rewrite Ho. }
        apply Forall_cons in Hout as [_ Hout]. rewrite list_filter_none by done. split; [done|]. split; [done|]. split; [by left|].
        cbn [si_stop set_current set_fetch pending_entry]. rewrite Hp1. cbn. by rewrite app_nil_r.
      * rewrite <- Hb1. apply (IH it1 p rest'); [by right; eexists|lia|done|done].
  - destruct Hr as (Hrest & Hf1 & Hi1 & Hnf). destruct (advance_block_ok it1 p Hf1 Hi1 Hnf) as (it2 & -> & [Hb2 Hp2] & Hadv). run.
    rewrite Hp1 in Hp2. rewrite <- Hb1, <- Hb2. destruct Hadv as [(p' & Hc2 & -> & Hne)|[Hfi Hp]].
    + rewrite (cursor_active _ _ _ _ Hc2). pose proof (blocks_left_step p Hne (ft_pos _ _ Hf1)). rewrite Hrest in *.
      apply (IH it2 (step p)); [by right; eexists|lia|done|done].
    + rewrite (finished_is _ Hfi). exists temp, it2, p, []. rewrite Hp2, Hrest, Hp.
      rewrite (list_filter_none inview (unread_rows fin)) by apply outside_unread. cbn. rewrite app_nil_r.
      split_and!; try done. by left.
Qed.

(** The relation of a descending iterator to the rows it will return. *)
Definition desc_rel it (l : list RowEntry) : Prop :=
  ∃ buf p rest, descending_buffer it = Some buf ∧ standing it p rest ∧
    l = buf ++ regroup (option_list (pending_entry it)) (filter inview rest).

Lemma standing_buffer it p rest buf pe : standing it p rest → standing (set_buffer it buf pe) p rest.
Proof.
  intros [[[] ->]|[before [[] ? ? ?]]]; [left|right; exists before].
  - done.
  - by split.
Qed.

Lemma desc_rel_next it l :
  o = Descending → desc_rel it l →
  match l with
  | [] => ∃ it', internal_next it = Ok (None, it') ∧ desc_rel it' []
  | e :: l => ∃ it', internal_next it = Ok (Some e, it') ∧ desc_rel it' l
  end.
Proof.
  intros Ho (buf & p & rest & Hbuf & Hst & Hl). unfold internal_next, pop_buffer.
  assert (si_initialized it = true ∧ si_options it = opts ∧ si_store it = store) as (-> & Hop & Hstore).
  { destruct Hst as [[[] _]|(b & [[] ? ? ?])]; done. }
  unfold si_order. rewrite Hop, Ho, Hbuf. cbn [negb]. destruct buf as [|e buf]; cbn [app] in Hl.
  - unfold fill_descending_buffer. rewrite Hstore.
    assert (∃ p, standing it p rest ∧ length rest + blocks_left p + 2 ≤ loop_fuel store) as (p0 & Hst0 & Hfuel).
    { destruct Hst as [[Hfi ->]|[before Hc]].
      - exists lo. split; [by left|]. pose proof (tw_fuel _ _ _ _ _ Htw). unfold blocks_left. rewrite Ho. cbn. lia.
      - exists p. split; [right; by eexists|]. pose proof (fuel_enough _ _ _ _ Hc).
        pose proof (ft_pos _ _ (cu_fetching _ _ _ _ Hc)). unfold blocks_left. rewrite Ho. lia. }
    destruct (fill_loop_ok (loop_fuel store) (set_buffer it (descending_buffer it) None) p0 rest
      (match pending_entry it with Some e => [e] | None => [] end) (key <$> pending_entry it)) as (temp & it1 & p1 & rest1 & Hfill & Hb1 & Hst1 & Hre & Hnil).
    + done.
    + by apply standing_buffer.
    + done.
    + destruct (pending_entry it) as [e|]; cbn; [|done]. split; [done|]. by apply Forall_singleton.
    + done.
    + rewrite Hfill. run. cbn [set_buffer descending_buffer] in Hb1. rewrite Hbuf in Hb1. rewrite Hb1. cbn [expect]. run. cbn [app].
      assert (regroup (option_list (pending_entry it)) (filter inview rest) =
        reverse temp ++ regroup (option_list (pending_entry it1)) (filter inview rest1)) as Hre'.
      { rewrite <- Hre. by destruct (pending_entry it). }
      rewrite Hl, Hre'. cbn [descending_buffer set_buffer expect]. run. destruct (reverse temp) as [|e buf] eqn:Hr.
      * assert (temp = []) as ->.
        { apply (f_equal reverse) in Hr. by rewrite reverse_involutive in Hr. }
        destruct (Hnil eq_refl) as [Hpe Hfl]. rewrite Hpe, Hfl. cbn. eexists. split; [done|].
        exists [], p1, rest1. split; [done|]. split; [by apply standing_buffer|]. cbn. by rewrite Hfl.
      * cbn [app]. eexists. split; [done|]. exists buf, p1, rest1. split; [done|]. split; [by do 2 apply standing_buffer|]. done.
  - subst l. eexists. split; [done|]. exists buf, p, rest. split; [done|]. split; [by apply standing_buffer|done].
Qed.

(** *** The first step *)

(** The rows a scan returns, in its order. *)
Definition scan_rows (l : list RowEntry) : list RowEntry :=
  match o with Ascending => l | Descending => regroup [] (reverse l) end.

Definition rel it (returned l : list RowEntry) : Prop :=
  match o with Ascending => asc_rel it returned l | Descending => desc_rel it l end.

Lemma init_ok :
  partitions_covering_range idx (sv_start view) (sv_end view) = Ok (lo, hi) →
  ∃ it it', internal_new view store opts = Ok it ∧ internal_init it = Ok it' ∧ rel it' [] (scan_rows (filter inview rows)).
Proof.
  intros Hpart. unfold internal_new. rewrite !bool_decide_true by done. run. set (it := mkSstIter _ _ _ _ _ _ _ _ _ _ _).
  destruct (first_block_ok it eq_refl eq_refl eq_refl eq_refl eq_refl eq_refl Hpart) as (it' & Hadv & [Hb Hp] & Hst).
  exists it, it'. split; [done|]. split; [exact Hadv|]. unfold rel, scan_rows.
  assert (∀ before rest, in_order o rows = before ++ rest → Forall (λ e, ¬ inview e) before →
    filter inview (in_order o rows) = filter inview rest) as Hfil.
  { intros before rest -> Hbef. by rewrite filter_app, list_filter_none. }
  destruct o eqn:Ho; cbn [in_order] in Hfil.
  - split; [constructor|]. destruct Hst as [(p & before & rest & Hc & Hbef)|[Hfi Hall]].
    + right. exists p, before, rest. split; [done|]. pose proof (cu_split _ _ _ _ Hc) as Hs. rewrite Ho in Hs.
      split; [by apply (Hfil before)|]. intros e He Hin. rewrite Forall_forall in Hbef. by destruct (Hbef e He).
    + left. split; [done|]. by apply list_filter_none.
  - exists []. assert (descending_buffer it' = Some []) as Hbuf by by rewrite Hb. rewrite Hbuf, Hp. cbn [option_list].
    destruct Hst as [(p & before & rest & Hc & Hbef)|[Hfi Hall]].
    + exists p, rest. split; [done|]. split; [right; by eexists|]. cbn. pose proof (cu_split _ _ _ _ Hc) as Hs. rewrite Ho in Hs.
      rewrite <- (Hfil before rest Hs Hbef). by rewrite filter_reverse.
    + exists lo, []. split; [done|]. split; [by left|]. by rewrite list_filter_none.
Qed.
End fetching.
End SstScan.

(** ** The iterator as a scan *)

(** The iterator stands in a table it can read. *)
Definition internal_scan {F} (view : SstView) (o : IterationOrder) (it : InternalSstIterator F) (returned l : list RowEntry) : Prop :=
  ∃ (store : TableReads F) idx blks rss opts lo hi,
    table_rows store (view_sst (sv_table view)) idx blks rss ∧ 0 < max_fetch_tasks opts ∧ 0 < target_bytes_to_fetch opts ∧
    lo ≤ hi ∧ hi ≤ length idx ∧ idx ≠ [] ∧
    (∀ i k, sv_contains view k = true → may_include (meta_first_key <$> idx) i k → lo ≤ i < hi) ∧
    (∀ k, sv_contains view k = true → lo ≤ leading (λ a, ord_ltb a k) (meta_first_key <$> idx) - 1 ≤ hi) ∧
    opt_order opts = o ∧ SstScan.rel store view idx blks rss opts lo hi it returned l.

Global Instance internal_scan_next {F} view o : Scan (@internal_scan F view o).
Proof.
  intros it returned l (store & idx & blks & rss & opts & lo & hi & Htw & Hmax & Htar & Hlh & Hhi & Hne & Hcov & Hlead & Ho & Hrel).
  unfold SstScan.rel in Hrel. rewrite Ho in Hrel. destruct o.
  - pose proof (SstScan.asc_rel_next store view idx blks rss Htw opts Hmax Htar lo hi Hlh Hhi Hcov it returned l Ho Hrel) as Hn.
    destruct l as [|e l]; destruct Hn as (it' & Hn & Hrel'); exists it'; (split; [exact Hn|]);
      exists store, idx, blks, rss, opts, lo, hi; unfold SstScan.rel; rewrite Ho; done.
  - pose proof (SstScan.desc_rel_next store view idx blks rss Htw opts Hmax Htar lo hi Hlh Hhi Hcov it l Ho Hrel) as Hn.
    destruct l as [|e l]; destruct Hn as (it' & Hn & Hrel'); exists it'; (split; [exact Hn|]);
      exists store, idx, blks, rss, opts, lo, hi; unfold SstScan.rel; rewrite Ho; done.
Qed.

(** A seek to a key that is not before the view. *)
Lemma internal_scan_seek {F} view (it : InternalSstIterator F) returned l k :
  internal_scan view Ascending it returned l → key_precedes view k = false → Forall (λ e, key e ≺ k) returned →
  ∃ it' returned', it_seek k it = Ok it' ∧ internal_scan view Ascending it' returned' (filter (λ e, ord_ltb (key e) k = false) l) ∧
    Forall (λ e, key e ≺ k) returned'.
Proof.
  intros (store & idx & blks & rss & opts & lo & hi & Htw & Hmax & Htar & Hlh & Hhi & Hne & Hcov & Hlead & Ho & Hrel) Hpre Hk.
  unfold SstScan.rel in Hrel. rewrite Ho in Hrel.
  destruct (SstScan.asc_rel_seek store view idx blks rss Htw opts Hmax Htar lo hi Hlh Hhi Hcov Hlead it returned l k Ho Hne Hrel Hpre Hk)
    as (it' & ret' & Hsk & Hrel' & Hk'). exists it', ret'. split; [exact Hsk|]. split; [|done].
  exists store, idx, blks, rss, opts, lo, hi. unfold SstScan.rel. rewrite Ho. done.
Qed.

(** A key above a key of the view is not before the view. *)
Lemma not_precedes view a k : sv_contains view a = true → a ≺ k → key_precedes view k = false.
Proof.
  intros Ha Hak. destruct (key_precedes view k) eqn:E; [|done]. rewrite SstScan.contains_sides in Ha.
  by rewrite (SstScan.precedes_mono view a k ltac:(ord) E) in Ha.
Qed.

Global Instance internal_scan_advance {F} view : ScanAdvance (@internal_scan F view Ascending).
Proof.
  intros it0 it returned e l k Hrel0 Hn Hk. pose proof (scan_next_rel (internal_scan view Ascending) _ _ _ _ _ Hrel0 Hn) as Hrel.
  apply (internal_scan_seek view it (returned ++ [e]) l k Hrel); [|done].
  destruct Hrel as (store & idx & blks & rss & opts & lo & hi & _ & _ & _ & _ & _ & _ & _ & _ & Ho & Hrel).
  unfold SstScan.rel in Hrel. rewrite Ho in Hrel. destruct Hrel as [Hin _].
  apply Forall_app in Hin as [_ [He _]%Forall_cons]. apply Forall_app in Hk as [_ [Hek _]%Forall_cons].
  by apply (not_precedes view (key e)).
Qed.

(** The rows of a scan in either order. *)
Definition scan_rows (o : IterationOrder) (l : list RowEntry) : list RowEntry :=
  match o with Ascending => l | Descending => regroup [] (reverse l) end.

(** The rows of a list within a range. *)
Definition rows_in (r : BytesRange.t) (l : list RowEntry) : list RowEntry := filter (λ e, BytesRange.contains r (key e) = true) l.

(** A new iterator, initialized, is about to return the rows of its view. *)
Lemma internal_opens {F} (store : TableReads F) view idx blks rss opts :
  table_rows store (view_sst (sv_table view)) idx blks rss → rss ≠ [] →
  0 < max_fetch_tasks opts → 0 < target_bytes_to_fetch opts → BytesRange.non_empty (sv_range view) = true →
  ∃ it it', internal_new view store opts = Ok it ∧ internal_init it = Ok it' ∧
    internal_scan view (opt_order opts) it' [] (scan_rows (opt_order opts) (rows_in (sv_range view) (concat rss))).
Proof.
  intros Htw Hrss Hmax Htar Hne.
  assert (idx ≠ []) as Hidx.
  { intros ->. destruct (tw_separated _ _ _ _ _ Htw) as [Hlen _]. by destruct rss. }
  destruct (covering_range_ok idx (meta_first_key <$> idx) (KeySpaceOf0 := index_keyspace_of _ _ _ _ _ Htw)
    (sv_start view) (sv_end view)) as (lo & hi & Hpart & Hhi & Hcov & Hlead & Hlh).
  { by destruct idx. }
  rewrite length_fmap in Hhi.
  assert (∀ k, range_contains (range_new (sv_start view) (sv_end view)) k = sv_contains view k) as Hcont.
  { intros k. unfold sv_contains, BytesRange.contains, sv_start, sv_end, start_of, end_of. by destruct (sv_range view) as [[[] []]]. }
  setoid_rewrite Hcont in Hcov. setoid_rewrite Hcont in Hlead.
  assert (lo ≤ hi) as Hle.
  { apply Hlh. unfold BytesRange.non_empty in Hne. unfold sv_start, sv_end, start_of, end_of. by destruct (sv_range view) as [[[] []]]. }
  destruct (SstScan.init_ok store view idx blks rss Htw opts Hmax Htar lo hi Hle Hhi Hcov Hpart) as (it & it' & Hn & Hi & Hrel).
  exists it, it'. split; [done|]. split; [done|]. exists store, idx, blks, rss, opts, lo, hi. done.
Qed.

(** ** Filters *)

(** Filters that deny none of the rows. *)
Definition filters_sound {B F} `{FilterTraits B F} (nfs : list (NamedFilter (F:=F))) (rs : list RowEntry) : Prop :=
  Forall (λ nf, ∀ q, ∃ ans, might_match (nf_filter nf) q = Ok ans ∧
    ∀ e, e ∈ rs → target_admits (query_target q) (key e) → ans = true) nfs.

Lemma all_match_ok {B F} `{FilterTraits B F} nfs rs q :
  filters_sound nfs rs →
  ∃ b, all_match nfs q = Ok b ∧ (b = false → Forall (λ e, ¬ target_admits (query_target q) (key e)) rs).
Proof.
  induction 1 as [|nf nfs Hnf _ (b & IH & Hb)]; [by exists true|]. cbn. destruct (Hnf q) as (ans & -> & Hans). run.
  destruct ans; [by exists b|]. exists false. split; [done|]. intros _. apply Forall_forall. intros e He Hadm. by specialize (Hans e He Hadm).
Qed.

(** The relation of the iterator with its filters. *)
Definition sst_scan {F} (view : SstView) (o : IterationOrder) (s : SstIterator F) (returned l : list RowEntry) : Prop :=
  match s with
  | DirectSst it => internal_scan view o it returned l
  | FilterSst it fe _ => if is_filtered_out fe then l = [] else internal_scan view o it returned l
  end.

Global Instance sst_scan_next {B F} `{FilterTraits B F} view o : Scan (@sst_scan F view o).
Proof.
  intros [it|it fe i] returned l Hrel; cbn [sst_scan] in Hrel; unfold it_next; cbn [sst_iterator sst_next].
  - pose proof (scan_next it returned l Hrel) as Hn. destruct l; destruct Hn as (it' & -> & Hrel'); run; eexists; (split; [done|exact Hrel']).
  - destruct (is_filtered_out fe) eqn:Hout.
    + subst l. eexists. split; [done|]. cbn. by rewrite Hout.
    + pose proof (scan_next it returned l Hrel) as Hn.
      destruct l; destruct Hn as (it' & -> & Hrel'); run; eexists; (split; [done|]); cbn; by rewrite Hout.
Qed.

Lemma sst_scan_seek {B F} `{FilterTraits B F} view (s : SstIterator F) returned l k :
  sst_scan view Ascending s returned l → key_precedes view k = false → Forall (λ e, key e ≺ k) returned →
  ∃ s' returned', sst_seek k s = Ok s' ∧ sst_scan view Ascending s' returned' (filter (λ e, ord_ltb (key e) k = false) l) ∧
    Forall (λ e, key e ≺ k) returned'.
Proof.
  destruct s as [it|it fe i]; intros Hrel Hpre Hk; cbn [sst_scan sst_seek] in *.
  - destruct (internal_scan_seek view it returned l k Hrel Hpre Hk) as (it' & ret' & -> & Hrel' & Hk'). run. by eexists _, ret'.
  - destruct (is_filtered_out fe) eqn:Hout.
    + subst l. exists (FilterSst it fe i), returned. split; [done|]. cbn. by rewrite Hout.
    + destruct (internal_scan_seek view it returned l k Hrel Hpre Hk) as (it' & ret' & -> & Hrel' & Hk'). run.
      eexists _, ret'. split; [done|]. cbn. by rewrite Hout.
Qed.

Global Instance sst_scan_advance {B F} `{FilterTraits B F} view : ScanAdvance (@sst_scan F view Ascending).
Proof.
  intros it0 it returned e l k Hrel Hn Hk. pose proof (scan_next_rel (sst_scan view Ascending) _ _ _ _ _ Hrel Hn) as Hrel'.
  destruct it0 as [i0|i0 fe b]; cbn [sst_scan] in Hrel; unfold it_next in Hn; cbn [sst_iterator sst_next] in Hn.
  - apply bind_Ok_inv in Hn as ([o i] & Hi & Hn). injection Hn as -> <-.
    destruct (scan_advance i0 i returned e l k Hrel Hi Hk) as (it' & ret' & Hs & Hr & Hk'). unfold it_seek. cbn [sst_iterator sst_seek].
    rewrite Hs. run. by eexists _, ret'.
  - destruct (is_filtered_out fe) eqn:Hout; [done|]. apply bind_Ok_inv in Hn as ([o i] & Hi & Hn). injection Hn as -> <-.
    destruct (scan_advance i0 i returned e l k Hrel Hi Hk) as (it' & ret' & Hs & Hr & Hk'). unfold it_seek. cbn [sst_iterator sst_seek].
    rewrite Hout, Hs. run. eexists _, ret'. split; [done|]. cbn. by rewrite Hout.
Qed.

(** A new SST iterator, initialized: its filters skip the table only if no row of the view is in it. *)
Lemma sst_opens {B F} `{FilterTraits B F} (store : TableReads F) view idx blks rss opts nfs :
  table_rows store (view_sst (sv_table view)) idx blks rss → rss ≠ [] →
  0 < max_fetch_tasks opts → 0 < target_bytes_to_fetch opts → BytesRange.non_empty (sv_range view) = true →
  reads_filters store (view_sst (sv_table view)) = Ok nfs → filters_sound nfs (concat rss) →
  (∀ p k, opt_prefix opts = Some p → sv_contains view k = true → p `prefix_of` k) →
  ∃ s s', sst_iterator_new view store opts = Ok s ∧ sst_init s = Ok s' ∧
    sst_scan view (opt_order opts) s' [] (scan_rows (opt_order opts) (rows_in (sv_range view) (concat rss))).
Proof.
  intros Htw Hrss Hmax Htar Hne Hread Hsound Hprefix.
  destruct (internal_opens store view idx blks rss opts Htw Hrss Hmax Htar Hne) as (it & it' & Hnew & Hinit & Hscan).
  assert (si_view it = view ∧ si_store it = store ∧ si_options it = opts) as (Hv & Hst & Hop).
  { unfold internal_new in Hnew. rewrite !bool_decide_true in Hnew by done. cbn in Hnew. by injection Hnew as <-. }
  unfold sst_iterator_new. rewrite Hnew. run. exists (from_internal it).
  assert (∀ q, (∀ k, sv_contains view k = true → target_admits (query_target q) k) →
    ∃ s', sst_init (FilterSst it (evaluator_new q (filter_context opts)) false) = Ok s' ∧
      sst_scan view (opt_order opts) s' [] (scan_rows (opt_order opts) (rows_in (sv_range view) (concat rss)))) as Hfilter.
  { intros q Hq. cbn [sst_init]. unfold si_handle. rewrite Hst, Hv, Hread. run. unfold evaluate. cbn [fe_state evaluator_new fe_query].
    destruct nfs as [|nf nfs].
    - run. cbn [is_filtered_out fe_state]. unfold it_init. cbn [internal_sst_iterator]. rewrite Hinit. run. eexists. split; [done|]. done.
    - destruct (all_match_ok (nf :: nfs) (concat rss) (with_context q (filter_context opts)) Hsound) as (b & -> & Hb). run.
      destruct b; cbn [is_filtered_out fe_state].
      + unfold it_init. cbn [internal_sst_iterator]. rewrite Hinit. run. eexists. split; [done|]. done.
      + eexists. split; [done|]. cbn. specialize (Hb eq_refl).
        assert (rows_in (sv_range view) (concat rss) = []) as ->; [|by destruct (opt_order opts)].
        apply list_filter_none. eapply Forall_impl; [exact Hb|]. cbn. intros e Hno Hin. by apply Hno, Hq. }
  assert (∃ s', sst_init (DirectSst it) = Ok s' ∧
      sst_scan view (opt_order opts) s' [] (scan_rows (opt_order opts) (rows_in (sv_range view) (concat rss)))) as Hdirect.
  { cbn [sst_init]. unfold it_init. cbn [internal_sst_iterator]. rewrite Hinit. run. by eexists. }
  enough (∃ s', sst_init (from_internal it) = Ok s' ∧
      sst_scan view (opt_order opts) s' [] (scan_rows (opt_order opts) (rows_in (sv_range view) (concat rss)))) as (s' & ? & ?) by by exists s'.
  unfold from_internal. rewrite Hv, Hst, Hop. destruct (point_key view) as [k|] eqn:Hpoint.
  - apply Hfilter. intros k' Hk'. cbn. unfold point_key in Hpoint. unfold sv_contains, BytesRange.contains, range_contains, start_admits, end_admits in Hk'.
    unfold sv_start, sv_end, start_of, end_of in Hpoint.
    destruct (start_inner _) as [a|a|]; try done. destruct (end_inner _) as [b|b|]; try done. case_decide; [|done]. simplify_eq.
    apply andb_true_iff in Hk' as [? ?]. ord.
  - destruct (reads_prefix store) eqn:Hrp; [destruct (opt_prefix opts) as [p|] eqn:Hp|].
    + apply Hfilter. intros k Hk. cbn. by apply Hprefix.
    + destruct (reads_range store); [|exact Hdirect]. apply Hfilter. intros k Hk. cbn.
      unfold sv_contains, BytesRange.contains, range_contains in Hk. apply andb_true_iff in Hk.
      unfold sv_start, sv_end, start_of, end_of. by destruct (range_start _), (range_end _).
    + destruct (reads_range store); [|exact Hdirect]. apply Hfilter. intros k Hk. cbn.
      unfold sv_contains, BytesRange.contains, range_contains in Hk. apply andb_true_iff in Hk.
      unfold sv_start, sv_end, start_of, end_of. by destruct (range_start _), (range_end _).
Qed.

(** ** Order of a descending scan *)

Lemma StronglySorted_reverse {A} (R : A → A → Prop) (l : list A) :
  StronglySorted R l → StronglySorted (λ a b, R b a) (reverse l).
Proof.
  induction 1 as [|x l Hs IH Hx]; [constructor|]. rewrite reverse_cons. apply StronglySorted_app_2; [|done|by repeat constructor].
  intros a b Ha ->%list_elem_of_singleton. rewrite elem_of_reverse in Ha. rewrite Forall_forall in Hx. auto.
Qed.

Lemma regroup_perm acc l : regroup acc l ≡ₚ acc ++ l.
Proof.
  revert acc. induction l as [|e l IH]; intros acc; cbn; [by rewrite app_nil_r|].
  destruct acc as [|a acc]; [apply IH|]. case_decide.
  - rewrite IH. apply (Permutation_middle (a :: acc) l e).
  - by rewrite IH.
Qed.

Lemma row_le_same_key o o' a b : key a = key b → row_le o a b → row_le o' a b.
Proof.
  intros Hk. unfold row_le, kv_cmp. rewrite Hk. assert (cmp (key b) (key b) = Eq) as -> by by apply cmp_eq. by destruct o, o'.
Qed.

Lemma row_le_desc a b : key b ≺ key a → row_le Descending a b.
Proof. intros Hlt. unfold row_le, kv_cmp. assert (cmp (key b) (key a) = Lt) as -> by done. done. Qed.

Lemma regroup_sorted acc l :
  StronglySorted (λ a b, row_le Ascending b a) l → StronglySorted (row_le Descending) acc →
  (∀ a b, a ∈ acc → b ∈ acc → key a = key b) → (∀ a x, a ∈ acc → x ∈ l → row_le Ascending x a) →
  StronglySorted (row_le Descending) (regroup acc l).
Proof.
  revert acc. induction l as [|e l IH]; intros acc Hl Hacc Hkey Hle; [done|]. cbn. apply StronglySorted_cons in Hl as [He Hl].
  rewrite Forall_forall in He.
  assert (StronglySorted (row_le Descending) (regroup [e] l)) as Hnew.
  { apply IH; [done|by repeat constructor| |].
    - intros a b ->%list_elem_of_singleton ->%list_elem_of_singleton. done.
    - intros a x ->%list_elem_of_singleton Hx. by apply He. }
  destruct acc as [|a acc]; [exact Hnew|]. case_decide as Hk.
  - apply IH; [done| | |].
    + apply StronglySorted_cons. split; [|done]. apply Forall_forall. intros b Hb.
      apply (row_le_same_key Ascending); [rewrite Hk; apply Hkey; [left|done]|]. apply Hle; [done|left].
    + intros x y [->|Hx]%elem_of_cons [->|Hy]%elem_of_cons; [done| | |by apply Hkey].
      * rewrite Hk. apply Hkey; [left|done].
      * rewrite Hk. apply Hkey; [done|left].
    + intros x y [->|Hx]%elem_of_cons Hy; [by apply He|]. apply Hle; [done|by right].
  - apply StronglySorted_app_2; [|done|exact Hnew]. intros x y Hx Hy. rewrite (regroup_perm [e] l) in Hy. cbn in Hy.
    apply row_le_desc. assert (key x = key a) as Hxa by (apply Hkey; [done|left]).
    assert (key e ≺ key a) as Hea.
    { pose proof (row_le_key Ascending e a (Hle a e ltac:(left) ltac:(left))) as Hx'. cbn in Hx'.
      apply ord_le_alt in Hx' as [?|?]; [done|congruence]. }
    apply elem_of_cons in Hy as [->|Hy]; [by rewrite Hxa|].
    pose proof (row_le_key Ascending y e (He y Hy)) as Hye. cbn in Hye. rewrite Hxa. revert Hye Hea. ord.
Qed.

(** The rows of a scan are sorted in its order, newest version first within a key. *)
Lemma scan_rows_sorted o l :
  StronglySorted (row_le Ascending) l → StronglySorted (row_le o) (scan_rows o l) ∧ scan_rows o l ≡ₚ l.
Proof.
  intros Hs. destruct o; [done|]. cbn. split.
  - apply regroup_sorted; [|constructor| |].
    + by apply StronglySorted_reverse.
    + intros a b Ha. by apply not_elem_of_nil in Ha.
    + intros a b Ha. by apply not_elem_of_nil in Ha.
  - by rewrite regroup_perm, reverse_Permutation.
Qed.

(** ** Written tables *)

(** The rows as a reader of the format finds them. *)
Definition stored_rows (fmt : BlockFormat) (es : list RowEntry) : list RowEntry :=
  match fmt with FormatV1 => stored_v0 <$> es | _ => es end.

Lemma stored_keys fmt es : key <$> stored_rows fmt es = key <$> es.
Proof. destruct fmt; [apply keys_stored_v0|done..]. Qed.

Lemma stored_concat fmt bss : concat (stored_rows fmt <$> bss) = stored_rows fmt (concat bss).
Proof.
  induction bss as [|bl bss IH]; [by destruct fmt|]. rewrite fmap_cons, !concat_cons, IH.
  destruct fmt; cbn; [by rewrite fmap_app|done..].
Qed.

Lemma stored_elem fmt es e : e ∈ stored_rows fmt es → ∃ e', e' ∈ es ∧ key e = key e'.
Proof.
  destruct fmt; cbn; [|by exists e..]. intros (e' & -> & He)%list_elem_of_fmap. exists e'. by rewrite key_stored_v0.
Qed.

Lemma Forall_stored fmt es (P : bytes → Prop) : Forall (λ e, P (key e)) es → Forall (λ e, P (key e)) (stored_rows fmt es).
Proof.
  rewrite !Forall_forall. intros Hall e He. destruct (stored_elem fmt es e He) as (e' & He' & ->). auto.
Qed.

Lemma block_holds_rows fmt blk bl : block_holds fmt blk bl → block_rows (sst_format_version fmt) blk (stored_rows fmt bl).
Proof.
  destruct fmt; cbn; intros Hb; [left|right|right]; (split; [done|]); eexists; [by split|exact Hb|exact Hb].
Qed.

(** A table that reads back, as the iterators see it. *)
Lemma readable_table_rows `{SstCodecs} {B F} `{FilterTraits B F} (ts : TableStore (B:=B) (F:=F)) fuel obj h es bss idx :
  (∀ tag, ts_object ts (handle_id h) tag = obj) → table_readable (ts_format ts) obj h es bss idx →
  keys_sorted (key <$> es) → length es + length bss + 2 ≤ fuel →
  let fmt := table_format (ts_format ts) in
  ∃ blks nfs, table_rows (reads_of ts fuel) h idx blks (stored_rows fmt <$> bss) ∧
    reads_filters (reads_of ts fuel) h = Ok nfs ∧ filters_sound nfs (stored_rows fmt es).
Proof.
  intros Hobj [_ Hver _ Hrows Hnon Hidx [Hseplen Hsep] Hoff (blks & Hblks & Hread) _ (nfs & Hnfs & Hsound)] Hsorted Hfuel fmt.
  assert (∀ A (read : ReadOnlyBlob → result A) v, read obj = Ok v → read_obj ts (handle_id h) read = Ok v) as Hro.
  { intros A read v Hv. apply read_obj_ok. left. by rewrite Hobj. }
  assert (length (concat (stored_rows fmt <$> bss)) = length es) as Hlen.
  { rewrite stored_concat, Hrows. rewrite <- (length_fmap key), stored_keys. apply length_fmap. }
  exists blks, (if bool_decide (filter_policies (ts_format ts) = []) || (filter_len (handle_info h) =? 0)%Z then [] else nfs).
  split; [split|split].
  - by apply Hro.
  - rewrite <- (length_fmap meta_first_key), Hseplen. symmetry. by eapply Forall2_length.
  - intros lo hi Hlo Hhi. by apply Hro, Hread.
  - rewrite Hver. apply Forall2_fmap_r. eapply Forall2_impl; [exact Hblks|]. intros blk bl. apply block_holds_rows.
  - split; [by rewrite length_fmap in Hseplen |- *; rewrite !length_fmap|]. intros i k Hk. destruct (Hsep i k Hk) as [Hself Hbefore].
    split; [intros bl (bl' & -> & Hbl)%list_lookup_fmap_Some_1|intros j bl Hj (bl' & -> & Hbl)%list_lookup_fmap_Some_1].
    + apply (Forall_stored fmt bl' (λ a, k ≼ a)). auto.
    + apply (Forall_stored fmt bl' (λ a, a ≼ k)). eauto.
  - apply Forall_fmap. eapply Forall_impl; [exact Hnon|]. cbn. intros bl Hbl Hst. apply Hbl.
    apply (f_equal (fmap key)) in Hst. rewrite stored_keys in Hst. by destruct bl.
  - rewrite stored_concat, Hrows, stored_keys. done.
  - rewrite Hlen, length_fmap. exact Hfuel.
  - cbn. destruct (_ || _); [done|]. by apply Hro.
  - destruct (_ || _); [constructor|]. eapply Forall_impl; [exact Hsound|]. intros nf [Hs _] q. destruct (Hs q) as (ans & Ha & Hadm).
    exists ans. split; [done|]. intros e He Hq. destruct (stored_elem fmt es e He) as (e' & He' & Hk). apply (Hadm e' He'). by rewrite <- Hk.
Qed.

Lemma stored_sorted fmt es : StronglySorted (row_le Ascending) es → StronglySorted (row_le Ascending) (stored_rows fmt es).
Proof.
  destruct fmt; cbn; [|done..].
  assert (∀ a b, row_le Ascending (stored_v0 a) (stored_v0 b) ↔ row_le Ascending a b) as Hiff.
  { intros a b. unfold row_le, kv_cmp. rewrite !key_stored_v0. unfold stored_v0. by destruct (is_tombstone _), (is_tombstone _). }
  induction 1 as [|e l Hs IH Hle]; [constructor|]. cbn. constructor; [done|]. apply Forall_fmap. eapply Forall_impl; [exact Hle|].
  intros x. apply Hiff.
Qed.

Lemma length_blocks {A} (bss : list (list A)) : Forall (λ bl, bl ≠ []) bss → length bss ≤ length (concat bss).
Proof. induction 1 as [|bl bss Hne _ IH]; [done|]. cbn. rewrite length_app. destruct bl; [done|]. cbn. lia. Qed.

(** [n] rows on. *)
Fixpoint advance_by {I} `{RowEntryIterator I} (n : nat) (it : I) : result I :=
  match n with O => mret it | S n => '(_, it) ← it_next it; advance_by n it end.

Lemma advance_by_ok {I} `{RowEntryIterator I} rel `{!Scan rel} n (it : I) returned l :
  rel it returned l → n ≤ length l → ∃ it', advance_by n it = Ok it' ∧ rel it' (returned ++ take n l) (drop n l).
Proof.
  revert it returned l. induction n as [|n IH]; intros it returned l Hrel Hn.
  { exists it. rewrite take_0, app_nil_r. done. }
  destruct l as [|e l]; [cbn in Hn; lia|]. pose proof (scan_next it returned _ Hrel) as Hx. cbn in Hx. destruct Hx as (it1 & Hnx & Hrel1).
  cbn [advance_by]. rewrite Hnx. run. destruct (IH it1 (returned ++ [e]) l Hrel1) as (it' & Ha & Hr); [cbn in Hn; lia|].
  exists it'. split; [done|]. cbn [take drop firstn skipn]. by rewrite <- app_assoc in Hr.
Qed.

Lemma rows_keys_sorted es : StronglySorted (row_le Ascending) es → keys_sorted (key <$> es).
Proof.
  induction 1 as [|e l Hs IH Hle]; [constructor|]. cbn. constructor; [done|]. apply Forall_fmap.
  eapply Forall_impl; [exact Hle|]. intros x Hx. by apply (row_le_key Ascending).
Qed.

Lemma advance_by_S {I} `{RowEntryIterator I} n (it it1 it2 : I) o :
  advance_by n it = Ok it1 → it_next it1 = Ok (o, it2) → advance_by (S n) it = Ok it2.
Proof.
  revert it. induction n as [|n IH]; intros it Ha Hn.
  - injection Ha as ->. cbn. by rewrite Hn.
  - cbn [advance_by] in Ha. apply bind_Ok_inv in Ha as ([o' it'] & Hn' & Ha). change (advance_by (S (S n)) it) with ('(_, it) ← it_next it; advance_by (S n) it).
    rewrite Hn'. run. by apply IH.
Qed.

(** Rows, a seek beyond them, and the rest. *)
Lemma advance_seek {I} `{RowEntryIterator I} rel `{!Scan rel, !ScanAdvance rel} n k (it : I) out :
  rel it [] out → 0 < n ≤ length out → Forall (λ e, key e ≺ k) (take n out) →
  ∃ it1 it2, advance_by n it = Ok it1 ∧ it_seek k it1 = Ok it2 ∧ yields it2 (filter (λ e, ord_ltb (key e) k = false) (drop n out)).
Proof.
  intros Hrel Hn Hk. destruct n as [|n]; [lia|]. destruct (advance_by_ok rel n it [] out Hrel) as (s1 & Ha & Hs1); [lia|]. cbn [app] in Hs1.
  destruct (lookup_lt_is_Some_2 out n) as [e He]; [lia|]. rewrite (drop_S _ _ _ He) in Hs1. rewrite (take_S_r _ _ _ He) in Hk.
  pose proof (scan_next s1 _ _ Hs1) as (s2 & Hn2 & _).
  destruct (scan_advance (rel:=rel) s1 s2 (take n out) e _ k Hs1 Hn2 Hk) as (s3 & ret' & Hsk & Hs3 & _).
  exists s2, s3. split; [by apply (advance_by_S n it s1 s2 (Some e))|]. split; [done|]. by apply (scan_yields rel s3 ret').
Qed.


