(* ===== verification/SortedRunIter.v ===== *)
(** * Iteration over a sorted run ([sorted_run_iterator.rs])

    The iterator that chains the SSTs of a sorted run, one SST iterator at a time, in
    either direction.  Descending, a key whose versions span SSTs is gathered as a whole
    before its first row is returned.  Owned and borrowed runs are the same here. *)

From S2P Require Export SstIter.

Section sorted_run_iterator.
  Context {B F : Type} `{FilterTraits B F}.

(** [DescendingIteratorState] *)
Record DescendingIteratorState := mkDescState {
  current_key_entries : list RowEntry;
  next_key_first_entry : option RowEntry;
}.

(** [SortedRunIterator], with its [SortedRunView]: the tables left, and the range. *)
Record SortedRunIterator := mkRunIter {
  ri_store : TableReads F;
  ri_options : SstIteratorOptions;
  ri_tables : list SsTableView;
  ri_range : BytesRange.t;
  ri_current : option (SstIterator F);
  ri_descending : option DescendingIteratorState;
  ri_initialized : bool;
}.

Implicit Types it : SortedRunIterator.

Definition ri_order it : IterationOrder := opt_order (ri_options it).

Definition set_chain it (tables : list SsTableView) (cur : option (SstIterator F)) : SortedRunIterator :=
  mkRunIter (ri_store it) (ri_options it) tables (ri_range it) cur (ri_descending it) (ri_initialized it).
Definition set_descending it (d : DescendingIteratorState) : SortedRunIterator :=
  mkRunIter (ri_store it) (ri_options it) (ri_tables it) (ri_range it) (ri_current it) (Some d) (ri_initialized it).
Definition set_initialized it (cur : option (SstIterator F)) : SortedRunIterator :=
  mkRunIter (ri_store it) (ri_options it) (ri_tables it) (ri_range it) cur (ri_descending it) true.

(** [peek_next_table], and the tables without it *)
Definition peek_next_table (o : IterationOrder) (tables : list SsTableView) : option SsTableView :=
  match o with Ascending => head tables | Descending => last tables end.
Definition drop_next_table (o : IterationOrder) (tables : list SsTableView) : list SsTableView :=
  match o with Ascending => tail tables | Descending => removelast tables end.

(** [pop_sst]: at most one turn per table. *)
Fixpoint pop_sst (n : nat) (o : IterationOrder) (tables : list SsTableView) (range : BytesRange.t)
    : option SstView * list SsTableView :=
  match n with
  | O => (None, tables)
  | S n =>
      match peek_next_table o tables with
      | None => (None, tables)
      | Some table =>
          match calculate_view_range table range with
          | Some view_range => (Some (mkSstView table view_range), drop_next_table o tables)
          | None => pop_sst n o (drop_next_table o tables) range
          end
      end
  end.

(** [build_next_iter] and [advance_table] *)
Definition advance_table it : result SortedRunIterator :=
  let '(view, tables) := pop_sst (length (ri_tables it)) (ri_order it) (ri_tables it) (ri_range it) in
  cur ← match view with
        | Some view => s ← sst_iterator_new view (ri_store it) (ri_options it); mret (Some s)
        | None => mret None
        end;
  cur ← match cur with
        | Some s => if ri_initialized it then s ← sst_init s; mret (Some s) else mret (Some s)
        | None => mret None
        end;
  mret (set_chain it tables cur).

(** [SortedRunIterator::new] *)
Definition run_iterator_new (tables : list SsTableView) (range : BytesRange.t) (store : TableReads F)
    (options : SstIteratorOptions) : result SortedRunIterator :=
  let d := match opt_order options with Ascending => None | Descending => Some (mkDescState [] None) end in
  advance_table (mkRunIter store options tables range None d false).

(** [SortedRunIterator::new_owned], [new_borrowed_with_stats] *)
Definition run_iterator_new_owned (range : BytesRange.t) (run : SortedRun) (store : TableReads F)
    (options : SstIteratorOptions) : result SortedRunIterator :=
  tables ← into_tables_covering_range (sst_views run) range;
  run_iterator_new tables range store options.

(** [init] *)
Definition run_init it : result SortedRunIterator :=
  if ri_initialized it then mret it
  else
    cur ← match ri_current it with Some s => s ← sst_init s; mret (Some s) | None => mret None end;
    mret (set_initialized it cur).

(** [next_ascending]: every turn but the last takes a table. *)
Fixpoint next_ascending (fuel : nat) it : result (option RowEntry * SortedRunIterator) :=
  match fuel with
  | O => OutOfFuel
  | S fuel =>
      match ri_current it with
      | None => mret (None, it)
      | Some s =>
          '(o, s) ← sst_next s;
          let it := set_chain it (ri_tables it) (Some s) in
          match o with
          | Some kv => mret (Some kv, it)
          | None => it ← advance_table it; next_ascending fuel it
          end
      end
  end.

(** How the loop over the entries of one table ends: out of entries, or with the first entry of the
    next key. *)
Inductive TableEnd := Exhausted | NextKey (e : RowEntry).

(** The inner loop of [buffer_next_descending_key]. *)
Fixpoint table_entries_loop (fuel : nat) it (next_entry : option RowEntry) (k : option bytes) (entries : list RowEntry)
    : result (option bytes * list RowEntry * TableEnd * SortedRunIterator) :=
  match fuel with
  | O => OutOfFuel
  | S fuel =>
      '(entry, it) ← match next_entry with
                     | Some e => mret (Some e, it)
                     | None =>
                         match ri_current it with
                         | None => mret (None, it)
                         | Some s => '(o, s) ← sst_next s; mret (o, set_chain it (ri_tables it) (Some s))
                         end
                     end;
      match entry with
      | None => mret (k, entries, Exhausted, it)
      | Some entry =>
          match k with
          | None => table_entries_loop fuel it None (Some (key entry)) (entries ++ [entry])
          | Some current =>
              if decide (current = key entry) then table_entries_loop fuel it None k (entries ++ [entry])
              else mret (k, entries, NextKey entry, it)
          end
      end
  end.

(** [prepend_table_entries] *)
Definition prepend_table_entries it (entries : list RowEntry) : result SortedRunIterator :=
  d ← expect (ri_descending it);
  mret (set_descending it (mkDescState (entries ++ current_key_entries d) (next_key_first_entry d))).

(** The outer loop of [buffer_next_descending_key]: every turn but the first takes a table. *)
Fixpoint buffer_loop (fuel : nat) it (next_entry : option RowEntry) (k : option bytes) : result SortedRunIterator :=
  match fuel with
  | O => OutOfFuel
  | S fuel =>
      '(k, entries, how, it) ← table_entries_loop (S (loop_fuel (ri_store it))) it next_entry k [];
      match how with
      | NextKey e =>
          d ← expect (ri_descending it);
          prepend_table_entries (set_descending it (mkDescState (current_key_entries d) (Some e))) entries
      | Exhausted =>
          it ← prepend_table_entries it entries;
          match k with
          | None =>
              it ← advance_table it;
              match ri_current it with None => mret it | Some _ => buffer_loop fuel it None None end
          | Some current =>
              let spans_tables := match peek_next_table Descending (ri_tables it) with
                                  | Some table => BytesRange.contains (effective_range table) current
                                  | None => false
                                  end in
              if spans_tables then it ← advance_table it; buffer_loop fuel it None k else mret it
          end
      end
  end.

(** [buffer_next_descending_key] *)
Definition buffer_next_descending_key it : result SortedRunIterator :=
  d ← expect (ri_descending it);
  buffer_loop (S (length (ri_tables it))) (set_descending it (mkDescState (current_key_entries d) None))
    (next_key_first_entry d) None.

(** [next_descending] *)
Definition next_descending it : result (option RowEntry * SortedRunIterator) :=
  d ← expect (ri_descending it);
  it ← match current_key_entries d with [] => buffer_next_descending_key it | _ => mret it end;
  d ← expect (ri_descending it);
  mret match current_key_entries d with
       | [] => (None, it)
       | e :: es => (Some e, set_descending it (mkDescState es (next_key_first_entry d)))
       end.

(** [next] *)
Definition run_next it : result (option RowEntry * SortedRunIterator) :=
  if negb (ri_initialized it) then Err IteratorNotInitialized
  else match ri_order it with
       | Ascending => next_ascending (S (S (length (ri_tables it)))) it
       | Descending => next_descending it
       end.

(** The loop of [seek]: every turn takes a table. *)
Fixpoint seek_tables (fuel : nat) (k : bytes) it : result SortedRunIterator :=
  match peek_next_table Ascending (ri_tables it) with
  | None => mret it
  | Some next_table =>
      start ← compacted_effective_start_key next_table;
      if ord_ltb start k then
        match fuel with O => OutOfFuel | S fuel => it ← advance_table it; seek_tables fuel k it end
      else mret it
  end.

(** [seek] *)
Definition run_seek (k : bytes) it : result SortedRunIterator :=
  if negb (ri_initialized it) then Err IteratorNotInitialized
  else
    it ← seek_tables (length (ri_tables it)) k it;
    match ri_current it with
    | Some s => s ← sst_seek k s; mret (set_chain it (ri_tables it) (Some s))
    | None => mret it
    end.

Global Instance sorted_run_iterator : RowEntryIterator SortedRunIterator := {
  it_init := run_init;
  it_next := run_next;
  it_seek := run_seek;
}.
End sorted_run_iterator.
Arguments SortedRunIterator : clear implicits.

(** ** What a view holds *)

(** A key beyond the end of a non-empty range is not before its start. *)
Lemma beyond_end {T} `{OrdLaws T} (r : ComparableRange T) k :
  range_non_empty r = true → end_admits (range_end r) k = false → start_admits (range_start r) k = true.
Proof.
  destruct r as [[[a|a|]] [[b|b|]]]; unfold range_non_empty, end_admits, start_admits; cbn; intros; try done; ord.
Qed.

(** The view [v] can be read, and shows the rows [vrs] of its table. *)
Definition view_readable {B F} `{FilterTraits B F} (store : TableReads F) (v : SsTableView) (vrs : list RowEntry) : Prop :=
  ∃ idx blks rss nfs, table_rows store (view_sst v) idx blks rss ∧ rss ≠ [] ∧
    reads_filters store (view_sst v) = Ok nfs ∧ filters_sound nfs (concat rss) ∧
    vrs = rows_in (effective_range v) (concat rss) ∧
    match visible_range v with
    | Some vis => (∀ k, holds v k → BytesRange.contains vis k = true) ∧
                  (∀ e, e ∈ concat rss → BytesRange.contains vis (key e) = true → holds v (key e))
    | None => ∀ e, e ∈ concat rss → holds v (key e)
    end.

Lemma filter_same {A} (P Q : A → Prop) `{!∀ x, Decision (P x), !∀ x, Decision (Q x)} (l : list A) :
  (∀ x, x ∈ l → P x ↔ Q x) → filter P l = filter Q l.
Proof.
  induction l as [|x l IH]; intros Hpq; [done|]. rewrite !filter_cons, IH by (intros; apply Hpq; by right).
  pose proof (Hpq x ltac:(left)). repeat case_decide; naive_solver.
Qed.

Lemma rows_in_both r1 r2 r3 l :
  (∀ e, e ∈ l → BytesRange.contains r3 (key e) = BytesRange.contains r1 (key e) && BytesRange.contains r2 (key e)) →
  rows_in r3 l = rows_in r1 (rows_in r2 l).
Proof.
  intros Hc. unfold rows_in. rewrite list_filter_filter. apply filter_same. intros e He. rewrite (Hc e He). apply andb_true_iff.
Qed.

(** The start of [r] admits [k]; the end of [r] does not. *)
Definition starts_by (r : BytesRange.t) (k : bytes) : Prop := start_admits (range_start (BytesRange.inner r)) k = true.
Definition ends_before (r : BytesRange.t) (k : bytes) : Prop := end_admits (range_end (BytesRange.inner r)) k = false.

Lemma contains_starts r k : BytesRange.contains r k = true → starts_by r k.
Proof. unfold BytesRange.contains, range_contains. by intros [? _]%andb_true_iff. Qed.

Lemma starts_mono r a k : starts_by r a → a ≼ k → starts_by r k.
Proof. unfold starts_by, start_admits. destruct (start_inner _); intros; try done; ord. Qed.

Lemma ends_mono r a k : ends_before r a → a ≼ k → ends_before r k.
Proof. unfold ends_before, end_admits. destruct (end_inner _); intros; try done; ord. Qed.

Lemma starts_precedes v r k : starts_by r k → key_precedes (mkSstView v r) k = false.
Proof.
  unfold key_precedes, sv_start, start_of, starts_by, start_admits. cbn [sv_range]. destruct (start_inner _); intros; [ord..|done].
Qed.

Lemma intersect_some a b r : BytesRange.intersect a b = Some r →
  (∀ k, starts_by r k ↔ starts_by a k ∧ starts_by b k) ∧
  (∀ k, BytesRange.contains r k = BytesRange.contains a k && BytesRange.contains b k) ∧
  (∀ k, ends_before a k → starts_by r k) ∧ BytesRange.non_empty r = true.
Proof.
  intros Hi. unfold BytesRange.intersect in Hi. destruct (range_intersect _ _) as [i|] eqn:Hr; [|done]. injection Hi as <-.
  unfold starts_by, ends_before, BytesRange.contains. cbn [BytesRange.inner].
  split; [|split; [|split]].
  - intros k. unfold range_intersect in Hr. case_match; [|done]. injection Hr as <-. cbn. rewrite start_admits_max. apply andb_true_iff.
  - intros k. by rewrite intersect_contains, Hr.
  - intros k Hk. apply beyond_end; unfold range_intersect in Hr; case_match eqn:Hne; try done; injection Hr as <-; [done|].
    cbn. by rewrite end_admits_min, Hk.
  - unfold range_intersect in Hr. case_match; [|done]. by injection Hr as <-.
Qed.

Lemma intersect_none a b k : BytesRange.intersect a b = None → BytesRange.contains b k = true → BytesRange.contains a k = false.
Proof.
  unfold BytesRange.intersect, BytesRange.contains. intros Hi Hb. pose proof (intersect_contains (BytesRange.inner a) (BytesRange.inner b) k) as Hc.
  destruct (range_intersect _ _); [done|]. rewrite Hb, andb_true_r in Hc. done.
Qed.

(** ** The order of the tables *)

Definition runs_before (v w : SsTableView) : Prop := ∀ k, holds v k → k ≼ vstart w.

Lemma run_sorted views : run_ok views → StronglySorted runs_before views.
Proof.
  induction views as [|v views IH]; intros Hok; [constructor|]. constructor.
  - apply IH. destruct Hok as [Hv Ho]. inv Hv. split; [done|]. intros i j a b k s Hij Ha Hb. apply (Ho (S i) (S j) a b k s); [lia|done..].
  - apply Forall_forall. intros w [i Hi]%list_elem_of_lookup_1 k Hk.
    pose proof (ro_views _ Hok) as Hviews. rewrite Forall_forall in Hviews.
    destruct (Hviews w) as (s & Hs & _); [right; by eapply list_elem_of_lookup_2|]. unfold vstart. rewrite Hs.
    apply (ro_order _ Hok 0 (S i) v w k s); [lia|done..].
Qed.

Lemma vstart_held v : view_ok v → holds v (vstart v) ∧ compacted_effective_start_key v = Ok (vstart v).
Proof. intros (s & Hs & Hh). unfold vstart, compacted_effective_start_key. by rewrite Hs. Qed.

Lemma vstart_le v k : view_ok v → holds v k → vstart v ≼ k.
Proof.
  intros (s & Hs & _). unfold vstart, start_of, BytesRange.contains, range_contains, start_admits in *. rewrite Hs.
  intros [Hk _]%andb_true_iff. ord.
Qed.

Section runs.
  Context {B F : Type} `{FilterTraits B F} (store : TableReads F) (opts : SstIteratorOptions) (range : BytesRange.t).
  Context (Hmax : 0 < max_fetch_tasks opts) (Htarget : 0 < target_bytes_to_fetch opts) (Hrange : BytesRange.non_empty range = true).
  Context (Hprefix : ∀ p k, opt_prefix opts = Some p → BytesRange.contains range k = true → p `prefix_of` k).
  Local Notation o := (opt_order opts).

(** The range of a view that is read, against the range asked for. *)
Lemma view_range_ok v vrs : view_readable store v vrs → view_ok v →
  match calculate_view_range v range with
  | None => ∀ k, holds v k → BytesRange.contains range k = false
  | Some r => BytesRange.non_empty r = true ∧
      (∀ k, BytesRange.contains r k = true → BytesRange.contains range k = true) ∧
      (∀ k, holds v k → BytesRange.contains range k = true → BytesRange.contains r k = true) ∧
      (∀ k, starts_by range k → vstart v ≺ k ∨ ends_before range k → starts_by r k)
  end.
Proof.
  intros (idx & blks & rss & nfs & _ & _ & _ & _ & _ & Hvis) (s0 & Hs0 & Hh0).
  assert (vstart v = s0) as Hv0 by (unfold vstart; by rewrite Hs0).
  assert (∀ x, (∀ k, holds v k → BytesRange.contains x k = true) →
    match BytesRange.intersect range x with
    | None => ∀ k, holds v k → BytesRange.contains range k = false
    | Some r => BytesRange.non_empty r = true ∧
        (∀ k, BytesRange.contains r k = true → BytesRange.contains range k = true) ∧
        (∀ k, holds v k → BytesRange.contains range k = true → BytesRange.contains r k = true) ∧
        (∀ k, starts_by range k → vstart v ≺ k ∨ ends_before range k → starts_by r k)
    end) as Hx.
  { intros x Hx. destruct (BytesRange.intersect range x) as [r|] eqn:Hi.
    - destruct (intersect_some _ _ _ Hi) as (Hst & Hc & Hend & Hne). split; [done|]. split; [|split].
      + intros k. rewrite Hc. by intros [? _]%andb_true_iff.
      + intros k Hk Hr. by rewrite Hc, Hr, Hx.
      + intros k Hk [Hlt|Hlt]; [|by apply Hend]. apply Hst. split; [done|].
        eapply starts_mono; [apply contains_starts, Hx, Hh0|]. rewrite <- Hv0. ord.
    - intros k Hk. eapply intersect_none; [exact Hi|]. by apply Hx. }
  unfold calculate_view_range. destruct (visible_range v) as [vis|]; [by apply Hx, Hvis|].
  destruct (last_entry _); [by apply Hx|]. split; [done|]. split; [done|]. split; [done|]. intros k Hk _. exact Hk.
Qed.

(** A view opens, or has no row in the range. *)
Lemma view_opens v vrs r : view_readable store v vrs → view_ok v → calculate_view_range v range = Some r →
  ∃ s s', sst_iterator_new (mkSstView v r) store opts = Ok s ∧ sst_init s = Ok s' ∧
    sst_scan (mkSstView v r) o s' [] (scan_rows o (rows_in range vrs)).
Proof.
  intros Hread Hok Hcalc. pose proof (view_range_ok v vrs Hread Hok) as Hr. rewrite Hcalc in Hr. destruct Hr as (Hne & Hsub & Hsup & _).
  destruct Hread as (idx & blks & rss & nfs & Htw & Hrss & Hnf & Hsound & -> & Hvis).
  destruct (sst_opens store (mkSstView v r) idx blks rss opts nfs) as (s & s' & Hnew & Hinit & Hscan); try done.
  { intros p k Hp Hk. eapply Hprefix; [exact Hp|]. by apply Hsub. }
  exists s, s'. split; [done|]. split; [done|]. cbn [sv_range] in Hscan. erewrite <- rows_in_both; [exact Hscan|].
  intros e He. specialize (Hsub (key e)). specialize (Hsup (key e)). destruct (BytesRange.contains r (key e)) eqn:Hc.
  - rewrite Hsub by done. cbn. symmetry. unfold calculate_view_range in Hcalc. destruct (visible_range v) as [vis|].
    + apply Hvis; [done|]. destruct (intersect_some _ _ _ Hcalc) as (_ & Hboth & _). rewrite Hboth in Hc. by apply andb_true_iff in Hc as [_ ?].
    + by apply Hvis.
  - destruct (BytesRange.contains range (key e)) eqn:Hr; [|done]. cbn. symmetry.
    destruct (BytesRange.contains (effective_range v) (key e)) eqn:He'; [|done]. exfalso. by specialize (Hsup eq_refl eq_refl).
Qed.

Lemma view_rows v vrs e : view_readable store v vrs → e ∈ vrs → holds v (key e).
Proof. intros (idx & blks & rss & nfs & _ & _ & _ & _ & -> & _) He. by apply list_elem_of_filter in He as [? _]. Qed.

Lemma view_skipped v vrs : view_readable store v vrs → view_ok v → calculate_view_range v range = None → rows_in range vrs = [].
Proof.
  intros Hread Hok Hcalc. pose proof (view_range_ok v vrs Hread Hok) as Hr. rewrite Hcalc in Hr.
  apply list_filter_none, Forall_forall. intros e He. rewrite Hr; [done|]. by eapply view_rows.
Qed.

(** ** The chain of tables

    The tables left, in the order they are taken; [q] is the queue of views and [rows] their rows. *)

Lemma peek_queue q : peek_next_table o (in_order o q) = head q.
Proof. destruct o; [done|]. cbn [peek_next_table in_order]. destruct q as [|v q]; [done|]. by rewrite reverse_cons, last_snoc. Qed.

Lemma drop_queue v q : drop_next_table o (in_order o (v :: q)) = in_order o q.
Proof. destruct o; [done|]. cbn [drop_next_table in_order]. by rewrite reverse_cons, removelast_last. Qed.

(** [pop_sst] skips the views that do not meet the range. *)
Lemma pop_queue n q : length q ≤ n →
  ∃ skipped rest, q = skipped ++ rest ∧ Forall (λ v, calculate_view_range v range = None) skipped ∧
    match rest with
    | [] => pop_sst n o (in_order o q) range = (None, in_order o [])
    | v :: rest => ∃ r, calculate_view_range v range = Some r ∧
                     pop_sst n o (in_order o q) range = (Some (mkSstView v r), in_order o rest)
    end.
Proof.
  revert q. induction n as [|n IH]; intros q Hq.
  { destruct q; [|cbn in Hq; lia]. by exists [], []. }
  cbn [pop_sst]. rewrite peek_queue. destruct q as [|v q]; cbn [head]; [by exists [], []|].
  destruct (calculate_view_range v range) as [r|] eqn:Hc.
  - exists [], (v :: q). split; [done|]. split; [done|]. exists r. by rewrite drop_queue.
  - rewrite drop_queue. destruct (IH q ltac:(cbn in Hq; lia)) as (sk & rest & -> & Hsk & Hrest).
    exists (v :: sk), rest. split; [done|]. split; [by constructor|]. exact Hrest.
Qed.

(** The parts of the iterator that do not change, and its queue. *)
Record at_queue (it : SortedRunIterator F) (q : list SsTableView) (rows : list (list RowEntry)) : Prop := {
  aq_store : ri_store it = store;
  aq_options : ri_options it = opts;
  aq_range : ri_range it = range;
  aq_tables : ri_tables it = in_order o q;
  aq_ok : Forall view_ok q;
  aq_rows : Forall2 (view_readable store) q rows;
}.

Lemma skipped_rows sk rows : Forall2 (view_readable store) sk rows → Forall view_ok sk →
  Forall (λ v, calculate_view_range v range = None) sk → Forall (λ vrs, rows_in range vrs = []) rows.
Proof.
  induction 1; intros Hok Hsk; [constructor|]. inv Hok. inv Hsk. constructor; [by eapply view_skipped|auto].
Qed.

(** [advance_table]: the next view that meets the range is opened; no row of the skipped views is in it. *)
Lemma advance_ok it q rows : at_queue it q rows →
  ∃ it' sk rest skrows restrows, advance_table it = Ok it' ∧ q = sk ++ rest ∧ rows = skrows ++ restrows ∧
    Forall (λ v, calculate_view_range v range = None) sk ∧ Forall (λ vrs, rows_in range vrs = []) skrows ∧
    ri_descending it' = ri_descending it ∧ ri_initialized it' = ri_initialized it ∧
    match rest, restrows with
    | v :: rest, vrs :: restrows => at_queue it' rest restrows ∧ view_readable store v vrs ∧ view_ok v ∧
        ∃ r s s', calculate_view_range v range = Some r ∧ sst_init s = Ok s' ∧
          ri_current it' = Some (if ri_initialized it then s' else s) ∧
          sst_scan (mkSstView v r) o s' [] (scan_rows o (rows_in range vrs))
    | [], [] => at_queue it' [] [] ∧ ri_current it' = None
    | _, _ => False
    end.
Proof.
  intros [Hst Hop Hrg Htab Hok Hrows]. unfold advance_table, ri_order. rewrite Hst, Hop, Hrg, Htab, in_order_length.
  destruct (pop_queue (length q) q) as (sk & rest & -> & Hsk & Hpop); [done|].
  apply Forall_app in Hok as [Hoksk Hok]. apply Forall2_app_inv_l in Hrows as (skrows & restrows & Hrs & Hrr & ->).
  pose proof (skipped_rows sk skrows Hrs Hoksk Hsk) as Hnone. destruct rest as [|v rest].
  - rewrite Hpop. inv Hrr. run. eexists _, sk, [], skrows, []. by repeat (split; [done|]).
  - destruct Hpop as (r & Hr & ->). inv Hrr. inv Hok. destruct (view_opens v y r) as (s & s' & Hnew & Hinit & Hscan); [done..|].
    rewrite Hnew. run. exists (set_chain it (in_order o rest) (Some (if ri_initialized it then s' else s))), sk, (v :: rest), skrows, (y :: l').
    split; [destruct (ri_initialized it); run; [by rewrite Hinit|done]|].
    do 6 (split; [done|]). split; [done|]. split; [done|]. split; [done|]. by exists r, s, s'.
Qed.

(** The rows of a queue in the range. *)
Definition queue_rows (rows : list (list RowEntry)) : list RowEntry := concat (rows_in range <$> rows).

Lemma queue_rows_app a b : queue_rows (a ++ b) = queue_rows a ++ queue_rows b.
Proof. unfold queue_rows. by rewrite fmap_app, concat_app. Qed.

Lemma queue_rows_skipped sk : Forall (λ vrs, rows_in range vrs = []) sk → queue_rows sk = [].
Proof. unfold queue_rows. induction 1 as [|vrs sk Hv _ IH]; [done|]. cbn. by rewrite Hv, IH. Qed.

(** ** Ascending *)

(** Every key of [returned] is at or after the start of the range, and at or before every table left. *)
Definition passed (q : list SsTableView) (returned : list RowEntry) : Prop :=
  Forall (λ e, starts_by range (key e) ∧ Forall (λ w, key e ≼ vstart w) q) returned.

(** The rows returned and the rows left.  With [ready], a seek beyond the rows returned is not before the
    view of the current table. *)
Definition asc_state (ready : bool) (it : SortedRunIterator F) (returned l : list RowEntry) : Prop :=
  ri_initialized it = true ∧ ∃ q rows, at_queue it q rows ∧ passed q returned ∧
  match ri_current it with
  | None => q = [] ∧ l = []
  | Some s => ∃ v r retc lc, StronglySorted runs_before (v :: q) ∧ sst_scan (mkSstView v r) Ascending s retc lc ∧
      l = lc ++ queue_rows rows ∧
      Forall (λ e, holds v (key e) ∧ BytesRange.contains range (key e) = true ∧ BytesRange.contains r (key e) = true) lc ∧
      (∀ k, Forall (λ e, key e ≺ k) returned → Forall (λ e, key e ≺ k) retc) ∧
      (ready = true → returned ≠ [] → ∀ k, Forall (λ e, key e ≺ k) returned → key_precedes (mkSstView v r) k = false)
  end.

Lemma passed_suffix sk q returned : passed (sk ++ q) returned → passed q returned.
Proof. intros Hp. eapply Forall_impl; [exact Hp|]. cbn. intros e [Hs Hq]. by apply Forall_app in Hq as [_ ?]. Qed.

Lemma sorted_suffix {A} (R : A → A → Prop) sk l : StronglySorted R (sk ++ l) → StronglySorted R l.
Proof. induction sk as [|x sk IH]; [done|]. intros Hs. inv Hs. auto. Qed.

Lemma not_contained_ends k : starts_by range k → BytesRange.contains range k = false → ends_before range k.
Proof. unfold starts_by, ends_before, BytesRange.contains, range_contains. by intros ->. Qed.

(** Opening the next table in an ascending scan. *)
Lemma asc_advance it q rows : opt_order opts = Ascending → at_queue it q rows → ri_initialized it = true → StronglySorted runs_before q →
  ∃ it', advance_table it = Ok it' ∧ (length (ri_tables it') + (if ri_current it' then 1 else 0) ≤ length (ri_tables it) ∧ length (ri_tables it') ≤ pred (length (ri_tables it))) ∧
    ∀ ready returned, passed q returned →
      (ready = true → returned ≠ [] → ∃ d T q', q = T :: q' ∧ d ∈ returned ∧ key d = vstart T) →
      asc_state ready it' returned (queue_rows rows).
Proof.
  intros Ho Hq Hini Hsort. destruct (advance_ok it q rows Hq) as (it' & sk & rest & skr & rr & Hadv & -> & -> & Hsk & Hskr & _ & Hi' & Hrest).
  exists it'. split; [done|]. rewrite (aq_tables _ _ _ Hq). rewrite queue_rows_app, (queue_rows_skipped skr) by done. cbn [app].
  rewrite Hini in Hi'. destruct rest as [|v rest], rr as [|vrs rr]; try done.
  { destruct Hrest as [Hq' Hcur]. rewrite (aq_tables _ _ _ Hq'), !in_order_length, Hcur. split; [cbn; lia|].
    intros ready returned Hp _. split; [done|]. exists [], []. split; [done|]. split; [by eapply passed_suffix; rewrite app_nil_r in *|]. by rewrite Hcur. }
  destruct Hrest as (Hq' & Hread & Hok & r & s & s' & Hr & Hinit & Hcur & Hscan). rewrite Hini in Hcur.
  rewrite (aq_tables _ _ _ Hq'), !in_order_length, length_app, Hcur. split; [cbn; lia|]. intros ready returned Hp Hready.
  pose proof (view_range_ok v vrs Hread Hok) as Hvr. rewrite Hr in Hvr. destruct Hvr as (_ & _ & Hin & Hstarts).
  split; [done|]. exists rest, rr. split; [done|]. split; [eapply passed_suffix; by rewrite <- (assoc_L (++) sk [v] rest) in *|].
  rewrite Hcur. exists v, r, [], (rows_in range vrs). split; [by eapply sorted_suffix|]. rewrite Ho in Hscan. cbn [scan_rows] in Hscan.
  split; [done|]. split; [done|]. split; [|split; [by constructor|]].
  - apply Forall_forall. intros e [He Hvr]%list_elem_of_filter. assert (holds v (key e)) by by eapply view_rows. auto.
  - intros Hre Hne k Hk. destruct (Hready Hre Hne) as (d & T & q' & HT & Hd & Hkd). apply starts_precedes.
    unfold passed in Hp. rewrite Forall_forall in Hp, Hk. destruct (Hp d Hd) as [Hsd _]. specialize (Hk d Hd). cbn in Hk.
    apply Hstarts; [eapply starts_mono; [exact Hsd|ord]|]. destruct sk as [|w sk]; cbn in HT; injection HT as <- <-; [left; by rewrite <- Hkd|].
    right. inv Hsk. assert (BytesRange.contains range (key d) = false) as Hno.
    { pose proof (aq_ok _ _ _ Hq) as Hoks. pose proof (aq_rows _ _ _ Hq) as Hrs. cbn in Hoks, Hrs. inv Hoks. inv Hrs.
      pose proof (view_range_ok w y ltac:(done) ltac:(done)) as Hw. rewrite H2 in Hw. rewrite Hkd. apply Hw. by apply vstart_held. }
    eapply ends_mono; [by apply not_contained_ends|ord].
Qed.

Lemma passed_snoc q returned d : passed q returned → starts_by range (key d) → Forall (λ w, key d ≼ vstart w) q → passed q (returned ++ [d]).
Proof. intros Hp Hs Hq. apply Forall_app. split; [done|]. by repeat constructor. Qed.

Lemma set_chain_queue it q rows cur : at_queue it q rows → at_queue (set_chain it (ri_tables it) cur) q rows.
Proof. by intros []. Qed.

(** [next_ascending] returns the next row. *)
Lemma run_next_ascending_ok fuel it returned l : opt_order opts = Ascending → asc_state false it returned l → length (ri_tables it) + (if ri_current it then 1 else 0) < fuel →
  match l with
  | [] => ∃ it', next_ascending fuel it = Ok (None, it') ∧ asc_state true it' returned []
  | e :: l => ∃ it', next_ascending fuel it = Ok (Some e, it') ∧ asc_state true it' (returned ++ [e]) l
  end.
Proof.
  intros Ho. revert it. induction fuel as [|fuel IH]; intros it (Hini & q & rows & Hq & Hpass & Hcur) Hfuel; [lia|]. cbn [next_ascending].
  destruct (ri_current it) as [s|] eqn:Hs.
  2:{ destruct Hcur as [-> ->]. exists it. split; [done|]. split; [done|]. exists [], rows. split; [done|]. split; [done|]. by rewrite Hs. }
  destruct Hcur as (v & r & retc & lc & Hsort & Hscan & -> & Hlc & Hretc & _).
  pose proof (scan_next s retc lc Hscan) as Hn. unfold it_next in Hn. cbn [sst_iterator] in Hn. destruct lc as [|e lc]; cbn [app].
  - destruct Hn as (s' & -> & Hscan'). run. destruct (asc_advance (set_chain it (ri_tables it) (Some s')) q rows) as (it' & -> & Hlen & Hst);
      [done|by apply set_chain_queue|done|by inv Hsort|]. run. specialize (Hst false returned Hpass ltac:(done)).
    apply IH; [done|]. cbn in Hlen. lia.
  - destruct Hn as (s' & -> & Hscan'). run. eexists. split; [done|]. apply Forall_cons in Hlc as [(Hh & Hin & Hr) Hlc].
    split; [done|]. exists q, rows. split; [by apply set_chain_queue|]. split.
    { apply passed_snoc; [done|by apply contains_starts|]. apply StronglySorted_cons in Hsort as [Hb _]. eapply Forall_impl; [exact Hb|].
      cbn. intros w Hw. by apply Hw. }
    cbn. exists v, r, (retc ++ [e]), lc. split; [done|]. split; [done|]. split; [done|]. split; [done|]. split.
    + intros k [Hk He]%Forall_app. apply Forall_app. auto.
    + intros _ _ k [_ He]%Forall_app. inv He. by apply (not_precedes _ (key e)).
Qed.

Definition dummy_row (k : bytes) : RowEntry := mkRow k Tombstone 0 None None.

(** The loop of [seek]: the tables that start below the key are passed; no row at or above it is lost. *)
Lemma seek_tables_ok fuel k it returned l : opt_order opts = Ascending →
  asc_state true it returned l → returned ≠ [] → Forall (λ e, key e ≺ k) returned → length (ri_tables it) ≤ fuel →
  ∃ it' returned' l', seek_tables fuel k it = Ok it' ∧ asc_state true it' returned' l' ∧ returned' ≠ [] ∧
    Forall (λ e, key e ≺ k) returned' ∧
    filter (λ e, ord_ltb (key e) k = false) l = filter (λ e, ord_ltb (key e) k = false) l' ∧
    match ri_tables it' with [] => True | w :: _ => k ≼ vstart w end.
Proof.
  intros Ho. revert it returned l. induction fuel as [|fuel IH]; intros it returned l Hst Hne Hk Hfuel.
  { destruct (ri_tables it) eqn:Ht; [|cbn in Hfuel; lia]. exists it, returned, l. cbn. rewrite Ht. done. }
  destruct Hst as (Hini & q & rows & Hq & Hpass & Hcur). pose proof (aq_tables _ _ _ Hq) as Htab. rewrite Ho in Htab. cbn in Htab.
  cbn [seek_tables]. rewrite Htab. destruct q as [|T q]; cbn [peek_next_table head].
  { exists it, returned, l. rewrite Htab. split; [done|]. split; [|done]. split; [done|]. by exists [], rows. }
  pose proof (aq_ok _ _ _ Hq) as Hoks. inv Hoks. destruct (vstart_held T) as [HhT HsT]; [done|]. rewrite HsT. run.
  destruct (ord_ltb (vstart T) k) eqn:HTk.
  2:{ exists it, returned, l. rewrite Htab. split; [done|]. split; [|split; [done|split; [done|split; [done|ord]]]]. split; [done|]. by exists (T :: q), rows. }
  destruct (ri_current it) as [s|] eqn:Hs; [|by destruct Hcur].
  destruct Hcur as (v & r & retc & lc & Hsort & Hscan & -> & Hlc & Hretc & _). apply StronglySorted_cons in Hsort as [Hbefore Hsort].
  destruct (asc_advance it (T :: q) rows) as (it1 & -> & Hlen & Hst1); [done..|]. run.
  assert (passed (T :: q) (returned ++ [dummy_row (vstart T)])) as Hpass1.
  { apply passed_snoc; [done| |].
    - destruct returned as [|e returned]; [done|]. apply Forall_cons in Hpass as [[Hse HeT] _]. inv HeT. by eapply starts_mono.
    - cbn. constructor; [ord|]. apply StronglySorted_cons in Hsort as [HT _]. eapply Forall_impl; [exact HT|]. cbn. intros w Hw. by apply Hw. }
  specialize (Hst1 true _ Hpass1). destruct (IH it1 (returned ++ [dummy_row (vstart T)]) (queue_rows rows)) as (it' & ret' & l' & Hsk & Hst' & Hne' & Hk' & Hf & Hhead).
  - apply Hst1. intros _ _. exists (dummy_row (vstart T)), T, q. split; [done|]. split; [|done]. apply elem_of_app. right. left.
  - by destruct returned.
  - apply Forall_app. split; [done|]. repeat constructor. cbn. ord.
  - rewrite Htab in Hlen, Hfuel. cbn in Hlen, Hfuel. lia.
  - exists it', ret', l'. split; [done|]. split; [done|]. split; [done|]. split; [done|]. split; [|done]. rewrite <- Hf, filter_app.
    rewrite list_filter_none; [done|]. eapply Forall_impl; [exact Hlc|]. cbn. intros e (Hh & _). apply Forall_cons in Hbefore as [HvT _].
    specialize (HvT _ Hh). assert (key e ≺ k) by ord. ord.
Qed.

Lemma queue_rows_elem rows e : e ∈ queue_rows rows → ∃ vrs, vrs ∈ rows ∧ e ∈ vrs ∧ BytesRange.contains range (key e) = true.
Proof.
  unfold queue_rows. intros (l & He & (vrs & -> & Hv)%list_elem_of_fmap)%elem_of_concat. apply list_elem_of_filter in He as [Hr He].
  by exists vrs.
Qed.

Lemma queue_row_view q rows e : Forall2 (view_readable store) q rows → e ∈ queue_rows rows →
  ∃ w, w ∈ q ∧ holds w (key e) ∧ BytesRange.contains range (key e) = true.
Proof.
  intros Hrows (vrs & Hv & He & Hr)%queue_rows_elem. apply list_elem_of_lookup_1 in Hv as [i Hi].
  destruct (Forall2_lookup_r _ _ _ _ _ Hrows Hi) as (w & Hw & Hread). exists w. split; [by eapply list_elem_of_lookup_2|].
  split; [by eapply view_rows|done].
Qed.

(** [seek] leaves exactly the rows at or above the key. *)
Lemma run_seek_ok k it returned l : opt_order opts = Ascending →
  asc_state true it returned l → returned ≠ [] → Forall (λ e, key e ≺ k) returned →
  ∃ it' returned', run_seek k it = Ok it' ∧ asc_state true it' returned' (filter (λ e, ord_ltb (key e) k = false) l) ∧
    Forall (λ e, key e ≺ k) returned'.
Proof.
  intros Ho Hst Hne Hk. unfold run_seek. rewrite (proj1 Hst). cbn [negb].
  destruct (seek_tables_ok (length (ri_tables it)) k it returned l) as (it1 & ret1 & l1 & -> & Hst1 & Hne1 & Hk1 & -> & Hhead); [done..|].
  run. destruct Hst1 as (Hini & q & rows & Hq & Hpass & Hcur). destruct (ri_current it1) as [s|] eqn:Hs.
  2:{ exists it1, ret1. destruct Hcur as [-> ->]. split; [done|]. split; [|done]. split; [done|]. exists [], rows. rewrite Hs. done. }
  destruct Hcur as (v & r & retc & lc & Hsort & Hscan & -> & Hlc & Hretc & Hpre).
  destruct (sst_scan_seek (mkSstView v r) s retc lc k) as (s' & retc' & -> & Hscan' & Hretc'); [done|by apply Hpre|by apply Hretc|]. run.
  destruct ret1 as [|e0 ret1]; [done|]. pose proof Hpass as [[Hs0 _] _]%Forall_cons.
  exists (set_chain it1 (ri_tables it1) (Some s')), ((e0 :: ret1) ++ ((λ x, dummy_row (ord_max (key e0) (key x))) <$> retc')).
  split; [done|]. split.
  2:{ apply Forall_app. split; [done|]. apply Forall_fmap. eapply Forall_impl; [exact Hretc'|]. cbn. intros x Hx.
      apply Forall_cons in Hk1 as [H0 _]. unfold ord_max. by destruct (ord_ltb _ _). }
  assert (Forall (λ w, k ≼ vstart w) q) as Hbeyond.
  { pose proof (aq_tables _ _ _ Hq) as Htab. rewrite Ho in Htab. cbn in Htab. rewrite Htab in Hhead. destruct q as [|T q]; [constructor|].
    constructor; [done|]. apply StronglySorted_cons in Hsort as [_ [HT _]%StronglySorted_cons]. pose proof (aq_ok _ _ _ Hq) as Hoks. inv Hoks.
    eapply Forall_impl; [exact HT|]. cbn. intros w Hw. specialize (Hw (vstart T) (proj1 (vstart_held T ltac:(done)))). ord. }
  split; [done|]. exists q, rows. split; [by apply set_chain_queue|]. split; [|cbn [ri_current set_chain]; exists v, r, retc', (filter (λ e, ord_ltb (key e) k = false) lc)].
  - apply Forall_app. split; [done|]. apply Forall_fmap. eapply Forall_impl; [exact Hretc'|]. cbn. intros x Hx.
    assert (key e0 ≼ ord_max (key e0) (key x) ∧ ord_max (key e0) (key x) ≺ k) as [Hge Hlt].
    { apply Forall_cons in Hk1 as [H0 _]. unfold ord_max. destruct (ord_ltb (key x) (key e0)) eqn:E; split; try done; ord. }
    split; [by eapply starts_mono|]. eapply Forall_impl; [exact Hbeyond|]. cbn. intros w Hw. ord.
  - split; [done|]. split; [done|]. split.
    { rewrite filter_app. f_equal. apply list_filter_all, Forall_forall. intros e He.
      destruct (queue_row_view q rows e (aq_rows _ _ _ Hq) He) as (w & Hw & Hh & _). rewrite Forall_forall in Hbeyond. specialize (Hbeyond w Hw).
      pose proof (aq_ok _ _ _ Hq) as Hoks. rewrite Forall_forall in Hoks. pose proof (vstart_le w _ (Hoks w Hw) Hh). ord. }
    split; [rewrite Forall_forall in Hlc; apply Forall_forall; intros e [_ He]%list_elem_of_filter; auto|]. split.
    + intros k' [_ Hk']%Forall_app. rewrite Forall_fmap in Hk'. eapply Forall_impl; [exact Hk'|]. cbn. intros x. unfold ord_max.
      destruct (ord_ltb (key x) (key e0)) eqn:E; [|done]. intros. ord.
    + intros _ _ k' [Hk' _]%Forall_app. by apply Hpre.
Qed.

(** ** Descending *)

Lemma regroup_run k run acc X : Forall (λ e, key e = k) run → Forall (λ e, key e = k) acc →
  regroup acc (run ++ X) = regroup (reverse run ++ acc) X.
Proof.
  intros Hrun. revert acc. induction Hrun as [|e run He Hrun IH]; intros acc Hacc; [done|].
  rewrite reverse_cons, <- app_assoc. cbn [app regroup]. destruct acc as [|a acc]; [apply IH; by repeat constructor|].
  rewrite decide_True; [apply IH; by constructor|]. apply Forall_cons in Hacc as [Ha _]. congruence.
Qed.

Lemma regroup_flush k acc X : Forall (λ e, key e = k) acc → (∀ e, head X = Some e → key e ≠ k) → regroup acc X = acc ++ regroup [] X.
Proof.
  intros Hacc HX. destruct X as [|e X]; cbn; [by rewrite app_nil_r|]. destruct acc as [|a acc]; [done|].
  rewrite decide_False; [done|]. apply Forall_cons in Hacc as [-> _]. by apply HX.
Qed.

Lemma regroup_head acc X a : head acc = Some a → Forall (λ e, key e = key a) acc → ∃ b, head (regroup acc X) = Some b ∧ key b = key a.
Proof.
  revert acc a. induction X as [|e X IH]; intros acc a Ha Hall; [by exists a|]. cbn. destruct acc as [|a' acc]; [done|]. injection Ha as ->.
  case_decide as He; [|by exists a]. destruct (IH (e :: a :: acc) e) as (b & Hb & Hk); [done| |exists b; split; [done|congruence]].
  rewrite He. by constructor.
Qed.

(** The first run of a key. *)
Lemma first_run k raw : ∃ run raw', raw = run ++ raw' ∧ Forall (λ e, key e = k) run ∧ (∀ e, head raw' = Some e → key e ≠ k).
Proof.
  induction raw as [|e raw (run & raw' & -> & Hrun & Hr)]; [by exists [], []|]. destruct (decide (key e = k)).
  - exists (e :: run), raw'. split; [done|]. split; [by constructor|done].
  - exists [], (e :: run ++ raw'). split; [done|]. split; [done|]. by intros ? [= <-].
Qed.

Lemma run_split_unique (k : bytes) (a b : list RowEntry) X Y : a ++ X = b ++ Y → Forall (λ e, key e = k) a → Forall (λ e, key e = k) b →
  (∀ e, head X = Some e → key e ≠ k) → (∀ e, head Y = Some e → key e ≠ k) → a = b ∧ X = Y.
Proof.
  intros Heq Ha. revert b Heq. induction Ha as [|e a He Ha IH]; intros b Heq Hb HX HY.
  - destruct Hb as [|e b He Hb]; [done|]. cbn in Heq. subst X. by destruct (HX e eq_refl).
  - destruct Hb as [|e' b He' Hb]; cbn in Heq.
    + subst Y. by destruct (HY e eq_refl).
    + injection Heq as -> Heq. destruct (IH b Heq Hb HX HY) as [-> ->]. done.
Qed.

(** The first group of a regrouped list is the first run of the list, turned around. *)
Lemma regroup_group k raw grp L : regroup [] raw = grp ++ L → Forall (λ e, key e = k) grp → (∀ e, head L = Some e → key e ≠ k) →
  ∃ raw', raw = reverse grp ++ raw' ∧ L = regroup [] raw' ∧ (∀ e, head raw' = Some e → key e ≠ k).
Proof.
  intros Heq Hgrp HL. destruct (first_run k raw) as (run & raw' & -> & Hrun & Hr).
  rewrite (regroup_run k), app_nil_r, (regroup_flush k) in Heq; try done; [|by apply Forall_reverse].
  destruct (run_split_unique k (reverse run) grp (regroup [] raw') L) as [<- <-]; [done|by apply Forall_reverse|done| |done|].
  - intros e He. destruct raw' as [|x raw']; [done|]. cbn in He. destruct (regroup_head [x] raw' x) as (b & Hb & Hk); [done|by repeat constructor|].
    assert (b = e) as -> by congruence. rewrite Hk. by apply Hr.
  - exists raw'. by rewrite reverse_involutive.
Qed.

(** The rows the current table has left. *)
Definition cur_at (vw : SstView) (it : SortedRunIterator F) (lc : list RowEntry) : Prop :=
  match ri_current it with None => lc = [] | Some s => ∃ retc, sst_scan vw Descending s retc lc end.

Lemma set_chain_same (it : SortedRunIterator F) : set_chain it (ri_tables it) (ri_current it) = it.
Proof. by destruct it. Qed.

(** The inner loop gathers the rows of one key. *)
Lemma table_entries_ok vw fuel it ne k entries lc : cur_at vw it lc → length (option_list ne ++ lc) < fuel →
  let L := option_list ne ++ lc in
  let kk := match k with Some _ => k | None => key <$> head L end in
  ∃ cur' grp L', let it' := set_chain it (ri_tables it) cur' in
    L = grp ++ L' ∧ Forall (λ e, Some (key e) = kk) grp ∧ (∀ e, head L' = Some e → Some (key e) ≠ kk) ∧
    (cur' = None → ri_current it = None) ∧ cur_at vw it' (tail L') ∧
    table_entries_loop fuel it ne k entries =
      Ok (kk, entries ++ grp, match L' with [] => Exhausted | e :: _ => NextKey e end, it').
Proof.
  revert it ne k entries lc. induction fuel as [|fuel IH]; intros it ne k entries lc Hcur Hfuel; [lia|]. cbn zeta. cbn [table_entries_loop].
  set (L := option_list ne ++ lc) in *.
  assert (∃ cur1, let it1 := set_chain it (ri_tables it) cur1 in (cur1 = None → ri_current it = None) ∧ cur_at vw it1 (tail L) ∧
    match ne with
    | Some e => mret (Some e, it)
    | None => match ri_current it with None => mret (None, it) | Some s => '(o, s) ← sst_next s; mret (o, set_chain it (ri_tables it) (Some s)) end
    end = Ok (E:=SlateDBError) (head L, it1)) as (cur1 & Hc1 & Hat1 & ->).
  { destruct ne as [e|]; cbn [option_list app] in L.
    - exists (ri_current it). cbn zeta. rewrite set_chain_same. done.
    - unfold cur_at in Hcur. destruct (ri_current it) as [s|] eqn:Hs.
      + destruct Hcur as [retc Hscan]. pose proof (scan_next s retc lc Hscan) as Hn. unfold it_next in Hn. cbn [sst_iterator] in Hn.
        destruct lc as [|e lc]; destruct Hn as (s' & -> & Hscan'); run; exists (Some s'); (split; [done|]); (split; [|done]); cbn; by eexists.
      + exists None. cbn zeta. rewrite <- Hs, set_chain_same. split; [done|]. subst L lc. split; [|done]. unfold cur_at. by rewrite Hs. }
  run. clearbody L. destruct L as [|e L]; cbn [head].
  { exists cur1, [], []. rewrite (app_nil_r entries). split; [done|]. split; [done|]. split; [done|]. split; [done|]. split; [done|]. by destruct k. }
  assert (∀ kk, Some (key e) = kk → ∃ cur' grp L', let it' := set_chain it (ri_tables it) cur' in
    e :: L = grp ++ L' ∧ Forall (λ e, Some (key e) = kk) grp ∧ (∀ e, head L' = Some e → Some (key e) ≠ kk) ∧
    (cur' = None → ri_current it = None) ∧ cur_at vw it' (tail L') ∧
    table_entries_loop fuel (set_chain it (ri_tables it) cur1) None kk (entries ++ [e]) =
      Ok (kk, entries ++ grp, match L' with [] => Exhausted | e :: _ => NextKey e end, it')) as Hrec.
  { intros kk <-. destruct (IH (set_chain it (ri_tables it) cur1) None (Some (key e)) (entries ++ [e]) L) as (cur' & grp & L' & HL' & Hg & Hh & Hc' & Hat' & Hrun);
      [done|cbn in Hfuel |- *; lia|]. change (L = grp ++ L') in HL'. exists cur', (e :: grp), L'. cbn zeta.
    split; [by rewrite HL'|]. split; [by constructor|]. split; [done|]. split; [intros Hn; by apply Hc1, Hc'|]. split; [done|].
    rewrite Hrun. by rewrite <- app_assoc. }
  destruct k as [k|]; [|by apply Hrec]. case_decide as Hk.
  - apply Hrec. congruence.
  - exists cur1, [], (e :: L). rewrite (app_nil_r entries). split; [done|]. split; [done|]. split; [intros ? [= <-]; congruence|]. done.
Qed.

Definition seen (v : SsTableView) (k : bytes) : Prop := holds v k ∧ BytesRange.contains range k = true.

(** The table at hand in a descending scan: [raw] are the rows it has left, last row first, [ne] the row
    read ahead; [k] is the key being gathered. *)
Definition desc_table (it : SortedRunIterator F) q rows (ne : option RowEntry) (k : option bytes) (raw : list RowEntry) : Prop :=
  at_queue it q rows ∧ ri_initialized it = true ∧
  match ri_current it with
  | None => q = [] ∧ raw = [] ∧ ne = None
  | Some _ => ∃ v r lc, StronglySorted (λ a b, runs_before b a) (v :: q) ∧ view_ok v ∧ cur_at (mkSstView v r) it lc ∧
      option_list ne ++ lc = regroup [] raw ∧ length raw ≤ loop_fuel store ∧ Forall (λ e, seen v (key e)) raw ∧
      (∀ κ, k = Some κ → seen v κ)
  end.

(** One run of the inner loop. *)
Lemma desc_entries it q rows ne k acc raw : desc_table it q rows ne k raw → SstScan.one_key acc k →
  ∃ kk grp how cur', let it' := set_chain it (ri_tables it) cur' in
    table_entries_loop (S (loop_fuel store)) it ne k [] = Ok (kk, grp, how, it') ∧ SstScan.one_key (grp ++ acc) kk ∧
    match how with
    | NextKey e => ∃ raw', desc_table it' q rows (Some e) None raw' ∧ grp ++ acc ≠ [] ∧
        ∀ X, regroup acc (raw ++ X) = (grp ++ acc) ++ regroup [] (raw' ++ X)
    | Exhausted => desc_table it' q rows None kk [] ∧ ∀ X, regroup acc (raw ++ X) = regroup (grp ++ acc) X
    end.
Proof.
  intros (Hq & Hini & Hcur) Hacc. destruct (ri_current it) as [s|] eqn:Hs.
  2:{ destruct Hcur as (-> & -> & ->). exists k, [], Exhausted, (ri_current it). cbn zeta. rewrite set_chain_same.
      cbn [table_entries_loop]. rewrite Hs. run. split; [done|]. split; [done|]. split; [|done]. split; [done|]. split; [done|]. by rewrite Hs. }
  destruct Hcur as (v & r & lc & Hsort & Hok & Hat & Hraw & Hlen & Hheld & Hk).
  destruct (table_entries_ok (mkSstView v r) (S (loop_fuel store)) it ne k [] lc Hat) as (cur' & grp & L & HL & Hgrp & Hhd & Hc' & Hat' & Hrun).
  { rewrite Hraw, regroup_perm. cbn. lia. }
  cbn [app] in Hrun. set (kk := match k with Some _ => k | None => key <$> head (option_list ne ++ lc) end) in *.
  rewrite Hs in Hc'. destruct cur' as [s'|]; [|by specialize (Hc' eq_refl)].
  destruct kk as [κ|] eqn:Hkk.
  2:{ destruct k as [k|]; [done|]. unfold kk in Hkk. destruct (option_list ne ++ lc) as [|e0 ?]; [|done].
      destruct grp; [|done]. destruct L; [|done]. exists None, [], Exhausted, (Some s'). split; [exact Hrun|]. split; [done|].
      assert (raw = []) as -> by (apply Permutation_nil_r; rewrite Hraw; symmetry; apply (regroup_perm [])). split; [|done].
      split; [by apply set_chain_queue|]. split; [done|]. cbn [ri_current set_chain]. exists v, r, []. done. }
  assert (Forall (λ e, key e = κ) grp) as Hg. { eapply Forall_impl; [exact Hgrp|]. cbn. congruence. }
  assert (∀ e, head L = Some e → key e ≠ κ) as Hh. { intros e He Hke. apply (Hhd e He). congruence. }
  assert (Forall (λ e, key e = κ) acc) as Ha.
  { unfold SstScan.one_key in Hacc. destruct k as [k|]; [|by subst acc]. unfold kk in Hkk. injection Hkk as ->. by apply Hacc. }
  rewrite Hraw in HL. destruct (regroup_group κ raw grp L HL Hg Hh) as (raw' & Hr & -> & Hhr).
  assert (seen v κ) as Hvk.
  { unfold kk in Hkk. destruct k as [k|]; [apply Hk; congruence|]. rewrite Hraw in Hkk. destruct (regroup [] raw) as [|e0 l0] eqn:Hrg; [done|].
    injection Hkk as <-. rewrite Forall_forall in Hheld. apply Hheld. apply (elem_of_Permutation_proper e0 _ _ (regroup_perm [] raw)). rewrite Hrg. left. }
  assert (grp ++ acc ≠ []) as Hne.
  { unfold SstScan.one_key in Hacc. destruct k as [k|]; [destruct Hacc as [? _]; by destruct grp, acc|]. unfold kk in Hkk. rewrite Hraw, HL in Hkk.
    destruct grp; [|done]. cbn [app] in Hkk. destruct (regroup [] raw') as [|e1 l1]; [done|]. intros _. apply (Hh e1 eq_refl). cbn in Hkk. congruence. }
  assert (∀ X, regroup acc (raw ++ X) = regroup (grp ++ acc) (raw' ++ X)) as HX.
  { intros X. rewrite Hr, <- app_assoc, (regroup_run κ); [by rewrite reverse_involutive|by apply Forall_reverse|done]. }
  exists (Some κ), grp, (match regroup [] raw' with [] => Exhausted | e :: _ => NextKey e end), (Some s').
  split; [exact Hrun|]. split; [split; [done|by apply Forall_app]|].
  assert (∀ κ', Some κ = Some κ' → seen v κ') as Hk' by (intros ? [= <-]; done).
  assert (Forall (λ e, seen v (key e)) raw') as Hheld' by (rewrite Hr in Hheld; by apply Forall_app in Hheld as [_ ?]).
  assert (length raw' ≤ loop_fuel store) as Hlen' by (rewrite Hr, length_app in Hlen; lia).
  destruct (regroup [] raw') as [|e l] eqn:Hrg.
  - assert (raw' = []) as -> by (apply Permutation_nil_r; rewrite <- Hrg; symmetry; apply (regroup_perm [])).
    split; [|exact HX]. split; [by apply set_chain_queue|]. split; [done|]. cbn [ri_current set_chain]. exists v, r, []. done.
  - exists raw'. split; [|split; [done|]].
    + split; [by apply set_chain_queue|]. split; [done|]. cbn [ri_current set_chain]. exists v, r, l. split; [done|]. split; [done|]. by rewrite Hrg.
    + intros X. rewrite HX. apply (regroup_flush κ); [by apply Forall_app|]. intros e' He'. apply Hhr. destruct raw'; [done|]. exact He'.
Qed.

(** The rows of a queue in the range, last row first. *)
Definition queue_rows_desc (rows : list (list RowEntry)) : list RowEntry := concat ((λ vrs, reverse (rows_in range vrs)) <$> rows).

Lemma queue_desc_app a b : queue_rows_desc (a ++ b) = queue_rows_desc a ++ queue_rows_desc b.
Proof. unfold queue_rows_desc. by rewrite fmap_app, concat_app. Qed.

Lemma queue_desc_skipped sk : Forall (λ vrs, rows_in range vrs = []) sk → queue_rows_desc sk = [].
Proof. unfold queue_rows_desc. induction 1 as [|vrs sk Hv _ IH]; [done|]. cbn [fmap list_fmap concat]. by rewrite Hv, IH. Qed.

Lemma queue_desc_perm rows : queue_rows_desc rows ≡ₚ queue_rows rows.
Proof.
  unfold queue_rows_desc, queue_rows. induction rows as [|vrs rows IH]; [done|]. cbn [fmap list_fmap concat]. by rewrite reverse_Permutation, IH.
Qed.

Lemma view_rows_fuel v vrs : view_readable store v vrs → length (rows_in range vrs) ≤ loop_fuel store.
Proof.
  intros (idx & blks & rss & nfs & Htw & _ & _ & _ & -> & _). pose proof (tw_fuel _ _ _ _ _ Htw) as Hf. unfold rows_in.
  pose proof (length_filter (λ e, BytesRange.contains range (key e) = true) (filter (λ e, holds v (key e)) (concat rss))).
  pose proof (length_filter (λ e, holds v (key e)) (concat rss)). lia.
Qed.

(** Opening the next table in a descending scan. *)
Lemma desc_advance it q rows k : opt_order opts = Descending → at_queue it q rows → ri_initialized it = true →
  StronglySorted (λ a b, runs_before b a) q →
  (∀ κ, k = Some κ → ∃ T, head q = Some T ∧ seen T κ) →
  ∃ it' q' rows' raw', advance_table it = Ok it' ∧ desc_table it' q' rows' None k raw' ∧ ri_descending it' = ri_descending it ∧
    queue_rows_desc rows = raw' ++ queue_rows_desc rows' ∧ length q' ≤ pred (length q) ∧
    (if ri_current it' then length q' < length q else raw' ++ queue_rows_desc rows' = []).
Proof.
  intros Ho Hq Hini Hqsort Hk. destruct (advance_ok it q rows Hq) as (it' & sk & rest & skr & rr & Hadv & Hqs & -> & Hsk & Hskr & Hd & Hi' & Hrest).
  rewrite Hini in Hi'. rewrite queue_desc_app, (queue_desc_skipped skr) by done. cbn [app].
  assert (StronglySorted (λ a b, runs_before b a) rest) as Hsort by (rewrite Hqs in Hqsort; by eapply sorted_suffix).
  destruct rest as [|v rest], rr as [|vrs rr]; try done.
  { destruct Hrest as [Hq' Hc']. exists it', [], [], []. split; [done|]. split; [|split; [done|]; split; [done|]; split; [cbn; lia|by rewrite Hc']].
    split; [done|]. split; [done|]. by rewrite Hc'. }
  destruct Hrest as (Hq' & Hread & Hok & r & s & s' & Hr & Hinit & Hc' & Hscan). rewrite Hini in Hc'. rewrite Ho in Hscan.
  exists it', rest, rr, (reverse (rows_in range vrs)). split; [done|]. split; [|split; [done|]; split; [done|]; split; subst q; rewrite length_app; [cbn; lia|rewrite Hc'; cbn; lia]].
  split; [done|]. split; [done|]. rewrite Hc'. exists v, r, (scan_rows Descending (rows_in range vrs)). split; [done|]. split; [done|].
  split; [unfold cur_at; rewrite Hc'; by exists []|]. split; [done|]. split; [rewrite length_reverse; by eapply view_rows_fuel|]. split.
  - apply Forall_reverse, Forall_forall. intros e [He Hv]%list_elem_of_filter. split; [by eapply view_rows|done].
  - intros κ Hκ. destruct (Hk κ Hκ) as (T & HT & [HTk Hrk]). destruct sk as [|w sk]; subst q; cbn in HT; injection HT as ->; [by split|]. exfalso.
    pose proof (aq_ok _ _ _ Hq) as Hoks. pose proof (aq_rows _ _ _ Hq) as Hrs. cbn in Hoks, Hrs. inv Hoks. inv Hrs. inv Hsk.
    match goal with Hx : view_readable store T ?y, Hy : calculate_view_range T range = None |- _ => pose proof (view_range_ok T y Hx ltac:(done)) as Hw; rewrite Hy in Hw end.
    by rewrite (Hw κ HTk) in Hrk.
Qed.

Lemma desc_table_sorted it q rows ne k raw : desc_table it q rows ne k raw → StronglySorted (λ a b, runs_before b a) q.
Proof.
  intros (_ & _ & Hcur). destruct (ri_current it); [|destruct Hcur as (-> & _); constructor]. destruct Hcur as (v & r & lc & Hs & _). by inv Hs.
Qed.

(** When the next table does not hold a key of the current one, no later table does. *)
Lemma not_spanned v q rows κ : StronglySorted (λ a b, runs_before b a) (v :: q) → view_ok v → Forall view_ok q →
  Forall2 (view_readable store) q rows → holds v κ → (∀ T, head q = Some T → ¬ holds T κ) →
  ∀ e, head (queue_rows_desc rows) = Some e → key e ≠ κ.
Proof.
  intros Hsort Hokv Hoks Hrows Hv HT e He <-. apply head_Some_elem_of in He. rewrite queue_desc_perm in He.
  destruct (queue_row_view q rows e Hrows He) as (w & Hw & Hh & _). destruct q as [|T q]; [by apply not_elem_of_nil in Hw|].
  apply elem_of_cons in Hw as [->|Hw]; [by apply (HT T)|]. apply StronglySorted_cons in Hsort as [Hbv [HbT _]%StronglySorted_cons].
  apply Forall_cons in Hbv as [HvT _]. apply Forall_cons in Hoks as [HokT _]. rewrite Forall_forall in HbT.
  destruct (vstart_held T HokT) as [HhT _]. specialize (HbT w Hw (key e) Hh). specialize (HvT (vstart T) HhT).
  pose proof (vstart_le v (key e) Hokv Hv) as Hle. apply (HT T eq_refl). assert (key e = vstart T) as -> by ord. exact HhT.
Qed.

Lemma prepend_ok (it : SortedRunIterator F) acc ne entries : ri_descending it = Some (mkDescState acc ne) →
  prepend_table_entries it entries = Ok (set_descending it (mkDescState (entries ++ acc) ne)).
Proof. intros Hd. unfold prepend_table_entries. by rewrite Hd. Qed.

(** [buffer_next_descending_key] gathers the rows of the next key, from as many tables as hold it. *)
Lemma buffer_loop_ok fuel it q rows ne k acc raw : opt_order opts = Descending →
  desc_table it q rows ne k raw → ri_descending it = Some (mkDescState acc None) → SstScan.one_key acc k → length q < fuel →
  ∃ it' q' rows' ne' acc' raw', buffer_loop fuel it ne k = Ok it' ∧ desc_table it' q' rows' ne' None raw' ∧
    ri_descending it' = Some (mkDescState acc' ne') ∧
    regroup acc (raw ++ queue_rows_desc rows) = acc' ++ regroup [] (raw' ++ queue_rows_desc rows') ∧
    (acc' = [] → raw' ++ queue_rows_desc rows' = []).
Proof.
  intros Ho. revert it q rows ne k acc raw. induction fuel as [|fuel IH]; intros it q rows ne k acc raw Htab Hd Hacc Hfuel; [lia|].
  destruct (desc_entries it q rows ne k acc raw Htab Hacc) as (kk & grp & how & cur' & Hrun & Hone & Hhow). cbn [buffer_loop].
  rewrite (aq_store _ _ _ (proj1 Htab)), Hrun. run. destruct how as [|e].
  2:{ cbn. rewrite Hd. cbn. destruct Hhow as (raw' & Htab' & Hne & HX). eexists _, q, rows, (Some e), (grp ++ acc), raw'. split; [done|].
      split; [|split; [done|]; split; [apply HX|]; done]. destruct Htab' as (Hq' & Hi' & Hc'). split; [by destruct Hq'|]. split; [done|exact Hc']. }
  destruct Hhow as [Htab1 HX]. rewrite (prepend_ok _ acc None) by done. run.
  set (it1 := set_descending (set_chain it (ri_tables it) cur') (mkDescState (grp ++ acc) None)).
  assert (desc_table it1 q rows None kk []) as Htab2.
  { destruct Htab1 as (Hq' & Hi' & Hc'). split; [by destruct Hq'|]. split; [done|exact Hc']. }
  assert (ri_descending it1 = Some (mkDescState (grp ++ acc) None)) as Hd1 by done.
  rewrite HX. clearbody it1. clear Htab Hd Hacc Hrun Htab1 HX. destruct kk as [κ|].
  - destruct Hone as [Hne Hall]. pose proof (peek_queue q) as Hpeek. rewrite Ho in Hpeek. rewrite (aq_tables _ _ _ (proj1 Htab2)), Ho, Hpeek.
    destruct (match head q with Some T => BytesRange.contains (effective_range T) κ | None => false end) eqn:Hspan.
    + destruct (head q) as [T|] eqn:HT; [|done]. destruct (desc_advance it1 q rows (Some κ) Ho (proj1 Htab2) (proj1 (proj2 Htab2)) (desc_table_sorted _ _ _ _ _ _ Htab2)) as (it2 & q2 & rows2 & raw2 & -> & Htab3 & Hd3 & Hqr & Hlen & Hcnt).
      { intros ? [= <-]. exists T. split; [done|]. split; [done|]. destruct Htab2 as (_ & _ & Hc). destruct (ri_current it1); [|by destruct Hc as [-> _]].
        destruct Hc as (v & r & lc & _ & _ & _ & _ & _ & _ & Hk). by apply Hk. }
      run. rewrite Hqr. eapply IH; [exact Htab3|by rewrite Hd3|done|]. destruct q; [done|]. cbn in *. lia.
    + eexists it1, q, rows, None, (grp ++ acc), []. split; [done|]. split.
      { destruct Htab2 as (Hq & Hi & Hc). split; [done|]. split; [done|]. destruct (ri_current it1); [|done].
        destruct Hc as (v & r & lc & H1 & H2 & H3 & H4 & H5 & H6 & _). by exists v, r, lc. }
      split; [done|]. split; [|done]. apply (regroup_flush κ); [done|]. destruct Htab2 as (Hq & _ & Hc). cbn [app].
      destruct (ri_current it1); [|destruct Hc as (-> & _); pose proof (aq_rows _ _ _ Hq) as Hr; inv Hr; done].
      destruct Hc as (v & r & lc & Hsort & Hokv & _ & _ & _ & _ & Hk). eapply (not_spanned v q rows κ); [done|done|apply Hq|apply Hq|by apply Hk|].
      intros T HT Hh. rewrite HT in Hspan. congruence.
  - cbn in Hone. rewrite Hone in *. destruct (desc_advance it1 q rows None Ho (proj1 Htab2) (proj1 (proj2 Htab2)) (desc_table_sorted _ _ _ _ _ _ Htab2)) as (it2 & q2 & rows2 & raw2 & -> & Htab3 & Hd3 & Hqr & Hlen & Hnone); [done|].
    run. rewrite Hqr. destruct (ri_current it2) eqn:Hc.
    + eapply IH; [exact Htab3|by rewrite Hd3|done|]. lia.
    + eexists _, q2, rows2, None, [], raw2. split; [done|]. split; [done|]. split; [by rewrite Hd3|]. done.
Qed.

Definition desc_state (it : SortedRunIterator F) (l : list RowEntry) : Prop :=
  ∃ q rows ne acc raw, desc_table it q rows ne None raw ∧ ri_descending it = Some (mkDescState acc ne) ∧
    l = acc ++ regroup [] (raw ++ queue_rows_desc rows).

(** [next_descending] returns the next row. *)
Lemma next_descending_ok it l : opt_order opts = Descending → desc_state it l →
  ∃ it', next_descending it = Ok (head l, it') ∧ desc_state it' (tail l).
Proof.
  intros Ho (q & rows & ne & acc & raw & Htab & Hd & ->). unfold next_descending. rewrite Hd. run. cbn [current_key_entries].
  assert (∃ it' q' rows' ne' acc' raw', match acc with [] => buffer_next_descending_key it | _ => Ok it end = Ok it' ∧
    desc_table it' q' rows' ne' None raw' ∧ ri_descending it' = Some (mkDescState acc' ne') ∧
    acc ++ regroup [] (raw ++ queue_rows_desc rows) = acc' ++ regroup [] (raw' ++ queue_rows_desc rows') ∧
    (acc' = [] → raw' ++ queue_rows_desc rows' = [])) as (it' & q' & rows' & ne' & acc' & raw' & -> & Htab' & Hd' & -> & Hemp).
  { destruct acc as [|e acc]; [|by exists it, q, rows, ne, (e :: acc), raw]. unfold buffer_next_descending_key. rewrite Hd. run. cbn [current_key_entries next_key_first_entry].
    set (it0 := set_descending it (mkDescState [] None)). assert (desc_table it0 q rows ne None raw) as Htab0.
    { destruct Htab as (Hq & Hi & Hc). split; [by destruct Hq|]. split; [done|exact Hc]. }
    eapply (buffer_loop_ok _ it0 q rows ne None [] raw); [done|done|done|done|]. rewrite (aq_tables _ _ _ (proj1 Htab)), in_order_length. lia. }
  run. rewrite Hd'. run. cbn [current_key_entries next_key_first_entry]. destruct acc' as [|e acc'].
  - rewrite (Hemp eq_refl). cbn. exists it'. split; [done|]. exists q', rows', ne', [], raw'. by rewrite (Hemp eq_refl).
  - eexists. split; [done|]. exists q', rows', ne', acc', raw'. split; [|done]. destruct Htab' as (Hq & Hi & Hc). split; [by destruct Hq|]. split; [done|exact Hc].
Qed.

Definition run_state (it : SortedRunIterator F) (returned l : list RowEntry) : Prop :=
  match o with Ascending => asc_state true it returned l | Descending => desc_state it l end.

Lemma run_next_ok it returned l : run_state it returned l →
  match l with
  | [] => ∃ it', run_next it = Ok (None, it') ∧ run_state it' returned []
  | e :: l => ∃ it', run_next it = Ok (Some e, it') ∧ run_state it' (returned ++ [e]) l
  end.
Proof.
  unfold run_state, run_next, ri_order. destruct o eqn:Ho.
  - intros Hst. pose proof Hst as (Hini & q & rows & Hq & _). rewrite Hini, (aq_options _ _ _ Hq), Ho. cbn [negb].
    apply run_next_ascending_ok; [done| |destruct (ri_current it); lia]. destruct Hst as (? & q0 & rows0 & Hq0 & Hp & Hc). split; [done|].
    exists q0, rows0. split; [done|]. split; [done|]. destruct (ri_current it); [|done]. destruct Hc as (v & r & retc & lc & H1 & H2 & H3 & H4 & H5 & _).
    by exists v, r, retc, lc.
  - intros Hst. pose proof Hst as (q & rows & ne & acc & raw & (Hq & Hini & _) & _). rewrite Hini, (aq_options _ _ _ Hq), Ho. cbn [negb].
    destruct (next_descending_ok it l Ho Hst) as (it' & Hn & Hst'). destruct l; by exists it'.
Qed.

Lemma in_order_twice {A} (l : list A) : in_order o (in_order o l) = l.
Proof. destruct o; [done|]. apply reverse_involutive. Qed.

Lemma queue_desc_reverse rows : queue_rows_desc (reverse rows) = reverse (queue_rows rows).
Proof.
  unfold queue_rows. induction rows as [|vrs rows IH]; [done|]. rewrite reverse_cons, queue_desc_app, IH. cbn [fmap list_fmap concat].
  rewrite reverse_app. f_equal. unfold queue_rows_desc. cbn [fmap list_fmap concat]. by rewrite app_nil_r.
Qed.

(** Opening a table before [init] and initializing it there is opening it after [init]. *)
Lemma init_advance (it it' : SortedRunIterator F) : ri_initialized it = false → advance_table (set_initialized it (ri_current it)) = Ok it' →
  ∃ it1, advance_table it = Ok it1 ∧ run_init it1 = Ok it'.
Proof.
  intros Hi. unfold advance_table, ri_order. cbn [set_initialized ri_tables ri_range ri_options ri_store ri_initialized]. rewrite Hi.
  destruct (pop_sst _ _ _ _) as [[vw|] tables]; run; [|intros [= <-]; eexists; split; [done|]; unfold run_init; cbn; by rewrite Hi].
  intros (cur & (s & Hs & [= <-])%bind_Ok_inv & Hrest)%bind_Ok_inv. apply bind_Ok_inv in Hrest as (cur' & (s' & Hs' & [= <-])%bind_Ok_inv & [= <-]).
  rewrite Hs. run. eexists. split; [done|]. unfold run_init. cbn. rewrite Hi, Hs'. done.
Qed.

(** A run of tables opens at its first row. *)
Lemma chain_opens views vrss : run_ok views → Forall2 (view_readable store) views vrss →
  ∃ it it', run_iterator_new views range store opts = Ok it ∧ run_init it = Ok it' ∧ run_state it' [] (scan_rows o (queue_rows vrss)).
Proof.
  intros Hok Hread. unfold run_iterator_new, run_state.
  set (d := match o with Ascending => None | Descending => Some (mkDescState [] None) end).
  set (it0 := mkRunIter store opts views range None d false). set (q := in_order o views). set (rows := in_order o vrss).
  assert (at_queue (set_initialized it0 None) q rows) as Hq.
  { split; [done|done|done|symmetry; apply in_order_twice| |].
    - unfold q. destruct o; [apply Hok|]. apply Forall_reverse, Hok.
    - unfold q, rows. destruct o; [done|]. by apply Forall2_reverse. }
  enough (∃ it', advance_table (set_initialized it0 None) = Ok it' ∧
    match o with Ascending => asc_state true it' [] (scan_rows o (queue_rows vrss)) | Descending => desc_state it' (scan_rows o (queue_rows vrss)) end)
    as (it' & Hadv & Hst).
  { destruct (init_advance it0 it' eq_refl Hadv) as (it1 & H1 & H2). by exists it1, it'. }
  unfold q, rows in *. destruct o eqn:Ho.
  - destruct (asc_advance (set_initialized it0 None) views vrss) as (it' & Hadv & _ & Hst); [done|done|done|by apply run_sorted|].
    exists it'. split; [done|]. apply Hst; [constructor|done].
  - destruct (desc_advance (set_initialized it0 None) (reverse views) (reverse vrss) None) as (it' & q' & rows' & raw' & Hadv & Htab & Hd & Hqr & _ & _);
      [done|done|done|by apply StronglySorted_reverse, run_sorted|done|].
    exists it'. split; [done|]. exists q', rows', None, [], raw'. split; [done|]. split; [done|]. cbn [app scan_rows]. by rewrite <- Hqr, queue_desc_reverse.
Qed.

Lemma queue_rows_part vrss a b : a ≤ b → b ≤ length vrss → (∀ i vrs, vrss !! i = Some vrs → ¬ (a ≤ i < b) → rows_in range vrs = []) →
  queue_rows (take (b - a) (drop a vrss)) = rows_in range (concat vrss).
Proof.
  intros Hab Hb Hout. trans (queue_rows vrss).
  2:{ unfold queue_rows. clear. induction vrss as [|vrs vrss IH]; [done|]. cbn [fmap list_fmap concat]. rewrite IH. unfold rows_in. by rewrite filter_app. }
  rewrite <- (take_drop a vrss) at 2. rewrite <- (take_drop (b - a) (drop a vrss)) at 2. rewrite drop_drop, !queue_rows_app.
  rewrite (queue_rows_skipped (take a vrss)), (queue_rows_skipped (drop _ vrss)); [by rewrite app_nil_r|..]; apply Forall_forall.
  - intros vrs [i Hi]%list_elem_of_lookup_1. rewrite lookup_drop in Hi. eapply Hout; [exact Hi|lia].
  - intros vrs [i [Hi Hlt]%lookup_take_Some]%list_elem_of_lookup_1. eapply Hout; [exact Hi|lia].
Qed.

Lemma run_ok_part views a n : run_ok views → run_ok (take n (drop a views)).
Proof.
  intros [Hv Ho]. split; [by apply Forall_take, Forall_drop|]. intros i j v w k s Hij [Hi _]%lookup_take_Some [Hj _]%lookup_take_Some.
  rewrite lookup_drop in Hi, Hj. apply (Ho (a + i) (a + j)); [lia|done..].
Qed.

(** A sorted run opens at the first row of the range. *)
Lemma run_opens id views vrss : run_ok views → Forall2 (view_readable store) views vrss →
  ∃ it it', run_iterator_new_owned range (mkRun id views) store opts = Ok it ∧ run_init it = Ok it' ∧
    run_state it' [] (scan_rows o (rows_in range (concat vrss))).
Proof.
  intros Hok Hread. destruct (covering_tables_ok views range Hok Hrange) as (a & b & Hab & Hle & Hb & Hcov & _).
  unfold run_iterator_new_owned, into_tables_covering_range. cbn [sst_views]. rewrite Hab. run. unfold slice. rewrite decide_True by done. cbn [fst snd]. run.
  destruct (chain_opens (take (b - a) (drop a views)) (take (b - a) (drop a vrss))) as (it & it' & Hn & Hi & Hst);
    [by apply run_ok_part|by apply Forall2_take, Forall2_drop|]. exists it, it'. split; [done|]. split; [done|].
  rewrite queue_rows_part in Hst; [done|done|by rewrite <- (Forall2_length _ _ _ Hread)|].
  intros i vrs Hi' Hnot. apply list_filter_none, Forall_forall. intros e He Hc. destruct (Forall2_lookup_r _ _ _ _ _ Hread Hi') as (v & Hv & Hr).
  apply Hnot. eapply Hcov; [exact Hv|by eapply view_rows|done].
Qed.
End runs.

(** ** The iterator's relation *)

Definition scan_options_ok (opts : SstIteratorOptions) (range : BytesRange.t) : Prop :=
  0 < max_fetch_tasks opts ∧ 0 < target_bytes_to_fetch opts ∧ BytesRange.non_empty range = true ∧
  (∀ p k, opt_prefix opts = Some p → BytesRange.contains range k = true → p `prefix_of` k).

Definition run_scan {B F} `{FilterTraits B F} (o : IterationOrder) (it : SortedRunIterator F) (returned l : list RowEntry) : Prop :=
  ∃ store opts range, scan_options_ok opts range ∧ opt_order opts = o ∧ run_state store opts range it returned l.

Global Instance run_scan_next {B F} `{FilterTraits B F} o : Scan (run_scan (F:=F) o).
Proof.
  intros it returned l (store & opts & range & Hok & Ho & Hst). pose proof Hok as (Hm & Ht & Hr & Hp).
  pose proof (run_next_ok store opts range Hm Ht Hr Hp it returned l Hst) as Hn. unfold it_next. cbn [sorted_run_iterator].
  destruct l; destruct Hn as (it' & -> & Hst'); exists it'; (split; [done|]); by exists store, opts, range.
Qed.

Global Instance run_scan_advance {B F} `{FilterTraits B F} : ScanAdvance (run_scan (F:=F) Ascending).
Proof.
  intros it0 it returned e l k Hrel Hn Hk. pose proof (scan_next_rel (run_scan Ascending) _ _ _ _ _ Hrel Hn) as (store & opts & range & Hok & Ho & Hst).
  pose proof Hok as (Hm & Ht & Hr & Hp). unfold run_state in Hst. rewrite Ho in Hst. unfold it_seek. cbn [sorted_run_iterator].
  destruct (run_seek_ok store opts range Hm Ht Hr Hp k it (returned ++ [e]) l Ho Hst) as (it' & ret' & -> & Hst' & Hk'); [by destruct returned|done|].
  exists it', ret'. split; [done|]. split; [|done]. exists store, opts, range. split; [done|]. split; [done|]. unfold run_state. by rewrite Ho.
Qed.

(** A view of a table that was written shows the rows of its range. *)
Lemma written_view_readable `{SstCodecLaws} {B F} `{FilterTraits B F} (ts : TableStore (B:=B) (F:=F)) (fuel : nat)
    (id view_id : Ulid) (es : list RowEntry) h data visible eff :
  format_ok (ts_format ts) → Forall storable es → StronglySorted (row_le Ascending) es → rows_fit es → policies_ok (ts_format ts) es →
  es ≠ [] → write_table (ts_format ts) id es = Ok (h, data) → (Z.of_nat (length data) < 2 ^ 64)%Z →
  (∀ tag, blob_reads (ts_object ts id tag) data ∧ ts_object ts id tag = ts_object ts id None) → 2 * length es + 2 ≤ fuel →
  match visible with
  | Some vis => (∀ k, BytesRange.contains eff k = true → BytesRange.contains vis k = true) ∧
                (∀ e, e ∈ es → BytesRange.contains vis (key e) = true → BytesRange.contains eff (key e) = true)
  | None => ∀ e, e ∈ es → BytesRange.contains eff (key e) = true
  end →
  view_readable (reads_of ts fuel) (mkView view_id h visible eff) (rows_in eff (stored_rows (table_format (ts_format ts)) es)).
Proof.
  intros Hfmt Hst Hsorted Hfit Hpol Hne Hwr Hlen Hobj Hfuel Hvis.
  assert (keys_sorted (key <$> es)) as Hkeys by by apply rows_keys_sorted.
  destruct (write_table_readable (ts_format ts) id es h data (ts_object ts id None) Hfmt Hst Hkeys Hfit Hpol Hwr Hlen (proj1 (Hobj None)))
    as (Hid & bss & idx & Hr).
  assert (length bss ≤ length es) as Hbs by (rewrite <- (tr_rows _ _ _ _ _ _ Hr); apply length_blocks, (tr_nonempty _ _ _ _ _ _ Hr)).
  destruct (readable_table_rows ts fuel (ts_object ts id None) h es bss idx) as (blks & nfs & Htw & Hnf & Hsound); [|done|done|lia|].
  { intros tag. rewrite Hid. apply Hobj. }
  exists idx, blks, (stored_rows (table_format (ts_format ts)) <$> bss), nfs. cbn [view_sst visible_range effective_range].
  rewrite stored_concat, (tr_rows _ _ _ _ _ _ Hr). split; [done|]. split.
  { intros Hnil. apply Hne. rewrite <- (tr_rows _ _ _ _ _ _ Hr). by destruct bss. }
  split; [done|]. split; [done|]. split; [done|]. destruct visible as [vis|].
  - destruct Hvis as [Hsub Hsup]. split; [done|]. intros e (e' & He & ->)%stored_elem. by apply Hsup.
  - intros e (e' & He & ->)%stored_elem. by apply Hvis.
Qed.

(** Two views of one table: the keys below [b], and the keys from [b]. *)
Module RunExample.

Definition handle : SsTableHandle := Example.written.1.
Definition below : BytesRange.t := BytesRange.mk (range_new Unbounded (Excluded [98%Z])).
Definition from : BytesRange.t := BytesRange.mk (range_new (Included [98%Z]) Unbounded).
Definition physical : BytesRange.t := BytesRange.mk (range_new (Included [97%Z]) Unbounded).
Definition lower : BytesRange.t := default BytesRange.new_empty (BytesRange.intersect physical below).
Definition upper : BytesRange.t := default BytesRange.new_empty (BytesRange.intersect physical from).
Definition views : list SsTableView := [mkView 1 handle (Some below) lower; mkView 2 handle (Some from) upper].
Definition shown : list (list RowEntry) := [rows_in lower Example.rows; rows_in upper Example.rows].
Definition range : BytesRange.t := BytesRange.mk (range_new (Included [97%Z]) Unbounded).

Lemma shown_within x r k : BytesRange.intersect physical x = Some r → BytesRange.contains r k = true → BytesRange.contains x k = true.
Proof. intros Hi Hc. destruct (intersect_some _ _ _ Hi) as (_ & Hb & _). rewrite Hb in Hc. by apply andb_true_iff in Hc as [_ ?]. Qed.

Lemma views_ok : run_ok views.
Proof.
  split.
  - constructor; [exists [97%Z]; by split|constructor; [exists [98%Z]; by split|constructor]].
  - intros i j v w k s Hij Hv Hw Hk Hs. destruct i as [|[|i]], j as [|[|j]]; try lia; try done. injection Hv as <-. injection Hw as <-.
    injection Hs as <-. apply (shown_within below lower k eq_refl) in Hk. apply andb_true_iff in Hk as [_ Hk].
    unfold end_admits in Hk. cbn [below BytesRange.inner range_new range_end end_inner] in Hk. ord.
Qed.

Lemma readable : Forall2 (view_readable (reads_of StoreExample.store 20)) views shown.
Proof.
  destruct Example.written_ok as [E Hlen].
  assert (∀ vid vis eff, (∀ k, BytesRange.contains eff k = true → BytesRange.contains vis k = true) →
    (∀ e, e ∈ Example.rows → BytesRange.contains vis (key e) = true → BytesRange.contains eff (key e) = true) →
    view_readable (reads_of StoreExample.store 20) (mkView vid handle (Some vis) eff) (rows_in eff Example.rows)) as Hone.
  { intros vid vis eff H1 H2. apply (written_view_readable StoreExample.store 20 7 vid Example.rows handle Example.written.2 (Some vis) eff).
    - exact Example.format_accepted.
    - exact Example.rows_storable.
    - repeat constructor; vm_compute; discriminate.
    - exact Example.rows_small.
    - exact Example.rows_sound.
    - discriminate.
    - exact E.
    - exact Hlen.
    - intros tag. split; [exact (Example.blob_ok _)|reflexivity].
    - cbn. lia.
    - by split. }
  constructor; [|constructor; [|constructor]].
  - apply Hone; [intros k; exact (shown_within below lower k eq_refl)|].
    apply (proj1 (Forall_forall (λ e, BytesRange.contains below (key e) = true → BytesRange.contains lower (key e) = true) Example.rows)). by repeat constructor.
  - apply Hone; [intros k; exact (shown_within from upper k eq_refl)|].
    apply (proj1 (Forall_forall (λ e, BytesRange.contains from (key e) = true → BytesRange.contains upper (key e) = true) Example.rows)). by repeat constructor.
Qed.

End RunExample.

(** C24: Scanning a sorted run.  For a run whose views are in order (neighbours may share a boundary key)
    and can be read, and whatever non-empty range is asked for, the iterator returns exactly the rows
    the views show in the range: ascending, or descending by key with the versions of a key newest
    first even where they span several tables.  Only the tables that can hold a key of the range are
    opened, one at a time; a forward seek of an ascending scan leaves exactly the rows at or above the
    key, whichever tables it skips. *)
Theorem sorted_run_scans {B F} `{FilterTraits B F} (store : TableReads F) opts range id views vrss :
  run_ok views → Forall2 (view_readable store) views vrss → StronglySorted (row_le Ascending) (concat vrss) → scan_options_ok opts range →
  let o := opt_order opts in
  let rows := rows_in range (concat vrss) in
  let out := scan_rows o rows in
  StronglySorted (row_le o) out ∧ out ≡ₚ rows ∧
  ∃ it it', run_iterator_new_owned range (mkRun id views) store opts = Ok it ∧ run_init it = Ok it' ∧ yields it' out ∧
    (o = Ascending → ∀ n k, 0 < n ≤ length out → Forall (λ e, key e ≺ k) (take n out) →
       ∃ it1 it2, advance_by n it' = Ok it1 ∧ run_seek k it1 = Ok it2 ∧ yields it2 (filter (λ e, ord_ltb (key e) k = false) (drop n out))).
Proof.
  intros Hok Hread Hsort Hopts o rows out. destruct (scan_rows_sorted o rows) as [Ho Hp].
  { eapply StronglySorted_sublist; [apply sublist_filter|done]. }
  split; [exact Ho|]. split; [exact Hp|]. pose proof Hopts as (Hm & Ht & Hr & Hpre).
  destruct (run_opens store opts range Hm Ht Hr Hpre id views vrss Hok Hread) as (it & it' & Hn & Hi & Hst).
  assert (run_scan o it' [] out) as Hscan by by exists store, opts, range.
  exists it, it'. split; [done|]. split; [done|]. split; [exact (scan_yields (run_scan o) it' [] out Hscan)|].
  intros Hasc n k Hnl Hk. rewrite Hasc in Hscan. exact (advance_seek (run_scan Ascending) n k it' out Hscan Hnl Hk).
Qed.

Lemma sorted_run_scans_witness :
  ∃ it' : SortedRunIterator Bloom.BloomFilter, yields it' (scan_rows Descending (rows_in (RunExample.range) (concat RunExample.shown))) ∧
    length (rows_in RunExample.range (concat RunExample.shown)) = 4.
Proof.
  destruct (sorted_run_scans (reads_of StoreExample.store 20) (mkSstOptions 2 30 true true true Descending None None) RunExample.range 0 RunExample.views RunExample.shown)
    as (_ & _ & it & it' & _ & _ & Hy & _).
  - exact RunExample.views_ok.
  - exact RunExample.readable.
  - repeat constructor; vm_compute; discriminate.
  - split; [cbn; lia|]. split; [cbn; lia|]. split; [reflexivity|]. intros p k [=].
  - exists it'. split; [exact Hy|]. vm_compute. reflexivity.
Defined.
