(* ===== verification/ReadSources.v ===== *)
(** * The sources of a read ([filter_iterator.rs], [segment_iterator.rs], [db_iter.rs])

    What a read of the tree merges or walks: the filter on sequence numbers, the iterators over the L0
    views and the sorted runs of a segment, the chain of segments of a range scan, and the walk over
    sources of a point lookup.  A boxed iterator is the sum of the iterators that are boxed there. *)

From S2P Require Export SortedRunIter Manifest MergeOperator.

(** ** [FilterIterator] *)

Record FilterIterator (I : Type) := mkFilter { fi_iterator : I; fi_predicate : RowEntry → bool }.
Arguments mkFilter {I} _ _.
Arguments fi_iterator {I} _.
Arguments fi_predicate {I} _.

Definition seq_at_most (max_seq : option Z) (e : RowEntry) : bool :=
  match max_seq with Some s => (seq e <=? s)%Z | None => true end.

(** [FilterIterator::new_with_max_seq] *)
Definition new_with_max_seq {I} (it : I) (max_seq : option Z) : FilterIterator I := mkFilter it (seq_at_most max_seq).

(** The loop of [FilterIterator::next] *)
Fixpoint filter_next {I} `{RowEntryIterator I} (fuel : nat) (f : FilterIterator I) : result (option RowEntry * FilterIterator I) :=
  match fuel with
  | O => OutOfFuel
  | S fuel =>
      '(o, it) ← it_next (fi_iterator f);
      let f := mkFilter it (fi_predicate f) in
      match o with
      | Some e => if fi_predicate f e then mret (Some e, f) else filter_next fuel f
      | None => mret (None, f)
      end
  end.

Definition filter_iterator {I} `{RowEntryIterator I} (fuel : nat) : RowEntryIterator (FilterIterator I) := {|
  it_init f := it ← it_init (fi_iterator f); mret (mkFilter it (fi_predicate f));
  it_next := filter_next fuel;
  it_seek k f := it ← it_seek k (fi_iterator f); mret (mkFilter it (fi_predicate f));
|}.

(** ** [GetIterator]

    The sources in the order they are walked, each initialized when the walk reaches it.  Sources
    that are initialized ahead are still handed out in order, so the lookahead is not observable. *)

Record GetIterator (S : Type) := mkGet { get_key : bytes; get_sources : list S; get_current : option S }.
Arguments mkGet {S} _ _ _.
Arguments get_key {S} _.
Arguments get_sources {S} _.
Arguments get_current {S} _.

Section get_iterator.
  Context {S : Type} `{RowEntryIterator S}.

(** [GetIterator::with_lookahead] *)
Definition get_new (k : bytes) (sources : list S) : GetIterator S := mkGet k sources None.

(** The loop of [GetIterator::next], with a source at hand. *)
Fixpoint get_walk (k : bytes) (sources : list S) (cur : S) : result (option RowEntry * GetIterator S) :=
  '(o, cur) ← it_next cur;
  match o with
  | Some e =>
      mret match value e with
           | Value _ => (Some e, mkGet k [] None)
           | Tombstone => (None, mkGet k [] None)
           | Merge _ => (Some e, mkGet k sources (Some cur))
           end
  | None =>
      match sources with
      | [] => mret (None, mkGet k [] None)
      | s :: sources => s ← it_init s; get_walk k sources s
      end
  end.

(** [GetIterator::next] *)
Definition get_next (g : GetIterator S) : result (option RowEntry * GetIterator S) :=
  match get_current g with
  | Some cur => get_walk (get_key g) (get_sources g) cur
  | None =>
      match get_sources g with
      | [] => mret (None, g)
      | s :: sources => s ← it_init s; get_walk (get_key g) sources s
      end
  end.

(** [GetIterator::seek] *)
Definition get_seek (k : bytes) (g : GetIterator S) : result (GetIterator S) :=
  if decide (k = get_key g) then mret g
  else range ← BytesRange.new (Included (get_key g)) (Included (get_key g)); Err (SeekKeyOutOfRange k range).

Global Instance get_iterator : RowEntryIterator (GetIterator S) := {
  it_init g := mret g;
  it_next := get_next;
  it_seek := get_seek;
}.
End get_iterator.

(** [Iterator::filter] with a fallible test *)
Fixpoint filterM {A} (p : A → result bool) (l : list A) : result (list A) :=
  match l with
  | [] => mret []
  | x :: l => b ← p x; l ← filterM p l; mret (if b : bool then x :: l else l)
  end.

(** The binary heap of every merge: [Heap I] holds the entries of a merge of iterators [I]. *)
Class HeapFamily (Heap : Type → Type) := heap_of :: ∀ I, MinHeap (HeapEntry I) (Heap I).
(** The entries of one merge are compared in its order [o]. *)
Class HeapFamilyLaws (Heap : Type → Type) `{HeapFamily Heap} (o : IterationOrder) : Prop := heap_laws :: ∀ I, MinHeapLaws (@he_cmp I o).

Section sources.
  Context {B F : Type} `{FilterTraits B F} (Heap : Type → Type) `{HeapFamily Heap} (fuel : nat).

(** ** The tables of a tree *)

(** The iterators boxed for the L0 views and the sorted runs of a tree. *)
Inductive LeafIterator := LeafSst (s : SstIterator F) | LeafRun (r : SortedRunIterator F).

Global Instance leaf_iterator : RowEntryIterator LeafIterator := {
  it_init l := match l with
               | LeafSst s => s ← it_init s; mret (LeafSst s)
               | LeafRun r => r ← it_init r; mret (LeafRun r)
               end;
  it_next l := match l with
               | LeafSst s => '(o, s) ← it_next s; mret (o, LeafSst s)
               | LeafRun r => '(o, r) ← it_next r; mret (o, LeafRun r)
               end;
  it_seek k l := match l with
                 | LeafSst s => s ← it_seek k s; mret (LeafSst s)
                 | LeafRun r => r ← it_seek k r; mret (LeafRun r)
                 end;
}.

(** [SegmentScanContext]; how many iterators are built at once and the segment named in the options
    do not change what is read. *)
Record SegmentScanContext := mkContext {
  ctx_store : TableReads F;
  ctx_range : BytesRange.t;
  ctx_options : SstIteratorOptions;
}.

Definition leaf_of (o : option (SstIterator F)) : list LeafIterator := LeafSst <$> option_list o.

(** [build_l0_point_iters] *)
Definition build_l0_point_iters (views : list SsTableView) (ctx : SegmentScanContext) : result (list LeafIterator) :=
  os ← mapM (λ v, sst_iterator_new_owned (ctx_range ctx) v (ctx_store ctx) (ctx_options ctx)) views;
  mret (os ≫= leaf_of).

(** [build_sr_point_iters] *)
Definition build_sr_point_iters (k : bytes) (runs : list SortedRun) (ctx : SegmentScanContext) : result (list LeafIterator) :=
  its ← mapM (λ sr, views ← tables_covering_point_key (sst_views sr) k; build_l0_point_iters views ctx) runs;
  mret (concat its).

(** [build_l0_range_iters] *)
Definition build_l0_range_iters (views : list SsTableView) (ctx : SegmentScanContext) : result (list LeafIterator) :=
  os ← mapM (λ v, sst_iterator_new_owned_initialized (ctx_range ctx) v (ctx_store ctx) (ctx_options ctx)) views;
  mret (os ≫= leaf_of).

(** [build_sr_range_iters] *)
Definition build_sr_range_iters (runs : list SortedRun) (ctx : SegmentScanContext) : result (list LeafIterator) :=
  overlapping ← filterM (λ sr, overlaps_range (sst_views sr) (ctx_range ctx)) runs;
  mapM (λ sr, r ← run_iterator_new_owned (ctx_range ctx) sr (ctx_store ctx) (ctx_options ctx);
              r ← run_init r; mret (LeafRun r)) overlapping.

(** ** A chain of segments *)

Definition TreeMerge : Type := MergeIterator LeafIterator (Heap LeafIterator).
Local Instance tree_merge_iterator : RowEntryIterator TreeMerge := merge_iterator fuel.

Inductive SegmentIterState := Pending (t : LsmTreeState) | Built (m : TreeMerge).

Record SegmentMergeIterator := mkSegIter {
  sg_children : list (bytes * SegmentIterState);
  sg_context : SegmentScanContext;
  sg_order : IterationOrder;
  sg_pending_seek : option bytes;
  sg_initialized : bool;
}.

(** [SegmentMergeIterator::new] *)
Definition segment_iter_new (segs : list Segment) (ctx : SegmentScanContext) : SegmentMergeIterator :=
  let order := opt_order (ctx_options ctx) in
  let children := (λ s, (seg_prefix s, Pending (seg_tree s))) <$> segs in
  mkSegIter (match order with Ascending => children | Descending => reverse children end) ctx order None false.

Definition set_children (it : SegmentMergeIterator) (children : list (bytes * SegmentIterState)) : SegmentMergeIterator :=
  mkSegIter children (sg_context it) (sg_order it) (sg_pending_seek it) (sg_initialized it).

(** [SegmentMergeIterator::count_before] *)
Definition count_before (it : SegmentMergeIterator) (k : bytes) : result nat :=
  match sg_order it with
  | Ascending =>
      after ← slice_partition_point (λ c, mret (ord_leb c.1 k)) (sg_children it);
      match after with
      | O => mret 0
      | S n => c ← expect (sg_children it !! n); mret (if starts_with k c.1 then n else S n)
      end
  | Descending => slice_partition_point (λ c, mret (ord_ltb k c.1)) (sg_children it)
  end.

(** [RangeTreeIterators::build], the merge over them, its [init] and the pending seek *)
Definition build_tree (t : LsmTreeState) (ctx : SegmentScanContext) (pending_seek : option bytes) : result TreeMerge :=
  l0 ← build_l0_range_iters (l0 t) ctx;
  sr ← build_sr_range_iters (compacted t) ctx;
  m ← it_init (with_dedup (merge_new_with_order (l0 ++ sr) (opt_order (ctx_options ctx))) false);
  match pending_seek with Some k => it_seek k m | None => mret m end.

(** [SegmentMergeIterator::ensure_front_built] *)
Definition ensure_front_built (it : SegmentMergeIterator) : result (option TreeMerge * SegmentMergeIterator) :=
  match sg_children it with
  | [] => mret (None, it)
  | (p, Pending t) :: rest =>
      m ← build_tree t (sg_context it) (sg_pending_seek it);
      mret (Some m, set_children it ((p, Built m) :: rest))
  | (_, Built m) :: _ => mret (Some m, it)
  end.

Definition set_front (it : SegmentMergeIterator) (m : TreeMerge) : SegmentMergeIterator :=
  match sg_children it with
  | (p, _) :: rest => set_children it ((p, Built m) :: rest)
  | [] => it
  end.

(** The loop of [SegmentMergeIterator::next]: every turn but the last takes a child. *)
Fixpoint segment_next_loop (n : nat) (it : SegmentMergeIterator) : result (option RowEntry * SegmentMergeIterator) :=
  match n with
  | O => OutOfFuel
  | S n =>
      '(child, it) ← ensure_front_built it;
      match child with
      | None => mret (None, it)
      | Some m =>
          '(o, m) ← it_next m;
          match o with
          | Some e => mret (Some e, set_front it m)
          | None => segment_next_loop n (set_children it (tail (sg_children it)))
          end
      end
  end.

Definition segment_next (it : SegmentMergeIterator) : result (option RowEntry * SegmentMergeIterator) :=
  if negb (sg_initialized it) then Err IteratorNotInitialized
  else segment_next_loop (S (length (sg_children it))) it.

(** [SegmentMergeIterator::seek] *)
Definition segment_seek (k : bytes) (it : SegmentMergeIterator) : result SegmentMergeIterator :=
  if negb (sg_initialized it) then Err IteratorNotInitialized
  else
    let it := mkSegIter (sg_children it) (sg_context it) (sg_order it) (Some k) (sg_initialized it) in
    drop_count ← count_before it k;
    let it := set_children it (drop drop_count (sg_children it)) in
    let was_pending := match sg_children it with (_, Pending _) :: _ => true | _ => false end in
    '(child, it) ← ensure_front_built it;
    match child with
    | Some m => if was_pending then mret it else m ← it_seek k m; mret (set_front it m)
    | None => mret it
    end.

Global Instance segment_merge_iterator : RowEntryIterator SegmentMergeIterator := {
  it_init it := mret (mkSegIter (sg_children it) (sg_context it) (sg_order it) (sg_pending_seek it) true);
  it_next := segment_next;
  it_seek := segment_seek;
}.

(** ** [build_segment_iter] *)

(** [apply_filters] on an iterator: boxed as it is, or in a filter. *)
Inductive FilteredIterator (I : Type) := Unfiltered (it : I) | Filtered (f : FilterIterator I).
Global Arguments Unfiltered {I} _.
Global Arguments Filtered {I} _.

Local Instance filtered_iterator {I} `{RowEntryIterator I} : RowEntryIterator (FilteredIterator I) := {|
  it_init x := match x with
               | Unfiltered it => it ← it_init it; mret (Unfiltered it)
               | Filtered f => f ← it_init (RowEntryIterator:=filter_iterator fuel) f; mret (Filtered f)
               end;
  it_next x := match x with
               | Unfiltered it => '(o, it) ← it_next it; mret (o, Unfiltered it)
               | Filtered f => '(o, f) ← it_next (RowEntryIterator:=filter_iterator fuel) f; mret (o, Filtered f)
               end;
  it_seek k x := match x with
                 | Unfiltered it => it ← it_seek k it; mret (Unfiltered it)
                 | Filtered f => f ← it_seek (RowEntryIterator:=filter_iterator fuel) k f; mret (Filtered f)
                 end;
|}.

Definition apply_filter {I} (max_seq : option Z) (it : I) : FilteredIterator I :=
  match max_seq with
  | Some s => Filtered (new_with_max_seq it (Some s))
  | None => Unfiltered it
  end.

(** [apply_filters] *)
Definition apply_filters {I} (its : list I) (max_seq : option Z) : list (FilteredIterator I) := apply_filter max_seq <$> its.

(** [GetIterator::from_lsm_tree] *)
Definition from_lsm_tree (k : bytes) (t : LsmTreeState) (ctx : SegmentScanContext) (max_seq : option Z)
    : result (GetIterator (FilteredIterator LeafIterator)) :=
  l0 ← build_l0_point_iters (l0 t) ctx;
  sr ← build_sr_point_iters k (compacted t) ctx;
  mret (get_new k (apply_filters (l0 ++ sr) max_seq)).

Inductive SegmentIterator :=
  | SegPoint (g : GetIterator (FilteredIterator LeafIterator))
  | SegNone
  | SegRange (it : SegmentMergeIterator).

Global Instance segment_iterator : RowEntryIterator SegmentIterator := {
  it_init x := match x with
               | SegPoint g => g ← it_init g; mret (SegPoint g)
               | SegNone => mret SegNone
               | SegRange it => it ← it_init it; mret (SegRange it)
               end;
  it_next x := match x with
               | SegPoint g => '(o, g) ← it_next g; mret (o, SegPoint g)
               | SegNone => mret (None, SegNone)
               | SegRange it => '(o, it) ← it_next it; mret (o, SegRange it)
               end;
  it_seek k x := match x with
                 | SegPoint g => g ← it_seek k g; mret (SegPoint g)
                 | SegNone => mret SegNone
                 | SegRange it => it ← it_seek k it; mret (SegRange it)
                 end;
}.

(** [build_segment_iter] *)
Definition build_segment_iter (segs : list Segment) (ctx : SegmentScanContext) (max_seq : option Z) : result SegmentIterator :=
  match BytesRange.as_point (ctx_range ctx) with
  | Some k =>
      match last segs with
      | Some s => g ← from_lsm_tree k (seg_tree s) ctx max_seq; mret (SegPoint g)
      | None => mret SegNone
      end
  | None => mret (SegRange (segment_iter_new segs ctx))
  end.
End sources.

(** ** Filtered scans *)

Section filter_scan.
  Context {I : Type} `{RowEntryIterator I} (rel : I → list RowEntry → list RowEntry → Prop) `{!Scan rel}.

(** The rows the filter lets through; an ascending iterator below it has passed no key it still has. *)
Definition filter_scan (fuel : nat) (o : IterationOrder) (f : FilterIterator I) (returned l : list RowEntry) : Prop :=
  ∃ ret' l', rel (fi_iterator f) ret' l' ∧ l = filter (λ e, fi_predicate f e = true) l' ∧ length l' < fuel ∧
    (o = Ascending → StronglySorted (λ a b, key a ≼ key b) l' ∧ ∀ a b, a ∈ ret' → b ∈ l' → key a ≼ key b).

Definition passed_over (ret' l' : list RowEntry) : Prop :=
  StronglySorted (λ a b, key a ≼ key b) l' ∧ ∀ a b, a ∈ ret' → b ∈ l' → key a ≼ key b.

Lemma passed_over_cons ret' e l' : passed_over ret' (e :: l') → passed_over (ret' ++ [e]) l' ∧ Forall (λ a, key a ≼ key e) ret'.
Proof.
  intros [Hs Hc]. apply StronglySorted_cons in Hs as [He Hs]. rewrite Forall_forall in He. split; [split; [done|]|].
  - intros a b [Ha| ->%list_elem_of_singleton]%elem_of_app Hb; [apply Hc; [done|by right]|by apply He].
  - apply Forall_forall. intros a Ha. apply Hc; [done|left].
Qed.

(** One call of [next]: it ends with a row of the iterator below, or at its end. *)
Lemma filter_next_ok n f ret' l' : rel (fi_iterator f) ret' l' → length l' < n →
  match filter (λ e, fi_predicate f e = true) l' with
  | [] => ∃ f' ret2, filter_next n f = Ok (None, f') ∧ fi_predicate f' = fi_predicate f ∧ rel (fi_iterator f') ret2 []
  | e :: l =>
      ∃ f' i0 skipped l2, filter_next n f = Ok (Some e, f') ∧ fi_predicate f' = fi_predicate f ∧
        l' = skipped ++ e :: l2 ∧ l = filter (λ e, fi_predicate f e = true) l2 ∧
        rel i0 (ret' ++ skipped) (e :: l2) ∧ it_next i0 = Ok (Some e, fi_iterator f')
  end.
Proof.
  revert f ret' l'. induction n as [|n IH]; intros f ret' l' Hrel Hn; [lia|]. cbn [filter_next].
  pose proof (scan_next _ _ _ Hrel) as Hx. destruct l' as [|e l'].
  - destruct Hx as (it' & -> & Hrel'). run. cbn. by exists (mkFilter it' (fi_predicate f)), ret'.
  - destruct Hx as (it' & Hnx & Hrel'). rewrite Hnx. run. cbn [fi_predicate]. rewrite filter_cons. destruct (fi_predicate f e) eqn:He.
    + rewrite decide_True by done. exists (mkFilter it' (fi_predicate f)), (fi_iterator f), [], l'. rewrite app_nil_r. done.
    + rewrite decide_False by done. specialize (IH (mkFilter it' (fi_predicate f)) (ret' ++ [e]) l' Hrel' ltac:(cbn in Hn; lia)). cbn [fi_predicate] in IH.
      destruct (filter _ l') as [|e2 l2]; [done|]. destruct IH as (f' & i0 & sk & l3 & H1 & H2 & -> & H4 & H5 & H6).
      exists f', i0, (e :: sk), l3. rewrite <- app_assoc in H5. done.
Qed.

Lemma filter_scan_next fuel o : Scan (H:=filter_iterator fuel) (filter_scan fuel o).
Proof.
  intros f returned l (ret' & l' & Hrel & -> & Hlen & Hord). unfold it_next. cbn [filter_iterator].
  pose proof (filter_next_ok fuel f ret' l' Hrel Hlen) as Hx. destruct (filter _ l') as [|e l] eqn:Hf.
  - destruct Hx as (f' & ret2 & -> & Hp & Hr). exists f'. split; [done|]. exists ret2, []. split; [done|]. split; [done|]. cbn. split; [lia|].
    intros _. split; [constructor|]. intros a b _ Hb. by apply not_elem_of_nil in Hb.
  - destruct Hx as (f' & i0 & sk & l2 & -> & Hp & -> & -> & Hr & Hn). exists f'. split; [done|].
    exists ((ret' ++ sk) ++ [e]), l2. split; [by eapply scan_next_rel|]. rewrite Hp. split; [done|].
    split; [rewrite length_app in Hlen; cbn in Hlen; lia|]. intros Ho. destruct (Hord Ho) as [Hs Hc].
    apply StronglySorted_app in Hs as (Hcross & _ & Hs). apply (passed_over_cons (ret' ++ sk) e l2). split; [done|].
    intros a b [Ha|Ha]%elem_of_app Hb; [apply Hc; [done|]; apply elem_of_app; by right|by apply Hcross].
Qed.

Lemma filter_scan_advance fuel `{!ScanAdvance rel} : ScanAdvance (H:=filter_iterator fuel) (filter_scan fuel Ascending).
Proof.
  intros f0 f returned e l k (ret' & l' & Hrel & Hl & Hlen & Hord) Hn Hk. unfold it_next in Hn. cbn [filter_iterator] in Hn.
  destruct (Hord eq_refl) as [Hs Hc]. pose proof (filter_next_ok fuel f0 ret' l' Hrel Hlen) as Hx. rewrite <- Hl in Hx.
  destruct Hx as (f' & i0 & sk & l2 & Hn' & Hp & -> & -> & Hr & Hi). rewrite Hn in Hn'. injection Hn' as <-.
  apply StronglySorted_app in Hs as (Hcross & _ & Hs).
  assert (passed_over (ret' ++ sk) (e :: l2)) as Hpass.
  { split; [done|]. intros a b [Ha|Ha]%elem_of_app Hb; [apply Hc; [done|]; apply elem_of_app; by right|by apply Hcross]. }
  destruct (passed_over_cons _ _ _ Hpass) as [[Hs2 _] Hle]. apply Forall_app in Hk as [_ [Hek _]%Forall_cons].
  destruct (scan_advance i0 (fi_iterator f) (ret' ++ sk) e l2 k Hr Hi) as (it' & ret2 & Hsk & Hr2 & Hk2).
  { apply Forall_app. split; [|by repeat constructor]. eapply Forall_impl; [exact Hle|]. cbn. intros a Ha. revert Ha Hek. ord. }
  unfold it_seek. cbn [filter_iterator]. rewrite Hsk. run. exists (mkFilter it' (fi_predicate f)), []. split; [done|]. split; [|constructor].
  exists ret2, (filter (λ e, ord_ltb (key e) k = false) l2). split; [done|]. cbn [fi_predicate]. rewrite Hp. split.
  - rewrite !list_filter_filter. apply list_filter_iff. tauto.
  - pose proof (length_filter (λ e, ord_ltb (key e) k = false) l2). rewrite length_app in Hlen. cbn in Hlen. split; [lia|]. intros _. split.
    + eapply StronglySorted_sublist; [apply sublist_filter|done].
    + intros a b Ha [Hb _]%list_elem_of_filter. rewrite Forall_forall in Hk2. specialize (Hk2 a Ha). cbn in Hk2. revert Hk2 Hb. ord.
Qed.
End filter_scan.

(** ** Leaves *)

Definition leaf_scan {B F} `{FilterTraits B F} (o : IterationOrder) (x : LeafIterator (F:=F)) (returned l : list RowEntry) : Prop :=
  match x with
  | LeafSst s => ∃ view, sst_scan view o s returned l
  | LeafRun r => run_scan o r returned l
  end.

Global Instance leaf_scan_next {B F} `{FilterTraits B F} o : Scan (leaf_scan (F:=F) o).
Proof.
  intros [s|r] returned l Hrel; unfold it_next; cbn [leaf_iterator leaf_scan] in *.
  - destruct Hrel as [view Hrel]. pose proof (scan_next s returned l Hrel) as Hn.
    destruct l; destruct Hn as (s' & -> & Hrel'); run; exists (LeafSst s'); (split; [done|]); by exists view.
  - pose proof (scan_next r returned l Hrel) as Hn. destruct l; destruct Hn as (r' & -> & Hrel'); run; by exists (LeafRun r').
Qed.

Global Instance leaf_scan_advance {B F} `{FilterTraits B F} : ScanAdvance (leaf_scan (F:=F) Ascending).
Proof.
  intros x0 x returned e l k Hrel Hn Hk. unfold it_next in Hn. destruct x0 as [s0|r0]; cbn [leaf_iterator leaf_scan] in *;
    apply bind_Ok_inv in Hn as ([o y] & Hi & Hn); injection Hn as -> <-; unfold it_seek; cbn [leaf_iterator].
  - destruct Hrel as [view Hrel]. destruct (scan_advance s0 y returned e l k Hrel Hi Hk) as (y' & ret' & -> & Hr & Hk'). run.
    exists (LeafSst y'), ret'. split; [done|]. split; [|done]. by exists view.
  - destruct (scan_advance r0 y returned e l k Hrel Hi Hk) as (y' & ret' & -> & Hr & Hk'). run. by exists (LeafRun y'), ret'.
Qed.

Lemma scan_rows_nil o l : scan_rows o l = [] → l = [].
Proof.
  destruct o; [done|]. cbn. intros Hr. apply Permutation_nil_r. rewrite <- Hr. rewrite regroup_perm. symmetry. apply reverse_Permutation.
Qed.

(** An iterator that opens on [l]. *)
Definition opens {I} `{RowEntryIterator I} (rel : I → list RowEntry → list RowEntry → Prop) (it : I) (l : list RowEntry) : Prop :=
  ∃ it', it_init it = Ok it' ∧ rel it' [] l.

(** The views of the L0, and of each sorted run, with the rows they show. *)
Record tree_readable {B F} `{FilterTraits B F} (store : TableReads F) (t : LsmTreeState)
    (l0rows : list (list RowEntry)) (srrows : list (list (list RowEntry))) : Prop := {
  tr_l0 : Forall2 (view_readable store) (l0 t) l0rows;
  tr_l0_ok : Forall view_ok (l0 t);
  tr_sr : Forall2 (λ sr vrss, run_ok (sst_views sr) ∧ Forall2 (view_readable store) (sst_views sr) vrss) (compacted t) srrows;
}.

(** The rows of each table and run of a tree in a range. *)
Definition tree_leaves (range : BytesRange.t) (l0rows : list (list RowEntry)) (srrows : list (list (list RowEntry))) : list (list RowEntry) :=
  (rows_in range <$> l0rows) ++ ((λ vrss, rows_in range (concat vrss)) <$> srrows).

Section leaves.
  Context {B F : Type} `{FilterTraits B F} (store : TableReads F) (opts : SstIteratorOptions) (range : BytesRange.t).
  Context (Hopts : scan_options_ok opts range).
  Local Notation o := (opt_order opts).
  Local Notation ctx := (mkContext store range opts).

(** A view, opened on demand. *)
Lemma new_owned_opens v vrs : view_readable store v vrs → view_ok v →
  ∃ x, sst_iterator_new_owned range v store opts = Ok x ∧
    match x with
    | None => rows_in range vrs = []
    | Some s => ∃ view s', sst_init s = Ok s' ∧ sst_scan view o s' [] (scan_rows o (rows_in range vrs))
    end.
Proof using Hopts.
  intros Hread Hok. destruct Hopts as (Hm & Ht & Hr & Hp). unfold sst_iterator_new_owned, internal_new_owned.
  destruct (calculate_view_range v range) as [r|] eqn:Hc.
  - destruct (view_opens store opts range Hm Ht Hr Hp v vrs r Hread Hok Hc) as (s & s' & Hnew & Hinit & Hscan).
    unfold sst_iterator_new in Hnew. apply bind_Ok_inv in Hnew as (it & Hit & Hnew). injection Hnew as <-. rewrite Hit. run.
    exists (Some (from_internal it)). split; [done|]. by exists (mkSstView v r), s'.
  - run. exists None. split; [done|]. by eapply view_skipped.
Qed.

(** Initializing a second time changes nothing. *)
Lemma sst_init_again view s0 s l : sst_init s0 = Ok s → (if s is FilterSst _ fe _ then is_filtered_out fe = false else True) →
  sst_scan (F:=F) view o s [] l → sst_init s = Ok s.
Proof.
  intros Hi Hout Hscan. assert (∀ it : InternalSstIterator F, internal_scan view o it [] l → it_init it = Ok it) as Hagain.
  { intros it Hit. pose proof (scan_next it [] l Hit) as Hn. unfold it_init. cbn [internal_sst_iterator]. unfold internal_init.
    destruct (si_initialized it) eqn:Hini; [done|]. exfalso. unfold it_next in Hn. cbn [internal_sst_iterator] in Hn. unfold internal_next in Hn.
    rewrite Hini in Hn. cbn in Hn. destruct l; by destruct Hn as (? & ? & _). }
  destruct s as [it|it fe b]; cbn [sst_scan sst_init] in *; [by rewrite Hagain|]. rewrite Hout in Hscan.
  destruct b; [done|]. exfalso. destruct s0 as [i0|i0 fe0 [|]]; cbn [sst_init] in Hi; [by apply bind_Ok_inv in Hi as (? & _ & [=])|done|].
  apply bind_Ok_inv in Hi as (fs & _ & Hi). apply bind_Ok_inv in Hi as (fe1 & _ & Hi). destruct (is_filtered_out fe1) eqn:Hf.
  - injection Hi as <- <-. congruence.
  - by apply bind_Ok_inv in Hi as (? & _ & [=]).
Qed.

(** A view, opened at once. *)
Lemma new_owned_initialized_opens v vrs : view_readable store v vrs → view_ok v →
  ∃ x, sst_iterator_new_owned_initialized range v store opts = Ok x ∧
    match x with
    | None => rows_in range vrs = []
    | Some s => ∃ view, sst_init s = Ok s ∧ sst_scan view o s [] (scan_rows o (rows_in range vrs))
    end.
Proof using Hopts.
  intros Hread Hok. destruct (new_owned_opens v vrs Hread Hok) as (x & Hx & Hs). unfold sst_iterator_new_owned_initialized. rewrite Hx. run.
  destruct x as [s|]; [|by exists None]. destruct Hs as (view & s' & Hi & Hscan). rewrite Hi. run. eexists. split; [done|].
  destruct s' as [it|it fe b]; [exists view; split; [by eapply sst_init_again|done]|]. destruct (is_filtered_out fe) eqn:Hf.
  - cbn in Hscan. rewrite Hf in Hscan. by eapply scan_rows_nil.
  - exists view. split; [by eapply sst_init_again|done].
Qed.

Local Notation nonempty ls := (filter (λ l : list RowEntry, l ≠ []) ls).

(** The leaves built for a list of views. *)
Lemma view_leaves (build : SsTableView → result (option (SstIterator F))) views vrss :
  (∀ v vrs, view_readable store v vrs → view_ok v → ∃ x, build v = Ok x ∧
     match x with
     | None => rows_in range vrs = []
     | Some s => ∃ view s', sst_init s = Ok s' ∧ sst_scan view o s' [] (scan_rows o (rows_in range vrs))
     end) →
  Forall2 (view_readable store) views vrss → Forall view_ok views →
  ∃ its ls, (os ← mapM build views; mret (os ≫= leaf_of)) = Ok its ∧ Forall2 (opens (leaf_scan o)) its ls ∧
    nonempty ls = nonempty (scan_rows o <$> (rows_in range <$> vrss)).
Proof.
  intros Hbuild Hread. induction Hread as [|v vrs views vrss Hv Hread IH]; intros Hok.
  { exists [], []. split; [done|]. split; [constructor|done]. }
  apply Forall_cons in Hok as [Hov Hok]. destruct (IH Hok) as (its & ls & Hm & Hopen & Hne). destruct (Hbuild v vrs Hv Hov) as (x & Hx & Hs).
  apply bind_Ok_inv in Hm as (os & Hos & [= <-]). cbn [mapM]. rewrite Hx. run. rewrite Hos. run. eexists _. cbn [mbind list_bind]. destruct x as [s|].
  - destruct Hs as (view & s' & Hi & Hscan). exists (scan_rows o (rows_in range vrs) :: ls). split; [done|]. split.
    + cbn. constructor; [|done]. exists (LeafSst s'). split; [unfold it_init; cbn; unfold it_init; cbn; by rewrite Hi|by exists view].
    + cbn [fmap list_fmap]. by rewrite !filter_cons, Hne.
  - exists ls. split; [done|]. split; [done|]. cbn [fmap list_fmap]. rewrite Hs, filter_cons_False; [done|]. destruct o; cbn; auto.
Qed.

(** A run that does not overlap the range has no row in it. *)
Lemma overlaps_range_ok views vrss : run_ok views → Forall2 (view_readable store) views vrss →
  ∃ b, overlaps_range views range = Ok b ∧ (b = false → rows_in range (concat vrss) = []).
Proof.
  intros Hok Hread. unfold overlaps_range. destruct views as [|first views].
  { inv Hread. by exists false. }
  cbn [head]. destruct (last (first :: views)) as [lst|] eqn:Hlast; [|by apply last_None in Hlast]. run.
  pose proof (ro_views _ Hok) as Hviews. rewrite Forall_forall in Hviews.
  assert (lst ∈ first :: views) as Hin by by apply last_Some_elem_of.
  destruct (Hviews first ltac:(left)) as (s & Hs & Hh). assert (vstart first = s) as Hv by (unfold vstart; by rewrite Hs). rewrite Hs.
  assert (∀ v k, v ∈ first :: views → holds v k → range_contains (range_new (Included s) (end_of (effective_range lst))) k = true) as Hspan.
  { intros v k Hvin Hk. unfold range_contains. apply andb_true_iff. cbn [range_start range_end range_new]. pose proof (run_sorted _ Hok) as Hsort. split.
    - unfold start_admits. cbn. rewrite <- Hv. apply ord_leb_true. apply StronglySorted_cons in Hsort as [Hb _]. apply elem_of_cons in Hvin as [->|Hvin].
      + apply vstart_le; [apply Hviews; left|done].
      + rewrite Forall_forall in Hb. pose proof (Hb v Hvin (vstart first)) as Hle. rewrite Hv in Hle. specialize (Hle Hh).
        pose proof (vstart_le v k (Hviews v ltac:(by right)) Hk). rewrite Hv. revert Hle. ord.
    - assert (k ≼ vstart lst ∨ holds lst k) as Hor.
      { apply last_Some in Hlast as [pre Hpre]. rewrite Hpre in Hvin, Hsort. apply elem_of_app in Hvin as [Hvin| ->%list_elem_of_singleton]; [left|by right].
        apply StronglySorted_app in Hsort as (Hc & _ & _). apply (Hc v lst); [done|by left|done]. }
      destruct (vstart_held lst (Hviews _ Hin)) as [Hl _]. unfold BytesRange.contains, range_contains in Hl, Hor.
      apply andb_true_iff in Hl as [_ Hl]. destruct Hor as [Hle|Hor]; [|by apply andb_true_iff in Hor as [_ ?]].
      unfold end_admits, end_of in *. destruct (end_inner _); [ord..|done]. }
  unfold BytesRange.new. rewrite (contains_non_empty _ s (Hspan first s ltac:(left) Hh)). run. eexists. split; [done|]. intros Hb.
  apply bool_decide_eq_false in Hb. rewrite <- eq_None_not_Some in Hb. apply list_filter_none, Forall_forall. intros e He Hc.
  apply elem_of_concat in He as (vrs & He & [i Hi]%list_elem_of_lookup_1). destruct (Forall2_lookup_r _ _ _ _ _ Hread Hi) as (v & Hvl & Hr).
  pose proof (Hspan v (key e) ltac:(by eapply list_elem_of_lookup_2) (view_rows store v vrs e Hr He)) as Hk.
  pose proof (intersect_none _ _ (key e) Hb Hc) as Hno. unfold BytesRange.contains in Hno. cbn in Hno. congruence.
Qed.

(** The leaves built for a list of sorted runs. *)
Lemma run_leaves runs srrows :
  Forall2 (λ sr vrss, run_ok (sst_views sr) ∧ Forall2 (view_readable store) (sst_views sr) vrss) runs srrows →
  ∃ its ls, build_sr_range_iters runs ctx = Ok its ∧ Forall2 (opens (leaf_scan o)) its ls ∧
    nonempty ls = nonempty (scan_rows o <$> ((λ vrss, rows_in range (concat vrss)) <$> srrows)).
Proof using Hopts.
  unfold build_sr_range_iters. cbn [ctx_range ctx_store ctx_options]. induction 1 as [|[id views] vrss runs srrows [Hok Hread] Hruns IH].
  { exists [], []. split; [done|]. split; [constructor|done]. }
  destruct IH as (its & ls & Hm & Hopen & Hne). apply bind_Ok_inv in Hm as (over & Hov & Hm). cbn [filterM].
  cbn [sst_views]. destruct (overlaps_range_ok views vrss Hok Hread) as (b & -> & Hb). run. rewrite Hov. run. destruct b.
  - pose proof Hopts as (Hm1 & Ht & Hr & Hp). destruct (run_opens store opts range Hm1 Ht Hr Hp id views vrss Hok Hread) as (r & r' & Hn & Hi & Hst).
    cbn [mapM]. rewrite Hn. run. rewrite Hi. run. rewrite Hm. run. exists (LeafRun r' :: its), (scan_rows o (rows_in range (concat vrss)) :: ls).
    split; [done|]. split.
    + constructor; [|done]. exists (LeafRun r'). unfold it_init. cbn [leaf_iterator]. unfold it_init. cbn [sorted_run_iterator]. unfold run_init.
      assert (ri_initialized r' = true) as ->.
      { unfold run_init in Hi. destruct (ri_initialized r) eqn:E; [by injection Hi as <-|]. by apply bind_Ok_inv in Hi as (? & _ & [= <-]). }
      run. split; [done|]. by exists store, opts, range.
    + cbn [fmap list_fmap]. by rewrite !filter_cons, Hne.
  - exists its, ls. split; [done|]. split; [done|]. cbn [fmap list_fmap]. rewrite (Hb eq_refl), filter_cons_False; [done|]. destruct o; cbn; auto.
Qed.
End leaves.

(** ** The versions of a key in a scan *)

Lemma filter_regroup (P : RowEntry → Prop) `{!∀ e, Decision (P e)} k acc L :
  (∀ e, P e → key e = k) → StronglySorted (λ a b, key b ≼ key a) L →
  (∀ a b, a ∈ acc → b ∈ acc → key a = key b) → (∀ a x, a ∈ acc → x ∈ L → key x ≼ key a) →
  filter P (regroup acc L) = reverse (filter P L) ++ filter P acc.
Proof.
  intros HP Hs. revert acc. induction Hs as [|e L Hs IH Hle]; intros acc Hkey Hbelow; [done|]. cbn [regroup]. rewrite Forall_forall in Hle.
  assert (filter P (regroup [e] L) = reverse (filter P (e :: L))) as Hnew.
  { rewrite IH; [|intros a b ->%list_elem_of_singleton ->%list_elem_of_singleton; done|intros a x ->%list_elem_of_singleton; apply Hle].
    rewrite !filter_cons, filter_nil. case_decide; [by rewrite reverse_cons|by rewrite app_nil_r]. }
  destruct acc as [|a acc]; [by rewrite Hnew, app_nil_r|]. case_decide as Hk.
  - rewrite IH.
    + rewrite (filter_cons _ e L), (filter_cons _ e (a :: acc)). case_decide; [|done]. by rewrite reverse_cons, <- app_assoc.
    + intros x y [->|Hx]%elem_of_cons [->|Hy]%elem_of_cons; [done| | |by apply Hkey].
      * rewrite Hk. apply Hkey; [left|done].
      * rewrite Hk. apply Hkey; [done|left].
    + intros x y [->|Hx]%elem_of_cons Hy; [by apply Hle|]. apply Hbelow; [done|by right].
  - rewrite filter_app, Hnew. destruct (decide (key a = k)) as [Hak|Hak].
    + rewrite (list_filter_none _ (e :: L)); [by rewrite app_nil_r|]. apply Forall_forall. intros x Hx HPx. apply HP in HPx.
      assert (key x ≼ key e) as Hxe by (apply elem_of_cons in Hx as [->|Hx]; [ord|by apply Hle]).
      specialize (Hbelow a e ltac:(left) ltac:(left)). apply Hk. subst k. rewrite HPx in Hxe. revert Hxe Hbelow. ord.
    + rewrite (list_filter_none _ (a :: acc)); [by rewrite app_nil_r|]. apply Forall_forall. intros x Hx HPx. apply HP in HPx.
      apply Hak. rewrite <- HPx. apply Hkey; [left|done].
Qed.

(** A scan in either order has the versions of a key in the order of the rows. *)
Lemma scan_rows_filter (P : RowEntry → Prop) `{!∀ e, Decision (P e)} k o l :
  (∀ e, P e → key e = k) → StronglySorted (row_le Ascending) l → filter P (scan_rows o l) = filter P l.
Proof.
  intros HP Hs. destruct o; [done|]. cbn. rewrite (filter_regroup P k); [|done| |intros a b Ha; by apply not_elem_of_nil in Ha|intros a b Ha; by apply not_elem_of_nil in Ha].
  - rewrite filter_reverse, reverse_involutive. by rewrite app_nil_r.
  - eapply StronglySorted_weaken; [|by apply StronglySorted_reverse]. cbn. intros a b. apply (row_le_key Ascending).
Qed.

Lemma same_version_key k s e : same_version k s e = true → key e = k.
Proof. unfold same_version. rewrite bool_decide_eq_true. by intros []. Qed.

Lemma leaves_versions_at o k s ls : Forall (StronglySorted (row_le Ascending)) ls →
  (λ l, versions_at k s l) <$> (scan_rows o <$> ls) = (λ l, versions_at k s l) <$> ls.
Proof.
  intros Hs. rewrite <- list_fmap_compose. apply list_fmap_ext. intros i l Hl. rewrite Forall_lookup in Hs. unfold compose.
  apply (scan_rows_filter _ k); [apply same_version_key|by eapply Hs].
Qed.

(** The rows of a scan over several sources: sorted, with exactly the versions the sources have. *)
Definition merged (o : IterationOrder) (ls : list (list RowEntry)) (out : list RowEntry) : Prop :=
  StronglySorted (row_le o) out ∧ ∀ k s, versions_at k s out = concat ((λ l, versions_at k s l) <$> ls).

Lemma merged_unique o ls a b : merged o ls a → merged o ls b → a = b.
Proof. intros [Ha Hva] [Hb Hvb]. apply (sorted_rows_ext o); [done..|]. intros k s. by rewrite Hva, Hvb. Qed.

Section tree.
  Context {B F : Type} `{FilterTraits B F} {Heap : Type → Type} `{HeapFamily Heap} (fuel : nat).
  Context (store : TableReads F) (opts : SstIteratorOptions) (range : BytesRange.t) (Hopts : scan_options_ok opts range).
  Context `{!HeapFamilyLaws Heap (opt_order opts)}.
  Local Notation o := (opt_order opts).
  Local Notation ctx := (mkContext store range opts).

Lemma heap_laws_ascending : o = Ascending → HeapFamilyLaws Heap Ascending.
Proof. by intros <-. Qed.

(** What a tree must satisfy for its rows in the range to be merged. *)
Record tree_ok (t : LsmTreeState) (ls : list (list RowEntry)) : Prop := {
  to_readable : ∃ l0rows srrows, tree_readable store t l0rows srrows ∧ ls = tree_leaves range l0rows srrows;
  to_sorted : Forall (StronglySorted (row_le Ascending)) ls;
  to_distinct : distinct ls;
  to_fuel : length (concat ls) < fuel;
}.

(** Lists that differ from the leaves of the scan by empty lists only. *)
Lemma same_leaves ls' ls : filter (λ l, l ≠ []) ls' = filter (λ l, l ≠ []) (scan_rows o <$> ls) →
  Forall (StronglySorted (row_le Ascending)) ls → distinct ls →
  distinct ls' ∧ length (concat ls') = length (concat ls) ∧ Forall (StronglySorted (row_le o)) ls' ∧
  ∀ k s, concat ((λ l, versions_at k s l) <$> ls') = concat ((λ l, versions_at k s l) <$> ls).
Proof.
  intros Hne Hsorted Hdis. split; [|split; [|split]].
  - intros k s. unfold sole. rewrite filter_fmap_nonempty, Hne, <- filter_fmap_nonempty, leaves_versions_at by done. apply Hdis.
  - rewrite (concat_nonempty ls'), Hne, <- concat_nonempty. clear Hdis Hne. induction Hsorted as [|l ls Hl Hls IH]; [done|].
    cbn [fmap list_fmap concat]. rewrite !length_app, IH. by rewrite (proj2 (scan_rows_sorted o l Hl)).
  - apply Forall_forall. intros l Hl. destruct (decide (l = [])) as [->|Hn]; [constructor|].
    assert (l ∈ filter (λ l, l ≠ []) ls') as Hin by by apply list_elem_of_filter.
    rewrite Hne in Hin. apply list_elem_of_filter in Hin as [_ (l0 & -> & Hl0)%list_elem_of_fmap]. rewrite Forall_forall in Hsorted.
    by apply scan_rows_sorted, Hsorted.
  - intros k s. rewrite <- (concat_fmap_nonempty (λ l, versions_at k s l) ls'), Hne by done.
    rewrite (concat_fmap_nonempty (λ l, versions_at k s l) (scan_rows o <$> ls)) by done. by rewrite leaves_versions_at.
Qed.

Lemma opens_sources {I} `{RowEntryIterator I} (order : IterationOrder) rel its ls :
  Forall2 (opens (I:=I) rel) its ls → Forall (StronglySorted (row_le order)) ls → Forall2 (source_ok order rel) its ls.
Proof.
  induction 1 as [|it l its ls (it' & Hi & Hr) _ IH]; intros Hs; [constructor|]. apply Forall_cons in Hs as [Hl Hs].
  constructor; [by exists it'|by apply IH].
Qed.

(** The merge over the tables of a tree. *)
Lemma build_tree_ok t ls pending : tree_ok t ls → (is_Some pending → o = Ascending) →
  ∃ m out, build_tree Heap fuel t ctx pending = Ok m ∧ merged o ls out ∧
    merge_scan o (leaf_scan o) fuel false m [] (match pending with Some k => filter (λ e, ord_ltb (key e) k = false) out | None => out end).
Proof.
  intros [(l0rows & srrows & [Hl0 Hl0ok Hsr] & Hls) Hsorted Hdis Hfuel] Hpend. unfold build_tree, build_l0_range_iters. cbn [ctx_range ctx_store ctx_options].
  destruct (view_leaves store opts range (λ v, sst_iterator_new_owned_initialized range v store opts) (l0 t) l0rows) as (its1 & ls1 & -> & Ho1 & Hn1); [|done|done|].
  { intros v vrs Hr Hv. destruct (new_owned_initialized_opens store opts range Hopts v vrs Hr Hv) as (x & Hx & Hs). exists x. split; [done|].
    destruct x as [s|]; [|done]. destruct Hs as (view & Hi & Hscan). by exists view, s. }
  run. destruct (run_leaves store opts range Hopts (compacted t) srrows Hsr) as (its2 & ls2 & -> & Ho2 & Hn2). run.
  assert (filter (λ l, l ≠ []) (ls1 ++ ls2) = filter (λ l, l ≠ []) (scan_rows o <$> ls)) as Hne.
  { rewrite Hls. unfold tree_leaves. by rewrite fmap_app, !filter_app, Hn1, Hn2. }
  destruct (same_leaves (ls1 ++ ls2) ls Hne Hsorted Hdis) as (Hdis' & Hlen & Hall & Hversions).
  destruct (merge_opens o (leaf_scan o) fuel (its1 ++ its2) (ls1 ++ ls2) false) as (m & out & Hinit & Hscan & Hp & Hs & Hst).
  { apply (opens_sources o); [by apply Forall2_app|done]. }
  { done. }
  { by rewrite Hlen. }
  unfold it_init. cbn [tree_merge_iterator merge_iterator]. unfold it_init in Hinit. rewrite Hinit. run.
  assert (merged o ls out) as Hmerged.
  { split; [done|]. intros k s. rewrite <- Hversions. apply Hst. apply Hdis'. }
  destruct pending as [k|]; [|by exists m, out]. pose proof (Hpend ltac:(by eexists)) as Ho. rewrite Ho in Hscan.
  pose proof (heap_laws_ascending Ho).
  destruct (merge_scan_seek (leaf_scan Ascending) fuel false m [] out k Hscan) as (m' & Hsk & Hm').
  exists m', out. unfold it_seek. cbn [tree_merge_iterator merge_iterator]. split; [done|]. split; [done|]. rewrite Ho. apply Hm'.
Qed.

(** ** The chain of segments *)

Definition from_pending (pending : option bytes) (l : list RowEntry) : list RowEntry :=
  match pending with Some k => filter (λ e, ord_ltb (key e) k = false) l | None => l end.

(** A segment and the rows it has left. *)
Definition child_rows (pending : option bytes) (c : bytes * SegmentIterState Heap (F:=F)) (out : list RowEntry) : Prop :=
  match c.2 with
  | Pending _ t => ∃ ls out0, tree_ok t ls ∧ merged o ls out0 ∧ Forall (λ e, c.1 `prefix_of` key e) out0 ∧ out = from_pending pending out0
  | Built _ m => merge_scan o (leaf_scan o) fuel false m [] out ∧ Forall (λ e, c.1 `prefix_of` key e) out
  end.

Record segment_scan (it : SegmentMergeIterator Heap (F:=F)) (returned l : list RowEntry) : Prop := {
  ss_init : sg_initialized Heap it = true;
  ss_context : sg_context Heap it = ctx;
  ss_order : sg_order Heap it = o;
  ss_rows : ∃ outs, Forall2 (child_rows (sg_pending_seek Heap it)) (sg_children Heap it) outs ∧ l = concat outs;
  ss_lazy : Forall (λ c, if c.2 is Pending _ _ then True else False) (tail (sg_children Heap it));
  ss_sorted : o = Ascending → StronglySorted ord_lt (sg_children Heap it).*1 ∧ antichain (sg_children Heap it).*1;
  ss_seek k : sg_pending_seek Heap it = Some k → o = Ascending ∧ Forall (λ e, k ≼ key e) l;
}.

(** The front child, built. *)
Lemma ensure_front_ok it returned l : segment_scan it returned l →
  match sg_children Heap it with
  | [] => ensure_front_built Heap fuel it = Ok (None, it) ∧ l = []
  | (p, _) :: rest => ∃ m out outs,
      ensure_front_built Heap fuel it = Ok (Some m, set_children Heap it ((p, Built Heap m) :: rest)) ∧
      Forall2 (child_rows (sg_pending_seek Heap it)) ((p, Built Heap m) :: rest) (out :: outs) ∧ l = out ++ concat outs
  end.
Proof.
  intros Hss. unfold ensure_front_built. destruct (ss_rows _ _ _ Hss) as (outs & Hrows & ->). pose proof (ss_seek _ _ _ Hss) as Hseek.
  destruct it as [children c ord pending ini]. cbn [sg_children sg_pending_seek sg_context] in *. pose proof (ss_context _ _ _ Hss) as Hc. cbn in Hc. subst c.
  destruct children as [|[p st] rest]; [by inv Hrows|]. apply Forall2_cons_inv_l in Hrows as (out & outs' & Hchild & Hrest & ->).
  destruct st as [t|m].
  - destruct Hchild as (ls & out0 & Hok & Hmerged & Hpre & ->). cbn in Hpre.
    destruct (build_tree_ok t ls pending Hok) as (m & out1 & -> & Hm1 & Hscan); [intros [k ->]; by destruct (Hseek k eq_refl)|]. run.
    rewrite (merged_unique _ _ _ _ Hm1 Hmerged) in Hscan. exists m, (from_pending pending out0), outs'. split; [done|]. split; [|done].
    constructor; [|done]. split; [by destruct pending|]. destruct pending; [|done]. apply Forall_forall. rewrite Forall_forall in Hpre.
    intros e [_ He]%list_elem_of_filter. by apply Hpre.
  - exists m, out, outs'. split; [done|]. split; [by constructor|done].
Qed.

Lemma segment_next_loop_ok n it returned l : segment_scan it returned l → length (sg_children Heap it) < n →
  match l with
  | [] => ∃ it', segment_next_loop Heap fuel n it = Ok (None, it') ∧ segment_scan it' returned []
  | e :: l => ∃ it', segment_next_loop Heap fuel n it = Ok (Some e, it') ∧ segment_scan it' (returned ++ [e]) l ∧ sg_pending_seek Heap it' = sg_pending_seek Heap it
  end.
Proof.
  revert it l. induction n as [|n IH]; intros it l Hss Hn; [lia|]. cbn [segment_next_loop].
  pose proof (ensure_front_ok it returned l Hss) as Hf. destruct (sg_children Heap it) as [|[p st] rest] eqn:Hch.
  { destruct Hf as [-> ->]. run. by exists it. }
  destruct Hf as (m & out & outs & -> & Hrows & Hl). run. apply Forall2_cons in Hrows as [[Hscan Hpre] Hrest].
  pose proof (merge_scan_next o (leaf_scan o) fuel false m [] out Hscan) as Hx. unfold it_next in Hx |- *. cbn [tree_merge_iterator merge_iterator] in *.
  destruct Hss as [Hini Hctx Hord _ Hlazy Hsorted Hseek]. rewrite Hch in Hlazy, Hsorted. cbn [tail] in Hlazy.
  destruct out as [|e out].
  - destruct Hx as (m' & -> & _). run. cbn [app] in Hl. set (it2 := set_children Heap (set_children Heap it ((p, Built Heap m) :: rest)) rest).
    change (sg_pending_seek Heap it) with (sg_pending_seek Heap it2). apply (IH it2 l); [|cbn in Hn |- *; lia]. unfold it2.
    split; cbn [set_children sg_initialized sg_context sg_order sg_children sg_pending_seek]; try done.
    + by exists outs.
    + by destruct Hlazy.
    + intros Ho. destruct (Hsorted Ho) as [Hs Ha]. cbn in Hs, Ha. split; [by inv Hs|]. intros p1 p2 Hp1 Hp2. apply Ha; by right.
  - destruct Hx as (m' & -> & Hscan'). run. rewrite Hl. cbn [app]. eexists. split; [done|]. apply Forall_cons in Hpre as [_ Hpre]. split; [|done].
    split; cbn [set_front set_children sg_initialized sg_context sg_order sg_children sg_pending_seek tail]; try done.
    + exists (out :: outs). split; [|done]. constructor; [|done]. split; [|done]. exact Hscan'.
    + intros k Hk. destruct (Hseek k Hk) as [Ho Hall]. split; [done|]. rewrite Hl in Hall. by apply Forall_cons in Hall as [_ ?].
Qed.

Lemma segment_next_ok it returned l : segment_scan it returned l →
  match l with
  | [] => ∃ it', segment_next Heap fuel it = Ok (None, it') ∧ segment_scan it' returned []
  | e :: l => ∃ it', segment_next Heap fuel it = Ok (Some e, it') ∧ segment_scan it' (returned ++ [e]) l ∧ sg_pending_seek Heap it' = sg_pending_seek Heap it
  end.
Proof. intros Hss. unfold segment_next. rewrite (ss_init _ _ _ Hss). apply segment_next_loop_ok; [done|lia]. Qed.

(** Keys that start with a prefix below [k] that does not start [k] are below [k]. *)
Lemma prefix_below (p k a : bytes) : p ≼ k → ¬ p `prefix_of` k → p `prefix_of` a → a ≺ k.
Proof.
  intros Hle Hno [x ->]. apply ord_leb_false. destruct (ord_leb k (p ++ x)) eqn:E; [|done]. exfalso. apply Hno.
  eapply sandwich_app; [done|by apply ord_leb_true].
Qed.

Lemma sorted_lookup {A} (R : A → A → Prop) l i j x y : StronglySorted R l → i < j → l !! i = Some x → l !! j = Some y → R x y.
Proof.
  intros Hs. revert i j. induction Hs as [|a l Hs IH Ha]; intros [|i] [|j] Hij Hx Hy; try done; try lia.
  - injection Hx as <-. rewrite Forall_lookup in Ha. by eapply Ha.
  - apply (IH i j); [lia|done..].
Qed.

(** [count_before]: the segments dropped have no key at or above [k]. *)
Lemma count_before_ok (it : SegmentMergeIterator Heap (F:=F)) k : sg_order Heap it = Ascending → StronglySorted ord_lt (sg_children Heap it).*1 → antichain (sg_children Heap it).*1 →
  ∃ n, count_before Heap it k = Ok n ∧ n ≤ length (sg_children Heap it) ∧
    ∀ i c a, i < n → sg_children Heap it !! i = Some c → c.1 `prefix_of` a → a ≺ k.
Proof.
  intros Ho Hs Ha. unfold count_before. rewrite Ho. set (cs := sg_children Heap it) in *.
  assert (∀ i j c d, i < j → cs !! i = Some c → cs !! j = Some d → c.1 ≺ d.1) as Hord.
  { intros i j c d Hij Hc Hd. eapply (sorted_lookup ord_lt _ i j); [exact Hs|done|by rewrite list_lookup_fmap, Hc|by rewrite list_lookup_fmap, Hd]. }
  destruct (slice_partition_point_ok (λ c, mret (ord_leb c.1 k)) (λ c, ord_leb c.1 k) cs) as (after & -> & Hlen & Hbelow & _); [done| |].
  { intros i j c d Hij Hc Hd. specialize (Hord i j c d Hij Hc Hd). revert Hord. rewrite !ord_leb_true. ord. }
  run. assert (∀ i c, S i < after → cs !! i = Some c → ¬ c.1 `prefix_of` k) as Hno.
  { intros i c Hi Hc [x Hx]. destruct (lookup_lt_is_Some_2 cs (S i)) as [d Hd]; [lia|].
    pose proof (Hord i (S i) c d ltac:(lia) Hc Hd) as Hcd. pose proof (Hbelow (S i) d Hi Hd) as Hdk. apply ord_leb_true in Hdk.
    apply (Ha c.1 d.1); [apply list_elem_of_fmap_2; by eapply list_elem_of_lookup_2..|]. split.
    - eapply (sandwich_app _ x); [by apply ord_lt_le|by rewrite <- Hx].
    - intros E. rewrite E in Hcd. by apply ord_lt_irrefl in Hcd. }
  assert (∀ i c a, i < after → cs !! i = Some c → ¬ c.1 `prefix_of` k → c.1 `prefix_of` a → a ≺ k) as Hdrop.
  { intros i c a Hi Hc Hnp Hpa. eapply prefix_below; [|exact Hnp|exact Hpa]. by apply ord_leb_true, (Hbelow i). }
  destruct after as [|n]; [exists 0; split; [done|]; split; [lia|]; intros; lia|].
  destruct (lookup_lt_is_Some_2 cs n) as [c Hc]; [lia|]. rewrite Hc. run. destruct (starts_with k c.1) eqn:Hst.
  - exists n. split; [done|]. split; [lia|]. intros i d a Hi Hd. apply (Hdrop i d a); [lia|done|]. eapply Hno; [|exact Hd]. lia.
  - exists (S n). split; [done|]. split; [lia|]. intros i d a Hi Hd. apply (Hdrop i d a); [done|done|]. destruct (decide (i = n)) as [->|Hne].
    + rewrite Hc in Hd. injection Hd as <-. intros Hp. apply starts_with_spec in Hp. congruence.
    + eapply Hno; [|exact Hd]. lia.
Qed.

Local Notation from_k k l := (filter (λ e, ord_ltb (key e) k = false) l).

Lemma from_k_pending pending k (l : list RowEntry) : (∀ k0, pending = Some k0 → k0 ≼ k) → from_k k (from_pending pending l) = from_k k l.
Proof.
  intros Hk. destruct pending as [k0|]; [|done]. cbn. specialize (Hk k0 eq_refl). rewrite list_filter_filter. apply list_filter_iff. intros e.
  rewrite !ord_ltb_false. split; [by intros []|]. intros Hke. split; [done|]. revert Hk Hke. ord.
Qed.

(** A pending segment whose seek key moves on. *)
Lemma child_pending pending k p t out : (∀ k0, pending = Some k0 → k0 ≼ k) → child_rows pending (p, Pending Heap t) out →
  child_rows (Some k) (p, Pending Heap t) (from_k k out).
Proof.
  intros Hk (ls & out0 & Hok & Hm & Hp & ->). exists ls, out0. split; [done|]. split; [done|]. split; [done|]. by apply from_k_pending.
Qed.

Lemma children_pending pending k cs outs : (∀ k0, pending = Some k0 → k0 ≼ k) →
  Forall (λ c, if c.2 is Pending _ _ then True else False) cs → Forall2 (child_rows pending) cs outs →
  Forall2 (child_rows (Some k)) cs ((λ l, from_k k l) <$> outs).
Proof.
  intros Hk Hlazy Hrows. induction Hrows as [|[p [t|m]] out cs outs Hc Hrows IH]; [constructor| |].
  - apply Forall_cons in Hlazy as [_ Hlazy]. cbn. constructor; [by eapply child_pending|by apply IH].
  - by apply Forall_cons in Hlazy as [[] _].
Qed.

Lemma concat_from_k k (outs : list (list RowEntry)) : concat ((λ l, from_k k l) <$> outs) = from_k k (concat outs).
Proof. induction outs as [|l outs IH]; [done|]. cbn [fmap list_fmap concat]. by rewrite filter_app, IH. Qed.

Lemma child_prefix pending c out : child_rows pending c out → Forall (λ e, c.1 `prefix_of` key e) out.
Proof.
  destruct c as [p [t|m]]; [intros (ls & out0 & _ & _ & Hp & ->)|by intros [_ ?]]. destruct pending as [k|]; [|done]. apply Forall_forall.
  rewrite Forall_forall in Hp. intros e [_ He]%list_elem_of_filter. by apply Hp.
Qed.

(** Dropping the segments below the key loses no row at or above it. *)
Lemma dropped_rows pending k n cs outs : Forall2 (child_rows pending) cs outs →
  (∀ i c a, i < n → cs !! i = Some c → c.1 `prefix_of` a → a ≺ k) → from_k k (concat outs) = from_k k (concat (drop n outs)).
Proof.
  intros Hrows. revert n. induction Hrows as [|c out cs outs Hc Hrows IH]; intros n Hbelow; [by rewrite drop_nil|].
  destruct n as [|n]; [done|]. cbn [concat drop skipn]. rewrite filter_app, list_filter_none; [apply IH; intros i d a Hi Hd; apply (Hbelow (S i)); [lia|done]|].
  eapply Forall_impl; [by eapply child_prefix|]. cbn. intros e He. specialize (Hbelow 0 c (key e) ltac:(lia) eq_refl He). revert Hbelow. ord.
Qed.

(** [seek] leaves exactly the rows at or above the key. *)
Lemma segment_seek_ok k it returned l : o = Ascending → segment_scan it returned l → (∀ k0, sg_pending_seek Heap it = Some k0 → k0 ≼ k) →
  ∃ it', segment_seek Heap fuel k it = Ok it' ∧ ∀ returned', segment_scan it' returned' (from_k k l).
Proof.
  intros Ho Hss Hk. unfold segment_seek. rewrite (ss_init _ _ _ Hss). cbn [negb]. cbv zeta.
  destruct Hss as [Hini Hctx Hord (outs & Hrows & ->) Hlazy Hsorted Hseek]. destruct (Hsorted Ho) as [Hs Ha].
  set (it1 := mkSegIter Heap (sg_children Heap it) (sg_context Heap it) (sg_order Heap it) (Some k) true).
  destruct (count_before_ok it1 k) as (n & -> & Hn & Hbelow); [cbn; by rewrite Hord|done|done|]. run. rewrite (dropped_rows _ k n _ _ Hrows Hbelow).
  cbn [it1 sg_children] in *. unfold it1. clear it1. set (cs := drop n (sg_children Heap it)) in *.
  assert (Forall2 (child_rows (sg_pending_seek Heap it)) cs (drop n outs)) as Hrows' by by apply Forall2_drop.
  assert (Forall (λ c, if c.2 is Pending _ _ then True else False) (tail cs)) as Hlazy'.
  { unfold cs. destruct n as [|n]; [done|]. destruct (sg_children Heap it) as [|c cs0]; [done|]. cbn [drop skipn tail] in *.
    apply Forall_tail. by apply Forall_drop. }
  assert (StronglySorted ord_lt cs.*1 ∧ antichain cs.*1) as Hsorted'.
  { unfold cs. rewrite fmap_drop. split; [eapply StronglySorted_sublist; [apply sublist_drop|done]|].
    intros p q Hp Hq. apply Ha; by eapply (subseteq_drop n). }
  clearbody cs. set (outs' := drop n outs) in *. clearbody outs'. clear Hrows Hbelow Hlazy Hsorted Hs Ha Hn.
  assert (∀ cs1 outs1, cs1.*1 = cs.*1 → Forall (λ c, if c.2 is Pending _ _ then True else False) (tail cs1) → Forall2 (child_rows (Some k)) cs1 outs1 →
    concat outs1 = from_k k (concat outs') → ∀ returned', segment_scan (mkSegIter Heap cs1 (sg_context Heap it) (sg_order Heap it) (Some k) true) returned' (from_k k (concat outs'))) as Hnew.
  { intros cs1 outs1 Hfst Hl1 Hr1 Hc1 returned'. split; cbn; try done; [by exists outs1|by rewrite Hfst|].
    intros k' [= <-]. split; [done|]. apply Forall_forall. intros e [He _]%list_elem_of_filter. by apply ord_ltb_false. }
  unfold set_children. cbn [sg_children sg_context sg_order sg_pending_seek sg_initialized].
  destruct cs as [|[p [t|m]] rest]; cbn [tail] in Hlazy'.
  - unfold ensure_front_built. cbn [sg_children]. run. eexists. split; [done|]. inv Hrows'. by apply (Hnew [] []).
  - set (it2 := mkSegIter Heap ((p, Pending Heap t) :: rest) (sg_context Heap it) (sg_order Heap it) (Some k) true).
    assert (Forall2 (child_rows (Some k)) ((p, Pending Heap t) :: rest) ((λ l, from_k k l) <$> outs')) as Hp.
    { eapply children_pending; [exact Hk| |exact Hrows']. by constructor. }
    pose proof (Hnew _ _ eq_refl Hlazy' Hp (concat_from_k k outs') []) as Hss2.
    pose proof (ensure_front_ok it2 [] _ Hss2) as Hf. cbn [it2 sg_children] in Hf. destruct Hf as (m & out & outs2 & Hf & Hr2 & Hl2). fold it2 in Hf. rewrite Hf. run.
    eexists. split; [done|]. by apply (Hnew _ (out :: outs2)).
  - unfold ensure_front_built. cbn [sg_children]. run. apply Forall2_cons_inv_l in Hrows' as (out & outs2 & [Hscan Hpre] & Hrest & ->).
    rewrite Ho in Hscan. pose proof (heap_laws_ascending Ho). destruct (merge_scan_seek (leaf_scan Ascending) fuel false m [] out k Hscan) as (m' & Hsk & Hm').
    unfold it_seek. cbn [tree_merge_iterator merge_iterator]. rewrite Hsk. run. unfold set_front, set_children.
    cbn [sg_children sg_context sg_order sg_pending_seek sg_initialized]. eexists. split; [done|].
    apply (Hnew ((p, Built Heap m') :: rest) (from_k k out :: ((λ l, from_k k l) <$> outs2))); [done|done| |by rewrite <- (concat_from_k k (out :: outs2))].
    constructor; [|by eapply children_pending]. split; [cbn; rewrite Ho; apply Hm'|]. apply Forall_forall. rewrite Forall_forall in Hpre.
    intros e [_ He]%list_elem_of_filter. by apply Hpre.
Qed.

Lemma segment_scan_advance it0 it returned e l k : o = Ascending → segment_scan it0 returned (e :: l) → segment_next Heap fuel it0 = Ok (Some e, it) →
  Forall (λ e, key e ≺ k) (returned ++ [e]) →
  ∃ it' returned', segment_seek Heap fuel k it = Ok it' ∧ segment_scan it' returned' (from_k k l) ∧ Forall (λ e, key e ≺ k) returned'.
Proof.
  intros Ho Hss Hn Hk. pose proof (segment_next_ok it0 returned (e :: l) Hss) as (it1 & Hn1 & Hss1 & Hp). rewrite Hn in Hn1. injection Hn1 as <-.
  destruct (segment_seek_ok k it _ l Ho Hss1) as (it' & Hsk & Hss').
  - rewrite Hp. intros k0 Hk0. destruct (ss_seek _ _ _ Hss k0 Hk0) as [_ Hall]. apply Forall_cons in Hall as [Hke _].
    apply Forall_app in Hk as [_ [Hek _]%Forall_cons]. revert Hke Hek. ord.
  - exists it', []. split; [done|]. split; [apply Hss'|constructor].
Qed.

(** A chain of segments opens on the rows of its segments, in the order of the scan. *)
Lemma segment_iter_opens segs lss outs :
  Forall2 (λ s ls, tree_ok (seg_tree s) ls) segs lss → Forall2 (merged o) lss outs →
  Forall2 (λ s out, Forall (λ e, seg_prefix s `prefix_of` key e) out) segs outs →
  (o = Ascending → segs_ok segs ∧ antichain (seg_prefix <$> segs)) →
  ∃ it', it_init (RowEntryIterator:=segment_merge_iterator Heap fuel) (segment_iter_new Heap segs ctx) = Ok it' ∧
    segment_scan it' [] (concat (match o with Ascending => outs | Descending => reverse outs end)).
Proof.
  intros Hok Hm Hp Hs. unfold it_init. cbn [segment_merge_iterator]. eexists. split; [done|].
  unfold segment_iter_new. cbn [ctx_options]. split; cbn [sg_initialized sg_context sg_order sg_children sg_pending_seek]; try done.
  - set (children := (λ s, (seg_prefix s, Pending Heap (F:=F) (seg_tree s))) <$> segs).
    assert (Forall2 (child_rows None) children outs) as Hch.
    { unfold children. clear Hs. revert lss outs Hok Hm Hp. induction segs as [|s segs IH]; intros lss outs Hok Hm Hp.
      - inv Hok. inv Hm. constructor.
      - apply Forall2_cons_inv_l in Hok as (ls & lss' & Hl & Hok & ->). apply Forall2_cons_inv_l in Hm as (out & outs' & Ho & Hm & ->).
        apply Forall2_cons in Hp as [Hp1 Hp]. cbn. constructor; [by exists ls, out|]. by eapply IH. }
    destruct o; [by exists outs|]. exists (reverse outs). split; [by apply Forall2_reverse|done].
  - assert (Forall (λ c : bytes * SegmentIterState Heap (F:=F), if c.2 is Pending _ _ then True else False) ((λ s, (seg_prefix s, Pending Heap (F:=F) (seg_tree s))) <$> segs)) as Hall
      by (apply Forall_fmap; by apply Forall_true).
    destruct o; apply Forall_tail; [done|by apply Forall_reverse].
  - intros Ho. destruct (Hs Ho) as [H1' H2']. rewrite Ho. rewrite <- list_fmap_compose. split; [by apply segs_ok_prefixes|done].
Qed.
End tree.

(** ** Point lookups *)

(** What a walk returns of the versions of a key, newest first: the merge operands down to the first value;
    a tombstone ends it. *)
Fixpoint walk_rows (l : list RowEntry) : list RowEntry :=
  match l with
  | [] => []
  | e :: l => match value e with Value _ => [e] | Tombstone => [] | Merge _ => e :: walk_rows l end
  end.

Section get_scan.
  Context {S : Type} `{RowEntryIterator S} (rel : S → list RowEntry → list RowEntry → Prop) `{!Scan rel}.

Definition get_scan (g : GetIterator S) (returned l : list RowEntry) : Prop :=
  ∃ ls, Forall2 (opens rel) (get_sources g) ls ∧
    match get_current g with
    | None => l = walk_rows (concat ls)
    | Some c => ∃ retc lc, rel c retc lc ∧ l = walk_rows (lc ++ concat ls)
    end.

Lemma get_walk_ok k sources ls cur retc lc returned : Forall2 (opens rel) sources ls → rel cur retc lc →
  match walk_rows (lc ++ concat ls) with
  | [] => ∃ g', get_walk k sources cur = Ok (None, g') ∧ get_scan g' returned []
  | e :: l => ∃ g', get_walk k sources cur = Ok (Some e, g') ∧ get_scan g' (returned ++ [e]) l
  end.
Proof.
  assert (∀ r, get_scan (mkGet k [] None) r []) as Hdone by (intros r; exists []; by split).
  intros Hs. revert cur retc lc. induction Hs as [|s l sources ls (s' & Hi & Hrel') Hs IH]; intros cur retc lc Hrel;
    cbn [get_walk]; pose proof (scan_next cur retc lc Hrel) as Hn; (destruct lc as [|e lc]; destruct Hn as (cur' & -> & Hrel1); run);
    cbn [concat app walk_rows].
  - eauto.
  - destruct (value e); eexists; (split; [done|]); try done. exists []. split; [done|]. by exists (retc ++ [e]), lc.
  - rewrite Hi. run. by apply (IH s' [] l).
  - destruct (value e); eexists; (split; [done|]); try done. exists (l :: ls). split; [by constructor; [exists s'|]|]. by exists (retc ++ [e]), lc.
Qed.

Global Instance get_scan_next : Scan get_scan.
Proof.
  intros [k sources [cur|]] returned l (ls & Hs & Hl); cbn [get_sources get_current] in *; unfold it_next; cbn [get_iterator get_next get_current get_sources get_key].
  - destruct Hl as (retc & lc & Hrel & ->). by eapply get_walk_ok.
  - subst l. destruct Hs as [|s l0 sources ls (s' & Hi & Hrel) Hs].
    + unfold get_next. cbn. eexists. split; [done|]. by exists [].
    + unfold get_next. cbn. rewrite Hi. run. by apply (get_walk_ok k sources ls s' [] l0).
Qed.
End get_scan.

(** Filtered, or not. *)
Section filtered_scan.
  Context {I : Type} `{RowEntryIterator I} (rel : I → list RowEntry → list RowEntry → Prop) `{!Scan rel} (fuel : nat) (o : IterationOrder).

Definition filtered_scan (x : FilteredIterator I) (returned l : list RowEntry) : Prop :=
  match x with Unfiltered it => rel it returned l | Filtered f => filter_scan rel fuel o f returned l end.

Lemma filtered_scan_next : Scan (H:=filtered_iterator fuel) filtered_scan.
Proof.
  intros [it|f] returned l Hrel; cbn [filtered_scan] in Hrel; unfold it_next; cbn [filtered_iterator].
  - pose proof (scan_next it returned l Hrel) as Hn. destruct l; destruct Hn as (it' & -> & Hr); run; by exists (Unfiltered it').
  - pose proof (filter_scan_next rel fuel o f returned l Hrel) as Hn. destruct l; destruct Hn as (f' & Hn & Hr); rewrite Hn; run; by exists (Filtered f').
Qed.

Lemma apply_filter_opens max_seq it l : opens rel it l → length l < fuel → (o = Ascending → StronglySorted (λ a b, key a ≼ key b) l) →
  opens (H:=filtered_iterator fuel) filtered_scan (apply_filter max_seq it) (filter (λ e, seq_at_most max_seq e = true) l).
Proof.
  intros (it' & Hi & Hrel) Hlen Hs. destruct max_seq as [s|]; cbn [apply_filter].
  - exists (Filtered (mkFilter it' (seq_at_most (Some s)))). split.
    + unfold it_init. cbn [filtered_iterator]. unfold it_init. cbn [filter_iterator new_with_max_seq fi_iterator]. rewrite Hi. by run.
    + cbn. exists [], l. split; [done|]. split; [done|]. split; [done|]. intros Ho. split; [by apply Hs|]. intros a b Ha. by apply not_elem_of_nil in Ha.
  - exists (Unfiltered it'). split; [unfold it_init; cbn [filtered_iterator]; rewrite Hi; by run|]. cbn. by rewrite list_filter_all by by apply Forall_true.
Qed.
End filtered_scan.

Lemma filtered_scan_advance {I} `{RowEntryIterator I} rel `{!Scan rel, !ScanAdvance rel} fuel :
  ScanAdvance (H:=filtered_iterator (I:=I) fuel) (filtered_scan rel fuel Ascending).
Proof.
  intros x0 x returned e l k Hrel Hn Hk. unfold it_next in Hn. destruct x0 as [it0|f0]; cbn [filtered_scan filtered_iterator] in *;
    apply bind_Ok_inv in Hn as ([o' y] & Hi & Hn); injection Hn as -> <-; unfold it_seek; cbn [filtered_iterator].
  - destruct (scan_advance it0 y returned e l k Hrel Hi Hk) as (y' & ret' & -> & Hr & Hk'). run. by exists (Unfiltered y'), ret'.
  - destruct (filter_scan_advance rel fuel f0 y returned e l k Hrel Hi Hk) as (y' & ret' & Hs & Hr & Hk'). rewrite Hs. run. by exists (Filtered y'), ret'.
Qed.

(** ** The sources of a point lookup *)

Lemma walk_rows_app a b : walk_rows (a ++ walk_rows b) = walk_rows (a ++ b).
Proof.
  induction a as [|e a IH]; cbn; [|by destruct (value e); rewrite ?IH].
  induction b as [|e b IH]; [done|]. cbn. destruct (value e) eqn:Hv; cbn; rewrite ?Hv; [done|by rewrite IH|done].
Qed.

Lemma point_contains k a : BytesRange.contains (point k) a = bool_decide (a = k).
Proof.
  unfold BytesRange.contains, range_contains, start_admits, end_admits. cbn. destruct (decide (a = k)) as [->|Hne].
  - rewrite bool_decide_true by done. unfold ord_leb. by rewrite cmp_refl.
  - rewrite bool_decide_false by done. apply andb_false_iff. unfold ord_leb. rewrite (cmp_opp k a). destruct (cmp k a) eqn:Hc; [|by right|by left].
    apply cmp_eq in Hc. congruence.
Qed.

Lemma rows_in_point k l : rows_in (point k) l = versions_of k l.
Proof. unfold rows_in. apply list_filter_iff. intros e. rewrite point_contains. apply bool_decide_eq_true. Qed.

Lemma point_rows_key k l : Forall (λ e, key e = k) (rows_in (point k) l).
Proof. rewrite rows_in_point. apply list.Forall_forall. by intros e [? _]%list_elem_of_filter. Qed.

(** A scan of the versions of one key has them in the order of the rows. *)
Lemma scan_rows_one k o l : Forall (λ e, key e = k) l → scan_rows o l = l.
Proof.
  intros Hl. destruct o; [done|]. cbn [scan_rows]. rewrite <- (app_nil_r (reverse l)), (regroup_run k); [|by apply Forall_reverse|done].
  cbn. by rewrite reverse_involutive, app_nil_r.
Qed.

Section point.
  Context {B F : Type} `{FilterTraits B F} (store : TableReads F) (opts : SstIteratorOptions) (k : bytes).
  Context (Hopts : scan_options_ok opts (point k)).
  Local Notation o := (opt_order opts).
  Local Notation ctx := (mkContext store (point k) opts).

Lemma view_point_leaves views vrss : Forall2 (view_readable store) views vrss → Forall view_ok views →
  ∃ its ls, build_l0_point_iters views ctx = Ok its ∧ Forall2 (opens (leaf_scan o)) its ls ∧
    concat ls = concat (rows_in (point k) <$> vrss).
Proof.
  intros Hr Hv. destruct (view_leaves store opts (point k) (λ v, sst_iterator_new_owned (point k) v store opts) views vrss) as (its & ls & Hb & Ho & Hn); [|done|done|].
  { apply new_owned_opens, Hopts. }
  exists its, ls. split; [done|]. split; [done|]. rewrite (concat_nonempty ls), Hn, <- concat_nonempty. f_equal.
  rewrite <- list_fmap_compose. apply list_fmap_ext. intros _ vrs _. apply (scan_rows_one k), point_rows_key.
Qed.

Lemma run_point_leaves runs srrows :
  Forall2 (λ sr vrss, run_ok (sst_views sr) ∧ Forall2 (view_readable store) (sst_views sr) vrss) runs srrows →
  ∃ its ls, build_sr_point_iters k runs ctx = Ok its ∧ Forall2 (opens (leaf_scan o)) its ls ∧
    concat ls = rows_in (point k) (concat (concat srrows)).
Proof.
  unfold build_sr_point_iters. induction 1 as [|[id views] vrss runs srrows [Hok Hread] Hruns IH]; [by exists [], []|].
  destruct IH as (its & ls & Hb & Ho & Hc). apply bind_Ok_inv in Hb as (itss & Hm & Hb). injection Hb as <-. cbn [mapM sst_views].
  cbn [sst_views] in Hok, Hread. pose proof Hopts as (_ & _ & Hne & _).
  destruct (covering_tables_ok views (point k) Hok Hne) as (a & b & Hab & Hle & Hbl & Hcov & _).
  assert (tables_covering_point_key views k = Ok (take (b - a) (drop a views))) as ->.
  { unfold tables_covering_point_key. rewrite point_table_idx, Hab. run. unfold slice. by rewrite decide_True. }
  run.
  destruct (view_point_leaves (take (b - a) (drop a views)) (take (b - a) (drop a vrss))) as (its1 & ls1 & -> & Ho1 & Hc1).
  { by apply Forall2_take, Forall2_drop. }
  { apply Forall_take, Forall_drop, ro_views, Hok. }
  run. rewrite Hm. run. exists (its1 ++ concat itss), (ls1 ++ ls). split; [done|]. split; [by apply Forall2_app|].
  rewrite !concat_app, Hc, Hc1. cbn [concat]. rewrite concat_app. unfold rows_in at 3. rewrite filter_app. f_equal.
  apply (queue_rows_part opts (point k)); [apply Hopts|apply Hopts|done|by rewrite <- (Forall2_length _ _ _ Hread)|].
  intros i vrs Hi Hnot. apply list_filter_none, Forall_forall. intros e He Hin. destruct (Forall2_lookup_r _ _ _ _ _ Hread Hi) as (v & Hv & Hr).
  apply Hnot. eapply Hcov; [exact Hv|by eapply view_rows|done].
Qed.
End point.
