(* ===== verification/DbIter.v ===== *)
(** * Reads of the database ([db_iter.rs], [reader.rs])

    A read gathers its sources (the write batch of a transaction, the memtables, the tree on storage),
    hides the rows above its sequence number, walks the sources for a point lookup or merges them for a
    scan, resolves merge operands and skips tombstones.  The recency scan walks the sources one after
    the other. *)

From S2P Require Export ReadSources MemTable WriteBatch.

Section db_iter.
  Context {B F : Type} `{FilterTraits B F} (Heap : Type → Type) `{HeapFamily Heap} (fuel : nat).
  Local Existing Instance filtered_iterator.
Local Instance top_filter_iterator {I} `{RowEntryIterator I} : RowEntryIterator (FilterIterator I) := filter_iterator fuel.
Local Instance seg_iterator : RowEntryIterator (SegmentIterator Heap (F:=F)) := segment_iterator Heap fuel.
Local Instance mem_filtered : RowEntryIterator (FilteredIterator MemTableIterator) := filtered_iterator fuel.
Local Instance any_merge_iterator {I} `{RowEntryIterator I} : RowEntryIterator (MergeIterator I (Heap I)) := merge_iterator fuel.

(** ** The sources at the top *)

Definition MemMerge : Type := MergeIterator (FilteredIterator MemTableIterator) (Heap (FilteredIterator MemTableIterator)).

(** The boxed sources of [GetIterator::new] and [ScanIterator::new]. *)
Inductive TopIterator :=
  | TopEmpty
  | TopBatch (b : WriteBatchIterator)
  | TopMem (m : FilteredIterator MemTableIterator)
  | TopMems (m : MemMerge)
  | TopSegment (s : FilterIterator (SegmentIterator Heap (F:=F))).

Global Instance top_iterator : RowEntryIterator TopIterator := {
  it_init x := match x with
               | TopEmpty => mret TopEmpty
               | TopBatch b => b ← it_init b; mret (TopBatch b)
               | TopMem m => m ← it_init m; mret (TopMem m)
               | TopMems m => m ← it_init m; mret (TopMems m)
               | TopSegment s => s ← it_init s; mret (TopSegment s)
               end;
  it_next x := match x with
               | TopEmpty => mret (None, TopEmpty)
               | TopBatch b => '(o, b) ← it_next b; mret (o, TopBatch b)
               | TopMem m => '(o, m) ← it_next m; mret (o, TopMem m)
               | TopMems m => '(o, m) ← it_next m; mret (o, TopMems m)
               | TopSegment s => '(o, s) ← it_next s; mret (o, TopSegment s)
               end;
  it_seek k x := match x with
                 | TopEmpty => mret TopEmpty
                 | TopBatch b => b ← it_seek k b; mret (TopBatch b)
                 | TopMem m => m ← it_seek k m; mret (TopMem m)
                 | TopMems m => m ← it_seek k m; mret (TopMems m)
                 | TopSegment s => s ← it_seek k s; mret (TopSegment s)
                 end;
}.

(** [ScanIterator] *)
Definition ScanIterator : Type := MergeIterator TopIterator (Heap TopIterator).

(** [ScanIterator::new] *)
Definition scan_iterator_new (batch : TopIterator) (mem_iters : list (FilteredIterator MemTableIterator))
    (segment_iter : TopIterator) (order : IterationOrder) : ScanIterator :=
  merge_new_with_order [batch; TopMems (merge_new_with_order mem_iters order); segment_iter] order.

Inductive DelegateIterator := ByGet (g : GetIterator TopIterator) | ByScan (s : ScanIterator).

Global Instance delegate_iterator : RowEntryIterator DelegateIterator := {
  it_init x := match x with
               | ByGet g => g ← it_init g; mret (ByGet g)
               | ByScan s => s ← it_init s; mret (ByScan s)
               end;
  it_next x := match x with
               | ByGet g => '(o, g) ← it_next g; mret (o, ByGet g)
               | ByScan s => '(o, s) ← it_next s; mret (o, ByScan s)
               end;
  it_seek k x := match x with
                 | ByGet g => g ← it_seek k g; mret (ByGet g)
                 | ByScan s => s ← it_seek k s; mret (ByScan s)
                 end;
}.

(** ** [DbIterator] *)

Context (operator : option MergeOperator).

Inductive RowIterator :=
  | Resolving (m : MergeOperatorIterator DelegateIterator)
  | Requiring (r : MergeOperatorRequiredIterator DelegateIterator).

Local Instance row_iterator : RowEntryIterator RowIterator := {
  it_init x := match x, operator with
               | Resolving m, Some op => m ← it_init (RowEntryIterator:=merge_op_iterator (H0:=op) fuel) m; mret (Resolving m)
               | Resolving _, None => Panic
               | Requiring r, _ => r ← it_init r; mret (Requiring r)
               end;
  it_next x := match x, operator with
               | Resolving m, Some op =>
                   '(o, m) ← it_next (RowEntryIterator:=merge_op_iterator (H0:=op) fuel) m; mret (o, Resolving m)
               | Resolving _, None => Panic
               | Requiring r, _ => '(o, r) ← it_next r; mret (o, Requiring r)
               end;
  it_seek k x := match x, operator with
                 | Resolving m, Some op => m ← it_seek (RowEntryIterator:=merge_op_iterator (H0:=op) fuel) k m; mret (Resolving m)
                 | Resolving _, None => Panic
                 | Requiring r, _ => r ← it_seek k r; mret (Requiring r)
                 end;
}.

Record DbIterator := mkDbIter {
  di_range : BytesRange.t;
  di_iter : RowIterator;
  di_invalidated : option SlateDBError;
  di_last_key : option bytes;
  di_order : IterationOrder;
}.

(** [DbIterator::new] *)
Definition db_iterator_new (range : BytesRange.t) (batch : option WriteBatchIterator) (mem_iters : list MemTableIterator)
    (segment_iter : SegmentIterator Heap (F:=F)) (max_seq : option Z) (order : IterationOrder) : result DbIterator :=
  let batch := match batch with Some b => TopBatch b | None => TopEmpty end in
  let mem_iters := apply_filters mem_iters max_seq in
  let segment_iter := TopSegment (new_with_max_seq segment_iter max_seq) in
  let iter := match BytesRange.as_point range with
              | Some k => ByGet (get_new k (batch :: (TopMem <$> mem_iters) ++ [segment_iter]))
              | None => ByScan (scan_iterator_new batch mem_iters segment_iter order)
              end in
  let iter := match operator with
              | Some _ => Resolving (merge_op_new iter true None)
              | None => Requiring (mkRequired iter)
              end in
  iter ← it_init iter;
  mret (mkDbIter range iter None None order).

(** The loop of [next_entry_inner] *)
Fixpoint skip_tombstones (n : nat) (it : RowIterator) : result (option RowEntry * RowIterator) :=
  match n with
  | O => OutOfFuel
  | S n =>
      '(o, it) ← it_next it;
      match o with
      | Some e => match value e with Tombstone => skip_tombstones n it | _ => mret (Some e, it) end
      | None => mret (None, it)
      end
  end.

(** [maybe_invalidate]: an error stays, and the iterator under it is not used again. *)
Definition invalidate (d : DbIterator) (e : SlateDBError) : DbIterator :=
  mkDbIter (di_range d) (di_iter d) (Some e) (di_last_key d) (di_order d).

(** [DbIterator::next_entry_inner] *)
Definition next_entry (d : DbIterator) : result (option RowEntry) * DbIterator :=
  match di_invalidated d with
  | Some e => (Err e, d)
  | None =>
      match skip_tombstones fuel (di_iter d) with
      | Ok (Some e, it) => (Ok (Some e), mkDbIter (di_range d) it None (Some (key e)) (di_order d))
      | Ok (None, it) => (Ok None, mkDbIter (di_range d) it None (di_last_key d) (di_order d))
      | Err e => (Err e, invalidate d e)
      | Panic => (Panic, d)
      | OutOfFuel => (OutOfFuel, d)
      end
  end.

(** [UnexpectedTombstone], or the pair *)
Definition entry_to_kv (o : option RowEntry) : result (option KeyValue) :=
  match o with
  | Some e => if is_tombstone (value e) then Err UnexpectedTombstone else kv ← key_value_from e; mret (Some kv)
  | None => mret None
  end.

(** [DbIterator::next] *)
Definition db_next (d : DbIterator) : result (option KeyValue) * DbIterator :=
  let '(o, d) := next_entry d in (o ← o; entry_to_kv o, d).

(** [DbIterator::seek] *)
Definition db_seek (k : bytes) (d : DbIterator) : result unit * DbIterator :=
  match di_invalidated d with
  | Some e => (Err e, d)
  | None =>
      if match di_order d with Descending => true | Ascending => false end then (Err SeekNotSupportedForDescendingScan, d)
      else if negb (BytesRange.contains (di_range d) k) then (Err (SeekKeyOutOfRange k (di_range d)), d)
      else if match di_last_key d with Some last => ord_leb k last | None => false end
      then (Err SeekKeyLessThanLastReturnedKey, d)
      else
        match it_seek k (di_iter d) with
        | Ok it => (Ok tt, mkDbIter (di_range d) it None (di_last_key d) (di_order d))
        | Err e => (Err e, invalidate d e)
        | Panic => (Panic, d)
        | OutOfFuel => (OutOfFuel, d)
        end
  end.

(** ** [Reader] *)

Inductive DurabilityLevel := Remote | Memory.

(** What the reader asks its [Oracle]. *)
Record Oracle := mkOracle { last_remote_persisted_seq : Z; last_committed_seq : Z }.

(** [seq.min] of the bound so far, or the bound *)
Definition at_most (bound : option Z) (s : Z) : option Z :=
  match bound with Some b => Some (Z.min b s) | None => Some s end.

(** [Reader::prepare_max_seq] *)
Definition prepare_max_seq (oracle : Oracle) (max_seq_by_user : option Z) (durability_filter : DurabilityLevel) (dirty : bool)
    : option Z :=
  let max_seq := match durability_filter with Remote => Some (last_remote_persisted_seq oracle) | Memory => None end in
  let max_seq := if dirty then max_seq else at_most max_seq (last_committed_seq oracle) in
  match max_seq_by_user with Some s => at_most max_seq s | None => max_seq end.

(** [DbStateReader] *)
Record DbStateReader := mkState {
  sr_memtable : KVTable;
  sr_imm_memtable : list ImmutableMemtable;
  sr_core : ManifestCore;
}.

(** [build_memtable_iters] *)
Definition build_memtable_iters (range : BytesRange.t) (st : DbStateReader) (order : IterationOrder) : list MemTableIterator :=
  (λ t, table_range t (start_of range) (end_of range) order) <$> (sr_memtable st :: (imm_table <$> sr_imm_memtable st)).

(** The segments a range selects, or the whole tree as one segment. *)
Definition selected_segments (c : ManifestCore) (range : BytesRange.t) : result (list Segment) :=
  o ← select_segments c range;
  mret (match o with Some segs => segs | None => [default_segment c] end).

(** [build_iterator_sources] *)
Definition build_iterator_sources (store : TableReads F) (range : BytesRange.t) (st : DbStateReader)
    (options : SstIteratorOptions) (max_seq : option Z) : result (list MemTableIterator * SegmentIterator Heap (F:=F)) :=
  let mem_iters := build_memtable_iters range st (opt_order options) in
  segs ← selected_segments (sr_core st) range;
  segment_iter ← build_segment_iter Heap segs (mkContext store range options) max_seq;
  mret (mem_iters, segment_iter).

Record ReadOptions := mkReadOptions {
  ro_durability_filter : DurabilityLevel;
  ro_dirty : bool;
  ro_cache_blocks : bool;
  ro_filter_context : option FilterContext;
}.

(** [get_key_value_with_options] *)
Definition get_key_value_with_options (store : TableReads F) (oracle : Oracle) (k : bytes) (options : ReadOptions)
    (st : DbStateReader) (batch : option WriteBatchIterator) (max_seq : option Z) : result (option KeyValue) :=
  let max_seq := prepare_max_seq oracle max_seq (ro_durability_filter options) (ro_dirty options) in
  range ← BytesRange.new (Included k) (Included k);
  let d := sst_options_default in
  let sst_options := mkSstOptions (max_fetch_tasks d) (target_bytes_to_fetch d) (ro_cache_blocks options)
    (opt_cache_metadata d) true (opt_order d) (opt_prefix d) (ro_filter_context options) in
  '(mem_iters, segment_iter) ← build_iterator_sources store range st sst_options max_seq;
  it ← db_iterator_new range batch mem_iters segment_iter max_seq (opt_order sst_options);
  o ← (next_entry it).1;
  entry_to_kv o.

Record ScanOptions := mkScanOptions {
  so_durability_filter : DurabilityLevel;
  so_dirty : bool;
  so_read_ahead_bytes : nat;
  so_cache_blocks : bool;
  so_max_fetch_tasks : nat;
  so_order : IterationOrder;
  so_filter_context : option FilterContext;
}.

(** [scan_with_options] *)
Definition scan_with_options (store : TableReads F) (oracle : Oracle) (range : BytesRange.t) (options : ScanOptions)
    (st : DbStateReader) (batch : option WriteBatchIterator) (max_seq : option Z) (prefix : option bytes) : result DbIterator :=
  let max_seq := prepare_max_seq oracle max_seq (so_durability_filter options) (so_dirty options) in
  let sst_options := mkSstOptions (so_max_fetch_tasks options) (so_read_ahead_bytes options) (so_cache_blocks options)
    true true (so_order options) prefix (so_filter_context options) in
  '(mem_iters, segment_iter) ← build_iterator_sources store range st sst_options max_seq;
  db_iterator_new range batch mem_iters segment_iter max_seq (so_order options).
End db_iter.
