(* ===== verification/DbReads.v ===== *)
(** * What a read returns ([db_iter.rs], [reader.rs])

    Point reads and scans against one specification: the rows a read may see, source by source with the
    newest source first, determine for every key the value a reader finds by applying the merge operands
    of the key onto the newest value below them. *)

From S2P Require Export DbIter.

(** ** One row per key *)

Definition key_dir_lt (o : IterationOrder) (a b : bytes) : Prop :=
  match o with Ascending => a ≺ b | Descending => b ≺ a end.

(** Rows in the order of a scan in which only merge operands are followed by rows of their key. *)
Definition reduced (o : IterationOrder) : list RowEntry → Prop :=
  StronglySorted (λ a b, key_dir_le o (key a) (key b) ∧ (key a = key b → is_merge (value a) = true)).

Lemma key_dir_le_antisym o a b : key_dir_le o a b → key_dir_le o b a → a = b.
Proof. destruct o; cbn; ord. Qed.

Lemma key_dir_lt_alt o a b : key_dir_lt o a b ↔ key_dir_le o a b ∧ a ≠ b.
Proof.
  destruct o; cbn; split.
  - intros Hab. split; [by apply ord_lt_le|]. intros ->. by apply ord_lt_irrefl in Hab.
  - intros [Hle Hne]. apply ord_le_alt in Hle as [|]; [done|congruence].
  - intros Hab. split; [by apply ord_lt_le|]. intros ->. by apply ord_lt_irrefl in Hab.
  - intros [Hle Hne]. apply ord_le_alt in Hle as [|]; [done|congruence].
Qed.

(** Deduplicated rows are reduced. *)
Lemma dedup_reduced o skip l : StronglySorted (λ a b, key_dir_le o (key a) (key b)) l →
  (∀ s, skip = Some s → Forall (λ e, key_dir_le o s (key e)) l) →
  reduced o (dedup_rows skip l) ∧ ∀ s, skip = Some s → Forall (λ e, key e ≠ s) (dedup_rows skip l).
Proof.
  revert skip. induction l as [|e l IH]; intros skip Hs Hskip; [split; [constructor|done]|].
  apply StronglySorted_cons in Hs as [He Hs]. cbn [dedup_rows].
  assert (∀ s, skip = Some s → Forall (λ e, key_dir_le o s (key e)) l) as Hskip' by (intros s Hss; by eapply Forall_cons_1, Hskip).
  case_bool_decide as Hk; [by apply IH|].
  destruct (IH (if is_merge (value e) then None else Some (key e))) as [Hr Hn]; [done| |].
  { intros s. by destruct (is_merge (value e)); intros [= <-]. }
  split.
  - constructor; [done|]. apply Forall_forall. intros x Hx. rewrite Forall_forall in He. split; [by eapply He, dedup_sublist|].
    intros Hkx. destruct (is_merge (value e)) eqn:Hm; [done|]. specialize (Hn _ eq_refl). rewrite Forall_forall in Hn. by destruct (Hn x Hx).
  - intros s ->. specialize (Hskip s eq_refl). apply Forall_cons in Hskip as [Hse Hsl]. constructor; [congruence|].
    apply Forall_forall. intros x Hx Hxs. apply dedup_sublist in Hx. rewrite Forall_forall in He. specialize (He x Hx).
    apply Hk. f_equal. rewrite Hxs in He. by eapply key_dir_le_antisym.
Qed.

Lemma reduced_suffix o a b : reduced o (a ++ b) → reduced o b.
Proof. intros (_ & _ & Hb)%StronglySorted_app. done. Qed.

Lemma key_dir_le_lt o a b c : key_dir_lt o a b → key_dir_le o b c → key_dir_lt o a c.
Proof. destruct o; cbn; ord. Qed.

Lemma key_dir_le_refl o a : key_dir_le o a a.
Proof. destruct o; cbn; ord. Qed.

(** Behind the run of an operand there is no row of its key. *)
Lemma split_run_rest o k ex l ops base rest : reduced o l → Forall (λ x, key_dir_le o k (key x)) l →
  split_run true k ex l = (ops, base, rest) → reduced o rest ∧ Forall (λ x, key_dir_lt o k (key x)) rest.
Proof.
  revert ops base rest. induction l as [|x l IH]; intros ops base rest Hr Hle Hs; cbn [split_run] in Hs.
  { injection Hs as <- <- <-. by split. }
  unfold is_matching_entry in Hs. rewrite orb_true_l, andb_true_r in Hs. pose proof Hr as Hr0. apply StronglySorted_cons in Hr as [Hx Hr].
  apply Forall_cons in Hle as [Hkx Hle]. case_bool_decide as Hk.
  - destruct (is_merge (value x)) eqn:Hm.
    + destruct (split_run true k ex l) as [[ops' base'] rest']. injection Hs as <- <- <-. by eapply IH.
    + injection Hs as <- <- <-. split; [done|]. rewrite Forall_forall in Hx, Hle |- *. intros y Hy. apply key_dir_lt_alt. split; [by apply Hle|].
      intros ->. destruct (Hx y Hy) as [_ Hxy]. specialize (Hxy Hk). congruence.
  - injection Hs as <- <- <-. split; [done|]. assert (key_dir_lt o k (key x)) as Hlt by (apply key_dir_lt_alt; split; [done|congruence]).
    constructor; [done|]. eapply Forall_impl; [exact Hx|]. intros y [Hxy _]. by eapply key_dir_le_lt.
Qed.

Section resolved.
  Context `{MergeOperatorLaws f}.

(** The resolved rows have one row per key, in order. *)
Lemma resolve_keys o n l : reduced o l → length l ≤ n →
  StronglySorted (λ a b, key_dir_lt o (key a) (key b)) (resolve f n true None l) ∧
  ∀ k, Forall (λ x, key_dir_lt o k (key x)) l → Forall (λ x, key_dir_lt o k (key x)) (resolve f n true None l).
Proof.
  revert l. induction n as [|n IH]; intros [|e l] Hr Hn; cbn [length] in Hn; try (split; [constructor|done]).
  pose proof Hr as Hr0. apply StronglySorted_cons in Hr as [He Hr]. cbn [resolve]. unfold passes. rewrite orb_false_r.
  destruct (is_merge (value e)) eqn:Hm; cbn [negb].
  - destruct (split_run true (key e) (expire_ts e) (e :: l)) as [[ops base] rest] eqn:Hs.
    destruct (split_run_head _ _ _ _ _ _ Hm Hs) as (ops' & -> & Hlen).
    destruct (split_run_rest o _ _ _ _ _ _ Hr0 ltac:(constructor; [apply key_dir_le_refl|]; eapply Forall_impl; [exact He|]; by intros ? [? _]) Hs) as [Hrest Hlt].
    destruct (IH rest Hrest ltac:(lia)) as [Hsr Hk]. split; [constructor; [done|]; by apply Hk|].
    intros k [Hke Hkl]%Forall_cons. constructor; [done|]. apply Hk. destruct (split_run_spec _ _ _ _ _ _ _ Hs) as (Hl & _ & _).
    apply (f_equal tail) in Hl. cbn in Hl. rewrite Hl in Hkl. apply Forall_app in Hkl as [_ Hkl]. by apply Forall_app in Hkl as [_ Hkl].
  - destruct (IH l Hr ltac:(lia)) as [Hsr Hk]. split; [|intros k [Hke Hkl]%Forall_cons; constructor; [done|by apply Hk]].
    constructor; [done|]. apply Hk. eapply Forall_impl; [exact He|]. intros x [Hx Hne]. apply key_dir_lt_alt. split; [done|].
    intros Heq. specialize (Hne Heq). congruence.
Qed.

Lemma resolve_rows_length n l : length (resolve f n true None l) ≤ length l.
Proof.
  revert l. induction n as [|n IH]; intros [|e l]; cbn [resolve length]; try lia. unfold passes. rewrite orb_false_r.
  destruct (is_merge (value e)) eqn:Hm; cbn [negb]; [|specialize (IH l); cbn [length]; lia].
  destruct (split_run true (key e) (expire_ts e) (e :: l)) as [[ops base] rest] eqn:Hs.
  destruct (split_run_head _ _ _ _ _ _ Hm Hs) as (_ & _ & Hlen). specialize (IH rest). cbn [length]. lia.
Qed.

(** A resolved row shows its bytes: merging them once more onto nothing changes nothing. *)
Lemma resolved_value n l e : e ∈ resolve f n true None l → read_value f (key e) [e] = as_bytes (value e).
Proof.
  revert l. induction n as [|n IH]; intros [|x l]; try (intros []%not_elem_of_nil). cbn [resolve]. unfold passes. rewrite orb_false_r.
  destruct (is_merge (value x)) eqn:Hm; cbn [negb].
  - destruct (split_run true (key x) (expire_ts x) (x :: l)) as [[ops base] rest] eqn:Hs. intros [->|He]%elem_of_cons; [|by eapply IH].
    destruct (split_run_head _ _ _ _ _ _ Hm Hs) as (ops' & -> & _). destruct (split_run_spec _ _ _ _ _ _ _ Hs) as (_ & Hops & _).
    unfold merged_row. cbn [key value read_value as_bytes]. destruct base as [b|]; cbn [value as_bytes read_value]; [done|].
    set (os := operands_of (reverse (x :: ops'))). cbn [mbind option_bind].
    assert (os ≠ []) as Hne.
    { intros Hnil. apply (f_equal length) in Hnil. unfold os in Hnil. rewrite operands_of_merges in Hnil; [by rewrite length_reverse in Hnil|].
      apply Forall_reverse. eapply Forall_impl; [exact Hops|]. by intros ? [_ ?]. }
    destruct (apply_all_some (f:=f) (key x) None os Hne) as [r Hr]. rewrite Hr. cbn. f_equal.
    pose proof (apply_all_batch (f:=f) (key x) None os r Hr) as Hb. congruence.
  - intros [->|He]%elem_of_cons; [|by eapply IH]. cbn. by destruct (value x).
Qed.
End resolved.

(** ** The pairs of a database iterator *)

(** The pair of a row that is not a tombstone. *)
Definition kv_of (e : RowEntry) : option KeyValue :=
  (λ v, mkKeyValue (key e) v (seq e) (default 0%Z (create_ts e)) (expire_ts e)) <$> as_bytes (value e).

Section db_yields.
  Context {B F : Type} `{FilterTraits B F} (Heap : Type → Type) `{HeapFamily Heap} (fuel : nat) (operator : option MergeOperator).
  Local Notation next := (db_next Heap fuel operator).
  Local Notation row_yields := (yields (H:=row_iterator Heap fuel operator)).

(** The iterator returns the pairs of [l], then [None]. *)
Fixpoint db_yields (d : DbIterator Heap (F:=F)) (l : list KeyValue) : Prop :=
  match l with
  | [] => ∃ d', next d = (Ok None, d')
  | kv :: l => ∃ d', next d = (Ok (Some kv), d') ∧ db_yields d' l
  end.

(** [R] relates an iterator over rows to the rows it returns. *)
Definition row_steps (R : RowIterator Heap (F:=F) → list RowEntry → Prop) : Prop :=
  ∀ it l, R it l →
    match l with
    | [] => ∃ it', it_next (RowEntryIterator:=row_iterator Heap fuel operator) it = Ok (None, it')
    | e :: l => ∃ it', it_next (RowEntryIterator:=row_iterator Heap fuel operator) it = Ok (Some e, it') ∧ R it' l
    end.

Lemma skip_tombstones_ok R n it l : row_steps R → R it l → length l < n →
  match omap kv_of l with
  | [] => ∃ it', skip_tombstones Heap fuel operator n it = Ok (None, it')
  | kv :: kvs => ∃ e it' l', skip_tombstones Heap fuel operator n it = Ok (Some e, it') ∧ entry_to_kv (Some e) = Ok (Some kv) ∧
      R it' l' ∧ omap kv_of l' = kvs ∧ length l' < length l
  end.
Proof.
  intros HR. revert it l. induction n as [|n IH]; intros it l Hy Hn; [lia|]. cbn [skip_tombstones]. apply HR in Hy. destruct l as [|e l].
  - destruct Hy as (it' & Hi). rewrite Hi. run. by exists it'.
  - destruct Hy as (it' & Hi & Hy). rewrite Hi. run. cbn [omap list_omap length] in *.
    unfold kv_of at 1. unfold entry_to_kv. destruct (value e) as [v|v|] eqn:Hv; cbn [as_bytes fmap option_fmap option_map].
    + exists e, it', l. unfold key_value_from. rewrite Hv. cbn. run. split_and!; [done|done|done|done|lia].
    + exists e, it', l. unfold key_value_from. rewrite Hv. cbn. run. split_and!; [done|done|done|done|lia].
    + specialize (IH it' l Hy ltac:(lia)). destruct (omap kv_of l) as [|kv kvs]; [done|].
      destruct IH as (e' & it2 & l2 & Hs & Hkv & Hy2 & Ho & Hlen). exists e', it2, l2. split_and!; [done|done|done|done|lia].
Qed.

Lemma yields_steps : row_steps (λ it l, row_yields it l).
Proof. by intros it [|e l]. Qed.

Lemma db_yields_rows d l : di_invalidated Heap d = None → row_yields (di_iter Heap d) l → length l < fuel → db_yields d (omap kv_of l).
Proof.
  remember (length l) as n eqn:Hn. revert d l Hn. induction (lt_wf n) as [n _ IH]. intros d l -> Hd Hy Hf.
  pose proof (skip_tombstones_ok _ fuel _ l yields_steps Hy Hf) as Hs. destruct (omap kv_of l) as [|kv kvs]; cbn [db_yields]; unfold db_next, next_entry; rewrite Hd.
  - destruct Hs as (it' & ->). eexists. by run.
  - destruct Hs as (e & it' & l' & -> & Hkv & Hy' & <- & Hlen). eexists. split; [run; by rewrite Hkv|]. by apply (IH (length l')); [done|done|done|done|lia].
Qed.
End db_yields.

(** ** Memtables and batches in either direction *)

Definition mem_rel (o : IterationOrder) (it : MemTableIterator) (returned l : list RowEntry) : Prop :=
  match o with
  | Ascending => mem_scan it returned l
  | Descending => ∃ stack l0 out, desc_mem it stack l0 ∧ descends l0 out ∧ l = stack ++ out
  end.

Global Instance mem_rel_next o : Scan (mem_rel o).
Proof.
  destruct o; [apply mem_scan_next|]. intros it returned l (stack & l0 & out & Hm & Hd & ->). unfold it_next. cbn [memtable_iterator].
  destruct stack as [|x stack]; [|destruct (desc_mem_pop _ _ _ _ Hm) as (it' & -> & Hm'); exists it'; split; [done|]; by exists stack, l0, out].
  destruct Hd as [|a g e out Hg Ha Hd].
  - destruct Hm as (Ho & Hs & Hi & Hin). cbn in Hi, Hin, Hs. eexists. split; [|exists [], [], []].
    + unfold next_sync. rewrite Ho. unfold MemTable.next_descending. by rewrite Hs, decide_True, Hi.
    + split; [|split; [constructor|done]]. unfold desc_mem. cbn. by rewrite Hin.
  - destruct (desc_mem_next it _ a g e eq_refl Hg Ha Hm) as (x & stack & it' & Hx & -> & Hm'). cbn [app].
    replace (g ++ e :: out) with (x :: stack ++ out); [|change (e :: out) with ([e] ++ out); rewrite app_assoc, Hx; done].
    exists it'. split; [done|]. by exists stack, a, out.
Qed.

Global Instance mem_rel_advance : ScanAdvance (mem_rel Ascending).
Proof. apply (scan_seek_advance mem_scan). Qed.

Lemma versions_at_perm k s (a b : list RowEntry) : a ≡ₚ b → length (versions_at k s b) ≤ 1 → versions_at k s a = versions_at k s b.
Proof.
  intros Hp Hb. assert (versions_at k s a ≡ₚ versions_at k s b) as Hv by by rewrite Hp.
  destruct (versions_at k s b) as [|x [|y l]]; [by apply Permutation_nil_r in Hv|by apply Permutation_singleton_r in Hv|cbn in Hb; lia].
Qed.

Lemma table_versions k s (l : list RowEntry) : StronglySorted (λ a b, row_key a ≺ row_key b) l → length (versions_at k s l) ≤ 1.
Proof.
  induction 1 as [|e l Hs IH He]; [cbn; lia|]. rewrite filter_cons. case_decide as Hv; [|done]. cbn [length].
  rewrite list_filter_none; [cbn; lia|]. eapply Forall_impl; [exact He|]. intros x Hx Hvx. unfold same_version in *. apply bool_decide_eq_true in Hv as [<- <-], Hvx as [Hk Hq].
  unfold row_key in Hx. rewrite Hk, Hq in Hx. by apply ord_lt_irrefl in Hx.
Qed.

Lemma contains_bounds (r : BytesRange.t) k : range_contains (range_new (start_of r) (end_of r)) k = BytesRange.contains r k.
Proof. by destruct r as [[[]]]. Qed.

(** A range of a memtable, in either direction. *)
Lemma table_range_opens t (range : BytesRange.t) o : map_ok (table_map t) →
  ∃ out, opens (mem_rel o) (table_range t (start_of range) (end_of range) o) out ∧ StronglySorted (row_le o) out ∧
    out ≡ₚ rows_in range (table_rows t) ∧ ∀ k s, versions_at k s out = versions_at k s (rows_in range (table_rows t)).
Proof.
  intros Hm. assert (StronglySorted (λ a b, row_key a ≺ row_key b) (table_rows t)) as Hs by by apply map_rows_sorted.
  assert (filter (λ r, range_contains (range_new (start_of range) (end_of range)) (key r) = true) (table_rows t) = rows_in range (table_rows t)) as Hf.
  { unfold rows_in. apply list_filter_iff. intros e. by rewrite contains_bounds. }
  assert (StronglySorted (λ a b, row_key a ≺ row_key b) (rows_in range (table_rows t))) as Hs' by (eapply StronglySorted_sublist; [apply sublist_filter|done]).
  destruct o.
  - exists (rows_in range (table_rows t)). split; [|split; [|done]].
    + eexists. split; [done|]. cbn. rewrite <- Hf. by apply table_range_ascending.
    + eapply StronglySorted_weaken; [|done]. intros a b. apply row_key_lt_row_le.
  - destruct (descends_total (rows_in range (table_rows t))) as [out Hd]. exists out. split; [|split; [by eapply descends_sorted|split]].
    + eexists. split; [done|]. exists [], (rows_in range (table_rows t)), out. split; [|done]. rewrite <- Hf. by apply table_range_descending.
    + by apply descends_perm.
    + intros k s. apply versions_at_perm; [by apply descends_perm|by apply table_versions].
Qed.

Definition batch_rel (o : IterationOrder) (it : WriteBatchIterator) (returned l : list RowEntry) : Prop :=
  match o with Ascending => batch_scan it returned l | Descending => wb_iter it = l end.

Global Instance batch_rel_next o : Scan (batch_rel o).
Proof.
  destruct o; [apply batch_scan_next|]. intros it ret l <-. unfold it_next. cbn [batch_iterator]. destruct (wb_iter it) eqn:Hi; by eexists.
Qed.

Global Instance batch_rel_advance : ScanAdvance (batch_rel Ascending).
Proof. apply (scan_seek_advance batch_scan). Qed.

(** A batch iterator that was built in the direction of the scan. *)
Lemma batch_opens o it : wb_ordering it = o → StronglySorted (row_le o) (wb_iter it) → opens (batch_rel o) it (wb_iter it).
Proof.
  intros Ho Hs. exists it. split; [done|]. destruct o; [|done]. split; [done|]. split; [done|]. by apply sorted_keys_le.
Qed.

(** ** The sources at the top *)

Section top.
  Context {B F : Type} `{FilterTraits B F} (Heap : Type → Type) `{HeapFamily Heap} (fuel : nat).
  Context (o : IterationOrder) `{!HeapFamilyLaws Heap o}.
  Context (srel : SegmentIterator Heap (F:=F) → list RowEntry → list RowEntry → Prop).

Definition top_scan (x : TopIterator Heap (F:=F)) (returned l : list RowEntry) : Prop :=
  match x with
  | TopEmpty _ => l = []
  | TopBatch _ b => batch_rel o b returned l
  | TopMem _ m => filtered_scan (mem_rel o) fuel o m returned l
  | TopMems _ m => merge_scan o (filtered_scan (mem_rel o) fuel o) (H0:=filtered_iterator fuel) fuel true m returned l
  | TopSegment _ s => filter_scan srel fuel o s returned l
  end.

Lemma top_scan_next `{!Scan (H:=segment_iterator Heap fuel) srel} : Scan (H:=top_iterator Heap fuel) top_scan.
Proof.
  intros x returned l Hx. unfold it_next. destruct x as [|b|m|m|s]; cbn [top_scan top_iterator] in *.
  - subst l. by eexists.
  - pose proof (scan_next b returned l Hx) as Hn. destruct l; destruct Hn as (b' & -> & Hr); run; by exists (TopBatch Heap b').
  - pose proof (filtered_scan_next (mem_rel o) fuel o m returned l Hx) as Hn. unfold mem_filtered.
    destruct l; destruct Hn as (m' & -> & Hr); run; by exists (TopMem Heap m').
  - pose proof (filtered_scan_next (mem_rel o) fuel o) as Hf.
    pose proof (merge_scan_next o (filtered_scan (mem_rel o) fuel o) (H0:=filtered_iterator fuel) fuel true m returned l Hx) as Hn.
    unfold any_merge_iterator, mem_filtered, MemMerge. destruct l; destruct Hn as (m' & -> & Hr); run; by exists (TopMems Heap m').
  - pose proof (filter_scan_next (H:=segment_iterator Heap fuel) srel fuel o s returned l Hx) as Hn. unfold top_filter_iterator, seg_iterator.
    destruct l; destruct Hn as (s' & -> & Hr); run; by exists (TopSegment Heap s').
Qed.
End top.

(** ** The rows a read may see *)

(** The segments of a manifest; one without segments is its tree. *)
Definition read_segments (c : ManifestCore) : list Segment :=
  if decide (segments c = []) then [default_segment c] else segments c.

Definition tables (st : DbStateReader) : list KVTable := sr_memtable st :: (imm_table <$> sr_imm_memtable st).

(** The rows of the L0 views of a tree and of the views of each of its sorted runs. *)
Notation tree_rows := (list (list RowEntry) * list (list (list RowEntry)))%type.

Definition tree_sources (d : tree_rows) : list (list RowEntry) := d.1 ++ ((λ vrss, concat vrss) <$> d.2).

(** The sources of a read, newest first: the memtables, then the tables and runs of the tree of each segment. *)
Definition db_sources (st : DbStateReader) (data : list tree_rows) : list (list RowEntry) :=
  (table_rows <$> tables st) ++ concat (tree_sources <$> data).

Definition visible (max_seq : option Z) (l : list RowEntry) : list RowEntry := filter (λ e, seq_at_most max_seq e = true) l.

Definition batch_rows (batch : option WriteBatchIterator) : list RowEntry := from_option wb_iter [] batch.

(** All a read may see: the batch of its transaction, and of the sources what its sequence number admits. *)
Definition read_rows (batch : option WriteBatchIterator) (max_seq : option Z) (sources : list (list RowEntry)) : list RowEntry :=
  batch_rows batch ++ visible max_seq (concat sources).

(** The state of a reader: its memtables are in order, its segments are sorted and prefix-free, its tables can be read and
    show the rows [data], and the tree of a segment has only keys with the prefix of the segment. *)
Record state_ok {B F} `{FilterTraits B F} (store : TableReads F) (st : DbStateReader) (data : list tree_rows) : Prop := {
  so_tables : Forall (λ t, map_ok (table_map t)) (tables st);
  so_segs : segs_ok (segments (sr_core st));
  so_antichain : antichain (seg_prefix <$> segments (sr_core st));
  so_readable : Forall2 (λ s d, tree_readable store (seg_tree s) d.1 d.2) (read_segments (sr_core st)) data;
  so_prefix : Forall2 (λ s d, Forall (λ e, seg_prefix s `prefix_of` key e) (concat (tree_sources d))) (read_segments (sr_core st)) data;
  so_sorted : Forall (λ d, Forall (StronglySorted (row_le Ascending)) (tree_sources d)) data;
}.

(** The iterator over a batch, built for the range and the direction of the read. *)
Definition batch_ok (batch : option WriteBatchIterator) (range : BytesRange.t) (o : IterationOrder) : Prop :=
  match batch with
  | Some b => wb_ordering b = o ∧ StronglySorted (row_le o) (wb_iter b) ∧ Forall (λ e, BytesRange.contains range (key e) = true) (wb_iter b)
  | None => True
  end.

(** What holds of a read: per key, newer sources have newer rows; no two sources share a version. *)
Record read_ok {B F} `{FilterTraits B F} (store : TableReads F) (st : DbStateReader) (data : list tree_rows)
    (batch : option WriteBatchIterator) (max_seq : option Z) (range : BytesRange.t) (o : IterationOrder) (fuel : nat) : Prop := {
  ok_state : state_ok store st data;
  ok_batch : batch_ok batch range o;
  ok_newest : newest_first (read_rows batch max_seq (db_sources st data));
  ok_distinct : distinct (batch_rows batch :: db_sources st data);
  ok_fuel : length (batch_rows batch) + length (concat (db_sources st data)) < fuel;
}.

Section selecting.
  Context {B F : Type} `{FilterTraits B F} (store : TableReads F) (st : DbStateReader) (data : list tree_rows).
  Context (Hst : state_ok store st data) (range : BytesRange.t).

(** The segments a range selects; the other segments have no row in the range. *)
Lemma selected_ok : ∃ a b, selected_segments (sr_core st) range = Ok (take (b - a) (drop a (read_segments (sr_core st)))) ∧
  a ≤ b ∧ b ≤ length data ∧
  (∀ i d, data !! i = Some d → ¬ (a ≤ i < b) → rows_in range (concat (tree_sources d)) = []) ∧
  (∀ k, range = point k → b - a ≤ 1).
Proof.
  pose proof (Forall2_length _ _ _ (so_readable _ _ _ Hst)) as Hlen. unfold selected_segments.
  unfold read_segments in *. case_decide as Hnil.
  - exists 0, 1. unfold select_segments. rewrite decide_True by done. run. cbn in Hlen. split; [done|]. split; [lia|]. split; [lia|]. split; [|lia].
    intros i d Hi Hnot. apply lookup_lt_Some in Hi. lia.
  - pose proof (so_prefix _ _ _ Hst) as Hpre. unfold read_segments in Hpre. rewrite decide_False in Hpre by done.
    destruct (select_segments_ok (sr_core st) range Hnil (so_segs _ _ _ Hst) (so_antichain _ _ _ Hst)) as (a & b & -> & Hab & Hb & Hin & Hout).
    exists a, b. run. split; [done|]. split; [done|]. split; [by rewrite <- Hlen|]. split.
    + intros i d Hi Hnot. apply list_filter_none, Forall_forall. intros e He Hc. destruct (Forall2_lookup_r _ _ _ _ _ Hpre Hi) as (s & Hs & Hp).
      rewrite Forall_forall in Hp. apply Hnot. by eapply Hin, Hp.
    + intros k ->. destruct (decide (b - a ≤ 1)) as [|Hgt]; [done|]. exfalso.
      destruct (lookup_lt_is_Some_2 (segments (sr_core st)) a ltac:(lia)) as [s Hs].
      destruct (lookup_lt_is_Some_2 (segments (sr_core st)) (S a) ltac:(lia)) as [s' Hs'].
      assert (∀ i x, segments (sr_core st) !! i = Some x → a ≤ i < b → seg_prefix x `prefix_of` k) as Hpk.
      { intros i x Hx Hi. destruct (Hout i x Hx Hi) as [Hr He]. cbn in Hr, He. destruct Hr as [Hlt|?]; [|done].
        unfold end_admits in He. cbn in He. apply ord_leb_true in He. exfalso. revert Hlt He. ord. }
      assert (seg_prefix s ≺ seg_prefix s') as Hlt.
      { apply (sorted_lookup _ _ a (S a) _ _ (so_segs _ _ _ Hst)); [lia|done|done]. }
      assert (∀ i x, segments (sr_core st) !! i = Some x → seg_prefix x ∈ seg_prefix <$> segments (sr_core st)) as Hin'.
      { intros i x Hx. by eapply list_elem_of_fmap_2, list_elem_of_lookup_2. }
      pose proof (Hpk a s Hs ltac:(lia)) as Hp. pose proof (Hpk (S a) s' Hs' ltac:(lia)) as Hp'.
      assert (nested (seg_prefix s) (seg_prefix s') ∨ nested (seg_prefix s') (seg_prefix s)) as [Hn|Hn].
      { unfold nested. destruct (prefix_weak_total _ _ _ Hp Hp') as [?|?]; [left|right]; (split; [done|]); intros Heq; rewrite Heq in Hlt; by apply ord_lt_irrefl in Hlt. }
      * by apply (so_antichain _ _ _ Hst _ _ (Hin' _ _ Hs) (Hin' _ _ Hs')).
      * by apply (so_antichain _ _ _ Hst _ _ (Hin' _ _ Hs') (Hin' _ _ Hs)).
Qed.
End selecting.

(** ** Point reads *)

Lemma walk_rows_elem e l : e ∈ walk_rows l → e ∈ l.
Proof. induction l as [|x l IH]; [done|]. cbn. destruct (value x); set_solver. Qed.

Lemma walk_rows_length l : length (walk_rows l) ≤ length l.
Proof. induction l as [|x l IH]; [done|]. cbn. destruct (value x); cbn; lia. Qed.

Lemma visible_app max_seq a b : visible max_seq (a ++ b) = visible max_seq a ++ visible max_seq b.
Proof. apply filter_app. Qed.

Lemma visible_concat max_seq ls : concat (visible max_seq <$> ls) = visible max_seq (concat ls).
Proof. induction ls as [|l ls IH]; [done|]. cbn [fmap list_fmap concat]. by rewrite IH, visible_app. Qed.

Lemma rows_in_app r a b : rows_in r (a ++ b) = rows_in r a ++ rows_in r b.
Proof. apply filter_app. Qed.

Lemma rows_in_concat r ls : concat (rows_in r <$> ls) = rows_in r (concat ls).
Proof. induction ls as [|l ls IH]; [done|]. cbn [fmap list_fmap concat]. by rewrite IH, rows_in_app. Qed.

Lemma one_key_sorted k o o' l : Forall (λ e, key e = k) l → StronglySorted (row_le o) l → StronglySorted (row_le o') l.
Proof.
  intros Hk. induction 1 as [|e l Hs IH He]; [constructor|]. apply Forall_cons in Hk as [Hke Hk]. constructor; [by apply IH|].
  rewrite Forall_forall in Hk, He |- *. intros x Hx. specialize (He x Hx). unfold row_le, kv_cmp in *. rewrite Hke, (Hk x Hx), cmp_refl in *. by destruct o, o'.
Qed.

Lemma Forall2_with_r {A C} (R Q : A → C → Prop) (P : C → Prop) xs ys :
  Forall2 R xs ys → Forall P ys → (∀ x y, R x y → P y → Q x y) → Forall2 Q xs ys.
Proof. intros HR. induction HR; intros HP HQ; [constructor|]. apply Forall_cons in HP as [? ?]. constructor; auto. Qed.

Lemma one_key_le k (l : list RowEntry) : Forall (λ e, key e = k) l → StronglySorted (λ a b, key a ≼ key b) l.
Proof.
  induction 1 as [|e l He Hl IH]; [constructor|]. constructor; [done|]. eapply Forall_impl; [exact Hl|]. intros x Hx. cbn. rewrite He, Hx. ord.
Qed.

(** A memtable behind the filter on sequence numbers. *)
Lemma mem_filtered_opens t (range : BytesRange.t) o max_seq fuel : map_ok (table_map t) → length (table_rows t) < fuel →
  ∃ out, opens (H:=filtered_iterator fuel) (filtered_scan (mem_rel o) fuel o)
      (apply_filter max_seq (table_range t (start_of range) (end_of range) o)) (visible max_seq out) ∧
    StronglySorted (row_le o) out ∧ out ≡ₚ rows_in range (table_rows t) ∧
    ∀ k s, versions_at k s out = versions_at k s (rows_in range (table_rows t)).
Proof.
  intros Hm Hf. destruct (table_range_opens t range o Hm) as (out & Ho & Hs & Hp & Hv). exists out. split; [|done].
  apply apply_filter_opens; [done| |].
  - rewrite Hp. unfold rows_in. pose proof (length_filter (λ e, BytesRange.contains range (key e) = true) (table_rows t)). lia.
  - intros ->. by apply sorted_keys_le.
Qed.

Lemma length_concat_elem {A} (l : list A) ls : l ∈ ls → length l ≤ length (concat ls).
Proof. induction 1 as [|x y l' Hin IH]; cbn; rewrite length_app; lia. Qed.

Lemma visible_rows_in max_seq r l : visible max_seq (rows_in r l) = rows_in r (visible max_seq l).
Proof. unfold visible, rows_in. rewrite !list_filter_filter. apply list_filter_iff. tauto. Qed.

Lemma visible_all max_seq l : Forall (λ e, seq_at_most max_seq e = true) l → visible max_seq l = l.
Proof. apply list_filter_all. Qed.

(** The batch of a transaction as a source. *)
Definition batch_source {F} (Heap : Type → Type) (batch : option WriteBatchIterator) : TopIterator Heap (F:=F) :=
  match batch with Some b => TopBatch Heap b | None => TopEmpty Heap end.

Lemma batch_source_opens {B F} `{FilterTraits B F} (Heap : Type → Type) `{HeapFamily Heap} fuel o srel range batch : batch_ok batch range o →
  opens (H:=top_iterator Heap fuel) (top_scan (F:=F) Heap fuel o srel) (batch_source Heap batch) (batch_rows batch).
Proof.
  destruct batch as [b|]; [|by eexists]. intros (Ho & Hs & _). destruct (batch_opens o b Ho Hs) as (b' & Hi & Hr). exists (TopBatch Heap b'). split; [|done].
  unfold it_init. cbn [top_iterator batch_source]. rewrite Hi. by run.
Qed.

Section get.
  Context {B F : Type} `{FilterTraits B F} (Heap : Type → Type) `{HeapFamily Heap} (fuel : nat).
  Context (store : TableReads F) (opts : SstIteratorOptions) (k : bytes) (Hopts : scan_options_ok opts (point k)).
  Local Notation o := (opt_order opts).
  Local Notation ctx := (mkContext store (point k) opts).

Definition seg_point_scan (x : SegmentIterator Heap (F:=F)) (returned l : list RowEntry) : Prop :=
  match x with
  | SegPoint _ g => get_scan (H:=filtered_iterator fuel) (filtered_scan (leaf_scan o) fuel o) g returned l
  | SegNone _ => l = []
  | SegRange _ _ => False
  end.

Lemma seg_point_next : Scan (H:=segment_iterator Heap fuel) seg_point_scan.
Proof.
  intros [g| |it] returned l Hx; cbn in Hx; [| |done]; unfold it_next; cbn [segment_iterator].
  - pose proof (filtered_scan_next (leaf_scan o) fuel o) as Hf.
    pose proof (get_scan_next (H:=filtered_iterator fuel) (filtered_scan (leaf_scan o) fuel o) g returned l Hx) as Hn.
    destruct l; destruct Hn as (g' & -> & Hr); run; by exists (SegPoint Heap g').
  - subst l. by exists (SegNone Heap).
Qed.

Lemma from_lsm_tree_opens t d max_seq : tree_readable store t d.1 d.2 → length (concat (tree_sources d)) < fuel →
  ∃ g, from_lsm_tree k t ctx max_seq = Ok g ∧
    opens (H:=get_iterator (H:=filtered_iterator fuel)) (get_scan (H:=filtered_iterator fuel) (filtered_scan (leaf_scan o) fuel o)) g
      (walk_rows (visible max_seq (rows_in (point k) (concat (tree_sources d))))).
Proof.
  intros [Hl0 Hl0ok Hsr] Hfuel. unfold from_lsm_tree.
  destruct (view_point_leaves store opts k Hopts (l0 t) d.1 Hl0 Hl0ok) as (its1 & ls1 & -> & Ho1 & Hc1). run.
  destruct (run_point_leaves store opts k Hopts (compacted t) d.2 Hsr) as (its2 & ls2 & -> & Ho2 & Hc2). run.
  eexists. split; [done|]. eexists. split; [done|]. exists (visible max_seq <$> (ls1 ++ ls2)). cbn [get_new get_sources get_current].
  assert (concat (ls1 ++ ls2) = rows_in (point k) (concat (tree_sources d))) as Hc.
  { unfold tree_sources. rewrite !concat_app, rows_in_app, Hc1, Hc2, rows_in_concat. f_equal. f_equal. clear. induction d.2 as [|x xs IH]; [done|]. cbn. by rewrite concat_app, IH. }
  split; [|by rewrite visible_concat, Hc].
  assert (Forall (λ l, length l < fuel ∧ Forall (λ e, key e = k) l) (ls1 ++ ls2)) as Hall.
  { apply Forall_forall. intros l Hl. pose proof (point_rows_key k (concat (tree_sources d))) as Hk. rewrite <- Hc in Hk. split.
    - pose proof (length_concat_elem _ _ Hl) as Hle.
      rewrite Hc in Hle. unfold rows_in in Hle. pose proof (length_filter (λ e, BytesRange.contains (point k) (key e) = true) (concat (tree_sources d))). lia.
    - apply Forall_forall. intros e He. rewrite Forall_forall in Hk. apply Hk. apply elem_of_concat. by exists l. }
  unfold apply_filters. apply Forall2_fmap_2. eapply Forall2_with_r; [by apply Forall2_app|exact Hall|].
  intros it l Hopen [Hlen Hkeys]. apply apply_filter_opens; [done|done|]. intros _. by apply (one_key_le k).
Qed.

Lemma concat_sublist {A} (a b : list (list A)) : sublist a b → sublist (concat a) (concat b).
Proof. induction 1; cbn; [done|by apply sublist_app|by apply sublist_inserts_l]. Qed.

(** The rows in the range of the segments that are not selected are none. *)
Lemma selected_rows (range : BytesRange.t) (data : list tree_rows) a b : a ≤ b → b ≤ length data →
  (∀ i d, data !! i = Some d → ¬ (a ≤ i < b) → rows_in range (concat (tree_sources d)) = []) →
  rows_in range (concat (concat (tree_sources <$> take (b - a) (drop a data)))) = rows_in range (concat (concat (tree_sources <$> data))).
Proof.
  intros Hab Hb Hout.
  assert (∀ l : list tree_rows, (∀ d, d ∈ l → rows_in range (concat (tree_sources d)) = []) → rows_in range (concat (concat (tree_sources <$> l))) = []) as Hnil.
  { induction l as [|d l IH]; intros Hd; [done|]. cbn [fmap list_fmap concat]. rewrite concat_app, rows_in_app, (Hd d) by left. apply IH. intros d' Hd'. apply Hd. by right. }
  rewrite <- (take_drop a data) at 2. rewrite <- (take_drop (b - a) (drop a data)) at 2. rewrite drop_drop, !fmap_app, !concat_app, !rows_in_app.
  rewrite (Hnil (take a data)), (Hnil (drop (a + (b - a)) data)); [by rewrite app_nil_r|..]; intros d Hd.
  - apply list_elem_of_lookup in Hd as [i Hi]. rewrite lookup_drop in Hi. eapply Hout; [exact Hi|lia].
  - apply list_elem_of_lookup in Hd as [i Hi]. apply lookup_take_Some in Hi as [Hi ?]. eapply Hout; [exact Hi|lia].
Qed.

(** The iterator over the segments for a point read. *)
Lemma segment_point_opens st data max_seq : state_ok store st data → length (concat (concat (tree_sources <$> data))) < fuel →
  ∃ segs si, selected_segments (sr_core st) (point k) = Ok segs ∧ build_segment_iter Heap segs ctx max_seq = Ok si ∧
    opens (H:=segment_iterator Heap fuel) seg_point_scan si
      (walk_rows (visible max_seq (rows_in (point k) (concat (concat (tree_sources <$> data)))))).
Proof.
  intros Hst Hfuel. destruct (selected_ok store st data Hst (point k)) as (a & b & -> & Hab & Hb & Hout & Hone). specialize (Hone k eq_refl).
  rewrite <- (selected_rows (point k) data a b Hab Hb Hout). pose proof (so_readable _ _ _ Hst) as Hread.
  apply (Forall2_drop _ _ _ a) in Hread. apply (Forall2_take _ _ _ (b - a)) in Hread.
  assert (length (concat (concat (tree_sources <$> take (b - a) (drop a data)))) < fuel) as Hf.
  { eapply Nat.le_lt_trans; [|exact Hfuel]. apply sublist_length, concat_sublist, concat_sublist, fmap_sublist. etransitivity; [apply sublist_take|apply sublist_drop]. }
  assert (length (take (b - a) (drop a data)) ≤ 1) as Hl by (rewrite length_take; lia).
  generalize dependent (take (b - a) (drop a data)). generalize (take (b - a) (drop a (read_segments (sr_core st)))).
  intros segs ds Hread Hf Hl. exists segs. unfold build_segment_iter. cbn [ctx_range].
  assert (BytesRange.as_point (point k) = Some k) as -> by (unfold BytesRange.as_point; cbn; by rewrite decide_True).
  destruct Hread as [|s d segs ds Hd Hread]; [eexists; split; [done|]; split; [done|]; by exists (SegNone Heap)|].
  destruct Hread as [|s' d' segs ds Hd' Hread]; [|cbn in Hl; lia]. cbn [last]. cbn [fmap list_fmap concat] in Hf |- *. rewrite app_nil_r in Hf |- *.
  destruct (from_lsm_tree_opens (seg_tree s) d max_seq Hd Hf) as (g & -> & g' & Hi & Hg). run. eexists. split; [done|]. split; [done|].
  exists (SegPoint Heap g'). split; [|done]. unfold it_init. cbn [segment_iterator]. unfold it_init in Hi |- *. cbn [get_iterator] in *. injection Hi as <-. by run.
Qed.

Context `{!HeapFamilyLaws Heap o}.
Local Notation topped := (opens (H:=top_iterator Heap fuel) (top_scan Heap fuel o seg_point_scan)).

Lemma mem_point_opens t max_seq : map_ok (table_map t) → length (table_rows t) < fuel →
  topped (TopMem Heap (apply_filter max_seq (table_range t (start_of (point k)) (end_of (point k)) o))) (visible max_seq (rows_in (point k) (table_rows t))).
Proof.
  intros Hm Hf. destruct (mem_filtered_opens t (point k) o max_seq fuel Hm Hf) as (out & (m & Hi & Hrel) & Hs & Hp & Hv).
  assert (out = rows_in (point k) (table_rows t)) as <-.
  { apply (sorted_rows_ext o); [done| |done]. apply (one_key_sorted k Ascending); [apply point_rows_key|].
    eapply StronglySorted_weaken; [intros a b; apply row_key_lt_row_le|]. eapply StronglySorted_sublist; [apply sublist_filter|by apply map_rows_sorted]. }
  exists (TopMem Heap m). split; [|done]. unfold it_init. cbn [top_iterator]. unfold mem_filtered. rewrite Hi. by run.
Qed.

(** The sources of a point read, and what the walk over them returns. *)
Lemma point_sources_open st data batch max_seq : read_ok store st data batch max_seq (point k) o fuel →
  ∃ mems si ls, build_iterator_sources Heap store (point k) st opts max_seq = Ok (mems, si) ∧
    Forall2 topped (batch_source Heap batch :: (TopMem Heap <$> apply_filters mems max_seq) ++ [TopSegment Heap (new_with_max_seq si max_seq)]) ls ∧
    walk_rows (concat ls) = walk_rows (versions_of k (read_rows batch max_seq (db_sources st data))).
Proof.
  intros [Hst Hb _ _ Hf]. unfold db_sources in Hf. rewrite concat_app, length_app in Hf.
  destruct (segment_point_opens st data max_seq Hst ltac:(lia)) as (segs & si & Hsel & Hbuild & si' & Hinit & Hscan).
  exists (build_memtable_iters (point k) st o), si,
    (batch_rows batch :: ((λ t, visible max_seq (rows_in (point k) (table_rows t))) <$> tables st) ++
       [walk_rows (visible max_seq (rows_in (point k) (concat (concat (tree_sources <$> data)))))]).
  unfold build_iterator_sources. rewrite Hsel. run. rewrite Hbuild. run. split; [done|]. split.
  - constructor; [by eapply batch_source_opens|]. apply Forall2_app.
    + unfold apply_filters, build_memtable_iters. rewrite <- !list_fmap_compose. apply Forall2_fmap. apply Forall_Forall2_diag.
      pose proof (so_tables _ _ _ Hst) as Htab. rewrite Forall_forall in Htab |- *. intros t Ht. apply mem_point_opens; [by apply Htab|].
      assert (length (table_rows t) ≤ length (concat (table_rows <$> tables st))); [|lia].
      apply length_concat_elem, list_elem_of_fmap_2, Ht.
    + constructor; [|constructor]. exists (TopSegment Heap (mkFilter si' (seq_at_most max_seq))). split.
      * unfold it_init. cbn [top_iterator]. unfold it_init. cbn [top_filter_iterator filter_iterator new_with_max_seq fi_iterator fi_predicate]. unfold seg_iterator. rewrite Hinit. by run.
      * cbn [top_scan]. eexists [], _. split; [exact Hscan|]. cbn [fi_predicate].
        assert (∀ e, e ∈ walk_rows (visible max_seq (rows_in (point k) (concat (concat (tree_sources <$> data))))) → seq_at_most max_seq e = true ∧ key e = k) as Hin.
        { intros e He%walk_rows_elem. apply list_elem_of_filter in He as [Hs He]. split; [done|]. pose proof (point_rows_key k (concat (concat (tree_sources <$> data)))) as Hk.
          rewrite Forall_forall in Hk. by apply Hk. }
        split; [symmetry; apply visible_all, Forall_forall; by intros e [? _]%Hin|]. split.
        -- eapply Nat.le_lt_trans; [apply walk_rows_length|]. unfold visible, rows_in. eapply Nat.le_lt_trans; [apply length_filter|]. eapply Nat.le_lt_trans; [apply length_filter|]. lia.
        -- intros _. split; [|intros a ? []%not_elem_of_nil]. apply (one_key_le k), Forall_forall. by intros e [_ ?]%Hin.
  - cbn [concat]. rewrite concat_app. cbn [concat]. rewrite app_nil_r, app_assoc, walk_rows_app, <- app_assoc. f_equal.
    unfold read_rows, db_sources. rewrite filter_app. f_equal.
    + symmetry. apply versions_of_all. destruct batch as [b|]; [|constructor]. destruct Hb as (_ & _ & Hin). eapply Forall_impl; [exact Hin|]. intros e He. cbv beta in He |- *. rewrite point_contains in He. by apply bool_decide_eq_true in He.
    + rewrite <- rows_in_point, concat_app, visible_app, rows_in_app, <- !visible_rows_in. f_equal.
      rewrite <- rows_in_concat, <- visible_concat, <- !list_fmap_compose. done.
Qed.
End get.

(** ** From the rows of the sources to the pairs *)

(** The pairs of a read: one for each key with a value, in the order of the scan. *)
Definition reads_pairs (f : bytes → option bytes → bytes → bytes) (o : IterationOrder) (rows : list RowEntry) (kvs : list KeyValue) : Prop :=
  StronglySorted (key_dir_lt o) (kv_key <$> kvs) ∧
  ∀ k v, (∃ kv, kv ∈ kvs ∧ kv_key kv = k ∧ kv_value kv = v) ↔ read_value f k (versions_of k rows) = Some v.

Lemma kv_of_some e kv : kv_of e = Some kv → kv_key kv = key e ∧ as_bytes (value e) = Some (kv_value kv).
Proof. unfold kv_of. destruct (as_bytes (value e)); [|done]. by intros [= <-]. Qed.

Lemma sorted_version o k (l : list RowEntry) e : StronglySorted (λ a b, key_dir_lt o (key a) (key b)) l → e ∈ l → key e = k → versions_of k l = [e].
Proof.
  intros Hs He Hk. induction Hs as [|x l Hs IH Hx]; [by apply not_elem_of_nil in He|]. rewrite Forall_forall in Hx. rewrite filter_cons.
  apply elem_of_cons in He as [<-|He].
  - rewrite decide_True by done. f_equal. apply versions_of_none, Forall_forall. intros y Hy Heq. specialize (Hx y Hy). apply key_dir_lt_alt in Hx as [_ Hne]. congruence.
  - rewrite decide_False; [by apply IH|]. intros Heq. specialize (Hx e He). apply key_dir_lt_alt in Hx as [_ Hne]. congruence.
Qed.

Lemma sorted_omap_kv o l : StronglySorted (λ a b, key_dir_lt o (key a) (key b)) l → StronglySorted (key_dir_lt o) (kv_key <$> omap kv_of l).
Proof.
  induction 1 as [|e l Hs IH He]; [constructor|]. cbn [omap list_omap]. destruct (kv_of e) as [kv|] eqn:Hkv; [|done].
  cbn [fmap list_fmap]. constructor; [done|]. apply Forall_fmap, Forall_forall. intros kv' Hin. apply list_elem_of_omap in Hin as (e' & He' & Hkv').
  cbn. destruct (kv_of_some _ _ Hkv) as [-> _]. destruct (kv_of_some _ _ Hkv') as [-> _]. rewrite Forall_forall in He. by apply He.
Qed.

(** Rows with one row per key show the values a reader finds in the rows they stand for. *)
Lemma pairs_of_rows f o l rows : StronglySorted (λ a b, key_dir_lt o (key a) (key b)) l →
  (∀ e, e ∈ l → read_value f (key e) [e] = as_bytes (value e)) →
  (∀ k, read_value f k (versions_of k l) = read_value f k (versions_of k rows)) → reads_pairs f o rows (omap kv_of l).
Proof.
  intros Hs Hval Hread. split; [by apply sorted_omap_kv|]. intros k v. rewrite <- Hread. split.
  - intros (kv & Hin & Hk & Hv). apply list_elem_of_omap in Hin as (e & He & Hkv). destruct (kv_of_some _ _ Hkv) as [Hke Hb].
    rewrite (sorted_version o k l e Hs He) by congruence. rewrite <- Hk, Hke, (Hval e He), Hb. by f_equal.
  - intros Hr. destruct (versions_of k l) as [|e es] eqn:Hv; [done|].
    assert (e ∈ l ∧ key e = k) as [He Hk] by (assert (e ∈ versions_of k l) as [? ?]%list_elem_of_filter by (rewrite Hv; left); done).
    rewrite (sorted_version o k l e Hs He Hk) in Hv. injection Hv as <-. rewrite <- Hk, (Hval e He) in Hr.
    exists (mkKeyValue (key e) v (seq e) (default 0%Z (create_ts e)) (expire_ts e)). split; [|done].
    apply list_elem_of_omap. exists e. split; [done|]. unfold kv_of. by rewrite Hr.
Qed.

(** Rows that are not operands are the pairs as they are. *)
Lemma required_pairs f o l rows : reduced o l → Forall (λ e, is_merge (value e) = false) l →
  (∀ k, read_value f k (versions_of k l) = read_value f k (versions_of k rows)) → reads_pairs f o rows (omap kv_of l).
Proof.
  intros Hred Hm Hrows. apply pairs_of_rows; [|intros e He|done].
  - clear -Hred Hm. induction Hred as [|e l Hs IH He]; [constructor|]. apply Forall_cons in Hm as [Hme Hm]. constructor; [by apply IH|].
    eapply Forall_impl; [exact He|]. intros y [Hle Hk]. apply key_dir_lt_alt. split; [done|]. intros Heq. specialize (Hk Heq). congruence.
  - rewrite Forall_forall in Hm. specialize (Hm e He). cbn. by destruct (value e).
Qed.

Section delegates.
  Context {B F : Type} `{FilterTraits B F} (Heap : Type → Type) `{HeapFamily Heap} (fuel : nat).
  Context (drel : DelegateIterator Heap (F:=F) → list RowEntry → list RowEntry → Prop) `{!Scan (H:=delegate_iterator Heap fuel) drel}.

(** With a merge operator, the operands are resolved. *)
Lemma resolving_yields op m l : yields (H:=merge_op_iterator (H0:=op) (H:=delegate_iterator Heap fuel) fuel) m l →
  yields (H:=row_iterator Heap fuel (Some op)) (Resolving Heap m) l.
Proof.
  revert m. induction l as [|e l IH]; intros m; cbn [yields].
  - intros (m' & Hn). exists (Resolving Heap m'). unfold it_next at 1. cbn [row_iterator]. rewrite Hn. by run.
  - intros (m' & Hn & Hy). exists (Resolving Heap m'). split; [|by apply IH]. unfold it_next at 1. cbn [row_iterator]. rewrite Hn. by run.
Qed.

Lemma resolved_db `{op : MergeOperator, !MergeOperatorLaws f} range order o x l rows :
  opens (H:=delegate_iterator Heap fuel) drel x l → newest_first l → reduced o l → length l < fuel →
  (∀ k, read_value f k (versions_of k l) = read_value f k (versions_of k rows)) →
  ∃ d kvs, (iter ← it_init (RowEntryIterator:=row_iterator Heap fuel (Some op)) (Resolving Heap (merge_op_new x true None));
            mret (mkDbIter Heap range iter None None order)) = Ok d ∧ db_yields Heap fuel (Some op) d kvs ∧ reads_pairs f o rows kvs.
Proof.
  intros (x' & Hi & Hrel) Hnew Hred Hlen Hrows. unfold it_init. cbn [row_iterator]. unfold it_init at 1. cbn [merge_op_iterator merge_op_new delegate]. rewrite Hi. run.
  eexists _, (omap kv_of (resolve f (length l) true None l)). split; [done|]. destruct (resolve_keys (f:=f) o (length l) l Hred ltac:(lia)) as [Hs _]. split.
  - apply db_yields_rows; [done| |].
    + cbn [di_iter]. apply resolving_yields. apply (merge_op_yields drel (H:=delegate_iterator Heap fuel) fuel (length l) (merge_op_new x' true None) l); [|done|lia|done].
      exists [], l. done.
    + eapply Nat.le_lt_trans; [apply resolve_rows_length|done].
  - apply pairs_of_rows; [done| |].
    + intros e He. by eapply resolved_value.
    + intros k. rewrite <- Hrows. pose proof (resolve_reads (f:=f) (length l) true None k l [] ltac:(lia)) as Hr. by rewrite !app_nil_r in Hr.
Qed.

(** Without one, rows that are not operands are returned as they are. *)
Lemma requiring_yields x ret l : drel x ret l → Forall (λ e, is_merge (value e) = false) l →
  yields (H:=row_iterator Heap fuel None) (Requiring Heap (mkRequired x)) l.
Proof.
  revert x ret. induction l as [|e l IH]; intros x ret Hrel Hm; pose proof (@scan_next _ (delegate_iterator Heap fuel) drel _ x ret _ Hrel) as Hn; cbn [yields].
  - destruct Hn as (x' & Hn & _). exists (Requiring Heap (mkRequired x')). unfold it_next at 1. cbn [row_iterator]. unfold it_next at 1. cbn [required_iterator req_delegate].
    unfold required_next. rewrite Hn. by run.
  - apply Forall_cons in Hm as [He Hm]. destruct Hn as (x' & Hn & Hr). exists (Requiring Heap (mkRequired x')). split; [|by eapply IH].
    unfold it_next at 1. cbn [row_iterator]. unfold it_next at 1. cbn [required_iterator req_delegate]. unfold required_next. rewrite Hn. run. rewrite He. by run.
Qed.

Lemma required_db f range order o x l rows :
  opens (H:=delegate_iterator Heap fuel) drel x l → reduced o l → length l < fuel → Forall (λ e, is_merge (value e) = false) l →
  (∀ k, read_value f k (versions_of k l) = read_value f k (versions_of k rows)) →
  ∃ d kvs, (iter ← it_init (RowEntryIterator:=row_iterator Heap fuel None) (Requiring Heap (mkRequired x));
            mret (mkDbIter Heap range iter None None order)) = Ok d ∧ db_yields Heap fuel None d kvs ∧ reads_pairs f o rows kvs.
Proof.
  intros (x' & Hi & Hrel) Hred Hlen Hm Hrows. unfold it_init. cbn [row_iterator]. unfold it_init at 1. cbn [required_iterator req_delegate]. rewrite Hi. run.
  eexists _, (omap kv_of l). split; [done|]. split; [apply db_yields_rows; [done|by eapply requiring_yields|done]|].
  by apply required_pairs.
Qed.
End delegates.

(** *** A point read returns what its key resolves to *)

Lemma walk_reduced o k l : Forall (λ e, key e = k) l → reduced o (walk_rows l).
Proof.
  induction 1 as [|e l He Hl IH]; [constructor|]. cbn [walk_rows]. destruct (value e) eqn:Hv; [constructor; constructor| |constructor].
  constructor; [done|]. apply Forall_forall. intros x Hx%walk_rows_elem. rewrite Forall_forall in Hl. rewrite He, (Hl x Hx), Hv. split; [apply key_dir_le_refl|done].
Qed.

Lemma walk_newest l : newest_first l → newest_first (walk_rows l).
Proof.
  unfold newest_first. induction 1 as [|e l Hs IH He]; [constructor|]. cbn [walk_rows]. destruct (value e); [constructor; constructor| |constructor].
  constructor; [done|]. apply Forall_forall. intros x Hx%walk_rows_elem. rewrite Forall_forall in He. by apply He.
Qed.

Lemma walk_read f k l : read_value f k (walk_rows l) = read_value f k l.
Proof. induction l as [|e l IH]; [done|]. cbn. destruct (value e) eqn:Hv; cbn; rewrite ?Hv; [done|by rewrite IH|done]. Qed.

Lemma newest_first_filter (P : RowEntry → Prop) `{!∀ e, Decision (P e)} l : newest_first l → newest_first (filter P l).
Proof. intros Hl. eapply StronglySorted_sublist; [apply sublist_filter|done]. Qed.

(** Without a merge operator, a read cannot resolve an operand. *)
Definition needs_operator (operator : option MergeOperator) (vs : list RowEntry) : bool :=
  match operator with
  | Some _ => false
  | None => match vs with e :: _ => is_merge (value e) | [] => false end
  end.

Section get_db.
  Context {B F : Type} `{FilterTraits B F} (Heap : Type → Type) `{HeapFamily Heap} (fuel : nat).
  Context (store : TableReads F) (opts : SstIteratorOptions) (k : bytes) (Hopts : scan_options_ok opts (point k)).
  Local Notation o := (opt_order opts).
  Context `{!HeapFamilyLaws Heap o}.

Definition get_delegate (x : DelegateIterator Heap (F:=F)) (returned l : list RowEntry) : Prop :=
  match x with
  | ByGet _ g => get_scan (H:=top_iterator Heap fuel) (top_scan Heap fuel o (seg_point_scan Heap fuel opts)) g returned l
  | ByScan _ _ => False
  end.

Lemma get_delegate_next : Scan (H:=delegate_iterator Heap fuel) get_delegate.
Proof.
  intros [g|s] returned l Hx; [|done]. cbn in Hx. unfold it_next. cbn [delegate_iterator].
  pose proof (top_scan_next Heap fuel o (seg_point_scan Heap fuel opts) (Scan0:=seg_point_next Heap fuel opts)) as Ht.
  pose proof (get_scan_next (H:=top_iterator Heap fuel) (top_scan Heap fuel o (seg_point_scan Heap fuel opts)) g returned l Hx) as Hn.
  destruct l; destruct Hn as (g' & -> & Hr); run; by exists (ByGet Heap g').
Qed.

Lemma point_db_ok (operator : option MergeOperator) f st data batch max_seq order :
  (∀ op, operator = Some op → MergeOperatorLaws (H:=op) f) → read_ok store st data batch max_seq (point k) o fuel →
  let vs := versions_of k (read_rows batch max_seq (db_sources st data)) in
  ∃ mems si d, build_iterator_sources Heap store (point k) st opts max_seq = Ok (mems, si) ∧
    db_iterator_new Heap fuel operator (point k) batch mems si max_seq order = Ok d ∧
    if needs_operator operator vs then (db_next Heap fuel operator d).1 = Err MergeOperatorMissing
    else ∃ kvs, db_yields Heap fuel operator d kvs ∧ reads_pairs f o vs kvs.
Proof.
  intros Hop Hok vs. destruct (point_sources_open Heap fuel store opts k Hopts st data batch max_seq Hok) as (mems & si & ls & Hsrc & Hls & Hwalk). fold vs in Hwalk.
  exists mems, si. unfold db_iterator_new. assert (BytesRange.as_point (point k) = Some k) as -> by (unfold BytesRange.as_point; cbn; by rewrite decide_True).
  change (match batch with Some b => TopBatch Heap b | None => TopEmpty Heap end) with (batch_source (F:=F) Heap batch).
  set (x := ByGet Heap (get_new k _)). pose proof get_delegate_next as Hscan.
  assert (opens (H:=delegate_iterator Heap fuel) get_delegate x (walk_rows vs)) as Hopen.
  { exists x. split; [done|]. exists ls. split; [exact Hls|]. by cbn. }
  assert (Forall (λ e, key e = k) vs) as Hkeys by (apply Forall_forall; by intros e [? _]%list_elem_of_filter).
  assert (length (walk_rows vs) < fuel) as Hlen.
  { eapply Nat.le_lt_trans; [apply walk_rows_length|]. unfold vs. eapply Nat.le_lt_trans; [apply length_filter|]. unfold read_rows. rewrite length_app.
    eapply Nat.le_lt_trans; [|apply (ok_fuel _ _ _ _ _ _ _ _ Hok)]. apply Nat.add_le_mono_l, length_filter. }
  assert (newest_first (walk_rows vs)) as Hnew by apply walk_newest, newest_first_filter, (ok_newest _ _ _ _ _ _ _ _ Hok).
  assert (∀ k', read_value f k' (versions_of k' (walk_rows vs)) = read_value f k' (versions_of k' vs)) as Hread.
  { intros k'. destruct (decide (k' = k)) as [->|Hne].
    - rewrite !versions_of_all; [apply walk_read|done|]. apply Forall_forall. intros e He%walk_rows_elem. rewrite Forall_forall in Hkeys. by apply Hkeys.
    - rewrite !versions_of_none; [done|..]; apply Forall_forall; rewrite Forall_forall in Hkeys; intros e He; [|apply walk_rows_elem in He]; rewrite (Hkeys e He); congruence. }
  destruct operator as [op|]; cbn [needs_operator].
  - specialize (Hop op eq_refl). destruct (resolved_db Heap fuel get_delegate (f:=f) (op:=op) (point k) order o x (walk_rows vs) vs) as (d & kvs & -> & Hy & Hr);
      [done|done|by apply (walk_reduced o k)|done|done|]. exists d. split; [done|]. split; [done|]. by exists kvs.
  - destruct (match vs with e :: _ => is_merge (value e) | [] => false end) eqn:Hm.
    + destruct vs as [|e vs']; [done|]. destruct (value e) as [|v|] eqn:Hv; [done| |done]. cbn [walk_rows] in Hopen. rewrite Hv in Hopen. destruct Hopen as (x' & Hi & Hx).
      unfold it_init at 1. cbn [row_iterator]. unfold it_init at 1. cbn [required_iterator req_delegate]. rewrite Hi. run. eexists. split; [done|]. split; [done|].
      unfold db_next, next_entry. cbn [di_invalidated di_iter]. destruct fuel as [|n] eqn:Hfuel; [cbn in Hlen; lia|]. cbn [skip_tombstones]. rewrite <- Hfuel in *.
      pose proof (@scan_next _ (delegate_iterator Heap fuel) get_delegate _ x' [] _ Hx) as (x2 & Hn & _).
      unfold it_next at 1. cbn [row_iterator]. unfold it_next at 1. cbn [required_iterator req_delegate]. unfold required_next. rewrite Hn. run. rewrite Hv. by run.
    + destruct (required_db Heap fuel get_delegate f (point k) order o x (walk_rows vs) vs) as (d & kvs & -> & Hy & Hr);
        [done|by apply (walk_reduced o k)|done| |done|exists d; split; [done|]; split; [done|]; by exists kvs].
      destruct vs as [|e vs']; [constructor|]. cbn [walk_rows]. destruct (value e) eqn:Hv; [by repeat constructor; rewrite Hv|done|constructor].
Qed.
End get_db.

Section get_theorem.
  Context {B F : Type} `{FilterTraits B F} (Heap : Type → Type) `{HeapFamily Heap} `{!HeapFamilyLaws Heap Ascending}.

Lemma point_read f k vs kvs (operator : option MergeOperator) fuel d : Forall (λ e, key e = k) vs → db_yields (F:=F) Heap fuel operator d kvs → reads_pairs f Ascending vs kvs →
  ∃ o, (db_next Heap fuel operator d).1 = Ok o ∧ kv_value <$> o = read_value f k vs ∧ ∀ kv, o = Some kv → kv_key kv = k.
Proof.
  intros Hk Hy [_ Hr]. exists (head kvs). pose proof (Hr k) as Hrk. rewrite (versions_of_all k vs Hk) in Hrk.
  assert (∀ kv, kv ∈ kvs → kv_key kv = k ∧ read_value f k vs = Some (kv_value kv)) as Hall.
  { intros kv Hin. pose proof (proj1 (Hr (kv_key kv) (kv_value kv)) ltac:(by exists kv)) as Hv. destruct (decide (kv_key kv = k)) as [Heq|Hne].
    - split; [done|]. by rewrite Heq, (versions_of_all k vs Hk) in Hv.
    - rewrite versions_of_none in Hv; [done|]. eapply Forall_impl; [exact Hk|]. intros e He. cbn. congruence. }
  destruct kvs as [|kv kvs]; cbn in Hy; cbn [head].
  - destruct Hy as (d' & ->). split; [done|]. split; [|done]. destruct (read_value f k vs) as [v|]; [|done].
    destruct (proj2 (Hrk v) eq_refl) as (kv & []%not_elem_of_nil & _).
  - destruct Hy as (d' & -> & _). destruct (Hall kv ltac:(left)) as [Hkey Hval]. split; [done|]. split; [by rewrite Hval|]. by intros kv' [= <-].
Qed.

End get_theorem.

(** ** What merging keeps of the versions of a key *)

Lemma sole_mono {A C} (ls' : list (list A)) (ls : list (list C)) : Forall2 (λ a b, b = [] → a = []) ls' ls → sole ls → sole ls'.
Proof.
  unfold sole. intros Hf Hs. eapply Nat.le_trans; [|exact Hs]. clear Hs. induction Hf as [|a b ls' ls Hab Hf IH]; [done|]. rewrite !filter_cons.
  destruct (decide (a ≠ [])) as [Ha|Ha]; destruct (decide (b ≠ [])) as [Hb|Hb]; cbn [length]; [lia| |lia|done].
  exfalso. apply Ha, Hab. destruct b; [done|]. by destruct Hb.
Qed.

Lemma sole_sublist {A} (ls' ls : list (list A)) : sublist ls' ls → sole ls → sole ls'.
Proof.
  unfold sole. intros Hsub Hs. eapply Nat.le_trans; [|exact Hs]. apply sublist_length. clear Hs. induction Hsub as [|l a b Hsub IH|l a b Hsub IH]; [done|..]; rewrite !filter_cons.
  - case_decide; [by apply sublist_skip|done].
  - case_decide; [by apply sublist_cons|done].
Qed.

Lemma sole_group {A} (lss : list (list (list A))) : sole (concat lss) → sole ((λ ls, concat ls) <$> lss).
Proof.
  unfold sole. intros Hs. eapply Nat.le_trans; [|exact Hs]. clear Hs. induction lss as [|ls lss IH]; [done|]. cbn [fmap list_fmap concat]. rewrite filter_cons, filter_app, length_app.
  case_decide as Hne; [|lia]. cbn [length]. assert (0 < length (filter (λ l, l ≠ []) ls)); [|lia]. rewrite (concat_nonempty ls) in Hne.
  destruct (filter (λ l, l ≠ []) ls); [done|cbn; lia].
Qed.

Lemma versions_at_concat k s ls : versions_at k s (concat ls) = concat ((λ l, versions_at k s l) <$> ls).
Proof. induction ls as [|l ls IH]; [done|]. cbn [fmap list_fmap concat]. by rewrite filter_app, IH. Qed.

Lemma versions_at_of k k' s l : versions_at k' s (versions_of k l) = if decide (k' = k) then versions_at k' s l else [].
Proof.
  rewrite list_filter_filter. case_decide as Hk.
  - apply list_filter_iff. intros e. split; [tauto|]. intros He. split; [done|]. rewrite (same_version_key _ _ _ He). done.
  - apply list_filter_none, Forall_forall. intros e _ [He Hke]. rewrite (same_version_key _ _ _ He) in Hke. done.
Qed.

Lemma versions_sorted o k l : StronglySorted (λ a b, seq b ≤ seq a)%Z (versions_of k l) → StronglySorted (row_le o) (versions_of k l).
Proof.
  assert (Forall (λ e, key e = k) (versions_of k l)) as Hk by (apply Forall_forall; by intros e [? _]%list_elem_of_filter).
  revert Hk. generalize (versions_of k l). clear l. intros l Hk. induction 1 as [|e l Hs IH He]; [constructor|]. apply Forall_cons in Hk as [Hke Hk].
  constructor; [by apply IH|]. rewrite Forall_forall in He, Hk |- *. intros x Hx. specialize (He x Hx). unfold row_le, kv_cmp. rewrite Hke, (Hk x Hx), cmp_refl.
  cbv beta in He. unfold cmp, Z_ord. destruct o; destruct (Z.compare_spec (seq x) (seq e)); [done|done|lia|done|done|lia].
Qed.

(** The versions of a key in a merge are those of the sources, one source after the other, when that order is newest first. *)
Lemma merged_versions o ls out k : merged o ls out → StronglySorted (λ a b, seq b ≤ seq a)%Z (versions_of k (concat ls)) →
  versions_of k out = versions_of k (concat ls).
Proof.
  intros [Hs Hv] Hsorted. apply (sorted_rows_ext o); [|by apply versions_sorted|].
  - eapply StronglySorted_sublist; [apply sublist_filter|done].
  - intros k' s. rewrite !versions_at_of. case_decide; [|done]. by rewrite Hv, versions_at_concat.
Qed.

Lemma newest_versions k l : newest_first l → StronglySorted (λ a b, seq b ≤ seq a)%Z (versions_of k l).
Proof.
  intros Hn. assert (Forall (λ e, key e = k) (versions_of k l)) as Hk by (apply Forall_forall; by intros e [? _]%list_elem_of_filter).
  apply (newest_first_filter (λ e, key e = k)) in Hn. revert Hk Hn. generalize (versions_of k l). intros vs Hk. unfold newest_first. induction 1 as [|e vs Hs IH He]; [constructor|].
  apply Forall_cons in Hk as [Hke Hk]. constructor; [by apply IH|]. rewrite Forall_forall in He, Hk |- *. intros x Hx. apply He; [done|]. by rewrite (Hk x Hx).
Qed.

Lemma needed_sublist vs : sublist (needed vs) vs.
Proof. induction vs as [|e vs IH]; [done|]. cbn. apply sublist_skip. destruct (is_merge (value e)); [done|apply sublist_nil_l]. Qed.

Lemma read_needed f k a b c : read_value f k (a ++ needed b ++ c) = read_value f k (a ++ b ++ c).
Proof.
  induction a as [|e a IH]; [|cbn; by rewrite IH]. cbn [app]. induction b as [|e b IH]; [done|]. cbn [needed app read_value].
  destruct (value e) eqn:Hv; cbn [is_merge]; [done|by rewrite IH|done].
Qed.

Lemma read_needed_all f k b : read_value f k (needed b) = read_value f k b.
Proof. pose proof (read_needed f k [] b []) as Hr. by rewrite !app_nil_r in Hr. Qed.

Lemma row_le_newest o l : StronglySorted (row_le o) l → newest_first l.
Proof.
  apply StronglySorted_weaken. intros a b Hab Hk. unfold row_le, kv_cmp in Hab. rewrite Hk, cmp_refl in Hab. unfold cmp, Z_ord in Hab.
  destruct o; destruct (Z.compare_spec (seq b) (seq a)); try lia; done.
Qed.

Lemma filter_head_split {A} (P : A → Prop) `{!∀ x, Decision (P x)} (b : list A) e l : filter P b = e :: l →
  ∃ b1 b2, b = b1 ++ e :: b2 ∧ filter P b1 = [] ∧ filter P b2 = l.
Proof.
  induction b as [|x b IH]; [done|]. rewrite filter_cons. case_decide as Hx.
  - intros [= <- <-]. by exists [], b.
  - intros Hf. destruct (IH Hf) as (b1 & b2 & -> & H1 & H2). exists (x :: b1), b2. rewrite filter_cons, decide_False by done. done.
Qed.

(** Lists with the same versions have the same rows. *)
Lemma versions_perm a b : (∀ k s, versions_at k s a = versions_at k s b) → a ≡ₚ b.
Proof.
  revert b. induction a as [|e a IH]; intros b Hv.
  - destruct b as [|e b]; [done|]. specialize (Hv (key e) (seq e)). rewrite filter_cons, decide_True in Hv; [done|]. unfold same_version. by apply bool_decide_eq_true.
  - pose proof (Hv (key e) (seq e)) as He. rewrite filter_cons, decide_True in He; [|unfold same_version; by apply bool_decide_eq_true]. symmetry in He.
    destruct (filter_head_split _ _ _ _ He) as (b1 & b2 & -> & H1 & H2). rewrite <- Permutation_middle. constructor. apply IH. intros k s.
    specialize (Hv k s). rewrite !filter_app, !filter_cons in Hv. rewrite filter_app. case_decide as Hm; [|done].
    unfold same_version in Hm. apply bool_decide_eq_true in Hm as [<- <-]. rewrite H1 in Hv |- *. cbn in Hv |- *. by injection Hv.
Qed.

Lemma merged_perm o ls out : merged o ls out → out ≡ₚ concat ls.
Proof. intros [_ Hv]. apply versions_perm. intros k s. by rewrite Hv, versions_at_concat. Qed.

Lemma merged_same o ls ls' out : (∀ k s, concat ((λ l, versions_at k s l) <$> ls) = concat ((λ l, versions_at k s l) <$> ls')) → merged o ls out → merged o ls' out.
Proof. intros Heq [Hs Hv]. split; [done|]. intros k s. by rewrite Hv. Qed.

Lemma versions_at_visible max_seq k s l : versions_at k s (visible max_seq l) = visible max_seq (versions_at k s l).
Proof. unfold visible. rewrite !list_filter_filter. apply list_filter_iff. tauto. Qed.

Lemma merged_visible max_seq o ls out : merged o ls out → merged o (visible max_seq <$> ls) (visible max_seq out).
Proof.
  intros [Hs Hv]. split; [eapply StronglySorted_sublist; [apply sublist_filter|done]|]. intros k s. rewrite versions_at_visible, Hv. clear Hs Hv.
  induction ls as [|l ls IH]; [done|]. cbn [fmap list_fmap concat]. by rewrite visible_app, IH, versions_at_visible.
Qed.

(** Distinct sources stay distinct when rows are dropped, and when sources are dropped. *)
Lemma distinct_mono (ls' ls : list (list RowEntry)) : Forall2 (λ a b, ∀ e, e ∈ a → e ∈ b) ls' ls → distinct ls → distinct ls'.
Proof.
  intros Hsub Hd k s. eapply sole_mono; [|apply (Hd k s)]. apply Forall2_fmap_2. eapply Forall2_impl; [exact Hsub|]. intros a b Hab Hnil.
  destruct (versions_at k s a) as [|e l] eqn:Ha; [done|]. assert (e ∈ versions_at k s a) as [Hm He]%list_elem_of_filter by (rewrite Ha; left).
  assert (e ∈ versions_at k s b) as Hb by (apply list_elem_of_filter; auto). rewrite Hnil in Hb. by apply not_elem_of_nil in Hb.
Qed.

Lemma distinct_sublist (ls' ls : list (list RowEntry)) : sublist ls' ls → distinct ls → distinct ls'.
Proof. intros Hsub Hd k s. eapply sole_sublist; [by apply fmap_sublist|apply (Hd k s)]. Qed.

Lemma fmap_concat {A C} (g : A → C) (lss : list (list A)) : g <$> concat lss = concat ((λ l : list A, g <$> l) <$> lss).
Proof. induction lss as [|l lss IH]; [done|]. cbn [fmap list_fmap concat]. by rewrite fmap_app, IH. Qed.

Lemma distinct_group (lss : list (list (list RowEntry))) : distinct (concat lss) → distinct ((λ ls, concat ls) <$> lss).
Proof.
  intros Hd k s. specialize (Hd k s). rewrite fmap_concat in Hd. apply sole_group in Hd. eapply sole_mono; [|exact Hd].
  rewrite <- !list_fmap_compose. apply Forall2_fmap. apply Forall_Forall2_diag, Forall_forall. intros ls _ Hnil. cbn in Hnil |- *. by rewrite versions_at_concat.
Qed.

Lemma rows_in_elem r l e : e ∈ rows_in r l → e ∈ l.
Proof. by intros [_ ?]%list_elem_of_filter. Qed.

Lemma visible_elem max_seq l e : e ∈ visible max_seq l → e ∈ l.
Proof. by intros [_ ?]%list_elem_of_filter. Qed.

Lemma row_le_keys o l : StronglySorted (row_le o) l → StronglySorted (λ a b, key_dir_le o (key a) (key b)) l.
Proof. apply StronglySorted_weaken. intros a b. apply row_le_key. Qed.

Lemma dedup_sub skip l : sublist (dedup_rows skip l) l.
Proof.
  revert skip. induction l as [|e l IH]; intros skip; [done|]. cbn [dedup_rows]. repeat case_match; (apply sublist_skip || apply sublist_cons); apply IH.
Qed.

(** The three levels of a scan: the batch, the memtables merged and deduplicated, the tables merged.  The
    deduplicated merge of the levels reads like their rows one level after the other. *)
Lemma levels_read o batch mems trees outm outs out f k : newest_first (batch ++ concat mems ++ concat trees) →
  merged o mems outm → merged o trees outs → merged o [batch; dedup_rows None outm; outs] out →
  read_value f k (versions_of k (dedup_rows None out)) = read_value f k (versions_of k (batch ++ concat mems ++ concat trees)).
Proof.
  intros Hnew Hm Ht Hout. pose proof (newest_versions k _ Hnew) as Hs. rewrite !filter_app in Hs |- *.
  assert (∀ out ls, merged o ls out → StronglySorted (λ a b, key_dir_le o (key a) (key b)) out) as Hkeys by (intros ? ? [? _]; by apply row_le_keys).
  assert (versions_of k outm = versions_of k (concat mems)) as Em.
  { apply (merged_versions o); [done|]. eapply StronglySorted_sublist; [|exact Hs]. by apply sublist_inserts_l, sublist_inserts_r. }
  assert (versions_of k outs = versions_of k (concat trees)) as Et.
  { apply (merged_versions o); [done|]. eapply StronglySorted_sublist; [|exact Hs]. by apply sublist_inserts_l, sublist_inserts_l. }
  assert (versions_of k (concat [batch; dedup_rows None outm; outs]) = versions_of k batch ++ needed (versions_of k (concat mems)) ++ versions_of k (concat trees)) as Ec.
  { cbn [concat]. rewrite !filter_app, app_nil_r, (dedup_versions o None), Em, Et; [done|by eapply Hkeys|done]. }
  assert (versions_of k out = versions_of k batch ++ needed (versions_of k (concat mems)) ++ versions_of k (concat trees)) as Eo.
  { rewrite <- Ec. apply (merged_versions o); [done|]. rewrite Ec. eapply StronglySorted_sublist; [|exact Hs].
    apply sublist_app; [done|]. apply sublist_app; [apply needed_sublist|done]. }
  rewrite (dedup_versions o None); [|by eapply Hkeys|done]. cbn [bool_decide]. rewrite bool_decide_false by done. by rewrite read_needed_all, Eo, read_needed.
Qed.

(** ** Scans *)

Section scan.
  Context {B F : Type} `{FilterTraits B F} (Heap : Type → Type) `{HeapFamily Heap} (fuel : nat).
  Context (store : TableReads F) (opts : SstIteratorOptions) (range : BytesRange.t) (Hopts : scan_options_ok opts range).
  Local Notation o := (opt_order opts).
  Local Notation ctx := (mkContext store range opts).
  Context `{!HeapFamilyLaws Heap o}.

Definition seg_range_scan (x : SegmentIterator Heap (F:=F)) (returned l : list RowEntry) : Prop :=
  match x with SegRange _ it => segment_scan fuel store opts range it returned l | _ => False end.

Lemma seg_range_next : Scan (H:=segment_iterator Heap fuel) seg_range_scan.
Proof using Hopts HeapFamilyLaws0.
  intros [g| |it] returned l Hx; [done|done|]. cbn in Hx. unfold it_next. cbn [segment_iterator]. unfold it_next. cbn [segment_merge_iterator].
  pose proof (segment_next_ok fuel store opts range Hopts it returned l Hx) as Hn.
  destruct l; [destruct Hn as (it' & -> & Hr)|destruct Hn as (it' & -> & Hr & _)]; run; by exists (SegRange Heap it').
Qed.

Lemma tree_leaves_sources d : tree_leaves range d.1 d.2 = rows_in range <$> tree_sources d.
Proof. unfold tree_leaves, tree_sources. by rewrite fmap_app, <- list_fmap_compose. Qed.

Lemma tree_ok_of t d : tree_readable store t d.1 d.2 → Forall (StronglySorted (row_le Ascending)) (tree_sources d) → distinct (tree_sources d) →
  length (concat (tree_sources d)) < fuel → tree_ok fuel store range t (rows_in range <$> tree_sources d).
Proof.
  intros Hr Hs Hd Hf. split.
  - exists d.1, d.2. split; [done|]. symmetry. apply tree_leaves_sources.
  - apply Forall_fmap. eapply Forall_impl; [exact Hs|]. intros l Hl. cbn. eapply StronglySorted_sublist; [apply sublist_filter|done].
  - eapply distinct_mono; [|exact Hd]. apply Forall2_fmap_l, Forall_Forall2_diag, Forall_forall. intros l _ e. apply rows_in_elem.
  - rewrite rows_in_concat. unfold rows_in. eapply Nat.le_lt_trans; [apply length_filter|done].
Qed.

Lemma read_segments_ok (c : ManifestCore) : segs_ok (segments c) → antichain (seg_prefix <$> segments c) →
  segs_ok (read_segments c) ∧ antichain (seg_prefix <$> read_segments c).
Proof.
  intros Hs Ha. unfold read_segments. case_decide; [|done]. split; [by repeat constructor|]. cbn. intros p q Hp%list_elem_of_singleton Hq%list_elem_of_singleton [_ Hne]. congruence.
Qed.

(** Rows of segments one after the other are in order. *)
Lemma segments_sorted segs outs : segs_ok segs → antichain (seg_prefix <$> segs) →
  Forall2 (λ s out, Forall (λ e, seg_prefix s `prefix_of` key e) out) segs outs → Forall (StronglySorted (row_le o)) outs →
  StronglySorted (row_le o) (concat (match o with Ascending => outs | Descending => reverse outs end)).
Proof.
  intros Hs Ha Hp Ho.
  assert (∀ segs outs, Forall2 (λ s out, Forall (λ e, seg_prefix s `prefix_of` key e) out) segs outs → segs_ok segs → antichain (seg_prefix <$> segs) →
    StronglySorted (λ a b, ∀ x y, x ∈ a → y ∈ b → key x ≺ key y) outs) as Hcross.
  { clear. induction 1 as [|s out segs outs Hp Hps IH]; intros Hs Ha; [constructor|]. apply StronglySorted_cons in Hs as [Hlt Hs]. constructor.
    - apply IH; [done|]. intros p q Hp' Hq'. apply Ha; by right.
    - apply Forall_forall. intros out' [i Hi]%list_elem_of_lookup x y Hx Hy. destruct (Forall2_lookup_r _ _ _ _ _ Hps Hi) as (s' & Hs' & Hp').
      rewrite Forall_forall in Hp, Hp'. rewrite Forall_forall in Hlt. pose proof (Hlt s' ltac:(by eapply list_elem_of_lookup_2)) as Hlt'.
      assert (key x ≺ seg_prefix s') as H1.
      { apply (prefix_below (seg_prefix s)); [by apply ord_lt_le| |by apply Hp]. intros Hpre. apply (Ha (seg_prefix s) (seg_prefix s')); [by left| |].
        - right. by eapply list_elem_of_fmap_2, list_elem_of_lookup_2.
        - split; [done|]. intros Heq. rewrite Heq in Hlt'. by apply ord_lt_irrefl in Hlt'. }
      destruct (Hp' y Hy) as [z Hz]. pose proof (KeyRange.prefix_le (seg_prefix s') z) as H2. rewrite <- Hz in H2. revert H1 H2. ord. }
  specialize (Hcross segs outs Hp Hs Ha). destruct o.
  - revert Ho. clear -Hcross. induction Hcross as [|a outs Hc IH Ha]; [constructor|]. intros [Hso Ho]%Forall_cons. cbn [concat]. apply StronglySorted_app_2; [|done|by apply IH].
    intros x y Hx Hy. apply elem_of_concat in Hy as (b & Hy & Hb). rewrite Forall_forall in Ha. specialize (Ha b Hb x y Hx Hy). unfold row_le, kv_cmp. unfold ord_lt in Ha. by rewrite Ha.
  - revert Ho. clear -Hcross. induction Hcross as [|a outs Hc IH Ha]; [constructor|]. intros [Hso Ho]%Forall_cons. rewrite reverse_cons, concat_app. cbn [concat]. rewrite app_nil_r.
    apply StronglySorted_app_2; [|by apply IH|done]. intros x y Hx Hy. apply elem_of_concat in Hx as (b & Hx & Hb). rewrite elem_of_reverse in Hb. rewrite Forall_forall in Ha.
    specialize (Ha b Hb y x Hy Hx). unfold row_le, kv_cmp. unfold ord_lt in Ha. by rewrite Ha.
Qed.

Lemma merged_elem ls out e : merged o ls out → e ∈ out → e ∈ concat ls.
Proof. intros Hm. by rewrite (merged_perm _ _ _ Hm). Qed.

Lemma sublist_elem {A} (a b : list A) x : sublist a b → x ∈ a → x ∈ b.
Proof. induction 1; set_solver. Qed.

Lemma distinct_part {A} (g : A → list (list RowEntry)) (xs : list A) x : x ∈ xs → distinct (concat (g <$> xs)) → distinct (g x).
Proof.
  intros Hx. apply distinct_sublist. induction Hx as [x xs|x y xs Hx IH]; cbn [fmap list_fmap concat]; [by apply sublist_inserts_r|by apply sublist_inserts_l].
Qed.

(** The chain of segments of a scan. *)
Lemma segment_range_opens st data max_seq : state_ok store st data → distinct (concat (tree_sources <$> data)) →
  length (concat (concat (tree_sources <$> data))) < fuel → BytesRange.as_point range = None →
  ∃ segs si out, selected_segments (sr_core st) range = Ok segs ∧ build_segment_iter Heap segs ctx max_seq = Ok si ∧
    opens (H:=segment_iterator Heap fuel) seg_range_scan si out ∧ merged o (rows_in range <$> concat (tree_sources <$> data)) out.
Proof.
  intros Hst Hdis Hfuel Hnp. destruct (selected_ok store st data Hst range) as (a & b & Hsel & Hab & Hb & Hout & _).
  pose proof (selected_rows range data a b Hab Hb Hout) as Hrows.
  destruct (read_segments_ok (sr_core st) (so_segs _ _ _ Hst) (so_antichain _ _ _ Hst)) as [Hsegs Hanti].
  pose proof (so_readable _ _ _ Hst) as Hread. pose proof (so_prefix _ _ _ Hst) as Hpre. pose proof (so_sorted _ _ _ Hst) as Hsort.
  assert (sublist (take (b - a) (drop a data)) data) as Hsub by (etransitivity; [apply sublist_take|apply sublist_drop]).
  assert (sublist (take (b - a) (drop a (read_segments (sr_core st)))) (read_segments (sr_core st))) as Hsub' by (etransitivity; [apply sublist_take|apply sublist_drop]).
  apply (Forall2_drop _ _ _ a) in Hread. apply (Forall2_take _ _ _ (b - a)) in Hread. apply (Forall2_drop _ _ _ a) in Hpre. apply (Forall2_take _ _ _ (b - a)) in Hpre.
  apply (Forall_drop _ a) in Hsort. apply (Forall_take _ (b - a)) in Hsort.
  set (segs := take (b - a) (drop a (read_segments (sr_core st)))) in *. set (ds := take (b - a) (drop a data)) in *.
  assert (segs_ok segs ∧ antichain (seg_prefix <$> segs)) as [Hsegs' Hanti'].
  { split; [by eapply StronglySorted_sublist|]. intros p q Hp Hq. apply Hanti; (eapply sublist_elem; [by apply fmap_sublist|done]). }
  assert (Forall2 (λ s d, tree_ok fuel store range (seg_tree s) (rows_in range <$> tree_sources d)) segs ds) as Htrees.
  { eapply Forall2_with_r with (P := λ d, d ∈ data ∧ Forall (StronglySorted (row_le Ascending)) (tree_sources d)); [exact Hread| |].
    - rewrite Forall_forall in Hsort |- *. intros d Hd. split; [by eapply sublist_elem|by apply Hsort].
    - intros s d Hr [Hd Hs]. apply tree_ok_of; [done|done|by eapply (distinct_part tree_sources)|]. eapply Nat.le_lt_trans; [|exact Hfuel].
      apply sublist_length, concat_sublist. clear -Hd. induction Hd as [x xs|x y xs Hx IH]; cbn [fmap list_fmap concat]; [by apply sublist_inserts_r|by apply sublist_inserts_l]. }
  assert (∃ outs, Forall2 (merged o) ((λ d, rows_in range <$> tree_sources d) <$> ds) outs) as [outs Houts].
  { clear -Htrees Hopts HeapFamilyLaws0. induction Htrees as [|s d segs ds Ht Hts [outs IH]]; [by exists []|].
    destruct (build_tree_ok fuel store opts range Hopts (Heap:=Heap) (seg_tree s) _ None Ht) as (m & out & _ & Hm & _); [by intros [? ?]|].
    exists (out :: outs). by constructor. }
  assert (Forall2 (λ s out, Forall (λ e, seg_prefix s `prefix_of` key e) out) segs outs) as Hprefix.
  { clear -Hpre Houts. revert outs Houts. induction Hpre as [|s d segs ds Hp Hps IH]; intros outs Houts; cbn [fmap list_fmap] in Houts; inv Houts; [constructor|].
    constructor; [|by apply IH]. apply Forall_forall. intros e He. eapply merged_elem in He; [|done]. rewrite rows_in_concat in He. rewrite Forall_forall in Hp. by eapply Hp, rows_in_elem. }
  destruct (segment_iter_opens (Heap:=Heap) fuel store opts range segs ((λ d, rows_in range <$> tree_sources d) <$> ds) outs) as (it & Hi & Hscan).
  { by apply Forall2_fmap_r. } { done. } { done. } { done. }
  exists segs. unfold build_segment_iter. cbn [ctx_range]. rewrite Hnp. eexists _, _. split; [done|]. split; [done|]. split.
  { exists (SegRange Heap it). split; [|exact Hscan]. unfold it_init. cbn [segment_iterator]. unfold it_init in Hi |- *. cbn [segment_merge_iterator] in *. injection Hi as <-. by run. }
  split.
  { apply segments_sorted with segs; [done..|]. clear -Houts. remember ((λ d, rows_in range <$> tree_sources d) <$> ds) as lss eqn:E. clear E. induction Houts as [|? ? ? ? [Hs _]]; by constructor. }
  intros k s. rewrite <- versions_at_concat, rows_in_concat, <- Hrows.
  assert (Forall2 (λ d out, versions_at k s out = versions_at k s (rows_in range (concat (tree_sources d)))) ds outs) as Hv.
  { eapply Forall2_impl; [exact (proj1 (Forall2_fmap_l _ _ _ _) Houts)|]. intros d out [_ Hv]. by rewrite Hv, <- versions_at_concat, rows_in_concat. }
  assert (versions_at k s (concat outs) = versions_at k s (rows_in range (concat (concat (tree_sources <$> ds))))) as Hasc.
  { clear -Hv. induction Hv as [|d out ds outs Hd Hv IH]; [done|]. cbn [fmap list_fmap concat]. by rewrite concat_app, rows_in_app, !filter_app, Hd, IH. }
  rewrite <- Hasc. destruct o; [done|]. rewrite !versions_at_concat. symmetry. apply concat_sole; [apply fmap_Permutation; symmetry; apply reverse_Permutation|].
  eapply sole_mono with (ls := (λ d, versions_at k s (concat (tree_sources d))) <$> ds).
  - apply Forall2_fmap_2. eapply Forall2_impl; [apply Forall2_flip, Hv|]. intros out d -> Hnil. cbn in Hnil. apply list_filter_none, Forall_forall. intros e He%rows_in_elem Hm.
    assert (e ∈ versions_at k s (concat (tree_sources d))) as Hin by by apply list_elem_of_filter. rewrite Hnil in Hin. by apply not_elem_of_nil in Hin.
  - assert (distinct ((λ ls, concat ls) <$> (tree_sources <$> ds))) as Hg.
    { apply distinct_group. eapply distinct_sublist; [|exact Hdis]. by apply concat_sublist, fmap_sublist. }
    specialize (Hg k s). by rewrite <- !list_fmap_compose in Hg.
Qed.

Lemma Forall_choose {A C} (R : A → C → Prop) xs : Forall (λ x, ∃ y, R x y) xs → ∃ ys, Forall2 R xs ys.
Proof. induction 1 as [|x xs [y Hy] Hxs [ys IH]]; [by exists []|]. exists (y :: ys). by constructor. Qed.

(** The memtables of a scan, merged and deduplicated. *)
Lemma mems_open srel st max_seq : Forall (λ t, map_ok (table_map t)) (tables st) → distinct (table_rows <$> tables st) →
  length (concat (table_rows <$> tables st)) < fuel →
  ∃ out, opens (H:=top_iterator Heap fuel) (top_scan Heap fuel o srel)
      (TopMems Heap (merge_new_with_order (apply_filters (build_memtable_iters range st o) max_seq) o)) (dedup_rows None out) ∧
    merged o ((λ t, visible max_seq (rows_in range (table_rows t))) <$> tables st) out.
Proof.
  intros Hok Hdis Hlen. unfold build_memtable_iters, apply_filters. fold (tables st). rewrite <- list_fmap_compose.
  destruct (Forall_choose (λ t out, opens (H:=filtered_iterator fuel) (filtered_scan (mem_rel o) fuel o) (apply_filter max_seq (table_range t (start_of range) (end_of range) o)) (visible max_seq out) ∧
    StronglySorted (row_le o) out ∧ out ≡ₚ rows_in range (table_rows t) ∧ ∀ k s, versions_at k s out = versions_at k s (rows_in range (table_rows t))) (tables st)) as [outs Houts].
  { rewrite Forall_forall in Hok |- *. intros t Ht. apply mem_filtered_opens; [by apply Hok|]. eapply Nat.le_lt_trans; [|exact Hlen]. by apply length_concat_elem, list_elem_of_fmap_2. }
  pose proof (filtered_scan_next (mem_rel o) fuel o) as Hf.
  destruct (merge_opens (I:=FilteredIterator MemTableIterator) (H:=Heap (FilteredIterator MemTableIterator)) (H0:=filtered_iterator fuel) o (filtered_scan (mem_rel o) fuel o) fuel
    ((λ t, apply_filter max_seq (table_range t (start_of range) (end_of range) o)) <$> tables st) (visible max_seq <$> outs) true) as (m & out & Hinit & Hscan & Hp & Hs & Hst).
  { apply Forall2_fmap_2. eapply Forall2_impl; [exact Houts|]. intros t out ((it & Hi & Hr) & Hs & _). exists it. split; [done|]. split; [done|].
    eapply StronglySorted_sublist; [apply sublist_filter|done]. }
  { eapply distinct_mono; [|exact Hdis]. apply Forall2_fmap_2, Forall2_flip. eapply Forall2_impl; [exact Houts|]. intros t out (_ & _ & Hp & _) e He%visible_elem.
    rewrite Hp in He. by eapply rows_in_elem. }
  { eapply Nat.le_lt_trans; [|exact Hlen]. rewrite visible_concat. unfold visible. eapply Nat.le_trans; [apply length_filter|]. clear -Houts.
    induction Houts as [|t out ts outs (_ & _ & Hp & _) Houts IH]; [done|]. cbn [fmap list_fmap concat]. rewrite !length_app, Hp.
    pose proof (length_filter (λ e, BytesRange.contains range (key e) = true) (table_rows t)). unfold rows_in. lia. }
  exists out. split.
  - exists (TopMems Heap m). split; [|exact Hscan]. unfold it_init. cbn [top_iterator]. unfold it_init. cbn [any_merge_iterator merge_iterator]. unfold mem_filtered.
    match goal with |- context [initialize ?x] => replace (initialize x) with (Ok (E:=SlateDBError) m) by (symmetry; exact Hinit) end. by run.
  - split; [done|]. intros k s. assert (distinct (visible max_seq <$> outs)) as Hd.
    { eapply distinct_mono; [|exact Hdis]. apply Forall2_fmap_2, Forall2_flip. eapply Forall2_impl; [exact Houts|]. intros t out' (_ & _ & Hp' & _) e He%visible_elem.
      rewrite Hp' in He. by eapply rows_in_elem. }
    rewrite (Hst (same_version k s) (Hd k s)). f_equal. rewrite <- !list_fmap_compose. clear -Houts. induction Houts as [|t out ts outs (_ & _ & _ & Hv) Houts IH]; [done|].
    cbn [fmap list_fmap]. rewrite IH. f_equal. cbn. by rewrite !versions_at_visible, Hv.
Qed.

Definition scan_delegate (x : DelegateIterator Heap (F:=F)) (returned l : list RowEntry) : Prop :=
  match x with
  | ByScan _ m => merge_scan (H0:=top_iterator Heap fuel) o (top_scan Heap fuel o seg_range_scan) fuel true m returned l
  | ByGet _ _ => False
  end.

Lemma scan_delegate_next : Scan (H:=delegate_iterator Heap fuel) scan_delegate.
Proof using Hopts HeapFamilyLaws0.
  intros [g|m] returned l Hx; [done|]. cbn in Hx. unfold it_next. cbn [delegate_iterator].
  pose proof (top_scan_next Heap fuel o seg_range_scan (Scan0:=seg_range_next)) as Ht.
  pose proof (merge_scan_next (H0:=top_iterator Heap fuel) o (top_scan Heap fuel o seg_range_scan) fuel true m returned l Hx) as Hn.
  unfold any_merge_iterator, ScanIterator. destruct l; destruct Hn as (m' & -> & Hr); run; by exists (ByScan Heap m').
Qed.

(** The filter on sequence numbers over the chain of segments. *)
Lemma segment_source_opens si out max_seq : opens (H:=segment_iterator Heap fuel) seg_range_scan si out → StronglySorted (row_le o) out → length out < fuel →
  opens (H:=top_iterator Heap fuel) (top_scan Heap fuel o seg_range_scan) (TopSegment Heap (new_with_max_seq si max_seq)) (visible max_seq out).
Proof.
  intros (si' & Hi & Hr) Hs Hlen. exists (TopSegment Heap (mkFilter si' (seq_at_most max_seq))). split.
  - unfold it_init. cbn [top_iterator]. unfold it_init. cbn [top_filter_iterator filter_iterator new_with_max_seq fi_iterator fi_predicate]. unfold seg_iterator. rewrite Hi. by run.
  - exists [], out. split; [done|]. split; [done|]. split; [done|]. intros Ho. rewrite Ho in Hs. split; [by apply sorted_keys_le|]. by intros a b []%not_elem_of_nil.
Qed.

Lemma batch_sorted batch : batch_ok batch range o → StronglySorted (row_le o) (batch_rows batch).
Proof. destruct batch as [b|]; [by intros (_ & ? & _)|constructor]. Qed.

(** The three levels of a scan share no version. *)
Lemma levels_distinct st data batch max_seq outm outs : distinct (batch_rows batch :: db_sources st data) →
  merged o ((λ t, visible max_seq (rows_in range (table_rows t))) <$> tables st) outm →
  merged o (rows_in range <$> concat (tree_sources <$> data)) outs →
  distinct [batch_rows batch; dedup_rows None outm; visible max_seq outs].
Proof.
  intros Hdis Hm Ht. pose proof (distinct_group [[batch_rows batch]; table_rows <$> tables st; concat (tree_sources <$> data)]) as Hg.
  cbn [concat] in Hg. rewrite app_nil_r in Hg. specialize (Hg Hdis). eapply distinct_mono; [|exact Hg]. cbn [fmap list_fmap].
  repeat (apply Forall2_cons; split); [..|by apply Forall2_nil].
  - intros e He. cbn [concat]. by rewrite app_nil_r.
  - intros e He%dedup_sublist. apply (merged_elem _ _ _ Hm) in He. rewrite (list_fmap_compose table_rows (λ l, visible max_seq (rows_in range l))), (list_fmap_compose (rows_in range) (visible max_seq)), visible_concat, rows_in_concat in He.
    by apply visible_elem, rows_in_elem in He.
  - intros e He%visible_elem. apply (merged_elem _ _ _ Ht) in He. rewrite rows_in_concat in He. by apply rows_in_elem in He.
Qed.

(** The rows of the three levels are the rows of the range. *)
Lemma levels_rows st data batch max_seq : batch_ok batch range o →
  batch_rows batch ++ concat ((λ t, visible max_seq (rows_in range (table_rows t))) <$> tables st) ++
    concat (visible max_seq <$> (rows_in range <$> concat (tree_sources <$> data))) = rows_in range (read_rows batch max_seq (db_sources st data)).
Proof.
  intros Hb. unfold read_rows, db_sources. rewrite rows_in_app, concat_app, visible_app, rows_in_app.
  assert (rows_in range (batch_rows batch) = batch_rows batch) as ->.
  { apply list_filter_all. destruct batch as [b|]; [by destruct Hb as (_ & _ & ?)|constructor]. }
  rewrite (list_fmap_compose table_rows (λ l, visible max_seq (rows_in range l))), (list_fmap_compose (rows_in range) (visible max_seq)), !visible_concat, !rows_in_concat.
  by rewrite !visible_rows_in.
Qed.

Lemma scan_sources_open st data batch max_seq : read_ok store st data batch max_seq range o fuel → BytesRange.as_point range = None →
  ∃ mems si l, build_iterator_sources Heap store range st opts max_seq = Ok (mems, si) ∧
    opens (H:=delegate_iterator Heap fuel) scan_delegate
      (ByScan Heap (scan_iterator_new Heap (batch_source Heap batch) (apply_filters mems max_seq) (TopSegment Heap (new_with_max_seq si max_seq)) o)) l ∧
    newest_first l ∧ reduced o l ∧ length l < fuel ∧ (∀ e, e ∈ l → e ∈ rows_in range (read_rows batch max_seq (db_sources st data))) ∧
    ∀ f k, read_value f k (versions_of k l) = read_value f k (versions_of k (rows_in range (read_rows batch max_seq (db_sources st data)))).
Proof.
  intros [Hst Hb Hnew Hdis Hf] Hnp. unfold db_sources in Hdis, Hf. rewrite concat_app, length_app in Hf.
  assert (distinct (table_rows <$> tables st)) as Hdm by (eapply distinct_sublist; [|exact Hdis]; by apply sublist_cons, sublist_inserts_r).
  assert (distinct (concat (tree_sources <$> data))) as Hdt by (eapply distinct_sublist; [|exact Hdis]; by apply sublist_cons, sublist_inserts_l).
  destruct (segment_range_opens st data max_seq Hst Hdt ltac:(lia) Hnp) as (segs & si & outs & Hsel & Hbuild & Hsi & Hms).
  destruct (mems_open seg_range_scan st max_seq (so_tables _ _ _ Hst) Hdm ltac:(lia)) as (outm & Hmem & Hmm).
  exists (build_memtable_iters range st o), si. unfold build_iterator_sources. rewrite Hsel. run. rewrite Hbuild. run.
  pose proof (top_scan_next Heap fuel o seg_range_scan (Scan0:=seg_range_next)) as Htop.
  assert (StronglySorted (row_le o) outs) as Hso by apply Hms.
  assert (length outs ≤ length (concat (concat (tree_sources <$> data)))) as Hlo.
  { rewrite (merged_perm _ _ _ Hms), rows_in_concat. unfold rows_in. apply length_filter. }
  assert (length outm ≤ length (concat (table_rows <$> tables st))) as Hlm.
  { rewrite (merged_perm _ _ _ Hmm), (list_fmap_compose table_rows (λ l, visible max_seq (rows_in range l))), (list_fmap_compose (rows_in range) (visible max_seq)), visible_concat, rows_in_concat.
    unfold visible, rows_in. etrans; [apply length_filter|]. apply length_filter. }
  set (ls := [batch_rows batch; dedup_rows None outm; visible max_seq outs]).
  assert (distinct ls) as Hd by by apply (levels_distinct st data).
  assert (length (concat ls) < fuel) as Hlen.
  { unfold ls. cbn [concat]. rewrite !length_app. pose proof (sublist_length _ _ (dedup_sub None outm)). unfold visible.
    pose proof (length_filter (λ e, seq_at_most max_seq e = true) outs). cbn [length]. lia. }
  destruct (merge_opens (H0:=top_iterator Heap fuel) (H:=Heap (TopIterator Heap)) o (top_scan Heap fuel o seg_range_scan) fuel
    [batch_source Heap batch; TopMems Heap (merge_new_with_order (apply_filters (build_memtable_iters range st o) max_seq) o); TopSegment Heap (new_with_max_seq si max_seq)]
    ls true) as (m & out & Hinit & Hscan & Hp & Hs & Hstable); [|done..|].
  { repeat (apply Forall2_cons; split); [..|by apply Forall2_nil].
    - destruct (batch_source_opens Heap fuel o seg_range_scan range batch Hb) as (it & Hi & Hr). exists it. split; [done|]. split; [done|]. by apply batch_sorted.
    - destruct Hmem as (it & Hi & Hr). exists it. split; [done|]. split; [done|]. eapply StronglySorted_sublist; [apply dedup_sub|apply Hmm].
    - destruct (segment_source_opens si outs max_seq Hsi Hso ltac:(lia)) as (it & Hi & Hr). exists it. split; [done|]. split; [done|].
      eapply StronglySorted_sublist; [apply sublist_filter|done]. }
  assert (merged o ls out) as Hout by (split; [done|]; intros k s; apply (Hstable (same_version k s)), Hd).
  exists (dedup_rows None out). split; [done|]. split.
  { exists (ByScan Heap m). split; [|exact Hscan]. unfold it_init. cbn [delegate_iterator]. unfold it_init. cbn [any_merge_iterator merge_iterator].
    match goal with |- context [initialize ?x] => replace (initialize x) with (Ok (E:=SlateDBError) m) by (symmetry; exact Hinit) end. by run. }
  split; [eapply row_le_newest, StronglySorted_sublist; [apply dedup_sub|exact Hs]|].
  split; [apply dedup_reduced; [by apply row_le_keys|done]|]. split.
  { eapply Nat.le_lt_trans; [apply sublist_length, dedup_sub|]. rewrite Hp. exact Hlen. }
  rewrite <- (levels_rows st data batch max_seq Hb). split.
  { intros e He%dedup_sublist. rewrite Hp in He. unfold ls in He. cbn [concat] in He. rewrite app_nil_r, !elem_of_app in He. rewrite !elem_of_app.
    destruct He as [He|[He%dedup_sublist|He]]; [by left|right; left; by rewrite <- (merged_perm _ _ _ Hmm)|right; right].
    by rewrite <- (merged_perm _ _ _ (merged_visible max_seq _ _ _ Hms)). }
  intros f k. apply (levels_read o _ _ _ outm (visible max_seq outs)); [|done|by apply merged_visible|done].
  rewrite levels_rows by done. by apply newest_first_filter.
Qed.

Lemma scan_db_ok (operator : option MergeOperator) f st data batch max_seq : let rows := rows_in range (read_rows batch max_seq (db_sources st data)) in
  (∀ op, operator = Some op → MergeOperatorLaws (H:=op) f) → (operator = None → Forall (λ e, is_merge (value e) = false) rows) →
  read_ok store st data batch max_seq range o fuel → BytesRange.as_point range = None →
  ∃ mems si d kvs, build_iterator_sources Heap store range st opts max_seq = Ok (mems, si) ∧
    db_iterator_new Heap fuel operator range batch mems si max_seq o = Ok d ∧ db_yields Heap fuel operator d kvs ∧ reads_pairs f o rows kvs.
Proof.
  intros rows Hop Hno Hok Hnp. destruct (scan_sources_open st data batch max_seq Hok Hnp) as (mems & si & l & Hsrc & Hopen & Hnew & Hred & Hlen & Hin & Hread).
  fold rows in Hin, Hread. exists mems, si. unfold db_iterator_new. rewrite Hnp.
  change (match batch with Some b => TopBatch Heap b | None => TopEmpty Heap end) with (batch_source (F:=F) Heap batch).
  pose proof scan_delegate_next as Hscan. destruct operator as [op|].
  - specialize (Hop op eq_refl). destruct (resolved_db Heap fuel scan_delegate (f:=f) (op:=op) range o o _ l rows Hopen Hnew Hred Hlen (Hread f)) as (d & kvs & -> & Hy & Hr).
    by exists d, kvs.
  - destruct (required_db Heap fuel scan_delegate f range o o _ l rows Hopen Hred Hlen) as (d & kvs & -> & Hy & Hr); [|by apply Hread|by exists d, kvs].
    specialize (Hno eq_refl). rewrite Forall_forall in Hno |- *. auto.
Qed.
End scan.

Lemma as_point_eq (range : BytesRange.t) k : BytesRange.as_point range = Some k → range = point k.
Proof. unfold BytesRange.as_point. destruct range as [[[[| |]] [[| |]]]]; cbn; intros ?; repeat case_match; by simplify_eq/=. Qed.

Section scan_theorem.
  Context {B F : Type} `{FilterTraits B F} (Heap : Type → Type) `{HeapFamily Heap}.

End scan_theorem.

(** ** A database with a batch, memtables and a sorted run *)

Lemma versions_nodup k s (l : list RowEntry) : NoDup ((λ e, (key e, seq e)) <$> l) → length (versions_at k s l) ≤ 1.
Proof.
  induction l as [|e l IH]; [cbn; lia|]. cbn [fmap list_fmap]. intros [Hne Hnd]%NoDup_cons. rewrite filter_cons.
  destruct (decide (same_version k s e = true)) as [He|He]; [|by apply IH]. rewrite list_filter_none; [done|]. apply Forall_forall. intros x Hx Hm.
  apply Hne, list_elem_of_fmap. exists x. split; [|done]. apply bool_decide_eq_true in He as [? ?], Hm as [? ?]. congruence.
Qed.

Lemma distinct_nodup (ls : list (list RowEntry)) : NoDup ((λ e, (key e, seq e)) <$> concat ls) → distinct ls.
Proof.
  intros Hnd k s. unfold sole. etrans; [|apply (versions_nodup k s _ Hnd)]. rewrite versions_at_concat.
  induction ls as [|l ls IH]; [done|]. cbn [fmap list_fmap concat]. rewrite filter_cons, length_app. cbn [concat] in Hnd. rewrite fmap_app in Hnd. apply NoDup_app in Hnd as (_ & _ & Hnd).
  specialize (IH Hnd). destruct (decide (versions_at k s l ≠ [])) as [Hl|Hl]; cbn [length]; [|lia].
  destruct (versions_at k s l) eqn:E; [done|]. cbn [length]. lia.
Qed.

Global Instance newest_first_dec l : Decision (newest_first l) := StronglySorted_dec _ l.

Module ReadExample.

Definition Heap (I : Type) : Type := list (HeapEntry I).
Global Instance heaps o : HeapFamily Heap := λ I, list_heap (he_cmp o).
Global Instance heaps_laws o : HeapFamilyLaws (H:=heaps o) Heap o.
Proof. intros I. apply list_heap_laws, _. Qed.

Definition mem : KVTable := table_put table_new (mkRow [97%Z] (Merge [4%Z]) 9 None None).
Definition imm : ImmutableMemtable :=
  mkImm 0 (table_put (table_put table_new (mkRow [97%Z] Tombstone 7 None None)) (mkRow [99%Z] (Value [5%Z]) 8 None None)) tracker_new.
Definition lsm : LsmTreeState := mkTree None None [] [mkRun 0 RunExample.views].
Definition state : DbStateReader := mkState mem [imm]
  (mkCore true lsm [] None 1 0 0 0 0 tracker_new [] None).
Definition data : list tree_rows := [([], [RunExample.shown])].
Definition batch (o : IterationOrder) : option WriteBatchIterator :=
  Some (mkBatchIter [mkRow [98%Z] (Value [6%Z]) U64_MAX None None] o).

Lemma state_readable : state_ok (reads_of StoreExample.store 20) state data.
Proof.
  split.
  - assert (∀ t e, table_ok t → MemTable.is_u64 (seq e) → table_ok (table_put t e)) as Hput by (intros t e Ht He; exact (put_inner_ok t e Ht He)).
    apply Forall_cons; split; [|apply Forall_cons; split; [|by apply Forall_nil]]; apply table_map_ok; repeat (apply Hput; [|unfold MemTable.is_u64, U64_MAX; cbn; lia]); apply table_new_ok.
  - constructor.
  - intros a b Ha. by apply not_elem_of_nil in Ha.
  - cbn. constructor; [|constructor]. split; [constructor|constructor|]. constructor; [|constructor]. split; [exact RunExample.views_ok|exact RunExample.readable].
  - repeat constructor; apply prefix_nil.
  - repeat constructor; vm_compute; discriminate.
Qed.

Lemma batch_in (range : BytesRange.t) o : BytesRange.contains range [98%Z] = true → batch_ok (batch o) range o.
Proof. intros Hr. split; [done|]. split; [repeat constructor|]. by constructor. Qed.

Lemma read_readable b max_seq range o : batch_ok b range o → b = None ∨ b = batch o → newest_first (read_rows b max_seq (db_sources state data)) →
  read_ok (reads_of StoreExample.store 20) state data b max_seq range o 30.
Proof.
  intros Hb Hcase Hnew. split; [exact state_readable|done|done| |].
  - apply distinct_nodup. destruct Hcase as [-> | ->]; vm_compute; repeat constructor; set_solver.
  - destruct Hcase as [-> | ->], o; vm_compute; lia.
Qed.
End ReadExample.


