(* ===== verification/DbSeek.v ===== *)
(** * Seeking in a scan

    [DbIterator::seek]: the guards in front of it, and what an ascending scan returns after it. *)

From S2P Require Export DbReads.

(** ** Sources that can be moved forward *)

Section top_seek.
  Context {B F : Type} `{FilterTraits B F} (Heap : Type → Type) `{HeapFamily Heap} (fuel : nat).
  Context `{!HeapFamilyLaws Heap Ascending}.
  Context (srel : SegmentIterator Heap (F:=F) → list RowEntry → list RowEntry → Prop).
  Context `{!Scan (H:=segment_iterator Heap fuel) srel, !ScanAdvance (H:=segment_iterator Heap fuel) srel}.

Lemma top_scan_advance : ScanAdvance (H:=top_iterator Heap fuel) (top_scan Heap fuel Ascending srel).
Proof.
  intros x0 x returned e l k Hx Hn Hk. unfold it_next in Hn. destruct x0 as [|b|m|m|s]; cbn [top_scan top_iterator] in *; [done|..];
    apply bind_Ok_inv in Hn as ([o' y] & Hn & [= -> <-]).
  - destruct (scan_advance b y returned e l k Hx Hn Hk) as (b' & ret' & Hs & Hr & Hk'). exists (TopBatch Heap b'), ret'. split; [|done].
    unfold it_seek. cbn [top_iterator]. rewrite Hs. by run.
  - pose proof (filtered_scan_advance (mem_rel Ascending) fuel) as Ha.
    destruct (scan_advance (H:=filtered_iterator fuel) m y returned e l k Hx Hn Hk) as (m' & ret' & Hs & Hr & Hk'). exists (TopMem Heap m'), ret'. split; [|done].
    unfold it_seek. cbn [top_iterator]. unfold mem_filtered. rewrite Hs. by run.
  - pose proof (filtered_scan_next (mem_rel Ascending) fuel Ascending) as Hf. pose proof (filtered_scan_advance (mem_rel Ascending) fuel) as Ha.
    pose proof (merge_scan_advance (H0:=filtered_iterator fuel) (filtered_scan (mem_rel Ascending) fuel Ascending) fuel true) as Hm.
    destruct (Hm m y returned e l k Hx Hn Hk) as (m' & ret' & Hs & Hr & Hk'). exists (TopMems Heap m'), ret'. split; [|done].
    unfold it_seek. cbn [top_iterator]. unfold any_merge_iterator, mem_filtered, MemMerge. rewrite Hs. by run.
  - pose proof (filter_scan_advance (H:=segment_iterator Heap fuel) srel fuel) as Ha.
    destruct (Ha s y returned e l k Hx Hn Hk) as (s' & ret' & Hs & Hr & Hk'). exists (TopSegment Heap s'), ret'. split; [|done].
    unfold it_seek. cbn [top_iterator]. unfold top_filter_iterator, seg_iterator. rewrite Hs. by run.
Qed.
End top_seek.

Section scan_seek.
  Context {B F : Type} `{FilterTraits B F} (Heap : Type → Type) `{HeapFamily Heap} (fuel : nat).
  Context (store : TableReads F) (opts : SstIteratorOptions) (range : BytesRange.t) (Hopts : scan_options_ok opts range) (Hasc : opt_order opts = Ascending).
  Context `{!HeapFamilyLaws Heap (opt_order opts)}.
  Local Notation srel := (seg_range_scan Heap fuel store opts range).

Lemma seg_range_advance : ScanAdvance (H:=segment_iterator Heap fuel) srel.
Proof using All.
  intros [g| |it0] x returned e l k Hx Hn Hk; [done|done|]. unfold it_next in Hn. cbn [segment_iterator] in Hn. apply bind_Ok_inv in Hn as ([o' it] & Hn & [= -> <-]).
  destruct (segment_scan_advance fuel store opts range Hopts it0 it returned e l k Hasc Hx Hn Hk) as (it' & ret' & Hs & Hr & Hk').
  exists (SegRange Heap it'), ret'. split; [|done]. unfold it_seek. cbn [segment_iterator]. unfold it_seek. cbn. rewrite Hs. by run.
Qed.

(** A seek of the merged sources leaves exactly the rows at or above the key. *)
Lemma scan_delegate_seek x returned l k : scan_delegate Heap fuel store opts range x returned l →
  ∃ x', it_seek (RowEntryIterator:=delegate_iterator Heap fuel) k x = Ok x' ∧ ∀ returned', scan_delegate Heap fuel store opts range x' returned' (from_k k l).
Proof using All.
  intros Hx. destruct x as [g|m]; [done|]. cbn [scan_delegate] in Hx.
  pose proof (seg_range_next Heap fuel store opts range Hopts) as Hsn. pose proof seg_range_advance as Hsa.
  pose proof (top_scan_next Heap fuel (opt_order opts) srel) as Htn. 
  unfold scan_delegate. rewrite Hasc in *. pose proof (top_scan_advance Heap fuel srel) as Hta.
  destruct (merge_scan_seek (H0:=top_iterator Heap fuel) (top_scan Heap fuel Ascending srel) fuel true m returned l k Hx) as (m' & Hs & Hm').
  exists (ByScan Heap m'). split; [|exact Hm']. unfold it_seek. cbn [delegate_iterator]. unfold it_seek. cbn [any_merge_iterator merge_iterator]. rewrite Hs. by run.
Qed.
End scan_seek.

(** ** A scan without a merge operator, between two calls *)

Section db_at.
  Context {B F : Type} `{FilterTraits B F} (Heap : Type → Type) `{HeapFamily Heap} (fuel : nat).
  Context (store : TableReads F) (opts : SstIteratorOptions) (range : BytesRange.t) (Hopts : scan_options_ok opts range) (Hasc : opt_order opts = Ascending).
  Context `{!HeapFamilyLaws Heap (opt_order opts)}.

Definition required_rel (it : RowIterator Heap (F:=F)) (l : list RowEntry) : Prop :=
  ∃ x ret, it = Requiring Heap (mkRequired x) ∧ scan_delegate Heap fuel store opts range x ret l ∧ Forall (λ e, is_merge (value e) = false) l.

Lemma required_steps : row_steps Heap fuel None required_rel.
Proof using All.
  intros it l (x & ret & -> & Hrel & Hm). pose proof (scan_delegate_next Heap fuel store opts range Hopts) as Hscan.
  pose proof (@scan_next _ (delegate_iterator Heap fuel) _ Hscan x ret _ Hrel) as Hn.
  destruct l as [|e l]; unfold it_next at 1; cbn [row_iterator]; unfold it_next at 1; cbn [required_iterator req_delegate]; unfold required_next.
  - destruct Hn as (x' & Hn & _). rewrite Hn. run. by eexists.
  - apply Forall_cons in Hm as [He Hm]. destruct Hn as (x' & Hn & Hr). rewrite Hn. run. rewrite He. run. eexists. split; [done|]. by exists x', (ret ++ [e]).
Qed.

(** The iterator, after [last] was returned, has the rows [l] ahead of it. *)
Record db_at (d : DbIterator Heap (F:=F)) (last : option bytes) (l : list RowEntry) : Prop := {
  at_valid : di_invalidated Heap d = None;
  at_order : di_order Heap d = Ascending;
  at_range : di_range Heap d = range;
  at_last : di_last_key Heap d = last;
  at_rows : required_rel (di_iter Heap d) l;
  at_fuel : length l < fuel;
}.

Lemma db_at_next d last l kv kvs : db_at d last l → omap kv_of l = kv :: kvs →
  ∃ d' l', db_next Heap fuel None d = (Ok (Some kv), d') ∧ db_at d' (Some (kv_key kv)) l' ∧ omap kv_of l' = kvs.
Proof using All.
  intros [Hv Ho Hr Hl Hrows Hf] Hkvs. pose proof (skip_tombstones_ok Heap fuel None _ fuel _ l required_steps Hrows Hf) as Hs. rewrite Hkvs in Hs.
  destruct Hs as (e & it' & l' & Hs & Hkv & Hrows' & Ho' & Hlen). unfold db_next, next_entry. rewrite Hv, Hs. run. rewrite Hkv. eexists _, l'. split; [done|].
  assert (kv_key kv = key e) as ->.
  { unfold entry_to_kv, key_value_from in Hkv. destruct (value e); cbn in Hkv; [..|done]; by injection Hkv as <-. }
  split; [|done]. split; cbn; [done|done|done|done|done|lia].
Qed.

Lemma db_at_yields d last l : db_at d last l → db_yields Heap fuel None d (omap kv_of l).
Proof using All.
  intros Hat. remember (omap kv_of l) as kvs eqn:Hkvs. symmetry in Hkvs. revert d last l Hat Hkvs. induction kvs as [|kv kvs IH]; intros d last l Hat Hkvs; cbn [db_yields].
  - destruct Hat as [Hv Ho Hr Hl Hrows Hf]. pose proof (skip_tombstones_ok Heap fuel None _ fuel _ l required_steps Hrows Hf) as Hs. rewrite Hkvs in Hs.
    destruct Hs as (it' & Hs). unfold db_next, next_entry. rewrite Hv, Hs. eexists. by run.
  - destruct (db_at_next d last l kv kvs Hat Hkvs) as (d' & l' & Hn & Hat' & Ho). exists d'. split; [done|]. by eapply IH.
Qed.

(** The iterator after [n] calls of [next]. *)
Fixpoint db_advance (n : nat) (d : DbIterator Heap (F:=F)) : DbIterator Heap (F:=F) :=
  match n with O => d | S n => db_advance n (db_next Heap fuel None d).2 end.

Lemma db_at_advance n d last l : db_at d last l → n ≤ length (omap kv_of l) →
  ∃ l', db_at (db_advance n d) (match list.last (take n (omap kv_of l)) with Some kv => Some (kv_key kv) | None => last end) l' ∧
    omap kv_of l' = drop n (omap kv_of l).
Proof using All.
  revert d last l. induction n as [|n IH]; intros d last l Hat Hn; [by exists l|]. destruct (omap kv_of l) as [|kv kvs] eqn:Hkvs; [cbn in Hn; lia|].
  destruct (db_at_next d last l kv kvs Hat Hkvs) as (d' & l' & Hd & Hat' & <-). cbn [db_advance take drop length] in *. rewrite Hd. cbn [snd].
  destruct (IH d' _ l' Hat' ltac:(lia)) as (l2 & Hat2 & Ho). exists l2. split; [|done]. rewrite last_cons. by destruct (list.last _).
Qed.

Lemma kv_of_from k (l : list RowEntry) : omap kv_of (from_k k l) = filter (λ kv, ord_ltb (kv_key kv) k = false) (omap kv_of l).
Proof.
  induction l as [|e l IH]; [done|]. change (omap kv_of (e :: l)) with (match kv_of e with Some kv => kv :: omap kv_of l | None => omap kv_of l end).
  destruct (ord_ltb (key e) k) eqn:He; [rewrite filter_cons_False by congruence|rewrite filter_cons_True by done].
  - rewrite IH. destruct (kv_of e) as [kv|] eqn:Hkv; [|done]. destruct (kv_of_some e kv Hkv) as [Hk _]. rewrite filter_cons_False; [done|]. rewrite Hk. congruence.
  - cbn [omap list_omap]. destruct (kv_of e) as [kv|] eqn:Hkv; [|done]. destruct (kv_of_some e kv Hkv) as [Hk _].
    rewrite filter_cons_True by by rewrite Hk. f_equal. exact IH.
Qed.

Lemma db_at_seek d last l k : db_at d last l → BytesRange.contains range k = true → (∀ q, last = Some q → q ≺ k) →
  ∃ d', db_seek Heap fuel None k d = (Ok tt, d') ∧ db_at d' last (from_k k l).
Proof using All.
  intros [Hv Ho Hr Hl (x & ret & Hit & Hrel & Hm) Hf] Hk Hlast. unfold db_seek. rewrite Hv, Ho, Hr, Hk, Hl, Hit. cbn [negb].
  assert (match last with Some q => ord_leb k q | None => false end = false) as ->.
  { destruct last as [q|]; [|done]. specialize (Hlast q eq_refl). ord. }
  destruct (scan_delegate_seek Heap fuel store opts range Hopts Hasc x ret l k Hrel) as (x' & Hs & Hx').
  unfold it_seek at 1. cbn [row_iterator]. unfold it_seek at 1. cbn [required_iterator req_delegate]. rewrite Hs. run. eexists. split; [done|].
  split; cbn; [done|done|done|done| |].
  - exists x', []. split; [done|]. split; [apply Hx'|]. rewrite Forall_forall in Hm |- *. intros e [_ He]%list_elem_of_filter. by apply Hm.
  - pose proof (length_filter (λ e, ord_ltb (key e) k = false) l). lia.
Qed.
End db_at.

Section seek_theorem.
  Context {B F : Type} `{FilterTraits B F} (Heap : Type → Type) `{HeapFamily Heap}.

End seek_theorem.

Module SeekExample.

Definition state : DbStateReader := mkState ReadExample.mem [ReadExample.imm] (mkCore true tree_default [] None 1 0 0 0 0 tracker_new [] None).
Definition range : BytesRange.t := BytesRange.mk (range_new (Included [98%Z]) Unbounded).

Lemma seek_state_readable : state_ok (reads_of StoreExample.store 20) state [([], [])].
Proof.
  destruct ReadExample.state_readable as [Ht Hs Ha _ _ _]. split; [exact Ht|exact Hs|exact Ha|..]; repeat constructor.
Qed.
End SeekExample.

